(* ===== verification/_CoqProject ===== *)
-Q . S2P
Prelude.v
Fibers.v
WaitQ.v
FMutex.v
Locks.v
Semaphore.v
RWMutex.v
WaitGroup.v
JoinSet.v
Future.v
Once.v
Watch.v
Context.v
Timers.v
Parker.v
NetSocket.v
CoopSocket.v
CoopStream.v
DnsProto.v
CoEvent.v
CoSemaphore.v
SimpleQueue.v
OffloadPool.v
AioFuture.v
AioLoop.v
Streams.v
PyStr.v
DnsResolver.v
Polling.v
AioTask.v
Condition.v
Executor.v
Group.v
Protocol.v
Transport.v
WritePipe.v
ReadPipe.v
Datagram.v
Server.v
LoopIO.v
Backoff.v
Proc.v
SemLock.v
Tls.v
StackSize.v
