(* ===== verification/Prelude.v ===== *)
(** * Verification of stackweave

    Stackweave (under [src/src/stackweave]) runs blocking Python code on stackful coroutines
    ("fibers") over a C scheduler.  Its Python half has four layers: the synchronisation library
    ([sync.py], [context.py], [time.py]); the replacements it installs for [threading], [queue],
    [socket] and blocking calls ([monkey/]); the wake-up substrate both use ([monkey/_base.py]); and
    an asyncio implementation ([aio/]).  This development models the parts with the program's own
    logic and proves what makes them correct.

    ** How the code is modelled

    [Fibers] is the runtime the primitives run on.  A primitive is a shared object and a
    [machine]: its operations cut into atomic blocks (a section under the object's guard, or one
    unguarded access) and the action that ends each block: go on, park with or without a deadline,
    sleep, wake a list of threads, return or raise.  [exec] runs one event of any number of threads,
    so a list of events is one interleaving, and [reach] is every reachable world.  The promises of
    the C runtime are stated there once: a wake is remembered, a timed park returns at its deadline,
    any park may return early.  Invariants are proved by local assertions and a ledger ([og_reach]),
    the absence of lost wake-ups by [woken_reach], and "nobody is stranded" by [quiescent_not_ready].
    Sequential code (sockets, DNS, asyncio futures, contexts) is modelled as functions in a state
    and error monad.  Exceptions are values of [pyexc]; times are integers of microseconds.  Callers'
    disciplines ("release what you acquired") are the [may] argument of [reach].

    What a theorem counts - permits handed out, items put and got, functions that ran, stack used by
    the runs - is recorded beside the modelled object, from the operations and their results
    ([CoSemaphore.ledger], [SimpleQueue.sq_ledger], [Group.frun], [StackSize.gledger]), or in fields
    that the code does not read, so that a wrong operation cannot write a record that hides it.

    ** The files

    - [Prelude]: notation, tactics, Python lists and exceptions, sums over maps.
    - [Fibers], [WaitQ]: the runtime; FIFO queues of waiter records with grant flags.
    - [FMutex] ([_base.CoFMutex]): mutual exclusion, hand-over order, no lost wake-up, freedom from
      deadlock.  [Locks] ([locks.py]: [CoLock], [CoRLock]) is proved against the interface that
      [FMutex] implements.
    - [Semaphore], [RWMutex], [WaitGroup], [JoinSet], [Future], [Once], [Watch] ([sync.py]):
      exclusion and permits, FIFO grants, the outcome of joins, one-time execution, single
      resolution, no missed change, and for each that a parked caller really has to wait.
    - [Context] ([context.py]): cancellation reaches every descendant, deadlines are sound, the
      cancellation work terminates.
    - [Timers] ([time.py]): a timer fires once and not after [Stop()]; a stopped ticker falls silent.
    - [Parker] ([_base._Parker], [_unpark_all]): the pool of pipes never leaks or shares a pipe, also
      when wakes come late and leave a byte in a pooled pipe; a wake is not lost, a batched wake
      reaches everyone.
    - [NetSocket] ([sync.Socket], [tcp_connect], [tcp_listen], [udp_endpoint]) and [CoopSocket],
      [CoopStream] ([monkey/sockets.py] and the timeout code of [_base.py]): the timeout a socket was
      asked for is the one it gets, transfers are exact and end, connects never report false success,
      no descriptor leaks.
    - [DnsProto] ([dns_proto.py]): round trip of responses, totality of the parser, well-formed
      queries.
    - [CoEvent], [CoSemaphore] ([events.py]), [SimpleQueue] ([queues.py]): events; permits, under any
      calls ([release(n)] and the cancellation of all waiters included); exactly once FIFO delivery.
    - [Condition] ([events.py]: [CoCondition]): notifications are exact, none is lost, [wait] gives the lock
      back as it was.  [Group] ([sync.py]): callers of one key share one run and its outcome, and a call
      after it runs anew.  [Executor]
      ([executors.py]): every future gets its own callable's outcome, the pool is bounded, [shutdown]
      waits for all of it.
    - [OffloadPool] ([_base._ThreadPoolBackend]): every submitter gets its own job's outcome, none is
      stranded, shutdown drains what was queued before it.
    - [AioFuture] ([aio/futures.py]): the future's state machine with callbacks that re-enter it.
    - [AioLoop] ([aio/loop_schedule.py], the run and stop part of [aio/loop_run.py]): every callback
      runs once and in order, timers are not early, the keepalive stays alive, fatal exceptions end
      the run.  [AioTask] ([aio/tasks.py]): the driver of coroutines; no await is stranded, a cancel
      reaches what it must reach.
    - [Streams] ([aio/streams.py]): reads do not depend on how the bytes arrive, [readuntil] equals a
      reference on the whole stream, the writer keeps every byte.
    - [Protocol]: what the transports share: reads and sends, the calls a protocol gets and the
      automaton of its contract.  [Transport] ([aio/transport_stream.py], [transport_stream_io.py]):
      bytes are exact, callbacks come as the contract says, nothing is left waiting unless the read
      path fails during a draining close.  [WritePipe] and
      [ReadPipe] ([aio/pipes.py]): the same for pipes, and a closed pipe ends.  [Datagram]
      ([aio/transport_datagram.py]): datagrams leave whole and in order, and a transport that was not
      closed before it was built ends properly.
    - [Server] ([aio/transport_server.py]): [wait_closed] returns when the server is closed and its
      connections are gone, and not before, unless the last one is garbage-collected.  [LoopIO]
      ([aio/loop_io.py]): a registered reader or writer keeps the fiber that serves it, as long as waits
      and callbacks do not end it; a removed one is not called.
    - [Tls] ([aio/tls_bio.py]): over any sequence of calls ciphertext goes out in order and without a
      gap until a send fails or is cancelled; a receive that would block has nothing left to give.
    - [Backoff] ([Thread.join] in [events.py], the semaphores of multiprocessing in [executors.py], the
      file locks and [sigwait] calls of [files.py] and [signals.py]): calls that poll with a growing
      sleep end in time with the right answer.  [SemLock] ([executors.py]): re-entrant multiprocessing
      locks exclude, under stated conditions on the scheduler.  [Proc] ([subproc.py]): waits for child
      processes end in time and leak no descriptor.  [StackSize] ([runtime.py]): the learned stack sizes
      stay within the default and are the largest that the measured runs call for.
    - [PyStr], [DnsResolver] ([monkey/dns.py]): string methods; configuration files, search list,
      cache, queries and the rows of [getaddrinfo].
    - [Polling] ([monkey/polling.py]): [select] over epoll, kqueue or the pool and the wrappers of the
      selectors end in time, although an untimed wait of the runtime need not return, tell the truth
      about what was ready and leak nothing.

    ** What is assumed

    The kernel and the C runtime are parameters.  Where a theorem needs their behaviour it is a law
    of a class ([Kernel], [TabLaws], [StreamLaws], [ConnectLaws], [SendfileLaws], [NetLaws],
    [PollLaws], [BackoffLaws], [ProcLaws], [SslLaws], [TlsNetLaws]) and a scripted instance
    shows that the laws can hold.  Loops that wait for the outside world take fuel; the
    theorems about their results either give enough fuel or are safety statements about every run
    that ends, with termination stated where the code promises it.

    Some theorems are about behaviour that the code does not intend (a wake-up lost between two
    consumers, a stranded waiter after a pulse, a callback run twice, a connect reported early, a
    cancel delivered twice, ciphertext lost by a cancelled send, a lock entered by two fibers, a
    timeout forgotten by [close] while a [makefile] object is in use, strategies of [sendfile] that
    start at different places, a datagram transport closed before it was built, a [wait_closed] that
    a collected connection leaves waiting); their comments say which lines do it.  Theorems whose
    conclusion needs the absence of such an event say so in their comment and name the theorem that
    shows what happens otherwise.

    ** What is not modelled, and the plan

    Not modelled: the C runtime; the rest of [runtime.py], [inspect.py] and [stats.py] (calls into it);
    the patch registry and the wrappers that only offload a call; the subprocesses of the asyncio
    loop, its connection constructors and the stream API (glue around modelled parts); the [sock_]
    coroutines of the loop, which repeat the loops of the socket layer; floating-point rounding of
    seconds. *)
From stdpp Require Export base gmap list numbers sets strings.

(** ** Notations and automation *)

Declare Scope sw_scope.
Delimit Scope sw_scope with sw.

(** Thread identifiers: a fiber handle ([stackweave_c.current_g()]) or a
    foreign OS thread. *)
Abbreviation tid := nat.

Create HintDb sw.

(** Split every [match]/[if] whose scrutinee blocks a hypothesis or the goal. *)
Ltac split_cases :=
  repeat (first [ case_decide | case_match ]; simplify_eq/=).

(** The same for one hypothesis, leaving the goal alone. *)
Ltac cases_in H :=
  repeat match type of H with
  | context [match ?x with _ => _ end] => let E := fresh "E" in destruct x eqn:E; simpl in H
  end.

(** Close goals that only need the hypotheses, arithmetic or set reasoning. *)
Ltac sw_done := try solve [ done | lia | congruence | set_solver | naive_solver ].

(** ** Python values shared by the components *)

(** The exceptions the modelled code raises or propagates.  [UserExc n] stands
    for an exception object raised by a user callable. *)
Inductive pyexc :=
  | RuntimeError (msg : string)
  | ValueError (msg : string)
  | TypeError (msg : string)
  | TimeoutError (msg : string)
  | OSError (msg : string)
  | BlockingIOError
  | InterruptedError
  | InvalidStateError (msg : string)
  | CancelledError (msg : option string)
  | QueueEmpty
  | StopIteration
  | AttributeError
  | GaiError (code : Z) (msg : string)
  | AssertionError (msg : string)
  | TimeoutExpired
  | ConnectionReset (msg : string)
  | ConnectionAborted (msg : string)
  | UserExc (n : nat).

#[export] Instance pyexc_eq_dec : EqDecision pyexc.
Proof. solve_decision. Defined.

(** How a Python call ends: with a value or with an exception. *)
Inductive out (V : Type) :=
  | Ret (v : V)
  | Exc (e : pyexc).
Arguments Ret {V} v.
Arguments Exc {V} e.

#[export] Instance out_eq_dec {V} `{EqDecision V} : EqDecision (out V).
Proof. solve_decision. Defined.

(** ** Python lists *)

(** [l.remove(x)]: drop the first occurrence, [None] for [ValueError]. *)
Fixpoint py_remove {A} `{EqDecision A} (x : A) (l : list A) : option (list A) :=
  match l with
  | [] => None
  | y :: l' => if decide (x = y) then Some l' else (y ::.) <$> py_remove x l'
  end.

(** [try: l.remove(x) except ValueError: pass] *)
Definition try_remove {A} `{EqDecision A} (x : A) (l : list A) : list A :=
  default l (py_remove x l).

Section py_lists.
Context {A : Type} `{EqDecision A}.
Implicit Types (x y : A) (l : list A).

Lemma py_remove_None x l : py_remove x l = None <-> x ∉ l.
Proof.
  induction l as [|y l IH]; simpl; [set_solver|].
  case_decide; [set_solver|].
  rewrite fmap_None, IH. set_solver.
Qed.

Lemma py_remove_Permutation x l l' :
  py_remove x l = Some l' -> l ≡ₚ x :: l'.
Proof.
  revert l'. induction l as [|y l IH]; simpl; intros l' H; [done|].
  case_decide; simplify_eq; [done|].
  apply fmap_Some in H as (k & Hk & ->).
  rewrite (IH k Hk). apply Permutation_swap.
Qed.

Lemma elem_of_try_remove_ne x y l : x ≠ y -> x ∈ try_remove y l <-> x ∈ l.
Proof.
  intros Hne. unfold try_remove. destruct (py_remove y l) as [k|] eqn:E; simpl; [|done].
  apply py_remove_Permutation in E. rewrite E. set_solver.
Qed.

Lemma elem_of_try_remove x y l : x ∈ try_remove y l -> x ∈ l.
Proof.
  unfold try_remove. destruct (py_remove y l) as [k|] eqn:E; simpl; [|done].
  apply py_remove_Permutation in E. rewrite E. set_solver.
Qed.

Lemma NoDup_try_remove x l : NoDup l -> NoDup (try_remove x l).
Proof.
  unfold try_remove. destruct (py_remove x l) as [k|] eqn:E; simpl; [|done].
  apply py_remove_Permutation in E. rewrite E. by intros ?%NoDup_cons_1_2.
Qed.

Lemma not_elem_of_try_remove x l : NoDup l -> x ∉ try_remove x l.
Proof.
  intros Hnd. unfold try_remove. destruct (py_remove x l) as [k|] eqn:E; simpl.
  - apply py_remove_Permutation in E. rewrite E in Hnd. by apply NoDup_cons_1_1 in Hnd.
  - by apply py_remove_None.
Qed.
End py_lists.

(** An update at a present key is an insert. *)
Lemma alter_as_insert `{Countable K} {A} (f : A -> A) (m : gmap K A) i x : m !! i = Some x -> alter f i m = <[i := f x]> m.
Proof.
  intros E. apply map_eq. intros j. destruct (decide (i = j)) as [<-|].
  - by rewrite lookup_alter_eq, lookup_insert_eq, E.
  - by rewrite lookup_alter_ne, lookup_insert_ne.
Qed.

(** ** Sums over finite maps

    The ledger invariants count what each thread holds: [msum f m] adds [f x]
    over the entries of [m]. *)
Definition msum {A} (f : A -> Z) (m : gmap nat A) : Z :=
  map_fold (λ _ x acc, f x + acc)%Z 0%Z m.

Section msum.
Context {A : Type} (f : A -> Z).
Implicit Types (m : gmap nat A).
Local Open Scope Z_scope.

Lemma msum_empty : msum f ∅ = 0.
Proof. done. Qed.

Lemma msum_insert_None m i x : m !! i = None -> msum f (<[i:=x]> m) = f x + msum f m.
Proof. intros H. unfold msum. rewrite map_fold_insert_L; [done|intros; lia|done]. Qed.

Lemma msum_delete m i x : m !! i = Some x -> msum f m = f x + msum f (delete i m).
Proof. intros H. unfold msum. rewrite (map_fold_delete_L _ _ i x m); [done|intros; lia|done]. Qed.

(** Updating one entry changes the sum by the difference at that entry. *)
Lemma msum_insert m i x d :
  f d = 0 -> msum f (<[i:=x]> m) = msum f m - f (default d (m !! i)) + f x.
Proof.
  intros Hd. destruct (m !! i) as [y|] eqn:E; simpl.
  - rewrite (msum_delete m i y E), <- insert_delete_eq.
    rewrite msum_insert_None by apply lookup_delete_eq. lia.
  - rewrite msum_insert_None by done. lia.
Qed.

Lemma msum_nonneg m : (forall i x, m !! i = Some x -> 0 <= f x) -> 0 <= msum f m.
Proof.
  induction m as [|i x m Hi IH] using map_ind; intros Hf; [done|].
  rewrite msum_insert_None by done.
  assert (0 <= f x) by (apply (Hf i); by rewrite lookup_insert_eq).
  assert (0 <= msum f m); [|lia].
  apply IH. intros j y Hj. apply (Hf j). rewrite lookup_insert_ne; congruence.
Qed.

Lemma msum_ge m i x :
  (forall j y, m !! j = Some y -> 0 <= f y) -> m !! i = Some x -> f x <= msum f m.
Proof.
  intros Hf Hi. rewrite (msum_delete m i x Hi).
  assert (0 <= msum f (delete i m)); [|lia].
  apply msum_nonneg. intros j y [_ Hj]%lookup_delete_Some. eauto.
Qed.

Lemma msum_ge2 m i j x y :
  (forall k z, m !! k = Some z -> 0 <= f z) -> i ≠ j ->
  m !! i = Some x -> m !! j = Some y -> f x + f y <= msum f m.
Proof.
  intros Hf Hne Hi Hj. rewrite (msum_delete m i x Hi).
  assert (f y <= msum f (delete i m)); [|lia].
  apply msum_ge with (i := j); [|by rewrite lookup_delete_ne].
  intros k z [_ Hk]%lookup_delete_Some. eauto.
Qed.

Lemma msum_exists m : msum f m ≠ 0 -> exists i x, m !! i = Some x /\ f x ≠ 0.
Proof.
  induction m as [|i x m Hi IH] using map_ind; intros Hs; [done|].
  rewrite msum_insert_None in Hs by done.
  destruct (decide (f x = 0)) as [Hx|Hx]; [|exists i, x; by rewrite lookup_insert_eq].
  destruct IH as (j & y & Hj & Hy); [lia|].
  exists j, y. rewrite lookup_insert_ne; [done|congruence].
Qed.

Lemma msum_zero m : (forall i x, m !! i = Some x -> f x = 0) -> msum f m = 0.
Proof.
  induction m as [|i x m Hi IH] using map_ind; intros Hf; [done|].
  rewrite msum_insert_None by done.
  rewrite (Hf i x) by apply lookup_insert_eq. rewrite IH; [lia|].
  intros j y Hj. apply (Hf j). rewrite lookup_insert_ne; congruence.
Qed.
End msum.

(** ** Fresh numbers *)

(** A descriptor number that is not in use. *)
Definition fresh_fd (X : gset Z) : Z := (1 + set_fold Z.max 0 X)%Z.

Lemma fresh_fd_new X : fresh_fd X ∉ X.
Proof.
  assert (forall x, x ∈ X -> x <= set_fold Z.max 0 X)%Z as H.
  { apply (set_fold_ind_L (λ r X, forall x, x ∈ X -> x <= r)%Z); [set_solver|].
    intros y Y r _ IH x [->%elem_of_singleton|Hx]%elem_of_union; [lia|]. specialize (IH x Hx). lia. }
  intros Hin%H. unfold fresh_fd in Hin. lia.
Qed.
