(* ===== verification/Fibers.v ===== *)
(** * The fiber runtime the primitives run on

    A cooperative primitive is a shared object and a set of methods.  A method
    is a sequence of atomic blocks (the code between taking and releasing the
    object's guard, or one unguarded read) separated by [park()], [sleep()] and
    [wake()] calls.  [machine] collects a primitive's blocks; [exec] runs one
    event of any number of threads over one shared object, so that a list of
    events is one interleaving.

    The runtime promises of [stackweave_c] that the code relies on are modelled
    here once: [G.wake] adds a pending wake, a [park] consumes one pending wake
    or waits for it (a wake that precedes the park is not lost), a timed park
    returns at its deadline, and any park may return spuriously. *)
From S2P Require Import Prelude.
Local Open Scope Z_scope.

(** What a block asks for when it ends.  Times are microseconds of
    [time.monotonic()]. *)
Inductive action (Pc V : Type) :=
  | AGoto (p : Pc)                      (** continue at [p] *)
  | APark (dl : option Z) (p : Pc)      (** [park(timeout)], then [p] *)
  | ASleep (until : Z) (p : Pc)         (** [time.sleep], then [p] *)
  | AWake (l : list tid) (r : out V)    (** [for g in l: g.wake()], then end *)
  | AReturn (r : out V).                (** return or raise *)
Arguments AGoto {Pc V} p.
Arguments APark {Pc V} dl p.
Arguments ASleep {Pc V} until p.
Arguments AWake {Pc V} l r.
Arguments AReturn {Pc V} r.

(** The control state of one thread with respect to the object. *)
Inductive ctl (Op Pc V : Type) :=
  | Idle
  | At (o : Op) (p : Pc)
  | Parked (o : Op) (dl : option Z) (p : Pc)
  | Sleeping (o : Op) (until : Z) (p : Pc)
  | Waking (o : Op) (l : list tid) (r : out V)
  | Fin (o : Op) (r : out V).
Arguments Idle {Op Pc V}.
Arguments At {Op Pc V} o p.
Arguments Parked {Op Pc V} o dl p.
Arguments Sleeping {Op Pc V} o until p.
Arguments Waking {Op Pc V} o l r.
Arguments Fin {Op Pc V} o r.

(** A primitive: its object, its operations, their program points and the block
    at each point.  [m_block t fib now o p s] runs the block at [p] of call [o]
    by thread [t] ([fib]: [t] is a fiber) at time [now] on object [s]. *)
Record machine (Obj Op Pc V : Type) := Machine {
  m_entry : Op -> Pc;
  m_block : tid -> bool -> Z -> Op -> Pc -> Obj -> Obj * action Pc V
}.
Arguments Machine {Obj Op Pc V} _ _.
Arguments m_entry {Obj Op Pc V} _ _.
Arguments m_block {Obj Op Pc V} _ _ _ _ _ _ _.

(** The object, the threads' control states, the pending wakes and the clock. *)
Record world (Obj Op Pc V : Type) := World {
  w_obj : Obj;
  w_ctl : gmap tid (ctl Op Pc V);
  w_tok : gmap tid nat;
  w_now : Z
}.
Arguments World {Obj Op Pc V} _ _ _ _.
Arguments w_obj {Obj Op Pc V} _.
Arguments w_ctl {Obj Op Pc V} _.
Arguments w_tok {Obj Op Pc V} _.
Arguments w_now {Obj Op Pc V} _.

Definition ctl_of {Obj Op Pc V} (w : world Obj Op Pc V) (t : tid) : ctl Op Pc V :=
  default Idle (w_ctl w !! t).
Definition pending {Obj Op Pc V} (w : world Obj Op Pc V) (t : tid) : nat :=
  default O (w_tok w !! t).
Definition start {Obj Op Pc V} (s : Obj) : world Obj Op Pc V := World s ∅ ∅ 0.

(** One interleaving step. *)
Inductive event (Op : Type) :=
  | ECall (t : tid) (o : Op)
  | EStep (t : tid)
  | ESpurious (t : tid)
  | ETick (d : Z).
Arguments ECall {Op} t o.
Arguments EStep {Op} t.
Arguments ESpurious {Op} t.
Arguments ETick {Op} d.

(** Neither running nor waiting inside a method: may start a new call. *)
Definition at_rest {Op Pc V} (c : ctl Op Pc V) : bool :=
  match c with Idle | Fin _ _ => true | _ => false end.

(** Whether a deadline has passed. *)
Definition due (dl : option Z) (now : Z) : bool :=
  match dl with Some d => d <=? now | None => false end.

(** The control state an action leads to. *)
Definition act_ctl {Op Pc V} (o : Op) (a : action Pc V) : ctl Op Pc V :=
  match a with
  | AGoto p => At o p
  | APark dl p => Parked o dl p
  | ASleep u p => Sleeping o u p
  | AWake l r => Waking o l r
  | AReturn r => Fin o r
  end.

Section fibers.
Context {Obj Op Pc V : Type} (M : machine Obj Op Pc V).
(** Which threads are fibers ([current_g()] is not [None]). *)
Context (isf : tid -> bool).
(** Which calls a client may start: the discipline of the callers. *)
Context (may : tid -> ctl Op Pc V -> Op -> bool).

Abbreviation mctl := (ctl Op Pc V).
Abbreviation world := (world Obj Op Pc V).

Definition put (w : world) (t : tid) (c : mctl) : world :=
  World (w_obj w) (<[t := c]> (w_ctl w)) (w_tok w) (w_now w).

(** [G.wake()]: credit one pending wake. *)
Definition wake (w : world) (g : tid) : world :=
  World (w_obj w) (w_ctl w) (<[g := S (pending w g)]> (w_tok w)) (w_now w).

(** A park consumes one pending wake. *)
Definition consume (w : world) (g : tid) : world :=
  World (w_obj w) (w_ctl w) (<[g := pred (pending w g)]> (w_tok w)) (w_now w).

Definition run_block (w : world) (t : tid) (o : Op) (p : Pc) : world :=
  let '(s', a) := m_block M t (isf t) (w_now w) o p (w_obj w) in
  World s' (<[t := act_ctl o a]> (w_ctl w)) (w_tok w) (w_now w).

Definition exec (w : world) (e : event (Op)) : option world :=
  match e with
  | ECall t o =>
      if at_rest (ctl_of w t) && may t (ctl_of w t) o
      then Some (put w t (At o (m_entry M o))) else None
  | EStep t =>
      match ctl_of w t with
      | At o p => Some (run_block w t o p)
      | Parked o dl p =>
          if decide (0 < pending w t)%nat then Some (put (consume w t) t (At o p))
          else if due dl (w_now w) then Some (put w t (At o p)) else None
      | Sleeping o u p => if u <=? w_now w then Some (put w t (At o p)) else None
      | Waking o (g :: l) r => Some (put (wake w g) t (Waking o l r))
      | Waking o [] r => Some (put w t (Fin o r))
      | Idle | Fin _ _ => None
      end
  | ESpurious t =>
      match ctl_of w t with
      | Parked o dl p => Some (put w t (At o p))
      | _ => None
      end
  | ETick d =>
      if 0 <=? d
      then Some (World (w_obj w) (w_ctl w) (w_tok w) (w_now w + d)) else None
  end.

Fixpoint run (w : world) (es : list (event (Op))) : option world :=
  match es with
  | [] => Some w
  | e :: es' => w' ← exec w e; run w' es'
  end.

(** The same steps as a relation. *)
Inductive step (w : world) : world -> Prop :=
  | step_call t o :
      at_rest (ctl_of w t) = true -> may t (ctl_of w t) o = true ->
      step w (put w t (At o (m_entry M o)))
  | step_block t o p s' a :
      ctl_of w t = At o p ->
      m_block M t (isf t) (w_now w) o p (w_obj w) = (s', a) ->
      step w (World s' (<[t := act_ctl o a]> (w_ctl w)) (w_tok w) (w_now w))
  | step_resume t o dl p :
      ctl_of w t = Parked o dl p -> (0 < pending w t)%nat ->
      step w (put (consume w t) t (At o p))
  | step_unpark t o dl p :
      ctl_of w t = Parked o dl p -> step w (put w t (At o p))
  | step_slept t o u p :
      ctl_of w t = Sleeping o u p -> u <= w_now w -> step w (put w t (At o p))
  | step_wake t o g l r :
      ctl_of w t = Waking o (g :: l) r -> step w (put (wake w g) t (Waking o l r))
  | step_woken t o r :
      ctl_of w t = Waking o [] r -> step w (put w t (Fin o r))
  | step_tick d :
      0 <= d -> step w (World (w_obj w) (w_ctl w) (w_tok w) (w_now w + d)).

Lemma exec_step w e w' : exec w e = Some w' -> step w w'.
Proof.
  destruct e as [t o|t|t|d]; simpl; intros H.
  - destruct (at_rest _ && may _ _ _) eqn:E; simplify_eq.
    apply andb_true_iff in E as [? ?]. by constructor.
  - destruct (ctl_of w t) as [|o p|o dl p|o u p|o [|g l] r|o r] eqn:E; simplify_eq.
    + unfold run_block. destruct (m_block _ _ _ _ _ _ _) eqn:B. by econstructor.
    + case_decide; simplify_eq; [by econstructor|].
      case_match; simplify_eq. by econstructor.
    + case_match; simplify_eq. econstructor; [done|lia].
    + by econstructor.
    + by econstructor.
  - destruct (ctl_of w t) as [|o p|o dl p|o u p|o l r|o r] eqn:E; simplify_eq.
    by econstructor.
  - case_match; simplify_eq. constructor. lia.
Qed.

Lemma step_exec w w' : step w w' -> exists e, exec w e = Some w'.
Proof.
  destruct 1 as [t o Hr Hm|t o p s' a Hc Hb|t o dl p Hc Hp|t o dl p Hc|t o u p Hc Hu
    |t o g l r Hc|t o r Hc|d Hd].
  - exists (ECall t o). simpl. by rewrite Hr, Hm.
  - exists (EStep t). simpl. rewrite Hc. unfold run_block. by rewrite Hb.
  - exists (EStep t). simpl. rewrite Hc. by rewrite decide_True.
  - exists (ESpurious t). simpl. by rewrite Hc.
  - exists (EStep t). simpl. rewrite Hc. by rewrite (proj2 (Z.leb_le _ _) Hu).
  - exists (EStep t). simpl. by rewrite Hc.
  - exists (EStep t). simpl. by rewrite Hc.
  - exists (ETick d). simpl. by rewrite (proj2 (Z.leb_le _ _) Hd).
Qed.

(** ** Reachable worlds *)

Inductive reach (s0 : Obj) : world -> Prop :=
  | reach_start : reach s0 (start s0)
  | reach_step w w' : reach s0 w -> step w w' -> reach s0 w'.

Lemma run_reach s0 es w w' : reach s0 w -> run w es = Some w' -> reach s0 w'.
Proof.
  revert w. induction es as [|e es IH]; simpl; intros w Hr H; [by simplify_eq|].
  apply bind_Some in H as (w1 & H1 & H2).
  eapply IH; [|done]. eapply reach_step; [done|]. by eapply exec_step.
Qed.

(** The world an executable interleaving leads to ([s0] if it is not one). *)
Definition after (s0 : Obj) (es : list (event (Op))) : world :=
  default (start s0) (run (start s0) es).

Lemma after_reach s0 es : reach s0 (after s0 es).
Proof.
  unfold after. destruct (run (start s0) es) as [w|] eqn:E; simpl; [|constructor].
  eapply run_reach; [constructor|done].
Qed.

Lemma ctl_put w t c t' : ctl_of (put w t c) t' = if decide (t = t') then c else ctl_of w t'.
Proof. unfold ctl_of; simpl. rewrite lookup_insert. by case_decide. Qed.

Lemma ctl_upd (s : Obj) (m : gmap tid mctl) tok n t c t' :
  ctl_of (World s (<[t := c]> m) tok n) t' =
  if decide (t = t') then c else default Idle (m !! t').
Proof. unfold ctl_of; simpl. rewrite lookup_insert. by case_decide. Qed.

Lemma pending_wake w g t :
  pending (wake w g) t = if decide (g = t) then S (pending w g) else pending w t.
Proof. unfold pending, wake; simpl. rewrite lookup_insert. by case_decide. Qed.

(** ** Invariants by local assertions

    [G] holds of the object, [L s t c] of each thread, and the entries of a
    ledger ([own] per control state) add up to [bal] of the object. *)
Section invariant.
Context (G : Obj -> Prop).
Context (L : Obj -> tid -> mctl -> Prop).
Context (own : mctl -> Z) (bal : Obj -> Z).

Definition og_inv (w : world) : Prop :=
  G (w_obj w) /\ (forall t, L (w_obj w) t (ctl_of w t)) /\ msum own (w_ctl w) = bal (w_obj w).

(** Moves that do not touch the object keep the thread's assertion. *)
Class quiet_moves : Prop := {
  qm_own_idle : own Idle = 0;
  qm_call s t c o : at_rest c = true -> may t c o = true -> G s -> L s t c ->
    L s t (At o (m_entry M o)) /\ own (At o (m_entry M o)) = own c;
  qm_unpark s t o dl p : L s t (Parked o dl p) ->
    L s t (At o p) /\ own (At o p) = own (Parked o dl p);
  qm_slept s t o u p : L s t (Sleeping o u p) ->
    L s t (At o p) /\ own (At o p) = own (Sleeping o u p);
  qm_wake s t o g l r : L s t (Waking o (g :: l) r) ->
    L s t (Waking o l r) /\ own (Waking o l r) = own (Waking o (g :: l) r);
  qm_woken s t o r : L s t (Waking o [] r) ->
    L s t (Fin o r) /\ own (Fin o r) = own (Waking o [] r)
}.

(** A block establishes its own assertion, keeps the others' and balances
    the ledger. *)
Definition blocks_ok : Prop :=
  forall t now o p s s' a,
    G s -> L s t (At o p) -> m_block M t (isf t) now o p s = (s', a) ->
    G s' /\ L s' t (act_ctl o a) /\
    (forall t' c, t' ≠ t -> L s t' c -> L s' t' c) /\
    own (act_ctl o a) - own (At o p) = bal s' - bal s.

Lemma og_put w t c :
  own Idle = 0 -> og_inv w -> L (w_obj w) t c -> own c = own (ctl_of w t) ->
  og_inv (put w t c).
Proof.
  intros Ho (HG & HL & Hs) Hc Hown. split_and!; simpl; [done| |].
  - intros t'. rewrite ctl_put. case_decide; subst; [done|]. apply HL.
  - rewrite (msum_insert own (w_ctl w) t c Idle Ho). unfold ctl_of in Hown. lia.
Qed.

Lemma og_step `{!quiet_moves} : blocks_ok ->
  forall w w', og_inv w -> step w w' -> og_inv w'.
Proof.
  intros Hb w w' Hi Hst. pose proof Hi as (HG & HL & Hs).
  pose proof qm_own_idle as Ho.
  destruct Hst as [t o Hr Hm|t o p s' a Hc Hbl|t o dl p Hc Hp|t o dl p Hc|t o u p Hc Hu
    |t o g l r Hc|t o r Hc|d Hd].
  - destruct (qm_call (w_obj w) t (ctl_of w t) o Hr Hm HG (HL t)). by apply og_put.
  - pose proof (HL t) as Ht. rewrite Hc in Ht.
    destruct (Hb t (w_now w) o p (w_obj w) s' a HG Ht Hbl) as (HG' & Ht' & Hot & Hown).
    split_and!; simpl; [done| |].
    + intros t'. rewrite ctl_upd. case_decide; subst; [done|]. apply Hot; [done|apply HL].
    + rewrite (msum_insert own (w_ctl w) t _ Idle Ho). unfold ctl_of in Hc. rewrite Hc. lia.
  - pose proof (HL t) as Ht. rewrite Hc in Ht. destruct (qm_unpark _ _ _ _ _ Ht) as [? He].
    apply og_put; [done|done|done|]. rewrite He. unfold ctl_of in *. simpl. by rewrite Hc.
  - pose proof (HL t) as Ht. rewrite Hc in Ht. destruct (qm_unpark _ _ _ _ _ Ht) as [? He].
    apply og_put; [done|done|done|]. by rewrite Hc.
  - pose proof (HL t) as Ht. rewrite Hc in Ht. destruct (qm_slept _ _ _ _ _ Ht) as [? He].
    apply og_put; [done|done|done|]. by rewrite Hc.
  - pose proof (HL t) as Ht. rewrite Hc in Ht. destruct (qm_wake _ _ _ _ _ _ Ht) as [? He].
    apply og_put; [done|done|done|]. rewrite He. unfold ctl_of in *. simpl. by rewrite Hc.
  - pose proof (HL t) as Ht. rewrite Hc in Ht. destruct (qm_woken _ _ _ _ Ht) as [? He].
    apply og_put; [done|done|done|]. by rewrite Hc.
  - split_and!; done.
Qed.

Theorem og_reach `{!quiet_moves} s0 :
  G s0 -> (forall t, L s0 t Idle) -> bal s0 = 0 -> blocks_ok ->
  forall w, reach s0 w -> og_inv w.
Proof.
  intros HG HL0 Hb Hok w Hr. induction Hr as [|w w' Hr IH Hst].
  - split_and!; simpl; [done| |by rewrite Hb].
    intros t. unfold ctl_of; simpl. rewrite lookup_empty; simpl. apply HL0.
  - by eapply og_step.
Qed.
End invariant.

(** ** No lost wake-ups

    [ready s t c]: a thread in control state [c] is parked, or is going to
    park without checking again, although it has been granted or dequeued.
    Every such thread has a wake pending, or some thread is about to wake
    it. *)
Section no_lost_wake.
Context (G : Obj -> Prop).
Context (L : Obj -> tid -> mctl -> Prop).
Context (own : mctl -> Z) (bal : Obj -> Z).
Context (ready : Obj -> tid -> mctl -> bool).

Definition waking (w : world) (t : tid) : Prop :=
  exists t' o l r, ctl_of w t' = Waking o l r /\ t ∈ l.

Definition woken_inv (w : world) : Prop :=
  forall t, ready (w_obj w) t (ctl_of w t) = true -> (0 < pending w t)%nat \/ waking w t.

(** A block leaves its own thread ready only if it was ready before, and
    wakes everyone it makes ready; a park that returns leads to a check. *)
Class wakes_ok : Prop := {
  wk_idle s t : ready s t Idle = false;
  wk_entry s t o : ready s t (At o (m_entry M o)) = false;
  wk_unpark s t o dl p : L s t (Parked o dl p) -> ready s t (At o p) = false;
  wk_slept s t o u p : L s t (Sleeping o u p) -> ready s t (At o p) = false;
  wk_waking s t o l r : ready s t (Waking o l r) = false;
  wk_fin s t o r : ready s t (Fin o r) = false;
  wk_self t now o p s s' a : G s -> L s t (At o p) ->
    m_block M t (isf t) now o p s = (s', a) ->
    ready s' t (act_ctl o a) = true -> ready s t (At o p) = true;
  wk_cover t now o p s s' a t' c' : G s -> L s t (At o p) ->
    m_block M t (isf t) now o p s = (s', a) -> t' ≠ t ->
    L s t' c' -> ready s t' c' = false -> ready s' t' c' = true ->
    exists l r, a = AWake l r /\ t' ∈ l
}.

Lemma waking_put w t c t0 :
  (forall o l r, ctl_of w t = Waking o l r -> t0 ∉ l) -> waking w t0 -> waking (put w t c) t0.
Proof.
  intros Hn (t' & o & l & r & Hc & Hin). exists t', o, l, r.
  rewrite ctl_put. case_decide; subst; [|done]. by destruct (Hn _ _ _ Hc).
Qed.

Lemma woken_put w t c :
  woken_inv w -> (forall o l r, ctl_of w t ≠ Waking o l r) ->
  ready (w_obj w) t c = false -> woken_inv (put w t c).
Proof.
  intros Hw Hn Hc t'. rewrite ctl_put. simpl. case_decide; [by subst; rewrite Hc|].
  intros Hr. destruct (Hw _ Hr) as [?|Hk]; [by left|right].
  apply waking_put; [|done]. intros o l r Hl. by destruct (Hn o l r).
Qed.

Lemma woken_block w t o p s' a :
  wakes_ok -> og_inv G L own bal w -> woken_inv w -> ctl_of w t = At o p ->
  m_block M t (isf t) (w_now w) o p (w_obj w) = (s', a) ->
  woken_inv (World s' (<[t := act_ctl o a]> (w_ctl w)) (w_tok w) (w_now w)).
Proof.
  intros HW (HG & HL & _) Hw Hc Hb.
  pose proof (HL t) as Ht. rewrite Hc in Ht.
  assert (forall t', ready (w_obj w) t' (ctl_of w t') = true ->
    (0 < pending w t')%nat \/
    waking (World s' (<[t := act_ctl o a]> (w_ctl w)) (w_tok w) (w_now w)) t') as Hkeep.
  { intros t' Hr. destruct (Hw _ Hr) as [?|(t2 & o2 & l2 & r2 & H2 & Hin)]; [by left|right].
    exists t2, o2, l2, r2. rewrite ctl_upd. case_decide; [congruence|done]. }
  intros t'. rewrite ctl_upd. simpl. case_decide as Htt.
  { subst t'. intros Hr. apply Hkeep. rewrite Hc. by eapply wk_self. }
  change (default Idle (w_ctl w !! t')) with (ctl_of w t'). intros Hr.
  destruct (ready (w_obj w) t' (ctl_of w t')) eqn:E; [by apply Hkeep|].
  destruct (wk_cover t (w_now w) o p (w_obj w) s' a t' (ctl_of w t')) as (l & r & -> & Hin);
    [done..|]. right. exists t, o, l, r. rewrite ctl_upd. by rewrite decide_True.
Qed.

Lemma woken_wake w t o g l r :
  wakes_ok -> woken_inv w -> ctl_of w t = Waking o (g :: l) r ->
  woken_inv (put (wake w g) t (Waking o l r)).
Proof.
  intros HW Hw Hc t'. rewrite ctl_put. simpl. case_decide; [by rewrite wk_waking|].
  change (ctl_of (wake w g) t') with (ctl_of w t'). intros Hr.
  destruct (decide (g = t')) as [->|Hg].
  { left. change (0 < pending (wake w t') t')%nat.
    rewrite pending_wake, decide_True by done. lia. }
  destruct (Hw _ Hr) as [Hpd|(t2 & o2 & l2 & r2 & H2 & Hin)].
  { left. change (0 < pending (wake w g) t')%nat. by rewrite pending_wake, decide_False. }
  right. destruct (decide (t2 = t)) as [->|Hne].
  - exists t, o, l, r. rewrite ctl_put, decide_True by done. split; [done|].
    rewrite Hc in H2. simplify_eq. by apply elem_of_cons in Hin as [->|?].
  - exists t2, o2, l2, r2. rewrite ctl_put, decide_False by done. done.
Qed.

Lemma woken_resume w t o dl p :
  woken_inv w -> ctl_of w t = Parked o dl p -> ready (w_obj w) t (At o p) = false ->
  woken_inv (put (consume w t) t (At o p)).
Proof.
  intros Hw Hc Hn t'. rewrite ctl_put. simpl. case_decide as Htt; [by subst; rewrite Hn|].
  change (ctl_of (consume w t) t') with (ctl_of w t'). intros Hr.
  destruct (Hw _ Hr) as [Hpd|Hk].
  - left. unfold pending, consume; simpl. by rewrite lookup_insert_ne.
  - right. apply waking_put; [|done].
    intros o2 l2 r2. change (ctl_of (consume w t) t) with (ctl_of w t). congruence.
Qed.

Lemma woken_step w w' : wakes_ok ->
  og_inv G L own bal w -> woken_inv w -> step w w' -> woken_inv w'.
Proof.
  intros HW Hi Hw Hst. pose proof Hi as (_ & HL & _).
  destruct Hst as [t o Hr Hm|t o p s' a Hc Hbl|t o dl p Hc Hp|t o dl p Hc|t o u p Hc Hu
    |t o g l r Hc|t o r Hc|d Hd].
  - apply woken_put; [done| |apply wk_entry]. intros o' l r Hc. by rewrite Hc in Hr.
  - by eapply woken_block.
  - pose proof (HL t) as Ht. rewrite Hc in Ht. eapply woken_resume; [done..|by eapply wk_unpark].
  - pose proof (HL t) as Ht. rewrite Hc in Ht.
    apply woken_put; [done|congruence|by eapply wk_unpark].
  - pose proof (HL t) as Ht. rewrite Hc in Ht.
    apply woken_put; [done|congruence|by eapply wk_slept].
  - by eapply woken_wake.
  - intros t'. rewrite ctl_put. simpl. case_decide; [by rewrite wk_fin|]. intros Hr.
    destruct (Hw _ Hr) as [?|Hk]; [by left|right].
    apply waking_put; [|done]. intros o2 l2 r2 H2. rewrite Hc in H2. simplify_eq.
    apply not_elem_of_nil.
  - exact Hw.
Qed.

Lemma woken_reach `{!quiet_moves G L own} s0 :
  G s0 -> (forall t, L s0 t Idle) -> bal s0 = 0 -> blocks_ok G L own bal -> wakes_ok ->
  forall w, reach s0 w -> woken_inv w.
Proof.
  intros HG HL0 Hb Hok HW w Hr.
  assert (og_inv G L own bal w /\ woken_inv w) as [_ ?]; [|done].
  induction Hr as [|w w' Hr [IH1 IH2] Hst].
  - split; [apply (og_reach G L own bal s0 HG HL0 Hb Hok); constructor|].
    intros t. unfold ctl_of; simpl. rewrite lookup_empty; simpl. by rewrite wk_idle.
  - split; [by eapply og_step|by eapply woken_step].
Qed.
End no_lost_wake.

(** Both kinds of invariant at once. *)
Lemma inv_reach G L own bal ready `{!quiet_moves G L own} s0 :
  G s0 -> (forall t, L s0 t Idle) -> bal s0 = 0 -> blocks_ok G L own bal ->
  wakes_ok G L ready -> forall w, reach s0 w -> og_inv G L own bal w /\ woken_inv ready w.
Proof.
  intros HG HL0 Hb Hok HW w Hr. split.
  - by apply (og_reach G L own bal s0 HG HL0 Hb Hok).
  - by apply (woken_reach G L own bal ready s0 HG HL0 Hb Hok HW).
Qed.

(** ** Quiescence: no thread can take another step on its own *)
Definition quiescent (w : world) : Prop := forall t, exec w (EStep t) = None.

(** In a quiescent world a parked thread is not ready and not past its
    deadline: nobody is stranded. *)
Lemma quiescent_not_ready ready w t o dl p :
  woken_inv ready w -> quiescent w -> ctl_of w t = Parked o dl p ->
  ready (w_obj w) t (Parked o dl p) = false /\ due dl (w_now w) = false.
Proof.
  intros Hw Hq Hp. pose proof (Hq t) as Ht. simpl in Ht. rewrite Hp in Ht.
  destruct (decide (0 < pending w t)%nat) as [|Hn]; [done|].
  split; [|by destruct (due dl (w_now w))].
  rewrite <- Hp. destruct (ready _ _ _) eqn:E; [|done].
  destruct (Hw _ E) as [?|(t' & o' & l & r & Hc & Hin)]; [done|].
  pose proof (Hq t') as Ht'. simpl in Ht'. rewrite Hc in Ht'. by destruct l.
Qed.

(** Quiescence is decided by looking at the threads that have made a call. *)
Definition quiescentb (w : world) : bool :=
  forallb (λ '(t, _), match exec w (EStep t) with None => true | Some _ => false end)
    (map_to_list (w_ctl w)).

Lemma quiescentb_sound w : quiescentb w = true -> quiescent w.
Proof.
  intros H t. destruct (w_ctl w !! t) as [c|] eqn:E.
  - unfold quiescentb in H. rewrite forallb_forall in H.
    specialize (H (t, c)). rewrite <- list_elem_of_In, elem_of_map_to_list in H.
    specialize (H E). simpl in H. simpl. by case_match.
  - simpl. unfold ctl_of. by rewrite E.
Qed.

Lemma quiescent_cases w t : quiescent w ->
  at_rest (ctl_of w t) = true \/ (exists o dl p, ctl_of w t = Parked o dl p) \/
  (exists o u p, ctl_of w t = Sleeping o u p /\ w_now w < u).
Proof.
  intros Hq. specialize (Hq t). simpl in Hq.
  destruct (ctl_of w t) as [|o p|o dl p|o u p|o [|g l] r|o r] eqn:E; simpl; try done; [by left|by right; left; eauto| |by left].
  case_match; [done|]. right; right. exists o, u, p. split; [done|lia].
Qed.
End fibers.

(** Callers that may start any call at any time. *)
Definition any_call {Op Pc V : Type} (t : tid) (c : ctl Op Pc V) (o : Op) : bool := true.

(** [_resolve_from_fiber(what)] of [sync.py]: what a fiber-only operation raises
    on a foreign OS thread, before it touches the object. *)
Definition foreign_error (what : string) : pyexc :=
  RuntimeError (what ++ " must be called from a fiber, not a foreign OS thread").
