(* ===== verification/WaitQ.v ===== *)
(** * Waiter queues with shared grant flags

    CoFMutex, RWMutex, Semaphore and CoSemaphore all keep a FIFO of waiter
    records (a small Python list such as [[g, n, [granted]]] or
    [[parker, active, granted]]) that the waiter and the releaser share: the
    releaser pops the record and sets its flag under the guard, the waiter reads
    the flag when it wakes.  A [waitq] holds the records on a small heap, so that
    both sides refer to the same record by its identity. *)
From S2P Require Import Prelude Fibers.
Local Open Scope Z_scope.

(** One waiter record: who waits, for how many permits, whether the waiter
    still wants them, whether they were handed over. *)
Record cell := Cell { c_g : tid; c_n : Z; c_active : bool; c_granted : bool }.

Record waitq := WaitQ { wq_q : list nat; wq_h : gmap nat cell; wq_next : nat }.

Definition wq_empty : waitq := WaitQ [] ∅ 0.

(** [waiters.append(rec)] with a fresh record. *)
Definition wq_push (t : tid) (n : Z) (w : waitq) : waitq :=
  WaitQ (wq_q w ++ [wq_next w]) (<[wq_next w := Cell t n true false]> (wq_h w)) (S (wq_next w)).

(** Read the grant flag of a record. *)
Definition wq_granted (r : nat) (w : waitq) : bool :=
  match wq_h w !! r with Some c => c_granted c | None => false end.

(** Set the grant flag of a record. *)
Definition wq_set_granted (c : cell) : cell := Cell (c_g c) (c_n c) (c_active c) true.

(** Clear the active flag of a record. *)
Definition wq_deactivate (r : nat) (w : waitq) : waitq :=
  WaitQ (wq_q w) (alter (λ c, Cell (c_g c) (c_n c) false (c_granted c)) r (wq_h w)) (wq_next w).

(** The record's last reference goes away. *)
Definition wq_drop (r : nat) (w : waitq) : waitq :=
  WaitQ (wq_q w) (delete r (wq_h w)) (wq_next w).

(** [waiters.remove(rec)] ([ValueError] ignored) by the waiter itself, which
    then returns. *)
Definition wq_remove (r : nat) (w : waitq) : waitq :=
  WaitQ (try_remove r (wq_q w)) (delete r (wq_h w)) (wq_next w).

(** ** Well-formed queues *)

(** [P] bounds the weights of the records. *)
Record wq_ok (P : Z -> Prop) (w : waitq) : Prop := {
  wqo_nodup : NoDup (wq_q w);
  wqo_queued r : r ∈ wq_q w -> exists c, wq_h w !! r = Some c /\ c_granted c = false;
  wqo_granted r c : wq_h w !! r = Some c -> c_granted c = true -> c_active c = true;
  wqo_fresh r c : wq_h w !! r = Some c -> (r < wq_next w)%nat;
  wqo_weight r c : wq_h w !! r = Some c -> P (c_n c)
}.

(** Thread [t] waits on record [r]: the record is its own and stays queued until
    it is granted. *)
Definition wq_waits (w : waitq) (t : tid) (r : nat) : Prop :=
  exists c, wq_h w !! r = Some c /\ c_g c = t /\ c_active c = true /\
    (r ∈ wq_q w <-> c_granted c = false).

(** [r] is a live record of thread [t], for [n] permits. *)
Definition wq_mine (w : waitq) (t : tid) (n : Z) (r : nat) : Prop :=
  exists c, wq_h w !! r = Some c /\ c_g c = t /\ c_active c = true /\ c_n c = n.

(** What an operation of another thread keeps for thread [t]. *)
Definition wq_keeps (w w' : waitq) (t : tid) : Prop :=
  (forall r, wq_waits w t r -> wq_waits w' t r) /\ (forall n r, wq_mine w' t n r -> wq_mine w t n r).

(** Permits handed over and not yet picked up. *)
Definition wq_handed (c : cell) : Z := if c_granted c then c_n c else 0.
Definition wq_debt (w : waitq) : Z := msum wq_handed (wq_h w).

Lemma wq_keeps_refl w t : wq_keeps w w t.
Proof. by split. Qed.

Lemma wq_keeps_trans w1 w2 w3 t : wq_keeps w1 w2 t -> wq_keeps w2 w3 t -> wq_keeps w1 w3 t.
Proof. intros [? ?] [? ?]. split; eauto. Qed.

#[export] Hint Resolve wq_keeps_refl wq_keeps_trans : sw.

Lemma wq_empty_ok P : wq_ok P wq_empty.
Proof. split; simpl; [apply NoDup_nil_2|by intros r ?%elem_of_nil|done|done|done]. Qed.

(** ** What one thread asserts of the queue

    [wr] is the record the thread is waiting on, if any, for [n] permits. *)
Definition wq_local (wr : option nat) (n : Z) (w : waitq) (t : tid) : Prop :=
  (forall r, wr = Some r -> wq_waits w t r) /\
  (forall m r, wq_mine w t m r -> wr = Some r /\ m = n).

Lemma wq_local_keeps wr n w w' t : wq_keeps w w' t -> wq_local wr n w t -> wq_local wr n w' t.
Proof. intros [? ?] [? ?]. split; eauto. Qed.

(** After its record left the queue's care the thread waits on nothing. *)
Lemma wq_local_forget w w' t r n n' :
  (forall m r', wq_mine w' t m r' -> r' ≠ r /\ wq_mine w t m r') ->
  wq_local (Some r) n w t -> wq_local None n' w' t.
Proof.
  intros Hk [_ H2]. split; [done|]. intros m r' [Hne Hr]%Hk. apply H2 in Hr. naive_solver.
Qed.

(** A thread that waits on nothing may ask for any number of permits. *)
Lemma wq_local_None n n' w t : wq_local None n w t -> wq_local None n' w t.
Proof. intros [_ H2]. split; [done|]. intros m r Hr. apply H2 in Hr. naive_solver. Qed.

(** The weight of the record a thread waits on. *)
Lemma wq_local_weight w t r n c :
  wq_local (Some r) n w t -> wq_h w !! r = Some c -> c_n c = n.
Proof.
  intros [H1 H2] Hc. destruct (H1 r eq_refl) as (c' & Hc' & ? & ? & _).
  assert (c' = c) as -> by congruence. by apply (H2 (c_n c) r); exists c.
Qed.

Lemma wq_empty_mine t n r : ~ wq_mine wq_empty t n r.
Proof. by intros (? & ? & _). Qed.

Lemma wq_empty_local n t : wq_local None n wq_empty t.
Proof. split; [done|]. by intros m r ?%wq_empty_mine. Qed.

Lemma wq_waits_not_granted w t r : wq_waits w t r -> wq_granted r w = false <-> r ∈ wq_q w.
Proof. intros (c & Hc & _ & _ & Hq). unfold wq_granted. by rewrite Hc, Hq. Qed.

Section waitq.
Context {P : Z -> Prop}.

Lemma wq_push_ok t n w : wq_ok P w -> P n ->
  wq_ok P (wq_push t n w) /\ wq_waits (wq_push t n w) t (wq_next w) /\
  (forall m r, wq_mine (wq_push t n w) t m r -> r = wq_next w /\ m = n \/ wq_mine w t m r) /\
  (forall t', t' ≠ t -> wq_keeps w (wq_push t n w) t') /\
  wq_debt (wq_push t n w) = wq_debt w.
Proof.
  intros [Hnd Hq Hga Hfresh HP] HPn.
  assert (wq_h w !! wq_next w = None) as Hn.
  { destruct (wq_h w !! wq_next w) as [c|] eqn:E; [|done]. apply Hfresh in E. lia. }
  assert (wq_next w ∉ wq_q w) as Hnq by (intros (c & ? & ?)%Hq; congruence).
  split_and!.
  - split; simpl; [|intros r Hr|intros r c|intros r c|intros r c].
    + apply NoDup_app. split_and!; [done|set_solver|apply NoDup_singleton].
    + apply elem_of_app in Hr as [Hr|Hr%list_elem_of_singleton].
      * destruct (Hq r Hr) as (c & ? & ?). exists c. rewrite lookup_insert_ne; [done|congruence].
      * subst r. rewrite lookup_insert_eq. eauto.
    + intros [[<- <-]|[_ ?]]%lookup_insert_Some; [done|eauto].
    + intros [[<- _]|[_ ?%Hfresh]]%lookup_insert_Some; lia.
    + intros [[<- <-]|[_ ?]]%lookup_insert_Some; [done|eauto].
  - exists (Cell t n true false). simpl. rewrite lookup_insert_eq. set_solver.
  - intros m r (c & Hx & ? & ? & ?); simpl in Hx;
      apply lookup_insert_Some in Hx as [[<- <-]|[_ Hc]]; [by left|right]. by exists c.
  - intros t' Ht. split.
    + intros r (c & Hc & ? & ? & Hw). exists c. simpl.
      assert (wq_next w ≠ r) by congruence. rewrite lookup_insert_ne by done.
      split_and!; [done..|]. rewrite <- Hw. set_solver.
    + intros m r (c & Hx & ? & ? & ?); simpl in Hx;
        apply lookup_insert_Some in Hx as [[<- <-]|[_ Hc]]; [by simplify_eq/=|]. by exists c.
  - unfold wq_debt; simpl. by rewrite msum_insert_None.
Qed.

Lemma wq_local_push t n w : wq_ok P w -> P n ->
  wq_local None n w t -> wq_local (Some (wq_next w)) n (wq_push t n w) t.
Proof.
  intros Hok Hn [_ H2]. destruct (wq_push_ok t n w Hok Hn) as (_ & Hw & Hm & _).
  split; [by intros r [= <-]|]. intros m r [[-> ->]|Hr]%Hm; [done|]. apply H2 in Hr. naive_solver.
Qed.

(** Removing a record its owner stops waiting on. *)
Lemma wq_forget_ok t w r q :
  wq_ok P w -> wq_waits w t r -> NoDup q -> r ∉ q -> (forall x, x ≠ r -> x ∈ q <-> x ∈ wq_q w) ->
  let w' := WaitQ q (delete r (wq_h w)) (wq_next w) in
  wq_ok P w' /\ (forall m r', wq_mine w' t m r' -> r' ≠ r /\ wq_mine w t m r') /\
  (forall t', t' ≠ t -> wq_keeps w w' t') /\
  wq_debt w = (if wq_granted r w then default 0 (c_n <$> wq_h w !! r) else 0) + wq_debt w'.
Proof.
  intros [Hnd Hq Hga Hfresh HP] (c & Hc & Hp & Ha & Hw) Hnd' Hrq Hqq. simpl. split_and!.
  - split; simpl; [done|intros x Hx|intros x cx [_ ?]%lookup_delete_Some; eauto..].
    assert (x ≠ r) by (by intros ->). apply Hqq in Hx as (cx & ? & ?)%Hq; [|done].
    exists cx. by rewrite lookup_delete_ne.
  - intros m r' (c' & Hx & ? & ? & ?); simpl in Hx; apply lookup_delete_Some in Hx as [? ?].
    split; [done|]. by exists c'.
  - intros t' Ht. split.
    + intros r' (c' & Hc' & Hp' & ? & ?). assert (r' ≠ r) by (intros ->; congruence).
      exists c'. simpl. rewrite lookup_delete_ne by done. by rewrite Hqq.
    + intros m r' (c' & Hx & ? & ? & ?); simpl in Hx; apply lookup_delete_Some in Hx as [? ?]. by exists c'.
  - unfold wq_debt, wq_granted; simpl. rewrite (msum_delete _ _ _ _ Hc), Hc; simpl.
    unfold wq_handed at 1. by destruct (c_granted c).
Qed.

(** A granted waiter picks its grant up. *)
Lemma wq_take_ok t w r : wq_ok P w -> wq_waits w t r -> wq_granted r w = true ->
  wq_ok P (wq_drop r w) /\
  (forall m r', wq_mine (wq_drop r w) t m r' -> r' ≠ r /\ wq_mine w t m r') /\
  (forall t', t' ≠ t -> wq_keeps w (wq_drop r w) t') /\
  wq_debt w = default 0 (c_n <$> wq_h w !! r) + wq_debt (wq_drop r w).
Proof.
  intros Hok Hw Hg. pose proof (wq_waits_not_granted w t r Hw) as Hq.
  pose proof (wq_forget_ok t w r (wq_q w) Hok Hw) as H. rewrite Hg in H. apply H.
  - by eapply wqo_nodup.
  - intros Hin. apply Hq in Hin. congruence.
  - done.
Qed.

(** An ungranted waiter leaves the queue. *)
Lemma wq_remove_ok t w r : wq_ok P w -> wq_waits w t r -> wq_granted r w = false ->
  wq_ok P (wq_remove r w) /\
  (forall m r', wq_mine (wq_remove r w) t m r' -> r' ≠ r /\ wq_mine w t m r') /\
  (forall t', t' ≠ t -> wq_keeps w (wq_remove r w) t') /\
  wq_debt (wq_remove r w) = wq_debt w.
Proof.
  intros Hok Hw Hg. pose proof (wqo_nodup _ _ Hok) as Hnd.
  destruct (wq_forget_ok t w r (try_remove r (wq_q w)) Hok Hw) as (? & ? & ? & Hd).
  - by apply NoDup_try_remove.
  - by apply not_elem_of_try_remove.
  - intros x Hx. by apply elem_of_try_remove_ne.
  - rewrite Hg in Hd. by split_and!.
Qed.

(** An ungranted waiter deactivates its record and leaves it in the queue. *)
Lemma wq_deactivate_ok t w r : wq_ok P w -> wq_waits w t r -> wq_granted r w = false ->
  wq_ok P (wq_deactivate r w) /\
  (forall m r', wq_mine (wq_deactivate r w) t m r' -> r' ≠ r /\ wq_mine w t m r') /\
  (forall t', t' ≠ t -> wq_keeps w (wq_deactivate r w) t') /\
  wq_debt (wq_deactivate r w) = wq_debt w.
Proof.
  intros [Hnd Hq Hga Hfresh HP] (c & Hc & Hp & Ha & Hw) Hg. unfold wq_granted in Hg. rewrite Hc in Hg.
  assert (Hal : alter (λ c, Cell (c_g c) (c_n c) false (c_granted c)) r (wq_h w) =
    <[r := Cell (c_g c) (c_n c) false (c_granted c)]> (wq_h w)).
  { apply map_eq. intros i. rewrite lookup_alter, lookup_insert.
    case_decide; [subst; by rewrite Hc|done]. }
  unfold wq_deactivate. rewrite Hal. split_and!.
  - split; simpl; [done|intros x Hx| | |].
    + destruct (Hq x Hx) as (cx & Hl & ?). rewrite lookup_insert.
      case_decide; [|by eauto]. subst. simplify_eq. eauto.
    + intros x cx [[<- <-]|[_ ?]]%lookup_insert_Some; [simpl; congruence|eauto].
    + intros x cx [[<- _]|[_ ?]]%lookup_insert_Some; eauto.
    + intros x cx [[<- <-]|[_ ?]]%lookup_insert_Some; [by apply (HP r c)|eauto].
  - intros m r' (c' & Hx & ? & ? & ?); simpl in Hx; apply lookup_insert_Some in Hx as [[<- <-]|[? ?]];
      [done|]. split; [done|]. by exists c'.
  - intros t' Ht. split.
    + intros r' (c' & Hc' & Hp' & ? & ?). exists c'. simpl.
      rewrite lookup_insert_ne; [done|]. intros ->. congruence.
    + intros m r' (c' & Hx & ? & ? & ?); simpl in Hx;
        apply lookup_insert_Some in Hx as [[<- <-]|[? ?]]; [done|]. by exists c'.
  - unfold wq_debt; simpl. rewrite (msum_insert _ _ _ _ (Cell 0 0 false false)) by done.
    rewrite Hc; simpl. unfold wq_handed at 2 3; simpl. lia.
Qed.

(** None of these sets a grant flag. *)
Lemma wq_push_granted t n w r : wq_granted r (wq_push t n w) = true -> wq_granted r w = true.
Proof. unfold wq_granted; simpl. rewrite lookup_insert. by case_decide. Qed.

Lemma wq_drop_granted r' w r : wq_granted r (wq_drop r' w) = true -> wq_granted r w = true.
Proof. unfold wq_granted; simpl. rewrite lookup_delete. by case_decide. Qed.

Lemma wq_deactivate_granted r' w r :
  wq_granted r (wq_deactivate r' w) = true -> wq_granted r w = true.
Proof.
  unfold wq_granted; simpl. rewrite lookup_alter. case_decide; [subst|done]. by destruct (wq_h w !! _).
Qed.

Lemma wq_remove_not_granted r' w r : wq_granted r w = false -> wq_granted r (wq_remove r' w) = false.
Proof. unfold wq_granted; simpl. rewrite lookup_delete. by case_decide. Qed.

(** ** Popping the front record *)

(** [rec = waiters.popleft()] of an active record whose flag is then set. *)
Definition wq_pop_grant (r : nat) (c : cell) (q : list nat) (w : waitq) : waitq :=
  WaitQ q (<[r := wq_set_granted c]> (wq_h w)) (wq_next w).

(** [rec = waiters.popleft()] of an inactive record, which is discarded. *)
Definition wq_pop_dead (r : nat) (q : list nat) (w : waitq) : waitq :=
  WaitQ q (delete r (wq_h w)) (wq_next w).

Lemma wq_pop_grant_ok w r c q :
  wq_ok P w -> wq_q w = r :: q -> wq_h w !! r = Some c -> c_active c = true ->
  wq_ok P (wq_pop_grant r c q w) /\ (forall t, wq_keeps w (wq_pop_grant r c q w) t) /\
  wq_debt (wq_pop_grant r c q w) = wq_debt w + c_n c.
Proof.
  intros [Hnd Hq Hga Hfresh HP] Eq Hc Ha. rewrite Eq in Hnd, Hq.
  apply NoDup_cons in Hnd as [Hrq Hnd].
  destruct (Hq r) as (c0 & Hc0 & Hg); [by left|]. assert (c0 = c) as -> by congruence.
  split_and!.
  - split; simpl; [done|intros x Hx| | |].
    + destruct (Hq x) as (cx & ? & ?); [by right|]. exists cx.
      rewrite lookup_insert_ne; [done|]. by intros ->.
    + intros x cx [[<- <-]|[_ ?]]%lookup_insert_Some; [done|eauto].
    + intros x cx [[<- _]|[_ ?]]%lookup_insert_Some; eauto.
    + intros x cx [[<- <-]|[_ ?]]%lookup_insert_Some; [by apply (HP r c)|eauto].
  - intros t. split.
    + intros x (cx & Hx & Hp & Hax & Hiff). destruct (decide (x = r)) as [->|Hne].
      * assert (cx = c) as -> by congruence. exists (wq_set_granted c). simpl.
        rewrite lookup_insert_eq. split_and!; [done..|]. split; [done|done].
      * exists cx. simpl. rewrite lookup_insert_ne by done. split_and!; [done..|].
        rewrite <- Hiff, Eq, elem_of_cons. naive_solver.
    + intros m x (cx & Hx & ? & ? & ?); simpl in Hx;
        apply lookup_insert_Some in Hx as [[<- <-]|[? ?]]; [by exists c|by exists cx].
  - unfold wq_debt; simpl. rewrite (msum_insert _ _ _ _ (Cell 0 0 false false)) by done.
    rewrite Hc; simpl. unfold wq_handed at 2 3; simpl. rewrite Hg. lia.
Qed.

Lemma wq_pop_dead_ok w r c q :
  wq_ok P w -> wq_q w = r :: q -> wq_h w !! r = Some c -> c_active c = false ->
  wq_ok P (wq_pop_dead r q w) /\ (forall t, wq_keeps w (wq_pop_dead r q w) t) /\
  wq_debt (wq_pop_dead r q w) = wq_debt w.
Proof.
  intros [Hnd Hq Hga Hfresh HP] Eq Hc Ha. rewrite Eq in Hnd, Hq.
  apply NoDup_cons in Hnd as [Hrq Hnd].
  destruct (Hq r) as (c0 & Hc0 & Hg); [by left|]. assert (c0 = c) as -> by congruence.
  split_and!.
  - split; simpl; [done|intros x Hx|intros x cx [_ ?]%lookup_delete_Some; eauto..].
    destruct (Hq x) as (cx & ? & ?); [by right|]. exists cx.
    rewrite lookup_delete_ne; [done|]. by intros ->.
  - intros t. split.
    + intros x (cx & Hx & Hp & Hax & Hiff). assert (x ≠ r) by (intros ->; congruence).
      exists cx. simpl. rewrite lookup_delete_ne by done. split_and!; [done..|].
      rewrite <- Hiff, Eq, elem_of_cons. naive_solver.
    + intros m x (cx & Hx & ? & ? & ?); simpl in Hx; apply lookup_delete_Some in Hx as [? ?]. by exists cx.
  - unfold wq_debt; simpl. rewrite (msum_delete _ (wq_h w) _ _ Hc).
    unfold wq_handed at 2. rewrite Hg. lia.
Qed.

(** ** Queues whose records are never deactivated *)

Record wq_live (w : waitq) : Prop := {
  wl_ok : wq_ok P w;
  wl_active r c : wq_h w !! r = Some c -> c_active c = true
}.

Lemma wq_live_push t n w : wq_live w -> P n -> wq_live (wq_push t n w).
Proof.
  intros [Hok Hact] Hn. split; [by apply wq_push_ok|].
  intros r c Hc; simpl in Hc. apply lookup_insert_Some in Hc as [[_ <-]|[_ ?]]; eauto.
Qed.

Lemma wq_live_drop t r w : wq_live w -> wq_waits w t r -> wq_granted r w = true -> wq_live (wq_drop r w).
Proof.
  intros [Hok Hact] Hw Hg. split; [by destruct (wq_take_ok t w r Hok Hw Hg)|].
  intros x c Hc; simpl in Hc. apply lookup_delete_Some in Hc as [_ ?]. eauto.
Qed.

Lemma wq_live_remove t r w :
  wq_live w -> wq_waits w t r -> wq_granted r w = false -> wq_live (wq_remove r w).
Proof.
  intros [Hok Hact] Hw Hg. split; [by destruct (wq_remove_ok t w r Hok Hw Hg)|].
  intros x c Hc; simpl in Hc. apply lookup_delete_Some in Hc as [_ ?]. eauto.
Qed.

Lemma wq_live_pop_grant w r c q :
  wq_live w -> wq_q w = r :: q -> wq_h w !! r = Some c -> wq_live (wq_pop_grant r c q w).
Proof.
  intros [Hok Hact] Hq Hc. split.
  - by destruct (wq_pop_grant_ok w r c q Hok Hq Hc (Hact _ _ Hc)).
  - intros x cx; simpl. intros [[<- <-]|[_ ?]]%lookup_insert_Some; [simpl|]; eauto.
Qed.

(** The thread whose record is granted is the one that waits on it. *)
Lemma wq_pop_grant_granted w r c q t x :
  wq_h w !! r = Some c -> wq_waits w t x -> wq_granted x w = false ->
  wq_granted x (wq_pop_grant r c q w) = true -> t = c_g c.
Proof.
  intros Hc (cx & Hcx & Hg & _) Hf Ht. unfold wq_granted in *; simpl in Ht.
  rewrite lookup_insert in Ht. case_decide; [subst; congruence|]. congruence.
Qed.

(** The release loop of CoFMutex and CoSemaphore: pop records until an active
    one, which is granted; inactive (timed-out) records are discarded.  Returns
    the thread to wake. *)
Fixpoint wq_handoff (q : list nat) (w : waitq) : waitq * option tid :=
  match q with
  | [] => (WaitQ [] (wq_h w) (wq_next w), None)
  | r :: q' =>
      match wq_h w !! r with
      | Some c =>
          if c_active c then (wq_pop_grant r c q' w, Some (c_g c))
          else wq_handoff q' (wq_pop_dead r q' w)
      | None => wq_handoff q' (wq_pop_dead r q' w)
      end
  end.

(** Which record a hand-off grants. *)
Definition wq_next_active (w : waitq) (dead : list nat) (r : nat) (c : cell) (q : list nat) : Prop :=
  wq_q w = dead ++ r :: q /\ wq_h w !! r = Some c /\ c_active c = true /\
  forall x, x ∈ dead -> exists cx, wq_h w !! x = Some cx /\ c_active cx = false.

Definition wq_all_dead (w : waitq) : Prop :=
  forall x, x ∈ wq_q w -> exists cx, wq_h w !! x = Some cx /\ c_active cx = false.

(** A hand-off finds the first active record, or none. *)
Lemma wq_find_active w : wq_ok P w ->
  wq_all_dead w \/ exists dead r c q, wq_next_active w dead r c q.
Proof.
  intros Hok. unfold wq_all_dead, wq_next_active.
  assert (forall x, x ∈ wq_q w -> is_Some (wq_h w !! x)) as Hs.
  { intros x (c & ? & _)%(wqo_queued _ _ Hok). by exists c. }
  induction (wq_q w) as [|r q IH]; [left; by intros x ?%elem_of_nil|].
  destruct (Hs r) as [c Hc]; [by left|]. destruct (c_active c) eqn:Ha.
  - right. exists [], r, c, q. split_and!; [done..|by intros x ?%elem_of_nil].
  - destruct IH as [IH|(dead & r' & c' & q' & -> & ? & ? & IH)].
    + intros x Hx. apply Hs. by right.
    + left. intros x [->|Hx]%elem_of_cons; eauto.
    + right. exists (r :: dead), r', c', q'. split_and!; [done..|].
      intros x [->|Hx]%elem_of_cons; eauto.
Qed.

Lemma wq_handoff_active w dead r c q : wq_ok P w -> wq_next_active w dead r c q ->
  exists w', wq_handoff (wq_q w) w = (w', Some (c_g c)) /\ wq_ok P w' /\ wq_q w' = q /\
    wq_h w' !! r = Some (wq_set_granted c) /\ (forall t, wq_keeps w w' t) /\
    wq_debt w' = wq_debt w + c_n c /\
    (forall x, x ≠ r -> wq_granted x w' = true -> wq_granted x w = true).
Proof.
  revert w. induction dead as [|d dead IH]; intros w Hok (Hq & Hc & Ha & Hd); rewrite Hq; simpl.
  - rewrite Hc, Ha. destruct (wq_pop_grant_ok w r c q Hok Hq Hc Ha) as (? & ? & ?).
    eexists. split_and!; [done..|by apply lookup_insert_eq|done|done|].
    intros x Hx. unfold wq_granted; simpl. by rewrite lookup_insert_ne.
  - destruct (Hd d) as (cd & Hcd & Had); [by left|]. rewrite Hcd, Had.
    destruct (wq_pop_dead_ok w d cd (dead ++ r :: q) Hok Hq Hcd Had) as (Hok1 & Hk1 & Hd1).
    pose proof (wqo_nodup _ _ Hok) as Hnd. rewrite Hq in Hnd; simpl in Hnd.
    apply NoDup_cons in Hnd as [Hdn _].
    destruct (IH (wq_pop_dead d (dead ++ r :: q) w)) as (w' & He & ? & ? & ? & Hk & Hdebt & Hg);
      [done| |].
    + split_and!; simpl; [done| |done|].
      * rewrite lookup_delete_ne; [done|set_solver].
      * intros x Hx. rewrite lookup_delete_ne by set_solver. apply Hd. by right.
    + exists w'. split_and!; try done; [intros t; eauto with sw|lia|].
      intros x Hx Hgx. apply Hg in Hgx; [|done]. unfold wq_granted in *; simpl in Hgx.
      rewrite lookup_delete in Hgx. by case_decide.
Qed.

Lemma wq_handoff_none w : wq_ok P w -> wq_all_dead w ->
  exists w', wq_handoff (wq_q w) w = (w', None) /\ wq_ok P w' /\ wq_q w' = [] /\
    (forall t, wq_keeps w w' t) /\ wq_debt w' = wq_debt w /\
    (forall x, wq_granted x w' = true -> wq_granted x w = true).
Proof.
  remember (wq_q w) as q eqn:Hq. revert w Hq.
  induction q as [|d q IH]; intros w Hq Hok Hd; simpl.
  - exists w. destruct w as [q h n]; simpl in *. subst q. by split_and!.
  - destruct (Hd d) as (cd & Hcd & Had); [rewrite <- Hq; by left|]. rewrite Hcd, Had.
    destruct (wq_pop_dead_ok w d cd q Hok (eq_sym Hq) Hcd Had) as (Hok1 & Hk1 & Hd1).
    pose proof (wqo_nodup _ _ Hok) as Hnd. rewrite <- Hq in Hnd. apply NoDup_cons in Hnd as [Hdn _].
    destruct (IH (wq_pop_dead d q w)) as (w' & He & ? & ? & Hk & Hdebt & Hg); [done|done| |].
    + intros x Hx; simpl in *. rewrite lookup_delete_ne by set_solver.
      apply Hd. rewrite <- Hq. by right.
    + exists w'. split_and!; try done; [intros t; eauto with sw|lia|].
      intros x Hgx. apply Hg in Hgx. unfold wq_granted in *; simpl in Hgx.
      rewrite lookup_delete in Hgx. by case_decide.
Qed.

(** Either way a hand-off keeps the queue well-formed and everyone's records;
    the thread it returns is the owner of the only record it grants. *)
Lemma wq_handoff_ok w w' og : wq_ok P w -> wq_handoff (wq_q w) w = (w', og) ->
  wq_ok P w' /\ (forall t, wq_keeps w w' t) /\
  match og with
  | Some g => exists dead r c q, wq_next_active w dead r c q /\ c_g c = g /\ wq_q w' = q /\
      wq_debt w' = wq_debt w + c_n c
  | None => wq_q w' = [] /\ wq_debt w' = wq_debt w
  end /\
  (forall t r, wq_waits w t r -> wq_granted r w = false -> wq_granted r w' = true -> og = Some t).
Proof.
  intros Hok He. destruct (wq_find_active w Hok) as [Hd|(dead & r & c & q & Ha)].
  - destruct (wq_handoff_none w Hok Hd) as (w1 & He1 & ? & ? & ? & ? & Hg).
    rewrite He1 in He. simplify_eq. split_and!; try done. intros t r _ Hf Ht%Hg. congruence.
  - destruct (wq_handoff_active w dead r c q Hok Ha) as (w1 & He1 & ? & ? & ? & ? & ? & Hg).
    rewrite He1 in He. simplify_eq. split_and!; try done; [by exists dead, r, c, (wq_q w')|].
    intros t x (cx & Hcx & Hp & _ & _) Hf Ht. destruct (decide (x = r)) as [->|Hne].
    + destruct Ha as (_ & Hc & _). congruence.
    + apply Hg in Ht; [congruence|done].
Qed.
End waitq.

Arguments wq_live : clear implicits.
