(* ===== verification/FMutex.v ===== *)
(** * CoFMutex: the foreign-thread-safe cooperative mutex

    Models [class CoFMutex] of [src/src/stackweave/monkey/_base.py].  Every
    section between [_glock()] and [_gunlock()] is one block.  A waiter's record
    [[parker, active, granted]] is a cell of the queue; its parker is named by
    the thread that parks on it ([g.wake()] of a fiber's in-memory parker,
    [os.write] to a foreign thread's fd parker: both credit that thread one
    wake). *)
From S2P Require Import Prelude Fibers WaitQ.
Local Open Scope Z_scope.

Record fmutex := FMutex { fm_locked : bool; fm_waiters : waitq }.

Inductive fm_op :=
  | FAcquire (blocking : bool) (timeout : option Z)
  | FRelease
  | FLocked.

Inductive fm_pc :=
  | FEnter                    (** the uncontended fast path *)
  | FRecheck                  (** the parker is built: check again, enqueue *)
  | FArm (r : nat)            (** [deadline = time.monotonic() + timeout] *)
  | FWait (r : nat)           (** [while not self._granted(rec)], no timeout *)
  | FWaitT (r : nat) (dl : Z) (** the same loop with a deadline *)
  | FRem (r : nat) (dl : Z)   (** [rem = deadline - time.monotonic()] *)
  | FExpire (r : nat)         (** the deadline passed *)
  | FRel
  | FQuery.

Inductive fm_val := VBool (b : bool) | VNone.

Definition fm_init : fmutex := FMutex false wq_empty.

(** [unlock] is [release], [try_lock] is [acquire(blocking=False)]. *)
Definition fm_unlock : fm_op := FRelease.
Definition fm_try_lock : fm_op := FAcquire false None.

(** [_at_fork_reinit]: the child inherits none of the parent's waiters. *)
Definition fm_at_fork_reinit (s : fmutex) : fmutex := FMutex false wq_empty.

(** [_granted(rec)]: the hand-off flag, read under the guard. *)
Definition fm_granted (r : nat) (s : fmutex) : bool := wq_granted r (fm_waiters s).

(** The record of a waiter that returns is no longer referenced. *)
Definition fm_drop (r : nat) (s : fmutex) : fmutex :=
  FMutex (fm_locked s) (wq_drop r (fm_waiters s)).

(** [acquire()] *)
Definition fm_acquire (t : tid) (now : Z) (blocking : bool) (timeout : option Z)
  (p : fm_pc) (s : fmutex) : fmutex * action fm_pc fm_val :=
  match p with
  | FEnter =>
      if negb (fm_locked s) then (FMutex true (fm_waiters s), AReturn (Ret (VBool true)))
      else if negb blocking then (s, AReturn (Ret (VBool false)))
      else (s, AGoto FRecheck)
  | FRecheck =>
      if negb (fm_locked s) then (FMutex true (fm_waiters s), AReturn (Ret (VBool true)))
      else let r := wq_next (fm_waiters s) in
           (FMutex (fm_locked s) (wq_push t 1 (fm_waiters s)),
            AGoto (match timeout with None => FWait r | Some _ => FArm r end))
  | FArm r => (s, AGoto (FWaitT r (now + default 0 timeout)))
  | FWait r =>
      if fm_granted r s then (fm_drop r s, AReturn (Ret (VBool true)))
      else (s, APark None (FWait r))
  | FWaitT r dl =>
      if fm_granted r s then (fm_drop r s, AReturn (Ret (VBool true)))
      else (s, AGoto (FRem r dl))
  | FRem r dl =>
      if dl - now <=? 0 then (s, AGoto (FExpire r))
      else (s, APark (Some dl) (FWaitT r dl))
  | FExpire r =>
      if fm_granted r s then (fm_drop r s, AReturn (Ret (VBool true)))
      else (FMutex (fm_locked s) (wq_deactivate r (fm_waiters s)), AReturn (Ret (VBool false)))
  | FRel | FQuery => (s, AReturn (Ret VNone))
  end.

(** [release()]; [forked] is [_is_forked_child()]. *)
Definition fm_release (forked : bool) (s : fmutex) : fmutex * action fm_pc fm_val :=
  if negb (fm_locked s) then
    (s, AReturn (if forked then Ret VNone else Exc (RuntimeError "release unlocked lock")))
  else
    match wq_handoff (wq_q (fm_waiters s)) (fm_waiters s) with
    | (q, Some g) => (FMutex (fm_locked s) q, AWake [g] (Ret VNone))
    | (q, None) => (FMutex false q, AReturn (Ret VNone))
    end.

Definition fm_entry (o : fm_op) : fm_pc :=
  match o with FAcquire _ _ => FEnter | FRelease => FRel | FLocked => FQuery end.

Definition fm_block (forked : bool) (t : tid) (fib : bool) (now : Z) (o : fm_op) (p : fm_pc)
  (s : fmutex) : fmutex * action fm_pc fm_val :=
  match o with
  | FAcquire b to => fm_acquire t now b to p s
  | FRelease => fm_release forked s
  | FLocked => (s, AReturn (Ret (VBool (fm_locked s))))
  end.

Definition fmutex_machine (forked : bool) : machine fmutex fm_op fm_pc fm_val :=
  Machine fm_entry (fm_block forked).

Abbreviation fm_ctl := (ctl fm_op fm_pc fm_val).
Abbreviation fm_world := (world fmutex fm_op fm_pc fm_val).

(** The record a program point waits on. *)
Definition fm_waits_on (p : fm_pc) : option nat :=
  match p with
  | FArm r | FWait r | FWaitT r _ | FRem r _ | FExpire r => Some r
  | _ => None
  end.

Definition fm_pc_of (c : fm_ctl) : option fm_pc :=
  match c with At _ p | Parked _ _ p | Sleeping _ _ p => Some p | _ => None end.

(** The thread has acquired the lock and not yet released it. *)
Definition fm_holds (c : fm_ctl) : bool :=
  match c with
  | Fin (FAcquire _ _) (Ret (VBool true)) | At FRelease FRel | Fin FRelease (Exc _) => true
  | _ => false
  end.

(** Callers that release exactly what they acquired. *)
Definition fm_client (t : tid) (c : fm_ctl) (o : fm_op) : bool :=
  match o with
  | FRelease => match c with Fin (FAcquire _ _) (Ret (VBool true)) => true | _ => false end
  | _ => negb (fm_holds c)
  end.

Definition fm_wait_rec (c : fm_ctl) : option nat := p ← fm_pc_of c; fm_waits_on p.

(** ** Invariant *)

Record fm_ok (s : fmutex) : Prop := {
  fmo_queue : wq_ok (.= 1) (fm_waiters s);
  fmo_free : fm_locked s = false -> wq_q (fm_waiters s) = []
}.

(** Where a control state of each call can be. *)
Definition fm_shape (c : fm_ctl) : Prop :=
  match c with
  | Parked (FAcquire _ _) _ p => match p with FWait _ | FWaitT _ _ => True | _ => False end
  | Parked _ _ _ | Sleeping _ _ _ | Waking (FAcquire _ _) _ _ | Waking FLocked _ _ => False
  | At (FAcquire _ _) p => match p with FRel | FQuery => False | _ => True end
  | At FRelease p => p = FRel
  | At FLocked p => p = FQuery
  | Fin FRelease (Ret v) => v = VNone
  | Waking FRelease _ r => r = Ret VNone
  | _ => True
  end.

Definition fm_local (s : fmutex) (t : tid) (c : fm_ctl) : Prop :=
  wq_local (fm_wait_rec c) 1 (fm_waiters s) t /\ fm_shape c.

(** The lock is held by a thread or promised to exactly one granted waiter. *)
Definition fm_own (c : fm_ctl) : Z := if fm_holds c then 1 else 0.
Definition fm_bal (s : fmutex) : Z := (if fm_locked s then 1 else 0) - wq_debt (fm_waiters s).

Lemma fm_debt_nonneg s : fm_ok s -> 0 <= wq_debt (fm_waiters s).
Proof.
  intros Hok. apply msum_nonneg. intros r c Hc. apply (wqo_weight _ _ (fmo_queue _ Hok)) in Hc.
  unfold wq_handed. destruct (c_granted c); lia.
Qed.

(** Moves outside the blocks keep the local assertion. *)
Lemma fm_local_entry s t c o :
  at_rest c = true -> fm_local s t c -> fm_local s t (At o (fm_entry o)).
Proof.
  intros Hr [H1 _]. split; [|by destruct o]. by destruct c; destruct o.
Qed.

Lemma fm_local_unpark s t o dl p : fm_local s t (Parked o dl p) -> fm_local s t (At o p).
Proof. intros [H1 H2]. split; [exact H1|]. destruct o; [by destruct p|done|done]. Qed.

Lemma fm_local_wake s t o g l r : fm_local s t (Waking o (g :: l) r) -> fm_local s t (Waking o l r).
Proof. intros [H1 H2]. split; [exact H1|]. by destruct o. Qed.

Lemma fm_local_woken s t o r : fm_local s t (Waking o [] r) -> fm_local s t (Fin o r).
Proof. intros [H1 H2]. split; [exact H1|]. destruct o; simpl in *; try done. by subst. Qed.

Lemma fm_local_sleeping s t o u p : ~ fm_local s t (Sleeping o u p).
Proof. by intros [_ ?]. Qed.

#[export] Hint Resolve fm_local_entry fm_local_unpark fm_local_wake fm_local_woken : sw.

#[export] Instance fm_quiet_client :
  quiet_moves (fmutex_machine false) fm_client fm_ok fm_local fm_own.
Proof.
  split; simpl; [done|..].
  - intros s t c o Hr Hm _ Hl. split; [eauto with sw|].
    unfold fm_own. destruct o as [b to| |]; simpl in *; [by destruct (fm_holds c)| |by destruct (fm_holds c)].
    by destruct c as [| | | | |[] [[[]|]|]].
  - intros s t o dl p Hl. split; [eauto with sw|]. destruct Hl as [_ Hl]. by destruct o.
  - by intros s t o u p ?%fm_local_sleeping.
  - intros s t o g l r Hl. split; [eauto with sw|]. by destruct Hl as [_ Hl]; destruct o.
  - intros s t o r Hl. split; [eauto with sw|].
    destruct Hl as [_ Hl]. destruct o; simpl in *; try done. by subst.
Qed.

#[export] Instance fm_quiet_any (may : tid -> fm_ctl -> fm_op -> bool) :
  quiet_moves (fmutex_machine false) may fm_ok fm_local (λ _, 0).
Proof.
  split; simpl; [done|..]; intros; eauto with sw.
  exfalso. by eapply fm_local_sleeping.
Qed.

(** What one block of thread [t] has to establish. *)
Definition fm_step_ok (s s' : fmutex) (t : tid) (c' : fm_ctl) : Prop :=
  fm_ok s' /\ fm_local s' t c' /\ (forall t' c, t' ≠ t -> fm_local s t' c -> fm_local s' t' c).

(** A block that changes nothing. *)
Lemma fm_stay s t c c' :
  fm_ok s -> fm_local s t c -> fm_shape c' -> fm_wait_rec c' = fm_wait_rec c -> fm_step_ok s s t c'.
Proof. intros Hok [H1 _] Hsh Hw. split_and!; [done|split; [by rewrite Hw|done]|done]. Qed.

(** The uncontended acquisition. *)
Lemma fm_lock s t c c' :
  fm_ok s -> fm_local s t c -> fm_locked s = false -> fm_shape c' ->
  fm_wait_rec c' = fm_wait_rec c ->
  fm_step_ok s (FMutex true (fm_waiters s)) t c' /\
  fm_bal (FMutex true (fm_waiters s)) = fm_bal s + 1.
Proof.
  intros [Hq Hf] [H1 _] Hl Hsh Hw. split.
  - split_and!; [by split|split; [by rewrite Hw|done]|done].
  - unfold fm_bal; simpl. rewrite Hl. lia.
Qed.

(** A block of thread [t] that ends its wait on record [r]. *)
Lemma fm_leave s t c c' r q :
  fm_ok s -> fm_local s t c -> fm_wait_rec c = Some r -> fm_shape c' -> fm_wait_rec c' = None ->
  wq_ok (.= 1) q -> (fm_locked s = false -> wq_q q = []) ->
  (forall m r', wq_mine q t m r' -> r' ≠ r /\ wq_mine (fm_waiters s) t m r') ->
  (forall t', t' ≠ t -> wq_keeps (fm_waiters s) q t') ->
  fm_step_ok s (FMutex (fm_locked s) q) t c'.
Proof.
  intros Hok [H1 _] Hr Hsh Hw Hq Hf Hm Hk. rewrite Hr in H1. split_and!; [by split| |].
  - split; [|done]. rewrite Hw. by apply (wq_local_forget (fm_waiters s) q t r 1 1 Hm).
  - intros t' c0 Ht [H2 ?]. split; [|done]. eapply wq_local_keeps; [by apply Hk|done].
Qed.

(** A granted waiter takes the lock over. *)
Lemma fm_take s t c c' r :
  fm_ok s -> fm_local s t c -> fm_wait_rec c = Some r -> fm_granted r s = true ->
  fm_shape c' -> fm_wait_rec c' = None ->
  fm_step_ok s (fm_drop r s) t c' /\ fm_bal (fm_drop r s) = fm_bal s + 1.
Proof.
  intros Hok Hl Hr Hg Hsh Hw. pose proof (fmo_queue _ Hok) as Hq.
  assert (wq_waits (fm_waiters s) t r) as Hwt by by apply Hl.
  destruct (wq_take_ok t (fm_waiters s) r Hq Hwt Hg) as (Hok' & Hm & Hk & Hd).
  destruct Hwt as (c0 & Hc0 & _). pose proof (wqo_weight _ _ Hq _ _ Hc0) as H1; simpl in H1.
  split; [eapply fm_leave; try done; apply Hok|].
  rewrite Hc0 in Hd; simpl in Hd. unfold fm_bal; simpl. lia.
Qed.

(** Enqueueing a new waiter record. *)
Lemma fm_enqueue s t c c' :
  fm_ok s -> fm_local s t c -> fm_locked s = true -> fm_wait_rec c = None -> fm_shape c' ->
  fm_wait_rec c' = Some (wq_next (fm_waiters s)) ->
  let s' := FMutex (fm_locked s) (wq_push t 1 (fm_waiters s)) in
  fm_step_ok s s' t c' /\ fm_bal s' = fm_bal s.
Proof.
  intros [Hq Hf] [H1 _] Hl Hn Hsh Hw. rewrite Hn in H1.
  destruct (wq_push_ok t 1 (fm_waiters s) Hq eq_refl) as (? & _ & _ & Hk & Hd). split.
  - split_and!; [split; simpl; [done|congruence]| |].
    + split; [|done]. rewrite Hw. by apply (wq_local_push (P := (.= 1))).
    + intros t' c0 Ht [H2 ?]. split; [|done]. eapply wq_local_keeps; [by apply Hk|done].
  - unfold fm_bal; simpl. lia.
Qed.

(** A waiter gives up at its deadline. *)
Lemma fm_give_up s t c c' r :
  fm_ok s -> fm_local s t c -> fm_wait_rec c = Some r -> fm_granted r s = false ->
  fm_shape c' -> fm_wait_rec c' = None ->
  let s' := FMutex (fm_locked s) (wq_deactivate r (fm_waiters s)) in
  fm_step_ok s s' t c' /\ fm_bal s' = fm_bal s.
Proof.
  intros Hok Hl Hr Hg Hsh Hw. pose proof (fmo_queue _ Hok) as Hq.
  assert (wq_waits (fm_waiters s) t r) as Hwt by by apply Hl.
  destruct (wq_deactivate_ok t (fm_waiters s) r Hq Hwt Hg) as (Hok' & Hm & Hk & Hd).
  split; [eapply fm_leave; try done; apply Hok|]. unfold fm_bal; simpl. lia.
Qed.

(** One block of [acquire()]. *)
Lemma fm_acquire_ok t now b to p s s' a :
  fm_ok s -> fm_local s t (At (FAcquire b to) p) -> fm_acquire t now b to p s = (s', a) ->
  fm_step_ok s s' t (act_ctl (FAcquire b to) a) /\
  fm_own (act_ctl (FAcquire b to) a) = fm_bal s' - fm_bal s.
Proof.
  intros Hok Hl Hb. pose proof Hl as [_ Hpc].
  assert (Hstay : forall c', fm_shape c' -> fm_wait_rec c' = fm_wait_rec (At (FAcquire b to) p) ->
    fm_own c' = 0 -> fm_step_ok s s t c' /\ fm_own c' = fm_bal s - fm_bal s).
  { intros c' ? ? ->. split; [by eapply fm_stay|lia]. }
  assert (Htake : forall r, fm_wait_rec (At (FAcquire b to) p) = Some r -> fm_granted r s = true ->
    fm_step_ok s (fm_drop r s) t (Fin (FAcquire b to) (Ret (VBool true))) /\
    1 = fm_bal (fm_drop r s) - fm_bal s).
  { intros r Hr Hg.
    destruct (fm_take s t _ (Fin (FAcquire b to) (Ret (VBool true))) r Hok Hl Hr Hg) as [? ->];
      [done..|]. split; [done|lia]. }
  destruct p as [| |r|r|r dl|r dl|r| |]; simpl in Hb, Hpc; try done.
  - destruct (fm_locked s) eqn:El; simpl in Hb; [destruct b; simpl in Hb|]; simplify_eq;
      [by apply Hstay..|].
    destruct (fm_lock s t _ (Fin (FAcquire b to) (Ret (VBool true))) Hok Hl El) as [? ->]; [done..|].
    split; [done|unfold fm_own; simpl; lia].
  - destruct (fm_locked s) eqn:El; simpl in Hb; simplify_eq.
    + destruct (fm_enqueue s t _ (At (FAcquire b to)
        match to with None => FWait (wq_next (fm_waiters s)) | Some _ => FArm (wq_next (fm_waiters s)) end)
        Hok Hl El) as [? Hbal]; [done|by destruct to|by destruct to|].
      rewrite El in *. split; [done|]. rewrite Hbal. destruct to; unfold fm_own; simpl; lia.
    + destruct (fm_lock s t _ (Fin (FAcquire b to) (Ret (VBool true))) Hok Hl El) as [? ->]; [done..|].
      split; [done|unfold fm_own; simpl; lia].
  - simplify_eq. by apply Hstay.
  - destruct (fm_granted r s) eqn:Eg; simplify_eq; [by apply Htake|by apply Hstay].
  - destruct (fm_granted r s) eqn:Eg; simplify_eq; [by apply Htake|by apply Hstay].
  - destruct (dl - now <=? 0); simplify_eq; by apply Hstay.
  - destruct (fm_granted r s) eqn:Eg; simplify_eq; [by apply Htake|].
    destruct (fm_give_up s t _ (Fin (FAcquire b to) (Ret (VBool false))) r Hok Hl) as [? ->]; [done..|].
    split; [done|unfold fm_own; simpl; lia].
Qed.

(** [release()]. *)
Lemma fm_release_ok t s s' a :
  fm_ok s -> fm_local s t (At FRelease FRel) -> fm_release false s = (s', a) ->
  fm_step_ok s s' t (act_ctl FRelease a) /\
  fm_own (act_ctl FRelease a) - 1 = fm_bal s' - fm_bal s.
Proof.
  intros Hok Hl Hrel. pose proof (fmo_queue _ Hok) as Hq. unfold fm_release in Hrel.
  destruct (fm_locked s) eqn:El; simpl in Hrel; simplify_eq;
    [|split; [by eapply fm_stay|unfold fm_own; simpl; lia]].
  destruct (wq_handoff (wq_q (fm_waiters s)) (fm_waiters s)) as [q og] eqn:Eh.
  destruct (wq_handoff_ok (P := (.= 1)) (fm_waiters s) q og Hq Eh) as (Hqok & Hk & Hres & _).
  assert (forall c, fm_local s t (At FRelease FRel) -> fm_shape c -> fm_wait_rec c = None ->
    forall b, (b = false -> wq_q q = []) -> fm_step_ok s (FMutex b q) t c) as Hstep.
  { intros c [H1 _] Hsh Hw b Hb. split_and!; [by split| |].
    - split; [|done]. rewrite Hw. eapply wq_local_keeps; [apply Hk|done].
    - intros t' c0 _ [H2 ?]. split; [|done]. eapply wq_local_keeps; [apply Hk|done]. }
  destruct og as [g|]; simplify_eq; (split; [by apply Hstep; try done; intros; apply Hres|]).
  - destruct Hres as (dead & r & c & q' & (_ & Hc & _) & _ & _ & Hd).
    apply (wqo_weight _ _ Hq) in Hc. unfold fm_own, fm_bal; simpl in *. rewrite El. lia.
  - destruct Hres as [_ Hd]. unfold fm_own, fm_bal; simpl. rewrite El. lia.
Qed.

Lemma fm_blocks isf : blocks_ok (fmutex_machine false) isf fm_ok fm_local fm_own fm_bal.
Proof.
  intros t now o p s s' a Hok Hl Hb. destruct o as [b to| |]; simpl in Hb.
  - destruct (fm_acquire_ok t now b to p s s' a Hok Hl Hb) as [(? & ? & ?) Ho].
    split_and!; [done..|]. rewrite Ho. unfold fm_own; simpl. by destruct p; lia.
  - destruct Hl as [? Hsh]. simpl in Hsh. subst p.
    destruct (fm_release_ok t s s' a Hok) as [(? & ? & ?) Ho]; done.
  - simplify_eq. destruct (fm_stay s' t (At FLocked p) (Fin FLocked (Ret (VBool (fm_locked s'))))) as (? & ? & ?);
      [done|done|done|by destruct Hl as [_ Hl]; simpl in Hl; subst|].
    split_and!; [done..|unfold fm_own; simpl; lia].
Qed.

(** ** No lost hand-off *)

(** Parked, or about to park without another look, with the flag set. *)
Definition fm_ready (s : fmutex) (t : tid) (c : fm_ctl) : bool :=
  match c with
  | Parked _ _ (FWait r) | Parked _ _ (FWaitT r _) | At (FAcquire _ _) (FRem r _) => fm_granted r s
  | _ => false
  end.

Lemma fm_ready_rec s t c : fm_ready s t c = true ->
  exists r, fm_wait_rec c = Some r /\ forall s', fm_ready s' t c = fm_granted r s'.
Proof. intros H. destruct c as [|[] []|? ? []| | |]; simpl in H; try done; by eexists. Qed.

(** Blocks of [acquire()] never grant. *)
Lemma fm_acquire_no_grant t now b to p s s' a r :
  fm_acquire t now b to p s = (s', a) -> fm_granted r s' = true -> fm_granted r s = true.
Proof.
  intros Hb. destruct p; simpl in Hb; repeat case_match; simplify_eq/=; try done;
    unfold fm_granted; simpl; eauto using wq_push_granted, wq_drop_granted, wq_deactivate_granted.
Qed.

#[export] Instance fm_wakes isf : wakes_ok (fmutex_machine false) isf fm_ok fm_local fm_ready.
Proof.
  split; simpl; try done.
  - by intros s t [].
  - intros s t o dl p [_ H]. destruct o; [by destruct p|done..].
  - by intros s t o u p ?%fm_local_sleeping.
  - intros t now o p s s' a Hok Hl Hb Hr. destruct o as [b to| |].
    + destruct p; simpl in Hb; repeat case_match; simplify_eq/=; congruence.
    + unfold fm_block, fm_release in Hb. repeat case_match; by simplify_eq/=.
    + by simplify_eq/=.
  - intros t now o p s s' a t' c' Hok Hl Hb Hne [[Hl' _] _] Hf Hr.
    pose proof (fm_ready_rec _ _ _ Hr) as (r & Hrec & Heq). rewrite Heq in Hf, Hr.
    destruct o as [b to| |]; simpl in Hb.
    + eapply fm_acquire_no_grant in Hb; [|done]. congruence.
    + unfold fm_release in Hb. destruct (fm_locked s); simpl in Hb; [|simplify_eq; congruence].
      destruct (wq_handoff _ _) as [q og] eqn:Eh.
      destruct (wq_handoff_ok (P := (.= 1)) _ q og (fmo_queue _ Hok) Eh) as (_ & _ & _ & Hg).
      assert (og = Some t') as ->.
      { apply (Hg t' r); [by apply Hl'|done|by destruct og; simplify_eq]. }
      simplify_eq. exists [t'], (Ret VNone). split; [done|]. by apply list_elem_of_singleton.
    + simplify_eq. congruence.
Qed.

(** ** Properties *)

Lemma fm_init_ok : fm_ok fm_init.
Proof. split; simpl; [apply wq_empty_ok|done]. Qed.

Lemma fm_init_local t : fm_local fm_init t Idle.
Proof. split; [apply wq_empty_local|done]. Qed.

Lemma fm_client_inv isf w :
  reach (fmutex_machine false) isf fm_client fm_init w -> og_inv fm_ok fm_local fm_own fm_bal w.
Proof.
  intros Hr. eapply og_reach; [..|exact Hr];
    [apply fm_quiet_client|apply fm_init_ok|apply fm_init_local|done|apply fm_blocks].
Qed.

Lemma fm_any_inv isf may w :
  reach (fmutex_machine false) isf may fm_init w ->
  og_inv fm_ok fm_local (λ _, 0) (λ _, 0) w /\ woken_inv fm_ready w.
Proof.
  assert (blocks_ok (fmutex_machine false) isf fm_ok fm_local (λ _, 0) (λ _, 0)) as Hb.
  { intros t now o p s s' a H1 H2 H3.
    destruct (fm_blocks isf t now o p s s' a H1 H2 H3) as (? & ? & ? & _). done. }
  intros Hr. apply (inv_reach _ isf may _ _ _ _ _ fm_init); try done;
    [apply fm_init_ok|apply fm_init_local|apply fm_wakes].
Qed.

Lemma fm_holds_sum isf w :
  reach (fmutex_machine false) isf fm_client fm_init w ->
  msum fm_own (w_ctl w) + wq_debt (fm_waiters (w_obj w)) = if fm_locked (w_obj w) then 1 else 0.
Proof. intros (_ & _ & Hs)%fm_client_inv. unfold fm_bal in Hs. lia. Qed.

Lemma fm_reach_debt isf w :
  reach (fmutex_machine false) isf fm_client fm_init w -> 0 <= wq_debt (fm_waiters (w_obj w)).
Proof. intros (Hok & _)%fm_client_inv. by apply fm_debt_nonneg. Qed.

Lemma fm_holds_lookup (w : fm_world) t :
  fm_holds (ctl_of w t) = true -> exists c, w_ctl w !! t = Some c /\ fm_own c = 1.
Proof.
  unfold ctl_of. destruct (w_ctl w !! t) as [c|]; simpl; [|done].
  intros H. exists c. unfold fm_own. by rewrite H.
Qed.

Lemma fm_own_nonneg (m : gmap tid fm_ctl) i c : m !! i = Some c -> 0 <= fm_own c.
Proof. intros _. unfold fm_own. by destruct (fm_holds c). Qed.

(** C1. Mutual exclusion: in every interleaving of callers that release only
    what they acquired (fibers and foreign threads, timed and untimed, with
    spurious wake-ups), at most one thread holds the mutex. *)
Theorem fmutex_mutual_exclusion isf w t1 t2 :
  reach (fmutex_machine false) isf fm_client fm_init w ->
  fm_holds (ctl_of w t1) = true -> fm_holds (ctl_of w t2) = true -> t1 = t2.
Proof.
  intros Hr (c1 & H1 & E1)%fm_holds_lookup (c2 & H2 & E2)%fm_holds_lookup.
  destruct (decide (t1 = t2)) as [|Hne]; [done|].
  pose proof (msum_ge2 fm_own _ _ _ _ _ (fm_own_nonneg _) Hne H1 H2).
  pose proof (fm_holds_sum isf w Hr). pose proof (fm_reach_debt isf w Hr).
  destruct (fm_locked (w_obj w)); lia.
Qed.

(** A caller that holds the mutex finds it locked when it releases, so
    [release()] does not raise. *)
Theorem fmutex_release_no_error isf w t :
  reach (fmutex_machine false) isf fm_client fm_init w ->
  ctl_of w t = At FRelease FRel ->
  fm_locked (w_obj w) = true /\
  forall e, (fm_release false (w_obj w)).2 ≠ AReturn (Exc e).
Proof.
  intros Hr Hc. destruct (fm_holds_lookup w t) as (c & H1 & E1); [by rewrite Hc|].
  pose proof (msum_ge fm_own _ _ _ (fm_own_nonneg _) H1).
  pose proof (fm_holds_sum isf w Hr). pose proof (fm_reach_debt isf w Hr).
  destruct (fm_locked (w_obj w)) eqn:El; [|lia]. split; [done|].
  intros e. unfold fm_release. rewrite El; simpl. by repeat case_match.
Qed.

Lemma fmutex_waiter_queued isf may w t o dl p :
  reach (fmutex_machine false) isf may fm_init w ->
  quiescent (fmutex_machine false) isf may w -> ctl_of w t = Parked o dl p ->
  fm_locked (w_obj w) = true /\ due dl (w_now w) = false /\
  exists r, fm_wait_rec (Parked o dl p) = Some r /\ r ∈ wq_q (fm_waiters (w_obj w)) /\
    fm_granted r (w_obj w) = false.
Proof.
  intros Hr Hq Hp. destruct (fm_any_inv isf may w Hr) as [(Hok & HL & _) Hw].
  destruct (quiescent_not_ready _ _ _ _ w t o dl p Hw Hq Hp) as [Hf Hd].
  pose proof (HL t) as Hl. rewrite Hp in Hl.
  assert (exists r, fm_wait_rec (Parked o dl p) = Some r /\
    fm_granted r (w_obj w) = false) as (r & Hrec & Hg).
  { destruct Hl as [_ Hsh]. destruct o; [|done..]. destruct p; try done; eauto. }
  destruct Hl as [[Hl _] _].
  assert (r ∈ wq_q (fm_waiters (w_obj w))) as Hin.
  { apply (wq_waits_not_granted _ t); [by apply Hl|done]. }
  split_and!; [|done|by exists r].
  destruct (fm_locked (w_obj w)) eqn:El; [done|].
  rewrite (fmo_free _ Hok El) in Hin. by apply elem_of_nil in Hin.
Qed.

(** Once no thread can step, no record is left granted. *)
Lemma fm_quiescent_no_grant isf may w r c :
  reach (fmutex_machine false) isf may fm_init w ->
  quiescent (fmutex_machine false) isf may w ->
  wq_h (fm_waiters (w_obj w)) !! r = Some c -> c_granted c ≠ true.
Proof.
  intros Hr Hq Hc Hg. destruct (fm_any_inv isf may w Hr) as [(Hok & HL & _) Hw].
  destruct (HL (c_g c)) as [[_ Hmine] _].
  assert (wq_mine (fm_waiters (w_obj w)) (c_g c) (c_n c) r) as [Hm _]%Hmine.
  { exists c. split_and!; [done..| |done]. by eapply (wqo_granted _ _ (fmo_queue _ Hok)). }
  destruct (quiescent_cases _ _ _ w (c_g c) Hq) as [Hc'|[(o&dl&p&Hc')|(?&?&?&Hc'&_)]].
  - by destruct (ctl_of w (c_g c)).
  - rewrite Hc' in Hm.
    destruct (fmutex_waiter_queued isf may w _ o dl p Hr Hq Hc') as (_ & _ & r' & Hr' & _ & Hg').
    assert (r' = r) as -> by congruence.
    unfold fm_granted, wq_granted in Hg'. by rewrite Hc, Hg in Hg'.
  - pose proof (HL (c_g c)) as Hl. rewrite Hc' in Hl. by apply fm_local_sleeping in Hl.
Qed.

(** No lost wake-up: whatever the callers do, once no thread can step a
    parked waiter is still queued behind a locked mutex, has not been handed the
    lock and has not passed its deadline. *)
Theorem fmutex_no_lost_wakeup isf may w t o dl p :
  reach (fmutex_machine false) isf may fm_init w ->
  quiescent (fmutex_machine false) isf may w -> ctl_of w t = Parked o dl p ->
  fm_locked (w_obj w) = true /\ due dl (w_now w) = false /\
  exists r, fm_wait_rec (Parked o dl p) = Some r /\ r ∈ wq_q (fm_waiters (w_obj w)) /\
    fm_granted r (w_obj w) = false.
Proof. apply fmutex_waiter_queued. Qed.

(** C2. Deadlock freedom: with callers that release what they acquire, once no
    thread can step a parked waiter waits for a thread that holds the mutex and
    is not inside any of its methods. *)
Theorem fmutex_deadlock_free isf w t o dl p :
  reach (fmutex_machine false) isf fm_client fm_init w ->
  quiescent (fmutex_machine false) isf fm_client w -> ctl_of w t = Parked o dl p ->
  exists t', t' ≠ t /\ fm_holds (ctl_of w t') = true /\ at_rest (ctl_of w t') = true.
Proof.
  intros Hr Hq Hp. destruct (fm_any_inv isf fm_client w Hr) as [(Hok & HL & _) Hw].
  destruct (fmutex_waiter_queued isf fm_client w t o dl p Hr Hq Hp) as (Hlk & _).
  assert (wq_debt (fm_waiters (w_obj w)) = 0) as Hg.
  { apply msum_zero. intros r c Hc. unfold wq_handed. destruct (c_granted c) eqn:Eg; [|done].
    by destruct (fm_quiescent_no_grant isf fm_client w r c Hr Hq Hc). }
  pose proof (fm_holds_sum isf w Hr) as Hs. rewrite Hlk, Hg in Hs.
  destruct (msum_exists fm_own (w_ctl w)) as (t' & c & Hc & Ho); [lia|].
  assert (ctl_of w t' = c) as Hct by (unfold ctl_of; by rewrite Hc).
  assert (fm_holds c = true) as Hh by (unfold fm_own in Ho; by destruct (fm_holds c)).
  exists t'. rewrite Hct. split_and!; [|done|].
  - intros ->. rewrite Hp in Hct. by subst.
  - destruct (quiescent_cases _ _ _ w t' Hq) as [Hc'|[(?&?&?&Hc')|(?&?&?&Hc'&_)]];
      rewrite Hct in Hc'; [done|by rewrite Hc' in Hh|by rewrite Hc' in Hh].
Qed.

(** [release()] hands the lock to the longest-waiting active waiter: it
    discards the timed-out records ahead of it, keeps the mutex locked, sets
    that waiter's flag, wakes that waiter only and grants no other record. *)
Theorem fmutex_fifo_handoff s dead r c q :
  fm_ok s -> fm_locked s = true -> wq_next_active (fm_waiters s) dead r c q ->
  exists wq, fm_release false s = (FMutex true wq, AWake [c_g c] (Ret VNone)) /\
    wq_q wq = q /\ wq_granted r wq = true /\
    (forall x, x ≠ r -> wq_granted x wq = true -> wq_granted x (fm_waiters s) = true).
Proof.
  intros Hok Hl Ha. unfold fm_release. rewrite Hl; simpl.
  destruct (wq_handoff_active _ dead r c q (fmo_queue _ Hok) Ha) as (wq & -> & _ & Hq & Hr & _ & _ & Hg).
  exists wq. split_and!; [done|done| |done]. unfold wq_granted. by rewrite Hr.
Qed.

(** ** Witnesses *)

(** Thread 1 holds the mutex; fiber 2 waits without and fiber 3 with a timeout. *)
Definition fm_demo : list (event fm_op) :=
  [ECall 1 (FAcquire true None); EStep 1;
   ECall 2 (FAcquire true None); EStep 2; EStep 2; EStep 2;
   ECall 3 (FAcquire true (Some 5)); EStep 3; EStep 3; EStep 3; EStep 3; EStep 3].
Definition fm_demo_world : fm_world := after (fmutex_machine false) (λ _, true) fm_client fm_init fm_demo.

Lemma fm_demo_quiescent : quiescent (fmutex_machine false) (λ _, true) fm_client fm_demo_world.
Proof. apply quiescentb_sound. vm_compute. reflexivity. Qed.

Lemma fmutex_mutual_exclusion_witness :
  fm_holds (ctl_of fm_demo_world 1%nat) = true /\ 1%nat = 1%nat.
Proof.
  split; [vm_compute; reflexivity|].
  apply (fmutex_mutual_exclusion (λ _, true) fm_demo_world);
    [apply after_reach|vm_compute; reflexivity|vm_compute; reflexivity].
Defined.

Lemma fmutex_release_no_error_witness :
  let w := after (fmutex_machine false) (λ _, true) fm_client fm_init (fm_demo ++ [ECall 1 FRelease]) in
  fm_locked (w_obj w) = true /\ forall e, (fm_release false (w_obj w)).2 ≠ AReturn (Exc e).
Proof.
  intros w. apply (fmutex_release_no_error (λ _, true) w 1);
    [apply after_reach|vm_compute; reflexivity].
Defined.

Lemma fmutex_no_lost_wakeup_witness :
  fm_locked (w_obj fm_demo_world) = true /\ due (Some 5) (w_now fm_demo_world) = false /\
  exists r, fm_wait_rec (Parked (FAcquire true (Some 5)) (Some 5) (FWaitT 1 5)) = Some r /\
    r ∈ wq_q (fm_waiters (w_obj fm_demo_world)) /\ fm_granted r (w_obj fm_demo_world) = false.
Proof.
  apply (fmutex_no_lost_wakeup (λ _, true) fm_client fm_demo_world 3);
    [apply after_reach|apply fm_demo_quiescent|vm_compute; reflexivity].
Defined.

Lemma fmutex_deadlock_free_witness :
  exists t', t' ≠ 2%nat /\ fm_holds (ctl_of fm_demo_world t') = true /\
    at_rest (ctl_of fm_demo_world t') = true.
Proof.
  apply (fmutex_deadlock_free (λ _, true) fm_demo_world 2 (FAcquire true None) None (FWait 0));
    [apply after_reach|apply fm_demo_quiescent|vm_compute; reflexivity].
Defined.

(** Record 0 timed out; record 1 is next. *)
Definition fm_demo_queue : fmutex :=
  FMutex true (WaitQ [0; 1]%nat
    (<[0%nat := Cell 7 1 false false]> (<[1%nat := Cell 8 1 true false]> ∅)) 2).

Lemma fm_demo_queue_ok : fm_ok fm_demo_queue.
Proof.
  split; [|done]. split; simpl.
  - apply (bool_decide_unpack _). vm_compute. exact I.
  - intros r Hr. repeat (apply elem_of_cons in Hr as [->|Hr]; [by eexists|]).
    by apply elem_of_nil in Hr.
  - intros r c H Hg. by repeat (apply lookup_insert_Some in H as [[<- <-]|[_ H]]; [done|]).
  - intros r c H. by repeat (apply lookup_insert_Some in H as [[<- _]|[_ H]]; [lia|]).
  - intros r c H. by repeat (apply lookup_insert_Some in H as [[<- <-]|[_ H]]; [done|]).
Qed.

Lemma fmutex_fifo_handoff_witness :
  exists wq, fm_release false fm_demo_queue = (FMutex true wq, AWake [8%nat] (Ret VNone)) /\
    wq_q wq = [] /\ wq_granted 1 wq = true /\
    (forall x, x ≠ 1%nat -> wq_granted x wq = true -> wq_granted x (fm_waiters fm_demo_queue) = true).
Proof.
  apply (fmutex_fifo_handoff fm_demo_queue [0%nat] 1 (Cell 8 1 true false) []);
    [apply fm_demo_queue_ok|done|].
  split_and!; [done..|]. intros x Hx%list_elem_of_singleton. subst x. by eexists.
Defined.
