(* ===== verification/Locks.v ===== *)
(** * CoLock and CoRLock: the cooperative [threading.Lock] and [RLock]

    Models [src/src/stackweave/monkey/locks.py].  What a lock promises to the
    component that embeds it is the class [LockSpec]; [CoFMutex] is shown to keep
    the promise, and the re-entrant lock is verified against the class alone. *)
From S2P Require Import Prelude Fibers WaitQ FMutex.
Local Open Scope Z_scope.

(** ** The interface of a lock

    [ls_acquire] is one block of [acquire(blocking, timeout)] at program point [q],
    [ls_release] is [release()].  [ls_inv h m]: the lock is in order and [h] says
    whether a caller holds it; [ls_local m t q]: what thread [t] may rely on while it
    is inside [acquire] at [q], or outside ([None]). *)
Class LockSpec (M Q : Type) := {
  ls_new : M;
  ls_entry : Q;
  ls_acquire : tid -> Z -> bool -> option Z -> Q -> M -> M * action Q bool;
  ls_release : M -> M * action Q unit;
  ls_locked : M -> bool;
  ls_inv : bool -> M -> Prop;
  ls_local : M -> tid -> option Q -> Prop;
  ls_new_inv : ls_inv false ls_new;
  ls_new_local t : ls_local ls_new t None;
  ls_enter m t : ls_local m t None -> ls_local m t (Some ls_entry);
  ls_acquire_ok h m t now b to q m' a :
    ls_inv h m -> ls_local m t (Some q) -> ls_acquire t now b to q m = (m', a) ->
    (forall t' q', t' ≠ t -> ls_local m t' q' -> ls_local m' t' q') /\
    match a with
    | AReturn (Ret true) => h = false /\ ls_inv true m' /\ ls_local m' t None
    | AReturn _ => ls_inv h m' /\ ls_local m' t None
    | AGoto q' | APark _ q' | ASleep _ q' => ls_inv h m' /\ ls_local m' t (Some q')
    | AWake _ _ => False
    end;
  ls_release_ok m t m' a :
    ls_inv true m -> ls_local m t None -> ls_release m = (m', a) ->
    (forall t' q', t' ≠ t -> ls_local m t' q' -> ls_local m' t' q') /\
    ls_inv false m' /\ ls_local m' t None /\
    (a = AReturn (Ret tt) \/ exists l, a = AWake l (Ret tt))
}.

(** Actions of an embedded method: the same, with the result mapped. *)
Definition map_act {Q V W} (f : V -> W) (a : action Q V) : action Q W :=
  let g r := match r with Ret v => Ret (f v) | Exc e => Exc e end in
  match a with
  | AGoto q => AGoto q
  | APark dl q => APark dl q
  | ASleep u q => ASleep u q
  | AWake l r => AWake l (g r)
  | AReturn r => AReturn (g r)
  end.

(** ** CoLock *)

(** The timeout [CoLock.acquire] passes on: negative and [None] mean no timeout. *)
Definition co_timeout (timeout : option Z) : option Z :=
  match timeout with Some d => if d <? 0 then None else Some d | None => None end.

(** [CoLock.acquire(blocking, timeout)]: a non-blocking attempt or the mutex's
    blocking acquire. *)
Definition colock_op (blocking : bool) (timeout : option Z) : fm_op :=
  if negb blocking then fm_try_lock else FAcquire true (co_timeout timeout).

Definition colock_acquire (t : tid) (now : Z) (blocking : bool) (timeout : option Z) (q : fm_pc) (m : fmutex)
  : fmutex * action fm_pc bool :=
  match colock_op blocking timeout with
  | FAcquire b to => prod_map id (map_act (λ v, match v with VBool b => b | VNone => false end)) (fm_acquire t now b to q m)
  | _ => (m, AReturn (Ret false))
  end.

(** [CoLock.release()]; [forked] is [_is_forked_child()]. *)
Definition colock_release (forked : bool) (m : fmutex) : fmutex * action fm_pc unit :=
  prod_map id (map_act (λ _, tt)) (fm_release forked m).

(** [CoLock._at_fork_reinit()]: a fresh mutex. *)
Definition colock_at_fork_reinit (m : fmutex) : fmutex := fm_init.

(** [__enter__] and [__exit__]. *)
Definition colock_enter : fm_op := colock_op true (Some (-1)).
Definition colock_exit : fm_op := FRelease.

Lemma fm_bal_le m : fm_ok m -> fm_bal m <= 1.
Proof. intros Hok. pose proof (fm_debt_nonneg m Hok). unfold fm_bal. destruct (fm_locked m); lia. Qed.

Definition colock_local (m : fmutex) (t : tid) (q : option fm_pc) : Prop :=
  fm_local m t (match q with Some q => At (FAcquire true None) q | None => Idle end).

(** A thread outside [acquire] is one that waits on nothing. *)
Lemma colock_local_none m t c : fm_local m t c -> fm_wait_rec c = None -> colock_local m t None.
Proof. intros [H1 _] Hw. split; [|done]. by rewrite Hw in H1. Qed.

Lemma colock_local_some m t b to q : colock_local m t (Some q) <-> fm_local m t (At (FAcquire b to) q).
Proof. done. Qed.

Lemma colock_acquire_ok h m t now b to q m' a :
  fm_ok m /\ fm_bal m = Z.b2z h -> colock_local m t (Some q) -> colock_acquire t now b to q m = (m', a) ->
  (forall t' q', t' ≠ t -> colock_local m t' q' -> colock_local m' t' q') /\
  match a with
  | AReturn (Ret true) => h = false /\ (fm_ok m' /\ fm_bal m' = Z.b2z true) /\ colock_local m' t None
  | AReturn _ => (fm_ok m' /\ fm_bal m' = Z.b2z h) /\ colock_local m' t None
  | AGoto q' | APark _ q' | ASleep _ q' => (fm_ok m' /\ fm_bal m' = Z.b2z h) /\ colock_local m' t (Some q')
  | AWake _ _ => False
  end.
Proof.
  intros [Hok Hb] Hl H. unfold colock_acquire in H.
  assert (exists b' to', colock_op b to = FAcquire b' to') as (b' & to' & Eo).
  { unfold colock_op. destruct (negb b); eauto. }
  rewrite Eo in H. destruct (fm_acquire t now b' to' q m) as [m1 a1] eqn:E. simpl in H. simplify_eq.
  apply (colock_local_some m t b' to') in Hl.
  destruct (fm_acquire_ok t now b' to' q m m' a1 Hok Hl E) as [(Hok1 & Hl1 & Hoth) Hown].
  split; [by intros t' q' Hne ?; apply Hoth|].
  pose proof (fm_bal_le m' Hok1) as Hle. pose proof Hl1 as [_ Hsh].
  destruct a1 as [q'|dl q'|u q'|l r|[v|e]]; simpl in Hsh, Hown; unfold fm_own in Hown; simpl in Hown; try done.
  - split; [split; [done|lia]|done].
  - split; [split; [done|lia]|]. by apply (fm_local_unpark m' t (FAcquire b' to') dl q').
  - simpl. destruct v as [[]|]; simpl; [|split; [split; [done|lia]|by eapply colock_local_none]..].
    split_and!; [destruct h; [simpl in *; lia|done]|done|simpl; destruct h; simpl in *; lia|by eapply colock_local_none].
  - simpl. split; [split; [done|lia]|by eapply colock_local_none].
Qed.

Lemma colock_release_ok m t m' a :
  fm_ok m /\ fm_bal m = Z.b2z true -> colock_local m t None -> colock_release false m = (m', a) ->
  (forall t' q', t' ≠ t -> colock_local m t' q' -> colock_local m' t' q') /\
  (fm_ok m' /\ fm_bal m' = Z.b2z false) /\ colock_local m' t None /\
  (a = AReturn (Ret tt) \/ exists l, a = AWake l (Ret tt)).
Proof.
  intros [Hok Hb] [H1 _] H. unfold colock_release in H.
  destruct (fm_release false m) as [m1 a1] eqn:E. simpl in H. simplify_eq.
  assert (fm_locked m = true) as Hlk.
  { pose proof (fm_debt_nonneg m Hok). unfold fm_bal in Hb. destruct (fm_locked m); [done|simpl in Hb; lia]. }
  destruct (fm_release_ok t m m' a1 Hok) as [(Hok1 & Hl1 & Hoth) Hown]; [by split|done|].
  split; [by intros t' q' Hne ?; apply Hoth|].
  assert (a1 = AReturn (Ret VNone) \/ exists l, a1 = AWake l (Ret VNone)) as Ha.
  { unfold fm_release in E. rewrite Hlk in E; simpl in E. destruct (wq_handoff _ _) as [q [g|]]; simplify_eq; eauto. }
  destruct Ha as [->|[l ->]]; unfold fm_own in Hown; simpl in *;
    (split_and!; [done|lia|by eapply colock_local_none|]); eauto.
Qed.

#[export] Program Instance colock_spec : LockSpec fmutex fm_pc := {|
  ls_new := fm_init; ls_entry := FEnter; ls_acquire := colock_acquire; ls_release := colock_release false;
  ls_locked := fm_locked;
  ls_inv h m := fm_ok m /\ fm_bal m = Z.b2z h; ls_local := colock_local
|}.
Next Obligation. split; [apply fm_init_ok|done]. Qed.
Next Obligation. intros t. apply fm_init_local. Qed.
Next Obligation. intros m t [H1 _]. by split. Qed.
Next Obligation. intros. by eapply colock_acquire_ok. Qed.
Next Obligation. intros. by eapply colock_release_ok. Qed.

(** ** CoRLock *)

Section rlock.
Context {M Q : Type} `{!LockSpec M Q}.

(** [_lock], [_owner] and [_count].  The code never reads [rl_holder]: it records the
    thread whose [_lock.acquire] has returned True and not been released since. *)
Record rlock := RLock { rl_mu : M; rl_owner : option tid; rl_count : Z; rl_holder : option tid }.

Inductive rl_op :=
  | RlAcquire (blocking : bool) (timeout : option Z)
  | RlRelease
  | RlIsOwned
  | RlRecursionCount
  | RlReleaseSave
  | RlAcquireRestore (count : Z) (owner : option tid).

Inductive rl_val := RVNone | RVBool (b : bool) | RVInt (n : Z) | RVState (count : Z) (owner : option tid).

Inductive rl_pc :=
  | RlStart                (** the owner test at the head of [acquire] *)
  | RlBump                 (** [self._count += 1] *)
  | RlInner (q : Q)        (** inside [self._lock.acquire(...)] *)
  | RlOwn                  (** the inner lock was acquired: record the owner *)
  | RlExit                 (** [release], [_release_save], the queries *)
  | RlDrop (v : rl_val).   (** [self._lock.release()], then return [v] *)

Definition rl_new : rlock := RLock ls_new None 0 None.

(** [_is_owned()] for the caller [t]. *)
Definition rl_is_owned (t : tid) (s : rlock) : bool := bool_decide (rl_owner s = Some t).

(** [_recursion_count()] *)
Definition rl_recursion_count (t : tid) (s : rlock) : Z := if rl_is_owned t s then rl_count s else 0.

(** One block of the inner [acquire]; what happens when it returns. *)
Definition rl_inner (t : tid) (now : Z) (b : bool) (to : option Z) (q : Q) (s : rlock)
  : rlock * action rl_pc rl_val :=
  let '(m, a) := ls_acquire t now b to q (rl_mu s) in
  let s' := RLock m (rl_owner s) (rl_count s) (rl_holder s) in
  match a with
  | AGoto q => (s', AGoto (RlInner q))
  | APark dl q => (s', APark dl (RlInner q))
  | ASleep u q => (s', ASleep u (RlInner q))
  | AWake l (Ret b) => (s', AWake l (Ret (RVBool b)))
  | AWake l (Exc e) => (s', AWake l (Exc e))
  | AReturn (Ret true) => (RLock m (rl_owner s) (rl_count s) (Some t), AGoto RlOwn)
  | AReturn (Ret false) => (s', AReturn (Ret (RVBool false)))
  | AReturn (Exc e) => (s', AReturn (Exc e))
  end.

(** [acquire(blocking, timeout)] *)
Definition rl_acquire (t : tid) (now : Z) (b : bool) (to : option Z) (p : rl_pc) (s : rlock)
  : rlock * action rl_pc rl_val :=
  match p with
  | RlStart => (s, AGoto (if rl_is_owned t s then RlBump else RlInner ls_entry))
  | RlBump => (RLock (rl_mu s) (rl_owner s) (rl_count s + 1) (rl_holder s), AReturn (Ret (RVBool true)))
  | RlInner q => rl_inner t now b to q s
  | RlOwn => (RLock (rl_mu s) (Some t) 1 (rl_holder s), AReturn (Ret (RVBool true)))
  | RlExit | RlDrop _ => (s, AReturn (Ret RVNone))
  end.

(** [self._lock.release()] and the return of [v]. *)
Definition rl_drop (v : rl_val) (s : rlock) : rlock * action rl_pc rl_val :=
  let '(m, a) := ls_release (rl_mu s) in
  (RLock m (rl_owner s) (rl_count s) None,
   match a with
   | AWake l (Ret tt) => AWake l (Ret v)
   | AWake l (Exc e) => AWake l (Exc e)
   | AReturn (Exc e) => AReturn (Exc e)
   | _ => AReturn (Ret v)
   end).

(** [release()]; [forked] is [_is_forked_child()]. *)
Definition rl_release (forked : bool) (t : tid) (s : rlock) : rlock * action rl_pc rl_val :=
  if negb (rl_is_owned t s) then
    if forked then
      let s' := RLock (rl_mu s) None 0 (rl_holder s) in
      if ls_locked (rl_mu s) then (s', AGoto (RlDrop RVNone)) else (s', AReturn (Ret RVNone))
    else (s, AReturn (Exc (RuntimeError "cannot release un-acquired lock")))
  else
    let n := rl_count s - 1 in
    if n =? 0 then (RLock (rl_mu s) None n (rl_holder s), AGoto (RlDrop RVNone))
    else (RLock (rl_mu s) (rl_owner s) n (rl_holder s), AReturn (Ret RVNone)).

(** [_release_save()] *)
Definition rl_release_save (s : rlock) : rlock * action rl_pc rl_val :=
  if rl_count s =? 0 then (s, AReturn (Exc (RuntimeError "cannot release un-acquired lock")))
  else (RLock (rl_mu s) None 0 (rl_holder s), AGoto (RlDrop (RVState (rl_count s) (rl_owner s)))).

(** [_acquire_restore((count, owner))] *)
Definition rl_acquire_restore (t : tid) (now : Z) (count : Z) (owner : option tid) (p : rl_pc) (s : rlock)
  : rlock * action rl_pc rl_val :=
  match p with
  | RlInner q => rl_inner t now true (Some (-1)) q s
  | RlOwn => (RLock (rl_mu s) owner count (rl_holder s), AReturn (Ret (RVBool true)))
  | _ => (s, AReturn (Ret RVNone))
  end.

(** [_at_fork_reinit()] *)
Definition rl_at_fork_reinit (s : rlock) : rlock := RLock ls_new None 0 None.

Definition rl_entry (o : rl_op) : rl_pc :=
  match o with
  | RlAcquire _ _ => RlStart
  | RlAcquireRestore _ _ => RlInner ls_entry
  | _ => RlExit
  end.

Definition rl_block (forked : bool) (t : tid) (fib : bool) (now : Z) (o : rl_op) (p : rl_pc) (s : rlock)
  : rlock * action rl_pc rl_val :=
  match o, p with
  | RlAcquire b to, _ => rl_acquire t now b to p s
  | RlAcquireRestore n ow, _ => rl_acquire_restore t now n ow p s
  | RlRelease, RlDrop v | RlReleaseSave, RlDrop v => rl_drop v s
  | RlRelease, _ => rl_release forked t s
  | RlReleaseSave, _ => rl_release_save s
  | RlIsOwned, _ => (s, AReturn (Ret (RVBool (rl_is_owned t s))))
  | RlRecursionCount, _ => (s, AReturn (Ret (RVInt (rl_recursion_count t s))))
  end.

Definition rlock_machine : machine rlock rl_op rl_pc rl_val := Machine rl_entry (rl_block false).

Abbreviation rl_ctl := (ctl rl_op rl_pc rl_val).
Abbreviation rl_world := (world rlock rl_op rl_pc rl_val).

(** The thread's last call told it that it owns the lock. *)
Definition rl_told_owner (c : rl_ctl) : bool :=
  match c with
  | Fin (RlAcquire _ _) (Ret (RVBool true)) | Fin RlIsOwned (Ret (RVBool true))
  | Fin (RlAcquireRestore _ _) (Ret (RVBool true)) => true
  | _ => false
  end.

(** The discipline of [threading.Condition]: [_release_save] by an owner, and
    [_acquire_restore] with what it returned.  Every other call is free. *)
Definition rl_client (t : tid) (c : rl_ctl) (o : rl_op) : bool :=
  match o with
  | RlReleaseSave => rl_told_owner c
  | RlAcquireRestore n ow =>
      match c with Fin RlReleaseSave (Ret (RVState n' ow')) => (n =? n') && bool_decide (ow = ow') | _ => false end
  | _ => true
  end.

(** The program point of the inner [acquire]. *)
Definition rl_inner_pc (c : rl_ctl) : option Q :=
  match c with
  | At _ (RlInner q) | Parked _ _ (RlInner q) | Sleeping _ _ (RlInner q) => Some q
  | _ => None
  end.

(** Holding the inner lock without being recorded as the owner. *)
Definition rl_limbo (c : rl_ctl) : bool :=
  match c with At _ RlOwn | At _ (RlDrop _) => true | _ => false end.

(** Program points at which the thread is the recorded owner. *)
Definition rl_has (c : rl_ctl) : bool :=
  match c with At (RlAcquire _ _) RlBump | At RlReleaseSave RlExit => true | _ => rl_told_owner c end.

Definition rl_shape (t : tid) (c : rl_ctl) : Prop :=
  match c with
  | Idle | Waking RlRelease _ (Ret RVNone) => True
  | At (RlAcquire _ _) p => match p with RlExit | RlDrop _ => False | _ => True end
  | At (RlAcquireRestore n ow) p => 1 <= n /\ ow = Some t /\ match p with RlInner _ | RlOwn => True | _ => False end
  | At RlRelease p => p = RlExit \/ p = RlDrop RVNone
  | At RlReleaseSave p => p = RlExit \/ exists n, 1 <= n /\ p = RlDrop (RVState n (Some t))
  | At _ p => p = RlExit
  | Parked (RlAcquire _ _) _ p | Sleeping (RlAcquire _ _) _ p => match p with RlInner _ => True | _ => False end
  | Parked (RlAcquireRestore n ow) _ p | Sleeping (RlAcquireRestore n ow) _ p =>
      1 <= n /\ ow = Some t /\ match p with RlInner _ => True | _ => False end
  | Waking RlReleaseSave _ (Ret (RVState n ow)) | Fin RlReleaseSave (Ret (RVState n ow)) => 1 <= n /\ ow = Some t
  | Fin RlReleaseSave (Ret _) => False
  | Fin _ _ => True
  | _ => False
  end.

(** ** Invariant *)

Record rl_ok (s : rlock) : Prop := {
  rlo_inner : ls_inv (bool_decide (is_Some (rl_holder s))) (rl_mu s);
  rlo_owner t : rl_owner s = Some t -> rl_holder s = Some t /\ 1 <= rl_count s;
  rlo_free : rl_owner s = None -> rl_count s = 0
}.

Record rl_local (s : rlock) (t : tid) (c : rl_ctl) : Prop := {
  rll_inner : ls_local (rl_mu s) t (rl_inner_pc c);
  rll_limbo : rl_limbo c = true -> rl_holder s = Some t /\ rl_owner s = None;
  rll_holds : rl_holder s = Some t -> rl_owner s = Some t \/ rl_limbo c = true;
  rll_has : rl_has c = true -> rl_owner s = Some t;
  rll_shape : rl_shape t c
}.

Lemma rl_new_ok : rl_ok rl_new.
Proof. split; simpl; [apply ls_new_inv|done|done]. Qed.

Lemma rl_new_local t : rl_local rl_new t Idle.
Proof. split; simpl; try done. apply ls_new_local. Qed.

(** What a step of thread [t] has to establish. *)
Definition rl_step_ok (s s' : rlock) (t : tid) (c' : rl_ctl) : Prop :=
  rl_ok s' /\ rl_local s' t c' /\ (forall t' c, t' ≠ t -> rl_local s t' c -> rl_local s' t' c).

(** A step that is not about another thread's ownership keeps its assertion. *)
Lemma rl_keep s s' t :
  rl_ok s -> (forall t' q, t' ≠ t -> ls_local (rl_mu s) t' q -> ls_local (rl_mu s') t' q) ->
  (rl_holder s' = rl_holder s /\ rl_owner s' = rl_owner s \/
   forall t', t' ≠ t -> rl_holder s ≠ Some t' /\ rl_holder s' ≠ Some t') ->
  forall t' c, t' ≠ t -> rl_local s t' c -> rl_local s' t' c.
Proof.
  intros Hok Hin Hc t' c Hne [H1 H2 H3 H4 H5]. destruct Hc as [[Eh Eo]|Hc].
  - split; rewrite ?Eh, ?Eo; auto.
  - destruct (Hc t' Hne) as [Hn Hn']. split; [by apply Hin| | | |done].
    + by intros [? _]%H2.
    + done.
    + by intros [? _]%H4%(rlo_owner _ Hok).
Qed.

(** A step that changes nothing but its own control state. *)
Lemma rl_stay s t c c' :
  rl_ok s -> rl_local s t c -> rl_inner_pc c' = rl_inner_pc c -> rl_limbo c' = rl_limbo c ->
  (rl_has c' = true -> rl_owner s = Some t) -> rl_shape t c' -> rl_step_ok s s t c'.
Proof.
  intros Hok [H1 H2 H3 H4 H5] Ei El Hh Hs. split_and!; [done| |done].
  split; rewrite ?Ei, ?El; done.
Qed.

(** Holding the inner lock excludes every other thread. *)
Lemma rl_holder_alone s t : rl_holder s = Some t -> forall t', t' ≠ t -> rl_holder s ≠ Some t'.
Proof. intros -> t' Hne [=]. done. Qed.

Lemma rl_inner_ok t now b to q s s' a (o : rl_op) :
  rl_ok s -> rl_local s t (At o (RlInner q)) -> rl_inner t now b to q s = (s', a) ->
  (forall p, rl_shape t (At o (RlInner q)) -> p = RlOwn \/ (exists q, p = RlInner q) -> rl_shape t (At o p)) ->
  (forall dl q', rl_shape t (At o (RlInner q)) -> rl_shape t (Parked o dl (RlInner q'))) ->
  (forall u q', rl_shape t (At o (RlInner q)) -> rl_shape t (Sleeping o u (RlInner q'))) ->
  (forall r, r ≠ Ret (RVBool true) -> rl_shape t (Fin o r) /\ rl_told_owner (Fin o r) = false) ->
  rl_step_ok s s' t (act_ctl o a).
Proof.
  intros Hok Hl H Hp1 Hp2 Hp3 Hf. pose proof Hl as [H1 H2 H3 _ H5]. pose proof Hok as [Hi Ho Hfr].
  unfold rl_inner in H. destruct (ls_acquire t now b to q (rl_mu s)) as [m a1] eqn:E.
  simpl in H1. destruct (ls_acquire_ok _ _ _ _ _ _ _ _ _ Hi H1 E) as [Hoth Ha].
  assert (rl_limbo (At o (RlInner q)) = false) as Hnl by done. rewrite Hnl in H3.
  assert (rl_holder s = Some t -> rl_owner s = Some t) as H3' by (intros ?; by destruct H3).
  assert (Hstay : forall c', ls_inv (bool_decide (is_Some (rl_holder s))) m -> ls_local m t (rl_inner_pc c') ->
    rl_limbo c' = false -> rl_has c' = false -> rl_shape t c' ->
    rl_step_ok s (RLock m (rl_owner s) (rl_count s) (rl_holder s)) t c').
  { intros c' Hi' Hl' El Eh Hs. split_and!; [by split| |].
    - split; simpl; rewrite ?El, ?Eh; auto; done.
    - eapply rl_keep; [done|done|by left]. }
  destruct a1 as [q'|dl q'|u q'|l r|[[]|e]]; simplify_eq; simpl in Ha; try (destruct Ha; done).
  - destruct Ha. apply Hstay; simpl; [done..|by destruct o|apply (Hp1 (RlInner q')); eauto].
  - destruct Ha. apply Hstay; simpl; [done..|by apply (Hp2 dl q')].
  - destruct Ha. apply Hstay; simpl; [done..|by apply (Hp3 u q')].
  - destruct Ha as (Eb & Hi' & Hl'). rewrite bool_decide_eq_false in Eb.
    assert (rl_holder s = None) as Hn by (destruct (rl_holder s); [destruct Eb; eauto|done]).
    assert (rl_owner s = None) as Hon.
    { destruct (rl_owner s) as [t0|] eqn:Et; [|done]. destruct (Ho t0); congruence. }
    split_and!.
    + split; simpl; [done|by rewrite Hon|done].
    + split; simpl; [done|by rewrite Hon|by right|by destruct o|by apply (Hp1 RlOwn); [|left]].
    + eapply rl_keep; [done|done|right]. simpl. rewrite Hn. intros t' ?. split; congruence.
  - destruct Ha. destruct (Hf (Ret (RVBool false))); [done|]. apply Hstay; simpl in *; done.
  - destruct Ha. destruct (Hf (Exc e)); [done|]. apply Hstay; simpl in *; done.
Qed.

(** Becoming the recorded owner while holding the inner lock. *)
Lemma rl_own_ok t (o : rl_op) p n s :
  rl_ok s -> rl_local s t (At o p) -> rl_limbo (At o p) = true -> rl_inner_pc (At o p) = None -> 1 <= n ->
  rl_shape t (Fin o (Ret (RVBool true))) ->
  rl_step_ok s (RLock (rl_mu s) (Some t) n (rl_holder s)) t (Fin o (Ret (RVBool true))).
Proof.
  intros Hok [H1 H2 H3 _ H5] Hlb Hpc Hn Hs. destruct (H2 Hlb) as [Hh Ho]. pose proof Hok as [Hi _ _].
  rewrite Hpc in H1. split_and!.
  - split; simpl; [done| |done]. by intros t' [= <-].
  - split; simpl; [done|done|by left|done|done].
  - eapply rl_keep; [done|done|right]. simpl. intros t' Hne.
    pose proof (rl_holder_alone s t Hh t' Hne). done.
Qed.

(** Giving up the recorded ownership, the inner lock still held. *)
Lemma rl_disown_ok t (o : rl_op) p v s :
  rl_ok s -> rl_local s t (At o p) -> rl_inner_pc (At o p) = None -> rl_owner s = Some t ->
  rl_shape t (At o (RlDrop v)) -> o = RlRelease \/ o = RlReleaseSave ->
  rl_step_ok s (RLock (rl_mu s) None 0 (rl_holder s)) t (At o (RlDrop v)).
Proof.
  intros Hok [H1 H2 H3 _ H5] Hpc Ho Hs Hop. pose proof Hok as [Hi Hown _].
  destruct (Hown t Ho) as [Hh _]. rewrite Hpc in H1. split_and!.
  - by split.
  - split; simpl; [done|done|by right|by destruct Hop; subst|done].
  - eapply rl_keep; [done|done|right]. simpl. intros t' Hne.
    pose proof (rl_holder_alone s t Hh t' Hne). done.
Qed.

Lemma rl_drop_ok t (o : rl_op) v s s' a :
  rl_ok s -> rl_local s t (At o (RlDrop v)) -> rl_drop v s = (s', a) ->
  rl_shape t (Fin o (Ret v)) -> (forall l, rl_shape t (Waking o l (Ret v))) ->
  rl_told_owner (Fin o (Ret v)) = false -> rl_step_ok s s' t (act_ctl o a).
Proof.
  intros Hok [H1 H2 H3 _ H5] H Hs1 Hs2 Hto. destruct (H2 eq_refl) as [Hh Ho]. pose proof Hok as [Hi _ Hfr].
  unfold rl_drop in H. destruct (ls_release (rl_mu s)) as [m a1] eqn:E. simpl in H1.
  rewrite Hh in Hi. destruct (ls_release_ok _ t _ _ Hi H1 E) as (Hoth & Hi' & Hl' & Ha).
  simplify_eq. split_and!.
  - split; simpl; [done|by rewrite Ho|done].
  - destruct Ha as [->|[l ->]]; (split; [done|done|done| |]); try done; [|by apply Hs2].
    unfold rl_has; simpl act_ctl. by rewrite Hto.
  - eapply rl_keep; [done|done|right]. simpl. intros t' Hne.
    pose proof (rl_holder_alone s t Hh t' Hne). done.
Qed.

Lemma rl_acquire_ok t now b to p s s' a :
  rl_ok s -> rl_local s t (At (RlAcquire b to) p) -> rl_acquire t now b to p s = (s', a) ->
  rl_step_ok s s' t (act_ctl (RlAcquire b to) a).
Proof.
  intros Hok Hl H. pose proof Hl as [H1 H2 H3 H4 H5]. pose proof Hok as [Hi Ho Hf].
  destruct p as [| |q| | |v]; simpl in H5, H; simplify_eq; try done.
  - destruct (rl_is_owned t s') eqn:E; simpl.
    + by eapply rl_stay; [done|exact Hl|..]; try done; intros _; apply bool_decide_eq_true in E.
    + split_and!; [done| |done]. split; simpl; [by apply ls_enter|done|done|done|done].
  - pose proof (H4 eq_refl) as Hown. destruct (Ho t Hown) as [Hh Hc]. split_and!.
    + split; simpl; [done| |by rewrite Hown]. intros t' ?. split; [naive_solver|lia].
    + split; simpl; done.
    + eapply rl_keep; [done|done|by left].
  - eapply rl_inner_ok; [done|done|exact H|..]; simpl; try done.
    + by intros p _ [->|[q' ->]].
    + intros [[]|]; try done. by destruct b0.
  - by eapply rl_own_ok.
Qed.

Lemma rl_restore_ok t now n ow p s s' a :
  rl_ok s -> rl_local s t (At (RlAcquireRestore n ow) p) -> rl_acquire_restore t now n ow p s = (s', a) ->
  rl_step_ok s s' t (act_ctl (RlAcquireRestore n ow) a).
Proof.
  intros Hok Hl H. pose proof Hl as [_ _ _ _ (Hn & -> & H5)].
  destruct p as [| |q| | |v]; simpl in H5, H; simplify_eq; try done.
  - eapply rl_inner_ok; [done|done|exact H|..]; simpl; try done.
    + by intros p _ [->|[q' ->]].
    + intros [[]|]; try done. by destruct b.
  - by eapply rl_own_ok.
Qed.

Lemma rl_release_ok t p s s' a :
  rl_ok s -> rl_local s t (At RlRelease p) -> p = RlExit -> rl_release false t s = (s', a) ->
  rl_step_ok s s' t (act_ctl RlRelease a).
Proof.
  intros Hok Hl -> H. pose proof Hl as [H1 H2 H3 H4 H5]. pose proof Hok as [Hi Ho Hf].
  unfold rl_release in H. destruct (rl_is_owned t s) eqn:E; simpl in H; simplify_eq;
    [|by eapply rl_stay].
  apply bool_decide_eq_true in E. destruct (Ho t E) as [Hh Hc].
  destruct (rl_count s - 1 =? 0) eqn:En; simplify_eq; simpl.
  - assert (rl_count s - 1 = 0) as -> by lia. eapply rl_disown_ok; [done|done|done|done|by right|by left].
  - split_and!.
    + split; simpl; [done| |by rewrite E]. intros t' ?. split; [naive_solver|lia].
    + split; simpl; done || by left.
    + eapply rl_keep; [done|done|by left].
Qed.

Lemma rl_save_ok t p s s' a :
  rl_ok s -> rl_local s t (At RlReleaseSave p) -> p = RlExit -> rl_release_save s = (s', a) ->
  rl_step_ok s s' t (act_ctl RlReleaseSave a).
Proof.
  intros Hok Hl -> H. pose proof Hl as [H1 H2 H3 H4 H5]. pose proof Hok as [Hi Ho Hf].
  pose proof (H4 eq_refl) as Hown. destruct (Ho t Hown) as [Hh Hc].
  unfold rl_release_save in H. destruct (rl_count s =? 0) eqn:En; simplify_eq; [by eapply rl_stay|].
  simpl. rewrite Hown. eapply rl_disown_ok; [done|done|done|done| |by right]. right. eauto.
Qed.

Lemma rlock_blocks isf : blocks_ok rlock_machine isf rl_ok rl_local (λ _, 0) (λ _, 0).
Proof.
  intros t now o p s s' a Hok Hl H. simpl in H.
  assert (rl_step_ok s s' t (act_ctl o a)) as (? & ? & ?); [|done].
  pose proof (rll_shape _ _ _ Hl) as Hs.
  destruct o as [b to| | | | |n ow]; simpl in Hs.
  - by eapply rl_acquire_ok.
  - destruct Hs as [->| ->]; [by eapply rl_release_ok|]. by eapply rl_drop_ok; [..|exact H| | |].
  - subst p. simpl in H. simplify_eq. eapply rl_stay; [done|exact Hl|done|done| |done]. simpl.
    destruct (rl_is_owned t s') eqn:E; [|done]. by apply bool_decide_eq_true in E.
  - subst p. simpl in H. simplify_eq. by eapply rl_stay.
  - destruct Hs as [->|(n & Hn & ->)]; [by eapply rl_save_ok|].
    by eapply rl_drop_ok; [..|exact H| | |].
  - by eapply rl_restore_ok.
Qed.

#[export] Instance rlock_quiet : quiet_moves rlock_machine rl_client rl_ok rl_local (λ _, 0).
Proof.
  split; [done|..].
  - intros s t c o Hr Hm _ [H1 H2 H3 H4 H5]. split; [|done].
    assert (rl_inner_pc c = None) as Ei by (by destruct c). rewrite Ei in H1.
    assert (rl_limbo c = false) as El by (by destruct c). rewrite El in H3.
    split; simpl.
    + destruct o; simpl; try done. by apply ls_enter.
    + by destruct o.
    + intros Hh. destruct H3; [done|by left|done].
    + destruct o; simpl; try done. intros _. apply H4. simpl in Hm. by destruct c as [| | | | |[] [[]|]].
    + destruct o as [| | | | |n ow]; simpl; try done; [by left..|].
      simpl in Hm. destruct c as [| | | | |[] [[]|]]; try done.
      apply andb_true_iff in Hm as [?%Z.eqb_eq ?%bool_decide_eq_true]. subst. simpl in H5. naive_solver.
  - intros s t o dl p [H1 H2 H3 H4 H5]. split; [|done].
    destruct o; try done; destruct p; simpl in H5; try (destruct H5 as (? & ? & ?)); try done; split; simpl; naive_solver.
  - intros s t o dl p [H1 H2 H3 H4 H5]. split; [|done].
    destruct o; try done; destruct p; simpl in H5; try (destruct H5 as (? & ? & ?)); try done; split; simpl; naive_solver.
  - intros s t o g l r [H1 H2 H3 H4 H5]. split; [|done]. split; simpl; try done.
  - intros s t o r [H1 H2 H3 H4 H5]. split; [|done].
    destruct o; try done; destruct r as [[]|]; simpl in H5; try done; split; simpl; try done.
Qed.

Lemma rlock_inv isf w :
  reach rlock_machine isf rl_client rl_new w ->
  rl_ok (w_obj w) /\ forall t, rl_local (w_obj w) t (ctl_of w t).
Proof.
  intros Hr. destruct (og_reach rlock_machine isf rl_client rl_ok rl_local (λ _, 0) (λ _, 0) rl_new
    rl_new_ok rl_new_local eq_refl (rlock_blocks isf) w Hr) as (? & ? & _). done.
Qed.

(** A thread that does not own the lock cannot change who owns it, or how deep. *)
Lemma rl_block_foreign t t' fib now o p s s' a :
  rl_ok s -> rl_local s t' (At o p) -> rl_owner s = Some t -> t' ≠ t ->
  rl_block false t' fib now o p s = (s', a) -> rl_owner s' = rl_owner s /\ rl_count s' = rl_count s.
Proof.
  intros Hok [H1 H2 H3 H4 H5] Ho Hne H.
  assert (rl_limbo (At o p) = true -> False) as Hlb by (intros [_ ?]%H2; congruence).
  assert (rl_has (At o p) = true -> False) as Hhs by (intros ?%H4; congruence).
  assert (rl_is_owned t' s = false) as Hio by (apply bool_decide_eq_false; congruence).
  assert (Hin : forall b to q, rl_inner t' now b to q s = (s', a) ->
    rl_owner s' = rl_owner s /\ rl_count s' = rl_count s).
  { intros b to q Hx. unfold rl_inner in Hx. destruct (ls_acquire _ _ _ _ _ _) as [m a1].
    by destruct a1 as [|?|?|? []|[[]|]]; simplify_eq. }
  destruct o as [b to| | | | |n ow]; destruct p as [| |q| | |v]; simpl in *; simplify_eq; eauto;
    try (by destruct Hlb); try (by destruct Hhs); try (by destruct H5 as (? & ? & ?)); try (by destruct H5; simplify_eq).
  1: unfold rl_release in H; rewrite Hio in H; simpl in H; by simplify_eq.
  all: destruct H5 as [|(? & ? & ?)]; done.
Qed.

(** Re-entrant mutual exclusion: a thread whose last call was a successful [acquire] or
    [_acquire_restore] (or an [_is_owned] that returned True) is the recorded owner at depth at
    least one, no other thread is in that position, and a [release] by any other thread raises
    and changes nothing. *)
Theorem rlock_mutual_exclusion isf w t :
  reach rlock_machine isf rl_client rl_new w -> rl_told_owner (ctl_of w t) = true ->
  rl_owner (w_obj w) = Some t /\ 1 <= rl_count (w_obj w) /\
  forall t', t' ≠ t -> rl_told_owner (ctl_of w t') = false /\
    rl_release false t' (w_obj w) =
      (w_obj w, AReturn (Exc (RuntimeError "cannot release un-acquired lock"))).
Proof.
  intros [Hok Hl]%rlock_inv Ht.
  assert (forall c, rl_told_owner c = true -> rl_has c = true) as Hth.
  { intros c. destruct c as [|? []| | | |]; done. }
  assert (rl_owner (w_obj w) = Some t) as Ho by (apply (rll_has _ _ _ (Hl t)); auto).
  split_and!; [done|by apply (rlo_owner _ Hok t)|]. intros t' Hne. split.
  - destruct (rl_told_owner (ctl_of w t')) eqn:E; [|done].
    apply Hth, (rll_has _ _ _ (Hl t')) in E. congruence.
  - unfold rl_release, rl_is_owned. rewrite Ho. by rewrite bool_decide_eq_false_2 by congruence.
Qed.

(** The owner keeps the lock until it gives it up itself: no event other than a step of
    the owner changes the recorded owner or the recursion depth. *)
Theorem rlock_owner_stable isf w w' e t :
  reach rlock_machine isf rl_client rl_new w -> rl_owner (w_obj w) = Some t ->
  exec rlock_machine isf rl_client w e = Some w' -> e ≠ EStep t ->
  rl_owner (w_obj w') = Some t /\ rl_count (w_obj w') = rl_count (w_obj w).
Proof.
  intros [Hok Hl]%rlock_inv Ho He Hne. destruct e as [t' o|t'|t'|d]; simpl in He.
  - case_match; by simplify_eq/=.
  - assert (t' ≠ t) by congruence. pose proof (Hl t') as Hlt.
    destruct (ctl_of w t') as [|o p|o dl p|o u p|o [|g l] r|o r]; try case_decide; try case_match; simplify_eq/=; try done.
    unfold run_block. destruct (m_block _ _ _ _ _ _ _) as [s' a] eqn:E; simpl.
    destruct (rl_block_foreign t t' (isf t') (w_now w) o p (w_obj w) s' a) as [-> ->]; done.
  - case_match; by simplify_eq/=.
  - case_match; by simplify_eq/=.
Qed.
End rlock.

Arguments rlock M : clear implicits.
Arguments rl_pc Q : clear implicits.

(** The re-entrant lock over [CoLock], acquired twice by thread 1 while thread 2 waits. *)
Definition rlock_demo : world (rlock fmutex) rl_op (rl_pc fm_pc) rl_val :=
  after rlock_machine (λ _, true) rl_client rl_new
    ([ECall 1%nat (RlAcquire true None)] ++ replicate 3 (EStep 1%nat) ++
     [ECall 2%nat (RlAcquire true None)] ++ replicate 4 (EStep 2%nat) ++
     [ECall 1%nat (RlAcquire true None)] ++ replicate 2 (EStep 1%nat)).

Lemma rlock_mutual_exclusion_witness :
  rl_told_owner (ctl_of rlock_demo 1) = true /\ rl_told_owner (ctl_of rlock_demo 2) = false /\
  rl_count (w_obj rlock_demo) = 2.
Proof.
  destruct (rlock_mutual_exclusion (λ _, true) rlock_demo 1) as (_ & _ & H).
  - apply after_reach.
  - vm_compute. reflexivity.
  - split_and!; [vm_compute; reflexivity|by apply (H 2%nat)|vm_compute; reflexivity].
Defined.

Lemma rlock_owner_stable_witness :
  exists w', exec rlock_machine (λ _, true) rl_client rlock_demo (ESpurious 2%nat) = Some w' /\
    rl_owner (w_obj w') = Some 1%nat /\ rl_count (w_obj w') = rl_count (w_obj rlock_demo).
Proof.
  eexists. split; [vm_compute; reflexivity|].
  eapply (rlock_owner_stable (λ _, true) rlock_demo _ (ESpurious 2%nat) 1).
  - apply after_reach.
  - vm_compute. reflexivity.
  - vm_compute. reflexivity.
  - discriminate.
Defined.
