(* ===== verification/Semaphore.v ===== *)
(** * Semaphore: the weighted FIFO semaphore

    Models [class Semaphore] of [src/src/stackweave/sync.py].  A waiter's record
    [[g, n, [granted]]] is a cell of the queue; the sections between
    [_acquire(self._mu)] and [self._mu.unlock()] are blocks (the guard is a
    CoFMutex, whose mutual exclusion is proved in [FMutex]). *)
From S2P Require Import Prelude Fibers WaitQ.
Local Open Scope Z_scope.

Record sem := Sem { sm_limit : Z; sm_held : Z; sm_waiters : waitq }.

(** The permit-count argument of [acquire]: an [int], or a [bool] by mistake. *)
Inductive sem_count := CBool (b : bool) | CInt (n : Z).

Inductive sm_op :=
  | SAcquire (n : sem_count) (timeout : option Z)
  | STryAcquire (n : Z)
  | SRelease (n : Z).

Inductive sm_pc :=
  | SCheck                               (** argument checks, deadline *)
  | STake (dl : option Z)                (** fast path or enqueue *)
  | SPark (r : nat) (dl : option Z)      (** top of the wait loop *)
  | SExpire (r : nat)                    (** the deadline passed *)
  | SPoll (r : nat) (dl : option Z)      (** [granted = w[2][0]] *)
  | STry
  | SRel.

Inductive sm_val := SBool (b : bool) | SNone.

(** [Semaphore(value)] *)
Definition sm_new (value : Z) : out sem :=
  if value <? 0 then Exc (ValueError "Semaphore value must be >= 0")
  else Ret (Sem value 0 wq_empty).

(** [_grant_locked]: grant fitting front waiters in order, stop at the first
    that does not fit; returns the handles to wake. *)
Fixpoint sm_grant (limit : Z) (q : list nat) (held : Z) (w : waitq) : Z * waitq * list tid :=
  match q with
  | [] => (held, w, [])
  | r :: q' =>
      match wq_h w !! r with
      | Some c =>
          if held + c_n c <=? limit then
            let '(held', w', woke) := sm_grant limit q' (held + c_n c) (wq_pop_grant r c q' w) in
            (held', w', c_g c :: woke)
          else (held, w, [])
      | None => (held, w, [])
      end
  end.

Definition sm_grant_locked (s : sem) : sem * list tid :=
  let '(held, w, woke) := sm_grant (sm_limit s) (wq_q (sm_waiters s)) (sm_held s) (sm_waiters s) in
  (Sem (sm_limit s) held w, woke).

(** [not self._waiters and self._held + n <= self._limit] *)
Definition sm_fits (n : Z) (s : sem) : bool :=
  match wq_q (sm_waiters s) with [] => sm_held s + n <=? sm_limit s | _ => false end.

Definition sm_take (n : Z) (s : sem) : sem := Sem (sm_limit s) (sm_held s + n) (sm_waiters s).

Definition sm_drop (r : nat) (s : sem) : sem :=
  Sem (sm_limit s) (sm_held s) (wq_drop r (sm_waiters s)).

Definition sm_remove (r : nat) (s : sem) : sem :=
  Sem (sm_limit s) (sm_held s) (wq_remove r (sm_waiters s)).

Definition sm_granted (r : nat) (s : sem) : bool := wq_granted r (sm_waiters s).

(** The argument checks of [acquire(n)], in order. *)
Definition sm_check (fib : bool) (n : sem_count) (s : sem) : out Z :=
  match n with
  | CBool _ => Exc (TypeError "Semaphore.acquire(n): n is a permit count, not a bool")
  | CInt n =>
      if n <? 0 then Exc (ValueError "Semaphore.acquire(n): n must be >= 0")
      else if sm_limit s <? n then Exc (ValueError "Semaphore.acquire(n) exceeds limit")
      else if negb fib then Exc (foreign_error "Semaphore.acquire()")
      else Ret n
  end.

Definition sm_n (n : sem_count) : Z := match n with CInt n => n | CBool b => Z.b2z b end.

(** [acquire(n, timeout)] *)
Definition sm_acquire (t : tid) (fib : bool) (now : Z) (n : sem_count) (timeout : option Z)
  (p : sm_pc) (s : sem) : sem * action sm_pc sm_val :=
  match p with
  | SCheck =>
      match sm_check fib n s with
      | Exc e => (s, AReturn (Exc e))
      | Ret _ => (s, AGoto (STake (Z.add now <$> timeout)))
      end
  | STake dl =>
      if sm_fits (sm_n n) s then (sm_take (sm_n n) s, AReturn (Ret (SBool true)))
      else (Sem (sm_limit s) (sm_held s) (wq_push t (sm_n n) (sm_waiters s)),
            AGoto (SPark (wq_next (sm_waiters s)) dl))
  | SPark r dl =>
      match dl with
      | None => (s, APark None (SPoll r dl))
      | Some d => if d - now <=? 0 then (s, AGoto (SExpire r)) else (s, APark (Some d) (SPoll r dl))
      end
  | SExpire r =>
      if sm_granted r s then (sm_drop r s, AReturn (Ret (SBool true)))
      else let '(s', woke) := sm_grant_locked (sm_remove r s) in (s', AWake woke (Ret (SBool false)))
  | SPoll r dl =>
      if sm_granted r s then (sm_drop r s, AReturn (Ret (SBool true))) else (s, AGoto (SPark r dl))
  | STry | SRel => (s, AReturn (Ret SNone))
  end.

(** [try_acquire(n)] *)
Definition sm_try_acquire (fib : bool) (n : Z) (s : sem) : sem * action sm_pc sm_val :=
  if n <? 0 then (s, AReturn (Exc (ValueError "n must be >= 0")))
  else if negb fib then (s, AReturn (Exc (foreign_error "Semaphore.try_acquire()")))
  else if sm_fits n s then (sm_take n s, AReturn (Ret (SBool true)))
  else (s, AReturn (Ret (SBool false))).

(** [release(n)] *)
Definition sm_release (fib : bool) (n : Z) (s : sem) : sem * action sm_pc sm_val :=
  if n <? 0 then (s, AReturn (Exc (ValueError "Semaphore.release(n): n must be >= 0")))
  else if negb fib then (s, AReturn (Exc (foreign_error "Semaphore.release()")))
  else if sm_held s <? n then
    (s, AReturn (Exc (ValueError "Semaphore.release: released more than held")))
  else let '(s', woke) := sm_grant_locked (Sem (sm_limit s) (sm_held s - n) (sm_waiters s)) in
       (s', AWake woke (Ret SNone)).

Definition sm_entry (o : sm_op) : sm_pc :=
  match o with SAcquire _ _ => SCheck | STryAcquire _ => STry | SRelease _ => SRel end.

Definition sm_block (t : tid) (fib : bool) (now : Z) (o : sm_op) (p : sm_pc) (s : sem)
  : sem * action sm_pc sm_val :=
  match o with
  | SAcquire n to => sm_acquire t fib now n to p s
  | STryAcquire n => sm_try_acquire fib n s
  | SRelease n => sm_release fib n s
  end.

Definition sem_machine : machine sem sm_op sm_pc sm_val := Machine sm_entry sm_block.

Abbreviation sm_ctl := (ctl sm_op sm_pc sm_val).
Abbreviation sm_world := (world sem sm_op sm_pc sm_val).

(** ** The grant loop *)

(** The first waiter does not fit: nobody is kept waiting needlessly. *)
Definition sm_blocked (limit held : Z) (w : waitq) : Prop :=
  forall r q c, wq_q w = r :: q -> wq_h w !! r = Some c -> limit < held + c_n c.

(** The queue of a semaphore: records of 0..limit permits, none deactivated. *)
Abbreviation sm_queue limit := (wq_live (λ n, 0 <= n <= limit)).

(** What [_grant_locked] guarantees: it grants a prefix of the queue in order,
    adds exactly their permits, stays within the limit, leaves a front waiter
    that does not fit, and wakes everyone it grants. *)
Record sm_granting (limit held : Z) (w : waitq) (held' : Z) (w' : waitq) (woke : list tid) : Prop := {
  sg_queue : sm_queue limit w';
  sg_prefix : exists q, wq_q w = q ++ wq_q w' /\
    Some <$> woke = (λ r, c_g <$> wq_h w !! r) <$> q;
  sg_bounds : held <= held' /\ held' <= Z.max held limit;
  sg_blocked : sm_blocked limit held' w';
  sg_keeps t : wq_keeps w w' t;
  sg_debt : wq_debt w' - wq_debt w = held' - held;
  sg_wakes t r : wq_waits w t r -> wq_granted r w = false -> wq_granted r w' = true -> t ∈ woke
}.

Lemma sm_grant_spec limit q : forall held w held' w' woke,
  sm_queue limit w -> wq_q w = q -> sm_grant limit q held w = (held', w', woke) ->
  sm_granting limit held w held' w' woke.
Proof.
  induction q as [|r q IH]; intros held w held' w' woke Hw Hq Hg; simpl in Hg.
  { simplify_eq. split; try done; [by exists []|lia| |lia|congruence].
    intros r q c. by rewrite Hq. }
  destruct Hw as [Hok Hact].
  destruct (wqo_queued _ _ Hok r) as (c & Hc & Hcg); [rewrite Hq; by left|]. rewrite Hc in Hg.
  destruct (wqo_weight _ _ Hok r c Hc) as [Hc0 Hc1].
  destruct (Z.leb_spec (held + c_n c) limit) as [Hle|Hgt].
  - destruct (sm_grant _ _ _ _) as [[h1 w1] wk1] eqn:E. simplify_eq.
    destruct (wq_pop_grant_ok w r c q Hok Hq Hc (Hact _ _ Hc)) as (_ & Hk1 & Hd1).
    apply IH in E as [? (p & Hp & Hf) ? ? Hk ? Hwk]; [|by apply wq_live_pop_grant|done].
    pose proof (wqo_nodup _ _ Hok) as Hnd. rewrite Hq in Hnd. apply NoDup_cons in Hnd as [Hrq _].
    split; try done; [|lia|intros t; eauto with sw|lia|].
    + exists (r :: p). simpl in Hp. split; [by rewrite Hq, Hp|]. rewrite !fmap_cons, Hc, Hf.
      f_equal. apply list_fmap_ext. intros _ x _. simpl. rewrite lookup_insert.
      case_decide; [subst; by rewrite Hc|done].
    + intros t x Hwt Hng Hgx. destruct (decide (x = r)) as [->|Hne].
      * destruct Hwt as (c' & ? & ? & _). apply elem_of_cons. left. congruence.
      * right. apply (Hwk t x); [by apply Hk1| |done].
        unfold wq_granted in *; simpl. by rewrite lookup_insert_ne.
  - simplify_eq. split; try done; [by exists []|lia| |lia|congruence].
    intros r' q' c'. rewrite Hq. intros ? ?. simplify_eq. lia.
Qed.

(** ** Invariant *)

Record sm_ok (s : sem) : Prop := {
  smo_queue : sm_queue (sm_limit s) (sm_waiters s);
  smo_held : 0 <= sm_held s <= sm_limit s;
  smo_blocked : sm_blocked (sm_limit s) (sm_held s) (sm_waiters s)
}.

Definition sm_pc_of (c : sm_ctl) : option sm_pc :=
  match c with At _ p | Parked _ _ p | Sleeping _ _ p => Some p | _ => None end.

Definition sm_waits_on (p : sm_pc) : option nat :=
  match p with SPark r _ | SExpire r | SPoll r _ => Some r | _ => None end.

Definition sm_wait_rec (c : sm_ctl) : option nat := p ← sm_pc_of c; sm_waits_on p.

(** How many permits the call of a control state is about. *)
Definition sm_op_n (o : sm_op) : Z :=
  match o with SAcquire n _ => sm_n n | STryAcquire n | SRelease n => n end.
Definition sm_want (c : sm_ctl) : Z :=
  match c with
  | At o _ | Parked o _ _ | Sleeping o _ _ | Waking o _ _ | Fin o _ => sm_op_n o
  | Idle => 0
  end.

(** The thread has acquired permits and not yet released them. *)
Definition sm_holds (c : sm_ctl) : bool :=
  match c with
  | Fin (SAcquire _ _) (Ret (SBool true)) | Fin (STryAcquire _) (Ret (SBool true))
  | At (SRelease _) _ | Fin (SRelease _) (Exc _) => true
  | _ => false
  end.
Definition sm_own (c : sm_ctl) : Z := if sm_holds c then sm_want c else 0.
Definition sm_bal (s : sem) : Z := sm_held s - wq_debt (sm_waiters s).

(** Callers that release exactly what they acquired. *)
Definition sm_client (t : tid) (c : sm_ctl) (o : sm_op) : bool :=
  match o with
  | SRelease n =>
      match c with
      | Fin (SRelease _) _ => false
      | _ => sm_holds c && (n =? sm_want c)
      end
  | _ => negb (sm_holds c)
  end.

(** Where a control state of each call can be, and that its count was checked. *)
Definition sm_shape (limit : Z) (c : sm_ctl) : Prop :=
  match c with
  | At (SAcquire n _) p =>
      match p with SCheck => True | STry | SRel => False | _ => 0 <= sm_n n <= limit end
  | At (STryAcquire _) p => p = STry
  | At (SRelease _) p => p = SRel
  | Parked (SAcquire n _) _ p => match p with SPoll _ _ => 0 <= sm_n n <= limit | _ => False end
  | Waking (SAcquire _ _) _ r => r = Ret (SBool false)
  | Waking (SRelease _) _ r => r = Ret SNone
  | Parked _ _ _ | Sleeping _ _ _ | Waking _ _ _ => False
  | Fin (SRelease _) (Ret v) => v = SNone
  | Fin o (Ret (SBool true)) => 0 <= sm_op_n o
  | _ => True
  end.

Definition sm_local (limit : Z) (s : sem) (t : tid) (c : sm_ctl) : Prop :=
  wq_local (sm_wait_rec c) (sm_want c) (sm_waiters s) t /\ sm_shape limit c /\ sm_limit s = limit.

(** With disciplined callers, nobody holds a negative number of permits. *)
Definition sm_local_client (limit : Z) (s : sem) (t : tid) (c : sm_ctl) : Prop :=
  sm_local limit s t c /\ 0 <= sm_own c.

Lemma sm_local_entry limit s t c o : at_rest c = true -> sm_local limit s t c ->
  sm_local limit s t (At o (sm_entry o)).
Proof.
  intros Hr (H1 & _ & Hl). split_and!; [|by destruct o|done].
  assert (sm_wait_rec (At o (sm_entry o)) = None) as -> by by destruct o.
  eapply wq_local_None. by destruct c.
Qed.

Lemma sm_local_unpark limit s t o dl p :
  sm_local limit s t (Parked o dl p) -> sm_local limit s t (At o p) /\ sm_own (At o p) = 0.
Proof. intros (H1 & H2 & H3). destruct o; [|done..]. split; [|done]. split_and!; [done| |done]. by destruct p. Qed.

Lemma sm_local_wake limit s t o g l r :
  sm_local limit s t (Waking o (g :: l) r) -> sm_local limit s t (Waking o l r).
Proof. intros (H1 & H2 & H3). by destruct o. Qed.

Lemma sm_local_woken limit s t o r :
  sm_local limit s t (Waking o [] r) -> sm_local limit s t (Fin o r) /\ sm_own (Fin o r) = 0.
Proof. intros (H1 & H2 & H3). by destruct o; simpl in H2; subst. Qed.

Lemma sm_local_sleeping limit s t o u p : ~ sm_local limit s t (Sleeping o u p).
Proof. by intros (_ & ? & _). Qed.

#[export] Hint Resolve sm_local_entry sm_local_wake : sw.

#[export] Instance sm_quiet limit (may : tid -> sm_ctl -> sm_op -> bool) :
  quiet_moves sem_machine may sm_ok (sm_local limit) (λ _, 0).
Proof.
  split; simpl; [done|..]; intros; eauto with sw.
  - by edestruct sm_local_unpark.
  - exfalso. by eapply sm_local_sleeping.
  - by edestruct sm_local_woken.
Qed.

#[export] Instance sm_quiet_client limit :
  quiet_moves sem_machine sm_client sm_ok (sm_local_client limit) sm_own.
Proof.
  split; simpl; [done|..].
  - intros s t c o Hr Hm _ [Hl Ho].
    assert (sm_own (At o (sm_entry o)) = sm_own c) as He.
    { unfold sm_own. destruct o as [n to|n|n]; simpl in *; [by destruct (sm_holds c)..|].
      destruct c as [| | | | |[] ?]; simpl in *; try done;
        by apply andb_true_iff in Hm as [-> ?%Z.eqb_eq]. }
    split; [|done]. split; [eauto with sw|]. by rewrite He.
  - intros s t o dl p [Hl _]. apply sm_local_unpark in Hl as [? E]. unfold sm_local_client. by rewrite E.
  - by intros s t o u p [?%sm_local_sleeping _].
  - intros s t o g l r [Hl _]. by split_and!; [split; [eauto with sw|]|].
  - intros s t o r [Hl _]. apply sm_local_woken in Hl as [? E]. unfold sm_local_client. by rewrite E.
Qed.

(** ** Blocks *)

Definition sm_step_ok (limit : Z) (s s' : sem) (t : tid) (c c' : sm_ctl) : Prop :=
  sm_ok s' /\ sm_local limit s' t c' /\
  (forall t' c, t' ≠ t -> sm_local limit s t' c -> sm_local limit s' t' c) /\
  sm_own c' - sm_own c = sm_bal s' - sm_bal s /\
  (0 <= sm_own c -> 0 <= sm_own c').

Lemma sm_stay limit s t c c' :
  sm_ok s -> sm_local limit s t c -> sm_shape limit c' -> sm_wait_rec c' = sm_wait_rec c ->
  sm_want c' = sm_want c -> sm_own c' = sm_own c -> sm_step_ok limit s s t c c'.
Proof.
  intros Hok (H1 & _ & H3) Hsh Hw Hn Ho. split_and!; [done| |done|lia|lia].
  split_and!; [by rewrite Hw, Hn|done|done].
Qed.

(** Other threads only see the queue. *)
Lemma sm_local_keeps limit s s' t c :
  wq_keeps (sm_waiters s) (sm_waiters s') t -> sm_limit s' = sm_limit s ->
  sm_local limit s t c -> sm_local limit s' t c.
Proof. intros Hk Hl (H1 & H2 & <-). split_and!; [by eapply wq_local_keeps|done|done]. Qed.

(** [_grant_locked] under the invariant of its callers. *)
Lemma sm_grant_locked_ok s s' woke :
  sm_queue (sm_limit s) (sm_waiters s) -> 0 <= sm_held s <= sm_limit s ->
  sm_grant_locked s = (s', woke) ->
  sm_ok s' /\ sm_limit s' = sm_limit s /\ sm_bal s' = sm_bal s /\
  sm_granting (sm_limit s) (sm_held s) (sm_waiters s) (sm_held s') (sm_waiters s') woke.
Proof.
  intros Hq Hh Hg. unfold sm_grant_locked in Hg.
  destruct (sm_grant _ _ _ _) as [[held w] wk] eqn:E. simplify_eq; simpl.
  apply sm_grant_spec in E as Hgr; [|done|done]. destruct Hgr as [? ? ? ? ? Hd ?].
  split_and!; [split; simpl; [done|lia|done]|done|unfold sm_bal; simpl; lia|by split].
Qed.

(** The fast path of [acquire] and [try_acquire]. *)
Lemma sm_fast limit s t c c' n :
  sm_ok s -> sm_local limit s t c -> sm_fits n s = true -> 0 <= n -> sm_shape limit c' ->
  sm_wait_rec c = None -> sm_wait_rec c' = None -> sm_own c = 0 -> sm_own c' = n ->
  sm_step_ok limit s (sm_take n s) t c c'.
Proof.
  intros [Hq Hh Hb] (H1 & _ & H3) Hf Hn Hsh Hw Hw' Ho Ho'. unfold sm_fits in Hf.
  destruct (wq_q (sm_waiters s)) as [|] eqn:Eq; [|done]. apply Z.leb_le in Hf. split_and!.
  - split; simpl; [done|lia|]. intros r q c0. by rewrite Eq.
  - split_and!; [|done|done]. rewrite Hw'. rewrite Hw in H1. by eapply wq_local_None.
  - intros t' c0 _. apply sm_local_keeps; [apply wq_keeps_refl|done].
  - unfold sm_bal; simpl. lia.
  - lia.
Qed.

(** The slow path of [acquire]: the caller queues behind the others. *)
Lemma sm_enqueue limit s t c c' n :
  sm_ok s -> sm_local limit s t c -> sm_fits n s = false -> 0 <= n <= limit -> sm_shape limit c' ->
  sm_wait_rec c = None -> sm_wait_rec c' = Some (wq_next (sm_waiters s)) -> sm_want c' = n ->
  sm_own c = 0 -> sm_own c' = 0 ->
  sm_step_ok limit s (Sem (sm_limit s) (sm_held s) (wq_push t n (sm_waiters s))) t c c'.
Proof.
  intros [[Hq Hact] Hh Hb] (H1 & _ & H3) Hf Hn Hsh Hw Hw' Hwant Ho Ho'. subst limit.
  destruct (wq_push_ok t n (sm_waiters s) Hq Hn) as (Hok & _ & _ & Hk & Hd). split_and!.
  - split; simpl; [split; simpl; [done|]|done|].
    + intros r c0 [[_ <-]|[_ ?]]%lookup_insert_Some; eauto.
    + intros r q c0 Eq Hc0. simpl in Eq, Hc0. unfold sm_fits in Hf.
      destruct (wq_q (sm_waiters s)) as [|r' q'] eqn:E; simplify_eq/=.
      * rewrite lookup_insert_eq in Hc0. simplify_eq/=. lia.
      * rewrite lookup_insert_ne in Hc0; [by eapply Hb|].
        destruct (wqo_queued _ _ Hq r) as (cr & Hcr & _); [rewrite E; by left|].
        apply (wqo_fresh _ _ Hq) in Hcr. lia.
  - split_and!; [|done|done]. rewrite Hw', Hwant; simpl. rewrite Hw in H1.
    eapply wq_local_push; [done|done|by eapply wq_local_None].
  - intros t' c0 Ht. apply sm_local_keeps; [by apply Hk|done].
  - unfold sm_bal; simpl. lia.
  - lia.
Qed.

(** A granted waiter returns with its permits. *)
Lemma sm_collect limit s t c c' r :
  sm_ok s -> sm_local limit s t c -> sm_wait_rec c = Some r -> sm_granted r s = true ->
  sm_shape limit c' -> sm_wait_rec c' = None -> sm_own c = 0 -> sm_own c' = sm_want c ->
  0 <= sm_want c -> sm_step_ok limit s (sm_drop r s) t c c'.
Proof.
  intros [[Hq Hact] Hh Hb] (H1 & _ & H3) Hr Hg Hsh Hw' Ho Ho' Hn. rewrite Hr in H1.
  assert (wq_waits (sm_waiters s) t r) as Hwt by by apply H1.
  destruct (wq_take_ok t (sm_waiters s) r Hq Hwt Hg) as (Hok & Hm & Hk & Hd). split_and!.
  - split; simpl; [split; simpl; [done|]|done|].
    + intros x cx [_ ?]%lookup_delete_Some. eauto.
    + intros x q cx Eq Hx. simpl in Eq, Hx. apply lookup_delete_Some in Hx as [_ ?]. by eapply Hb.
  - split_and!; [|done|done]. rewrite Hw'.
    by apply (wq_local_forget (sm_waiters s) _ t r (sm_want c)).
  - intros t' c0 Ht. apply sm_local_keeps; [by apply Hk|done].
  - destruct Hwt as (cr & Hcr & _). rewrite Hcr in Hd; simpl in Hd.
    rewrite (wq_local_weight _ t r (sm_want c) cr H1 Hcr) in Hd. unfold sm_bal; simpl. lia.
  - lia.
Qed.

(** A waiter past its deadline leaves; the waiters behind it may now fit. *)
Lemma sm_expire limit s t c c' r s' woke :
  sm_ok s -> sm_local limit s t c -> sm_wait_rec c = Some r -> sm_granted r s = false ->
  sm_shape limit c' -> sm_wait_rec c' = None -> sm_own c = 0 -> sm_own c' = 0 ->
  sm_grant_locked (sm_remove r s) = (s', woke) -> sm_step_ok limit s s' t c c'.
Proof.
  intros [[Hq Hact] Hh Hb] (H1 & _ & H3) Hr Hg Hsh Hw' Ho Ho' Hgr. rewrite Hr in H1.
  assert (wq_waits (sm_waiters s) t r) as Hwt by by apply H1.
  destruct (wq_remove_ok t (sm_waiters s) r Hq Hwt Hg) as (Hok & Hm & Hk & Hd).
  apply sm_grant_locked_ok in Hgr as (? & Hl & Hbal & [_ _ _ _ Hgk _ _]); simpl in *; [| |done].
  - split_and!; [done| | | |lia].
    + split_and!; [|done|by rewrite Hl]. rewrite Hw'. eapply wq_local_keeps; [apply Hgk|].
      by apply (wq_local_forget (sm_waiters s) _ t r (sm_want c)).
    + intros t' c0 Ht. apply sm_local_keeps; [|by rewrite Hl].
      eapply wq_keeps_trans; [by apply Hk|apply Hgk].
    + unfold sm_bal in *; simpl in *. lia.
  - split; [done|]. intros x cx Hx; simpl in Hx. apply lookup_delete_Some in Hx as [_ ?]. eauto.
Qed.

(** [release(n)] with [n] permits held. *)
Lemma sm_release_ok limit s t c c' n s' woke :
  sm_ok s -> sm_local limit s t c -> 0 <= n <= sm_held s ->
  sm_shape limit c' -> sm_wait_rec c = None -> sm_wait_rec c' = None ->
  sm_own c = n -> sm_own c' = 0 ->
  sm_grant_locked (Sem (sm_limit s) (sm_held s - n) (sm_waiters s)) = (s', woke) ->
  sm_step_ok limit s s' t c c'.
Proof.
  intros [Hq Hh Hb] (H1 & _ & H3) Hn Hsh Hw Hw' Ho Ho' Hgr. rewrite Hw in H1.
  apply sm_grant_locked_ok in Hgr as (? & Hl & Hbal & [_ _ _ _ Hgk _ _]); simpl in *; [|done|lia].
  split_and!; [done| | | |lia].
  - split_and!; [|done|by rewrite Hl]. rewrite Hw'. eapply wq_local_None, wq_local_keeps; [apply Hgk|done].
  - intros t' c0 Ht. apply sm_local_keeps; [apply Hgk|by rewrite Hl].
  - unfold sm_bal in *; simpl in *. lia.
Qed.

Lemma sm_blocks_ok limit isf t now o p s s' a :
  sm_ok s -> sm_local limit s t (At o p) -> sm_block t (isf t) now o p s = (s', a) ->
  sm_step_ok limit s s' t (At o p) (act_ctl o a).
Proof.
  intros Hok Hl Hb. pose proof Hl as (_ & Hsh & Hlim). destruct o as [n to|n|n]; simpl in Hb.
  - destruct p as [|dl|r dl|r|r dl| |]; simpl in Hb, Hsh; try done.
    + unfold sm_check in Hb. repeat case_match; simplify_eq; apply sm_stay; try done; simpl; lia.
    + destruct (sm_fits _ s) eqn:Ef; simplify_eq; [eapply sm_fast|eapply sm_enqueue]; try done; simpl in *; lia.
    + repeat case_match; simplify_eq; by apply sm_stay.
    + destruct (sm_granted r s) eqn:Eg; [simplify_eq; eapply sm_collect; try done; simpl in *; lia|].
      destruct (sm_grant_locked _) as [s1 wk] eqn:E. simplify_eq. by eapply sm_expire.
    + destruct (sm_granted r s) eqn:Eg; simplify_eq; [eapply sm_collect; try done; simpl in *; lia|by apply sm_stay].
  - simpl in Hsh. subst p. unfold sm_try_acquire in Hb. repeat case_match; simplify_eq; try by apply sm_stay.
    eapply sm_fast; try done; simpl in *; lia.
  - simpl in Hsh. subst p. unfold sm_release in Hb. repeat case_match; simplify_eq; try by apply sm_stay.
    eapply sm_release_ok with (n := n); try done; lia.
Qed.

Lemma sm_blocks limit isf : blocks_ok sem_machine isf sm_ok (sm_local limit) (λ _, 0) (λ _, 0).
Proof.
  intros t now o p s s' a Hok Hl Hb.
  by destruct (sm_blocks_ok limit isf t now o p s s' a Hok Hl Hb) as (? & ? & ? & _).
Qed.

Lemma sm_blocks_client limit isf :
  blocks_ok sem_machine isf sm_ok (sm_local_client limit) sm_own sm_bal.
Proof.
  intros t now o p s s' a Hok [Hl Ho] Hb.
  destruct (sm_blocks_ok limit isf t now o p s s' a Hok Hl Hb) as (? & ? & Hk & ? & ?).
  split_and!; [done|split; auto| |done]. intros t' c Ht [? ?]. split; auto.
Qed.

(** ** No lost grant *)

Definition sm_ready (s : sem) (t : tid) (c : sm_ctl) : bool :=
  match c with
  | Parked (SAcquire _ _) _ (SPoll r _) | At (SAcquire _ _) (SPark r _) => sm_granted r s
  | _ => false
  end.

Lemma sm_ready_rec s t c : sm_ready s t c = true ->
  exists r, sm_wait_rec c = Some r /\ forall s', sm_ready s' t c = sm_granted r s'.
Proof. intros H. destruct c as [|[] []|[] ? []| | |]; simpl in H; try done; by eexists. Qed.

(** A block that grants somebody's record wakes that thread. *)
Lemma sm_grant_wakes limit isf t now o p s s' a t' r :
  sm_ok s -> sm_local limit s t (At o p) -> sm_block t (isf t) now o p s = (s', a) ->
  t' ≠ t -> wq_waits (sm_waiters s) t' r -> sm_granted r s = false -> sm_granted r s' = true ->
  exists l v, a = AWake l v /\ t' ∈ l.
Proof.
  intros [[Hq Hact] Hh Hb0] (H1 & Hsh & _) Hb Hne Hw Hf Hg. unfold sm_granted in *.
  destruct o as [n to|n|n]; simpl in Hb.
  - destruct p as [|dl|x dl|x|x dl| |]; simpl in Hb, Hsh; try done;
      repeat case_match; simplify_eq/=; try congruence;
      try (apply wq_push_granted in Hg; congruence); try (apply wq_drop_granted in Hg; congruence).
    assert (wq_waits (sm_waiters s) t x) as Hwx by by apply H1.
    destruct (wq_remove_ok t (sm_waiters s) x Hq Hwx) as (Hok & _ & Hk & _); [done|].
    match goal with E : sm_grant_locked _ = _ |- _ => rename E into Egr end.
    apply sm_grant_locked_ok in Egr as (_ & _ & _ & [_ _ _ _ _ _ Hwk]); [|split; [done|]|done].
    + eexists _, _. split; [done|].
      apply (Hwk t' r); [by apply Hk|by apply wq_remove_not_granted|done].
    + intros y cy Hy; simpl in Hy. apply lookup_delete_Some in Hy as [_ ?]. eauto.
  - unfold sm_try_acquire in Hb. repeat case_match; simplify_eq/=; congruence.
  - unfold sm_release in Hb. repeat case_match; simplify_eq/=; try congruence.
    match goal with E : sm_grant_locked _ = _ |- _ => rename E into Egr end.
    apply sm_grant_locked_ok in Egr as (_ & _ & _ & [_ _ _ _ _ _ Hwk]); simpl in *; [|by split|lia].
    eexists _, _. split; [done|]. by apply (Hwk t' r).
Qed.

#[export] Instance sm_wakes limit isf : wakes_ok sem_machine isf sm_ok (sm_local limit) sm_ready.
Proof.
  split; simpl; try done.
  - by intros s t [].
  - intros s t o dl p (_ & H & _). destruct o; [by destruct p|done..].
  - by intros s t o u p ?%sm_local_sleeping.
  - intros t now o p s s' a Hok (_ & Hsh & _) Hb Hr. destruct o as [n to|n|n].
    + destruct p; simpl in Hb, Hsh; try done; repeat case_match; simplify_eq/=; try congruence.
      unfold sm_granted, wq_granted in Hr; simpl in Hr. by rewrite lookup_insert_eq in Hr.
    + unfold sm_block, sm_try_acquire in Hb. repeat case_match; by simplify_eq/=.
    + unfold sm_block, sm_release in Hb. repeat case_match; by simplify_eq/=.
  - intros t now o p s s' a t' c' Hok Hl Hb Hne ([Hl' _] & _) Hf Hr.
    pose proof (sm_ready_rec _ _ _ Hr) as (r & Hrec & Heq). rewrite Heq in Hf, Hr.
    eapply sm_grant_wakes; try done. by apply Hl'.
Qed.

(** ** Properties *)

Lemma sm_new_ok v s0 : sm_new v = Ret s0 ->
  0 <= v /\ s0 = Sem v 0 wq_empty /\ sm_ok s0 /\ forall t, sm_local v s0 t Idle.
Proof.
  unfold sm_new. destruct (Z.ltb_spec v 0); intros; simplify_eq. split_and!; [done|done| |].
  - split; simpl; [|lia|done]. split; [apply wq_empty_ok|done].
  - intros t. split_and!; [apply wq_empty_local|done|done].
Qed.

Lemma sm_client_inv isf v s0 w :
  sm_new v = Ret s0 -> reach sem_machine isf sm_client s0 w ->
  og_inv sm_ok (sm_local_client v) sm_own sm_bal w.
Proof.
  intros (Hv & -> & Hok & Hl)%sm_new_ok Hr.
  eapply og_reach; [..|exact Hr];
    [apply sm_quiet_client|done|by intros t; split|done|apply sm_blocks_client].
Qed.

Lemma sm_any_inv isf may v s0 w :
  sm_new v = Ret s0 -> reach sem_machine isf may s0 w ->
  og_inv sm_ok (sm_local v) (λ _, 0) (λ _, 0) w /\ woken_inv sm_ready w.
Proof.
  intros (Hv & -> & Hok & Hl)%sm_new_ok Hr.
  apply (inv_reach _ isf may _ _ _ _ _ (Sem v 0 wq_empty)); try done;
    [apply sm_blocks|apply sm_wakes].
Qed.

Lemma sm_held_sum isf v s0 w :
  sm_new v = Ret s0 -> reach sem_machine isf sm_client s0 w ->
  msum sm_own (w_ctl w) + wq_debt (sm_waiters (w_obj w)) = sm_held (w_obj w) /\
  0 <= wq_debt (sm_waiters (w_obj w)) /\ sm_held (w_obj w) <= v /\
  (forall t c, w_ctl w !! t = Some c -> 0 <= sm_own c).
Proof.
  intros Hn Hr. destruct (sm_client_inv isf v s0 w Hn Hr) as ([[Hq _] Hh _] & HL & Hs).
  assert (sm_limit (w_obj w) = v) as Hlim by (destruct (HL 0%nat) as ((_ & _ & ?) & _); done).
  unfold sm_bal in Hs. split_and!; [lia| |lia|].
  - apply msum_nonneg. intros r c Hc. apply (wqo_weight _ _ Hq) in Hc.
    unfold wq_handed. destruct (c_granted c); lia.
  - intros t c Hc. destruct (HL t) as [_ Ho]. unfold ctl_of in Ho. by rewrite Hc in Ho.
Qed.

(** C3. No oversubscription: in every interleaving of callers that release what
    they acquired, the permits held by the callers, together with those handed
    to waiters that have not resumed yet, are the recorded count and never
    exceed the limit. *)
Theorem semaphore_never_oversubscribed isf v s0 w :
  sm_new v = Ret s0 -> reach sem_machine isf sm_client s0 w ->
  msum sm_own (w_ctl w) + wq_debt (sm_waiters (w_obj w)) = sm_held (w_obj w) /\
  0 <= msum sm_own (w_ctl w) <= v.
Proof.
  intros Hn Hr. destruct (sm_held_sum isf v s0 w Hn Hr) as (Hs & Hd & Hv & Ho).
  pose proof (msum_nonneg sm_own (w_ctl w) Ho). lia.
Qed.

(** Returning acquired permits never raises: a fiber that releases what it
    acquired finds at least that many permits held, and its release succeeds. *)
Theorem semaphore_release_succeeds isf v s0 w t n :
  sm_new v = Ret s0 -> reach sem_machine isf sm_client s0 w ->
  ctl_of w t = At (SRelease n) SRel ->
  0 <= n <= sm_held (w_obj w) /\
  exists s' woke, sm_release true n (w_obj w) = (s', AWake woke (Ret SNone)).
Proof.
  intros Hn Hr Hc. destruct (sm_held_sum isf v s0 w Hn Hr) as (Hs & Hd & Hv & Ho).
  unfold ctl_of in Hc. destruct (w_ctl w !! t) as [c|] eqn:E; simpl in Hc; [subst c|done].
  pose proof (Ho _ _ E) as H0. pose proof (msum_ge sm_own _ _ _ Ho E) as H1.
  unfold sm_own in H0, H1 at 1; simpl in H0, H1. split; [lia|].
  unfold sm_release. destruct (Z.ltb_spec n 0); [lia|]; simpl.
  destruct (Z.ltb_spec (sm_held (w_obj w)) n); [lia|].
  destruct (sm_grant_locked _) as [s' woke]. by eexists _, _.
Qed.

(** No stranded waiter, whatever the callers do (timeouts, over-releases,
    foreign threads): once no thread can step, a parked waiter is queued, is not
    past its deadline, and the waiter at the front needs more permits than are
    free. *)
Theorem semaphore_waiters_really_blocked isf may v s0 w t o dl p :
  sm_new v = Ret s0 -> reach sem_machine isf may s0 w ->
  quiescent sem_machine isf may w -> ctl_of w t = Parked o dl p ->
  due dl (w_now w) = false /\
  exists r q c, wq_q (sm_waiters (w_obj w)) = r :: q /\
    wq_h (sm_waiters (w_obj w)) !! r = Some c /\
    v < sm_held (w_obj w) + c_n c /\
    exists x, sm_wait_rec (Parked o dl p) = Some x /\ x ∈ r :: q.
Proof.
  intros Hn Hr Hq Hp. destruct (sm_any_inv isf may v s0 w Hn Hr) as [(Hok & HL & _) Hw].
  destruct (quiescent_not_ready _ _ _ _ w t o dl p Hw Hq Hp) as [Hf Hd]. split; [done|].
  pose proof (HL t) as Hl. rewrite Hp in Hl. destruct Hl as ([H1 _] & Hsh & Hlim).
  destruct o as [n to|n|n]; [|done..]. destruct p as [| | | |x dl'| |]; try done. simpl in Hf.
  assert (x ∈ wq_q (sm_waiters (w_obj w))) as Hin.
  { apply (wq_waits_not_granted _ t); [by apply H1|done]. }
  destruct Hok as [[Hqk _] _ Hb]. destruct (wq_q (sm_waiters (w_obj w))) as [|r q] eqn:Eq;
    [by apply elem_of_nil in Hin|].
  destruct (wqo_queued _ _ Hqk r) as (c & Hc & _); [rewrite Eq; by left|].
  exists r, q, c. split_and!; [done..| |by exists x]. rewrite <- Hlim. by eapply Hb.
Qed.

(** C4. [_grant_locked] implements the FIFO specification: it grants a prefix of
    the queue in order and wakes exactly its owners in that order, adds their
    permits to the count within the limit, and stops at the first waiter that
    does not fit. *)
Theorem semaphore_grants_fifo_prefix s s' woke :
  sm_queue (sm_limit s) (sm_waiters s) -> 0 <= sm_held s <= sm_limit s ->
  sm_grant_locked s = (s', woke) ->
  (exists q, wq_q (sm_waiters s) = q ++ wq_q (sm_waiters s') /\
    Some <$> woke = (λ r, c_g <$> wq_h (sm_waiters s) !! r) <$> q) /\
  sm_held s <= sm_held s' <= sm_limit s /\
  sm_held s' - sm_held s = wq_debt (sm_waiters s') - wq_debt (sm_waiters s) /\
  sm_blocked (sm_limit s) (sm_held s') (sm_waiters s').
Proof.
  intros Hq Hh Hg. apply sm_grant_locked_ok in Hg as (_ & _ & _ & [? ? ? ? ? ? ?]); [|done..].
  split_and!; [done|lia..|done].
Qed.

(** Every rejected call (a [bool] or negative count, a count above the
    limit, an over-release, a foreign thread) raises before it changes the
    semaphore. *)
Theorem semaphore_errors_change_nothing t fib now o p s s' e :
  sm_block t fib now o p s = (s', AReturn (Exc e)) -> s' = s.
Proof.
  destruct o as [n to|n|n]; simpl.
  - destruct p; simpl; intros H; repeat case_match; by simplify_eq.
  - unfold sm_try_acquire. intros H; repeat case_match; by simplify_eq.
  - unfold sm_release. intros H; repeat case_match; by simplify_eq.
Qed.

(** ** Witnesses *)

(** Limit 3; fiber 1 holds 2, fiber 2 waits for 2 and fiber 3 queues behind it. *)
Definition sm_demo : list (event sm_op) :=
  [ECall 1 (SAcquire (CInt 2) None); EStep 1; EStep 1;
   ECall 2 (SAcquire (CInt 2) None); EStep 2; EStep 2; EStep 2;
   ECall 3 (SAcquire (CInt 1) (Some 7)); EStep 3; EStep 3; EStep 3].
Definition sm_demo_world : sm_world :=
  after sem_machine (λ _, true) sm_client (Sem 3 0 wq_empty) sm_demo.

Lemma semaphore_never_oversubscribed_witness :
  msum sm_own (w_ctl sm_demo_world) + wq_debt (sm_waiters (w_obj sm_demo_world)) =
    sm_held (w_obj sm_demo_world) /\ 0 <= msum sm_own (w_ctl sm_demo_world) <= 3.
Proof.
  apply (semaphore_never_oversubscribed (λ _, true) 3 (Sem 3 0 wq_empty)); [reflexivity|apply after_reach].
Defined.

Lemma semaphore_release_succeeds_witness :
  let w := after sem_machine (λ _, true) sm_client (Sem 3 0 wq_empty) (sm_demo ++ [ECall 1 (SRelease 2)]) in
  0 <= 2 <= sm_held (w_obj w) /\
  exists s' woke, sm_release true 2 (w_obj w) = (s', AWake woke (Ret SNone)).
Proof.
  intros w. apply (semaphore_release_succeeds (λ _, true) 3 (Sem 3 0 wq_empty) w 1);
    [reflexivity|apply after_reach|vm_compute; reflexivity].
Defined.

Lemma semaphore_waiters_really_blocked_witness :
  due (Some 7) (w_now sm_demo_world) = false /\
  exists r q c, wq_q (sm_waiters (w_obj sm_demo_world)) = r :: q /\
    wq_h (sm_waiters (w_obj sm_demo_world)) !! r = Some c /\
    3 < sm_held (w_obj sm_demo_world) + c_n c /\
    exists x, sm_wait_rec (Parked (SAcquire (CInt 1) (Some 7)) (Some 7) (SPoll 1 (Some 7))) = Some x /\
      x ∈ r :: q.
Proof.
  apply (semaphore_waiters_really_blocked (λ _, true) sm_client 3 (Sem 3 0 wq_empty) sm_demo_world 3);
    [reflexivity|apply after_reach|apply quiescentb_sound; vm_compute; reflexivity|vm_compute; reflexivity].
Defined.

Definition sm_demo_queue : waitq := wq_push 8 1 (wq_push 7 2 wq_empty).

Lemma sm_demo_queue_ok : sm_queue 3 sm_demo_queue.
Proof.
  split.
  - apply wq_push_ok; [apply wq_push_ok; [apply wq_empty_ok|lia]|lia].
  - intros r c Hc. simpl in Hc. apply lookup_insert_Some in Hc as [[_ <-]|[_ Hc]]; [done|].
    apply lookup_insert_Some in Hc as [[_ <-]|[_ Hc]]; done.
Qed.

Lemma semaphore_grants_fifo_prefix_witness :
  let s' := (sm_grant_locked (Sem 3 0 sm_demo_queue)).1 in
  let woke := (sm_grant_locked (Sem 3 0 sm_demo_queue)).2 in
  (exists q, wq_q sm_demo_queue = q ++ wq_q (sm_waiters s') /\
    Some <$> woke = (λ r, c_g <$> wq_h sm_demo_queue !! r) <$> q) /\
  0 <= sm_held s' <= 3 /\
  sm_held s' - 0 = wq_debt (sm_waiters s') - wq_debt sm_demo_queue /\
  sm_blocked 3 (sm_held s') (sm_waiters s').
Proof.
  apply (semaphore_grants_fifo_prefix (Sem 3 0 sm_demo_queue));
    [apply sm_demo_queue_ok|simpl; lia|apply surjective_pairing].
Defined.

Lemma semaphore_errors_change_nothing_witness :
  Sem 3 1 wq_empty = Sem 3 1 wq_empty.
Proof.
  apply (semaphore_errors_change_nothing 1 true 0 (SRelease 2) SRel (Sem 3 1 wq_empty) (Sem 3 1 wq_empty)
    (ValueError "Semaphore.release: released more than held")). reflexivity.
Defined.
