(* ===== verification/RWMutex.v ===== *)
(** * RWMutex: the writer-preferring reader/writer lock

    Models [class RWMutex] (and its [_RWReadCtx]) of
    [src/src/stackweave/sync.py].  Waiters append a cell [[g, [granted]]] once
    and park until it is granted; [runlock]/[unlock] transfer the lock under the
    guard and wake the new owners afterwards. *)
From S2P Require Import Prelude Fibers WaitQ.
Local Open Scope Z_scope.

Record rwmutex := RWMutex {
  rw_readers : Z;       (** active read-lock holders *)
  rw_writer : bool;     (** a write lock is held *)
  rw_rwait : waitq;     (** parked reader cells *)
  rw_wwait : waitq      (** parked writer cells, FIFO *)
}.

Definition rw_new : rwmutex := RWMutex 0 false wq_empty wq_empty.

Inductive rw_op := RLock | RUnlock | WLock | WUnlock.
Inductive rw_pc := RwStart | RwPoll (r : nat).

#[export] Instance rw_pc_eq_dec : EqDecision rw_pc.
Proof. solve_decision. Defined.

(** [with rw:] and [with rw.rlocked():] enter and leave through these calls. *)
Definition rw_enter : rw_op := WLock.
Definition rw_exit : rw_op := WUnlock.
Definition rw_read_enter : rw_op := RLock.
Definition rw_read_exit : rw_op := RUnlock.

Abbreviation rw_act := (action rw_pc unit).

Definition rw_what (o : rw_op) : string :=
  match o with
  | RLock => "RWMutex.rlock()" | RUnlock => "RWMutex.runlock()"
  | WLock => "RWMutex.lock()" | WUnlock => "RWMutex.unlock()"
  end.

(** [for cell in readers: cell[1][0] = True], popping them all. *)
Fixpoint rw_grant_all (q : list nat) (w : waitq) : waitq * list tid :=
  match q with
  | [] => (w, [])
  | r :: q' =>
      match wq_h w !! r with
      | Some c => let '(w', l) := rw_grant_all q' (wq_pop_grant r c q' w) in (w', c_g c :: l)
      | None => (w, [])
      end
  end.

Definition rw_rlock (t : tid) (p : rw_pc) (s : rwmutex) : rwmutex * rw_act :=
  match p with
  | RwStart =>
      if negb (rw_writer s) && bool_decide (wq_q (rw_wwait s) = [])
      then (RWMutex (rw_readers s + 1) (rw_writer s) (rw_rwait s) (rw_wwait s), AReturn (Ret tt))
      else (RWMutex (rw_readers s) (rw_writer s) (wq_push t 1 (rw_rwait s)) (rw_wwait s),
            APark None (RwPoll (wq_next (rw_rwait s))))
  | RwPoll r =>
      if wq_granted r (rw_rwait s)
      then (RWMutex (rw_readers s) (rw_writer s) (wq_drop r (rw_rwait s)) (rw_wwait s), AReturn (Ret tt))
      else (s, APark None (RwPoll r))
  end.

Definition rw_runlock (s : rwmutex) : rwmutex * rw_act :=
  if rw_readers s <=? 0
  then (s, AReturn (Exc (RuntimeError "RWMutex.runlock(): read lock not held")))
  else
    let n := rw_readers s - 1 in
    match wq_q (rw_wwait s) with
    | r :: q =>
        if n =? 0 then
          match wq_h (rw_wwait s) !! r with
          | Some c => (RWMutex n true (rw_rwait s) (wq_pop_grant r c q (rw_wwait s)),
                       AWake [c_g c] (Ret tt))
          | None => (s, AReturn (Ret tt))
          end
        else (RWMutex n (rw_writer s) (rw_rwait s) (rw_wwait s), AReturn (Ret tt))
    | [] => (RWMutex n (rw_writer s) (rw_rwait s) (rw_wwait s), AReturn (Ret tt))
    end.

Definition rw_lock (t : tid) (p : rw_pc) (s : rwmutex) : rwmutex * rw_act :=
  match p with
  | RwStart =>
      if negb (rw_writer s) && (rw_readers s =? 0)
      then (RWMutex (rw_readers s) true (rw_rwait s) (rw_wwait s), AReturn (Ret tt))
      else (RWMutex (rw_readers s) (rw_writer s) (rw_rwait s) (wq_push t 1 (rw_wwait s)),
            APark None (RwPoll (wq_next (rw_wwait s))))
  | RwPoll r =>
      if wq_granted r (rw_wwait s)
      then (RWMutex (rw_readers s) (rw_writer s) (rw_rwait s) (wq_drop r (rw_wwait s)), AReturn (Ret tt))
      else (s, APark None (RwPoll r))
  end.

Definition rw_unlock (s : rwmutex) : rwmutex * rw_act :=
  if negb (rw_writer s)
  then (s, AReturn (Exc (RuntimeError "RWMutex.unlock(): write lock not held")))
  else
    match wq_q (rw_wwait s) with
    | r :: q =>
        match wq_h (rw_wwait s) !! r with
        | Some c => (RWMutex (rw_readers s) (rw_writer s) (rw_rwait s) (wq_pop_grant r c q (rw_wwait s)),
                     AWake [c_g c] (Ret tt))
        | None => (s, AReturn (Ret tt))
        end
    | [] =>
        match wq_q (rw_rwait s) with
        | [] => (RWMutex (rw_readers s) false (rw_rwait s) (rw_wwait s), AReturn (Ret tt))
        | q => let '(w, woke) := rw_grant_all q (rw_rwait s) in
               (RWMutex (Z.of_nat (length q)) false w (rw_wwait s), AWake woke (Ret tt))
        end
    end.

Definition rw_block (t : tid) (fib : bool) (now : Z) (o : rw_op) (p : rw_pc) (s : rwmutex)
  : rwmutex * rw_act :=
  if negb fib && bool_decide (p = RwStart) then (s, AReturn (Exc (foreign_error (rw_what o))))
  else match o with
       | RLock => rw_rlock t p s
       | RUnlock => rw_runlock s
       | WLock => rw_lock t p s
       | WUnlock => rw_unlock s
       end.

Definition rw_machine : machine rwmutex rw_op rw_pc unit := Machine (λ _, RwStart) rw_block.

Abbreviation rw_ctl := (ctl rw_op rw_pc unit).
Abbreviation rw_world := (world rwmutex rw_op rw_pc unit).

(** ** Invariant *)

Abbreviation unit_queue := (wq_live (.= 1)).

Record rw_ok (s : rwmutex) : Prop := {
  rwo_rq : unit_queue (rw_rwait s);
  rwo_wq : unit_queue (rw_wwait s);
  rwo_readers : 0 <= rw_readers s;
  rwo_excl : rw_writer s = true -> rw_readers s = 0;
  rwo_wwait : wq_q (rw_wwait s) ≠ [] -> rw_writer s = true \/ 0 < rw_readers s;
  rwo_rwait : wq_q (rw_rwait s) ≠ [] -> rw_writer s = true \/ wq_q (rw_wwait s) ≠ []
}.

(** The reader and writer records a control state waits on. *)
Definition rw_wait_rec (o' : rw_op) (c : rw_ctl) : option nat :=
  match c with
  | At RLock (RwPoll r) | Parked RLock _ (RwPoll r) => match o' with RLock => Some r | _ => None end
  | At WLock (RwPoll r) | Parked WLock _ (RwPoll r) => match o' with WLock => Some r | _ => None end
  | _ => None
  end.

Definition rw_shape (c : rw_ctl) : Prop :=
  match c with
  | At RUnlock p | At WUnlock p => p = RwStart
  | Parked RLock None (RwPoll _) | Parked WLock None (RwPoll _) => True
  | Parked _ _ _ | Sleeping _ _ _ => False
  | Waking RUnlock _ r | Waking WUnlock _ r => r = Ret tt
  | Waking _ _ _ => False
  | _ => True
  end.

Definition rw_local (s : rwmutex) (t : tid) (c : rw_ctl) : Prop :=
  wq_local (rw_wait_rec RLock c) 1 (rw_rwait s) t /\
  wq_local (rw_wait_rec WLock c) 1 (rw_wwait s) t /\ rw_shape c.

(** Holders of the write lock and of the read lock. *)
Definition rw_holds_w (c : rw_ctl) : bool :=
  match c with Fin WLock (Ret _) | At WUnlock _ | Fin WUnlock (Exc _) => true | _ => false end.
Definition rw_holds_r (c : rw_ctl) : bool :=
  match c with Fin RLock (Ret _) | At RUnlock _ | Fin RUnlock (Exc _) => true | _ => false end.
Definition rw_own_w (c : rw_ctl) : Z := Z.b2z (rw_holds_w c).
Definition rw_own_r (c : rw_ctl) : Z := Z.b2z (rw_holds_r c).
Definition rw_bal_w (s : rwmutex) : Z := Z.b2z (rw_writer s) - wq_debt (rw_wwait s).
Definition rw_bal_r (s : rwmutex) : Z := rw_readers s - wq_debt (rw_rwait s).

(** Callers that unlock exactly what they locked. *)
Definition rw_client (t : tid) (c : rw_ctl) (o : rw_op) : bool :=
  match o, c with
  | WUnlock, Fin WLock (Ret _) | RUnlock, Fin RLock (Ret _) => true
  | WUnlock, _ | RUnlock, _ => false
  | _, _ => negb (rw_holds_w c) && negb (rw_holds_r c)
  end.

Lemma rw_local_entry s t c o : at_rest c = true -> rw_local s t c -> rw_local s t (At o RwStart).
Proof. intros Hr (H1 & H2 & _). split_and!; [|..|by destruct o]; by destruct c, o. Qed.

Lemma rw_local_unpark s t o dl p : rw_local s t (Parked o dl p) ->
  rw_local s t (At o p) /\ rw_own_w (At o p) = 0 /\ rw_own_r (At o p) = 0.
Proof. intros (H1 & H2 & H3). by destruct o, dl, p. Qed.

Lemma rw_local_wake s t o g l r : rw_local s t (Waking o (g :: l) r) -> rw_local s t (Waking o l r).
Proof. intros (H1 & H2 & H3). by destruct o. Qed.

Lemma rw_local_woken s t o r : rw_local s t (Waking o [] r) ->
  rw_local s t (Fin o r) /\ rw_own_w (Fin o r) = 0 /\ rw_own_r (Fin o r) = 0.
Proof. intros (H1 & H2 & H3). by destruct o; simpl in H3; subst. Qed.

Lemma rw_local_sleeping s t o u p : ~ rw_local s t (Sleeping o u p).
Proof. by intros (_ & _ & ?). Qed.

#[export] Hint Resolve rw_local_entry rw_local_wake : sw.

#[export] Instance rw_quiet (may : tid -> rw_ctl -> rw_op -> bool) :
  quiet_moves rw_machine may rw_ok rw_local (λ _, 0).
Proof.
  split; simpl; [done|..]; intros; eauto with sw.
  - by edestruct rw_local_unpark.
  - exfalso. by eapply rw_local_sleeping.
  - by edestruct rw_local_woken.
Qed.

#[export] Instance rw_quiet_w : quiet_moves rw_machine rw_client rw_ok rw_local rw_own_w.
Proof.
  split; simpl; [done|..].
  - intros s t c o Hr Hm _ Hl. split; [eauto with sw|].
    by destruct o; destruct c as [| | | | |[] []].
  - intros s t o dl p Hl. by destruct (rw_local_unpark _ _ _ _ _ Hl) as (? & -> & _).
  - by intros s t o u p ?%rw_local_sleeping.
  - intros s t o g l r Hl. split; [eauto with sw|done].
  - intros s t o r Hl. by destruct (rw_local_woken _ _ _ _ Hl) as (? & -> & _).
Qed.

#[export] Instance rw_quiet_r : quiet_moves rw_machine rw_client rw_ok rw_local rw_own_r.
Proof.
  split; simpl; [done|..].
  - intros s t c o Hr Hm _ Hl. split; [eauto with sw|].
    by destruct o; destruct c as [| | | | |[] []].
  - intros s t o dl p Hl. by destruct (rw_local_unpark _ _ _ _ _ Hl) as (? & _ & ->).
  - by intros s t o u p ?%rw_local_sleeping.
  - intros s t o g l r Hl. split; [eauto with sw|done].
  - intros s t o r Hl. by destruct (rw_local_woken _ _ _ _ Hl) as (? & _ & ->).
Qed.

(** ** Blocks *)

(** Granting every reader: the queue is emptied, each waiter's permit is handed
    over and each is woken, in order. *)
Lemma rw_grant_all_spec q : forall w w' woke,
  unit_queue w -> wq_q w = q -> rw_grant_all q w = (w', woke) ->
  unit_queue w' /\ wq_q w' = [] /\ (forall t, wq_keeps w w' t) /\
  wq_debt w' = wq_debt w + Z.of_nat (length q) /\
  Some <$> woke = (λ r, c_g <$> wq_h w !! r) <$> q /\
  (forall t r, wq_waits w t r -> wq_granted r w = false -> wq_granted r w' = true -> t ∈ woke).
Proof.
  induction q as [|r q IH]; intros w w' woke Hw Hq Hg; simpl in Hg.
  { simplify_eq. split_and!; try done; [by rewrite Z.add_0_r|congruence]. }
  destruct Hw as [Hok Hact].
  destruct (wqo_queued _ _ Hok r) as (c & Hc & Hcg); [rewrite Hq; by left|]. rewrite Hc in Hg.
  destruct (rw_grant_all _ _) as [w1 wk1] eqn:E. simplify_eq.
  destruct (wq_pop_grant_ok w r c q Hok Hq Hc (Hact _ _ Hc)) as (_ & Hk1 & Hd1).
  pose proof (wqo_weight _ _ Hok r c Hc) as Hn; simpl in Hn.
  apply IH in E as (? & ? & Hk & ? & Hf & Hwk); [|by apply wq_live_pop_grant|done].
  split_and!; try done; [intros t; eauto with sw|simpl; lia| |].
  - rewrite !fmap_cons, Hc, Hf. f_equal. apply list_fmap_ext. intros _ x _. simpl.
    rewrite lookup_insert. case_decide; [subst; by rewrite Hc|done].
  - intros t x Hwt Hng Hgx. apply elem_of_cons.
    destruct (wq_granted x (wq_pop_grant r c q w)) eqn:E.
    + left. by eapply wq_pop_grant_granted.
    + right. apply (Hwk t x); [by apply Hk1|done|done].
Qed.

Definition rw_step_ok (s s' : rwmutex) (t : tid) (c c' : rw_ctl) : Prop :=
  rw_ok s' /\ rw_local s' t c' /\
  (forall t' c, t' ≠ t -> rw_local s t' c -> rw_local s' t' c) /\
  rw_own_w c' - rw_own_w c = rw_bal_w s' - rw_bal_w s /\
  rw_own_r c' - rw_own_r c = rw_bal_r s' - rw_bal_r s.

(** It is enough to look at the queues as [t] and the others see them. *)
Lemma rw_step_intro s s' t c c' :
  rw_ok s' -> rw_shape c' ->
  wq_local (rw_wait_rec RLock c') 1 (rw_rwait s') t ->
  wq_local (rw_wait_rec WLock c') 1 (rw_wwait s') t ->
  (forall t', t' ≠ t -> wq_keeps (rw_rwait s) (rw_rwait s') t') ->
  (forall t', t' ≠ t -> wq_keeps (rw_wwait s) (rw_wwait s') t') ->
  rw_own_w c' - rw_own_w c = rw_bal_w s' - rw_bal_w s ->
  rw_own_r c' - rw_own_r c = rw_bal_r s' - rw_bal_r s ->
  rw_step_ok s s' t c c'.
Proof.
  intros Hok Hsh H1 H2 K1 K2 B1 B2. split_and!; [done|by split_and!| |done|done].
  intros t' c0 Ht (L1 & L2 & L3).
  split_and!; [eapply wq_local_keeps; [by apply K1|done]|eapply wq_local_keeps; [by apply K2|done]|done].
Qed.

Lemma rw_stay s t c c' : rw_ok s -> rw_local s t c -> rw_shape c' ->
  (forall o, rw_wait_rec o c' = rw_wait_rec o c) ->
  rw_own_w c' = rw_own_w c -> rw_own_r c' = rw_own_r c -> rw_step_ok s s t c c'.
Proof.
  intros Hok (H1 & H2 & _) Hsh Hw B1 B2. apply rw_step_intro; rewrite ?Hw; try done;
    try (intros; apply wq_keeps_refl); lia.
Qed.

(** Arithmetic of the two ledgers. *)
Ltac rw_ledger :=
  unfold rw_own_w, rw_own_r, rw_bal_w, rw_bal_r; simpl;
  repeat match goal with H : rw_writer _ = _ |- _ => rewrite H end; simpl; lia.

(** The easy conjuncts of the object's invariant. *)
Ltac rw_inv := split; simpl; try done; try lia; try congruence.

(** The queue a waiter of thread [t] leaves when it picks its grant up. *)
Lemma rw_collect w t r : unit_queue w -> wq_local (Some r) 1 w t -> wq_granted r w = true ->
  unit_queue (wq_drop r w) /\ wq_local None 1 (wq_drop r w) t /\
  (forall t', t' ≠ t -> wq_keeps w (wq_drop r w) t') /\ wq_debt w = 1 + wq_debt (wq_drop r w).
Proof.
  intros Hw Hl Hg. assert (wq_waits w t r) as Hwt by by apply Hl.
  destruct (wq_take_ok t w r (wl_ok _ Hw) Hwt Hg) as (_ & Hm & Hk & Hd). split_and!; [| |done|].
  - by eapply wq_live_drop.
  - by apply (wq_local_forget w _ t r 1).
  - pose proof Hwt as (c & Hc & _). rewrite Hc in Hd; simpl in Hd.
    by rewrite (wq_local_weight w t r 1 c Hl Hc) in Hd.
Qed.

(** The queue a waiter of thread [t] enters. *)
Lemma rw_enqueue w t : unit_queue w -> wq_local None 1 w t ->
  unit_queue (wq_push t 1 w) /\ wq_local (Some (wq_next w)) 1 (wq_push t 1 w) t /\
  (forall t', t' ≠ t -> wq_keeps w (wq_push t 1 w) t') /\ wq_debt (wq_push t 1 w) = wq_debt w /\
  wq_q (wq_push t 1 w) ≠ [].
Proof.
  intros Hw Hl. destruct (wq_push_ok t 1 w (wl_ok _ Hw) eq_refl) as (_ & _ & _ & Hk & Hd).
  split_and!; [by apply wq_live_push|by apply (wq_local_push (P := (.= 1))); [apply Hw|..]|done|done|].
  simpl. by destruct (wq_q w).
Qed.

(** A block of [rlock]. *)
Lemma rw_rlock_ok s t p s' a : rw_ok s -> rw_local s t (At RLock p) -> rw_rlock t p s = (s', a) ->
  rw_step_ok s s' t (At RLock p) (act_ctl RLock a).
Proof.
  intros Hok Hl Hb. pose proof Hok as [Hr Hw Hn Hex Hww Hrw]. pose proof Hl as (H1 & H2 & _).
  destruct p as [|r]; simpl in Hb, H1, H2.
  - destruct (negb (rw_writer s) && _) eqn:E; simplify_eq.
    + apply andb_true_iff in E as [Ew%negb_true_iff Eq%bool_decide_eq_true].
      apply rw_step_intro; simpl; try done; try (intros; apply wq_keeps_refl); try rw_ledger.
      rw_inv.
    + destruct (rw_enqueue (rw_rwait s) t Hr H1) as (? & ? & ? & ? & ?).
      apply rw_step_intro; simpl; try done; try (intros; apply wq_keeps_refl); try rw_ledger.
      split; simpl; try done. intros _. apply andb_false_iff in E as [E|E].
      * left. by destruct (rw_writer s).
      * right. by apply bool_decide_eq_false in E.
  - destruct (wq_granted r (rw_rwait s)) eqn:Eg; simplify_eq; [|by apply rw_stay].
    destruct (rw_collect (rw_rwait s) t r Hr H1 Eg) as (? & ? & ? & ?).
    apply rw_step_intro; simpl; try done; try (intros; apply wq_keeps_refl); try rw_ledger.
Qed.

(** A block of [lock]. *)
Lemma rw_lock_ok s t p s' a : rw_ok s -> rw_local s t (At WLock p) -> rw_lock t p s = (s', a) ->
  rw_step_ok s s' t (At WLock p) (act_ctl WLock a).
Proof.
  intros Hok Hl Hb. pose proof Hok as [Hr Hw Hn Hex Hww Hrw]. pose proof Hl as (H1 & H2 & _).
  destruct p as [|r]; simpl in Hb, H1, H2.
  - destruct (negb (rw_writer s) && _) eqn:E; simplify_eq.
    + apply andb_true_iff in E as [Ew%negb_true_iff Eq%Z.eqb_eq].
      apply rw_step_intro; simpl; try done; try (intros; apply wq_keeps_refl); try rw_ledger.
      split; simpl; try done; auto.
    + destruct (rw_enqueue (rw_wwait s) t Hw H2) as (? & ? & ? & ? & ?).
      apply rw_step_intro; simpl; try done; try (intros; apply wq_keeps_refl); try rw_ledger.
      split; simpl; try done; [|by intros [?|?]%Hrw; auto].
      intros _. apply andb_false_iff in E as [E|E].
      * left. by destruct (rw_writer s).
      * right. apply Z.eqb_neq in E. lia.
  - destruct (wq_granted r (rw_wwait s)) eqn:Eg; simplify_eq; [|by apply rw_stay].
    destruct (rw_collect (rw_wwait s) t r Hw H2 Eg) as (? & ? & ? & ?).
    apply rw_step_intro; simpl; try done; try (intros; apply wq_keeps_refl); try rw_ledger.
Qed.

(** The front writer is granted. *)
Lemma rw_pop_writer w r q : unit_queue w -> wq_q w = r :: q ->
  exists c, wq_h w !! r = Some c /\ unit_queue (wq_pop_grant r c q w) /\
    (forall t, wq_keeps w (wq_pop_grant r c q w) t) /\ wq_debt (wq_pop_grant r c q w) = wq_debt w + 1.
Proof.
  intros Hw Hq. destruct (wqo_queued _ _ (wl_ok _ Hw) r) as (c & Hc & _); [rewrite Hq; by left|].
  exists c. destruct (wq_pop_grant_ok w r c q (wl_ok _ Hw) Hq Hc (wl_active _ Hw _ _ Hc)) as (_ & ? & Hd).
  rewrite (wqo_weight _ _ (wl_ok _ Hw) r c Hc) in Hd. split_and!; try done. by apply wq_live_pop_grant.
Qed.

Lemma rw_runlock_ok s t s' a : rw_ok s -> rw_local s t (At RUnlock RwStart) ->
  rw_runlock s = (s', a) -> rw_step_ok s s' t (At RUnlock RwStart) (act_ctl RUnlock a).
Proof.
  intros Hok Hl Hb. pose proof Hok as [Hr Hw Hn Hex Hww Hrw]. pose proof Hl as (H1 & H2 & _).
  unfold rw_runlock in Hb. destruct (Z.leb_spec (rw_readers s) 0); [simplify_eq; by apply rw_stay|].
  assert (rw_writer s = false) as Ew by (destruct (rw_writer s); [lia|done]).
  destruct (wq_q (rw_wwait s)) as [|r q] eqn:Eq.
  - simplify_eq. apply rw_step_intro; simpl; try done; try (intros; apply wq_keeps_refl); try rw_ledger.
    rw_inv. by rewrite Eq.
  - destruct (Z.eqb_spec (rw_readers s - 1) 0).
    + destruct (rw_pop_writer _ r q Hw Eq) as (c & Hc & ? & Hk & ?). rewrite Hc in Hb. simplify_eq.
      apply rw_step_intro; simpl; try done; try (intros; apply wq_keeps_refl); try rw_ledger.
      * rw_inv; by left.
      * eapply wq_local_keeps; [apply Hk|done].
    + simplify_eq. apply rw_step_intro; simpl; try done; try (intros; apply wq_keeps_refl); try rw_ledger.
      rw_inv; intros; right; (lia || by rewrite Eq).
Qed.

Lemma rw_unlock_ok s t s' a : rw_ok s -> rw_local s t (At WUnlock RwStart) ->
  rw_unlock s = (s', a) -> rw_step_ok s s' t (At WUnlock RwStart) (act_ctl WUnlock a).
Proof.
  intros Hok Hl Hb. pose proof Hok as [Hr Hw Hn Hex Hww Hrw]. pose proof Hl as (H1 & H2 & _).
  unfold rw_unlock in Hb. destruct (rw_writer s) eqn:Ew; cbn [negb] in Hb; [|simplify_eq; by apply rw_stay].
  specialize (Hex eq_refl). destruct (wq_q (rw_wwait s)) as [|r q] eqn:Eq.
  - destruct (wq_q (rw_rwait s)) as [|r q] eqn:Er.
    + simplify_eq. apply rw_step_intro; simpl; try done; try (intros; apply wq_keeps_refl); try rw_ledger.
    + destruct (rw_grant_all (r :: q) (rw_rwait s)) as [w wk] eqn:Eg.
      apply rw_grant_all_spec in Eg as (? & Ew' & Hk & Hd & _); [|done..]. simplify_eq.
      apply rw_step_intro; simpl; try done; try (intros; apply wq_keeps_refl);
        try rw_ledger; cbn [length] in *.
      * eapply wq_local_keeps; [apply Hk|done].
      * unfold rw_own_r, rw_bal_r; simpl. lia.
  - destruct (rw_pop_writer _ r q Hw Eq) as (c & Hc & ? & Hk & ?). rewrite Hc in Hb. simplify_eq.
    apply rw_step_intro; simpl; try done; try (intros; apply wq_keeps_refl); try rw_ledger.
    + split; simpl; try done; by left.
    + eapply wq_local_keeps; [apply Hk|done].
Qed.

Lemma rw_block_ok isf t now o p s s' a :
  rw_ok s -> rw_local s t (At o p) -> rw_block t (isf t) now o p s = (s', a) ->
  rw_step_ok s s' t (At o p) (act_ctl o a).
Proof.
  intros Hok Hl Hb. unfold rw_block in Hb. destruct (negb _ && _) eqn:E.
  - simplify_eq. apply andb_true_iff in E as [_ ->%bool_decide_eq_true].
    by apply rw_stay; destruct o.
  - destruct o; [by apply rw_rlock_ok| |by apply rw_lock_ok|];
      destruct Hl as (H1 & H2 & H3); simpl in H3; subst p.
    + by apply rw_runlock_ok.
    + by apply rw_unlock_ok.
Qed.

Lemma rw_blocks isf : blocks_ok rw_machine isf rw_ok rw_local (λ _, 0) (λ _, 0).
Proof. intros t now o p s s' a Hok Hl Hb. by edestruct rw_block_ok as (? & ? & ? & _). Qed.
Lemma rw_blocks_w isf : blocks_ok rw_machine isf rw_ok rw_local rw_own_w rw_bal_w.
Proof. intros t now o p s s' a Hok Hl Hb. by edestruct rw_block_ok as (? & ? & ? & ? & _). Qed.
Lemma rw_blocks_r isf : blocks_ok rw_machine isf rw_ok rw_local rw_own_r rw_bal_r.
Proof. intros t now o p s s' a Hok Hl Hb. by edestruct rw_block_ok as (? & ? & ? & _ & ?). Qed.

(** ** No lost grant *)

Definition rw_ready (s : rwmutex) (t : tid) (c : rw_ctl) : bool :=
  match c with
  | Parked RLock _ (RwPoll r) => wq_granted r (rw_rwait s)
  | Parked WLock _ (RwPoll r) => wq_granted r (rw_wwait s)
  | _ => false
  end.

(** A reader's record is granted only by [unlock], which wakes all of them. *)
Lemma rw_grant_reader isf t now o p s s' a t' r :
  rw_ok s -> rw_block t (isf t) now o p s = (s', a) ->
  wq_waits (rw_rwait s) t' r -> wq_granted r (rw_rwait s) = false ->
  wq_granted r (rw_rwait s') = true -> exists l v, a = AWake l v /\ t' ∈ l.
Proof.
  intros Hok Hb Hw Hf Hg. unfold rw_block, rw_rlock, rw_lock, rw_runlock, rw_unlock in Hb.
  repeat case_match; simplify_eq; simpl in *; try congruence;
    try (apply wq_push_granted in Hg; congruence); try (apply wq_drop_granted in Hg; congruence).
  match goal with E : match wq_h _ !! _ with _ => _ end = (_, _) |- _ =>
    eapply (rw_grant_all_spec (_ :: _)) in E as (_ & _ & _ & _ & _ & Hwk); [|apply Hok|done] end.
  eexists _, _. split; [done|]. by eapply Hwk.
Qed.

Lemma rw_grant_writer isf t now o p s s' a t' r :
  rw_block t (isf t) now o p s = (s', a) ->
  wq_waits (rw_wwait s) t' r -> wq_granted r (rw_wwait s) = false ->
  wq_granted r (rw_wwait s') = true -> exists l v, a = AWake l v /\ t' ∈ l.
Proof.
  intros Hb Hw Hf Hg. unfold rw_block, rw_rlock, rw_lock, rw_runlock, rw_unlock in Hb.
  repeat case_match; simplify_eq; simpl in *; try congruence;
    try (apply wq_push_granted in Hg; congruence); try (apply wq_drop_granted in Hg; congruence);
    (eexists _, _; split; [done|]; apply list_elem_of_singleton; by eapply wq_pop_grant_granted).
Qed.

#[export] Instance rw_wakes isf : wakes_ok rw_machine isf rw_ok rw_local rw_ready.
Proof.
  split; simpl; try done.
  - intros t now o p s s' a Hok (H1 & H2 & Hsh) Hb Hr.
    unfold rw_block, rw_rlock, rw_lock, rw_runlock, rw_unlock in Hb.
    repeat case_match; simplify_eq; simpl in *; try done; try congruence;
      unfold wq_granted in Hr; simpl in Hr; by rewrite lookup_insert_eq in Hr.
  - intros t now o p s s' a t' c' Hok Hl Hb Hne (H1 & H2 & Hsh) Hf Hr.
    destruct c' as [| |[] dl [|r]| | |]; try done; simpl in *.
    + eapply rw_grant_reader; try done. by apply H1.
    + eapply rw_grant_writer; try done. by apply H2.
Qed.

(** ** Properties *)

Lemma rw_new_local t : rw_local rw_new t Idle.
Proof. split_and!; [apply wq_empty_local..|done]. Qed.

Lemma rw_new_ok : rw_ok rw_new.
Proof. split; simpl; try done; split; try apply wq_empty_ok; done. Qed.

Lemma rw_any_inv isf may w : reach rw_machine isf may rw_new w ->
  og_inv rw_ok rw_local (λ _, 0) (λ _, 0) w /\ woken_inv rw_ready w.
Proof.
  apply (inv_reach _ isf may _ _ _ _ _ rw_new); try done;
    [apply rw_new_ok|apply rw_new_local|apply rw_blocks|apply rw_wakes].
Qed.

(** The two ledgers of disciplined callers. *)
Lemma rw_ledgers isf w : reach rw_machine isf rw_client rw_new w ->
  msum rw_own_w (w_ctl w) + wq_debt (rw_wwait (w_obj w)) = Z.b2z (rw_writer (w_obj w)) /\
  msum rw_own_r (w_ctl w) + wq_debt (rw_rwait (w_obj w)) = rw_readers (w_obj w) /\
  rw_ok (w_obj w) /\ 0 <= wq_debt (rw_wwait (w_obj w)) /\ 0 <= wq_debt (rw_rwait (w_obj w)).
Proof.
  intros Hr.
  destruct (og_reach _ isf rw_client rw_ok rw_local rw_own_w rw_bal_w rw_new rw_new_ok
    rw_new_local eq_refl (rw_blocks_w isf) w Hr) as (Hok & _ & Hw).
  destruct (og_reach _ isf rw_client rw_ok rw_local rw_own_r rw_bal_r rw_new rw_new_ok
    rw_new_local eq_refl (rw_blocks_r isf) w Hr) as (_ & _ & Hrd).
  unfold rw_bal_w, rw_bal_r in *. pose proof Hok as [[Hq1 _] [Hq2 _] _ _ _ _].
  split_and!; [lia|lia|done|..]; apply msum_nonneg; intros r c Hc; unfold wq_handed;
    [pose proof (wqo_weight _ _ Hq2 r c Hc)|pose proof (wqo_weight _ _ Hq1 r c Hc)];
    simpl in *; destruct (c_granted c); lia.
Qed.

Lemma rw_own_w_nonneg (m : gmap tid rw_ctl) t c : m !! t = Some c -> 0 <= rw_own_w c.
Proof. intros _. unfold rw_own_w. destruct (rw_holds_w c); simpl; lia. Qed.
Lemma rw_own_r_nonneg (m : gmap tid rw_ctl) t c : m !! t = Some c -> 0 <= rw_own_r c.
Proof. intros _. unfold rw_own_r. destruct (rw_holds_r c); simpl; lia. Qed.

Lemma rw_holds_w_obj isf w t : reach rw_machine isf rw_client rw_new w ->
  rw_holds_w (ctl_of w t) = true -> rw_writer (w_obj w) = true.
Proof.
  intros Hr Hh. destruct (rw_ledgers isf w Hr) as (Hw & _ & _ & Hd & _).
  unfold ctl_of in Hh. destruct (w_ctl w !! t) as [c|] eqn:E; simpl in Hh; [|done].
  pose proof (msum_ge rw_own_w _ _ _ (rw_own_w_nonneg _) E) as H1. unfold rw_own_w in H1 at 1.
  rewrite Hh in H1. destruct (rw_writer (w_obj w)); [done|]. simpl in *. lia.
Qed.

Lemma rw_holds_r_obj isf w t : reach rw_machine isf rw_client rw_new w ->
  rw_holds_r (ctl_of w t) = true -> 0 < rw_readers (w_obj w).
Proof.
  intros Hr Hh. destruct (rw_ledgers isf w Hr) as (_ & Hw & _ & _ & Hd).
  unfold ctl_of in Hh. destruct (w_ctl w !! t) as [c|] eqn:E; simpl in Hh; [|done].
  pose proof (msum_ge rw_own_r _ _ _ (rw_own_r_nonneg _) E) as H1. unfold rw_own_r in H1 at 1.
  rewrite Hh in H1. simpl in H1. lia.
Qed.

(** C5. Reader/writer exclusion: in every interleaving of callers that unlock
    what they locked, a thread that holds the write lock excludes every other
    writer and every reader. *)
Theorem rwmutex_exclusion isf w t1 t2 :
  reach rw_machine isf rw_client rw_new w -> t1 ≠ t2 -> rw_holds_w (ctl_of w t1) = true ->
  rw_holds_w (ctl_of w t2) = false /\ rw_holds_r (ctl_of w t2) = false.
Proof.
  intros Hr Hne H1. pose proof (rw_holds_w_obj isf w t1 Hr H1) as Hw.
  destruct (rw_ledgers isf w Hr) as (Hs & _ & Hok & Hd & _). split.
  - destruct (rw_holds_w (ctl_of w t2)) eqn:H2; [|done]. unfold ctl_of in H1, H2.
    destruct (w_ctl w !! t1) as [c1|] eqn:E1; [|done]. destruct (w_ctl w !! t2) as [c2|] eqn:E2; [|done].
    pose proof (msum_ge2 rw_own_w _ _ _ _ _ (rw_own_w_nonneg _) Hne E1 E2) as H.
    unfold rw_own_w in H at 1 2. simpl in H1, H2. rewrite H1, H2, Hw in *. simpl in *. lia.
  - destruct (rw_holds_r (ctl_of w t2)) eqn:H2; [|done].
    pose proof (rw_holds_r_obj isf w t2 Hr H2). pose proof (rwo_excl _ Hok Hw). lia.
Qed.

(** Releasing what is held never raises: [unlock()] by a write holder and
    [runlock()] by a read holder both succeed. *)
Theorem rwmutex_release_succeeds isf w t o :
  reach rw_machine isf rw_client rw_new w -> ctl_of w t = At o RwStart ->
  match o with
  | WUnlock => exists s' l, rw_unlock (w_obj w) = (s', AReturn (Ret tt)) \/
                            rw_unlock (w_obj w) = (s', AWake l (Ret tt))
  | RUnlock => exists s' l, rw_runlock (w_obj w) = (s', AReturn (Ret tt)) \/
                            rw_runlock (w_obj w) = (s', AWake l (Ret tt))
  | _ => True
  end.
Proof.
  intros Hr Hc. destruct o; [done| |done|].
  - assert (0 < rw_readers (w_obj w)) by (apply (rw_holds_r_obj isf w t Hr); by rewrite Hc).
    unfold rw_runlock. destruct (Z.leb_spec (rw_readers (w_obj w)) 0); [lia|].
    repeat case_match; first [by eexists _, []; left|by eexists _, _; right].
  - assert (rw_writer (w_obj w) = true) as Hw by (apply (rw_holds_w_obj isf w t Hr); by rewrite Hc).
    unfold rw_unlock. rewrite Hw. cbn [negb]. repeat case_match; first [by eexists _, []; left|by eexists _, _; right].
Qed.

(** Nobody is stranded, whatever the callers do: once no thread can step, a
    parked writer waits behind a lock that is held, and a parked reader waits
    behind a held write lock or behind a queued writer. *)
Theorem rwmutex_no_stranded_waiter isf may w t o dl p :
  reach rw_machine isf may rw_new w -> quiescent rw_machine isf may w ->
  ctl_of w t = Parked o dl p ->
  (o = WLock /\ (rw_writer (w_obj w) = true \/ 0 < rw_readers (w_obj w))) \/
  (o = RLock /\ (rw_writer (w_obj w) = true \/
                 (wq_q (rw_wwait (w_obj w)) ≠ [] /\ 0 < rw_readers (w_obj w)))).
Proof.
  intros Hr Hq Hp. destruct (rw_any_inv isf may w Hr) as [([? ? ? ? Hww Hrw] & HL & _) Hw].
  destruct (quiescent_not_ready _ _ _ _ w t o dl p Hw Hq Hp) as [Hf _].
  pose proof (HL t) as Hl. rewrite Hp in Hl. destruct Hl as ([H1 _] & [H2 _] & Hsh).
  destruct o; [|by destruct dl|..|by destruct dl]; destruct p as [|r]; try by destruct dl.
  - right. split; [done|]. simpl in Hf.
    apply (wq_waits_not_granted _ t) in Hf; [|by apply H1].
    destruct Hrw as [?|Hx]; [by intros E; rewrite E in Hf; apply elem_of_nil in Hf|by left|].
    destruct (Hww Hx); auto.
  - left. split; [done|]. simpl in Hf.
    apply (wq_waits_not_granted _ t) in Hf; [|by apply H2].
    apply Hww. intros E. rewrite E in Hf. by apply elem_of_nil in Hf.
Qed.

(** Writer preference and hand-over: while a writer is queued a new reader
    queues too, and an [unlock] with a writer queued passes the lock to the
    longest-waiting writer; with none queued it admits every waiting reader at
    once and wakes them in arrival order. *)
Theorem rwmutex_writer_preference s t :
  rw_ok s ->
  (wq_q (rw_wwait s) ≠ [] -> exists s', rw_rlock t RwStart s =
     (s', APark None (RwPoll (wq_next (rw_rwait s)))) /\ rw_readers s' = rw_readers s) /\
  (rw_writer s = true -> exists s' woke, rw_unlock s = (s', woke) /\
     match wq_q (rw_wwait s), wq_q (rw_rwait s) with
     | r :: q, _ => rw_writer s' = true /\ wq_q (rw_wwait s') = q /\
         wq_granted r (rw_wwait s') = true /\ rw_rwait s' = rw_rwait s
     | [], q => rw_writer s' = false /\ rw_readers s' = Z.of_nat (length q) /\
         wq_q (rw_rwait s') = [] /\
         (q ≠ [] -> exists l, woke = AWake l (Ret tt) /\
            Some <$> l = (λ r, c_g <$> wq_h (rw_rwait s) !! r) <$> q)
     end).
Proof.
  intros [Hr Hw Hn Hex Hww Hrw]. split.
  - intros Hq. unfold rw_rlock. rewrite (bool_decide_eq_false_2 _ Hq), andb_false_r. by eexists.
  - intros Hwr. unfold rw_unlock. rewrite Hwr. cbn [negb].
    destruct (wq_q (rw_wwait s)) as [|r q] eqn:Eq.
    + destruct (wq_q (rw_rwait s)) as [|r q] eqn:Er.
      { eexists _, _. split; [done|]. simpl. by rewrite (Hex Hwr). }
      destruct (rw_grant_all (r :: q) (rw_rwait s)) as [w wk] eqn:Eg.
      apply rw_grant_all_spec in Eg as (_ & ? & _ & _ & ? & _); [|done..].
      eexists _, _. split; [done|]. split_and!; try done. by exists wk.
    + destruct (rw_pop_writer _ r q Hw Eq) as (c & Hc & _). rewrite Hc.
      eexists _, _. split; [done|]. simpl. unfold wq_granted; simpl. by rewrite lookup_insert_eq.
Qed.

(** ** Witnesses *)

(** Fiber 1 writes; fiber 2 (a reader) and fiber 3 (a writer) wait. *)
Definition rw_demo : list (event rw_op) :=
  [ECall 1 rw_enter; EStep 1; ECall 2 rw_read_enter; EStep 2; ECall 3 rw_enter; EStep 3].
Definition rw_demo_world : rw_world := after rw_machine (λ _, true) rw_client rw_new rw_demo.

Lemma rwmutex_exclusion_witness :
  rw_holds_w (ctl_of rw_demo_world 2%nat) = false /\ rw_holds_r (ctl_of rw_demo_world 2%nat) = false.
Proof.
  apply (rwmutex_exclusion (λ _, true) rw_demo_world 1 2);
    [apply after_reach|done|vm_compute; reflexivity].
Defined.

Lemma rwmutex_release_succeeds_witness :
  let w := after rw_machine (λ _, true) rw_client rw_new (rw_demo ++ [ECall 1 rw_exit]) in
  exists s' l, rw_unlock (w_obj w) = (s', AReturn (Ret tt)) \/ rw_unlock (w_obj w) = (s', AWake l (Ret tt)).
Proof.
  intros w. apply (rwmutex_release_succeeds (λ _, true) w 1 WUnlock);
    [apply after_reach|vm_compute; reflexivity].
Defined.

Lemma rwmutex_no_stranded_waiter_witness :
  (WLock = WLock /\ (rw_writer (w_obj rw_demo_world) = true \/ 0 < rw_readers (w_obj rw_demo_world))) \/
  (WLock = RLock /\ (rw_writer (w_obj rw_demo_world) = true \/
     (wq_q (rw_wwait (w_obj rw_demo_world)) ≠ [] /\ 0 < rw_readers (w_obj rw_demo_world)))).
Proof.
  apply (rwmutex_no_stranded_waiter (λ _, true) rw_client rw_demo_world 3 WLock None (RwPoll 0));
    [apply after_reach|apply quiescentb_sound; vm_compute; reflexivity|vm_compute; reflexivity].
Defined.

Definition rw_pref_demo : rwmutex := RWMutex 1 false wq_empty (wq_push 3 1 wq_empty).

Lemma rwmutex_writer_preference_witness :
  exists s', rw_rlock 7 RwStart rw_pref_demo = (s', APark None (RwPoll 0)) /\ rw_readers s' = 1.
Proof.
  apply (rwmutex_writer_preference rw_pref_demo 7).
  - split; simpl; try done; try (by right).
    + split; [apply wq_empty_ok|done].
    + apply wq_live_push; [split; [apply wq_empty_ok|done]|done].
  - discriminate.
Defined.
