(* ===== verification/WaitGroup.v ===== *)
(** * WaitGroup: wait for a set of fibers to finish

    Models [class WaitGroup] of [src/src/stackweave/sync.py].  [wait] appends the
    caller to [_waiters] and parks; the [add] that brings the counter to zero
    takes the whole list and wakes every entry after releasing the guard. *)
From S2P Require Import Prelude Fibers.
Local Open Scope Z_scope.

Record waitgroup := WaitGroup { wg_n : Z; wg_waiters : list tid }.
Definition wg_new : waitgroup := WaitGroup 0 [].

Inductive wg_op := WgAdd (delta : Z) | WgWait.
Inductive wg_pc := WgTop.

(** [done()]. *)
Definition wg_done : wg_op := WgAdd (-1).

Definition wg_foreign : pyexc :=
  RuntimeError "WaitGroup.done() / add(negative) must be called from a fiber, not a foreign OS thread".

(** [add(delta)]: the counter moves before the sign is checked. *)
Definition wg_add {V} (fib : bool) (delta : Z) (s : waitgroup) (ok : V) : waitgroup * action wg_pc V :=
  if (delta <? 0) && negb fib then (s, AReturn (Exc wg_foreign))
  else
    let n := wg_n s + delta in
    if n <? 0 then (WaitGroup n (wg_waiters s), AReturn (Exc (ValueError "WaitGroup counter went negative")))
    else if (n =? 0) && negb (bool_decide (wg_waiters s = []))
    then (WaitGroup n [], AWake (wg_waiters s) (Ret ok))
    else (WaitGroup n (wg_waiters s), AReturn (Ret ok)).

(** One round of the loop of [wait()]: a fiber queues itself and parks, a foreign
    thread sleeps half a millisecond. *)
Definition wg_wait (t : tid) (fib : bool) (now : Z) (s : waitgroup) : waitgroup * action wg_pc unit :=
  if wg_n s =? 0 then (s, AReturn (Ret tt))
  else if fib then (WaitGroup (wg_n s) (wg_waiters s ++ [t]), APark None WgTop)
  else (s, ASleep (now + 500) WgTop).

Definition wg_block (t : tid) (fib : bool) (now : Z) (o : wg_op) (p : wg_pc) (s : waitgroup)
  : waitgroup * action wg_pc unit :=
  match o with
  | WgAdd d => wg_add fib d s tt
  | WgWait => wg_wait t fib now s
  end.

Definition wg_machine : machine waitgroup wg_op wg_pc unit := Machine (λ _, WgTop) wg_block.

Abbreviation wg_ctl := (ctl wg_op wg_pc unit).
Abbreviation wg_world := (world waitgroup wg_op wg_pc unit).

(** ** Invariant *)

(** Nobody is queued on a zero counter. *)
Definition wg_ok (s : waitgroup) : Prop := wg_n s = 0 -> wg_waiters s = [].

(** Only [wait] parks, and a thread that sleeps is a foreign one. *)
Definition wg_local (isf : tid -> bool) (s : waitgroup) (t : tid) (c : wg_ctl) : Prop :=
  match c with
  | Parked o dl _ => o = WgWait /\ dl = None /\ isf t = true
  | Sleeping o _ _ => o = WgWait /\ isf t = false
  | Waking o _ r => (exists d, o = WgAdd d) /\ r = Ret tt
  | _ => True
  end.

(** Taken out of the list, and not looked at the counter since. *)
Definition wg_ready (s : waitgroup) (t : tid) (c : wg_ctl) : bool :=
  match c with Parked _ _ _ => bool_decide (t ∉ wg_waiters s) | _ => false end.

#[export] Instance wg_quiet isf may : quiet_moves wg_machine may wg_ok (wg_local isf) (λ _, 0).
Proof. by split; simpl. Qed.

(** What [add] does to the object, and that it wakes whom it takes off. *)
Lemma wg_add_ok {V} fib d s (ok : V) s' a : wg_ok s -> wg_add fib d s ok = (s', a) ->
  wg_ok s' /\
  ((exists l, a = AWake l (Ret ok) /\ l = wg_waiters s /\ wg_n s' = 0 /\ wg_waiters s' = []) \/
   ((exists r, a = AReturn r) /\ wg_waiters s' = wg_waiters s)).
Proof.
  intros Hok H. unfold wg_add in H. unfold wg_ok in *. repeat case_match; simplify_eq/=.
  - split; [done|]. right. eauto.
  - split; [lia|]. right. eauto.
  - split; [done|]. left. eexists. split_and!; try done.
    match goal with E : _ && _ = true |- _ => apply andb_true_iff in E as [E _] end. lia.
  - split; [|right; eauto]. intros Hz.
    match goal with H : _ && _ = false |- _ => apply andb_false_iff in H as [H|H] end; [lia|].
    match goal with H : negb _ = false |- _ => by apply negb_false_iff, bool_decide_eq_true in H end.
Qed.

Lemma wg_blocks isf : blocks_ok wg_machine isf wg_ok (wg_local isf) (λ _, 0) (λ _, 0).
Proof.
  intros t now o p s s' a Hok Hl Hb. destruct o as [d|]; simpl in Hb.
  - destruct (wg_add_ok _ _ _ _ _ _ Hok Hb) as (? & [(l & -> & _)|([r ->] & _)]);
      split_and!; try done; simpl; eauto.
  - unfold wg_wait in Hb. destruct (Z.eqb_spec (wg_n s) 0); [by simplify_eq|].
    destruct (isf t) eqn:E; simplify_eq; split_and!; try done. by intros Hz.
Qed.

#[export] Instance wg_wakes isf : wakes_ok wg_machine isf wg_ok (wg_local isf) wg_ready.
Proof.
  split; simpl; try done.
  - intros t now o p s s' a Hok _ Hb Hr. destruct o as [d|]; simpl in Hb.
    + destruct (wg_add_ok _ _ _ _ _ _ Hok Hb) as (? & [(l & -> & _)|([r ->] & _)]); done.
    + unfold wg_wait in Hb. repeat case_match; simplify_eq/=.
      apply bool_decide_eq_true in Hr. destruct Hr. apply elem_of_app. right. by apply list_elem_of_singleton.
  - intros t now o p s s' a t' c' Hok _ Hb Hne _ Hf Hr. destruct c'; try done. simpl in *.
    apply bool_decide_eq_false in Hf. apply bool_decide_eq_true in Hr.
    assert (t' ∈ wg_waiters s) as Hin by (by destruct (decide (t' ∈ wg_waiters s))).
    destruct o as [d|]; simpl in Hb.
    + destruct (wg_add_ok _ _ _ _ _ _ Hok Hb) as (_ & [(l & -> & -> & _)|(_ & He)]).
      * by eexists _, _.
      * by rewrite He in Hr.
    + unfold wg_wait in Hb. repeat case_match; simplify_eq/=; try done.
      destruct Hr. apply elem_of_app. by left.
Qed.

Lemma wg_any_inv isf may w : reach wg_machine isf may wg_new w ->
  og_inv wg_ok (wg_local isf) (λ _, 0) (λ _, 0) w /\ woken_inv wg_ready w.
Proof.
  apply (inv_reach _ isf may _ _ _ _ _ wg_new); try done; [apply wg_blocks|apply wg_wakes].
Qed.

(** No waiter is stranded, whatever the callers do: once no thread can step,
    a fiber still parked in [wait()] is queued and the counter is not zero, so
    the [add] that reaches zero will wake it. *)
Theorem waitgroup_no_stranded_waiter isf may w t o dl p :
  reach wg_machine isf may wg_new w -> quiescent wg_machine isf may w ->
  ctl_of w t = Parked o dl p ->
  o = WgWait /\ t ∈ wg_waiters (w_obj w) /\ wg_n (w_obj w) ≠ 0.
Proof.
  intros Hr Hq Hp. destruct (wg_any_inv isf may w Hr) as [(Hok & HL & _) Hw].
  destruct (quiescent_not_ready _ _ _ _ w t o dl p Hw Hq Hp) as [Hf _].
  pose proof (HL t) as Hl. rewrite Hp in Hl. simpl in Hf. apply bool_decide_eq_false in Hf.
  assert (t ∈ wg_waiters (w_obj w)) as Hin by (by destruct (decide (t ∈ wg_waiters (w_obj w)))).
  split_and!; [by destruct Hl|done|]. intros Hz. rewrite (Hok Hz) in Hin. by apply elem_of_nil in Hin.
Qed.

(** The [add] that brings the counter to zero releases every waiter: it
    wakes exactly the queued fibers, in arrival order, and leaves none queued;
    the counter is then zero, so each of them returns from its next check. *)
Theorem waitgroup_zero_releases_all s delta :
  wg_ok s -> wg_n s + delta = 0 -> wg_waiters s ≠ [] ->
  wg_add true delta s tt = (WaitGroup 0 [], AWake (wg_waiters s) (Ret tt)) /\
  forall t fib now, wg_wait t fib now (WaitGroup 0 []) = (WaitGroup 0 [], AReturn (Ret tt)).
Proof.
  intros Hok Hz Hw. split; [|done]. unfold wg_add. rewrite Hz, andb_false_r. simpl.
  by rewrite (bool_decide_eq_false_2 _ Hw).
Qed.

(** An underflowing [done()] raises but keeps the negative counter: the
    counter of a fresh group is -1 afterwards, and a fiber that then calls
    [wait()] parks with nobody left to wake it, although no task is
    outstanding. *)
Theorem waitgroup_underflow_is_kept :
  let w := after wg_machine (λ _, true) any_call wg_new
             [ECall 1 wg_done; EStep 1; ECall 1 WgWait; EStep 1] in
  reach wg_machine (λ _, true) any_call wg_new w /\ quiescent wg_machine (λ _, true) any_call w /\
  wg_add true (-1) wg_new tt =
    (WaitGroup (-1) [], AReturn (Exc (ValueError "WaitGroup counter went negative"))) /\
  ctl_of w 1%nat = Parked WgWait None WgTop /\ wg_n (w_obj w) = -1.
Proof.
  intros w. split_and!; [apply after_reach|apply quiescentb_sound|..]; vm_compute; reflexivity.
Qed.

(** ** Witnesses *)

(** Two tasks are outstanding; fibers 1 and 2 wait. *)
Definition wg_demo_world : wg_world := after wg_machine (λ _, true) any_call wg_new
  [ECall 1 (WgAdd 2); EStep 1; ECall 1 WgWait; EStep 1; ECall 2 WgWait; EStep 2;
   ECall 3 wg_done; EStep 3].

Lemma waitgroup_no_stranded_waiter_witness :
  WgWait = WgWait /\ 2%nat ∈ wg_waiters (w_obj wg_demo_world) /\ wg_n (w_obj wg_demo_world) ≠ 0.
Proof.
  apply (waitgroup_no_stranded_waiter (λ _, true) any_call wg_demo_world 2 WgWait None WgTop);
    [apply after_reach|apply quiescentb_sound; vm_compute; reflexivity|vm_compute; reflexivity].
Defined.

Lemma waitgroup_zero_releases_all_witness :
  wg_add true (-1) (WaitGroup 1 [1; 2]%nat) tt = (WaitGroup 0 [], AWake [1; 2]%nat (Ret tt)) /\
  forall t fib now, wg_wait t fib now (WaitGroup 0 []) = (WaitGroup 0 [], AReturn (Ret tt)).
Proof. by apply (waitgroup_zero_releases_all (WaitGroup 1 [1; 2]%nat) (-1)). Defined.
