(* ===== verification/JoinSet.v ===== *)
(** * JoinSet and gather: structured concurrency over WaitGroup

    Models [class JoinSet] and [gather] of [src/src/stackweave/sync.py].  The wait group is the
    model of [WaitGroup.v]; its blocks are run as part of the blocks here.  The spawned fibers are
    threads of their own: the runner of index [i] is thread [t] with [idx t = Some i], and
    [outcome i] is what the user's callable returns or raises. *)
From S2P Require Import Prelude Fibers WaitGroup.
Local Open Scope Z_scope.

(** A value a callable returns; [None] is Python's [None]. *)
Abbreviation pyval := (option nat).

(** [_wg], [_results], [_errs], [_n]; [js_started] counts the runner fibers handed to the
    scheduler.  The code never reads [js_added], the units added to the group so far, and
    [js_fin], the runners whose [done()] has run. *)
Record joinset := JoinSet {
  js_wg : waitgroup;
  js_results : list pyval;
  js_errs : list (option pyexc);
  js_n : nat;
  js_started : nat;
  js_added : nat;
  js_fin : gset nat
}.

Inductive js_op :=
  | JsSpawn
  | JsRun (i : nat)                   (** the body of the runner fiber *)
  | JsJoin                            (** [join_all()] *)
  | JsExit (exc : option pyexc)       (** [__exit__]; [exc]: the exception of the body *)
  | JsGather (n : nat).               (** [gather] of [n] callables *)

Inductive js_pc :=
  | JsTop
  | JsAdd (i : nat) | JsStart (i : nat)       (** [spawn] *)
  | JsBody (i : nat) | JsDone (i : nat)       (** a runner *)
  | JsCheck | JsLaunch (k : nat)              (** [gather]: the scheduler check, the spawn loop *)
  | JsWait | JsScan.                          (** [wg.wait()], then the results *)

Inductive js_ret := JsIndex (i : nat) | JsResults (l : list pyval) | JsFalse | JsNone.

Abbreviation js_act := (action js_pc js_ret).

Definition js_new : joinset := JoinSet wg_new [] [] 0 0 0 ∅.

Definition js_set_wg (g : waitgroup) (s : joinset) : joinset :=
  JoinSet g (js_results s) (js_errs s) (js_n s) (js_started s) (js_added s) (js_fin s).

Definition js_set_started (k : nat) (s : joinset) : joinset :=
  JoinSet (js_wg s) (js_results s) (js_errs s) (js_n s) k (js_added s) (js_fin s).

(** [wg.add(k)] with [k > 0], then continue at [p] (such an [add] brings no counter to zero). *)
Definition js_wg_add (fib : bool) (k : nat) (p : js_pc) (s : joinset) : joinset * js_act :=
  let '(g, a) := wg_add fib (Z.of_nat k) (js_wg s) tt in
  (JoinSet g (js_results s) (js_errs s) (js_n s) (js_started s) (js_added s + k) (js_fin s),
   match a with
   | AReturn (Exc e) => AReturn (Exc e)
   | AWake l _ => AWake l (Ret JsNone)
   | _ => AGoto p
   end).

(** [spawn(fn)] *)
Definition js_spawn (fib : bool) (p : js_pc) (s : joinset) : joinset * js_act :=
  match p with
  | JsTop =>
      (JoinSet (js_wg s) (js_results s ++ [None]) (js_errs s ++ [None]) (S (js_n s)) (js_started s) (js_added s) (js_fin s),
       AGoto (JsAdd (js_n s)))
  | JsAdd i => js_wg_add fib 1 (JsStart i) s
  | JsStart i => (js_set_started (S (js_started s)) s, AReturn (Ret (JsIndex i)))
  | _ => (s, AReturn (Ret JsNone))
  end.

(** Storing what the callable returned or raised in slot [i]. *)
Definition js_store (i : nat) (r : out pyval) (s : joinset) : joinset :=
  match r with
  | Ret v => JoinSet (js_wg s) (<[i := v]> (js_results s)) (js_errs s) (js_n s) (js_started s) (js_added s) (js_fin s)
  | Exc e => JoinSet (js_wg s) (js_results s) (<[i := Some e]> (js_errs s)) (js_n s) (js_started s) (js_added s) (js_fin s)
  end.

(** [runner()]: it starts when the scheduler has it, stores its outcome, and calls [done()]. *)
Definition js_runner (outcome : nat -> out pyval) (fib : bool) (p : js_pc) (i : nat) (s : joinset) : joinset * js_act :=
  match p with
  | JsTop => (s, AGoto (if bool_decide (i < js_started s)%nat then JsBody i else JsTop))
  | JsBody j => (js_store j (outcome j) s, AGoto (JsDone j))
  | JsDone j =>
      let '(g, a) := wg_add fib (-1) (js_wg s) JsNone in
      (JoinSet g (js_results s) (js_errs s) (js_n s) (js_started s) (js_added s) ({[j]} ∪ js_fin s),
       match a with AWake l r => AWake l r | AReturn r => AReturn r | _ => AReturn (Ret JsNone) end)
  | _ => (s, AReturn (Ret JsNone))
  end.

(** [wg.wait()], then [JsScan]. *)
Definition js_wait (t : tid) (fib : bool) (now : Z) (s : joinset) : joinset * js_act :=
  let '(g, a) := wg_wait t fib now (js_wg s) in
  (js_set_wg g s,
   match a with
   | APark dl _ => APark dl JsWait
   | ASleep u _ => ASleep u JsWait
   | _ => AGoto JsScan
   end).

(** [for e in errs: if e is not None: raise e] *)
Definition first_err (errs : list (option pyexc)) : option pyexc :=
  match filter is_Some errs with Some e :: _ => Some e | _ => None end.

Definition js_scan (s : joinset) : out js_ret :=
  match first_err (js_errs s) with Some e => Exc e | None => Ret (JsResults (js_results s)) end.

(** [join_all()] and [__exit__] *)
Definition js_join (t : tid) (fib : bool) (now : Z) (p : js_pc) (s : joinset) : joinset * js_act :=
  match p with JsScan => (s, AReturn (js_scan s)) | _ => js_wait t fib now s end.

Definition js_exit (exc : option pyexc) (t : tid) (fib : bool) (now : Z) (p : js_pc) (s : joinset) : joinset * js_act :=
  match p with
  | JsScan =>
      (s, AReturn (match exc, first_err (js_errs s) with None, Some e => Exc e | _, _ => Ret JsFalse end))
  | _ => js_wait t fib now s
  end.

Definition gather_error : pyexc := RuntimeError "gather() requires a running scheduler".

(** [gather] of [n] callables; [mn] is [mn_spawns_to_hubs()]. *)
Definition js_gather (mn : bool) (n : nat) (t : tid) (fib : bool) (now : Z) (p : js_pc) (s : joinset) : joinset * js_act :=
  match p with
  | JsTop =>
      if bool_decide (n = 0%nat) then (s, AReturn (Ret (JsResults [])))
      else js_wg_add fib n JsCheck (JoinSet (js_wg s) (replicate n None) (replicate n None) n (js_started s) (js_added s) (js_fin s))
  | JsCheck => (s, if negb mn && negb fib then AReturn (Exc gather_error) else AGoto (JsLaunch 0))
  | JsLaunch k =>
      if bool_decide (k < n)%nat then (js_set_started (S k) s, AGoto (JsLaunch (S k))) else (s, AGoto JsWait)
  | JsScan => (s, AReturn (js_scan s))
  | _ => js_wait t fib now s
  end.

Section joinset.
Context (outcome : nat -> out pyval) (mn : bool).
Context (isf : tid -> bool) (idx : tid -> option nat) (main : tid).
Context (idx_inj : forall t1 t2 i, idx t1 = Some i -> idx t2 = Some i -> t1 = t2).
Context (idx_fib : forall t i, idx t = Some i -> isf t = true).
Context (idx_main : idx main = None).

Definition js_block (t : tid) (fib : bool) (now : Z) (o : js_op) (p : js_pc) (s : joinset) : joinset * js_act :=
  match o with
  | JsSpawn => js_spawn fib p s
  | JsRun i => js_runner outcome fib p i s
  | JsJoin => js_join t fib now p s
  | JsExit exc => js_exit exc t fib now p s
  | JsGather n => js_gather mn n t fib now p s
  end.

Definition js_entry (o : js_op) : js_pc := match o with JsJoin | JsExit _ => JsWait | _ => JsTop end.
Definition js_machine : machine joinset js_op js_pc js_ret := Machine js_entry js_block.

Abbreviation js_ctl := (ctl js_op js_pc js_ret).
Abbreviation js_world := (world joinset js_op js_pc js_ret).

(** The documented use: one thread spawns, then joins once; or it calls [gather].  A runner
    fiber runs its own callable, once. *)
Definition js_use (t : tid) (c : js_ctl) (o : js_op) : bool :=
  match o with
  | JsRun i => bool_decide (idx t = Some i) && match c with Idle => true | _ => false end
  | JsGather _ => bool_decide (t = main) && match c with Idle => true | _ => false end
  | _ => bool_decide (t = main) && match c with Idle | Fin JsSpawn (Ret _) => true | _ => false end
  end.

(** ** Specification *)

(** The slots a finished callable leaves behind. *)
Definition slot_ok (i : nat) (v : pyval) (e : option pyexc) : Prop :=
  match outcome i with Ret x => v = x /\ e = None | Exc x => v = None /\ e = Some x end.

(** What [join_all] of [n] callables owes its caller: the results in spawn order, or the first
    exception in spawn order. *)
Definition join_spec (n : nat) : out js_ret :=
  match first_err ((λ i, match outcome i with Exc e => Some e | Ret _ => None end) <$> seq 0 n) with
  | Some e => Exc e
  | None => Ret (JsResults ((λ i, match outcome i with Ret v => v | Exc _ => None end) <$> seq 0 n))
  end.

Definition js_stored (s : joinset) (i : nat) : Prop :=
  exists v e, js_results s !! i = Some v /\ js_errs s !! i = Some e /\ slot_ok i v e.

(** Scanning the slots of finished callables gives the specified outcome. *)
Lemma js_scan_spec s : length (js_results s) = js_n s -> length (js_errs s) = js_n s ->
  (forall i, (i < js_n s)%nat -> js_stored s i) ->
  js_errs s = (λ i, match outcome i with Exc e => Some e | Ret _ => None end) <$> seq 0 (js_n s) /\
  js_results s = (λ i, match outcome i with Ret v => v | Exc _ => None end) <$> seq 0 (js_n s).
Proof.
  intros Hr He Hst.
  split; apply list_eq_same_length with (n := js_n s); rewrite ?length_fmap, ?length_seq; try done;
    intros i x y Hi Hx Hy; apply list_lookup_fmap_Some in Hy as (j & -> & [-> _]%lookup_seq);
    destruct (Hst i Hi) as (v & e & Hv & He' & Hs); unfold slot_ok in Hs; simpl;
    destruct (outcome i); destruct Hs; congruence.
Qed.

(** ** Invariant *)

Record js_ok (s : joinset) : Prop := {
  jso_wg : wg_ok (js_wg s);
  jso_count : wg_n (js_wg s) = Z.of_nat (js_added s) - Z.of_nat (size (js_fin s));
  jso_results : length (js_results s) = js_n s;
  jso_errs : length (js_errs s) = js_n s;
  jso_started : (js_started s <= js_added s <= js_n s)%nat;
  jso_fin i : i ∈ js_fin s -> (i < js_started s)%nat /\ js_stored s i;
  jso_slots i : (i < js_n s)%nat -> js_stored s i \/ js_results s !! i = Some None /\ js_errs s !! i = Some None
}.

(** The runner of index [i]. *)
Definition js_rlocal (s : joinset) (i : nat) (c : js_ctl) : Prop :=
  match c with
  | Idle => i ∉ js_fin s
  | At (JsRun j) p =>
      j = i /\ i ∉ js_fin s /\
      match p with
      | JsTop => True
      | JsBody k => k = i /\ (i < js_started s)%nat
      | JsDone k => k = i /\ (i < js_started s)%nat /\ js_stored s i
      | _ => False
      end
  | Waking (JsRun j) _ _ | Fin (JsRun j) _ => j = i /\ i ∈ js_fin s
  | _ => False
  end.

(** Every callable has been added to the group and started. *)
Definition js_all_started (s : joinset) : Prop := js_started s = js_n s /\ js_added s = js_n s.
Definition js_all_stored (s : joinset) : Prop := forall i, (i < js_n s)%nat -> js_stored s i.

Definition js_exit_spec (exc : option pyexc) (n : nat) : out js_ret :=
  match exc, join_spec n with None, Exc e => Exc e | _, _ => Ret JsFalse end.

(** The thread that spawns and joins. *)
Definition js_mlocal (s : joinset) (c : js_ctl) : Prop :=
  match c with
  | Idle => js_n s = 0%nat
  | At JsSpawn p =>
      match p with
      | JsTop => js_all_started s
      | JsAdd _ => js_n s = S (js_added s) /\ js_started s = js_added s
      | JsStart _ => js_added s = js_n s /\ js_n s = S (js_started s)
      | _ => False
      end
  | Fin JsSpawn (Ret _) => js_all_started s
  | At (JsJoin | JsExit _) JsWait | Parked (JsJoin | JsExit _) _ JsWait | Sleeping (JsJoin | JsExit _) _ JsWait => js_all_started s
  | At (JsJoin | JsExit _) JsScan => js_all_stored s
  | Fin JsJoin r => r = join_spec (js_n s)
  | Fin (JsExit exc) r => r = js_exit_spec exc (js_n s)
  | At (JsGather n) p =>
      match p with
      | JsTop => js_n s = 0%nat
      | JsCheck => js_n s = n /\ js_added s = n /\ js_started s = 0%nat
      | JsLaunch k => js_n s = n /\ js_added s = n /\ js_started s = k
      | JsWait => js_n s = n /\ js_all_started s
      | JsScan => js_n s = n /\ js_all_stored s
      | _ => False
      end
  | Parked (JsGather n) _ JsWait | Sleeping (JsGather n) _ JsWait => js_n s = n /\ js_all_started s
  | Fin (JsGather n) r => r = join_spec n \/ r = Exc gather_error /\ mn || isf main = false
  | _ => False
  end.

Definition js_local (s : joinset) (t : tid) (c : js_ctl) : Prop :=
  match idx t with
  | Some i => js_rlocal s i c
  | None => if decide (t = main) then js_mlocal s c else c = Idle
  end.

(** Outcomes once stored stay, and nothing that was started is undone. *)
Definition js_grows (s s' : joinset) : Prop :=
  (js_started s <= js_started s')%nat /\ forall i, js_stored s i -> js_stored s' i.

Lemma js_rlocal_grows s s' i c :
  js_grows s s' -> (i ∈ js_fin s' <-> i ∈ js_fin s) -> js_rlocal s i c -> js_rlocal s' i c.
Proof.
  intros [Hst Hmo] Hf Hl. destruct c as [|o p|o dl p|o u p|o l r|o r]; simpl in *; try done; [by rewrite Hf| | |];
    destruct o; try done; rewrite ?Hf; try done.
  destruct p; try done; naive_solver lia.
Qed.

Lemma js_mlocal_grows s s' c :
  js_n s' = js_n s -> js_started s' = js_started s -> js_added s' = js_added s ->
  (forall i, js_stored s i -> js_stored s' i) -> js_mlocal s c -> js_mlocal s' c.
Proof.
  intros En Es Ea Hmo. unfold js_mlocal, js_all_started, js_all_stored. rewrite En, Es, Ea.
  destruct c as [|[] []|[] ? []|[] ? []| |[] []]; naive_solver.
Qed.

(** A finished group: every counted unit was given back by a runner that stored its outcome. *)
Lemma js_zero_stored s : js_ok s -> js_all_started s -> wg_n (js_wg s) = 0 -> js_all_stored s.
Proof.
  intros [_ Hc _ _ _ Hf _] [Es Ea] Hz i Hi.
  assert (js_fin s = set_seq 0 (js_n s)) as Efin.
  { apply set_subseteq_size_eq.
    - intros j [Hj _]%Hf. apply elem_of_set_seq. lia.
    - rewrite size_set_seq. lia. }
  apply Hf. rewrite Efin. apply elem_of_set_seq. lia.
Qed.

Lemma js_store_stored s i j : js_ok s -> (i < js_n s)%nat ->
  js_stored s j \/ j = i -> js_stored (js_store i (outcome i) s) j.
Proof.
  intros [_ _ Hr He _ _ Hs] Hi Hj.
  assert (i < length (js_results s))%nat by lia. assert (i < length (js_errs s))%nat by lia.
  destruct (decide (j = i)) as [->|Hne].
  - clear Hj. unfold js_stored, js_store. destruct (Hs i Hi) as [(v & e & Hv & Hx & Hok)|[Hv Hx]]; unfold slot_ok in *;
      destruct (outcome i); simpl; try destruct Hok; rewrite ?list_lookup_insert_eq by done; naive_solver.
  - destruct Hj as [(v & e & Hv & Hx & Hok)|]; [|done]. exists v, e.
    by destruct (outcome i); simpl; rewrite ?list_lookup_insert_ne by done.
Qed.

Lemma js_store_ok s i : js_ok s -> (i < js_n s)%nat -> js_ok (js_store i (outcome i) s) /\ js_grows s (js_store i (outcome i) s).
Proof.
  intros Hok Hi. pose proof (js_store_stored s i) as Hst. pose proof Hok as [Hw Hc Hr He Hsa Hf Hs].
  assert (js_wg (js_store i (outcome i) s) = js_wg s /\ js_fin (js_store i (outcome i) s) = js_fin s /\
    js_n (js_store i (outcome i) s) = js_n s /\ js_started (js_store i (outcome i) s) = js_started s /\
    js_added (js_store i (outcome i) s) = js_added s) as (E1 & E2 & E3 & E4 & E5) by (by destruct (outcome i)).
  assert (length (js_results (js_store i (outcome i) s)) = js_n s /\ length (js_errs (js_store i (outcome i) s)) = js_n s) as [E6 E7].
  { destruct (outcome i); simpl; by rewrite ?length_insert. }
  split; [|split; [by rewrite E4|intros; by apply Hst; [..|left]]].
  split; rewrite ?E1, ?E2, ?E3, ?E4, ?E5; try done.
  - intros j [? ?]%Hf. split; [done|]. apply Hst; auto.
  - intros j Hj. destruct (decide (j = i)) as [->|Hne]; [left; apply Hst; auto|].
    destruct (Hs j Hj) as [?|[? ?]]; [left; apply Hst; auto|right].
    by destruct (outcome i); simpl; rewrite ?list_lookup_insert_ne by done.
Qed.

(** A step that keeps what the other threads rely on. *)
Lemma js_keep s s' t :
  js_grows s s' -> (forall i, idx t ≠ Some i -> i ∈ js_fin s' <-> i ∈ js_fin s) ->
  (t ≠ main -> js_n s' = js_n s /\ js_started s' = js_started s /\ js_added s' = js_added s) ->
  forall t' c, t' ≠ t -> js_local s t' c -> js_local s' t' c.
Proof.
  intros Hg Hf Hm t' c Hne. unfold js_local. destruct (idx t') as [i|] eqn:Ei.
  - apply js_rlocal_grows; [done|]. apply Hf. intros Et. by apply Hne, (idx_inj t' t i).
  - case_decide as Ht; [|done]. subst t'. destruct Hm as (? & ? & ?); [done|].
    by apply js_mlocal_grows; [..|apply Hg].
Qed.

Definition js_step_ok (s s' : joinset) (t : tid) (c' : js_ctl) : Prop :=
  js_ok s' /\ js_local s' t c' /\ (forall t' c, t' ≠ t -> js_local s t' c -> js_local s' t' c).

Lemma js_grows_refl s s' : js_started s' = js_started s -> js_results s' = js_results s -> js_errs s' = js_errs s -> js_grows s s'.
Proof. intros E1 E2 E3. split; [lia|]. unfold js_stored. by rewrite E2, E3. Qed.

(** [done()] of a runner: the counter is positive, so it never raises. *)
Lemma js_done_ok s i t g a :
  js_ok s -> idx t = Some i -> i ∉ js_fin s -> (i < js_started s)%nat -> js_stored s i ->
  wg_add (isf t) (-1) (js_wg s) JsNone = (g, a) ->
  js_ok (JoinSet g (js_results s) (js_errs s) (js_n s) (js_started s) (js_added s) ({[i]} ∪ js_fin s)) /\
  ((exists l, a = AWake l (Ret JsNone)) \/ a = AReturn (Ret JsNone)).
Proof.
  intros [Hw Hc Hr He Hsa Hf Hs] Ei Hi Hlt Hst H. rewrite (idx_fib _ _ Ei) in H.
  assert (size ({[i]} ∪ js_fin s) = S (size (js_fin s))) as Esz by (rewrite size_union, size_singleton; set_solver).
  assert (size ({[i]} ∪ js_fin s) <= js_started s)%nat as Hle.
  { rewrite <- (size_set_seq (C := gset nat) 0 (js_started s)). apply subseteq_size.
    intros j [->%elem_of_singleton|[? _]%Hf]%elem_of_union; apply elem_of_set_seq; lia. }
  destruct (wg_add_ok _ _ _ _ _ _ Hw H) as [Hw' _]. split.
  - assert (wg_n g = wg_n (js_wg s) - 1) as Eg.
    { unfold wg_add in H; simpl in H. repeat case_match; simplify_eq/=; lia. }
    split; simpl; try done; [rewrite Eg, Hc; lia|].
    intros j [->%elem_of_singleton|Hj]%elem_of_union; [done|by apply Hf].
  - unfold wg_add in H. simpl in H. case_match; [lia|]. case_match; simplify_eq; eauto.
Qed.

Lemma js_runner_ok t i p s s' a :
  js_ok s -> idx t = Some i -> js_rlocal s i (At (JsRun i) p) -> js_runner outcome (isf t) p i s = (s', a) ->
  js_step_ok s s' t (act_ctl (JsRun i) a).
Proof.
  intros Hok Ei (_ & Hnf & Hp) H. pose proof (jso_started _ Hok) as Hsa.
  assert (t ≠ main) as Htm by (intros ->; congruence).
  unfold js_step_ok, js_local. rewrite Ei. destruct p; try done; simpl in H.
  - simplify_eq. split_and!; [done| |by apply js_keep; [by apply js_grows_refl|done|done]].
    case_bool_decide; simpl; naive_solver.
  - destruct Hp as [-> Hlt]. simplify_eq. destruct (js_store_ok s i Hok ltac:(lia)) as [Hok' Hg].
    split_and!; [done| |].
    + simpl. split_and!; [done|by destruct (outcome i)|done|by destruct (outcome i)|].
      apply js_store_stored; [done|lia|by right].
    + apply js_keep; [done|by destruct (outcome i)|by destruct (outcome i)].
  - destruct Hp as (-> & Hlt & Hst). destruct (wg_add _ _ _ _) as [g b] eqn:E. simplify_eq.
    destruct (js_done_ok s i t g b Hok Ei Hnf Hlt Hst E) as [Hok' Ha]. split_and!; [done| |].
    + destruct Ha as [[l ->]| ->]; simpl; set_solver.
    + apply js_keep; [by apply js_grows_refl|simpl; intros j Hj; set_solver|done].
Qed.

Lemma js_wg_ok s g :
  js_ok s -> wg_ok g -> wg_n g = wg_n (js_wg s) -> js_ok (js_set_wg g s).
Proof. intros [Hw Hc Hr He Hsa Hf Hs] Hg En. split; simpl; try done. by rewrite En. Qed.

Lemma js_wait_ok t fib now s s' a :
  js_ok s -> js_all_started s -> js_wait t fib now s = (s', a) ->
  js_ok s' /\ (exists g, s' = js_set_wg g s) /\
  (a = APark None JsWait \/ (exists u, a = ASleep u JsWait) \/ a = AGoto JsScan /\ js_all_stored s).
Proof.
  intros Hok Hall H. unfold js_wait, wg_wait in H. pose proof (jso_wg _ Hok) as Hw.
  destruct (Z.eqb_spec (wg_n (js_wg s)) 0) as [Hz|Hz].
  - simplify_eq. split_and!; [by apply js_wg_ok|by eauto|]. right; right. split; [done|by apply js_zero_stored].
  - destruct fib; simplify_eq; (split_and!; [apply js_wg_ok; try done; by intros ?|by eauto|by eauto]).
Qed.

(** [add] of [k > 0] units on a group whose counter is not negative. *)
Lemma js_wg_add_ok fib k p s s' a :
  (forall i, i ∈ js_fin s -> (i < js_started s)%nat /\ js_stored s i) -> wg_ok (js_wg s) ->
  wg_n (js_wg s) = Z.of_nat (js_added s) - Z.of_nat (size (js_fin s)) -> (js_started s <= js_added s)%nat ->
  (0 < k)%nat -> js_wg_add fib k p s = (s', a) ->
  a = AGoto p /\ exists g, wg_ok g /\ wg_n g = wg_n (js_wg s) + Z.of_nat k /\
    s' = JoinSet g (js_results s) (js_errs s) (js_n s) (js_started s) (js_added s + k) (js_fin s).
Proof.
  intros Hf Hw Hc Hsa Hk H.
  assert (size (js_fin s) <= js_started s)%nat as Hle.
  { rewrite <- (size_set_seq (C := gset nat) 0 (js_started s)). apply subseteq_size.
    intros j [? _]%Hf; apply elem_of_set_seq; lia. }
  unfold js_wg_add in H. destruct (wg_add fib (Z.of_nat k) (js_wg s) tt) as [g b] eqn:E.
  destruct (wg_add_ok _ _ _ _ _ _ Hw E) as [Hg _].
  unfold wg_add in E. rewrite (proj2 (Z.ltb_ge (Z.of_nat k) 0)) in E by lia. simpl in E.
  rewrite (proj2 (Z.ltb_ge (wg_n (js_wg s) + Z.of_nat k) 0)) in E by lia.
  rewrite (proj2 (Z.eqb_neq (wg_n (js_wg s) + Z.of_nat k) 0)) in E by lia. simpl in E. simplify_eq.
  split; [done|]. eexists. split_and!; [exact Hg|done|done].
Qed.

(** Every step of the main thread keeps the runners' assertions when nothing shrinks. *)
Lemma js_main_keep s s' : js_grows s s' -> js_fin s' = js_fin s ->
  forall t' c, t' ≠ main -> js_local s t' c -> js_local s' t' c.
Proof. intros Hg Hf. apply js_keep; [done|by rewrite Hf|done]. Qed.

Lemma js_local_main s c : js_local s main c <-> js_mlocal s c.
Proof. unfold js_local. rewrite idx_main. by rewrite decide_True. Qed.

Lemma js_spawn_ok p s s' a :
  js_ok s -> js_mlocal s (At JsSpawn p) -> js_spawn (isf main) p s = (s', a) -> js_step_ok s s' main (act_ctl JsSpawn a).
Proof.
  intros Hok Hl H. pose proof Hok as [Hw Hc Hr He Hsa Hf Hs]. unfold js_step_ok. rewrite js_local_main.
  destruct p; try done; simpl in *.
  - destruct Hl as [El1 El2]. simplify_eq. 
    assert (Hmo : forall i, js_stored s i -> js_stored (JoinSet (js_wg s) (js_results s ++ [None]) (js_errs s ++ [None])
      (S (js_n s)) (js_started s) (js_added s) (js_fin s)) i).
    { intros i (v & e & Hv & Hx & ?). exists v, e; simpl. split_and!; [by apply lookup_app_l_Some..|done]. }
    split_and!; [|simpl; lia|by apply js_main_keep].
    split; simpl; try done; [by rewrite length_app, Hr, Nat.add_comm|by rewrite length_app, He, Nat.add_comm|lia| |].
    + intros i [? ?]%Hf. auto.
    + intros i Hi. destruct (decide (i = js_n s)) as [->|Hne].
      * right. rewrite <- Hr at 1. rewrite <- He at 1. by rewrite !list_lookup_middle.
      * destruct (Hs i ltac:(lia)) as [?|[? ?]]; [auto|right]. split; by apply lookup_app_l_Some.
  - destruct Hl as [El1 El2]. destruct (js_wg_add_ok (isf main) 1 (JsStart i) s s' a Hf Hw Hc ltac:(lia) ltac:(lia) H) as (-> & g & Hg & En & ->).
    split_and!; [|simpl; lia|by apply js_main_keep; [apply js_grows_refl|]].
    split; simpl; try done; lia.
  - destruct Hl as [El1 El2]. simplify_eq. split_and!; [|simpl; split; simpl; lia|apply js_main_keep; [split; simpl; [lia|done]|done]].
    split; simpl; try done; [lia|]. intros j [? ?]%Hf. split; [lia|done].
Qed.

(** Waiting on behalf of [o], a call of the main thread. *)
Lemma js_mwait_ok o now s s' a :
  js_ok s -> js_all_started s -> js_wait main (isf main) now s = (s', a) ->
  (js_all_started s' -> js_n s' = js_n s -> js_mlocal s' (Parked o None JsWait) /\ forall u, js_mlocal s' (Sleeping o u JsWait)) ->
  (js_all_stored s' -> js_n s' = js_n s -> js_mlocal s' (At o JsScan)) ->
  js_step_ok s s' main (act_ctl o a).
Proof.
  intros Hok Hall H H1 H2. destruct (js_wait_ok _ _ _ _ _ _ Hok Hall H) as (Hok' & [g ->] & Ha).
  unfold js_step_ok. rewrite js_local_main.
  split_and!; [done| |apply js_main_keep; [by apply js_grows_refl|done]].
  destruct Ha as [->|[[u ->]|[-> Hst]]]; simpl; [by apply H1|by apply H1|by apply H2].
Qed.

Lemma js_scan_result s : js_ok s -> js_all_stored s -> js_scan s = join_spec (js_n s) /\
  first_err (js_errs s) = match join_spec (js_n s) with Exc e => Some e | Ret _ => None end.
Proof.
  intros [_ _ Hr He _ _ _] Hst. destruct (js_scan_spec s Hr He Hst) as [E1 E2].
  unfold js_scan, join_spec. rewrite E1, E2. split; [done|]. by destruct (first_err _).
Qed.

(** A step of the main thread that leaves the object alone. *)
Lemma js_main_stay s c : js_ok s -> js_mlocal s c -> js_step_ok s s main c.
Proof. intros ? ?. unfold js_step_ok. by rewrite js_local_main. Qed.

Lemma js_join_ok now p s s' a :
  js_ok s -> js_mlocal s (At JsJoin p) -> js_join main (isf main) now p s = (s', a) -> js_step_ok s s' main (act_ctl JsJoin a).
Proof.
  intros Hok Hl H. destruct p; try done; simpl in H.
  - by apply (js_mwait_ok JsJoin now).
  - simplify_eq. apply js_main_stay; [done|]. simpl. by apply js_scan_result.
Qed.

Lemma js_exit_ok exc now p s s' a :
  js_ok s -> js_mlocal s (At (JsExit exc) p) -> js_exit exc main (isf main) now p s = (s', a) ->
  js_step_ok s s' main (act_ctl (JsExit exc) a).
Proof.
  intros Hok Hl H. destruct p; try done; simpl in H.
  - by apply (js_mwait_ok (JsExit exc) now).
  - simplify_eq. apply js_main_stay; [done|]. simpl. unfold js_exit_spec.
    destruct (js_scan_result s' Hok Hl) as [_ ->]. by destruct exc, (join_spec (js_n s')).
Qed.

Lemma js_gather_ok n now p s s' a :
  js_ok s -> js_mlocal s (At (JsGather n) p) -> js_gather mn n main (isf main) now p s = (s', a) ->
  js_step_ok s s' main (act_ctl (JsGather n) a).
Proof.
  intros Hok Hl H. pose proof Hok as [Hw Hc Hr He Hsa Hf Hs]. destruct p as [| | | | | |k| |]; try done; simpl in Hl, H.
  - case_bool_decide as Hn; [simplify_eq; apply js_main_stay; [done|by left]|].
    assert (Hno : forall i, i ∈ js_fin s -> False) by (intros i [? _]%Hf; lia).
    destruct (js_wg_add_ok (isf main) n JsCheck (JoinSet (js_wg s) (replicate n None) (replicate n None) n (js_started s)
      (js_added s) (js_fin s)) s' a) as (-> & g & Hg & En & ->); [by intros i ?%Hno|done..|simpl; lia|lia|done|].
    unfold js_step_ok. rewrite js_local_main. split_and!; [|simpl; lia|].
    + split; simpl in *; [done|lia|by rewrite length_replicate..|lia|by intros i ?%Hno|].
      intros i Hi. right. by rewrite !lookup_replicate_2 by done.
    + apply js_main_keep; [|done]. split; simpl; [done|]. intros i (v & e & Hv & _).
      apply lookup_lt_Some in Hv. lia.
  - destruct Hl as (? & ? & ?). simplify_eq. apply js_main_stay; [done|].
    destruct mn eqn:E1, (isf main) eqn:E2; simpl; auto. right. by rewrite E1, E2.
  - destruct Hl as (En & Ea & Es). case_bool_decide as Hk; simplify_eq.
    + unfold js_step_ok. rewrite js_local_main.
      split_and!; [|simpl; lia|apply js_main_keep; [split; simpl; [lia|done]|done]].
      split; simpl; try done; [lia|]. intros j [? ?]%Hf. split; [lia|done].
    + apply js_main_stay; [done|]. simpl. split; [done|]. split; lia.
  - destruct Hl as [En Hall]. apply (js_mwait_ok (JsGather n) now); try done; simpl.
    + intros ? ?. split; [|intros _]; (split; [lia|done]).
    + intros ? ?. split; [lia|done].
  - destruct Hl as [En Hst]. simplify_eq. apply js_main_stay; [done|]. simpl. left. by apply js_scan_result.
Qed.

Lemma js_blocks : blocks_ok js_machine isf js_ok js_local (λ _, 0) (λ _, 0).
Proof.
  intros t now o p s s' a Hok Hl H. simpl in H.
  assert (js_step_ok s s' t (act_ctl o a)) as (? & ? & ?); [|done].
  unfold js_local in Hl. destruct (idx t) as [i|] eqn:Ei.
  - destruct o; try done. pose proof Hl as [-> _]. by apply (js_runner_ok t i p).
  - case_decide as Ht; [subst t|done]. destruct o; simpl in H.
    + by eapply js_spawn_ok.
    + done.
    + by eapply js_join_ok.
    + by eapply js_exit_ok.
    + by eapply js_gather_ok.
Qed.

#[export] Instance js_quiet : quiet_moves js_machine js_use js_ok js_local (λ _, 0).
Proof.
  split; [done|..]; unfold js_local.
  - intros s t c o Hr Hm Hok Hl. split; [|done]. destruct (idx t) as [i|] eqn:Ei.
    + destruct o; simpl in Hm; try (apply andb_true_iff in Hm as [->%bool_decide_eq_true _]; congruence).
      apply andb_true_iff in Hm as [Hj Hc]. apply bool_decide_eq_true in Hj. destruct c; try done. simpl in *.
      split_and!; [congruence|done|done].
    + case_decide as Ht.
      * pose proof (jso_started _ Hok). destruct o; simpl in Hm; apply andb_true_iff in Hm as [Hx Hc];
          [| |..]; try (apply bool_decide_eq_true in Hx; congruence);
          (destruct c as [| | | | |[] []]; try done; simpl in *; first [done|split; lia|lia]).
      * destruct o; simpl in Hm; apply andb_true_iff in Hm as [Hx%bool_decide_eq_true _]; congruence.
  - intros s t o dl p Hl. split; [|done]. destruct (idx t); [done|]. case_decide; [|done]. by destruct o, p.
  - intros s t o dl p Hl. split; [|done]. destruct (idx t); [done|]. case_decide; [|done]. by destruct o, p.
  - intros s t o g l r Hl. split; [|done]. destruct (idx t); [by destruct o|]. by case_decide.
  - intros s t o r Hl. split; [|done]. destruct (idx t); [by destruct o|]. by case_decide.
Qed.

Lemma js_inv w : reach js_machine isf js_use js_new w ->
  js_ok (w_obj w) /\ forall t, js_local (w_obj w) t (ctl_of w t).
Proof.
  intros Hr. refine (let H := og_reach js_machine isf js_use js_ok js_local (λ _, 0) (λ _, 0) js_new _ _ eq_refl js_blocks w Hr in
    conj (proj1 H) (proj1 (proj2 H))).
  - split; simpl; try done; intros; try lia; set_solver.
  - intros t. unfold js_local. destruct (idx t); simpl; [set_solver|]. by case_decide.
Qed.

(** ** The joiner is not left parked *)

Definition js_ready (s : joinset) (t : tid) (c : js_ctl) : bool :=
  match c with Parked _ _ _ => bool_decide (t ∉ wg_waiters (js_wg s)) | _ => false end.

(** [wg.add]: whoever leaves the list is woken. *)
Lemma wg_add_waiters {V} fib d g (ok : V) g' a t : wg_ok g -> wg_add fib d g ok = (g', a) -> t ∈ wg_waiters g ->
  t ∈ wg_waiters g' \/ exists l, a = AWake l (Ret ok) /\ t ∈ l.
Proof.
  intros Hok H Hin. destruct (wg_add_ok _ _ _ _ _ _ Hok H) as (_ & [(l & -> & -> & _)|(_ & ->)]); eauto.
Qed.

Lemma js_wait_waiters t fib now s s' a : js_wait t fib now s = (s', a) ->
  (forall t', t' ∈ wg_waiters (js_wg s) -> t' ∈ wg_waiters (js_wg s')) /\
  (forall o dl p, a = APark dl p -> act_ctl (Op := js_op) o a = Parked o dl p -> t ∈ wg_waiters (js_wg s')).
Proof.
  unfold js_wait, wg_wait. intros H. repeat case_match; simplify_eq/=; split; try done; set_solver.
Qed.

Lemma js_block_waiters t fib now o p s s' a : js_ok s -> js_block t fib now o p s = (s', a) ->
  (forall t', t' ∈ wg_waiters (js_wg s) -> t' ∈ wg_waiters (js_wg s') \/ exists l r, a = AWake l r /\ t' ∈ l) /\
  (forall dl q, a = APark dl q -> t ∈ wg_waiters (js_wg s')).
Proof.
  intros Hok H. pose proof (jso_wg _ Hok) as Hw.
  assert (Hwait : js_wait t fib now s = (s', a) ->
    (forall t', t' ∈ wg_waiters (js_wg s) -> t' ∈ wg_waiters (js_wg s') \/ exists l r, a = AWake l r /\ t' ∈ l) /\
    (forall dl q, a = APark dl q -> t ∈ wg_waiters (js_wg s'))).
  { intros [H1 H2]%js_wait_waiters. split; [auto|]. intros dl q ->. by apply (H2 JsJoin dl q). }
  assert (Hadd : forall k q s0, js_wg s0 = js_wg s -> js_wg_add fib k q s0 = (s', a) ->
    (forall t', t' ∈ wg_waiters (js_wg s) -> t' ∈ wg_waiters (js_wg s') \/ exists l r, a = AWake l r /\ t' ∈ l) /\
    (forall dl q, a = APark dl q -> t ∈ wg_waiters (js_wg s'))).
  { intros k q s0 E. unfold js_wg_add. rewrite E. destruct (wg_add _ _ _ _) as [g b] eqn:Ea. intros. simplify_eq. simpl.
    split; [|by repeat case_match]. intros t' Hin. destruct (wg_add_waiters _ _ _ _ _ _ _ Hw Ea Hin) as [?|(l & -> & ?)]; eauto. }
  destruct o as [|i| |exc|n]; simpl in H.
  - destruct p; simpl in H; simplify_eq; simpl; eauto; try (split; [auto|done]).
  - destruct p; simpl in H; try (simplify_eq; split; [auto|done]).
    + intros. left. by destruct (outcome i0).
    + destruct (wg_add _ _ _ _) as [g b] eqn:Ea. simplify_eq. simpl. split; [|by repeat case_match].
      intros t' Hin. destruct (wg_add_waiters _ _ _ _ _ _ _ Hw Ea Hin) as [?|(l & -> & ?)]; eauto.
  - destruct p; simpl in H; try (by apply Hwait). simplify_eq. split; [auto|done].
  - destruct p; simpl in H; try (by apply Hwait). simplify_eq. split; [auto|done].
  - destruct p; simpl in H; try (by apply Hwait).
    + case_bool_decide; [simplify_eq; split; [auto|done]|]. by eapply (Hadd n JsCheck); [|exact H].
    + simplify_eq. split; [auto|by case_match].
    + case_bool_decide; simplify_eq; (split; [auto|done]).
    + simplify_eq. split; [auto|done].
Qed.

#[export] Instance js_wakes : wakes_ok js_machine isf js_ok js_local js_ready.
Proof.
  split; simpl; try done.
  - intros t now o p s s' a Hok _ H Hr. destruct (js_block_waiters _ _ _ _ _ _ _ _ Hok H) as [_ Hp].
    destruct a; try done. simpl in Hr. apply bool_decide_eq_true in Hr. destruct Hr. eauto.
  - intros t now o p s s' a t' c' Hok _ H Hne _ Hf Hr. destruct c'; try done. simpl in *.
    apply bool_decide_eq_false in Hf. apply bool_decide_eq_true in Hr.
    assert (t' ∈ wg_waiters (js_wg s)) as Hin by (by destruct (decide (t' ∈ wg_waiters (js_wg s)))).
    by destruct (js_block_waiters _ _ _ _ _ _ _ _ Hok H) as [[?|?]%(λ H, H t' Hin) _].
Qed.

Lemma js_woken w : reach js_machine isf js_use js_new w -> woken_inv js_ready w.
Proof.
  intros Hr. apply (woken_reach js_machine isf js_use js_ok js_local (λ _, 0) (λ _, 0) js_ready js_new); try done.
  - split; simpl; try done; intros; try lia; set_solver.
  - intros t. unfold js_local. destruct (idx t); simpl; [set_solver|]. by case_decide.
  - apply js_blocks.
  - apply js_wakes.
Qed.

(** C6. [join_all], [__exit__] and [gather] give their caller exactly the specified outcome, in
    every interleaving of the runners: the results in spawn order if every callable returned, else
    the exception of the first callable, in spawn order, that raised; [__exit__] never masks an
    exception of the body; [gather] raises its own error only where no scheduler runs. *)
Theorem join_outcome_correct w :
  reach js_machine isf js_use js_new w ->
  match ctl_of w main with
  | Fin JsJoin r => r = join_spec (js_n (w_obj w))
  | Fin (JsExit exc) r => r = js_exit_spec exc (js_n (w_obj w))
  | Fin (JsGather n) r => r = join_spec n \/ r = Exc gather_error /\ mn || isf main = false
  | _ => True
  end.
Proof.
  intros [_ HL]%js_inv. specialize (HL main). apply js_local_main in HL.
  by destruct (ctl_of w main) as [|[]|[]|[]|[]|[]].
Qed.

(** A joiner is never stranded: when nothing can move any more and the main thread is parked in
    [join_all], [__exit__] or [gather], some spawned callable's fiber has not been run at all; so
    once the scheduler has run every runner, the wait returns. *)
Theorem join_no_stranded_waiter w o dl p :
  reach js_machine isf js_use js_new w -> quiescent js_machine isf js_use w ->
  ctl_of w main = Parked o dl p ->
  exists i, (i < js_n (w_obj w))%nat /\ forall t, idx t = Some i -> ctl_of w t = Idle.
Proof.
  intros Hr Hq Hp. pose proof (js_inv w Hr) as [Hok HL].
  destruct (quiescent_not_ready _ _ _ _ w main o dl p (js_woken w Hr) Hq Hp) as [Hf _].
  simpl in Hf. apply bool_decide_eq_false in Hf.
  assert (wg_n (js_wg (w_obj w)) ≠ 0) as Hnz.
  { intros Hz. apply Hf. rewrite (jso_wg _ Hok Hz). apply not_elem_of_nil. }
  assert (js_added (w_obj w) = js_n (w_obj w)) as Ea.
  { pose proof (HL main) as Hm. apply js_local_main in Hm. rewrite Hp in Hm.
    destruct o, p; simpl in Hm; try done; unfold js_all_started in Hm; tauto. }
  destruct (decide (set_seq 0 (js_n (w_obj w)) ⊆ js_fin (w_obj w))) as [Hs|Hs].
  - destruct Hnz. pose proof (subseteq_size _ _ Hs) as Hle. rewrite size_set_seq in Hle.
    assert (size (js_fin (w_obj w)) <= js_started (w_obj w))%nat as Hle'.
    { rewrite <- (size_set_seq (C := gset nat) 0 (js_started (w_obj w))). apply subseteq_size.
      intros j [? _]%(jso_fin _ Hok); apply elem_of_set_seq; lia. }
    pose proof (jso_started _ Hok). rewrite (jso_count _ Hok). lia.
  - destruct (set_choose_L (set_seq 0 (js_n (w_obj w)) ∖ js_fin (w_obj w))) as [i Hi].
    { intros E. apply Hs. intros x Hx. destruct (decide (x ∈ js_fin (w_obj w))); [done|].
      assert (x ∈ (∅ : gset nat)) as []%not_elem_of_empty. rewrite <- E. by apply elem_of_difference. }
    apply elem_of_difference in Hi as [[_ Hi]%elem_of_set_seq Hni]. exists i. split; [lia|].
    intros t Et. pose proof (HL t) as Hl. unfold js_local in Hl. rewrite Et in Hl.
    destruct (quiescent_cases _ _ _ w t Hq) as [Ha|[(? & ? & ? & Ec)|(? & ? & ? & Ec & _)]];
      [|by rewrite Ec in Hl..].
    destruct (ctl_of w t) as [| | | | |[] ?]; try done. simpl in Hl. naive_solver.
Qed.
End joinset.

(** Three callables, the second and third of which raise; the runner of index [i] is thread [10 + i]. *)
Definition join_demo_outcome (i : nat) : out pyval :=
  match i with O => Ret (Some 7%nat) | S i' => Exc (UserExc i') end.
Definition join_demo_idx (t : tid) : option nat := if (10 <=? t)%nat then Some (t - 10)%nat else None.

Lemma join_demo_inj t1 t2 i : join_demo_idx t1 = Some i -> join_demo_idx t2 = Some i -> t1 = t2.
Proof. unfold join_demo_idx. repeat case_match; intros; simplify_eq. apply Nat.leb_le in H, H0. lia. Qed.

Definition join_demo : world joinset js_op js_pc js_ret :=
  after (js_machine join_demo_outcome true) (λ _, true) (js_use join_demo_idx 0) js_new
    ([ECall 0%nat JsSpawn; EStep 0%nat; EStep 0%nat; EStep 0%nat;
      ECall 0%nat JsSpawn; EStep 0%nat; EStep 0%nat; EStep 0%nat;
      ECall 0%nat JsSpawn; EStep 0%nat; EStep 0%nat; EStep 0%nat;
      ECall 0%nat JsJoin; EStep 0%nat; ECall 12%nat (JsRun 2)] ++ replicate 3 (EStep 12%nat) ++
     [ECall 11%nat (JsRun 1)] ++ replicate 3 (EStep 11%nat) ++
     [ECall 10%nat (JsRun 0)] ++ replicate 5 (EStep 10%nat) ++ replicate 3 (EStep 0%nat)).

Lemma join_outcome_correct_witness :
  ctl_of join_demo 0 = Fin JsJoin (Exc (UserExc 0)) /\ Exc (UserExc 0) = join_spec join_demo_outcome (js_n (w_obj join_demo)).
Proof.
  assert (Hc : ctl_of join_demo 0 = Fin JsJoin (Exc (UserExc 0))) by (vm_compute; reflexivity).
  split; [exact Hc|].
  pose proof (join_outcome_correct join_demo_outcome true (λ _, true) join_demo_idx 0 join_demo_inj
    (λ _ _ _, eq_refl) eq_refl join_demo) as H.
  rewrite Hc in H. apply H. apply after_reach.
Defined.

(** The same set, joined before its second runner has been run. *)
Definition join_waiting : world joinset js_op js_pc js_ret :=
  after (js_machine join_demo_outcome true) (λ _, true) (js_use join_demo_idx 0) js_new
    ([ECall 0%nat (JsGather 2); EStep 0%nat; EStep 0%nat; EStep 0%nat; EStep 0%nat; EStep 0%nat; EStep 0%nat;
      ECall 10%nat (JsRun 0)] ++ replicate 3 (EStep 10%nat)).

Lemma join_no_stranded_waiter_witness :
  ctl_of join_waiting 0 = Parked (JsGather 2) None JsWait /\ exists i, (i < js_n (w_obj join_waiting))%nat.
Proof.
  assert (Hc : ctl_of join_waiting 0 = Parked (JsGather 2) None JsWait) by (vm_compute; reflexivity).
  split; [exact Hc|].
  destruct (join_no_stranded_waiter join_demo_outcome true (λ _, true) join_demo_idx 0 join_demo_inj
    (λ _ _ _, eq_refl) eq_refl join_waiting (JsGather 2) None JsWait) as (i & Hi & _).
  - apply after_reach.
  - apply quiescentb_sound. vm_compute. reflexivity.
  - exact Hc.
  - exists i. exact Hi.
Defined.
