(* ===== verification/Future.v ===== *)
(** * Future: a one-shot result slot

    Models [class Future] of [src/src/stackweave/sync.py]: any number of threads
    await [result()], one [set_result]/[set_exception] resolves it and wakes
    them all. *)
From S2P Require Import Prelude Fibers.
Local Open Scope Z_scope.

(** Python values a user stores; Python's [None] is [None] of [option val]. *)
Abbreviation val := nat.

Record future := Future {
  fu_done : bool;
  fu_result : option val;
  fu_exc : option pyexc;
  fu_waiters : list tid
}.
Definition fu_new : future := Future false None None [].

(** What [set_exception] may be given: an instance, [None], or a class, whose
    call makes an instance or raises. *)
Inductive exc_arg := ExcInst (e : pyexc) | ExcNone | ExcClass (made : out pyexc).

Inductive fu_op := FuIsDone | FuSetResult (v : option val) | FuSetExc (x : exc_arg) | FuGet (timeout : option Z).
Inductive fu_pc := FuStart | FuForeign (dl : option Z) | FuPark (dl : option Z)
  | FuExpire (dl : option Z) | FuCheck (dl : option Z).
Inductive fu_ret := FuBool (b : bool) | FuUnit | FuValue (v : option val).

#[export] Instance fu_ret_eq_dec : EqDecision fu_ret.
Proof. solve_decision. Defined.

Abbreviation fu_act := (action fu_pc fu_ret).

(** [if exc is not None: raise exc; return res]. *)
Definition fu_outcome (s : future) : out fu_ret :=
  match fu_exc s with Some e => Exc e | None => Ret (FuValue (fu_result s)) end.

Definition fu_timeout : out fu_ret := Exc (TimeoutError "Future.result timed out").

Definition fu_resolve (fib : bool) (v : option val) (e : option pyexc) (s : future) : future * fu_act :=
  if negb fib then (s, AReturn (Exc (RuntimeError "Future must be resolved from a fiber, not a foreign OS thread")))
  else if fu_done s then (s, AReturn (Exc (RuntimeError "Future already resolved")))
  else (Future true v e [], AWake (fu_waiters s) (Ret FuUnit)).

Definition fu_set_result (fib : bool) (v : option val) (s : future) : future * fu_act :=
  fu_resolve fib v None s.

Definition fu_set_exception (fib : bool) (x : exc_arg) (s : future) : future * fu_act :=
  match x with
  | ExcClass (Ret e) | ExcInst e => fu_resolve fib None (Some e) s
  | ExcNone => fu_resolve fib None None s
  | ExcClass (Exc e) => (s, AReturn (Exc e))
  end.

(** [result(timeout)] block by block: the first look, the foreign poll, the
    choice to park or to give up, the exit at the deadline, and the re-check
    after a park. *)
Definition fu_get (t : tid) (fib : bool) (now : Z) (timeout : option Z) (p : fu_pc) (s : future)
  : future * fu_act :=
  match p with
  | FuStart =>
      let dl := (λ d, now + d) <$> timeout in
      if fu_done s then (s, AReturn (fu_outcome s))
      else if negb fib then (s, AGoto (FuForeign dl))
      else (Future (fu_done s) (fu_result s) (fu_exc s) (fu_waiters s ++ [t]), AGoto (FuPark dl))
  | FuForeign dl =>
      if fu_done s then (s, AReturn (fu_outcome s))
      else if due dl now then (s, AReturn fu_timeout)
      else (s, ASleep (now + 500) (FuForeign dl))
  | FuPark dl => if due dl now then (s, AGoto (FuExpire dl)) else (s, APark dl (FuCheck dl))
  | FuExpire dl =>
      let s' := Future (fu_done s) (fu_result s) (fu_exc s) (try_remove t (fu_waiters s)) in
      (s', AReturn (if fu_done s then fu_outcome s else fu_timeout))
  | FuCheck dl =>
      if fu_done s then (s, AReturn (fu_outcome s)) else (s, AGoto (FuPark dl))
  end.

Definition fu_block (t : tid) (fib : bool) (now : Z) (o : fu_op) (p : fu_pc) (s : future)
  : future * fu_act :=
  match o with
  | FuIsDone => (s, AReturn (Ret (FuBool (fu_done s))))
  | FuSetResult v => fu_set_result fib v s
  | FuSetExc x => fu_set_exception fib x s
  | FuGet timeout => fu_get t fib now timeout p s
  end.

Definition fu_machine : machine future fu_op fu_pc fu_ret := Machine (λ _, FuStart) fu_block.

Abbreviation fu_ctl := (ctl fu_op fu_pc fu_ret).
Abbreviation fu_world := (world future fu_op fu_pc fu_ret).

(** ** Invariant *)

Definition fu_ok (s : future) : Prop := fu_done s = true -> fu_waiters s = [].

(** Queued and not looked at the flag since. *)
Definition fu_waiting (c : fu_ctl) : bool :=
  match c with
  | At (FuGet _) (FuPark _ | FuExpire _ | FuCheck _) | Parked (FuGet _) _ (FuCheck _) => true
  | _ => false
  end.

Definition fu_local (s : future) (t : tid) (c : fu_ctl) : Prop :=
  (fu_waiting c = true -> fu_done s = true \/ t ∈ fu_waiters s) /\
  match c with
  | Parked o dl p => (exists to, o = FuGet to) /\ p = FuCheck dl
  | Sleeping o _ p => (exists to, o = FuGet to) /\ exists dl, p = FuForeign dl
  | Waking o _ r => ~ (exists to, o = FuGet to)
  | Fin (FuGet _) r => r = fu_timeout \/ (fu_done s = true /\ r = fu_outcome s)
  | _ => True
  end.

(** Resolved, and parked or about to park without another look. *)
Definition fu_ready (s : future) (t : tid) (c : fu_ctl) : bool :=
  match c with
  | At (FuGet _) (FuPark _) | Parked (FuGet _) _ (FuCheck _) => fu_done s
  | _ => false
  end.

#[export] Instance fu_quiet may : quiet_moves fu_machine may fu_ok fu_local (λ _, 0).
Proof.
  split; simpl; try done.
  - intros s t c o Hr _ _ _. split; [|done]. by destruct o.
  - intros s t o dl p (H1 & [to ->] & ->). by split.
  - intros s t o u p (H1 & [to ->] & [dl ->]). by split.
  - intros s t o r (_ & Hn). split; [|done]. split; [done|]. destruct o; try done. destruct Hn. eauto.
Qed.

(** How a block changes the object: it resolves it and wakes every waiter, or
    it leaves the outcome alone and only moves its own handle. *)
Inductive fu_change (t : tid) (s s' : future) (a : fu_act) : Prop :=
  | fu_ch_resolve : fu_done s = false -> fu_done s' = true -> fu_waiters s' = [] ->
      a = AWake (fu_waiters s) (Ret FuUnit) -> fu_change t s s' a
  | fu_ch_keep : fu_done s' = fu_done s -> fu_outcome s' = fu_outcome s ->
      (forall t', t' ≠ t -> t' ∈ fu_waiters s' <-> t' ∈ fu_waiters s) ->
      (forall l r, a ≠ AWake l r) -> fu_change t s s' a.

Lemma fu_resolve_change t fib v e s s' a : fu_resolve fib v e s = (s', a) -> fu_change t s s' a.
Proof.
  unfold fu_resolve. intros H. repeat case_match; simplify_eq; [by apply fu_ch_keep..|by apply fu_ch_resolve].
Qed.

Lemma fu_block_change t fib now o p s s' a : fu_block t fib now o p s = (s', a) -> fu_change t s s' a.
Proof.
  intros H. destruct o as [|v|x|to]; simpl in H.
  - simplify_eq. by apply fu_ch_keep.
  - by eapply fu_resolve_change.
  - unfold fu_set_exception in H. repeat case_match; try by eapply fu_resolve_change.
    simplify_eq. by apply fu_ch_keep.
  - destruct p; simpl in H; repeat case_match; simplify_eq; apply fu_ch_keep; simpl; try done.
    + intros t' Ht. rewrite elem_of_app, list_elem_of_singleton. naive_solver.
    + intros t' Ht. by apply elem_of_try_remove_ne.
    + intros t' Ht. by apply elem_of_try_remove_ne.
Qed.

(** The others keep their assertions. *)
Lemma fu_change_local t s s' a t' c :
  fu_change t s s' a -> t' ≠ t -> fu_local s t' c -> fu_local s' t' c.
Proof.
  intros [Hd Hd' Hw Ha|Hd Ho Hw Ha] Hne [H1 H2]; split.
  - by left.
  - destruct c as [| | | | |[] r]; try done. destruct H2 as [?|[? _]]; [by left|congruence].
  - intros Hc. rewrite Hd, (Hw t' Hne). auto.
  - destruct c as [| | | | |[] r]; try done. by rewrite Hd, Ho.
Qed.

(** The block's own assertion. *)
Lemma fu_block_local t fib now o p s s' a : fu_ok s -> fu_local s t (At o p) ->
  fu_block t fib now o p s = (s', a) -> fu_ok s' /\ fu_local s' t (act_ctl o a).
Proof.
  intros Hok [H1 _] H. destruct o as [|v|x|to]; simpl in H.
  - by simplify_eq.
  - unfold fu_set_result, fu_resolve in H. repeat case_match; simplify_eq; unfold fu_ok, fu_local; simpl;
      split_and!; try done; by intros [].
  - unfold fu_set_exception, fu_resolve in H.
    repeat case_match; simplify_eq; unfold fu_ok, fu_local; simpl;
      split_and!; try done; by intros [].
  - destruct p; simpl in H, H1; repeat case_match; simplify_eq; unfold fu_ok, fu_local in *; simpl in *;
      split_and!; try done; try congruence; eauto.
    + intros _. right. apply elem_of_app. right. by apply list_elem_of_singleton.
    + intros _. by rewrite Hok.
    + intros _. right. by destruct H1.
Qed.

Lemma fu_blocks isf : blocks_ok fu_machine isf fu_ok fu_local (λ _, 0) (λ _, 0).
Proof.
  intros t now o p s s' a Hok Hl Hb. simpl in Hb.
  destruct (fu_block_local _ _ _ _ _ _ _ _ Hok Hl Hb). split_and!; try done.
  intros t' c Hne. eapply fu_change_local; [by eapply fu_block_change|done].
Qed.

#[export] Instance fu_wakes isf : wakes_ok fu_machine isf fu_ok fu_local fu_ready.
Proof.
  split; simpl; try done.
  - by intros s t [].
  - intros s t o dl p (_ & [to ->] & ->). done.
  - intros s t o u p (_ & [to ->] & [dl ->]). done.
  - intros t now o p s s' a Hok _ Hb Hr. destruct o as [|v|x|to]; simpl in Hb.
    + by simplify_eq.
    + unfold fu_set_result, fu_resolve in Hb. repeat case_match; by simplify_eq.
    + unfold fu_set_exception, fu_resolve in Hb. repeat case_match; by simplify_eq.
    + destruct p; simpl in Hb; repeat case_match; simplify_eq; simpl in *; congruence.
  - intros t now o p s s' a t' c' Hok _ Hb Hne [H1 _] Hf Hr. simpl in Hb.
    apply fu_block_change in Hb as [Hd Hd' Hw ->|Hd _ _ _].
    + eexists _, _. split; [done|].
      destruct c' as [|[] []|[] ? []| | |]; try done; destruct H1; try done; congruence.
    + destruct c' as [|[] []|[] ? []| | |]; try done; simpl in *; congruence.
Qed.

Lemma fu_any_inv isf may w : reach fu_machine isf may fu_new w ->
  og_inv fu_ok fu_local (λ _, 0) (λ _, 0) w /\ woken_inv fu_ready w.
Proof.
  apply (inv_reach _ isf may _ _ _ _ _ fu_new); try done; [apply fu_blocks|apply fu_wakes].
Qed.

(** One outcome for everyone: in every interleaving, a [result()] call that
    does not time out has found the future resolved and returns or raises exactly
    the stored outcome, so all callers agree. *)
Theorem future_single_outcome isf may w t timeout r :
  reach fu_machine isf may fu_new w -> ctl_of w t = Fin (FuGet timeout) r ->
  r = fu_timeout \/ (fu_done (w_obj w) = true /\ r = fu_outcome (w_obj w)).
Proof.
  intros Hr Hc. destruct (fu_any_inv isf may w Hr) as [(_ & HL & _) _].
  pose proof (HL t) as [_ Hl]. by rewrite Hc in Hl.
Qed.

(** No awaiter is stranded: once no thread can step, a fiber still parked in
    [result()] is queued on an unresolved future and has not passed its
    deadline. *)
Theorem future_no_stranded_awaiter isf may w t o dl p :
  reach fu_machine isf may fu_new w -> quiescent fu_machine isf may w ->
  ctl_of w t = Parked o dl p ->
  fu_done (w_obj w) = false /\ t ∈ fu_waiters (w_obj w) /\ due dl (w_now w) = false.
Proof.
  intros Hr Hq Hp. destruct (fu_any_inv isf may w Hr) as [(_ & HL & _) Hw].
  destruct (quiescent_not_ready _ _ _ _ w t o dl p Hw Hq Hp) as [Hf Hd].
  pose proof (HL t) as Hl. rewrite Hp in Hl. destruct Hl as (H1 & [to ->] & ->). simpl in Hf.
  split_and!; [done| |done]. destruct H1; [done|congruence|done].
Qed.

(** A future is resolved at most once: a second [set_result] or
    [set_exception] raises and changes nothing, so a stored outcome is final under
    every operation of every thread. *)
Theorem future_outcome_final t fib now o p s s' a :
  fu_done s = true -> fu_block t fib now o p s = (s', a) ->
  fu_done s' = true /\ fu_outcome s' = fu_outcome s /\
  (forall v, o = FuSetResult v -> s' = s /\ exists e, a = AReturn (Exc e)).
Proof.
  intros Hd Hb. split_and!.
  - apply fu_block_change in Hb as [?|He]; congruence.
  - apply fu_block_change in Hb as [?|He]; congruence.
  - intros v ->. simpl in Hb. unfold fu_set_result, fu_resolve in Hb. rewrite Hd in Hb.
    repeat case_match; simplify_eq; eauto.
Qed.

(** ** Witnesses *)

(** Fiber 1 awaits; fiber 2 resolves with 5; fiber 1 resumes. *)
Definition fu_demo (tail : list (event fu_op)) : fu_world := after fu_machine (λ _, true) any_call fu_new
  ([ECall 1 (FuGet None); EStep 1; EStep 1] ++ tail).
Definition fu_demo_resolve : list (event fu_op) :=
  [ECall 2 (FuSetResult (Some 5)%nat); EStep 2; EStep 2; EStep 2; EStep 1; EStep 1].

Lemma future_single_outcome_witness :
  Ret (FuValue (Some 5%nat)) = fu_timeout \/
  (fu_done (w_obj (fu_demo fu_demo_resolve)) = true /\
   Ret (FuValue (Some 5%nat)) = fu_outcome (w_obj (fu_demo fu_demo_resolve))).
Proof.
  apply (future_single_outcome (λ _, true) any_call _ 1 None); [apply after_reach|vm_compute; reflexivity].
Defined.

Lemma future_no_stranded_awaiter_witness :
  fu_done (w_obj (fu_demo [])) = false /\ 1%nat ∈ fu_waiters (w_obj (fu_demo [])) /\
  due None (w_now (fu_demo [])) = false.
Proof.
  apply (future_no_stranded_awaiter (λ _, true) any_call (fu_demo []) 1 (FuGet None) None (FuCheck None));
    [apply after_reach|apply quiescentb_sound; vm_compute; reflexivity|vm_compute; reflexivity].
Defined.

Lemma future_outcome_final_witness :
  let s := Future true (Some 5%nat) None [] in
  fu_done s = true /\ fu_outcome s = fu_outcome s /\
  (forall v, FuSetResult (Some 6%nat) = FuSetResult v -> s = s /\
     exists e, AReturn (Exc (RuntimeError "Future already resolved")) = AReturn (Exc e) :> fu_act).
Proof.
  intros s. apply (future_outcome_final 1 true 0 (FuSetResult (Some 6%nat)) FuStart s s); reflexivity.
Defined.
