(* ===== verification/Once.v ===== *)
(** * Once, once_value and once_func

    Models [class Once] and the functions [once_value] and [once_func] of
    [src/src/stackweave/sync.py].  The user's callable is an effect: running it
    appends the executor to [on_log], and how it ends is given with the call. *)
From S2P Require Import Prelude Fibers.
Local Open Scope Z_scope.

Abbreviation val := nat.

Record once := Once {
  on_done : bool;
  on_running : bool;
  on_waiters : list tid;
  on_box : option (out (option val));   (** [box] of [once_value]: ["v"] or ["e"] *)
  on_log : list tid;                    (** who ran the callable, in order *)
  on_exec : option tid                  (** ghost: the fiber inside the [try]/[finally] *)
}.
Definition on_new : once := Once false false [] None [] None.

(** [once.done()], [once.do(fn)], a call of [once_value(fn)], a call of
    [once_func(fn)]; [r] is how [fn] ends if this call is the one that runs it. *)
Inductive on_op := OnIsDone | OnDo (r : out (option val)) | OnValue (r : out (option val)) | OnFunc (r : out (option val)).
Inductive on_pc := OnStart | OnForeign (dl : option Z) | OnForeign2 (dl : option Z)
  | OnRun | OnFinish | OnWait | OnRead.
Inductive on_ret := OnBool (b : bool) | OnNone | OnVal (v : option val).

Abbreviation on_act := (action on_pc on_ret).

(** [if "e" in box: raise box["e"]; return box.get("v")]. *)
Definition on_unbox (s : once) : out on_ret :=
  match on_box s with Some (Exc e) => Exc e | Some (Ret v) => Ret (OnVal v) | None => Ret (OnVal None) end.

(** What a caller returns once [once.do] has returned to it. *)
Definition on_after (o : on_op) (s : once) : out on_ret :=
  match o with
  | OnValue _ => on_unbox s
  | OnFunc _ => match on_unbox s with Exc e => Exc e | Ret _ => Ret OnNone end
  | _ => Ret OnNone
  end.

(** How the executor's [once.do(run)] ends: [do(fn)] lets [fn]'s exception out,
    [once_value]'s [run] stores it. *)
Definition on_exec_end (o : on_op) (s : once) : out on_ret :=
  match o with OnDo (Exc e) => Exc e | _ => on_after o s end.

(** Running the callable. *)
Definition on_call (t : tid) (o : on_op) (s : once) : once :=
  let box := match o with OnValue r | OnFunc r => Some r | _ => on_box s end in
  Once (on_done s) (on_running s) (on_waiters s) box (on_log s ++ [t]) (on_exec s).

Definition on_enqueue (t : tid) (s : once) : once * on_act :=
  (Once (on_done s) (on_running s) (on_waiters s ++ [t]) (on_box s) (on_log s) (on_exec s), APark None OnWait).

Definition on_first : pyexc :=
  RuntimeError "Once.do() first call must be from a fiber, not a foreign OS thread".

(** [Once.do] block by block. *)
Definition on_do (t : tid) (fib : bool) (now : Z) (o : on_op) (p : on_pc) (s : once) : once * on_act :=
  match p with
  | OnStart =>
      if negb fib then (s, AGoto (OnForeign None))
      else if on_done s then (s, AGoto OnRead)
      else if negb (on_running s)
      then (Once (on_done s) true (on_waiters s) (on_box s) (on_log s) (Some t), AGoto OnRun)
      else on_enqueue t s
  | OnForeign dl => if on_done s then (s, AGoto OnRead) else (s, AGoto (OnForeign2 dl))
  | OnForeign2 dl =>
      if on_running s then (s, ASleep (now + 500) (OnForeign None))
      else match dl with
           | None => (s, ASleep (now + 500) (OnForeign (Some (now + 1000000))))
           | Some d => if d <=? now then (s, AReturn (Exc on_first))
                       else (s, ASleep (now + 500) (OnForeign dl))
           end
  | OnRun => (on_call t o s, AGoto OnFinish)
  | OnFinish =>
      (Once true false [] (on_box s) (on_log s) None, AWake (on_waiters s) (on_exec_end o s))
  | OnWait => if on_done s then (s, AGoto OnRead) else on_enqueue t s
  | OnRead => (s, AReturn (on_after o s))
  end.

Definition on_block (t : tid) (fib : bool) (now : Z) (o : on_op) (p : on_pc) (s : once) : once * on_act :=
  match o with
  | OnIsDone => (s, AReturn (Ret (OnBool (on_done s))))
  | _ => on_do t fib now o p s
  end.

Definition once_machine : machine once on_op on_pc on_ret := Machine (λ _, OnStart) on_block.

Abbreviation on_ctl := (ctl on_op on_pc on_ret).
Abbreviation on_world := (world once on_op on_pc on_ret).

(** The callers of one [once_value]/[once_func] closure, or of one bare [Once]. *)
Definition on_closure (t : tid) (c : on_ctl) (o : on_op) : bool :=
  match o with OnDo _ => false | _ => true end.

(** ** Invariant *)

Record on_ok (s : once) : Prop := {
  ono_running : on_running s = true <-> is_Some (on_exec s);
  ono_done : on_done s = true ->
    on_running s = false /\ on_waiters s = [] /\ length (on_log s) = 1%nat;
  ono_fresh : on_done s = false -> on_running s = false -> on_waiters s = [] /\ on_log s = []
}.

Definition on_execp (c : on_ctl) : bool :=
  match c with At _ (OnRun | OnFinish) => true | _ => false end.

(** A [once_value]/[once_func] caller reports what the box holds. *)
Definition on_agrees (o : on_op) (r : out on_ret) (s : once) : Prop :=
  match o with OnValue _ | OnFunc _ => r = on_after o s | _ => True end.

Definition on_local (isf : tid -> bool) (s : once) (t : tid) (c : on_ctl) : Prop :=
  (on_execp c = true <-> on_exec s = Some t) /\
  match c with
  | At o p => (o = OnIsDone -> p = OnStart) /\
      match p with
      | OnRun => on_done s = false /\ on_log s = []
      | OnFinish => on_done s = false /\ length (on_log s) = 1%nat
      | OnRead => on_done s = true
      | OnForeign _ | OnForeign2 _ => isf t = false
      | OnWait => on_done s = true \/ on_running s = true
      | _ => True
      end
  | Parked o dl p => o ≠ OnIsDone /\ p = OnWait /\ dl = None /\ (on_done s = true \/ t ∈ on_waiters s) /\
      (on_done s = true \/ on_running s = true)
  | Sleeping o _ p => o ≠ OnIsDone /\ isf t = false /\ exists dl, p = OnForeign dl
  | Waking o _ r => o ≠ OnIsDone /\ on_done s = true /\ on_agrees o r s
  | Fin OnIsDone _ => True
  | Fin o r => (r = Exc on_first /\ isf t = false) \/ (on_done s = true /\ on_agrees o r s)
  | Idle => True
  end.

Definition on_ready (s : once) (t : tid) (c : on_ctl) : bool :=
  match c with Parked _ _ OnWait => on_done s | _ => false end.

#[export] Instance on_quiet isf may : quiet_moves once_machine may on_ok (on_local isf) (λ _, 0).
Proof.
  split; simpl; try done.
  - intros s t c o Hr _ _ [H _]. split; [|done]. split; [|done]. by destruct c.
  - intros s t o dl p (H & Ho & -> & -> & _ & Hp). split; [|done]. by split.
  - intros s t o u p (H & Ho & Hf & [dl ->]). split; [|done]. by split.
  - intros s t o r (H & Ho & Hd). split; [|done]. split; [done|]. destruct o; auto.
Qed.

Lemma on_agrees_box o r s s' : on_box s' = on_box s -> on_agrees o r s -> on_agrees o r s'.
Proof. intros Hb. destruct o; simpl; try done; unfold on_unbox; by rewrite Hb. Qed.

(** What a block does for the others: the flags only move forward, only the
    executor moves them, and the handles of the others stay queued until it
    takes and wakes them all. *)
Inductive on_change (t : tid) (s s' : once) (a : on_act) : Prop :=
  | on_ch_keep : on_done s' = on_done s -> on_log s' = on_log s -> on_box s' = on_box s ->
      (on_running s = true -> on_running s' = true) ->
      (on_exec s' = on_exec s \/ (on_exec s = None /\ on_exec s' = Some t)) ->
      (forall t', t' ∈ on_waiters s -> t' ∈ on_waiters s') -> on_change t s s' a
  | on_ch_exec : on_exec s = Some t -> on_done s = false ->
      (on_running s = true -> on_done s' = true \/ on_running s' = true) ->
      (on_exec s' = Some t \/ (on_exec s' = None /\ on_done s' = true)) ->
      (on_done s' = true -> exists r, a = AWake (on_waiters s) r) ->
      (forall t', t' ∈ on_waiters s -> on_done s' = true \/ t' ∈ on_waiters s') -> on_change t s s' a.

Lemma on_enqueue_change t s s' a : on_enqueue t s = (s', a) -> on_change t s s' a.
Proof.
  unfold on_enqueue. intros H; simplify_eq. apply on_ch_keep; simpl; auto.
  intros t' ?. apply elem_of_app. by left.
Qed.

Lemma on_change_local isf t s s' a t' c : on_ok s ->
  on_change t s s' a -> t' ≠ t -> on_local isf s t' c -> on_local isf s' t' c.
Proof.
  intros Hok [Hd Hl Hbx Hrn He Hw|He Hnd Hrn He' _ Hw] Hne [H1 H2].
  - split.
    + rewrite H1. destruct He as [->|[-> ->]]; [done|]. split; [done|]. intros; simplify_eq.
    + destruct c as [|o []|o dl p|o u p|o l r|[] r]; rewrite ?Hd, ?Hl; try done;
        try (destruct H2 as [?|[? ?]]; [by left|right; split; [done|by eapply on_agrees_box]]).
      * destruct H2 as [? [?|?]]; split_and!; auto.
      * destruct H2 as (? & ? & ? & [?|?] & [?|?]); split_and!; auto.
      * destruct H2 as (? & ? & ?). split_and!; [done..|by eapply on_agrees_box].
  - split.
    + rewrite H1, He. destruct He' as [->|[-> _]]; [done|]. split; intros; simplify_eq.
    + assert (on_execp c = false) as Hx.
      { destruct (on_execp c); [|done]. destruct H1 as [H1 _]. specialize (H1 eq_refl). congruence. }
      destruct c as [|o []|o dl p|o u p|o l r|[] r]; try done; try (rewrite Hnd in H2; naive_solver).
Qed.

(** A caller that takes nothing and keeps the object. *)
Lemma on_same isf t o p s (a : on_act) : on_ok s -> on_local isf s t (At o p) ->
  on_execp (At o p) = false -> on_local isf s t (act_ctl o a) ->
  on_ok s /\ on_local isf s t (act_ctl o a) /\ on_change t s s a.
Proof. intros. split_and!; [done..|]. apply on_ch_keep; auto. Qed.

Lemma on_push_ok isf t o p s s' a : o ≠ OnIsDone -> on_ok s -> on_local isf s t (At o p) ->
  on_execp (At o p) = false -> on_done s = false -> on_running s = true ->
  on_enqueue t s = (s', a) -> on_ok s' /\ on_local isf s' t (act_ctl o a) /\ on_change t s s' a.
Proof.
  intros Ho [Hr Hd Hf] [H1 _] Hx Hnd Hrun H. pose proof (on_enqueue_change _ _ _ _ H).
  unfold on_enqueue in H. simplify_eq. split; [split; simpl; congruence || done|split; [|done]].
  split; [by rewrite <- H1, Hx|]. split_and!; simpl; try done; [|by right].
  right. apply elem_of_app. right. by apply list_elem_of_singleton.
Qed.

Lemma on_do_ok isf t now o p s s' a : o ≠ OnIsDone -> on_ok s -> on_local isf s t (At o p) ->
  on_do t (isf t) now o p s = (s', a) ->
  on_ok s' /\ on_local isf s' t (act_ctl o a) /\ on_change t s s' a.
Proof.
  intros Ho Hok Hl H. pose proof Hok as [Hr Hd Hf]. pose proof Hl as [H1 [_ H2]].
  destruct p as [|dl|dl| | | |]; simpl in H, H1, H2.
  - destruct (isf t) eqn:Ei; simpl in H.
    2:{ simplify_eq. by apply (on_same _ _ _ OnStart). }
    destruct (on_done s) eqn:Ed; [simplify_eq; by apply (on_same _ _ _ OnStart)|].
    destruct (on_running s) eqn:Er; simpl in H; [by eapply (on_push_ok _ _ _ OnStart)|].
    simplify_eq. assert (on_exec s = None) as Hx by (destruct (on_exec s); [destruct Hr; naive_solver|done]).
    destruct (Hf eq_refl eq_refl) as [Hw Hlog]. split; [|split].
    + split; simpl; try done.
    + by split_and!.
    + apply on_ch_keep; auto.
  - destruct (on_done s) eqn:Ed; simplify_eq; by apply (on_same _ _ _ (OnForeign dl)).
  - repeat case_match; simplify_eq; eapply on_same; try exact Hl; try done;
      split_and!; simpl; eauto. destruct o; auto.
  - simplify_eq. destruct H2 as [Hnd Hlog]. assert (on_exec s = Some t) as Hx by by apply H1.
    assert (on_running s = true) as Hrun by (apply Hr; by rewrite Hx).
    split; [|split].
    + split; simpl; congruence || done.
    + split; [done|]. simpl. by rewrite Hlog.
    + apply on_ch_exec; simpl; auto; congruence.
  - simplify_eq. destruct H2 as [Hnd Hlog]. assert (on_exec s = Some t) as Hx by by apply H1.
    split; [|split].
    + split; simpl; try done.
    + split_and!; try done. by destruct o.
    + apply on_ch_exec; simpl; eauto.
  - destruct (on_done s) eqn:Ed; [simplify_eq; by apply (on_same _ _ _ OnWait)|].
    destruct (on_running s) eqn:Er; [by eapply (on_push_ok _ _ _ OnWait)|].
    by destruct H2.
  - simplify_eq. apply (on_same _ _ _ OnRead); try done. split; [done|]. destruct o; [done|by right..].
Qed.

Lemma on_block_ok isf t now o p s s' a : on_ok s -> on_local isf s t (At o p) ->
  on_block t (isf t) now o p s = (s', a) ->
  on_ok s' /\ on_local isf s' t (act_ctl o a) /\ on_change t s s' a.
Proof.
  intros Hok Hl Hb. destruct o; try by eapply on_do_ok. simpl in Hb. simplify_eq.
  pose proof Hl as (H1 & Hp & _). specialize (Hp eq_refl). subst p. by apply (on_same _ _ _ OnStart).
Qed.

Lemma on_blocks isf : blocks_ok once_machine isf on_ok (on_local isf) (λ _, 0) (λ _, 0).
Proof.
  intros t now o p s s' a Hok Hl Hb. destruct (on_block_ok _ _ _ _ _ _ _ _ Hok Hl Hb) as (? & ? & ?).
  split_and!; try done. intros t' c. by eapply on_change_local.
Qed.

#[export] Instance on_wakes isf : wakes_ok once_machine isf on_ok (on_local isf) on_ready.
Proof.
  split; simpl; try done.
  - intros t now o p s s' a Hok Hl Hb Hr. destruct o; [by simpl in Hb; simplify_eq|..];
      destruct p; simpl in Hb; unfold on_enqueue in Hb; repeat case_match; simplify_eq; simpl in *; congruence.
  - intros t now o p s s' a t' c' Hok Hl Hb Hne (_ & Hc) Hf Hr.
    destruct (on_block_ok _ _ _ _ _ _ _ _ Hok Hl Hb) as (_ & _ & [Hd _ _ _ _ _|_ _ _ _ Hwk _]).
    + destruct c' as [| |? ? []| | |]; try done. simpl in *. congruence.
    + destruct c' as [| |? ? []| | |]; try done. simpl in *. destruct (Hwk Hr) as [r ->].
      eexists _, _. split; [done|]. destruct Hc as (_ & _ & _ & [?|?] & _); [congruence|done].
Qed.

Lemma on_any_inv isf may w : reach once_machine isf may on_new w ->
  og_inv on_ok (on_local isf) (λ _, 0) (λ _, 0) w /\ woken_inv on_ready w.
Proof.
  apply (inv_reach _ isf may _ _ _ _ _ on_new); try done; [|apply on_blocks|apply on_wakes].
  by split; simpl.
Qed.

(** Exactly once: in every interleaving the callable has run at most once,
    and whenever a [do()] by a fiber has ended (with a value or an exception) it has
    run exactly once and is finished. *)
Theorem once_runs_exactly_once isf may w :
  reach once_machine isf may on_new w ->
  (length (on_log (w_obj w)) <= 1)%nat /\
  forall t o r, isf t = true -> o ≠ OnIsDone -> ctl_of w t = Fin o r ->
    on_done (w_obj w) = true /\ length (on_log (w_obj w)) = 1%nat.
Proof.
  intros Hr. destruct (on_any_inv isf may w Hr) as [([Hrun Hd Hf] & HL & _) _]. split.
  - destruct (on_done (w_obj w)) eqn:Ed; [destruct (Hd eq_refl) as (_ & _ & ->); lia|].
    destruct (on_running (w_obj w)) eqn:Er; [|destruct (Hf eq_refl eq_refl) as [_ ->]; simpl; lia].
    destruct (proj1 Hrun eq_refl) as [t Ht]. destruct (HL t) as [H1 H2]. apply H1 in Ht.
    destruct (ctl_of w t) as [|o []| | | |]; try done; simpl in H2; destruct H2 as (_ & _ & Hl);
      [rewrite Hl; simpl|]; lia.
  - intros t o r Hi Ho Hc. pose proof (HL t) as [_ H2]. rewrite Hc in H2.
    assert (on_done (w_obj w) = true) as Hdn by (destruct o; [done|..]; destruct H2 as [[_ ?]|[? _]]; congruence).
    split; [done|]. by destruct (Hd Hdn) as (_ & _ & ->).
Qed.

(** Nobody is left waiting: once no thread can step, no caller of [do()] is
    parked at all (the callable's executor has finished and has woken them). *)
Theorem once_nobody_left_parked isf may w t o dl p :
  reach once_machine isf may on_new w -> quiescent once_machine isf may w ->
  ctl_of w t ≠ Parked o dl p.
Proof.
  intros Hr Hq Hp. destruct (on_any_inv isf may w Hr) as [([Hrun Hd Hf] & HL & _) Hw].
  destruct (quiescent_not_ready _ _ _ _ w t o dl p Hw Hq Hp) as [Hnd _].
  pose proof (HL t) as [_ H2]. rewrite Hp in H2. destruct H2 as (_ & -> & _ & _ & H2). simpl in Hnd.
  destruct H2 as [?|H2]; [congruence|]. apply Hrun in H2 as [t' Ht'].
  destruct (HL t') as [H1 _]. apply H1 in Ht'.
  destruct (quiescent_cases _ _ _ w t' Hq) as [H|[(?&?&?&H)|(?&?&?&H&_)]].
  - by destruct (ctl_of w t') as [|? []| | | |].
  - by rewrite H in Ht'.
  - by rewrite H in Ht'.
Qed.

(** [once_value] and [once_func] give every caller the same outcome: in every
    interleaving of their callers, a call by a fiber that has ended reports exactly
    the value or exception the single run stored. *)
Theorem once_value_shared isf may w t r0 r :
  reach once_machine isf may on_new w -> isf t = true ->
  (ctl_of w t = Fin (OnValue r0) r -> on_done (w_obj w) = true /\ r = on_unbox (w_obj w)) /\
  (ctl_of w t = Fin (OnFunc r0) r -> on_done (w_obj w) = true /\
     match on_unbox (w_obj w) with Exc e => r = Exc e | Ret _ => r = Ret OnNone end).
Proof.
  intros Hr Hi. destruct (on_any_inv isf may w Hr) as [(_ & HL & _) _]. pose proof (HL t) as [_ H2].
  split; intros Hc; rewrite Hc in H2; destruct H2 as [[_ ?]|[Hd Ha]]; try congruence; split; try done.
  simpl in Ha. by destruct (on_unbox (w_obj w)).
Qed.

(** ** Witnesses *)

(** Fiber 1 runs the callable, which raises; fiber 2 waits and shares it. *)
Definition on_demo : list (event on_op) :=
  [ECall 1 (OnValue (Exc (UserExc 9))); EStep 1; ECall 2 (OnValue (Ret None)); EStep 2;
   EStep 1; EStep 1; EStep 1; EStep 1; EStep 2; EStep 2; EStep 2].
Definition on_demo_world : on_world := after once_machine (λ _, true) on_closure on_new on_demo.

Lemma once_runs_exactly_once_witness :
  (length (on_log (w_obj on_demo_world)) <= 1)%nat /\
  forall t o r, true = true -> o ≠ OnIsDone -> ctl_of on_demo_world t = Fin o r ->
    on_done (w_obj on_demo_world) = true /\ length (on_log (w_obj on_demo_world)) = 1%nat.
Proof. apply (once_runs_exactly_once (λ _, true) on_closure on_demo_world), after_reach. Defined.

Lemma once_nobody_left_parked_witness :
  ctl_of on_demo_world 2%nat ≠ Parked (OnValue (Ret None)) None OnWait.
Proof.
  apply (once_nobody_left_parked (λ _, true) on_closure on_demo_world 2);
    [apply after_reach|apply quiescentb_sound; vm_compute; reflexivity].
Defined.

Lemma once_value_shared_witness :
  (ctl_of on_demo_world 2%nat = Fin (OnValue (Ret None)) (Exc (UserExc 9)) ->
     on_done (w_obj on_demo_world) = true /\ Exc (UserExc 9) = on_unbox (w_obj on_demo_world)) /\
  ctl_of on_demo_world 2%nat = Fin (OnValue (Ret None)) (Exc (UserExc 9)).
Proof.
  split; [|vm_compute; reflexivity].
  apply (once_value_shared (λ _, true) on_closure on_demo_world 2); [apply after_reach|reflexivity].
Defined.
