(* ===== verification/Watch.v ===== *)
(** * Watch: a latest-value cell with change notification

    Models [class Watch] of [src/src/stackweave/sync.py].  [wait_changed] queues
    the caller once and parks until the version exceeds the one it has seen;
    [set] bumps the version, takes the whole queue and wakes it.  The guarded
    sections are atomic blocks, so the foreign poller's [try_lock] succeeds. *)
From S2P Require Import Prelude Fibers.
Local Open Scope Z_scope.

Abbreviation val := nat.

Record watch := Watch { wa_value : option val; wa_version : Z; wa_waiters : list tid }.
Definition wa_new (v : option val) : watch := Watch v 0 [].

Inductive wa_op := WaGet | WaVersion | WaGetVersioned | WaSet (v : option val)
  | WaWait (seen : Z) (timeout : option Z).
Inductive wa_pc := WaStart | WaForeign (dl : option Z) | WaPark (dl : option Z)
  | WaExpire (dl : option Z) | WaCheck (dl : option Z).
Inductive wa_ret := WaVal (v : option val) | WaVer (n : Z) | WaPair (v : option val) (n : Z) | WaNone.

Abbreviation wa_act := (action wa_pc wa_ret).

Definition wa_get (s : watch) : out wa_ret := Ret (WaVal (wa_value s)).
Definition wa_get_version (s : watch) : out wa_ret := Ret (WaVer (wa_version s)).
Definition wa_get_versioned (s : watch) : out wa_ret := Ret (WaPair (wa_value s) (wa_version s)).

Definition wa_set (fib : bool) (v : option val) (s : watch) : watch * wa_act :=
  if negb fib then (s, AReturn (Exc (foreign_error "Watch.set()")))
  else (Watch v (wa_version s + 1) [], AWake (wa_waiters s) (Ret WaNone)).

Definition wa_dequeue (t : tid) (s : watch) : watch :=
  Watch (wa_value s) (wa_version s) (try_remove t (wa_waiters s)).

(** [wait_changed(seen, timeout)] block by block. *)
Definition wa_wait (t : tid) (fib : bool) (now : Z) (seen : Z) (timeout : option Z) (p : wa_pc) (s : watch)
  : watch * wa_act :=
  match p with
  | WaStart =>
      let dl := (λ d, now + d) <$> timeout in
      if negb fib then (s, AGoto (WaForeign dl))
      else if seen <? wa_version s then (s, AReturn (wa_get_versioned s))
      else (Watch (wa_value s) (wa_version s) (wa_waiters s ++ [t]), AGoto (WaPark dl))
  | WaForeign dl =>
      if seen <? wa_version s then (s, AReturn (wa_get_versioned s))
      else if due dl now then (s, AReturn (Ret WaNone))
      else (s, ASleep (now + 500) (WaForeign dl))
  | WaPark dl => if due dl now then (s, AGoto (WaExpire dl)) else (s, APark dl (WaCheck dl))
  | WaExpire dl =>
      (wa_dequeue t s, AReturn (if seen <? wa_version s then wa_get_versioned s else Ret WaNone))
  | WaCheck dl =>
      if seen <? wa_version s then (wa_dequeue t s, AReturn (wa_get_versioned s))
      else (s, AGoto (WaPark dl))
  end.

Definition wa_block (t : tid) (fib : bool) (now : Z) (o : wa_op) (p : wa_pc) (s : watch) : watch * wa_act :=
  match o with
  | WaGet => (s, AReturn (wa_get s))
  | WaVersion => (s, AReturn (wa_get_version s))
  | WaGetVersioned => (s, AReturn (wa_get_versioned s))
  | WaSet v => wa_set fib v s
  | WaWait seen timeout => wa_wait t fib now seen timeout p s
  end.

Definition wa_machine : machine watch wa_op wa_pc wa_ret := Machine (λ _, WaStart) wa_block.

Abbreviation wa_ctl := (ctl wa_op wa_pc wa_ret).
Abbreviation wa_world := (world watch wa_op wa_pc wa_ret).

(** The version a caller has last been told, and the callers that pass no later
    one to [wait_changed]. *)
Definition wa_known (c : wa_ctl) : Z :=
  match c with
  | Fin _ (Ret (WaPair _ n)) | Fin _ (Ret (WaVer n)) => n
  | Fin (WaWait seen _) _ => seen
  | _ => 0
  end.
Definition wa_client (t : tid) (c : wa_ctl) (o : wa_op) : bool :=
  match o with WaWait seen _ => seen <=? wa_known c | _ => true end.

(** ** Invariant *)

Definition wa_ok (s : watch) : Prop := 0 <= wa_version s.

Definition wa_seen (c : wa_ctl) : option Z :=
  match c with
  | At (WaWait n _) _ | Parked (WaWait n _) _ _ | Sleeping (WaWait n _) _ _ => Some n
  | _ => None
  end.

(** Queued, and not looked at the version since. *)
Definition wa_waiting (c : wa_ctl) : bool :=
  match c with
  | At (WaWait _ _) (WaPark _ | WaExpire _ | WaCheck _) | Parked (WaWait _ _) _ (WaCheck _) => true
  | _ => false
  end.

Definition wa_local (s : watch) (t : tid) (c : wa_ctl) : Prop :=
  wa_known c <= wa_version s /\
  (forall n, wa_seen c = Some n -> n <= wa_version s /\
     (wa_waiting c = true -> n < wa_version s \/ t ∈ wa_waiters s)) /\
  match c with
  | Parked o dl p => (exists n to, o = WaWait n to) /\ p = WaCheck dl
  | Sleeping o _ p => (exists n to, o = WaWait n to) /\ exists dl, p = WaForeign dl
  | Waking o _ r => (exists v, o = WaSet v) /\ r = Ret WaNone
  | Fin (WaWait seen _) (Ret (WaPair _ n)) => seen < n
  | _ => True
  end.

Definition wa_ready (s : watch) (t : tid) (c : wa_ctl) : bool :=
  match c with
  | At (WaWait n _) (WaPark _) | Parked (WaWait n _) _ (WaCheck _) => n <? wa_version s
  | _ => false
  end.

#[export] Instance wa_quiet : quiet_moves wa_machine wa_client wa_ok wa_local (λ _, 0).
Proof.
  split; simpl; try done.
  - intros s t c o Hr Hm Hok (Hk & _). split; [|done]. split_and!; [by destruct o|..|by destruct o].
    destruct o; try done. intros n Hn; simpl in Hn; simplify_eq. split; [unfold wa_client in Hm; lia|done].
  - intros s t o dl p (Hk & H1 & (n & to & ->) & ->). by split_and!.
  - intros s t o u p (Hk & H1 & (n & to & ->) & [dl ->]). by split_and!.
  - intros s t o r (Hk & H1 & [v ->] & ->). by split_and!.
Qed.

(** How a block changes the object. *)
Inductive wa_change (t : tid) (s s' : watch) (a : wa_act) : Prop :=
  | wa_ch_set : wa_version s' = wa_version s + 1 -> wa_waiters s' = [] ->
      a = AWake (wa_waiters s) (Ret WaNone) -> wa_change t s s' a
  | wa_ch_keep : wa_version s' = wa_version s ->
      (forall t', t' ≠ t -> t' ∈ wa_waiters s' <-> t' ∈ wa_waiters s) -> wa_change t s s' a.

Lemma wa_block_change t fib now o p s s' a : wa_block t fib now o p s = (s', a) -> wa_change t s s' a.
Proof.
  intros H. destruct o as [| | |v|n to]; simpl in H; try (simplify_eq; by apply wa_ch_keep).
  - unfold wa_set in H. repeat case_match; simplify_eq; [by apply wa_ch_keep|by apply wa_ch_set].
  - destruct p; simpl in H; repeat case_match; simplify_eq; apply wa_ch_keep; simpl; try done;
      intros t' Ht; try (by apply elem_of_try_remove_ne).
    rewrite elem_of_app, list_elem_of_singleton. naive_solver.
Qed.

Lemma wa_change_local t s s' a t' c :
  wa_change t s s' a -> t' ≠ t -> wa_local s t' c -> wa_local s' t' c.
Proof.
  intros [Hv Hw Ha|Hv Hw] Hne (H0 & H1 & H2); split_and!; try done; try lia.
  - intros n Hn. destruct (H1 n Hn). split; [lia|]. intros _. left. lia.
  - intros n Hn. destruct (H1 n Hn). rewrite Hv, (Hw t' Hne). auto.
Qed.

Lemma wa_block_local t fib now o p s s' a : wa_ok s -> wa_local s t (At o p) ->
  wa_block t fib now o p s = (s', a) -> wa_ok s' /\ wa_local s' t (act_ctl o a).
Proof.
  intros Hok (_ & H1 & _) H. unfold wa_ok in *. destruct o as [| | |v|n to]; simpl in H.
  1-3: simplify_eq; unfold wa_local; split_and!; simpl; try done; lia.
  - unfold wa_set in H. repeat case_match; simplify_eq; unfold wa_local; split_and!; simpl; try done; try lia; eauto.
  - destruct (H1 n eq_refl) as [Hn Hq]. unfold wa_local.
    unfold wa_wait, wa_get_versioned in H.
    destruct p; simpl in H, Hq; cases_in H; simplify_eq; simpl;
      split_and!; try done; try lia; eauto;
      try (intros m Hm; simplify_eq; split; try done; eauto).
    intros _. right. apply elem_of_app. right. by apply list_elem_of_singleton.
Qed.

Lemma wa_blocks isf : blocks_ok wa_machine isf wa_ok wa_local (λ _, 0) (λ _, 0).
Proof.
  intros t now o p s s' a Hok Hl Hb. simpl in Hb.
  destruct (wa_block_local _ _ _ _ _ _ _ _ Hok Hl Hb). split_and!; try done.
  intros t' c Hne. eapply wa_change_local; [by eapply wa_block_change|done].
Qed.

#[export] Instance wa_wakes isf : wakes_ok wa_machine isf wa_ok wa_local wa_ready.
Proof.
  split; simpl; try done.
  - by intros s t [].
  - intros s t o dl p (_ & _ & (n & to & ->) & ->). done.
  - intros s t o u p (_ & _ & (n & to & ->) & [dl ->]). done.
  - intros t now o p s s' a Hok _ Hb Hr. destruct o as [| | |v|n to]; simpl in Hb; try by simplify_eq.
    + unfold wa_set in Hb. repeat case_match; by simplify_eq.
    + destruct p; simpl in Hb; repeat case_match; simplify_eq; simpl in *; try done; lia.
  - intros t now o p s s' a t' c' Hok _ Hb Hne (_ & H1 & _) Hf Hr. simpl in Hb.
    apply wa_block_change in Hb as [Hv Hw ->|Hv Hw].
    + eexists _, _. split; [done|].
      destruct c' as [|[] []|[] ? []| | |]; try done; destruct (H1 _ eq_refl) as [_ [?|?]]; try done;
        simpl in *; lia.
    + destruct c' as [|[] []|[] ? []| | |]; try done; simpl in *; rewrite Hv in Hr; congruence.
Qed.

Lemma wa_client_inv isf v w : reach wa_machine isf wa_client (wa_new v) w ->
  og_inv wa_ok wa_local (λ _, 0) (λ _, 0) w /\ woken_inv wa_ready w.
Proof.
  apply (inv_reach _ isf wa_client _ _ _ _ _ (wa_new v)); try done; [apply wa_blocks|apply wa_wakes].
Qed.

(** C7. No missed change: for callers that wait with a version they have been
    told, once no thread can step a fiber still parked in [wait_changed(seen)] has
    seen the current version, is queued for the next one and is not past its
    deadline; and a [wait_changed] that returned a pair returned a newer version. *)
Theorem watch_no_missed_change isf v w t :
  reach wa_machine isf wa_client (wa_new v) w ->
  (forall seen to dl p, quiescent wa_machine isf wa_client w ->
     ctl_of w t = Parked (WaWait seen to) dl p ->
     seen = wa_version (w_obj w) /\ t ∈ wa_waiters (w_obj w) /\ due dl (w_now w) = false) /\
  (forall seen to x n, ctl_of w t = Fin (WaWait seen to) (Ret (WaPair x n)) ->
     seen < n <= wa_version (w_obj w)).
Proof.
  intros Hr. destruct (wa_client_inv isf v w Hr) as [(_ & HL & _) Hw]. pose proof (HL t) as Hl. split.
  - intros seen to dl p Hq Hp.
    destruct (quiescent_not_ready _ _ _ _ w t _ dl p Hw Hq Hp) as [Hf Hd].
    rewrite Hp in Hl. destruct Hl as (_ & H1 & _ & ->). simpl in Hf.
    destruct (H1 seen eq_refl) as [Hs [?|?]]; [done|lia|]. split_and!; [lia|done|done].
  - intros seen to x n Hc. rewrite Hc in Hl. destruct Hl as (Hk & _ & Hn). simpl in Hk. lia.
Qed.

(** A caller that waits for a version ahead of the current one can be
    stranded: fiber 1 waits for version > 1 of a fresh watch; the first [set]
    takes it off the queue and wakes it, it re-parks without queueing again, and
    the second [set] (version 2) wakes nobody, so it sleeps on although the
    version it asked for has passed. *)
Theorem watch_ahead_of_version_strands :
  let w := after wa_machine (λ _, true) any_call (wa_new None)
             [ECall 1 (WaWait 1 None); EStep 1; EStep 1;
              ECall 2 (WaSet (Some 7%nat)); EStep 2; EStep 2; EStep 2; EStep 1; EStep 1; EStep 1;
              ECall 2 (WaSet (Some 8%nat)); EStep 2; EStep 2] in
  reach wa_machine (λ _, true) any_call (wa_new None) w /\
  quiescent wa_machine (λ _, true) any_call w /\
  ctl_of w 1%nat = Parked (WaWait 1 None) None (WaCheck None) /\ 1 < wa_version (w_obj w) /\
  1%nat ∉ wa_waiters (w_obj w).
Proof.
  intros w. split_and!; [apply after_reach|apply quiescentb_sound|..]; try (vm_compute; reflexivity).
  apply (bool_decide_unpack _). vm_compute. exact I.
Qed.

(** ** Witness *)

(** Fiber 1 reads version 0 and waits for the next; fiber 2 has changed nothing yet. *)
Definition wa_demo_world : wa_world := after wa_machine (λ _, true) wa_client (wa_new None)
  [ECall 2 (WaSet (Some 7%nat)); EStep 2; EStep 2; ECall 1 WaGetVersioned; EStep 1;
   ECall 1 (WaWait 1 (Some 9)); EStep 1; EStep 1].

Lemma watch_no_missed_change_witness :
  (forall seen to dl p, quiescent wa_machine (λ _, true) wa_client wa_demo_world ->
     ctl_of wa_demo_world 1%nat = Parked (WaWait seen to) dl p ->
     seen = wa_version (w_obj wa_demo_world) /\ 1%nat ∈ wa_waiters (w_obj wa_demo_world) /\
     due dl (w_now wa_demo_world) = false) /\
  quiescentb wa_machine (λ _, true) wa_client wa_demo_world = true /\
  ctl_of wa_demo_world 1%nat = Parked (WaWait 1 (Some 9)) (Some 9) (WaCheck (Some 9)).
Proof.
  split_and!; [|vm_compute; reflexivity..].
  apply (watch_no_missed_change (λ _, true) None wa_demo_world 1), after_reach.
Defined.
