(* ===== verification/Context.v ===== *)
(** * Context: the cancellation tree

    Models [src/src/stackweave/context.py].  A context is a record in a store; the
    code between taking and releasing one context's lock is one step, and the
    calls that follow it ([child._cancel(...)] for each snapshotted child, then
    [parent._remove_child(self)]) are pending tasks of the calling thread, so the
    steps of concurrent cancels, registrations and deadline wakers interleave in
    every order. *)
From S2P Require Import Prelude.
Local Open Scope Z_scope.

Inductive reason := CANCELED | DEADLINE_EXCEEDED.
#[export] Instance reason_eq_dec : EqDecision reason.
Proof. solve_decision. Defined.

Abbreviation cid := nat.

(** [_CancelCtx]; the parent [None] is [Background()]. *)
Record ctx := Ctx {
  cx_parent : option cid;
  cx_err : option reason;
  cx_done : bool;              (** [done] is closed *)
  cx_children : list cid;
  cx_deadline : option Z;
  cx_deadline_g : option tid
}.

(** What a thread still has to do. *)
Inductive task :=
  | TCancel (c : cid) (r : reason) (remove_from_parent : bool)  (** [c._cancel(r, ...)] *)
  | TDetach (p c : cid)                                         (** [p._remove_child(c)] *)
  | TArm (c : cid) (dl : Z) (g : tid)    (** the rest of [WithDeadline] *)
  | TWaker (c : cid) (dl : Z)            (** [deadline_waker], from its first line *)
  | TWakerLoop (c : cid) (dl : Z)        (** its [while ctx._err is None] loop *)
  | TWakerFire (c : cid).                (** its last [if ctx._err is None] *)

#[export] Instance task_eq_dec : EqDecision task.
Proof. solve_decision. Defined.

Record cworld := CWorld {
  cw_ctx : gmap cid ctx;
  cw_next : cid;
  cw_stk : gmap tid (list task);
  cw_now : Z;
  cw_woken : list tid                    (** [g.cancel_wait_fd()] calls, newest first *)
}.
Definition cw_start (now : Z) : cworld := CWorld ∅ 0 ∅ now [].

Definition stk (w : cworld) (t : tid) : list task := default [] (cw_stk w !! t).
Definition set_stk (w : cworld) (t : tid) (l : list task) : cworld :=
  CWorld (cw_ctx w) (cw_next w) (<[t := l]> (cw_stk w)) (cw_now w) (cw_woken w).

(** [err()] and [deadline()]. *)
Definition ctx_err (w : cworld) (c : cid) : option reason := cw_ctx w !! c ≫= cx_err.
Definition ctx_deadline (w : cworld) (c : option cid) : option Z := c ≫= λ c, cw_ctx w !! c ≫= cx_deadline.

(** [_CancelCtx.__init__]: make the context and, under the parent's lock, either
    register it or learn that the parent is already cancelled. *)
Definition ctx_init (parent : option cid) (dl : option Z) (w : cworld) : cworld * cid * list task :=
  let c := cw_next w in
  let add (m : gmap cid ctx) := <[c := Ctx parent None false [] dl None]> m in
  match parent with
  | None => (CWorld (add (cw_ctx w)) (S c) (cw_stk w) (cw_now w) (cw_woken w), c, [])
  | Some p =>
      match cw_ctx w !! p with
      | Some x =>
          match cx_err x with
          | Some r => (CWorld (add (cw_ctx w)) (S c) (cw_stk w) (cw_now w) (cw_woken w), c,
                       [TCancel c r false])
          | None =>
              let x' := Ctx (cx_parent x) (cx_err x) (cx_done x) (cx_children x ++ [c])
                          (cx_deadline x) (cx_deadline_g x) in
              (CWorld (add (<[p := x']> (cw_ctx w))) (S c) (cw_stk w) (cw_now w) (cw_woken w), c, [])
          end
      | None => (w, c, [])
      end
  end.

(** The locked part of [_cancel] and the calls it is followed by. *)
Definition ctx_cancel (c : cid) (r : reason) (rm : bool) (w : cworld) : cworld * list task :=
  match cw_ctx w !! c with
  | Some x =>
      match cx_err x with
      | Some _ => (w, [])
      | None =>
          (CWorld (<[c := Ctx (cx_parent x) (Some r) true [] (cx_deadline x) None]> (cw_ctx w))
             (cw_next w) (cw_stk w) (cw_now w) (option_list (cx_deadline_g x) ++ cw_woken w),
           ((λ ch, TCancel ch r false) <$> cx_children x) ++
           match cx_parent x with Some p => if rm then [TDetach p c] else [] | None => [] end)
      end
  | None => (w, [])
  end.

(** [_remove_child]. *)
Definition ctx_remove_child (p c : cid) (w : cworld) : cworld :=
  CWorld (alter (λ x, Ctx (cx_parent x) (cx_err x) (cx_done x) (try_remove c (cx_children x))
                        (cx_deadline x) (cx_deadline_g x)) p (cw_ctx w))
    (cw_next w) (cw_stk w) (cw_now w) (cw_woken w).

(** [ctx._deadline_g = current_g()]. *)
Definition ctx_publish (c : cid) (t : tid) (w : cworld) : cworld :=
  CWorld (alter (λ x, Ctx (cx_parent x) (cx_err x) (cx_done x) (cx_children x)
                        (cx_deadline x) (Some t)) c (cw_ctx w))
    (cw_next w) (cw_stk w) (cw_now w) (cw_woken w).

(** [WithCancel(parent)]. *)
Definition with_cancel (t : tid) (parent : option cid) (w : cworld) : cworld :=
  let '(w1, c, ts) := ctx_init parent None w in set_stk w1 t ts.

(** [WithDeadline(parent, dl)]: inherit a tighter parent deadline, make the context, then
    fire at once or spawn the waker as fiber [g]. *)
Definition with_deadline (t : tid) (parent : option cid) (dl : Z) (g : tid) (w : cworld) : cworld :=
  let dl' := match ctx_deadline w parent with
             | Some d => if d <? dl then d else dl | None => dl end in
  let '(w1, c, ts) := ctx_init parent (Some dl') w in set_stk w1 t (ts ++ [TArm c dl' g]).

(** [WithTimeout(parent, seconds)]. *)
Definition with_timeout (t : tid) (parent : option cid) (d : Z) (g : tid) (w : cworld) : cworld :=
  with_deadline t parent (cw_now w + d) g w.

(** The next task of thread [t]; [None] while it has nothing to do or waits. *)
Definition ctx_task (t : tid) (w : cworld) : option cworld :=
  match stk w t with
  | [] => None
  | TCancel c r rm :: l =>
      let '(w1, ts) := ctx_cancel c r rm w in Some (set_stk w1 t (ts ++ l))
  | TDetach p c :: l => Some (set_stk (ctx_remove_child p c w) t l)
  | TArm c dl g :: l =>
      if dl <=? cw_now w then Some (set_stk w t (TCancel c DEADLINE_EXCEEDED true :: l))
      else match cw_stk w !! g with
           | None => if decide (g = t) then None
                     else Some (set_stk (set_stk w g [TWaker c dl]) t l)
           | Some _ => None
           end
  | TWaker c dl :: l => Some (set_stk (ctx_publish c t w) t (TWakerLoop c dl :: l))
  | TWakerLoop c dl :: l =>
      match ctx_err w c with
      | Some _ => Some (set_stk w t (TWakerFire c :: l))
      | None => if dl <=? cw_now w then Some (set_stk w t (TWakerFire c :: l)) else None
      end
  | TWakerFire c :: l =>
      match ctx_err w c with
      | Some _ => Some (set_stk w t l)
      | None => Some (set_stk w t (TCancel c DEADLINE_EXCEEDED true :: l))
      end
  end.

(** One interleaving step. *)
Inductive cevent :=
  | CWithCancel (t : tid) (parent : option cid)
  | CWithDeadline (t : tid) (parent : option cid) (dl : Z) (g : tid)
  | CCancel (t : tid) (c : cid)           (** call a [cancel] closure *)
  | CTask (t : tid)
  | CTick (d : Z).

(** A parent that is passed is a context that exists. *)
Definition parent_ok (w : cworld) (parent : option cid) : bool :=
  match parent with Some p => bool_decide (is_Some (cw_ctx w !! p)) | None => true end.

Definition cexec (w : cworld) (e : cevent) : option cworld :=
  match e with
  | CWithCancel t parent =>
      if bool_decide (stk w t = []) && parent_ok w parent then Some (with_cancel t parent w) else None
  | CWithDeadline t parent dl g =>
      if bool_decide (stk w t = []) && parent_ok w parent then Some (with_deadline t parent dl g w) else None
  | CCancel t c =>
      if bool_decide (stk w t = []) && bool_decide (is_Some (cw_ctx w !! c))
      then Some (set_stk w t [TCancel c CANCELED true]) else None
  | CTask t => ctx_task t w
  | CTick d => if 0 <=? d then Some (CWorld (cw_ctx w) (cw_next w) (cw_stk w) (cw_now w + d) (cw_woken w)) else None
  end.

Fixpoint crun (w : cworld) (es : list cevent) : option cworld :=
  match es with [] => Some w | e :: es' => w' ← cexec w e; crun w' es' end.

Inductive creach (now0 : Z) : cworld -> Prop :=
  | creach_start : creach now0 (cw_start now0)
  | creach_step w e w' : creach now0 w -> cexec w e = Some w' -> creach now0 w'.

Lemma crun_reach now0 es : forall w w', creach now0 w -> crun w es = Some w' -> creach now0 w'.
Proof.
  induction es as [|e es IH]; simpl; intros w w' Hr H; [by simplify_eq|].
  apply bind_Some in H as (w1 & H1 & H2). eapply IH; [|done]. by eapply creach_step.
Qed.

Definition cafter (now0 : Z) (es : list cevent) : cworld :=
  default (cw_start now0) (crun (cw_start now0) es).

Lemma cafter_reach now0 es : creach now0 (cafter now0 es).
Proof.
  unfold cafter. destruct (crun _ es) as [w|] eqn:E; simpl; [|constructor].
  eapply crun_reach; [constructor|done].
Qed.

(** ** Invariant *)

(** [a] is [c] or one of its ancestors. *)
Inductive anc (m : gmap cid ctx) : cid -> cid -> Prop :=
  | anc_refl c : anc m c c
  | anc_step c x p a : m !! c = Some x -> cx_parent x = Some p -> anc m p a -> anc m c a.

(** The deadline of [c] or of an ancestor has passed. *)
Definition overdue (m : gmap cid ctx) (now : Z) (c : cid) : Prop :=
  exists a x d, anc m c a /\ m !! a = Some x /\ cx_deadline x = Some d /\ d <= now.

Definition task_ok (m : gmap cid ctx) (now : Z) (k : task) : Prop :=
  match k with
  | TCancel c r _ => is_Some (m !! c) /\ (r = DEADLINE_EXCEEDED -> overdue m now c)
  | TDetach _ c => exists x, m !! c = Some x /\ cx_err x ≠ None
  | TArm c dl _ | TWaker c dl | TWakerLoop c dl => exists x, m !! c = Some x /\ cx_deadline x = Some dl
  | TWakerFire c => exists x, m !! c = Some x /\ (cx_err x ≠ None \/ overdue m now c)
  end.

Definition cancelling (P : task -> Prop) (c : cid) : Prop := exists r b, P (TCancel c r b).

Record cinv (m : gmap cid ctx) (next : cid) (now : Z) (P : task -> Prop) : Prop := {
  iv_fresh c x : m !! c = Some x -> (c < next)%nat;
  iv_parent c x p : m !! c = Some x -> cx_parent x = Some p -> is_Some (m !! p);
  iv_children p y c : m !! p = Some y -> c ∈ cx_children y ->
    exists x, m !! c = Some x /\ cx_parent x = Some p;
  iv_done c x : m !! c = Some x -> cx_done x = true <-> cx_err x ≠ None;
  iv_reg c x p y : m !! c = Some x -> cx_err x = None -> cx_parent x = Some p -> m !! p = Some y ->
    (cx_err y = None /\ c ∈ cx_children y) \/ cancelling P c;
  iv_late c x : m !! c = Some x -> cx_err x = Some DEADLINE_EXCEEDED -> overdue m now c;
  iv_inherit c x p y d d' : m !! c = Some x -> cx_parent x = Some p -> m !! p = Some y ->
    cx_deadline x = Some d -> cx_deadline y = Some d' -> d <= d';
  iv_tasks k : P k -> task_ok m now k
}.

(** Contexts are never forgotten, re-parented or un-cancelled. *)
Definition ext (m m' : gmap cid ctx) : Prop :=
  forall c x, m !! c = Some x -> exists x', m' !! c = Some x' /\ cx_parent x' = cx_parent x /\
    cx_deadline x' = cx_deadline x /\ (cx_err x ≠ None -> cx_err x' = cx_err x).

Lemma anc_ext m m' c a : ext m m' -> anc m c a -> anc m' c a.
Proof.
  intros He. induction 1 as [|c x p a Hc Hp _ IH]; [constructor|].
  destruct (He c x Hc) as (x' & ? & ? & _). apply (anc_step _ c x' p); [done|congruence|done].
Qed.

Lemma overdue_ext m m' now now' c : ext m m' -> now <= now' -> overdue m now c -> overdue m' now' c.
Proof.
  intros He Hn (a & x & d & Ha & Hx & Hd & Hle). destruct (He a x Hx) as (x' & ? & ? & ? & _).
  exists a, x', d. split_and!; [by eapply anc_ext|done|congruence|lia].
Qed.

Lemma task_ok_ext m m' now now' k : ext m m' -> now <= now' -> task_ok m now k -> task_ok m' now' k.
Proof.
  intros He Hn. destruct k; simpl.
  - intros [[x Hx] Hr]. destruct (He _ _ Hx) as (x' & ? & _). split; [by exists x'|].
    intros ?. eapply overdue_ext; eauto.
  - intros (x & Hx & Hr). destruct (He _ _ Hx) as (x' & ? & _ & _ & Hx'). exists x'. split; [done|].
    by rewrite Hx'.
  - intros (x & Hx & Hr). destruct (He _ _ Hx) as (x' & ? & _ & ? & _). exists x'. split; [done|congruence].
  - intros (x & Hx & Hr). destruct (He _ _ Hx) as (x' & ? & _ & ? & _). exists x'. split; [done|congruence].
  - intros (x & Hx & Hr). destruct (He _ _ Hx) as (x' & ? & _ & ? & _). exists x'. split; [done|congruence].
  - intros (x & Hx & Hr). destruct (He _ _ Hx) as (x' & ? & _ & _ & Hx'). exists x'. split; [done|].
    destruct Hr as [Hr|Hr]; [left; by rewrite Hx'|right; by eapply overdue_ext].
Qed.

Lemma ext_refl m : ext m m.
Proof. intros c x Hc. by exists x. Qed.

(** Steps that only move tasks and time. *)
Lemma cinv_tasks m next now now' (P P' : task -> Prop) : cinv m next now P -> now <= now' ->
  (forall k, P' k -> P k \/ task_ok m now' k) ->
  (forall c x, m !! c = Some x -> cx_err x = None -> cancelling P c -> cancelling P' c) ->
  cinv m next now' P'.
Proof.
  intros [] Hn Hk Hc. split; eauto.
  - intros i x p y ? ? ? ?. destruct (iv_reg0 i x p y) as [?|?]; [done..|by left|right; by eapply Hc].
  - intros c x ? ?. eapply overdue_ext; [apply ext_refl|done|eauto].
  - intros k [HP|?]%Hk; [|done]. eapply task_ok_ext; [apply ext_refl|done|eauto].
Qed.

(** Steps that rewrite one existing record, keeping what the tree is about. *)
Lemma cinv_update m next now (P : task -> Prop) c x x' : cinv m next now P -> m !! c = Some x ->
  cx_parent x' = cx_parent x -> cx_deadline x' = cx_deadline x -> cx_err x' = cx_err x ->
  cx_done x' = cx_done x -> (forall ch, ch ∈ cx_children x' -> ch ∈ cx_children x) ->
  (forall ch y, ch ∈ cx_children x -> ch ∉ cx_children x' -> m !! ch = Some y -> cx_err y ≠ None) ->
  cinv (<[c := x']> m) next now P /\ ext m (<[c := x']> m).
Proof.
  intros [] Hc Hp Hd He Hdn Hch Hgone.
  assert (ext m (<[c := x']> m)) as Hext.
  { intros i y Hi. rewrite lookup_insert. case_decide; [subst|by exists y].
    exists x'. assert (x = y) as -> by congruence. by split_and!. }
  assert (forall i y, <[c := x']> m !! i = Some y -> exists y0, m !! i = Some y0 /\
    cx_parent y = cx_parent y0 /\ cx_deadline y = cx_deadline y0 /\ cx_err y = cx_err y0 /\
    cx_done y = cx_done y0 /\ (forall ch, ch ∈ cx_children y -> ch ∈ cx_children y0)) as Hback.
  { intros i y [[<- <-]|[? ?]]%lookup_insert_Some; [by exists x|by exists y]. }
  split; [|done]. split.
  - intros i y (y0 & ? & _)%Hback. eauto.
  - intros i y p (y0 & Hi & Hpy & _)%Hback Hy. destruct (iv_parent0 i y0 p Hi) as [z Hz]; [congruence|].
    destruct (Hext p z Hz) as (? & ? & _). eauto.
  - intros p y ch (y0 & Hi & _ & _ & _ & _ & Hcy)%Hback Hin.
    destruct (iv_children0 p y0 ch Hi (Hcy _ Hin)) as (z & Hz & ?).
    destruct (Hext ch z Hz) as (z' & ? & ? & _). exists z'. split; [done|congruence].
  - intros i y (y0 & Hi & _ & _ & Hey & Hdy & _)%Hback. rewrite Hdy, Hey. eauto.
  - intros i y p z (y0 & Hi & Hpy & _ & Hey & _)%Hback Hen Hpp Hz.
    pose proof Hz as (z0 & Hz0 & _ & _ & Hez & _)%Hback.
    destruct (iv_reg0 i y0 p z0 Hi) as [[H1 H2]|?]; [congruence..|done| |by right].
    left. split; [congruence|]. apply lookup_insert_Some in Hz as [[<- <-]|[? ?]]; [|congruence].
    assert (z0 = x) as -> by congruence.
    destruct (decide (i ∈ cx_children x')) as [|Hni]; [done|]. by destruct (Hgone i y0 H2 Hni Hi); congruence.
  - intros i y (y0 & Hi & _ & _ & Hey & _)%Hback Hl.
    eapply overdue_ext; [done|reflexivity|]. eapply iv_late0; [done|congruence].
  - intros i y p z d d' (y0 & Hi & Hpy & Hdy & _)%Hback Hpp (z0 & Hz0 & _ & Hdz & _)%Hback ? ?.
    eapply (iv_inherit0 i y0 p z0); congruence.
  - intros k Hk. eapply task_ok_ext; [done|reflexivity|eauto].
Qed.

(** The locked part of [_cancel] on a live context. *)
Lemma cinv_cancel m next now (P P' : task -> Prop) c x r : cinv m next now P ->
  m !! c = Some x -> cx_err x = None -> (r = DEADLINE_EXCEEDED -> overdue m now c) ->
  (forall k, P' k -> P k \/ (exists ch, ch ∈ cx_children x /\ k = TCancel ch r false) \/
     (exists p, k = TDetach p c)) ->
  (forall k, P k -> P' k \/ exists r' b, k = TCancel c r' b) ->
  (forall ch, ch ∈ cx_children x -> P' (TCancel ch r false)) ->
  cinv (<[c := Ctx (cx_parent x) (Some r) true [] (cx_deadline x) None]> m) next now P'.
Proof.
  intros [] Hc He Hr Hn Ho Hch. set (x' := Ctx _ (Some r) _ _ _ _).
  assert (ext m (<[c := x']> m)) as Hext.
  { intros i y Hi. rewrite lookup_insert. case_decide; [subst|by exists y].
    exists x'. assert (x = y) as -> by congruence. by split_and!. }
  assert (forall i y, <[c := x']> m !! i = Some y -> exists y0, m !! i = Some y0 /\
    cx_parent y = cx_parent y0 /\ cx_deadline y = cx_deadline y0 /\
    (forall ch, ch ∈ cx_children y -> ch ∈ cx_children y0)) as Hback.
  { intros i y [[<- <-]|[? ?]]%lookup_insert_Some; [|by exists y].
    exists x. split_and!; try done. by intros ch ?%elem_of_nil. }
  split.
  - intros i y (y0 & ? & _)%Hback. eauto.
  - intros i y p (y0 & Hi & Hpy & _)%Hback Hy. destruct (iv_parent0 i y0 p Hi) as [z Hz]; [congruence|].
    destruct (Hext p z Hz) as (? & ? & _). eauto.
  - intros p y ch (y0 & Hi & _ & _ & Hcy)%Hback Hin.
    destruct (iv_children0 p y0 ch Hi (Hcy _ Hin)) as (z & Hz & ?).
    destruct (Hext ch z Hz) as (z' & ? & ? & _). exists z'. split; [done|congruence].
  - intros i y [[<- <-]|[? ?]]%lookup_insert_Some; [done|eauto].
  - intros i y p z Hy Hen Hpp Hz. apply lookup_insert_Some in Hy as [[<- <-]|[Hic Hi]]; [done|].
    assert (forall r' b, P (TCancel i r' b) -> cancelling P' i) as Hkeep.
    { intros r' b [?|(? & ? & ?)]%Ho; [by exists r', b|congruence]. }
    apply lookup_insert_Some in Hz as [[<- <-]|[? Hz]].
    + right. destruct (iv_reg0 i y c x) as [[_ Hin]|(r' & b & ?)]; [done..| |by eapply Hkeep].
      exists r, false. auto.
    + destruct (iv_reg0 i y p z) as [?|(r' & b & ?)]; [done..|by left|right; by eapply Hkeep].
  - intros i y [[<- <-]|[? Hi]]%lookup_insert_Some Hl; (eapply overdue_ext; [done|reflexivity|]); eauto.
    simpl in Hl. simplify_eq. auto.
  - intros i y p z d d' (y0 & Hi & Hpy & Hdy & _)%Hback Hpp (z0 & Hz0 & _ & Hdz & _)%Hback ? ?.
    eapply (iv_inherit0 i y0 p z0); congruence.
  - intros k [HP|[(ch & Hin & ->)|[p ->]]]%Hn.
    + eapply task_ok_ext; [done|reflexivity|eauto].
    + destruct (iv_children0 c x ch Hc Hin) as (z & Hz & Hpz). split.
      { destruct (Hext ch z Hz) as (? & ? & _). eauto. }
      intros ->. destruct (Hr eq_refl) as (a & y & d & Ha & ? & ? & ?).
      eapply overdue_ext; [done|reflexivity|]. exists a, y, d. split_and!; try done. by eapply anc_step.
    + exists x'. split; [apply lookup_insert_eq|done].
Qed.

(** A new context, registered with a live parent or about to be cancelled. *)
Lemma cinv_new m m' next now (P P' : task -> Prop) parent dl : cinv m next now P -> ext m m' ->
  m' !! next = Some (Ctx parent None false [] dl None) ->
  (forall i y, m' !! i = Some y -> i ≠ next -> exists y0, m !! i = Some y0 /\
     cx_parent y = cx_parent y0 /\ cx_deadline y = cx_deadline y0 /\ cx_err y = cx_err y0 /\
     cx_done y = cx_done y0 /\
     (forall ch, ch ∈ cx_children y0 -> ch ∈ cx_children y) /\
     (forall ch, ch ∈ cx_children y -> ch ∈ cx_children y0 \/ (ch = next /\ parent = Some i))) ->
  (forall p, parent = Some p -> p ≠ next /\ exists y, m' !! p = Some y /\
     ((cx_err y = None /\ next ∈ cx_children y) \/ cancelling P' next) /\
     (forall d d', dl = Some d -> cx_deadline y = Some d' -> d <= d')) ->
  (forall k, P' k -> P k \/ task_ok m' now k) -> (forall k, P k -> P' k) ->
  cinv m' (S next) now P'.
Proof.
  intros [] Hext Hnew Hback Hpar Hk Hk'. split.
  - intros i y Hi. destruct (decide (i = next)) as [->|Hne]; [lia|].
    destruct (Hback i y Hi Hne) as (y0 & Hy0 & _). apply iv_fresh0 in Hy0. lia.
  - intros i y p Hi Hp. destruct (decide (i = next)) as [->|Hne].
    + rewrite Hnew in Hi. simplify_eq. simpl in *. by destruct (Hpar p Hp) as (_ & z & ? & _); exists z.
    + destruct (Hback i y Hi Hne) as (y0 & Hy0 & Hpy & _).
      destruct (iv_parent0 i y0 p Hy0) as [z Hz]; [congruence|]. destruct (Hext p z Hz) as (? & ? & _). eauto.
  - intros p y ch Hi Hin. destruct (decide (p = next)) as [->|Hne].
    + rewrite Hnew in Hi. simplify_eq. by apply elem_of_nil in Hin.
    + destruct (Hback p y Hi Hne) as (y0 & Hy0 & _ & _ & _ & _ & _ & Hcy). apply Hcy in Hin as [Hin|[-> ->]].
      * destruct (iv_children0 p y0 ch Hy0 Hin) as (z & Hz & ?).
        destruct (Hext ch z Hz) as (z' & ? & ? & _). exists z'. split; [done|congruence].
      * by eexists.
  - intros i y Hi. destruct (decide (i = next)) as [->|Hne]; [rewrite Hnew in Hi; by simplify_eq|].
    destruct (Hback i y Hi Hne) as (y0 & Hy0 & _ & _ & -> & -> & _). eauto.
  - intros i y p z Hi Hen Hp Hz. destruct (decide (i = next)) as [->|Hne].
    + rewrite Hnew in Hi. simplify_eq. simpl in *.
      destruct (Hpar p Hp) as (_ & z' & Hz' & Hor & _). by assert (z' = z) as -> by congruence.
    + destruct (Hback i y Hi Hne) as (y0 & Hy0 & Hpy & _ & Hey & _).
      destruct (iv_parent0 i y0 p Hy0) as [z0 Hz0]; [congruence|].
      assert (p ≠ next) as Hpn by (intros ->; apply iv_fresh0 in Hz0; lia).
      destruct (Hback p z Hz Hpn) as (z1 & Hz1 & _ & _ & Hez & _ & Hcz & _).
      assert (z1 = z0) as -> by congruence.
      destruct (iv_reg0 i y0 p z0) as [[? ?]|(r & b & ?)]; [congruence..| |right; exists r, b; auto].
      left. split; [congruence|auto].
  - intros i y Hi Hl. destruct (decide (i = next)) as [->|Hne]; [rewrite Hnew in Hi; by simplify_eq|].
    destruct (Hback i y Hi Hne) as (y0 & Hy0 & _ & _ & Hey & _).
    eapply overdue_ext; [done|reflexivity|]. eapply iv_late0; [done|congruence].
  - intros i y p z d d' Hi Hp Hz Hd Hd'. destruct (decide (i = next)) as [->|Hne].
    + rewrite Hnew in Hi. simplify_eq. simpl in *.
      destruct (Hpar p Hp) as (_ & z' & Hz' & _ & Hle). assert (z' = z) as -> by congruence. eauto.
    + destruct (Hback i y Hi Hne) as (y0 & Hy0 & Hpy & Hdy & _).
      destruct (iv_parent0 i y0 p Hy0) as [z0 Hz0]; [congruence|].
      assert (p ≠ next) as Hpn by (intros ->; apply iv_fresh0 in Hz0; lia).
      destruct (Hback p z Hz Hpn) as (z1 & Hz1 & _ & Hdz & _).
      eapply (iv_inherit0 i y0 p z1); congruence.
  - intros k [HP|?]%Hk; [|done]. eapply task_ok_ext; [done|reflexivity|eauto].
Qed.

(** Some thread has the task [k] still to do. *)
Definition pend (w : cworld) (k : task) : Prop := exists t, k ∈ stk w t.

Definition cw_inv (w : cworld) : Prop := cinv (cw_ctx w) (cw_next w) (cw_now w) (pend w).

Lemma stk_set w t l t' : stk (set_stk w t l) t' = if decide (t = t') then l else stk w t'.
Proof. unfold stk; simpl. rewrite lookup_insert. by case_decide. Qed.

(** Replacing thread [t]'s tasks: nothing else appears, and only what it dropped
    disappears. *)
Lemma pend_set_in w t l k : pend (set_stk w t l) k -> k ∈ l \/ pend w k.
Proof. intros [t' Hk]. rewrite stk_set in Hk. case_decide; [by left|right; by exists t']. Qed.

Lemma pend_set_mine w t l k : k ∈ l -> pend (set_stk w t l) k.
Proof. intros Hk. exists t. by rewrite stk_set, decide_True. Qed.

Lemma pend_set_keep w t l k : pend w k -> k ∉ stk w t \/ k ∈ l -> pend (set_stk w t l) k.
Proof.
  intros [t' Hk] Ho. destruct (decide (t = t')) as [<-|Hne].
  - destruct Ho; [done|by apply pend_set_mine].
  - exists t'. by rewrite stk_set, decide_False.
Qed.

Lemma pend_same w w' k : cw_stk w' = cw_stk w -> pend w' k <-> pend w k.
Proof. intros He. unfold pend, stk. by rewrite He. Qed.

(** A step that drops one task of [t], which is not a cancel of a live context. *)
Lemma cw_inv_task w t k0 l ts : cw_inv w -> stk w t = k0 :: l ->
  (forall k, k ∈ ts -> task_ok (cw_ctx w) (cw_now w) k) ->
  (forall c x r b, k0 = TCancel c r b -> cw_ctx w !! c = Some x -> cx_err x ≠ None) ->
  cw_inv (set_stk w t (ts ++ l)).
Proof.
  intros Hi Hs Hts Hk0. eapply (cinv_tasks _ _ (cw_now w)); [done|simpl; lia|..]; simpl.
  - intros k [[Hk|Hk]%elem_of_app|Hk]%pend_set_in; [right; by apply Hts|left|by left].
    exists t. rewrite Hs. by right.
  - intros c x Hc He (r & b & Hp). exists r, b.
    destruct (decide (TCancel c r b = k0)) as [Heq|Hne].
    + by destruct (Hk0 c x r b (eq_sym Heq) Hc).
    + destruct (decide (TCancel c r b ∈ l)).
      * apply pend_set_mine, elem_of_app. by right.
      * apply pend_set_keep; [done|]. left. rewrite Hs. by intros [?|?]%elem_of_cons.
Qed.

(** The steps of the invariant. *)
Lemma cw_inv_cancel w t c r rm l : cw_inv w -> stk w t = TCancel c r rm :: l ->
  cw_inv (set_stk (ctx_cancel c r rm w).1 t ((ctx_cancel c r rm w).2 ++ l)).
Proof.
  intros Hi Hs. assert (pend w (TCancel c r rm)) as Hp by (exists t; rewrite Hs; by left).
  destruct (iv_tasks _ _ _ _ Hi _ Hp) as [[x Hx] Hr]. unfold ctx_cancel. rewrite Hx.
  destruct (cx_err x) as [r0|] eqn:He; simpl.
  { apply (cw_inv_task w t (TCancel c r rm) l []); try done; [by intros k ?%elem_of_nil|].
    intros c' x' r' b ? ?; simplify_eq. congruence. }
  rewrite <- app_assoc. match goal with |- cw_inv (set_stk ?w1 t (?a ++ ?b ++ l)) => set (w' := w1); set (ts := a ++ b) end.
  eapply (cinv_cancel _ _ _ (pend w) _ c x r); try done; simpl.
  - intros k [Hk|Hk]%pend_set_in; [|left; by apply (pend_same w w')].
    apply elem_of_app in Hk as [Hk|[Hk|Hk]%elem_of_app]; [right; left|right; right|left; exists t; rewrite Hs; by right].
    + by apply list_elem_of_fmap in Hk as (ch & -> & ?); exists ch.
    + destruct (cx_parent x) as [p|]; [|by apply elem_of_nil in Hk].
      destruct rm; [|by apply elem_of_nil in Hk]. exists p. by apply list_elem_of_singleton in Hk.
  - intros k Hk. destruct (decide (k = TCancel c r rm)) as [->|Hne]; [right; eauto|left].
    destruct (decide (k ∈ l)).
    + apply pend_set_mine, elem_of_app. right. apply elem_of_app. by right.
    + apply pend_set_keep; [by apply (pend_same w w')|]. left.
      change (k ∉ stk w t). rewrite Hs. by intros [?|?]%elem_of_cons.
  - intros ch Hin. apply pend_set_mine, elem_of_app. left. apply list_elem_of_fmap. by exists ch.
Qed.

Lemma cw_inv_alter w t k0 l ts c x f : cw_inv w -> stk w t = k0 :: l -> cw_ctx w !! c = Some x ->
  (forall c' r b, k0 ≠ TCancel c' r b) ->
  cx_parent (f x) = cx_parent x -> cx_deadline (f x) = cx_deadline x -> cx_err (f x) = cx_err x ->
  cx_done (f x) = cx_done x -> (forall ch, ch ∈ cx_children (f x) -> ch ∈ cx_children x) ->
  (forall ch y, ch ∈ cx_children x -> ch ∉ cx_children (f x) -> cw_ctx w !! ch = Some y -> cx_err y ≠ None) ->
  (forall k, k ∈ ts -> task_ok (cw_ctx w) (cw_now w) k) ->
  cw_inv (set_stk (CWorld (alter f c (cw_ctx w)) (cw_next w) (cw_stk w) (cw_now w) (cw_woken w)) t (ts ++ l)).
Proof.
  intros Hi Hs Hc Hk0 H1 H2 H3 H4 H5 H6 Hts.
  assert (alter f c (cw_ctx w) = <[c := f x]> (cw_ctx w)) as ->.
  { apply map_eq. intros i. rewrite lookup_alter, lookup_insert. case_decide; [subst; by rewrite Hc|done]. }
  destruct (cinv_update _ _ _ _ c x (f x) Hi Hc H1 H2 H3 H4 H5 H6) as [Hi' He].
  set (w1 := CWorld (<[c := f x]> (cw_ctx w)) _ _ _ _). apply (cw_inv_task w1 t k0 l ts); try done.
  - intros k Hk. eapply task_ok_ext; [exact He|reflexivity|by apply Hts].
  - intros c' x' r b ->. by destruct (Hk0 c' r b).
Qed.

Lemma ext_insert_new m c x : m !! c = None -> ext m (<[c := x]> m).
Proof.
  intros Hc i y Hi. exists y. rewrite lookup_insert_ne; [done|congruence].
Qed.

Lemma ctx_init_spec parent dl w w1 c ts : ctx_init parent dl w = (w1, c, ts) ->
  parent_ok w parent = true -> c = cw_next w /\ cw_next w1 = S c /\ cw_now w1 = cw_now w /\
  cw_stk w1 = cw_stk w.
Proof.
  intros H Hp. unfold ctx_init in H. destruct parent as [p|]; [|by simplify_eq].
  apply bool_decide_eq_true in Hp as [x Hx]. rewrite Hx in H. by destruct (cx_err x); simplify_eq.
Qed.

Lemma cw_inv_init w t parent dl w1 c ts ts' : cw_inv w -> stk w t = [] -> parent_ok w parent = true ->
  (forall d d', dl = Some d -> ctx_deadline w parent = Some d' -> d <= d') ->
  ctx_init parent dl w = (w1, c, ts) ->
  (forall k, k ∈ ts' -> forall x, cw_ctx w1 !! c = Some x -> cx_deadline x = dl -> task_ok (cw_ctx w1) (cw_now w) k) ->
  (forall k, k ∈ ts' -> forall c r b, k ≠ TCancel c r b) ->
  cw_inv (set_stk w1 t (ts ++ ts')).
Proof.
  intros Hi Hs Hpo Hdl H Hts' Hnc. pose proof Hi as [Hfr _ _ _ _ _ _ _].
  destruct (ctx_init_spec _ _ _ _ _ _ H Hpo) as (-> & Hnx & Hnow & Hstk).
  assert (cw_ctx w !! cw_next w = None) as Hfresh.
  { destruct (cw_ctx w !! cw_next w) as [x|] eqn:E; [|done]. apply Hfr in E. lia. }
  assert (forall k, pend w k -> pend (set_stk w1 t (ts ++ ts')) k) as Hkeep.
  { intros k Hk. apply pend_set_keep; [by apply (pend_same w w1)|]. left.
    unfold stk. rewrite Hstk. change (k ∉ stk w t). rewrite Hs. apply not_elem_of_nil. }
  assert (forall k, pend (set_stk w1 t (ts ++ ts')) k -> pend w k \/ k ∈ ts \/ k ∈ ts') as Hnew.
  { intros k [[?|?]%elem_of_app|?]%pend_set_in; auto. left. by apply (pend_same w w1). }
  unfold cw_inv; simpl. rewrite Hnx, Hnow. unfold ctx_init in H. destruct parent as [p|].
  - apply bool_decide_eq_true in Hpo as [x Hx]. rewrite Hx in H.
    assert (p ≠ cw_next w) as Hpn by congruence. simpl in Hdl. rewrite Hx in Hdl. simpl in Hdl.
    destruct (cx_err x) as [r|] eqn:He; simplify_eq; simpl in *.
    + eapply (cinv_new _ _ _ _ (pend w) _ (Some p) dl); try done; [by apply ext_insert_new|by rewrite lookup_insert_eq|..].
      * intros i y [[<- <-]|[_ Hy]]%lookup_insert_Some Hne; [done|]. exists y. split_and!; auto.
      * intros p' ?; simplify_eq. split; [done|]. exists x. rewrite lookup_insert_ne by done.
        split_and!; [done| |done]. right. exists r, false. apply pend_set_mine. by left.
      * intros k [?|[Hk%list_elem_of_singleton|Hk]]%Hnew; [by left|right; subst k|right].
        -- split; [by rewrite lookup_insert_eq|]. intros ->.
           destruct (iv_late _ _ _ _ Hi p x Hx He) as (a & y & d & Ha & ? & ? & ?).
           exists a, y, d. split_and!; try done.
           ++ eapply anc_step; [apply lookup_insert_eq|done|].
              eapply anc_ext; [by apply ext_insert_new|done].
           ++ rewrite lookup_insert_ne; [done|congruence].
        -- eapply Hts'; [done|apply lookup_insert_eq|done].
    + assert (ext (cw_ctx w) (<[cw_next w := Ctx (Some p) None false [] dl None]>
        (<[p := Ctx (cx_parent x) None (cx_done x) (cx_children x ++ [cw_next w]) (cx_deadline x) (cx_deadline_g x)]> (cw_ctx w)))) as Hext.
      { intros i y Hy. rewrite lookup_insert_ne by congruence. rewrite lookup_insert.
        case_decide; [subst; simplify_eq|by exists y]. eexists. split; [done|]. by rewrite He. }
      eapply (cinv_new _ _ _ _ (pend w) _ (Some p) dl); try done; [by rewrite lookup_insert_eq|..].
      * intros i y [[<- <-]|[_ Hy]]%lookup_insert_Some Hne; [done|].
        apply lookup_insert_Some in Hy as [[<- <-]|[_ Hy]]; [|exists y; split_and!; auto].
        exists x. simpl. split_and!; try done; intros ch.
        -- intros ?. apply elem_of_app. by left.
        -- intros [?|Hk%list_elem_of_singleton]%elem_of_app; [by left|by right].
      * intros p' ?; simplify_eq. split; [done|]. eexists. rewrite lookup_insert_ne, lookup_insert_eq by done.
        split_and!; [done| |done]. left. split; [done|]. simpl. apply elem_of_app. right. by apply list_elem_of_singleton.
      * intros k [?|[?%elem_of_nil|Hk]]%Hnew; [by left|done|right].
        eapply Hts'; [done|apply lookup_insert_eq|done].
  - simplify_eq; simpl in *.
    eapply (cinv_new _ _ _ _ (pend w) _ None dl); try done; [by apply ext_insert_new|by rewrite lookup_insert_eq|..].
    + intros i y [[<- <-]|[_ Hy]]%lookup_insert_Some Hne; [done|]. exists y. split_and!; auto.
    + intros k [?|[?%elem_of_nil|Hk]]%Hnew; [by left|done|right].
      eapply Hts'; [done|apply lookup_insert_eq|done].
Qed.

(** A thread that had nothing to do gets tasks that cancel nothing it must not. *)
Lemma cw_inv_add w t l : cw_inv w -> stk w t = [] ->
  (forall k, k ∈ l -> task_ok (cw_ctx w) (cw_now w) k) -> cw_inv (set_stk w t l).
Proof.
  intros Hi Hs Hl. eapply (cinv_tasks _ _ (cw_now w)); [done|simpl; lia|..]; simpl.
  - intros k [?|?]%pend_set_in; auto.
  - intros c x _ _ (r & b & Hp). exists r, b. apply pend_set_keep; [done|]. left. rewrite Hs. apply not_elem_of_nil.
Qed.

Lemma cw_inv_remove w t p c l : cw_inv w -> stk w t = TDetach p c :: l ->
  cw_inv (set_stk (ctx_remove_child p c w) t l).
Proof.
  intros Hi Hs. assert (task_ok (cw_ctx w) (cw_now w) (TDetach p c)) as (x & Hx & Hxe).
  { apply Hi. exists t. rewrite Hs. by left. }
  unfold ctx_remove_child. destruct (cw_ctx w !! p) as [y|] eqn:Ey.
  - eapply (cw_inv_alter w t (TDetach p c) l [] p y); simpl; try done.
    + intros ch. apply elem_of_try_remove.
    + intros ch z Hin Hni Hz. destruct (decide (ch = c)) as [->|Hne]; [congruence|].
      destruct Hni. by apply elem_of_try_remove_ne.
    + by intros k ?%elem_of_nil.
  - assert (alter (λ x, Ctx (cx_parent x) (cx_err x) (cx_done x) (try_remove c (cx_children x))
      (cx_deadline x) (cx_deadline_g x)) p (cw_ctx w) = cw_ctx w) as ->.
    { apply map_eq. intros i. rewrite lookup_alter. case_decide; [subst; by rewrite Ey|done]. }
    destruct w as [m n k o wk]. apply (cw_inv_task (CWorld m n k o wk) t (TDetach p c) l []); try done.
    by intros z ?%elem_of_nil.
Qed.

Lemma cw_inv_ctask w t w' : cw_inv w -> ctx_task t w = Some w' -> cw_inv w'.
Proof.
  intros Hi H. unfold ctx_task in H. destruct (stk w t) as [|k l] eqn:Hs; [done|].
  assert (task_ok (cw_ctx w) (cw_now w) k) as Hk by (apply Hi; exists t; rewrite Hs; by left).
  destruct k as [c r rm|p c|c dl g|c dl|c dl|c]; simpl in Hk.
  - pose proof (cw_inv_cancel w t c r rm l Hi Hs). destruct (ctx_cancel c r rm w). by simplify_eq.
  - simplify_eq. by apply cw_inv_remove.
  - destruct Hk as (x & Hx & Hd). destruct (Z.leb_spec dl (cw_now w)); simplify_eq.
    + apply (cw_inv_task w t (TArm c dl g) l [_]); try done. intros k Hk%list_elem_of_singleton; subst k.
      split; [by eexists|]. intros _. exists c, x, dl. split_and!; [constructor|done..].
    + destruct (cw_stk w !! g) eqn:Eg; [done|]. case_decide; simplify_eq.
      assert (stk w g = []) as Hg by (unfold stk; by rewrite Eg).
      eapply (cw_inv_task _ t (TArm c dl g) l []); try done; [|by rewrite stk_set, decide_False|by intros k ?%elem_of_nil].
      apply cw_inv_add; try done. intros k Hk%list_elem_of_singleton; subst k. simpl. eauto.
  - simplify_eq. destruct Hk as (x & Hx & Hd).
    eapply (cw_inv_alter w t (TWaker c dl) l [_] c x); simpl; try done.
    intros k Hk%list_elem_of_singleton; subst k. simpl. eauto.
  - destruct Hk as (x & Hx & Hd). unfold ctx_err in H. rewrite Hx in H; simpl in H.
    assert (w' = set_stk w t ([TWakerFire c] ++ l) /\ (cx_err x ≠ None \/ dl <= cw_now w)) as [-> Hor].
    { destruct (cx_err x); simplify_eq; [by split; auto|]. destruct (Z.leb_spec dl (cw_now w)); simplify_eq; auto. }
    apply (cw_inv_task w t (TWakerLoop c dl) l [_]); try done. intros k Hk%list_elem_of_singleton; subst k.
    exists x. split; [done|]. destruct Hor; [by left|right]. exists c, x, dl. split_and!; [constructor|done..].
  - destruct Hk as (x & Hx & Hor). unfold ctx_err in H. rewrite Hx in H; simpl in H.
    destruct (cx_err x) eqn:Ex; simplify_eq.
    + apply (cw_inv_task w t (TWakerFire c) l []); try done. by intros k ?%elem_of_nil.
    + apply (cw_inv_task w t (TWakerFire c) l [_]); try done. intros k Hk%list_elem_of_singleton; subst k.
      split; [by eexists|]. by destruct Hor.
Qed.

Lemma cw_inv_step w e w' : cw_inv w -> cexec w e = Some w' -> cw_inv w'.
Proof.
  intros Hi H. destruct e as [t parent|t parent dl g|t c|t|d]; simpl in H.
  - destruct (bool_decide _) eqn:Es; simpl in H; [|done]. destruct (parent_ok w parent) eqn:Ep; simplify_eq.
    apply bool_decide_eq_true in Es. unfold with_cancel.
    destruct (ctx_init parent None w) as [[w1 c] ts] eqn:E. rewrite <- (app_nil_r ts).
    eapply cw_inv_init; try done; [by intros d d' ?; simplify_eq|by intros k ?%elem_of_nil..].
  - destruct (bool_decide _) eqn:Es; simpl in H; [|done]. destruct (parent_ok w parent) eqn:Ep; simplify_eq.
    apply bool_decide_eq_true in Es. unfold with_deadline.
    destruct (ctx_init _ _ w) as [[w1 c] ts] eqn:E.
    eapply cw_inv_init; try done.
    + intros d d' [= <-] Hd. rewrite Hd. destruct (Z.ltb_spec d' dl); lia.
    + intros k Hk%list_elem_of_singleton x Hx Hd; subst k. simpl. eauto.
    + by intros k Hk%list_elem_of_singleton; subst k.
  - destruct (bool_decide (stk w t = [])) eqn:Es; simpl in H; [|done]. case_bool_decide as Hx; simplify_eq.
    apply bool_decide_eq_true in Es. apply cw_inv_add; try done. by intros k Hk%list_elem_of_singleton; subst k.
  - by eapply cw_inv_ctask.
  - destruct (Z.leb_spec 0 d); simplify_eq.
    eapply (cinv_tasks _ _ (cw_now w)); [done|simpl; lia|by left|done].
Qed.

Lemma cw_inv_reach now0 w : creach now0 w -> cw_inv w.
Proof.
  induction 1 as [|w e w' _ IH H]; [|by eapply cw_inv_step].
  split; simpl; try done. intros k [t Hk]. unfold stk in Hk; simpl in Hk. rewrite lookup_empty in Hk.
  by apply elem_of_nil in Hk.
Qed.

(** ** Work left

    Every task step makes progress: [work] counts the pending tasks and what the
    live contexts may still fan out. *)
Definition task_work (k : task) : Z :=
  match k with
  | TCancel _ _ _ | TDetach _ _ => 1
  | TWakerFire _ => 2 | TWakerLoop _ _ => 3 | TWaker _ _ => 4 | TArm _ _ _ => 5
  end.
Definition stk_work (l : list task) : Z := foldr (λ k n, task_work k + n) 0 l.
Definition ctx_work (x : ctx) : Z :=
  Z.of_nat (length (cx_children x)) + match cx_err x with None => 2 | Some _ => 0 end.
Definition work (w : cworld) : Z := msum stk_work (cw_stk w) + msum ctx_work (cw_ctx w).

Lemma stk_work_app l l' : stk_work (l ++ l') = stk_work l + stk_work l'.
Proof. unfold stk_work. induction l as [|k l IH]; simpl; [done|]. rewrite IH. lia. Qed.

Lemma stk_work_nonneg l : 0 <= stk_work l.
Proof. unfold stk_work. induction l as [|k l IH]; [done|]. simpl. destruct k; simpl; lia. Qed.

Lemma stk_work_fan (f : cid -> task) l : (forall c, task_work (f c) = 1) ->
  stk_work (f <$> l) = Z.of_nat (length l).
Proof.
  intros Hf. unfold stk_work. induction l as [|c l IH]; [done|]. cbn. rewrite Hf, IH. lia.
Qed.

Lemma work_set_stk w t l : work (set_stk w t l) = work w - stk_work (stk w t) + stk_work l.
Proof. unfold work; simpl. rewrite (msum_insert stk_work _ t l []) by done. unfold stk. lia. Qed.

Lemma work_nonneg w : 0 <= work w.
Proof.
  unfold work. pose proof (msum_nonneg stk_work (cw_stk w) (λ _ l _, stk_work_nonneg l)).
  assert (0 <= msum ctx_work (cw_ctx w)); [|lia].
  apply msum_nonneg. intros c x _. unfold ctx_work. destruct (cx_err x); lia.
Qed.

Lemma length_try_remove (c : cid) l : (length (try_remove c l) <= length l)%nat.
Proof.
  unfold try_remove. destruct (py_remove c l) as [k|] eqn:E; simpl; [|lia].
  apply py_remove_Permutation in E. apply Permutation_length in E. simpl in E. lia.
Qed.

(** Rewriting one record changes the work by the difference at that record. *)
Lemma msum_alter_le m c f : (forall x, ctx_work (f x) <= ctx_work x) ->
  msum ctx_work (alter f c m) <= msum ctx_work m.
Proof.
  intros Hf. destruct (m !! c) as [x|] eqn:E.
  - assert (alter f c m = <[c := f x]> m) as ->.
    { apply map_eq. intros i. rewrite lookup_alter, lookup_insert. case_decide; [subst; by rewrite E|done]. }
    rewrite (msum_delete ctx_work m c x E), <- insert_delete_eq.
    rewrite msum_insert_None by apply lookup_delete_eq. specialize (Hf x). lia.
  - rewrite alter_id; [done|]. intros x. by rewrite E.
Qed.

Lemma ctx_cancel_work c r rm w :
  stk_work (ctx_cancel c r rm w).2 + work (ctx_cancel c r rm w).1 <= work w.
Proof.
  unfold ctx_cancel. destruct (cw_ctx w !! c) as [x|] eqn:Ex; simpl; [|lia].
  destruct (cx_err x) eqn:Ee; simpl; [lia|]. unfold work; simpl.
  rewrite (msum_delete ctx_work _ c x Ex), <- insert_delete_eq.
  rewrite msum_insert_None by apply lookup_delete_eq.
  rewrite stk_work_app, stk_work_fan by done. unfold ctx_work at 1 3. rewrite Ee. simpl.
  destruct (cx_parent x); [destruct rm|]; simpl; lia.
Qed.

Lemma ctx_task_work t w w' : ctx_task t w = Some w' -> work w' < work w.
Proof.
  intros H. unfold ctx_task in H. destruct (stk w t) as [|k l] eqn:Hs; [done|].
  assert (stk_work (stk w t) = task_work k + stk_work l) as Hsw by by rewrite Hs.
  destruct k as [c r rm|p c|c dl g|c dl|c dl|c]; simpl in Hsw.
  - pose proof (ctx_cancel_work c r rm w) as Hw.
    assert (cw_stk (ctx_cancel c r rm w).1 = cw_stk w) as He.
    { unfold ctx_cancel. repeat case_match; done. }
    destruct (ctx_cancel c r rm w) as [w1 ts]. simplify_eq. rewrite work_set_stk, stk_work_app.
    simpl in *. assert (stk w1 t = stk w t) as -> by (unfold stk; by rewrite He). lia.
  - simplify_eq. rewrite work_set_stk. change (stk (ctx_remove_child p c w) t) with (stk w t).
    assert (work (ctx_remove_child p c w) <= work w); [|lia].
    unfold work; simpl. apply Z.add_le_mono_l, msum_alter_le. intros x. unfold ctx_work; simpl.
    pose proof (length_try_remove c (cx_children x)). lia.
  - repeat case_match; simplify_eq; rewrite !work_set_stk; simpl; [lia|].
    rewrite stk_set, decide_False by done. unfold stk at 1.
    match goal with E : cw_stk w !! g = None |- _ => rewrite E end. simpl. lia.
  - simplify_eq. rewrite work_set_stk. change (stk (ctx_publish c t w) t) with (stk w t).
    assert (work (ctx_publish c t w) <= work w); [|simpl; lia].
    unfold work; simpl. apply Z.add_le_mono_l, msum_alter_le. intros x. unfold ctx_work; simpl. lia.
  - repeat case_match; simplify_eq; rewrite work_set_stk; simpl; lia.
  - repeat case_match; simplify_eq; rewrite work_set_stk; simpl; lia.
Qed.

(** ** Properties *)

(** No cancellation is under way. *)
Definition settled (w : cworld) : Prop := forall t c r b, TCancel c r b ∉ stk w t.

(** Decided by looking at the threads that have tasks. *)
Definition settledb (w : cworld) : bool :=
  forallb (λ '(_, l), forallb (λ k, match k with TCancel _ _ _ => false | _ => true end) l)
    (map_to_list (cw_stk w)).

Lemma settledb_sound w : settledb w = true -> settled w.
Proof.
  unfold settledb. rewrite forallb_forall. intros H t c r b Hin. unfold stk in Hin.
  destruct (cw_stk w !! t) as [l|] eqn:E; simpl in Hin; [|by apply elem_of_nil in Hin].
  specialize (H (t, l)). rewrite <- list_elem_of_In, elem_of_map_to_list in H.
  specialize (H E). simpl in H. rewrite forallb_forall in H.
  by specialize (H _ (proj1 (list_elem_of_In _ _) Hin)).
Qed.

(** C8. Cancellation is transitive under every interleaving of registrations,
    cancels and deadlines: once no cancellation is under way, every descendant of a
    cancelled context is cancelled and its [done] channel is closed. *)
Theorem context_cancel_transitive now0 w c a x y :
  creach now0 w -> settled w -> anc (cw_ctx w) c a ->
  cw_ctx w !! a = Some y -> cx_err y ≠ None -> cw_ctx w !! c = Some x ->
  cx_err x ≠ None /\ cx_done x = true.
Proof.
  intros Hr Hs Ha. pose proof (cw_inv_reach now0 w Hr) as Hi. revert x.
  induction Ha as [c|c x p a Hc Hp Ha IH]; intros x0 Hy Hye Hx.
  - assert (x0 = y) as -> by congruence. split; [done|]. by apply (iv_done _ _ _ _ Hi c).
  - assert (x0 = x) as -> by congruence.
    destruct (iv_parent _ _ _ _ Hi c x p Hc Hp) as [z Hz]. destruct (IH z Hy Hye Hz) as [Hze _].
    assert (cx_err x ≠ None) as Hxe.
    { intros He. destruct (iv_reg _ _ _ _ Hi c x p z Hc He Hp Hz) as [[? _]|(r & b & t & Hk)]; [done|].
      by apply (Hs t c r b). }
    split; [done|]. by apply (iv_done _ _ _ _ Hi c).
Qed.

(** Deadlines are honoured: a context reports [deadline_exceeded] only when
    its own deadline or an ancestor's has passed, and a context made with a deadline
    never extends beyond its parent's. *)
Theorem context_deadline_sound now0 w c x :
  creach now0 w -> cw_ctx w !! c = Some x ->
  (cx_err x = Some DEADLINE_EXCEEDED -> overdue (cw_ctx w) (cw_now w) c) /\
  (forall p y d d', cx_parent x = Some p -> cw_ctx w !! p = Some y ->
     cx_deadline x = Some d -> cx_deadline y = Some d' -> d <= d').
Proof.
  intros Hr Hc. pose proof (cw_inv_reach now0 w Hr) as Hi. split.
  - by apply (iv_late _ _ _ _ Hi).
  - intros p y d d'. by apply (iv_inherit _ _ _ _ Hi c x).
Qed.

(** Cancelling terminates: every step of a [_cancel], of a detach or of a
    deadline waker decreases a non-negative measure, so a [cancel()] call returns
    after finitely many of its own steps, however deep the tree. *)
Theorem context_cancel_terminates w t w' :
  cexec w (CTask t) = Some w' -> 0 <= work w' < work w.
Proof. intros H. split; [apply work_nonneg|by eapply ctx_task_work]. Qed.

(** ** Witnesses *)

(** A root (0) with a timed child (1) and a grandchild (2); thread 1 cancels the
    root while thread 2 registers another grandchild (3) of the not yet cancelled
    child. *)
Definition ctx_demo : list cevent :=
  [CWithCancel 1 None; CWithDeadline 1 (Some 0%nat) 50 9; CTask 1; CWithCancel 1 (Some 1%nat);
   CCancel 1 0; CTask 1; CWithCancel 2 (Some 1%nat); CTask 1; CTask 1; CTask 1].

Lemma ctx_demo_settled : settled (cafter 0 ctx_demo).
Proof. apply settledb_sound. vm_compute. reflexivity. Qed.

Lemma context_cancel_transitive_witness :
  exists x, cw_ctx (cafter 0 ctx_demo) !! 3%nat = Some x /\ cx_err x ≠ None /\ cx_done x = true.
Proof.
  eexists. split; [vm_compute; reflexivity|].
  eapply (context_cancel_transitive 0 (cafter 0 ctx_demo) 3 0);
    [apply cafter_reach|apply ctx_demo_settled| |vm_compute; reflexivity|done|vm_compute; reflexivity].
  eapply (anc_step _ 3 _ 1); [vm_compute; reflexivity|done|].
  eapply (anc_step _ 1 _ 0); [vm_compute; reflexivity|done|constructor].
Defined.

Lemma context_deadline_sound_witness :
  let w := cafter 0 [CWithDeadline 1 None 50 9; CTask 1; CTick 60; CTask 9; CTask 9; CTask 9; CTask 9] in
  exists x, cw_ctx w !! 0%nat = Some x /\ cx_err x = Some DEADLINE_EXCEEDED /\
  (cx_err x = Some DEADLINE_EXCEEDED -> overdue (cw_ctx w) (cw_now w) 0).
Proof.
  intros w. eexists. split; [vm_compute; reflexivity|]. split; [reflexivity|].
  apply (context_deadline_sound 0 w 0); [apply cafter_reach|vm_compute; reflexivity].
Defined.

Lemma context_cancel_terminates_witness :
  let w := cafter 0 [CWithCancel 1 None; CWithCancel 1 (Some 0%nat); CCancel 1 0] in
  exists w', cexec w (CTask 1) = Some w' /\ 0 <= work w' < work w.
Proof.
  intros w. eexists. split; [vm_compute; reflexivity|].
  eapply (context_cancel_terminates _ 1). vm_compute; reflexivity.
Defined.
