(* ===== verification/Timers.v ===== *)
(** * Timer and Ticker

    Models [src/src/stackweave/time.py].  A timer's backing fibers, its [Stop] and
    its [Reset] interleave at the granularity of the locked sections; what a call
    does after it has released the lock ([g.cancel_wait_fd()], [self._spawn(gen)])
    is a pending action that any other step may precede.  Durations and times are
    microseconds; the channel holds one value and [try_send] drops when it is full. *)
From S2P Require Import Prelude.
Local Open Scope Z_scope.

(** What a caller may pass as a duration. *)
Inductive duration := DReal (us : Z) | DBool (b : bool) | DOther (tyname : string).

Definition check_duration (d : duration) : out Z :=
  match d with
  | DReal us => Ret us
  | DBool _ => Exc (TypeError "duration must be a real number, not bool")
  | DOther n => Exc (TypeError ("duration must be a real number, not " ++ n))
  end.

(** What [Sleep] does with a valid duration. *)
Inductive sleep_how := SleepNot | SleepOS (us : Z) | SleepFiber (us : Z).
Definition Sleep (fib : bool) (d : duration) : out sleep_how :=
  match check_duration d with
  | Exc e => Exc e
  | Ret us => Ret (if fib then SleepFiber us else if 0 <? us then SleepOS us else SleepNot)
  end.

(** A one-slot channel. *)
Record chan1 := Chan1 { ch_buf : option Z; ch_closed : bool }.
Definition ch_new : chan1 := Chan1 None false.
Definition try_send (v : Z) (c : chan1) : chan1 :=
  match ch_buf c with
  | None => if ch_closed c then c else Chan1 (Some v) (ch_closed c)
  | Some _ => c
  end.
Definition try_recv (c : chan1) : chan1 := Chan1 None (ch_closed c).

(** [After]'s fiber, once its sleep is over: send and close. *)
Definition after_fire (us : Z) (c : chan1) : chan1 := Chan1 (ch_buf (try_send us c)) true.

(** [int(d * 1000) + 1] milliseconds, in microseconds. *)
Definition timeout_us (d : Z) : Z := (Z.quot d 1000 + 1) * 1000.

(** ** Timer *)

Record timer := Timer {
  tm_d : Z;
  tm_c : chan1;
  tm_stopped : bool;
  tm_fired : bool;
  tm_gen : nat;
  tm_fire_g : option tid
}.

(** A backing fiber ([fire]) of generation [gen].  [early] records that the park was
    cut short by [cancel_wait_fd]; [due] is when it was to end. *)
Inductive fire_pc :=
  | FStart (gen : nat) (d : Z)
  | FPark (gen : nat) (due : Z)
  | FCheck (gen : nat) (due : Z) (early : bool)
  | FSend
  | FEnd.

(** What a caller still has to do after it has released the lock. *)
Inductive after_lock := ACancelWait (g : tid) | ASpawn (gen : nat).

Record tworld := TWorld {
  tw_t : timer;
  tw_fib : gmap tid fire_pc;
  tw_todo : list after_lock;
  tw_now : Z;
  tw_fires : list (nat * Z * Z);   (** fired generations with due and firing time *)
  tw_stops : list nat              (** generations a [Stop() = True] cancelled *)
}.

(** [Timer(seconds)]. *)
Definition tm_init (d : Z) (now : Z) : tworld :=
  TWorld (Timer d ch_new false false 0 None) ∅ [ASpawn 0] now [] [].

Definition upd (w : tworld) (t : timer) (todo : list after_lock) : tworld :=
  TWorld t (tw_fib w) todo (tw_now w) (tw_fires w) (tw_stops w).
Definition put_fib (w : tworld) (g : tid) (p : fire_pc) : tworld :=
  TWorld (tw_t w) (<[g := p]> (tw_fib w)) (tw_todo w) (tw_now w) (tw_fires w) (tw_stops w).

(** [Stop()]: the locked section; the returned flag and the new world. *)
Definition tm_stop (w : tworld) : tworld * bool :=
  let t := tw_t w in
  if tm_stopped t || tm_fired t then (w, false)
  else
    (TWorld (Timer (tm_d t) (tm_c t) true (tm_fired t) (S (tm_gen t)) None) (tw_fib w)
       (tw_todo w ++ (ACancelWait <$> option_list (tm_fire_g t))) (tw_now w) (tw_fires w)
       (tw_stops w ++ [tm_gen t]), true).

(** [Reset(seconds)]. *)
Definition tm_reset (d : Z) (w : tworld) : tworld * bool :=
  let t := tw_t w in
  (upd w (Timer d (tm_c t) false false (S (tm_gen t)) None)
     (tw_todo w ++ (ACancelWait <$> option_list (tm_fire_g t)) ++ [ASpawn (S (tm_gen t))]),
   negb (tm_stopped t) && negb (tm_fired t)).

(** [_spawn(gen)] starts fiber [g]; it reads [self._d]. *)
Definition tm_spawn (gen : nat) (g : tid) (w : tworld) : tworld := put_fib w g (FStart gen (tm_d (tw_t w))).

(** [g.cancel_wait_fd()]: a parked fiber returns from its park. *)
Definition tm_cancel_wait (g : tid) (w : tworld) : tworld :=
  match tw_fib w !! g with
  | Some (FPark gen due) => put_fib w g (FCheck gen due true)
  | _ => w
  end.

(** The next section of backing fiber [g]. *)
Definition tm_fire (g : tid) (w : tworld) : option tworld :=
  let t := tw_t w in
  match tw_fib w !! g with
  | Some (FStart gen d) =>
      if tm_stopped t || negb (tm_gen t =? gen)%nat then Some (put_fib w g FEnd)
      else
        let w1 := upd w (Timer (tm_d t) (tm_c t) (tm_stopped t) (tm_fired t) (tm_gen t) (Some g)) (tw_todo w) in
        Some (put_fib w1 g (if 0 <? d then FPark gen (tw_now w + timeout_us d)
                            else FCheck gen (tw_now w) false))
  | Some (FPark gen due) => if due <=? tw_now w then Some (put_fib w g (FCheck gen due false)) else None
  | Some (FCheck gen due early) =>
      if tm_stopped t || negb (tm_gen t =? gen)%nat || tm_fired t then Some (put_fib w g FEnd)
      else Some (put_fib (TWorld (Timer (tm_d t) (tm_c t) (tm_stopped t) true (tm_gen t) None) (tw_fib w)
                   (tw_todo w) (tw_now w) (tw_fires w ++ [(gen, due, tw_now w)]) (tw_stops w)) g FSend)
  | Some FSend =>
      Some (put_fib (upd w (Timer (tm_d t) (try_send (tm_d t) (tm_c t)) (tm_stopped t) (tm_fired t)
                              (tm_gen t) (tm_fire_g t)) (tw_todo w)) g FEnd)
  | Some FEnd | None => None
  end.

Inductive tevent := TStop | TReset (d : Z) | TTodo (k : nat) (g : tid) | TFire (g : tid) | TRecv | TTick (d : Z).

(** One interleaving step; [TTodo k g] runs the [k]-th pending action ([g] names the
    fiber a spawn starts). *)
Definition texec (w : tworld) (e : tevent) : option tworld :=
  match e with
  | TStop => Some (tm_stop w).1
  | TReset d => Some (tm_reset d w).1
  | TTodo k g =>
      let w1 := upd w (tw_t w) (take k (tw_todo w) ++ drop (S k) (tw_todo w)) in
      match tw_todo w !! k with
      | Some (ACancelWait g') => Some (tm_cancel_wait g' w1)
      | Some (ASpawn gen) =>
          match tw_fib w !! g with None => Some (tm_spawn gen g w1) | Some _ => None end
      | None => None
      end
  | TFire g => tm_fire g w
  | TRecv => let t := tw_t w in
      Some (upd w (Timer (tm_d t) (try_recv (tm_c t)) (tm_stopped t) (tm_fired t) (tm_gen t) (tm_fire_g t)) (tw_todo w))
  | TTick d => if 0 <=? d then Some (TWorld (tw_t w) (tw_fib w) (tw_todo w) (tw_now w + d) (tw_fires w) (tw_stops w)) else None
  end.

Fixpoint trun (w : tworld) (es : list tevent) : option tworld :=
  match es with [] => Some w | e :: es' => w' ← texec w e; trun w' es' end.

Inductive treach (w0 : tworld) : tworld -> Prop :=
  | treach_refl : treach w0 w0
  | treach_step w e w' : treach w0 w -> texec w e = Some w' -> treach w0 w'.

Definition tafter (w0 : tworld) (es : list tevent) : tworld := default w0 (trun w0 es).

Lemma trun_reach w0 es : forall w w', treach w0 w -> trun w es = Some w' -> treach w0 w'.
Proof.
  induction es as [|e es IH]; simpl; intros w w' Hr H; [by simplify_eq|].
  apply bind_Some in H as (w1 & H1 & H2). eapply IH; [|done]. by eapply treach_step.
Qed.

Lemma tafter_reach w0 es : treach w0 (tafter w0 es).
Proof.
  unfold tafter. destruct (trun w0 es) eqn:E; simpl; [|constructor]. eapply trun_reach; [constructor|done].
Qed.

(** ** Invariant *)

Definition fires_of (w : tworld) : list nat := (λ x, x.1.1) <$> tw_fires w.

(** The generation a backing fiber still acts for satisfies [P]. *)
Definition pc_gen (P : nat -> Prop) (p : fire_pc) : Prop :=
  match p with FStart gen _ | FPark gen _ | FCheck gen _ _ => P gen | FSend | FEnd => True end.

Definition todo_ok (w : tworld) (a : after_lock) : Prop :=
  match a with
  | ASpawn gen => (gen <= tm_gen (tw_t w))%nat
  | ACancelWait g => exists p, tw_fib w !! g = Some p /\ pc_gen (λ gen, (gen < tm_gen (tw_t w))%nat) p
  end.

Record tinv (w : tworld) : Prop := {
  ti_fib g p : tw_fib w !! g = Some p -> pc_gen (λ gen, (gen <= tm_gen (tw_t w))%nat) p;
  ti_check g gen due early : tw_fib w !! g = Some (FCheck gen due early) ->
    if early then (gen < tm_gen (tw_t w))%nat else due <= tw_now w;
  ti_todo a : a ∈ tw_todo w -> todo_ok w a;
  ti_handle g : tm_fire_g (tw_t w) = Some g -> is_Some (tw_fib w !! g);
  ti_fires gen : gen ∈ fires_of w -> (gen <= tm_gen (tw_t w))%nat;
  ti_fired : tm_gen (tw_t w) ∈ fires_of w -> tm_fired (tw_t w) = true;
  ti_once : NoDup (fires_of w);
  ti_due gen due at_ : (gen, due, at_) ∈ tw_fires w -> due <= at_;
  ti_stops gen : gen ∈ tw_stops w -> (gen < tm_gen (tw_t w))%nat /\ gen ∉ fires_of w
}.

Lemma pc_gen_mono (P Q : nat -> Prop) p : (forall n, P n -> Q n) -> pc_gen P p -> pc_gen Q p.
Proof. intros H. destruct p; simpl; auto. Qed.

(** Steps of one backing fiber that keep the generation and fire nothing. *)
Lemma tinv_put w g p p' t' : tinv w -> tw_fib w !! g = Some p ->
  (forall P, pc_gen P p -> pc_gen P p') ->
  (forall gen due early, p' = FCheck gen due early ->
     if early then (gen < tm_gen (tw_t w))%nat else due <= tw_now w) ->
  tm_gen t' = tm_gen (tw_t w) -> tm_fired t' = tm_fired (tw_t w) ->
  (tm_fire_g t' = tm_fire_g (tw_t w) \/ tm_fire_g t' = Some g) ->
  tinv (put_fib (upd w t' (tw_todo w)) g p').
Proof.
  intros [] Hp Hg Hc Ht Hf Hh. split; simpl; rewrite ?Ht, ?Hf; try done.
  - intros g' q. rewrite lookup_insert_Some. intros [[<- <-]|[_ ?]]; [apply Hg|]; by eapply ti_fib0.
  - intros g' gen due early. rewrite lookup_insert_Some. intros [[<- ?]|[_ ?]]; [by eapply Hc|by eapply ti_check0].
  - intros a Ha. specialize (ti_todo0 a Ha). destruct a as [g'|gen]; simpl in *; rewrite Ht; [|done].
    destruct ti_todo0 as (q & Hq & Hgq). rewrite lookup_insert. case_decide; [subst|by exists q].
    exists p'. split; [done|]. apply Hg. by simplify_eq.
  - intros g' Hg'. rewrite lookup_insert. case_decide; [done|]. destruct Hh as [Hh|Hh]; [|congruence].
    apply ti_handle0. congruence.
Qed.

(** The locked sections of [Stop] and [Reset]: a new generation. *)
Lemma tinv_bump w t' todo stops : tinv w -> tm_gen t' = S (tm_gen (tw_t w)) -> tm_fire_g t' = None ->
  (forall a, a ∈ todo -> a ∈ tw_todo w \/ (exists g, a = ACancelWait g /\ tm_fire_g (tw_t w) = Some g) \/
     a = ASpawn (tm_gen t')) ->
  (forall gen, gen ∈ stops -> gen ∈ tw_stops w \/ (gen = tm_gen (tw_t w) /\ tm_fired (tw_t w) = false)) ->
  tinv (TWorld t' (tw_fib w) todo (tw_now w) (tw_fires w) stops).
Proof.
  intros [] Ht Hh Hto Hst. split; simpl; rewrite ?Ht, ?Hh; try done.
  - intros g p Hp. eapply pc_gen_mono; [|eauto]. simpl. lia.
  - intros g gen due [] Hp; specialize (ti_check0 g gen due _ Hp); simpl in *; [lia|done].
  - intros a [Ha|[(g & -> & Hg)| ->]]%Hto; simpl; rewrite ?Ht; [| |done].
    + specialize (ti_todo0 a Ha). destruct a as [g|gen]; simpl in *; rewrite Ht; [|lia].
      destruct ti_todo0 as (p & ? & ?). exists p. split; [done|]. eapply pc_gen_mono; [|done]. simpl; lia.
    + destruct (ti_handle0 g Hg) as [p Hp]. exists p. split; [done|].
      eapply pc_gen_mono; [|by eapply ti_fib0]. simpl; lia.
  - intros gen Hg. apply ti_fires0 in Hg. lia.
  - intros Hg. apply ti_fires0 in Hg. lia.
  - intros gen [Hg|[-> Hf]]%Hst.
    + destruct (ti_stops0 gen Hg). split; [lia|done].
    + split; [lia|]. intros Hg. apply ti_fired0 in Hg. congruence.
Qed.

Lemma tinv_stop w : tinv w -> tinv (tm_stop w).1.
Proof.
  intros Hi. unfold tm_stop. destruct (tm_stopped (tw_t w) || tm_fired (tw_t w)) eqn:E; [done|].
  apply orb_false_iff in E as [_ Ef]. simpl. apply tinv_bump; try done.
  - intros a [?|Ha]%elem_of_app; [by left|]. right; left.
    apply list_elem_of_fmap in Ha as (g & -> & Hg). exists g. split; [done|].
    destruct (tm_fire_g (tw_t w)); [|by apply elem_of_nil in Hg]. by apply list_elem_of_singleton in Hg as ->.
  - intros gen [?|?%list_elem_of_singleton]%elem_of_app; auto.
Qed.

Lemma tinv_reset d w : tinv w -> tinv (tm_reset d w).1.
Proof.
  intros Hi. unfold tm_reset, upd; simpl. apply tinv_bump; try done; [|by left].
  intros a [?|[Ha|?%list_elem_of_singleton]%elem_of_app]%elem_of_app; [by left| |by right; right]. right; left.
  apply list_elem_of_fmap in Ha as (g & -> & Hg). exists g. split; [done|].
  destruct (tm_fire_g (tw_t w)); [|by apply elem_of_nil in Hg]. by apply list_elem_of_singleton in Hg as ->.
Qed.

(** The firing decision. *)
Lemma tinv_fire w g gen due : tinv w -> tw_fib w !! g = Some (FCheck gen due false) ->
  gen = tm_gen (tw_t w) -> tm_fired (tw_t w) = false ->
  tinv (put_fib (TWorld (Timer (tm_d (tw_t w)) (tm_c (tw_t w)) (tm_stopped (tw_t w)) true (tm_gen (tw_t w)) None)
    (tw_fib w) (tw_todo w) (tw_now w) (tw_fires w ++ [(gen, due, tw_now w)]) (tw_stops w)) g FSend).
Proof.
  intros [] Hp -> Hf. split; simpl; unfold fires_of in *; simpl; rewrite ?fmap_app; simpl; try done.
  - intros g' q. rewrite lookup_insert_Some. intros [[<- <-]|[_ ?]]; [done|by eapply ti_fib0].
  - intros g' gen' due' early. rewrite lookup_insert_Some. intros [[<- ?]|[_ ?]]; [done|by eapply ti_check0].
  - intros a Ha. specialize (ti_todo0 a Ha). destruct a as [g'|gen']; simpl in *; [|done].
    destruct ti_todo0 as (q & Hq & Hgq). rewrite lookup_insert. case_decide; [by eexists|by exists q].
  - intros gen [?|Hx%list_elem_of_singleton]%elem_of_app; [by apply ti_fires0|by subst].
  - apply NoDup_app. split_and!; [done| |apply NoDup_singleton].
    intros x Hx Hy%list_elem_of_singleton. subst x. apply ti_fired0 in Hx. congruence.
  - intros gen due' at_ [?|Hx%list_elem_of_singleton]%elem_of_app; [eauto|]. simplify_eq.
    by apply (ti_check0 _ _ _ _ Hp).
  - intros gen Hg. destruct (ti_stops0 gen Hg). split; [done|].
    intros [?|Hx%list_elem_of_singleton]%elem_of_app; [done|lia].
Qed.

Lemma put_fib_upd w g p : put_fib w g p = put_fib (upd w (tw_t w) (tw_todo w)) g p.
Proof. by destruct w. Qed.

Lemma tinv_tfire g w w' : tinv w -> tm_fire g w = Some w' -> tinv w'.
Proof.
  intros Hi H. unfold tm_fire in H.
  destruct (tw_fib w !! g) as [[gen d|gen due|gen due early| |]|] eqn:Ep; try done.
  - destruct (tm_stopped (tw_t w) || _) eqn:E; simplify_eq.
    + rewrite put_fib_upd. by eapply (tinv_put w g _ FEnd (tw_t w) Hi Ep); auto.
    + eapply (tinv_put w g _ _ _ Hi Ep); auto; destruct (0 <? d); try done.
      intros ? ? ? [= <- <- <-]. lia.
  - destruct (Z.leb_spec due (tw_now w)); simplify_eq. rewrite put_fib_upd.
    eapply (tinv_put w g _ _ (tw_t w) Hi Ep); auto. by intros ? ? ? [= <- <- <-].
  - destruct (_ || tm_fired (tw_t w)) eqn:E; simplify_eq.
    + rewrite put_fib_upd. by eapply (tinv_put w g _ FEnd (tw_t w) Hi Ep); auto.
    + apply orb_false_iff in E as [E Ef]. apply orb_false_iff in E as [_ Eg].
      apply negb_false_iff, Nat.eqb_eq in Eg.
      destruct early; [pose proof (ti_check _ Hi _ _ _ _ Ep); simpl in *; lia|].
      by apply tinv_fire.
  - simplify_eq. by eapply (tinv_put w g _ FEnd _ Hi Ep); auto.
Qed.

Lemma tinv_step w e w' : tinv w -> texec w e = Some w' -> tinv w'.
Proof.
  intros Hi H. destruct e as [|d|k g|g| |d]; simpl in H.
  - simplify_eq. by apply tinv_stop.
  - simplify_eq. by apply tinv_reset.
  - assert (tinv (upd w (tw_t w) (take k (tw_todo w) ++ drop (S k) (tw_todo w)))) as Hi1.
    { destruct Hi. split; simpl; try done. intros a [Ha|Ha]%elem_of_app; apply ti_todo0;
        apply list_elem_of_lookup_1 in Ha as [i Ha]; [apply lookup_take_Some in Ha as [Ha _]|rewrite lookup_drop in Ha];
        by eapply list_elem_of_lookup_2. }
    destruct (tw_todo w !! k) as [[g'|gen]|] eqn:Ek; [|destruct (tw_fib w !! g) eqn:Eg|]; simplify_eq.
    + unfold tm_cancel_wait; simpl. destruct (tw_fib w !! g') as [[]|] eqn:Eg; try done.
      apply list_elem_of_lookup_2 in Ek. destruct (ti_todo _ Hi _ Ek) as (p & Hp & Hg).
      eapply (tinv_put _ g' _ _ (tw_t w) Hi1 Eg); auto. intros ? ? ? [= <- <- <-]. simpl.
      rewrite Eg in Hp. by simplify_eq.
    + apply list_elem_of_lookup_2 in Ek. pose proof (ti_todo _ Hi _ Ek) as Hle; simpl in Hle.
      destruct Hi1. split; simpl in *; try done.
      * intros g' p. rewrite lookup_insert_Some. intros [[<- <-]|[_ ?]]; [done|by eapply ti_fib0].
      * intros g' n due early. rewrite lookup_insert_Some. intros [[<- ?]|[_ ?]]; [done|by eapply ti_check0].
      * intros a Ha. specialize (ti_todo0 a Ha). destruct a as [g'|n]; simpl in *; [|done].
        destruct ti_todo0 as (p & ? & ?). exists p. rewrite lookup_insert_ne; [done|congruence].
      * intros g' Hg'. rewrite lookup_insert. case_decide; [done|auto].
  - by eapply tinv_tfire.
  - simplify_eq. destruct Hi. by split.
  - destruct (Z.leb_spec 0 d); simplify_eq. destruct Hi. split; simpl; try done.
    intros g gen due [] Hp; specialize (ti_check0 g gen due _ Hp); simpl in *; [done|lia].
Qed.

Lemma tinv_reach d now w : treach (tm_init d now) w -> tinv w.
Proof.
  induction 1 as [|w e w' _ IH H]; [|by eapply tinv_step]. split; simpl; try done.
  - by intros a Ha%list_elem_of_singleton; subst a; simpl.
  - intros gen Hg. by apply elem_of_nil in Hg.
  - intros Hg. by apply elem_of_nil in Hg.
  - apply NoDup_nil_2.
  - intros gen due at_ Hg. by apply elem_of_nil in Hg.
  - intros gen Hg. by apply elem_of_nil in Hg.
Qed.

(** Timer correctness in every interleaving of [Stop], [Reset], the backing
    fibers, late [cancel_wait_fd] calls and late spawns: each arming fires at most
    once and not before its duration has elapsed, and an arming for which [Stop()]
    returned [True] never fires. *)
Theorem timer_fires_once_and_stop_wins d now w :
  treach (tm_init d now) w ->
  NoDup (fires_of w) /\ (forall gen due at_, (gen, due, at_) ∈ tw_fires w -> due <= at_) /\
  (forall gen, gen ∈ tw_stops w -> gen ∉ fires_of w).
Proof.
  intros Hr. destruct (tinv_reach d now w Hr). split_and!; [done..|]. intros gen Hg. by apply ti_stops0.
Qed.

(** [Stop()] and [Reset()] return whether they cancelled a live timer: [True]
    exactly when it was neither stopped nor fired; after a [Stop()] that returns
    [True] the timer is stopped, and a further [Stop()] returns [False]. *)
Theorem timer_stop_result d w :
  (tm_stop w).2 = (tm_reset d w).2 /\
  ((tm_stop w).2 = true <-> tm_stopped (tw_t w) = false /\ tm_fired (tw_t w) = false) /\
  (tm_stop (tm_stop w).1).2 = false.
Proof.
  unfold tm_stop, tm_reset; simpl. destruct (tm_stopped (tw_t w)) eqn:Es, (tm_fired (tw_t w)) eqn:Ef;
    simpl; rewrite ?Es, ?Ef; simpl; split_and!; try done; split; intros; try done; naive_solver.
Qed.

(** ** Ticker *)

Record ticker := Ticker { tk_d : Z; tk_c : chan1; tk_stopped : bool; tk_gen : nat; tk_tick_g : option tid }.

(** A backing fiber ([loop]) of generation [gen] with period [d]. *)
Inductive tick_pc := KTop (gen : nat) (d : Z) | KPark (gen : nat) (d due : Z) | KCheck (gen : nat) (d : Z)
  | KSend (gen : nat) (d : Z) | KEnd.

Record kworld := KWorld {
  kw_t : ticker;
  kw_fib : gmap tid tick_pc;
  kw_todo : list after_lock;
  kw_now : Z;
  kw_sends : nat            (** ticks sent or dropped *)
}.

(** [Ticker(seconds)] and [Reset] refuse a non-positive interval. *)
Definition check_interval (d : duration) : out Z :=
  match check_duration d with
  | Exc e => Exc e
  | Ret us => if us <=? 0 then Exc (ValueError "non-positive ticker interval") else Ret us
  end.

Definition tk_init (d : duration) (now : Z) : out kworld :=
  match check_interval d with
  | Exc e => Exc e
  | Ret us => Ret (KWorld (Ticker us ch_new false 0 None) ∅ [ASpawn 0] now 0)
  end.

Definition kupd (w : kworld) (t : ticker) (todo : list after_lock) : kworld :=
  KWorld t (kw_fib w) todo (kw_now w) (kw_sends w).
Definition kput (w : kworld) (g : tid) (p : tick_pc) : kworld :=
  KWorld (kw_t w) (<[g := p]> (kw_fib w)) (kw_todo w) (kw_now w) (kw_sends w).

Definition tk_stop (w : kworld) : kworld :=
  let t := kw_t w in
  if tk_stopped t then w
  else kupd w (Ticker (tk_d t) (tk_c t) true (S (tk_gen t)) None)
         (kw_todo w ++ (ACancelWait <$> option_list (tk_tick_g t))).

Definition tk_reset (d : duration) (w : kworld) : out kworld :=
  match check_interval d with
  | Exc e => Exc e
  | Ret us =>
      let t := kw_t w in
      Ret (kupd w (Ticker us (tk_c t) false (S (tk_gen t)) None)
             (kw_todo w ++ (ACancelWait <$> option_list (tk_tick_g t)) ++ [ASpawn (S (tk_gen t))]))
  end.

Definition tk_cancel_wait (g : tid) (w : kworld) : kworld :=
  match kw_fib w !! g with
  | Some (KPark gen d due) => kput w g (KCheck gen d)
  | _ => w
  end.

(** The next section of backing fiber [g]. *)
Definition tk_loop (g : tid) (w : kworld) : option kworld :=
  let t := kw_t w in
  match kw_fib w !! g with
  | Some (KTop gen d) =>
      if tk_stopped t || negb (tk_gen t =? gen)%nat then Some (kput w g KEnd)
      else Some (kput (kupd w (Ticker (tk_d t) (tk_c t) (tk_stopped t) (tk_gen t) (Some g)) (kw_todo w)) g
                   (KPark gen d (kw_now w + timeout_us d)))
  | Some (KPark gen d due) => if due <=? kw_now w then Some (kput w g (KCheck gen d)) else None
  | Some (KCheck gen d) =>
      if tk_stopped t || negb (tk_gen t =? gen)%nat then Some (kput w g KEnd)
      else Some (kput (kupd w (Ticker (tk_d t) (tk_c t) (tk_stopped t) (tk_gen t) None) (kw_todo w)) g (KSend gen d))
  | Some (KSend gen d) =>
      Some (kput (KWorld (Ticker (tk_d t) (try_send d (tk_c t)) (tk_stopped t) (tk_gen t) (tk_tick_g t))
              (kw_fib w) (kw_todo w) (kw_now w) (S (kw_sends w))) g (KTop gen d))
  | Some KEnd | None => None
  end.

Inductive kevent := KStop | KReset (d : duration) | KTodo (k : nat) (g : tid) | KLoop (g : tid) | KRecv | KTick (d : Z).

Definition kexec (w : kworld) (e : kevent) : option kworld :=
  match e with
  | KStop => Some (tk_stop w)
  | KReset d => match tk_reset d w with Ret w' => Some w' | Exc _ => None end
  | KTodo k g =>
      let w1 := kupd w (kw_t w) (take k (kw_todo w) ++ drop (S k) (kw_todo w)) in
      match kw_todo w !! k with
      | Some (ACancelWait g') => Some (tk_cancel_wait g' w1)
      | Some (ASpawn gen) =>
          match kw_fib w !! g with None => Some (kput w1 g (KTop gen (tk_d (kw_t w)))) | Some _ => None end
      | None => None
      end
  | KLoop g => tk_loop g w
  | KRecv => let t := kw_t w in
      Some (kupd w (Ticker (tk_d t) (try_recv (tk_c t)) (tk_stopped t) (tk_gen t) (tk_tick_g t)) (kw_todo w))
  | KTick d => if 0 <=? d then Some (KWorld (kw_t w) (kw_fib w) (kw_todo w) (kw_now w + d) (kw_sends w)) else None
  end.

Fixpoint krun (w : kworld) (es : list kevent) : option kworld :=
  match es with [] => Some w | e :: es' => w' ← kexec w e; krun w' es' end.

(** Sends to come while the ticker stays stopped: one for each fiber that had
    already passed its check. *)
Definition k_inflight (p : tick_pc) : Z := match p with KSend _ _ => 1 | _ => 0 end.

(** After [Stop()] a ticker falls silent: as long as it is not reset, no step
    increases (ticks sent + ticks in flight); so at most the ticks whose check preceded the
    [Stop()] are still sent, and none if no fiber was past its check. *)
Theorem ticker_silent_after_stop w e w' :
  tk_stopped (kw_t w) = true -> (forall d, e ≠ KReset d) -> kexec w e = Some w' ->
  tk_stopped (kw_t w') = true /\
  Z.of_nat (kw_sends w') + msum k_inflight (kw_fib w') = Z.of_nat (kw_sends w) + msum k_inflight (kw_fib w).
Proof.
  assert (forall w g p q, kw_fib w !! g = Some p ->
    msum k_inflight (<[g := q]> (kw_fib w)) = msum k_inflight (kw_fib w) - k_inflight p + k_inflight q) as Hm.
  { intros w0 g p q Hp. rewrite (msum_insert k_inflight _ _ _ KEnd) by done. by rewrite Hp. }
  intros Hs Hne H. destruct e as [|d|k g|g| |d]; simpl in H.
  - unfold tk_stop in H. rewrite Hs in H. by simplify_eq.
  - by destruct (Hne d).
  - destruct (kw_todo w !! k) as [[g'|gen]|]; [| |done].
    + unfold tk_cancel_wait in H; simpl in H.
      destruct (kw_fib w !! g') as [[]|] eqn:Ef; simplify_eq; simpl; split; try done. rewrite (Hm w g' _ _ Ef). simpl. lia.
    + destruct (kw_fib w !! g) eqn:Ef; simplify_eq. simpl. split; [done|].
      rewrite msum_insert_None by done. simpl. lia.
  - unfold tk_loop in H. rewrite Hs in H. simpl in H.
    destruct (kw_fib w !! g) as [[gen d|gen d du|gen d|gen d|]|] eqn:Ef; try done;
      [|destruct (du <=? kw_now w)|..]; simplify_eq; simpl; (split; [done|]); rewrite (Hm w g _ _ Ef); simpl; lia.
  - by simplify_eq.
  - destruct (0 <=? d); by simplify_eq.
Qed.

(** A tick can still be delivered after [Stop()] has returned: the backing
    fiber passes its check, [Stop()] runs to completion, and the fiber then sends. *)
Theorem ticker_tick_after_stop :
  exists w w1 w2, tk_init (DReal 1000) 0 = Ret w /\
    krun w [KTodo 0 1; KLoop 1; KTick 2000; KLoop 1; KLoop 1; KStop] = Some w1 /\
    tk_stopped (kw_t w1) = true /\ kw_todo w1 = [] /\ ch_buf (tk_c (kw_t w1)) = None /\
    krun w1 [KLoop 1] = Some w2 /\ ch_buf (tk_c (kw_t w2)) = Some 1000.
Proof. do 3 eexists. split_and!; try (vm_compute; reflexivity). Qed.

(** ** Witnesses *)

Lemma timer_fires_once_and_stop_wins_witness :
  let w := tafter (tm_init 5000 0)
    [TTodo 0 1; TFire 1; TStop; TTodo 0 1; TFire 1; TReset 1000; TTodo 0 2; TFire 2; TTick 3000; TFire 2; TFire 2; TFire 2] in
  tw_stops w = [0%nat] /\ fires_of w = [2%nat] /\
  NoDup (fires_of w) /\ (forall gen due at_, (gen, due, at_) ∈ tw_fires w -> due <= at_) /\
  (forall gen, gen ∈ tw_stops w -> gen ∉ fires_of w).
Proof.
  intros w. split; [vm_compute; reflexivity|]. split; [vm_compute; reflexivity|].
  apply (timer_fires_once_and_stop_wins 5000 0 w), tafter_reach.
Defined.

Lemma ticker_silent_after_stop_witness :
  let w := KWorld (Ticker 1000 ch_new true 1 None) {[1%nat := KSend 0 1000]} [] 0 0 in
  exists w', kexec w (KLoop 1) = Some w' /\ tk_stopped (kw_t w') = true /\
  Z.of_nat (kw_sends w') + msum k_inflight (kw_fib w') = Z.of_nat (kw_sends w) + msum k_inflight (kw_fib w).
Proof.
  intros w. eexists. split; [vm_compute; reflexivity|].
  eapply (ticker_silent_after_stop w (KLoop 1)); [reflexivity|done|vm_compute; reflexivity].
Defined.
