(* ===== verification/Parker.v ===== *)
(** * The parker: a wake-up slot over a pooled pipe

    Models [class _Parker] and [_unpark_all] of [src/src/stackweave/monkey/_base.py].  The kernel's
    pipes are modelled as the code uses them: a pair of descriptors and the number of bytes in
    between; [os.pipe()] gives descriptors that are not open.  The free list [_pool] is shared by
    all parkers; one step is one call, so a sequence of steps is one interleaving of the fibers and
    threads that use parkers. *)
From stdpp Require Import relations.
From S2P Require Import Prelude.
Local Open Scope Z_scope.

(** [r], [w], [_g_handle], [_via_park].  The code does not read the other two: [pk_live], [release()]
    has not returned, and [pk_rel], [release()] has drained the pipe. *)
Record parker := Parker { pk_r : Z; pk_w : Z; pk_g : option tid; pk_via : bool; pk_live : bool; pk_rel : bool }.

(** The parkers, the free list, the open pipes (write end to read end), the bytes in each pipe (by
    read end) and the pending wakes of the fibers. *)
Record pkworld := PkWorld {
  kw_pk : gmap nat parker;
  kw_pool : list (Z * Z);
  kw_pipes : gmap Z Z;
  kw_bytes : gmap Z nat;
  kw_tok : gmap tid nat
}.

Definition POOL_CAP : nat := 64.
(** What a pipe holds; a write to a full pipe raises [BlockingIOError], which is ignored. *)
Definition PIPE_BUF : nat := Z.to_nat 65536.

Definition pk_init : pkworld := PkWorld ∅ [] ∅ ∅ ∅.

Definition bytes_in (s : pkworld) (r : Z) : nat := default O (kw_bytes s !! r).

Definition set_pk (i : nat) (p : parker) (s : pkworld) : pkworld :=
  PkWorld (<[i := p]> (kw_pk s)) (kw_pool s) (kw_pipes s) (kw_bytes s) (kw_tok s).
Definition set_bytes (r : Z) (n : nat) (s : pkworld) : pkworld :=
  PkWorld (kw_pk s) (kw_pool s) (kw_pipes s) (<[r := n]> (kw_bytes s)) (kw_tok s).

(** [h.wake()] *)
Definition g_wake (h : tid) (s : pkworld) : pkworld :=
  PkWorld (kw_pk s) (kw_pool s) (kw_pipes s) (kw_bytes s) (<[h := S (default O (kw_tok s !! h))]> (kw_tok s)).

(** [list.pop()]: the last pair. *)
Definition pool_pop (l : list (Z * Z)) : option (list (Z * Z) * (Z * Z)) :=
  match rev l with [] => None | x :: l' => Some (rev l', x) end.

(** [__init__(inmem)] of parker [i] on a fiber or thread with handle [cur]; [fresh] is what
    [os.pipe()] would return. *)
Definition pk_new (i : nat) (inmem : bool) (cur : option tid) (fresh : Z * Z) (s : pkworld) : pkworld :=
  if inmem then set_pk i (Parker (-1) (-1) cur true true false) s
  else
    match pool_pop (kw_pool s) with
    | Some (pool', (r, w)) =>
        PkWorld (<[i := Parker r w None false true false]> (kw_pk s)) pool' (kw_pipes s) (kw_bytes s) (kw_tok s)
    | None =>
        let '(r, w) := fresh in
        PkWorld (<[i := Parker r w None false true false]> (kw_pk s)) (kw_pool s) (<[w := r]> (kw_pipes s)) (<[r := O]> (kw_bytes s)) (kw_tok s)
    end.

(** [park()] up to its wait: publish the handle; [cur]: [current_g()], [None] on a foreign thread. *)
Definition pk_park (i : nat) (cur : option tid) (s : pkworld) : pkworld :=
  match kw_pk s !! i with
  | Some p => if pk_via p then s else set_pk i (Parker (pk_r p) (pk_w p) cur (pk_via p) (pk_live p) (pk_rel p)) s
  | None => s
  end.

(** Whether the wait of [park()] returns at once: a byte in the pipe, or a pending wake. *)
Definition pk_ready (i : nat) (s : pkworld) : bool :=
  match kw_pk s !! i with
  | Some p =>
      if pk_via p then match pk_g p with Some h => bool_decide (0 < default O (kw_tok s !! h))%nat | None => false end
      else bool_decide (0 < bytes_in s (pk_r p))%nat
  | None => false
  end.

(** [park()] after its wait: [_raw_os_read(self.r, 64)], or one pending wake consumed. *)
Definition pk_parked (i : nat) (s : pkworld) : pkworld :=
  match kw_pk s !! i with
  | Some p =>
      if pk_via p then
        match pk_g p with
        | Some h => PkWorld (kw_pk s) (kw_pool s) (kw_pipes s) (kw_bytes s) (<[h := pred (default O (kw_tok s !! h))]> (kw_tok s))
        | None => s
        end
      else set_bytes (pk_r p) (bytes_in s (pk_r p) - 64) s
  | None => s
  end.

(** [_raw_os_write(self.w, b"\x01")]: to whatever pipe has this write end now; errors ignored. *)
Definition pipe_write (w : Z) (s : pkworld) : pkworld :=
  match kw_pipes s !! w with
  | Some r => set_bytes r (S (bytes_in s r) `min` PIPE_BUF) s
  | None => s
  end.

(** [unpark()] *)
Definition pk_unpark (i : nat) (s : pkworld) : pkworld :=
  match kw_pk s !! i with
  | Some p => if pk_via p then match pk_g p with Some h => g_wake h s | None => s end else pipe_write (pk_w p) s
  | None => s
  end.

(** [release()] up to the pool lock: drop the handle and drain the pipe. *)
Definition pk_drain (i : nat) (s : pkworld) : pkworld :=
  match kw_pk s !! i with
  | Some p =>
      let s1 := set_pk i (Parker (pk_r p) (pk_w p) None (pk_via p) (pk_live p) true) s in
      if pk_via p then s1 else set_bytes (pk_r p) O s1
  | None => s
  end.

(** The rest of [release()]: pool the pipe or close it; [contended]: [_pool_lock.acquire(False)]
    fails.  Other threads may run in between. *)
Definition pk_give (i : nat) (contended : bool) (s : pkworld) : pkworld :=
  match kw_pk s !! i with
  | Some p =>
      let s1 := set_pk i (Parker (pk_r p) (pk_w p) None (pk_via p) false true) s in
      if pk_via p then s1
      else if negb contended && bool_decide (length (kw_pool s1) < POOL_CAP)%nat
      then PkWorld (kw_pk s1) (kw_pool s1 ++ [(pk_r p, pk_w p)]) (kw_pipes s1) (kw_bytes s1) (kw_tok s1)
      else PkWorld (kw_pk s1) (kw_pool s1) (delete (pk_w p) (kw_pipes s1)) (delete (pk_r p) (kw_bytes s1)) (kw_tok s1)
  | None => s
  end.

(** [release()] with nothing in between. *)
Definition pk_release (i : nat) (contended : bool) (s : pkworld) : pkworld := pk_give i contended (pk_drain i s).

(** ** [_unpark_all] *)

(** How one waiter is woken: [g.wake()], a direct wake by [unpark_many], or a byte in its pipe. *)
Inductive route := RWake (h : tid) | RDirect (h : tid) | RWrite (w : Z).

(** The partition of the first loop: handles of in-memory parkers, and the others. *)
Definition inmem_gs (ps : list parker) : list tid := omap (λ p, if pk_via p then pk_g p else None) ps.
Definition rest_of (ps : list parker) : list parker := filter (λ p, pk_via p = false) ps.

(** [unpark_many(gor)] wakes [gor] but for the indices it returns. *)
Fixpoint direct_wakes (k : nat) (missed : list nat) (gor : list (tid * parker)) : list route :=
  match gor with
  | [] => []
  | (h, p) :: gor' => (if bool_decide (k ∈ missed) then [] else [RDirect h]) ++ direct_wakes (S k) missed gor'
  end.

(** The routes taken, in order, by a setter on a fiber ([in_fiber]) or on a foreign thread, when
    [unpark_many] misses the indices [missed gor]. *)
Definition unpark_all (in_fiber : bool) (missed : list tid -> list nat) (ps : list parker) : list route :=
  let rest := rest_of ps in
  (RWake <$> inmem_gs ps) ++
  if negb in_fiber then (λ p, RWrite (pk_w p)) <$> rest
  else
    let gor := omap (λ p, match pk_g p with Some h => Some (h, p) | None => None end) rest in
    let miss := missed gor.*1 in
    ((λ p, RWrite (pk_w p)) <$> filter (λ p, pk_g p = None) rest) ++
    direct_wakes 0 miss gor ++ omap (λ i, (λ hp, RWrite (pk_w hp.2)) <$> gor !! i) miss.

(** What waking parker [p] takes, by its kind. *)
Definition wakes (p : parker) (x : route) : Prop :=
  match x with
  | RWake h => pk_via p = true /\ pk_g p = Some h
  | RDirect h => pk_via p = false /\ pk_g p = Some h
  | RWrite w => pk_via p = false /\ pk_w p = w
  end.

Lemma direct_wakes_hit k missed gor i h p : gor !! i = Some (h, p) -> (k + i)%nat ∉ missed -> RDirect h ∈ direct_wakes k missed gor.
Proof.
  revert k i. induction gor as [|[h' p'] gor IH]; intros k [|i] Hi Hm; simplify_eq/=; apply elem_of_app.
  - left. rewrite Nat.add_0_r in Hm. rewrite bool_decide_eq_false_2 by done. by left.
  - right. apply (IH (S k) i); [done|]. by rewrite Nat.add_succ_comm.
Qed.

Lemma direct_wakes_inv k missed gor x : x ∈ direct_wakes k missed gor -> exists i h p, gor !! i = Some (h, p) /\ (k + i)%nat ∉ missed /\ x = RDirect h.
Proof.
  revert k. induction gor as [|[h p] gor IH]; intros k Hx; simpl in Hx; [by apply not_elem_of_nil in Hx|].
  apply elem_of_app in Hx as [Hx|(i & h' & p' & Hi & Hm & ->)%IH].
  - case_bool_decide as Hk; [by apply not_elem_of_nil in Hx|]. apply list_elem_of_singleton in Hx as ->. exists O, h, p. by rewrite Nat.add_0_r.
  - exists (S i), h', p'. by rewrite <- Nat.add_succ_comm.
Qed.

(** A batched wake reaches everyone by the right route: every parker of the batch that still has a
    waiter is woken by [g.wake()] if it parks in memory, and otherwise by a direct wake or by a byte
    in its own pipe, whichever handles [unpark_many] missed; nothing else is woken; and a foreign
    thread never uses the direct wake. *)
Theorem unpark_all_reaches in_fiber missed ps :
  (forall p, p ∈ ps -> (pk_via p = true -> pk_g p ≠ None) -> exists x, x ∈ unpark_all in_fiber missed ps /\ wakes p x) /\
  (forall x, x ∈ unpark_all in_fiber missed ps -> exists p, p ∈ ps /\ wakes p x) /\
  (in_fiber = false -> forall h, RDirect h ∉ unpark_all in_fiber missed ps).
Proof.
  unfold unpark_all. set (rest := rest_of ps). set (gor := omap _ rest). set (miss := missed gor.*1).
  assert (Hrest : forall p, p ∈ rest <-> pk_via p = false /\ p ∈ ps) by (intros p; unfold rest, rest_of; by rewrite list_elem_of_filter).
  assert (Hgor : forall i h p, gor !! i = Some (h, p) -> p ∈ rest /\ pk_g p = Some h).
  { intros i h p Hi%list_elem_of_lookup_2. unfold gor in Hi. apply list_elem_of_omap in Hi as (p' & Hp' & E).
    destruct (pk_g p') eqn:Eg; by simplify_eq. }
  split_and!.
  - intros p Hp Hv. destruct (pk_via p) eqn:Ev.
    { destruct (pk_g p) as [h|] eqn:Eg; [|by destruct Hv]. exists (RWake h). split; [|done]. apply elem_of_app. left.
      apply list_elem_of_fmap. exists h. split; [done|]. apply list_elem_of_omap. exists p. by rewrite Ev. }
    assert (Hr : p ∈ rest) by (by apply Hrest). destruct in_fiber; simpl.
    2: { exists (RWrite (pk_w p)). split; [|done]. apply elem_of_app. right. apply list_elem_of_fmap. eauto. }
    destruct (pk_g p) as [h|] eqn:Eg.
    2: { exists (RWrite (pk_w p)). split; [|done]. rewrite !elem_of_app. right. left. apply list_elem_of_fmap. exists p. split; [done|].
         by apply list_elem_of_filter. }
    assert (exists i, gor !! i = Some (h, p)) as [i Hi].
    { apply list_elem_of_lookup. apply list_elem_of_omap. exists p. by rewrite Eg. }
    destruct (decide (i ∈ miss)) as [Hm|Hm].
    + exists (RWrite (pk_w p)). split; [|done]. rewrite !elem_of_app. right. right. right. apply list_elem_of_omap. exists i. by rewrite Hi.
    + exists (RDirect h). split; [|done]. rewrite !elem_of_app. right. right. left. by apply (direct_wakes_hit 0 _ _ i h p).
  - intros x [(h & -> & (p & Hp & E)%list_elem_of_omap)%list_elem_of_fmap|Hx]%elem_of_app.
    { exists p. split; [done|]. by destruct (pk_via p) eqn:Ev. }
    destruct in_fiber; simpl in Hx.
    + apply elem_of_app in Hx as [(p & -> & [? [? ?]%Hrest]%list_elem_of_filter)%list_elem_of_fmap|[Hx|Hx]%elem_of_app]; [by exists p| |].
      * apply direct_wakes_inv in Hx as (i & h & p & [[? ?]%Hrest ?]%Hgor & _ & ->). by exists p.
      * apply list_elem_of_omap in Hx as (i & _ & Hx). destruct (gor !! i) as [[h p]|] eqn:Ei; simplify_eq/=.
        apply Hgor in Ei as [[? ?]%Hrest ?]. by exists p.
    + apply list_elem_of_fmap in Hx as (p & -> & [? ?]%Hrest). by exists p.
  - intros -> h Hx. simpl in Hx. rewrite elem_of_app, !list_elem_of_fmap in Hx. naive_solver.
Qed.

(** ** The pool of pipes

    Steps of callers that use a parker only until they release it.  Another thread may wake it at any
    time: with [late], also while it is being released and after that, when its pipe may be in the
    free list, have another owner or be closed. *)

Definition live (s : pkworld) (i : nat) (p : parker) : Prop := kw_pk s !! i = Some p /\ pk_live p = true.
Definition is_open (s : pkworld) (fd : Z) : Prop := exists w r, kw_pipes s !! w = Some r /\ (fd = w \/ fd = r).

Inductive pkstep (late : bool) (s : pkworld) : pkworld -> Prop :=
  | ps_new i inmem cur r w : kw_pk s !! i = None -> r ≠ w -> ~ is_open s r -> ~ is_open s w -> pkstep late s (pk_new i inmem cur (r, w) s)
  | ps_park i cur p : live s i p -> pk_rel p = false -> pkstep late s (pk_park i cur s)
  | ps_parked i p : live s i p -> pk_rel p = false -> pkstep late s (pk_parked i s)
  | ps_unpark i p : kw_pk s !! i = Some p -> late = true \/ pk_live p = true /\ pk_rel p = false -> pkstep late s (pk_unpark i s)
  | ps_drain i p : live s i p -> pk_rel p = false -> pkstep late s (pk_drain i s)
  | ps_give i p c : live s i p -> pk_rel p = true -> pkstep late s (pk_give i c s).

Inductive pkreach (late : bool) : pkworld -> Prop :=
  | pr_init : pkreach late pk_init
  | pr_step s s' : pkreach late s -> pkstep late s s' -> pkreach late s'.

(** Pipe [(r, w)] belongs to parker [i]. *)
Definition holds (s : pkworld) (i : nat) (r w : Z) : Prop := exists p, live s i p /\ pk_via p = false /\ pk_r p = r /\ pk_w p = w.

Record pk_ok (s : pkworld) : Prop := {
  pko_held i r w : holds s i r w -> kw_pipes s !! w = Some r;
  pko_pool r w : (r, w) ∈ kw_pool s -> kw_pipes s !! w = Some r;
  pko_one i j r r' w : holds s i r w -> holds s j r' w -> i = j;
  pko_free i r w : holds s i r w -> (r, w) ∉ kw_pool s;
  pko_nodup : NoDup (kw_pool s);
  pko_inj w w' r : kw_pipes s !! w = Some r -> kw_pipes s !! w' = Some r -> w = w';
  pko_leak r w : kw_pipes s !! w = Some r -> (r, w) ∈ kw_pool s \/ exists i, holds s i r w;
  pko_cap : (length (kw_pool s) <= POOL_CAP)%nat
}.

(** A step that leaves the owners, the pool and the pipes alone. *)
Lemma pk_ok_frame s s' : pk_ok s -> (forall i r w, holds s' i r w <-> holds s i r w) -> kw_pool s' = kw_pool s ->
  kw_pipes s' = kw_pipes s -> pk_ok s'.
Proof.
  intros [H1 H2 H3 H4 H5 H6 H7 H8] Hh Ep Ei. split; rewrite ?Ep, ?Ei; try done.
  - intros i r w. rewrite Hh. apply H1.
  - intros i j r r' w. rewrite !Hh. apply H3.
  - intros i r w. rewrite Hh. apply H4.
  - intros r w Hp. destruct (H7 r w Hp) as [?|[i ?]]; [by left|right]. exists i. by apply Hh.
Qed.

Lemma holds_set_pk s i p j r w :
  holds (set_pk i p s) j r w <-> if decide (i = j) then pk_live p = true /\ pk_via p = false /\ pk_r p = r /\ pk_w p = w else holds s j r w.
Proof.
  unfold holds, live, set_pk; simpl. case_decide as E; [subst; rewrite lookup_insert_eq|rewrite lookup_insert_ne by done]; naive_solver.
Qed.

Lemma holds_same s s' i r w : kw_pk s' = kw_pk s -> holds s' i r w <-> holds s i r w.
Proof. intros E. unfold holds, live. by rewrite E. Qed.

Lemma live_holds s i p : live s i p -> pk_via p = false -> holds s i (pk_r p) (pk_w p).
Proof. intros H1 H2. by exists p. Qed.

(** The pipe of a live parker is not in the pool. *)
Lemma held_not_pooled s i r w w' : pk_ok s -> holds s i r w -> (r, w') ∉ kw_pool s.
Proof.
  intros Hok Hh Hin. pose proof (pko_pool s Hok _ _ Hin) as Hp. pose proof (pko_held s Hok _ _ _ Hh) as Hp'.
  rewrite (pko_inj s Hok _ _ _ Hp Hp') in Hin. by apply (pko_free s Hok i r w).
Qed.

Lemma bytes_set s r n r' : bytes_in (set_bytes r n s) r' = if decide (r = r') then n else bytes_in s r'.
Proof. unfold bytes_in; simpl. rewrite lookup_insert. by case_decide. Qed.

Lemma pk_ok_set_bytes s r n : pk_ok s -> pk_ok (set_bytes r n s).
Proof. intros Hok. by apply (pk_ok_frame s). Qed.

(** A change of a parker that leaves it the owner of what it owns. *)
Lemma pk_ok_set_pk s i p p' : pk_ok s -> live s i p -> pk_live p' = true -> pk_via p' = pk_via p -> pk_r p' = pk_r p -> pk_w p' = pk_w p ->
  pk_ok (set_pk i p' s).
Proof.
  intros Hok [Hp Hl] E1 E2 E3 E4. apply (pk_ok_frame s); try done. intros j r w. rewrite holds_set_pk. case_decide; [subst|done].
  rewrite E2, E3, E4. unfold holds, live. naive_solver.
Qed.

Lemma pk_ok_park s i cur p : pk_ok s -> live s i p -> pk_ok (pk_park i cur s).
Proof.
  intros Hok Hl. pose proof Hl as [Hp Hlv]. unfold pk_park. rewrite Hp. destruct (pk_via p) eqn:Ev; [done|]. by apply (pk_ok_set_pk s i p).
Qed.

Lemma pk_ok_parked s i p : pk_ok s -> live s i p -> pk_ok (pk_parked i s).
Proof.
  intros Hok Hl. pose proof Hl as [Hp _]. unfold pk_parked. rewrite Hp. destruct (pk_via p) eqn:Ev; [|by apply pk_ok_set_bytes].
  destruct (pk_g p); [|done]. by apply (pk_ok_frame s).
Qed.

Lemma pk_ok_unpark s i : pk_ok s -> pk_ok (pk_unpark i s).
Proof.
  intros Hok. unfold pk_unpark. destruct (kw_pk s !! i) as [p|]; [|done]. destruct (pk_via p).
  - destruct (pk_g p); [|done]. by apply (pk_ok_frame s).
  - unfold pipe_write. destruct (kw_pipes s !! _); [|done]. by apply pk_ok_set_bytes.
Qed.

Lemma pk_ok_drain s i p : pk_ok s -> live s i p -> pk_ok (pk_drain i s).
Proof.
  intros Hok Hl. pose proof Hl as [Hp Hlv]. unfold pk_drain. rewrite Hp. destruct (pk_via p) eqn:Ev; [|apply pk_ok_set_bytes]; by apply (pk_ok_set_pk s i p).
Qed.

Lemma pool_pop_Some l l' x : pool_pop l = Some (l', x) -> l = l' ++ [x].
Proof.
  unfold pool_pop. destruct (rev l) as [|y k] eqn:E; [done|]. intros [= <- <-].
  rewrite <- (rev_involutive l), E. done.
Qed.

Lemma pk_ok_new s i inmem cur r w : pk_ok s -> kw_pk s !! i = None -> r ≠ w -> ~ is_open s r -> ~ is_open s w -> pk_ok (pk_new i inmem cur (r, w) s).
Proof.
  intros Hok Hi Hrw Hr Hw. pose proof Hok as [H1 H2 H3 H4 H5 H6 H7 H8].
  assert (Hno : forall r' w', ~ holds s i r' w') by (intros r' w' (p & [Hp _] & _); congruence). unfold pk_new. destruct inmem.
  { apply (pk_ok_frame s); try done. intros j r' w'. rewrite holds_set_pk. case_decide; [subst|done]. naive_solver. }
  destruct (pool_pop (kw_pool s)) as [[pool' [r0 w0]]|] eqn:Epop.
  - apply pool_pop_Some in Epop. rewrite Epop in *. apply NoDup_app in H5 as (N1 & N2 & _). rewrite length_app in H8. simpl in H8.
    assert (Hin0 : kw_pipes s !! w0 = Some r0) by (apply H2, elem_of_app; right; by left).
    set (s' := PkWorld _ _ _ _ _).
    assert (Hh : forall j r' w', holds s' j r' w' <-> holds s j r' w' \/ j = i /\ r' = r0 /\ w' = w0).
    { intros j r' w'. rewrite <- (holds_same s' (set_pk i (Parker r0 w0 None false true false) s)), holds_set_pk by done. case_decide; naive_solver. }
    split; simpl; try done.
    + intros j r' w' [?|(-> & -> & ->)]%Hh; eauto.
    + intros r' w' Hin. apply H2, elem_of_app. by left.
    + intros j k r1 r2 w' [Ha|(-> & -> & ->)]%Hh [Hb|(-> & -> & E)]%Hh; subst; eauto; exfalso.
      * apply H1 in Ha as Ha'. simplify_eq. apply (H4 _ _ _ Ha), elem_of_app. right; by left.
      * apply H1 in Hb as Hb'. simplify_eq. apply (H4 _ _ _ Hb), elem_of_app. right; by left.
    + intros j r' w' [Ha|(-> & -> & ->)]%Hh Hin; [apply (H4 _ _ _ Ha), elem_of_app; by left|]. apply (N2 _ Hin). by left.
    + intros r' w' Hp. destruct (H7 r' w' Hp) as [[?|E%list_elem_of_singleton]%elem_of_app|[j ?]]; [by left| |]; right; [|exists j; by apply Hh; left].
      simplify_eq. exists i. apply Hh. by right.
    + lia.
  - assert (Hfw : kw_pipes s !! w = None) by (destruct (kw_pipes s !! w) eqn:E; [destruct Hw; exists w, z; auto|done]).
    assert (Hfr : forall w' r', kw_pipes s !! w' = Some r' -> r' ≠ r) by (intros w' r' E ->; apply Hr; exists w', r; auto).
    set (s' := PkWorld _ _ _ _ _).
    assert (Hh : forall j r' w', holds s' j r' w' <-> holds s j r' w' \/ j = i /\ r' = r /\ w' = w).
    { intros j r' w'. rewrite <- (holds_same s' (set_pk i (Parker r w None false true false) s)), holds_set_pk by done. case_decide; naive_solver. }
    assert (Hkeep : forall w' r', kw_pipes s !! w' = Some r' -> <[w:=r]> (kw_pipes s) !! w' = Some r').
    { intros w' r' E. rewrite lookup_insert_ne; [done|]. congruence. }
    split; simpl; try done.
    + intros j r' w' [?|(-> & -> & ->)]%Hh; [eauto|by rewrite lookup_insert_eq].
    + intros r' w' Hin. eauto.
    + intros j k r1 r2 w' [Ha|(-> & -> & ->)]%Hh [Hb|(-> & -> & E)]%Hh; subst; eauto; exfalso; [apply H1 in Ha|apply H1 in Hb]; congruence.
    + intros j r' w' [Ha|(-> & -> & ->)]%Hh Hin; [by apply (H4 _ _ _ Ha)|]. apply H2 in Hin. congruence.
    + intros w1 w2 r' [[<- <-]|[? E1]]%lookup_insert_Some [[<- E]|[? E2]]%lookup_insert_Some; [done|by apply Hfr in E2|subst; by apply Hfr in E1|eauto].
    + intros r' w' [[<- <-]|[? E]]%lookup_insert_Some; [right; exists i; apply Hh; by right|].
      destruct (H7 _ _ E) as [?|[j ?]]; [by left|right]. exists j. apply Hh. by left.
Qed.

Lemma pk_ok_give s i p c : pk_ok s -> live s i p -> pk_ok (pk_give i c s).
Proof.
  intros Hok Hl. pose proof Hl as [Hp _]. pose proof Hok as [H1 H2 H3 H4 H5 H6 H7 H8]. unfold pk_give. rewrite Hp.
  set (s1 := set_pk i _ s). destruct (pk_via p) eqn:Ev.
  { apply (pk_ok_frame s); try done. intros j r w. unfold s1. rewrite holds_set_pk. case_decide; [subst|done].
    simpl. split; [naive_solver|]. intros (p' & [Hp' _] & ? & _). congruence. }
  pose proof (live_holds s i p Hl Ev) as Hi. set (r0 := pk_r p) in *. set (w0 := pk_w p) in *. pose proof (H1 _ _ _ Hi) as Hpipe.
  assert (Hh : forall s' j r w, kw_pk s' = kw_pk s1 -> holds s' j r w <-> holds s j r w /\ j ≠ i).
  { intros s' j r w E. rewrite (holds_same s1 s' j r w E). unfold s1. rewrite holds_set_pk. case_decide; [subst; simpl|]; naive_solver. }
  assert (Hother : forall j r w, holds s j r w -> j ≠ i -> w ≠ w0) by (intros j r w Hj Hne ->; by destruct Hne; eapply H3).
  assert (Hb : forall r w, (r, w) ∈ kw_pool s -> r0 ≠ r) by (intros r w Hin <-; by eapply held_not_pooled).
  destruct (negb c && _) eqn:Ec; simpl; set (s' := PkWorld _ _ _ _ _).
  - apply andb_true_iff in Ec as [_ Hcap%bool_decide_eq_true]. simpl in Hcap. split; simpl; try done.
    + intros j r w [? _]%Hh; [eauto|done].
    + intros r w [Hin|[= -> ->]%list_elem_of_singleton]%elem_of_app; auto.
    + intros j k r r' w [? _]%Hh [? _]%Hh; [eauto|done..].
    + intros j r w [Hj Hne]%Hh Hin; [|done]. apply elem_of_app in Hin as [Hin|E%list_elem_of_singleton]; [by apply (H4 _ _ _ Hj)|].
      injection E as -> ->. by apply (Hother j r0 w0).
    + apply NoDup_app. split_and!; [done| |apply NoDup_singleton]. intros x Hx ->%list_elem_of_singleton. by apply (H4 _ _ _ Hi).
    + intros r w E. destruct (H7 _ _ E) as [?|[j Hj]]; [left; apply elem_of_app; by left|].
      destruct (decide (j = i)) as [->|Hne]; [|right; exists j; by apply Hh].
      left. apply elem_of_app. right. destruct Hj as (p' & [Hp' _] & _ & <- & <-). assert (p' = p) as -> by congruence. by left.
    + rewrite length_app. simpl. lia.
  - split; simpl; try done.
    + intros j r w [Hj Hne]%Hh; [|done]. rewrite lookup_delete_ne; [eauto|]. intros <-. by apply (Hother j r w0).
    + intros r w Hin. pose proof (H2 _ _ Hin). rewrite lookup_delete_ne; [done|]. intros <-. assert (r = r0) as -> by congruence. by apply (Hb r0 w0).
    + intros j k r r' w [? _]%Hh [? _]%Hh; [eauto|done..].
    + intros j r w [Hj Hne]%Hh; [|done]. by apply H4 in Hj.
    + intros w w' r [_ ?]%lookup_delete_Some [_ ?]%lookup_delete_Some. eauto.
    + intros r w [Hne E]%lookup_delete_Some. destruct (H7 _ _ E) as [?|[j Hj]]; [by left|]. right. exists j. apply Hh; [done|]. split; [done|].
      intros ->. destruct Hj as (p' & [Hp' _] & _ & _ & <-). assert (p' = p) as -> by congruence. done.
Qed.

Lemma pkreach_ok late s : pkreach late s -> pk_ok s.
Proof.
  induction 1 as [|s s' Hr IH Hst].
  - split; simpl; try done; try (intros; by apply not_elem_of_nil in H); try constructor; try (unfold POOL_CAP; lia).
    + intros i r w (p & [Hp _] & _). done.
    + by intros i j r r' w (p & [Hp _] & _).
    + by intros i r w (p & [Hp _] & _).
  - destruct Hst; [by apply pk_ok_new|by eapply pk_ok_park|by eapply pk_ok_parked|by apply pk_ok_unpark|by eapply pk_ok_drain|by eapply pk_ok_give].
Qed.

(** ** Stale bytes *)

(** Pipes that have been drained and not taken again are empty. *)
Record pk_clean (s : pkworld) : Prop := {
  pkc_pool r w : (r, w) ∈ kw_pool s -> bytes_in s r = O;
  pkc_rel i p : live s i p -> pk_via p = false -> pk_rel p = true -> bytes_in s (pk_r p) = O
}.

(** Bytes written to the pipe of a parker in use stay out of the drained ones. *)
Lemma pk_clean_bytes s i p n : pk_ok s -> pk_clean s -> live s i p -> pk_via p = false -> pk_rel p = false -> pk_clean (set_bytes (pk_r p) n s).
Proof.
  intros Hok [C1 C2] Hl Ev Er. pose proof (live_holds s i p Hl Ev) as Hi. split.
  - intros r w Hin. rewrite bytes_set. case_decide as E; [|by eapply C1]. subst. by destruct (held_not_pooled s i (pk_r p) (pk_w p) w Hok Hi).
  - intros j q Hj Ev' Er'. rewrite bytes_set. case_decide as E; [|by eapply C2]. pose proof (live_holds s j q Hj Ev') as Hj'.
    pose proof (pko_held s Hok _ _ _ Hi) as E1. pose proof (pko_held s Hok _ _ _ Hj') as E2. rewrite <- E in E2.
    pose proof (pko_inj s Hok _ _ _ E1 E2) as E3. rewrite <- E3 in Hj'. rewrite (pko_one s Hok _ _ _ _ _ Hi Hj') in Hl.
    destruct Hl as [Hl _], Hj as [Hj _]. simpl in Hj. congruence.
Qed.

Lemma pk_clean_set_pk s i p : pk_clean s -> (pk_live p = true -> pk_via p = false -> pk_rel p = true -> bytes_in s (pk_r p) = O) ->
  pk_clean (set_pk i p s).
Proof.
  intros [C1 C2] Hp. split; [done|]. intros j q [Hj Hl] Ev Er. simpl in Hj. apply lookup_insert_Some in Hj as [[<- <-]|[_ Hj]]; [by apply Hp|].
  change (bytes_in s (pk_r q) = 0%nat). eapply C2; [by split|done..].
Qed.

Lemma pk_clean_new s i inmem cur r w : pk_ok s -> pk_clean s -> ~ is_open s r -> pk_clean (pk_new i inmem cur (r, w) s).
Proof.
  intros Hok Hc Hr. pose proof Hc as [C1 C2]. unfold pk_new. destruct inmem; [by apply pk_clean_set_pk|].
  destruct (pool_pop (kw_pool s)) as [[pool' [r0 w0]]|] eqn:Epop.
  - apply pool_pop_Some in Epop. destruct (pk_clean_set_pk s i (Parker r0 w0 None false true false) Hc ltac:(done)) as [D1 D2]. split; [|exact D2].
    intros r' w' Hin. apply (C1 r' w'). rewrite Epop. apply elem_of_app. by left.
  - assert (Hb : forall w' r', kw_pipes s !! w' = Some r' -> default O (<[r := O]> (kw_bytes s) !! r') = bytes_in s r').
    { intros w' r' E. rewrite lookup_insert_ne; [done|]. intros <-. apply Hr. exists w', r. auto. }
    split; simpl.
    + intros r' w' Hin. unfold bytes_in; simpl. rewrite (Hb w'); [by eapply C1|]. by apply (pko_pool s Hok).
    + intros j q [Hj Hl] Ev Er. simpl in Hj. apply lookup_insert_Some in Hj as [[<- <-]|[_ Hj]]; [done|].
      unfold bytes_in; simpl. rewrite (Hb (pk_w q)); [eapply C2; [by split|done..]|].
      apply (pko_held s Hok j). exists q. by split_and!.
Qed.

Lemma pk_clean_give s i p c : pk_ok s -> pk_clean s -> live s i p -> pk_rel p = true -> pk_clean (pk_give i c s).
Proof.
  intros Hok Hc Hl Er. pose proof Hl as [Hp _]. unfold pk_give. rewrite Hp.
  pose proof (pk_clean_set_pk s i (Parker (pk_r p) (pk_w p) None (pk_via p) false true) Hc ltac:(done)) as [D1 D2].
  destruct (pk_via p) eqn:Ev; [done|]. destruct (negb c && _).
  - split; [|exact D2]. simpl. intros r w [Hin|[= -> ->]%list_elem_of_singleton]%elem_of_app; [by eapply D1|]. by eapply (pkc_rel s Hc).
  - assert (Hd : forall r', default O (delete (pk_r p) (kw_bytes s) !! r') = O \/ default O (delete (pk_r p) (kw_bytes s) !! r') = bytes_in s r').
    { intros r'. rewrite lookup_delete. case_decide; auto. }
    split; unfold bytes_in; simpl.
    + intros r w Hin. destruct (Hd r) as [?|E]; [done|]. rewrite E. by eapply D1.
    + intros j q Hj Ev' Er'. destruct (Hd (pk_r q)) as [?|E]; [done|]. rewrite E. by eapply D2.
Qed.

(** Without late wakes no drained pipe gets a byte. *)
Lemma pkreach_clean s : pkreach false s -> pk_clean s.
Proof.
  induction 1 as [|s s' Hr IH Hst]; [split; [by intros r w ?%elem_of_nil|by intros i p [? _]]|]. pose proof (pkreach_ok false s Hr) as Hok.
  destruct Hst as [i inmem cur r w ? ? ? ?|i cur p Hl Er|i p Hl Er|i p Hp [?|[Hlv Er]]|i p Hl Er|i p c Hl Er].
  - by apply pk_clean_new.
  - destruct Hl as [Hp Hlv]. unfold pk_park. rewrite Hp. destruct (pk_via p); [done|]. apply pk_clean_set_pk; [done|]. simpl. congruence.
  - pose proof Hl as [Hp Hlv]. unfold pk_parked. rewrite Hp. destruct (pk_via p) eqn:Ev; [|by eapply pk_clean_bytes].
    destruct (pk_g p); [|done]. by destruct IH.
  - done.
  - unfold pk_unpark. rewrite Hp. destruct (pk_via p) eqn:Ev; [destruct (pk_g p); [by destruct IH|done]|].
    unfold pipe_write. assert (live s i p) as Hl by done. rewrite (pko_held s Hok _ _ _ (live_holds s i p Hl Ev)). by eapply pk_clean_bytes.
  - pose proof Hl as [Hp Hlv]. unfold pk_drain. rewrite Hp. destruct (pk_via p) eqn:Ev; [by apply pk_clean_set_pk|].
    pose proof (pk_clean_bytes s i p 0 Hok IH Hl Ev Er) as Hc.
    apply (pk_clean_set_pk (set_bytes (pk_r p) 0 s) i); [done|]. intros _ _ _. simpl. by rewrite bytes_set, decide_True.
  - by eapply pk_clean_give.
Qed.

(** C16. The pool of pipes is sound, in every interleaving of parkers made, parked, woken and released,
    with the draining and the pooling of a [release()] as separate steps and with wakes that come
    while a parker is being released or after that: the free list never exceeds its cap and has no
    pair twice; a pipe in it is open and belongs to no live parker; no pipe belongs to two live
    parkers; and no pipe leaks: every open one is in the free list or belongs to a live parker.
    Without such late wakes a pipe in the free list carries no byte; with them it may
    ([parker_stale_byte]), and the next owner's first [park()] returns early. *)
Theorem parker_pool_sound late s : pkreach late s ->
  (length (kw_pool s) <= POOL_CAP)%nat /\ NoDup (kw_pool s) /\
  (forall r w, (r, w) ∈ kw_pool s -> kw_pipes s !! w = Some r /\ (late = false -> bytes_in s r = O) /\ forall i, ~ holds s i r w) /\
  (forall i j r w, holds s i r w -> holds s j r w -> i = j) /\
  (forall r w, kw_pipes s !! w = Some r -> (r, w) ∈ kw_pool s \/ exists i, holds s i r w).
Proof.
  intros Hr. pose proof (pkreach_ok late s Hr) as Hok. split_and!; try apply Hok.
  - intros r w Hin. split_and!; [by apply (pko_pool s Hok)| |intros i Hi; by apply (pko_free s Hok i r w)].
    intros ->. by eapply (pkc_pool s (pkreach_clean s Hr)).
  - intros i j r w. apply (pko_one s Hok).
Qed.

(** What may happen between a wake of parker [i] and its next wait: anything but the end of a wait
    and the release of [i] itself. *)
Inductive ostep (i : nat) (s : pkworld) : pkworld -> Prop :=
  | os_new j inmem cur r w : kw_pk s !! j = None -> r ≠ w -> ~ is_open s r -> ~ is_open s w -> ostep i s (pk_new j inmem cur (r, w) s)
  | os_park j cur p : live s j p -> pk_rel p = false -> ostep i s (pk_park j cur s)
  | os_parked j p : live s j p -> pk_rel p = false -> j ≠ i -> ostep i s (pk_parked j s)
  | os_unpark j p : kw_pk s !! j = Some p -> ostep i s (pk_unpark j s)
  | os_drain j p : live s j p -> pk_rel p = false -> j ≠ i -> ostep i s (pk_drain j s)
  | os_give j p c : live s j p -> pk_rel p = true -> j ≠ i -> ostep i s (pk_give j c s).

Lemma ostep_pkstep i s s' : ostep i s s' -> pkstep true s s'.
Proof. destruct 1; econstructor; eauto. Qed.

(** Parker [i] holds a pipe with a byte in it. *)
Definition byte_waits (s : pkworld) (i : nat) (r w : Z) : Prop := holds s i r w /\ (0 < bytes_in s r)%nat.

Lemma read_ends_differ s i j r r' w w' : pk_ok s -> holds s i r w -> holds s j r' w' -> i ≠ j -> r ≠ r'.
Proof.
  intros Hok Hi Hj Hne ->. pose proof (pko_held s Hok _ _ _ Hi) as E1. pose proof (pko_held s Hok _ _ _ Hj) as E2.
  pose proof (pko_inj s Hok _ _ _ E1 E2) as <-. by apply Hne, (pko_one s Hok _ _ _ _ _ Hi Hj).
Qed.

Lemma byte_write s i r w w' : byte_waits s i r w -> byte_waits (pipe_write w' s) i r w.
Proof.
  intros [Hh Hb]. unfold pipe_write. destruct (kw_pipes s !! w') as [r'|]; [|done]. split; [done|].
  rewrite bytes_set. case_decide; [unfold PIPE_BUF; lia|done].
Qed.

Lemma byte_new s i r w j inmem cur r' w' : pk_ok s -> byte_waits s i r w -> kw_pk s !! j = None -> ~ is_open s r' ->
  byte_waits (pk_new j inmem cur (r', w') s) i r w.
Proof.
  intros Hok [Hh Hb] Hj Hr. assert (Hij : j ≠ i) by (intros ->; destruct Hh as (p & [Hp _] & _); congruence).
  assert (Hset : forall p s2, kw_pk s2 = kw_pk (set_pk j p s) -> holds s2 i r w).
  { intros p s2 E. rewrite (holds_same (set_pk j p s) s2) by done. rewrite holds_set_pk. by rewrite decide_False. }
  unfold pk_new. destruct inmem; [by split; [eapply Hset|]|].
  destruct (pool_pop (kw_pool s)) as [[pool' [r0 w0]]|]; (split; [by eapply Hset|]); [done|].
  unfold bytes_in. simpl. rewrite lookup_insert_ne; [done|]. intros ->. apply Hr. exists w, r. split; [|by right]. by apply (pko_held s Hok i).
Qed.

Lemma byte_step i s s' r w : pk_ok s -> byte_waits s i r w -> ostep i s s' -> byte_waits s' i r w.
Proof.
  intros Hok Hbw Hst. pose proof Hbw as [Hh Hb].
  assert (Hset : forall j q s2, j ≠ i -> kw_pk s2 = kw_pk (set_pk j q s) -> holds s2 i r w).
  { intros j q s2 Hne E. rewrite (holds_same (set_pk j q s) s2) by done. rewrite holds_set_pk. by rewrite decide_False. }
  destruct Hst as [j inmem cur r' w' Hj Hrw Hr' Hw'|j cur p Hl _|j p Hl _ Hne|j p Hp|j p Hl _ Hne|j p c Hl _ Hne].
  - by apply byte_new.
  - destruct Hl as [Hp Hl]. unfold pk_park. rewrite Hp. destruct (pk_via p) eqn:Ev; [done|]. split; [|done].
    rewrite holds_set_pk. case_decide as Ej; [subst|done]. destruct Hh as (p' & [Hp' _] & ? & ? & ?). simplify_eq. done.
  - pose proof Hl as [Hp _]. unfold pk_parked. rewrite Hp. destruct (pk_via p) eqn:Ev; [by destruct (pk_g p)|]. split; [done|].
    rewrite bytes_set. case_decide as E; [|done]. by destruct (read_ends_differ s j i (pk_r p) r (pk_w p) w Hok (live_holds s j p Hl Ev) Hh Hne).
  - unfold pk_unpark. rewrite Hp. destruct (pk_via p) eqn:Ev; [by destruct (pk_g p)|]. by apply byte_write.
  - pose proof Hl as [Hp _]. unfold pk_drain. rewrite Hp. destruct (pk_via p) eqn:Ev; [split; [by eapply Hset|done]|].
    split; [by eapply Hset|]. rewrite bytes_set. case_decide as E; [|done].
    by destruct (read_ends_differ s j i (pk_r p) r (pk_w p) w Hok (live_holds s j p Hl Ev) Hh Hne).
  - pose proof Hl as [Hp _]. unfold pk_give. rewrite Hp. destruct (pk_via p) eqn:Ev; [split; [by eapply Hset|done]|].
    pose proof (read_ends_differ s j i (pk_r p) r (pk_w p) w Hok (live_holds s j p Hl Ev) Hh Hne) as Hr.
    destruct (negb c && _); (split; [by eapply Hset|]); unfold bytes_in; simpl; [done|by rewrite lookup_delete_ne].
Qed.

(** A wake is not lost: after [unpark()] of a live parker with a pipe, whatever the other parkers do
    before, its next [park()] finds the byte and does not wait. *)
Theorem parker_wake_durable i p s s' : pkreach true s -> live s i p -> pk_via p = false -> rtc (ostep i) (pk_unpark i s) s' ->
  pk_ready i s' = true.
Proof.
  intros Hr Hl Ev Hs. pose proof (pkreach_ok true s Hr) as Hok. pose proof (live_holds s i p Hl Ev) as Hh.
  assert (H0 : byte_waits (pk_unpark i s) i (pk_r p) (pk_w p)).
  { destruct Hl as [Hp _]. unfold pk_unpark. rewrite Hp, Ev. unfold pipe_write. rewrite (pko_held s Hok _ _ _ Hh). split; [done|].
    rewrite bytes_set, decide_True by done. unfold PIPE_BUF. lia. }
  assert (Hr1 : pkreach true (pk_unpark i s)) by (destruct Hl; eapply pr_step; [done|econstructor; eauto]).
  assert (byte_waits s' i (pk_r p) (pk_w p)) as [(p' & [Hp' _] & Ev' & E & _) Hb].
  { clear Hr Hl Hok Hh. induction Hs as [|x y z Hxy Hyz IH]; [done|]. apply IH; [by eapply byte_step; [eapply pkreach_ok|..]|].
    eapply pr_step; [done|by eapply ostep_pkstep]. }
  unfold pk_ready. rewrite Hp', Ev', E. by apply bool_decide_eq_true_2.
Qed.

(** ** Examples *)

(** Parker 1 is released into the free list and parker 2 takes its pipe over; parker 3 gets a new
    pipe and is woken before it parks. *)
Definition pk_demo : pkworld := pk_new 3 false None (7, 8) (pk_new 2 false None (0, 0) (pk_release 1 false (pk_new 1 false None (5, 6) pk_init))).

Lemma not_open_ne s fd : (forall w r, kw_pipes s !! w = Some r -> w ≠ fd /\ r ≠ fd) -> ~ is_open s fd.
Proof. intros H (w & r & E & [->| ->]); by destruct (H _ _ E). Qed.

Lemma pk_demo_reach late : pkreach late pk_demo.
Proof.
  assert (R1 : pkreach late (pk_new 1 false None (5, 6) pk_init)).
  { eapply pr_step; [apply pr_init|]. by apply ps_new; try apply not_open_ne. }
  assert (R2 : pkreach late (pk_release 1 false (pk_new 1 false None (5, 6) pk_init))).
  { apply (pr_step _ (pk_drain 1 (pk_new 1 false None (5, 6) pk_init))); [eapply pr_step; [exact R1|]|].
    - eapply (ps_drain _ _ 1); [split; [vm_compute; reflexivity|done]|done].
    - eapply (ps_give _ _ 1); [split; [vm_compute; reflexivity|done]|done]. }
  assert (Hp : forall s, kw_pipes s = {[6 := 5]} -> forall fd, fd ≠ 6 -> fd ≠ 5 -> ~ is_open s fd).
  { intros s E fd H6 H5. apply not_open_ne. rewrite E. intros w r [<- <-]%lookup_singleton_Some. auto. }
  assert (R3 : pkreach late (pk_new 2 false None (10, 11) (pk_release 1 false (pk_new 1 false None (5, 6) pk_init)))).
  { eapply pr_step; [exact R2|]. apply ps_new; [reflexivity|lia|apply Hp; [reflexivity|lia..]|apply Hp; [reflexivity|lia..]]. }
  eapply pr_step; [exact R3|]. apply ps_new; [reflexivity|lia|apply Hp; [reflexivity|lia..]|apply Hp; [reflexivity|lia..]].
Qed.

Lemma parker_pool_sound_witness :
  kw_pool pk_demo = [] /\ forall r w, kw_pipes pk_demo !! w = Some r -> (r, w) ∈ kw_pool pk_demo \/ exists i, holds pk_demo i r w.
Proof. split; [reflexivity|]. apply (parker_pool_sound true pk_demo (pk_demo_reach true)). Defined.

Lemma parker_wake_durable_witness : pk_ready 3 (pk_park 3 (Some 9%nat) (pk_unpark 3 pk_demo)) = true.
Proof.
  apply (parker_wake_durable 3 (Parker 7 8 None false true false) pk_demo); [exact (pk_demo_reach true)|split; [vm_compute; reflexivity|reflexivity]|reflexivity|].
  eapply rtc_l; [|apply rtc_refl]. eapply os_park; [split; [vm_compute; reflexivity|reflexivity]|reflexivity].
Defined.

(** A late wake goes astray: [unpark()] of a parker that has been released wakes the parker that has
    taken its pipe over. *)
Theorem parker_late_unpark_hits_other :
  pk_ready 2 pk_demo = false /\ pk_ready 2 (pk_unpark 1 pk_demo) = true.
Proof. split; vm_compute; reflexivity. Qed.

(** A wake that comes between the draining and the pooling of [release()] leaves its byte in the
    pooled pipe; the next owner's [park()] returns at once without having been woken. *)
Theorem parker_stale_byte :
  let s0 := pk_drain 1 (pk_new 1 false None (5, 6) pk_init) in
  let s1 := pk_give 1 false (pk_unpark 1 s0) in
  pkreach true s1 /\ kw_pool s1 = [(5, 6)] /\ bytes_in s1 5 = 1%nat /\
  pk_ready 2 (pk_park 2 None (pk_new 2 false None (10, 11) s1)) = true.
Proof.
  intros s0 s1. split_and!; [|vm_compute; reflexivity..].
  apply (pr_step _ (pk_unpark 1 s0)); [apply (pr_step _ s0); [apply (pr_step _ (pk_new 1 false None (5, 6) pk_init)); [eapply pr_step; [apply pr_init|]|]|]|].
  - by apply ps_new; try apply not_open_ne.
  - eapply (ps_drain _ _ 1); [split; [vm_compute; reflexivity|done]|done].
  - eapply (ps_unpark _ _ 1); [vm_compute; reflexivity|by left].
  - eapply (ps_give _ _ 1); [split; [vm_compute; reflexivity|done]|done].
Qed.
