(* ===== verification/NetSocket.v ===== *)
(** * Socket and the connection helpers of [stackweave.sync]

    Models [class Socket], [tcp_connect], [tcp_listen] and [udp_endpoint] of
    [src/src/stackweave/sync.py].  The operating system's sockets and [wait_fd] are not part of
    the source: the class [Kernel] lists the calls the code makes and the documented behaviour
    it relies on.  A method is a function in the [io] monad: kernel state in, kernel state and a
    value or an exception out. *)
From S2P Require Import Prelude.
Local Open Scope Z_scope.

Abbreviation bytes := (list Z).

(** Subclasses of Python's [OSError]. *)
Definition is_oserror (e : pyexc) : bool :=
  match e with OSError _ | TimeoutError _ | BlockingIOError | InterruptedError | GaiError _ _ | ConnectionReset _ | ConnectionAborted _ => true | _ => false end.

(** [except (BlockingIOError, InterruptedError)] *)
Definition would_block (e : pyexc) : bool :=
  match e with BlockingIOError | InterruptedError => true | _ => false end.

Definition io (K A : Type) : Type := K -> K * out A.

(** One entry of [getaddrinfo]'s result. *)
Record addrinfo := AddrInfo { ai_family : Z; ai_type : Z; ai_proto : Z; ai_addr : Z }.

(** The calls into the kernel.  [k_open] is the set of open descriptors, [k_wire s fd] what the
    kernel has accepted for sending on [fd]. *)
Class Kernel (K : Type) := {
  k_open : K -> gset Z;
  k_wire : K -> Z -> bytes;
  k_getaddrinfo : io K (list addrinfo);
  k_socket : Z -> Z -> Z -> io K Z;
  k_close : Z -> io K unit;
  k_unregister : Z -> io K unit;
  k_bind : Z -> Z -> io K unit;
  k_listen : Z -> Z -> io K unit;
  k_setsockopt : Z -> Z -> Z -> io K unit;
  k_connect : Z -> Z -> io K unit;
  k_so_error : Z -> io K Z;
  k_wait_fd : Z -> Z -> K -> K;
  k_accept : Z -> io K (Z * Z);
  k_recv : Z -> Z -> io K bytes;
  k_send : Z -> bytes -> io K Z;
  k_socket_open s f y p s' r : k_socket f y p s = (s', r) ->
    match r with Ret fd => fd ∉ k_open s /\ k_open s' = {[fd]} ∪ k_open s | Exc _ => k_open s' = k_open s end;
  k_close_open s fd s' r : k_close fd s = (s', r) ->
    k_open s' = k_open s ∖ {[fd]} /\ (forall e, r = Exc e -> is_oserror e = true);
  k_unregister_open s fd s' r : k_unregister fd s = (s', r) ->
    k_open s' = k_open s /\ (forall e, r = Exc e -> is_oserror e = true);
  k_getaddrinfo_open s : k_open (k_getaddrinfo s).1 = k_open s;
  k_bind_open s fd a : k_open (k_bind fd a s).1 = k_open s;
  k_listen_open s fd n : k_open (k_listen fd n s).1 = k_open s;
  k_setsockopt_open s fd o v : k_open (k_setsockopt fd o v s).1 = k_open s;
  k_connect_open s fd a : k_open (k_connect fd a s).1 = k_open s;
  k_so_error_open s fd : k_open (k_so_error fd s).1 = k_open s;
  k_wait_open s fd d : k_open (k_wait_fd fd d s) = k_open s;
  k_wait_wire s fd d fd' : k_wire (k_wait_fd fd d s) fd' = k_wire s fd';
  k_send_wire s fd d s' r : k_send fd d s = (s', r) ->
    match r with
    | Ret n => 0 <= n <= Z.of_nat (length d) /\ k_wire s' fd = k_wire s fd ++ take (Z.to_nat n) d
    | Exc _ => k_wire s' fd = k_wire s fd
    end
}.

Section sockets.
Context {K : Type} `{!Kernel K}.

(** ** The monad *)

Definition ret {A} (x : A) : io K A := λ s, (s, Ret x).
Definition raise {A} (e : pyexc) : io K A := λ s, (s, Exc e).
Definition bind {A B} (m : io K A) (f : A -> io K B) : io K B :=
  λ s, match m s with (s', Ret x) => f x s' | (s', Exc e) => (s', Exc e) end.

(** [try: m except E as e: h(e)] for the exceptions [E] selects. *)
Definition try_except {A} (m : io K A) (E : pyexc -> bool) (h : pyexc -> io K A) : io K A :=
  λ s, match m s with (s', Exc e) => if E e then h e s' else (s', Exc e) | r => r end.

Local Notation "'let!' x := m 'in' k" := (bind m (λ x, k)) (at level 200, x name, k at level 200).

Definition WRITE : Z := 2.
Definition READ : Z := 1.
Definition wait_fd (fd dir : Z) : io K unit := λ s, (k_wait_fd fd dir s, Ret tt).

(** ** The methods of [Socket] *)

(** [close()]: unregister from the poller and close; errors of both are ignored. *)
Definition sock_close (fd : Z) : io K unit :=
  let! _ := (if 0 <=? fd then try_except (k_unregister fd) is_oserror (λ _, ret tt) else ret tt) in
  try_except (k_close fd) is_oserror (λ _, ret tt).

(** [connect(addr)] *)
Definition sock_connect (fd : Z) (addr : Z) : io K unit :=
  try_except (k_connect fd addr) (λ e, bool_decide (e = BlockingIOError)) (λ _,
    let! _ := wait_fd fd WRITE in
    let! err := k_so_error fd in
    if negb (err =? 0) then raise (OSError "connect failed") else ret tt).

(** The loop of [accept], [recv], [recv_into], [recvfrom], [send] and [sendto]: call [m]; when it
    would block, wait for the direction [dir] and call it again.  [None]: still looping after
    [fuel] calls. *)
Fixpoint retry {A} (fuel : nat) (fd dir : Z) (m : io K A) (s : K) : option (K * out A) :=
  match fuel with
  | O => None
  | S fuel' =>
      match m s with
      | (s', Exc e) => if would_block e then retry fuel' fd dir m (k_wait_fd fd dir s') else Some (s', Exc e)
      | r => Some r
      end
  end.

Definition sock_accept (fuel : nat) (fd : Z) : K -> option (K * out (Z * Z)) := retry fuel fd READ (k_accept fd).
Definition sock_recv (fuel : nat) (fd n : Z) : K -> option (K * out bytes) := retry fuel fd READ (k_recv fd n).
Definition sock_send (fuel : nat) (fd : Z) (data : bytes) : K -> option (K * out Z) := retry fuel fd WRITE (k_send fd data).

(** [sendall(data)] from position [sent]. *)
Fixpoint sock_sendall (fuel : nat) (fd : Z) (data : bytes) (sent : nat) (s : K) : option (K * out unit) :=
  match fuel with
  | O => None
  | S fuel' =>
      if bool_decide (sent < length data)%nat then
        match k_send fd (drop sent data) s with
        | (s', Ret n) => sock_sendall fuel' fd data (sent + Z.to_nat n) s'
        | (s', Exc e) =>
            if would_block e then sock_sendall fuel' fd data sent (k_wait_fd fd WRITE s')
            else Some (s', Exc e)
        end
      else Some (s, Ret tt)
  end.

(** ** The convenience constructors *)

(** The body of the [for] loops of [tcp_connect] and [tcp_listen]: open a socket, set it up with
    [setup], on [OSError] close it and remember the error. *)
Fixpoint try_infos (setup : Z -> addrinfo -> io K unit) (infos : list addrinfo) (last_err : pyexc) : io K Z :=
  match infos with
  | [] => raise last_err
  | i :: infos' => λ s,
      match k_socket (ai_family i) (ai_type i) (ai_proto i) s with
      | (s1, Exc e) => if is_oserror e then try_infos setup infos' e s1 else (s1, Exc e)
      | (s1, Ret fd) =>
          match setup fd i s1 with
          | (s2, Ret _) => (s2, Ret fd)
          | (s2, Exc e) =>
              if is_oserror e then (let! _ := sock_close fd in try_infos setup infos' e) s2 else (s2, Exc e)
          end
      end
  end.

Definition tcp_connect (local_addr : option Z) : io K Z :=
  let! infos := k_getaddrinfo in
  try_infos (λ fd i,
    let! _ := (match local_addr with Some a => k_bind fd a | None => ret tt end) in
    sock_connect fd (ai_addr i)) infos (OSError "could not connect").

Definition SO_REUSEADDR : Z := 2.
Definition SO_BROADCAST : Z := 6.

Definition tcp_listen (backlog : Z) (reuse_address : bool) : io K Z :=
  let! infos := k_getaddrinfo in
  try_infos (λ fd i,
    let! _ := (if reuse_address then k_setsockopt fd SO_REUSEADDR 1 else ret tt) in
    let! _ := k_bind fd (ai_addr i) in
    k_listen fd backlog) infos (OSError "could not bind").

Definition udp_endpoint (family : Z) (local_addr remote_addr : option Z) (reuse_address allow_broadcast : bool) : io K Z :=
  let! fd := k_socket family 2 0 in
  let! _ := (if reuse_address then k_setsockopt fd SO_REUSEADDR 1 else ret tt) in
  let! _ := (if allow_broadcast then k_setsockopt fd SO_BROADCAST 1 else ret tt) in
  let! _ := (match local_addr with Some a => k_bind fd a | None => ret tt end) in
  let! _ := (match remote_addr with Some a => sock_connect fd a | None => ret tt end) in
  ret fd.

(** ** What the helpers leave open *)

(** A computation that neither opens nor closes a descriptor. *)
Definition keeps_open {A} (m : io K A) : Prop := forall s, k_open (m s).1 = k_open s.

Lemma keeps_ret {A} (x : A) : keeps_open (ret x).
Proof. done. Qed.
Lemma keeps_raise {A} e : keeps_open (raise (A := A) e).
Proof. done. Qed.
Lemma keeps_bind {A B} (m : io K A) (f : A -> io K B) :
  keeps_open m -> (forall x, keeps_open (f x)) -> keeps_open (bind m f).
Proof.
  intros Hm Hf s. unfold bind. specialize (Hm s). destruct (m s) as [s1 [x|e]]; simpl in *; [|done].
  by rewrite Hf.
Qed.
Lemma keeps_try {A} (m : io K A) E h : keeps_open m -> (forall e, keeps_open (h e)) -> keeps_open (try_except m E h).
Proof.
  intros Hm Hh s. unfold try_except. specialize (Hm s). destruct (m s) as [s1 [x|e]]; simpl in *; [done|].
  destruct (E e); [by rewrite Hh|done].
Qed.
Lemma keeps_k_bind fd a : keeps_open (k_bind fd a).
Proof. intros s. apply k_bind_open. Qed.
Lemma keeps_k_listen fd n : keeps_open (k_listen fd n).
Proof. intros s. apply k_listen_open. Qed.
Lemma keeps_k_setsockopt fd o v : keeps_open (k_setsockopt fd o v).
Proof. intros s. apply k_setsockopt_open. Qed.
Lemma keeps_k_connect fd a : keeps_open (k_connect fd a).
Proof. intros s. apply k_connect_open. Qed.
Lemma keeps_k_so_error fd : keeps_open (k_so_error fd).
Proof. intros s. apply k_so_error_open. Qed.
Lemma keeps_wait_fd fd d : keeps_open (wait_fd fd d).
Proof. intros s. apply k_wait_open. Qed.
#[local] Hint Resolve keeps_ret keeps_raise keeps_k_bind keeps_k_listen keeps_k_setsockopt keeps_k_connect
  keeps_k_so_error keeps_wait_fd : sw.

Ltac keeps_open :=
  repeat first [ solve [auto with sw] | apply keeps_bind; [|intros ?] | apply keeps_try; [|intros ?] | case_match ].

Lemma keeps_connect fd a : keeps_open (sock_connect fd a).
Proof. unfold sock_connect. keeps_open. Qed.
#[local] Hint Resolve keeps_connect : sw.

(** [close] always returns, and the descriptor is closed. *)
Lemma sock_close_spec fd s : exists s', sock_close fd s = (s', Ret tt) /\ k_open s' = k_open s ∖ {[fd]}.
Proof.
  assert (Hc : forall s, exists s', try_except (k_close fd) is_oserror (λ _, ret tt) s = (s', Ret tt) /\ k_open s' = k_open s ∖ {[fd]}).
  { intros s0. unfold try_except. destruct (k_close fd s0) as [s1 r] eqn:E.
    destruct (k_close_open _ _ _ _ E) as [Ho He]. destruct r as [[]|e]; [by eauto|].
    rewrite (He e eq_refl). exists s1. done. }
  unfold sock_close, bind. destruct (0 <=? fd); [|simpl; apply Hc].
  unfold try_except at 1. destruct (k_unregister fd s) as [s1 r] eqn:E.
  destruct (k_unregister_open _ _ _ _ E) as [Ho He]. rewrite <- Ho.
  destruct r as [[]|e]; [apply Hc|]. rewrite (He e eq_refl). simpl. apply Hc.
Qed.

(** A new socket is open on success, and nothing but it; an [OSError] leaves nothing open. *)
Definition opens_one (s s' : K) (r : out Z) : Prop :=
  match r with
  | Ret fd => fd ∉ k_open s /\ k_open s' = {[fd]} ∪ k_open s
  | Exc e => is_oserror e = true -> k_open s' = k_open s
  end.

Lemma try_infos_spec setup infos e0 s s' r :
  (forall fd i, keeps_open (setup fd i)) -> try_infos setup infos e0 s = (s', r) -> opens_one s s' r.
Proof.
  intros Hset. revert e0 s. induction infos as [|i infos IH]; intros e0 s H; simpl in H; [unfold raise in H; by simplify_eq|].
  destruct (k_socket _ _ _ s) as [s1 [fd|e]] eqn:Es; apply k_socket_open in Es.
  - destruct Es as [Hf Ho]. pose proof (Hset fd i s1) as Hk. destruct (setup fd i s1) as [s2 [u|e]]; simpl in Hk.
    + simplify_eq. split; [done|congruence].
    + destruct (is_oserror e) eqn:Ee; [|simplify_eq; simpl; intros; congruence].
      unfold bind in H. destruct (sock_close_spec fd s2) as (s3 & E3 & H3). rewrite E3 in H.
      apply IH in H. assert (k_open s3 = k_open s) as E by (rewrite H3, Hk, Ho; set_solver).
      unfold opens_one in *. by rewrite E in H.
  - destruct (is_oserror e) eqn:Ee; [|simplify_eq; simpl; intros; congruence].
    apply IH in H. unfold opens_one in *. by rewrite Es in H.
Qed.

(** The TCP helpers do not leak descriptors: whatever the kernel answers, [tcp_connect] and
    [tcp_listen] either return a socket that was not open before and is now the only new open
    descriptor, or, when they raise an [OSError], leave exactly the descriptors open that were open
    before (each failed attempt was closed). *)
Theorem tcp_helpers_no_leak local_addr backlog reuse s :
  (let '(s', r) := tcp_connect local_addr s in opens_one s s' r) /\
  (let '(s', r) := tcp_listen backlog reuse s in opens_one s s' r).
Proof.
  assert (Hg : forall setup e0, (forall fd i, keeps_open (setup fd i)) ->
    let '(s', r) := bind k_getaddrinfo (λ infos, try_infos setup infos e0) s in opens_one s s' r).
  { intros setup e0 Hset. unfold bind. pose proof (k_getaddrinfo_open s) as Hk.
    destruct (k_getaddrinfo s) as [s1 [infos|e]]; simpl in Hk; [|by intros _].
    destruct (try_infos setup infos e0 s1) as [s2 r] eqn:E. apply try_infos_spec in E; [|done].
    unfold opens_one in *. by rewrite Hk in E. }
  split; apply Hg; intros fd i; keeps_open.
Qed.

(** ** [sendall] *)

(** [sendall] is exact: when it returns, the kernel has accepted all of [data], once and in
    order, after what was on the wire before, however the kernel split the transfer and however
    often it would have blocked; when it raises, the error is not a would-block one and a proper
    prefix of [data] was accepted. *)
Theorem sendall_exact fuel fd data s s' r :
  sock_sendall fuel fd data 0 s = Some (s', r) ->
  match r with
  | Ret _ => k_wire s' fd = k_wire s fd ++ data
  | Exc e => would_block e = false /\ exists n, (n < length data)%nat /\ k_wire s' fd = k_wire s fd ++ take n data
  end.
Proof.
  set (w0 := k_wire s fd).
  assert (H0 : k_wire s fd = w0 ++ take 0 data) by (by rewrite take_0, app_nil_r).
  clearbody w0. revert H0. generalize (Nat.le_0_l (length data)). generalize 0%nat as sent. revert s.
  induction fuel as [|fuel IH]; intros s sent Hle Hw H; simpl in H; [done|].
  case_bool_decide as Hlt; simplify_eq.
  - destruct (k_send fd (drop sent data) s) as [s1 [n|e]] eqn:E; apply k_send_wire in E.
    + destruct E as [Hn Hw1]. rewrite length_drop in Hn. apply IH in H; [done|lia|].
      rewrite Hw1, Hw, <- app_assoc. by rewrite take_take_drop.
    + destruct (would_block e) eqn:Ee.
      * apply IH in H; [done|lia|]. by rewrite k_wait_wire, E.
      * simplify_eq. split; [done|]. exists sent. split; [done|congruence].
  - by rewrite Hw, take_ge by lia.
Qed.

(** The state after [n] sends that would block and the waits between them. *)
Fixpoint blocked (n : nat) (fd : Z) (d : bytes) (s : K) : K :=
  match n with O => s | S n' => blocked n' fd d (k_wait_fd fd WRITE (k_send fd d s).1) end.

(** [sendall] terminates on a kernel that keeps accepting: if a send of a non-empty buffer
    never accepts zero bytes, and from every state a bounded number of waits ends the would-block
    answers, then some number of rounds is enough. *)
Theorem sendall_terminates fd data s :
  (forall s d s' m, d ≠ [] -> k_send fd d s = (s', Ret m) -> 1 <= m) ->
  (forall s d, d ≠ [] -> exists n, forall s' e, k_send fd d (blocked n fd d s) = (s', Exc e) -> would_block e = false) ->
  exists fuel, is_Some (sock_sendall fuel fd data 0 s).
Proof.
  intros Hpos Hk. generalize 0%nat as sent. intros sent.
  remember (length data - sent)%nat as m eqn:Em. revert s sent Em.
  induction m as [m IH] using lt_wf_ind. intros s sent Em.
  destruct (decide (sent < length data)%nat) as [Hlt|Hge];
    [|exists 1%nat; simpl; rewrite bool_decide_eq_false_2 by done; eauto].
  assert (drop sent data ≠ []) as Hne.
  { intros E. assert (length (drop sent data) = 0%nat) as El by (by rewrite E). rewrite length_drop in El. lia. }
  destruct (Hk s (drop sent data) Hne) as [n Hn].
  revert s Hn. induction n as [|n IHn]; intros s Hn; simpl in Hn;
    destruct (k_send fd (drop sent data) s) as [s1 [q|e]] eqn:E; simpl in Hn.
  1,3: pose proof (Hpos _ _ _ _ Hne E); destruct (IH (length data - (sent + Z.to_nat q))%nat ltac:(lia) s1 _ eq_refl) as [fuel Hf];
    exists (S fuel); simpl; by rewrite bool_decide_eq_true_2, E.
  - exists 1%nat. simpl. rewrite bool_decide_eq_true_2, E, (Hn _ _ eq_refl) by done. eauto.
  - destruct (would_block e) eqn:Ee.
    + destruct (IHn _ Hn) as [fuel Hf]. exists (S fuel). simpl. by rewrite bool_decide_eq_true_2, E, Ee.
    + exists 1%nat. simpl. rewrite bool_decide_eq_true_2, E, Ee by done. eauto.
Qed.
End sockets.

(** ** A scripted kernel

    Sends follow a script ([None]: would block, [Some n]: accept up to [n + 1] bytes, at the end
    of the script: accept all), connects follow a script of errors. *)
Record skernel := SKernel {
  sk_open : gset Z; sk_next : Z; sk_wire : gmap Z bytes; sk_sends : list (option nat); sk_conns : list (out unit)
}.

Definition sk_wire_of (s : skernel) (fd : Z) : bytes := default [] (sk_wire s !! fd).

Definition sk_socket (_ _ _ : Z) : io skernel Z := λ s,
  if bool_decide (sk_next s ∈ sk_open s) then (s, Exc (OSError "EMFILE"))
  else (SKernel ({[sk_next s]} ∪ sk_open s) (sk_next s + 1) (sk_wire s) (sk_sends s) (sk_conns s), Ret (sk_next s)).

Definition sk_accept_bytes (fd : Z) (d : bytes) (n : nat) (rest : list (option nat)) (s : skernel) : skernel * out Z :=
  let m := (n `min` length d)%nat in
  (SKernel (sk_open s) (sk_next s) (<[fd := sk_wire_of s fd ++ take m d]> (sk_wire s)) rest (sk_conns s), Ret (Z.of_nat m)).

Definition sk_send (fd : Z) (d : bytes) : io skernel Z := λ s,
  match sk_sends s with
  | [] => sk_accept_bytes fd d (length d) [] s
  | Some n :: rest => sk_accept_bytes fd d (S n) rest s
  | None :: rest => (SKernel (sk_open s) (sk_next s) (sk_wire s) rest (sk_conns s), Exc BlockingIOError)
  end.

Definition sk_connect (_ _ : Z) : io skernel unit := λ s,
  match sk_conns s with
  | [] => (s, Ret tt)
  | r :: rest => (SKernel (sk_open s) (sk_next s) (sk_wire s) (sk_sends s) rest, r)
  end.

Lemma sk_accept_bytes_wire fd d n rest s s' r : sk_accept_bytes fd d n rest s = (s', r) ->
  match r with
  | Ret m => 0 <= m <= Z.of_nat (length d) /\ sk_wire_of s' fd = sk_wire_of s fd ++ take (Z.to_nat m) d
  | Exc _ => sk_wire_of s' fd = sk_wire_of s fd
  end.
Proof.
  unfold sk_accept_bytes. intros H. simplify_eq. split; [lia|].
  unfold sk_wire_of at 1; simpl. by rewrite lookup_insert_eq, Nat2Z.id.
Qed.

#[export] Program Instance scripted_kernel : Kernel skernel := {|
  k_open := sk_open; k_wire := sk_wire_of;
  k_getaddrinfo s := (s, Ret [AddrInfo 10 1 6 100; AddrInfo 2 1 6 200]);
  k_socket := sk_socket;
  k_close fd s := (SKernel (sk_open s ∖ {[fd]}) (sk_next s) (sk_wire s) (sk_sends s) (sk_conns s), Ret tt);
  k_unregister _ s := (s, Ret tt); k_bind _ _ s := (s, Ret tt); k_listen _ _ s := (s, Ret tt);
  k_setsockopt _ _ _ s := (s, Ret tt); k_connect := sk_connect; k_so_error _ s := (s, Ret 0);
  k_wait_fd _ _ s := s; k_accept _ s := (s, Exc BlockingIOError); k_recv _ _ s := (s, Ret []);
  k_send := sk_send
|}.
Next Obligation. intros s f y p s' r. unfold sk_socket. case_bool_decide; intros; simplify_eq; done. Qed.
Next Obligation. intros s fd s' r H. injection H as <- <-. split; [reflexivity|]. by intros e [=]. Qed.
Next Obligation. intros s fd s' r H. injection H as <- <-. split; [reflexivity|]. by intros e [=]. Qed.
Next Obligation. done. Qed.
Next Obligation. done. Qed.
Next Obligation. done. Qed.
Next Obligation. done. Qed.
Next Obligation. intros s fd a. unfold sk_connect. by destruct (sk_conns s). Qed.
Next Obligation. done. Qed.
Next Obligation. done. Qed.
Next Obligation. done. Qed.
Next Obligation.
  intros s fd d s' r. unfold sk_send. destruct (sk_sends s) as [|[n|] rest]; try apply sk_accept_bytes_wire.
  intros; by simplify_eq.
Qed.

Definition sk_busy : skernel := SKernel {[0]} 3 ∅ [Some 1%nat; None; Some 0%nat; None; None] [Exc (OSError "refused")].

Lemma tcp_helpers_no_leak_witness :
  (exists s', tcp_connect None sk_busy = (s', Ret 4) /\ k_open s' = {[4]} ∪ k_open sk_busy).
Proof.
  destruct (tcp_helpers_no_leak None 128 true sk_busy) as [H _].
  destruct (tcp_connect None sk_busy) as [s' r] eqn:E. exists s'.
  assert (r = Ret 4) as -> by (apply (f_equal snd) in E; vm_compute in E; congruence).
  split; [reflexivity|apply H].
Defined.

Lemma sendall_exact_witness :
  exists s', sock_sendall 20 7 [1; 2; 3; 4; 5] 0 sk_busy = Some (s', Ret tt) /\ k_wire s' 7 = k_wire sk_busy 7 ++ [1; 2; 3; 4; 5].
Proof.
  eexists. split; [vm_compute; reflexivity|].
  eapply (sendall_exact 20 7 [1; 2; 3; 4; 5] sk_busy _ (Ret tt)). vm_compute. reflexivity.
Defined.

Lemma sendall_terminates_witness : exists fuel, is_Some (sock_sendall fuel 7 [1; 2; 3] 0 sk_busy).
Proof.
  apply (sendall_terminates 7 [1; 2; 3] sk_busy).
  - intros s d s' m Hd H. destruct d as [|x d]; [done|]. simpl in H. unfold sk_send, sk_accept_bytes in H.
    destruct (sk_sends s) as [|[n|] rest]; simplify_eq; simpl length; lia.
  - intros s d _. exists (length (sk_sends s)).
    remember (sk_sends s) as l eqn:El. revert s El. induction l as [|a l IH]; intros s El s' e H; simpl in H.
    + unfold sk_send in H. rewrite <- El in H. unfold sk_accept_bytes in H. by simplify_eq.
    + eapply IH; [|exact H]. unfold sk_send. rewrite <- El. by destruct a.
Defined.
