(* ===== verification/CoopSocket.v ===== *)
(** * The patched [socket.socket]

    Models the cooperative socket layer: [_make_nonblocking], [_patched_settimeout] and
    [_patched_setblocking] of [src/src/stackweave/monkey/_base.py], and the patched methods of
    [src/src/stackweave/monkey/sockets.py].  The state is the table of the socket objects, the side
    table [_SOCK_TIMEOUTS], the open files, and the state of the kernel and the rest of the program.
    The kernel's calls, [wait_fd] and the C fast paths are not part of the source: the class [Net]
    lists them.  [wait_fd] and the cooperative sleep let other fibers run, so they may change the
    whole state.  A method is a function of type [fio]; its loops take fuel, and [None] is a loop
    that is still running.  Times are microseconds. *)
From Stdlib Require Import Ascii.
From S2P Require Import Prelude NetSocket.
Local Open Scope Z_scope.

(** A socket object: its descriptor ([-1] once really closed), [gettimeout()], whether it is a stream
    socket, whether its family is [AF_INET] or [AF_INET6], and CPython's [_io_refs] (the open
    [makefile()] objects) and [_closed] ([close()] has been called). *)
Record sockobj := SockObj { so_fd : Z; so_timeout : option Z; so_stream : bool; so_inet : bool; so_refs : nat; so_closed : bool }.
Definition so_with (fd : Z) (v : option Z) (o : sockobj) : sockobj :=
  SockObj fd v (so_stream o) (so_inet o) (so_refs o) (so_closed o).
Definition so_set_refs (n : nat) (o : sockobj) : sockobj :=
  SockObj (so_fd o) (so_timeout o) (so_stream o) (so_inet o) n (so_closed o).
Definition so_set_closed (o : sockobj) : sockobj :=
  SockObj (so_fd o) (so_timeout o) (so_stream o) (so_inet o) (so_refs o) true.

(** A file given to [sendfile]: content, position, whether it has a [fileno()] and [fstat] works on
    it, whether it has a [seek], whether it is opened in binary mode. *)
Record pyfile := PyFile { f_data : bytes; f_pos : nat; f_fileno : bool; f_stat : bool; f_seek : bool; f_binary : bool }.

Record env (K : Type) := Env { e_socks : gmap nat sockobj; e_tab : gmap Z (option Z); e_files : gmap nat pyfile; e_k : K }.
Arguments Env {K} _ _ _ _.
Arguments e_socks {K} _.
Arguments e_tab {K} _.
Arguments e_files {K} _.
Arguments e_k {K} _.

(** How far a connection is. *)
Inductive conn := Unconnected | InFlight | Connected | Refused.

(** A connect target: [(host, port)] with a host name or another kind of host, or a path. *)
Inductive pyhost := HStr (h : string) | HOther.
Inductive address := AHostPort (h : pyhost) (port : Z) | ASockaddr (a : Z).

(** The calls into the kernel, the runtime and the C fast paths.  [n_wire] and [n_rd] are the bytes
    accepted from and delivered to this program on a descriptor so far. *)
Class Net (K : Type) := {
  n_now : K -> Z;
  n_wire : K -> Z -> bytes;
  n_rd : K -> Z -> bytes;
  n_conn : K -> Z -> conn;
  n_wait : Z -> Z -> option Z -> env K -> env K * Z;
  n_sleep : Z -> env K -> env K;
  n_setblock : Z -> bool -> io K unit;
  n_nodelay : Z -> io K unit;
  n_recv : Z -> Z -> Z -> io K bytes;
  n_send : Z -> bytes -> Z -> io K Z;
  n_accept : Z -> io K (Z * Z);
  n_recvfrom : Z -> Z -> Z -> io K (bytes * Z);
  n_sendto : Z -> bytes -> Z -> io K Z;
  n_recvmsg : Z -> Z -> Z -> Z -> io K (bytes * Z);
  n_sendmsg : Z -> bytes -> Z -> io K Z;
  n_recvmsg_into : Z -> Z -> Z -> Z -> io K (bytes * Z);
  n_recvfrom_into : Z -> Z -> Z -> io K (bytes * Z);
  n_connect_ex : Z -> address -> io K Z;
  n_connect : Z -> address -> io K unit;
  n_so_error : Z -> io K Z;
  n_sendfile : Z -> bytes -> io K Z;
  n_literal : Z -> string -> bool;
  n_resolve : string -> Z -> io (env K) (list Z);
  n_tcp_recv : option (Z -> Z -> Z -> io (env K) bytes);
  n_tcp_send_once : option (Z -> bytes -> Z -> io (env K) Z);
  n_tcp_send : option (Z -> bytes -> Z -> io (env K) unit);
  n_unregister : option (Z -> io K unit);
  n_cancel_fd : option (Z -> io K unit);
  n_close : Z -> io K unit
}.

Section coop.
Context {K : Type} `{!Net K}.
(** [_in_fiber()] of the caller. *)
Context (in_fiber : bool).

(** ** The monad *)

Definition fio (A : Type) : Type := env K -> option (env K * out A).
Definition fret {A} (x : A) : fio A := λ s, Some (s, Ret x).
Definition fraise {A} (e : pyexc) : fio A := λ s, Some (s, Exc e).
Definition fbind {A B} (m : fio A) (f : A -> fio B) : fio B :=
  λ s, match m s with Some (s', Ret x) => f x s' | Some (s', Exc e) => Some (s', Exc e) | None => None end.
Definition fcatch {A} (m : fio A) (E : pyexc -> bool) (h : pyexc -> fio A) : fio A :=
  λ s, match m s with Some (s', Exc e) => if E e then h e s' else Some (s', Exc e) | r => r end.

(** A call that does not park, and one that may let other fibers run. *)
Definition sys {A} (m : io K A) : fio A :=
  λ s, let '(k', r) := m (e_k s) in Some (Env (e_socks s) (e_tab s) (e_files s) k', r).
Definition sched {A} (m : io (env K) A) : fio A := λ s, Some (m s).

Local Notation "'let!' x := m 'in' k" := (fbind m (λ x, k)) (at level 200, x name, k at level 200).

Definition fileno_of (s : env K) (sk : nat) : Z := match e_socks s !! sk with Some o => so_fd o | None => -1 end.
Definition fileno (sk : nat) : fio Z := λ s, Some (s, Ret (fileno_of s sk)).
Definition now : fio Z := λ s, Some (s, Ret (n_now (e_k s))).
Definition set_tab (f : gmap Z (option Z) -> gmap Z (option Z)) : fio unit :=
  λ s, Some (Env (e_socks s) (f (e_tab s)) (e_files s) (e_k s), Ret tt).
Definition upd_sock (sk : nat) (f : sockobj -> sockobj) : fio unit :=
  λ s, Some (Env (alter f sk (e_socks s)) (e_tab s) (e_files s) (e_k s), Ret tt).

(** ** Timeouts *)

(** CPython's [socket.settimeout] and [setblocking]: store the timeout, then set the descriptor's
    mode. *)
Definition raw_settimeout (sk : nat) (v : option Z) : fio unit :=
  if match v with Some t => t <? 0 | None => false end then fraise (ValueError "Timeout value out of range")
  else
    let! _ := upd_sock sk (λ o, so_with (so_fd o) v o) in
    let! fd := fileno sk in sys (n_setblock fd (match v with None => true | Some _ => false end)).
Definition raw_setblocking (sk : nat) (flag : bool) : fio unit := raw_settimeout sk (if flag then None else Some 0).

Definition gettimeout (s : env K) (sk : nat) : option Z := match e_socks s !! sk with Some o => so_timeout o | None => None end.

(** [_make_nonblocking(sock)] *)
Definition make_nonblocking (sk : nat) : fio unit := λ s,
  if bool_decide (gettimeout s sk = Some 0) then Some (s, Ret tt)
  else
    (let! fd := fileno sk in
     let! _ := set_tab (<[fd := gettimeout s sk]>) in
     let! _ := raw_setblocking sk false in
     if match e_socks s !! sk with Some o => so_stream o && so_inet o | None => false end
     then fcatch (sys (n_nodelay fd)) (λ e, is_oserror e || bool_decide (e = AttributeError)) (λ _, fret tt) else fret tt) s.

(** [_patched_settimeout(self, value)] *)
Definition patched_settimeout (sk : nat) (value : option Z) : fio unit :=
  let! _ := raw_settimeout sk value in
  let! fd := fileno sk in
  match value with
  | None => set_tab (<[fd := None]>)
  | Some v => if v =? 0 then set_tab (delete fd) else set_tab (<[fd := Some v]>)
  end.

(** [_patched_setblocking(self, flag)] *)
Definition patched_setblocking (sk : nat) (flag : bool) : fio unit :=
  let! _ := raw_setblocking sk flag in
  let! fd := fileno sk in
  if flag then set_tab (<[fd := None]>) else set_tab (delete fd).

(** [_coop_timeout(sock)] *)
Definition coop_timeout_of (s : env K) (sk : nat) : option Z :=
  match e_tab s !! fileno_of s sk with
  | None => None
  | Some None => None
  | Some (Some t) => if t =? 0 then None else Some t
  end.
Definition coop_timeout (sk : nat) : fio (option Z) := λ s, Some (s, Ret (coop_timeout_of s sk)).

(** ** Waiting *)

Definition WAIT_FD_CANCELLED : Z := 1073741824.
Definition timed_out : pyexc := TimeoutError "timed out".
Definition cancelled : pyexc := OSError "wait_fd cancelled".

(** [_wait_fd_coop(fd, ev, timeout_ms=-1)] *)
Definition wait_fd_coop (fd ev timeout_ms : Z) : fio Z := λ s,
  let '(s', r) := n_wait fd ev (if 0 <=? timeout_ms then Some timeout_ms else None) s in
  if r =? WAIT_FD_CANCELLED then Some (s', Exc cancelled) else Some (s', Ret r).

(** [max(1, int(t * 1000))] *)
Definition to_ms (t : Z) : Z := Z.max 1 (t / 1000).

(** [_wait_io(sock, fd, direction)] *)
Definition wait_io (sk : nat) (fd dir : Z) : fio unit :=
  let! t := coop_timeout sk in
  match t with
  | None => let! _ := wait_fd_coop fd dir (-1) in fret tt
  | Some t => let! r := wait_fd_coop fd dir (to_ms t) in if r =? 0 then fraise timed_out else fret tt
  end.

(** The wait of the loops with a total deadline: [rem <= 0 or _wait_fd_coop(...) == 0]. *)
Definition wait_deadline (fd dir : Z) (deadline : option Z) : fio unit :=
  match deadline with
  | None => let! _ := wait_fd_coop fd dir (-1) in fret tt
  | Some d =>
      let! t := now in
      if d - t <=? 0 then fraise timed_out
      else let! r := wait_fd_coop fd dir (to_ms (d - t)) in if r =? 0 then fraise timed_out else fret tt
  end.

(** [while True: try: return orig() except (BlockingIOError, InterruptedError): wait()] *)
Fixpoint retry_io {A} (fuel : nat) (orig : fio A) (wait : fio unit) : fio A := λ s,
  match fuel with
  | O => None
  | S fuel' =>
      match orig s with
      | Some (s', Exc e) =>
          if would_block e then (let! _ := wait in retry_io fuel' orig wait) s' else Some (s', Exc e)
      | r => r
      end
  end.

(** A raw method of the socket object, with the descriptor it has now. *)
Definition orig {A} (sk : nat) (m : Z -> io K A) : fio A := let! fd := fileno sk in sys (m fd).

(** ** Stream reads *)

Definition MSG_WAITALL : Z := 256.
Definition MSG_PEEK : Z := 2.

(** The loop of [_recv_waitall]; [acc] is [buffer[:got]]. *)
Fixpoint waitall_loop (fuel : nat) (sk : nat) (fd : Z) (nbytes : nat) (flags : Z) (deadline : option Z) (acc : bytes) : fio bytes := λ s,
  match fuel with
  | O => None
  | S fuel' =>
      if bool_decide (length acc < nbytes)%nat then
        match orig sk (λ fd, n_recv fd (Z.of_nat (nbytes - length acc)) flags) s with
        | Some (s', Ret d) =>
            match d with [] => Some (s', Ret acc) | _ => waitall_loop fuel' sk fd nbytes flags deadline (acc ++ d) s' end
        | Some (s', Exc e) =>
            if would_block e
            then (let! _ := wait_deadline fd READ deadline in waitall_loop fuel' sk fd nbytes flags deadline acc) s'
            else Some (s', Exc e)
        | None => None
        end
      else Some (s, Ret acc)
  end.

(** [_recv_waitall(sock, buffer, nbytes, flags, t)] on a buffer of [blen] bytes. *)
Definition recv_waitall (fuel : nat) (sk : nat) (blen nbytes : nat) (flags : Z) (t : option Z) : fio bytes :=
  let! fd := fileno sk in
  let! t0 := now in
  waitall_loop fuel sk fd (nbytes `min` blen) flags ((λ d, t0 + d) <$> t) [].

Definition wants_waitall (flags : Z) : bool :=
  negb (Z.land flags MSG_WAITALL =? 0) && (Z.land flags MSG_PEEK =? 0).

(** The read after the timeout is known: C fast path, fixed timeout per wait, or no timeout. *)
Definition recv_with (fuel : nat) (sk : nat) (n flags : Z) (t : option Z) : fio bytes :=
  let raw := orig sk (λ fd, n_recv fd n flags) in
  match n_tcp_recv, t with
  | Some tcp_recv, None => let! fd := fileno sk in sched (tcp_recv fd n flags)
  | _, Some t =>
      retry_io fuel raw
        (let! fd := fileno sk in let! r := wait_fd_coop fd READ (to_ms t) in if r =? 0 then fraise timed_out else fret tt)
  | None, None => retry_io fuel raw (let! fd := fileno sk in let! _ := wait_fd_coop fd READ (-1) in fret tt)
  end.

(** [_patched_recv(self, bufsize, flags)] *)
Definition patched_recv (fuel : nat) (sk : nat) (bufsize flags : Z) : fio bytes :=
  if negb in_fiber then orig sk (λ fd, n_recv fd bufsize flags)
  else
    let! _ := make_nonblocking sk in
    let! t := coop_timeout sk in
    if wants_waitall flags && (0 <? bufsize)
    then recv_waitall fuel sk (Z.to_nat bufsize) (Z.to_nat bufsize) (Z.ldiff flags MSG_WAITALL) t
    else recv_with fuel sk bufsize flags t.

(** [_patched_recv_into(self, buffer, nbytes, flags)] on a buffer of [blen] bytes: the bytes
    written at its front. *)
Definition patched_recv_into (fuel : nat) (sk : nat) (blen nbytes : nat) (flags : Z) : fio bytes :=
  let n := if decide (nbytes = 0%nat) then blen else nbytes in
  if negb in_fiber then orig sk (λ fd, n_recv fd (Z.of_nat n) flags)
  else
    let! _ := make_nonblocking sk in
    let! t := coop_timeout sk in
    if wants_waitall flags && bool_decide (0 < n)%nat
    then recv_waitall fuel sk blen n (Z.ldiff flags MSG_WAITALL) t
    else recv_with fuel sk (Z.of_nat n) flags t.

(** ** Stream writes *)

(** [_patched_send(self, data, flags)] *)
Definition patched_send (fuel : nat) (sk : nat) (data : bytes) (flags : Z) : fio Z :=
  let raw := orig sk (λ fd, n_send fd data flags) in
  if negb in_fiber then raw
  else
    let! _ := make_nonblocking sk in
    let! t := coop_timeout sk in
    match n_tcp_send_once, t with
    | Some send_once, None => let! fd := fileno sk in sched (send_once fd data flags)
    | _, _ => let! t0 := now in retry_io fuel raw (let! fd := fileno sk in wait_deadline fd WRITE ((λ d, t0 + d) <$> t))
    end.

(** The loop of [_patched_sendall]. *)
Fixpoint sendall_loop (fuel : nat) (sk : nat) (data : bytes) (flags : Z) (deadline : option Z) (sent : nat) : fio unit := λ s,
  match fuel with
  | O => None
  | S fuel' =>
      if bool_decide (sent < length data)%nat then
        match orig sk (λ fd, n_send fd (drop sent data) flags) s with
        | Some (s', Ret n) => sendall_loop fuel' sk data flags deadline (sent + Z.to_nat n) s'
        | Some (s', Exc e) =>
            if would_block e
            then (let! fd := fileno sk in let! _ := wait_deadline fd WRITE deadline in sendall_loop fuel' sk data flags deadline sent) s'
            else Some (s', Exc e)
        | None => None
        end
      else Some (s, Ret tt)
  end.

(** [_patched_sendall(self, data, flags)] *)
Definition patched_sendall (fuel : nat) (sk : nat) (data : bytes) (flags : Z) (orig_sendall : io K unit) : fio unit :=
  if negb in_fiber then sys orig_sendall
  else
    let! _ := make_nonblocking sk in
    let! t := coop_timeout sk in
    match n_tcp_send, t with
    | Some tcp_send, None => let! fd := fileno sk in sched (tcp_send fd data flags)
    | _, _ => let! t0 := now in sendall_loop fuel sk data flags ((λ d, t0 + d) <$> t) 0
    end.

(** ** Accept and the datagram and message calls *)

Definition msg_op {A} (fuel : nat) (sk : nat) (dir : Z) (m : Z -> io K A) : fio A :=
  if negb in_fiber then orig sk m
  else
    let! _ := make_nonblocking sk in
    retry_io fuel (orig sk m) (let! fd := fileno sk in wait_io sk fd dir).

Definition patched_accept (fuel : nat) (sk : nat) : fio (Z * Z) := msg_op fuel sk READ n_accept.
Definition patched_recvfrom (fuel : nat) (sk : nat) (bufsize flags : Z) : fio (bytes * Z) :=
  msg_op fuel sk READ (λ fd, n_recvfrom fd bufsize flags).
Definition patched_sendto (fuel : nat) (sk : nat) (data : bytes) (a : Z) : fio Z :=
  msg_op fuel sk WRITE (λ fd, n_sendto fd data a).
Definition patched_recvmsg (fuel : nat) (sk : nat) (bufsize ancbufsize flags : Z) : fio (bytes * Z) :=
  msg_op fuel sk READ (λ fd, n_recvmsg fd bufsize ancbufsize flags).
Definition patched_sendmsg (fuel : nat) (sk : nat) (buffers : bytes) (flags : Z) : fio Z :=
  msg_op fuel sk WRITE (λ fd, n_sendmsg fd buffers flags).
Definition patched_recvmsg_into (fuel : nat) (sk : nat) (buflen ancbufsize flags : Z) : fio (bytes * Z) :=
  msg_op fuel sk READ (λ fd, n_recvmsg_into fd buflen ancbufsize flags).
Definition patched_recvfrom_into (fuel : nat) (sk : nat) (nbytes flags : Z) : fio (bytes * Z) :=
  msg_op fuel sk READ (λ fd, n_recvfrom_into fd nbytes flags).

(** ** Connect *)

Definition EAGAIN : Z := 11.
Definition EISCONN : Z := 106.
Definition EALREADY : Z := 114.
Definition EINPROGRESS : Z := 115.
Definition in_progress (err : Z) : bool := (err =? EINPROGRESS) || (err =? EALREADY).
Definition connected_now (err : Z) : bool := (err =? 0) || (err =? EISCONN).

(** [host.split("%", 1)[0]] *)
Fixpoint before_percent (h : string) : string :=
  match h with
  | EmptyString => EmptyString
  | String c h' => if Ascii.eqb c "%"%char then EmptyString else String c (before_percent h')
  end.

(** [_connect_needs_resolve(host)]; [n_literal af p]: [inet_pton(af, p)] does not raise. *)
Definition connect_needs_resolve (host : pyhost) : bool :=
  match host with
  | HOther | HStr EmptyString => false
  | HStr h => negb (n_literal 10 (before_percent h) || n_literal 2 (before_percent h))
  end.

(** [_connect_resolve(sock, address)] *)
Definition connect_resolve (a : address) : fio address :=
  match a with
  | AHostPort (HStr h) port =>
      if connect_needs_resolve (HStr h) then
        let! infos := sched (n_resolve h port) in
        fret (match infos with [] => a | i :: _ => ASockaddr i end)
      else fret a
  | _ => fret a
  end.

(** [_connect_wait_result(sock, timeout_ms)] *)
Fixpoint connect_wait_result (fuel : nat) (sk : nat) (timeout_ms : option Z) : fio unit :=
  match fuel with
  | O => λ _, None
  | S fuel' =>
      let! fd := fileno sk in
      let! _ := (match timeout_ms with
                 | Some ms => let! r := wait_fd_coop fd WRITE ms in if r =? 0 then fraise (TimeoutError "connect timed out") else fret tt
                 | None => let! _ := wait_fd_coop fd WRITE (-1) in fret tt
                 end) in
      let! err := orig sk n_so_error in
      if err =? 0 then fret tt
      else if in_progress err then connect_wait_result fuel' sk timeout_ms
      else fraise (OSError "connect failed")
  end.

(** [_connect_retry_backlog(sock, address)], from the current backoff. *)
Fixpoint connect_retry_backlog (fuel : nat) (sk : nat) (a : address) (backoff : Z) : fio unit :=
  match fuel with
  | O => λ _, None
  | S fuel' =>
      let! _ := sched (λ s, (n_sleep backoff s, Ret tt)) in
      let backoff' := if backoff <? 50000 then 2 * backoff else backoff in
      let! err := orig sk (λ fd, n_connect_ex fd a) in
      if connected_now err then fret tt
      else if err =? EAGAIN then connect_retry_backlog fuel' sk a backoff'
      else if in_progress err then connect_wait_result fuel' sk None
      else fraise (OSError "connect failed")
  end.

(** [_patched_connect(self, address)] *)
Definition patched_connect (fuel : nat) (sk : nat) (a : address) : fio unit :=
  if negb in_fiber then orig sk (λ fd, n_connect fd a)
  else
    let! _ := make_nonblocking sk in
    let! a := connect_resolve a in
    let! err := orig sk (λ fd, n_connect_ex fd a) in
    if connected_now err then fret tt
    else if negb (in_progress err) then
      if err =? EAGAIN then
        let! t := coop_timeout sk in
        match t with
        | None => connect_retry_backlog fuel sk a 500
        | Some _ => fraise BlockingIOError
        end
      else fraise (OSError "connect failed")
    else
      let! t := coop_timeout sk in
      connect_wait_result fuel sk (to_ms <$> t).

(** ** Sendfile *)

Definition file_of (s : env K) (f : nat) : pyfile := default (PyFile [] 0 false false false true) (e_files s !! f).
Definition set_pos (f : nat) (pos : nat) (s : env K) : env K :=
  Env (e_socks s) (e_tab s)
    (alter (λ x, PyFile (f_data x) pos (f_fileno x) (f_stat x) (f_seek x) (f_binary x)) f (e_files s)) (e_k s).

(** CPython's [socket._check_sendfile_params]. *)
Definition check_sendfile_params (sk f : nat) (count : option Z) : fio unit := λ s,
  if negb (f_binary (file_of s f)) then Some (s, Exc (ValueError "file should be opened in binary mode"))
  else if negb (match e_socks s !! sk with Some o => so_stream o | None => false end)
  then Some (s, Exc (ValueError "only SOCK_STREAM type sockets are supported"))
  else if match count with Some c => c <=? 0 | None => false end
  then Some (s, Exc (ValueError "count must be a positive integer"))
  else Some (s, Ret tt).

(** [finally: if total_sent > 0 and hasattr(file, "seek"): file.seek(pos)] *)
Definition sf_finally {A} (f : nat) (total pos : nat) (r : out A) : fio A := λ s,
  Some (if bool_decide (0 < total)%nat && f_seek (file_of s f) then set_pos f pos s else s, r).

(** The size of the next block: [min(count - total_sent, blocksize)]. *)
Definition sf_block (count : option nat) (total blocksize : nat) : nat :=
  match count with Some c => (c - total) `min` blocksize | None => blocksize end.

(** The loop of [_co_sendfile_use_sendfile]; [Ret None] is [raise _GiveupOnSendfile]. *)
Fixpoint sendfile_loop (fuel : nat) (sk f : nat) (count : option nat) (offset total blocksize : nat) : fio (option nat) := λ s,
  match fuel with
  | O => None
  | S fuel' =>
      let bs := sf_block count total blocksize in
      if bool_decide (count ≠ None) && bool_decide (bs = 0%nat) then sf_finally f total offset (Ret (Some total)) s
      else
        let sockno := fileno_of s sk in
        match sys (n_sendfile sockno (take bs (drop offset (f_data (file_of s f))))) s with
        | Some (s', Ret sent) =>
            if sent =? 0 then sf_finally f total offset (Ret (Some total)) s'
            else sendfile_loop fuel' sk f count (offset + Z.to_nat sent) (total + Z.to_nat sent) bs s'
        | Some (s', Exc e) =>
            if would_block e then
              match wait_fd_coop sockno WRITE (-1) s' with
              | Some (s'', Ret _) => sendfile_loop fuel' sk f count offset total bs s''
              | Some (s'', Exc e') => sf_finally f total offset (Exc e') s''
              | None => None
              end
            else if is_oserror e && bool_decide (total = 0%nat) then sf_finally f total offset (Ret None) s'
            else sf_finally f total offset (Exc e) s'
        | None => None
        end
  end.

(** [_co_sendfile_use_sendfile(self, file, offset, count)] *)
Definition co_sendfile_use_sendfile (fuel : nat) (sk f offset : nat) (count : option Z) : fio (option nat) :=
  let! _ := check_sendfile_params sk f count in
  λ s, let x := file_of s f in
    if negb (f_fileno x) || negb (f_stat x) then Some (s, Ret None)
    else if bool_decide (length (f_data x) = 0%nat) then Some (s, Ret (Some 0%nat))
    else
      let count' := Z.to_nat <$> count in
      sendfile_loop fuel sk f count' offset 0 (Z.to_nat (Z.min (Z.of_nat (default (length (f_data x)) count')) (2 ^ 30))) s.

(** [while data: sent = sock_send(data); total_sent += sent; data = data[sent:]] *)
Fixpoint send_block (fuel : nat) (sk : nat) (data : bytes) (total : nat) (s : env K) : option (env K * out unit * nat) :=
  match fuel with
  | O => None
  | S fuel' =>
      match data with
      | [] => Some (s, Ret tt, total)
      | _ =>
          match patched_send fuel sk data 0 s with
          | Some (s', Ret n) => send_block fuel' sk (drop (Z.to_nat n) data) (total + Z.to_nat n) s'
          | Some (s', Exc e) => Some (s', Exc e, total)
          | None => None
          end
      end
  end.

(** The outer loop of [_co_sendfile_use_send]. *)
Fixpoint send_loop (fuel : nat) (sk f : nat) (count : option nat) (offset total blocksize : nat) : fio nat := λ s,
  match fuel with
  | O => None
  | S fuel' =>
      let bs := sf_block count total blocksize in
      if bool_decide (count ≠ None) && bool_decide (bs = 0%nat) then sf_finally f total (offset + total) (Ret total) s
      else
        let x := file_of s f in
        let data := take bs (drop (f_pos x) (f_data x)) in
        let s1 := set_pos f (f_pos x + length data) s in
        match data with
        | [] => sf_finally f total (offset + total) (Ret total) s1
        | _ =>
            match send_block fuel sk data total s1 with
            | Some (s2, Ret _, total') => send_loop fuel' sk f count offset total' bs s2
            | Some (s2, Exc e, total') => sf_finally f total' (offset + total') (Exc e) s2
            | None => None
            end
        end
  end.

(** [_co_sendfile_use_send(self, file, offset, count)] *)
Definition co_sendfile_use_send (fuel : nat) (sk f offset : nat) (count : option Z) : fio nat :=
  let! _ := check_sendfile_params sk f count in
  λ s,
    if bool_decide (offset ≠ 0%nat) && negb (f_seek (file_of s f)) then Some (s, Exc AttributeError)
    else
      let s1 := if bool_decide (offset ≠ 0%nat) then set_pos f offset s else s in
      let count' := Z.to_nat <$> count in
      send_loop fuel sk f count' offset 0 (match count' with Some c => Nat.min c (Z.to_nat 8192) | None => Z.to_nat 8192 end) s1.

(** [_patched_sendfile(self, file, offset, count)] where [os.sendfile] exists. *)
Definition patched_sendfile (fuel : nat) (sk f offset : nat) (count : option Z) (orig_sendfile : io K nat) : fio nat :=
  if negb in_fiber then sys orig_sendfile
  else
    let! _ := make_nonblocking sk in
    let! r := co_sendfile_use_sendfile fuel sk f offset count in
    match r with
    | Some total => fret total
    | None => co_sendfile_use_send fuel sk f offset count
    end.

(** ** Close and detach *)

(** [except (OSError, ValueError)] *)
Definition os_or_value (e : pyexc) : bool := is_oserror e || match e with ValueError _ => true | _ => false end.

(** A call whose [OSError] or [ValueError] is swallowed, and which may be missing. *)
Definition quietly {A} (m : option A) (call : A -> fio unit) : fio unit :=
  match m with Some f => fcatch (call f) os_or_value (λ _, fret tt) | None => fret tt end.

(** CPython's [socket.close]: note the call, and close the descriptor unless [makefile()] objects
    still use it. *)
Definition orig_close (sk : nat) : fio unit :=
  let! _ := upd_sock sk so_set_closed in
  λ s, match e_socks s !! sk with
       | Some o =>
           if bool_decide (so_refs o = 0%nat) then
             (let! _ := upd_sock sk (λ o, so_with (-1) (so_timeout o) o) in
              if 0 <=? so_fd o then sys (n_close (so_fd o)) else fret tt) s
           else Some (s, Ret tt)
       | None => Some (s, Ret tt)
       end.

(** [_patched_close(self)] *)
Definition patched_close (sk : nat) : fio unit :=
  let! fd := fileno sk in
  let! _ := (if 0 <=? fd then
       let! _ := quietly n_unregister (λ f, sys (f fd)) in
       let! _ := set_tab (delete fd) in
       quietly n_cancel_fd (λ f, sys (f fd))
     else fret tt) in
  orig_close sk.

(** CPython's [socket.makefile] and the [close()] of the object it returns, which closes the socket
    when [socket.close()] was called before. *)
Definition makefile (sk : nat) : fio unit := upd_sock sk (λ o, so_set_refs (S (so_refs o)) o).
Definition socketio_close (sk : nat) : fio unit :=
  let! _ := upd_sock sk (λ o, so_set_refs (pred (so_refs o)) o) in
  λ s, if match e_socks s !! sk with Some o => so_closed o | None => false end then patched_close sk s else Some (s, Ret tt).

(** [_patched_detach(self)]: the descriptor stays open and is returned. *)
Definition patched_detach (sk : nat) : fio Z :=
  let! fd := fileno sk in
  let! _ := (if 0 <=? fd then
       let! _ := set_tab (delete fd) in
       quietly n_unregister (λ f, sys (f fd))
     else fret tt) in
  let! fd' := fileno sk in
  let! _ := upd_sock sk (λ o, so_set_closed (so_with (-1) (so_timeout o) o)) in
  fret fd'.

(** ** The timeout a socket was asked for

    The code forces every socket non-blocking, so the socket object forgets the timeout; the side
    table remembers it by descriptor number, and descriptor numbers are used again.  [tstep] is any
    sequence of calls, with the last timeout asked of each socket beside the state. *)

Abbreviation asked := (gmap nat (option Z)).

(** [sock._closed] *)
Definition close_called (s : env K) (sk : nat) : bool := match e_socks s !! sk with Some o => so_closed o | None => false end.

Definition owns (s : env K) (sk : nat) (fd : Z) : Prop := exists o, e_socks s !! sk = Some o /\ so_fd o = fd.

Inductive tstep : env K * asked -> env K * asked -> Prop :=
  | ts_new s a sk fd live st inet : e_socks s !! sk = None -> 0 <= fd -> (forall sk', ~ owns s sk' fd) ->
      live = None \/ live = Some 0 ->
      tstep (s, a) (Env (<[sk := SockObj fd live st inet 0 false]> (e_socks s)) (e_tab s) (e_files s) (e_k s), <[sk := live]> a)
  | ts_set s a sk v s' : 0 <= fileno_of s sk -> patched_settimeout sk v s = Some (s', Ret tt) -> tstep (s, a) (s', <[sk := v]> a)
  | ts_block s a sk b s' : 0 <= fileno_of s sk -> patched_setblocking sk b s = Some (s', Ret tt) ->
      tstep (s, a) (s', <[sk := if b then None else Some 0]> a)
  | ts_io s a sk s' r : 0 <= fileno_of s sk -> make_nonblocking sk s = Some (s', r) -> tstep (s, a) (s', a)
  | ts_close s a sk s' r : patched_close sk s = Some (s', r) -> tstep (s, a) (s', a)
  | ts_makefile s a sk s' r : makefile sk s = Some (s', r) -> tstep (s, a) (s', a)
  | ts_ioclose s a sk s' r : socketio_close sk s = Some (s', r) -> tstep (s, a) (s', a)
  | ts_detach s a sk s' r : patched_detach sk s = Some (s', r) -> tstep (s, a) (s', a)
  | ts_kernel s a k' : tstep (s, a) (Env (e_socks s) (e_tab s) (e_files s) k', a).

Inductive treach : env K * asked -> Prop :=
  | tr_start fs k : treach (Env ∅ ∅ fs k, ∅)
  | tr_step w w' : treach w -> tstep w w' -> treach w'.

(** The deadline a cooperative operation should have. *)
Definition want (v : option Z) : option Z := match v with Some t => if t =? 0 then None else Some t | None => None end.
Definition eff (tab : gmap Z (option Z)) (fd : Z) : option Z := match tab !! fd with Some v => want v | None => None end.

Record tab_ok (s : env K) (a : asked) : Prop := {
  tko_inj sk1 sk2 fd : 0 <= fd -> owns s sk1 fd -> owns s sk2 fd -> sk1 = sk2;
  tko_asked sk o : e_socks s !! sk = Some o -> 0 <= so_fd o -> so_closed o = false -> exists v, a !! sk = Some v /\
    if decide (so_timeout o = Some 0) then eff (e_tab s) (so_fd o) = want v else so_timeout o = v;
  tko_owned fd : 0 <= fd -> is_Some (e_tab s !! fd) -> exists sk, owns s sk fd
}.

Lemma coop_timeout_eff s sk : coop_timeout_of s sk = eff (e_tab s) (fileno_of s sk).
Proof. unfold coop_timeout_of, eff. by destruct (e_tab s !! _) as [[t|]|]. Qed.

Lemma sys_inv {A} (m : io K A) s s' r : sys m s = Some (s', r) ->
  exists k', s' = Env (e_socks s) (e_tab s) (e_files s) k' /\ m (e_k s) = (k', r).
Proof. unfold sys. destruct (m (e_k s)) as [k' r']. intros. simplify_eq. eauto. Qed.

Lemma tab_ok_kernel s a fs k' : tab_ok s a -> tab_ok (Env (e_socks s) (e_tab s) fs k') a.
Proof. intros [H1 H2 H3]. by split. Qed.

(** A call changes one socket object, its entry of the table and what was asked of it. *)
Lemma tab_ok_change s a sk o o' tab' a' fs k' : tab_ok s a -> e_socks s !! sk = Some o ->
  so_fd o' = so_fd o \/ so_fd o' < 0 /\ (0 <= so_fd o -> tab' !! so_fd o = None) ->
  (forall fd, 0 <= fd -> fd ≠ so_fd o -> tab' !! fd = e_tab s !! fd) -> (forall k, k ≠ sk -> a' !! k = a !! k) ->
  (0 <= so_fd o' -> so_closed o' = false -> exists v, a' !! sk = Some v /\
     if decide (so_timeout o' = Some 0) then eff tab' (so_fd o') = want v else so_timeout o' = v) ->
  tab_ok (Env (<[sk := o']> (e_socks s)) tab' fs k') a'.
Proof.
  intros [H1 H2 H3] Ho Hfd Htab Ha Hv.
  assert (Hown : forall k fd, 0 <= fd -> owns (Env (<[sk := o']> (e_socks s)) tab' fs k') k fd -> owns s k fd).
  { intros k fd Hf. unfold owns; simpl. intros (x & [[<- <-]|[Hne Hx]]%lookup_insert_Some & <-); [|by exists x].
    exists o. split; [done|]. destruct Hfd as [?|[? _]]; [done|lia]. }
  split.
  - intros k1 k2 fd Hf ?%Hown ?%Hown; try done. by eapply H1.
  - simpl. intros k x [[<- <-]|[Hne Hx]]%lookup_insert_Some Hf Hc; [by apply Hv|].
    destruct (H2 k x Hx Hf Hc) as (v & Hav & Hcv). exists v. rewrite Ha by done. split; [done|].
    case_decide; [|done]. unfold eff. rewrite Htab; [done|done|]. intros E. destruct Hne.
    apply (H1 sk k (so_fd x)); [done|by exists o|by exists x].
  - simpl. intros fd Hf Hs. destruct (decide (fd = so_fd o)) as [->|Hne].
    + destruct Hfd as [E|[_ E]]; [|rewrite E in Hs by done; by destruct Hs]. exists sk, o'. simpl. by rewrite lookup_insert_eq.
    + rewrite Htab in Hs by done. destruct (H3 fd Hf Hs) as (k & x & Hx & <-). exists k, x. simpl.
      rewrite lookup_insert_ne; [done|]. intros <-. congruence.
Qed.

(** A call that sets the live timeout of an open socket and its own entry of the table. *)
Lemma tab_ok_set s a sk o live v tab' fs k' : tab_ok s a -> e_socks s !! sk = Some o ->
  (forall fd, fd ≠ so_fd o -> tab' !! fd = e_tab s !! fd) ->
  (if decide (live = Some 0) then eff tab' (so_fd o) = want v else live = v) ->
  tab_ok (Env (<[sk := so_with (so_fd o) live o]> (e_socks s)) tab' fs k') (<[sk := v]> a).
Proof.
  intros Hok Ho Htab Hv. apply (tab_ok_change s a sk o); try done; [by left|by auto|intros; by rewrite lookup_insert_ne|].
  intros _ _. exists v. by rewrite lookup_insert_eq.
Qed.

Lemma fileno_open s sk : 0 <= fileno_of s sk -> exists o, e_socks s !! sk = Some o /\ fileno_of s sk = so_fd o.
Proof. unfold fileno_of. destruct (e_socks s !! sk) as [o|]; [by eauto|lia]. Qed.

Lemma raw_settimeout_inv sk v s s' r o : raw_settimeout sk v s = Some (s', r) -> e_socks s !! sk = Some o ->
  (exists k', s' = Env (<[sk := so_with (so_fd o) v o]> (e_socks s)) (e_tab s) (e_files s) k' /\
     r = (n_setblock (so_fd o) (match v with None => true | Some _ => false end) (e_k s)).2) \/ exists e, s' = s /\ r = Exc e.
Proof.
  unfold raw_settimeout. intros H Ho. destruct (match v with Some t => t <? 0 | None => false end).
  { unfold fraise in H. simplify_eq. right. eauto. }
  unfold fbind, upd_sock, fileno in H. simpl in H.
  apply sys_inv in H as (k' & -> & Hk). simpl in *. left. exists k'.
  rewrite (alter_as_insert _ _ _ _ Ho) in *.
  split; [done|]. unfold fileno_of in Hk. simpl in Hk. rewrite lookup_insert_eq in Hk. simpl in Hk. by rewrite Hk.
Qed.

(** What the code relies on: setting the mode of an open descriptor works, and the poller's calls
    raise nothing but what the code catches. *)
Class TabLaws : Prop := {
  tl_setblock fd b k : 0 <= fd -> (n_setblock fd b k).2 = Ret tt;
  tl_unregister f fd k e : n_unregister = Some f -> (f fd k).2 = Exc e -> os_or_value e = true;
  tl_cancel f fd k e : n_cancel_fd = Some f -> (f fd k).2 = Exc e -> os_or_value e = true
}.

Lemma quietly_sys (m : option (Z -> io K unit)) fd s :
  (forall f k e, m = Some f -> (f fd k).2 = Exc e -> os_or_value e = true) ->
  exists k', quietly m (λ f, sys (f fd)) s = Some (Env (e_socks s) (e_tab s) (e_files s) k', Ret tt).
Proof.
  intros Hm. unfold quietly. destruct m as [f|]; [|exists (e_k s); by destruct s].
  unfold fcatch. specialize (Hm f (e_k s)). unfold sys. destruct (f fd (e_k s)) as [k' [[]|e]]; simpl in *; [by eauto|].
  rewrite (Hm e eq_refl eq_refl). by eauto.
Qed.

Section honoured.
Context {HT : TabLaws}.

Lemma tab_ok_settimeout s a sk v s' : tab_ok s a -> 0 <= fileno_of s sk -> patched_settimeout sk v s = Some (s', Ret tt) ->
  tab_ok s' (<[sk := v]> a).
Proof.
  intros Hok Hfd H. destruct (fileno_open s sk Hfd) as (o & Ho & Ef). rewrite Ef in Hfd.
  unfold patched_settimeout, fbind in H. destruct (raw_settimeout sk v s) as [[s1 [[]|e]]|] eqn:E; try done.
  destruct (raw_settimeout_inv _ _ _ _ _ _ E Ho) as [(k' & -> & _)|(e & -> & [=])].
  unfold fileno, fileno_of, set_tab in H. simpl in H. rewrite lookup_insert_eq in H. simpl in H.
  destruct v as [v|]; [destruct (v =? 0) eqn:Ev|]; simplify_eq; apply (tab_ok_set s a sk o); try done; simpl.
  - intros fd Hne. by rewrite lookup_delete_ne.
  - apply Z.eqb_eq in Ev. subst. rewrite decide_True by done. unfold eff. by rewrite lookup_delete_eq.
  - intros fd Hne. by rewrite lookup_insert_ne.
  - apply Z.eqb_neq in Ev. rewrite decide_False by congruence. done.
  - intros fd Hne. by rewrite lookup_insert_ne.
Qed.

Lemma setblocking_settimeout sk b s : patched_setblocking sk b s = patched_settimeout sk (if b then None else Some 0) s.
Proof. by destruct b. Qed.

Lemma raw_setblocking_ok s sk o b : e_socks s !! sk = Some o -> 0 <= so_fd o ->
  exists k', raw_setblocking sk b s =
    Some (Env (<[sk := so_with (so_fd o) (if b then None else Some 0) o]> (e_socks s)) (e_tab s) (e_files s) k', Ret tt).
Proof.
  intros Ho Hfd. unfold raw_setblocking, raw_settimeout.
  replace (match (if b then None else Some 0) with Some t => t <? 0 | None => false end) with false by (by destruct b).
  unfold fbind, upd_sock, fileno, sys. simpl. unfold fileno_of. simpl. rewrite (alter_as_insert _ _ _ _ Ho), lookup_insert_eq. simpl.
  match goal with |- context [n_setblock ?a ?b ?c] => pose proof (tl_setblock a b c Hfd) as Hx; destruct (n_setblock a b c) as [k' r] end.
  simpl in Hx. subst r. by exists k'.
Qed.

(** The first sighting of a socket: the timeout moves to the table. *)
Lemma make_nonblocking_first s sk o : e_socks s !! sk = Some o -> 0 <= so_fd o -> so_timeout o ≠ Some 0 ->
  exists k' r, make_nonblocking sk s =
    Some (Env (<[sk := so_with (so_fd o) (Some 0) o]> (e_socks s)) (<[so_fd o := so_timeout o]> (e_tab s)) (e_files s) k', r).
Proof.
  intros Ho Hfd Hg. unfold make_nonblocking. assert (gettimeout s sk = so_timeout o) as -> by (unfold gettimeout; by rewrite Ho).
  rewrite bool_decide_eq_false_2 by done. unfold fbind at 1. unfold fileno. unfold fbind at 1. unfold set_tab. unfold fbind at 1. simpl.
  assert (fileno_of s sk = so_fd o) as -> by (unfold fileno_of; by rewrite Ho). rewrite Ho.
  destruct (raw_setblocking_ok (Env (e_socks s) (<[so_fd o:=so_timeout o]> (e_tab s)) (e_files s) (e_k s)) sk o false Ho Hfd) as [k' ->].
  simpl. destruct (so_stream o && so_inet o); [|by eexists _, _].
  unfold fcatch, sys. simpl. destruct (n_nodelay (so_fd o) k') as [k2 [[]|e]]; simpl; [|destruct (is_oserror e || _)]; by eexists _, _.
Qed.

(** [_make_nonblocking] returns and keeps what was asked. *)
Lemma make_nonblocking_spec s a sk : tab_ok s a -> 0 <= fileno_of s sk ->
  exists s' r, make_nonblocking sk s = Some (s', r) /\ tab_ok s' a /\ gettimeout s' sk = Some 0 /\
    fileno_of s' sk = fileno_of s sk /\ close_called s' sk = close_called s sk.
Proof.
  intros Hok Hfd. destruct (fileno_open s sk Hfd) as (o & Ho & Ef). rewrite Ef in Hfd.
  assert (gettimeout s sk = so_timeout o) as Egt by (unfold gettimeout; by rewrite Ho).
  destruct (decide (so_timeout o = Some 0)) as [Eg|Eg].
  { exists s, (Ret tt). unfold make_nonblocking. rewrite bool_decide_eq_true_2 by congruence. split_and!; try done. congruence. }
  destruct (make_nonblocking_first s sk o Ho Hfd Eg) as (k' & r & ->). eexists _, r. split; [reflexivity|].
  split_and!.
  - apply (tab_ok_change s a sk o); try done; [by left|intros fd _ Hne; by rewrite lookup_insert_ne|].
    intros _ Hc. destruct (tko_asked _ _ Hok sk o Ho Hfd Hc) as (v & Hv & Hlive). rewrite decide_False in Hlive by done.
    exists v. split; [done|]. rewrite decide_True by done. unfold eff. simpl. rewrite lookup_insert_eq. by rewrite Hlive.
  - unfold gettimeout. simpl. by rewrite lookup_insert_eq.
  - rewrite Ef. unfold fileno_of. simpl. by rewrite lookup_insert_eq.
  - unfold close_called. simpl. by rewrite lookup_insert_eq, Ho.
Qed.

Lemma orig_close_inv sk s s' r : orig_close sk s = Some (s', r) ->
  exists k', match e_socks s !! sk with
  | Some o => s' = Env (<[sk := if decide (so_refs o = 0%nat) then so_with (-1) (so_timeout o) (so_set_closed o)
                                 else so_set_closed o]> (e_socks s)) (e_tab s) (e_files s) k'
  | None => s' = Env (e_socks s) (e_tab s) (e_files s) k'
  end.
Proof.
  unfold orig_close, fbind at 1, upd_sock. simpl. rewrite lookup_alter_eq. intros H. destruct (e_socks s !! sk) as [o|] eqn:Ho; simpl in H.
  - rewrite (alter_as_insert _ _ _ _ Ho) in H. case_bool_decide as Hr; simpl in Hr.
    + rewrite decide_True by done. unfold fbind in H. simpl in H.
      rewrite (alter_as_insert _ _ _ (so_set_closed o)), insert_insert_eq in H by apply lookup_insert_eq. simpl in H.
      destruct (0 <=? so_fd o); [apply sys_inv in H as (k' & -> & _); by exists k'|]. injection H as <- _. by eexists.
    + rewrite decide_False by done. injection H as <- _. by eexists.
  - injection H as <- _. exists (e_k s). by rewrite alter_id by congruence.
Qed.

(** What [_patched_close] does to the socket object and the table. *)
Lemma patched_close_inv sk s s' r o : e_socks s !! sk = Some o -> patched_close sk s = Some (s', r) ->
  exists k', s' = Env (<[sk := if decide (so_refs o = 0%nat) then so_with (-1) (so_timeout o) (so_set_closed o)
                                else so_set_closed o]> (e_socks s))
               (if 0 <=? so_fd o then delete (so_fd o) (e_tab s) else e_tab s) (e_files s) k'.
Proof.
  intros Ho H. unfold patched_close in H. unfold fbind at 1, fileno at 1 in H.
  assert (fileno_of s sk = so_fd o) as Ef by (unfold fileno_of; by rewrite Ho). rewrite Ef in H. unfold fbind at 1 in H.
  destruct (0 <=? so_fd o) eqn:Ez.
  - unfold fbind at 1 in H. destruct (quietly_sys n_unregister (so_fd o) s) as [k1 E1]; [by intros; eapply tl_unregister|]. rewrite E1 in H.
    unfold fbind at 1, set_tab in H. simpl in H.
    match type of H with context [quietly n_cancel_fd _ ?x] => destruct (quietly_sys n_cancel_fd (so_fd o) x) as [k2 E2] end;
      [by intros; eapply tl_cancel|]. rewrite E2 in H. apply orig_close_inv in H as [k3 H]. simpl in H. rewrite Ho in H. by exists k3.
  - unfold fret in H. apply orig_close_inv in H as [k3 H]. rewrite Ho in H. by exists k3.
Qed.

Lemma patched_close_ok s a sk s' r : tab_ok s a -> patched_close sk s = Some (s', r) -> tab_ok s' a.
Proof.
  intros Hok H. destruct (e_socks s !! sk) as [o|] eqn:Ho.
  - destruct (patched_close_inv _ _ _ _ _ Ho H) as [k' ->]. apply (tab_ok_change s a sk o); try done.
    + destruct (decide (so_refs o = 0%nat)); simpl; [|by left]. right. split; [done|]. intros Hf.
      rewrite (proj2 (Z.leb_le _ _) Hf). apply lookup_delete_eq.
    + intros fd _ Hne. destruct (0 <=? so_fd o); [by rewrite lookup_delete_ne|done].
    + by destruct (decide (so_refs o = 0%nat)).
  - unfold patched_close, fbind, fileno in H. unfold fileno_of in H. rewrite Ho in H. simpl in H. unfold fret in H.
    apply orig_close_inv in H as [k' H]. rewrite Ho in H. subst s'. by apply tab_ok_kernel.
Qed.

(** [makefile()] and closing its object only count. *)
Lemma tab_ok_refs s a sk f : tab_ok s a ->
  tab_ok (Env (alter (λ o, so_set_refs (f (so_refs o)) o) sk (e_socks s)) (e_tab s) (e_files s) (e_k s)) a.
Proof.
  intros Hok. destruct (e_socks s !! sk) as [o|] eqn:Ho.
  - rewrite (alter_as_insert _ _ _ _ Ho). apply (tab_ok_change s a sk o); try done; [by left|]. intros Hf Hc. exact (tko_asked _ _ Hok sk o Ho Hf Hc).
  - rewrite alter_id by congruence. by apply tab_ok_kernel.
Qed.

Lemma socketio_close_ok s a sk s' r : tab_ok s a -> socketio_close sk s = Some (s', r) -> tab_ok s' a.
Proof.
  intros Hok H. unfold socketio_close, fbind, upd_sock in H.
  match type of H with (if ?b then _ else _) = _ => destruct b end.
  - eapply patched_close_ok, H. by apply (tab_ok_refs s a sk pred).
  - injection H as <- _. by apply (tab_ok_refs s a sk pred).
Qed.

Lemma patched_detach_ok s a sk s' r : tab_ok s a -> patched_detach sk s = Some (s', r) -> tab_ok s' a.
Proof.
  intros Hok H. unfold patched_detach in H. unfold fbind at 1, fileno at 1 in H. unfold fbind at 1 in H.
  destruct (e_socks s !! sk) as [o|] eqn:Ho.
  - assert (fileno_of s sk = so_fd o) as Ef by (unfold fileno_of; by rewrite Ho). rewrite Ef in H.
    assert (forall k tab', (forall fd, fd ≠ so_fd o -> tab' !! fd = e_tab s !! fd) -> (0 <= so_fd o -> tab' !! so_fd o = None) ->
      tab_ok (Env (<[sk := so_set_closed (so_with (-1) (so_timeout o) o)]> (e_socks s)) tab' (e_files s) k) a) as Hd.
    { intros k tab' ? ?. apply (tab_ok_change s a sk o); try done; [by right|intros; auto]. }
    destruct (0 <=? so_fd o) eqn:Ez.
    + unfold fbind at 1, set_tab in H. simpl in H.
      match type of H with context [quietly n_unregister _ ?x] => destruct (quietly_sys n_unregister (so_fd o) x) as [k2 E2] end;
        [by intros; eapply tl_unregister|]. rewrite E2 in H. unfold fbind, fileno, upd_sock, fret in H. simpl in H. simplify_eq.
      rewrite (alter_as_insert _ _ _ _ Ho). apply Hd; [|by rewrite lookup_delete_eq]. intros. by rewrite lookup_delete_ne.
    + unfold fret, fbind, fileno, upd_sock in H. simpl in H. simplify_eq. rewrite (alter_as_insert _ _ _ _ Ho). apply Hd; [done|lia].
  - unfold fileno_of in H. rewrite Ho in H. simpl in H. unfold fret, fbind, fileno, upd_sock in H. simpl in H. simplify_eq.
    rewrite alter_id by congruence. by apply tab_ok_kernel.
Qed.

Lemma tab_ok_new s a sk fd live st inet : tab_ok s a -> e_socks s !! sk = None -> 0 <= fd -> (forall sk', ~ owns s sk' fd) ->
  live = None \/ live = Some 0 ->
  tab_ok (Env (<[sk := SockObj fd live st inet 0 false]> (e_socks s)) (e_tab s) (e_files s) (e_k s)) (<[sk := live]> a).
Proof.
  intros [H1 H2 H3] Hsk Hfd Hfr Hl.
  assert (Hown : forall k d, owns (Env (<[sk := SockObj fd live st inet 0 false]> (e_socks s)) (e_tab s) (e_files s) (e_k s)) k d <->
    owns s k d \/ k = sk /\ d = fd).
  { intros k d. unfold owns; simpl. destruct (decide (sk = k)) as [<-|Hne].
    - rewrite lookup_insert_eq, Hsk. naive_solver.
    - rewrite lookup_insert_ne by done. naive_solver. }
  split.
  - intros k1 k2 d Hd. rewrite !Hown. intros [O1|[? ?]] [O2|[? ?]]; subst; [by eapply H1|by destruct (Hfr k1)|by destruct (Hfr k2)|done].
  - simpl. intros k o [[<- <-]|[Hne Ho]]%lookup_insert_Some Hd Hc; simpl in *.
    + exists live. rewrite lookup_insert_eq. split; [done|]. case_decide as El; [|done].
      unfold eff. destruct (e_tab s !! fd) as [x|] eqn:E; [|by rewrite El]. destruct (H3 fd Hfd) as [k Hk]; [by eauto|]. by destruct (Hfr k).
    + destruct (H2 k o Ho Hd Hc) as (v & ? & ?). exists v. by rewrite lookup_insert_ne.
  - simpl. intros d Hd Hs. destruct (H3 d Hd Hs) as [k Hk]. exists k. apply Hown. by left.
Qed.

Lemma treach_tab_ok w : treach w -> tab_ok w.1 w.2.
Proof.
  induction 1 as [fs k|w w' Hr IH Hst].
  - split; simpl; [by intros ? ? ? _ (o & ? & _)|done|by intros fd _ [x ?]].
  - destruct Hst as [s a sk fd live st inet|s a sk v s'|s a sk b s'|s a sk s' r|s a sk s' r|s a sk s' r|s a sk s' r|s a sk s' r|s a k']; simpl in *.
    + by apply tab_ok_new.
    + by eapply tab_ok_settimeout.
    + rewrite setblocking_settimeout in *. by eapply tab_ok_settimeout.
    + destruct (make_nonblocking_spec s a sk IH) as (s1 & r1 & E & ? & _); [done|]. congruence.
    + by eapply patched_close_ok.
    + unfold makefile, upd_sock in *. simplify_eq. by apply (tab_ok_refs s a sk S).
    + by eapply socketio_close_ok.
    + by eapply patched_detach_ok.
    + by apply tab_ok_kernel.
Qed.

(** C14. The side table implements per-socket timeouts: after any sequence of socket creations,
    [settimeout] and [setblocking] calls, I/O, [makefile()] objects made and closed, closes and
    detaches, with descriptor numbers used again, the deadline that a cooperative operation on an open
    socket whose [close()] has not been called finds is the timeout last asked of that socket, or none
    if it was asked to block or not to block.  (A socket that was closed while [makefile()] objects
    keep it open loses its deadline: [makefile_loses_timeout].) *)
Theorem sock_timeout_honoured s a sk : treach (s, a) -> 0 <= fileno_of s sk ->
  close_called s sk = false ->
  exists s' r v, make_nonblocking sk s = Some (s', r) /\ a !! sk = Some v /\ coop_timeout_of s' sk = want v.
Proof.
  intros Hr Hfd Hcl. apply treach_tab_ok in Hr. simpl in Hr.
  destruct (make_nonblocking_spec s a sk Hr Hfd) as (s' & r & E & Hok & Hg & Hf & Hcc). rewrite Hcl in Hcc.
  destruct (fileno_open s' sk) as (o & Ho & Eo); [lia|]. unfold close_called in Hcc. rewrite Ho in Hcc.
  destruct (tko_asked _ _ Hok sk o Ho) as (v & Hv & Hc); [lia|done|]. exists s', r, v. split_and!; [done..|].
  rewrite coop_timeout_eff, Eo. unfold gettimeout in Hg. rewrite Ho in Hg. by rewrite decide_True in Hc.
Qed.
End honoured.
End coop.

Arguments wait_fd_coop {K _} _ _ _ _.

(** ** A scripted kernel

    [sn_io] scripts the transfers ([None]: would block, [Some n]: at most [n + 1] bytes, at the end:
    everything), [sn_waits] the answers of [wait_fd] ([0]: its timeout passes; at the end: ready),
    [sn_errs] those of [connect_ex]; [sn_sf]: [os.sendfile] works. *)
Record snet := SNet {
  sn_now : Z; sn_wire : gmap Z bytes; sn_rd : gmap Z bytes; sn_in : bytes; sn_io : list (option nat);
  sn_conn : gmap Z conn; sn_errs : list Z; sn_waits : list Z; sn_sf : bool
}.

Definition sn_wire_of (k : snet) (fd : Z) : bytes := default [] (sn_wire k !! fd).
Definition sn_rd_of (k : snet) (fd : Z) : bytes := default [] (sn_rd k !! fd).
Definition sn_conn_of (k : snet) (fd : Z) : conn := default Unconnected (sn_conn k !! fd).

Definition sn_blocked (k : snet) (io' : list (option nat)) : snet :=
  SNet (sn_now k) (sn_wire k) (sn_rd k) (sn_in k) io' (sn_conn k) (sn_errs k) (sn_waits k) (sn_sf k).

Definition sn_put (fd : Z) (d : bytes) (m : nat) (io' : list (option nat)) (k : snet) : snet * out Z :=
  let m := (m `min` length d)%nat in
  (SNet (sn_now k) (<[fd := sn_wire_of k fd ++ take m d]> (sn_wire k)) (sn_rd k) (sn_in k) io' (sn_conn k) (sn_errs k)
     (sn_waits k) (sn_sf k), Ret (Z.of_nat m)).

Definition sn_send (fd : Z) (d : bytes) (k : snet) : snet * out Z :=
  match sn_io k with
  | [] => sn_put fd d (length d) [] k
  | Some n :: io' => sn_put fd d (S n) io' k
  | None :: io' => (sn_blocked k io', Exc BlockingIOError)
  end.

Definition sn_get (fd : Z) (m : nat) (io' : list (option nat)) (k : snet) : snet * out bytes :=
  let d := take m (sn_in k) in
  (SNet (sn_now k) (sn_wire k) (<[fd := sn_rd_of k fd ++ d]> (sn_rd k)) (drop m (sn_in k)) io' (sn_conn k) (sn_errs k)
     (sn_waits k) (sn_sf k), Ret d).

Definition sn_recv (fd n : Z) (k : snet) : snet * out bytes :=
  match sn_io k with
  | [] => sn_get fd (Z.to_nat n) [] k
  | Some m :: io' => sn_get fd (S m `min` Z.to_nat n) io' k
  | None :: io' => (sn_blocked k io', Exc BlockingIOError)
  end.

Definition sn_tick (d : Z) (fd : Z) (k : snet) : snet :=
  SNet (sn_now k + d) (sn_wire k) (sn_rd k) (sn_in k) (sn_io k)
    (match sn_conn k !! fd with Some InFlight => <[fd := Connected]> (sn_conn k) | _ => sn_conn k end)
    (sn_errs k) (tail (sn_waits k)) (sn_sf k).

Definition sn_wait (fd dir : Z) (timeout : option Z) (s : env snet) : env snet * Z :=
  let upd d := Env (e_socks s) (e_tab s) (e_files s) (sn_tick d fd (e_k s)) in
  match sn_waits (e_k s), timeout with
  | 0 :: _, Some ms => (upd (Z.max 1 (ms * 1000)), 0)
  | 0 :: _, None | [], _ => (upd 100, 1)
  | r :: _, _ => (upd 100, r)
  end.

Definition sn_connect_ex (fd : Z) (a : address) (k : snet) : snet * out Z :=
  match sn_errs k with
  | [] => (SNet (sn_now k) (sn_wire k) (sn_rd k) (sn_in k) (sn_io k) (<[fd := Connected]> (sn_conn k)) [] (sn_waits k) (sn_sf k), Ret 0)
  | e :: es =>
      (SNet (sn_now k) (sn_wire k) (sn_rd k) (sn_in k) (sn_io k)
         (if connected_now e then <[fd := Connected]> (sn_conn k)
          else if in_progress e then <[fd := InFlight]> (sn_conn k) else sn_conn k) es (sn_waits k) (sn_sf k), Ret e)
  end.

#[export] Instance scripted_net : Net snet := {|
  n_now := sn_now; n_wire := sn_wire_of; n_rd := sn_rd_of; n_conn := sn_conn_of;
  n_wait := sn_wait; n_sleep _ s := s;
  n_setblock fd _ k := (k, if 0 <=? fd then Ret tt else Exc (OSError "EBADF")); n_nodelay _ k := (k, Ret tt);
  n_recv fd n _ k := sn_recv fd n k; n_send fd d _ k := sn_send fd d k;
  n_accept _ k := (k, Exc BlockingIOError); n_recvfrom _ _ _ k := (k, Exc BlockingIOError);
  n_sendto _ d _ k := (k, Ret (Z.of_nat (length d))); n_recvmsg _ _ _ _ k := (k, Exc BlockingIOError);
  n_sendmsg _ d _ k := (k, Ret (Z.of_nat (length d)));
  n_recvmsg_into _ _ _ _ k := (k, Exc BlockingIOError); n_recvfrom_into _ _ _ k := (k, Exc BlockingIOError);
  n_connect_ex := sn_connect_ex; n_connect fd a k := ((sn_connect_ex fd a k).1, Ret tt);
  n_so_error fd k := (k, Ret (match sn_conn_of k fd with Refused => 111 | _ => 0 end));
  n_sendfile fd d k := if sn_sf k then sn_send fd d k else (k, Exc (OSError "EINVAL"));
  n_literal _ _ := true; n_resolve _ _ s := (s, Ret []);
  n_tcp_recv := None; n_tcp_send_once := None; n_tcp_send := None;
  n_unregister := None; n_cancel_fd := None; n_close _ k := (k, Ret tt)
|}.

#[export] Instance scripted_tab_laws : TabLaws (K := snet).
Proof. split; [|done..]. intros fd b k Hfd. simpl. by rewrite (proj2 (Z.leb_le _ _) Hfd). Qed.

Definition sn_idle : snet := SNet 0 ∅ ∅ [] [] ∅ [] [] true.

(** A timed socket is closed after I/O, and its descriptor 5 is used again by a socket that was
    created non-blocking. *)
Definition after_call (m : fio unit) (s : env snet) : env snet := match m s with Some (s', _) => s' | None => s end.
Definition ts0 : env snet := Env (<[1%nat := SockObj 5 None true true 0 false]> ∅) ∅ ∅ sn_idle.
Definition ts1 : env snet := after_call (patched_settimeout 1%nat (Some 2000000)) ts0.
Definition ts2 : env snet := after_call (make_nonblocking 1%nat) ts1.
Definition ts3 : env snet := after_call (patched_close 1%nat) ts2.
Definition ts4 : env snet := Env (<[2%nat := SockObj 5 (Some 0) true true 0 false]> (e_socks ts3)) (e_tab ts3) (e_files ts3) (e_k ts3).
Definition ta4 : gmap nat (option Z) := <[2%nat := Some 0]> (<[1%nat := Some 2000000]> (<[1%nat := None]> ∅)).

Lemma timeout_steps_reach : treach (ts4, ta4).
Proof.
  apply (tr_step (ts3, <[1%nat := Some 2000000]> (<[1%nat := None]> ∅))).
  - apply (tr_step (ts2, <[1%nat := Some 2000000]> (<[1%nat := None]> ∅))); [|by apply (ts_close _ _ 1%nat _ (Ret tt))].
    apply (tr_step (ts1, <[1%nat := Some 2000000]> (<[1%nat := None]> ∅))); [|by apply (ts_io _ _ 1%nat _ (Ret tt))].
    apply (tr_step (ts0, <[1%nat := None]> ∅)); [|by apply (ts_set _ _ 1%nat (Some 2000000))].
    eapply tr_step; [apply (tr_start ∅ sn_idle)|].
    apply (ts_new (Env ∅ ∅ ∅ sn_idle)); [done|lia|by intros sk (o & E & _)|by left].
  - apply (ts_new ts3); [done|lia| |by right].
    intros sk (o & E & Hfd). assert (e_socks ts3 = {[1%nat := SockObj (-1) (Some 0) true true 0 true]}) as Es by reflexivity.
    rewrite Es in E. apply lookup_singleton_Some in E as [_ <-]. simpl in Hfd. lia.
Qed.

Lemma sock_timeout_honoured_witness :
  exists s' r v, make_nonblocking 2%nat ts4 = Some (s', r) /\ ta4 !! 2%nat = Some v /\ coop_timeout_of s' 2%nat = want v.
Proof.
  apply (sock_timeout_honoured ts4 ta4 2%nat).
  - exact timeout_steps_reach.
  - vm_compute. discriminate.
  - reflexivity.
Defined.

(** A socket with a timeout of two seconds, after I/O and with a [makefile()] object: [close()] forgets
    its timeout although the descriptor stays open for that object, whose next read then waits with
    no deadline; the socket is really closed, once, when the object is. *)
Definition tm1 : env snet := after_call (makefile 1%nat) ts2.
Definition tm2 : env snet := after_call (patched_close 1%nat) tm1.
Definition tm3 : env snet := after_call (make_nonblocking 1%nat) tm2.

Theorem makefile_loses_timeout :
  (forall a, treach (ts2, a) -> treach (tm3, a)) /\ treach (ts2, <[1%nat := Some 2000000]> (<[1%nat := None]> ∅)) /\
  coop_timeout_of tm1 1%nat = Some 2000000 /\
  fileno_of tm3 1%nat = 5 /\ coop_timeout_of tm3 1%nat = None /\
  fileno_of (after_call (socketio_close 1%nat) tm3) 1%nat = -1.
Proof.
  split_and!; [| |by vm_compute..].
  - intros a Hr. apply (tr_step (tm2, a)); [|by apply (ts_io _ _ 1%nat _ (Ret tt))].
    apply (tr_step (tm1, a)); [|by apply (ts_close _ _ 1%nat _ (Ret tt))].
    apply (tr_step (ts2, a)); [done|by apply (ts_makefile _ _ 1%nat _ (Ret tt))].
  - apply (tr_step (ts1, <[1%nat := Some 2000000]> (<[1%nat := None]> ∅))); [|by apply (ts_io _ _ 1%nat _ (Ret tt))].
    apply (tr_step (ts0, <[1%nat := None]> ∅)); [|by apply (ts_set _ _ 1%nat (Some 2000000))].
    eapply tr_step; [apply (tr_start ∅ sn_idle)|].
    apply (ts_new (Env ∅ ∅ ∅ sn_idle)); [done|lia|by intros sk (o & E & _)|by left].
Qed.
