(* ===== verification/CoopStream.v ===== *)
(** * Data transfer on the patched sockets

    Theorems about the loops of [src/src/stackweave/monkey/sockets.py] (modelled in CoopSocket.v)
    that move data under a deadline, connect, and send files. *)
From S2P Require Import Prelude NetSocket CoopSocket.
Local Open Scope Z_scope.

(** ** Transfers with a deadline *)

(** What a kernel call that moves data on descriptor [fd] does; the layer's own timeout is not an
    error of the kernel. *)
Class StreamLaws {K} `{!Net K} (sk : nat) (fd : Z) : Prop := {
  sl_send d fl k k' r : n_send fd d fl k = (k', r) -> n_now k <= n_now k' /\
    match r with
    | Ret n => 0 <= n <= Z.of_nat (length d) /\ (d ≠ [] -> 1 <= n) /\ n_wire k' fd = n_wire k fd ++ take (Z.to_nat n) d
    | Exc e => e ≠ timed_out /\ n_wire k' fd = n_wire k fd
    end;
  sl_recv n fl k k' r : 0 <= n -> n_recv fd n fl k = (k', r) -> n_now k <= n_now k' /\
    match r with
    | Ret d => Z.of_nat (length d) <= n /\ n_rd k' fd = n_rd k fd ++ d
    | Exc e => e ≠ timed_out /\ n_rd k' fd = n_rd k fd
    end;
  (** nobody else uses the socket while this fiber waits; the clock moves; a timed wait that
      answers 0 has waited its time *)
  sl_wait dir tmo s s' r : n_wait fd dir tmo s = (s', r) ->
    e_socks s' !! sk = e_socks s !! sk /\ n_wire (e_k s') fd = n_wire (e_k s) fd /\ n_rd (e_k s') fd = n_rd (e_k s) fd /\
    n_now (e_k s) < n_now (e_k s') /\ (r = 0 -> exists ms, tmo = Some ms /\ n_now (e_k s) + ms * 1000 <= n_now (e_k s'))
}.

Section deadline.
Context {K : Type} `{!Net K} (sk : nat) (fd : Z) {SL : StreamLaws sk fd}.

Abbreviation tnow s := (n_now (e_k s)).

(** One wait under the deadline [d]: it returns before the deadline with the clock advanced, or is
    cancelled, or times out less than a millisecond early. *)
Lemma wait_deadline_spec dir d s : exists s' r, wait_deadline fd dir (Some d) s = Some (s', r) /\
  e_socks s' !! sk = e_socks s !! sk /\ n_wire (e_k s') fd = n_wire (e_k s) fd /\ n_rd (e_k s') fd = n_rd (e_k s) fd /\
  match r with
  | Ret _ => tnow s < tnow s' /\ tnow s < d
  | Exc e => e = cancelled \/ e = timed_out /\ d - 1000 < tnow s'
  end.
Proof.
  unfold wait_deadline, fbind, now. destruct (d - tnow s <=? 0) eqn:E.
  { exists s, (Exc timed_out). apply Z.leb_le in E. split_and!; try done. right. split; [done|lia]. }
  apply Z.leb_gt in E. unfold wait_fd_coop. set (ms := to_ms (d - tnow s)).
  assert (1 <= ms /\ d - tnow s - 1000 < ms * 1000) as [Hms Hlate].
  { unfold ms, to_ms. split; [lia|]. pose proof (Z.mod_pos_bound (d - tnow s) 1000 ltac:(lia)).
    pose proof (Z.div_mod (d - tnow s) 1000 ltac:(lia)). lia. }
  rewrite (proj2 (Z.leb_le 0 ms)) by lia.
  destruct (n_wait fd dir (Some ms) s) as [s1 r] eqn:Ew. destruct (sl_wait _ _ _ _ _ Ew) as (Hs & Hw & Hr & Ht & H0).
  destruct (r =? WAIT_FD_CANCELLED); [exists s1, (Exc cancelled); split_and!; auto|].
  destruct (r =? 0) eqn:E0.
  - apply Z.eqb_eq in E0. destruct (H0 E0) as (ms' & [= <-] & Hle). exists s1, (Exc timed_out). split_and!; try done. right. split; [done|lia].
  - exists s1, (Ret tt). split_and!; try done. lia.
Qed.

(** A raw call on the socket while it has descriptor [fd]. *)
Lemma orig_open {A} (m : Z -> io K A) s : fileno_of s sk = fd ->
  orig sk m s = Some (Env (e_socks s) (e_tab s) (e_files s) (m fd (e_k s)).1, (m fd (e_k s)).2).
Proof. intros E. unfold orig, fbind, fileno, sys. rewrite E. by destruct (m fd (e_k s)). Qed.

Lemma fileno_same (s s' : env K) : e_socks s' !! sk = e_socks s !! sk -> fileno_of s' sk = fileno_of s sk.
Proof. intros E. unfold fileno_of. by rewrite E. Qed.

(** How a transfer under the deadline [d] may fail. *)
Definition fails_late (d : Z) (e : pyexc) (s' : env K) : Prop :=
  would_block e = false /\ (e = timed_out -> d - 1000 < tnow s').

Lemma wait_failure d e s' : e = cancelled \/ e = timed_out /\ d - 1000 < tnow s' -> fails_late d e s'.
Proof. intros [->|[-> ?]]; by split. Qed.

Lemma sendall_loop_total data fl d sent s : fileno_of s sk = fd -> (sent <= length data)%nat ->
  exists fuel s' r, sendall_loop fuel sk data fl (Some d) sent s = Some (s', r) /\
    match r with
    | Ret _ => n_wire (e_k s') fd = n_wire (e_k s) fd ++ drop sent data
    | Exc e => fails_late d e s' /\ exists n, (sent + n < length data)%nat /\ n_wire (e_k s') fd = n_wire (e_k s) fd ++ take n (drop sent data)
    end.
Proof.
  remember (Z.to_nat (d - tnow s) + (length data - sent))%nat as m eqn:Em. revert s sent Em.
  induction m as [m IH] using lt_wf_ind. intros s sent Em Hfd Hle.
  destruct (decide (sent < length data)%nat) as [Hlt|Hge].
  2: { exists 1%nat, s, (Ret tt). simpl. rewrite bool_decide_eq_false_2 by lia. rewrite drop_ge, app_nil_r by lia. done. }
  assert (Hne : drop sent data ≠ []) by (intros E; apply (f_equal length) in E; rewrite length_drop in E; simpl in E; lia).
  destruct (n_send fd (drop sent data) fl (e_k s)) as [k1 r1] eqn:Es. pose proof (sl_send _ _ _ _ _ Es) as [Ht Hr].
  set (s1 := Env (e_socks s) (e_tab s) (e_files s) k1).
  assert (Ho : orig sk (λ fd, n_send fd (drop sent data) fl) s = Some (s1, r1)) by (by rewrite orig_open, Es).
  destruct r1 as [n|e].
  - destruct Hr as (Hn & Hpos & Hw). specialize (Hpos Hne). rewrite length_drop in Hn.
    destruct (IH (Z.to_nat (d - n_now k1) + (length data - (sent + Z.to_nat n)))%nat ltac:(lia) s1 (sent + Z.to_nat n)%nat eq_refl) as (fuel & s' & r & E & Hres);
      [done|lia|]. exists (S fuel), s', r. cbn [sendall_loop]. rewrite bool_decide_eq_true_2, Ho by done. split; [done|]. simpl in Hres. rewrite Hw in Hres.
    destruct r as [u|e].
    + rewrite Hres, <- app_assoc. f_equal. rewrite <- drop_drop. apply take_drop.
    + destruct Hres as (Hf & n' & Hn' & Hw'). split; [done|]. exists (Z.to_nat n + n')%nat. split; [lia|].
      rewrite Hw', <- app_assoc, <- drop_drop. f_equal. apply take_take_drop.
  - destruct Hr as [Hto Hw]. destruct (would_block e) eqn:Eb.
    + destruct (wait_deadline_spec WRITE d s1) as (s2 & r2 & E2 & Hs2 & Hw2 & _ & H2).
      assert (Hf1 : fileno_of s1 sk = fd) by done. destruct r2 as [[]|e2].
      * destruct H2 as [Ht1 Ht2].
        destruct (IH (Z.to_nat (d - tnow s2) + (length data - sent))%nat ltac:(simpl in *; lia) s2 sent eq_refl) as (fuel & s' & r & E & Hres);
          [by rewrite (fileno_same s1)|done|]. exists (S fuel), s', r. cbn [sendall_loop]. rewrite bool_decide_eq_true_2, Ho, Eb by done.
        unfold fbind, fileno. rewrite Hf1, E2, E. split; [done|]. rewrite Hw2 in Hres. simpl in Hres. by rewrite Hw in Hres.
      * exists 1%nat, s2, (Exc e2). cbn [sendall_loop]. rewrite bool_decide_eq_true_2, Ho, Eb by done. unfold fbind, fileno. rewrite Hf1, E2.
        split; [done|]. split; [by apply wait_failure|]. exists 0%nat. split; [lia|]. rewrite take_0, app_nil_r, Hw2. done.
    + exists 1%nat, s1, (Exc e). cbn [sendall_loop]. rewrite bool_decide_eq_true_2, Ho, Eb by done. split; [done|]. split; [split; [done|by intros ->]|].
      exists 0%nat. split; [lia|]. by rewrite take_0, app_nil_r.
Qed.

(** A socket that I/O has already been done on, with the cooperative timeout [t]. *)
Definition timed_socket (s : env K) (t : Z) : Prop :=
  fileno_of s sk = fd /\ gettimeout s sk = Some 0 /\ coop_timeout_of s sk = Some t.

Lemma make_nonblocking_seen s : gettimeout s sk = Some 0 -> make_nonblocking sk s = Some (s, Ret tt).
Proof. intros E. unfold make_nonblocking. by rewrite bool_decide_eq_true_2. Qed.

(** [sendall] on a socket with a timeout never hangs, and it is exact: with enough rounds it
    returns, having put all of [data] on the wire, once and in order; or it raises, having put a
    proper prefix there.  The error is never a would-block one, and a timeout is raised at most a
    millisecond before [t] has passed, however often the waits return early. *)
Theorem coop_sendall_timed data fl t s osa : timed_socket s t ->
  exists fuel s' r, patched_sendall true fuel sk data fl osa s = Some (s', r) /\
    match r with
    | Ret _ => n_wire (e_k s') fd = n_wire (e_k s) fd ++ data
    | Exc e => would_block e = false /\ (e = timed_out -> tnow s + t - 1000 < tnow s') /\
        exists n, (n < length data)%nat /\ n_wire (e_k s') fd = n_wire (e_k s) fd ++ take n data
    end.
Proof.
  intros (Hfd & Hg & Ht). destruct (sendall_loop_total data fl (tnow s + t) 0 s Hfd ltac:(lia)) as (fuel & s' & r & E & Hr).
  exists fuel, s', r. split.
  - unfold patched_sendall, fbind. simpl. rewrite make_nonblocking_seen by done. unfold coop_timeout. rewrite Ht.
    destruct n_tcp_send; apply E.
  - destruct r as [u|e]; [by rewrite drop_0 in Hr|]. destruct Hr as ([H1 H2] & n & Hn & Hw). rewrite drop_0 in Hw. eauto.
Qed.

Lemma waitall_loop_total n fl d acc s : fileno_of s sk = fd -> (length acc <= n)%nat ->
  exists fuel s' r, waitall_loop fuel sk fd n fl (Some d) acc s = Some (s', r) /\ exists more,
    n_rd (e_k s') fd = n_rd (e_k s) fd ++ more /\
    match r with
    | Ret res => res = acc ++ more /\ (length res <= n)%nat /\
        (length res = n \/ exists k m, n_recv fd m fl k = (e_k s', Ret []))
    | Exc e => fails_late d e s' /\ (length (acc ++ more) < n)%nat
    end.
Proof.
  remember (Z.to_nat (d - tnow s) + (n - length acc))%nat as m eqn:Em. revert s acc Em.
  induction m as [m IH] using lt_wf_ind. intros s acc Em Hfd Hle.
  destruct (decide (length acc < n)%nat) as [Hlt|Hge].
  2: { exists 1%nat, s, (Ret acc). cbn [waitall_loop]. rewrite bool_decide_eq_false_2 by lia. split; [done|]. exists []. rewrite !app_nil_r.
       split_and!; try done. left. lia. }
  set (want := Z.of_nat (n - length acc)).
  destruct (n_recv fd want fl (e_k s)) as [k1 r1] eqn:Es. pose proof (sl_recv _ _ _ _ _ (Nat2Z.is_nonneg _) Es) as [Ht Hr].
  set (s1 := Env (e_socks s) (e_tab s) (e_files s) k1).
  assert (Ho : orig sk (λ fd, n_recv fd (Z.of_nat (n - length acc)) fl) s = Some (s1, r1))
    by (rewrite orig_open by done; fold want; by rewrite Es).
  destruct r1 as [[|b ds]|e].
  - destruct Hr as [_ Hrd]. exists 1%nat, s1, (Ret acc). cbn [waitall_loop]. rewrite bool_decide_eq_true_2, Ho by done. split; [done|].
    exists []. rewrite !app_nil_r. rewrite app_nil_r in Hrd. split_and!; [done|done|lia|]. right. by exists (e_k s), want.
  - destruct Hr as [Hn Hrd]. set (dd := b :: ds) in *. assert (1 <= length dd)%nat by (simpl; lia). unfold want in Hn.
    assert (length (acc ++ dd) = (length acc + length dd)%nat) as Hla by apply length_app.
    destruct (IH (Z.to_nat (d - n_now k1) + (n - length (acc ++ dd)))%nat ltac:(lia) s1 (acc ++ dd) eq_refl) as (fuel & s' & r & E & more & Hm & Hres);
      [done|lia|]. exists (S fuel), s', r. cbn [waitall_loop]. rewrite bool_decide_eq_true_2, Ho by done. split; [done|].
    exists (dd ++ more). rewrite Hm. simpl e_k. rewrite Hrd, <- app_assoc. split; [done|]. by rewrite <- !app_assoc in Hres.
  - destruct Hr as [Hto Hrd]. destruct (would_block e) eqn:Eb.
    + destruct (wait_deadline_spec READ d s1) as (s2 & r2 & E2 & Hs2 & _ & Hr2 & H2). destruct r2 as [[]|e2].
      * destruct H2 as [Ht1 Ht2].
        destruct (IH (Z.to_nat (d - tnow s2) + (n - length acc))%nat ltac:(simpl in *; lia) s2 acc eq_refl) as (fuel & s' & r & E & more & Hm & Hres);
          [by rewrite (fileno_same s1)|done|]. exists (S fuel), s', r. cbn [waitall_loop]. rewrite bool_decide_eq_true_2, Ho, Eb by done.
        unfold fbind. rewrite E2, E. split; [done|]. exists more. rewrite Hm, Hr2. simpl e_k. by rewrite Hrd.
      * exists 1%nat, s2, (Exc e2). cbn [waitall_loop]. rewrite bool_decide_eq_true_2, Ho, Eb by done. unfold fbind. rewrite E2.
        split; [done|]. exists []. rewrite !app_nil_r, Hr2. split_and!; [done|by apply wait_failure|done].
    + exists 1%nat, s1, (Exc e). cbn [waitall_loop]. rewrite bool_decide_eq_true_2, Ho, Eb by done. split; [done|].
      exists []. rewrite !app_nil_r. split_and!; [done|split; [done|by intros ->]|done].
Qed.

(** [recv(n, MSG_WAITALL)] on a socket with a timeout never hangs, and reads like a blocking
    [recv]: with enough rounds it returns exactly the next bytes of the stream, all [n] of them
    unless the peer has closed; or it raises, after fewer than [n] bytes, an error that is never a
    would-block one, a timeout at most a millisecond before [t] has passed. *)
Theorem coop_recv_waitall_timed n fl t s : timed_socket s t -> 0 < n -> wants_waitall fl = true ->
  exists fuel s' r more, patched_recv true fuel sk n fl s = Some (s', r) /\ n_rd (e_k s') fd = n_rd (e_k s) fd ++ more /\
    match r with
    | Ret res => res = more /\ Z.of_nat (length res) <= n /\
        (Z.of_nat (length res) = n \/ exists k m, n_recv fd m (Z.ldiff fl MSG_WAITALL) k = (e_k s', Ret []))
    | Exc e => would_block e = false /\ (e = timed_out -> tnow s + t - 1000 < tnow s') /\ Z.of_nat (length more) < n
    end.
Proof.
  intros (Hfd & Hg & Ht) Hn Hfl.
  destruct (waitall_loop_total (Z.to_nat n) (Z.ldiff fl MSG_WAITALL) (tnow s + t) [] s Hfd ltac:(simpl; lia)) as (fuel & s' & r & E & more & Hm & Hr).
  exists fuel, s', r, more. split_and!; [|done|].
  - unfold patched_recv, fbind. simpl. rewrite make_nonblocking_seen by done. unfold coop_timeout. rewrite Ht, Hfl.
    rewrite (proj2 (Z.ltb_lt 0 n)) by lia. simpl. unfold recv_waitall, fbind, fileno, now. rewrite Hfd, Nat.min_id. apply E.
  - destruct r as [res|e]; [destruct Hr as (-> & Hl & He)|destruct Hr as ([H1 H2] & Hl)]; simpl in *.
    + split_and!; [done|lia|]. destruct He as [He|He]; [left; lia|by right].
    + split_and!; [done|done|lia].
Qed.
End deadline.

(** ** Connecting *)

(** What a kernel reports about the connection of [fd]: [connect_ex] answers 0 or [EISCONN] for a
    connection that is up, [EINPROGRESS] or [EALREADY] for one that has been started, and starts
    none otherwise; [SO_ERROR] is 0 unless the attempt has failed (so also on a socket that never
    started one); a wait for writability that is neither cancelled nor timed out ends when the
    attempt has. *)
Class ConnectLaws {K} `{!Net K} (sk : nat) (fd : Z) : Prop := {
  cl_connect a k k' r : n_connect_ex fd a k = (k', r) ->
    match r with
    | Ret err =>
        if connected_now err then n_conn k' fd = Connected
        else if in_progress err then n_conn k' fd ≠ Unconnected else True
    | Exc e => True
    end;
  cl_error k k' r : n_so_error fd k = (k', r) ->
    n_conn k' fd = n_conn k fd /\
    (n_conn k fd = Connected \/ n_conn k fd = Refused -> exists err, r = Ret err /\ in_progress err = false /\ (err = 0 -> n_conn k fd ≠ Refused));
  cl_wait tmo s s' r : n_wait fd WRITE tmo s = (s', r) -> e_socks s' !! sk = e_socks s !! sk /\
    (r ≠ 0 -> r ≠ WAIT_FD_CANCELLED -> n_conn (e_k s) fd ≠ Unconnected -> n_conn (e_k s') fd = Connected \/ n_conn (e_k s') fd = Refused);
  cl_wait_untimed s s' r : n_wait fd WRITE None s = (s', r) -> r ≠ 0;
  cl_sleep d s : e_socks (n_sleep d s) !! sk = e_socks s !! sk;
  cl_resolve h p s : e_socks (n_resolve h p s).1 !! sk = e_socks s !! sk
}.

Section connecting.
Context {K : Type} `{!Net K} (sk : nat) (fd : Z) {CL : ConnectLaws sk fd}.

(** The wait for the outcome of a started attempt takes one round and is right. *)
Lemma connect_wait_result_spec fuel ms s : fileno_of s sk = fd -> n_conn (e_k s) fd ≠ Unconnected ->
  (forall t, ms = Some t -> 0 <= t) ->
  exists s' r, connect_wait_result (S fuel) sk ms s = Some (s', r) /\ (r = Ret tt -> n_conn (e_k s') fd = Connected).
Proof.
  intros Hfd Hc Hms. cbn [connect_wait_result]. unfold fbind at 1, fileno. rewrite Hfd. unfold fbind at 1.
  assert (Hw : exists s1 r1, (match ms with
      | Some t => fbind (wait_fd_coop fd WRITE t) (λ r, if r =? 0 then fraise (TimeoutError "connect timed out") else fret tt)
      | None => fbind (wait_fd_coop fd WRITE (-1)) (λ _, fret tt) end) s = Some (s1, r1) /\
    match r1 with Ret _ => fileno_of s1 sk = fd /\ (n_conn (e_k s1) fd = Connected \/ n_conn (e_k s1) fd = Refused) | Exc _ => True end).
  { assert (Hg : forall tmo s1 r, n_wait fd WRITE tmo s = (s1, r) -> r ≠ 0 -> r ≠ WAIT_FD_CANCELLED ->
      fileno_of s1 sk = fd /\ (n_conn (e_k s1) fd = Connected \/ n_conn (e_k s1) fd = Refused)).
    { intros tmo s1 r E H0 Hca. destruct (cl_wait _ _ _ _ E) as [Hs Hx]. split; [by rewrite (fileno_same sk s)|auto]. }
    destruct ms as [t|]; unfold fbind, wait_fd_coop.
    - rewrite (proj2 (Z.leb_le 0 t)) by auto. destruct (n_wait fd WRITE (Some t) s) as [s1 r] eqn:E.
      destruct (r =? WAIT_FD_CANCELLED) eqn:E1; [by eexists _, _|]. apply Z.eqb_neq in E1.
      destruct (r =? 0) eqn:E2; [by eexists _, _|]. apply Z.eqb_neq in E2. eexists _, _. split; [reflexivity|]. by eapply Hg.
    - simpl. destruct (n_wait fd WRITE None s) as [s1 r] eqn:E. destruct (r =? WAIT_FD_CANCELLED) eqn:E1; [by eexists _, _|]. apply Z.eqb_neq in E1.
      eexists _, _. split; [reflexivity|]. eapply Hg; [done| |done]. by eapply cl_wait_untimed. }
  destruct Hw as (s1 & r1 & -> & Hr1). destruct r1 as [u|e]; [|by eexists _, _]. destruct Hr1 as [Hf1 Hc1].
  unfold fbind at 1. rewrite (orig_open sk fd) by done. destruct (n_so_error fd (e_k s1)) as [k2 r2] eqn:Ee.
  destruct (cl_error _ _ _ Ee) as [Hk Hx]. destruct (Hx Hc1) as (err & -> & Hp & H0). simpl.
  destruct (err =? 0) eqn:E0; [|rewrite Hp; by eexists _, _]. apply Z.eqb_eq in E0. eexists _, _. split; [reflexivity|].
  intros _. simpl. rewrite Hk. destruct Hc1 as [?|?]; [done|]. by destruct (H0 E0).
Qed.

Lemma connect_retry_backlog_spec fuel a b s s' : fileno_of s sk = fd ->
  connect_retry_backlog fuel sk a b s = Some (s', Ret tt) -> n_conn (e_k s') fd = Connected.
Proof.
  revert b s. induction fuel as [|fuel IH]; intros b s Hfd H; [done|]. cbn [connect_retry_backlog] in H.
  unfold fbind at 1, sched in H. unfold fbind at 1 in H.
  assert (Hf1 : fileno_of (n_sleep b s) sk = fd) by (rewrite (fileno_same sk s); [done|apply cl_sleep]).
  rewrite (orig_open sk fd) in H by done. destruct (n_connect_ex fd a (e_k (n_sleep b s))) as [k1 [err|e]] eqn:Ee; [|done].
  apply cl_connect in Ee. simpl in H. destruct (connected_now err); [unfold fret in H; by simplify_eq|].
  destruct (err =? EAGAIN); [by eapply IH in H|]. destruct (in_progress err); [|done]. destruct fuel as [|fuel]; [done|].
  match type of H with connect_wait_result _ _ _ ?x = _ =>
    destruct (connect_wait_result_spec fuel None x Hf1 Ee) as (s2 & r2 & E2 & Hr2); [done|] end.
  rewrite E2 in H. simplify_eq. auto.
Qed.

Lemma connect_resolve_open a s : fileno_of s sk = fd -> exists s1 r1, connect_resolve a s = Some (s1, r1) /\ fileno_of s1 sk = fd.
Proof.
  intros Hfd. unfold connect_resolve. destruct a as [[h|] p|x]; try by eexists _, _. case_match; [|by eexists _, _].
  unfold fbind, sched. pose proof (cl_resolve h p s) as Hk. destruct (n_resolve h p s) as [s1 [infos|e]]; simpl in Hk;
    (eexists _, _; split; [reflexivity|]); by rewrite (fileno_same sk s).
Qed.

Lemma connect_cases fuel a s : fileno_of s sk = fd -> gettimeout s sk = Some 0 ->
  match patched_connect true fuel sk a s with
  | Some (s', r) => r = Ret tt -> n_conn (e_k s') fd = Connected
  | None => fuel = 0%nat \/ exists a' k, (n_connect_ex fd a' k).2 = Ret EAGAIN
  end.
Proof.
  intros Hfd Hg. unfold patched_connect. simpl. unfold fbind at 1. rewrite make_nonblocking_seen by done. unfold fbind at 1.
  destruct (connect_resolve_open a s Hfd) as (s1 & r1 & -> & Hf1). destruct r1 as [a'|e]; [|done].
  unfold fbind at 1. rewrite (orig_open sk fd) by done. destruct (n_connect_ex fd a' (e_k s1)) as [k2 [err|e]] eqn:Ee; [|done].
  pose proof (cl_connect _ _ _ _ Ee) as Hc. simpl. set (s2 := Env (e_socks s1) (e_tab s1) (e_files s1) k2).
  assert (Hf2 : fileno_of s2 sk = fd) by done. simpl in Hc. destruct (connected_now err); [by unfold fret; intros _|].
  destruct (in_progress err) eqn:Ep; simpl.
  - unfold fbind, coop_timeout. assert (Hms : forall t, to_ms <$> coop_timeout_of s2 sk = Some t -> 0 <= t).
    { intros t. rewrite fmap_Some. intros (x & _ & ->). unfold to_ms. lia. }
    destruct fuel as [|fuel]; [by left|]. by destruct (connect_wait_result_spec fuel _ s2 Hf2 Hc Hms) as (s3 & r3 & -> & Hr3).
  - destruct (err =? EAGAIN) eqn:Ea; [|done]. apply Z.eqb_eq in Ea. subst err. unfold fbind, coop_timeout.
    destruct (coop_timeout_of s2 sk); [done|].
    destruct (connect_retry_backlog fuel sk a' 500 s2) as [[s3 r3]|] eqn:E3; [|right; exists a', (e_k s1); by rewrite Ee].
    intros ->. by eapply connect_retry_backlog_spec.
Qed.

(** [connect] never reports success on a socket that is not connected, whatever mix of immediate
    completion, connection in flight and full backlog the kernel answers; and a connect that the
    kernel completes or starts at once returns or raises after one wait. *)
Theorem coop_connect_sound fuel a s : fileno_of s sk = fd -> gettimeout s sk = Some 0 ->
  (forall s', patched_connect true fuel sk a s = Some (s', Ret tt) -> n_conn (e_k s') fd = Connected) /\
  ((0 < fuel)%nat -> (forall a' k, (n_connect_ex fd a' k).2 ≠ Ret EAGAIN) -> is_Some (patched_connect true fuel sk a s)).
Proof.
  intros Hfd Hg. pose proof (connect_cases fuel a s Hfd Hg) as H. split.
  - intros s' E. rewrite E in H. auto.
  - intros Hf Hna. destruct (patched_connect true fuel sk a s); [by eauto|]. destruct H as [->|(a' & k & ?)]; [lia|by destruct (Hna a' k)].
Qed.
End connecting.

(** With a wait that returns early, [SO_ERROR] of a connection still in flight is 0 and the connect
    is reported as done: the outcome depends on [wait_fd] never returning early. *)
Theorem connect_early_wake_false_success {K} `{!Net K} sk fd s s1 k2 :
  fileno_of s sk = fd -> n_wait fd WRITE None s = (s1, 1) -> fileno_of s1 sk = fd ->
  n_so_error fd (e_k s1) = (k2, Ret 0) -> n_conn k2 fd = InFlight ->
  exists s', connect_wait_result 1 sk None s = Some (s', Ret tt) /\ n_conn (e_k s') fd = InFlight.
Proof.
  intros Hf Hw Hf1 He Hc. cbn [connect_wait_result]. unfold fbind, fileno, wait_fd_coop. simpl. rewrite Hf, Hw. simpl.
  rewrite (orig_open sk fd) by done. rewrite He. simpl. by eexists.
Qed.

(** ** Sending files *)

(** [os.sendfile] and [send] accept a non-empty prefix of what they are given, or fail without
    accepting anything; nobody else uses the socket or the file while this fiber waits. *)
Class SendfileLaws {K} `{!Net K} (sk : nat) (fd : Z) (f : nat) : Prop := {
  fl_sendfile d k k' r : n_sendfile fd d k = (k', r) ->
    match r with
    | Ret n => 0 <= n <= Z.of_nat (length d) /\ (d ≠ [] -> 1 <= n) /\ n_wire k' fd = n_wire k fd ++ take (Z.to_nat n) d
    | Exc e => n_wire k' fd = n_wire k fd
    end;
  fl_send d fl k k' r : n_send fd d fl k = (k', r) ->
    match r with
    | Ret n => 0 <= n <= Z.of_nat (length d) /\ n_wire k' fd = n_wire k fd ++ take (Z.to_nat n) d
    | Exc e => n_wire k' fd = n_wire k fd
    end;
  fl_once g d fl s s' r : n_tcp_send_once = Some g -> g fd d fl s = (s', r) ->
    e_socks s' !! sk = e_socks s !! sk /\ e_files s' !! f = e_files s !! f /\
    match r with
    | Ret n => 0 <= n <= Z.of_nat (length d) /\ n_wire (e_k s') fd = n_wire (e_k s) fd ++ take (Z.to_nat n) d
    | Exc e => n_wire (e_k s') fd = n_wire (e_k s) fd
    end;
  fl_wait dir tmo s s' r : n_wait fd dir tmo s = (s', r) ->
    e_socks s' !! sk = e_socks s !! sk /\ e_files s' !! f = e_files s !! f /\ n_wire (e_k s') fd = n_wire (e_k s) fd
}.

Section sendfile.
Context {K : Type} `{!Net K} (sk : nat) (fd : Z) (f : nat) {FL : SendfileLaws sk fd f}.

(** What the calls leave alone: the socket and the file; [d] went on the wire. *)
Definition moved (s s' : env K) (d : bytes) : Prop :=
  e_socks s' !! sk = e_socks s !! sk /\ e_files s' !! f = e_files s !! f /\ n_wire (e_k s') fd = n_wire (e_k s) fd ++ d.

Lemma moved_refl s : moved s s [].
Proof. unfold moved. by rewrite app_nil_r. Qed.

Lemma moved_trans s1 s2 s3 d1 d2 : moved s1 s2 d1 -> moved s2 s3 d2 -> moved s1 s3 (d1 ++ d2).
Proof. intros (E1 & F1 & W1) (E2 & F2 & W2). split_and!; [congruence..|]. by rewrite W2, W1, app_assoc. Qed.

Lemma moved_sys (s : env K) k' d : n_wire k' fd = n_wire (e_k s) fd ++ d -> moved s (Env (e_socks s) (e_tab s) (e_files s) k') d.
Proof. by intros. Qed.

Lemma moved_wait fd' dir ms s s' r : fd' = fd -> wait_fd_coop fd' dir ms s = Some (s', r) -> moved s s' [].
Proof.
  intros ->. unfold wait_fd_coop. destruct (n_wait _ _ _ s) as [s1 r1] eqn:E. intros H.
  assert (s' = s1) as -> by (destruct (r1 =? _); congruence). destruct (fl_wait _ _ _ _ _ E) as (? & ? & ?). split_and!; [done..|by rewrite app_nil_r].
Qed.

Lemma moved_deadline dl s s' r : wait_deadline fd WRITE dl s = Some (s', r) -> moved s s' [].
Proof.
  unfold wait_deadline, fbind, now. destruct dl as [d|].
  - destruct (d - _ <=? 0); [intros [= <- <-]; apply moved_refl|].
    destruct (wait_fd_coop _ _ _ s) as [[s1 [x|e]]|] eqn:E; intros H; [|injection H as <- <-; by eapply moved_wait|done].
    destruct (x =? 0); injection H as <- <-; by eapply moved_wait.
  - destruct (wait_fd_coop _ _ _ s) as [[s1 [x|e]]|] eqn:E; intros H; [..|done]; injection H as <- <-; by eapply moved_wait.
Qed.

(** What one [send] of [d] does. *)
Definition sent_prefix (s s' : env K) (d : bytes) (r : out Z) : Prop :=
  match r with
  | Ret n => 0 <= n <= Z.of_nat (length d) /\ moved s s' (take (Z.to_nat n) d)
  | Exc _ => moved s s' []
  end.

Lemma retry_send_spec fuel d fl dl s s' r : fileno_of s sk = fd ->
  retry_io fuel (orig sk (λ fd, n_send fd d fl)) (fbind (fileno sk) (λ fd, wait_deadline fd WRITE dl)) s = Some (s', r) ->
  sent_prefix s s' d r.
Proof.
  revert s. induction fuel as [|fuel IH]; intros s Hfd H; [done|]. cbn [retry_io] in H. rewrite (orig_open sk fd) in H by done.
  destruct (n_send fd d fl (e_k s)) as [k1 r1] eqn:E. apply fl_send in E. simpl in H. destruct r1 as [n|e]; [simplify_eq; split; [apply E|apply moved_sys; apply E]|].
  assert (M1 : moved s (Env (e_socks s) (e_tab s) (e_files s) k1) []) by (apply moved_sys; by rewrite app_nil_r).
  destruct (would_block e); [|by simplify_eq]. unfold fbind, fileno in H.
  change (fileno_of (Env (e_socks s) (e_tab s) (e_files s) k1) sk) with (fileno_of s sk) in H. rewrite Hfd in H.
  destruct (wait_deadline fd WRITE dl _) as [[s2 [u|e2]]|] eqn:E2; [| |done].
  - apply moved_deadline in E2. pose proof (moved_trans _ _ _ _ _ M1 E2) as M2. apply IH in H; [|rewrite (fileno_same sk s); [done|apply M2]].
    destruct r; [destruct H as [? H]; split; [done|]|]; by pose proof (moved_trans _ _ _ _ _ M2 H).
  - simplify_eq. apply moved_deadline in E2. by pose proof (moved_trans _ _ _ _ _ M1 E2).
Qed.

Lemma patched_send_spec fuel d fl s s' r : fileno_of s sk = fd -> gettimeout s sk = Some 0 ->
  patched_send true fuel sk d fl s = Some (s', r) -> sent_prefix s s' d r.
Proof.
  intros Hfd Hg H. unfold patched_send in H. simpl in H. unfold fbind at 1 in H. rewrite make_nonblocking_seen in H by done.
  unfold fbind at 1, coop_timeout in H. destruct n_tcp_send_once as [g|] eqn:Eg; [destruct (coop_timeout_of s sk) as [t|]|].
  - unfold fbind at 1, now in H. by eapply retry_send_spec.
  - unfold fbind, fileno, sched in H. rewrite Hfd in H. injection H as H. apply (fl_once g) in H as (H1 & H2 & H3); [|done].
    destruct r; [destruct H3; split; [done|]|]; split_and!; try done. by rewrite app_nil_r.
  - unfold fbind at 1, now in H. by eapply retry_send_spec.
Qed.

Lemma gettimeout_same (s s' : env K) : e_socks s' !! sk = e_socks s !! sk -> gettimeout s' sk = gettimeout s sk.
Proof. intros E. unfold gettimeout. by rewrite E. Qed.

Lemma send_block_spec fuel d total s s' r total' : fileno_of s sk = fd -> gettimeout s sk = Some 0 ->
  send_block true fuel sk d total s = Some (s', r, total') ->
  exists n, (n <= length d)%nat /\ total' = (total + n)%nat /\ moved s s' (take n d) /\ (r = Ret tt -> n = length d).
Proof.
  revert d total s. induction fuel as [|fuel IH]; intros d total s Hfd Hg H; [done|]. cbn [send_block] in H.
  destruct d as [|b d']; [injection H as <- <- <-; exists 0%nat; split_and!; try done; first [lia|apply moved_refl]|]. set (d := b :: d') in *.
  destruct (patched_send true _ sk d 0 s) as [[s1 r1]|] eqn:E; [|done]. apply patched_send_spec in E; [|done..]. destruct r1 as [n|e].
  - destruct E as [Hn M1]. pose proof M1 as (Es & _). apply IH in H as (m & Hm & -> & M2 & Hr);
      [|by rewrite (fileno_same sk s)|by rewrite (gettimeout_same s)].
    rewrite length_drop in *. exists (Z.to_nat n + m)%nat. split_and!; [lia|lia| |intros Hx; specialize (Hr Hx); lia].
    pose proof (moved_trans _ _ _ _ _ M1 M2) as M. by rewrite take_take_drop in M.
  - simplify_eq. exists 0%nat. rewrite take_0. split_and!; try done; lia.
Qed.

(** Up to the file's position. *)
Definition shipped (s s' : env K) (d : bytes) : Prop :=
  e_socks s' !! sk = e_socks s !! sk /\ n_wire (e_k s') fd = n_wire (e_k s) fd ++ d /\
  exists p, e_files s' !! f = (λ x, PyFile (f_data x) (p x) (f_fileno x) (f_stat x) (f_seek x) (f_binary x)) <$> e_files s !! f.

Lemma moved_shipped s s' d : moved s s' d -> shipped s s' d.
Proof. intros (E & F & W). split_and!; [done..|]. exists f_pos. rewrite F. by destruct (e_files s !! f) as [[]|]. Qed.

Lemma shipped_trans s1 s2 s3 d1 d2 : shipped s1 s2 d1 -> shipped s2 s3 d2 -> shipped s1 s3 (d1 ++ d2).
Proof.
  intros (E1 & W1 & p1 & F1) (E2 & W2 & p2 & F2). split_and!; [congruence|by rewrite W2, W1, app_assoc|].
  rewrite F2, F1. destruct (e_files s1 !! f) as [x|]; simpl; [|by exists f_pos].
  by exists (λ _, p2 (PyFile (f_data x) (p1 x) (f_fileno x) (f_stat x) (f_seek x) (f_binary x))).
Qed.

Lemma shipped_set_pos s p : shipped s (set_pos f p s) [].
Proof.
  split_and!; [done|by rewrite app_nil_r|]. exists (λ _, p). simpl. rewrite lookup_alter_eq. done.
Qed.

Lemma shipped_file s s' d : shipped s s' d -> f_data (file_of s' f) = f_data (file_of s f) /\ f_seek (file_of s' f) = f_seek (file_of s f).
Proof. intros (_ & _ & p & F). unfold file_of. rewrite F. by destruct (e_files s !! f). Qed.

Lemma moved_file s s' d : moved s s' d -> file_of s' f = file_of s f.
Proof. intros (_ & F & _). unfold file_of. by rewrite F. Qed.

(** How many bytes there are to send from [offset] when [total] have been sent. *)
Definition sf_left (data : bytes) (count : option nat) (offset total : nat) : nat :=
  match count with Some c => (c - total) `min` (length data - offset) | None => length data - offset end.

Definition is_open (s : env K) : Prop := fileno_of s sk = fd /\ gettimeout s sk = Some 0 /\ is_Some (e_files s !! f).

Lemma shipped_open s s' d : shipped s s' d -> is_open s -> is_open s'.
Proof.
  intros (E & _ & p & F) (H1 & H2 & H3). split_and!; [by rewrite (fileno_same sk s)|by rewrite (gettimeout_same s)|].
  rewrite F. destruct H3 as [x ->]. by eauto.
Qed.

(** The [finally] clause leaves the file at [pos] if it sent anything and the file can seek. *)
Lemma sf_finally_spec {A} total pos (r r' : out A) s s' : is_Some (e_files s !! f) -> sf_finally f total pos r s = Some (s', r') ->
  r' = r /\ shipped s s' [] /\ ((0 < total)%nat -> f_seek (file_of s f) = true -> f_pos (file_of s' f) = pos) /\ (total = 0%nat -> s' = s).
Proof.
  intros [x Hx] H. unfold sf_finally in H. injection H as <- <-. split; [done|].
  case_bool_decide; simpl; [destruct (f_seek (file_of s f)) eqn:Es|].
  - split_and!; [apply shipped_set_pos| |lia]. intros _ _. unfold file_of, set_pos. simpl. by rewrite lookup_alter_eq, Hx.
  - split_and!; [apply moved_shipped, moved_refl|done|lia].
  - split_and!; [apply moved_shipped, moved_refl|lia|done].
Qed.

(** What a sending loop has done: [n] more bytes from [offset], at most [left] of them; a file that can
    seek is left [n] after [fin]. *)
Definition sent_file (s s' : env K) (offset fin total n left : nat) : Prop :=
  (n <= left)%nat /\ shipped s s' (take n (drop offset (f_data (file_of s f)))) /\
  ((0 < total + n)%nat -> f_seek (file_of s f) = true -> f_pos (file_of s' f) = (fin + n)%nat).

Lemma sent_file_finally {A} total pos (r r' : out A) s s' offset left : is_Some (e_files s !! f) -> sf_finally f total pos r s = Some (s', r') ->
  sent_file s s' offset pos total 0 left /\ r' = r.
Proof.
  intros Hx H. apply sf_finally_spec in H as (-> & Hs & Hp & _); [|done]. split; [|done]. split_and!; [lia|by rewrite take_0|].
  intros. rewrite Nat.add_0_r. apply Hp; [lia|done].
Qed.

(** First [m] bytes, then a loop from there. *)
Lemma sent_file_step s s1 s' offset fin total m n left : shipped s s1 (take m (drop offset (f_data (file_of s f)))) ->
  sent_file s1 s' (offset + m) (fin + m) (total + m) n (left - m) -> (m <= left)%nat -> sent_file s s' offset fin total (m + n) left.
Proof.
  intros M1 (Hn & M2 & Hp) Hm. destruct (shipped_file _ _ _ M1) as [Ed Es]. rewrite Ed in M2. rewrite Es in Hp. split_and!; [lia| |].
  - pose proof (shipped_trans _ _ _ _ _ M1 M2) as M. rewrite <- drop_drop in M. by rewrite take_take_drop in M.
  - intros Ht Hs. rewrite Hp by (done || lia). lia.
Qed.

(** An exit through [finally] after calls that moved nothing. *)
Lemma sent_file_abort {A} s s2 s3 offset total left (r2 r3 : out A) : moved s s2 [] -> is_Some (e_files s2 !! f) ->
  sf_finally f total offset r2 s2 = Some (s3, r3) -> sent_file s s3 offset offset total 0 left /\ r3 = r2.
Proof.
  intros M2 Hx2 H2. apply (sent_file_finally _ _ _ _ _ _ offset left) in H2 as [Hs ->]; [|done]. split; [|done].
  apply (sent_file_step s s2 s3 offset offset total 0 0 left); [by rewrite take_0; apply moved_shipped| |lia].
  by rewrite Nat.sub_0_r, !Nat.add_0_r.
Qed.

Lemma sendfile_loop_spec fuel count offset total bs s s' r : is_open s -> (0 < bs)%nat ->
  sendfile_loop fuel sk f count offset total bs s = Some (s', r) ->
  let left := sf_left (f_data (file_of s f)) count offset total in
  exists n, sent_file s s' offset offset total n left /\
    match r with Ret (Some T) => T = (total + n)%nat /\ n = left | Ret None => (total + n = 0)%nat /\ file_of s' f = file_of s f | Exc _ => True end.
Proof.
  revert offset total bs s. induction fuel as [|fuel IH]; intros offset total bs s Ho Hbs H left; [done|]. cbn [sendfile_loop] in H. move H at bottom.
  pose proof Ho as (Hfd & _ & Hx). set (b := sf_block count total bs) in *. set (data := f_data (file_of s f)) in *.
  destruct (bool_decide (count ≠ None) && bool_decide (b = 0%nat)) eqn:Eb.
  { apply andb_true_iff in Eb as [E1%bool_decide_eq_true E2%bool_decide_eq_true].
    apply (sent_file_finally _ _ _ _ _ _ offset left) in H as [Hs Er]; [|done]. subst r. exists 0%nat. split; [done|]. split; [lia|].
    unfold left, sf_left. unfold b, sf_block in E2. destruct count as [c|]; [|done]. lia. }
  assert (Hb : (0 < b)%nat).
  { rewrite andb_false_iff, !bool_decide_eq_false in Eb. destruct count as [c|]; [|done]. destruct Eb as [[]|]; [done|lia]. }
  assert (Hl : (length (take b (drop offset data)) <= left)%nat).
  { rewrite length_take, length_drop. unfold left, sf_left, b. destruct count; simpl; lia. }
  rewrite Hfd in H. unfold sys in H. destruct (n_sendfile fd (take b (drop offset data)) (e_k s)) as [k1 r1] eqn:E. apply fl_sendfile in E.
  set (s1 := Env (e_socks s) (e_tab s) (e_files s) k1) in *. destruct r1 as [m|e].
  - destruct E as (Hm & Hpos & Hw). assert (M1 : moved s s1 (take (Z.to_nat m) (drop offset data))).
    { apply moved_sys. rewrite Hw. f_equal. rewrite take_take. f_equal. rewrite length_take in Hm. lia. }
    destruct (m =? 0) eqn:E0.
    + apply Z.eqb_eq in E0. subst m. apply (sent_file_finally _ _ _ _ _ _ offset left) in H as [Hs Er]; [|done]. subst r. exists 0%nat.
      split; [|split; [lia|]].
      * apply (sent_file_step s s1 s' offset offset total 0 0 left); [by apply moved_shipped| |lia].
        by rewrite Nat.sub_0_r, !Nat.add_0_r.
      * destruct (take b (drop offset data)) eqn:Et; [|by specialize (Hpos ltac:(done))]. apply (f_equal length) in Et.
        rewrite length_take, length_drop in Et. simpl in Et. unfold left, sf_left. destruct count; lia.
    + apply Z.eqb_neq in E0. apply IH in H as (n & Hs & Hr); [|by eapply shipped_open; [apply moved_shipped|]|done].
      rewrite (moved_file _ _ _ M1) in Hs, Hr. fold data in Hs, Hr. exists (Z.to_nat m + n)%nat.
      assert (El : sf_left data count (offset + Z.to_nat m) (total + Z.to_nat m) = (left - Z.to_nat m)%nat)
        by (unfold left, sf_left; destruct count; lia).
      rewrite El in Hs, Hr. split; [apply (sent_file_step s s1); [by apply moved_shipped|done|lia]|].
      destruct r as [[T|]|]; [destruct Hr as [-> Hn]; split; lia|lia|done].
  - assert (M1 : moved s s1 []) by (apply moved_sys; by rewrite app_nil_r).
    assert (Hx1 : is_Some (e_files s1 !! f)) by done.
    destruct (would_block e).
    + destruct (wait_fd_coop fd WRITE (-1) s1) as [[s2 [u|e2]]|] eqn:E2; [| |done]; apply moved_wait in E2; try done;
        pose proof (moved_trans _ _ _ _ _ M1 E2) as M2; simpl in M2.
      * apply IH in H as (n & Hs & Hr); [|by eapply shipped_open; [apply moved_shipped|]|done].
        rewrite (moved_file _ _ _ M2) in Hs, Hr. fold data in Hs, Hr. exists n. split; [|done].
        apply (sent_file_step s s2 s' offset offset total 0 n left); [by rewrite take_0; apply moved_shipped| |lia].
        rewrite Nat.sub_0_r, !Nat.add_0_r. apply Hs.
      * destruct (sent_file_abort s s2 s' offset total left _ _ M2 ltac:(destruct M2 as (_ & -> & _); done) H) as [Hs Er]. subst r. by exists 0%nat.
    + destruct (is_oserror e && bool_decide (total = 0%nat)) eqn:Eg; destruct (sent_file_abort s s1 s' offset total left _ _ M1 Hx1 H) as [Hs Er]; subst r; exists 0%nat; [|done].
      apply andb_true_iff in Eg as [_ ->%bool_decide_eq_true]. split; [done|]. split; [done|].
      apply sf_finally_spec in H as (_ & _ & _ & Hz); [|done]. by rewrite (Hz eq_refl), (moved_file _ _ _ M1).
Qed.

Lemma file_set_pos (s : env K) p : is_Some (e_files s !! f) -> f_pos (file_of (set_pos f p s) f) = p.
Proof. intros [x Hx]. unfold file_of, set_pos. simpl. by rewrite lookup_alter_eq, Hx. Qed.

(** The file is read from [start]; the position left behind is counted from [offset]. *)
Lemma send_loop_spec fuel count start offset total bs s s' r : is_open s -> (0 < bs)%nat -> f_pos (file_of s f) = (start + total)%nat ->
  send_loop true fuel sk f count offset total bs s = Some (s', r) ->
  let left := sf_left (f_data (file_of s f)) count (start + total) total in
  exists n, sent_file s s' (start + total) (offset + total) total n left /\ (forall T, r = Ret T -> T = (total + n)%nat /\ n = left).
Proof.
  revert total bs s. induction fuel as [|fuel IH]; intros total bs s Ho Hbs Hpos H left; [done|]. cbn [send_loop] in H. move H at bottom.
  pose proof Ho as (Hfd & Hg & Hx). set (b := sf_block count total bs) in *. rewrite Hpos in H. set (data := f_data (file_of s f)) in *.
  destruct (bool_decide (count ≠ None) && bool_decide (b = 0%nat)) eqn:Eb.
  { apply andb_true_iff in Eb as [E1%bool_decide_eq_true E2%bool_decide_eq_true].
    apply (sent_file_finally _ _ _ _ _ _ (start + total) left) in H as [Hs Er]; [|done]. subst r. exists 0%nat. split; [done|]. intros T [= <-]. split; [lia|].
    unfold left, sf_left. unfold b, sf_block in E2. destruct count as [c|]; [|done]. lia. }
  assert (Hb : (0 < b)%nat).
  { rewrite andb_false_iff, !bool_decide_eq_false in Eb. destruct count as [c|]; [|done]. destruct Eb as [[]|]; [done|lia]. }
  set (blk := take b (drop (start + total) data)) in *.
  assert (Hl : (length blk <= left)%nat).
  { unfold blk. rewrite length_take, length_drop. unfold left, sf_left, b. destruct count; simpl; lia. }
  set (s1 := set_pos f (start + total + length blk) s) in *. pose proof (shipped_set_pos s (start + total + length blk)) as M1. fold s1 in M1.
  pose proof (shipped_open _ _ _ M1 Ho) as Ho1. destruct blk as [|c0 blk'] eqn:Eblk.
  - apply (sent_file_finally _ _ _ _ _ _ (start + total) left) in H as [Hs Er]; [|apply Ho1]. subst r. exists 0%nat. split.
    + apply (sent_file_step s s1 s' _ _ total 0 0 left); [by rewrite take_0| |lia].
      by rewrite Nat.sub_0_r, !Nat.add_0_r.
    + intros T [= <-]. split; [lia|]. assert (length (take b (drop (start + total) data)) = 0%nat) as Et by (unfold blk in Eblk; by rewrite Eblk).
      rewrite length_take, length_drop in Et. unfold left, sf_left. destruct count; lia.
  - rewrite <- Eblk in *. destruct (send_block true _ sk blk total s1) as [[[s2 r2] total']|] eqn:E2; [|done].
    apply send_block_spec in E2 as (n & Hn & -> & M2 & Hr2); [|apply Ho1..].
    assert (M12 : shipped s s2 (take n (drop (start + total) data))).
    { pose proof (shipped_trans _ _ _ _ _ M1 (moved_shipped _ _ _ M2)) as M. simpl in M. unfold blk in M. rewrite take_take in M.
      rewrite Nat.min_l in M; [done|]. unfold blk in Hn. rewrite length_take in Hn. lia. }
    pose proof (shipped_open _ _ _ M12 Ho) as Ho2. pose proof (shipped_file _ _ _ M12) as [Ed _].
    assert (Hblk : (0 < length blk)%nat) by (rewrite Eblk; simpl; lia).
    destruct r2 as [[]|e].
    + specialize (Hr2 eq_refl). subst n. 
      apply IH in H as (n & Hs & Hr); [|done|done|rewrite (moved_file _ _ _ M2); rewrite Eblk in *; unfold s1; rewrite file_set_pos by done; lia].
      rewrite Ed in Hs, Hr. fold data in Hs, Hr.
      assert (El : sf_left data count (start + (total + length blk)) (total + length blk) = (left - length blk)%nat)
        by (unfold left, sf_left; destruct count; lia).
      rewrite El in Hs, Hr. exists (length blk + n)%nat. split; [apply (sent_file_step s s2); [done|by rewrite <- !Nat.add_assoc|lia]|].
      intros T HT. destruct (Hr T HT) as [-> ?]. split; lia.
    + apply sf_finally_spec in H as (-> & M3 & Hp & _); [|apply Ho2]. exists n. split; [|done]. split_and!; [lia| |].
      * pose proof (shipped_trans _ _ _ _ _ M12 M3) as M. by rewrite app_nil_r in M.
      * intros Hpz Hsk. rewrite Hp; [lia|lia|]. pose proof (shipped_file _ _ _ M12) as [_ ->]. done.
Qed.

Lemma sendfile_loop_total (busy : K -> nat) count offset total bs s : is_open s ->
  (forall d k k' e x s' r, n_sendfile fd d k = (k', Exc e) -> would_block e = true -> e_k x = k' -> n_wait fd WRITE None x = (s', r) ->
     (busy (e_k s') < busy k)%nat) ->
  exists fuel, is_Some (sendfile_loop fuel sk f count offset total bs s).
Proof.
  intros Ho Hbusy. remember (length (f_data (file_of s f)) - offset)%nat as m eqn:Em. revert s offset total bs Ho Em.
  induction m as [m IHm] using lt_wf_ind. intros s offset total bs Ho Em.
  remember (busy (e_k s)) as q eqn:Eq. revert s bs Ho Em Eq. induction q as [q IHq] using lt_wf_ind. intros s bs Ho Em Eq.
  pose proof Ho as (Hfd & _ & Hx).
  destruct (bool_decide (count ≠ None) && bool_decide (sf_block count total bs = 0%nat)) eqn:Eb.
  { exists 1%nat. cbn [sendfile_loop]. rewrite Eb. unfold sf_finally. by eauto. }
  destruct (n_sendfile fd (take (sf_block count total bs) (drop offset (f_data (file_of s f)))) (e_k s)) as [k1 r1] eqn:E.
  set (s1 := Env (e_socks s) (e_tab s) (e_files s) k1). assert (Ho1 : is_open s1) by done.
  pose proof (fl_sendfile _ _ _ _ E) as Hl. destruct r1 as [n|e].
  - destruct (n =? 0) eqn:E0; [exists 1%nat; cbn [sendfile_loop]; rewrite Eb, Hfd; unfold sys; rewrite E, E0; unfold sf_finally; by eauto|].
    apply Z.eqb_neq in E0. destruct Hl as [Hn _]. rewrite length_take, length_drop in Hn.
    destruct (IHm (length (f_data (file_of s1 f)) - (offset + Z.to_nat n))%nat ltac:(change (file_of s1 f) with (file_of s f); lia)
      s1 (offset + Z.to_nat n)%nat (total + Z.to_nat n)%nat (sf_block count total bs) Ho1 eq_refl) as [fuel Hf].
    exists (S fuel). cbn [sendfile_loop]. rewrite Eb, Hfd. unfold sys. rewrite E. apply Z.eqb_neq in E0. by rewrite E0.
  - destruct (would_block e) eqn:Ew; [|exists 1%nat; cbn [sendfile_loop]; rewrite Eb, Hfd; unfold sys; rewrite E, Ew; unfold sf_finally; by case_match; eauto].
    destruct (n_wait fd WRITE None s1) as [s2 r2] eqn:E2. pose proof (Hbusy _ _ _ _ s1 _ _ E Ew eq_refl E2) as Hlt.
    destruct (fl_wait _ _ _ _ _ E2) as (Es & Ef & Hw). assert (M : moved s1 s2 []) by (split_and!; [done..|by rewrite app_nil_r]).
    destruct (IHq (busy (e_k s2)) ltac:(lia) s2 (sf_block count total bs)) as [fuel Hf];
      [by eapply shipped_open; [apply moved_shipped|]|by rewrite (moved_file _ _ _ M)|done|].
    exists (S fuel). cbn [sendfile_loop]. rewrite Eb, Hfd. unfold sys. rewrite E, Ew. fold s1. unfold wait_fd_coop. simpl. rewrite E2.
    destruct (r2 =? WAIT_FD_CANCELLED); [unfold sf_finally; by eauto|done].
Qed.

Lemma check_params_cases sk' f' count (s : env K) :
  (exists e, check_sendfile_params sk' f' count s = Some (s, Exc e)) \/
  (check_sendfile_params sk' f' count s = Some (s, Ret tt) /\ (forall c, count = Some c -> 0 < c)).
Proof.
  unfold check_sendfile_params. destruct (negb (f_binary _)); [by eauto|].
  destruct (negb (match e_socks s !! sk' with Some o => so_stream o | None => false end)); [by eauto|].
  destruct (match count with Some c => c <=? 0 | None => false end) eqn:E; [by eauto|].
  right. split; [done|]. intros c ->. lia.
Qed.

Lemma use_sendfile_spec fuel offset count s s' r : is_open s -> (forall c, count = Some c -> 0 < c) ->
  check_sendfile_params sk f count s = Some (s, Ret tt) -> co_sendfile_use_sendfile fuel sk f offset count s = Some (s', r) ->
  let left := sf_left (f_data (file_of s f)) (Z.to_nat <$> count) offset 0 in
  exists n, sent_file s s' offset offset 0 n left /\
    match r with Ret (Some T) => T = n /\ n = left | Ret None => n = 0%nat /\ file_of s' f = file_of s f | Exc _ => True end.
Proof.
  intros Ho Hc Ec H left. unfold co_sendfile_use_sendfile, fbind in H. rewrite Ec in H.
  assert (H0 : sent_file s s offset offset 0 0 left) by (split_and!; [lia|rewrite take_0; apply moved_shipped, moved_refl|lia]).
  destruct (negb _ || negb _); [injection H as <- <-; by exists 0%nat|]. case_bool_decide as Hlen.
  - injection H as <- <-. exists 0%nat. split; [done|]. split; [done|]. unfold left, sf_left. destruct count; simpl; lia.
  - apply sendfile_loop_spec in H; [exact H|done|]. destruct count as [c|]; simpl; [specialize (Hc c eq_refl)|]; lia.
Qed.

(** Where the fallback reads from: it seeks only to an [offset] that is not 0. *)
Definition send_start (offset : nat) (s : env K) : nat := if decide (offset = 0%nat) then f_pos (file_of s f) else offset.

Lemma use_send_spec fuel offset count s s' r : is_open s ->
  (forall c, count = Some c -> 0 < c) -> co_sendfile_use_send true fuel sk f offset count s = Some (s', r) ->
  let start := send_start offset s in let left := sf_left (f_data (file_of s f)) (Z.to_nat <$> count) start 0 in
  exists n, sent_file s s' start offset 0 n left /\ (forall T, r = Ret T -> T = n /\ n = left).
Proof.
  intros Ho Hc H start left. move H at bottom. unfold co_sendfile_use_send, fbind in H.
  assert (H0 : sent_file s s start offset 0 0 left) by (split_and!; [lia|rewrite take_0; apply moved_shipped, moved_refl|lia]).
  destruct (check_params_cases sk f count s) as [[e Ec]|[Ec _]]; rewrite Ec in H; [injection H as <- <-; by exists 0%nat|].
  destruct (bool_decide (offset ≠ 0%nat) && negb _); [injection H as <- <-; by exists 0%nat|].
  set (s1 := if bool_decide (offset ≠ 0%nat) then set_pos f offset s else s) in *.
  assert (M1 : shipped s s1 [] /\ f_pos (file_of s1 f) = start).
  { unfold s1, start, send_start. case_bool_decide as Hz; [rewrite decide_False by done; split; [apply shipped_set_pos|apply file_set_pos, Ho]|].
    rewrite decide_True by lia. split; [apply moved_shipped, moved_refl|done]. }
  destruct M1 as [M1 Hp1]. destruct (shipped_file _ _ _ M1) as [Ed _].
  apply (send_loop_spec _ _ start) in H as (n & Hs & Hr); [|by eapply shipped_open| |by rewrite Nat.add_0_r].
  - rewrite Ed in Hs, Hr. rewrite !Nat.add_0_r in Hs. rewrite Nat.add_0_r in Hr. exists n. split; [|exact Hr].
    apply (sent_file_step s s1 s' start offset 0 0 n left); [by rewrite take_0| |lia]. by rewrite Nat.sub_0_r, !Nat.add_0_r.
  - destruct count as [c|]; simpl; [specialize (Hc c eq_refl)|]; lia.
Qed.

(** Where the part sent begins: at [offset], but at the current position of the file when [os.sendfile]
    was given up and [offset] is 0. *)
Definition sendfile_start (fuel offset : nat) (count : option Z) (s : env K) : nat :=
  match co_sendfile_use_sendfile fuel sk f offset count s with
  | Some (_, Ret None) => send_start offset s
  | _ => offset
  end.

(** C15. [sendfile] is exact, through either strategy: a return of [T] means that exactly the [T] bytes
    of the file from where the strategy starts to [count] or to its end went on the wire, once and in
    order; an error means a prefix of them did (so the fallback to [send] never repeats bytes that
    [os.sendfile] has sent); in both cases a file that can seek is left at [offset] plus the bytes
    sent, if there were any.  Both strategies start at [offset], except that the [send] fallback
    asked for [offset] 0 starts at the file's current position ([sendfile_start]).  And on a kernel
    whose waits eventually end the would-block answers, the zero-copy loop terminates. *)
Theorem coop_sendfile_exact offset count osf s : is_open s ->
  let data := f_data (file_of s f) in
  (forall fuel s' r, patched_sendfile true fuel sk f offset count osf s = Some (s', r) ->
     let start := sendfile_start fuel offset count s in
     let all := sf_left data (Z.to_nat <$> count) start 0 in
     exists n, (n <= all)%nat /\ n_wire (e_k s') fd = n_wire (e_k s) fd ++ take n (drop start data) /\
       ((0 < n)%nat -> f_seek (file_of s f) = true -> f_pos (file_of s' f) = (offset + n)%nat) /\
       (forall T, r = Ret T -> T = n /\ n = all)) /\
  (forall busy : K -> nat,
     (forall d k k' e x s' r, n_sendfile fd d k = (k', Exc e) -> would_block e = true -> e_k x = k' -> n_wait fd WRITE None x = (s', r) ->
        (busy (e_k s') < busy k)%nat) ->
     exists fuel, is_Some (co_sendfile_use_sendfile fuel sk f offset count s)).
Proof.
  intros Ho data. pose proof Ho as (Hfd & Hg & Hx). split.
  - intros fuel s' r H start all. unfold patched_sendfile in H. simpl in H. unfold fbind at 1 in H. rewrite make_nonblocking_seen in H by done.
    destruct (check_params_cases sk f count s) as [[e Ec]|[Ec Hcount]].
    { unfold co_sendfile_use_sendfile, fbind in H. rewrite Ec in H. simplify_eq. exists 0%nat. rewrite take_0, app_nil_r. split_and!; [lia|done|lia|done]. }
    unfold fbind in H. unfold sendfile_start in start. destruct (co_sendfile_use_sendfile fuel sk f offset count s) as [[s1 [[T|]|e]]|] eqn:E; [| | |done].
    + unfold fret in H. simplify_eq. eapply use_sendfile_spec in E as (n & (Hn & (_ & Hw & _) & Hp) & HT & Hall); [|done..].
      exists n. split_and!; [done..|]. intros T' [= <-]. simpl in HT. split; [done|apply Hall].
    + eapply use_sendfile_spec in E as (n & (Hn & Hs & _) & Hz & Hfile); [|done..]. simpl in Hz. subst n. rewrite take_0 in Hs.
      eapply use_send_spec in H as (n & (Hn' & (_ & Hw & _) & Hp) & Hr); [|by eapply shipped_open|done].
      unfold send_start in *. rewrite Hfile in *. destruct Hs as (_ & Hw0 & _). rewrite Hw0, app_nil_r in Hw. eauto.
    + simplify_eq. eapply use_sendfile_spec in E as (n & (Hn & (_ & Hw & _) & Hp) & _); [|done..]. exists n. split_and!; done.
  - intros busy Hbusy. unfold co_sendfile_use_sendfile, fbind.
    destruct (check_params_cases sk f count s) as [[e ->]|[-> _]]; [exists 0%nat; by eauto|].
    destruct (negb _ || negb _); [exists 0%nat; by eauto|]. case_bool_decide; [exists 0%nat; by eauto|].
    by apply sendfile_loop_total with busy.
Qed.
End sendfile.

(** ** The scripted kernel keeps the laws *)

Lemma sn_put_spec fd d m io' k k' r : sn_put fd d m io' k = (k', r) -> sn_now k' = sn_now k /\
  exists n, r = Ret n /\ 0 <= n <= Z.of_nat (length d) /\ (d ≠ [] -> (0 < m)%nat -> 1 <= n) /\ sn_wire_of k' fd = sn_wire_of k fd ++ take (Z.to_nat n) d.
Proof.
  unfold sn_put. intros [= <- <-]. split; [done|]. eexists. split_and!; [done|lia|lia| |].
  - intros Hd Hm. destruct d; [done|]. simpl length. lia.
  - unfold sn_wire_of at 1; simpl. by rewrite lookup_insert_eq, Nat2Z.id.
Qed.

Lemma sn_send_spec fd d k k' r : sn_send fd d k = (k', r) -> sn_now k' = sn_now k /\
  match r with
  | Ret n => 0 <= n <= Z.of_nat (length d) /\ (d ≠ [] -> 1 <= n) /\ sn_wire_of k' fd = sn_wire_of k fd ++ take (Z.to_nat n) d
  | Exc e => e = BlockingIOError /\ sn_wire_of k' fd = sn_wire_of k fd
  end.
Proof.
  unfold sn_send. destruct (sn_io k) as [|[n|] io']; [| |intros [= <- <-]; done].
  - intros (Hn & n & -> & ? & Hp & ?)%sn_put_spec. split_and!; try done; try lia. intros Hd. apply Hp; [done|]. destruct d; [done|simpl; lia].
  - intros (Hn & m & -> & ? & Hp & ?)%sn_put_spec. split_and!; try done; try lia. intros Hd. apply Hp; [done|lia].
Qed.

Lemma sn_get_spec fd m io' k k' r : sn_get fd m io' k = (k', r) -> sn_now k' = sn_now k /\
  exists d, r = Ret d /\ (length d <= m)%nat /\ sn_rd_of k' fd = sn_rd_of k fd ++ d.
Proof.
  unfold sn_get. intros [= <- <-]. split; [done|]. eexists. split_and!; [done|rewrite length_take; lia|].
  unfold sn_rd_of at 1; simpl. by rewrite lookup_insert_eq.
Qed.

Lemma sn_recv_spec fd n k k' r : 0 <= n -> sn_recv fd n k = (k', r) -> sn_now k' = sn_now k /\
  match r with
  | Ret d => Z.of_nat (length d) <= n /\ sn_rd_of k' fd = sn_rd_of k fd ++ d
  | Exc e => e = BlockingIOError /\ sn_rd_of k' fd = sn_rd_of k fd
  end.
Proof.
  intros Hn. unfold sn_recv. destruct (sn_io k) as [|[m|] io']; [..|intros [= <- <-]; done];
    intros (Ht & d & -> & Hd & Hr)%sn_get_spec; (split_and!; [done|lia|done]).
Qed.

Lemma sn_wait_spec fd dir tmo s s' r : sn_wait fd dir tmo s = (s', r) ->
  exists d, 0 < d /\ s' = Env (e_socks s) (e_tab s) (e_files s) (sn_tick d fd (e_k s)) /\
    (r = 0 -> exists ms, tmo = Some ms /\ ms * 1000 <= d) /\ (tmo = None -> r ≠ 0).
Proof.
  unfold sn_wait. destruct (sn_waits (e_k s)) as [|[|p|p] ws], tmo as [ms|]; intros [= <- <-]; eexists;
    (split_and!; [|reflexivity| |]); try lia; try done; intros _; eexists; split; [reflexivity|lia].
Qed.

#[local] Instance scripted_stream sk fd : StreamLaws (K := snet) sk fd.
Proof.
  split.
  - intros d fl k k' r (Hn & Hr)%sn_send_spec. simpl. split; [lia|]. destruct r; [done|]. by destruct Hr as [-> ->].
  - intros n fl k k' r Hn (Ht & Hr)%sn_recv_spec; [|done]. simpl. split; [lia|]. destruct r; [done|]. by destruct Hr as [-> ->].
  - intros dir tmo s s' r (d & Hd & -> & H0 & _)%sn_wait_spec. simpl. split_and!; try done; [lia|].
    intros (ms & -> & ?)%H0. exists ms. split; [done|lia].
Qed.

#[local] Instance scripted_connect sk fd : ConnectLaws (K := snet) sk fd.
Proof.
  split; try done.
  - intros a k k' r. simpl. unfold sn_connect_ex, sn_conn_of. destruct (sn_errs k) as [|e es]; intros [= <- <-]; simpl.
    + by rewrite lookup_insert_eq.
    + destruct (connected_now e); simpl; [by rewrite lookup_insert_eq|]. destruct (in_progress e); [by rewrite lookup_insert_eq|done].
  - intros k k' r [= <- <-]. split; [done|]. intros Hc. simpl in Hc. eexists. split_and!; [reflexivity| |].
    + by destruct Hc as [-> | ->].
    + simpl. destruct Hc as [-> | ->]; done.
  - intros tmo s s' r (d & Hd & -> & _ & _)%sn_wait_spec. split; [done|]. intros _ _. simpl. unfold sn_conn_of. simpl.
    destruct (sn_conn (e_k s) !! fd) as [[]|] eqn:E; simpl; rewrite ?E, ?lookup_insert_eq; simpl; try (by intros []); auto.
  - intros s s' r (d & _ & _ & _ & H)%sn_wait_spec. auto.
Qed.

#[local] Instance scripted_sendfile sk fd f : SendfileLaws (K := snet) sk fd f.
Proof.
  split; try done.
  - intros d k k' r. simpl. destruct (sn_sf k); [|by intros [= <- <-]]. intros (_ & Hr)%sn_send_spec. destruct r; [done|apply Hr].
  - intros d fl k k' r (_ & Hr)%sn_send_spec. destruct r; [|apply Hr]. split; apply Hr.
  - intros dir tmo s s' r (d & Hd & -> & _)%sn_wait_spec. done.
Qed.

(** Socket 1 on descriptor 5, with a timeout of 2 seconds; file 7. *)
Definition busy_net (waits : list Z) (sf : bool) : env snet :=
  Env {[1%nat := SockObj 5 (Some 0) true true 0 false]} {[5 := Some 2000000]}
    {[7%nat := PyFile [1; 2; 3; 4; 5; 6] 0 true true true true]}
    (SNet 0 ∅ ∅ [10; 20; 30; 40] [Some 1%nat; None; Some 0%nat; None] {[5 := Unconnected]} [EINPROGRESS] waits sf).

Lemma coop_sendall_timed_witness :
  exists fuel s' r, patched_sendall true fuel 1 [1; 2; 3; 4] 0 (λ k, (k, Ret tt)) (busy_net [1; 0] true) = Some (s', r) /\
    match r with
    | Ret _ => n_wire (e_k s') 5 = n_wire (e_k (busy_net [1; 0] true)) 5 ++ [1; 2; 3; 4]
    | Exc e => would_block e = false /\ (e = timed_out -> n_now (e_k (busy_net [1; 0] true)) + 2000000 - 1000 < n_now (e_k s')) /\
        exists n, (n < length [1; 2; 3; 4]%Z)%nat /\ n_wire (e_k s') 5 = n_wire (e_k (busy_net [1; 0] true)) 5 ++ take n [1; 2; 3; 4]
    end.
Proof. apply (coop_sendall_timed 1%nat 5 [1; 2; 3; 4] 0 2000000 (busy_net [1; 0] true) (λ k, (k, Ret tt))). vm_compute. auto. Defined.

(** The same run times out: the second wait lasts until the deadline. *)
Example coop_sendall_timed_out :
  exists s', patched_sendall true 10 1 [1; 2; 3; 4] 0 (λ k, (k, Ret tt)) (busy_net [1; 0] true) = Some (s', Exc timed_out) /\
    n_now (e_k s') = 1999100 /\ n_wire (e_k s') 5 = [1; 2; 3].
Proof. eexists. split; [vm_compute; reflexivity|]. split; vm_compute; reflexivity. Qed.

Lemma coop_recv_waitall_timed_witness :
  exists fuel s' r more, patched_recv true fuel 1 3 MSG_WAITALL (busy_net [] true) = Some (s', r) /\
    n_rd (e_k s') 5 = n_rd (e_k (busy_net [] true)) 5 ++ more /\
    match r with
    | Ret res => res = more /\ Z.of_nat (length res) <= 3 /\
        (Z.of_nat (length res) = 3 \/ exists k m, n_recv 5 m (Z.ldiff MSG_WAITALL MSG_WAITALL) k = (e_k s', Ret []))
    | Exc e => would_block e = false /\ (e = timed_out -> n_now (e_k (busy_net [] true)) + 2000000 - 1000 < n_now (e_k s')) /\ Z.of_nat (length more) < 3
    end.
Proof. apply (coop_recv_waitall_timed 1%nat 5 3 MSG_WAITALL 2000000 (busy_net [] true)); [vm_compute; auto|lia|reflexivity]. Defined.

Lemma coop_connect_sound_witness :
  exists s', patched_connect true 3 1 (ASockaddr 9) (busy_net [] true) = Some (s', Ret tt) /\ n_conn (e_k s') 5 = Connected.
Proof.
  destruct (coop_connect_sound 1%nat 5 3 (ASockaddr 9) (busy_net [] true)) as [H _]; [reflexivity|reflexivity|].
  eexists. split; [vm_compute; reflexivity|]. apply H. vm_compute. reflexivity.
Defined.

Lemma coop_sendfile_exact_witness :
  exists s' n, patched_sendfile true 30 1 7 1 (Some 4) (λ k, (k, Ret 0%nat)) (busy_net [] false) = Some (s', Ret 4%nat) /\
    n_wire (e_k s') 5 = n_wire (e_k (busy_net [] false)) 5 ++ take n (drop 1 [1; 2; 3; 4; 5; 6]).
Proof.
  destruct (coop_sendfile_exact 1%nat 5 7%nat 1%nat (Some 4) (λ k, (k, Ret 0%nat)) (busy_net [] false)) as [H _];
    [vm_compute; eauto|].
  edestruct (H 30%nat) as (n & _ & Hw & _); [vm_compute; reflexivity|].
  eexists _, n. split; [vm_compute; reflexivity|exact Hw].
Defined.

(** The fallback sends the four bytes from offset 1 once and leaves the file at 5. *)
Example coop_sendfile_fallback :
  exists s', patched_sendfile true 30 1 7 1 (Some 4) (λ k, (k, Ret 0%nat)) (busy_net [] false) = Some (s', Ret 4%nat) /\
    n_wire (e_k s') 5 = [2; 3; 4; 5] /\ f_pos (file_of s' 7) = 5%nat.
Proof. eexists. split; [vm_compute; reflexivity|]. split; vm_compute; reflexivity. Qed.

(** With [offset] 0 and a file that has been read up to position 2 the strategies disagree:
    [os.sendfile] sends the whole file and leaves it at its end, the fallback sends what is left of
    it and leaves it before its end. *)
Theorem sendfile_strategies_disagree :
  let s sf := set_pos 7 2 (busy_net [] sf) in
  (exists s', patched_sendfile true 30 1 7 0 None (λ k, (k, Ret 0%nat)) (s true) = Some (s', Ret 6%nat) /\
     n_wire (e_k s') 5 = [1; 2; 3; 4; 5; 6] /\ f_pos (file_of s' 7) = 6%nat) /\
  (exists s', patched_sendfile true 30 1 7 0 None (λ k, (k, Ret 0%nat)) (s false) = Some (s', Ret 4%nat) /\
     n_wire (e_k s') 5 = [3; 4; 5; 6] /\ f_pos (file_of s' 7) = 4%nat).
Proof. split; (eexists; split; [vm_compute; reflexivity|]; split; vm_compute; reflexivity). Qed.
