(* ===== verification/DnsProto.v ===== *)
(** * DNS wire protocol

    Models the query builder, the name skipper and the answer parser of
    [src/src/stackweave/monkey/dns_proto.py].  Bytes are [Z] in [0, 255], offsets
    are [nat]; an out-of-range read is the [OSError] or the [break] of the source. *)
From stdpp Require Import pretty.
From S2P Require Import Prelude.
Local Open Scope Z_scope.

Abbreviation bytes := (list Z).

(** [struct.pack("!H", n)] and [("!I", n)]. *)
Definition u16 (n : Z) : bytes := [Z.land (Z.shiftr n 8) 255; Z.land n 255].
Definition u32 (n : Z) : bytes := u16 (Z.shiftr n 16) ++ u16 (Z.land n 65535).

(** [struct.unpack("!H", data[off:off+2])], given that the bytes are there. *)
Definition rd (data : bytes) (off : nat) : Z := default 0 (data !! off).
Definition get16 (data : bytes) (off : nat) : Z := Z.lor (Z.shiftl (rd data off) 8) (rd data (S off)).

Definition QTYPE_A : Z := 1.
Definition QTYPE_AAAA : Z := 28.

(** [data.split(b".")]. *)
Fixpoint split_dot (l : bytes) : list bytes :=
  match l with
  | [] => [[]]
  | b :: l' =>
      if b =? 46 then [] :: split_dot l'
      else match split_dot l' with
           | x :: xs => (b :: x) :: xs
           | [] => [[b]]
           end
  end.

(** A host as the caller gives it: [bytes], or a [str] of code points, whose
    non-ASCII form goes through the [idna] codec. *)
Inductive host := HBytes (b : bytes) | HStr (s : list Z).

Section encode.
Context (idna : list Z -> out bytes).

Definition encode_query_name (h : host) : out bytes :=
  match h with
  | HBytes b => Ret b
  | HStr s => if forallb (λ c, c <? 128) s then Ret s else idna s
  end.

(** The loop over the labels. *)
Fixpoint encode_labels (ls : list bytes) : out bytes :=
  match ls with
  | [] => Ret [0]
  | l :: ls' =>
      if bool_decide (l = []) then encode_labels ls'
      else if 63 <? Z.of_nat (length l) then Exc (OSError "DNS label too long")
      else match encode_labels ls' with
           | Ret q => Ret ((Z.of_nat (length l) :: l) ++ q)
           | Exc e => Exc e
           end
  end.

(** [_build_query(name, qtype)]; [txn] is the random transaction id. *)
Definition build_query (txn : Z) (h : host) (qtype : Z) : out (Z * bytes) :=
  let hdr := u16 txn ++ u16 256 ++ u16 1 ++ u16 0 ++ u16 0 ++ u16 1 in
  match encode_query_name h with
  | Exc e => Exc e
  | Ret name =>
      match encode_labels (split_dot name) with
      | Exc e => Exc e
      | Ret qname =>
          let qpart := qname ++ u16 qtype ++ u16 1 in
          let opt := [0] ++ u16 41 ++ u16 4096 ++ u32 0 ++ u16 0 in
          Ret (txn, hdr ++ qpart ++ opt)
      end
  end.
End encode.

(** [_skip_dns_name(data, off)], with fuel for the [while True]. *)
Fixpoint skip_dns_name (fuel : nat) (data : bytes) (off : nat) : option (out nat) :=
  match fuel with
  | O => None
  | S fuel' =>
      match data !! off with
      | None => Some (Exc (OSError "DNS name overruns packet"))
      | Some ln =>
          if ln =? 0 then Some (Ret (off + 1)%nat)
          else if Z.land ln 192 =? 192 then Some (Ret (off + 2)%nat)
          else skip_dns_name fuel' data (off + 1 + Z.to_nat ln)
      end
  end.

(** The packet length is enough fuel (see [dns_skip_total]). *)
Definition skip_name (data : bytes) (off : nat) : out nat :=
  default (Exc (RuntimeError "out of fuel")) (skip_dns_name (S (length data)) data off).

(** An address in the textual form [inet_ntoa]/[inet_ntop] give it. *)
Inductive addr := Ntoa (b : bytes) | NtopV6 (b : bytes).

#[export] Instance addr_eq_dec : EqDecision addr.
Proof. solve_decision. Defined.

(** [for _ in range(qd): off = _skip_dns_name(data, off); off += 4]. *)
Fixpoint skip_questions (qd : nat) (data : bytes) (off : nat) : out nat :=
  match qd with
  | O => Ret off
  | S qd' =>
      match skip_name data off with
      | Exc e => Exc e
      | Ret off' => skip_questions qd' data (off' + 4)
      end
  end.

(** The loop over the answer records. *)
Fixpoint read_answers (an : nat) (data : bytes) (off : nat) (addrs : list addr) : out (list addr) :=
  match an with
  | O => Ret addrs
  | S an' =>
      match skip_name data off with
      | Exc e => Exc e
      | Ret off' =>
          if (length data <? off' + 10)%nat then Ret addrs
          else
            let rtype := get16 data off' in
            let rdlen := Z.to_nat (get16 data (off' + 8)) in
            let off2 := (off' + 10)%nat in
            let rdata := take rdlen (drop off2 data) in
            let addrs' :=
              if (rtype =? QTYPE_A) && (length rdata =? 4)%nat then addrs ++ [Ntoa rdata]
              else if (rtype =? QTYPE_AAAA) && (length rdata =? 16)%nat then addrs ++ [NtopV6 rdata]
              else addrs in
            read_answers an' data (off2 + rdlen) addrs'
      end
  end.

(** The exceptions of the header checks. *)
Definition rcode_error (rcode : Z) : pyexc :=
  OSError ("DNS server rcode=" ++ pretty rcode).

(** [_parse_dns_answer(data, expected_txn)]. *)
Definition parse_dns_answer (data : bytes) (expected_txn : Z) : out (list addr) :=
  if (length data <? 12)%nat then Exc (OSError "DNS response too short")
  else
    let flags := get16 data 2 in
    let rcode := Z.land flags 15 in
    if negb (get16 data 0 =? expected_txn) then Exc (OSError "DNS txn mismatch")
    else if negb (Z.land flags 512 =? 0) then Exc (OSError "DNS response truncated (TC set)")
    else if rcode =? 3 then Ret []
    else if negb (rcode =? 0) then Exc (rcode_error rcode)
    else
      match skip_questions (Z.to_nat (get16 data 4)) data 12 with
      | Exc e => Exc e
      | Ret off => read_answers (Z.to_nat (get16 data 6)) data off []
      end.

(** ** Termination and bounds *)

(** The loop moves forward, so the packet length bounds the number of rounds. *)
Lemma skip_fuel fuel data off : (length data < off + fuel)%nat -> (0 < fuel)%nat ->
  exists r, skip_dns_name fuel data off = Some r.
Proof.
  revert off. induction fuel as [|fuel IH]; intros off Hf Hp; [lia|]. simpl.
  destruct (data !! off) as [ln|] eqn:E; [|by eexists].
  apply lookup_lt_Some in E. destruct (ln =? 0); [by eexists|].
  destruct (Z.land ln 192 =? 192); [by eexists|]. apply IH; lia.
Qed.

(** Where a name ends. *)
Lemma skip_bounds fuel data off off' :
  skip_dns_name fuel data off = Some (Ret off') -> (off < off' <= S (length data))%nat.
Proof.
  revert off. induction fuel as [|fuel IH]; intros off H; [done|]. simpl in H.
  destruct (data !! off) as [ln|] eqn:E; [|done]. apply lookup_lt_Some in E.
  destruct (ln =? 0); [simplify_eq; lia|]. destruct (Z.land ln 192 =? 192); [simplify_eq; lia|].
  apply IH in H. lia.
Qed.

Lemma skip_more fuel fuel' data off r :
  skip_dns_name fuel data off = Some r -> (fuel <= fuel')%nat -> skip_dns_name fuel' data off = Some r.
Proof.
  revert fuel' off. induction fuel as [|fuel IH]; intros [|fuel'] off H Hf; try done; [lia|].
  simpl in *. repeat case_match; try done. apply IH; [done|lia].
Qed.

Lemma skip_name_eq fuel data off r : skip_dns_name fuel data off = Some r -> skip_name data off = r.
Proof.
  intros H. unfold skip_name. destruct (skip_fuel (S (length data)) data off) as [r' Hr']; [lia..|].
  rewrite Hr'. simpl. destruct (Nat.le_ge_cases fuel (S (length data))) as [Hl|Hl].
  - by rewrite (skip_more _ _ _ _ _ H Hl) in Hr'; simplify_eq.
  - by rewrite (skip_more _ _ _ _ _ Hr' Hl) in H; simplify_eq.
Qed.

(** On every packet and offset the name ends, moving forward, or overruns. *)
Lemma skip_name_total data off :
  match skip_name data off with
  | Ret off' => (off < off' <= S (length data))%nat
  | Exc e => e = OSError "DNS name overruns packet"
  end.
Proof.
  unfold skip_name. destruct (skip_fuel (S (length data)) data off) as [[off'|e] Hr]; [lia..|by rewrite Hr; apply skip_bounds in Hr|].
  rewrite Hr. simpl. revert off Hr. generalize (S (length data)).
  induction n as [|n IH]; intros off Hr; [done|]. simpl in Hr. repeat case_match; simplify_eq; eauto.
Qed.

(** ** Integers on the wire *)

Lemma u16_join n : 0 <= n < 65536 ->
  Z.lor (Z.shiftl (Z.land (Z.shiftr n 8) 255) 8) (Z.land n 255) = n.
Proof.
  intros Hn. apply Z.bits_inj'. intros i Hi.
  rewrite Z.lor_spec, Z.shiftl_spec, !Z.land_spec by lia. change 255 with (Z.ones 8).
  destruct (decide (i < 8)).
  - rewrite (Z.testbit_neg_r _ (i - 8)), (Z.ones_spec_low 8 i) by lia. simpl. apply andb_true_r.
  - rewrite (Z.ones_spec_high 8 i) by lia. rewrite andb_false_r, orb_false_r.
    rewrite Z.shiftr_spec by lia. replace (i - 8 + 8) with i by lia.
    destruct (decide (i < 16)); [rewrite Z.ones_spec_low by lia; apply andb_true_r|].
    rewrite Z.ones_spec_high by lia. rewrite andb_false_r. symmetry.
    apply (Z.bounded_iff_bits_nonneg 16 n); lia.
Qed.

Lemma rd_app pre b rest : rd (pre ++ b :: rest) (length pre) = b.
Proof. unfold rd. by rewrite list_lookup_middle. Qed.

Lemma get16_u16 pre n rest : 0 <= n < 65536 -> get16 (pre ++ u16 n ++ rest) (length pre) = n.
Proof.
  intros Hn. unfold get16, u16; simpl. rewrite rd_app.
  replace (pre ++ Z.land (Z.shiftr n 8) 255 :: Z.land n 255 :: rest)
    with ((pre ++ [Z.land (Z.shiftr n 8) 255]) ++ Z.land n 255 :: rest) by by rewrite <- app_assoc.
  replace (S (length pre)) with (length (pre ++ [Z.land (Z.shiftr n 8) 255]))
    by (rewrite length_app; simpl; lia).
  rewrite rd_app. by apply u16_join.
Qed.

Lemma get16_at data pre n rest off : data = pre ++ u16 n ++ rest -> off = length pre ->
  0 <= n < 65536 -> get16 data off = n.
Proof. intros -> ->. apply get16_u16. Qed.

Lemma length_u16 n : length (u16 n) = 2%nat.
Proof. done. Qed.
Lemma length_u32 n : length (u32 n) = 4%nat.
Proof. done. Qed.
#[export] Hint Rewrite @length_app length_u16 length_u32 : dns.

(** ** Names on the wire *)

(** Labels, then the root label or a compression pointer. *)
Record wname := WName { wn_labels : list bytes; wn_ptr : option (Z * Z) }.

Definition label_ok (l : bytes) : Prop := (1 <= length l <= 63)%nat.
Definition wname_ok (n : wname) : Prop :=
  Forall label_ok (wn_labels n) /\
  match wn_ptr n with Some (hi, _) => 192 <= hi < 256 | None => True end.

Definition enc_labels (ls : list bytes) : bytes :=
  flat_map (λ l, Z.of_nat (length l) :: l) ls.
Definition enc_wname (n : wname) : bytes :=
  enc_labels (wn_labels n) ++ match wn_ptr n with Some (hi, lo) => [hi; lo] | None => [0] end.

Lemma small_not_pointer ln : 0 <= ln < 192 -> (Z.land ln 192 =? 192) = false.
Proof.
  intros Hl. assert (forallb (λ n, negb (Z.land (Z.of_nat n) 192 =? 192)) (seq 0 192) = true) as H
    by (vm_compute; reflexivity).
  rewrite forallb_forall in H. specialize (H (Z.to_nat ln)).
  rewrite <- list_elem_of_In, elem_of_seq, Z2Nat.id in H by lia.
  specialize (H ltac:(lia)). by apply negb_true_iff in H.
Qed.

Lemma pointer_bits hi : 192 <= hi < 256 -> (Z.land hi 192 =? 192) = true.
Proof.
  intros Hl. assert (forallb (λ n, Z.land (Z.of_nat n) 192 =? 192) (seq 192 64) = true) as H
    by (vm_compute; reflexivity).
  rewrite forallb_forall in H. specialize (H (Z.to_nat hi)).
  rewrite <- list_elem_of_In, elem_of_seq, Z2Nat.id in H by lia. by apply H; lia.
Qed.

(** One round over a label. *)
Lemma skip_label fuel pre l rest : label_ok l ->
  skip_dns_name (S fuel) (pre ++ (Z.of_nat (length l) :: l) ++ rest) (length pre) =
  skip_dns_name fuel (pre ++ (Z.of_nat (length l) :: l) ++ rest) (length pre + S (length l)).
Proof.
  unfold label_ok. intros Hl. simpl. rewrite list_lookup_middle by done.
  destruct (Z.eqb_spec (Z.of_nat (length l)) 0); [lia|].
  rewrite small_not_pointer by lia. rewrite Nat2Z.id. f_equal. lia.
Qed.

Lemma skip_wname n : forall pre rest, wname_ok n ->
  skip_dns_name (S (length (wn_labels n))) (pre ++ enc_wname n ++ rest) (length pre) =
  Some (Ret (length pre + length (enc_wname n))%nat).
Proof.
  destruct n as [ls ptr]. unfold wname_ok, enc_wname. cbn [wn_labels wn_ptr].
  induction ls as [|l ls IH]; intros pre rest [Hl Hp].
  - cbn [length]. simpl. destruct ptr as [[hi lo]|]; simpl; rewrite list_lookup_middle by done.
    + rewrite pointer_bits by done. destruct (Z.eqb_spec hi 0); [lia|done].
    + done.
  - apply Forall_cons in Hl as [Hl Hls].
    change (enc_labels (l :: ls)) with ((Z.of_nat (length l) :: l) ++ enc_labels ls).
    rewrite <- !app_assoc. cbn [length]. rewrite skip_label by done.
    specialize (IH (pre ++ Z.of_nat (length l) :: l) rest ltac:(by split)).
    rewrite <- !app_assoc in IH. rewrite (length_app pre) in IH. cbn [length] in IH.
    rewrite IH. do 2 f_equal. rewrite !length_app. cbn [length]. lia.
Qed.

Lemma skip_name_wire pre n rest : wname_ok n ->
  skip_name (pre ++ enc_wname n ++ rest) (length pre) = Ret (length pre + length (enc_wname n))%nat.
Proof. intros Hn. by apply (skip_name_eq _ _ _ _ (skip_wname n pre rest Hn)). Qed.

(** ** Responses on the wire *)

Record rr := RR { rr_name : wname; rr_type : Z; rr_class : Z; rr_ttl : Z; rr_data : bytes }.
Record question := Question { qn_name : wname; qn_tail : bytes }.

Definition rr_ok (r : rr) : Prop :=
  wname_ok (rr_name r) /\ 0 <= rr_type r < 65536 /\ Z.of_nat (length (rr_data r)) < 65536.
Definition question_ok (q : question) : Prop := wname_ok (qn_name q) /\ length (qn_tail q) = 4%nat.

Definition enc_rr (r : rr) : bytes :=
  enc_wname (rr_name r) ++ u16 (rr_type r) ++ u16 (rr_class r) ++ u32 (rr_ttl r) ++
  u16 (Z.of_nat (length (rr_data r))) ++ rr_data r.
Definition enc_question (q : question) : bytes := enc_wname (qn_name q) ++ qn_tail q.

(** A response: header, questions, answers and whatever follows them. *)
Definition enc_response (txn flags ns ar : Z) (qs : list question) (rs : list rr) (tail : bytes) : bytes :=
  (u16 txn ++ u16 flags ++ u16 (Z.of_nat (length qs)) ++ u16 (Z.of_nat (length rs)) ++ u16 ns ++ u16 ar) ++
  flat_map enc_question qs ++ flat_map enc_rr rs ++ tail.

(** The addresses the records carry, in order. *)
Definition rr_addrs (r : rr) : list addr :=
  if (rr_type r =? QTYPE_A) && (length (rr_data r) =? 4)%nat then [Ntoa (rr_data r)]
  else if (rr_type r =? QTYPE_AAAA) && (length (rr_data r) =? 16)%nat then [NtopV6 (rr_data r)]
  else [].

Lemma skip_question_wire q qd pre rest : question_ok q ->
  skip_questions (S qd) (pre ++ enc_question q ++ rest) (length pre) =
  skip_questions qd (pre ++ enc_question q ++ rest) (length pre + length (enc_question q)).
Proof.
  intros [Hn Hl]. cbn [skip_questions].
  assert (skip_name (pre ++ enc_question q ++ rest) (length pre) =
    Ret (length pre + length (enc_wname (qn_name q)))%nat) as ->.
  { unfold enc_question. rewrite <- !app_assoc. by apply skip_name_wire. }
  f_equal. unfold enc_question. rewrite length_app, Hl. lia.
Qed.

Lemma skip_questions_wire qs : forall pre rest, Forall question_ok qs ->
  skip_questions (length qs) (pre ++ flat_map enc_question qs ++ rest) (length pre) =
  Ret (length pre + length (flat_map enc_question qs))%nat.
Proof.
  induction qs as [|q qs IH]; intros pre rest Hq; cbn [length flat_map].
  { cbn. f_equal. lia. }
  apply Forall_cons in Hq as [Hq Hqs]. rewrite <- !app_assoc, skip_question_wire by done.
  specialize (IH (pre ++ enc_question q) rest Hqs).
  rewrite length_app, <- !app_assoc in IH. rewrite IH, length_app. f_equal. lia.
Qed.

(** One answer record: what the fixed part holds. *)
Lemma read_answer_wire r an pre rest acc : rr_ok r ->
  read_answers (S an) (pre ++ enc_rr r ++ rest) (length pre) acc =
  read_answers an (pre ++ enc_rr r ++ rest) (length pre + length (enc_rr r)) (acc ++ rr_addrs r).
Proof.
  intros (Hn & Ht & Hd). set (data := pre ++ enc_rr r ++ rest).
  set (n := enc_wname (rr_name r)). set (off := (length pre + length n)%nat).
  assert (skip_name data (length pre) = Ret off) as Hs.
  { unfold data, enc_rr. rewrite <- !app_assoc. by apply skip_name_wire. }
  set (body := u16 (rr_type r) ++ u16 (rr_class r) ++ u32 (rr_ttl r)).
  assert (data = (pre ++ n) ++ u16 (rr_type r) ++ (u16 (rr_class r) ++ u32 (rr_ttl r) ++
    u16 (Z.of_nat (length (rr_data r))) ++ rr_data r ++ rest)) as E1.
  { unfold data, enc_rr. by rewrite <- !app_assoc. }
  assert (data = (pre ++ n ++ body) ++ u16 (Z.of_nat (length (rr_data r))) ++ rr_data r ++ rest) as E2.
  { unfold data, enc_rr, body. by rewrite <- !app_assoc. }
  assert (data = (pre ++ n ++ body ++ u16 (Z.of_nat (length (rr_data r)))) ++ rr_data r ++ rest) as E3.
  { unfold data, enc_rr, body. by rewrite <- !app_assoc. }
  assert (length body = 8%nat) as Hb by done.
  assert (length (enc_rr r) = length n + 10 + length (rr_data r))%nat as Hlen.
  { unfold enc_rr. autorewrite with dns. fold n. lia. }
  cbn [read_answers]. rewrite Hs.
  destruct (Nat.ltb_spec (length data) (off + 10)) as [Hlt|_].
  { unfold data, off in Hlt. rewrite !length_app, Hlen in Hlt. lia. }
  rewrite (get16_at data (pre ++ n) (rr_type r) _ off E1) by (try (rewrite length_app; unfold off; lia); lia).
  rewrite (get16_at data (pre ++ n ++ body) (Z.of_nat (length (rr_data r))) _ (off + 8) E2)
    by (try (rewrite !length_app, Hb; unfold off; lia); lia).
  rewrite Nat2Z.id.
  assert (take (length (rr_data r)) (drop (off + 10) data) = rr_data r) as Hrd.
  { rewrite E3, drop_app_length', take_app_length; [done|].
    rewrite !length_app, Hb, length_u16. unfold off. lia. }
  rewrite Hrd. replace (off + 10 + length (rr_data r))%nat with (length pre + length (enc_rr r))%nat
    by (rewrite Hlen; unfold off; lia).
  f_equal. unfold rr_addrs. repeat case_match; try done; by rewrite app_nil_r.
Qed.

Lemma read_answers_wire rs : forall pre rest acc, Forall rr_ok rs ->
  read_answers (length rs) (pre ++ flat_map enc_rr rs ++ rest) (length pre) acc =
  Ret (acc ++ flat_map rr_addrs rs).
Proof.
  induction rs as [|r rs IH]; intros pre rest acc Hr; cbn [length flat_map].
  { cbn. by rewrite app_nil_r. }
  apply Forall_cons in Hr as [Hr Hrs]. rewrite <- !app_assoc, read_answer_wire by done.
  specialize (IH (pre ++ enc_rr r) rest (acc ++ rr_addrs r) Hrs).
  rewrite length_app, <- !app_assoc in IH. by rewrite IH.
Qed.

(** ** Queries on the wire *)

Lemma encode_labels_wire ls q : encode_labels ls = Ret q ->
  q = enc_wname (WName (filter (.≠ []) ls) None) /\ wname_ok (WName (filter (.≠ []) ls) None).
Proof.
  revert q. induction ls as [|l ls IH]; intros q H; simpl in H; [by simplify_eq|].
  case_bool_decide as El.
  - rewrite filter_cons_False by (by intros ?). by apply IH.
  - destruct (Z.ltb_spec 63 (Z.of_nat (length l))) as [|Hl]; [done|].
    destruct (encode_labels ls) as [q'|]; simplify_eq.
    destruct (IH q' eq_refl) as [-> [Hf _]]. rewrite filter_cons_True by done. split.
    + unfold enc_wname, enc_labels; simpl. by rewrite <- app_assoc.
    + split; [|done]. simpl in *. constructor; [|done]. unfold label_ok. destruct l; [done|]. simpl in *. lia.
Qed.

(** A response is at least its header long. *)
Lemma enc_response_header txn flags ns ar qs rs tail :
  let data := enc_response txn flags ns ar qs rs tail in
  0 <= txn < 65536 -> 0 <= flags < 65536 -> Z.of_nat (length qs) < 65536 -> Z.of_nat (length rs) < 65536 ->
  (12 <= length data)%nat /\ get16 data 0 = txn /\ get16 data 2 = flags /\
  Z.to_nat (get16 data 4) = length qs /\ Z.to_nat (get16 data 6) = length rs.
Proof.
  intros data Ht Hf Hq Hr. unfold data, enc_response. split_and!.
  - rewrite !length_app, !length_u16. lia.
  - by apply (get16_u16 []).
  - rewrite <- !app_assoc. by eapply (get16_at _ (u16 txn) flags).
  - rewrite <- !app_assoc. erewrite (get16_at _ (u16 txn ++ u16 flags) (Z.of_nat (length qs)));
      [apply Nat2Z.id|reflexivity|done|lia].
  - rewrite <- !app_assoc.
    erewrite (get16_at _ (u16 txn ++ u16 flags ++ u16 (Z.of_nat (length qs))) (Z.of_nat (length rs)));
      [apply Nat2Z.id|reflexivity|done|lia].
Qed.

(** C9. The parser decodes responses: for every encoded response with matching
    transaction id, TC clear and response code 0, whatever its names (labels or
    compression pointers), other sections and trailing bytes, it returns exactly the
    A and AAAA addresses of the answer records, in order. *)
Theorem dns_parse_roundtrip txn flags ns ar qs rs tail :
  0 <= txn < 65536 -> 0 <= flags < 65536 -> Z.land flags 512 = 0 -> Z.land flags 15 = 0 ->
  Z.of_nat (length qs) < 65536 -> Z.of_nat (length rs) < 65536 ->
  Forall question_ok qs -> Forall rr_ok rs ->
  parse_dns_answer (enc_response txn flags ns ar qs rs tail) txn = Ret (flat_map rr_addrs rs).
Proof.
  intros Ht Hf Htc Hrc Hq Hr Hqs Hrs.
  destruct (enc_response_header txn flags ns ar qs rs tail Ht Hf Hq Hr) as (Hlen & E0 & E2 & E4 & E6).
  unfold parse_dns_answer. destruct (Nat.ltb_spec (length (enc_response txn flags ns ar qs rs tail)) 12); [lia|].
  rewrite E0, E2, Htc, Hrc, E4, E6, Z.eqb_refl. cbn [negb Z.eqb].
  unfold enc_response. set (hdr := u16 txn ++ _).
  pose proof (skip_questions_wire qs hdr (flat_map enc_rr rs ++ tail) Hqs) as Hsk.
  change (length hdr) with 12%nat in Hsk. rewrite Hsk.
  pose proof (read_answers_wire rs (hdr ++ flat_map enc_question qs) tail [] Hrs) as Hra.
  rewrite length_app, <- !app_assoc in Hra. exact Hra.
Qed.

(** The parser is total on every packet: whatever bytes arrive, the name loop
    ends within the packet length, every offset it returns has moved forward and is
    at most one past the end, and the parse is a list of addresses or an [OSError]. *)
Theorem dns_parse_total data txn :
  ((exists l, parse_dns_answer data txn = Ret l) \/ (exists m, parse_dns_answer data txn = Exc (OSError m))) /\
  forall off, match skip_name data off with
              | Ret off' => (off < off' <= S (length data))%nat
              | Exc e => e = OSError "DNS name overruns packet"
              end.
Proof.
  split; [|apply skip_name_total].
  assert (forall off, (exists n, skip_name data off = Ret n) \/ exists m, skip_name data off = Exc (OSError m)) as Hs.
  { intros off. pose proof (skip_name_total data off) as H. destruct (skip_name data off); subst; eauto. }
  assert (forall qd off, (exists n, skip_questions qd data off = Ret n) \/
    exists m, skip_questions qd data off = Exc (OSError m)) as Hq.
  { induction qd as [|qd IH]; intros off; simpl; [eauto|]. destruct (Hs off) as [[n ->]|[m ->]]; eauto. }
  assert (forall an off acc, (exists l, read_answers an data off acc = Ret l) \/
    exists m, read_answers an data off acc = Exc (OSError m)) as Hr.
  { induction an as [|an IH]; intros off acc; simpl; [eauto|].
    destruct (Hs off) as [[n ->]|[m ->]]; [|eauto]. destruct (_ <? _)%nat; eauto. }
  unfold parse_dns_answer, rcode_error. cbv zeta.
  repeat (match goal with |- context [if ?b then _ else _] => destruct b end; eauto).
  destruct (Hq (Z.to_nat (get16 data 4)) 12%nat) as [[n ->]|[m ->]]; eauto.
Qed.

(** Queries are well formed: a built query carries the transaction id, asks
    one question and one OPT record, its name skips to exactly the query type and
    class, and 11 bytes of OPT record follow; labels over 63 bytes are refused. *)
Theorem dns_query_wellformed idna txn h qtype t q name :
  0 <= txn < 65536 -> 0 <= qtype < 65536 -> encode_query_name idna h = Ret name ->
  (build_query idna txn h qtype = Ret (t, q) ->
     t = txn /\ get16 q 0 = txn /\ get16 q 4 = 1 /\ get16 q 10 = 1 /\
     exists off, skip_name q 12 = Ret off /\ get16 q off = qtype /\ get16 q (off + 2) = 1 /\
       length q = (off + 15)%nat) /\
  ((exists l, l ∈ split_dot name /\ (63 < length l)%nat) ->
     build_query idna txn h qtype = Exc (OSError "DNS label too long")).
Proof.
  intros Ht Hq Hn. split.
  - unfold build_query. rewrite Hn. destruct (encode_labels (split_dot name)) as [qn|] eqn:El; [|done].
    intros H. simplify_eq. apply encode_labels_wire in El as [-> Hok].
    set (n := WName _ None) in *. set (hdr := u16 t ++ u16 256 ++ u16 1 ++ u16 0 ++ u16 0 ++ u16 1).
    set (opt := [0] ++ u16 41 ++ u16 4096 ++ u32 0 ++ u16 0).
    assert (forall x, get16 (hdr ++ x) 0 = t) as H0.
    { intros x. unfold hdr. rewrite <- !app_assoc. by apply (get16_u16 []). }
    change (u16 t ++ u16 256 ++ u16 1 ++ u16 0 ++ u16 0 ++ u16 1 ++ ?x) with (hdr ++ x).
    split_and!; [done|apply H0|done|done|].
    exists (12 + length (enc_wname n))%nat. split_and!.
    + rewrite <- !app_assoc. by apply (skip_name_wire hdr n).
    + apply (get16_at _ (hdr ++ enc_wname n) qtype (u16 1 ++ opt)); [by rewrite <- !app_assoc|by rewrite length_app|done].
    + apply (get16_at _ (hdr ++ enc_wname n ++ u16 qtype) 1 opt); [by rewrite <- !app_assoc| |done].
      rewrite !length_app, length_u16. change (length hdr) with 12%nat. lia.
    + cbn [length app]. repeat (rewrite length_app; cbn [length app u16 u32]). lia.
  - intros (l & Hin & Hl). unfold build_query. rewrite Hn.
    assert (encode_labels (split_dot name) = Exc (OSError "DNS label too long")) as ->; [|done].
    induction (split_dot name) as [|x xs IH]; [by apply elem_of_nil in Hin|]. simpl.
    apply elem_of_cons in Hin as [->|Hin].
    + rewrite bool_decide_eq_false_2 by (by intros ->; simpl in Hl; lia).
      destruct (Z.ltb_spec 63 (Z.of_nat (length x))); [done|lia].
    + case_bool_decide; [auto|]. case_match; [done|]. by rewrite IH.
Qed.

(** ** Witnesses *)

(** Two answers for [a.b]: an A record named by a pointer and a CNAME. *)
Definition dns_demo_name : wname := WName [[97]; [98]] None.
Definition dns_demo_rrs : list rr :=
  [RR (WName [] (Some (192, 12))) 1 1 60 [10; 0; 0; 7]; RR dns_demo_name 5 1 60 [0]].

Lemma dns_demo_rrs_ok : Forall rr_ok dns_demo_rrs.
Proof. repeat constructor; simpl; lia. Qed.
Lemma dns_demo_q_ok : Forall question_ok [Question dns_demo_name (u16 1 ++ u16 1)].
Proof. repeat constructor; simpl; lia. Qed.

Lemma dns_parse_roundtrip_witness :
  parse_dns_answer (enc_response 4660 33152 0 1 [Question dns_demo_name (u16 1 ++ u16 1)] dns_demo_rrs [0; 41]) 4660
  = Ret [Ntoa [10; 0; 0; 7]].
Proof.
  apply (dns_parse_roundtrip 4660 33152 0 1 [Question dns_demo_name (u16 1 ++ u16 1)] dns_demo_rrs [0; 41]);
    [lia|lia|reflexivity|reflexivity|simpl; lia|simpl; lia|apply dns_demo_q_ok|apply dns_demo_rrs_ok].
Defined.

Lemma dns_query_wellformed_witness :
  let q := match build_query (λ _, Exc (OSError "no codec")) 4660 (HStr [97; 46; 98]) 28 with
           | Ret (_, q) => q | Exc _ => [] end in
  4660 = 4660 /\ get16 q 0 = 4660 /\ get16 q 4 = 1 /\ get16 q 10 = 1 /\
  exists off, skip_name q 12 = Ret off /\ get16 q off = 28 /\ get16 q (off + 2) = 1 /\ length q = (off + 15)%nat.
Proof.
  intros q. apply (dns_query_wellformed (λ _, Exc (OSError "no codec")) 4660 (HStr [97; 46; 98]) 28 4660 q [97; 46; 98]);
    [lia|lia|reflexivity|reflexivity].
Defined.
