(* ===== verification/CoEvent.v ===== *)
(** * CoEvent: the cooperative [threading.Event]

    Models [class CoEvent] of [src/src/stackweave/monkey/events.py].  A waiter's
    in-memory parker is identified with its thread, which waits on one parker at a
    time.  Reads of [_flag] outside the guard are blocks of their own. *)
From S2P Require Import Prelude Fibers.
Local Open Scope Z_scope.

Record coevent := CoEvent { ev_flag : bool; ev_waiters : list tid }.
Definition ev_new : coevent := CoEvent false [].

Inductive ev_op := EvIsSet | EvSet | EvClear | EvForkReinit | EvWait (timeout : option Z).
Inductive ev_pc :=
  | EvStart
  | EvForeign (t0 : Z)          (** the spin of a thread with no fiber *)
  | EvForeignLate (t0 : Z)
  | EvReg                       (** re-check the flag and queue the parker *)
  | EvLoop (dl : option Z)      (** [while not self._flag] *)
  | EvWoken (dl : option Z)     (** after a park *)
  | EvRereg (dl : option Z)     (** queue the parker again *)
  | EvFinish                    (** take the parker off the queue *)
  | EvRet.                      (** [return self._flag] *)
Inductive ev_ret := EvBool (b : bool) | EvNone.

Abbreviation ev_act := (action ev_pc ev_ret).

Definition ev_push (t : tid) (s : coevent) : coevent := CoEvent (ev_flag s) (ev_waiters s ++ [t]).

Definition ev_set (s : coevent) : coevent * ev_act :=
  if ev_flag s then (s, AReturn (Ret EvNone))
  else (CoEvent true [], AWake (ev_waiters s) (Ret EvNone)).

Definition ev_clear (s : coevent) : coevent * ev_act := (CoEvent false (ev_waiters s), AReturn (Ret EvNone)).

(** [_at_fork_reinit()]: the flag survives a fork, the waiters do not. *)
Definition ev_at_fork_reinit (s : coevent) : coevent * ev_act := (CoEvent (ev_flag s) [], AReturn (Ret EvNone)).

(** [wait(timeout)] block by block. *)
Definition ev_wait (t : tid) (fib : bool) (now : Z) (timeout : option Z) (p : ev_pc) (s : coevent)
  : coevent * ev_act :=
  match p with
  | EvStart =>
      if ev_flag s then (s, AReturn (Ret (EvBool true)))
      else if negb fib then (s, AGoto (EvForeign now)) else (s, AGoto EvReg)
  | EvForeign t0 =>
      if ev_flag s then (s, AReturn (Ret (EvBool true))) else (s, ASleep (now + 1000) (EvForeignLate t0))
  | EvForeignLate t0 =>
      if due ((λ d, t0 + d) <$> timeout) now then (s, AReturn (Ret (EvBool (ev_flag s))))
      else (s, AGoto (EvForeign t0))
  | EvReg =>
      if ev_flag s then (s, AReturn (Ret (EvBool true)))
      else (ev_push t s, AGoto (EvLoop ((λ d, now + d) <$> timeout)))
  | EvLoop dl =>
      if ev_flag s || due dl now then (s, AGoto EvFinish) else (s, APark dl (EvWoken dl))
  | EvWoken dl => (s, AGoto (if ev_flag s then EvLoop dl else EvRereg dl))
  | EvRereg dl =>
      (if ev_flag s || bool_decide (t ∈ ev_waiters s) then s else ev_push t s, AGoto (EvLoop dl))
  | EvFinish => (CoEvent (ev_flag s) (try_remove t (ev_waiters s)), AGoto EvRet)
  | EvRet => (s, AReturn (Ret (EvBool (ev_flag s))))
  end.

Definition ev_block (t : tid) (fib : bool) (now : Z) (o : ev_op) (p : ev_pc) (s : coevent) : coevent * ev_act :=
  match o with
  | EvIsSet => (s, AReturn (Ret (EvBool (ev_flag s))))
  | EvSet => ev_set s
  | EvClear => ev_clear s
  | EvForkReinit => ev_at_fork_reinit s
  | EvWait timeout => ev_wait t fib now timeout p s
  end.

Definition ev_machine : machine coevent ev_op ev_pc ev_ret := Machine (λ _, EvStart) ev_block.

Abbreviation ev_ctl := (ctl ev_op ev_pc ev_ret).
Abbreviation ev_world := (world coevent ev_op ev_pc ev_ret).

(** Callers that only set the event (as [Thread._started] is used). *)
Definition ev_oneshot (t : tid) (c : ev_ctl) (o : ev_op) : bool :=
  match o with EvClear | EvForkReinit => false | _ => true end.

(** ** Invariant *)

Definition ev_ok (s : coevent) : Prop := ev_flag s = true -> ev_waiters s = [].

Definition ev_waiting (c : ev_ctl) : bool :=
  match c with
  | At (EvWait _) (EvLoop _ | EvWoken _ | EvRereg _) | Parked (EvWait _) _ (EvWoken _) => true
  | _ => false
  end.

Definition ev_calls (c : ev_ctl) : bool :=
  match c with At (EvClear | EvForkReinit) _ => false | _ => true end.

Definition ev_local (s : coevent) (t : tid) (c : ev_ctl) : Prop :=
  ev_calls c = true /\
  (ev_waiting c = true -> ev_flag s = true \/ t ∈ ev_waiters s) /\
  match c with
  | At (EvWait None) (EvFinish | EvRet) => ev_flag s = true
  | At (EvWait None) (EvLoop dl | EvWoken dl | EvRereg dl) => dl = None
  | Parked o dl p => (exists to, o = EvWait to /\ (to = None -> dl = None)) /\ p = EvWoken dl
  | Sleeping o _ p => (exists to, o = EvWait to) /\ exists t0, p = EvForeignLate t0
  | Waking o _ r => o = EvSet
  | Fin (EvWait None) r => r = Ret (EvBool true)
  | _ => True
  end.

Definition ev_ready (s : coevent) (t : tid) (c : ev_ctl) : bool :=
  match c with Parked (EvWait _) _ (EvWoken _) => ev_flag s | _ => false end.

#[export] Instance ev_quiet : quiet_moves ev_machine ev_oneshot ev_ok ev_local (λ _, 0).
Proof.
  split; simpl; try done.
  - intros s t c o Hr Hm _ _. split; [|done]. by destruct o as [| | | |[]].
  - intros s t o dl p (_ & H1 & (to & -> & Hd) & ->). split; [|done]. split_and!; [done..|].
    destruct to; auto.
  - intros s t o u p (_ & H1 & [to ->] & [t0 ->]). split; [|done]. by destruct to.
  - intros s t o r (_ & _ & ->). done.
Qed.

(** How a block of a caller that does not clear changes the event. *)
Inductive ev_change (t : tid) (s s' : coevent) (a : ev_act) : Prop :=
  | ev_ch_set : ev_flag s = false -> ev_flag s' = true -> ev_waiters s' = [] ->
      a = AWake (ev_waiters s) (Ret EvNone) -> ev_change t s s' a
  | ev_ch_keep : ev_flag s' = ev_flag s ->
      (forall t', t' ≠ t -> t' ∈ ev_waiters s' <-> t' ∈ ev_waiters s) -> ev_change t s s' a.

Lemma elem_of_snoc_ne (t t' : tid) l : t' ≠ t -> t' ∈ l ++ [t] <-> t' ∈ l.
Proof. intros H. rewrite elem_of_app, list_elem_of_singleton. naive_solver. Qed.

Lemma ev_block_change t fib now o p s s' a : ev_calls (At o p) = true ->
  ev_block t fib now o p s = (s', a) -> ev_change t s s' a.
Proof.
  intros Ho H. destruct o as [| | | |to]; try done; simpl in H.
  - simplify_eq. by apply ev_ch_keep.
  - unfold ev_set in H. destruct (ev_flag s) eqn:E; simplify_eq; [by apply ev_ch_keep|by apply ev_ch_set].
  - destruct p; simpl in H; cases_in H; simplify_eq; apply ev_ch_keep; simpl; try done;
      intros t' Ht; try (by apply elem_of_snoc_ne); by apply elem_of_try_remove_ne.
Qed.

Lemma ev_change_local t s s' a t' c :
  ev_change t s s' a -> t' ≠ t -> ev_local s t' c -> ev_local s' t' c.
Proof.
  intros [Hf Hf' Hw Ha|Hf Hw] Hne (H0 & H1 & H2); (split_and!; [done|..]).
  - by left.
  - destruct c as [|[| | | |[]] []| | | |[| | | |[]]]; try done; simpl in *; congruence.
  - intros Hc. rewrite Hf, (Hw t' Hne). auto.
  - destruct c as [|[| | | |[]] []| | | |[| | | |[]]]; try done; simpl in *; congruence.
Qed.

Lemma ev_block_local t fib now o p s s' a : ev_ok s -> ev_local s t (At o p) ->
  ev_block t fib now o p s = (s', a) -> ev_ok s' /\ ev_local s' t (act_ctl o a).
Proof.
  intros Hok (Ho & H1 & H2) H. unfold ev_ok, ev_local in *.
  destruct o as [| | | |to]; try done; simpl in H.
  - simplify_eq. split_and!; try done.
  - unfold ev_set in H. cases_in H; simplify_eq; simpl; split_and!; try done; auto.
  - assert (forall l, t ∈ l ++ [t]) as Hsn
      by (intros l; apply elem_of_app; right; by apply list_elem_of_singleton).
    destruct p; simpl in H, H1, H2; cases_in H; simplify_eq; simpl; split_and!; try done;
      try congruence; try (by destruct to); try (by auto).
    + by eexists.
    + by eexists.
    + destruct to; [done|]. subst dl. simpl in E. by rewrite orb_false_r in E.
    + exists to. split; [done|]. by intros ->.
    + intros _. right. by destruct H1.
    + intros Hf. by rewrite Hf in E.
    + intros Hf. by rewrite Hok.
    + destruct to; [done|]. by rewrite H2.
Qed.

Lemma ev_blocks isf : blocks_ok ev_machine isf ev_ok ev_local (λ _, 0) (λ _, 0).
Proof.
  intros t now o p s s' a Hok Hl Hb. simpl in Hb.
  destruct (ev_block_local _ _ _ _ _ _ _ _ Hok Hl Hb). split_and!; try done.
  intros t' c Hne. eapply ev_change_local; [|done]. eapply ev_block_change; [apply Hl|done].
Qed.

#[export] Instance ev_wakes isf : wakes_ok ev_machine isf ev_ok ev_local ev_ready.
Proof.
  split; simpl; try done.
  - intros t now o p s s' a Hok (Ho & _) Hb Hr. destruct o as [| | | |to]; try done; simpl in Hb.
    + by simplify_eq.
    + unfold ev_set in Hb. cases_in Hb; by simplify_eq.
    + destruct p; simpl in Hb; cases_in Hb; simplify_eq; simpl in *; try done. by rewrite Hr in E.
  - intros t now o p s s' a t' c' Hok (Ho & _) Hb Hne (_ & H1 & _) Hf Hr. simpl in Hb.
    apply ev_block_change in Hb as [Hv Hv' Hw ->|Hv Hw]; [| |done].
    + eexists _, _. split; [done|].
      destruct c' as [| |[] ? []| | |]; try done. destruct H1; [done|congruence|done].
    + destruct c' as [| |[] ? []| | |]; try done; simpl in *; congruence.
Qed.

Lemma ev_oneshot_inv isf w : reach ev_machine isf ev_oneshot ev_new w ->
  og_inv ev_ok ev_local (λ _, 0) (λ _, 0) w /\ woken_inv ev_ready w.
Proof.
  apply (inv_reach _ isf ev_oneshot _ _ _ _ _ ev_new); try done; [apply ev_blocks|apply ev_wakes].
Qed.

(** One-shot events work: when nobody clears the event, once no thread can
    step a fiber still parked in [wait()] is queued on an unset event and has not
    passed its deadline; and a [wait()] without a timeout returns only [True]. *)
Theorem event_oneshot_correct isf w t :
  reach ev_machine isf ev_oneshot ev_new w ->
  (forall o dl p, quiescent ev_machine isf ev_oneshot w -> ctl_of w t = Parked o dl p ->
     ev_flag (w_obj w) = false /\ t ∈ ev_waiters (w_obj w) /\ due dl (w_now w) = false) /\
  (forall r, ctl_of w t = Fin (EvWait None) r -> r = Ret (EvBool true)).
Proof.
  intros Hr. destruct (ev_oneshot_inv isf w Hr) as [(_ & HL & _) Hw]. pose proof (HL t) as Hl. split.
  - intros o dl p Hq Hp. destruct (quiescent_not_ready _ _ _ _ w t o dl p Hw Hq Hp) as [Hf Hd].
    rewrite Hp in Hl. destruct Hl as (_ & H1 & (to & -> & _) & ->). simpl in Hf.
    split_and!; [done| |done]. destruct H1; [done|congruence|done].
  - intros r Hc. rewrite Hc in Hl. by destruct Hl as (_ & _ & ?).
Qed.

(** A [set(); clear()] pulse can strand a waiter: the pulse's [set()] takes the
    fiber off the queue; it wakes, sees the flag set and so does not queue again;
    [clear()] runs before the loop condition is evaluated, so it parks while no
    longer queued, and a later [set()] leaves it parked on a set event. *)
Theorem event_pulse_strands_waiter :
  let w := after ev_machine (λ _, true) any_call ev_new
    [ECall 1 (EvWait None); EStep 1; EStep 1; EStep 1;
     ECall 2 EvSet; EStep 2; EStep 2; EStep 2; EStep 1; EStep 1;
     ECall 2 EvClear; EStep 2; EStep 1; ECall 2 EvSet; EStep 2; EStep 2] in
  reach ev_machine (λ _, true) any_call ev_new w /\ quiescent ev_machine (λ _, true) any_call w /\
  ctl_of w 1%nat = Parked (EvWait None) None (EvWoken None) /\ ev_flag (w_obj w) = true.
Proof.
  intros w. split_and!; [apply after_reach|apply quiescentb_sound|..]; vm_compute; reflexivity.
Qed.

(** An untimed [wait()] can return [False]: the loop ends on a set flag, and a
    [clear()] before the final read of the flag makes the call report [False]. *)
Theorem event_untimed_wait_false :
  let w := after ev_machine (λ _, true) any_call ev_new
    [ECall 1 (EvWait None); EStep 1; EStep 1; EStep 1;
     ECall 2 EvSet; EStep 2; EStep 2; EStep 2; EStep 1; EStep 1; EStep 1;
     ECall 2 EvClear; EStep 2; EStep 1; EStep 1] in
  reach ev_machine (λ _, true) any_call ev_new w /\
  ctl_of w 1%nat = Fin (EvWait None) (Ret (EvBool false)).
Proof. intros w. split; [apply after_reach|vm_compute; reflexivity]. Qed.

(** ** Witness *)

Definition ev_demo_world : ev_world := after ev_machine (λ _, true) ev_oneshot ev_new
  [ECall 1 (EvWait (Some 9)); EStep 1; EStep 1; EStep 1].

Lemma event_oneshot_correct_witness :
  quiescentb ev_machine (λ _, true) ev_oneshot ev_demo_world = true /\
  ctl_of ev_demo_world 1%nat = Parked (EvWait (Some 9)) (Some 9) (EvWoken (Some 9)) /\
  (forall o dl p, quiescent ev_machine (λ _, true) ev_oneshot ev_demo_world ->
     ctl_of ev_demo_world 1%nat = Parked o dl p ->
     ev_flag (w_obj ev_demo_world) = false /\ 1%nat ∈ ev_waiters (w_obj ev_demo_world) /\
     due dl (w_now ev_demo_world) = false).
Proof.
  split; [vm_compute; reflexivity|]. split; [vm_compute; reflexivity|].
  apply (event_oneshot_correct (λ _, true) ev_demo_world 1), after_reach.
Defined.

