(* ===== verification/CoSemaphore.v ===== *)
(** * CoSemaphore and CoBoundedSemaphore: the cooperative [threading.Semaphore]

    Models [class CoSemaphore] and [class CoBoundedSemaphore] of
    [src/src/stackweave/monkey/events.py].  A waiter queues one record
    [[parker, active, got_permit]] and parks until [release] hands it a permit, it
    times out (and deactivates the record) or [cancel_all] runs.  The theorems
    hold for callers that may make any call at any time: a ledger beside the object
    counts the acquires that returned True and the permits of the releases that
    returned. *)
From S2P Require Import Prelude Fibers WaitQ.
Local Open Scope Z_scope.

Record cosem := CoSem {
  cs_value : Z;
  cs_waiters : waitq;
  cs_cancelled : bool;
  cs_initial : option Z     (** the bound of a [CoBoundedSemaphore] *)
}.

(** [CoSemaphore(value)] and, with [bounded], [CoBoundedSemaphore(value)]. *)
Definition cs_new (bounded : bool) (value : Z) : out cosem :=
  if value <? 0 then Exc (ValueError "semaphore initial value must be >= 0")
  else Ret (CoSem value wq_empty false (if bounded then Some value else None)).

Inductive cs_op := CsAcquire (blocking : bool) (timeout : option Z) | CsRelease (n : nat) | CsCancelAll.
Inductive cs_pc :=
  | CsStart
  | CsForeign (t0 : Z)
  | CsReg                              (** the parker is built: check again, queue *)
  | CsLoop (r : nat) (dl : option Z)   (** [while not w[2]] *)
  | CsExpire (r : nat)
  | CsRel (k : nat) (woke : list tid)  (** [k] permits left to release *)
  | CsCancel.
Inductive cs_ret := CsBool (b : bool) | CsNone.

Abbreviation cs_act := (action cs_pc cs_ret).

Definition cs_true : cs_act := AReturn (Ret (CsBool true)).
Definition cs_false : cs_act := AReturn (Ret (CsBool false)).

Definition cs_set_value (v : Z) (s : cosem) : cosem := CoSem v (cs_waiters s) (cs_cancelled s) (cs_initial s).
Definition cs_set_wq (w : waitq) (s : cosem) : cosem := CoSem (cs_value s) w (cs_cancelled s) (cs_initial s).

(** [acquire(blocking, timeout)] block by block. *)
Definition cs_acquire (t : tid) (fib : bool) (now : Z) (blocking : bool) (timeout : option Z)
  (p : cs_pc) (s : cosem) : cosem * cs_act :=
  match p with
  | CsStart =>
      if 0 <? cs_value s then (cs_set_value (cs_value s - 1) s, cs_true)
      else if negb blocking then (s, cs_false)
      else if cs_cancelled s then (s, cs_false)
      else if negb fib then (s, AGoto (CsForeign now)) else (s, AGoto CsReg)
  | CsForeign t0 =>
      if 0 <? cs_value s then (cs_set_value (cs_value s - 1) s, cs_true)
      else if due ((λ d, t0 + d) <$> timeout) now then (s, cs_false)
      else (s, ASleep (now + 100) (CsForeign t0))
  | CsReg =>
      if 0 <? cs_value s then (cs_set_value (cs_value s - 1) s, cs_true)
      else if cs_cancelled s then (s, cs_false)
      else (cs_set_wq (wq_push t 1 (cs_waiters s)) s,
            AGoto (CsLoop (wq_next (cs_waiters s)) ((λ d, now + d) <$> timeout)))
  | CsLoop r dl =>
      if wq_granted r (cs_waiters s) then (cs_set_wq (wq_drop r (cs_waiters s)) s, cs_true)
      else if cs_cancelled s then (s, cs_false)
      else if due dl now then (s, AGoto (CsExpire r))
      else (s, APark dl (CsLoop r dl))
  | CsExpire r =>
      if wq_granted r (cs_waiters s) then (cs_set_wq (wq_drop r (cs_waiters s)) s, cs_true)
      else (cs_set_wq (wq_deactivate r (cs_waiters s)) s, cs_false)
  | CsRel _ _ | CsCancel => (s, AReturn (Ret CsNone))
  end.

(** One permit: to the first active waiter, or back to the counter. *)
Definition cs_release_one (s : cosem) : cosem * list tid :=
  match wq_handoff (wq_q (cs_waiters s)) (cs_waiters s) with
  | (q, Some g) => (cs_set_wq q s, [g])
  | (q, None) => (CoSem (cs_value s + 1) q (cs_cancelled s) (cs_initial s), [])
  end.

(** The [for] loop of a release under one hold of the guard. *)
Fixpoint cs_release_n (n : nat) (s : cosem) (woke : list tid) : cosem * list tid :=
  match n with
  | O => (s, woke)
  | S n' => let '(s', l) := cs_release_one s in cs_release_n n' s' (woke ++ l)
  end.

(** [release(n)]: the base class takes the guard once per permit, the bounded
    class checks the bound and releases all under one hold; the wakes come last. *)
Definition cs_release (n : nat) (p : cs_pc) (s : cosem) : cosem * cs_act :=
  match cs_initial s with
  | Some b =>
      if b <? cs_value s + Z.of_nat n then (s, AReturn (Exc (ValueError "Semaphore released too many times")))
      else let '(s', woke) := cs_release_n n s [] in (s', AWake woke (Ret CsNone))
  | None =>
      match p with
      | CsRel (S k) woke =>
          let '(s', l) := cs_release_one s in
          (s', if (k =? 0)%nat then AWake (woke ++ l) (Ret CsNone) else AGoto (CsRel k (woke ++ l)))
      | CsRel O woke => (s, AWake woke (Ret CsNone))
      | _ => (s, AReturn (Ret CsNone))
      end
  end.

(** [w[1] = False] for the active waiters of the snapshot, which are woken. *)
Definition cs_cancel_rec (acc : gmap nat cell * list tid) (r : nat) : gmap nat cell * list tid :=
  let '(h, woke) := acc in
  match h !! r with
  | Some c => if c_active c then (<[r := Cell (c_g c) (c_n c) false (c_granted c)]> h, woke ++ [c_g c]) else (h, woke)
  | None => (h, woke)
  end.

Definition cs_cancel_all (s : cosem) : cosem * cs_act :=
  let '(h, woke) := foldl cs_cancel_rec (wq_h (cs_waiters s), []) (wq_q (cs_waiters s)) in
  (CoSem (cs_value s) (WaitQ [] h (wq_next (cs_waiters s))) true (cs_initial s), AWake woke (Ret CsNone)).

Definition cs_entry (o : cs_op) : cs_pc :=
  match o with CsAcquire _ _ => CsStart | CsRelease n => CsRel n [] | CsCancelAll => CsCancel end.

Definition cs_block (t : tid) (fib : bool) (now : Z) (o : cs_op) (p : cs_pc) (s : cosem) : cosem * cs_act :=
  match o with
  | CsAcquire b to => cs_acquire t fib now b to p s
  | CsRelease n => cs_release n p s
  | CsCancelAll => cs_cancel_all s
  end.

Definition cosem_machine : machine cosem cs_op cs_pc cs_ret := Machine cs_entry cs_block.

Abbreviation cs_ctl := (ctl cs_op cs_pc cs_ret).
Abbreviation cs_world := (world cosem cs_op cs_pc cs_ret).

(** ** The ledger

    What the callers have seen: acquires that returned True, permits of the
    [release(n)] calls that got past their loop, and the waiters that a [release] in
    progress has handed a permit and not woken yet. *)
Record ledger := Ledger {
  k_sem : cosem;
  k_acquired : Z;
  k_released : Z;
  k_owed : gmap tid (list tid)
}.

Definition k_new (s : cosem) : ledger := Ledger s 0 0 ∅.

Definition act_acquired (a : cs_act) : Z :=
  match a with AReturn (Ret (CsBool true)) => 1 | _ => 0 end.
Definition act_released (o : cs_op) (a : cs_act) : Z :=
  match o, a with CsRelease n, AWake _ (Ret CsNone) => Z.of_nat n | _, _ => 0 end.

(** The waiters a caller at this point still has to wake. *)
Definition cs_woke (c : ctl cs_op cs_pc cs_ret) : list tid :=
  match c with At (CsRelease _) (CsRel _ woke) => woke | _ => [] end.

(** A block of the semaphore, with the ledger kept beside it. *)
Definition k_block (t : tid) (fib : bool) (now : Z) (o : cs_op) (p : cs_pc) (k : ledger) : ledger * cs_act :=
  let '(s', a) := cs_block t fib now o p (k_sem k) in
  (Ledger s' (k_acquired k + act_acquired a) (k_released k + act_released o a)
     (<[t := cs_woke (act_ctl o a)]> (k_owed k)), a).

Definition ledger_machine : machine ledger cs_op cs_pc cs_ret := Machine cs_entry k_block.
Abbreviation k_world := (world ledger cs_op cs_pc cs_ret).

(** The permits a [release(n)] in progress has already given back. *)
Definition cs_releasing (c : cs_ctl) : Z :=
  match c with At (CsRelease n) (CsRel k _) => Z.of_nat n - Z.of_nat k | _ => 0 end.

(** ** Invariant *)

Record cs_ok (s : cosem) : Prop := {
  cso_queue : wq_ok (.= 1) (cs_waiters s);
  cso_value : 0 <= cs_value s;
  cso_free : 0 < cs_value s -> wq_q (cs_waiters s) = [];
  cso_cancelled : cs_cancelled s = true -> wq_q (cs_waiters s) = []
}.

Definition cs_wait_rec (c : cs_ctl) : option nat :=
  match c with
  | At (CsAcquire _ _) (CsLoop r _ | CsExpire r) | Parked (CsAcquire _ _) _ (CsLoop r _) => Some r
  | _ => None
  end.

Definition cs_shape (ini : option Z) (c : cs_ctl) : Prop :=
  match c with
  | At (CsAcquire _ _) p => match p with CsRel _ _ | CsCancel => False | _ => True end
  | At (CsRelease n) p => exists k woke, p = CsRel k woke /\ (k <= n)%nat /\ (ini ≠ None -> k = n /\ woke = [])
  | Parked (CsAcquire _ _) dl (CsLoop _ dl') => dl = dl'
  | Parked _ _ _ => False
  | Sleeping (CsAcquire _ _) _ (CsForeign _) => True
  | Sleeping _ _ _ => False
  | _ => True
  end.

(** A record nobody will hand a permit to. *)
Definition wq_dead (w : waitq) (r : nat) : Prop := forall c, wq_h w !! r = Some c -> c_active c = false.

(** The record a thread waits on is queued or granted, unless [cancel_all] took it
    out of the queue: then it is never granted. *)
Definition cs_waits (s : cosem) (t : tid) (wr : option nat) : Prop :=
  wq_local wr 1 (cs_waiters s) t \/
  cs_cancelled s = true /\ wq_local None 1 (cs_waiters s) t /\
  forall r, wr = Some r -> wq_dead (cs_waiters s) r.

Definition cs_local (ini : option Z) (k : ledger) (t : tid) (c : cs_ctl) : Prop :=
  cs_waits (k_sem k) t (cs_wait_rec c) /\ cs_shape ini c /\ cs_initial (k_sem k) = ini /\
  default [] (k_owed k !! t) = cs_woke c.

Definition cs_bal (v : Z) (k : ledger) : Z :=
  cs_value (k_sem k) + wq_debt (cs_waiters (k_sem k)) + k_acquired k - v - k_released k.

(** What a step keeps for the waiters. *)
Definition cs_keeps (s s' : cosem) (t : tid) : Prop :=
  cs_initial s' = cs_initial s /\ forall wr, cs_waits s t wr -> cs_waits s' t wr.

Lemma cs_keeps_intro s s' t : cs_initial s' = cs_initial s ->
  wq_keeps (cs_waiters s) (cs_waiters s') t ->
  (cs_cancelled s = true -> cs_cancelled s' = true /\
     forall r, wq_dead (cs_waiters s) r -> wq_dead (cs_waiters s') r) ->
  cs_keeps s s' t.
Proof.
  intros Hi Hk Hc. split; [done|]. intros wr [Hl|(H1 & H2 & H3)]; [left; by eapply wq_local_keeps|].
  destruct (Hc H1) as [Hc' Hg]. right. split_and!; [done|by eapply wq_local_keeps|eauto].
Qed.

#[export] Instance cs_quiet ini : quiet_moves ledger_machine any_call (λ k, cs_ok (k_sem k)) (cs_local ini) cs_releasing.
Proof.
  split; simpl; [done|..].
  - intros k t c o Hr _ _ (H1 & _ & H3 & H4).
    assert (cs_wait_rec c = None) as Hw by by destruct c.
    assert (cs_woke c = []) as Hk by by destruct c.
    rewrite Hw in H1. rewrite Hk in H4. split.
    + split_and!; [by destruct o|destruct o; simpl; eauto 6|done|by destruct o].
    + replace (cs_releasing c) with 0 by by destruct c. destruct o; simpl; lia.
  - intros k t o dl p (H1 & H2 & H3). destruct o; [|done..]. by destruct p.
  - intros k t o u p (H1 & H2 & H3). destruct o; [|done..]. by destruct p.
  - intros k t o g l r (H1 & H2 & H3). done.
  - intros k t o r (H1 & H2 & H3). done.
Qed.

(** What a block by [t] from [c] to [c'] has to do to the semaphore; [dr] is what the
    ledger adds to the released permits. *)
Definition cs_step_ok (ini : option Z) (s s' : cosem) (t : tid) (c c' : cs_ctl) (da dr : Z) : Prop :=
  cs_ok s' /\ cs_waits s' t (cs_wait_rec c') /\ cs_shape ini c' /\
  cs_initial s' = ini /\ (forall t', t' ≠ t -> cs_keeps s s' t') /\
  cs_releasing c' - cs_releasing c =
    cs_value s' + wq_debt (cs_waiters s') + da - dr - cs_value s - wq_debt (cs_waiters s).

Lemma cs_stay ini s t c c' : cs_ok s -> cs_waits s t (cs_wait_rec c) -> cs_initial s = ini -> cs_shape ini c' ->
  cs_wait_rec c' = cs_wait_rec c -> cs_releasing c' = cs_releasing c -> cs_step_ok ini s s t c c' 0 0.
Proof.
  intros Hok Hw Hi Hsh He Ho. split_and!; try done; [by rewrite He|lia].
Qed.

(** A free permit is taken. *)
Lemma cs_fast ini s t c c' : cs_ok s -> cs_waits s t None -> cs_initial s = ini -> 0 < cs_value s -> cs_shape ini c' ->
  cs_wait_rec c' = None -> cs_releasing c = 0 -> cs_releasing c' = 0 ->
  cs_step_ok ini s (cs_set_value (cs_value s - 1) s) t c c' 1 0.
Proof.
  intros [Hq Hv Hf Hc] H1 Hi Hp Hsh Hw' Ho Ho'. split_and!; simpl; try done; [|by rewrite Hw'|lia].
  split; simpl; [done|lia|intros _; by apply Hf|done].
Qed.

(** A waiter queues. *)
Lemma cs_enqueue ini s t c c' : cs_ok s -> cs_waits s t None -> cs_initial s = ini -> cs_value s <= 0 ->
  cs_cancelled s = false -> cs_shape ini c' -> cs_wait_rec c' = Some (wq_next (cs_waiters s)) ->
  cs_releasing c = 0 -> cs_releasing c' = 0 ->
  cs_step_ok ini s (cs_set_wq (wq_push t 1 (cs_waiters s)) s) t c c' 0 0.
Proof.
  intros [Hq Hv Hf Hc] H1 Hi Hp Hcan Hsh Hw' Ho Ho'.
  destruct H1 as [H1|(? & _)]; [|congruence].
  destruct (wq_push_ok t 1 (cs_waiters s) Hq eq_refl) as (? & _ & _ & Hk & Hd).
  split_and!; simpl; try done; [| | |lia].
  - split; simpl; try done; [lia|congruence].
  - rewrite Hw'. left. by apply (wq_local_push (P := (.= 1))).
  - intros t' Ht. apply cs_keeps_intro; simpl; [done|by apply Hk|congruence].
Qed.

Lemma wq_dead_granted w r : wq_ok (.= 1) w -> wq_dead w r -> wq_granted r w = false.
Proof.
  intros Hq Hd. unfold wq_granted. destruct (wq_h w !! r) as [c|] eqn:E; [|done].
  destruct (c_granted c) eqn:Eg; [|done]. pose proof (wqo_granted _ _ Hq _ _ E Eg). pose proof (Hd _ E). congruence.
Qed.

(** A waiter leaves with the permit it was handed. *)
Lemma cs_take ini s t c c' r : cs_ok s -> cs_waits s t (Some r) -> cs_initial s = ini -> cs_shape ini c' ->
  cs_wait_rec c' = None -> cs_releasing c = 0 -> cs_releasing c' = 0 -> wq_granted r (cs_waiters s) = true ->
  cs_step_ok ini s (cs_set_wq (wq_drop r (cs_waiters s)) s) t c c' 1 0.
Proof.
  intros [Hq Hv Hf Hc] H1 Hi Hsh Hw' Ho Ho' Hg. destruct H1 as [H1|(_ & _ & H1)]; [|by rewrite (wq_dead_granted _ _ Hq (H1 r eq_refl)) in Hg].
  assert (wq_waits (cs_waiters s) t r) as Hwt by by apply H1.
  destruct (wq_take_ok t (cs_waiters s) r Hq Hwt Hg) as (Hok & Hm & Hk & Hd).
  pose proof Hwt as (c0 & Hc0 & _). pose proof (wqo_weight _ _ Hq _ _ Hc0) as Hn; simpl in Hn.
  rewrite Hc0 in Hd; simpl in Hd. split_and!; simpl; try done; [| |lia].
  - rewrite Hw'. left. by apply (wq_local_forget (cs_waiters s) _ t r 1).
  - intros t' Ht. apply cs_keeps_intro; simpl; [done|by apply Hk|]. intros ->. split; [done|].
    intros x Hx c2; simpl. intros [_ ?]%lookup_delete_Some. by apply Hx.
Qed.


(** Deactivating a dead record changes nothing. *)
Lemma wq_deactivate_dead r w : wq_dead w r -> wq_deactivate r w = w.
Proof.
  intros Ha. destruct w as [q h n]; unfold wq_deactivate, wq_dead in *; simpl in *. f_equal.
  apply map_eq. intros i. rewrite lookup_alter. case_decide as Hir; [subst i|done].
  destruct (h !! r) as [[g m a gr]|] eqn:E; simpl; [|done]. specialize (Ha _ eq_refl). simpl in Ha. by subst a.
Qed.

Lemma wq_dead_deactivate r x w : wq_dead w x -> wq_dead (wq_deactivate r w) x.
Proof.
  intros Hx c; simpl. rewrite lookup_alter. case_decide; [subst|by apply Hx].
  destruct (wq_h w !! x); simpl; [|done]. by intros [= <-].
Qed.

(** A waiter leaves past its deadline, or cancelled. *)
Lemma cs_expire ini s t c c' r : cs_ok s -> cs_waits s t (Some r) -> cs_initial s = ini -> cs_shape ini c' ->
  cs_wait_rec c' = None -> cs_releasing c = 0 -> cs_releasing c' = 0 -> wq_granted r (cs_waiters s) = false ->
  cs_step_ok ini s (cs_set_wq (wq_deactivate r (cs_waiters s)) s) t c c' 0 0.
Proof.
  intros [Hq Hv Hf Hc] [H1|(Hcan & H1 & H2)] Hi Hsh Hw' Ho Ho' Hg.
  - destruct (wq_deactivate_ok t (cs_waiters s) r Hq (proj1 H1 r eq_refl) Hg) as (Hok & Hm & Hk & Hd).
    split_and!; simpl; try done; [| |lia].
    + rewrite Hw'. left. by apply (wq_local_forget (cs_waiters s) _ t r 1).
    + intros t' Ht. apply cs_keeps_intro; simpl; [done|by apply Hk|]. intros ->. split; [done|].
      intros x. apply wq_dead_deactivate.
  - rewrite wq_deactivate_dead by by apply H2. replace (cs_set_wq (cs_waiters s) s) with s by by destruct s.
    split_and!; try done; [rewrite Hw'; by left|lia].
Qed.

(** A waiter that finds the semaphore cancelled leaves without a permit. *)
Lemma cs_give_up ini s t c c' r : cs_ok s -> cs_waits s t (Some r) -> cs_initial s = ini -> cs_shape ini c' ->
  cs_wait_rec c' = None -> cs_releasing c = 0 -> cs_releasing c' = 0 -> wq_granted r (cs_waiters s) = false ->
  cs_cancelled s = true -> cs_step_ok ini s s t c c' 0 0.
Proof.
  intros Hok H1 Hi Hsh Hw' Ho Ho' Hg Hcan. split_and!; try done; [|lia].
  rewrite Hw'. left. destruct H1 as [[H1 H2]|(_ & H1 & _)]; [|done].
  specialize (H1 r eq_refl). apply (wq_waits_not_granted _ _ _ H1) in Hg.
  rewrite (cso_cancelled _ Hok Hcan) in Hg. by apply elem_of_nil in Hg.
Qed.

Lemma cs_acquire_ok ini t fib now b to p s s' a : cs_ok s -> cs_waits s t (cs_wait_rec (At (CsAcquire b to) p)) ->
  cs_initial s = ini -> cs_shape ini (At (CsAcquire b to) p) ->
  cs_acquire t fib now b to p s = (s', a) ->
  cs_step_ok ini s s' t (At (CsAcquire b to) p) (act_ctl (CsAcquire b to) a) (act_acquired a) 0.
Proof.
  intros Hok Hl Hi Hsh H. destruct p as [|t0| |r dl|r|k w|]; simpl in H, Hsh; try done.
  - destruct (Z.ltb_spec 0 (cs_value s)); [simplify_eq; by apply cs_fast|].
    cases_in H; simplify_eq; by apply cs_stay.
  - destruct (Z.ltb_spec 0 (cs_value s)); [simplify_eq; by apply cs_fast|].
    cases_in H; simplify_eq; by apply cs_stay.
  - destruct (Z.ltb_spec 0 (cs_value s)); [simplify_eq; by apply cs_fast|].
    destruct (cs_cancelled s) eqn:Ec; simplify_eq; [by apply cs_stay|by apply cs_enqueue].
  - destruct (wq_granted r (cs_waiters s)) eqn:Eg; [simplify_eq; by apply cs_take|].
    destruct (cs_cancelled s) eqn:Ec; [simplify_eq; by eapply cs_give_up|].
    cases_in H; simplify_eq; by apply cs_stay.
  - destruct (wq_granted r (cs_waiters s)) eqn:Eg; simplify_eq; [by apply cs_take|by apply cs_expire].
Qed.

(** One released permit goes to one waiter, who is the one returned, or to the counter. *)
Lemma cs_release_one_ok s s' l : cs_ok s -> cs_release_one s = (s', l) ->
  cs_ok s' /\ (forall t, cs_keeps s s' t) /\
  cs_value s' + wq_debt (cs_waiters s') = cs_value s + wq_debt (cs_waiters s) + 1 /\
  cs_cancelled s' = cs_cancelled s /\ (forall t, wq_keeps (cs_waiters s) (cs_waiters s') t) /\
  (forall t r, wq_waits (cs_waiters s) t r -> wq_granted r (cs_waiters s) = false ->
     wq_granted r (cs_waiters s') = true -> t ∈ l).
Proof.
  intros [Hq Hv Hf Hc] H. unfold cs_release_one in H.
  destruct (wq_handoff (wq_q (cs_waiters s)) (cs_waiters s)) as [q og] eqn:Eh.
  destruct (wq_handoff_ok (P := (.= 1)) (cs_waiters s) q og Hq Eh) as (Hqok & Hk & Hres & Hw).
  assert (cs_cancelled s = true -> q = cs_waiters s /\ og = None) as Hcan.
  { intros Hcan. apply Hc in Hcan as He. rewrite He in Eh; simpl in Eh.
    destruct (cs_waiters s); simpl in *. by simplify_eq. }
  destruct og as [g|]; simplify_eq; simpl.
  - destruct Hres as (dead & r & c & q' & (Hq' & Hcr & _) & Hg & _ & Hd).
    pose proof (wqo_weight _ _ Hq _ _ Hcr) as Hn; simpl in Hn.
    split_and!; try done; [| |lia|].
    + split; simpl; try done; [|by intros [_ ?]%Hcan]. intros Hp. apply Hf in Hp. rewrite Hp in Hq'. by destruct dead.
    + intros t. apply cs_keeps_intro; simpl; [done|done|]. by intros [_ ?]%Hcan.
    + intros t x Hwt Hng Hgr. pose proof (Hw t x Hwt Hng Hgr). simplify_eq. by apply list_elem_of_singleton.
  - destruct Hres as [He Hd]. split_and!; try done; [| |lia|].
    + split; simpl; try done; lia.
    + intros t. apply cs_keeps_intro; simpl; [done|done|]. intros Hcn. by destruct (Hcan Hcn) as [-> _].
    + intros t x Hwt Hng Hgr. by pose proof (Hw t x Hwt Hng Hgr).
Qed.

Lemma cs_keeps_trans s1 s2 s3 t : cs_keeps s1 s2 t -> cs_keeps s2 s3 t -> cs_keeps s1 s3 t.
Proof. intros [? ?] [? ?]. split; [congruence|eauto]. Qed.

(** A waiter that is granted stays granted until it leaves, so it is on the list of
    whoever granted it. *)
Lemma cs_release_n_ok n s w s' l : cs_ok s -> cs_release_n n s w = (s', l) ->
  cs_ok s' /\ (forall t, cs_keeps s s' t) /\
  cs_value s' + wq_debt (cs_waiters s') = cs_value s + wq_debt (cs_waiters s) + Z.of_nat n /\
  cs_cancelled s' = cs_cancelled s /\ w ⊆ l /\
  (forall t r, wq_waits (cs_waiters s) t r -> wq_granted r (cs_waiters s) = false ->
     wq_granted r (cs_waiters s') = true -> t ∈ l).
Proof.
  revert s w. induction n as [|n IH]; intros s w Hok H; simpl in H.
  { simplify_eq. split_and!; try done; [lia|congruence]. }
  destruct (cs_release_one s) as [s1 l1] eqn:E1.
  destruct (cs_release_one_ok s s1 l1 Hok E1) as (Hok1 & Hk1 & Hd1 & Hc1 & Hq1 & Hw1).
  destruct (IH s1 (w ++ l1) Hok1 H) as (Hok2 & Hk2 & Hd2 & Hc2 & Hs2 & Hw2).
  split_and!; [done|intros t; by eapply cs_keeps_trans|lia|congruence|set_solver|].
  intros t r Hwt Hg Hg'. destruct (wq_granted r (cs_waiters s1)) eqn:Eg.
  - apply Hs2, elem_of_app. right. by eapply Hw1.
  - eapply Hw2; [|done|done]. by apply Hq1.
Qed.

(** One block of [release(n)]: it is past [n - k] permits. *)
Lemma cs_release_ok ini t n p s s' a : cs_ok s -> cs_waits s t None -> cs_initial s = ini ->
  cs_shape ini (At (CsRelease n) p) -> cs_release n p s = (s', a) ->
  cs_step_ok ini s s' t (At (CsRelease n) p) (act_ctl (CsRelease n) a) 0 (act_released (CsRelease n) a) /\
  act_acquired a = 0 /\ cs_cancelled s' = cs_cancelled s /\
  (forall t' r, wq_waits (cs_waiters s) t' r -> wq_granted r (cs_waiters s) = false ->
     wq_granted r (cs_waiters s') = true ->
     (exists l v, a = AWake l v /\ t' ∈ l) \/ t' ∈ cs_woke (act_ctl (CsRelease n) a)) /\
  (forall t', t' ∈ cs_woke (At (CsRelease n) p) ->
     (exists l v, a = AWake l v /\ t' ∈ l) \/ t' ∈ cs_woke (act_ctl (CsRelease n) a)).
Proof.
  intros Hok Hl Hi (k & woke & -> & Hk & Hb) H. unfold cs_release in H.
  destruct (cs_initial s) as [b|] eqn:Ei; subst ini.
  - destruct (Hb ltac:(done)) as [-> ->]. destruct (b <? _).
    { simplify_eq. split_and!; [by apply cs_stay; simpl; try done; lia|done|done|congruence|by intros t' ?%elem_of_nil]. }
    destruct (cs_release_n n s []) as [s1 l] eqn:E. simplify_eq.
    destruct (cs_release_n_ok _ _ _ _ _ Hok E) as (? & Hks & Hd & ? & _ & Hw). destruct (Hks t) as [Hi' Ht].
    split_and!; simpl; try done; [|intros t' r ? ? ?; left; eexists _, _; by split; [|by eapply Hw]|by intros t' ?%elem_of_nil].
    split_and!; simpl; try done; [by apply Ht|congruence|lia].
  - destruct k as [|k].
    { simplify_eq. simpl. split_and!; try done; [|congruence|intros t' ?; left; by eexists _, _].
      split_and!; simpl; try done; lia. }
    destruct (cs_release_one s) as [s1 l1] eqn:E1. injection H as <- <-.
    destruct (cs_release_one_ok s s1 l1 Hok E1) as (? & Hks & Hd & ? & _ & Hw). destruct (Hks t) as [Hi' Ht].
    destruct (Nat.eqb_spec k 0) as [->|Hne]; simpl.
    + split_and!; try done.
      * split_and!; simpl; try done; [by apply Ht|congruence|lia].
      * intros t' r ? ? ?. left. eexists _, _. split; [done|]. apply elem_of_app. right. by eapply Hw.
      * intros t' ?. left. eexists _, _. split; [done|]. apply elem_of_app. by left.
    + split_and!; try done.
      * split_and!; simpl; try done; [by apply Ht| |congruence|lia]. exists k, (woke ++ l1). split_and!; [done|lia|done].
      * intros t' r ? ? ?. right. apply elem_of_app. right. by eapply Hw.
      * intros t' ?. right. apply elem_of_app. by left.
Qed.

(** [cancel_all] deactivates the records of the queue and collects their owners. *)
Lemma cs_cancel_fold q h woke h' woke' : foldl cs_cancel_rec (h, woke) q = (h', woke') ->
  (forall r c', h' !! r = Some c' -> exists c, h !! r = Some c /\ c_g c' = c_g c /\ c_n c' = c_n c /\
     c_granted c' = c_granted c /\ (c_active c' = true -> c_active c = true /\ r ∉ q)) /\
  (forall r c, h !! r = Some c -> r ∉ q -> h' !! r = Some c) /\
  msum wq_handed h' = msum wq_handed h /\ woke ⊆ woke' /\
  (forall r c, r ∈ q -> h !! r = Some c -> c_active c = true -> c_g c ∈ woke').
Proof.
  revert h woke. induction q as [|x q IH]; intros h woke H; simpl in H.
  { simplify_eq. split_and!; try done; [|by intros r c ?%elem_of_nil].
    intros r c Hc. exists c. split_and!; try done. intros ?. split; [done|apply not_elem_of_nil]. }
  destruct (h !! x) as [c|] eqn:Ex.
  2:{ destruct (IH _ _ H) as (H1 & H2 & H3 & H4 & H5). split_and!; try done.
      - intros r c' Hc'. destruct (H1 r c' Hc') as (c & ? & ? & ? & ? & Ha). exists c. split_and!; try done.
        intros Ht. destruct (Ha Ht). split; [done|]. rewrite not_elem_of_cons. split; [congruence|done].
      - intros r c ? [? ?]%not_elem_of_cons. by apply H2.
      - intros r c [->|Hr]%elem_of_cons ? ?; [congruence|by eapply H5]. }
  destruct (c_active c) eqn:Ea.
  - destruct (IH _ _ H) as (H1 & H2 & H3 & H4 & H5). split_and!.
    + intros r c' Hc'. destruct (H1 r c' Hc') as (c1 & Hc1 & ? & ? & ? & Ha).
      apply lookup_insert_Some in Hc1 as [[<- <-]|[Hne Hc1]]; simpl in *.
      * exists c. split_and!; try done. intros Ht. by destruct (Ha Ht).
      * exists c1. split_and!; try done. intros Ht. destruct (Ha Ht). split; [done|]. by rewrite not_elem_of_cons.
    + intros r c1 Hc1 [? ?]%not_elem_of_cons. apply H2; [by rewrite lookup_insert_ne|done].
    + rewrite H3, (msum_insert _ _ _ _ (Cell 0 0 false false)) by done. rewrite Ex. simpl. unfold wq_handed; simpl. lia.
    + set_solver.
    + intros r c1 [->|Hr]%elem_of_cons Hc1 Ha1.
      * apply H4. simplify_eq. set_solver.
      * destruct (decide (r = x)) as [->|Hne]; [apply H4; simplify_eq; set_solver|].
        apply (H5 r c1); [done|by rewrite lookup_insert_ne|done].
  - destruct (IH _ _ H) as (H1 & H2 & H3 & H4 & H5). split_and!; try done.
    + intros r c' Hc'. destruct (H1 r c' Hc') as (c1 & Hc1 & ? & ? & ? & Ha). exists c1. split_and!; try done.
      intros Ht. destruct (Ha Ht). split; [done|]. rewrite not_elem_of_cons. split; [congruence|done].
    + intros r c1 ? [? ?]%not_elem_of_cons. by apply H2.
    + intros r c1 [->|Hr]%elem_of_cons ? ?; [congruence|by eapply H5].
Qed.

Lemma cs_cancel_all_ok ini t p s s' a : cs_ok s -> cs_waits s t None -> cs_initial s = ini ->
  cs_cancel_all s = (s', a) ->
  cs_step_ok ini s s' t (At CsCancelAll p) (act_ctl CsCancelAll a) 0 0 /\
  exists l, a = AWake l (Ret CsNone) /\ cs_cancelled s' = true /\
  (forall t' r, wq_waits (cs_waiters s) t' r -> wq_granted r (cs_waiters s) = false -> t' ∈ l) /\
  (forall r, wq_granted r (cs_waiters s') = true -> wq_granted r (cs_waiters s) = true).
Proof.
  intros [Hq Hv Hf Hc] Hl Hi H. unfold cs_cancel_all in H.
  destruct (foldl cs_cancel_rec _ _) as [h l] eqn:E.
  destruct (cs_cancel_fold _ _ _ _ _ E) as (H1 & H2 & H3 & _ & H5). injection H as <- <-. simpl.
  assert (wq_ok (.= 1) (WaitQ [] h (wq_next (cs_waiters s)))) as Hok'.
  { split; simpl; [apply NoDup_nil_2|by intros r ?%elem_of_nil|..].
    - intros r c' Hc' Hg. destruct (H1 r c' Hc') as (c & Hcr & _ & _ & Hgc & Ha). rewrite Hgc in Hg.
      assert (r ∉ wq_q (cs_waiters s)) as Hn by (intros (c2 & ? & ?)%(wqo_queued _ _ Hq); congruence).
      rewrite (H2 r c Hcr Hn) in Hc'. simplify_eq. by eapply (wqo_granted _ _ Hq).
    - intros r c' Hc'. destruct (H1 r c' Hc') as (c & Hcr & _). by eapply (wqo_fresh _ _ Hq).
    - intros r c' Hc'. destruct (H1 r c' Hc') as (c & Hcr & _ & -> & _). by eapply (wqo_weight _ _ Hq). }
  assert (forall t' wr, cs_waits s t' wr -> cs_waits (CoSem (cs_value s) (WaitQ [] h (wq_next (cs_waiters s))) true (cs_initial s)) t' wr) as Hkeep.
  { assert (forall t' n r, wq_mine (WaitQ [] h (wq_next (cs_waiters s))) t' n r ->
      wq_mine (cs_waiters s) t' n r /\ r ∉ wq_q (cs_waiters s)) as Hm.
    { intros t' n r (c' & Hc' & Hg & Ha & Hn). destruct (H1 r c' Hc') as (c & Hcr & Hgc & Hnc & _ & Hac).
      destruct (Hac Ha). split; [|done]. exists c. split_and!; congruence. }
    intros t' wr [[L1 L2]|(L1 & [_ L2] & L3)].
    - destruct wr as [r|]; [|left; split; [done|]; intros m r Hr; by apply L2, Hm].
      destruct (L1 r eq_refl) as (c & Hcr & Hg & Ha & Hiff). destruct (c_granted c) eqn:Eg.
      + left. assert (r ∉ wq_q (cs_waiters s)) as Hn by (intros ?%Hiff; done). split.
        * intros x [= <-]. exists c. simpl. split_and!; [by apply H2|done|done|]. rewrite Eg. split; [by intros ?%elem_of_nil|done].
        * intros m x Hx. by apply L2, Hm.
      + right. split_and!; [done| |].
        * split; [done|]. intros m x Hx. destruct (Hm _ _ _ Hx) as [Hx1 Hx2]. apply L2 in Hx1 as [[= <-] _]. destruct Hx2. by apply Hiff.
        * intros x [= <-] c' Hc'. simpl in Hc'. destruct (H1 r c' Hc') as (c2 & ? & _ & _ & _ & Hac).
          destruct (c_active c'); [|done]. destruct (Hac eq_refl) as [_ Hn]. destruct Hn. by apply Hiff.
    - right. split_and!; [done| |].
      + split; [done|]. intros m x Hx. by apply L2, Hm.
      + intros x Hx c' Hc'. simpl in Hc'. destruct (H1 x c' Hc') as (c2 & Hc2 & _ & _ & _ & Hac).
        specialize (L3 x Hx c2 Hc2). destruct (c_active c'); [|done]. destruct (Hac eq_refl). congruence. }
  split; [split_and!; simpl; try done|].
  - by apply Hkeep.
  - intros t' _. by split; [|apply Hkeep].
  - unfold wq_debt; simpl. rewrite H3. lia.
  - exists l. split_and!; try done.
    + intros t' r Hwt Hg. pose proof Hwt as (c & Hcr & Hgt & Ha & _).
      apply (wq_waits_not_granted _ _ _ Hwt) in Hg. rewrite <- Hgt. by eapply H5.
    + intros r. unfold wq_granted; simpl. destruct (h !! r) as [c'|] eqn:Er; [|done].
      destruct (H1 r c' Er) as (c & -> & _ & _ & -> & _). done.
Qed.

Lemma cs_block_ok ini t fib now o p s s' a : cs_ok s -> cs_waits s t (cs_wait_rec (At o p)) ->
  cs_initial s = ini -> cs_shape ini (At o p) -> cs_block t fib now o p s = (s', a) ->
  cs_step_ok ini s s' t (At o p) (act_ctl o a) (act_acquired a) (act_released o a).
Proof.
  intros Hok Hl Hi Hsh H. destruct o as [b to|n|]; simpl in H.
  - by eapply cs_acquire_ok.
  - destruct (cs_release_ok ini t n p s s' a) as (? & -> & _); done.
  - destruct (cs_cancel_all_ok ini t p s s' a) as (? & l & -> & _); done.
Qed.

Lemma cs_blocks v ini isf : blocks_ok ledger_machine isf (λ k, cs_ok (k_sem k)) (cs_local ini) cs_releasing (cs_bal v).
Proof.
  intros t now o p k k' a Hok (L1 & L2 & L3 & L4) Hb. simpl in Hb. unfold k_block in Hb.
  destruct (cs_block t (isf t) now o p (k_sem k)) as [s' a'] eqn:E. injection Hb as <- <-.
  destruct (cs_block_ok _ _ _ _ _ _ _ _ _ Hok L1 L3 L2 E) as (K1 & K2 & K3 & K4 & K5 & K6). split_and!.
  - done.
  - split_and!; try done. simpl. by rewrite lookup_insert_eq.
  - intros t' c Ht (M1 & M2 & M3 & M4). destruct (K5 t' Ht) as [N1 N2].
    split_and!; simpl; [by apply N2|done|congruence|by rewrite lookup_insert_ne].
  - unfold cs_bal. cbn [k_sem k_acquired k_released]. lia.
Qed.

(** A parked acquirer that has a permit, or was cancelled, and is on the list of no
    release in progress. *)
Definition cs_owed (k : ledger) (t : tid) : Prop := map_Exists (λ _ l, t ∈ l) (k_owed k).
Definition cs_ready (k : ledger) (t : tid) (c : cs_ctl) : bool :=
  match c with
  | Parked (CsAcquire _ _) _ (CsLoop r _) =>
      (wq_granted r (cs_waiters (k_sem k)) || cs_cancelled (k_sem k)) && bool_decide (~ cs_owed k t)
  | _ => false
  end.

(** An acquire neither hands out permits nor cancels. *)
Lemma cs_acquire_quiet t fib now b to p s s' a : cs_acquire t fib now b to p s = (s', a) ->
  cs_cancelled s' = cs_cancelled s /\ cs_woke (act_ctl (CsAcquire b to) a) = [] /\
  forall r, wq_granted r (cs_waiters s') = true -> wq_granted r (cs_waiters s) = true.
Proof.
  intros H. destruct p; simpl in H; cases_in H; simplify_eq; simpl; split_and!; try done; intros x;
    first [apply wq_push_granted|apply wq_drop_granted|apply wq_deactivate_granted].
Qed.

(** Whoever a block makes ready, or stops owing a wake, is woken or owed one. *)
Lemma cs_block_wakes ini t fib now o p s s' a t' r : cs_ok s -> cs_waits s t (cs_wait_rec (At o p)) ->
  cs_initial s = ini -> cs_shape ini (At o p) -> cs_block t fib now o p s = (s', a) ->
  (cs_waits s t' (Some r) -> wq_granted r (cs_waiters s) || cs_cancelled s = false ->
     wq_granted r (cs_waiters s') || cs_cancelled s' = true ->
     (exists l v, a = AWake l v /\ t' ∈ l) \/ t' ∈ cs_woke (act_ctl o a)) /\
  (t' ∈ cs_woke (At o p) -> (exists l v, a = AWake l v /\ t' ∈ l) \/ t' ∈ cs_woke (act_ctl o a)).
Proof.
  intros Hok Hl Hi Hsh H. split.
  - intros Hw [Hg Hc]%orb_false_iff Hgc. destruct Hw as [[Hw _]|(? & _)]; [|congruence]. specialize (Hw r eq_refl).
    destruct o as [b to|n|]; simpl in H.
    + apply cs_acquire_quiet in H as (Hc' & _ & Hg'). apply orb_true_iff in Hgc as [?%Hg'|?]; congruence.
    + destruct (cs_release_ok ini t n p s s' a) as (_ & _ & Hc' & Hwk & _); [done..|].
      apply orb_true_iff in Hgc as [?|?]; [by eapply Hwk|congruence].
    + destruct (cs_cancel_all_ok ini t p s s' a) as (_ & l & -> & _ & Hwk & _); [done..|]. left. eauto.
  - intros Hin. destruct o as [b to|n|]; simpl in H; [by apply elem_of_nil in Hin| |by apply elem_of_nil in Hin].
    destruct (cs_release_ok ini t n p s s' a) as (_ & _ & _ & _ & Hwk); [done..|]. by apply Hwk.
Qed.

#[export] Instance cs_wakes ini isf : wakes_ok ledger_machine isf (λ k, cs_ok (k_sem k)) (cs_local ini) cs_ready.
Proof.
  split; simpl; try done.
  - intros t now o p k k' a Hok (_ & L2 & _) Hb Hr. unfold k_block in Hb.
    destruct (cs_block t (isf t) now o p (k_sem k)) as [s' a'] eqn:E. injection Hb as <- <-.
    destruct a' as [| dl q| | |]; try done. destruct o as [b to|n|]; simpl in Hr; try done.
    simpl in E. destruct p; simpl in E; cases_in E; simplify_eq; simpl in Hr; try done.
    apply andb_true_iff in Hr as [Hr _]. apply orb_true_iff in Hr as [?|?]; congruence.
  - intros t now o p k k' a t' c' Hok (L1 & L2 & L3 & L4) Hb Hne (M1 & _) Hf Hr. unfold k_block in Hb.
    destruct (cs_block t (isf t) now o p (k_sem k)) as [s' a'] eqn:E. injection Hb as <- <-.
    destruct c' as [| |[] dl [| | |r dl'| | |]| | |]; try done. simpl in Hf, Hr, M1.
    destruct (cs_block_wakes ini _ _ _ _ _ _ _ _ t' r Hok L1 L3 L2 E) as [W1 W2].
    apply andb_true_iff in Hr as [Hr Hno%bool_decide_eq_true_1].
    assert (t' ∉ cs_woke (act_ctl o a')) as Hnew.
    { intros Hin. apply Hno. exists t, (cs_woke (act_ctl o a')). simpl. by rewrite lookup_insert_eq. }
    assert ((exists l v, a' = AWake l v /\ t' ∈ l) \/ t' ∈ cs_woke (act_ctl o a')) as [?|?]; [|done..].
    apply andb_false_iff in Hf as [Hf|Hf%bool_decide_eq_false_1]; [by apply W1|].
    apply dec_stable in Hf as (t2 & l2 & Hl2 & Hin). destruct (decide (t2 = t)) as [->|Hn2].
    + apply W2. rewrite Hl2 in L4. change (l2 = cs_woke (At o p)) in L4. by subst l2.
    + destruct Hno. exists t2, l2. simpl. by rewrite lookup_insert_ne.
Qed.

Lemma cs_inv isf bounded v s0 w : cs_new bounded v = Ret s0 ->
  reach ledger_machine isf any_call (k_new s0) w ->
  0 <= v /\ og_inv (λ k, cs_ok (k_sem k)) (cs_local (cs_initial s0)) cs_releasing (cs_bal v) w /\ woken_inv cs_ready w.
Proof.
  unfold cs_new. destruct (Z.ltb_spec v 0); intros Hn Hr; simplify_eq. split; [done|].
  eapply (inv_reach _ isf any_call _ _ _ _ _ (k_new (CoSem v wq_empty false _))); [..|exact Hr]; try done.
  - split; simpl; try done. apply wq_empty_ok.
  - intros t. split_and!; [left; apply wq_empty_local|done|done|done].
  - unfold cs_bal; simpl. unfold wq_debt; simpl. rewrite msum_empty. lia.
  - apply cs_blocks.
  - apply cs_wakes.
Qed.

Lemma cs_debt_nonneg s : cs_ok s -> 0 <= wq_debt (cs_waiters s).
Proof.
  intros [Hq _ _ _]. apply msum_nonneg. intros r c Hc. apply (wqo_weight _ _ Hq) in Hc.
  unfold wq_handed. destruct (c_granted c); lia.
Qed.

(** C10. Permits are conserved, whatever the callers do: in every interleaving of
    acquires (blocking or not, timed or not, by fibers and foreign threads),
    [release(n)] for any [n], [cancel_all()], timeouts and spurious wakes, the acquires
    that returned True, the permits handed to waiters that have not returned yet and
    the free permits add up to the initial value and the permits released so far (a
    release in progress counted for the permits it is past).  The free permits are
    never negative, and every permit handed over is that of an acquire in progress, so
    none is lost to a waiter that timed out or was cancelled. *)
Theorem cosemaphore_permits_conserved isf bounded v s0 w :
  cs_new bounded v = Ret s0 -> reach ledger_machine isf any_call (k_new s0) w ->
  let k := w_obj w in let s := k_sem k in
  k_acquired k + wq_debt (cs_waiters s) + cs_value s = v + k_released k + msum cs_releasing (w_ctl w) /\
  0 <= cs_value s /\ 0 <= wq_debt (cs_waiters s) /\
  k_acquired k <= v + k_released k + msum cs_releasing (w_ctl w) /\
  forall r c, wq_h (cs_waiters s) !! r = Some c -> c_granted c = true ->
    c_n c = 1 /\ cs_wait_rec (ctl_of w (c_g c)) = Some r.
Proof.
  intros Hn Hr k s. destruct (cs_inv isf bounded v s0 w Hn Hr) as (Hv & (Hok & HL & Hs) & _).
  pose proof (cs_debt_nonneg _ Hok). pose proof (cso_value _ Hok). unfold cs_bal in Hs.
  split_and!; try (subst k s; lia). intros r c Hc Hg.
  pose proof (wqo_weight _ _ (cso_queue _ Hok) _ _ Hc) as Hw. split; [done|].
  pose proof (wqo_granted _ _ (cso_queue _ Hok) _ _ Hc Hg) as Ha.
  assert (wq_mine (cs_waiters s) (c_g c) 1 r) as Hm by by exists c.
  destruct (HL (c_g c)) as ([[_ L]|(_ & [_ L] & _)] & _); by apply L in Hm as [? _].
Qed.

(** The bound never rejects an honest release: [release(n)] of a [CoBoundedSemaphore],
    for no more permits than the callers hold at that moment, does not raise
    [ValueError], however many waiters are queued, whether or not it was cancelled. *)
Theorem cosemaphore_bounded_release_ok isf v s0 w t n p :
  cs_new true v = Ret s0 -> reach ledger_machine isf any_call (k_new s0) w ->
  ctl_of w t = At (CsRelease n) p -> Z.of_nat n <= k_acquired (w_obj w) - k_released (w_obj w) ->
  exists s' woke, cs_release n p (k_sem (w_obj w)) = (s', AWake woke (Ret CsNone)).
Proof.
  intros Hn Hr Hc Hle. destruct (cs_inv isf true v s0 w Hn Hr) as (Hv & (Hok & HL & Hs) & _).
  unfold cs_new in Hn. destruct (Z.ltb_spec v 0); [done|]. simplify_eq. simpl in HL.
  assert (msum cs_releasing (w_ctl w) = 0) as H0.
  { apply msum_zero. intros x c Hx. pose proof (HL x) as (_ & Hsh & _). unfold ctl_of in Hsh. rewrite Hx in Hsh. simpl in Hsh.
    destruct c as [|[] q| | | |]; try done. simpl in Hsh. destruct Hsh as (k & woke & -> & _ & Hb).
    destruct (Hb ltac:(done)) as [-> _]. simpl. lia. }
  destruct (HL t) as (_ & _ & Hi & _). unfold cs_release. rewrite Hi.
  pose proof (cs_debt_nonneg _ Hok). unfold cs_bal in Hs.
  destruct (Z.ltb_spec v (cs_value (k_sem (w_obj w)) + Z.of_nat n)); [lia|].
  destruct (cs_release_n n (k_sem (w_obj w)) []) as [s' woke]. by exists s', woke.
Qed.

(** No stranded acquirer: once no thread can step, a fiber still parked in
    [acquire()] is queued, has not been handed a permit, has not passed its deadline,
    the semaphore is not cancelled and no permit is free. *)
Theorem cosemaphore_no_stranded_waiter isf bounded v s0 w t o dl p :
  cs_new bounded v = Ret s0 -> reach ledger_machine isf any_call (k_new s0) w ->
  quiescent ledger_machine isf any_call w -> ctl_of w t = Parked o dl p ->
  let s := k_sem (w_obj w) in
  cs_value s = 0 /\ cs_cancelled s = false /\ due dl (w_now w) = false /\
  exists r, p = CsLoop r dl /\ r ∈ wq_q (cs_waiters s).
Proof.
  intros Hn Hr Hq Hp s. destruct (cs_inv isf bounded v s0 w Hn Hr) as (_ & (Hok & HL & _) & Hw).
  destruct (quiescent_not_ready _ _ _ _ w t o dl p Hw Hq Hp) as [Hf Hd].
  assert (~ cs_owed (w_obj w) t) as Hno.
  { intros (x & l & Hl & Hin). destruct (HL x) as (_ & _ & _ & Hx). rewrite Hl in Hx. simpl in Hx. subst l.
    specialize (Hq x). simpl in Hq. destruct (ctl_of w x); simpl in *; try (by apply elem_of_nil in Hin). done. }
  pose proof (HL t) as Hl. rewrite Hp in Hl. destruct Hl as (H1 & Hsh & _).
  destruct o; [|done..]. destruct p as [| | |r dl'| | |]; try done. simpl in Hsh, Hf, H1. subst dl'.
  rewrite (bool_decide_eq_true_2 _ Hno), andb_true_r in Hf. apply orb_false_iff in Hf as [Hg Hcn].
  destruct H1 as [[H1 _]|(? & _)]; [|congruence].
  assert (r ∈ wq_q (cs_waiters s)) as Hin by (apply (wq_waits_not_granted _ t); [by apply H1|done]).
  split_and!; [|done..|by exists r].
  destruct Hok as [_ Hv Hfree _]. destruct (decide (cs_value s = 0)); [done|].
  subst s. rewrite Hfree in Hin by lia. by apply elem_of_nil in Hin.
Qed.

(** After [cancel_all()] no fiber parks: every block of an [acquire()] on a cancelled
    semaphore leaves it cancelled and does not end in a park. *)
Lemma cosemaphore_cancelled_never_parks t now b to p s s' a :
  cs_cancelled s = true -> cs_acquire t true now b to p s = (s', a) ->
  cs_cancelled s' = true /\ forall dl q, a ≠ APark dl q.
Proof.
  intros Hc H. destruct p; simpl in H; rewrite ?Hc in H; cases_in H; simplify_eq; done.
Qed.

(** ** Witnesses *)

(** One permit, held by fiber 1; fiber 2 waits; fiber 3 queues too and [cancel_all]
    sends both away; fiber 4 releases two permits nobody holds. *)
Definition cs_demo : list (event cs_op) :=
  [ECall 1 (CsAcquire true None); EStep 1; ECall 2 (CsAcquire true (Some 9)); EStep 2; EStep 2; EStep 2].
Definition cs_demo_cancel : list (event cs_op) :=
  cs_demo ++ [ECall 3 (CsAcquire true None); EStep 3; EStep 3; EStep 3; ECall 4 (CsRelease 2); EStep 4;
    ECall 5 CsCancelAll; EStep 5; EStep 5; EStep 4; ESpurious 3; EStep 3; EStep 4; EStep 4].
Definition cs_demo_init : cosem := CoSem 1 wq_empty false (Some 1).
Definition cs_demo_world (es : list (event cs_op)) (s : cosem) : k_world :=
  after ledger_machine (λ _, true) any_call (k_new s) es.

(** In the base class the first permit of a [release(2)] goes to fiber 2, [cancel_all]
    sends fiber 3 away and the second permit is free. *)
Definition cs_cancel_world : k_world := cs_demo_world cs_demo_cancel (CoSem 1 wq_empty false None).

Lemma cosemaphore_permits_conserved_witness :
  let k := w_obj cs_cancel_world in let s := k_sem k in
  (k_acquired k = 1 /\ k_released k = 2 /\ wq_debt (cs_waiters s) = 1 /\ cs_value s = 1 /\ cs_cancelled s = true) /\
  k_acquired k + wq_debt (cs_waiters s) + cs_value s = 1 + k_released k + msum cs_releasing (w_ctl cs_cancel_world) /\
  0 <= cs_value s /\ 0 <= wq_debt (cs_waiters s) /\
  k_acquired k <= 1 + k_released k + msum cs_releasing (w_ctl cs_cancel_world) /\
  forall r c, wq_h (cs_waiters s) !! r = Some c -> c_granted c = true ->
    c_n c = 1 /\ cs_wait_rec (ctl_of cs_cancel_world (c_g c)) = Some r.
Proof.
  intros k s. split; [vm_compute; done|].
  apply (cosemaphore_permits_conserved (λ _, true) false 1 (CoSem 1 wq_empty false None)); [reflexivity|apply after_reach].
Defined.

Lemma cosemaphore_bounded_release_ok_witness :
  let w := cs_demo_world (cs_demo ++ [ECall 1 (CsRelease 1)]) cs_demo_init in
  exists s' woke, cs_release 1 (CsRel 1 []) (k_sem (w_obj w)) = (s', AWake woke (Ret CsNone)).
Proof.
  intros w. apply (cosemaphore_bounded_release_ok (λ _, true) 1 cs_demo_init w 1);
    [reflexivity|apply after_reach|vm_compute; reflexivity|vm_compute; discriminate].
Defined.

Lemma cosemaphore_no_stranded_waiter_witness :
  let w := cs_demo_world cs_demo cs_demo_init in let s := k_sem (w_obj w) in
  cs_value s = 0 /\ cs_cancelled s = false /\ due (Some 9) (w_now w) = false /\
  exists r, CsLoop 0 (Some 9) = CsLoop r (Some 9) /\ r ∈ wq_q (cs_waiters s).
Proof.
  intros w. apply (cosemaphore_no_stranded_waiter (λ _, true) true 1 cs_demo_init w 2 (CsAcquire true (Some 9)));
    [reflexivity|apply after_reach|apply quiescentb_sound; vm_compute; reflexivity|vm_compute; reflexivity].
Defined.
