(* ===== verification/SimpleQueue.v ===== *)
(** * CoSimpleQueue: the cooperative [queue.SimpleQueue]

    Models [class CoSimpleQueue] of [src/src/stackweave/monkey/queues.py].  The code takes
    no lock: each operation on one of the two deques, each access to a record's [active]
    field and each clock reading is a block of its own.  A waiter record [[parker, active]]
    is an entry of [sq_recs]; its parker is named by the thread that parks on it. *)
From S2P Require Import Prelude Fibers.
Local Open Scope Z_scope.

Section simple_queue.
Context {A : Type}.

(** [_items], [_waiters] and the records. *)
Record squeue := SQueue {
  sq_items : list A;
  sq_waiters : list nat;
  sq_recs : gmap nat (tid * bool);
  sq_next : nat
}.

Inductive sq_op := SqPut (x : A) | SqGet (block : bool) (timeout : option Z) | SqEmpty | SqSize.
Inductive sq_val := SqNone | SqItem (x : A) | SqBool (b : bool) | SqInt (n : nat).

Inductive sq_pc :=
  | SqStart                                        (** entry of every operation *)
  | SqSee | SqPop | SqRead (r : nat)               (** [put] after the append *)
  | SqSpin0 | SqSpin (t0 : Z) | SqSpinT (t0 : Z)   (** [get] without a fiber *)
  | SqReg                                          (** [self._waiters.append(rec)] *)
  | SqRepop (r : nat)                              (** the pop right after it *)
  | SqArm (r : nat)
  | SqLoop (r : nat) (dl : option Z)               (** the pop at the head of the loop *)
  | SqRem (r : nat) (dl : option Z)
  | SqCheck (r : nat) (dl rem : option Z)          (** [if rec not in self._waiters] *)
  | SqAppend (r : nat) (dl rem : option Z)
  | SqRepop2 (r : nat) (dl rem : option Z)
  | SqPark (r : nat) (dl rem : option Z)
  | SqDeact (r : nat) (res : out sq_val)           (** [rec[1] = False] *)
  | SqUnreg (r : nat) (res : out sq_val).          (** [self._waiters.remove(rec)] *)

Abbreviation sq_act := (action sq_pc sq_val).

Definition sq_new : squeue := SQueue [] [] ∅ 0.

Definition sq_empty (s : squeue) : bool := match sq_items s with [] => true | _ => false end.
Definition sq_size (s : squeue) : nat := length (sq_items s).

(** [self._items.append(x)] *)
Definition sq_append (x : A) (s : squeue) : squeue :=
  SQueue (sq_items s ++ [x]) (sq_waiters s) (sq_recs s) (sq_next s).

(** [self._items.popleft()]: [None] is [IndexError]. *)
Definition sq_popleft (s : squeue) : option (A * squeue) :=
  match sq_items s with
  | [] => None
  | x :: l => Some (x, SQueue l (sq_waiters s) (sq_recs s) (sq_next s))
  end.

Definition sq_set_waiters (l : list nat) (s : squeue) : squeue :=
  SQueue (sq_items s) l (sq_recs s) (sq_next s).

(** [rec[1]] of a record, and [rec[1] = False]. *)
Definition sq_is_active (r : nat) (s : squeue) : bool :=
  match sq_recs s !! r with Some (_, b) => b | None => false end.
Definition sq_deactivate (r : nat) (s : squeue) : squeue :=
  SQueue (sq_items s) (sq_waiters s) (alter (λ c, (c.1, false)) r (sq_recs s)) (sq_next s).

(** [rec = [p, True]; self._waiters.append(rec)] *)
Definition sq_register (t : tid) (s : squeue) : squeue :=
  SQueue (sq_items s) (sq_waiters s ++ [sq_next s]) (<[sq_next s := (t, true)]> (sq_recs s)) (S (sq_next s)).

(** [wake_one()]: pop a record, look whether it is active, else go on. *)
Definition sq_wake_one (p : sq_pc) (s : squeue) : squeue * sq_act :=
  match p with
  | SqRead r =>
      match sq_recs s !! r with
      | Some (g, true) => (s, AWake [g] (Ret SqNone))
      | _ => (s, AGoto SqPop)
      end
  | _ =>
      match sq_waiters s with
      | [] => (s, AReturn (Ret SqNone))
      | r :: l => (sq_set_waiters l s, AGoto (SqRead r))
      end
  end.

(** [put(item)]; [put_nowait] is the same. *)
Definition sq_put (x : A) (p : sq_pc) (s : squeue) : squeue * sq_act :=
  match p with
  | SqStart => (sq_append x s, AGoto SqSee)
  | SqSee => match sq_waiters s with [] => (s, AReturn (Ret SqNone)) | _ => (s, AGoto SqPop) end
  | _ => sq_wake_one p s
  end.

(** A pop that either takes the caller to the exit path or goes on at [p]. *)
Definition sq_try (r : nat) (p : sq_pc) (s : squeue) : squeue * sq_act :=
  match sq_popleft s with
  | Some (x, s') => (s', AGoto (SqDeact r (Ret (SqItem x))))
  | None => (s, AGoto p)
  end.

(** [get(block, timeout)]; [get_nowait()] is [get(False)]. *)
Definition sq_get (t : tid) (fib : bool) (now : Z) (block : bool) (timeout : option Z) (p : sq_pc) (s : squeue)
  : squeue * sq_act :=
  match p with
  | SqStart =>
      match sq_popleft s with
      | Some (x, s') => (s', AReturn (Ret (SqItem x)))
      | None =>
          if negb block then (s, AReturn (Exc QueueEmpty))
          else (s, AGoto (if fib then SqReg else SqSpin0))
      end
  | SqSpin0 => (s, AGoto (SqSpin now))
  | SqSpin t0 =>
      match sq_popleft s with
      | Some (x, s') => (s', AReturn (Ret (SqItem x)))
      | None => (s, AGoto (SqSpinT t0))
      end
  | SqSpinT t0 =>
      if due ((λ d, t0 + d) <$> timeout) now then (s, AReturn (Exc QueueEmpty))
      else (s, ASleep (now + 100) (SqSpin t0))
  | SqReg => (sq_register t s, AGoto (SqRepop (sq_next s)))
  | SqRepop r => sq_try r (SqArm r) s
  | SqArm r => (s, AGoto (SqLoop r ((λ d, now + d) <$> timeout)))
  | SqLoop r dl => sq_try r (SqRem r dl) s
  | SqRem r dl =>
      if due dl now then (s, AGoto (SqDeact r (Exc QueueEmpty)))
      else (s, AGoto (SqCheck r dl ((λ d, d - now) <$> dl)))
  | SqCheck r dl rem => (s, AGoto (if bool_decide (r ∈ sq_waiters s) then SqPark r dl rem else SqAppend r dl rem))
  | SqAppend r dl rem => (sq_set_waiters (sq_waiters s ++ [r]) s, AGoto (SqRepop2 r dl rem))
  | SqRepop2 r dl rem => sq_try r (SqPark r dl rem) s
  | SqPark r dl rem => (s, APark ((λ d, now + d) <$> rem) (SqLoop r dl))
  | SqDeact r res => (sq_deactivate r s, AGoto (SqUnreg r res))
  | SqUnreg r res => (sq_set_waiters (try_remove r (sq_waiters s)) s, AReturn res)
  | SqSee | SqPop | SqRead _ => (s, AReturn (Ret SqNone))
  end.

Definition sq_block (t : tid) (fib : bool) (now : Z) (o : sq_op) (p : sq_pc) (s : squeue) : squeue * sq_act :=
  match o with
  | SqPut x => sq_put x p s
  | SqGet block timeout => sq_get t fib now block timeout p s
  | SqEmpty => (s, AReturn (Ret (SqBool (sq_empty s))))
  | SqSize => (s, AReturn (Ret (SqInt (sq_size s))))
  end.

Definition sq_machine : machine squeue sq_op sq_pc sq_val := Machine (λ _, SqStart) sq_block.

Abbreviation sq_ctl := (ctl sq_op sq_pc sq_val).
Abbreviation sq_world := (world squeue sq_op sq_pc sq_val).

(** ** First in, first out: nothing is lost or delivered twice *)

(** The result a control state carries, or has delivered. *)
Definition sq_result (c : sq_ctl) : option (out sq_val) :=
  match c with
  | At (SqGet _ _) (SqDeact _ res) | At (SqGet _ _) (SqUnreg _ res) | Fin (SqGet _ _) res => Some res
  | _ => None
  end.

(** The operations in progress are at their own program points. *)
Definition sq_shape (c : sq_ctl) : Prop :=
  match c with
  | Parked o _ p => (exists b to, o = SqGet b to) /\ exists r dl, p = SqLoop r dl
  | Sleeping o _ p => (exists b to, o = SqGet b to) /\ exists t0, p = SqSpin t0
  | Waking o _ _ => exists x, o = SqPut x
  | At (SqPut _) p => match p with SqStart | SqSee | SqPop | SqRead _ => True | _ => False end
  | At (SqGet _ _) p => match p with SqSee | SqPop | SqRead _ => False | _ => True end
  | At _ p => p = SqStart
  | _ => True
  end.

(** What the callers see, beside the queue: the items whose [put] was called and has published
    them, in that order; who has an item in hand to return, in the order they got it; and who
    returned which item. *)
Record sq_ledger := SqLedger {
  ql_q : squeue;
  ql_puts : list A;
  ql_gots : list (tid * A);
  ql_rets : list (tid * A)
}.

Definition ql_new : sq_ledger := SqLedger sq_new [] [] [].

(** The item a control state is going to return, or has returned. *)
Definition sq_item (c : sq_ctl) : option A :=
  match sq_result c with Some (Ret (SqItem x)) => Some x | _ => None end.

Definition ql_put_now (o : sq_op) (p : sq_pc) : list A :=
  match o, p with SqPut x, SqStart => [x] | _, _ => [] end.
Definition ql_got_now (t : tid) (c c' : sq_ctl) : list (tid * A) :=
  match sq_item c, sq_item c' with None, Some x => [(t, x)] | _, _ => [] end.
Definition ql_ret_now (t : tid) (c : sq_ctl) : list (tid * A) :=
  match c with Fin _ (Ret (SqItem x)) => [(t, x)] | _ => [] end.

(** A block of the queue, with the logs kept beside it. *)
Definition ql_block (t : tid) (fib : bool) (now : Z) (o : sq_op) (p : sq_pc) (l : sq_ledger) : sq_ledger * sq_act :=
  let '(s', a) := sq_block t fib now o p (ql_q l) in
  (SqLedger s' (ql_puts l ++ ql_put_now o p) (ql_gots l ++ ql_got_now t (At o p) (act_ctl o a))
     (ql_rets l ++ ql_ret_now t (act_ctl o a)), a).

Definition ql_machine : machine sq_ledger sq_op sq_pc sq_val := Machine (λ _, SqStart) ql_block.

(** The item a call in progress has in hand. *)
Definition sq_hand (t : tid) (c : sq_ctl) : list (tid * A) :=
  match c with At _ _ => match sq_item c with Some x => [(t, x)] | None => [] end | _ => [] end.

(** What thread [t] did, of a log. *)
Definition by_thread (t : tid) (l : list (tid * A)) : list (tid * A) := filter (λ e, e.1 = t) l.

Definition ql_fifo (l : sq_ledger) : Prop := map snd (ql_gots l) ++ sq_items (ql_q l) = ql_puts l.

Definition ql_delivers (l : sq_ledger) (t : tid) (c : sq_ctl) : Prop :=
  sq_shape c /\ by_thread t (ql_gots l) = by_thread t (ql_rets l) ++ sq_hand t c.

Lemma sq_popleft_items s x s' : sq_popleft s = Some (x, s') -> sq_items s = x :: sq_items s'.
Proof. unfold sq_popleft. by destruct (sq_items s) eqn:E; intros; simplify_eq/=. Qed.

(** A block publishes the item of its [put], takes the front item into its hand, or leaves the
    items alone; and it never lets go of the item in hand except by returning it. *)
Lemma sq_block_change t fib now o p s s' a :
  sq_shape (At o p) -> sq_block t fib now o p s = (s', a) ->
  sq_shape (act_ctl o a) /\
  sq_items s ++ ql_put_now o p = map snd (ql_got_now t (At o p) (act_ctl o a)) ++ sq_items s' /\
  sq_hand t (At o p) ++ ql_got_now t (At o p) (act_ctl o a) = ql_ret_now t (act_ctl o a) ++ sq_hand t (act_ctl o a).
Proof.
  intros Hs H. destruct o as [x|b to| |]; simpl in *.
  - destruct p; simpl in *; try done; cases_in H; simplify_eq; simpl; rewrite ?app_nil_r; split_and!; eauto.
  - destruct p; simpl in *; try done; unfold sq_try in H;
      try (destruct (sq_popleft s) as [[y s1]|] eqn:E;
        [apply sq_popleft_items in E; simplify_eq; simpl; rewrite E, ?app_nil_r; by split_and!|]);
      cases_in H; simplify_eq; simpl; unfold ql_got_now, sq_hand, sq_item; simpl; rewrite ?app_nil_r.
    all: try (split_and!; eauto; fail).
    all: try (case_bool_decide; by split_and!).
    all: destruct res as [[]|]; by split_and!.
  - simplify_eq. rewrite ?app_nil_r. by split_and!.
  - simplify_eq. rewrite ?app_nil_r. by split_and!.
Qed.

Lemma by_thread_app t l l' : by_thread t (l ++ l') = by_thread t l ++ by_thread t l'.
Proof. apply filter_app. Qed.

(** What a block logs is its own thread's. *)
Lemma by_thread_logs t t' c c' :
  by_thread t' (ql_got_now t c c') = (if decide (t = t') then ql_got_now t c c' else []) /\
  by_thread t' (ql_ret_now t c') = (if decide (t = t') then ql_ret_now t c' else []).
Proof.
  assert (forall x, by_thread t' [(t, x)] = if decide (t = t') then [(t, x)] else []) as Hx.
  { intros x. unfold by_thread. case_decide as Ht.
    - by rewrite filter_cons_True, filter_nil by done.
    - by rewrite filter_cons_False, filter_nil by done. }
  assert (by_thread t' [] = if decide (t = t') then [] else []) as Hn by by case_decide.
  split; unfold ql_got_now, ql_ret_now; repeat case_match; (apply Hx || apply Hn).
Qed.

Lemma ql_blocks isf : blocks_ok ql_machine isf ql_fifo ql_delivers (λ _, 0) (λ _, 0).
Proof.
  intros t now o p l l' a HG [Hs Hr] H. simpl in H. unfold ql_block in H.
  destruct (sq_block t (isf t) now o p (ql_q l)) as [s' a'] eqn:E. injection H as <- <-.
  destruct (sq_block_change _ _ _ _ _ _ _ _ Hs E) as (Hs' & Hi & Hh). unfold ql_fifo in *. split_and!; [| | |done].
  - cbn [ql_gots ql_puts ql_q]. rewrite map_app, <- app_assoc, <- Hi, <- HG. by rewrite <- app_assoc.
  - split; [done|]. cbn [ql_gots ql_rets]. rewrite !by_thread_app.
    destruct (by_thread_logs t t (At o p) (act_ctl o a')) as [-> ->]. rewrite !decide_True by done.
    rewrite Hr, <- !app_assoc. by f_equal.
  - intros t' c Hne [Hs1 Hr1]. split; [done|]. cbn [ql_gots ql_rets]. rewrite !by_thread_app.
    destruct (by_thread_logs t t' (At o p) (act_ctl o a')) as [-> ->]. rewrite !decide_False by done. by rewrite !app_nil_r.
Qed.

#[export] Instance ql_quiet may : quiet_moves ql_machine may ql_fifo ql_delivers (λ _, 0).
Proof.
  split; simpl; [done|..].
  - intros l t c o Hc _ _ [_ H]. split; [|done]. split; [by destruct o|]. rewrite H.
    by destruct o, c.
  - intros l t o dl p [([b [to ->]] & r & d & ->) H]. split; [|done]. by split.
  - intros l t o u p [([b [to ->]] & t0 & ->) H]. split; [|done]. by split.
  - intros l t o g m r [[x ->] H]. split; [|done]. split; [by exists x|done].
  - intros l t o r [[x ->] H]. split; [|done]. by split.
Qed.

(** C11. In every interleaving of any number of producers and consumers, fibers and foreign
    threads, blocking, timed and non-blocking: the items that calls of [get] have taken in order,
    followed by the items still queued, are exactly the items of the [put] calls in the order they
    published them; and each thread's calls have returned exactly the items they took, in that
    order, but for the one its [get] in progress has in hand.  So every item is returned by one
    [get], in order of arrival, and a [get] that raises [Empty] has taken none. *)
Theorem squeue_fifo_exactly_once isf may w :
  reach ql_machine isf may ql_new w ->
  map snd (ql_gots (w_obj w)) ++ sq_items (ql_q (w_obj w)) = ql_puts (w_obj w) /\
  forall t, by_thread t (ql_gots (w_obj w)) = by_thread t (ql_rets (w_obj w)) ++ sq_hand t (ctl_of w t).
Proof.
  intros Hr.
  destruct (og_reach ql_machine isf may ql_fifo ql_delivers (λ _, 0) (λ _, 0) ql_new eq_refl
    (λ t, conj I eq_refl) eq_refl (ql_blocks isf) w Hr) as (HG & HL & _).
  split; [done|]. intros t. by destruct (HL t).
Qed.

(** ** One blocking consumer: no lost wake-ups *)
Section single_consumer.
Context (isf : tid -> bool) (k : tid).

(** Only thread [k] makes blocking [get] calls; anyone may put, poll and [get_nowait]. *)
Definition sq_single (t : tid) (c : sq_ctl) (o : sq_op) : bool :=
  match o with SqGet true _ => bool_decide (t = k) | _ => true end.

(** The registered record of a getter and its [active] field. *)
Definition sq_reg (c : sq_ctl) : option (nat * bool) :=
  match c with
  | At (SqGet _ _) (SqRepop r | SqArm r | SqLoop r _ | SqRem r _ | SqCheck r _ _ | SqAppend r _ _
      | SqRepop2 r _ _ | SqPark r _ _ | SqDeact r _) => Some (r, true)
  | At (SqGet _ _) (SqUnreg r _) => Some (r, false)
  | Parked (SqGet _ _) _ (SqLoop r _) => Some (r, true)
  | _ => None
  end.

Definition sq_callers (t : tid) (c : sq_ctl) : Prop :=
  match c with
  | At (SqGet false _) p => p = SqStart
  | At (SqGet true _) _ => t = k
  | Parked (SqGet b _) _ _ | Sleeping (SqGet b _) _ _ => b = true /\ t = k
  | _ => True
  end.

(** The waiter deque holds at most the consumer's current record. *)
Definition sq_krec (s : squeue) (c : sq_ctl) : Prop :=
  match sq_reg c with
  | Some (r, b) => sq_recs s !! r = Some (k, b) /\ (sq_waiters s = [] \/ sq_waiters s = [r])
  | None => sq_waiters s = []
  end /\
  match c with At _ (SqAppend _ _ _) => sq_waiters s = [] | _ => True end.

Definition sq_klocal (s : squeue) (t : tid) (c : sq_ctl) : Prop :=
  sq_shape c /\ sq_callers t c /\ (t = k -> sq_krec s c).

(** A block that leaves the records alone and at most pops waiters keeps the consumer's. *)
Lemma sq_krec_keep s s' c :
  sq_recs s' = sq_recs s -> (sq_waiters s' = sq_waiters s \/ exists r, sq_waiters s = r :: sq_waiters s') ->
  sq_krec s c -> sq_krec s' c.
Proof.
  unfold sq_krec. intros -> Hw [H1 H2]. split.
  - destruct (sq_reg c) as [[r b]|]; destruct Hw as [->|[r' E]]; try done.
    + destruct H1 as [? [H|H]]; rewrite H in E; simplify_eq. split; [done|]. rewrite <- H3. by left.
    + rewrite H1 in E. done.
  - destruct c as [|o []| | | |]; try done. destruct Hw as [->|[r' E]]; [done|]. rewrite H2 in E. done.
Qed.

(** Blocks of [put], of the queries and of a non-blocking [get]. *)
Lemma sq_block_other t fib now o p s s' a :
  sq_shape (At o p) -> (forall b to, o = SqGet b to -> b = false /\ p = SqStart) -> sq_block t fib now o p s = (s', a) ->
  sq_recs s' = sq_recs s /\ (sq_waiters s' = sq_waiters s \/ exists r, sq_waiters s = r :: sq_waiters s') /\
  sq_callers t (act_ctl o a) /\ sq_reg (act_ctl o a) = None.
Proof.
  intros Hs Ho H. destruct o as [x|b to| |]; simpl in *.
  - destruct p; simpl in H; try done; cases_in H; simplify_eq; simpl; split_and!; eauto.
  - destruct (Ho b to eq_refl) as [-> ->]. simpl in H. unfold sq_popleft in H.
    destruct (sq_items s); simplify_eq; simpl; split_and!; eauto.
  - simplify_eq; simpl; split_and!; eauto.
  - simplify_eq; simpl; split_and!; eauto.
Qed.

(** Blocks of the consumer's blocking [get]. *)
Lemma sq_get_krec fib now to p s s' a :
  sq_shape (At (SqGet true to) p) -> sq_krec s (At (SqGet true to) p) ->
  sq_get k fib now true to p s = (s', a) ->
  sq_krec s' (act_ctl (SqGet true to) a) /\ sq_callers k (act_ctl (SqGet true to) a).
Proof.
  unfold sq_krec. intros Hs [H1 H2] H.
  destruct p; simpl in *; try done; unfold sq_try, sq_popleft in H;
    try match type of H with context [sq_items s] => destruct (sq_items s) end;
    cases_in H; simplify_eq; simpl; try done.
  - by rewrite H1, lookup_insert_eq; eauto.
  - apply bool_decide_eq_false in E. destruct H1 as [? [Hw|Hw]]; [by rewrite Hw; eauto|].
    rewrite Hw in E. set_solver.
  - rewrite H2. simpl. destruct H1 as [H1 _]. auto.
  - destruct H1 as [H1 Hw]. rewrite lookup_alter_eq, H1. naive_solver.
  - destruct H1 as [H1 [Hw|Hw]]; rewrite Hw; [done|]. unfold try_remove; simpl.
    by rewrite decide_True by done.
Qed.

Lemma sq_single_blocks : blocks_ok sq_machine isf (λ _, True) sq_klocal (λ _, 0) (λ _, 0).
Proof.
  intros t now o p s s' a _ (Hs & Hc & Hk) H. simpl in H. split; [done|].
  destruct (sq_block_change _ _ _ _ _ _ _ _ Hs H) as (Hs' & _).
  assert ((exists to, o = SqGet true to) \/ forall to, o ≠ SqGet true to) as [[to ->]|Hng]
    by (destruct o as [|[]| |]; eauto).
  - simpl in Hc. subst t. destruct (sq_get_krec _ _ _ _ _ _ _ Hs (Hk eq_refl) H) as [Hk' Hc'].
    split_and!; [split; [done|split; [done|by intros]]| |done].
    intros t' c Hne (? & ? & ?). split; [done|split; [done|by intros ->]].
  - destruct (sq_block_other t (isf t) now o p s s' a Hs) as (Er & Ew & Hc' & En); [|exact H|].
    { intros b to ->. destruct b; [by destruct (Hng to)|]. done. }
    split_and!; [split; [done|split; [done|]]| |done].
    + intros ->. destruct (Hk eq_refl) as [Hn _].
      assert (sq_reg (At o p) = None) as Hr.
      { destruct o as [|b to| |]; try done. destruct b; [by destruct (Hng to)|]. simpl in Hc. by subst. }
      rewrite Hr in Hn. split; rewrite ?En; [by destruct Ew as [->|[r E]]; [|rewrite Hn in E]|].
      destruct o as [x|[] to| |], a as [[]| | | |]; try done; by destruct Ew as [->|[r E]]; [|rewrite Hn in E].
    + intros t' c Hne (? & ? & Hkr). split; [done|split; [done|]]. intros Ht. by eapply sq_krec_keep; [..|apply Hkr].
Qed.

#[export] Instance sq_single_quiet : quiet_moves sq_machine sq_single (λ _, True) sq_klocal (λ _, 0).
Proof.
  split; [done|..].
  - intros s t c o Hr Hm _ (_ & _ & Hk). split; [|done]. split; [by destruct o|split].
    + destruct o as [|[] to| |]; simpl in *; try done. by apply bool_decide_eq_true in Hm.
    + intros Ht. destruct (Hk Ht) as [Hn _]. assert (sq_reg c = None) as Hc by (by destruct c).
      rewrite Hc in Hn. split; [by destruct o|done].
  - intros s t o dl p (([b [to ->]] & r & d & ->) & [-> ->] & Hk). split; [|done].
    split; [done|split; [done|exact Hk]].
  - intros s t o u p (([b [to ->]] & t0 & ->) & [-> ->] & Hk). split; [|done].
    split; [done|split; [done|exact Hk]].
  - intros s t o g l r ([x ->] & _ & Hk). split; [|done]. split; [by exists x|split; [done|exact Hk]].
  - intros s t o r ([x ->] & _ & Hk). split; [|done]. split; [done|split; [done|exact Hk]].
Qed.

(** A [put] between its append and its pop of a waiter, and one that holds record [r]. *)
Definition sq_prewake (c : sq_ctl) : bool :=
  match c with At (SqPut _) (SqSee | SqPop) => true | _ => false end.
Definition sq_holding (r : nat) (c : sq_ctl) : bool :=
  match c with At (SqPut _) (SqRead r') => bool_decide (r = r') | _ => false end.

(** Program points after a pop that found nothing, and points bound to park. *)
Definition sq_found_empty (c : sq_ctl) : option nat :=
  match c with
  | At (SqGet _ _) (SqRem r _ | SqCheck r _ _ | SqPark r _ _) | Parked (SqGet _ _) _ (SqLoop r _) => Some r
  | _ => None
  end.
Definition sq_will_park (c : sq_ctl) : option nat :=
  match c with
  | At (SqGet _ _) (SqRepop2 r _ _ | SqPark r _ _) | Parked (SqGet _ _) _ (SqLoop r _) => Some r
  | _ => None
  end.

Definition sq_waking (w : sq_world) : Prop := (0 < pending w k)%nat \/ waking w k.

(** An item that arrived since the consumer looked has a [put] on its way to the waiters; a
    consumer that left the waiter deque has a wake on its way. *)
Record sq_nolost (w : sq_world) : Prop := {
  snl_empty r : sq_found_empty (ctl_of w k) = Some r -> r ∈ sq_waiters (w_obj w) ->
    sq_items (w_obj w) = [] \/ exists t, sq_prewake (ctl_of w t) = true;
  snl_park r : sq_will_park (ctl_of w k) = Some r ->
    r ∈ sq_waiters (w_obj w) \/ (exists t, sq_holding r (ctl_of w t) = true) \/ sq_waking w
}.

(** A step that keeps the queue and the puts in progress. *)
Lemma sq_nolost_frame w w' :
  w_obj w' = w_obj w ->
  (forall t, sq_prewake (ctl_of w t) = true -> sq_prewake (ctl_of w' t) = true) ->
  (forall t r, sq_holding r (ctl_of w t) = true -> sq_holding r (ctl_of w' t) = true) ->
  (forall r, sq_found_empty (ctl_of w' k) = Some r -> sq_found_empty (ctl_of w k) = Some r) ->
  (forall r, sq_will_park (ctl_of w' k) = Some r -> sq_will_park (ctl_of w k) = Some r /\ (sq_waking w -> sq_waking w')) ->
  sq_nolost w -> sq_nolost w'.
Proof.
  intros Eo Hpw Hho Hfe Hwp [H1 H2]. split; rewrite Eo.
  - intros r Hr Hin. destruct (H1 r) as [?|[t ?]]; eauto.
  - intros r Hr. destruct (Hwp r Hr) as [Hr' Hwk]. destruct (H2 r Hr') as [?|[[t ?]|?]]; eauto.
Qed.

(** A control-only move of a thread that is not inside a [put]'s wake-up. *)
Lemma sq_nolost_put w w1 t c :
  w_obj w1 = w_obj w -> w_ctl w1 = w_ctl w ->
  (forall r, sq_prewake (ctl_of w t) = false /\ sq_holding r (ctl_of w t) = false) ->
  sq_found_empty c = None -> sq_will_park c = None ->
  (t ≠ k -> sq_waking w -> sq_waking (put w1 t c)) ->
  sq_nolost w -> sq_nolost (put w1 t c).
Proof.
  intros Eo Ec Hn Hf Hp Hwk. 
  assert (forall t', ctl_of (put w1 t c) t' = if decide (t = t') then c else ctl_of w t') as Hct.
  { intros t'. rewrite ctl_put. unfold ctl_of. by rewrite Ec. }
  apply sq_nolost_frame; [done|..].
  - intros t'. rewrite Hct. case_decide; [subst|done]. destruct (Hn 0%nat); congruence.
  - intros t' r. rewrite Hct. case_decide; [subst|done]. destruct (Hn r); congruence.
  - intros r. rewrite Hct. case_decide; [by rewrite Hf|done].
  - intros r. rewrite Hct. case_decide; [by rewrite Hp|]. auto.
Qed.

(** A block of thread [t] that is not the consumer looking for an item. *)
Lemma sq_nolost_block w t o p s' a :
  let w' := World s' (<[t := act_ctl o a]> (w_ctl w)) (w_tok w) (w_now w) in
  sq_nolost w -> ctl_of w t = At o p -> sq_reg (At o p) = None -> sq_reg (act_ctl o a) = None ->
  (forall r, sq_found_empty (ctl_of w k) = Some r -> r ∈ sq_waiters s' ->
     sq_prewake (act_ctl o a) = true \/ sq_prewake (At o p) = false /\ r ∈ sq_waiters (w_obj w) /\
       (sq_items (w_obj w) = [] -> sq_items s' = [])) ->
  (forall r, sq_will_park (ctl_of w k) = Some r ->
     (r ∈ sq_waiters (w_obj w) -> r ∈ sq_waiters s' \/ sq_holding r (act_ctl o a) = true) /\
     (sq_holding r (At o p) = true -> exists res, a = AWake [k] res)) ->
  sq_nolost w'.
Proof.
  intros w' [H1 H2] Hc Hn Hn' HJ HK.
  assert (Hct : forall t', ctl_of w' t' = if decide (t = t') then act_ctl o a else ctl_of w t') by (intros; apply ctl_upd).
  assert (Hme : ctl_of w' t = act_ctl o a) by (by rewrite Hct, decide_True).
  assert (Hot : forall t', t ≠ t' -> ctl_of w' t' = ctl_of w t') by (intros; by rewrite Hct, decide_False).
  assert (t = k -> sq_found_empty (ctl_of w' k) = None /\ sq_will_park (ctl_of w' k) = None) as Hk.
  { intros <-. rewrite Hme. by destruct (act_ctl o a) as [|[] []|[] ? []| | |]. }
  split; intros r Hr.
  - intros Hin. assert (t ≠ k) by (intros [? ?]%Hk; congruence). rewrite (Hot k) in Hr by done.
    destruct (HJ r Hr Hin) as [?|(Hp & Hin' & Hi)]; [right; exists t; by rewrite Hme|].
    destruct (H1 r Hr Hin') as [?|[t' Ht']]; [by left; auto|right]. exists t'.
    rewrite Hot; [done|]. intros <-. congruence.
  - assert (t ≠ k) by (intros [? ?]%Hk; congruence). rewrite (Hot k) in Hr by done.
    destruct (HK r Hr) as [Ha Hb]. destruct (H2 r Hr) as [Hin|[[t' Ht']|[?|Hw]]].
    + destruct (Ha Hin); [by left|right; left; exists t; by rewrite Hme].
    + destruct (decide (t = t')) as [<-|Hne]; [|right; left; exists t'; by rewrite Hot].
      rewrite Hc in Ht'. destruct (Hb Ht') as [res ->]. right; right; right.
      exists t, o, [k], res. rewrite Hme. split; [done|set_solver].
    + by right; right; left.
    + right; right; right. destruct Hw as (t2 & o2 & l2 & r2 & E & ?). exists t2, o2, l2, r2.
      rewrite Hot; [done|congruence].
Qed.

(** While the consumer has looked in vain or is bound to park, its record is active and is
    the only one in the deque. *)
Lemma sq_committed s c r : sq_krec s c -> sq_found_empty c = Some r \/ sq_will_park c = Some r ->
  sq_recs s !! r = Some (k, true) /\ (sq_waiters s = [] \/ sq_waiters s = [r]).
Proof.
  intros [H _] Hr. destruct c as [|[] []|[] ? []| | |]; simpl in *; destruct Hr; simplify_eq; done.
Qed.

Lemma sq_nolost_other w t o p s' a :
  sq_nolost w -> (forall t, sq_klocal (w_obj w) t (ctl_of w t)) -> ctl_of w t = At o p ->
  (forall b to, o = SqGet b to -> b = false /\ p = SqStart) ->
  sq_block t (isf t) (w_now w) o p (w_obj w) = (s', a) ->
  sq_nolost (World s' (<[t := act_ctl o a]> (w_ctl w)) (w_tok w) (w_now w)).
Proof.
  intros Hi HL Hc Ho H. destruct (HL t) as (Hs & _ & _). rewrite Hc in Hs.
  destruct (sq_block_other t (isf t) (w_now w) o p (w_obj w) s' a Hs Ho H) as (_ & _ & _ & En).
  assert (Hrec := λ r, sq_committed (w_obj w) (ctl_of w k) r (proj2 (proj2 (HL k)) eq_refl)).
  apply sq_nolost_block with p; [done|done| |done|..].
  - destruct o as [|b to| |]; try done. by destruct (Ho b to eq_refl) as [-> ->].
  - intros r Hr. destruct (Hrec r (or_introl Hr)) as [Ha Hw].
    destruct o as [x|b to| |]; simpl in *; [|destruct (Ho b to eq_refl) as [-> ->]|by simplify_eq; auto..].
    + destruct p; simpl in *; try done; cases_in H; simplify_eq; simpl; try by auto.
      all: intros Hin; destruct Hw; simplify_eq; rewrite ?E in Hin; by apply elem_of_nil in Hin.
    + simpl in H. unfold sq_popleft in H. destruct (sq_items (w_obj w)) eqn:E;
        simplify_eq; simpl; intros; right; split_and!; done.
  - intros r Hr. destruct (Hrec r (or_intror Hr)) as [Ha Hw].
    destruct o as [x|b to| |]; simpl in *; [|destruct (Ho b to eq_refl) as [-> ->]|by simplify_eq; split; [auto|done]..].
    + destruct p; simpl in *; try done; cases_in H; simplify_eq; simpl; (split; [try by auto|try done]).
      all: try (intros ?%bool_decide_eq_true; simplify_eq; eauto; congruence).
      all: rewrite ?E; try by left.
      all: intros [->|Hin]%elem_of_cons; [right; by apply bool_decide_eq_true|by left].
    + simpl in H. unfold sq_popleft in H. destruct (sq_items (w_obj w)); simplify_eq; simpl; (split; [auto|done]).
Qed.

(** A block of the consumer's blocking [get]. *)
Lemma sq_nolost_get w to p s' a :
  sq_nolost w -> sq_klocal (w_obj w) k (At (SqGet true to) p) -> ctl_of w k = At (SqGet true to) p ->
  sq_get k (isf k) (w_now w) true to p (w_obj w) = (s', a) ->
  sq_nolost (World s' (<[k := act_ctl (SqGet true to) a]> (w_ctl w)) (w_tok w) (w_now w)).
Proof.
  intros [H1 H2] (Hs & _ & Hk) Hc H. destruct (Hk eq_refl) as [Hreg _]. rewrite Hc in H1, H2.
  set (w' := World s' _ (w_tok w) (w_now w)).
  assert (Hme : ctl_of w' k = act_ctl (SqGet true to) a) by (unfold w'; by rewrite ctl_upd, decide_True).
  assert (Hot : forall t', k ≠ t' -> ctl_of w' t' = ctl_of w t') by (intros; unfold w'; by rewrite ctl_upd, decide_False).
  assert (Hpw : (exists t, sq_prewake (ctl_of w t) = true) -> exists t, sq_prewake (ctl_of w' t) = true).
  { intros [t Ht]. exists t. rewrite Hot; [done|]. intros <-. by rewrite Hc in Ht. }
  assert (Hho : forall r, (exists t, sq_holding r (ctl_of w t) = true) -> exists t, sq_holding r (ctl_of w' t) = true).
  { intros r [t Ht]. exists t. rewrite Hot; [done|]. intros <-. by rewrite Hc in Ht. }
  assert (Hwk : sq_waking w -> sq_waking w').
  { intros [?|(t2 & o2 & l2 & r2 & E & ?)]; [by left|right]. exists t2, o2, l2, r2.
    rewrite Hot; [done|congruence]. }
  split; rewrite Hme; simpl w_obj; clearbody w'.
  - intros r Hr Hin. destruct p; simpl in *; try done; unfold sq_try, sq_popleft in H;
      try match type of H with context [sq_items (w_obj w)] => destruct (sq_items (w_obj w)) eqn:Ei end;
      cases_in H; simplify_eq; simpl in *; simplify_eq; try (by left); (destruct (H1 r); eauto).
  - intros r Hr. destruct p; simpl in *; try done; unfold sq_try, sq_popleft in H;
      try match type of H with context [sq_items (w_obj w)] => destruct (sq_items (w_obj w)) eqn:Ei end;
      cases_in H; simplify_eq; simpl in *; simplify_eq;
      try (by destruct (H2 r) as [?|[?|?]]; eauto).
    + left. by apply bool_decide_eq_true in E.
    + left. apply elem_of_app. right. by apply list_elem_of_singleton.
Qed.

Lemma sq_single_inv w : reach sq_machine isf sq_single sq_new w -> forall t, sq_klocal (w_obj w) t (ctl_of w t).
Proof.
  intros Hr. refine (proj1 (proj2 (og_reach sq_machine isf sq_single (λ _, True) sq_klocal (λ _, 0) (λ _, 0) sq_new
    I _ eq_refl sq_single_blocks w Hr))). by repeat split.
Qed.

(** Waking everyone in the list, one at a time. *)
Lemma sq_waking_wake w t o g l r :
  ctl_of w t = Waking o (g :: l) r -> sq_waking w -> sq_waking (put (wake w g) t (Waking o l r)).
Proof.
  intros Hc Hw. destruct (decide (g = k)) as [->|Hg].
  { left. change (0 < pending (wake w k) k)%nat. rewrite pending_wake, decide_True by done. lia. }
  destruct Hw as [Hw|(t2 & o2 & l2 & r2 & E & Hin)].
  { left. change (0 < pending (wake w g) k)%nat. by rewrite pending_wake, decide_False. }
  right. destruct (decide (t2 = t)) as [->|Hne].
  - exists t, o, l, r. rewrite ctl_put, decide_True by done. split; [done|].
    rewrite Hc in E. simplify_eq. by apply elem_of_cons in Hin as [->|?].
  - exists t2, o2, l2, r2. by rewrite ctl_put, decide_False by done.
Qed.

Lemma sq_nolost_reach w : reach sq_machine isf sq_single sq_new w -> sq_nolost w.
Proof.
  induction 1 as [|w w' Hr IH Hst]; [by split|]. pose proof (sq_single_inv w Hr) as HL.
  destruct Hst as [t o Hre Hm|t o p s' a Hc Hbl|t o dl p Hc Hp|t o dl p Hc|t o u p Hc Hu
    |t o g l r Hc|t o r Hc|d Hd].
  - apply (sq_nolost_put w w); [done|done|by destruct (ctl_of w t)|by destruct o|by destruct o| |done].
    intros _ [?|Hk]; [by left|right]. apply waking_put; [|done]. intros o2 l2 r2 E. by rewrite E in Hre.
  - pose proof (HL t) as Ht. rewrite Hc in Ht. pose proof Ht as (Hs & Hca & Hk).
    assert ((exists to, o = SqGet true to) \/ forall to, o ≠ SqGet true to) as [[to ->]|Hng]
      by (destruct o as [|[]| |]; eauto).
    + simpl in Hca. subst t. by apply (sq_nolost_get w to p s' a).
    + eapply sq_nolost_other; try done. intros b to ->. destruct b; [by destruct (Hng to)|done].
  - destruct (HL t) as (Hs & _). rewrite Hc in Hs. destruct Hs as ([b [to ->]] & r & d & ->).
    apply (sq_nolost_put w (consume w t)); try done; [by rewrite Hc|].
    intros Hne [Hp'|Hk]; [left|right; apply waking_put; [|done]; intros o2 l2 r2; change (ctl_of (consume w t) t) with (ctl_of w t); congruence].
    unfold pending, consume; simpl. by rewrite lookup_insert_ne.
  - destruct (HL t) as (Hs & _). rewrite Hc in Hs. destruct Hs as ([b [to ->]] & r & d & ->).
    apply (sq_nolost_put w w); try done; [by rewrite Hc|].
    intros Hne [Hp'|Hk]; [by left|right; apply waking_put; [|done]; congruence].
  - destruct (HL t) as (Hs & _). rewrite Hc in Hs. destruct Hs as ([b [to ->]] & t0 & ->).
    apply (sq_nolost_put w w); try done; [by rewrite Hc|].
    intros Hne [Hp'|Hk]; [by left|right; apply waking_put; [|done]; congruence].
  - apply (sq_nolost_put w (wake w g)); try done; [by rewrite Hc|]. intros _. by apply sq_waking_wake.
  - apply (sq_nolost_put w w); try done; [by rewrite Hc|].
    intros _ [Hp'|Hk]; [by left|right; apply waking_put; [|done]]. intros o2 l2 r2 E. rewrite Hc in E.
    simplify_eq. apply not_elem_of_nil.
  - by apply (sq_nolost_frame w).
Qed.
End single_consumer.

(** With one blocking consumer, and any number of producers and of threads that only poll,
    no item is stranded: when nothing can move any more and the consumer is parked in [get], the
    queue is empty and the consumer's deadline, if it has one, has not passed. *)
Theorem squeue_single_consumer_no_lost_item isf k w o dl p :
  reach sq_machine isf (sq_single k) sq_new w -> quiescent sq_machine isf (sq_single k) w ->
  ctl_of w k = Parked o dl p -> sq_items (w_obj w) = [] /\ due dl (w_now w) = false.
Proof.
  intros Hr Hq Hc. pose proof (sq_single_inv isf k w Hr k) as (Hs & _).
  destruct (sq_nolost_reach isf k w Hr) as [H1 H2]. rewrite Hc in Hs, H1, H2.
  destruct Hs as ([b [to ->]] & r & d & ->).
  assert (Hnp : forall t, sq_prewake (ctl_of w t) = false /\ sq_holding r (ctl_of w t) = false).
  { intros t. destruct (quiescent_cases _ _ _ w t Hq) as [Ha|[(? & ? & ? & ->)|(? & ? & ? & -> & _)]]; [|done..].
    by destruct (ctl_of w t). }
  pose proof (Hq k) as Hk. simpl in Hk. rewrite Hc in Hk.
  destruct (decide (0 < pending w k)%nat) as [|Hp]; [done|].
  split; [|by destruct (due dl (w_now w))].
  destruct (H2 r eq_refl) as [Hin|[[t Ht]|[?|(t & o & l & rr & Ht & Hin)]]]; [|by destruct (Hnp t); congruence|done|].
  - destruct (H1 r eq_refl Hin) as [?|[t Ht]]; [done|]. by destruct (Hnp t); congruence.
  - pose proof (Hq t) as Hx. simpl in Hx. rewrite Ht in Hx. by destruct l.
Qed.
End simple_queue.

Arguments squeue A : clear implicits.
Arguments sq_op A : clear implicits.
Arguments sq_pc A : clear implicits.
Arguments sq_val A : clear implicits.

(** Thread 2 waits; thread 3 puts twice; thread 2 has returned the first item, and thread 4 has the
    second in hand. *)
Definition squeue_demo : world (sq_ledger (A := nat)) (sq_op nat) (sq_pc nat) (sq_val nat) :=
  after ql_machine (λ _, true) any_call ql_new
    ([ECall 2%nat (SqGet true (Some 500))] ++ replicate 8 (EStep 2%nat) ++
     [ECall 4%nat (SqGet true None)] ++ replicate 2 (EStep 4%nat) ++
     [ECall 3%nat (SqPut 10%nat)] ++ replicate 6 (EStep 3%nat) ++ replicate 4 (EStep 2%nat) ++
     [ECall 3%nat (SqPut 20%nat)] ++ [EStep 3%nat] ++ [EStep 4%nat]).

Lemma squeue_fifo_exactly_once_witness :
  let l := w_obj squeue_demo in
  (ql_gots l = [(2%nat, 10%nat); (4%nat, 20%nat)] /\ ql_rets l = [(2%nat, 10%nat)] /\
   sq_hand 4 (ctl_of squeue_demo 4) = [(4%nat, 20%nat)]) /\
  map snd (ql_gots l) ++ sq_items (ql_q l) = ql_puts l /\
  forall t, by_thread t (ql_gots l) = by_thread t (ql_rets l) ++ sq_hand t (ctl_of squeue_demo t).
Proof.
  intros l. split; [vm_compute; done|].
  apply (squeue_fifo_exactly_once (λ _, true) any_call squeue_demo). apply after_reach.
Defined.

(** A consumer that took one item and waits for the next. *)
Definition squeue_idle : world (squeue nat) (sq_op nat) (sq_pc nat) (sq_val nat) :=
  after sq_machine (λ _, true) (sq_single 2) sq_new
    ([ECall 2%nat (SqGet true (Some 500))] ++ replicate 8 (EStep 2%nat) ++
     [ECall 3%nat (SqPut 10%nat)] ++ replicate 6 (EStep 3%nat) ++ replicate 4 (EStep 2%nat) ++
     [ECall 2%nat (SqGet true None)] ++ replicate 8 (EStep 2%nat)).

Lemma squeue_single_consumer_no_lost_item_witness :
  (exists o dl p, ctl_of squeue_idle 2 = Parked o dl p) /\ sq_items (w_obj squeue_idle) = [].
Proof.
  split; [vm_compute; eauto|].
  eapply (squeue_single_consumer_no_lost_item (λ _, true) 2 squeue_idle).
  - apply after_reach.
  - apply quiescentb_sound. vm_compute. reflexivity.
  - vm_compute. reflexivity.
Defined.

(** With two blocking consumers the wake-up of an item can be lost, without any timeout: thread 1
    has popped item 10 by the re-check after its registration but not yet cleared [rec[1]]; thread 2
    registers, finds the queue empty and parks; the [put] of item 20 then pops thread 1's record,
    still active, and wakes thread 1, which returns with item 10.  Nothing can move any more, thread
    2 stays parked and item 20 stays queued. *)
Theorem squeue_two_consumers_lost_wakeup :
  let w := after sq_machine (λ _, true) any_call (sq_new (A := nat))
    ([ECall 1%nat (SqGet true None); EStep 1%nat; ECall 3%nat (SqPut 10%nat); EStep 3%nat; EStep 3%nat;
      EStep 1%nat; EStep 1%nat; ECall 2%nat (SqGet true None)] ++ replicate 8 (EStep 2%nat) ++
     [ECall 3%nat (SqPut 20%nat)] ++ replicate 6 (EStep 3%nat) ++ replicate 2 (EStep 1%nat)) in
  quiescent sq_machine (λ _, true) any_call w /\ sq_items (w_obj w) = [20%nat] /\
  exists r, ctl_of w 2 = Parked (SqGet true None) None (SqLoop r None).
Proof.
  split; [apply quiescentb_sound; vm_compute; reflexivity|].
  split; [vm_compute; reflexivity|vm_compute; eauto].
Qed.
