(* ===== verification/OffloadPool.v ===== *)
(** * The thread-pool backend for blocking calls

    Models [class _ThreadPoolBackend] of [src/src/stackweave/monkey/_base.py].  The submitting
    fibers and the worker threads are threads of one machine.  A worker's loop is cut at the end of
    a job: one [PlWork] call is one iteration, and the worker calls again until it meets the
    shutdown sentinel.  The raw [_queue.SimpleQueue] shards are FIFO lists with atomic operations;
    a [get] with a timeout is a timed park that may return at any moment and looks again until its
    deadline. *)
From S2P Require Import Prelude Fibers.
Local Open Scope Z_scope.

Abbreviation pyval := (option nat).

(** A queue item: the job [j], whose call will end with [r], or the sentinel. *)
Inductive pitem := PJob (j : nat) (r : out pyval) | PShutdown.

#[export] Instance pitem_eq_dec : EqDecision pitem.
Proof. solve_decision. Defined.

(** [box = [result, exception, done]], with the parker of the job: the fiber that parks on it and
    its mode.  The code does not read [bx_woken]: [parker.unpark()] has been called. *)
Record box := Box {
  bx_result : pyval; bx_exc : option pyexc; bx_done : bool; bx_parker : tid; bx_inmem : bool; bx_woken : bool
}.

(** [_qs] and [_rr]; the boxes by job.  The code does not read [pl_jobs], the outcome of each
    submitted call and the worker that took it, [pl_fini], the number of sentinels put so far, and
    [pl_early], the jobs queued on a shard when its sentinel was put. *)
Record pool := Pool {
  pl_qs : list (list pitem);
  pl_rr : nat;
  pl_boxes : gmap nat box;
  pl_next : nat;
  pl_jobs : gmap nat (out pyval * option tid);
  pl_fini : nat;
  pl_early : gset nat
}.

Inductive pl_op := PlSubmit (r : out pyval) | PlWork (shard : nat) | PlFini.
Inductive pl_pc :=
  | PlTop
  | PlBump (shard : nat) | PlPut (shard : nat) | PlWait (j : nat) | PlRet (j : nat)
  | PlGet (dl : Z) | PlSteal (k : nat) | PlRun (j : nat) (r : out pyval) | PlFlag (j : nat) | PlWake (j : nat) | PlExit
  | PlSentinel (k : nat).
Inductive pl_ret := PlVal (v : pyval) | PlAgain | PlExited | PlNone.

Abbreviation pl_act := (action pl_pc pl_ret).

(** [_WORKER_STEAL_POLL], in microseconds, and [_BLOCKPOOL_INMEM_QDEPTH]. *)
Definition WORKER_STEAL_POLL : Z := 20000.
Definition BLOCKPOOL_INMEM_QDEPTH : nat := 8.

(** [__init__(size)] *)
Definition pl_init (size : nat) : pool := Pool (replicate (1 `max` size) []) 0 ∅ 0 ∅ 0 ∅.
(** [size=None]: [min(8, os.cpu_count() or 4)]; [cpus]: what [os.cpu_count()] returns. *)
Definition pl_default_size (cpus : option nat) : nat := 8 `min` match cpus with Some (S n) => S n | _ => 4 end.
Definition pl_new (size cpus : option nat) : pool := pl_init (default (pl_default_size cpus) size).
Definition pl_size (s : pool) : nat := length (pl_qs s).

Definition pl_set_qs (qs : list (list pitem)) (s : pool) : pool :=
  Pool qs (pl_rr s) (pl_boxes s) (pl_next s) (pl_jobs s) (pl_fini s) (pl_early s).
Definition pl_set_boxes (b : gmap nat box) (s : pool) : pool :=
  Pool (pl_qs s) (pl_rr s) b (pl_next s) (pl_jobs s) (pl_fini s) (pl_early s).

(** [submit(fn)]: [fn] will end with [r]. *)
Definition pl_submit (t : tid) (r : out pyval) (p : pl_pc) (s : pool) : pool * pl_act :=
  match p with
  | PlTop => (s, AGoto (PlBump (pl_rr s)))
  | PlBump k =>
      (Pool (pl_qs s) (S k mod pl_size s) (pl_boxes s) (pl_next s) (pl_jobs s) (pl_fini s) (pl_early s), AGoto (PlPut k))
  | PlPut k =>
      let j := pl_next s in
      let q := default [] (pl_qs s !! k) in
      let inmem := bool_decide (BLOCKPOOL_INMEM_QDEPTH < length q)%nat in
      (Pool (<[k := q ++ [PJob j r]]> (pl_qs s)) (pl_rr s) (<[j := Box None None false t inmem false]> (pl_boxes s)) (S j)
         (<[j := (r, None)]> (pl_jobs s)) (pl_fini s) (pl_early s), AGoto (PlWait j))
  | PlWait j =>
      match pl_boxes s !! j with
      | Some b => if bx_done b then (s, AGoto (PlRet j)) else (s, APark None (PlWait j))
      | None => (s, AReturn (Ret PlNone))
      end
  | PlRet j =>
      (s, AReturn (match pl_boxes s !! j with
                   | Some b => match bx_exc b with Some e => Exc e | None => Ret (PlVal (bx_result b)) end
                   | None => Ret PlNone
                   end))
  | _ => (s, AReturn (Ret PlNone))
  end.

(** [qs[k].get_nowait()] by worker [t]. *)
Definition pl_take (t : tid) (k : nat) (s : pool) : option (pool * pl_pc) :=
  match pl_qs s !! k with
  | Some (PJob j r :: q) =>
      Some (Pool (<[k := q]> (pl_qs s)) (pl_rr s) (pl_boxes s) (pl_next s) (<[j := (r, Some t)]> (pl_jobs s)) (pl_fini s) (pl_early s),
            PlRun j r)
  | Some (PShutdown :: q) => Some (pl_set_qs (<[k := q]> (pl_qs s)) s, PlExit)
  | _ => None
  end.

(** [box[0] = ...] or [box[1] = ...], and [box[2] = True] *)
Definition bx_store (r : out pyval) (b : box) : box :=
  match r with
  | Ret v => Box v (bx_exc b) (bx_done b) (bx_parker b) (bx_inmem b) (bx_woken b)
  | Exc e => Box (bx_result b) (Some e) (bx_done b) (bx_parker b) (bx_inmem b) (bx_woken b)
  end.
Definition bx_flag (b : box) : box := Box (bx_result b) (bx_exc b) true (bx_parker b) (bx_inmem b) (bx_woken b).
Definition bx_wake (b : box) : box := Box (bx_result b) (bx_exc b) (bx_done b) (bx_parker b) (bx_inmem b) true.

(** One iteration of [_worker_loop(shard)]. *)
Definition pl_work (t : tid) (now : Z) (shard : nat) (p : pl_pc) (s : pool) : pool * pl_act :=
  match p with
  | PlTop => (s, AGoto (PlGet (now + WORKER_STEAL_POLL)))
  | PlGet dl =>
      match pl_take t shard s with
      | Some (s', p') => (s', AGoto p')
      | None => if dl <=? now then (s, AGoto (PlSteal 1)) else (s, APark (Some dl) (PlGet dl))
      end
  | PlSteal k =>
      if bool_decide (k < pl_size s)%nat then
        match pl_take t ((shard + k) mod pl_size s) s with
        | Some (s', p') => (s', AGoto p')
        | None => (s, AGoto (PlSteal (S k)))
        end
      else (s, AReturn (Ret PlAgain))
  | PlRun j r => (pl_set_boxes (alter (bx_store r) j (pl_boxes s)) s, AGoto (PlFlag j))
  | PlFlag j => (pl_set_boxes (alter bx_flag j (pl_boxes s)) s, AGoto (PlWake j))
  | PlWake j =>
      match pl_boxes s !! j with
      | Some b => (pl_set_boxes (<[j := bx_wake b]> (pl_boxes s)) s, AWake [bx_parker b] (Ret PlAgain))
      | None => (s, AReturn (Ret PlAgain))
      end
  | PlExit => (s, AReturn (Ret PlExited))
  | _ => (s, AReturn (Ret PlNone))
  end.

Definition item_job (x : pitem) : option nat := match x with PJob j _ => Some j | PShutdown => None end.
Definition q_jobs (q : list pitem) : list nat := omap item_job q.

(** [fini()]: one sentinel per shard, in order. *)
Definition pl_do_fini (p : pl_pc) (s : pool) : pool * pl_act :=
  let k := match p with PlSentinel k => k | _ => 0%nat end in
  if bool_decide (k < pl_size s)%nat then
    let q := default [] (pl_qs s !! k) in
    (Pool (<[k := q ++ [PShutdown]]> (pl_qs s)) (pl_rr s) (pl_boxes s) (pl_next s) (pl_jobs s) (S (pl_fini s))
       (list_to_set (q_jobs q) ∪ pl_early s), AGoto (PlSentinel (S k)))
  else (s, AReturn (Ret PlNone)).

Definition pl_block (t : tid) (fib : bool) (now : Z) (o : pl_op) (p : pl_pc) (s : pool) : pool * pl_act :=
  match o with
  | PlSubmit r => pl_submit t r p s
  | PlWork k => pl_work t now k p s
  | PlFini => pl_do_fini p s
  end.

Definition pl_machine : machine pool pl_op pl_pc pl_ret := Machine (λ _, PlTop) pl_block.

Abbreviation pl_ctl := (ctl pl_op pl_pc pl_ret).
Abbreviation pl_world := (world pool pl_op pl_pc pl_ret).

(** Who does what: worker threads own a shard ([shard_of t = Some k]) and loop until they exit; any
    other thread submits or shuts the pool down. *)
Definition pl_use (shard_of : tid -> option nat) (t : tid) (c : pl_ctl) (o : pl_op) : bool :=
  match o with
  | PlWork k =>
      bool_decide (shard_of t = Some k) && match c with Idle | Fin _ (Ret PlAgain) => true | _ => false end
  | PlSubmit _ | PlFini =>
      bool_decide (shard_of t = None) && match c with Fin (PlWork _) _ => false | _ => true end
  end.

(** ** Invariant *)

(** Job [j] with outcome [r] is queued on shard [k]. *)
Definition in_qs (qs : list (list pitem)) (k j : nat) (r : out pyval) : Prop := exists q, qs !! k = Some q /\ PJob j r ∈ q.
Abbreviation in_q s := (in_qs (pl_qs s)).

(** What a finished call leaves in its box, and what [submit] makes of it. *)
Definition bx_has (r : out pyval) (b : box) : Prop :=
  match r with Ret v => bx_result b = v /\ bx_exc b = None | Exc e => bx_exc b = Some e end.
Definition bx_fresh (b : box) : Prop := bx_result b = None /\ bx_exc b = None /\ bx_done b = false /\ bx_woken b = false.
Definition submit_out (r : out pyval) : out pl_ret := match r with Ret v => Ret (PlVal v) | Exc e => Exc e end.

Record pl_ok (s : pool) : Prop := {
  plo_rr : (pl_rr s < pl_size s)%nat;
  plo_queued k j r : in_q s k j r -> exists b, pl_jobs s !! j = Some (r, None) /\ pl_boxes s !! j = Some b /\ bx_fresh b;
  plo_nodup k q : pl_qs s !! k = Some q -> NoDup (q_jobs q);
  plo_one k1 k2 j r1 r2 : in_q s k1 j r1 -> in_q s k2 j r2 -> k1 = k2;
  plo_jobs j r o : pl_jobs s !! j = Some (r, o) ->
    (j < pl_next s)%nat /\ (o = None -> exists k, in_q s k j r) /\
    exists b, pl_boxes s !! j = Some b /\ (bx_done b = true -> bx_has r b) /\ (o = None -> bx_fresh b)
}.

(** The job in a worker's hands. *)
Definition pl_hand (c : pl_ctl) : option nat :=
  match c with At (PlWork _) (PlRun j _ | PlFlag j | PlWake j) => Some j | _ => None end.

Record pl_local (s : pool) (t : tid) (c : pl_ctl) : Prop := {
  pll_hand j r : pl_jobs s !! j = Some (r, Some t) ->
    pl_hand c = Some j \/ exists b, pl_boxes s !! j = Some b /\ bx_done b = true /\ bx_woken b = true;
  pll_pc :
    match c with
    | At (PlWork _) p =>
        match p with
        | PlTop | PlGet _ | PlSteal _ | PlExit => True
        | PlRun j r => exists b, pl_jobs s !! j = Some (r, Some t) /\ pl_boxes s !! j = Some b /\ bx_fresh b
        | PlFlag j => exists r b, pl_jobs s !! j = Some (r, Some t) /\ pl_boxes s !! j = Some b /\ bx_has r b /\
            bx_done b = false /\ bx_woken b = false
        | PlWake j => exists r b, pl_jobs s !! j = Some (r, Some t) /\ pl_boxes s !! j = Some b /\ bx_has r b /\
            bx_done b = true /\ bx_woken b = false
        | _ => False
        end
    | At (PlSubmit r) p =>
        match p with
        | PlTop => True
        | PlBump k | PlPut k => (k < pl_size s)%nat
        | PlWait j => exists o b, pl_jobs s !! j = Some (r, o) /\ pl_boxes s !! j = Some b /\ bx_parker b = t
        | PlRet j => exists o b, pl_jobs s !! j = Some (r, o) /\ pl_boxes s !! j = Some b /\ bx_done b = true
        | _ => False
        end
    | At PlFini p => match p with PlTop | PlSentinel _ => True | _ => False end
    | Parked (PlSubmit r) dl p => dl = None /\ exists j u b, p = PlWait j /\ pl_jobs s !! j = Some (r, u) /\
        pl_boxes s !! j = Some b /\ bx_parker b = t
    | Parked (PlWork k) dl p => exists d, dl = Some d /\ p = PlGet d
    | Parked PlFini _ _ | Sleeping _ _ _ => False
    | Waking o _ r => (exists k, o = PlWork k) /\ r = Ret PlAgain
    | Fin (PlSubmit r) x => x = submit_out r
    | _ => True
    end
}.

Lemma in_qs_push qs k q x k' j r : qs !! k = Some q ->
  in_qs (<[k := q ++ [x]]> qs) k' j r <-> in_qs qs k' j r \/ k' = k /\ x = PJob j r.
Proof.
  intros Hk. pose proof (lookup_lt_Some _ _ _ Hk) as Hlt. unfold in_qs. destruct (decide (k = k')) as [<-|Hne].
  - rewrite list_lookup_insert_eq by done. rewrite Hk. split.
    + intros (q' & [= <-] & [?|?%list_elem_of_singleton]%elem_of_app); [by eauto|by right].
    + intros [(q' & [= <-] & ?)|[_ ->]]; eexists; (split; [done|]); apply elem_of_app; [by left|right; by left].
  - rewrite list_lookup_insert_ne by done. naive_solver.
Qed.

Lemma in_qs_pop qs k x q k' j r : qs !! k = Some (x :: q) ->
  in_qs qs k' j r <-> in_qs (<[k := q]> qs) k' j r \/ k' = k /\ x = PJob j r.
Proof.
  intros Hk. pose proof (lookup_lt_Some _ _ _ Hk) as Hlt. unfold in_qs. destruct (decide (k = k')) as [<-|Hne].
  - rewrite list_lookup_insert_eq by done. rewrite Hk. split.
    + intros (q' & [= <-] & [Hx|?]%elem_of_cons); [by right|left; eauto].
    + intros [(q' & [= <-] & ?)|[_ ->]]; eexists; (split; [done|]); [by right|by left].
  - rewrite list_lookup_insert_ne by done. naive_solver.
Qed.

Lemma elem_of_q_jobs j q : j ∈ q_jobs q <-> exists r, PJob j r ∈ q.
Proof.
  unfold q_jobs. rewrite list_elem_of_omap. split.
  - intros ([j' r|] & Hin & [= <-]). by eauto.
  - intros [r Hin]. by exists (PJob j r).
Qed.

(** What a step of [t] keeps for every other thread. *)
Record pl_rel (t : tid) (s s' : pool) : Prop := {
  plr_size : pl_size s' = pl_size s;
  plr_keep j r o b : pl_jobs s !! j = Some (r, o) -> pl_boxes s !! j = Some b ->
    exists o' b', pl_jobs s' !! j = Some (r, o') /\ pl_boxes s' !! j = Some b' /\ bx_parker b' = bx_parker b /\
      (bx_done b = true -> bx_done b' = true) /\ (forall t', t' ≠ t -> o = Some t' -> o' = o /\ b' = b);
  plr_new j r t' : t' ≠ t -> pl_jobs s' !! j = Some (r, Some t') -> pl_jobs s !! j = Some (r, Some t')
}.

Lemma pl_rel_same t s s' : pl_size s' = pl_size s -> pl_jobs s' = pl_jobs s -> pl_boxes s' = pl_boxes s -> pl_rel t s s'.
Proof. intros E1 E2 E3. split; rewrite ?E2, ?E3; eauto 10. Qed.

Lemma pl_local_keep t s s' t' c : pl_rel t s s' -> pl_ok s -> t' ≠ t -> pl_local s t' c -> pl_local s' t' c.
Proof.
  intros [Hsz Hk Hn] Hok Hne [H1 H2].
  assert (Hmine : forall j r b, pl_jobs s !! j = Some (r, Some t') -> pl_boxes s !! j = Some b ->
    pl_jobs s' !! j = Some (r, Some t') /\ pl_boxes s' !! j = Some b).
  { intros j r b Hj Hb. destruct (Hk j r (Some t') b Hj Hb) as (o' & b' & ? & ? & _ & _ & Hs). destruct (Hs t') as [-> ->]; done. }
  split.
  - intros j r Hj. apply Hn in Hj; [|done]. destruct (H1 j r Hj) as [?|(b & Hb & ? & ?)]; [by left|right].
    exists b. split; [|done]. by apply (Hmine j r b).
  - destruct c as [|[r|k|] p|o dl p|o u p|o l x|[] x]; try done.
    + destruct p; try done; [by rewrite Hsz..| |];
        destruct H2 as (o & b & Hj & Hb & ?); destruct (Hk _ _ _ _ Hj Hb) as (o' & b' & ? & ? & Ep & Hd & _);
        exists o', b'; [rewrite Ep|]; auto.
    + destruct p; try done.
      * destruct H2 as (b & Hj & Hb & ?). exists b. by destruct (Hmine _ _ _ Hj Hb).
      * destruct H2 as (r & b & Hj & Hb & ?). exists r, b. by destruct (Hmine _ _ _ Hj Hb).
      * destruct H2 as (r & b & Hj & Hb & ?). exists r, b. by destruct (Hmine _ _ _ Hj Hb).
    + destruct o as [r|k|]; try done. destruct H2 as (-> & j & u & b & -> & Hj & Hb & Hp). split; [done|].
      destruct (Hk _ _ _ _ Hj Hb) as (o' & b' & ? & ? & Ep & _). exists j, o', b'. split_and!; congruence.
Qed.

Definition pl_step_ok (s s' : pool) (t : tid) (c' : pl_ctl) : Prop := pl_ok s' /\ pl_local s' t c' /\ pl_rel t s s'.

(** A step that leaves the object alone. *)
Lemma pl_stay s t c c' : pl_ok s -> pl_local s t c -> pl_hand c' = pl_hand c ->
  ((forall j r, pl_jobs s !! j = Some (r, Some t) -> pl_hand c' = Some j \/
     exists b, pl_boxes s !! j = Some b /\ bx_done b = true /\ bx_woken b = true) -> pl_local s t c') ->
  pl_step_ok s s t c'.
Proof.
  intros Hok [H1 H2] Eh Hl. split_and!; [done|apply Hl; by rewrite Eh|by apply pl_rel_same].
Qed.

(** [put] of a fresh job on shard [k]. *)
Lemma pl_put_ok s t k r : pl_ok s -> pl_local s t (At (PlSubmit r) (PlPut k)) ->
  pl_step_ok s (pl_submit t r (PlPut k) s).1 t (At (PlSubmit r) (PlWait (pl_next s))).
Proof.
  intros Hok [H1 H2]. simpl in H2. pose proof Hok as [Hrr Hq Hnd Hone Hj].
  destruct (lookup_lt_is_Some_2 (pl_qs s) k H2) as [q Eq]. simpl. rewrite Eq. simpl.
  assert (Hfr : pl_jobs s !! pl_next s = None).
  { destruct (pl_jobs s !! pl_next s) as [[r' o]|] eqn:E; [|done]. apply Hj in E as [? _]. lia. }
  assert (Hnq : forall k' r', ~ in_q s k' (pl_next s) r').
  { intros k' r' (b & E & _)%Hq. congruence. }
  assert (Hother : forall j r' o, pl_jobs s !! j = Some (r', o) -> pl_next s ≠ j) by (intros j r' o E <-; congruence).
  split_and!.
  - split; simpl.
    + unfold pl_size. simpl. by rewrite length_insert.
    + intros k' j r'. rewrite in_qs_push by done. intros [Hin|[-> [= <- <-]]].
      * destruct (Hq _ _ _ Hin) as (b & Ej & Eb & Hb). exists b. rewrite !lookup_insert_ne by eauto. done.
      * eexists. rewrite !lookup_insert_eq. done.
    + intros k' q'. destruct (decide (k = k')) as [<-|Hne]; [|rewrite list_lookup_insert_ne by done; apply Hnd].
      rewrite list_lookup_insert_eq by done. intros [= <-]. unfold q_jobs. rewrite omap_app. simpl.
      apply NoDup_app. split_and!; [by apply (Hnd k)| |apply NoDup_singleton].
      intros j Hin Hx%list_elem_of_singleton. subst. apply elem_of_q_jobs in Hin as [r' Hin]. apply (Hnq k r'). by exists q.
    + intros k1 k2 j r1 r2. rewrite !in_qs_push by done.
      intros [Hi1|[-> [= <- <-]]] [Hi2|[-> E]]; simplify_eq; [by eapply Hone|by destruct (Hnq _ _ Hi1)|by destruct (Hnq _ _ Hi2)|done].
    + intros j r' o [[<- [= <- <-]]|[Hne Ej]]%lookup_insert_Some.
      * split; [lia|]. split; [intros _; exists k; rewrite in_qs_push by done; by right|].
        eexists. rewrite lookup_insert_eq. done.
      * destruct (Hj _ _ _ Ej) as (? & Hin & b & Eb & ?). split; [lia|]. split.
        { intros [k' ?]%Hin. exists k'. rewrite in_qs_push by done. by left. }
        exists b. by rewrite lookup_insert_ne.
  - split; simpl.
    + intros j r' [[<- [=]]|[Hne Ej]]%lookup_insert_Some.
      destruct (H1 _ _ Ej) as [?|(b & Eb & ?)]; [done|right]. exists b. by rewrite lookup_insert_ne.
    + eexists _, _. rewrite !lookup_insert_eq. done.
  - split; simpl.
    + unfold pl_size. simpl. by rewrite length_insert.
    + intros j r' o b Ej Eb. exists o, b. rewrite !lookup_insert_ne by eauto. done.
    + intros j r' t' _ [[<- [=]]|[Hne Ej]]%lookup_insert_Some. done.
Qed.

(** [get] of a job or of a sentinel at the head of shard [k]. *)
Lemma pl_take_job_ok s t c sh k j r q : pl_ok s -> pl_local s t c -> pl_hand c = None -> pl_qs s !! k = Some (PJob j r :: q) ->
  pl_step_ok s (Pool (<[k := q]> (pl_qs s)) (pl_rr s) (pl_boxes s) (pl_next s) (<[j := (r, Some t)]> (pl_jobs s)) (pl_fini s) (pl_early s))
    t (At (PlWork sh) (PlRun j r)).
Proof.
  intros Hok [H1 _] Hh Eq. pose proof Hok as [Hrr Hq Hnd Hone Hj]. rewrite Hh in H1.
  assert (Hin : in_q s k j r) by (eexists; split; [done|by left]).
  destruct (Hq _ _ _ Hin) as (b & Ej & Eb & Hb).
  assert (Hnot : forall k' r', ~ in_qs (<[k:=q]> (pl_qs s)) k' j r').
  { intros k' r' Hin'. assert (in_q s k' j r') as Hi2 by (rewrite in_qs_pop by done; by left).
    pose proof (Hone _ _ _ _ _ Hin Hi2) as <-. destruct Hin' as (q' & E' & Hx).
    rewrite list_lookup_insert_eq in E' by (by eapply lookup_lt_Some). simplify_eq.
    pose proof (Hnd _ _ Eq) as Hd. unfold q_jobs in Hd. simpl in Hd. apply NoDup_cons in Hd as [Hd _].
    apply Hd. apply (elem_of_q_jobs j q'). by exists r'. }
  split_and!.
  - split; simpl.
    + unfold pl_size. simpl. by rewrite length_insert.
    + intros k' j' r' Hin'. assert (j ≠ j') as Hne by (intros <-; by apply Hnot in Hin').
      rewrite lookup_insert_ne by done. apply (Hq k'). rewrite in_qs_pop by done. by left.
    + intros k' q'. destruct (decide (k = k')) as [<-|Hne]; [|rewrite list_lookup_insert_ne by done; apply Hnd].
      rewrite list_lookup_insert_eq by (by eapply lookup_lt_Some). intros [= <-].
      pose proof (Hnd _ _ Eq) as Hd. unfold q_jobs in Hd. simpl in Hd. by apply NoDup_cons in Hd as [_ Hd].
    + intros k1 k2 j' r1 r2 Hi1 Hi2. eapply (Hone _ _ j'); rewrite in_qs_pop by done; by left.
    + intros j' r' o [[<- [= <- <-]]|[Hne Ej']]%lookup_insert_Some.
      { destruct (Hj _ _ _ Ej) as (? & _ & b' & ? & ? & _). split; [done|]. split; [done|]. by exists b'. }
      destruct (Hj _ _ _ Ej') as (? & Hx & b' & ? & ?). split; [done|]. split; [|by exists b'].
      intros [k' Hi]%Hx. exists k'. rewrite in_qs_pop in Hi by done. destruct Hi as [?|[-> [=]]]; done.
  - split; simpl.
    + intros j' r' [[<- [= <-]]|[Hne Ej']]%lookup_insert_Some; [by left|]. right. destruct (H1 _ _ Ej'); done.
    + exists b. by rewrite lookup_insert_eq.
  - split; simpl.
    + unfold pl_size. simpl. by rewrite length_insert.
    + intros j' r' o b' Ej' Eb'. destruct (decide (j = j')) as [<-|Hne].
      { exists (Some t), b'. rewrite lookup_insert_eq. split_and!; try done; [congruence|]. intros t' Ht ->. congruence. }
      exists o, b'. by rewrite lookup_insert_ne.
    + intros j' r' t' Ht [[<- [=]]|[Hne Ej']]%lookup_insert_Some; [congruence|done].
Qed.

Lemma pl_take_sentinel_ok s t c sh k q : pl_ok s -> pl_local s t c -> pl_hand c = None -> pl_qs s !! k = Some (PShutdown :: q) ->
  pl_step_ok s (pl_set_qs (<[k := q]> (pl_qs s)) s) t (At (PlWork sh) PlExit).
Proof.
  intros Hok [H1 _] Hh Eq. pose proof Hok as [Hrr Hq Hnd Hone Hj]. rewrite Hh in H1.
  split_and!.
  - split; simpl; try done.
    + unfold pl_size. simpl. by rewrite length_insert.
    + intros k' j' r' Hin'. apply (Hq k'). rewrite in_qs_pop by done. by left.
    + intros k' q'. destruct (decide (k = k')) as [<-|Hne]; [|rewrite list_lookup_insert_ne by done; apply Hnd].
      rewrite list_lookup_insert_eq by (by eapply lookup_lt_Some). intros [= <-]. by apply (Hnd _ _ Eq).
    + intros k1 k2 j' r1 r2 Hi1 Hi2. eapply (Hone _ _ j'); rewrite in_qs_pop by done; by left.
    + intros j' r' o Ej'. destruct (Hj _ _ _ Ej') as (? & Hx & b' & ? & ?). split; [done|]. split; [|by exists b'].
      intros [k' Hi]%Hx. exists k'. rewrite in_qs_pop in Hi by done. by destruct Hi as [?|[-> [=]]].
  - split; simpl; [|done]. intros j' r' Ej'. right. destruct (H1 _ _ Ej'); done.
  - apply pl_rel_same; try done. unfold pl_size. simpl. by rewrite length_insert.
Qed.

Lemma pl_take_ok s t c sh k s' p : pl_ok s -> pl_local s t c -> pl_hand c = None -> pl_take t k s = Some (s', p) ->
  pl_step_ok s s' t (At (PlWork sh) p).
Proof.
  intros Hok Hl Hh H. unfold pl_take in H. destruct (pl_qs s !! k) as [[|[j r|] q]|] eqn:Eq; simplify_eq.
  - by eapply pl_take_job_ok.
  - by eapply pl_take_sentinel_ok.
Qed.

(** Storing in the box of the job in hand. *)
Lemma pl_box_ok s t c j r b b' : pl_ok s -> pl_local s t c -> pl_hand c = Some j ->
  pl_jobs s !! j = Some (r, Some t) -> pl_boxes s !! j = Some b ->
  bx_parker b' = bx_parker b -> (bx_done b = true -> bx_done b' = true) -> (bx_done b' = true -> bx_has r b') ->
  let s' := pl_set_boxes (<[j := b']> (pl_boxes s)) s in
  pl_ok s' /\ pl_rel t s s' /\
  (forall j' r', pl_jobs s' !! j' = Some (r', Some t) -> j' = j \/
     exists b2, pl_boxes s' !! j' = Some b2 /\ bx_done b2 = true /\ bx_woken b2 = true).
Proof.
  intros Hok [H1 _] Hh Ej Eb Ep Hd Hd' s'. pose proof Hok as [Hrr Hq Hnd Hone Hj]. split_and!.
  - split; simpl; try done.
    + intros k j' r' Hin. destruct (Hq _ _ _ Hin) as (b0 & E1 & E2 & ?). exists b0.
      destruct (decide (j = j')) as [<-|Hne]; [congruence|]. by rewrite lookup_insert_ne.
    + intros j' r' o E'. destruct (Hj _ _ _ E') as (? & ? & b0 & E0 & ? & Hf). split_and!; [done..|].
      destruct (decide (j = j')) as [<-|Hne]; [|exists b0; by rewrite lookup_insert_ne].
      exists b'. rewrite lookup_insert_eq. simplify_eq. done.
  - split; simpl; [done| |done]. intros j' r' o b0 E' E0. destruct (decide (j = j')) as [<-|Hne].
    + simplify_eq. exists (Some t), b'. rewrite lookup_insert_eq. split_and!; try done. intros t' Ht [= ->]. done.
    + exists o, b0. rewrite lookup_insert_ne by done. done.
  - intros j' r' E'. simpl in *. destruct (H1 _ _ E') as [E|(b0 & ? & ?)]; [left; congruence|].
    destruct (decide (j = j')) as [<-|Hne]; [by left|right]. exists b0. by rewrite lookup_insert_ne.
Qed.

(** [put] of a sentinel on shard [k]. *)
Lemma pl_sentinel_ok s t c c' k q n e : pl_ok s -> pl_local s t c -> pl_qs s !! k = Some q ->
  (forall s', pl_jobs s' = pl_jobs s -> pl_boxes s' = pl_boxes s -> pl_local s' t c') ->
  pl_step_ok s (Pool (<[k := q ++ [PShutdown]]> (pl_qs s)) (pl_rr s) (pl_boxes s) (pl_next s) (pl_jobs s) n e) t c'.
Proof.
  intros Hok _ Eq Hc'. pose proof Hok as [Hrr Hq Hnd Hone Hj].
  assert (Hin : forall k' j r, in_qs (<[k := q ++ [PShutdown]]> (pl_qs s)) k' j r <-> in_q s k' j r).
  { intros k' j r. rewrite in_qs_push by done. naive_solver. }
  split_and!; [|by apply Hc'|apply pl_rel_same; try done; unfold pl_size; simpl; by rewrite length_insert].
  split; simpl.
  - unfold pl_size. simpl. by rewrite length_insert.
  - intros k' j r. rewrite Hin. apply Hq.
  - intros k' q'. destruct (decide (k = k')) as [<-|Hne]; [|rewrite list_lookup_insert_ne by done; apply Hnd].
    rewrite list_lookup_insert_eq by (by eapply lookup_lt_Some). intros [= <-]. unfold q_jobs. rewrite omap_app. simpl.
    rewrite app_nil_r. by apply (Hnd k).
  - intros k1 k2 j r1 r2. rewrite !Hin. apply Hone.
  - intros j r o E. destruct (Hj _ _ _ E) as (? & Hx & Hb). split_and!; [done| |done].
    intros [k' ?]%Hx. exists k'. by rewrite Hin.
Qed.

(** ** Shutdown bookkeeping *)

(** A job that was queued on a shard when its sentinel was put has a sentinel behind it. *)
Record pl_drain (s : pool) : Prop := {
  pld_behind k l1 j r l2 : pl_qs s !! k = Some (l1 ++ PJob j r :: l2) -> j ∈ pl_early s -> PShutdown ∈ l2;
  pld_early j : j ∈ pl_early s -> (j < pl_next s)%nat
}.

(** Sentinels still queued. *)
Definition q_sents (q : list pitem) : Z := Z.of_nat (length (filter (λ x, x = PShutdown) q)).
Definition pl_sents (qs : list (list pitem)) : Z := foldr (λ q n, q_sents q + n) 0 qs.

(** Workers that have taken a sentinel. *)
Definition pl_own (c : pl_ctl) : Z :=
  match c with At (PlWork _) PlExit | Fin (PlWork _) (Ret PlExited) => 1 | _ => 0 end.
Definition pl_bal (s : pool) : Z := Z.of_nat (pl_fini s) - pl_sents (pl_qs s).

Lemma pl_sents_insert qs k q q' : qs !! k = Some q -> pl_sents (<[k := q']> qs) = pl_sents qs - q_sents q + q_sents q'.
Proof.
  revert k. induction qs as [|q0 qs IH]; intros [|k] Hk; simplify_eq/=; [lia|]. rewrite (IH k Hk). lia.
Qed.

Lemma pl_sents_in qs k q : pl_sents qs = 0 -> qs !! k = Some q -> PShutdown ∉ q.
Proof.
  assert (Hnn : forall l, 0 <= pl_sents l) by (induction l; simpl; unfold q_sents; lia).
  revert k. induction qs as [|q0 qs IH]; intros [|k] Hs Hk; simplify_eq/=; pose proof (Hnn qs).
  - intros Hin. assert (PShutdown ∈ filter (λ x, x = PShutdown) q) as Hf by (by apply list_elem_of_filter).
    unfold q_sents in Hs. destruct (filter (λ x, x = PShutdown) q); [by apply not_elem_of_nil in Hf|simpl in Hs; lia].
  - apply (IH k); [|done]. unfold q_sents in Hs. lia.
Qed.

(** Where an element of [q ++ [x]] sits. *)
Lemma list_snoc_inv_app {A} (q : list A) x l1 y l2 : q ++ [x] = l1 ++ y :: l2 ->
  (x = y /\ l2 = []) \/ exists l3, q = l1 ++ y :: l3 /\ l2 = l3 ++ [x].
Proof.
  destruct l2 as [|z l2 _] using rev_ind; intros E; [left|right].
  - apply app_inj_tail in E as [_ ->]. done.
  - change (l1 ++ y :: l2 ++ [z]) with (l1 ++ (y :: l2) ++ [z]) in E. rewrite (assoc_L (++)) in E.
    apply app_inj_tail in E as [-> ->]. eauto.
Qed.

(** A push keeps every sentinel behind what it was behind; a pop takes from the front. *)
Lemma pl_drain_push s s' k q x : pl_drain s -> pl_qs s !! k = Some q -> pl_qs s' = <[k := q ++ [x]]> (pl_qs s) ->
  (pl_next s <= pl_next s')%nat ->
  (forall j, j ∈ pl_early s' -> j ∈ pl_early s \/ (x = PShutdown /\ j ∈ q_jobs q)) ->
  (forall j, j ∈ pl_early s' -> (j < pl_next s')%nat) ->
  (forall k' j r, j ∈ q_jobs q -> in_q s k' j r -> k' = k) ->
  (forall j r, x = PJob j r -> j ∉ pl_early s) ->
  pl_drain s'.
Proof.
  intros [Hb He] Eq Eq' Hn Hs Hlt Hone Hx. split; [|exact Hlt].
  intros k' l1 j r l2. rewrite Eq'. destruct (decide (k = k')) as [<-|Hne].
  - rewrite list_lookup_insert_eq by (by eapply lookup_lt_Some). intros [= E] Hj.
    destruct (list_snoc_inv_app _ _ _ _ _ E) as [(-> & ->)|(l3 & -> & ->)].
    + destruct (Hs _ Hj) as [Hj'|[? _]]; [|done]. by destruct (Hx _ _ eq_refl).
    + apply elem_of_app. destruct (Hs _ Hj) as [Hj'|[-> _]]; [left; by eapply Hb|right; by left].
  - rewrite list_lookup_insert_ne by done. intros E Hj. destruct (Hs _ Hj) as [Hj'|[_ Hj']]; [by eapply Hb|].
    destruct Hne. symmetry. apply (Hone k' j r Hj'). eexists. split; [done|]. apply elem_of_app. right. by left.
Qed.

Lemma pl_drain_pop s s' k x q : pl_drain s -> pl_qs s !! k = Some (x :: q) -> pl_qs s' = <[k := q]> (pl_qs s) ->
  pl_next s' = pl_next s -> pl_early s' = pl_early s -> pl_drain s'.
Proof.
  intros [Hb He] Eq Eq' En Ee. split; rewrite Ee; [|by rewrite En].
  intros k' l1 j r l2. rewrite Eq'. destruct (decide (k = k')) as [<-|Hne].
  - rewrite list_lookup_insert_eq by (by eapply lookup_lt_Some). intros [= ->]. by apply (Hb k (x :: l1) j r).
  - rewrite list_lookup_insert_ne by done. apply Hb.
Qed.

Lemma pl_drain_same s s' : pl_drain s -> pl_qs s' = pl_qs s -> pl_next s' = pl_next s -> pl_early s' = pl_early s -> pl_drain s'.
Proof. intros [Hb He] E1 E2 E3. split; rewrite ?E1, ?E2, ?E3; eauto. Qed.

(** What every block establishes. *)
Definition pl_block_ok (s s' : pool) (t : tid) (c c' : pl_ctl) : Prop :=
  pl_step_ok s s' t c' /\ pl_drain s' /\ pl_own c' - pl_own c = pl_bal s' - pl_bal s.

Lemma q_sents_cons x q : q_sents (x :: q) = (if decide (x = PShutdown) then 1 else 0) + q_sents q.
Proof. unfold q_sents. rewrite filter_cons. case_decide; simpl; lia. Qed.

Lemma q_sents_snoc x q : q_sents (q ++ [x]) = q_sents q + (if decide (x = PShutdown) then 1 else 0).
Proof. unfold q_sents. rewrite filter_app, length_app, filter_cons. case_decide; simpl; lia. Qed.

Lemma pl_take_block s t sh k s' p c : pl_ok s -> pl_drain s -> pl_local s t c -> pl_hand c = None -> pl_own c = 0 ->
  pl_take t k s = Some (s', p) -> pl_block_ok s s' t c (At (PlWork sh) p).
Proof.
  intros Hok Hd Hl Hh Ho H. split; [by eapply pl_take_ok|]. unfold pl_take in H.
  destruct (pl_qs s !! k) as [[|[j r|] q]|] eqn:Eq; simplify_eq.
  - split; [by eapply pl_drain_pop|]. unfold pl_bal. simpl. rewrite (pl_sents_insert _ _ _ _ Eq), Ho, q_sents_cons. simpl. lia.
  - split; [by eapply pl_drain_pop|]. unfold pl_bal. simpl. rewrite (pl_sents_insert _ _ _ _ Eq), Ho, q_sents_cons. simpl. lia.
Qed.

(** A block that only moves its thread. *)
Lemma pl_stay_block s t c c' : pl_ok s -> pl_drain s -> pl_local s t c -> pl_hand c' = pl_hand c -> pl_own c' = pl_own c ->
  ((forall j r, pl_jobs s !! j = Some (r, Some t) -> pl_hand c' = Some j \/
     exists b, pl_boxes s !! j = Some b /\ bx_done b = true /\ bx_woken b = true) -> pl_local s t c') ->
  pl_block_ok s s t c c'.
Proof. intros Hok Hd Hl Eh Eo Hc. split_and!; [by eapply pl_stay|done|lia]. Qed.

Lemma pl_box_block s t c sh p j r b b' : pl_ok s -> pl_drain s -> pl_local s t c -> pl_hand c = Some j -> pl_own c = 0 ->
  pl_jobs s !! j = Some (r, Some t) -> pl_boxes s !! j = Some b ->
  bx_parker b' = bx_parker b -> (bx_done b = true -> bx_done b' = true) -> (bx_done b' = true -> bx_has r b') ->
  let s' := pl_set_boxes (<[j := b']> (pl_boxes s)) s in
  (p = PlFlag j /\ bx_has r b' /\ bx_done b' = false /\ bx_woken b' = false) \/
  (p = PlWake j /\ bx_has r b' /\ bx_done b' = true /\ bx_woken b' = false) ->
  pl_block_ok s s' t c (At (PlWork sh) p).
Proof.
  intros Hok Hd Hl Hh Ho Ej Eb Ep H1 H2 s' Hp.
  destruct (pl_box_ok s t c j r b b' Hok Hl Hh Ej Eb Ep H1 H2) as (Hok' & Hrel & Hmine).
  split_and!; [split_and!; [done| |done]|by eapply pl_drain_same|].
  - split.
    + intros j' r' [->|?]%Hmine; [left|by right]. by destruct Hp as [[-> _]|[-> _]].
    + destruct Hp as [[-> ?]|[-> ?]]; exists r, b'; simpl; by rewrite lookup_insert_eq.
  - unfold pl_bal. simpl. rewrite Ho. destruct Hp as [[-> _]|[-> _]]; simpl; lia.
Qed.

Lemma pl_work_ok s t now sh p s' a : pl_ok s -> pl_drain s -> pl_local s t (At (PlWork sh) p) ->
  pl_work t now sh p s = (s', a) -> pl_block_ok s s' t (At (PlWork sh) p) (act_ctl (PlWork sh) a).
Proof.
  intros Hok Hd Hl H. pose proof (pll_pc _ _ _ Hl) as Hp. destruct p; simpl in Hp; try done; simpl in H.
  - simplify_eq. eapply pl_stay_block; [done..|]. by split.
  - destruct (pl_take t sh s) as [[s1 p1]|] eqn:E; [simplify_eq; by eapply pl_take_block|].
    destruct (dl <=? now); simplify_eq; (eapply pl_stay_block; [done..|]); split; simpl; eauto.
  - destruct (bool_decide (k < pl_size s)%nat).
    + destruct (pl_take t _ s) as [[s1 p1]|] eqn:E; simplify_eq; [by eapply pl_take_block|].
      eapply pl_stay_block; [done..|]. by split.
    + simplify_eq. eapply pl_stay_block; [done..|]. by split.
  - destruct Hp as (b & Ej & Eb & Hr & He & Hdn & Hw). simplify_eq. simpl.
    rewrite (alter_as_insert _ _ _ _ Eb).
    assert (bx_has r (bx_store r b)) by (destruct r; simpl; done).
    eapply (pl_box_block s t _ sh _ j r b); try done; [by destruct r|destruct r; simpl; congruence|].
    left. split_and!; try done; by destruct r.
  - destruct Hp as (r & b & Ej & Eb & Hh & Hdn & Hw). simplify_eq. simpl.
    rewrite (alter_as_insert _ _ _ _ Eb).
    eapply (pl_box_block s t _ sh _ j r b); try done. right. split_and!; try done.
  - destruct Hp as (r & b & Ej & Eb & Hh & Hdn & Hw). rewrite Eb in H. simplify_eq. simpl.
    destruct (pl_box_ok s t _ j r b (bx_wake b) Hok Hl eq_refl Ej Eb) as (Hok' & Hrel & Hmine); [done..|].
    split_and!; [split_and!; [done| |done]|by eapply pl_drain_same|unfold pl_bal; simpl; lia].
    split; simpl; [|by eauto]. intros j' r' [->|?]%Hmine; [|by right]. right. exists (bx_wake b). simpl. by rewrite lookup_insert_eq.
  - simplify_eq. eapply pl_stay_block; [done..|]. by split.
Qed.

Lemma pl_submit_ok s t r p s' a : pl_ok s -> pl_drain s -> pl_local s t (At (PlSubmit r) p) ->
  pl_submit t r p s = (s', a) -> pl_block_ok s s' t (At (PlSubmit r) p) (act_ctl (PlSubmit r) a).
Proof.
  intros Hok Hd Hl H. pose proof (pll_pc _ _ _ Hl) as Hp. pose proof Hok as [Hrr Hq Hnd Hone Hj].
  destruct p as [|k|k|j|j| | | | | | |]; simpl in Hp; try done; simpl in H.
  - simplify_eq. eapply pl_stay_block; [done..|]. by split.
  - simplify_eq. split_and!; [|by eapply pl_drain_same|unfold pl_bal; simpl; lia].
    split_and!; [|by split; [apply Hl|]|by apply pl_rel_same].
    split; [|done..]. apply Nat.mod_upper_bound. change (pl_size s ≠ 0%nat). lia.
  - pose proof (pl_put_ok s t k r Hok Hl) as Hst. simpl in Hst. destruct (lookup_lt_is_Some_2 (pl_qs s) k Hp) as [q Eq].
    rewrite Eq in *. simpl in *. simplify_eq. simpl. split_and!; [done| |].
    + eapply (pl_drain_push s _ k q); try done; simpl; [lia|by left| | |].
      * intros j ?%(pld_early s Hd). lia.
      * intros k' j r' [r2 Hin]%elem_of_q_jobs Hi. symmetry. eapply (Hone k k' j r2 r'); [by exists q|done].
      * intros j r' [= <- <-] ?%(pld_early s Hd). lia.
    + unfold pl_bal. simpl pl_qs. simpl pl_fini. simpl pl_own. rewrite (pl_sents_insert _ _ _ _ Eq), q_sents_snoc.
    rewrite decide_False by done. lia.
  - destruct Hp as (o & b & Ej & Eb & Ep). rewrite Eb in H.
    destruct (bx_done b) eqn:Edn; simplify_eq; (eapply pl_stay_block; [done..|]); split; simpl; eauto 10.
  - destruct Hp as (o & b & Ej & Eb & Edn). rewrite Eb in H. simplify_eq. eapply pl_stay_block; [done..|]. split; [done|].
    simpl. destruct (Hj _ _ _ Ej) as (_ & _ & b' & Eb' & Hh & _). simplify_eq. specialize (Hh Edn).
    destruct r; simpl in *; [destruct Hh as [-> ->]|rewrite Hh]; done.
Qed.

Lemma pl_fini_ok s t p s' a : pl_ok s -> pl_drain s -> pl_local s t (At PlFini p) ->
  pl_do_fini p s = (s', a) -> pl_block_ok s s' t (At PlFini p) (act_ctl PlFini a).
Proof.
  intros Hok Hd Hl H. unfold pl_do_fini in H. pose proof Hok as [Hrr Hq Hnd Hone Hj].
  set (k := match p with PlSentinel k => k | _ => 0%nat end) in *.
  case_bool_decide as Hk; simplify_eq; [|eapply pl_stay_block; [done..|by split|by split]].
  destruct (lookup_lt_is_Some_2 (pl_qs s) k Hk) as [q Eq]. rewrite Eq. simpl. split_and!.
  - apply (pl_sentinel_ok s t _ _ k q _ _ Hok Hl Eq). intros s' E1 E2. split; [|done].
    rewrite E1, E2. apply Hl.
  - eapply (pl_drain_push s _ k q PShutdown); try done; simpl.
    + intros j [?%elem_of_list_to_set|?]%elem_of_union; [by right|by left].
    + intros j [[r Hin]%elem_of_list_to_set%elem_of_q_jobs|?%(pld_early s Hd)]%elem_of_union; [|done].
      destruct (Hq k j r) as (b & Ej & _); [by exists q|]. by apply Hj in Ej as [? _].
    + intros k' j r' [r2 Hin]%elem_of_q_jobs Hi. symmetry. eapply (Hone k k' j r2 r'); [by exists q|done].
  - unfold pl_bal. simpl pl_qs. simpl pl_fini. simpl pl_own. rewrite (pl_sents_insert _ _ _ _ Eq), q_sents_snoc.
    rewrite decide_True by done. lia.
Qed.

(** A submitter parked although its job has been finished and its parker unparked. *)
Definition pl_ready (s : pool) (t : tid) (c : pl_ctl) : bool :=
  match c with
  | Parked (PlSubmit _) _ (PlWait j) =>
      match pl_boxes s !! j with Some b => bx_done b && bx_woken b | None => false end
  | _ => false
  end.

Section pool.
Context (isf : tid -> bool) (shard_of : tid -> option nat).
Abbreviation pl_G := (λ s, pl_ok s /\ pl_drain s).

#[local] Instance pl_quiet : quiet_moves pl_machine (pl_use shard_of) pl_G pl_local pl_own.
Proof.
  split; [done| | | | |].
  - intros s t c o Hr Hm [Hok _] [H1 H2]. split.
    + split; [|by destruct o]. intros j r Hj. right. destruct (H1 j r Hj) as [Hh|?]; [|done]. by destruct c as [|[] []| | | |].
    + destruct c as [| | | | |[r|k|] [[]|]], o as [r'|k'|]; simpl in *; try done;
        rewrite ?andb_false_r in Hm; done.
  - intros s t o dl p [H1 H2]. split; [|destruct o as [r|k|]; try done; by destruct H2 as (d & _ & ->)].
    split; [|destruct o as [r|k|]; try done; [destruct H2 as (_ & j & u & b & -> & ?); eauto|by destruct H2 as (d & _ & ->)]].
    intros j r Hj. right. by destruct (H1 j r Hj).
  - by intros s t o u p [_ []].
  - intros s t o g l r [H1 H2]. split; [by split|done].
  - intros s t o r [H1 H2]. destruct H2 as [[k ->] ->]. split; [by split|done].
Qed.

Lemma pl_blocks : blocks_ok pl_machine isf pl_G pl_local pl_own pl_bal.
Proof.
  intros t now o p s s' a [Hok Hd] Hl H. simpl in H.
  assert (pl_block_ok s s' t (At o p) (act_ctl o a)) as ((Hok' & Hl' & Hrel) & Hd' & Hb).
  { destruct o as [r|k|]; [by apply (pl_submit_ok s t r p)|by eapply pl_work_ok|by apply (pl_fini_ok s t p)]. }
  split_and!; [done..| |done]. intros t' c Hne. by apply pl_local_keep with t.
Qed.

(** A changed box of a job someone waits for. *)
Lemma pl_ready_changed s s' t c : pl_ready s t c = false -> pl_ready s' t c = true -> pl_local s t c ->
  exists r dl j u b b', c = Parked (PlSubmit r) dl (PlWait j) /\ pl_jobs s !! j = Some (r, u) /\ pl_boxes s !! j = Some b /\
    bx_parker b = t /\ pl_boxes s' !! j = Some b' /\ bx_done b && bx_woken b = false /\ bx_done b' && bx_woken b' = true.
Proof.
  intros H1 H2 [_ Hl]. destruct c as [| |[r| |] dl p| | |]; try done.
  destruct Hl as (_ & j & u & b & -> & ? & Eb & ?). simpl in *. rewrite Eb in H1.
  destruct (pl_boxes s' !! j) as [b'|] eqn:E; [|done]. by exists r, dl, j, u, b, b'.
Qed.

Lemma pl_ready_same s s' t c : pl_boxes s' = pl_boxes s -> pl_ready s' t c = pl_ready s t c.
Proof. intros E. unfold pl_ready. by rewrite E. Qed.

Lemma pl_boxes_take t k s s' p : pl_take t k s = Some (s', p) -> pl_boxes s' = pl_boxes s.
Proof. unfold pl_take. intros H. by cases_in H; simplify_eq. Qed.

Lemma pl_cover t now o p s s' a t' c' : pl_G s -> pl_local s t (At o p) -> pl_block t (isf t) now o p s = (s', a) ->
  t' ≠ t -> pl_local s t' c' -> pl_ready s t' c' = false -> pl_ready s' t' c' = true -> exists l r, a = AWake l r /\ t' ∈ l.
Proof.
  intros [Hok _] Hl H Hne Hl' Hr Hr'.
  assert (Hch : pl_boxes s' ≠ pl_boxes s) by (intros E; by rewrite (pl_ready_same s s'), Hr in Hr').
  destruct (pl_ready_changed s s' t' c' Hr Hr' Hl') as (r & dl & j & u & b & b' & -> & Ej & Eb & Ep & Eb' & Hw & Hw').
  pose proof (pll_pc _ _ _ Hl) as Hp. destruct o as [r0|k|]; simpl in H.
  - destruct p; simpl in H; simplify_eq; try done; [|by cases_in H; simplify_eq].
    simpl in Eb'. apply lookup_insert_Some in Eb' as [[<- <-]|[_ ?]]; [done|congruence].
  - destruct p as [| | | | |d|k'|j' r'|j'|j'| |]; simpl in Hp, H; try done.
    + by simplify_eq.
    + cases_in H; simplify_eq; try done. by apply pl_boxes_take in E.
    + cases_in H; simplify_eq; try done. by apply pl_boxes_take in E0.
    + destruct Hp as (b0 & _ & E0 & _ & _ & _ & Hw0). simplify_eq. simpl in Eb'. rewrite (alter_as_insert _ _ _ _ E0) in Eb'.
      apply lookup_insert_Some in Eb' as [[<- <-]|[_ ?]]; [|congruence]. destruct r'; simpl in Hw'; rewrite Hw0, andb_false_r in Hw'; done.
    + destruct Hp as (r1 & b0 & _ & E0 & _ & _ & Hw0). simplify_eq. simpl in Eb'. rewrite (alter_as_insert _ _ _ _ E0) in Eb'.
      apply lookup_insert_Some in Eb' as [[<- <-]|[_ ?]]; [|congruence]. simpl in Hw'. by rewrite Hw0 in Hw'.
    + destruct Hp as (r1 & b0 & _ & E0 & _). rewrite E0 in H. simplify_eq. simpl in Eb'.
      apply lookup_insert_Some in Eb' as [[<- <-]|[_ ?]]; [|congruence]. simplify_eq. eexists _, _. split; [done|by left].
    + by simplify_eq.
  - unfold pl_do_fini in H. by cases_in H; simplify_eq.
Qed.

#[local] Instance pl_wakes : wakes_ok pl_machine isf pl_G pl_local pl_ready.
Proof.
  split; try done.
  - intros t now o p s s' a HG Hl H Hr. exfalso. pose proof (pll_pc _ _ _ Hl) as Hp. simpl in H.
    destruct o as [r|k|]; simpl in H.
    + destruct p; simpl in Hp, H; try done; try (by cases_in H; simplify_eq).
      destruct (pl_boxes s !! j) as [b|] eqn:E; [|by simplify_eq].
      destruct (bx_done b) eqn:Ed; injection H as <- <-; [done|]. simpl in Hr. by rewrite E, Ed in Hr.
    + by destruct a.
    + unfold pl_do_fini in H. by cases_in H; simplify_eq.
  - intros t now o p s s' a t' c'. apply pl_cover.
Qed.

Lemma pl_reach n w : reach pl_machine isf (pl_use shard_of) (pl_init n) w ->
  og_inv pl_G pl_local pl_own pl_bal w /\ woken_inv pl_ready w.
Proof.
  assert (Hq : forall k q, replicate (1 `max` n) [] !! k = Some q -> q = ([] : list pitem)).
  { intros k q. rewrite lookup_replicate. by intros [-> _]. }
  assert (Hs : forall m, pl_sents (replicate m []) = 0) by (induction m as [|m IH]; simpl; [done|rewrite IH; done]).
  apply (inv_reach _ _ _ pl_G pl_local pl_own pl_bal pl_ready (pl_init n)).
  - split; split; simpl.
    + unfold pl_size, pl_init. simpl pl_qs. rewrite length_replicate. lia.
    + intros k j r (q & ->%Hq & Hin). by apply not_elem_of_nil in Hin.
    + intros k q ->%Hq. constructor.
    + intros k1 k2 j r1 r2 (q & ->%Hq & Hin). by apply not_elem_of_nil in Hin.
    + intros j r o. by rewrite lookup_empty.
    + intros k l1 j r l2 Hk%Hq. by destruct l1.
    + set_solver.
  - intros t. split; [|done]. simpl. intros j r. by rewrite lookup_empty.
  - unfold pl_bal. simpl. by rewrite (Hs (1 `max` n)%nat).
  - apply pl_blocks.
  - apply _.
Qed.

(** C13. [submit(fn)] gives the caller what [fn] did, whatever the interleaving: the value it returned or
    the exception it raised; and no job is ever in the hands of two workers. *)
Theorem pool_submit_outcome n w : reach pl_machine isf (pl_use shard_of) (pl_init n) w ->
  (forall t r x, ctl_of w t = Fin (PlSubmit r) x -> x = submit_out r) /\
  (forall t1 t2 j, pl_hand (ctl_of w t1) = Some j -> pl_hand (ctl_of w t2) = Some j -> t1 = t2).
Proof.
  intros [(_ & HL & _) _]%pl_reach. split.
  - intros t r x Hc. pose proof (pll_pc _ _ _ (HL t)) as H. by rewrite Hc in H.
  - assert (Hj : forall t j, pl_hand (ctl_of w t) = Some j -> exists r, pl_jobs (w_obj w) !! j = Some (r, Some t)).
    { intros t j Hh. pose proof (pll_pc _ _ _ (HL t)) as H.
      destruct (ctl_of w t) as [|[] []| | | |]; simplify_eq/=; naive_solver. }
    intros t1 t2 j (r1 & E1)%Hj (r2 & E2)%Hj. congruence.
Qed.

(** No submitter is stranded: when no thread can move any more, a submitter that is still parked
    waits for a job that no worker has taken yet. *)
Theorem pool_no_stranded n w t r dl p : reach pl_machine isf (pl_use shard_of) (pl_init n) w ->
  quiescent pl_machine isf (pl_use shard_of) w -> ctl_of w t = Parked (PlSubmit r) dl p ->
  exists k j, in_q (w_obj w) k j r /\ p = PlWait j.
Proof.
  intros [([Hok _] & HL & _) Hw]%pl_reach Hq Hc. pose proof (pll_pc _ _ _ (HL t)) as H. rewrite Hc in H.
  destruct H as (-> & j & u & b & -> & Ej & Eb & Ep).
  destruct (quiescent_not_ready _ _ _ pl_ready w t _ _ _ Hw Hq Hc) as [Hn _]. simpl in Hn. rewrite Eb in Hn.
  destruct (plo_jobs _ Hok _ _ _ Ej) as (_ & Hin & _). destruct u as [t'|]; [|destruct (Hin eq_refl) as [k ?]; by exists k, j].
  destruct (pll_hand _ _ _ (HL t') j r Ej) as [Hh|(b' & Eb' & Hd & Hwk)]; [|simplify_eq; by rewrite Hd, Hwk in Hn].
  pose proof (Hq t') as Hx. simpl in Hx. by destruct (ctl_of w t') as [|[] []| | | |].
Qed.

(** Shutdown drains the pool: sentinels taken and sentinels queued add up to the sentinels put, and
    when every sentinel put has been taken by a worker, no job that was queued ahead of one is still
    queued: each has been taken by a worker. *)
Theorem pool_shutdown_drains n w : reach pl_machine isf (pl_use shard_of) (pl_init n) w ->
  msum pl_own (w_ctl w) + pl_sents (pl_qs (w_obj w)) = Z.of_nat (pl_fini (w_obj w)) /\
  (msum pl_own (w_ctl w) = Z.of_nat (pl_fini (w_obj w)) ->
   forall k j r, in_q (w_obj w) k j r -> j ∉ pl_early (w_obj w)).
Proof.
  intros [([_ [Hb _]] & _ & Hs) _]%pl_reach. unfold pl_bal in Hs. split; [lia|].
  intros Hall k j r (q & Eq & Hin) He. apply list_elem_of_split in Hin as (l1 & l2 & ->).
  pose proof (Hb _ _ _ _ _ Eq He) as Hx. apply (pl_sents_in (pl_qs (w_obj w)) k _ ltac:(lia) Eq).
  apply elem_of_app. right. by right.
Qed.
End pool.

(** Two workers (threads 10 and 11), submitters 1 and 2, a closer 3: worker 10 runs the job of 1 to
    the end, the job of 2 is queued on shard 1 ahead of its sentinel. *)
Definition pool_workers (t : tid) : option nat := match t with 10%nat => Some 0%nat | 11%nat => Some 1%nat | _ => None end.

Definition pool_demo : pl_world :=
  after pl_machine (λ _, true) (pl_use pool_workers) (pl_init 2)
    ([ECall 1%nat (PlSubmit (Ret (Some 7%nat)))] ++ replicate 4 (EStep 1%nat) ++
     [ECall 10%nat (PlWork 0)] ++ replicate 7 (EStep 10%nat) ++ replicate 3 (EStep 1%nat) ++
     [ECall 2%nat (PlSubmit (Exc (UserExc 3)))] ++ replicate 4 (EStep 2%nat)).

(** Both workers after the shutdown: worker 11 ran the job queued ahead of its sentinel. *)
Definition pool_drained : pl_world :=
  after pl_machine (λ _, true) (pl_use pool_workers) (pl_init 2)
    ([ECall 1%nat (PlSubmit (Ret (Some 7%nat)))] ++ replicate 4 (EStep 1%nat) ++
     [ECall 3%nat PlFini] ++ replicate 3 (EStep 3%nat) ++
     [ECall 10%nat (PlWork 0)] ++ replicate 7 (EStep 10%nat) ++ [ECall 10%nat (PlWork 0)] ++ replicate 3 (EStep 10%nat) ++
     [ECall 11%nat (PlWork 1)] ++ replicate 3 (EStep 11%nat)).

Lemma pool_submit_outcome_witness :
  exists x, ctl_of pool_demo 1 = Fin (PlSubmit (Ret (Some 7%nat))) x /\ x = submit_out (Ret (Some 7%nat)).
Proof.
  exists (submit_out (Ret (Some 7%nat))). split; [vm_compute; reflexivity|].
  apply (proj1 (pool_submit_outcome (λ _, true) pool_workers 2 pool_demo (after_reach _ _ _ _ _)) 1%nat).
  vm_compute. reflexivity.
Defined.

Lemma pool_no_stranded_witness :
  exists p k j, ctl_of pool_demo 2 = Parked (PlSubmit (Exc (UserExc 3))) None p /\
    in_q (w_obj pool_demo) k j (Exc (UserExc 3)) /\ p = PlWait j.
Proof.
  eexists.
  destruct (pool_no_stranded (λ _, true) pool_workers 2 pool_demo 2%nat (Exc (UserExc 3)) None (PlWait 1)
    (after_reach _ _ _ _ _)) as (k & j & Hin & E).
  - apply quiescentb_sound. vm_compute. reflexivity.
  - vm_compute. reflexivity.
  - exists k, j. split; [vm_compute; reflexivity|exact (conj Hin E)].
Defined.

Lemma pool_shutdown_drains_witness :
  pl_early (w_obj pool_drained) = {[0%nat]} /\
  forall k j r, in_q (w_obj pool_drained) k j r -> j ∉ pl_early (w_obj pool_drained).
Proof.
  split; [vm_compute; reflexivity|].
  apply (proj2 (pool_shutdown_drains (λ _, true) pool_workers 2 pool_drained (after_reach _ _ _ _ _))).
  vm_compute. reflexivity.
Defined.
