(* ===== verification/AioFuture.v ===== *)
(** * StackweaveFuture: the asyncio future of the event loop

    Models [_RunloomFutureMixin] and [StackweaveFuture] of [src/src/stackweave/aio/futures.py].
    A done-callback is Python code that may use the future again: its body is a list of the
    operations below, and it may raise.  The event loop is the part of it the code uses: whether
    there is one, whether it is closed, [call_soon] and [call_exception_handler], whose calls are
    recorded in order in a log. *)
From S2P Require Import Prelude.
Local Open Scope Z_scope.

Abbreviation val := nat.

Inductive af_state := PENDING | FINISHED | CANCELLED.
#[export] Instance af_state_eq_dec : EqDecision af_state.
Proof. solve_decision. Defined.

(** What [cb.__self__] is: a StackweaveTask, a stock task, or anything else. *)
Inductive cb_host := HostStackweave | HostStock | HostOther.

(** The argument of [set_exception]: an instance or a class, whose call makes one or raises. *)
Inductive exc_arg := ExcInst (e : pyexc) | ExcClass (made : out pyexc).

(** The operations of the future, and what a callback does: a list of them, then perhaps an
    exception of its own.  [cb_marked] is [_runloom_fire_sync]. *)
Inductive fop :=
  | OpSetResult (v : option val)
  | OpSetException (x : exc_arg)
  | OpCancel (msg : option string)
  | OpResult
  | OpException
  | OpAdd (c : callback) (ctx : option nat)
  | OpRemove (id : nat)
  | OpCloseLoop
with callback :=
  | Callback (id : nat) (host : cb_host) (marked : bool) (body : list fop) (raises : option pyexc).

Definition cb_id (c : callback) : nat := match c with Callback i _ _ _ _ => i end.
Definition cb_host_of (c : callback) : cb_host := match c with Callback _ h _ _ _ => h end.
Definition cb_marked (c : callback) : bool := match c with Callback _ _ m _ _ => m end.
Definition cb_body (c : callback) : list fop := match c with Callback _ _ _ b _ => b end.
Definition cb_raises (c : callback) : option pyexc := match c with Callback _ _ _ _ r => r end.

(** The [_pg*] attributes. *)
Record afut := AFut {
  pgstate : af_state;
  pgresult : option val;
  pgexc : option pyexc;
  pgcbs : list (callback * option nat);
  pgcancelmsg : option string;
  pg_cancelled_exc : option pyexc;
  pglogtb : bool
}.

(** [_pg_future_init()] *)
Definition pg_future_init : afut := AFut PENDING None None [] None None false.

(** What the code asks of the loop or runs itself.  [Deferred] and [Ran] are the two ways a
    callback is dispatched when the future completes, [AddSoon] and [AddRan] when it was already
    done; [Reported] is [call_exception_handler]. *)
Inductive effect :=
  | Deferred (id : nat) (ctx : option nat) (trampoline : bool)
  | Ran (id : nat) (ctx : option nat)
  | AddSoon (id : nat) (ctx : option nat)
  | AddRan (id : nat) (ctx : option nat)
  | Reported (e : pyexc).

(** [self._loop] is [None], open or closed; [a_entered]: the contexts entered on this stack. *)
Inductive loop_state := NoLoop | LoopOpen | LoopClosed.
Record ast := Ast { a_fut : afut; a_loop : loop_state; a_entered : gset nat; a_log : list effect }.

Inductive aret := AvNone | AvBool (b : bool) | AvVal (v : option val) | AvExc (e : option pyexc) | AvInt (n : nat).

Definition live (s : ast) : bool := match a_loop s with LoopOpen => true | _ => false end.
Definition set_fut (f : afut) (s : ast) : ast := Ast f (a_loop s) (a_entered s) (a_log s).
Definition emit (e : effect) (s : ast) : ast := Ast (a_fut s) (a_loop s) (a_entered s) (a_log s ++ [e]).

(** [_report_exc(e)] *)
Definition report_exc (e : pyexc) (s : ast) : ast :=
  match a_loop s with NoLoop => s | _ => emit (Reported e) s end.

(** [loop.call_soon(...)]: raises when the loop is closed. *)
Definition call_soon (eff : effect) (s : ast) : ast * option pyexc :=
  match a_loop s with
  | LoopOpen => (emit eff s, None)
  | _ => (s, Some (RuntimeError "Event loop is closed"))
  end.

(** [try: loop.call_soon(...) except BaseException as e: self._report_exc(e)] *)
Definition try_call_soon (eff : effect) (s : ast) : ast :=
  match call_soon eff s with (s', None) => s' | (s', Some e) => report_exc e s' end.

(** ** Queries *)

Definition af_done (f : afut) : bool := negb (bool_decide (pgstate f = PENDING)).
Definition af_cancelled (f : afut) : bool := bool_decide (pgstate f = CANCELLED).

Definition af_state_name (f : afut) : string :=
  match pgstate f with PENDING => "PENDING" | FINISHED => "FINISHED" | CANCELLED => "CANCELLED" end.

Definition not_done : pyexc := InvalidStateError "Future not done".
Definition already_done : pyexc := InvalidStateError "Future already done".

(** [_make_cancelled_error()]: the stored exception is handed out once. *)
Definition make_cancelled_error (f : afut) : afut * pyexc :=
  match pg_cancelled_exc f with
  | Some e => (AFut (pgstate f) (pgresult f) (pgexc f) (pgcbs f) (pgcancelmsg f) None (pglogtb f), e)
  | None => (f, CancelledError (pgcancelmsg f))
  end.

Definition clear_logtb (f : afut) : afut :=
  AFut (pgstate f) (pgresult f) (pgexc f) (pgcbs f) (pgcancelmsg f) (pg_cancelled_exc f) false.

(** [result()] *)
Definition af_result (f : afut) : afut * out aret :=
  match pgstate f with
  | PENDING => (f, Exc not_done)
  | CANCELLED => let '(f', e) := make_cancelled_error f in (f', Exc e)
  | FINISHED => (clear_logtb f, match pgexc f with Some e => Exc e | None => Ret (AvVal (pgresult f)) end)
  end.

(** [exception()] *)
Definition af_exception (f : afut) : afut * out aret :=
  match pgstate f with
  | PENDING => (f, Exc not_done)
  | CANCELLED => let '(f', e) := make_cancelled_error f in (f', Exc e)
  | FINISHED => (clear_logtb f, Ret (AvExc (pgexc f)))
  end.

(** The setter of [_log_traceback]. *)
Definition set_log_traceback (v : bool) (f : afut) : afut := if negb v then clear_logtb f else f.

(** [remove_done_callback(callback)] *)
Definition remove_done_callback (id : nat) (f : afut) : afut * nat :=
  let filtered := filter (λ c, cb_id c.1 ≠ id) (pgcbs f) in
  (AFut (pgstate f) (pgresult f) (pgexc f) filtered (pgcancelmsg f) (pg_cancelled_exc f) (pglogtb f),
   (length (pgcbs f) - length filtered)%nat).

(** [__del__]: whether the lost exception is reported. *)
Definition af_del (s : ast) : bool :=
  pglogtb (a_fut s) && bool_decide (pgexc (a_fut s) ≠ None) && live s.

(** ** Dispatch of the callbacks *)

Section dispatch.
(** How a callback's operations are carried out. *)
Context (run_op : fop -> ast -> option (ast * out aret)).

(** The operations in order, up to the first exception; then the callback's own. *)
Fixpoint run_body (ops : list fop) (raises : option pyexc) (s : ast) : option (ast * option pyexc) :=
  match ops with
  | [] => Some (s, raises)
  | o :: ops' =>
      '(s', r) ← run_op o s;
      match r with Exc e => Some (s', Some e) | Ret _ => run_body ops' raises s' end
  end.

Definition cannot_enter (c : nat) : pyexc := RuntimeError "cannot enter context: is already entered".

(** [cb(self)], or [ctx.run(cb, self)], which refuses a context that is already entered. *)
Definition run_cb (c : callback) (ctx : option nat) (eff : effect) (s : ast) : option (ast * option pyexc) :=
  match ctx with
  | None => run_body (cb_body c) (cb_raises c) (emit eff s)
  | Some k =>
      if bool_decide (k ∈ a_entered s) then Some (s, Some (cannot_enter k))
      else
        '(s', r) ← run_body (cb_body c) (cb_raises c)
                     (emit eff (Ast (a_fut s) (a_loop s) ({[k]} ∪ a_entered s) (a_log s)));
        Some (Ast (a_fut s') (a_loop s') (a_entered s) (a_log s'), r)
  end.

(** [isinstance(e, RuntimeError) and str(e).startswith("cannot enter context")] *)
Definition refused (e : pyexc) : bool :=
  match e with RuntimeError m => String.prefix "cannot enter context" m | _ => false end.

(** Whether a callback is fired synchronously. *)
Definition fires_sync (c : callback) (lv : bool) : bool :=
  match cb_host_of c with HostStackweave => true | _ => cb_marked c || negb lv end.

(** One round of the loop of [_fire_callbacks]; [lv] is [live], read before the loop. *)
Definition fire_one (lv : bool) (c : callback) (ctx : option nat) (s : ast) : option ast :=
  if negb (fires_sync c lv) then
    Some (try_call_soon (Deferred (cb_id c) ctx (match cb_host_of c with HostStock => true | _ => false end)) s)
  else
    '(s', r) ← run_cb c ctx (Ran (cb_id c) ctx) s;
    Some (match r with
          | None => s'
          | Some e =>
              if refused e && bool_decide (ctx ≠ None) && live s'
              then try_call_soon (Deferred (cb_id c) ctx false) s' else report_exc e s'
          end).

Fixpoint fire_loop (lv : bool) (cbs : list (callback * option nat)) (s : ast) : option ast :=
  match cbs with
  | [] => Some s
  | (c, ctx) :: cbs' => s' ← fire_one lv c ctx s; fire_loop lv cbs' s'
  end.

(** [_fire_callbacks()] *)
Definition fire_callbacks (s : ast) : option ast :=
  let f := a_fut s in
  fire_loop (live s) (pgcbs f)
    (set_fut (AFut (pgstate f) (pgresult f) (pgexc f) [] (pgcancelmsg f) (pg_cancelled_exc f) (pglogtb f)) s).

(** [set_result(result)] *)
Definition set_result (v : option val) (s : ast) : option (ast * out aret) :=
  let f := a_fut s in
  if af_done f then Some (s, Exc already_done)
  else
    s' ← fire_callbacks (set_fut (AFut FINISHED v (pgexc f) (pgcbs f) (pgcancelmsg f) (pg_cancelled_exc f) (pglogtb f)) s);
    Some (s', Ret AvNone).

(** [set_exception(exception)] *)
Definition set_exception (x : exc_arg) (s : ast) : option (ast * out aret) :=
  let f := a_fut s in
  if af_done f then Some (s, Exc already_done)
  else
    match (match x with ExcInst e => Ret e | ExcClass made => made end) with
    | Exc e => Some (s, Exc e)
    | Ret StopIteration =>
        Some (s, Exc (TypeError "StopIteration interacts badly with generators and cannot be raised into a Future"))
    | Ret e =>
        s' ← fire_callbacks (set_fut (AFut FINISHED (pgresult f) (Some e) (pgcbs f) (pgcancelmsg f) (pg_cancelled_exc f) true) s);
        Some (s', Ret AvNone)
    end.

(** [cancel(msg)] *)
Definition pg_future_cancel (msg : option string) (s : ast) : option (ast * out aret) :=
  let f := a_fut s in
  if af_done f then Some (s, Ret (AvBool false))
  else
    s' ← fire_callbacks (set_fut (AFut CANCELLED (pgresult f) (pgexc f) (pgcbs f) msg (pg_cancelled_exc f) (pglogtb f)) s);
    Some (s', Ret (AvBool true)).

(** [add_done_callback(callback, context)] *)
Definition add_done_callback (c : callback) (ctx : option nat) (s : ast) : option (ast * out aret) :=
  let f := a_fut s in
  if af_done f then
    if live s then Some (try_call_soon (AddSoon (cb_id c) ctx) s, Ret AvNone)
    else
      '(s', r) ← run_cb c ctx (AddRan (cb_id c) ctx) s;
      Some (match r with None => s' | Some e => report_exc e s' end, Ret AvNone)
  else Some (set_fut (AFut (pgstate f) (pgresult f) (pgexc f) (pgcbs f ++ [(c, ctx)]) (pgcancelmsg f)
                        (pg_cancelled_exc f) (pglogtb f)) s, Ret AvNone).
End dispatch.

(** One operation; [fuel] bounds how deep callbacks call back into the future. *)
Fixpoint exec_op (fuel : nat) (o : fop) (s : ast) : option (ast * out aret) :=
  match fuel with
  | O => None
  | S fuel' =>
      match o with
      | OpSetResult v => set_result (exec_op fuel') v s
      | OpSetException x => set_exception (exec_op fuel') x s
      | OpCancel msg => pg_future_cancel (exec_op fuel') msg s
      | OpResult => let '(f, r) := af_result (a_fut s) in Some (set_fut f s, r)
      | OpException => let '(f, r) := af_exception (a_fut s) in Some (set_fut f s, r)
      | OpAdd c ctx => add_done_callback (exec_op fuel') c ctx s
      | OpRemove id => let '(f, n) := remove_done_callback id (a_fut s) in Some (set_fut f s, Ret (AvInt n))
      | OpCloseLoop =>
          Some (Ast (a_fut s) (match a_loop s with NoLoop => NoLoop | _ => LoopClosed end) (a_entered s) (a_log s), Ret AvNone)
      end
  end.

(** ** Once done, an outcome never changes *)

(** The parts of a future its readers see. *)
Definition outcome (f : afut) : af_state * option val * option pyexc * option string :=
  (pgstate f, pgresult f, pgexc f, pgcancelmsg f).

(** The dispatches of completion in a log. *)
Definition is_fire (e : effect) : bool := match e with Deferred _ _ _ | Ran _ _ => true | _ => false end.
Definition fires (log : list effect) : list effect := filter (λ e, is_fire e = true) log.

(** What the code that runs on a completed future leaves alone: the outcome, the contexts, the
    dispatches; and it does not reopen a loop. *)
Definition quiet (s s' : ast) : Prop :=
  outcome (a_fut s') = outcome (a_fut s) /\ a_entered s' = a_entered s /\ fires (a_log s') = fires (a_log s) /\
  (live s' = true -> live s = true).

Lemma quiet_refl s : quiet s s.
Proof. done. Qed.
Lemma quiet_trans s1 s2 s3 : quiet s1 s2 -> quiet s2 s3 -> quiet s1 s3.
Proof. intros (? & ? & ? & ?) (? & ? & ? & ?). split_and!; [congruence..|auto]. Qed.
#[local] Hint Resolve quiet_refl quiet_trans : sw.

Lemma outcome_done f f' : outcome f' = outcome f -> af_done f' = af_done f.
Proof. unfold outcome, af_done. intros [= -> _ _ _]. done. Qed.

Lemma fires_app l1 l2 : fires (l1 ++ l2) = fires l1 ++ fires l2.
Proof. apply filter_app. Qed.

Lemma quiet_emit e s : is_fire e = false -> quiet s (emit e s).
Proof.
  intros He. split_and!; try done. simpl. rewrite fires_app. unfold fires at 2.
  rewrite filter_cons_False by (by rewrite He). by rewrite filter_nil, app_nil_r.
Qed.

Lemma quiet_report e s : quiet s (report_exc e s).
Proof. unfold report_exc. destruct (a_loop s); [done|by apply quiet_emit..]. Qed.

Lemma quiet_call_soon e s : is_fire e = false -> quiet s (try_call_soon e s).
Proof.
  intros He. unfold try_call_soon, call_soon. destruct (a_loop s); [apply quiet_report|by apply quiet_emit|apply quiet_report].
Qed.
#[local] Hint Resolve quiet_emit quiet_report quiet_call_soon : sw.

Lemma quiet_set_fut f s : outcome f = outcome (a_fut s) -> quiet s (set_fut f s).
Proof. by intros H. Qed.

Section quiet_dispatch.
Context (run_op : fop -> ast -> option (ast * out aret)).
Context (Hop : forall o s s' r, af_done (a_fut s) = true -> run_op o s = Some (s', r) -> quiet s s').

Lemma quiet_body ops raises s s' r :
  af_done (a_fut s) = true -> run_body run_op ops raises s = Some (s', r) -> quiet s s'.
Proof.
  revert s. induction ops as [|o ops IH]; intros s Hd H; simpl in H; [by simplify_eq|].
  apply bind_Some in H as ([s1 r1] & H1 & H). pose proof (Hop _ _ _ _ Hd H1) as Hq.
  destruct r1; [|by simplify_eq]. apply IH in H; [by eapply quiet_trans|].
  by rewrite (outcome_done _ _ (proj1 Hq)).
Qed.

Lemma quiet_run_cb c ctx eff s s' r :
  af_done (a_fut s) = true -> run_cb run_op c ctx eff s = Some (s', r) ->
  match ctx with
  | Some k => if bool_decide (k ∈ a_entered s) then s' = s /\ r = Some (cannot_enter k) else quiet (emit eff s) s'
  | None => quiet (emit eff s) s'
  end.
Proof.
  intros Hd H. unfold run_cb in H. destruct ctx as [k|]; [|by eapply quiet_body].
  case_bool_decide; [by simplify_eq|]. apply bind_Some in H as ([s1 r1] & H1 & H). simplify_eq.
  by apply quiet_body in H1 as (? & ? & ? & ?).
Qed.
End quiet_dispatch.

Lemma exec_done_quiet fuel o s s' r :
  af_done (a_fut s) = true -> exec_op fuel o s = Some (s', r) -> quiet s s'.
Proof.
  revert o s s' r. induction fuel as [|fuel IH]; intros o s s' r Hd H; [done|].
  destruct o as [v|x|m| | |c ctx|i|]; simpl in H.
  - unfold set_result in H. rewrite Hd in H. by simplify_eq.
  - unfold set_exception in H. rewrite Hd in H. by simplify_eq.
  - unfold pg_future_cancel in H. rewrite Hd in H. by simplify_eq.
  - unfold af_result, make_cancelled_error in H.
    destruct (pgstate (a_fut s)) eqn:E, (pg_cancelled_exc (a_fut s)); simplify_eq;
      apply quiet_set_fut; unfold outcome; simpl; congruence.
  - unfold af_exception, make_cancelled_error in H.
    destruct (pgstate (a_fut s)) eqn:E, (pg_cancelled_exc (a_fut s)); simplify_eq;
      apply quiet_set_fut; unfold outcome; simpl; congruence.
  - unfold add_done_callback in H. rewrite Hd in H. destruct (live s).
    + simplify_eq. by apply quiet_call_soon.
    + apply bind_Some in H as ([s1 r1] & H1 & H). simplify_eq. apply quiet_trans with s1; [|by destruct r1; auto with sw].
      apply (quiet_run_cb _ IH) in H1; [|done]. destruct ctx as [k|]; [case_bool_decide; [by destruct H1 as [-> _]|]|];
        (eapply quiet_trans; [|exact H1]); by apply quiet_emit.
  - by simplify_eq.
  - simplify_eq. split_and!; try done. unfold live; simpl. by destruct (a_loop s).
Qed.

(** ** Every callback is dispatched when the future completes *)

(** How callback [c] with context [ctx] may be dispatched on a live loop: deferred to the loop,
    through the trampoline for a stock task; or run at once; or, when its context is already entered,
    deferred instead.  A callback run at once is deferred as well only if it has a context and raised
    an error that reads like a refusal to enter it. *)
Definition dispatch_ok (entered : gset nat) (e : callback * option nat) (d : list effect) : Prop :=
  let '(c, ctx) := e in
  if fires_sync c true then
    match ctx with
    | None => d = [Ran (cb_id c) None]
    | Some k =>
        if bool_decide (k ∈ entered) then d = [Deferred (cb_id c) ctx false]
        else d = [Ran (cb_id c) ctx] \/ d = [Ran (cb_id c) ctx; Deferred (cb_id c) ctx false]
    end
  else d = [Deferred (cb_id c) ctx (match cb_host_of c with HostStock => true | _ => false end)].

(** What dispatching keeps. *)
Definition same (s s' : ast) : Prop :=
  outcome (a_fut s') = outcome (a_fut s) /\ a_entered s' = a_entered s /\ (live s' = true -> live s = true).

Lemma quiet_same s s' : quiet s s' -> same s s'.
Proof. intros (? & ? & _ & ?). done. Qed.
Lemma same_trans s1 s2 s3 : same s1 s2 -> same s2 s3 -> same s1 s3.
Proof. intros (? & ? & ?) (? & ? & ?). split_and!; [congruence..|auto]. Qed.
Lemma same_emit e s : same s (emit e s).
Proof. done. Qed.
Lemma same_call_soon e s : same s (try_call_soon e s).
Proof.
  unfold try_call_soon, call_soon, report_exc, same, live.
  destruct (a_loop s) eqn:E; simpl; rewrite ?E; simpl; rewrite ?E; done.
Qed.
#[local] Hint Resolve quiet_same same_emit same_call_soon : sw.

Lemma fires_emit e s : is_fire e = true -> fires (a_log (emit e s)) = fires (a_log s) ++ [e].
Proof. intros He. simpl. rewrite fires_app. unfold fires at 2. by rewrite filter_cons_True. Qed.

Lemma fires_call_soon e s : is_fire e = true -> live s = true -> fires (a_log (try_call_soon e s)) = fires (a_log s) ++ [e].
Proof.
  intros He Hl. unfold try_call_soon, call_soon. unfold live in Hl. destruct (a_loop s); try done. by apply fires_emit.
Qed.

Section fire.
Context (run_op : fop -> ast -> option (ast * out aret)).
Context (Hop : forall o s s' r, af_done (a_fut s) = true -> run_op o s = Some (s', r) -> quiet s s').

(** After a callback raised: reported, or deferred if its context refused it. *)
Lemma fire_raised s1 r ctx i s' :
  s' = match r with
       | None => s1
       | Some e => if refused e && bool_decide (ctx ≠ None) && live s1
                   then try_call_soon (Deferred i ctx false) s1 else report_exc e s1
       end ->
  same s1 s' /\ (fires (a_log s') = fires (a_log s1) \/
    ctx ≠ None /\ fires (a_log s') = fires (a_log s1) ++ [Deferred i ctx false]).
Proof.
  intros ->. destruct r as [e|]; [|by split; [|left]].
  destruct (refused e && bool_decide (ctx ≠ None) && live s1) eqn:E; [|split; [|left; apply quiet_report]; auto with sw].
  apply andb_true_iff in E as [[_ Hc%bool_decide_eq_true]%andb_true_iff Hl].
  split; [auto with sw|right]. split; [done|]. by apply fires_call_soon.
Qed.

Lemma fire_one_spec lv c ctx s s' : af_done (a_fut s) = true -> fire_one run_op lv c ctx s = Some s' ->
  same s s' /\ (lv = true -> live s' = true ->
    exists d, dispatch_ok (a_entered s) (c, ctx) d /\ fires (a_log s') = fires (a_log s) ++ d).
Proof.
  intros Hd H. unfold fire_one in H. destruct (fires_sync c lv) eqn:Es; simpl in H.
  - apply bind_Some in H as ([s1 r] & H1 & H). simplify_eq.
    destruct (fire_raised s1 r ctx (cb_id c) _ eq_refl) as [Hsm Hfi].
    pose proof (quiet_run_cb _ Hop _ _ _ _ _ _ Hd H1) as Hq.
    assert (same s s1) as Hs1.
    { destruct ctx as [k|]; [case_bool_decide; [by destruct Hq as [-> _]|]|];
        (eapply same_trans; [apply same_emit|by apply quiet_same]). }
    split; [by eapply same_trans|]. intros -> Hl.
    assert (live s1 = true) as Hl1 by (by apply Hsm). unfold dispatch_ok. rewrite Es.
    destruct ctx as [k|]; [destruct (bool_decide (k ∈ a_entered s)) eqn:Hk|].
    + destruct Hq as [-> ->]. simpl. rewrite Hl1.
      eexists. split; [done|]. by apply fires_call_soon.
    + destruct Hq as (_ & _ & Hf & _). rewrite fires_emit in Hf by done.
      destruct Hfi as [->|[_ ->]]; rewrite Hf; [by eauto|]. rewrite <- app_assoc. eauto.
    + destruct Hq as (_ & _ & Hf & _). rewrite fires_emit in Hf by done.
      destruct Hfi as [->|[? _]]; [|done]. rewrite Hf. eauto.
  - simplify_eq. split; [apply same_call_soon|]. intros -> Hl. unfold dispatch_ok. rewrite Es.
    eexists. split; [done|]. apply fires_call_soon; [done|]. by apply same_call_soon in Hl.
Qed.

Lemma fire_loop_spec lv cbs s s' : af_done (a_fut s) = true -> fire_loop run_op lv cbs s = Some s' ->
  same s s' /\ (lv = true -> live s' = true ->
    exists ds, Forall2 (dispatch_ok (a_entered s)) cbs ds /\ fires (a_log s') = fires (a_log s) ++ concat ds).
Proof.
  revert s. induction cbs as [|[c ctx] cbs IH]; intros s Hd H; simpl in H.
  { simplify_eq. split; [done|]. intros. exists []. by rewrite app_nil_r. }
  apply bind_Some in H as (s1 & H1 & H2). destruct (fire_one_spec _ _ _ _ _ Hd H1) as [Hs1 Hf1].
  assert (af_done (a_fut s1) = true) as Hd1 by (by rewrite (outcome_done _ _ (proj1 Hs1))).
  destruct (IH s1 Hd1 H2) as [Hs2 Hf2]. split; [by eapply same_trans|]. intros Hlv Hl.
  destruct (Hf2 Hlv Hl) as (ds & Hds & Ef2). destruct Hf1 as (d & Hd' & Ef1); [done|by apply Hs2|].
  exists (d :: ds). destruct Hs1 as (_ & Ee & _). rewrite Ee in Hds. split; [by constructor|].
  by rewrite Ef2, Ef1, <- app_assoc.
Qed.
End fire.

(** The operations that complete a pending future, with the outcome they give it. *)
Definition completes (o : fop) (f : afut) : option (af_state * option val * option pyexc * option string) :=
  match o with
  | OpSetResult v => Some (FINISHED, v, pgexc f, pgcancelmsg f)
  | OpSetException (ExcInst e) | OpSetException (ExcClass (Ret e)) =>
      match e with StopIteration => None | _ => Some (FINISHED, pgresult f, Some e, pgcancelmsg f) end
  | OpCancel msg => Some (CANCELLED, pgresult f, pgexc f, msg)
  | _ => None
  end.

(** Such an operation sets the outcome and then fires the callbacks registered so far. *)
Lemma completes_fires fuel o s s' r out0 :
  af_done (a_fut s) = false -> completes o (a_fut s) = Some out0 -> exec_op (S fuel) o s = Some (s', r) ->
  exists s1, outcome (a_fut s1) = out0 /\ a_entered s1 = a_entered s /\ a_loop s1 = a_loop s /\ a_log s1 = a_log s /\
    af_done (a_fut s1) = true /\ fire_loop (exec_op fuel) (live s) (pgcbs (a_fut s)) s1 = Some s'.
Proof.
  intros Hd Hc H.
  assert (Hf : forall f r0, outcome f = out0 -> af_done f = true -> pgcbs f = pgcbs (a_fut s) ->
    (s2 ← fire_callbacks (exec_op fuel) (set_fut f s); Some (s2, r0)) = Some (s', r) ->
    exists s1, outcome (a_fut s1) = out0 /\ a_entered s1 = a_entered s /\ a_loop s1 = a_loop s /\ a_log s1 = a_log s /\
      af_done (a_fut s1) = true /\ fire_loop (exec_op fuel) (live s) (pgcbs (a_fut s)) s1 = Some s').
  { intros f r0 Ho Hdf Ecb Hx. apply bind_Some in Hx as (s2 & H2 & Hx). simplify_eq.
    unfold fire_callbacks in H2. simpl in H2. rewrite Ecb in H2. eexists. split_and!; [| | | | |exact H2]; try done. }
  destruct o as [v|x|m| | |c ctx|i|]; simplify_eq; cbn [exec_op] in H.
  - unfold set_result in H. rewrite Hd in H. simpl in Hc. simplify_eq. by eapply Hf; [..|exact H].
  - unfold set_exception in H. rewrite Hd in H. simpl in Hc.
    destruct x as [e|[e|e]]; [| |done]; destruct e; simplify_eq; (by eapply Hf; [..|exact H]).
  - unfold pg_future_cancel in H. rewrite Hd in H. simpl in Hc. simplify_eq. by eapply Hf; [..|exact H].
Qed.

(** ** Termination *)

(** How deep an operation can nest callbacks run at once. *)
Fixpoint op_depth (o : fop) : nat :=
  match o with OpAdd c _ => S (cb_depth c) | _ => 1 end
with cb_depth (c : callback) : nat :=
  match c with
  | Callback _ _ _ body _ =>
      (fix go (l : list fop) : nat := match l with [] => 0%nat | o :: l' => (op_depth o `max` go l')%nat end) body
  end.

Lemma cb_depth_body c o : o ∈ cb_body c -> (op_depth o <= cb_depth c)%nat.
Proof.
  destruct c as [i h m body r]; simpl. induction body as [|o' body IH]; [by intros ?%elem_of_nil|].
  intros [->|Hin]%elem_of_cons; simpl; [lia|]. specialize (IH Hin). simpl in IH. lia.
Qed.

Section total.
Context (run1 run2 : fop -> ast -> option (ast * out aret)).
Context (Hmono : forall o s x, run1 o s = Some x -> run2 o s = Some x).

Lemma run_body_mono ops raises s x : run_body run1 ops raises s = Some x -> run_body run2 ops raises s = Some x.
Proof.
  revert s. induction ops as [|o ops IH]; intros s H; simpl in *; [done|].
  apply bind_Some in H as ([s1 r] & H1 & H). rewrite (Hmono _ _ _ H1). simpl. destruct r; auto.
Qed.

Lemma run_cb_mono c ctx eff s x : run_cb run1 c ctx eff s = Some x -> run_cb run2 c ctx eff s = Some x.
Proof.
  unfold run_cb. intros H. destruct ctx; [case_bool_decide; [done|]|by apply run_body_mono].
  apply bind_Some in H as ([s1 r] & H1 & H). by rewrite (run_body_mono _ _ _ _ H1).
Qed.

Lemma fire_loop_mono lv cbs s x : fire_loop run1 lv cbs s = Some x -> fire_loop run2 lv cbs s = Some x.
Proof.
  revert s. induction cbs as [|[c ctx] cbs IH]; intros s H; simpl in *; [done|].
  apply bind_Some in H as (s1 & H1 & H). unfold fire_one in *. destruct (negb (fires_sync c lv)); simplify_eq/=; [by auto|].
  apply bind_Some in H1 as ([s2 r] & H2 & H1). rewrite (run_cb_mono _ _ _ _ _ H2). simplify_eq/=. auto.
Qed.

(** Callbacks whose operations terminate terminate. *)
Context (n : nat).
Context (Htot : forall o s, af_done (a_fut s) = true -> (op_depth o <= n)%nat -> is_Some (run1 o s)).
Context (Hquiet : forall o s s' r, af_done (a_fut s) = true -> run1 o s = Some (s', r) -> quiet s s').

Lemma run_body_total ops raises s : af_done (a_fut s) = true -> (forall o, o ∈ ops -> (op_depth o <= n)%nat) ->
  is_Some (run_body run1 ops raises s).
Proof.
  revert s. induction ops as [|o ops IH]; intros s Hd Ho; simpl; [by eauto|].
  destruct (Htot o s Hd) as [[s1 r] H1]; [apply Ho; left|]. rewrite H1. simpl. destruct r; [|by eauto].
  apply IH; [|intros; apply Ho; by right].
  by rewrite (outcome_done _ _ (proj1 (Hquiet _ _ _ _ Hd H1))).
Qed.

Lemma run_cb_total c ctx eff s : af_done (a_fut s) = true -> (cb_depth c <= n)%nat -> is_Some (run_cb run1 c ctx eff s).
Proof.
  intros Hd Hc. assert (forall o, o ∈ cb_body c -> (op_depth o <= n)%nat) as Ho.
  { intros o Hin. pose proof (cb_depth_body c o Hin). lia. }
  unfold run_cb. destruct ctx as [k|]; [|by apply run_body_total]. case_bool_decide; [by eauto|].
  destruct (run_body_total (cb_body c) (cb_raises c) (emit eff (Ast (a_fut s) (a_loop s) ({[k]} ∪ a_entered s) (a_log s))) Hd Ho)
    as [[s1 r] H1]. rewrite H1. by eauto.
Qed.

Lemma fire_loop_total lv cbs s : af_done (a_fut s) = true -> (forall e, e ∈ cbs -> (cb_depth e.1 <= n)%nat) ->
  is_Some (fire_loop run1 lv cbs s).
Proof.
  revert s. induction cbs as [|[c ctx] cbs IH]; intros s Hd Hc; simpl; [by eauto|].
  assert (is_Some (fire_one run1 lv c ctx s)) as [s1 H1].
  { unfold fire_one. destruct (negb (fires_sync c lv)); [by eauto|].
    destruct (run_cb_total c ctx (Ran (cb_id c) ctx) s Hd) as [[s2 r] H2]; [apply (Hc (c, ctx)); left|].
    rewrite H2. by eauto. }
  rewrite H1. simpl. apply IH; [|intros; apply Hc; by right].
  destruct (fire_one_spec run1 Hquiet _ _ _ _ _ Hd H1) as [Hs _]. by rewrite (outcome_done _ _ (proj1 Hs)).
Qed.
End total.

Lemma exec_mono fuel fuel' o s x : exec_op fuel o s = Some x -> (fuel <= fuel')%nat -> exec_op fuel' o s = Some x.
Proof.
  revert fuel' o s x. induction fuel as [|fuel IH]; intros fuel' o s x H Hle; [done|].
  destruct fuel' as [|fuel']; [lia|].
  assert (Hm : forall o s x, exec_op fuel o s = Some x -> exec_op fuel' o s = Some x) by (intros; apply IH; [done|lia]).
  assert (Hf : forall s x, fire_callbacks (exec_op fuel) s = Some x -> fire_callbacks (exec_op fuel') s = Some x)
    by (intros; by eapply fire_loop_mono).
  destruct o as [v|y|m| | |c ctx|i|]; cbn [exec_op] in *; try done.
  - unfold set_result in *. destruct (af_done _); [done|]. apply bind_Some in H as (s1 & H1 & H). by rewrite (Hf _ _ H1).
  - unfold set_exception in *. destruct (af_done _); [done|].
    destruct (match y with ExcInst e => Ret e | ExcClass made => made end) as [e|e]; [|done].
    destruct e; try done; apply bind_Some in H as (s1 & H1 & H); by rewrite (Hf _ _ H1).
  - unfold pg_future_cancel in *. destruct (af_done _); [done|]. apply bind_Some in H as (s1 & H1 & H). by rewrite (Hf _ _ H1).
  - unfold add_done_callback in *. destruct (af_done _); [|done]. destruct (live s); [done|].
    apply bind_Some in H as ([s1 r] & H1 & H). by rewrite (run_cb_mono _ _ Hm _ _ _ _ _ H1).
Qed.

Lemma exec_total fuel o s :
  (op_depth o <= fuel)%nat ->
  (af_done (a_fut s) = false -> forall e, e ∈ pgcbs (a_fut s) -> (cb_depth e.1 < fuel)%nat) -> is_Some (exec_op fuel o s).
Proof.
  revert o s. induction fuel as [|fuel IH]; intros o s Ho Hc; [destruct o; simpl in Ho; lia|].
  assert (Ht : forall o s, af_done (a_fut s) = true -> (op_depth o <= fuel)%nat -> is_Some (exec_op fuel o s)).
  { intros o' s' Hd Hle. apply IH; [done|]. by rewrite Hd. }
  assert (Hf : forall f, af_done (a_fut s) = false -> af_done f = true -> pgcbs f = pgcbs (a_fut s) ->
    is_Some (fire_callbacks (exec_op fuel) (set_fut f s))).
  { intros f Hp Hd E. unfold fire_callbacks. simpl. rewrite E.
    apply (fire_loop_total _ fuel Ht (exec_done_quiet fuel)); [done|]. intros e Hin. specialize (Hc Hp e Hin). lia. }
  destruct o as [v|y|m| | |c ctx|i|]; cbn [exec_op]; [..|by eauto|by eauto].
  - unfold set_result. destruct (af_done (a_fut s)) eqn:E; [by eauto|]. edestruct Hf as [? Hx]; [done| | |rewrite Hx; by eauto]; done.
  - unfold set_exception. destruct (af_done (a_fut s)) eqn:E; [by eauto|].
    destruct (match y with ExcInst e => Ret e | ExcClass made => made end) as [e|e]; [|by eauto].
    destruct e; try by eauto; (edestruct Hf as [? Hx]; [done| | |rewrite Hx; by eauto]; done).
  - unfold pg_future_cancel. destruct (af_done (a_fut s)) eqn:E; [by eauto|]. edestruct Hf as [? Hx]; [done| | |rewrite Hx; by eauto]; done.
  - destruct (af_result _). by eauto.
  - destruct (af_exception _). by eauto.
  - unfold add_done_callback. destruct (af_done (a_fut s)) eqn:E; [|by eauto]. destruct (live s); [by eauto|].
    simpl in Ho. destruct (run_cb_total _ fuel Ht (exec_done_quiet fuel) c ctx (AddRan (cb_id c) ctx) s E) as [[s1 r] H1]; [lia|].
    rewrite H1. by eauto.
Qed.

(** ** Properties *)

(** Every operation terminates, whatever the registered callbacks do with the future: from some
    recursion depth on, every amount of fuel gives the same result. *)
Theorem aio_future_terminates o s :
  exists n s' r, forall fuel, (n <= fuel)%nat -> exec_op fuel o s = Some (s', r).
Proof.
  set (d := foldr (λ e m, S (cb_depth (fst e)) `max` m)%nat 0%nat (pgcbs (a_fut s))).
  assert (Hd : forall e, e ∈ pgcbs (a_fut s) -> (cb_depth e.1 < d)%nat).
  { unfold d. induction (pgcbs (a_fut s)) as [|e l IH]; [by intros ? ?%elem_of_nil|].
    intros e' [->|Hin]%elem_of_cons; simpl; [lia|]. specialize (IH e' Hin). lia. }
  destruct (exec_total (op_depth o `max` d) o s) as [[s' r] H]; [lia|intros _ e Hin; specialize (Hd e Hin); lia|].
  exists (op_depth o `max` d)%nat, s', r. intros fuel Hle. by eapply exec_mono.
Qed.

(** C12. A done future keeps its outcome: no operation, and no callback an operation runs, changes
    the state, the result, the exception or the cancel message of a future that is done;
    [set_result] and [set_exception] raise [InvalidStateError] and [cancel] returns False, all
    three without any effect. *)
Theorem aio_outcome_final fuel o s s' r :
  af_done (a_fut s) = true -> exec_op fuel o s = Some (s', r) ->
  outcome (a_fut s') = outcome (a_fut s) /\
  match o with
  | OpSetResult _ | OpSetException _ => s' = s /\ r = Exc already_done
  | OpCancel _ => s' = s /\ r = Ret (AvBool false)
  | _ => True
  end.
Proof.
  intros Hd H. split; [by apply (exec_done_quiet fuel o s s' r)|]. destruct fuel as [|fuel]; [done|].
  destruct o; try done; cbn [exec_op] in H; unfold set_result, set_exception, pg_future_cancel in H; rewrite Hd in H;
    by simplify_eq.
Qed.

(** Completing a future on a loop that stays open dispatches every callback registered so far,
    in registration order: each is handed to the loop or run at once, as its kind asks, and no
    other callback is dispatched; a callback refused by its context is handed to the loop. *)
Theorem aio_callbacks_dispatched fuel o s s' r out0 :
  af_done (a_fut s) = false -> completes o (a_fut s) = Some out0 -> exec_op fuel o s = Some (s', r) ->
  live s' = true ->
  outcome (a_fut s') = out0 /\
  exists ds, Forall2 (dispatch_ok (a_entered s)) (pgcbs (a_fut s)) ds /\
    fires (a_log s') = fires (a_log s) ++ concat ds.
Proof.
  intros Hd Hc H Hl. destruct fuel as [|fuel]; [done|].
  destruct (completes_fires fuel o s s' r out0 Hd Hc H) as (s1 & Eo & Ee & Elp & Elog & Hd1 & Hfire).
  destruct (fire_loop_spec _ (exec_done_quiet fuel) _ _ _ _ Hd1 Hfire) as [(Es & _ & Hlv) Hds].
  split; [congruence|]. destruct Hds as (ds & Hf & Efi); [|done|].
  - specialize (Hlv Hl). unfold live in *. by rewrite <- Elp.
  - exists ds. rewrite <- Ee, <- Elog. done.
Qed.

(** What was set is what the readers get: after a [set_result v] or [set_exception e] on a
    pending future, with any callbacks registered, [result()] returns [v], or raises [e] and
    [exception()] returns it; after a [cancel] the future is cancelled. *)
Theorem aio_outcome_roundtrip fuel o s s' r out0 :
  af_done (a_fut s) = false -> pgexc (a_fut s) = None -> completes o (a_fut s) = Some out0 ->
  exec_op fuel o s = Some (s', r) ->
  match o with
  | OpSetResult v => (af_result (a_fut s')).2 = Ret (AvVal v) /\ (af_exception (a_fut s')).2 = Ret (AvExc None)
  | OpSetException (ExcInst e) | OpSetException (ExcClass (Ret e)) =>
      (af_result (a_fut s')).2 = Exc e /\ (af_exception (a_fut s')).2 = Ret (AvExc (Some e))
  | _ => af_cancelled (a_fut s') = true
  end.
Proof.
  intros Hd Hx Hc H. destruct fuel as [|fuel]; [done|].
  destruct (completes_fires fuel o s s' r out0 Hd Hc H) as (s1 & Eo & _ & _ & _ & Hd1 & Hfire).
  destruct (fire_loop_spec _ (exec_done_quiet fuel) _ _ _ _ Hd1 Hfire) as [(Es & _ & _) _].
  rewrite Eo in Es. clear Eo. unfold outcome in Es. unfold af_result, af_exception, af_cancelled.
  destruct o as [v|[e|[e|e]]|m| | |c ctx|i|]; try done; simpl in Hc.
  - injection Hc as <-. injection Es as -> -> -> _. by rewrite Hx.
  - destruct e; try done; injection Hc as <-; by injection Es as -> _ -> _.
  - destruct e; try done; injection Hc as <-; by injection Es as -> _ -> _.
  - injection Hc as <-. injection Es as -> _ _ _. done.
Qed.

(** A future awaited by a task of this library (with a context that is entered), a stock task and a
    user callback that itself adds another. *)
Definition aio_demo : ast :=
  Ast (AFut PENDING None None
        [(Callback 1 HostStackweave false [OpResult] None, Some 9%nat);
         (Callback 2 HostStock false [] None, None);
         (Callback 3 HostOther true [OpAdd (Callback 4 HostOther false [] None) None; OpCancel None] (Some (UserExc 5)), None)]
        None None false)
      LoopOpen {[9%nat]} [].

Definition aio_cancelled : ast := Ast (AFut CANCELLED None None [] (Some "stop"%string) None false) NoLoop ∅ [].

Lemma aio_outcome_final_witness :
  exists s' r, exec_op 2 (OpSetResult (Some 1%nat)) aio_cancelled = Some (s', r) /\ s' = aio_cancelled /\ r = Exc already_done.
Proof.
  eexists _, _. split; [reflexivity|].
  apply (aio_outcome_final 2 (OpSetResult (Some 1%nat)) aio_cancelled); reflexivity.
Defined.

Lemma aio_callbacks_dispatched_witness :
  exists s', exec_op 3 (OpSetResult (Some 1%nat)) aio_demo = Some (s', Ret AvNone) /\
    a_log s' = [Deferred 1 (Some 9%nat) false; Deferred 2 None true; Ran 3 None; AddSoon 4 None; Reported (UserExc 5)] /\
    outcome (a_fut s') = (FINISHED, Some 1%nat, None, None).
Proof.
  eexists. split; [vm_compute; reflexivity|]. split; [reflexivity|].
  eapply (aio_callbacks_dispatched 3 (OpSetResult (Some 1%nat)) aio_demo); vm_compute; reflexivity.
Defined.

Lemma aio_outcome_roundtrip_witness :
  exists s', exec_op 3 (OpSetException (ExcInst (UserExc 8))) aio_demo = Some (s', Ret AvNone) /\
    (af_result (a_fut s')).2 = Exc (UserExc 8).
Proof.
  eexists. split; [vm_compute; reflexivity|].
  eapply (aio_outcome_roundtrip 3 (OpSetException (ExcInst (UserExc 8))) aio_demo); vm_compute; reflexivity.
Defined.

(** A callback run at once that raises an error of its own reading "cannot enter context ..." is taken
    for one its context refused: it has run, and it is handed to the loop to run a second time. *)
Theorem aio_callback_runs_twice :
  let c := Callback 1 HostOther true [] (Some (RuntimeError "cannot enter context: nested run")) in
  exists s', exec_op 2 (OpSetResult None) (Ast (AFut PENDING None None [(c, Some 3%nat)] None None false) LoopOpen ∅ []) =
      Some (s', Ret AvNone) /\ a_log s' = [Ran 1 (Some 3%nat); Deferred 1 (Some 3%nat) false].
Proof. eexists. split; [vm_compute; reflexivity|reflexivity]. Qed.
