(* ===== verification/AioLoop.v ===== *)
(** * The callback queues of the asyncio loop

    Models [class _LoopScheduleMixin] of [src/src/stackweave/aio/loop_schedule.py] and the run and
    stop part of [class _LoopRunMixin] of [src/src/stackweave/aio/loop_run.py].  A callback is a
    script: the loop operations it performs, and how it ends.  The thread's scheduler is a FIFO ring
    of ready fibers and a set of sleeping ones; one fiber step runs to the fiber's next sleep or to
    its end.  Calls by any thread happen between fiber steps, calls by a callback inside one. *)
From stdpp Require Import sorting.
From S2P Require Import Prelude.
Local Open Scope Z_scope.

(** How a callback ends: it returns, raises, or raises [KeyboardInterrupt] or [SystemExit]. *)
Inductive cbres := CbOk | CbExc | CbFatal (n : nat).

Inductive cb := Cb (acts : list act) (r : cbres)
with act := AcSoon (c : cb) | AcTs (c : cb) | AcAt (when : Z) (c : cb) | AcCancel (h : nat) | AcStop.

(** Where a handle was scheduled: [call_soon] on the loop's thread, deferred before the run,
    [call_soon_threadsafe], a timer. *)
Inductive kind := KLocal | KDefer | KTs | KTimer.

#[export] Instance kind_eq_dec : EqDecision kind.
Proof. solve_decision. Defined.

Record handle := Handle { hd_cb : cb; hd_when : Z; hd_kind : kind; hd_cancelled : bool }.

(** Fibers: the runners of [call_soon] and of [call_at] (before and after its sleep), the keepalive
    of one run, and the driver of a task. *)
Inductive fib := FSoon (h : nat) | FTimer (h : nat) | FTimerDue (h : nat) | FKeep (box : nat) | FTask (n : nat).

(** Entries of [_ts_queue]: a handle; a [_DeferredSpawn] of a callback's runner or of a task's
    driver; a handle that spawns a timer's runner. *)
Inductive tsitem := TsHandle (h : nat) | TsSpawn (h : nat) | TsTask (n : nat) | TsTimer (h : nat).

Record queues := Queues { q_ts : list tsitem; q_ready : list fib; q_sleep : list (Z * fib) }.

(** The handles by number.  The log of runs (handle, time, current task seen) and the reports of
    callbacks' exceptions, to the exception handler or for a timer to [sys.stderr], are not read by
    the code. *)
Record hist := Hist { hs_hd : list handle; hs_log : list (nat * Z * option nat); hs_errs : list nat }.

(** [_closed], [_thread_id], [_pg_driver_tid], [_stopping], [_pg_fatal_exc], [_ka_stop_box] (its
    number) and the boxes that hold [True], whether [sched_stop] was called, the current task. *)
Record ctrl := Ctrl {
  c_closed : bool; c_thread : option tid; c_driver : option tid; c_stopping : bool; c_fatal : option nat;
  c_box : option nat; c_stopped : gset nat; c_nbox : nat; c_halt : bool; c_cur : option nat; c_now : Z
}.

Record loop := Loop { lq : queues; lh : hist; lc : ctrl }.

Definition set_q (q : queues) (s : loop) : loop := Loop q (lh s) (lc s).
Definition set_c (c : ctrl) (s : loop) : loop := Loop (lq s) (lh s) c.
Definition spawn (f : fib) (s : loop) : loop := set_q (Queues (q_ts (lq s)) (q_ready (lq s) ++ [f]) (q_sleep (lq s))) s.
Definition ts_append (x : tsitem) (s : loop) : loop := set_q (Queues (q_ts (lq s) ++ [x]) (q_ready (lq s)) (q_sleep (lq s))) s.

(** A new handle. *)
Definition new_handle (c : cb) (when : Z) (k : kind) (s : loop) : loop * nat :=
  (Loop (lq s) (Hist (hs_hd (lh s) ++ [Handle c when k false]) (hs_log (lh s)) (hs_errs (lh s))) (lc s), length (hs_hd (lh s))).

(** [_can_spawn_here()] on thread [t]. *)
Definition can_spawn_here (t : tid) (s : loop) : bool :=
  match c_thread (lc s) with Some d => bool_decide (d = t) | None => bool_decide (c_driver (lc s) = Some t) end.

Definition closed_error {A} : out A := Exc (RuntimeError "Event loop is closed").

(** [call_soon_threadsafe(callback)] *)
Definition call_soon_threadsafe (c : cb) (s : loop) : loop * out nat :=
  if c_closed (lc s) then (s, closed_error)
  else let '(s1, h) := new_handle c 0 KTs s in (ts_append (TsHandle h) s1, Ret h).

(** [call_soon(callback)] on thread [t] *)
Definition call_soon (t : tid) (c : cb) (s : loop) : loop * out nat :=
  if c_closed (lc s) then (s, closed_error)
  else if can_spawn_here t s then let '(s1, h) := new_handle c 0 KLocal s in (spawn (FSoon h) s1, Ret h)
  else match c_thread (lc s) with
       | None => let '(s1, h) := new_handle c 0 KDefer s in (ts_append (TsSpawn h) s1, Ret h)
       | Some _ => call_soon_threadsafe c s
       end.

(** [call_at(when, callback)] on thread [t]; [call_later(d, callback)] is [call_at(time() + d, ...)]. *)
Definition call_at (t : tid) (when : Z) (c : cb) (s : loop) : loop * out nat :=
  if c_closed (lc s) then (s, closed_error)
  else
    let '(s1, h) := new_handle c when KTimer s in
    (if can_spawn_here t s then spawn (FTimer h) s1 else ts_append (TsTimer h) s1, Ret h).
Definition call_later (t : tid) (d : Z) (c : cb) (s : loop) : loop * out nat := call_at t (c_now (lc s) + d) c s.

(** [create_task(coro)] on thread [t], with the default task factory: the driver of task [n].  A foreign
    thread waits for the entry it queued in a running loop to be drained. *)
Definition create_task (t : tid) (n : nat) (s : loop) : loop * out unit :=
  if c_closed (lc s) then (s, closed_error)
  else if can_spawn_here t s then (spawn (FTask n) s, Ret tt) else (ts_append (TsTask n) s, Ret tt).

(** [handle.cancel()] *)
Definition cancel (h : nat) (s : loop) : loop :=
  Loop (lq s) (Hist (alter (λ x, Handle (hd_cb x) (hd_when x) (hd_kind x) true) h (hs_hd (lh s))) (hs_log (lh s)) (hs_errs (lh s))) (lc s).

(** [stop()] *)
Definition stop (s : loop) : loop :=
  let c := lc s in
  set_c (Ctrl (c_closed c) (c_thread c) (c_driver c) true (c_fatal c) (c_box c) (c_stopped c) (c_nbox c) (c_halt c) (c_cur c) (c_now c)) s.

(** [stackweave_c.sched_stop()] *)
Definition sched_stop (s : loop) : loop :=
  let c := lc s in
  set_c (Ctrl (c_closed c) (c_thread c) (c_driver c) (c_stopping c) (c_fatal c) (c_box c) (c_stopped c) (c_nbox c) true (c_cur c) (c_now c)) s.

(** [_pg_signal_fatal(exc)] *)
Definition pg_signal_fatal (e : nat) (s : loop) : loop :=
  let c := lc s in
  sched_stop (set_c (Ctrl (c_closed c) (c_thread c) (c_driver c) (c_stopping c)
    (Some (default e (c_fatal c))) (c_box c) (match c_box c with Some b => {[b]} ∪ c_stopped c | None => c_stopped c end)
    (c_nbox c) (c_halt c) (c_cur c) (c_now c)) s).

Definition set_cur (x : option nat) (s : loop) : loop :=
  let c := lc s in
  set_c (Ctrl (c_closed c) (c_thread c) (c_driver c) (c_stopping c) (c_fatal c) (c_box c) (c_stopped c) (c_nbox c) (c_halt c) x (c_now c)) s.

(** One operation of a callback, on the loop's thread. *)
Definition run_act (s : loop) (a : act) : loop :=
  let t := default O (c_thread (lc s)) in
  match a with
  | AcSoon c => (call_soon t c s).1
  | AcTs c => (call_soon_threadsafe c s).1
  | AcAt when c => (call_at t when c s).1
  | AcCancel h => cancel h s
  | AcStop => stop s
  end.

Definition cancelled (h : nat) (s : loop) : bool := match hs_hd (lh s) !! h with Some x => hd_cancelled x | None => true end.

(** [_pg_run_loop_cb(ctx, callback, args)], with what the callers do with an exception. *)
Definition pg_run_loop_cb (h : nat) (s : loop) : loop :=
  match hs_hd (lh s) !! h with
  | None => s
  | Some x =>
      let '(Cb acts r) := hd_cb x in
      let prev := c_cur (lc s) in
      let s1 := set_cur None s in
      let s2 := Loop (lq s1) (Hist (hs_hd (lh s1)) (hs_log (lh s1) ++ [(h, c_now (lc s1), c_cur (lc s1))]) (hs_errs (lh s1))) (lc s1) in
      let s3 := foldl run_act s2 acts in
      let s4 := match prev with Some _ => set_cur prev s3 | None => s3 end in
      match r with
      | CbOk => s4
      | CbFatal e => pg_signal_fatal e s4
      | CbExc => Loop (lq s4) (Hist (hs_hd (lh s4)) (hs_log (lh s4)) (hs_errs (lh s4) ++ [h])) (lc s4)
      end
  end.

(** [if not handle._cancelled: run the callback] *)
Definition run_handle (h : nat) (s : loop) : loop := if cancelled h s then s else pg_run_loop_cb h s.

(** One entry of [_drain_ts_queue]. *)
Definition drain_item (s : loop) (x : tsitem) : loop :=
  match x with
  | TsHandle h => run_handle h s
  | TsSpawn h => spawn (FSoon h) s
  | TsTask n => spawn (FTask n) s
  | TsTimer h => spawn (FTimer h) s
  end.

(** [_drain_ts_queue()] *)
Definition drain_ts_queue (s : loop) : loop :=
  foldl drain_item (set_q (Queues [] (q_ready (lq s)) (q_sleep (lq s))) s) (q_ts (lq s)).

Definition sleep_until (u : Z) (f : fib) (s : loop) : loop :=
  set_q (Queues (q_ts (lq s)) (q_ready (lq s)) (q_sleep (lq s) ++ [(u, f)])) s.

(** One turn of a fiber: the runners of [call_soon] and [call_at], [_keepalive]. *)
Definition run_fib (f : fib) (s : loop) : loop :=
  match f with
  | FSoon h => run_handle h s
  | FTimer h =>
      if cancelled h s then s
      else sleep_until (Z.max (c_now (lc s)) (match hs_hd (lh s) !! h with Some x => hd_when x | None => 0 end)) (FTimerDue h) s
  | FTimerDue h => run_handle h s
  | FKeep b =>
      if negb (bool_decide (b ∈ c_stopped (lc s))) && negb (c_closed (lc s)) && negb (c_stopping (lc s))
      then let s1 := drain_ts_queue s in sleep_until (c_now (lc s1) + 2000) (FKeep b) s1
      else let s1 := drain_ts_queue s in if c_stopping (lc s1) then sched_stop s1 else s1
  | FTask n => s
  end.

(** The next ready fiber takes its turn. *)
Definition step_ready (s : loop) : option loop :=
  match c_thread (lc s), c_halt (lc s), q_ready (lq s) with
  | Some _, false, f :: r => Some (run_fib f (set_q (Queues (q_ts (lq s)) r (q_sleep (lq s))) s))
  | _, _, _ => None
  end.

(** The [i]-th sleeper's time has come. *)
Definition step_wake (i : nat) (s : loop) : option loop :=
  match q_sleep (lq s) !! i with
  | Some (u, f) =>
      if u <=? c_now (lc s) then Some (set_q (Queues (q_ts (lq s)) (q_ready (lq s) ++ [f]) (delete i (q_sleep (lq s)))) s) else None
  | None => None
  end.

(** [run_forever()] on thread [t] up to the drive: the checks (of this loop), [_spawn_keepalive],
    entering [_drive]. *)
Definition run_forever (t : tid) (s : loop) : loop * out unit :=
  let c := lc s in
  if c_closed c then (s, closed_error)
  else match c_thread c with
       | Some _ => (s, Exc (RuntimeError "This event loop is already running"))
       | None =>
           let b := c_nbox c in
           (spawn (FKeep b)
              (set_c (Ctrl false (Some t) (Some t) (c_stopping c) (c_fatal c) (Some b) (c_stopped c) (S b) false (c_cur c) (c_now c)) s),
            Ret tt)
       end.

(** The end of the drive: the [finally] of [_drive], the re-raise, the [finally] of [run_forever]. *)
Definition drive_exit (s : loop) : option (loop * out unit) :=
  let c := lc s in
  match c_thread c with
  | Some _ =>
      if c_halt c || bool_decide (q_ready (lq s) = [] /\ q_sleep (lq s) = []) then
        Some (set_c (Ctrl (c_closed c) None None false None (c_box c)
                (match c_box c with Some b => {[b]} ∪ c_stopped c | None => c_stopped c end) (c_nbox c) (c_halt c) None (c_now c)) s,
              match c_fatal c with Some e => Exc (UserExc e) | None => Ret tt end)
      else None
  | None => None
  end.

Definition loop_init : loop :=
  Loop (Queues [] [] []) (Hist [] [] []) (Ctrl false None None false None None ∅ 0 false None 0).

(** ** The invariant of the queues *)

Definition fib_h (f : fib) : option nat := match f with FSoon h | FTimer h | FTimerDue h => Some h | FKeep _ | FTask _ => None end.
Definition ts_h (x : tsitem) : option nat := match x with TsHandle h | TsSpawn h | TsTimer h => Some h | TsTask _ => None end.

Abbreviation runlog := (list (nat * Z * option nat)).

Definition ran (log : runlog) : list nat := (λ x, x.1.1) <$> log.

(** The handles that have run, then those of the ready fibers, then those of the queue: the order in
    which they run. *)
Definition ord (log : runlog) (R : list fib) (T : list tsitem) : list nat := ran log ++ omap fib_h R ++ omap ts_h T.
Definition sids (S : list (Z * fib)) : list nat := omap (λ x, fib_h x.2) S.

Definition kind_of (hd : list handle) (h : nat) : option kind := hd_kind <$> hd !! h.

(** Handles of one kind, timers apart, in the order of their numbers. *)
Definition kord (hd : list handle) (h1 h2 : nat) : Prop :=
  kind_of hd h1 = kind_of hd h2 -> kind_of hd h1 ≠ Some KTimer -> (h1 < h2)%nat.

Definition timer_by (hd : list handle) (h : nat) (t : Z) : Prop := exists x, hd !! h = Some x /\ hd_kind x = KTimer /\ hd_when x <= t.

Definition fib_ok (hd : list handle) (now : Z) (f : fib) : Prop :=
  match f with
  | FSoon h => kind_of hd h = Some KLocal \/ kind_of hd h = Some KDefer
  | FTimer h => kind_of hd h = Some KTimer
  | FTimerDue h => timer_by hd h now
  | FKeep _ | FTask _ => True
  end.
Definition ts_ok (hd : list handle) (x : tsitem) : Prop :=
  match x with
  | TsHandle h => kind_of hd h = Some KTs
  | TsSpawn h => kind_of hd h = Some KDefer
  | TsTimer h => kind_of hd h = Some KTimer
  | TsTask _ => True
  end.
Definition sleep_ok (hd : list handle) (x : Z * fib) : Prop :=
  match x.2 with FTimerDue h => timer_by hd h x.1 | FKeep _ => True | _ => False end.
Definition log_ok (hd : list handle) (now : Z) (x : nat * Z * option nat) : Prop :=
  x.1.2 <= now /\ x.2 = None /\ exists y, hd !! x.1.1 = Some y /\ (hd_kind y = KTimer -> hd_when y <= x.1.2).

Record jv (hd : list handle) (log : runlog) (R : list fib) (S : list (Z * fib)) (T : list tsitem) (now : Z) : Prop := {
  j_nodup : NoDup (ord log R T ++ sids S);
  j_range h : h ∈ ord log R T ++ sids S -> (h < length hd)%nat;
  j_all h x : hd !! h = Some x -> hd_cancelled x = false -> h ∈ ord log R T ++ sids S;
  j_sort : StronglySorted (kord hd) (ord log R T);
  j_fibs : Forall (fib_ok hd now) R;
  j_sleep : Forall (sleep_ok hd) S;
  j_ts : Forall (ts_ok hd) T;
  j_log : Forall (log_ok hd now) log
}.

Lemma StronglySorted_impl {A} (R1 R2 : A -> A -> Prop) l :
  (forall x y, x ∈ l -> y ∈ l -> R1 x y -> R2 x y) -> StronglySorted R1 l -> StronglySorted R2 l.
Proof.
  intros Himp H. induction H as [|x l Hs IH Hf]; [constructor|]. constructor; [apply IH; intros; apply Himp; by try right|].
  rewrite Forall_forall in *. intros y Hy. apply Himp; [by left|by right|auto].
Qed.

(** Rearrangements: the same handles in the same order, or in an order that is still sorted. *)
Lemma jv_move hd log R S T now log' R' S' T' : jv hd log R S T now ->
  ord log' R' T' ++ sids S' ≡ₚ ord log R T ++ sids S -> StronglySorted (kord hd) (ord log' R' T') ->
  Forall (fib_ok hd now) R' -> Forall (sleep_ok hd) S' -> Forall (ts_ok hd) T' -> Forall (log_ok hd now) log' -> jv hd log' R' S' T' now.
Proof.
  intros [] Hp Hs H1 H2 H3 H4. split; try done; [by rewrite Hp|intros h; rewrite Hp; auto|intros h x; rewrite Hp; eauto].
Qed.

(** One cancelled handle less. *)
Lemma jv_drop hd log R S T now log' R' S' T' h : jv hd log R S T now ->
  ord log R T ++ sids S ≡ₚ h :: ord log' R' T' ++ sids S' -> (forall x, hd !! h = Some x -> hd_cancelled x = true) ->
  StronglySorted (kord hd) (ord log' R' T') ->
  Forall (fib_ok hd now) R' -> Forall (sleep_ok hd) S' -> Forall (ts_ok hd) T' -> Forall (log_ok hd now) log' -> jv hd log' R' S' T' now.
Proof.
  intros [Hnd Hr Ha Hso _ _ _ _] Hp Hc Hs H1 H2 H3 H4. split; try done.
  - rewrite Hp in Hnd. by apply NoDup_cons in Hnd as [_ ?].
  - intros h' Hin. apply Hr. rewrite Hp. by right.
  - intros h' x Hx Hcx. specialize (Ha h' x Hx Hcx). rewrite Hp in Ha. apply elem_of_cons in Ha as [->|?]; [|done].
    rewrite (Hc x Hx) in Hcx. done.
Qed.

Lemma sorted_drop_mid {A} (R : A -> A -> Prop) l1 x l2 : StronglySorted R (l1 ++ x :: l2) -> StronglySorted R (l1 ++ l2).
Proof.
  rewrite !StronglySorted_app. intros (H1 & H2 & H3). apply StronglySorted_inv in H3 as [H3 _].
  split_and!; [|done|done]. intros a b Ha Hb. apply H1; [done|by right].
Qed.

(** A timer may stand anywhere. *)
Lemma sorted_add_timer hd l1 h l2 : kind_of hd h = Some KTimer -> StronglySorted (kord hd) (l1 ++ l2) -> StronglySorted (kord hd) (l1 ++ h :: l2).
Proof.
  intros Hk. rewrite !StronglySorted_app. intros (H1 & H2 & H3). split_and!; [|done|].
  - intros a b Ha [->|Hb]%elem_of_cons; [|by apply H1]. intros E1 E2. congruence.
  - constructor; [done|]. apply Forall_forall. intros y _ _ E. congruence.
Qed.

Lemma fmap_snoc_ord (log : runlog) x R T : ord (log ++ [x]) R T = ran log ++ x.1.1 :: omap fib_h R ++ omap ts_h T.
Proof. unfold ord, ran. by rewrite fmap_app, <- app_assoc. Qed.

(** A handle at the head of the ready ring runs. *)
Lemma jv_log_ready hd log f R S T now h : jv hd log (f :: R) S T now -> f = FSoon h \/ f = FTimerDue h ->
  jv hd (log ++ [(h, now, None)]) R S T now.
Proof.
  intros Hj Hf. assert (Eo : ord (log ++ [(h, now, None)]) R T = ord log (f :: R) T).
  { rewrite fmap_snoc_ord. unfold ord. by destruct Hf as [-> | ->]. }
  pose proof Hj as [_ _ _ Hs Hfi ? ? Hl]. apply Forall_cons in Hfi as [Hfo HR].
  apply (jv_move hd log (f :: R) S T now); try done; [by rewrite Eo|by rewrite Eo|].
  apply Forall_app. split; [done|]. apply Forall_singleton. split_and!; simpl; [lia|done|].
  destruct Hf as [-> | ->]; [|destruct Hfo as (x & ? & ? & ?); by exists x].
  destruct Hfo as [(x & ? & E)%fmap_Some|(x & ? & E)%fmap_Some]; exists x; (split; [done|]); intros E'; congruence.
Qed.

Lemma ready_not_ts hd now R : Forall (fib_ok hd now) R -> forall h, h ∈ omap fib_h R -> kind_of hd h ≠ Some KTs.
Proof.
  intros HR h (f & Hf & Eh)%list_elem_of_omap. rewrite Forall_forall in HR. specialize (HR f Hf).
  destruct f as [h'|h'|h'| |]; simplify_eq/=; [destruct HR; congruence|congruence|].
  destruct HR as (x & Hx & Hk & _). unfold kind_of. rewrite Hx. simpl. congruence.
Qed.

(** A handle of the queue runs inline: nothing of its kind is in the ready ring. *)
Lemma jv_log_ts hd log R S T now h : jv hd log R S (TsHandle h :: T) now ->
  jv hd (log ++ [(h, now, None)]) R S T now.
Proof.
  intros Hj. pose proof Hj as [_ _ _ Hs Hfi ? Ht Hl]. pose proof (ready_not_ts _ _ _ Hfi) as HR. apply Forall_cons in Ht as [Hto HT]. simpl in Hto.
  assert (Hx : exists x, hd !! h = Some x /\ hd_kind x = KTs) by (apply fmap_Some in Hto as (x & ? & ?); eauto).
  assert (Eo : ord log R (TsHandle h :: T) = ran log ++ omap fib_h R ++ h :: omap ts_h T) by done.
  apply (jv_move hd log R S (TsHandle h :: T) now); try done.
  - rewrite fmap_snoc_ord, Eo. solve_Permutation.
  - rewrite fmap_snoc_ord. rewrite Eo in Hs. rewrite StronglySorted_app in Hs. destruct Hs as (H1 & H2 & H3).
    pose proof (sorted_drop_mid _ _ _ _ H3) as H4. rewrite StronglySorted_app in H3. destruct H3 as (H5 & _ & H6).
    apply StronglySorted_inv in H6 as [_ H6]. rewrite Forall_forall in H6.
    apply StronglySorted_app_2; [|done|constructor; [done|]].
    + intros a b Ha [->|Hb]%elem_of_cons; apply H1; try done; apply elem_of_app; [by right; left|].
      apply elem_of_app in Hb as [?|?]; [by left|right; by right].
    + apply Forall_forall. intros y [Hy|Hy]%elem_of_app; [|by apply H6]. intros E _. exfalso. apply (HR y Hy). rewrite <- E. done.
  - apply Forall_app. split; [done|]. apply Forall_singleton. split_and!; simpl; [lia|done|].
    destruct Hx as (x & ? & E). exists x. split; [done|]. intros E'. congruence.
Qed.

(** A fiber leaves the ring without running its handle, if it has one. *)
Lemma jv_drop_ready hd log f R S T now : jv hd log (f :: R) S T now ->
  (forall h x, fib_h f = Some h -> hd !! h = Some x -> hd_cancelled x = true) -> jv hd log R S T now.
Proof.
  intros Hj Hc. pose proof Hj as [_ _ _ Hs Hfi ? ? ?]. apply Forall_cons in Hfi as [_ HR]. unfold ord in Hs. simpl in Hs.
  destruct (fib_h f) as [h|] eqn:Ef.
  - apply (jv_drop hd log (f :: R) S T now log R S T h); try done; [|eauto|by eapply sorted_drop_mid].
    unfold ord. simpl. rewrite Ef. solve_Permutation.
  - apply (jv_move hd log (f :: R) S T now); try done. unfold ord. simpl. by rewrite Ef.
Qed.

Lemma jv_drop_ts hd log R S T now h : jv hd log R S (TsHandle h :: T) now -> (forall x, hd !! h = Some x -> hd_cancelled x = true) ->
  jv hd log R S T now.
Proof.
  intros Hj Hc. pose proof Hj as [_ _ _ Hs ? ? Ht ?]. apply Forall_cons in Ht as [_ HT].
  apply (jv_drop hd log R S (TsHandle h :: T) now log R S T h); try done.
  - unfold ord. simpl. solve_Permutation.
  - unfold ord in *. simpl in Hs. rewrite app_assoc in Hs |- *. by eapply sorted_drop_mid.
Qed.

(** A deferred entry becomes a ready fiber: its place in the order is the same. *)
Lemma jv_spawn_ts hd log R S x T now f : jv hd log R S (x :: T) now ->
  match x with TsSpawn h => f = FSoon h | TsTimer h => f = FTimer h | TsTask n => f = FTask n | TsHandle _ => False end ->
  jv hd log (R ++ [f]) S T now.
Proof.
  intros Hj Hx. pose proof Hj as [_ _ _ Hs Hfi ? Ht ?]. apply Forall_cons in Ht as [Hxo HT].
  assert (Eo : ord log (R ++ [f]) T = ord log R (x :: T)).
  { unfold ord. rewrite omap_app. destruct x; try done; subst f; simpl; by rewrite <- !app_assoc. }
  apply (jv_move hd log R S (x :: T) now); try done; [by rewrite Eo|by rewrite Eo|].
  apply Forall_app. split; [done|]. apply Forall_singleton. destruct x; try done; subst f; simpl in *; auto.
Qed.

(** A timer goes to sleep, and wakes. *)
Lemma jv_sleep hd log h R S T now u : jv hd log (FTimer h :: R) S T now -> timer_by hd h u -> jv hd log R (S ++ [(u, FTimerDue h)]) T now.
Proof.
  intros Hj Hu. pose proof Hj as [_ _ _ Hs Hfi ? ? ?]. apply Forall_cons in Hfi as [_ HR].
  apply (jv_move hd log (FTimer h :: R) S T now); try done.
  - unfold ord, sids. simpl. rewrite omap_app. simpl. solve_Permutation.
  - unfold ord in *; simpl in Hs; by eapply sorted_drop_mid.
  - apply Forall_app. split; [done|]. by apply Forall_singleton.
Qed.

Lemma omap_perm {A B} (g : A -> option B) l1 l2 : l1 ≡ₚ l2 -> omap g l1 ≡ₚ omap g l2.
Proof.
  induction 1 as [|x l1 l2 _ IH|x y l|l1 l2 l3 _ IH1 _ IH2]; simpl; [done| | |by etrans].
  - by destruct (g x); rewrite IH.
  - destruct (g x), (g y); solve_Permutation.
Qed.

Lemma jv_wake hd log R S T now i u f : jv hd log R S T now -> S !! i = Some (u, f) -> u <= now -> jv hd log (R ++ [f]) (delete i S) T now.
Proof.
  intros Hj Hi Hu. pose proof Hj as [_ _ _ Hs Hfi Hsl ? ?]. pose proof (delete_Permutation _ _ _ Hi) as Hp.
  assert (Hf : sleep_ok hd (u, f)) by (rewrite Forall_forall in Hsl; by eapply Hsl, list_elem_of_lookup_2).
  assert (Hd : Forall (sleep_ok hd) (delete i S)) by (rewrite Hp in Hsl; by apply Forall_cons in Hsl as [_ ?]).
  assert (Eo : ord log (R ++ [f]) T = ran log ++ omap fib_h R ++ omap fib_h [f] ++ omap ts_h T) by (unfold ord; by rewrite omap_app, <- !app_assoc).
  apply (jv_move hd log R S T now); try done.
  - rewrite Eo. assert (sids S ≡ₚ omap fib_h [f] ++ sids (delete i S)) as ->.
    { unfold sids. rewrite (omap_perm _ _ _ Hp). simpl. by destruct (fib_h f). }
    unfold ord. solve_Permutation.
  - rewrite Eo. unfold sleep_ok in Hf. simpl in Hf. destruct f as [| |h| |]; try done.
    simpl. rewrite app_assoc. apply sorted_add_timer; [|unfold ord in Hs; by rewrite app_assoc in Hs].
    destruct Hf as (x & Hx & Hk & _). unfold kind_of. rewrite Hx. simpl. congruence.
  - apply Forall_app. split; [done|]. apply Forall_singleton. unfold sleep_ok in Hf. simpl in Hf. destruct f as [| |h| |]; try done.
    destruct Hf as (x & ? & ? & ?). exists x. split_and!; [done..|lia].
Qed.

(** A fiber without a handle joins the ring or sleeps. *)
Lemma jv_fiber hd log R S T now f : jv hd log R S T now -> fib_h f = None -> jv hd log (R ++ [f]) S T now.
Proof.
  intros Hj Hf. pose proof Hj as [_ _ _ Hs Hfi ? ? ?].
  assert (Eo : ord log (R ++ [f]) T = ord log R T) by (unfold ord; rewrite omap_app; simpl; by rewrite Hf, app_nil_r).
  apply (jv_move hd log R S T now); try done; [by rewrite Eo|by rewrite Eo|]. apply Forall_app. split; [done|]. apply Forall_singleton. by destruct f.
Qed.

Lemma jv_keep_sleep hd log R S T now u b : jv hd log R S T now -> jv hd log R (S ++ [(u, FKeep b)]) T now.
Proof.
  intros Hj. pose proof Hj as [_ _ _ ? ? ? ? ?]. apply (jv_move hd log R S T now); try done.
  - unfold sids. rewrite omap_app. simpl. by rewrite app_nil_r.
  - apply Forall_app. split; [done|]. by apply Forall_singleton.
Qed.

Lemma jv_now hd log R S T now now' : jv hd log R S T now -> now <= now' -> jv hd log R S T now'.
Proof.
  intros [H1 H2 H3 H4 H5 H6 H7 H8] Hn. split; try done.
  - eapply Forall_impl; [exact H5|]. intros f Hf. destruct f; try done. destruct Hf as (x & ? & ? & ?). exists x. split_and!; [done..|lia].
  - eapply Forall_impl; [exact H8|]. intros x (? & ? & ?). split_and!; [lia|done..].
Qed.

(** The facts about handles survive a change of the table that keeps kinds and times. *)
Lemma jv_table hd hd' log R S T now : jv hd log R S T now ->
  (forall h x, hd !! h = Some x -> exists y, hd' !! h = Some y /\ hd_kind y = hd_kind x /\ hd_when y = hd_when x) ->
  StronglySorted (kord hd') (ord log R T) /\ Forall (fib_ok hd' now) R /\ Forall (sleep_ok hd') S /\ Forall (ts_ok hd') T /\ Forall (log_ok hd' now) log.
Proof.
  intros [H1 H2 H3 H4 H5 H6 H7 H8] Hk.
  assert (Hko : forall h k, kind_of hd h = Some k -> kind_of hd' h = Some k).
  { intros h k (x & Hx & ->)%fmap_Some. destruct (Hk h x Hx) as (y & Hy & E & _). unfold kind_of. rewrite Hy. simpl. congruence. }
  assert (Htb : forall h t, timer_by hd h t -> timer_by hd' h t).
  { intros h t (x & Hx & ? & ?). destruct (Hk h x Hx) as (y & Hy & E1 & E2). exists y. split_and!; [done|congruence|lia]. }
  split_and!.
  - eapply StronglySorted_impl; [|exact H4]. intros a b Ha Hb Hab E1 E2.
    assert (forall h, h ∈ ord log R T -> exists k, kind_of hd h = Some k /\ kind_of hd' h = Some k) as Hin.
    { intros h Hh. assert (h < length hd)%nat as [x Hx]%lookup_lt_is_Some_2 by (apply H2, elem_of_app; by left).
      exists (hd_kind x). assert (kind_of hd h = Some (hd_kind x)) by (unfold kind_of; by rewrite Hx). auto. }
    destruct (Hin a Ha) as (ka & Ea & Ea'), (Hin b Hb) as (kb & Eb & Eb'). apply Hab; congruence.
  - eapply Forall_impl; [exact H5|]. intros f Hf. destruct f; simpl in *; try done; [destruct Hf; auto|auto|auto].
  - eapply Forall_impl; [exact H6|]. intros [u f] Hf. unfold sleep_ok in *. simpl in *. destruct f; try done. auto.
  - eapply Forall_impl; [exact H7|]. intros x Hx. destruct x; simpl in *; auto.
  - eapply Forall_impl; [exact H8|]. intros x (? & ? & y & Hy & Hw). split_and!; [done..|]. destruct (Hk _ _ Hy) as (z & Hz & E1 & E2).
    exists z. split; [done|]. intros E. rewrite E2. apply Hw. congruence.
Qed.

Lemma jv_cancel hd log R S T now h : jv hd log R S T now ->
  jv (alter (λ x, Handle (hd_cb x) (hd_when x) (hd_kind x) true) h hd) log R S T now.
Proof.
  intros Hj. pose proof Hj as [H1 H2 H3 _ _ _ _ _].
  destruct (jv_table hd (alter (λ x, Handle (hd_cb x) (hd_when x) (hd_kind x) true) h hd) log R S T now Hj) as (? & ? & ? & ? & ?).
  { intros h' x Hx. rewrite list_lookup_alter. case_decide; subst; rewrite Hx; simpl; eauto. }
  split; try done.
  - intros h' Hin. rewrite length_alter. auto.
  - intros h' x. rewrite list_lookup_alter. case_decide; [|by apply H3]. subst. rewrite fmap_Some. intros (y & _ & ->). done.
Qed.

(** A new handle, at the end of the queue or of the ring. *)
Lemma jv_new hd x log R S T now R' T' : jv hd log R S T now ->
  ((exists y, T' = T ++ [y] /\ R' = R /\ ts_h y = Some (length hd) /\ ts_ok (hd ++ [x]) y) \/
   (exists f, R' = R ++ [f] /\ T' = T /\ fib_h f = Some (length hd) /\ fib_ok (hd ++ [x]) now f /\ (hd_kind x = KLocal \/ hd_kind x = KTimer))) ->
  jv (hd ++ [x]) log R' S T' now.
Proof.
  intros Hj Hnew. pose proof Hj as [H1 H2 H3 _ _ _ _ _]. set (n := length hd) in *.
  destruct (jv_table hd (hd ++ [x]) log R S T now Hj) as (Hs & Hfi & Hsl & Ht & Hl).
  { intros h y Hy. exists y. split; [by apply lookup_app_l_Some|done]. }
  assert (Hx : (hd ++ [x]) !! n = Some x) by (unfold n; by rewrite lookup_app_r, Nat.sub_diag by lia).
  assert (Hlt : forall h, h ∈ ord log R T ++ sids S -> (h < n)%nat) by done.
  assert (exists a b, ord log R T = a ++ b /\ ord log R' T' = a ++ n :: b /\ (forall h, h ∈ b -> kord (hd ++ [x]) n h)) as (a & b & E1 & E2 & Hb).
  { destruct Hnew as [(y & -> & -> & Hy & _)|(f & -> & -> & Hf & _ & Hk)].
    - exists (ord log R T), []. rewrite app_nil_r. split_and!; [done| |by intros h ?%not_elem_of_nil].
      unfold ord. rewrite omap_app. simpl. rewrite Hy. by rewrite !app_assoc.
    - exists (ran log ++ omap fib_h R), (omap ts_h T). unfold ord. rewrite omap_app. simpl. rewrite Hf, <- !app_assoc. split_and!; [done..|].
      intros h (y & Hy & Eh)%list_elem_of_omap Ek Hnt. exfalso. rewrite Forall_forall in Ht. specialize (Ht y Hy).
      assert (kind_of (hd ++ [x]) n = Some (hd_kind x)) as Ekn by (unfold kind_of; by rewrite Hx).
      destruct y; simplify_eq/=; destruct Hk; congruence. }
  assert (Hp : ord log R' T' ++ sids S ≡ₚ n :: ord log R T ++ sids S) by (rewrite E1, E2; solve_Permutation).
  split; try done.
  - rewrite Hp. apply NoDup_cons. split; [|done]. intros Hin%Hlt. lia.
  - intros h. rewrite Hp, length_app. simpl. intros [->|Hin%Hlt]%elem_of_cons; unfold n in *; lia.
  - intros h y Hy Hc. rewrite Hp. destruct (decide (h = n)) as [->|Hne]; [by left|right]. apply (H3 h y); [|done].
    apply lookup_snoc_Some in Hy as [[? ?]|[-> _]]; done.
  - rewrite E2. rewrite E1 in Hs. apply StronglySorted_app in Hs as (S1 & S2 & S3). apply StronglySorted_app_2; [|done|constructor; [done|by apply Forall_forall]].
    intros h1 h2 Hh1 [->|Hh2]%elem_of_cons; [|by apply S1]. intros _ _. apply Hlt. rewrite E1. apply elem_of_app. left. apply elem_of_app. by left.
  - destruct Hnew as [(y & -> & -> & _)|(f & -> & -> & _ & Hf & _)]; [done|]. apply Forall_app. split; [done|by apply Forall_singleton].
  - destruct Hnew as [(y & -> & -> & _ & Hy)|(f & -> & -> & _)]; [|done]. apply Forall_app. split; [done|by apply Forall_singleton].
Qed.

(** The invariant of a loop that has still to process [pend]. *)
Definition J (pend : list tsitem) (s : loop) : Prop :=
  jv (hs_hd (lh s)) (hs_log (lh s)) (q_ready (lq s)) (q_sleep (lq s)) (pend ++ q_ts (lq s)) (c_now (lc s)).

Lemma kind_new hd x : kind_of (hd ++ [x]) (length hd) = Some (hd_kind x).
Proof. unfold kind_of. by rewrite lookup_app_r, Nat.sub_diag by lia. Qed.

Lemma J_threadsafe pend c s : J pend s -> J pend (call_soon_threadsafe c s).1.
Proof.
  intros Hj. unfold call_soon_threadsafe. destruct (c_closed (lc s)); [done|]. simpl. unfold J. simpl.
  eapply (jv_new _ (Handle c 0 KTs false)); [exact Hj|]. left. eexists. rewrite app_assoc. split_and!; [done..|]. apply kind_new.
Qed.

Lemma J_soon pend t c s : J pend s -> J pend (call_soon t c s).1.
Proof.
  intros Hj. unfold call_soon. destruct (c_closed (lc s)); [done|]. destruct (can_spawn_here t s).
  - unfold J. simpl. eapply (jv_new _ (Handle c 0 KLocal false)); [exact Hj|]. right. eexists. split_and!; [done..| |by left]. left. apply kind_new.
  - destruct (c_thread (lc s)); [by apply J_threadsafe|]. unfold J. simpl.
    eapply (jv_new _ (Handle c 0 KDefer false)); [exact Hj|]. left. eexists. rewrite app_assoc. split_and!; [done..|]. apply kind_new.
Qed.

Lemma J_at pend t w c s : J pend s -> J pend (call_at t w c s).1.
Proof.
  intros Hj. unfold call_at. destruct (c_closed (lc s)); [done|]. simpl. destruct (can_spawn_here t s); unfold J; simpl;
    (eapply (jv_new _ (Handle c w KTimer false)); [exact Hj|]).
  - right. eexists. split_and!; [done..| |by right]. apply kind_new.
  - left. eexists. rewrite app_assoc. split_and!; [done..|]. apply kind_new.
Qed.

Lemma J_acts pend acts s : J pend s -> J pend (foldl run_act s acts).
Proof.
  revert s. induction acts as [|a acts IH]; intros s Hj; simpl; [done|]. apply IH. destruct a as [c|c|w c|h|]; simpl.
  - by apply J_soon.
  - by apply J_threadsafe.
  - by apply J_at.
  - by apply jv_cancel.
  - done.
Qed.

(** Running a callback once its handle has moved to the log. *)
Lemma J_run pend h s : 
  jv (hs_hd (lh s)) (hs_log (lh s) ++ [(h, c_now (lc s), None)]) (q_ready (lq s)) (q_sleep (lq s)) (pend ++ q_ts (lq s)) (c_now (lc s)) ->
  is_Some (hs_hd (lh s) !! h) -> J pend (pg_run_loop_cb h s).
Proof.
  intros Hj [x Hx]. unfold pg_run_loop_cb. rewrite Hx. destruct (hd_cb x) as [acts r].
  set (s2 := Loop _ _ _). assert (H2 : J pend s2) by exact Hj. pose proof (J_acts pend acts s2 H2) as H3.
  destruct (c_cur (lc s)); destruct r; exact H3.
Qed.

Lemma cancelled_true h s : cancelled h s = true -> forall x, hs_hd (lh s) !! h = Some x -> hd_cancelled x = true.
Proof. unfold cancelled. intros H x Hx. by rewrite Hx in H. Qed.

Lemma cancelled_false h s : cancelled h s = false -> is_Some (hs_hd (lh s) !! h).
Proof. unfold cancelled. destruct (hs_hd (lh s) !! h); [by eauto|done]. Qed.

Lemma J_drain_item x pend s : J (x :: pend) s -> J pend (drain_item s x).
Proof.
  intros Hj. destruct x as [h|h|n|h]; simpl; [|by eapply jv_spawn_ts..]. unfold run_handle. destruct (cancelled h s) eqn:Ec.
  - eapply jv_drop_ts; [exact Hj|by apply cancelled_true].
  - apply J_run; [by apply jv_log_ts|by apply cancelled_false].
Qed.

Lemma J_drain s : J [] s -> J [] (drain_ts_queue s).
Proof.
  intros Hj. unfold drain_ts_queue. set (s0 := set_q _ s).
  assert (H0 : J (q_ts (lq s)) s0) by (unfold J, s0; simpl; by rewrite app_nil_r).
  clear Hj. revert H0. generalize s0. clear s0. induction (q_ts (lq s)) as [|x l IH]; intros s0 Hj; simpl; [done|].
  apply IH. by apply J_drain_item.
Qed.

Lemma J_fiber f s R : q_ready (lq s) = f :: R -> J [] s -> J [] (run_fib f (set_q (Queues (q_ts (lq s)) R (q_sleep (lq s))) s)).
Proof.
  intros ER Hj. unfold J in Hj. rewrite ER in Hj. simpl in Hj.
  set (s1 := set_q _ s). pose proof (jv_drop_ready _ _ _ _ _ _ _ Hj) as Hdrop.
  assert (Hrun : forall h, f = FSoon h \/ f = FTimerDue h -> J [] (run_handle h s1)).
  { intros h Hf. unfold run_handle. destruct (cancelled h s1) eqn:Ec.
    - apply Hdrop. intros h' x Eh Hx. assert (h' = h) as -> by (destruct Hf as [-> | ->]; simpl in Eh; congruence). by eapply cancelled_true.
    - apply J_run; [by eapply jv_log_ready|by apply cancelled_false]. }
  destruct f as [h|h|h|b|n]; simpl.
  - apply Hrun. by left.
  - destruct (cancelled h s1) eqn:Ec.
    + apply Hdrop. intros h' x [= <-] Hx. by eapply cancelled_true.
    + apply cancelled_false in Ec as [x Hx]. simpl in Hx. rewrite Hx. unfold J. simpl. apply jv_sleep; [exact Hj|].
      pose proof (j_fibs _ _ _ _ _ _ Hj) as [Hk _]%Forall_cons. simpl in Hk. exists x. split; [done|]. split; [|lia].
      unfold kind_of in Hk. rewrite Hx in Hk. simpl in Hk. congruence.
  - apply Hrun. by right.
  - assert (H1 : J [] s1) by (apply Hdrop; by intros h x [=]). apply J_drain in H1.
    destruct (negb _ && negb _ && negb _); [by apply jv_keep_sleep|]. by destruct (c_stopping _).
  - apply Hdrop. by intros h x [=].
Qed.

(** ** Runs of the loop *)

Definition tick (d : Z) (s : loop) : loop :=
  let c := lc s in
  set_c (Ctrl (c_closed c) (c_thread c) (c_driver c) (c_stopping c) (c_fatal c) (c_box c) (c_stopped c) (c_nbox c) (c_halt c) (c_cur c)
    (c_now c + d)) s.

(** What any thread may do between fiber steps, the turns of the fibers, the run's start and end, the
    passing of time; a task that parks in mid-step leaves itself as the current task. *)
Inductive lstep : loop -> loop -> Prop :=
  | ls_soon t c s : lstep s (call_soon t c s).1
  | ls_threadsafe c s : lstep s (call_soon_threadsafe c s).1
  | ls_at t w c s : lstep s (call_at t w c s).1
  | ls_task t n s : lstep s (create_task t n s).1
  | ls_cancel h s : lstep s (cancel h s)
  | ls_stop s : lstep s (stop s)
  | ls_run t s : lstep s (run_forever t s).1
  | ls_ready s s' : step_ready s = Some s' -> lstep s s'
  | ls_wake i s s' : step_wake i s = Some s' -> lstep s s'
  | ls_exit s s' o : drive_exit s = Some (s', o) -> lstep s s'
  | ls_tick d s : 0 <= d -> lstep s (tick d s)
  | ls_current x s : lstep s (set_cur x s).

Definition lreach : loop -> Prop := rtc lstep loop_init.

Lemma jv_task hd log R S T now n : jv hd log R S T now -> jv hd log R S (T ++ [TsTask n]) now.
Proof.
  intros Hj. pose proof Hj as [_ _ _ Hs ? ? ? ?].
  assert (Eo : ord log R (T ++ [TsTask n]) = ord log R T) by (unfold ord; rewrite omap_app; simpl; by rewrite app_nil_r).
  apply (jv_move hd log R S T now); try done; [by rewrite Eo|by rewrite Eo|]. apply Forall_app. split; [done|by apply Forall_singleton].
Qed.

Lemma J_init : J [] loop_init.
Proof. split; try (by constructor); [by intros h ?%not_elem_of_nil|done]. Qed.

Lemma J_lstep s s' : lstep s s' -> J [] s -> J [] s'.
Proof.
  intros Hst Hj. destruct Hst as [t c s|c s|t w c s|t n s|h s|s|t s|s s' E|i s s' E|s s' o E|d s Hd|x s].
  - by apply J_soon.
  - by apply J_threadsafe.
  - by apply J_at.
  - unfold create_task. destruct (c_closed (lc s)); [done|]. destruct (can_spawn_here t s); [by apply jv_fiber|by apply jv_task].
  - by apply jv_cancel.
  - exact Hj.
  - unfold run_forever. destruct (c_closed (lc s)); [done|]. destruct (c_thread (lc s)); [done|]. by apply jv_fiber.
  - unfold step_ready in E. destruct (c_thread (lc s)), (c_halt (lc s)), (q_ready (lq s)) as [|f R] eqn:ER; simplify_eq. by apply J_fiber.
  - unfold step_wake in E. destruct (q_sleep (lq s) !! i) as [[u f]|] eqn:Ei; [|done]. destruct (Z.leb_spec u (c_now (lc s))); simplify_eq.
    by eapply jv_wake.
  - unfold drive_exit in E. destruct (c_thread (lc s)); [|done]. destruct (c_halt (lc s) || _); by simplify_eq.
  - eapply jv_now; [exact Hj|]. simpl. lia.
  - exact Hj.
Qed.

Lemma lreach_J s : lreach s -> J [] s.
Proof.
  intros H. unfold lreach in H. remember loop_init as s0 eqn:E0. assert (J [] s0) as H0 by (subst; apply J_init). clear E0.
  induction H as [s|s1 s2 s3 Hs _ IH]; [done|]. apply IH. by eapply J_lstep.
Qed.



(** Callbacks run in the order in which they were scheduled: of two callbacks that have run, both
    scheduled by [call_soon] on the loop's thread, both deferred before the run, or both scheduled by
    [call_soon_threadsafe], the one scheduled first ran first; and the ones still queued come after
    all that ran. *)
Theorem aio_fifo s i j h1 h2 k : lreach s ->
  (ran (hs_log (lh s)) ++ omap fib_h (q_ready (lq s)) ++ omap ts_h (q_ts (lq s))) !! i = Some h1 ->
  (ran (hs_log (lh s)) ++ omap fib_h (q_ready (lq s)) ++ omap ts_h (q_ts (lq s))) !! j = Some h2 ->
  kind_of (hs_hd (lh s)) h1 = Some k -> kind_of (hs_hd (lh s)) h2 = Some k -> k ≠ KTimer -> (i < j)%nat -> (h1 < h2)%nat.
Proof.
  intros [_ _ _ Hs _ _ _ _]%lreach_J Hi Hj E1 E2 Hk Hij. unfold ord in Hs. simpl in Hs.
  assert (kord (hs_hd (lh s)) h1 h2) as Hlt; [|apply Hlt; congruence].
  rewrite <- (take_drop (S i) (_ ++ _)) in Hs. apply StronglySorted_app in Hs as (Hs & _ & _). apply Hs.
  - rewrite list_elem_of_lookup. exists i. rewrite lookup_take_lt by lia. done.
  - rewrite list_elem_of_lookup. exists (j - S i)%nat. rewrite lookup_drop. by replace (S i + (j - S i))%nat with j by lia.
Qed.

(** Every callback runs with no current task, also when a parked task left itself as the current
    one; and a timer's callback never runs before the time given to [call_at]. *)
Theorem aio_at_loop_level s h t cur : lreach s -> (h, t, cur) ∈ hs_log (lh s) ->
  cur = None /\ exists x, hs_hd (lh s) !! h = Some x /\ (hd_kind x = KTimer -> hd_when x <= t).
Proof.
  intros [_ _ _ _ _ _ _ Hl]%lreach_J Hin. rewrite Forall_forall in Hl. by destruct (Hl _ Hin) as (_ & ? & ?).
Qed.

(** ** The keepalive and the end of a run *)

(** What callbacks and the drain may change. *)
Record grows (s s' : loop) : Prop := {
  g_ready f : f ∈ q_ready (lq s) -> f ∈ q_ready (lq s');
  g_sleep : q_sleep (lq s') = q_sleep (lq s);
  g_now : c_now (lc s') = c_now (lc s);
  g_closed : c_closed (lc s') = c_closed (lc s);
  g_thread : c_thread (lc s') = c_thread (lc s);
  g_box : c_box (lc s') = c_box (lc s);
  g_nbox : c_nbox (lc s') = c_nbox (lc s);
  g_stopping : c_stopping (lc s) = true -> c_stopping (lc s') = true;
  g_stopped b : b ∈ c_stopped (lc s') -> b ∈ c_stopped (lc s) \/ c_box (lc s) = Some b;
  g_halt : c_halt (lc s') = true \/
    c_halt (lc s') = c_halt (lc s) /\ c_stopped (lc s') = c_stopped (lc s) /\ c_fatal (lc s') = c_fatal (lc s)
}.

#[export] Instance grows_preorder : PreOrder grows.
Proof.
  split.
  - intros s. split; auto.
  - intros s1 s2 s3 [] []. split; auto; try congruence.
    + intros b Hb. destruct (g_stopped1 b Hb) as [?|?]; [auto|right; congruence].
    + destruct g_halt1 as [?|(-> & -> & ->)]; auto.
Qed.

Ltac grow := split; simpl; auto; try (intros; apply elem_of_app; by left).

Lemma grows_threadsafe c s : grows s (call_soon_threadsafe c s).1.
Proof. unfold call_soon_threadsafe. destruct (c_closed (lc s)) eqn:E; grow. Qed.

Lemma grows_act s a : grows s (run_act s a).
Proof.
  destruct a as [c|c|w c|h|]; simpl.
  - unfold call_soon. destruct (c_closed (lc s)) eqn:E; [grow|]. destruct (can_spawn_here _ s); [grow|].
    destruct (c_thread (lc s)) eqn:Et; [apply grows_threadsafe|grow].
  - apply grows_threadsafe.
  - unfold call_at. destruct (c_closed (lc s)) eqn:E; [grow|]. destruct (can_spawn_here _ s); grow.
  - grow.
  - grow.
Qed.

Lemma grows_acts acts s : grows s (foldl run_act s acts).
Proof. revert s. induction acts as [|a acts IH]; intros s; simpl; [done|]. etrans; [apply grows_act|apply IH]. Qed.

Lemma grows_cur x s : grows s (set_cur x s).
Proof. grow. Qed.

Lemma grows_fatal e s : grows s (pg_signal_fatal e s).
Proof. grow. intros b Hb. destruct (c_box (lc s)); set_solver. Qed.

Lemma grows_run h s : grows s (run_handle h s).
Proof.
  unfold run_handle. destruct (cancelled h s); [done|]. unfold pg_run_loop_cb. destruct (hs_hd (lh s) !! h) as [x|]; [|done].
  destruct (hd_cb x) as [acts r]. set (s2 := Loop _ _ _). assert (H2 : grows s s2) by (grow).
  assert (H3 : grows s (match c_cur (lc s) with Some _ => set_cur (c_cur (lc s)) (foldl run_act s2 acts) | None => foldl run_act s2 acts end)).
  { etrans; [exact H2|]. destruct (c_cur (lc s)); [etrans; [|apply grows_cur]|]; apply grows_acts. }
  destruct r as [| |e]; [exact H3| |]; (etrans; [exact H3|]); [grow|apply grows_fatal].
Qed.

Lemma grows_drain s : grows s (drain_ts_queue s).
Proof.
  unfold drain_ts_queue. set (s0 := set_q _ s). assert (H0 : grows s s0) by grow. etrans; [exact H0|]. clear H0. generalize s0. clear s0.
  induction (q_ts (lq s)) as [|x l IH]; intros s0; simpl; [done|]. etrans; [|apply IH]. destruct x; simpl; [apply grows_run|grow..].
Qed.

(** The keepalive of the current run is ready, or due within its two milliseconds. *)
Definition keep_live (s : loop) : Prop :=
  exists b, c_box (lc s) = Some b /\ b ∉ c_stopped (lc s) /\
    (FKeep b ∈ q_ready (lq s) \/ exists u, (u, FKeep b) ∈ q_sleep (lq s) /\ u <= c_now (lc s) + 2000).

Record kinv (s : loop) : Prop := {
  k_closed : c_closed (lc s) = false;
  k_fatal e : c_fatal (lc s) = Some e -> c_halt (lc s) = true /\ c_thread (lc s) ≠ None;
  k_box b : c_box (lc s) = Some b -> (b < c_nbox (lc s))%nat;
  k_boxes b : b ∈ c_stopped (lc s) -> (b < c_nbox (lc s))%nat;
  k_live : c_thread (lc s) ≠ None -> c_halt (lc s) = true \/ keep_live s
}.

Lemma keep_live_grows s s' : grows s s' -> keep_live s -> c_halt (lc s') = true \/ keep_live s'.
Proof.
  intros [] (b & Hb & Hn & Hl). destruct g_halt0 as [?|(_ & E & _)]; [by left|right]. exists b. rewrite g_box0, E, g_sleep0, g_now0.
  split_and!; [done..|]. destruct Hl; auto.
Qed.

Lemma kinv_boxes s s' : grows s s' -> kinv s ->
  c_closed (lc s') = false /\ (forall b, c_box (lc s') = Some b -> (b < c_nbox (lc s'))%nat) /\
  (forall b, b ∈ c_stopped (lc s') -> (b < c_nbox (lc s'))%nat).
Proof.
  intros [] []. rewrite g_closed0, g_box0, g_nbox0. split_and!; [done..|]. intros b Hb. destruct (g_stopped0 b Hb); auto.
Qed.

(** [grows] keeps all but the keepalive's place. *)
Lemma kinv_grows s s' : grows s s' -> kinv s ->
  c_thread (lc s) ≠ None \/ c_fatal (lc s') = c_fatal (lc s) /\ c_halt (lc s') = c_halt (lc s) ->
  (c_thread (lc s) ≠ None -> c_halt (lc s') = true \/ keep_live s') -> kinv s'.
Proof.
  intros Hg Hk Ht Hl. destruct (kinv_boxes s s' Hg Hk) as (? & ? & ?). split; [done| |done|done|by rewrite (g_thread _ _ Hg)].
  intros e He. rewrite (g_thread _ _ Hg). destruct (g_halt _ _ Hg) as [E|(-> & _ & E)]; [|rewrite E in He; by eapply k_fatal].
  destruct Ht as [?|[E' _]]; [done|]. split; [done|]. rewrite E' in He. by eapply k_fatal.
Qed.

(** A call from outside a fiber's turn. *)
Lemma kinv_call s s' : grows s s' -> c_fatal (lc s') = c_fatal (lc s) -> c_halt (lc s') = c_halt (lc s) -> kinv s -> kinv s'.
Proof.
  intros Hg Ef Eh Hk. eapply kinv_grows; [done..|by right|]. intros Ht. destruct (k_live s Hk Ht) as [?|Hl]; [left; congruence|].
  by eapply keep_live_grows.
Qed.

Lemma grows_soon t c s : grows s (call_soon t c s).1 /\ lc (call_soon t c s).1 = lc s.
Proof.
  unfold call_soon, call_soon_threadsafe. destruct (c_closed (lc s)) eqn:E; [done|].
  destruct (can_spawn_here t s); [split; [grow|done]|]. destruct (c_thread (lc s)) eqn:Et; (split; [grow|done]).
Qed.

Lemma grows_at t w c s : grows s (call_at t w c s).1 /\ lc (call_at t w c s).1 = lc s.
Proof. unfold call_at. destruct (c_closed (lc s)) eqn:E; [done|]. destruct (can_spawn_here t s); (split; [grow|done]). Qed.

Lemma grows_task t n s : grows s (create_task t n s).1 /\ lc (create_task t n s).1 = lc s.
Proof. unfold create_task. destruct (c_closed (lc s)) eqn:E; [done|]. destruct (can_spawn_here t s); (split; [grow|done]). Qed.

(** A turn of a fiber other than the keepalive of the run. *)
Lemma kinv_turn s f R s' : kinv s -> c_thread (lc s) ≠ None -> c_halt (lc s) = false -> q_ready (lq s) = f :: R ->
  (forall b, f = FKeep b -> c_box (lc s) ≠ Some b \/ b ∈ c_stopped (lc s)) ->
  grows (set_q (Queues (q_ts (lq s)) R (q_sleep (lq s))) s) s' -> kinv s'.
Proof.
  intros Hk Ht Hh ER Hf Hg. set (s1 := set_q _ s) in *. destruct (k_live s Hk Ht) as [?|(b & Hb & Hn & Hl)]; [congruence|].
  assert (Hl1 : keep_live s1).
  { exists b. split_and!; [done..|]. destruct Hl as [Hl|Hl]; [left|by right]. rewrite ER in Hl. apply elem_of_cons in Hl as [<-|?]; [|done].
    destruct (Hf b eq_refl); done. }
  eapply (kinv_grows s1); [exact Hg| |by left|intros _; by eapply keep_live_grows].
  destruct Hk. split; auto.
Qed.

(** Going to sleep keeps the invariant. *)
Lemma kinv_sleep s u f : kinv s -> kinv (sleep_until u f s).
Proof.
  intros []. split; auto. intros Ht. destruct (k_live0 Ht) as [?|(b & Hb & Hn & Hl)]; [by left|right]. exists b. split_and!; [done..|].
  destruct Hl as [?|(w & Hw & ?)]; [by left|right]. exists w. split; [|done]. simpl. apply elem_of_app. by left.
Qed.

(** The run's own keepalive takes its turn: it sleeps again, or it stops the run. *)
Lemma kinv_keep s b R : kinv s -> c_thread (lc s) ≠ None -> c_box (lc s) = Some b -> b ∉ c_stopped (lc s) ->
  kinv (run_fib (FKeep b) (set_q (Queues (q_ts (lq s)) R (q_sleep (lq s))) s)).
Proof.
  intros Hk Ht Hb Hn. simpl. rewrite bool_decide_eq_false_2, (k_closed s Hk) by done. simpl.
  set (s0 := set_q _ s).
  pose proof (grows_drain s0) as Hg. set (s2 := drain_ts_queue s0) in *. set (s2' := set_q (Queues [] (q_ready (lq s) ++ q_ready (lq s2)) (q_sleep (lq s2))) s2).
  assert (Hg' : grows s s2') by (destruct Hg; split; simpl in *; auto; intros; apply elem_of_app; by left).
  destruct (kinv_boxes s s2' Hg' Hk) as (? & ? & ?). simpl in *.
  assert (Hth : c_thread (lc s2) ≠ None) by (by rewrite (g_thread _ _ Hg)).
  destruct (c_stopping (lc s)) eqn:Es; simpl.
  - rewrite (g_stopping _ _ Hg Es). split; simpl; auto.
  - split; simpl; [done| |done|done|].
    + intros e He. split; [|done]. destruct (g_halt _ _ Hg) as [?|(-> & _ & E)]; [done|]. rewrite E in He. by apply (k_fatal s Hk e).
    + intros _. destruct (g_halt _ _ Hg) as [?|(_ & Es2 & _)]; [by left|right]. exists b. simpl. rewrite (g_box _ _ Hg), Es2.
      split_and!; [done..|]. right. eexists. split; [apply elem_of_app; right; by left|]. lia.
Qed.

Lemma kinv_fib f R s : kinv s -> c_thread (lc s) ≠ None -> c_halt (lc s) = false -> q_ready (lq s) = f :: R ->
  kinv (run_fib f (set_q (Queues (q_ts (lq s)) R (q_sleep (lq s))) s)).
Proof.
  intros Hk Ht Hh ER. set (s0 := set_q _ s).
  assert (Hturn : forall s', (forall b, f = FKeep b -> c_box (lc s) ≠ Some b \/ b ∈ c_stopped (lc s)) -> grows s0 s' -> kinv s').
  { intros s' Hf. by apply (kinv_turn s f R). }
  destruct f as [h|h|h|b|n].
  - apply Hturn; [done|apply grows_run].
  - simpl. destruct (cancelled h s0); [by apply Hturn|]. by apply kinv_sleep, Hturn.
  - apply Hturn; [done|apply grows_run].
  - destruct (decide (c_box (lc s) = Some b /\ b ∉ c_stopped (lc s))) as [[Hb Hn]|Hno]; [by apply kinv_keep|].
    assert (Hd : kinv (drain_ts_queue s0)).
    { apply Hturn; [|apply grows_drain]. intros b' [= <-]. destruct (decide (b ∈ c_stopped (lc s))); [by right|left]. by intros ?; apply Hno. }
    simpl. destruct (negb _ && negb _ && negb _); [by apply kinv_sleep|]. destruct (c_stopping _); [|done].
    pose proof (g_thread _ _ (grows_drain s0)) as E. destruct Hd. split; simpl in *; auto. intros e He. split; [done|congruence].
  - by apply Hturn.
Qed.

Lemma kinv_lstep s s' : lstep s s' -> kinv s -> kinv s'.
Proof.
  intros Hst Hk. destruct Hst as [t c s|c s|t w c s|t n s|h s|s|t s|s s' E|i s s' E|s s' o E|d s Hd|x s].
  - destruct (grows_soon t c s) as [Hg E]. by apply (kinv_call s); [|rewrite E..|].
  - apply (kinv_call s); [apply grows_threadsafe| | |done]; unfold call_soon_threadsafe; by destruct (c_closed (lc s)).
  - destruct (grows_at t w c s) as [Hg E]. by apply (kinv_call s); [|rewrite E..|].
  - destruct (grows_task t n s) as [Hg E]. by apply (kinv_call s); [|rewrite E..|].
  - apply (kinv_call s); [grow|done..].
  - apply (kinv_call s); [grow|done..].
  - unfold run_forever. rewrite (k_closed s Hk). destruct (c_thread (lc s)) eqn:Et; [done|]. simpl. destruct Hk. split; simpl; auto.
    + intros e He. by destruct (k_fatal0 e He).
    + intros b [= <-]. lia.
    + intros b Hb. specialize (k_boxes0 b Hb). lia.
    + intros _. right. exists (c_nbox (lc s)). simpl. split_and!; [done| |left; apply elem_of_app; right; by left].
      intros Hin%k_boxes0. lia.
  - unfold step_ready in E. destruct (c_thread (lc s)) eqn:Et, (c_halt (lc s)) eqn:Eh, (q_ready (lq s)) as [|f R] eqn:ER; simplify_eq.
    apply kinv_fib; auto. by rewrite Et.
  - unfold step_wake in E. destruct (q_sleep (lq s) !! i) as [[u f]|] eqn:Ei; [|done]. destruct (Z.leb_spec u (c_now (lc s))); simplify_eq.
    destruct Hk. split; auto. intros Ht. destruct (k_live0 Ht) as [?|(b & Hb & Hn & Hl)]; [by left|right]. exists b. split_and!; [done..|]. simpl.
    destruct Hl as [?|(w & Hw & ?)]; [left; apply elem_of_app; by left|]. rewrite (delete_Permutation _ _ _ Ei) in Hw.
    apply elem_of_cons in Hw as [[= <- <-]|?]; [left; apply elem_of_app; right; by left|right; eauto].
  - unfold drive_exit in E. destruct (c_thread (lc s)) eqn:Et; [|done]. destruct (c_halt (lc s) || _); simplify_eq. destruct Hk. split; simpl; auto; try done.
    intros b Hb. destruct (c_box (lc s)) as [b'|] eqn:Eb; [|auto]. apply elem_of_union in Hb as [->%elem_of_singleton|?]; auto.
  - destruct Hk. split; auto. intros Ht. destruct (k_live0 Ht) as [?|(b & Hb & Hn & Hl)]; [by left|right]. exists b. split_and!; [done..|]. simpl.
    destruct Hl as [?|(w & Hw & ?)]; [by left|right]. exists w. split; [done|]. lia.
  - apply (kinv_call s); [apply grows_cur|done..].
Qed.

Lemma lreach_kinv s : lreach s -> kinv s.
Proof.
  intros H. unfold lreach in H. remember loop_init as s0 eqn:E0. assert (kinv s0) as H0 by (subst; split; simpl; by set_solver). clear E0.
  induction H as [s|s1 s2 s3 Hs _ IH]; [done|]. apply IH. by eapply kinv_lstep.
Qed.

(** A running loop always drains its thread-safe queue again: until the run is told to end, the
    keepalive of this run - not one left over from an earlier run - is ready or due within two
    milliseconds; and no fiber or foreign call can make the drive return early. *)
Theorem aio_keepalive s t : lreach s -> c_thread (lc s) = Some t -> c_halt (lc s) = false -> keep_live s /\ drive_exit s = None.
Proof.
  intros Hk%lreach_kinv Ht Hh. assert (keep_live s) as Hl. { destruct (k_live s Hk) as [?|?]; congruence. } split; [done|].
  unfold drive_exit. rewrite Ht, Hh. simpl. rewrite bool_decide_eq_false_2; [done|]. intros [E1 E2].
  destruct Hl as (b & _ & _ & Hl). rewrite E1, E2 in Hl. destruct Hl as [?%not_elem_of_nil|(u & ?%not_elem_of_nil & _)]; done.
Qed.

(** ** Fatal exceptions *)

Definition cb_of (s : loop) (h : nat) : option cb := hd_cb <$> hs_hd (lh s) !! h.

(** The [KeyboardInterrupt]s and [SystemExit]s raised by the callbacks of a log, in the order they ran. *)
Definition fatals (s : loop) (log : runlog) : list nat :=
  omap (λ x, match cb_of s x.1.1 with Some (Cb _ (CbFatal e)) => Some e | _ => None end) log.

(** More callbacks have run, and the fatal exception on record is the first one. *)
Definition fat (s s' : loop) : Prop :=
  (forall h c, cb_of s h = Some c -> cb_of s' h = Some c) /\
  exists l, hs_log (lh s') = hs_log (lh s) ++ l /\ (forall x, x ∈ l -> is_Some (cb_of s' x.1.1)) /\
    c_fatal (lc s') = match c_fatal (lc s) with Some e => Some e | None => head (fatals s' l) end.

Lemma fatals_cons s x l : fatals s (x :: l) =
  match cb_of s x.1.1 with Some (Cb _ (CbFatal e)) => e :: fatals s l | _ => fatals s l end.
Proof. unfold fatals. simpl. by destruct (cb_of s x.1.1) as [[? []]|]. Qed.

Lemma fatals_stable s s' l : (forall h c, cb_of s h = Some c -> cb_of s' h = Some c) -> (forall x, x ∈ l -> is_Some (cb_of s x.1.1)) ->
  fatals s' l = fatals s l.
Proof.
  intros Hc Hl. induction l as [|x l IH]; [done|]. rewrite !fatals_cons. destruct (Hl x) as [c Ex]; [by left|]. rewrite Ex, (Hc _ _ Ex), IH; [done|].
  intros y Hy. apply Hl. by right.
Qed.

#[export] Instance fat_preorder : PreOrder fat.
Proof.
  split.
  - intros s. split; [done|]. exists []. rewrite app_nil_r. split_and!; [done|by intros x ?%elem_of_nil|by destruct (c_fatal (lc s))].
  - intros s1 s2 s3 [C1 (l1 & E1 & I1 & F1)] [C2 (l2 & E2 & I2 & F2)]. split; [eauto|]. exists (l1 ++ l2). split_and!.
    + by rewrite E2, E1, app_assoc.
    + intros x [Hx|?]%elem_of_app; [|auto]. destruct (I1 x Hx) as [c Hc]. exists c. eauto.
    + rewrite F2, F1. destruct (c_fatal (lc s1)); [done|]. unfold fatals at 3. rewrite omap_app. fold (fatals s3 l1) (fatals s3 l2).
      rewrite (fatals_stable s2 s3 l1) by done. by destruct (fatals s2 l1).
Qed.

(** Calls that run no callback: old handles keep their callback. *)
Lemma fat_quiet s s' : (forall h c, cb_of s h = Some c -> cb_of s' h = Some c) -> hs_log (lh s') = hs_log (lh s) ->
  c_fatal (lc s') = c_fatal (lc s) -> fat s s'.
Proof.
  intros H1 H2 H3. split; [done|]. exists []. rewrite app_nil_r, H3. split_and!; [done|by intros x ?%elem_of_nil|by destruct (c_fatal (lc s))].
Qed.

Lemma fat_same s s' : lh s' = lh s -> c_fatal (lc s') = c_fatal (lc s) -> fat s s'.
Proof. intros E1 E2. apply fat_quiet; [unfold cb_of; by rewrite E1|by rewrite E1|done]. Qed.

Lemma fat_new c w k s s' : lh s' = lh (new_handle c w k s).1 -> lc s' = lc s -> fat s s'.
Proof.
  intros E1 E2. apply fat_quiet; [|by rewrite E1|by rewrite E2]. intros h c'. unfold cb_of. rewrite E1. simpl.
  intros (x & Hx & ->)%fmap_Some. by rewrite (lookup_app_l_Some _ _ _ _ Hx).
Qed.

Lemma fat_cancel h s : fat s (cancel h s).
Proof.
  apply fat_quiet; [|done..]. intros h' c. unfold cb_of. simpl. intros (x & Hx & ->)%fmap_Some.
  rewrite list_lookup_alter. case_decide; [subst|]; rewrite Hx; done.
Qed.

Lemma fat_threadsafe c s : fat s (call_soon_threadsafe c s).1.
Proof. unfold call_soon_threadsafe. destruct (c_closed (lc s)); [done|]. by eapply fat_new. Qed.

Lemma fat_soon t c s : fat s (call_soon t c s).1.
Proof.
  unfold call_soon. destruct (c_closed (lc s)); [done|]. destruct (can_spawn_here t s); [by eapply fat_new|].
  destruct (c_thread (lc s)); [apply fat_threadsafe|by eapply fat_new].
Qed.

Lemma fat_at t w c s : fat s (call_at t w c s).1.
Proof. unfold call_at. destruct (c_closed (lc s)); [done|]. destruct (can_spawn_here t s); by eapply fat_new. Qed.

Lemma fat_acts acts s : fat s (foldl run_act s acts).
Proof.
  revert s. induction acts as [|a acts IH]; intros s; simpl; [done|]. etrans; [|apply IH].
  destruct a; simpl; [apply fat_soon|apply fat_threadsafe|apply fat_at|apply fat_cancel|by apply fat_same].
Qed.

(** The operations of a callback run no other callback. *)
Lemma acts_no_run acts s : hs_log (lh (foldl run_act s acts)) = hs_log (lh s) /\ c_fatal (lc (foldl run_act s acts)) = c_fatal (lc s).
Proof.
  revert s. induction acts as [|a acts IH]; intros s; simpl; [done|]. destruct (IH (run_act s a)) as [-> ->].
  destruct a; simpl; [unfold call_soon, call_soon_threadsafe|unfold call_soon_threadsafe|unfold call_at|done|done];
    (destruct (c_closed (lc s)); [done|]); try (destruct (can_spawn_here _ s)); try done; by destruct (c_thread (lc s)).
Qed.

Lemma fat_run h s : fat s (run_handle h s).
Proof.
  unfold run_handle. destruct (cancelled h s); [done|]. unfold pg_run_loop_cb. destruct (hs_hd (lh s) !! h) as [x|] eqn:Ex; [|done].
  destruct (hd_cb x) as [acts r] eqn:Ec. set (s2 := Loop _ _ _). set (s4 := match c_cur (lc s) with Some _ => _ | None => _ end).
  destruct (acts_no_run acts s2) as [El Ef]. pose proof (fat_acts acts s2) as [Hc _].
  assert (H4 : lh s4 = lh (foldl run_act s2 acts) /\ c_fatal (lc s4) = c_fatal (lc s)) by (unfold s4; by destruct (c_cur (lc s))).
  destruct H4 as [H4 H5].
  assert (Hcb : forall s', hs_hd (lh s') = hs_hd (lh s4) -> forall h c, cb_of s h = Some c -> cb_of s' h = Some c).
  { intros s' E h' c' Hx. unfold cb_of. rewrite E, H4. by apply Hc. }
  assert (Hh : cb_of s h = Some (Cb acts r)) by (unfold cb_of; rewrite Ex; simpl; by rewrite Ec).
  assert (Hgo : forall s', hs_hd (lh s') = hs_hd (lh s4) -> hs_log (lh s') = hs_log (lh s4) ->
    c_fatal (lc s') = match c_fatal (lc s) with Some e => Some e | None => match r with CbFatal e => Some e | _ => None end end -> fat s s').
  { intros s' E1 E2 E3. split; [by apply Hcb|]. exists [(h, c_now (lc s), None)]. pose proof (Hcb s' E1 _ _ Hh) as Hh'. split_and!.
    - by rewrite E2, H4, El.
    - intros y ->%list_elem_of_singleton. by eauto.
    - rewrite E3, fatals_cons. simpl. rewrite Hh'. by destruct r. }
  destruct r as [| |e]; apply Hgo; try done; simpl; rewrite H5; by destruct (c_fatal (lc s)).
Qed.

Lemma fat_drain s : fat s (drain_ts_queue s).
Proof.
  unfold drain_ts_queue. set (s0 := set_q _ s). etrans; [by apply (fat_same s s0)|]. generalize s0. clear s0.
  induction (q_ts (lq s)) as [|x l IH]; intros s0; simpl; [done|]. etrans; [|apply IH]. destruct x; simpl; [apply fat_run|by apply fat_same..].
Qed.

Lemma fat_fib f s : fat s (run_fib f s).
Proof.
  destruct f as [h|h|h|b|n]; simpl; [apply fat_run|destruct (cancelled h s); by apply fat_same|apply fat_run| |done].
  pose proof (fat_drain s) as Hd. destruct (negb _ && negb _ && negb _); [etrans; [exact Hd|by apply fat_same]|].
  destruct (c_stopping _); [etrans; [exact Hd|by apply fat_same]|done].
Qed.

(** The steps of one run: all but its end. *)
Definition rstep (s s' : loop) : Prop := lstep s s' /\ forall o, drive_exit s ≠ Some (s', o).

Lemma rstep_fat s s' : kinv s -> c_thread (lc s) ≠ None -> rstep s s' -> fat s s' /\ c_thread (lc s') = c_thread (lc s).
Proof.
  intros Hk Ht [Hst Hno]. destruct Hst as [t c s|c s|t w c s|t n s|h s|s|t s|s s' E|i s s' E|s s' o E|d s Hd|x s].
  - split; [apply fat_soon|]. by destruct (grows_soon t c s) as [_ ->].
  - split; [apply fat_threadsafe|]. by rewrite (g_thread _ _ (grows_threadsafe c s)).
  - split; [apply fat_at|]. by destruct (grows_at t w c s) as [_ ->].
  - destruct (grows_task t n s) as [_ E]. split; [|by rewrite E]. apply fat_same; [|by rewrite E].
    unfold create_task. by destruct (c_closed (lc s)), (can_spawn_here t s).
  - split; [apply fat_cancel|done].
  - split; [by apply fat_same|done].
  - unfold run_forever. rewrite (k_closed s Hk). destruct (c_thread (lc s)) eqn:Et; [|done]. by split; [apply fat_same|].
  - unfold step_ready in E. destruct (c_thread (lc s)) as [d|] eqn:Et, (c_halt (lc s)) eqn:Eh, (q_ready (lq s)) as [|f R] eqn:ER; simplify_eq.
    set (s0 := set_q _ s). split; [etrans; [by apply (fat_same s s0)|apply fat_fib]|].
    assert (c_thread (lc (run_fib f s0)) = c_thread (lc s0)) as ->; [|done]. clear.
    destruct f as [h|h|h|b|n]; simpl; [apply (grows_run h s0)|by destruct (cancelled h _)|apply (grows_run h s0)| |done].
    pose proof (g_thread _ _ (grows_drain s0)) as E. destruct (negb _ && negb _ && negb _); [exact E|]. by destruct (c_stopping _).
  - unfold step_wake in E. destruct (q_sleep (lq s) !! i) as [[u f]|]; [|done]. destruct (u <=? c_now (lc s)); simplify_eq.
    split; [by apply fat_same|done].
  - by destruct (Hno o).
  - split; [by apply fat_same|done].
  - split; [by apply fat_same|done].
Qed.

(** A run has the fatal exceptions of the callbacks that ran in it. *)
Lemma rsteps_fat s s' : lreach s -> c_thread (lc s) ≠ None -> rtc rstep s s' -> lreach s' /\ fat s s' /\ c_thread (lc s') = c_thread (lc s).
Proof.
  intros Hr Ht H. revert Hr Ht. induction H as [s|s1 s2 s3 H12 _ IH]; intros Hr Ht; [done|].
  destruct (rstep_fat s1 s2 (lreach_kinv s1 Hr) Ht H12) as [Hf Et].
  assert (Hr2 : lreach s2) by (eapply rtc_r; [exact Hr|apply H12]).
  destruct (IH Hr2 ltac:(by rewrite Et)) as (? & ? & E). split_and!; [done|by etrans|congruence].
Qed.

(** C18. [KeyboardInterrupt] and [SystemExit] get out of the loop: from the moment a callback of a run
    raised one, no fiber takes a turn, and that run ends by raising the exception of the first callback
    that raised one since the run began, whatever later callbacks of the same drain raised, and leaves
    the loop ready to run again; a run in which no callback raised one does not end by raising. *)
Theorem aio_fatal_raised s0 t s1 s : lreach s0 -> run_forever t s0 = (s1, Ret tt) -> rtc rstep s1 s ->
  let raised := fatals s (drop (length (hs_log (lh s0))) (hs_log (lh s))) in
  (forall e, head raised = Some e -> step_ready s = None /\
     exists s', drive_exit s = Some (s', Exc (UserExc e)) /\ c_fatal (lc s') = None /\ c_thread (lc s') = None /\ c_stopping (lc s') = false /\
       forall t, (run_forever t s').2 = Ret tt) /\
  (raised = [] -> forall s' r, drive_exit s = Some (s', r) -> r = Ret tt).
Proof.
  intros Hr0 Hrun Hs raised. pose proof (lreach_kinv s0 Hr0) as Hk0.
  assert (Hr1 : lreach s1) by (eapply rtc_r; [exact Hr0|]; replace s1 with (run_forever t s0).1 by (by rewrite Hrun); constructor).
  assert (H1 : hs_log (lh s1) = hs_log (lh s0) /\ c_fatal (lc s1) = None /\ c_thread (lc s1) ≠ None).
  { unfold run_forever in Hrun. rewrite (k_closed s0 Hk0) in Hrun. destruct (c_thread (lc s0)) eqn:Et; [done|]. injection Hrun as <-.
    split_and!; simpl; [done| |done]. destruct (c_fatal (lc s0)) as [e|] eqn:Ef; [|done]. by destruct (k_fatal s0 Hk0 e Ef). }
  destruct H1 as (El & Ef & Ht). destruct (rsteps_fat s1 s Hr1 Ht Hs) as (Hr & [_ (l & E & _ & Hf)] & Et).
  rewrite Ef in Hf. unfold raised. rewrite E, El, drop_app_length. pose proof (lreach_kinv s Hr) as Hk.
  destruct (c_thread (lc s)) as [d|] eqn:Ed; [|congruence]. split.
  - intros e He. rewrite He in Hf. destruct (k_fatal s Hk e Hf) as [Hh _]. unfold step_ready, drive_exit.
    rewrite Ed, Hh, Hf. split; [done|]. eexists. split; [done|]. simpl. split_and!; [done..|].
    intros t'. unfold run_forever. simpl. by rewrite (k_closed s Hk).
  - intros En s' r. rewrite En in Hf. unfold drive_exit. rewrite Ed, Hf. destruct (c_halt (lc s) || _); intros; by simplify_eq.
Qed.

(** ** A run *)

(** One turn, when a fiber may take one. *)
Definition turn (s : loop) : loop := default s (step_ready s).
Definition wake (i : nat) (s : loop) : loop := default s (step_wake i s).

Lemma lreach_step s s' : lreach s -> lstep s s' -> lreach s'.
Proof. intros H1 H2. by eapply rtc_r. Qed.

Lemma lreach_turn s : lreach s -> lreach (turn s).
Proof. intros H. unfold turn. destruct (step_ready s) eqn:E; [|done]. eapply lreach_step; [exact H|by constructor]. Qed.

Lemma lreach_wake i s : lreach s -> lreach (wake i s).
Proof. intros H. unfold wake. destruct (step_wake i s) eqn:E; [|done]. by eapply lreach_step; [exact H|eapply ls_wake]. Qed.

(** Thread 7 defers two callbacks (the first schedules a timer); thread 0 runs the loop; during the
    run thread 7 schedules a callback that raises [KeyboardInterrupt]. *)
Definition run_start : loop :=
  (run_forever 0 (call_soon 7 (Cb [] CbExc) (call_soon 7 (Cb [AcAt 5000 (Cb [] CbOk)] CbOk) loop_init).1).1).1.
Definition run_mid : loop := wake 1 (tick 6000 (set_cur (Some 4%nat) (turn (turn (turn (turn run_start)))))).
Definition run_late : loop := turn run_mid.

(** A run of the same loop later, in which one drain runs a callback that raises [KeyboardInterrupt] and
    another that raises [SystemExit]. *)
Definition run_again : loop := (run_forever 0 loop_init).1.
Definition run_fatal : loop :=
  turn (call_soon_threadsafe (Cb [] (CbFatal 8)) (call_soon_threadsafe (Cb [] (CbFatal 9)) run_again).1).1.

Lemma run_start_reach : lreach run_start.
Proof.
  unfold run_start. eapply lreach_step; [|apply ls_run]. eapply lreach_step; [|apply ls_soon]. eapply lreach_step; [|apply ls_soon]. apply rtc_refl.
Qed.

Lemma run_late_reach : lreach run_late.
Proof.
  unfold run_late, run_mid. apply lreach_turn, lreach_wake. eapply lreach_step; [|apply ls_tick; lia]. eapply lreach_step; [|apply ls_current].
  do 4 apply lreach_turn. apply run_start_reach.
Qed.


Lemma aio_fifo_witness : (0 < 1)%nat.
Proof.
  apply (aio_fifo run_late 0 1 0 1 KDefer run_late_reach); [vm_compute; reflexivity..|discriminate|lia].
Defined.

Lemma aio_at_loop_level_witness : (2%nat, 6000, None) ∈ hs_log (lh run_late) /\ c_cur (lc run_late) = Some 4%nat /\
  exists x, hs_hd (lh run_late) !! 2%nat = Some x /\ (hd_kind x = KTimer -> hd_when x <= 6000).
Proof.
  assert (H : (2%nat, 6000, None) ∈ hs_log (lh run_late)) by (apply (list_elem_of_lookup_2 _ 2%nat); vm_compute; reflexivity).
  split; [exact H|]. split; [vm_compute; reflexivity|]. apply (proj2 (aio_at_loop_level run_late 2 6000 None run_late_reach H)).
Defined.

Lemma aio_keepalive_witness : keep_live run_late /\ drive_exit run_late = None.
Proof. apply (aio_keepalive run_late 0 run_late_reach); vm_compute; reflexivity. Defined.

Lemma aio_fatal_raised_witness :
  ran (hs_log (lh run_fatal)) = [0; 1]%nat /\ step_ready run_fatal = None /\
  exists s', drive_exit run_fatal = Some (s', Exc (UserExc 9)) /\ c_fatal (lc s') = None /\ c_thread (lc s') = None /\ c_stopping (lc s') = false /\
    forall t, (run_forever t s').2 = Ret tt.
Proof.
  split; [vm_compute; reflexivity|].
  refine (proj1 (aio_fatal_raised loop_init 0 run_again run_fatal (rtc_refl _ _) eq_refl _) 9%nat _); [|vm_compute; reflexivity].
  unfold run_fatal. eapply rtc_l; [split; [apply (ls_threadsafe (Cb [] (CbFatal 9)))|discriminate]|].
  eapply rtc_l; [split; [apply (ls_threadsafe (Cb [] (CbFatal 8)))|discriminate]|].
  eapply rtc_l; [split; [apply ls_ready; vm_compute; reflexivity|discriminate]|]. apply rtc_refl.
Defined.
