(* ===== verification/Streams.v ===== *)
(** * The asyncio streams

    Models [class StreamReader] and [class StreamWriter] of [src/src/stackweave/aio/streams.py].
    The socket is given by what it does: a source is the list of what successive calls of [recv] and
    [wait_fd] meet, a sink the list of what successive calls of [send] and [wait_fd] meet.  The
    loops take fuel, and [None] is a loop that is still running.  The patch of the standard
    library's own reader at the end of the file is not modelled. *)
From stdpp Require Import sorting.
From S2P Require Import Prelude NetSocket.

(** ** The reader *)

(** What a [recv] meets: bytes (at least one) that are there, an empty queue and then the end of the
    wait (possibly cancelled), an error.  After the last entry the peer has closed. *)
Inductive arrival := Data (b : Z) (d : bytes) | Block (w : option pyexc) | Fail (e : pyexc).

Record reader := Reader { r_src : list arrival; r_buf : bytes; r_eof : bool; r_limit : nat }.

(** How a reader's coroutine ends: [asyncio.IncompleteReadError] and [LimitOverrunError] carry data. *)
Inductive rres (A : Type) :=
  | RRet (x : A) | RIncomplete (partial : bytes) (expected : option nat) | RLimit (msg : string) (consumed : nat) | RExc (e : pyexc).
Arguments RRet {A} _.
Arguments RIncomplete {A} _ _.
Arguments RLimit {A} _ _.
Arguments RExc {A} _.

Definition set_buf (b : bytes) (r : reader) : reader := Reader (r_src r) b (r_eof r) (r_limit r).
Definition r_init (src : list arrival) (limit : nat) : reader := Reader src [] false limit.
Definition at_eof (r : reader) : bool := r_eof r && bool_decide (r_buf r = []).
Definition feed_eof (r : reader) : reader := Reader (r_src r) (r_buf r) true (r_limit r).

(** The loop of [_fill]: the source after it, and the chunk, empty at the end of the stream. *)
Fixpoint recv_wait (limit : nat) (src : list arrival) : list arrival * out bytes :=
  match src with
  | [] => ([], Ret [])
  | Data b d :: src' =>
      (match drop limit (b :: d) with [] => src' | b' :: d' => Data b' d' :: src' end, Ret (take limit (b :: d)))
  | Block None :: src' => recv_wait limit src'
  | Block (Some e) :: src' => (src', Exc e)
  | Fail e :: src' => (src', Exc e)
  end.

(** [_fill()] *)
Definition fill (r : reader) : reader * out bool :=
  if r_eof r then (r, Ret false)
  else
    match recv_wait (r_limit r) (r_src r) with
    | (src, Ret []) => (Reader src (r_buf r) true (r_limit r), Ret false)
    | (src, Ret chunk) => (Reader src (r_buf r ++ chunk) false (r_limit r), Ret true)
    | (src, Exc e) => (Reader src (r_buf r) false (r_limit r), Exc e)
    end.

(** [while cond: self._fill()] *)
Fixpoint fill_while (fuel : nat) (cond : reader -> bool) (r : reader) : option (reader * out unit) :=
  match fuel with
  | O => None
  | S fuel' =>
      if cond r then match fill r with (r', Ret _) => fill_while fuel' cond r' | (r', Exc e) => Some (r', Exc e) end
      else Some (r, Ret tt)
  end.

(** [read(n)] *)
Definition read (fuel : nat) (n : Z) (r : reader) : option (reader * rres bytes) :=
  if (n =? 0)%Z then Some (r, RRet [])
  else if (n <? 0)%Z then
    match fill_while fuel (λ r, negb (r_eof r)) r with
    | Some (r', Ret _) => Some (set_buf [] r', RRet (r_buf r'))
    | Some (r', Exc e) => Some (r', RExc e)
    | None => None
    end
  else
    match fill_while fuel (λ r, bool_decide (r_buf r = []) && negb (r_eof r)) r with
    | Some (r', Ret _) => Some (set_buf (drop (Z.to_nat n) (r_buf r')) r', RRet (take (Z.to_nat n) (r_buf r')))
    | Some (r', Exc e) => Some (r', RExc e)
    | None => None
    end.

(** [readexactly(n)] *)
Fixpoint readexactly (fuel : nat) (n : nat) (r : reader) : option (reader * rres bytes) :=
  match fuel with
  | O => None
  | S fuel' =>
      if bool_decide (length (r_buf r) < n) then
        match fill r with
        | (r', Ret true) => readexactly fuel' n r'
        | (r', Ret false) => Some (set_buf [] r', RIncomplete (r_buf r') (Some n))
        | (r', Exc e) => Some (r', RExc e)
        end
      else Some (set_buf (drop n (r_buf r)) r, RRet (take n (r_buf r)))
  end.

(** [bytearray.find(sep, offset)] for a non-empty [sep]. *)
Fixpoint find_from (sep l : bytes) (i : nat) : option nat :=
  if decide (sep `prefix_of` l) then Some i else match l with [] => None | _ :: l' => find_from sep l' (S i) end.
Definition find (sep buf : bytes) (offset : nat) : option nat := find_from sep (drop offset buf) offset.

(** The scan of one pass: the match that ends first. *)
Definition better (buf : bytes) (offset : nat) (m : option (nat * nat)) (sep : bytes) : option (nat * nat) :=
  match find sep buf offset with
  | None => m
  | Some isep =>
      let e := isep + length sep in
      match m with Some (_, e0) => if bool_decide (e < e0) then Some (isep, e) else m | None => Some (isep, e) end
  end.
Definition scan (seps : list bytes) (buf : bytes) (offset : nat) : option (nat * nat) := foldl (better buf offset) None seps.

(** [sorted(separator, key=len)] *)
Fixpoint insert_by_len (x : bytes) (l : list bytes) : list bytes :=
  match l with [] => [x] | y :: l' => if bool_decide (length x <= length y) then x :: l else y :: insert_by_len x l' end.
Definition sort_by_len : list bytes -> list bytes := foldr insert_by_len [].

Definition not_found : string := "Separator is not found, and chunk exceed the limit".
Definition found_late : string := "Separator is found, but chunk is longer than limit".

(** After the loop of [readuntil]. *)
Definition take_match (m : nat * nat) (r : reader) : reader * rres bytes :=
  if bool_decide (r_limit r < m.1) then (r, RLimit found_late m.1)
  else (set_buf (drop m.2 (r_buf r)) r, RRet (take m.2 (r_buf r))).

(** The loop of [readuntil]. *)
Fixpoint until_loop (fuel : nat) (seps : list bytes) (minl maxl offset : nat) (r : reader) : option (reader * rres bytes) :=
  match fuel with
  | O => None
  | S fuel' =>
      let more offset' :=
        if r_eof r then Some (set_buf [] r, RIncomplete (r_buf r) None)
        else match fill r with
             | (r', Ret _) => until_loop fuel' seps minl maxl offset' r'
             | (r', Exc e) => Some (r', RExc e)
             end in
      let buflen := length (r_buf r) in
      if bool_decide (minl <= buflen - offset) then
        match scan seps (r_buf r) offset with
        | Some m => Some (take_match m r)
        | None =>
            let offset' := buflen + 1 - maxl in
            if bool_decide (r_limit r < offset') then Some (r, RLimit not_found offset') else more offset'
        end
      else more offset
  end.

(** [readuntil(separator)], [seps] the tuple or the one separator. *)
Definition readuntil (fuel : nat) (seps : list bytes) (r : reader) : option (reader * rres bytes) :=
  let separator := sort_by_len seps in
  match head separator, last separator with
  | Some x, Some y =>
      if bool_decide (length x = 0) then Some (r, RExc (ValueError "Separator should be at least one-byte string"))
      else until_loop fuel separator (length x) (length y) 0 r
  | _, _ => Some (r, RExc (ValueError "Separator should contain at least one element"))
  end.

Definition newline : Z := 10%Z.

(** [readline()] *)
Definition readline (fuel : nat) (r : reader) : option (reader * out bytes) :=
  match readuntil fuel [[newline]] r with
  | Some (r', RRet line) => Some (r', Ret line)
  | Some (r', RIncomplete partial _) => Some (r', Ret partial)
  | Some (r', RLimit msg consumed) =>
      Some (if bool_decide ([newline] `prefix_of` drop consumed (r_buf r')) then set_buf (drop (consumed + 1) (r_buf r')) r' else set_buf [] r',
            Exc (ValueError msg))
  | Some (r', RExc e) => Some (r', Exc e)
  | None => None
  end.

(** [async for line in reader]: the lines, up to an exception or the empty line. *)
Fixpoint lines (fuel : nat) (r : reader) : option (reader * list bytes * out unit) :=
  match fuel with
  | O => None
  | S fuel' =>
      match readline fuel r with
      | Some (r', Ret []) => Some (r', [], Ret tt)
      | Some (r', Ret l) => match lines fuel' r' with Some (r2, ls, o) => Some (r2, l :: ls, o) | None => None end
      | Some (r', Exc e) => Some (r', [], Exc e)
      | None => None
      end
  end.

(** ** The stream a reader reads *)

(** What is still to come before the end or the first error, and that error. *)
Fixpoint src_data (src : list arrival) : bytes :=
  match src with Data b d :: s => b :: d ++ src_data s | Block None :: s => src_data s | _ => [] end.
Fixpoint src_end (src : list arrival) : option pyexc :=
  match src with [] => None | Data _ _ :: s => src_end s | Block None :: s => src_end s | Block (Some e) :: _ | Fail e :: _ => Some e end.
Definition src_size (src : list arrival) : nat := sum_list_with (λ a, match a with Data _ d => S (length d) | _ => 1 end) src.

Definition pending (r : reader) : bytes := r_buf r ++ (if r_eof r then [] else src_data (r_src r)).
Definition ending (r : reader) : option pyexc := if r_eof r then None else src_end (r_src r).
Definition rsize (r : reader) : nat := src_size (r_src r) + if r_eof r then 0 else 1.

Lemma recv_wait_spec limit src : 0 < limit ->
  match recv_wait limit src with
  | (src', Ret []) => src' = [] /\ src_data src = [] /\ src_end src = None
  | (src', Ret c) => src_data src = c ++ src_data src' /\ src_end src = src_end src' /\ src_size src' < src_size src
  | (src', Exc e) => src_data src = [] /\ src_end src = Some e
  end.
Proof.
  intros Hl. induction src as [|[b d|[e|]|e] src IH]; simpl; [done| |done| |done].
  - destruct limit as [|l]; [lia|]. simpl. assert (E : d = take l d ++ drop l d) by (by rewrite take_drop). split_and!.
    + rewrite E at 1. rewrite <- app_assoc. by destruct (drop l d).
    + by destruct (drop l d).
    + assert (length (drop l d) <= length d) by (rewrite length_drop; lia). unfold src_size. destruct (drop l d); simpl in *; lia.
  - destruct (recv_wait limit src) as [src' [[|x c]|e]]; [done| |done]. unfold src_size in *. simpl. destruct IH as (? & ? & ?). split_and!; [done..|lia].
Qed.

(** One [_fill] leaves the stream as it is, and brings the reader nearer to its end; only an error,
    which it reports, may hide what comes after it. *)
Lemma fill_spec r : 0 < r_limit r -> r_eof r = false ->
  match fill r with
  | (r', Ret more) => pending r' = pending r /\ ending r' = ending r /\ r_limit r' = r_limit r /\ rsize r' < rsize r /\
      r_eof r' = negb more /\ (if more then length (r_buf r) < length (r_buf r') else r_buf r' = r_buf r) /\ r_buf r `prefix_of` r_buf r'
  | (r', Exc e) => r_buf r' = r_buf r /\ pending r = r_buf r /\ ending r = Some e
  end.
Proof.
  intros Hl He. unfold fill, pending, ending, rsize. rewrite He. pose proof (recv_wait_spec (r_limit r) (r_src r) Hl) as Hs.
  destruct (recv_wait (r_limit r) (r_src r)) as [src' [[|x c]|e]]; simpl.
  - destruct Hs as (-> & -> & ->). split_and!; try done. simpl. lia.
  - destruct Hs as (-> & -> & Hsz). split_and!; try done; [by rewrite <- app_assoc|lia|rewrite length_app; simpl; lia|by exists (x :: c)].
  - destruct Hs as [-> ->]. by rewrite app_nil_r.
Qed.

(** *** Searching *)

Definition occurs (sep buf : bytes) (i : nat) : Prop := sep `prefix_of` drop i buf.

Lemma find_from_spec sep l i : sep ≠ [] ->
  match find_from sep l i with
  | Some j => exists k, j = i + k /\ sep `prefix_of` drop k l /\ forall k', k' < k -> ~ sep `prefix_of` drop k' l
  | None => forall k, ~ sep `prefix_of` drop k l
  end.
Proof.
  intros Hne. revert i. induction l as [|x l IH]; intros i; simpl.
  - case_decide as Hp; [by apply prefix_nil_inv in Hp|]. intros k. rewrite drop_nil. intros ?%prefix_nil_inv. done.
  - case_decide as Hp; [exists 0; split_and!; [lia|done|lia]|]. specialize (IH (S i)). destruct (find_from sep l (S i)) as [j|].
    + destruct IH as (k & -> & Hk & Hlow). exists (S k). split_and!; [lia|done|]. intros [|k'] Hk'; [done|]. simpl. apply Hlow. lia.
    + intros [|k]; [done|]. apply IH.
Qed.

Lemma find_spec sep buf off : sep ≠ [] ->
  match find sep buf off with
  | Some j => off <= j /\ occurs sep buf j /\ forall i, off <= i -> i < j -> ~ occurs sep buf i
  | None => forall i, off <= i -> ~ occurs sep buf i
  end.
Proof.
  intros Hne. pose proof (find_from_spec sep (drop off buf) off Hne) as H. unfold find, occurs. destruct (find_from _ _ _) as [j|].
  - destruct H as (k & -> & Hk & Hlow). rewrite drop_drop in Hk. split_and!; [lia|done|]. intros i Hi Hik Hp. apply (Hlow (i - off)); [lia|].
    rewrite drop_drop. by replace (off + (i - off)) with i by lia.
  - intros i Hi Hp. apply (H (i - off)). rewrite drop_drop. by replace (off + (i - off)) with i by lia.
Qed.

Lemma occurs_length sep buf i : sep ≠ [] -> occurs sep buf i -> i + length sep <= length buf.
Proof.
  intros Hne Hp%prefix_length. rewrite length_drop in Hp. destruct sep; [done|]. simpl in *. lia.
Qed.

(** An occurrence in a buffer is one in the stream, and one in the stream that ends within the buffer
    is one in the buffer. *)
Lemma occurs_app sep buf rest i : sep ≠ [] -> occurs sep buf i -> occurs sep (buf ++ rest) i.
Proof.
  intros Hne Ho. pose proof (occurs_length _ _ _ Hne Ho). unfold occurs in *. rewrite drop_app_le by lia. by apply prefix_app_r.
Qed.

Lemma occurs_app_inv sep buf rest i : i + length sep <= length buf -> occurs sep (buf ++ rest) i -> occurs sep buf i.
Proof.
  unfold occurs. intros Hl Ho. rewrite drop_app_le in Ho by lia. destruct Ho as [k E]. exists (take (length buf - i - length sep) k).
  apply (f_equal (take (length buf - i))) in E. rewrite take_app_le in E by (rewrite length_drop; lia).
  rewrite take_ge in E by (rewrite length_drop; lia). rewrite E, take_app_ge by lia. done.
Qed.

(** The reference: what [readuntil] does with a stream known as a whole, with its end. *)
Inductive rkind := KData (line rest : bytes) | KLimit | KEof | KFail (e : pyexc).

Definition until_ref (seps : list bytes) (maxl limit : nat) (data : bytes) (fin : option pyexc) : rkind :=
  match scan seps data 0 with
  | Some (s, e) => if bool_decide (s <= limit) then KData (take e data) (drop e data) else KLimit
  | None => if bool_decide (limit < length data + 1 - maxl) then KLimit else match fin with None => KEof | Some e => KFail e end
  end.

Section until.
Context (seps : list bytes) (minl maxl : nat).
Context (Hlen : Forall (λ sep, minl <= length sep <= maxl) seps) (Hmin : 1 <= minl <= maxl).

Lemma sep_ok sep : sep ∈ seps -> sep ≠ [] /\ minl <= length sep <= maxl.
Proof. intros Hin. rewrite Forall_forall in Hlen. specialize (Hlen sep Hin). split; [|done]. intros ->. simpl in Hlen. lia. Qed.

(** No separator starts below [off] in [P]. *)
Definition clear_below (P : bytes) (off : nat) : Prop := forall sep i, sep ∈ seps -> i < off -> ~ occurs sep P i.

(** Two scans: what the first finds ends within [B], and what only the second finds ends later. *)
Definition scan_rel (B : nat) (m m' : option (nat * nat)) : Prop :=
  match m with Some x => m' = Some x /\ x.2 <= B | None => match m' with Some x => B < x.2 | None => True end end.

Lemma better_rel buf rest off m m' sep : sep ∈ seps -> clear_below (buf ++ rest) off -> scan_rel (length buf) m m' ->
  scan_rel (length buf) (better buf off m sep) (better (buf ++ rest) 0 m' sep).
Proof.
  intros Hin Hc Hm. destruct (sep_ok sep Hin) as [Hne _]. unfold better.
  pose proof (find_spec sep buf off Hne) as Hf. pose proof (find_spec sep (buf ++ rest) 0 Hne) as Hg.
  destruct (find sep buf off) as [i|].
  - destruct Hf as (Hi & Ho & Hlow). pose proof (occurs_length _ _ _ Hne Ho) as Hli. pose proof (occurs_app sep buf rest i Hne Ho) as Ho'.
    assert (find sep (buf ++ rest) 0 = Some i) as ->.
    { destruct (find sep (buf ++ rest) 0) as [j|]; [|by destruct (Hg i ltac:(lia))]. destruct Hg as (_ & Hj & Hglow). f_equal.
      destruct (decide (j < i)) as [Hji|]; [|destruct (decide (i < j)); [by destruct (Hglow i ltac:(lia))|lia]].
      exfalso. destruct (decide (j < off)); [by eapply Hc|]. apply (Hlow j); [lia|done|]. eapply occurs_app_inv; [|exact Hj]. lia. }
    destruct m as [[s0 e0]|]; simpl in Hm.
    + destruct Hm as [-> Hm]. simpl in *. by case_bool_decide.
    + destruct m' as [[s1 e1]|]; simpl in Hm; [|done]. by rewrite bool_decide_eq_true_2 by lia.
  - assert (forall j, occurs sep (buf ++ rest) j -> length buf < j + length sep) as Hlate.
    { intros j Hj. destruct (decide (j + length sep <= length buf)); [|lia]. exfalso. destruct (decide (j < off)); [by eapply Hc|].
      apply (Hf j); [lia|]. by eapply occurs_app_inv. }
    destruct (find sep (buf ++ rest) 0) as [j|]; [|done]. destruct Hg as (_ & Hj & _). specialize (Hlate j Hj).
    destruct m as [[s0 e0]|]; simpl in *.
    + destruct Hm as [-> Hm]. by rewrite bool_decide_eq_false_2 by lia.
    + destruct m' as [[s1 e1]|]; simpl in *; [case_bool_decide; simpl; lia|lia].
Qed.

Lemma scan_rel_spec buf rest off : clear_below (buf ++ rest) off -> scan_rel (length buf) (scan seps buf off) (scan seps (buf ++ rest) 0).
Proof.
  intros Hc. unfold scan. assert (Hsub : forall sep, sep ∈ seps -> sep ∈ seps) by done. revert Hsub. generalize seps at 1 3 4 as l.
  assert (H0 : scan_rel (length buf) None None) by done. revert H0. generalize (@None (nat * nat)) at 1 3 as m. generalize (@None (nat * nat)) as m'.
  intros m' m Hm l. revert m m' Hm. induction l as [|sep l IH]; intros m m' Hm Hsub; simpl; [done|].
  apply IH; [|intros; apply Hsub; by right]. apply better_rel; [apply Hsub; by left|done..].
Qed.

(** A scan without result sees no separator. *)
Lemma scan_None buf off : scan seps buf off = None -> forall sep i, sep ∈ seps -> off <= i -> ~ occurs sep buf i.
Proof.
  intros Hs sep i Hin Hi Ho. unfold scan in Hs. apply list_elem_of_split in Hin as (l1 & l2 & E).
  assert (Hkeep : forall l m, is_Some m -> is_Some (foldl (better buf off) m l)).
  { induction l as [|x l IH]; intros m [y ->]; simpl; [by eauto|]. apply IH. unfold better. destruct (find x buf off); [|by eauto].
    destruct y. case_bool_decide; eauto. }
  assert (sep ∈ seps) as Hin by (rewrite E; set_solver). destruct (sep_ok sep Hin) as [Hne _].
  rewrite E, foldl_app in Hs. simpl in Hs. destruct (Hkeep l2 (better buf off (foldl (better buf off) None l1) sep)) as [y Hy]; [|congruence].
  unfold better at 1. pose proof (find_spec sep buf off Hne) as Hf. destruct (find sep buf off) as [j|]; [|by destruct (Hf i Hi)].
  destruct (foldl _ None l1) as [[s0 e0]|]; [case_bool_decide|]; eauto.
Qed.

Lemma scan_Some buf off s e : scan seps buf off = Some (s, e) -> exists sep, sep ∈ seps /\ occurs sep buf s /\ e = s + length sep.
Proof.
  unfold scan. assert (Hsub : forall sep, sep ∈ seps -> sep ∈ seps) by done. revert Hsub. generalize seps at 1 3 as l. intros l.
  assert (forall m, (forall s e, m = Some (s, e) -> exists sep, sep ∈ seps /\ occurs sep buf s /\ e = s + length sep) ->
    (forall sep, sep ∈ l -> sep ∈ seps) -> foldl (better buf off) m l = Some (s, e) -> exists sep, sep ∈ seps /\ occurs sep buf s /\ e = s + length sep) as H.
  { induction l as [|x l IH]; intros m Hm Hsub; simpl; [apply Hm|]. apply IH; [|intros; apply Hsub; by right].
    assert (x ∈ seps) as Hx by (apply Hsub; by left). destruct (sep_ok x Hx) as [Hne _]. intros s' e'. unfold better.
    pose proof (find_spec x buf off Hne) as Hf. destruct (find x buf off) as [j|]; [|apply Hm]. destruct Hf as (_ & Hj & _).
    destruct m as [[s0 e0]|]; [case_bool_decide; [|apply Hm]|]; intros [= <- <-]; by exists x. }
  by apply H.
Qed.

(** The match of a scan ends first. *)
Lemma scan_least buf s e : scan seps buf 0 = Some (s, e) -> forall sep i, sep ∈ seps -> occurs sep buf i -> e <= i + length sep.
Proof.
  unfold scan. intros Hs sep i Hin Ho. destruct (sep_ok sep Hin) as [Hne _]. apply list_elem_of_split in Hin as (l1 & l2 & E).
  assert (Hle : forall l s0 e0, exists s1 e1, foldl (better buf 0) (Some (s0, e0)) l = Some (s1, e1) /\ e1 <= e0).
  { induction l as [|x l IH]; intros s0 e0; simpl; [by eauto|]. unfold better at 2. destruct (find x buf 0) as [j|]; [|apply IH].
    case_bool_decide; [|apply IH]. destruct (IH j (j + length x)) as (s1 & e1 & ? & ?). exists s1, e1. split; [done|lia]. }
  rewrite E, foldl_app in Hs. simpl in Hs. unfold better at 2 in Hs. pose proof (find_spec sep buf 0 Hne) as Hf.
  destruct (find sep buf 0) as [j|]; [|by destruct (Hf i ltac:(lia))]. destruct Hf as (_ & _ & Hlow).
  assert (Hj : j <= i) by (destruct (decide (i < j)); [by destruct (Hlow i ltac:(lia))|lia]).
  destruct (foldl _ None l1) as [[s0 e0]|]; [case_bool_decide|].
  - destruct (Hle l2 j (j + length sep)) as (s1 & e1 & ? & ?). simplify_eq. lia.
  - destruct (Hle l2 s0 e0) as (s1 & e1 & ? & ?). simplify_eq. lia.
  - destruct (Hle l2 j (j + length sep)) as (s1 & e1 & ? & ?). simplify_eq. lia.
Qed.

(** The reader goes on on the same stream. *)
Definition same_stream (r r' : reader) : Prop := ending r' = ending r /\ r_limit r' = r_limit r /\ rsize r' <= rsize r.

(** How a result of the code is seen on the whole stream. *)
Definition until_view (r r' : reader) (res : rres bytes) (k : rkind) : Prop :=
  match res, k with
  | RRet x, KData line rest => x = line /\ pending r' = rest /\ same_stream r r'
  | RLimit msg c, KLimit => pending r' = pending r /\ same_stream r r' /\ r_limit r < c /\
      (msg = found_late /\ (exists e, scan seps (pending r) 0 = Some (c, e)) /\
         (forall sep i, sep ∈ seps -> occurs sep (pending r) i -> c < i + length sep) \/
       msg = not_found /\ c + maxl = length (r_buf r') + 1 /\
         (forall sep i, sep ∈ seps -> ~ occurs sep (r_buf r') i) /\
         (forall sep i, sep ∈ seps -> occurs sep (pending r) i -> c <= i))
  | RIncomplete p _, KEof => p = pending r /\ at_eof r' = true /\ same_stream r r'
  | RExc e, KFail e' => e = e'
  | _, _ => False
  end.

Lemma until_view_trans r r1 r' res k : same_stream r r1 -> pending r1 = pending r -> until_view r1 r' res k -> until_view r r' res k.
Proof.
  intros (E1 & E2 & E3) Ep. unfold until_view, same_stream. rewrite Ep, E1, E2. destruct res, k; try done; intros Hv; decompose [and] Hv; split_and!; auto; lia.
Qed.

Lemma clear_scan P off s e : clear_below P off -> scan seps P 0 = Some (s, e) -> off <= s.
Proof.
  intros Hc (sep & Hin & Ho & _)%scan_Some. destruct (decide (s < off)) as [Hlt|]; [by destruct (Hc sep s Hin Hlt)|lia].
Qed.

(** The stream ended, or failed, at the buffer [buf] in which no separator occurs. *)
Lemma until_no_more buf limit fin : (forall sep i, sep ∈ seps -> ~ occurs sep buf i) -> length buf + 1 - maxl <= limit ->
  until_ref seps maxl limit buf fin = match fin with None => KEof | Some e => KFail e end.
Proof.
  intros Hno Hl. unfold until_ref. destruct (scan seps buf 0) as [[s e]|] eqn:Es.
  - apply scan_Some in Es as (sep & Hin & Ho & _). by destruct (Hno sep s Hin).
  - by rewrite bool_decide_eq_false_2 by lia.
Qed.

Lemma until_loop_correct fuel off r : 0 < r_limit r -> rsize r < fuel -> clear_below (pending r) off -> off <= r_limit r ->
  exists r' res, until_loop fuel seps minl maxl off r = Some (r', res) /\
    until_view r r' res (until_ref seps maxl (r_limit r) (pending r) (ending r)).
Proof.
  revert off r. induction fuel as [|fuel IH]; intros off r Hlim Hf Hc Hoff; [lia|]. cbn [until_loop].
  set (rest := if r_eof r then [] else src_data (r_src r)). assert (EP : pending r = r_buf r ++ rest) by done.
  assert (Hmore : forall off', clear_below (pending r) off' -> off' <= r_limit r -> (forall sep i, sep ∈ seps -> ~ occurs sep (r_buf r) i) ->
    length (r_buf r) + 1 - maxl <= r_limit r -> exists r' res,
    (if r_eof r then Some (set_buf [] r, RIncomplete (r_buf r) None)
     else match fill r with (r', Ret _) => until_loop fuel seps minl maxl off' r' | (r', Exc e) => Some (r', RExc e) end) = Some (r', res) /\
    until_view r r' res (until_ref seps maxl (r_limit r) (pending r) (ending r))).
  { intros off' Hc' Hoff' Hno Hl. destruct (r_eof r) eqn:Ee.
    - assert (Ep : pending r = r_buf r) by (rewrite EP; unfold rest; by rewrite app_nil_r). do 2 eexists. split; [done|].
      rewrite Ep, until_no_more by done. unfold ending. rewrite Ee. simpl. split_and!; [done| |done]. unfold at_eof. simpl. by rewrite Ee.
    - pose proof (fill_spec r Hlim Ee) as Hfill. destruct (fill r) as [r1 [more|e]].
      + destruct Hfill as (Ep & Een & El & Hsz & _). destruct (IH off' r1) as (r' & res & E & Hv); [lia|lia|by rewrite Ep|lia|].
        exists r', res. split; [done|]. rewrite Ep, Een, El in Hv. eapply until_view_trans; [|exact Ep|exact Hv]. split_and!; [done..|lia].
      + destruct Hfill as (_ & Ep & Een). do 2 eexists. split; [done|]. by rewrite Ep, until_no_more, Een by done. }
  destruct (bool_decide_reflect (minl <= length (r_buf r) - off)) as [Hscan|Hshort].
  2: { apply Hmore; [done..| |].
       - intros sep i Hin Ho. destruct (sep_ok sep Hin) as [Hne Hl]. pose proof (occurs_length _ _ _ Hne Ho). destruct (decide (i < off)); [|lia].
         eapply Hc; [done..|]. rewrite EP. by apply occurs_app.
       - lia. }
  rewrite EP in Hc. pose proof (scan_rel_spec (r_buf r) rest off Hc) as Hrel. rewrite <- EP in Hc, Hrel.
  destruct (scan seps (r_buf r) off) as [[s e]|] eqn:Es.
  - destruct Hrel as [EsP He]. simpl in He. unfold until_ref. rewrite EsP.
    exists (take_match (s, e) r).1, (take_match (s, e) r).2. split; [by rewrite <- surjective_pairing|]. unfold take_match. simpl.
    destruct (decide (s <= r_limit r)).
    + rewrite bool_decide_eq_false_2, bool_decide_eq_true_2 by lia. simpl. split_and!; [| |done].
      * rewrite EP. by rewrite take_app_le by lia.
      * unfold pending at 1. simpl. fold rest. rewrite EP. by rewrite drop_app_le by lia.
    + rewrite bool_decide_eq_true_2, bool_decide_eq_false_2 by lia. simpl. split_and!; [done|done|lia|]. left. split_and!; [done|by exists e|]. intros sep i Hin Ho.
      pose proof (scan_least _ _ _ EsP sep i Hin Ho). apply scan_Some in EsP as (sep' & Hin' & _ & ->). destruct (sep_ok sep' Hin') as [_ ?]. lia.
  - pose proof (scan_None _ _ Es) as Hnone.
    assert (Hno : forall sep i, sep ∈ seps -> ~ occurs sep (r_buf r) i).
    { intros sep i Hin Ho. destruct (decide (off <= i)) as [Hi|]; [by eapply Hnone|]. destruct (sep_ok sep Hin) as [Hne _].
      apply (Hc sep i Hin); [lia|]. rewrite EP. by apply occurs_app. }
    set (off' := length (r_buf r) + 1 - maxl).
    assert (Hc' : clear_below (pending r) off').
    { intros sep i Hin Hi Ho. destruct (sep_ok sep Hin) as [Hne Hl]. apply (Hno sep i Hin). rewrite EP in Ho.
      eapply occurs_app_inv; [|exact Ho]. unfold off' in Hi. lia. }
    destruct (bool_decide_reflect (r_limit r < off')) as [Hlt|Hge]; [|apply Hmore; [done|lia|done|unfold off' in Hge; lia]].
    exists r, (RLimit not_found off'). split; [done|]. assert (until_ref seps maxl (r_limit r) (pending r) (ending r) = KLimit) as ->.
    2: { split_and!; [done..|]. right. split_and!; [done|unfold off' in *; lia|done|].
         intros sep i Hin Ho. destruct (decide (i < off')); [by destruct (Hc' sep i)|lia]. }
    unfold until_ref. destruct (scan seps (pending r) 0) as [[s e]|] eqn:EsP.
    + rewrite bool_decide_eq_false_2; [done|]. pose proof (clear_scan _ _ _ _ Hc' EsP). lia.
    + rewrite bool_decide_eq_true_2; [done|]. rewrite EP, length_app. unfold off' in Hlt. lia.
Qed.
End until.

(** *** Sorting the separators *)

Definition len_le (x y : bytes) : Prop := length x <= length y.

Lemma insert_by_len_perm x l : insert_by_len x l ≡ₚ x :: l.
Proof. induction l as [|y l IH]; simpl; [done|]. case_bool_decide; [done|]. rewrite IH. apply Permutation_swap. Qed.

Lemma sort_by_len_perm l : sort_by_len l ≡ₚ l.
Proof. induction l as [|x l IH]; [done|]. unfold sort_by_len in *. simpl. by rewrite insert_by_len_perm, IH. Qed.

Lemma sort_by_len_sorted l : StronglySorted len_le (sort_by_len l).
Proof.
  induction l as [|x l IH]; [constructor|]. unfold sort_by_len in *. simpl. induction IH as [|y k Hs IHk Hf]; simpl; [repeat constructor|].
  case_bool_decide.
  - constructor; [by constructor|]. constructor; [done|]. eapply Forall_impl; [exact Hf|]. unfold len_le. simpl. lia.
  - constructor; [done|]. rewrite insert_by_len_perm. constructor; [unfold len_le; lia|done].
Qed.

Lemma sorted_ends l x y : StronglySorted len_le l -> head l = Some x -> last l = Some y -> Forall (λ z, length x <= length z <= length y) l.
Proof.
  intros Hs Hx Hy. destruct l as [|x' l]; [done|]. simplify_eq/=. apply Forall_forall. intros z Hz. split.
  - apply elem_of_cons in Hz as [->|Hz]; [done|]. inversion Hs as [|? ? _ Hf]. rewrite Forall_forall in Hf. by apply Hf.
  - apply last_Some in Hy as [k E]. rewrite E in Hs, Hz. apply elem_of_app in Hz as [Hz|Hz]; [|set_solver].
    clear E. induction k as [|w k IH]; [set_solver|]. simpl in Hs. inversion Hs as [|? ? Hs' Hf]. apply elem_of_cons in Hz as [->|Hz]; [|auto].
    rewrite Forall_forall in Hf. apply (Hf y). set_solver.
Qed.

(** The longest separator. *)
Definition max_seplen (seps : list bytes) : nat := match last (sort_by_len seps) with Some y => length y | None => 0 end.

Lemma readuntil_ref fuel seps r : seps ≠ [] -> Forall (λ sep, sep ≠ []) seps -> 0 < r_limit r -> rsize r < fuel ->
  exists r' res, readuntil fuel seps r = Some (r', res) /\
    until_view (sort_by_len seps) (max_seplen seps) r r' res
      (until_ref (sort_by_len seps) (max_seplen seps) (r_limit r) (pending r) (ending r)).
Proof.
  intros Hne Hseps Hlim Hfuel. unfold readuntil, max_seplen. set (l := sort_by_len seps). assert (Hp : l ≡ₚ seps) by apply sort_by_len_perm.
  assert (exists x y, head l = Some x /\ last l = Some y) as (x & y & Ex & Ey).
  { destruct l as [|x l'] eqn:El; [by apply Permutation_nil in Hp|]. exists x. destruct (last (x :: l')) as [y|] eqn:Ey; [by eauto|]. by apply last_None in Ey. }
  rewrite Ex, Ey. pose proof (sorted_ends l x y (sort_by_len_sorted seps) Ex Ey) as Hf.
  assert (x ∈ l /\ y ∈ l) as [Hx Hy]. { split; [destruct l; simplify_eq/=; by left|]. apply last_Some in Ey as [k ->]. set_solver. }
  assert (x ≠ []) by (rewrite Forall_forall in Hseps; apply Hseps; by rewrite <- Hp). assert (1 <= length x) by (destruct x; [done|simpl; lia]).
  rewrite bool_decide_eq_false_2 by lia. apply until_loop_correct; [done| |done|done|intros sep i _ Hi; lia|lia].
  rewrite Forall_forall in Hf. split; [lia|apply (Hf y Hy)].
Qed.

(** C19. [readuntil] does not depend on how the stream arrives.  Whatever the chunks, the waits and the
    number of separators, it ends like the reference on the whole stream: with the bytes up to the
    end of the match that ends first (the shortest separator on a tie) when it starts within the
    limit; with [LimitOverrunError] and nothing taken from the stream when it starts later, with
    [consumed] the start of that match, or when too much arrives without one, with [consumed] all that
    has arrived but one byte less than the longest separator, so that no separator of the stream
    starts in the part a caller may skip; with [IncompleteReadError] and all that is left at the end
    of the stream; or with the socket's error.  The separators are not empty and the limit is
    positive. *)
Theorem readuntil_reference fuel seps r : seps ≠ [] -> Forall (λ sep, sep ≠ []) seps -> 0 < r_limit r -> rsize r < fuel ->
  exists r' res, readuntil fuel seps r = Some (r', res) /\
    until_view (sort_by_len seps) (max_seplen seps) r r' res
      (until_ref (sort_by_len seps) (max_seplen seps) (r_limit r) (pending r) (ending r)).
Proof. apply readuntil_ref. Qed.

(** *** Lines *)

Lemma occurs_newline P i : occurs [newline] P i <-> P !! i = Some newline.
Proof.
  unfold occurs. split.
  - intros [k E]. rewrite <- (Nat.add_0_r i), <- lookup_drop, E. done.
  - intros H. exists (drop (S i) P). simpl. by apply drop_S.
Qed.

Lemma scan_newline l rest : newline ∉ l -> scan [[newline]] (l ++ newline :: rest) 0 = Some (length l, S (length l)).
Proof.
  intros Hl. unfold scan, better. simpl. set (P := l ++ newline :: rest).
  assert (Ho : occurs [newline] P (length l)) by (apply occurs_newline; unfold P; by rewrite lookup_app_r, Nat.sub_diag by lia).
  pose proof (find_spec [newline] P 0 ltac:(done)) as Hf. destruct (find [newline] P 0) as [j|]; [|by destruct (Hf (length l) ltac:(lia))].
  destruct Hf as (_ & Hj & Hlow). assert (j = length l) as ->; [|simpl; do 2 f_equal; lia].
  destruct (decide (length l < j)) as [Hlt|Hge]; [by destruct (Hlow (length l) ltac:(lia))|].
  destruct (decide (j = length l)) as [|Hne]; [done|]. exfalso. apply occurs_newline in Hj. unfold P in Hj. rewrite lookup_app_l in Hj by lia.
  by apply Hl, (list_elem_of_lookup_2 _ j).
Qed.

Lemma scan_no_newline P : newline ∉ P -> scan [[newline]] P 0 = None.
Proof.
  intros HP. unfold scan, better. simpl. pose proof (find_spec [newline] P 0 ltac:(done)) as Hf. destruct (find [newline] P 0) as [j|]; [|done].
  destruct Hf as (_ & Hj%occurs_newline & _). by apply list_elem_of_lookup_2 in Hj.
Qed.

Lemma readline_line fuel r l rest : 0 < r_limit r -> rsize r < fuel -> pending r = l ++ newline :: rest -> newline ∉ l -> length l <= r_limit r ->
  exists r', readline fuel r = Some (r', Ret (l ++ [newline])) /\ pending r' = rest /\ same_stream r r'.
Proof.
  intros Hlim Hf EP Hl Hle. destruct (readuntil_ref fuel [[newline]] r) as (r' & res & E & Hv); [done|by repeat constructor|done..|].
  change (sort_by_len [[newline]]) with [[newline]] in Hv. change (max_seplen [[newline]]) with 1 in Hv.
  unfold until_ref in Hv. rewrite EP, scan_newline, bool_decide_eq_true_2 in Hv by done. destruct res as [x| | |]; try done. destruct Hv as (-> & Ep & Hs).
  exists r'. unfold readline. rewrite E. assert (E2 : l ++ newline :: rest = (l ++ [newline]) ++ rest) by (by rewrite <- app_assoc).
  rewrite E2 in Ep |- *. assert (S (length l) = length (l ++ [newline])) as El by (rewrite length_app; simpl; lia). rewrite El in *.
  rewrite take_app_length. rewrite drop_app_length in Ep. done.
Qed.

Lemma readline_tail fuel r : 0 < r_limit r -> rsize r < fuel -> newline ∉ pending r -> length (pending r) <= r_limit r -> ending r = None ->
  exists r', readline fuel r = Some (r', Ret (pending r)) /\ at_eof r' = true /\ same_stream r r'.
Proof.
  intros Hlim Hf HP Hle He. destruct (readuntil_ref fuel [[newline]] r) as (r' & res & E & Hv); [done|by repeat constructor|done..|].
  change (sort_by_len [[newline]]) with [[newline]] in Hv. change (max_seplen [[newline]]) with 1 in Hv.
  unfold until_ref in Hv. rewrite scan_no_newline, bool_decide_eq_false_2, He in Hv by (done || lia). destruct res as [|p x| |]; try done.
  destruct Hv as (-> & Ep & Hs). exists r'. unfold readline. by rewrite E.
Qed.

Definition line_ok (limit : nat) (l : bytes) : Prop := newline ∉ l /\ length l <= limit.

Lemma at_eof_pending r : at_eof r = true -> pending r = [] /\ ending r = None.
Proof. unfold at_eof, pending, ending. intros [-> ->%bool_decide_eq_true]%andb_true_iff. done. Qed.

Lemma lines_end fuel r : 0 < r_limit r -> rsize r < fuel -> at_eof r = true -> exists r', lines fuel r = Some (r', [], Ret tt) /\ at_eof r' = true.
Proof.
  intros Hlim Hf [Ep Ee]%at_eof_pending. destruct fuel as [|fuel]; [lia|]. cbn [lines].
  destruct (readline_tail (S fuel) r) as (r' & E & Ep' & _); [done|done|rewrite Ep; set_solver|rewrite Ep; simpl; lia|done|]. rewrite E, Ep. eauto.
Qed.

(** C20. [async for line in reader] gives back the lines that were sent, each with its newline, and the
    unterminated rest if there is one, however the bytes arrive, and then ends; provided that no line
    and no rest is longer than the reader's limit (a longer one makes [readline] raise [ValueError])
    and that the stream ends by a clean EOF and not by an error of the socket. *)
Theorem lines_roundtrip fuel ls tail r :
  0 < r_limit r -> Forall (line_ok (r_limit r)) (ls ++ [tail]) -> pending r = concat (map (λ l, l ++ [newline]) ls) ++ tail -> ending r = None ->
  rsize r + length ls + 1 < fuel ->
  exists r', lines fuel r = Some (r', map (λ l, l ++ [newline]) ls ++ (if decide (tail = []) then [] else [tail]), Ret tt) /\ at_eof r' = true.
Proof.
  revert fuel r. induction ls as [|l ls IH]; intros fuel r Hlim Hok EP He Hf; (destruct fuel as [|fuel]; [lia|]); cbn [lines map app concat].
  - apply Forall_app in Hok as [_ [Hn Hle]%Forall_singleton]. simpl in EP, Hf. rewrite <- EP in *.
    destruct (readline_tail (S fuel) r) as (r' & E & Ep & Hs & Hl & Hz); [done|lia|done..|]. rewrite E.
    destruct (pending r) as [|b p]; [by eauto|]. destruct (lines_end fuel r') as (r2 & -> & ?); [lia..|done|]. eauto.
  - apply Forall_cons in Hok as [[Hn Hle] Hok]. simpl in EP. rewrite <- !app_assoc in EP. simpl in Hf, EP.
    destruct (readline_line (S fuel) r l _ Hlim ltac:(lia) EP Hn Hle) as (r' & E & Ep & Hs & Hl & Hz). rewrite E.
    destruct (IH fuel r') as (r2 & -> & ?); [lia|by rewrite Hl|done|congruence|lia|]. exists r2. split; [|done]. by destruct l.
Qed.

(** *** [read] and [readexactly] *)

(** [readexactly(n)] gives exactly the next [n] bytes of the stream however they arrive; when the
    stream ends earlier it raises with all that was left, and on an error the bytes that had arrived
    stay for the next call. *)
Theorem readexactly_exact fuel n r : 0 < r_limit r -> rsize r < fuel ->
  exists r' res, readexactly fuel n r = Some (r', res) /\
    match res with
    | RRet x => n <= length (pending r) /\ x = take n (pending r) /\ pending r' = drop n (pending r) /\ same_stream r r'
    | RIncomplete p m => length (pending r) < n /\ m = Some n /\ p = pending r /\ ending r = None /\ at_eof r' = true
    | RExc e => length (pending r) < n /\ ending r = Some e /\ r_buf r' = pending r
    | RLimit _ _ => False
    end.
Proof.
  intros Hlim. revert r Hlim. induction fuel as [|fuel IH]; intros r Hlim Hf; [lia|]. cbn [readexactly].
  destruct (bool_decide_reflect (length (r_buf r) < n)) as [Hlt|Hge].
  - destruct (r_eof r) eqn:Ee.
    + unfold fill. rewrite Ee. eexists _, _. split; [done|]. simpl. unfold pending, ending, at_eof. rewrite Ee, app_nil_r. simpl. by rewrite Ee.
    + pose proof (fill_spec r Hlim Ee) as Hfill. destruct (fill r) as [r1 [[]|e]].
      * destruct Hfill as (Ep & Een & El & Hsz & _). destruct (IH r1) as (r' & res & E & Hv); [lia|lia|]. exists r', res. split; [done|].
        unfold same_stream in *. rewrite Ep, Een, El in Hv. destruct res; try done. decompose [and] Hv. split_and!; auto; lia.
      * destruct Hfill as (Ep & Een & El & Hsz & Ee1 & Eb & _). eexists _, _. split; [done|]. simpl.
        assert (pending r1 = r_buf r1) as Ep1 by (unfold pending; simpl in Ee1; by rewrite Ee1, app_nil_r).
        rewrite <- Ep, Ep1, Eb. split_and!; [done..| |]; [rewrite <- Een; unfold ending|unfold at_eof]; simpl in *; by rewrite Ee1.
      * destruct Hfill as (Eb & Ep & Een). eexists _, _. split; [done|]. simpl. by rewrite Ep, Eb.
  - eexists _, _. split; [done|]. simpl. unfold pending. simpl. rewrite length_app, take_app_le, drop_app_le by lia. split_and!; [lia|done..].
Qed.

Lemma fill_while_spec fuel cond r : 0 < r_limit r -> rsize r < fuel -> (forall r, r_eof r = true -> cond r = false) ->
  exists r' res, fill_while fuel cond r = Some (r', res) /\
    match res with
    | Ret _ => cond r' = false /\ pending r' = pending r /\ same_stream r r'
    | Exc e => ending r = Some e /\ r_buf r' = pending r
    end.
Proof.
  intros Hlim Hf Hc. revert r Hlim Hf. induction fuel as [|fuel IH]; intros r Hlim Hf; [lia|]. cbn [fill_while].
  destruct (cond r) eqn:Ec; [|by eexists _, _]. destruct (r_eof r) eqn:Ee; [by rewrite Hc in Ec|].
  pose proof (fill_spec r Hlim Ee) as Hfill. destruct (fill r) as [r1 [more|e]].
  - destruct Hfill as (Ep & Een & El & Hsz & _). destruct (IH r1) as (r' & res & E & Hv); [lia|lia|]. exists r', res. split; [done|].
    unfold same_stream in *. rewrite Ep, Een, El in Hv. destruct res; [|done]. decompose [and] Hv. split_and!; auto; lia.
  - destruct Hfill as (Eb & Ep & Een). eexists _, _. split; [done|]. by rewrite Ep.
Qed.

(** [read(n)] gives a prefix of the stream and leaves the rest: nothing for [n = 0]; all of it for a
    negative [n]; otherwise at least one byte and at most [n], or nothing when the stream is at its
    end.  An error of the socket is raised only when it precedes the bytes asked for. *)
Theorem read_prefix fuel n r : 0 < r_limit r -> rsize r < fuel ->
  exists r' res, read fuel n r = Some (r', res) /\
    match res with
    | RRet x => pending r = x ++ pending r' /\
        (if (n <? 0)%Z then at_eof r' = true else Z.of_nat (length x) <= n)%Z /\ (x = [] -> n = 0%Z \/ pending r = [] /\ ending r = None)
    | RExc e => ending r = Some e /\ (n < 0 \/ 0 < n /\ r_buf r = [])%Z
    | _ => False
    end.
Proof.
  intros Hlim Hf. unfold read. destruct (Z.eqb_spec n 0) as [->|Hn].
  { eexists _, _. split; [done|]. simpl. split_and!; [done|lia|by left]. }
  destruct (Z.ltb_spec n 0) as [Hneg|Hpos].
  - destruct (fill_while_spec fuel (λ r, negb (r_eof r)) r Hlim Hf) as (r' & res & E & Hv); [by intros ? ->|]. rewrite E. destruct res as [u|e].
    + destruct Hv as (Ec & Ep & Hs & _). apply negb_false_iff in Ec. eexists _, _. split; [done|]. simpl.
      assert (pending r' = r_buf r') as Ep' by (unfold pending; by rewrite Ec, app_nil_r).
      assert (at_eof (set_buf [] r') = true) as Hae by (unfold at_eof; simpl; by rewrite Ec). destruct (at_eof_pending _ Hae) as [-> _].
      rewrite <- Ep, Ep', app_nil_r. split_and!; [done..|]. intros ->. right. split; [done|]. rewrite <- Hs. unfold ending. by rewrite Ec.
    + eexists _, _. split; [done|]. simpl. destruct Hv. auto.
  - set (cond := λ r, bool_decide (r_buf r = []) && negb (r_eof r)).
    destruct (fill_while_spec fuel cond r Hlim Hf) as (r' & res & E & Hv); [unfold cond; by intros ? ->; rewrite andb_false_r|]. rewrite E. destruct res as [u|e].
    + destruct Hv as (Ec & Ep & Hs & _). eexists _, _. split; [done|]. rewrite <- Ep. split_and!.
      * unfold pending. simpl. by rewrite app_assoc, take_drop.
      * rewrite length_take. lia.
      * intros Et. right. assert (r_buf r' = []) as Eb. { destruct (r_buf r') as [|b l]; [done|]. destruct (Z.to_nat n) eqn:En; [lia|done]. }
        unfold cond in Ec. rewrite Eb in Ec. apply negb_false_iff in Ec. rewrite <- Hs. unfold pending, ending. by rewrite Eb, Ec.
    + eexists _, _. split; [done|]. destruct Hv as [He Eb]. split; [done|]. right. split; [lia|].
      destruct fuel as [|fuel]; [lia|]. cbn [fill_while] in E. destruct (cond r) eqn:Ec; [|done]. unfold cond in Ec. by case_bool_decide.
Qed.

(** ** The writer *)

(** What a [send] meets: room for [S k] bytes, a call that takes nothing, a full queue (with the end
    of the wait that may follow), an error.  After the last entry there is room for everything. *)
Inductive sending := SAccept (k : nat) | SZero (w : option pyexc) | SBlock (w : option pyexc) | SFail (e : pyexc).

(** [w_shut] is the socket's own state, [w_closed] the writer's flag. *)
Record writer := Writer { w_sink : list sending; w_wire : bytes; w_buf : bytes; w_closed : bool; w_shut : bool }.

Definition w_init (sink : list sending) : writer := Writer sink [] [] false false.

(** [n = self._sock.send(self._buf); del self._buf[:n]] *)
Inductive sent := SentSome | SentNone (w : option pyexc) | WouldBlock (w : option pyexc) | SendErr (e : pyexc).
Definition bad_fd : pyexc := OSError "Bad file descriptor".

Definition send_buf (w : writer) : writer * sent :=
  let go sink n := Writer sink (w_wire w ++ take n (w_buf w)) (drop n (w_buf w)) (w_closed w) false in
  if w_shut w then (w, SendErr bad_fd)
  else
    match w_sink w with
    | [] => (go [] (length (w_buf w)), SentSome)
    | SAccept k :: sink => (go sink (S k), SentSome)
    | SZero x :: sink => (go sink 0, SentNone x)
    | SBlock x :: sink => (go sink 0, WouldBlock x)
    | SFail e :: sink => (go sink 0, SendErr e)
    end.

(** [_try_flush()] *)
Fixpoint try_flush (fuel : nat) (w : writer) : option (writer * out unit) :=
  match fuel with
  | O => None
  | S fuel' =>
      if bool_decide (w_buf w = []) then Some (w, Ret tt)
      else
        match send_buf w with
        | (w', SentSome) => try_flush fuel' w'
        | (w', SentNone _) | (w', WouldBlock _) => Some (w', Ret tt)
        | (w', SendErr e) => Some (w', Exc e)
        end
  end.

(** [_flush_blocking()] *)
Fixpoint flush_blocking (fuel : nat) (w : writer) : option (writer * out unit) :=
  match fuel with
  | O => None
  | S fuel' =>
      if bool_decide (w_buf w = []) then Some (w, Ret tt)
      else
        match send_buf w with
        | (w', SentSome) => flush_blocking fuel' w'
        | (w', SentNone None) | (w', WouldBlock None) => flush_blocking fuel' w'
        | (w', SentNone (Some e)) | (w', WouldBlock (Some e)) => Some (w', Exc e)
        | (w', SendErr e) => Some (w', Exc e)
        end
  end.

Definition extend (d : bytes) (w : writer) : writer := Writer (w_sink w) (w_wire w) (w_buf w ++ d) (w_closed w) (w_shut w).

(** [write(data)], [writelines(lines)], [drain()] *)
Definition write (fuel : nat) (d : bytes) (w : writer) : option (writer * out unit) :=
  if w_closed w then Some (w, Exc (RuntimeError "write on closed StreamWriter")) else try_flush fuel (extend d w).
Definition writelines (fuel : nat) (ds : list bytes) (w : writer) : option (writer * out unit) := try_flush fuel (foldl (λ w d, extend d w) w ds).
Definition drain (fuel : nat) (w : writer) : option (writer * out unit) := flush_blocking fuel w.

(** [close()]: the [finally] shuts the socket down and closes it. *)
Definition close (fuel : nat) (w : writer) : option (writer * out unit) :=
  if w_closed w then Some (w, Ret tt)
  else
    match flush_blocking fuel (Writer (w_sink w) (w_wire w) (w_buf w) true (w_shut w)) with
    | Some (w', r) =>
        Some (Writer (w_sink w') (w_wire w') (w_buf w') true true,
              match r with Exc e => if is_oserror e then Ret tt else Exc e | Ret _ => Ret tt end)
    | None => None
    end.

Inductive wop := WWrite (d : bytes) | WLines (ds : list bytes) | WDrain | WClose.

#[export] Instance wop_eq_dec : EqDecision wop.
Proof. solve_decision. Defined.

Definition run_op (fuel : nat) (o : wop) (w : writer) : option (writer * out unit) :=
  match o with WWrite d => write fuel d w | WLines ds => writelines fuel ds w | WDrain => drain fuel w | WClose => close fuel w end.

(** The operations one after the other, with how each ended. *)
Fixpoint run_ops (fuel : nat) (os : list wop) (w : writer) : option (writer * list (out unit)) :=
  match os with
  | [] => Some (w, [])
  | o :: os' =>
      match run_op fuel o w with
      | Some (w', r) => match run_ops fuel os' w' with Some (w2, rs) => Some (w2, r :: rs) | None => None end
      | None => None
      end
  end.

(** The bytes the writer has taken on: those of a [write] on a closed writer are refused. *)
Fixpoint taken (closed : bool) (os : list wop) : bytes :=
  match os with
  | [] => []
  | WWrite d :: os' => (if closed then [] else d) ++ taken closed os'
  | WLines ds :: os' => concat ds ++ taken closed os'
  | WDrain :: os' => taken closed os'
  | WClose :: os' => taken true os'
  end.

Definition w_all (w : writer) : bytes := w_wire w ++ w_buf w.

(** What one flush keeps. *)
Definition w_kept (w w' : writer) : Prop := w_all w' = w_all w /\ w_closed w' = w_closed w /\ length (w_sink w') <= length (w_sink w).

Lemma send_buf_spec w : let '(w', r) := send_buf w in
  w_kept w w' /\
  match r with
  | SentSome => w_buf w' = [] \/ length (w_sink w') < length (w_sink w)
  | SentNone _ | WouldBlock _ => length (w_sink w') < length (w_sink w)
  | SendErr e => True
  end.
Proof.
  unfold send_buf, w_kept, w_all. destruct (w_shut w); [done|].
  destruct (w_sink w) as [|[k|x|x|e] sink]; cbn -[take drop]; rewrite <- app_assoc, take_drop; split_and!; auto; try lia.
  left. by rewrite drop_all.
Qed.

Lemma w_kept_trans w1 w2 w3 : w_kept w1 w2 -> w_kept w2 w3 -> w_kept w1 w3.
Proof. intros (? & ? & ?) (? & ? & ?). split_and!; [congruence..|lia]. Qed.

Lemma try_flush_spec fuel w : length (w_sink w) + 1 < fuel -> exists w' r, try_flush fuel w = Some (w', r) /\ w_kept w w'.
Proof.
  revert w. induction fuel as [|fuel IH]; intros w Hf; [lia|]. cbn [try_flush]. case_bool_decide as Eb; [by eexists _, _|].
  pose proof (send_buf_spec w) as Hs. destruct (send_buf w) as [w1 [|x|x|e]]; destruct Hs as [Hk Hd]; [|by eexists _, _..].
  destruct Hd as [Hd|Hd].
  - exists w1, (Ret tt). destruct fuel as [|fuel]; [lia|]. cbn [try_flush]. by rewrite bool_decide_eq_true_2.
  - destruct (IH w1) as (w' & r & E & Hk'); [lia|]. exists w', r. split; [done|]. by eapply w_kept_trans.
Qed.

Lemma flush_blocking_spec fuel w : length (w_sink w) + 1 < fuel ->
  exists w' r, flush_blocking fuel w = Some (w', r) /\ w_kept w w' /\ (r = Ret tt -> w_buf w' = []).
Proof.
  revert w. induction fuel as [|fuel IH]; intros w Hf; [lia|]. cbn [flush_blocking]. case_bool_decide as Eb; [by eexists _, _|].
  assert (Hgo : forall w1, w_kept w w1 -> w_buf w1 = [] \/ length (w_sink w1) < length (w_sink w) ->
    exists w' r, flush_blocking fuel w1 = Some (w', r) /\ w_kept w w' /\ (r = Ret tt -> w_buf w' = [])).
  { intros w1 Hk [Hd|Hd].
    - exists w1, (Ret tt). destruct fuel as [|fuel']; [lia|]. cbn [flush_blocking]. by rewrite bool_decide_eq_true_2.
    - destruct (IH w1) as (w' & r & E & Hk' & Hr); [lia|]. exists w', r. split_and!; [done|by eapply w_kept_trans|done]. }
  pose proof (send_buf_spec w) as Hs. destruct (send_buf w) as [w1 [|[x|]|[x|]|e]]; destruct Hs as [Hk Hd]; eauto; by eexists _, _.
Qed.

Lemma extend_lines ds w : foldl (λ w d, extend d w) w ds = extend (concat ds) w.
Proof.
  revert w. induction ds as [|d ds IH]; intros w; simpl; [by destruct w; unfold extend; simpl; rewrite app_nil_r|].
  rewrite IH. unfold extend. simpl. by rewrite app_assoc.
Qed.

(** One operation takes on its bytes, keeps their order, and loses none. *)
Lemma run_op_spec fuel o w : length (w_sink w) + 1 < fuel -> exists w' r, run_op fuel o w = Some (w', r) /\
  w_all w' = w_all w ++ taken (w_closed w) [o] /\ w_closed w' = (match o with WClose => true | _ => w_closed w end) /\
  length (w_sink w') <= length (w_sink w) /\ (o = WDrain -> r = Ret tt -> w_buf w' = []).
Proof.
  intros Hf. assert (Hex : forall d, w_all (extend d w) = w_all w ++ d) by (intros d; unfold w_all; simpl; by rewrite app_assoc).
  destruct o as [d|ds| |]; simpl; rewrite ?app_nil_r.
  - unfold write. destruct (w_closed w) eqn:Ec; [eexists _, _; split_and!; [done|by rewrite app_nil_r|done..]|].
    destruct (try_flush_spec fuel (extend d w)) as (w' & r & E & Ha & Hc & Hl); [done|]. exists w', r. rewrite Ha, Hex, Hc. by split_and!.
  - unfold writelines. rewrite extend_lines. destruct (try_flush_spec fuel (extend (concat ds) w)) as (w' & r & E & Ha & Hc & Hl); [done|].
    exists w', r. rewrite Ha, Hex, Hc. by split_and!.
  - destruct (flush_blocking_spec fuel w Hf) as (w' & r & E & (Ha & Hc & Hl) & Hr). exists w', r. by split_and!.
  - unfold close. destruct (w_closed w) eqn:Ec; [by eexists _, _|].
    destruct (flush_blocking_spec fuel (Writer (w_sink w) (w_wire w) (w_buf w) true (w_shut w))) as (w' & r & E & (Ha & Hc & Hl) & Hr); [done|].
    rewrite E. eexists _, _. by split_and!.
Qed.

Lemma run_ops_spec fuel os w : length (w_sink w) + 1 < fuel -> exists w' rs, run_ops fuel os w = Some (w', rs) /\
  w_all w' = w_all w ++ taken (w_closed w) os /\ w_closed w' = w_closed w || bool_decide (WClose ∈ os) /\ length (w_sink w') <= length (w_sink w) /\
  length rs = length os.
Proof.
  revert w. induction os as [|o os IH]; intros w Hf; cbn [run_ops taken].
  - eexists _, _. split_and!; [done|by rewrite app_nil_r| |done..]. rewrite bool_decide_eq_false_2 by set_solver. by rewrite orb_false_r.
  - destruct (run_op_spec fuel o w Hf) as (w1 & r & E & Ha & Hc & Hl & _). rewrite E. destruct (IH w1) as (w' & rs & E' & Ha' & Hc' & Hl' & Hn); [lia|].
    rewrite E'. eexists _, _. split; [done|]. rewrite Ha', Ha, Hc', Hc, <- app_assoc. split_and!; [| |lia|simpl; lia].
    + f_equal. destruct o; simpl; by rewrite ?app_nil_r.
    + destruct (decide (o = WClose)) as [->|Hne]; [by rewrite (bool_decide_eq_true_2 (WClose ∈ _ :: _)), orb_true_r by (by left)|].
      rewrite (bool_decide_ext (WClose ∈ o :: os) (WClose ∈ os)) by (rewrite elem_of_cons; naive_solver). by destruct o.
Qed.

Lemma taken_app c os o : taken c (os ++ [o]) = taken c os ++ taken (c || bool_decide (WClose ∈ os)) [o].
Proof.
  revert c. induction os as [|x os IH]; intros c; cbn [app taken]; [rewrite bool_decide_eq_false_2 by set_solver; by rewrite orb_false_r|].
  assert (x ≠ WClose -> bool_decide (WClose ∈ x :: os) = bool_decide (WClose ∈ os)) as Hx by (intros ?; apply bool_decide_ext; rewrite elem_of_cons; naive_solver).
  destruct x as [d|ds| |]; rewrite IH, ?Hx, <- ?app_assoc by done; try done.
  by rewrite (bool_decide_eq_true_2 (WClose ∈ _ :: _)), orb_true_r by (by left).
Qed.

(** A sink that never reports an error. *)
Definition healthy (s : sending) : bool := match s with SAccept _ | SZero None | SBlock None => true | _ => false end.

Lemma flush_blocking_healthy fuel w w' r : forallb healthy (w_sink w) = true -> w_shut w = false ->
  flush_blocking fuel w = Some (w', r) -> r = Ret tt.
Proof.
  revert w. induction fuel as [|fuel IH]; intros w Hh Hs; [done|]. cbn [flush_blocking]. case_bool_decide; [by intros [= _ <-]|].
  unfold send_buf. rewrite Hs. destruct (w_sink w) as [|[k|[x|]|[x|]|e] sink]; simpl in Hh; try done; by apply IH.
Qed.

Lemma try_flush_healthy fuel w w' r : forallb healthy (w_sink w) = true -> w_shut w = false ->
  try_flush fuel w = Some (w', r) -> forallb healthy (w_sink w') = true /\ w_shut w' = false.
Proof.
  revert w. induction fuel as [|fuel IH]; intros w Hh Hs; [done|]. cbn [try_flush]. case_bool_decide; [by intros [= <- _]|].
  unfold send_buf. rewrite Hs. destruct (w_sink w) as [|[k|[x|]|[x|]|e] sink]; simpl in Hh; try done; [by apply IH..| |]; by intros [= <- _].
Qed.

Lemma flush_blocking_healthy' fuel w w' r : forallb healthy (w_sink w) = true -> w_shut w = false ->
  flush_blocking fuel w = Some (w', r) -> forallb healthy (w_sink w') = true /\ w_shut w' = false.
Proof.
  revert w. induction fuel as [|fuel IH]; intros w Hh Hs; [done|]. cbn [flush_blocking]. case_bool_decide; [by intros [= <- _]|].
  unfold send_buf. rewrite Hs. destruct (w_sink w) as [|[k|[x|]|[x|]|e] sink]; simpl in Hh; try done; by apply IH.
Qed.

Lemma run_ops_healthy fuel os w w' rs : forallb healthy (w_sink w) = true -> w_shut w = false -> WClose ∉ os ->
  run_ops fuel os w = Some (w', rs) -> forallb healthy (w_sink w') = true /\ w_shut w' = false.
Proof.
  revert w rs. induction os as [|o os IH]; intros w rs Hh Hs Hno; simpl; [by intros [= <- _]|].
  destruct (run_op fuel o w) as [[w1 r]|] eqn:E; [|done]. destruct (run_ops fuel os w1) as [[w2 rs2]|] eqn:E2; [|done]. intros [= <- _].
  assert (forallb healthy (w_sink w1) = true /\ w_shut w1 = false) as [H1 H2]; [|apply (IH w1 rs2); auto; set_solver].
  destruct o as [d|ds| |]; simpl in E; [| | |set_solver].
  - unfold write in E. destruct (w_closed w); [by simplify_eq|]. by eapply try_flush_healthy; [..|exact E].
  - unfold writelines in E. rewrite extend_lines in E. by eapply try_flush_healthy; [..|exact E].
  - by eapply flush_blocking_healthy'.
Qed.

(** The writer never loses, repeats or reorders a byte.  After any operations on a new writer,
    whatever the socket did, the bytes on the wire followed by those still buffered are exactly the
    bytes it took on; a [drain] that returned leaves nothing buffered, and so does a [close] of a
    healthy socket.  Every operation ends. *)
Theorem writer_exact fuel sink os o : length sink + 1 < fuel ->
  exists w w' rs r, run_ops fuel os (w_init sink) = Some (w, rs) /\ run_op fuel o w = Some (w', r) /\
    w_wire w' ++ w_buf w' = taken false (os ++ [o]) /\
    (o = WDrain -> r = Ret tt -> w_buf w' = []) /\
    (o = WClose -> WClose ∉ os -> forallb healthy sink = true -> r = Ret tt /\ w_buf w' = [] /\ w_shut w' = true).
Proof.
  intros Hf. destruct (run_ops_spec fuel os (w_init sink) Hf) as (w & rs & E & Ha & Hc & Hl & _). simpl in Hl, Hc.
  destruct (run_op_spec fuel o w ltac:(lia)) as (w' & r & E' & Ha' & _ & _ & Hd). exists w, w', rs, r. split_and!; try done.
  - fold (w_all w'). by rewrite Ha', Ha, Hc, taken_app.
  - intros -> Hno Hh. simpl in E'. unfold close in E'. rewrite Hc, bool_decide_eq_false_2 in E' by done.
    destruct (run_ops_healthy fuel os (w_init sink) w rs Hh eq_refl Hno E) as [H1 H2]. destruct (flush_blocking _ _) as [[w2 r2]|] eqn:Ef; [|done].
    assert (Hr : r2 = Ret tt) by (eapply flush_blocking_healthy; [| |exact Ef]; done). assert (w_buf w2 = []); [|simplify_eq; done].
    destruct (flush_blocking_spec fuel (Writer (w_sink w) (w_wire w) (w_buf w) true (w_shut w))) as (w3 & r3 & E3 & _ & Hb); [simpl; lia|].
    simplify_eq. by apply Hb.
Qed.

(** ** A connection *)

(** Two lines and a rest in three chunks that cut a line, with an empty queue in between. *)
Definition demo_src : list arrival := [Data 97 [98]; Block None; Data 10 [99; 10]; Data 100 []]%Z.
Definition demo_reader : reader := r_init demo_src 4.

Lemma readuntil_reference_witness : exists r' res, readuntil 9 [[10]; [98; 10]]%Z demo_reader = Some (r', res) /\ res = RRet [97; 98; 10]%Z /\
  until_view (sort_by_len [[10]; [98; 10]]%Z) 2 demo_reader r' res
    (until_ref (sort_by_len [[10]; [98; 10]]%Z) (max_seplen [[10]; [98; 10]]%Z) 4 (pending demo_reader) (ending demo_reader)).
Proof.
  destruct (readuntil_reference 9 [[10]; [98; 10]]%Z demo_reader) as (r' & res & E & Hv);
    [discriminate|repeat constructor; discriminate|vm_compute; lia|vm_compute; lia|].
  exists r', res. split; [exact E|]. split; [|exact Hv]. vm_compute in E. congruence.
Defined.

Lemma lines_roundtrip_witness : exists r', lines 12 demo_reader = Some (r', [[97; 98; 10]; [99; 10]; [100]]%Z, Ret tt) /\ at_eof r' = true.
Proof.
  apply (lines_roundtrip 12 [[97; 98]; [99]]%Z [100]%Z demo_reader); [simpl; lia| |reflexivity|reflexivity|vm_compute; lia].
  repeat constructor; simpl; set_solver by lia.
Defined.

Lemma readexactly_exact_witness : exists r', readexactly 9 3 demo_reader = Some (r', RRet [97; 98; 10]%Z) /\ pending r' = [99; 10; 100]%Z.
Proof.
  destruct (readexactly_exact 9 3 demo_reader) as (r' & res & E & Hv); [simpl; lia|vm_compute; lia|].
  exists r'. vm_compute in E. injection E as E1 E2. subst res. split; [subst r'; reflexivity|]. exact (proj1 (proj2 (proj2 Hv))).
Defined.

Lemma read_prefix_witness : exists r', read 9 5 demo_reader = Some (r', RRet [97; 98]%Z) /\ pending demo_reader = [97; 98]%Z ++ pending r'.
Proof.
  destruct (read_prefix 9 5 demo_reader) as (r' & res & E & Hv); [simpl; lia|vm_compute; lia|].
  exists r'. vm_compute in E. injection E as E1 E2. subst res. split; [subst r'; reflexivity|]. exact (proj1 Hv).
Defined.

Definition demo_sink : list sending := [SAccept 1; SBlock None; SAccept 0; SZero None].

Lemma writer_exact_witness : exists w w' rs r, run_ops 6 [WWrite [1; 2; 3; 4]; WLines [[5]; [6]]]%Z (w_init demo_sink) = Some (w, rs) /\
  run_op 6 WClose w = Some (w', r) /\ w_buf w' = [] /\ w_shut w' = true.
Proof.
  destruct (writer_exact 6 demo_sink [WWrite [1; 2; 3; 4]; WLines [[5]; [6]]]%Z WClose) as (w & w' & rs & r & E1 & E2 & _ & _ & H); [simpl; lia|].
  exists w, w', rs, r. split; [exact E1|]. split; [exact E2|]. apply H; [reflexivity| |reflexivity].
  apply (bool_decide_unpack _). vm_compute. exact I.
Defined.
