(* ===== verification/PyStr.v ===== *)
(** * Python strings

    The [str] operations the resolver uses, on lists of code points: [split], [strip],
    [splitlines], [startswith], [endswith], [count] and [int], with the lemmas that take a
    rendered text apart again. *)
From Stdlib Require Import Ascii.
From S2P Require Import Prelude.
Local Open Scope Z_scope.

Abbreviation pystr := (list Z).

(** A literal. *)
Definition str (s : string) : pystr := map (λ a, Z.of_N (N_of_ascii a)) (String.list_ascii_of_string s).

(** [c.isspace()], and the line boundaries of [splitlines()]. *)
Definition is_space (c : Z) : bool :=
  (9 <=? c) && (c <=? 13) || (28 <=? c) && (c <=? 32) || (c =? 133) || (c =? 160) || (c =? 5760) ||
  (8192 <=? c) && (c <=? 8202) || (c =? 8232) || (c =? 8233) || (c =? 8239) || (c =? 8287) || (c =? 12288).
Definition is_break (c : Z) : bool :=
  (10 <=? c) && (c <=? 13) || (28 <=? c) && (c <=? 30) || (c =? 133) || (c =? 8232) || (c =? 8233).

(** [s.lstrip()], [s.strip()], [s.rstrip(c)] *)
Fixpoint lstrip (s : pystr) : pystr := match s with c :: s' => if is_space c then lstrip s' else s | [] => [] end.
Definition strip (s : pystr) : pystr := reverse (lstrip (reverse (lstrip s))).
Fixpoint lstrip_char (x : Z) (s : pystr) : pystr := match s with c :: s' => if c =? x then lstrip_char x s' else s | [] => [] end.
Definition rstrip_char (x : Z) (s : pystr) : pystr := reverse (lstrip_char x (reverse s)).

(** [s.split(c, 1)[0]] and, when [c] occurs, [s.split(c, 1)[1]] *)
Fixpoint before (x : Z) (s : pystr) : pystr := match s with c :: s' => if c =? x then [] else c :: before x s' | [] => [] end.
Fixpoint after (x : Z) (s : pystr) : pystr := match s with c :: s' => if c =? x then s' else after x s' | [] => [] end.

(** [s.split()] *)
Definition flush (acc : pystr) : list pystr := match acc with [] => [] | _ => [acc] end.
Fixpoint split_go (acc s : pystr) : list pystr :=
  match s with
  | [] => flush acc
  | c :: s' => if is_space c then flush acc ++ split_go [] s' else split_go (acc ++ [c]) s'
  end.
Definition split (s : pystr) : list pystr := split_go [] s.

(** [s.splitlines()] *)
Fixpoint splitlines_go (acc s : pystr) : list pystr :=
  match s with
  | [] => flush acc
  | c :: s' =>
      if is_break c then
        acc :: match s' with d :: s'' => if (c =? 13) && (d =? 10) then splitlines_go [] s'' else splitlines_go [] s' | [] => [] end
      else splitlines_go (acc ++ [c]) s'
  end.
Definition splitlines (s : pystr) : list pystr := splitlines_go [] s.

Definition startswith (p s : pystr) : bool := bool_decide (p `prefix_of` s).
Definition endswith_char (x : Z) (s : pystr) : bool := match last s with Some c => c =? x | None => false end.
Definition count_char (x : Z) (s : pystr) : nat := length (filter (λ c, c = x) s).

(** [int(s)] on ASCII text: an optional sign, digits, single underscores between digits; [None] for
    [ValueError]. *)
Definition digit (c : Z) : option Z := if (48 <=? c) && (c <=? 57) then Some (c - 48) else None.
Fixpoint digits (acc : Z) (after_digit : bool) (s : pystr) : option Z :=
  match s with
  | [] => if after_digit then Some acc else None
  | c :: s' =>
      match digit c with
      | Some d => digits (acc * 10 + d) true s'
      | None => if (c =? 95) && after_digit then digits acc false s' else None
      end
  end.
Definition py_int (s : pystr) : option Z :=
  match strip s with
  | 45 :: s' => Z.opp <$> digits 0 false s'
  | 43 :: s' => digits 0 false s'
  | s' => digits 0 false s'
  end.

(** ** Taking rendered text apart *)

(** A word: not empty, no white space. *)
Definition word (s : pystr) : Prop := s ≠ [] /\ Forall (λ c, is_space c = false) s.

Lemma space_of_break c : is_break c = true -> is_space c = true.
Proof. unfold is_break, is_space. rewrite !orb_true_iff, !andb_true_iff, !Z.leb_le, !Z.eqb_eq. lia. Qed.

(** Words with one space between them. *)
Fixpoint join (ws : list pystr) : pystr :=
  match ws with [] => [] | [w] => w | w :: ws' => w ++ 32 :: join ws' end.

Lemma split_go_word acc w s : Forall (λ c, is_space c = false) w -> split_go acc (w ++ s) = split_go (acc ++ w) s.
Proof.
  revert acc. induction w as [|c w IH]; intros acc Hw; simpl; [by rewrite app_nil_r|]. apply Forall_cons in Hw as [-> Hw].
  rewrite IH, <- app_assoc; done.
Qed.

Lemma split_join ws : Forall word ws -> split (join ws) = ws.
Proof.
  unfold split. induction ws as [|w ws IH]; intros Hw; [done|]. apply Forall_cons in Hw as [[Hne Hs] Hw].
  assert (flush w = [w]) as Hfl by (by destruct w).
  destruct ws as [|w2 ws].
  - simpl. rewrite <- (app_nil_r w) at 1. rewrite split_go_word by done. simpl. done.
  - change (join (w :: w2 :: ws)) with (w ++ 32 :: join (w2 :: ws)). rewrite split_go_word by done. simpl split_go at 1. rewrite Hfl.
    simpl. f_equal. by apply IH.
Qed.

Lemma before_absent x s : x ∉ s -> before x s = s.
Proof.
  induction s as [|c s IH]; intros Hx; simpl; [done|]. destruct (Z.eqb_spec c x) as [->|]; [set_solver|]. rewrite IH; set_solver.
Qed.

Lemma lstrip_word w s : word w -> lstrip (w ++ s) = w ++ s.
Proof. intros [Hne Hw]. destruct w as [|c w]; [done|]. simpl. by apply Forall_cons in Hw as [-> _]. Qed.

Lemma word_reverse w : word w -> word (reverse w).
Proof.
  intros [Hne Hw]. split; [|by apply Forall_reverse]. intros E. apply (f_equal reverse) in E. rewrite reverse_involutive in E. done.
Qed.

(** A text that begins and ends with a word is left as it is by [strip]. *)
Lemma join_ends ws : ws ≠ [] -> Forall word ws -> exists w1 s1 w2 s2, join ws = w1 ++ s1 /\ word w1 /\ join ws = s2 ++ w2 /\ word w2.
Proof.
  induction ws as [|w ws IH]; [done|]. intros _ Hw. apply Forall_cons in Hw as [Hw Hws]. destruct ws as [|w2 ws].
  - exists w, [], w, []. simpl. by rewrite app_nil_r.
  - destruct IH as (_ & _ & v & s2 & _ & _ & E & Hv); [done..|]. change (join (w :: w2 :: ws)) with (w ++ 32 :: join (w2 :: ws)).
    exists w, (32 :: join (w2 :: ws)), v, (w ++ 32 :: s2). rewrite E, <- app_assoc. done.
Qed.

Lemma strip_join ws : Forall word ws -> strip (join ws) = join ws.
Proof.
  intros Hw. destruct (decide (ws = [])) as [->|Hne]; [done|]. destruct (join_ends ws Hne Hw) as (w1 & s1 & w2 & s2 & E1 & H1 & E2 & H2).
  unfold strip. rewrite E1, lstrip_word, <- E1, E2, reverse_app, lstrip_word, <- reverse_app, reverse_involutive by auto using word_reverse. done.
Qed.

Lemma splitlines_go_line acc l s : Forall (λ c, is_break c = false) l -> splitlines_go acc (l ++ 10 :: s) = (acc ++ l) :: splitlines_go [] s.
Proof.
  revert acc. induction l as [|c l IH]; intros acc Hl; simpl.
  - rewrite app_nil_r. by destruct s.
  - apply Forall_cons in Hl as [-> Hl]. rewrite IH, <- app_assoc; done.
Qed.

Lemma splitlines_concat ls : Forall (Forall (λ c, is_break c = false)) ls -> splitlines (concat (map (λ l, l ++ [10]) ls)) = ls.
Proof.
  unfold splitlines. induction ls as [|l ls IH]; intros Hl; [done|]. apply Forall_cons in Hl as [Hl Hls]. simpl. rewrite <- app_assoc.
  change ([10] ++ concat (map (λ l, l ++ [10]) ls)) with (10 :: concat (map (λ l, l ++ [10]) ls)). rewrite splitlines_go_line by done. by rewrite IH.
Qed.

Lemma join_forall (P : Z -> Prop) ws : P 32 -> Forall (Forall P) ws -> Forall P (join ws).
Proof.
  intros H32. induction ws as [|w ws IH]; intros Hw; [constructor|]. apply Forall_cons in Hw as [Hw Hws]. destruct ws as [|w2 ws]; [done|].
  change (join (w :: w2 :: ws)) with (w ++ 32 :: join (w2 :: ws)). apply Forall_app. split; [done|]. constructor; [done|]. by apply IH.
Qed.

(** [startswith] and [strip] on a literal at the front. *)
Lemma startswith_app p s : startswith p (p ++ s) = true.
Proof. unfold startswith. apply bool_decide_eq_true_2. by exists s. Qed.
