(* ===== verification/DnsResolver.v ===== *)
(** * The DNS resolver

    Models [src/src/stackweave/monkey/dns.py] over the wire protocol of DnsProto.v: the parsers of
    [resolv.conf] and [hosts], the search list, the result cache, the queries with their fall-through
    over candidates and nameservers, and [getaddrinfo].  The class [Net] lists what the module calls
    and does not contain: sockets, the clock, the random transaction id, files, the C library's
    resolver, and text tables of Python (case mapping, codecs).  The two fibers of [_resolve_dual]
    run one after the other, in either order; they share only the caches, under different keys.
    Times are microseconds.  [_patch_dns] and the reverse lookups only rebind or offload a call. *)
From S2P Require Import Prelude NetSocket DnsProto PyStr.
Local Open Scope Z_scope.

Definition AF_INET : Z := 2.
Definition AF_INET6 : Z := 10.
Definition AF_UNSPEC : Z := 0.
Definition SOCK_STREAM : Z := 1.
Definition SOCK_DGRAM : Z := 2.
Definition SOCK_RAW : Z := 3.
Definition IPPROTO_TCP : Z := 6.
Definition IPPROTO_UDP : Z := 17.
Definition AI_NUMERICHOST : Z := 4.
Definition EAI_NONAME : Z := -2.
Definition EAI_FAMILY : Z := -6.

(** An address: from a DNS record, or text. *)
Inductive raddr := Wire (a : addr) | Text (s : pystr).

#[export] Instance raddr_eq_dec : EqDecision raddr.
Proof. solve_decision. Defined.

(** A row of [getaddrinfo]: family, socket type, protocol, address and port; the sockaddr of
    [AF_INET6] has two more zeros. *)
Record airow := AiRow { ai_family : Z; ai_type : Z; ai_proto : Z; ai_addr : raddr; ai_port : Z }.

Inductive port := PInt (n : Z) | PStr (s : pystr) | PNone.
Inductive ghost := GNone | GBytes (b : bytes) | GStr (s : pystr).

Class Net (K : Type) := {
  v_now : K -> Z;
  v_open : K -> gset Z;
  v_random : K -> K * Z;
  v_socket : Z -> io K Z;
  v_settimeout : Z -> Z -> io K unit;
  v_sendto : Z -> bytes -> pystr -> io K unit;
  v_recvfrom : Z -> Z -> io K bytes;
  v_close : Z -> io K unit;
  v_libc : pystr -> Z -> io K (list pystr);
  v_getaddrinfo : ghost -> port -> Z -> Z -> Z -> Z -> io K (list airow);
  v_file : pystr -> K -> option (list bytes);
  v_literal : pystr -> option Z;
  v_lower : pystr -> pystr;
  v_idna : pystr -> out bytes;
  v_decode : bytes -> pystr
}.

(** The module's globals. *)
Record rst (K : Type) := Rst {
  d_resolvers : option (list pystr); d_search : option (list pystr * Z); d_hosts : option (gmap pystr (list pystr));
  d_cache : gmap (pystr * Z) (list raddr * Z); d_k : K
}.
Arguments Rst {K} _ _ _ _ _.
Arguments d_resolvers {K} _.
Arguments d_search {K} _.
Arguments d_hosts {K} _.
Arguments d_cache {K} _.
Arguments d_k {K} _.

Definition DNS_TIMEOUT : Z := 2000000.
Definition DNS_CACHE_TTL : Z := 60000000.

(** ** The configuration *)

(** A line of a configuration file without its comments. *)
Definition conf_line (l : pystr) : pystr := strip (before 59 (before 35 l)).

Definition resolver_line (nss : list pystr) (l : pystr) : list pystr :=
  let line := conf_line l in
  if startswith (str "nameserver") line then match split line with _ :: ns :: _ => nss ++ [ns] | _ => nss end else nss.

(** [hosts.setdefault(nm.lower(), []).append(addr)], and one line of the hosts file. *)
Definition add_name (lower : pystr -> pystr) (addr : pystr) (h : gmap pystr (list pystr)) (n : pystr) : gmap pystr (list pystr) :=
  <[lower n := default [] (h !! lower n) ++ [addr]]> h.
Definition hosts_line (lower : pystr -> pystr) (hosts : gmap pystr (list pystr)) (l : pystr) : gmap pystr (list pystr) :=
  match split (strip (before 35 l)) with
  | addr :: nm :: nms => foldl (add_name lower addr) hosts (nm :: nms)
  | _ => hosts
  end.

(** One option word, and one line, for [_load_search_conf]. *)
Definition option_word (ndots : Z) (opt : pystr) : Z :=
  if startswith (str "ndots:") opt then default ndots (py_int (after 58 opt)) else ndots.
Definition search_line (s : list pystr * Z) (l : pystr) : list pystr * Z :=
  match split (conf_line l) with
  | [] => s
  | kw :: args =>
      if bool_decide (kw = str "search") && negb (bool_decide (args = [])) then (args, s.2)
      else if bool_decide (kw = str "domain") && negb (bool_decide (args = [])) then (take 1 args, s.2)
      else if bool_decide (kw = str "options") then (s.1, foldl option_word s.2 args)
      else s
  end.
Definition clamp (ndots : Z) : Z := if ndots <? 0 then 0 else if 15 <? ndots then 15 else ndots.

(** [_candidate_names(name)] for a given configuration. *)
Definition candidates (conf : list pystr * Z) (name : pystr) : list pystr :=
  let '(search, ndots) := conf in
  if bool_decide (search = []) || endswith_char 46 name then [name]
  else
    let has_ndots := ndots <=? Z.of_nat (count_char 46 name) in
    (if has_ndots then [name] else []) ++ map (λ suffix, name ++ 46 :: rstrip_char 46 suffix) search ++ (if has_ndots then [] else [name]).

Section resolver.
Context {K : Type} `{!Net K}.

(** ** The monad *)

Definition rio (A : Type) : Type := rst K -> rst K * out A.
Definition rret {A} (x : A) : rio A := λ s, (s, Ret x).
Definition rraise {A} (e : pyexc) : rio A := λ s, (s, Exc e).
Definition rbind {A B} (m : rio A) (f : A -> rio B) : rio B :=
  λ s, match m s with (s', Ret x) => f x s' | (s', Exc e) => (s', Exc e) end.
Definition sys {A} (m : io K A) : rio A :=
  λ s, let '(k, r) := m (d_k s) in (Rst (d_resolvers s) (d_search s) (d_hosts s) (d_cache s) k, r).

Local Notation "'let!' x := m 'in' k" := (rbind m (λ x, k)) (at level 200, x name, k at level 200).

Definition resolv_conf_paths : list pystr := [str "/etc/resolv.conf"].
Definition hosts_file_paths : list pystr := [str "/etc/hosts"].

(** [_read_small_file(path)] *)
Definition read_small_file (path : pystr) (k : K) : pystr :=
  match v_file path k with None => [] | Some chunks => v_decode (concat chunks) end.

(** [_load_resolvers()] *)
Fixpoint load_resolvers (paths : list pystr) (k : K) : list pystr :=
  match paths with
  | [] => []
  | path :: paths' =>
      match foldl resolver_line [] (splitlines (read_small_file path k)) with
      | [] => load_resolvers paths' k
      | nss => nss
      end
  end.

(** [_load_hosts()] *)
Fixpoint load_hosts (paths : list pystr) (k : K) : gmap pystr (list pystr) :=
  match paths with
  | [] => ∅
  | path :: paths' =>
      let hosts := foldl (hosts_line v_lower) ∅ (splitlines (read_small_file path k)) in
      if bool_decide (hosts = ∅) then load_hosts paths' k else hosts
  end.

(** [_load_search_conf()] *)
Fixpoint load_search (paths : list pystr) (k : K) : list pystr * Z :=
  match paths with
  | [] => ([], 1)
  | path :: paths' =>
      match read_small_file path k with
      | [] => load_search paths' k
      | text => foldl search_line ([], 1) (splitlines text)
      end
  end.
Definition load_search_conf (k : K) : list pystr * Z :=
  let '(search, ndots) := load_search resolv_conf_paths k in (search, clamp ndots).

(** [_get_resolvers()], [_get_hosts()], [_get_search_conf()] *)
Definition get_resolvers : rio (list pystr) := λ s,
  match d_resolvers s with
  | Some r => (s, Ret r)
  | None => let r := load_resolvers resolv_conf_paths (d_k s) in (Rst (Some r) (d_search s) (d_hosts s) (d_cache s) (d_k s), Ret r)
  end.
Definition get_hosts : rio (gmap pystr (list pystr)) := λ s,
  match d_hosts s with
  | Some h => (s, Ret h)
  | None => let h := load_hosts hosts_file_paths (d_k s) in (Rst (d_resolvers s) (d_search s) (Some h) (d_cache s) (d_k s), Ret h)
  end.
Definition get_search_conf : rio (list pystr * Z) := λ s,
  match d_search s with
  | Some c => (s, Ret c)
  | None => let c := load_search_conf (d_k s) in (Rst (d_resolvers s) (Some c) (d_hosts s) (d_cache s) (d_k s), Ret c)
  end.
Definition candidate_names (name : pystr) : rio (list pystr) := let! c := get_search_conf in rret (candidates c name).

(** ** Queries *)

(** [_is_ip_literal(host)] *)
Definition is_ip_literal (h : pystr) : option Z := v_literal (before 37 h).

(** [try: m finally: s.close()] *)
Definition finally_close {A} (fd : Z) (m : rio A) : rio A := λ s,
  let '(s1, r) := m s in
  match sys (v_close fd) s1 with (s2, Ret _) => (s2, r) | (s2, Exc e) => (s2, Exc e) end.

(** [_query_nameserver(packet, txn, ns, timeout)] *)
Definition query_nameserver (packet : bytes) (txn : Z) (ns : pystr) (timeout : Z) : rio (list raddr) :=
  match is_ip_literal ns with
  | None => rraise (OSError "non-IP nameserver")
  | Some af =>
      let! fd := sys (v_socket af) in
      finally_close fd
        (let! _ := sys (v_settimeout fd timeout) in
         let! _ := sys (v_sendto fd packet ns) in
         let! data := sys (v_recvfrom fd 4096) in
         λ s, (s, match parse_dns_answer data txn with Ret l => Ret (Wire <$> l) | Exc e => Exc e end))
  end.

(** [_resolve_via_libc(name, qtype)] *)
Definition resolve_via_libc (name : pystr) (qtype : Z) : rio (list raddr) := λ s,
  match sys (v_libc name (if qtype =? QTYPE_A then AF_INET else AF_INET6)) s with
  | (s', Ret l) => (s', Ret (Text <$> l))
  | (s', Exc (GaiError _ _)) => (s', Ret [])
  | (s', Exc e) => (s', Exc e)
  end.

(** The inner loop of [_resolve_qtype]: the answer of the first nameserver that gives one; [None]
    when all failed, with the last error. *)
Fixpoint ask (packet : bytes) (txn : Z) (nss : list pystr) (last_err : option pyexc) : rio (option (list raddr) * option pyexc) := λ s,
  match nss with
  | [] => (s, Ret (None, last_err))
  | ns :: nss' =>
      match query_nameserver packet txn ns DNS_TIMEOUT s with
      | (s', Ret addrs) => (s', Ret (Some addrs, last_err))
      | (s', Exc e) => if is_oserror e then ask packet txn nss' (Some e) s' else (s', Exc e)
      end
  end.

(** [_build_query(cand, qtype)] with a fresh transaction id. *)
Definition build (cand : pystr) (qtype : Z) : rio (Z * bytes) := λ s,
  let '(k, txn) := v_random (d_k s) in
  (Rst (d_resolvers s) (d_search s) (d_hosts s) (d_cache s) k, build_query v_idna txn (HStr cand) qtype).

(** The outer loop: the first non-empty answer, whether some answer was empty, the last error. *)
Fixpoint try_candidates (cands : list pystr) (qtype : Z) (nss : list pystr) (nx : bool) (last_err : option pyexc)
    : rio (option (list raddr) * bool * option pyexc) :=
  match cands with
  | [] => rret (None, nx, last_err)
  | cand :: cands' =>
      let! q := build cand qtype in
      let! r := ask q.2 q.1 nss last_err in
      match r with
      | (None, le) => try_candidates cands' qtype nss nx le
      | (Some [], le) => try_candidates cands' qtype nss true le
      | (Some addrs, le) => rret (Some addrs, nx, le)
      end
  end.

Definition cache_put (key : pystr * Z) (addrs : list raddr) (expire : Z) : rio (list raddr) := λ s,
  (Rst (d_resolvers s) (d_search s) (d_hosts s) (<[key := (addrs, expire)]> (d_cache s)) (d_k s), Ret addrs).

(** [_resolve_qtype(name, qtype)] *)
Definition resolve_qtype (name : pystr) (qtype : Z) : rio (list raddr) := λ s,
  let key := (v_lower name, qtype) in
  let now := v_now (d_k s) in
  let miss :=
    let! nss := get_resolvers in
    match nss with
    | [] => let! addrs := resolve_via_libc name qtype in cache_put key addrs (now + DNS_CACHE_TTL)
    | _ =>
        let! cands := candidate_names name in
        let! r := try_candidates cands qtype nss false None in
        match r with
        | (Some addrs, _, _) => cache_put key addrs (now + DNS_CACHE_TTL)
        | (None, true, _) => cache_put key [] (now + DNS_CACHE_TTL)
        | (None, false, last_err) =>
            let! addrs := resolve_via_libc name qtype in
            match addrs with
            | [] => rraise (default (OSError "no DNS nameservers") last_err)
            | _ => cache_put key addrs (now + DNS_CACHE_TTL)
            end
        end
    end in
  match d_cache s !! key with
  | Some (addrs, expire) => if now <? expire then (s, Ret addrs) else miss s
  | None => miss s
  end.

(** [runner(idx, qtype)] of [_resolve_dual]: [except Exception] gives no address. *)
Definition runner (name : pystr) (qtype : Z) : rio (list raddr) := λ s,
  match resolve_qtype name qtype s with (s', Ret l) => (s', Ret l) | (s', Exc _) => (s', Ret []) end.

(** [_resolve_dual(name, want_v4, want_v6)]; [v6_first] is the order in which the fibers ran. *)
Definition resolve_dual (v6_first : bool) (name : pystr) (want_v4 want_v6 : bool) : rio (list (Z * raddr)) :=
  if want_v4 && negb want_v6 then let! l := resolve_qtype name QTYPE_A in rret ((AF_INET,.) <$> l)
  else if want_v6 && negb want_v4 then let! l := resolve_qtype name QTYPE_AAAA in rret ((AF_INET6,.) <$> l)
  else
    let! r := (if v6_first
               then let! b := runner name QTYPE_AAAA in let! a := runner name QTYPE_A in rret (a, b)
               else let! a := runner name QTYPE_A in let! b := runner name QTYPE_AAAA in rret (a, b)) in
    rret (((AF_INET,.) <$> r.1) ++ ((AF_INET6,.) <$> r.2)).

(** ** [getaddrinfo] *)

Definition af_wanted (family candidate : Z) : bool := (family =? 0) || (family =? candidate) || (family =? AF_UNSPEC).

(** [_socktype_proto_rows(socktype, proto)] *)
Definition default_proto (st pr : Z) : Z :=
  if negb (pr =? 0) then pr else if st =? SOCK_STREAM then IPPROTO_TCP else if st =? SOCK_DGRAM then IPPROTO_UDP else 0.
Definition proto_table : list (Z * Z) := [(SOCK_STREAM, IPPROTO_TCP); (SOCK_DGRAM, IPPROTO_UDP); (SOCK_RAW, 0)].
Fixpoint first_row (proto : Z) (table : list (Z * Z)) : list (Z * Z) :=
  match table with
  | [] => [(SOCK_RAW, proto)]
  | (st, dp) :: table' => if (dp =? 0) || (dp =? proto) then [(st, proto)] else first_row proto table'
  end.
Definition socktype_proto_rows (socktype proto : Z) : list (Z * Z) :=
  if negb (socktype =? 0) then [(socktype, default_proto socktype proto)]
  else if negb (proto =? 0) then first_row proto proto_table
  else proto_table.

(** [str(e)] *)
Definition exc_msg (e : pyexc) : string := match e with OSError m | TimeoutError m | GaiError _ m => m | _ => EmptyString end.

Definition no_name {A} : rio A := rraise (GaiError EAI_NONAME "Name or service not known").

(** The addresses of a host name: literal, hosts file, DNS. *)
Definition host_pairs (v6_first : bool) (host : pystr) (family flags : Z) : rio (list (Z * raddr)) :=
  match is_ip_literal host with
  | Some lit_af =>
      if af_wanted family lit_af then rret [(lit_af, Text host)] else rraise (GaiError EAI_FAMILY "Address family mismatch")
  | None =>
      if negb (Z.land flags AI_NUMERICHOST =? 0) then no_name
      else
        let! hosts := get_hosts in
        match hosts !! v_lower host with
        | Some local =>
            rret (omap (λ a, match is_ip_literal a with
                             | Some aaf => if af_wanted family aaf then Some (aaf, Text a) else None
                             | None => None
                             end) local)
        | None => λ s,
            match resolve_dual v6_first host (af_wanted family AF_INET) (af_wanted family AF_INET6) s with
            | (s', Exc e) => (s', Exc (if is_oserror e then GaiError EAI_NONAME (exc_msg e) else e))
            | r => r
            end
        end
  end.

Definition expand (pairs : list (Z * raddr)) (rows : list (Z * Z)) (port : Z) : list airow :=
  flat_map (λ p, map (λ r, AiRow p.1 r.1 r.2 p.2 port) rows) pairs.

(** [_patched_getaddrinfo(host, port, family, type, proto, flags)] after the port is a number. *)
Definition getaddrinfo_port (v6_first : bool) (h : ghost) (port family type proto flags : Z) : rio (list airow) :=
  let go host :=
    let! pairs := host_pairs v6_first (if bool_decide (host = []) then str (if family =? AF_INET6 then "::" else "0.0.0.0") else host) family flags in
    match pairs with [] => no_name | _ => rret (expand pairs (socktype_proto_rows type proto) port) end in
  match h with
  | GNone => go []
  | GStr s => go s
  | GBytes b => if forallb (λ c, c <? 128) b then go b else sys (v_getaddrinfo h (PInt port) family type proto flags)
  end.

Definition patched_getaddrinfo (v6_first : bool) (h : ghost) (p : port) (family type proto flags : Z) : rio (list airow) :=
  match p with
  | PInt n => getaddrinfo_port v6_first h n family type proto flags
  | PNone => getaddrinfo_port v6_first h 0 family type proto flags
  | PStr s =>
      match py_int s with
      | Some n => getaddrinfo_port v6_first h n family type proto flags
      | None => sys (v_getaddrinfo h p family type proto flags)
      end
  end.

(** [_patched_gethostbyname(name)] and [_patched_gethostbyname_ex(name)] *)
Definition patched_gethostbyname (name : ghost) : rio (option raddr) :=
  let! infos := patched_getaddrinfo false name (PInt 0) AF_INET SOCK_STREAM 0 0 in rret (ai_addr <$> head infos).
Definition patched_gethostbyname_ex (name : ghost) : rio (list raddr) :=
  let! infos := patched_getaddrinfo false name (PInt 0) AF_INET SOCK_STREAM 0 0 in rret (ai_addr <$> infos).

(** ** The cache *)

(** The result of a lookup is the cache's: what [resolve_qtype] returns is stored under the lower-case
    name with an expiry after the call's start. *)
Lemma resolve_stores name qtype s s' addrs : resolve_qtype name qtype s = (s', Ret addrs) ->
  exists expire, d_cache s' !! (v_lower name, qtype) = Some (addrs, expire) /\ v_now (d_k s) < expire /\
    (expire = v_now (d_k s) + DNS_CACHE_TTL \/ s' = s /\ d_cache s !! (v_lower name, qtype) = Some (addrs, expire)).
Proof.
  unfold resolve_qtype. set (key := (v_lower name, qtype)). set (now := v_now (d_k s)).
  assert (Hput : forall l s1 s2 x, cache_put key l (now + DNS_CACHE_TTL) s1 = (s2, Ret x) -> x = l /\ d_cache s2 !! key = Some (l, now + DNS_CACHE_TTL)).
  { intros l s1 s2 x [= <- <-]. simpl. by rewrite lookup_insert_eq. }
  assert (Hdone : forall l s1, cache_put key l (now + DNS_CACHE_TTL) s1 = (s', Ret addrs) ->
    exists expire, d_cache s' !! key = Some (addrs, expire) /\ now < expire /\ (expire = now + DNS_CACHE_TTL \/ s' = s /\ d_cache s !! key = Some (addrs, expire))).
  { intros l s1 [-> E]%Hput. exists (now + DNS_CACHE_TTL). unfold DNS_CACHE_TTL in *. split_and!; [done|lia|by left]. }
  set (miss := rbind get_resolvers _). assert (Hmiss : miss s = (s', Ret addrs) ->
    exists expire, d_cache s' !! key = Some (addrs, expire) /\ now < expire /\ (expire = now + DNS_CACHE_TTL \/ s' = s /\ d_cache s !! key = Some (addrs, expire))).
  { unfold miss, rbind. destruct (get_resolvers s) as [s1 [nss|e]]; [|done]. destruct nss as [|ns nss].
    - destruct (resolve_via_libc name qtype s1) as [s2 [l|e]]; [|done]. apply Hdone.
    - destruct (candidate_names name s1) as [s2 [cands|e]]; [|done].
      destruct (try_candidates cands qtype (ns :: nss) false None s2) as [s3 [[[[l|] nx] le]|e]]; [apply Hdone| |done].
      destruct nx; [apply Hdone|]. destruct (resolve_via_libc name qtype s3) as [s4 [l|e]]; [|done]. destruct l; [done|apply Hdone]. }
  destruct (d_cache s !! key) as [[l expire]|] eqn:Ec; [|exact Hmiss]. destruct (Z.ltb_spec now expire) as [Hlt|]; [|exact Hmiss].
  intros [= <- <-]. eauto 10.
Qed.

(** A lookup that returned is answered from the cache until its entry expires, within the time to
    live: the same addresses, for every spelling of the name with the same lower case, without
    touching the network or any other state. *)
Theorem resolve_cached name name' qtype s s' addrs : resolve_qtype name qtype s = (s', Ret addrs) -> v_lower name' = v_lower name ->
  exists expire, v_now (d_k s) < expire /\
    (d_cache s !! (v_lower name, qtype) = None -> expire = v_now (d_k s) + DNS_CACHE_TTL) /\
    forall k, v_now k < expire ->
      let t := Rst (d_resolvers s') (d_search s') (d_hosts s') (d_cache s') k in resolve_qtype name' qtype t = (t, Ret addrs).
Proof.
  intros (expire & Ec & Hnow & Hex)%resolve_stores El. exists expire. split_and!; [done|intros E; destruct Hex as [|[_ ?]]; congruence|].
  intros k Hk t. unfold resolve_qtype. simpl. rewrite El, Ec. apply Z.ltb_lt in Hk. by rewrite Hk.
Qed.

(** ** Where answers come from *)

(** [addrs] is what a reply to a query for [cand] says, received from the network and matched to the
    query's transaction. *)
Definition answered (cand : pystr) (qtype : Z) (addrs : list raddr) : Prop :=
  exists txn packet fd k k' data l,
    build_query v_idna txn (HStr cand) qtype = Ret (txn, packet) /\ v_recvfrom fd 4096 k = (k', Ret data) /\
    parse_dns_answer data txn = Ret l /\ addrs = Wire <$> l.

Lemma query_answer packet txn ns s s' addrs : query_nameserver packet txn ns DNS_TIMEOUT s = (s', Ret addrs) ->
  exists fd k k' data l, v_recvfrom fd 4096 k = (k', Ret data) /\ parse_dns_answer data txn = Ret l /\ addrs = Wire <$> l.
Proof.
  unfold query_nameserver, rbind, finally_close, sys. destruct (is_ip_literal ns) as [af|]; [|done].
  destruct (v_socket af (d_k s)) as [k1 [fd|e]]; [|done]. simpl. destruct (v_settimeout fd DNS_TIMEOUT k1) as [k2 [u|e]]; simpl.
  2: { destruct (v_close fd k2) as [k3 []]; done. }
  destruct (v_sendto fd packet ns k2) as [k3 [u'|e]]; simpl; [|by destruct (v_close fd k3) as [k4 []]].
  destruct (v_recvfrom fd 4096 k3) as [k4 [data|e]] eqn:Er; simpl; [|by destruct (v_close fd k4) as [k5 []]].
  destruct (v_close fd k4) as [k5 []]; [|done]. destruct (parse_dns_answer data txn) as [l|e] eqn:Ep; [|done].
  intros [= _ <-]. by exists fd, k3, k4, data, l.
Qed.

Lemma ask_answer packet txn nss le s s' addrs le' : ask packet txn nss le s = (s', Ret (Some addrs, le')) ->
  exists ns s1 s2, ns ∈ nss /\ query_nameserver packet txn ns DNS_TIMEOUT s1 = (s2, Ret addrs).
Proof.
  revert s le. induction nss as [|ns nss IH]; intros s le; simpl; [done|].
  destruct (query_nameserver packet txn ns DNS_TIMEOUT s) as [s1 [l|e]] eqn:E.
  - intros [= _ <- _]. exists ns, s, s1. split; [by left|done].
  - destruct (is_oserror e); [|done]. intros (ns' & s2 & s3 & ? & ?)%IH. exists ns', s2, s3. split; [by right|done].
Qed.

Lemma build_txn txn h qtype txn' packet : build_query v_idna txn h qtype = Ret (txn', packet) -> txn' = txn.
Proof.
  unfold build_query. destruct (encode_query_name v_idna h); [|done]. destruct (encode_labels _); [|done]. by intros [= <- _].
Qed.

Lemma try_answer cands qtype nss nx le s s' addrs nx' le' : try_candidates cands qtype nss nx le s = (s', Ret (Some addrs, nx', le')) ->
  addrs ≠ [] /\ exists cand, cand ∈ cands /\ answered cand qtype addrs.
Proof.
  revert s nx le. induction cands as [|cand cands IH]; intros s nx le; cbn [try_candidates]; [done|]. unfold rbind at 1.
  destruct (build cand qtype s) as [s1 [[txn packet]|e]] eqn:Eb; [|done]. unfold rbind at 1. simpl.
  destruct (ask packet txn nss le s1) as [s2 [[[addrs'|] le1]|e]] eqn:Ea; [| |done].
  - destruct addrs' as [|a l]; [intros [? (c & ? & ?)]%IH; split; [done|]; exists c; split; [by right|done]|].
    intros [= _ <- _ _]. split; [done|]. exists cand. split; [by left|]. apply ask_answer in Ea as (ns & s3 & s4 & _ & Eq).
    apply query_answer in Eq as (fd & k & k' & data & l' & Er & Ep & El). unfold build in Eb. destruct (v_random (d_k s)) as [k0 txn0].
    injection Eb as _ Eb. pose proof (build_txn _ _ _ _ _ Eb) as ->. by exists txn0, packet, fd, k, k', data, l'.
  - intros [? (c & ? & ?)]%IH. split; [done|]. exists c. split; [by right|done].
Qed.

(** ** Families *)









Lemma libc_answer name qtype s s' addrs : resolve_via_libc name qtype s = (s', Ret addrs) -> addrs ≠ [] ->
  exists k k' l, v_libc name (if qtype =? QTYPE_A then AF_INET else AF_INET6) k = (k', Ret l) /\ addrs = Text <$> l.
Proof.
  unfold resolve_via_libc, sys. destruct (v_libc _ _ (d_k s)) as [k' [l|e]] eqn:E; [intros [= _ <-] _; by exists (d_k s), k', l|].
  destruct e; intros [= _ <-]; done.
Qed.

(** Addresses are never made up: on a cache miss, addresses that [_resolve_qtype] returns are those
    of one reply, received from the network, parsed whole and matched to the transaction of a query
    for one of the candidate names; or they are the C library's. *)
Theorem resolve_provenance name qtype s s' addrs : d_cache s !! (v_lower name, qtype) = None ->
  resolve_qtype name qtype s = (s', Ret addrs) -> addrs ≠ [] ->
  (exists cand, cand ∈ candidates (default (load_search_conf (d_k s)) (d_search s)) name /\ answered cand qtype addrs) \/
  (exists k k' l, v_libc name (if qtype =? QTYPE_A then AF_INET else AF_INET6) k = (k', Ret l) /\ addrs = Text <$> l).
Proof.
  intros Ec. unfold resolve_qtype. rewrite Ec. unfold rbind, get_resolvers. set (nss := match d_resolvers s with Some _ => _ | None => _ end).
  assert (exists s1 l, nss = (s1, Ret l) /\ d_search s1 = d_search s /\ d_k s1 = d_k s) as (s1 & l & -> & Es & Ek).
  { unfold nss. destruct (d_resolvers s) as [l|]; [by exists s, l|]. by eexists _, _. }
  destruct l as [|ns l].
  - destruct (resolve_via_libc name qtype s1) as [s2 [l|e]] eqn:El; [|done]. intros [= _ <-] Hne. right. by eapply libc_answer.
  - unfold candidate_names, rbind, get_search_conf. rewrite Es, Ek. set (conf := default _ (d_search s)).
    set (g := match d_search s with Some _ => _ | None => _ end). assert (exists s2, g = (s2, Ret conf)) as [s2 ->].
    { unfold g, conf. destruct (d_search s); simpl; eauto. }
    simpl. destruct (try_candidates _ qtype (ns :: l) false None s2) as [s3 [[[[addrs'|] nx] le]|e]] eqn:Et; [| |done].
    + intros [= _ <-] _. left. by apply try_answer in Et as [_ ?].
    + destruct nx; [by intros [= _ <-]|]. destruct (resolve_via_libc name qtype s3) as [s4 [l'|e]] eqn:El; [|done].
      destruct l' as [|a l']; [done|]. intros [= _ <-] _. right. by eapply libc_answer.
Qed.

(** ** Descriptors *)

(** What the calls do to the open descriptors. *)
Class NetLaws : Prop := {
  nl_socket af k k' r : v_socket af k = (k', r) ->
    match r with Ret fd => fd ∉ v_open k /\ v_open k' = {[fd]} ∪ v_open k | Exc _ => v_open k' = v_open k end;
  nl_close fd k : v_open (v_close fd k).1 = v_open k ∖ {[fd]};
  nl_random k : v_open (v_random k).1 = v_open k;
  nl_settimeout fd t k : v_open (v_settimeout fd t k).1 = v_open k;
  nl_sendto fd d a k : v_open (v_sendto fd d a k).1 = v_open k;
  nl_recvfrom fd n k : v_open (v_recvfrom fd n k).1 = v_open k;
  nl_libc n af k : v_open (v_libc n af k).1 = v_open k;
  nl_getaddrinfo h p f t pr fl k : v_open (v_getaddrinfo h p f t pr fl k).1 = v_open k
}.

Section leak.
Context {NL : NetLaws}.

Definition keeps {A} (m : rio A) : Prop := forall s, v_open (d_k (m s).1) = v_open (d_k s).

Lemma io_keeps_bind {A B} (m : rio A) (f : A -> rio B) : keeps m -> (forall x, keeps (f x)) -> keeps (rbind m f).
Proof. intros Hm Hf s. unfold rbind. specialize (Hm s). destruct (m s) as [s1 [x|e]]; simpl in *; [|done]. by rewrite Hf. Qed.

Lemma keeps_sys {A} (m : io K A) : (forall k, v_open (m k).1 = v_open k) -> keeps (sys m).
Proof. intros Hm s. unfold sys. specialize (Hm (d_k s)). by destruct (m (d_k s)). Qed.

Lemma io_keeps_ret {A} (x : A) : keeps (rret x).
Proof. done. Qed.

Lemma io_keeps_raise {A} e : keeps (@rraise A e).
Proof. done. Qed.

Lemma keeps_resolvers : keeps get_resolvers.
Proof. intros s. unfold get_resolvers. by destruct (d_resolvers s). Qed.

Lemma keeps_hosts : keeps get_hosts.
Proof. intros s. unfold get_hosts. by destruct (d_hosts s). Qed.

Lemma keeps_candidates name : keeps (candidate_names name).
Proof. apply io_keeps_bind; [|done]. intros s. unfold get_search_conf. by destruct (d_search s). Qed.

Lemma keeps_query packet txn ns t : keeps (query_nameserver packet txn ns t).
Proof.
  unfold query_nameserver. destruct (is_ip_literal ns) as [af|]; [|done]. intros s. unfold rbind at 1, sys at 1.
  destruct (v_socket af (d_k s)) as [k1 [fd|e]] eqn:Es; apply nl_socket in Es; simpl in *; [|done]. destruct Es as [Hfd Ho].
  set (s1 := Rst _ _ _ _ k1). set (m := rbind (sys (v_settimeout fd t)) _).
  assert (Hm : keeps m).
  { repeat (apply io_keeps_bind; [apply keeps_sys; intros; first [apply nl_settimeout|apply nl_sendto|apply nl_recvfrom]|intros]). done. }
  unfold finally_close. specialize (Hm s1). destruct (m s1) as [s2 r]. simpl in Hm. unfold sys. pose proof (nl_close fd (d_k s2)) as Hc.
  destruct (v_close fd (d_k s2)) as [k3 [u|e]]; simpl in *; rewrite Hc, Hm, Ho; set_solver.
Qed.

Lemma keeps_libc name qtype : keeps (resolve_via_libc name qtype).
Proof.
  intros s. unfold resolve_via_libc, sys. set (af := if qtype =? QTYPE_A then AF_INET else AF_INET6). pose proof (nl_libc name af (d_k s)) as Hl.
  destruct (v_libc name af (d_k s)) as [k' [l|e]]; simpl in *; [done|]. by destruct e.
Qed.

Lemma keeps_ask packet txn nss le : keeps (ask packet txn nss le).
Proof.
  revert le. induction nss as [|ns nss IH]; intros le s; simpl; [done|]. pose proof (keeps_query packet txn ns DNS_TIMEOUT s) as Hq.
  destruct (query_nameserver packet txn ns DNS_TIMEOUT s) as [s1 [l|e]]; simpl in *; [done|]. destruct (is_oserror e); [|done]. by rewrite IH.
Qed.

Lemma keeps_build cand qtype : keeps (build cand qtype).
Proof. intros s. unfold build. pose proof (nl_random (d_k s)). by destruct (v_random (d_k s)). Qed.

Lemma io_keeps_try cands qtype nss nx le : keeps (try_candidates cands qtype nss nx le).
Proof.
  revert nx le. induction cands as [|c cands IH]; intros nx le; cbn [try_candidates]; [done|]. apply io_keeps_bind; [apply keeps_build|]. intros [txn packet].
  apply io_keeps_bind; [apply keeps_ask|]. intros [[[|a l]|] le']; auto. done.
Qed.

Lemma keeps_qtype name qtype : keeps (resolve_qtype name qtype).
Proof.
  intros s. unfold resolve_qtype. set (miss := rbind get_resolvers _). assert (Hm : keeps miss).
  { apply io_keeps_bind; [apply keeps_resolvers|]. intros [|ns nss].
    - apply io_keeps_bind; [apply keeps_libc|done].
    - apply io_keeps_bind; [apply keeps_candidates|]. intros cands. apply io_keeps_bind; [apply io_keeps_try|]. intros [[[l|] []] le]; [done..|].
      apply io_keeps_bind; [apply keeps_libc|]. by intros []. }
  destruct (d_cache s !! _) as [[l e]|]; [|apply Hm]. destruct (_ <? _); [done|apply Hm].
Qed.

Lemma keeps_runner name qtype : keeps (runner name qtype).
Proof. intros s. unfold runner. pose proof (keeps_qtype name qtype s). by destruct (resolve_qtype name qtype s) as [s1 []]. Qed.

Lemma keeps_dual vf name w4 w6 : keeps (resolve_dual vf name w4 w6).
Proof.
  unfold resolve_dual. destruct (w4 && negb w6); [apply io_keeps_bind; [apply keeps_qtype|done]|].
  destruct (w6 && negb w4); [apply io_keeps_bind; [apply keeps_qtype|done]|]. apply io_keeps_bind; [|done].
  destruct vf; repeat (apply io_keeps_bind; [apply keeps_runner|intros]); done.
Qed.

Lemma keeps_pairs vf host family flags : keeps (host_pairs vf host family flags).
Proof.
  unfold host_pairs. destruct (is_ip_literal host); [by destruct (af_wanted _ _)|]. destruct (negb _); [done|]. apply io_keeps_bind; [apply keeps_hosts|].
  intros hosts. destruct (hosts !! _); [done|]. intros s. pose proof (keeps_dual vf host (af_wanted family AF_INET) (af_wanted family AF_INET6) s) as Hd.
  by destruct (resolve_dual _ _ _ _ s) as [s1 []].
Qed.

(** The resolver leaks no descriptor: whatever fails on the way - a socket call, a server, a reply,
    the close itself - the open descriptors after [getaddrinfo] are those before it. *)
Theorem getaddrinfo_no_leak vf h p family type proto flags s :
  v_open (d_k (patched_getaddrinfo vf h p family type proto flags s).1) = v_open (d_k s).
Proof.
  enough (keeps (patched_getaddrinfo vf h p family type proto flags)) as H by apply H.
  assert (Hg : forall n, keeps (getaddrinfo_port vf h n family type proto flags)).
  { intros n. unfold getaddrinfo_port. destruct h as [|b|x]; [| |]; try (apply io_keeps_bind; [apply keeps_pairs|by intros []]).
    destruct (forallb _ b); [apply io_keeps_bind; [apply keeps_pairs|by intros []]|]. apply keeps_sys. intros. apply nl_getaddrinfo. }
  destruct p as [n|x|]; simpl; [apply Hg| |apply Hg]. destruct (py_int x); [apply Hg|]. apply keeps_sys. intros. apply nl_getaddrinfo.
Qed.
End leak.
End resolver.

(** ** The hosts file *)

(** A hosts file: lines of an address and its names. *)
Definition render_hosts (es : list (pystr * list pystr)) : pystr := concat (map (λ l, l ++ [10]) (map (λ e, join (e.1 :: e.2)) es)).

Definition host_word (w : pystr) : Prop := word w /\ 35 ∉ w.
Definition entry_ok (e : pystr * list pystr) : Prop := host_word e.1 /\ e.2 ≠ [] /\ Forall host_word e.2.

(** The addresses of the lines that list the name, in order. *)
Definition addrs_of (lower : pystr -> pystr) (es : list (pystr * list pystr)) (key : pystr) : list pystr :=
  flat_map (λ e, map (λ _, e.1) (filter (λ n, lower n = key) e.2)) es.

Lemma hosts_line_entry lower h e : entry_ok e ->
  hosts_line lower h (join (e.1 :: e.2)) = foldl (add_name lower e.1) h e.2.
Proof.
  intros ([Hw Ha] & Hne & Hns). assert (Hall : Forall word (e.1 :: e.2)) by (constructor; [done|]; eapply Forall_impl; [exact Hns|]; by intros w []).
  assert (H35 : 35 ∉ join (e.1 :: e.2)).
  { intros Hin. assert (Forall (λ c, c ≠ 35) (join (e.1 :: e.2))) as Hf.
    - apply join_forall; [done|]. constructor; [apply Forall_forall; intros c Hc ->; done|]. eapply Forall_impl; [exact Hns|].
      intros w [_ H]. apply Forall_forall. by intros c Hc ->.
    - rewrite Forall_forall in Hf. by apply (Hf 35). }
  unfold hosts_line. rewrite before_absent, strip_join, split_join by done. by destruct e.2.
Qed.

Lemma add_names_lookup (lower : pystr -> pystr) a ns h key :
  let h' := foldl (add_name lower a) h ns in
  default [] (h' !! key) = default [] (h !! key) ++ map (λ _, a) (filter (λ n, lower n = key) ns) /\ (h !! key ≠ Some [] -> h' !! key ≠ Some []).
Proof.
  revert h. induction ns as [|n ns IH]; intros h; cbn [foldl]; [by rewrite filter_nil, app_nil_r|].
  destruct (IH (add_name lower a h n)) as [E1 E2]. simpl in *. rewrite E1, filter_cons. unfold add_name in *. split.
  - case_decide as Hk; [rewrite Hk, lookup_insert_eq; simpl; by rewrite <- app_assoc|by rewrite lookup_insert_ne].
  - intros Hh. apply E2. destruct (decide (lower n = key)) as [->|]; [|by rewrite lookup_insert_ne]. rewrite lookup_insert_eq. intros [= E].
    by apply app_eq_nil in E as [_ ?].
Qed.

Lemma load_entries lower es h key : Forall entry_ok es ->
  let h' := foldl (hosts_line lower) h (map (λ e, join (e.1 :: e.2)) es) in
  default [] (h' !! key) = default [] (h !! key) ++ addrs_of lower es key /\ (h !! key ≠ Some [] -> h' !! key ≠ Some []).
Proof.
  revert h. induction es as [|e es IH]; intros h Hes; cbn [map foldl]; [by rewrite app_nil_r|]. apply Forall_cons in Hes as [He Hes].
  rewrite hosts_line_entry by done. set (h1 := foldl _ h e.2). destruct (add_names_lookup lower e.1 e.2 h key) as [E1 E2]. fold h1 in E1, E2.
  destruct (IH h1 Hes) as [E3 E4]. simpl in *. rewrite E3, E1, <- app_assoc. auto.
Qed.

Lemma entry_no_break e : entry_ok e -> Forall (λ c, is_break c = false) (join (e.1 :: e.2)).
Proof.
  intros ([[_ Hw] _] & _ & Hns). assert (Hsp : forall w, Forall (λ c, is_space c = false) w -> Forall (λ c, is_break c = false) w).
  { intros w Hf. eapply Forall_impl; [exact Hf|]. intros c Hc. destruct (is_break c) eqn:E; [|done]. apply space_of_break in E. congruence. }
  apply join_forall; [done|]. constructor; [auto|]. eapply Forall_impl; [exact Hns|]. intros w [[_ ?] _]. auto.
Qed.

(** [_load_hosts] reads back what a hosts file says: for every name, in any case, the addresses of
    the lines that list it, in their order; other names have no entry. *)
Theorem hosts_roundtrip {K} `{!Net K} es (k : K) key : Forall entry_ok es -> es ≠ [] -> read_small_file (str "/etc/hosts") k = render_hosts es ->
  load_hosts hosts_file_paths k !! key = match addrs_of v_lower es key with [] => None | l => Some l end.
Proof.
  intros Hes Hne Ef. unfold hosts_file_paths. cbn [load_hosts]. rewrite Ef. unfold render_hosts. rewrite splitlines_concat.
  2: { apply Forall_map. eapply Forall_impl; [exact Hes|]. apply entry_no_break. }
  set (h := foldl _ ∅ _). assert (Hl : forall key, h !! key = match addrs_of v_lower es key with [] => None | l => Some l end).
  { intros key'. destruct (load_entries v_lower es ∅ key' Hes) as [E1 E2]. fold h in E1, E2. rewrite lookup_empty in E1, E2. simpl in E1.
    rewrite <- E1. specialize (E2 ltac:(done)). destruct (h !! key') as [[|x l]|]; done. }
  case_bool_decide as Eh; [|apply Hl]. exfalso. destruct es as [|e es]; [done|]. apply Forall_cons in Hes as [([_ _] & Hn & _) _].
  destruct (e.2) as [|n ns] eqn:En; [done|]. specialize (Hl (v_lower n)). rewrite Eh, lookup_empty in Hl. unfold addrs_of in Hl. simpl in Hl.
  rewrite En, filter_cons, decide_True in Hl by done. done.
Qed.

(** ** A network *)

(** A server at 9.9.9.9 that answers every query, with transaction 7, by an A and an AAAA record. *)
Record demo := Demo { dm_now : Z; dm_open : gset Z; dm_file : list Z }.

Definition demo_reply : bytes :=
  [0; 7; 129; 128; 0; 0; 0; 2; 0; 0; 0; 0] ++
  [0; 0; 1; 0; 1; 0; 0; 0; 60; 0; 4; 1; 2; 3; 4] ++
  [0; 0; 28; 0; 1; 0; 0; 0; 60; 0; 16; 32; 1; 13; 184; 0; 0; 0; 0; 0; 0; 0; 0; 0; 0; 0; 1].

Definition ascii_lower : pystr -> pystr := map (λ c, if (65 <=? c) && (c <=? 90) then c + 32 else c).

#[export] Instance demo_net : Net demo := {
  v_now := dm_now;
  v_open := dm_open;
  v_random k := (k, 7);
  v_socket _ k := (Demo (dm_now k) ({[fresh_fd (dm_open k)]} ∪ dm_open k) (dm_file k), Ret (fresh_fd (dm_open k)));
  v_settimeout _ _ k := (k, Ret tt);
  v_sendto _ _ _ k := (k, Ret tt);
  v_recvfrom _ _ k := (Demo (dm_now k + 100) (dm_open k) (dm_file k), Ret demo_reply);
  v_close fd k := (Demo (dm_now k) (dm_open k ∖ {[fd]}) (dm_file k), Ret tt);
  v_libc _ _ k := (k, Exc (GaiError EAI_NONAME "libc"));
  v_getaddrinfo _ _ _ _ _ _ k := (k, Exc (GaiError EAI_NONAME "libc"));
  v_file p k := if bool_decide (p = str "/etc/hosts") then Some [dm_file k] else Some [str "nameserver 9.9.9.9"];
  v_literal h := if bool_decide (h = str "9.9.9.9") then Some AF_INET else None;
  v_lower := ascii_lower;
  v_idna _ := Exc (ValueError "idna");
  v_decode b := b
}.

#[export] Instance demo_laws : @NetLaws demo demo_net.
Proof. split; try done. intros af k k' r [= <- <-]. simpl. split; [apply fresh_fd_new|done]. Qed.

Definition demo_state : rst demo := Rst None None None ∅ (Demo 5 ∅ []).
Definition demo_v4 : raddr := Wire (Ntoa [1; 2; 3; 4]).
Definition demo_v6 : raddr := Wire (NtopV6 [32; 1; 13; 184; 0; 0; 0; 0; 0; 0; 0; 0; 0; 0; 0; 1]).

(** The answer to the A query keeps the record of the other type: [getaddrinfo] reports an IPv6
    address with the family [AF_INET].  [_parse_dns_answer] is not told the type that was asked for. *)
Theorem getaddrinfo_mixed_answer :
  (patched_getaddrinfo false (GStr (str "host")) (PInt 80) AF_INET SOCK_STREAM 0 0 demo_state).2 =
  Ret [AiRow AF_INET SOCK_STREAM IPPROTO_TCP demo_v4 80; AiRow AF_INET SOCK_STREAM IPPROTO_TCP demo_v6 80].
Proof. vm_compute. reflexivity. Qed.

(** A family that is neither IPv4 nor IPv6, here [AF_UNIX], is refused for a literal, but for a name
    that is looked up both queries are made and IP addresses are returned. *)
Theorem getaddrinfo_foreign_family :
  (patched_getaddrinfo false (GStr (str "9.9.9.9")) (PInt 80) 1 SOCK_STREAM 0 0 demo_state).2 = Exc (GaiError EAI_FAMILY "Address family mismatch") /\
  exists rows, (patched_getaddrinfo false (GStr (str "host")) (PInt 80) 1 SOCK_STREAM 0 0 demo_state).2 = Ret rows /\
    AiRow AF_INET SOCK_STREAM IPPROTO_TCP demo_v4 80 ∈ rows.
Proof. split; [vm_compute; reflexivity|]. eexists. split; [vm_compute; reflexivity|]. by left. Qed.

Lemma resolve_cached_witness : exists s', resolve_qtype (str "Host") QTYPE_A demo_state = (s', Ret [demo_v4; demo_v6]) /\
  let t := Rst (d_resolvers s') (d_search s') (d_hosts s') (d_cache s') (Demo 60000000 ∅ []) in
  resolve_qtype (str "hOST") QTYPE_A t = (t, Ret [demo_v4; demo_v6]).
Proof.
  destruct (resolve_qtype (str "Host") QTYPE_A demo_state) as [s' r] eqn:E.
  assert (r = Ret [demo_v4; demo_v6]) as -> by (change r with (s', r).2; rewrite <- E; vm_compute; reflexivity).
  exists s'. split; [reflexivity|].
  destruct (resolve_cached (str "Host") (str "hOST") QTYPE_A demo_state s' _ E eq_refl) as (expire & _ & He & H).
  apply H. rewrite (He eq_refl). vm_compute. reflexivity.
Defined.


Lemma resolve_provenance_witness : exists s', resolve_qtype (str "host") QTYPE_A demo_state = (s', Ret [demo_v4; demo_v6]) /\
  ((exists cand, cand ∈ candidates (load_search_conf (Demo 5 ∅ [])) (str "host") /\ answered cand QTYPE_A [demo_v4; demo_v6]) \/
   (exists k k' l, v_libc (str "host") AF_INET k = (k', Ret l) /\ [demo_v4; demo_v6] = Text <$> l)).
Proof.
  destruct (resolve_qtype (str "host") QTYPE_A demo_state) as [s' r] eqn:E.
  assert (r = Ret [demo_v4; demo_v6]) as -> by (change r with (s', r).2; rewrite <- E; vm_compute; reflexivity).
  exists s'. split; [reflexivity|]. apply (resolve_provenance (str "host") QTYPE_A demo_state s' _ eq_refl E). discriminate.
Defined.

Lemma hosts_roundtrip_witness : load_hosts hosts_file_paths (Demo 0 ∅ (render_hosts [(str "10.0.0.1", [str "Db"]); (str "10.0.0.2", [str "web"; str "db"])])) !! str "db" =
  Some [str "10.0.0.1"; str "10.0.0.2"].
Proof.
  rewrite (hosts_roundtrip [(str "10.0.0.1", [str "Db"]); (str "10.0.0.2", [str "web"; str "db"])]);
    [vm_compute; reflexivity| |discriminate|vm_compute; reflexivity].
  assert (Hw : forall w, bool_decide (w ≠ [] /\ Forall (λ c, is_space c = false) w /\ 35 ∉ w) = true -> host_word w)
    by (intros w (? & ? & ?)%bool_decide_eq_true; split; [split|]; assumption).
  repeat constructor; try discriminate; (apply Hw || apply (proj1 (Hw _ _)) || idtac); vm_compute; reflexivity.
Defined.

Lemma getaddrinfo_no_leak_witness :
  v_open (d_k (patched_getaddrinfo true (GStr (str "host")) PNone 0 0 0 0 demo_state).1) = v_open (d_k demo_state).
Proof. exact (getaddrinfo_no_leak true (GStr (str "host")) PNone 0 0 0 0 demo_state). Defined.
