(* ===== verification/Polling.v ===== *)
(** * Cooperative [select], [poll], [epoll] and [kqueue]

    Models [src/src/stackweave/monkey/polling.py]: [select.select] on a transient epoll or kqueue
    object with its fallbacks, and the wrappers [CoPoll], [CoEpoll] and [CoKqueue].  The kernel
    objects, [wait_fd], the sleep and the offload are not part of the source: the class [PollNet]
    lists them.  Loops take fuel, and [None] is a loop that is still running or a wait that never
    returns, which an untimed [wait_fd] may do.  Times are microseconds.  [_patch_selectors] and its like only rebind names. *)
From S2P Require Import Prelude NetSocket.
Local Open Scope Z_scope.

(** What a caller passes: an object, told apart by its identity, with its descriptor. *)
Record obj := Obj { o_id : nat; o_fd : Z }.

#[export] Instance obj_eq_dec : EqDecision obj.
Proof. solve_decision. Defined.

Record kev := Kev { ev_ident : Z; ev_filter : Z; ev_flags : Z }.

Abbreviation triple := (list obj * list obj * list obj)%type.

Class PollNet (K : Type) := {
  p_now : K -> Z;
  p_open : K -> gset Z;
  p_interest : K -> Z -> gmap Z Z;
  p_ready : K -> Z -> Z;
  p_lag : Z;
  p_wait : Z -> Z -> K -> option (K * out Z);
  p_sleep : Z -> K -> K;
  p_unregister : option (Z -> io K unit);
  p_epoll : io K Z;
  p_register : Z -> Z -> Z -> io K unit;
  p_epoll_wait : Z -> Z -> io K (list (Z * Z));
  p_kqueue : io K Z;
  p_control : Z -> list kev -> Z -> io K (list kev);
  p_close : Z -> io K unit;
  p_poll : nat -> io K (list (Z * Z));
  p_block_select : list obj -> list obj -> list obj -> option Z -> io K triple;
  p_block_poll : nat -> option Z -> io K (list (Z * Z));
  p_block_epoll : Z -> option Z -> Z -> io K (list (Z * Z));
  p_block_control : Z -> list kev -> Z -> option Z -> io K (list kev)
}.

Definition EPOLLIN : Z := 1.
Definition EPOLLPRI : Z := 2.
Definition EPOLLOUT : Z := 4.
Definition EPOLLERR : Z := 8.
Definition EPOLLHUP : Z := 16.
Definition KQ_FILTER_READ : Z := -1.
Definition KQ_FILTER_WRITE : Z := -2.
Definition KQ_EV_ADD : Z := 1.
Definition KQ_EV_ERROR : Z := 16384.
Definition WAIT_FD_CANCELLED : Z := 1073741824.
Definition READ : Z := 1.
Definition cancelled : pyexc := OSError "wait_fd cancelled".
(** [_SELECTOR_REPROBE_S] *)
Definition REPROBE : Z := 50000.

(** ** Maps from descriptors to objects *)

(** [for o in l: fds[_fd_of(o)] = o] *)
Definition fds_of (l : list obj) : gmap Z obj := foldl (λ m o, <[o_fd o := o]> m) ∅ l.

(** [masks[fd] = masks.get(fd, 0) | bit], a dict in insertion order. *)
Fixpoint or_mask (fd bit : Z) (m : list (Z * Z)) : list (Z * Z) :=
  match m with
  | [] => [(fd, bit)]
  | (fd', b) :: m' => if fd' =? fd then (fd', Z.lor b bit) :: m' else (fd', b) :: or_mask fd bit m'
  end.
Definition add_masks (bit : Z) (l : list obj) (m : list (Z * Z)) : list (Z * Z) := foldl (λ m o, or_mask (o_fd o) bit m) m l.
Definition masks (rlist wlist xlist : list obj) : list (Z * Z) :=
  add_masks EPOLLPRI xlist (add_masks EPOLLOUT wlist (add_masks EPOLLIN rlist [])).

(** The objects of [fds] among the ready descriptors with an event of [mask]. *)
Definition picked (mask : Z) (fds : gmap Z obj) (ready : list (Z * Z)) : list obj :=
  omap (λ p, if Z.land p.2 mask =? 0 then None else fds !! p.1) ready.

Definition rmask : Z := Z.lor EPOLLIN (Z.lor EPOLLERR EPOLLHUP).
Definition wmask : Z := Z.lor EPOLLOUT (Z.lor EPOLLERR EPOLLHUP).
Definition xmask : Z := Z.lor EPOLLPRI EPOLLERR.

(** [_select_map_back(ready, rfds, wfds, xfds)] *)
Definition select_map_back (ready : list (Z * Z)) (rfds wfds xfds : gmap Z obj) : triple :=
  (picked rmask rfds ready, picked wmask wfds ready, picked xmask xfds ready).

(** The same for the events of a kqueue. *)
Definition is_error (ev : kev) : bool := negb (Z.land (ev_flags ev) KQ_EV_ERROR =? 0).
Definition kq_picked (filter : option Z) (fds : gmap Z obj) (ready : list kev) : list obj :=
  omap (λ ev, if is_error ev || bool_decide (Some (ev_filter ev) = filter) then fds !! ev_ident ev else None) ready.
Definition kq_map_back (ready : list kev) (rfds wfds xfds : gmap Z obj) : triple :=
  (kq_picked (Some KQ_FILTER_READ) rfds ready, kq_picked (Some KQ_FILTER_WRITE) wfds ready, kq_picked None xfds ready).

Section polling.
Context {K : Type} `{!PollNet K}.
(** [_in_fiber()], and which objects the platform has. *)
Context (in_fiber co_epoll_ok co_kqueue_ok : bool).

Definition pio (A : Type) : Type := K -> option (K * out A).
Definition pbind {A B} (m : pio A) (f : A -> pio B) : pio B :=
  λ k, match m k with Some (k', Ret x) => f x k' | Some (k', Exc e) => Some (k', Exc e) | None => None end.
Definition pret {A} (x : A) : pio A := λ k, Some (k, Ret x).
Definition praise {A} (e : pyexc) : pio A := λ k, Some (k, Exc e).
Definition sys {A} (m : io K A) : pio A := λ k, Some (m k).

Local Notation "'let!' x := m 'in' k" := (pbind m (λ x, k)) (at level 200, x name, k at level 200).

(** [except (OSError, ValueError)] *)
Definition os_or_value (e : pyexc) : bool := is_oserror e || match e with ValueError _ => true | _ => false end.

(** The [finally] of both selects, and [close] of [CoEpoll] and [CoKqueue]: drop the registration of
    the object's descriptor, close it. *)
Definition drop_object (fd : Z) : pio unit := λ k,
  let unregister := match p_unregister with Some u => if 0 <=? fd then u fd else (λ k, (k, Ret tt)) | None => λ k, (k, Ret tt) end in
  match unregister k with
  | (k1, Exc e) => if os_or_value e then Some (p_close fd k1) else Some (k1, Exc e)
  | (k1, Ret _) => Some (p_close fd k1)
  end.
Definition with_object {A} (open : io K Z) (m : Z -> pio A) : pio A :=
  let! fd := sys open in
  λ k, match m fd k with
       | Some (k1, r) => match drop_object fd k1 with Some (k2, Ret _) => Some (k2, r) | Some (k2, Exc e) => Some (k2, Exc e) | None => None end
       | None => None
       end.

(** The wait of one round; [None] asks for the fallback. *)
Definition park (fd ms : Z) : pio (option unit) := λ k,
  match p_wait fd ms k with
  | Some (k1, Ret rc) => if rc =? WAIT_FD_CANCELLED then Some (k1, Exc cancelled) else Some (k1, Ret (Some tt))
  | Some (k1, Exc e) => if is_oserror e then Some (k1, Ret None) else Some (k1, Exc e)
  | None => None
  end.

(** The loops of [_co_select_via_epoll] and [_co_select_via_kqueue]: [drain] is the non-blocking poll
    ([None] for the fallback), [ms_of] the wait for the time that is left.  A result [None] is
    [_SelectFallback]. *)
Fixpoint select_loop {E} (fuel : nat) (fd : Z) (drain : nat -> pio (option (list E))) (back : list E -> triple) (ms_of : option Z -> Z)
    (timeout deadline : option Z) (round : nat) : pio (option triple) := λ k,
  match fuel with
  | O => None
  | S fuel' =>
      (let! ready := drain round in
       match ready with
       | None => pret None
       | Some (e :: l) => pret (Some (back (e :: l)))
       | Some [] =>
           if match timeout with Some t => t <=? 0 | None => false end then pret (Some ([], [], []))
           else λ k1,
             let again ms :=
               let! r := park fd ms in
               match r with None => pret None | Some _ => select_loop fuel' fd drain back ms_of timeout deadline (S round) end in
             match deadline with
             | None => again (ms_of None) k1
             | Some d => if d - p_now k1 <=? 0 then Some (k1, Ret (Some ([], [], []))) else again (ms_of (Some (d - p_now k1))) k1
             end
       end) k
  end.

Definition set_deadline (timeout : option Z) (k : K) : option Z := (λ t, p_now k + t) <$> timeout.

Definition epoll_ms (rem : option Z) : Z := match rem with None => -1 | Some r => Z.max 1 (r / 1000) end.
Definition kqueue_ms (rem : option Z) : Z := match rem with None => 50 | Some r => Z.max 1 (Z.min REPROBE r / 1000) end.

(** [ep.register(fd, m)] for all, [false] for the fallback. *)
Fixpoint register_all (ep : Z) (ms : list (Z * Z)) : pio bool := λ k,
  match ms with
  | [] => Some (k, Ret true)
  | (fd, m) :: ms' =>
      match p_register ep fd m k with
      | (k1, Ret _) => register_all ep ms' k1
      | (k1, Exc e) => if os_or_value e then Some (k1, Ret false) else Some (k1, Exc e)
      end
  end.

(** [_co_select_via_epoll(rlist, wlist, xlist, timeout)] *)
Definition co_select_via_epoll (fuel : nat) (rlist wlist xlist : list obj) (timeout : option Z) : pio (option triple) :=
  with_object p_epoll (λ ep,
    let! ok := register_all ep (masks rlist wlist xlist) in
    if ok then λ k,
      select_loop fuel ep (λ _, let! l := sys (p_epoll_wait ep (-1)) in pret (Some l))
        (λ ready, select_map_back ready (fds_of rlist) (fds_of wlist) (fds_of xlist)) epoll_ms timeout (set_deadline timeout k) 0 k
    else pret None).

(** [kq.control(changelist, 1000, 0)]; the changes are applied in the first round only. *)
Definition kq_drain (kq : Z) (changes : list kev) (round : nat) : pio (option (list kev)) := λ k,
  match p_control kq (if decide (round = 0%nat) then changes else []) 1000 k with
  | (k1, Ret l) => Some (k1, Ret (Some l))
  | (k1, Exc e) => if os_or_value e then Some (k1, Ret None) else Some (k1, Exc e)
  end.

(** [_co_select_via_kqueue(rlist, wlist, xlist, timeout)] *)
Definition co_select_via_kqueue (fuel : nat) (rlist wlist xlist : list obj) (timeout : option Z) : pio (option triple) :=
  with_object p_kqueue (λ kq k,
    let changes := map (λ fd, Kev fd KQ_FILTER_READ KQ_EV_ADD) (map fst (add_masks 0 rlist [])) ++
                   map (λ fd, Kev fd KQ_FILTER_WRITE KQ_EV_ADD) (map fst (add_masks 0 wlist [])) in
    select_loop fuel kq (kq_drain kq changes) (λ ready, kq_map_back ready (fds_of rlist) (fds_of wlist) (fds_of xlist))
      kqueue_ms timeout (set_deadline timeout k) 0 k).

(** [while True: _co_sleep_io(3600.0)] *)
Fixpoint sleep_forever (fuel : nat) (k : K) : option (K * out triple) :=
  match fuel with O => None | S fuel' => sleep_forever fuel' (p_sleep 3600000000 k) end.

(** [_patched_select(rlist, wlist, xlist, timeout)] *)
Definition patched_select (fuel : nat) (rlist wlist xlist : list obj) (timeout : option Z) : pio triple :=
  if negb in_fiber then sys (p_block_select rlist wlist xlist timeout)
  else if match timeout with Some t => t <? 0 | None => false end then praise (ValueError "timeout must be non-negative")
  else if bool_decide (rlist = [] /\ wlist = [] /\ xlist = []) then
    match timeout with
    | None => sleep_forever fuel
    | Some t => λ k, Some (if 0 <? t then p_sleep t k else k, Ret ([], [], []))
    end
  else
    let! r1 := if co_epoll_ok then co_select_via_epoll fuel rlist wlist xlist timeout else pret None in
    match r1 with
    | Some r => pret r
    | None =>
        let! r2 := if co_kqueue_ok then co_select_via_kqueue fuel rlist wlist xlist timeout else pret None in
        match r2 with
        | Some r => pret r
        | None => sys (p_block_select rlist wlist xlist (match timeout with Some t => Some (if t <=? 0 then 0 else t) | None => None end))
        end
    end.

(** ** The wrappers *)

(** [_backing_fd_wait(real_obj, deadline)] *)
Definition backing_fd_wait (fd : Z) (deadline : option Z) : pio bool := λ k,
  let wait ms :=
    match p_wait fd ms k with
    | Some (k1, Ret rc) => if rc =? WAIT_FD_CANCELLED then Some (k1, Exc cancelled) else Some (k1, Ret true)
    | Some (k1, Exc e) => if is_oserror e then Some (k1, Ret true) else Some (k1, Exc e)
    | None => None
    end in
  match deadline with
  | None => wait (REPROBE / 1000)
  | Some d => let rem := d - p_now k in if rem <=? 0 then Some (k, Ret false) else wait (Z.max 1 (Z.min REPROBE rem / 1000))
  end.

(** [while True: ev = drain(); if ev: return ev; if not wait(): return []] *)
Fixpoint wait_loop {E} (fuel : nat) (drain : pio (list E)) (wait : pio bool) : pio (list E) := λ k,
  match fuel with
  | O => None
  | S fuel' =>
      (let! ev := drain in
       match ev with
       | e :: l => pret (e :: l)
       | [] => let! go := wait in if go then wait_loop fuel' drain wait else pret []
       end) k
  end.

Definition opt_deadline (timeout : option Z) (k : K) : option Z :=
  match timeout with Some t => if t <? 0 then None else Some (p_now k + t) | None => None end.

(** The sleep of [CoPoll.poll] between two probes. *)
Definition poll_wait (deadline : option Z) : pio bool := λ k,
  match deadline with
  | None => Some (p_sleep REPROBE k, Ret true)
  | Some d => let rem := d - p_now k in if rem <=? 0 then Some (k, Ret false) else Some (p_sleep (Z.min REPROBE rem) k, Ret true)
  end.

(** [CoPoll.poll(timeout)], the timeout in microseconds. *)
Definition copoll_poll (fuel : nat) (po : nat) (timeout : option Z) : pio (list (Z * Z)) := λ k,
  if negb in_fiber then Some (p_block_poll po timeout k)
  else wait_loop fuel (sys (p_poll po)) (poll_wait (opt_deadline timeout k)) k.

(** [CoEpoll.poll(timeout, maxevents)] *)
Definition coepoll_poll (fuel : nat) (ep : Z) (timeout : option Z) (maxevents : Z) : pio (list (Z * Z)) := λ k,
  if negb in_fiber then Some (p_block_epoll ep timeout maxevents k)
  else wait_loop fuel (sys (p_epoll_wait ep maxevents)) (backing_fd_wait ep (opt_deadline timeout k)) k.

(** [CoKqueue.control(changelist, max_events, timeout)] *)
Definition cokqueue_control (fuel : nat) (kq : Z) (changes : list kev) (max_events : Z) (timeout : option Z) : pio (list kev) := λ k,
  if negb in_fiber || (max_events =? 0) then Some (p_block_control kq changes max_events timeout k)
  else
    (let! _ := if bool_decide (changes = []) then pret [] else sys (p_control kq changes 0) in
     λ k1, wait_loop fuel (sys (p_control kq [] max_events)) (backing_fd_wait kq (set_deadline timeout k1)) k1) k.

(** [CoEpoll.close()] and [CoKqueue.close()] *)
Definition coepoll_close (ep : Z) : pio unit := drop_object ep.
Definition cokqueue_close (kq : Z) : pio unit := drop_object kq.
End polling.

(** ** What [select] returns *)

Lemma fds_of_lookup l fd : fds_of l !! fd = last (filter (λ o, o_fd o = fd) l).
Proof.
  unfold fds_of. assert (forall m : gmap Z obj, foldl (λ m o, <[o_fd o := o]> m) m l !! fd = match last (filter (λ o, o_fd o = fd) l) with Some o => Some o | None => m !! fd end) as H.
  { induction l as [|o l IH]; intros m; simpl; [done|]. rewrite IH, filter_cons. case_decide as E.
    - rewrite last_cons, E, lookup_insert_eq. by destruct (last _).
    - by rewrite lookup_insert_ne. }
  rewrite H, lookup_empty. by destruct (last _).
Qed.

(** The table holds the caller's objects, the last one of each descriptor. *)
Lemma fds_of_Some l fd o : fds_of l !! fd = Some o -> o ∈ l /\ o_fd o = fd.
Proof. rewrite fds_of_lookup. intros [k E]%last_Some. assert (o ∈ filter (λ o, o_fd o = fd) l) as [? ?]%list_elem_of_filter by (rewrite E; set_solver). done. Qed.

Lemma fds_of_unique l o : NoDup (o_fd <$> l) -> o ∈ l -> fds_of l !! o_fd o = Some o.
Proof.
  intros Hnd Ho. destruct (fds_of l !! o_fd o) as [o'|] eqn:E.
  - apply fds_of_Some in E as [Ho' E]. f_equal. apply list_elem_of_lookup in Ho as [i Hi], Ho' as [j Hj].
    assert (i = j) as ->; [|congruence]. eapply (NoDup_lookup _ _ _ (o_fd o)); [exact Hnd|by rewrite list_lookup_fmap, Hi|rewrite list_lookup_fmap, Hj; simpl; by rewrite E].
  - rewrite fds_of_lookup in E. apply last_None in E. exfalso. assert (o ∈ filter (λ x, o_fd x = o_fd o) l) by (by apply list_elem_of_filter). rewrite E in *. set_solver.
Qed.

Lemma picked_elem mask fds ready o : o ∈ picked mask fds ready <-> exists fd ev, (fd, ev) ∈ ready /\ Z.land ev mask ≠ 0 /\ fds !! fd = Some o.
Proof.
  unfold picked. rewrite list_elem_of_omap. split.
  - intros ([fd ev] & Hin & H). simpl in H. destruct (Z.eqb_spec (Z.land ev mask) 0); [done|]. eauto.
  - intros (fd & ev & Hin & Hm & Hf). exists (fd, ev). split; [done|]. simpl. by rewrite (proj2 (Z.eqb_neq _ _)).
Qed.

(** [masks] registers each descriptor of the lists once, for reading, writing or exceptional
    conditions exactly as the lists it is in ask. *)
Lemma or_mask_lookup fd bit m f :
  (list_to_map (or_mask fd bit m) : gmap Z Z) !! f =
  if decide (f = fd) then Some (Z.lor (default 0 ((list_to_map m : gmap Z Z) !! f)) bit) else (list_to_map m : gmap Z Z) !! f.
Proof.
  induction m as [|[fd' b] m IH]; simpl; [case_decide as E; [subst; by rewrite lookup_insert_eq|by rewrite lookup_insert_ne]|].
  destruct (Z.eqb_spec fd' fd) as [->|Hne]; simpl.
  - case_decide as E; [subst; by rewrite !lookup_insert_eq|by rewrite !lookup_insert_ne by done].
  - destruct (decide (f = fd')) as [->|Hf]; [rewrite !lookup_insert_eq; by rewrite decide_False by done|].
    rewrite !lookup_insert_ne by done. apply IH.
Qed.

Lemma or_mask_keys fd bit m : NoDup m.*1 -> NoDup (or_mask fd bit m).*1 /\ forall f, f ∈ (or_mask fd bit m).*1 -> f = fd \/ f ∈ m.*1.
Proof.
  induction m as [|[fd' b] m IH]; simpl; intros Hnd; [split; [repeat constructor; set_solver|set_solver]|].
  apply NoDup_cons in Hnd as [Hn Hnd]. destruct (IH Hnd) as [H1 H2]. destruct (Z.eqb_spec fd' fd) as [->|Hne]; simpl.
  - split; [by apply NoDup_cons|set_solver].
  - split; [apply NoDup_cons; split; [|done]|set_solver]. by intros [|]%H2.
Qed.

Lemma add_masks_keys bit l m : NoDup m.*1 -> NoDup (add_masks bit l m).*1.
Proof. unfold add_masks. revert m. induction l as [|o l IH]; intros m H; simpl; [done|]. apply IH. by apply or_mask_keys. Qed.

Lemma add_masks_lookup bit l m f :
  (list_to_map (add_masks bit l m) : gmap Z Z) !! f =
  if decide (f ∈ o_fd <$> l) then Some (Z.lor (default 0 ((list_to_map m : gmap Z Z) !! f)) bit) else (list_to_map m : gmap Z Z) !! f.
Proof.
  unfold add_masks. revert m. induction l as [|o l IH]; intros m; [by rewrite decide_False by (simpl; set_solver)|].
  cbn [foldl]. rewrite IH, or_mask_lookup. destruct (decide (f = o_fd o)) as [->|Hne]; repeat case_decide; try done; try set_solver.
  simpl. by rewrite <- Z.lor_assoc, Z.lor_diag.
Qed.

(** Which event bit asks for what. *)
Definition asked (rlist wlist xlist : list obj) (fd i : Z) : Prop :=
  i = 0 /\ fd ∈ o_fd <$> rlist \/ i = 2 /\ fd ∈ o_fd <$> wlist \/ i = 1 /\ fd ∈ o_fd <$> xlist.

Definition asks (rlist wlist xlist : list obj) (I : gmap Z Z) : Prop :=
  forall fd, match I !! fd with
             | Some m => forall i, 0 <= i -> Z.testbit m i = true <-> asked rlist wlist xlist fd i
             | None => fd ∉ (o_fd <$> rlist) ++ (o_fd <$> wlist) ++ (o_fd <$> xlist)
             end /\ (is_Some (I !! fd) -> fd ∈ (o_fd <$> rlist) ++ (o_fd <$> wlist) ++ (o_fd <$> xlist)).

Lemma testbit_bit n i : 0 <= n -> 0 <= i -> Z.testbit (2 ^ n) i = true <-> i = n.
Proof. intros Hn Hi. rewrite Z.pow2_bits_eqb by done. rewrite Z.eqb_eq. lia. Qed.

Lemma masks_asks rlist wlist xlist : asks rlist wlist xlist (list_to_map (masks rlist wlist xlist)).
Proof.
  intros fd. unfold masks. rewrite !add_masks_lookup. simpl. rewrite lookup_empty. unfold asked.
  change EPOLLPRI with (2 ^ 1). change EPOLLOUT with (2 ^ 2). change EPOLLIN with (2 ^ 0).
  destruct (decide (fd ∈ o_fd <$> rlist)) as [Hr|Hr], (decide (fd ∈ o_fd <$> wlist)) as [Hw|Hw], (decide (fd ∈ o_fd <$> xlist)) as [Hx|Hx];
    simpl default; (split; [|rewrite <- ?elem_of_app; rewrite !elem_of_app; intros [? ?]; first [tauto|done]]);
    try (rewrite !elem_of_app; tauto); intros i Hi; rewrite ?Z.lor_0_l, ?Z.lor_spec, ?orb_true_iff, ?testbit_bit by lia; tauto.
Qed.

Lemma masks_keys rlist wlist xlist : NoDup (masks rlist wlist xlist).*1.
Proof. unfold masks. do 3 apply add_masks_keys. constructor. Qed.

(** What [select] owes a list: each object it returns is one of the list whose descriptor has an event
    of [mask], and, for a list without two objects of one descriptor and a call within the limit of
    one [poll], none of those is missing. *)
Definition answers (mask : Z) (ready : Z -> Z) (few : Prop) (l res : list obj) : Prop :=
  (forall o, o ∈ res -> o ∈ l /\ Z.land (ready (o_fd o)) mask ≠ 0) /\
  (NoDup (o_fd <$> l) -> few -> forall o, o ∈ l -> Z.land (ready (o_fd o)) mask ≠ 0 -> o ∈ res).

(** ** Laws of the kernel *)

(** The most events one [poll] returns; [-1] stands for [FD_SETSIZE - 1]. *)
Definition poll_cap (maxevents : Z) : Z := if maxevents =? -1 then 1023 else maxevents.

(** The events a registration with mask [m] is told of. *)
Definition watched (m : Z) : Z := Z.lor m (Z.lor EPOLLERR EPOLLHUP).

(** Documented behaviour: a timed [wait_fd] returns, at most [p_lag] late, and an untimed one need not;
    a call that does not wait takes at most [p_lag]; a new epoll object watches nothing, [register] adds
    one descriptor, and a [poll] reports of the watched descriptors those that have a watched event,
    all of them when they are fewer than it may return. *)
Class PollLaws {K} `{!PollNet K} : Prop := {
  pl_lag : 0 <= p_lag (K := K);
  pl_wait fd ms k k' r : p_wait fd ms k = Some (k', r) ->
    p_now k < p_now k' /\ p_open k' = p_open k /\ p_interest k' = p_interest k /\ (0 <= ms -> p_now k' <= p_now k + ms * 1000 + p_lag (K := K));
  pl_wait_timed fd ms k : 0 <= ms -> is_Some (p_wait fd ms k);
  pl_sleep t k : p_open (p_sleep t k) = p_open k /\ (0 < t -> p_now k < p_now (p_sleep t k));
  pl_epoll k k' r : p_epoll k = (k', r) -> p_now k <= p_now k' <= p_now k + p_lag (K := K) /\
    match r with Ret fd => fd ∉ p_open k /\ p_open k' = {[fd]} ∪ p_open k /\ p_interest k' fd = ∅ | Exc _ => p_open k' = p_open k end;
  pl_kqueue k k' r : p_kqueue k = (k', r) -> p_now k <= p_now k' /\
    match r with Ret fd => fd ∉ p_open k /\ p_open k' = {[fd]} ∪ p_open k | Exc _ => p_open k' = p_open k end;
  pl_register ep fd m k k' r : p_register ep fd m k = (k', r) -> p_open k' = p_open k /\ p_now k <= p_now k' <= p_now k + p_lag (K := K) /\
    match r with Ret _ => p_interest k' ep = <[fd := m]> (p_interest k ep) | Exc _ => True end;
  pl_epoll_wait ep n k k' r : p_epoll_wait ep n k = (k', r) ->
    p_open k' = p_open k /\ p_now k <= p_now k' <= p_now k + p_lag (K := K) /\ p_interest k' = p_interest k /\
    match r with
    | Ret ready => NoDup ready.*1 /\
        (forall fd ev, (fd, ev) ∈ ready -> exists m, p_interest k ep !! fd = Some m /\ ev = Z.land (p_ready k fd) (watched m) /\ ev ≠ 0) /\
        (Z.of_nat (length ready) < poll_cap n -> forall fd m, p_interest k ep !! fd = Some m -> Z.land (p_ready k fd) (watched m) ≠ 0 -> fd ∈ ready.*1)
    | Exc _ => True
    end;
  pl_control kq c n k : p_open (p_control kq c n k).1 = p_open k /\ p_now k <= p_now (p_control kq c n k).1;
  pl_poll po k : p_open (p_poll po k).1 = p_open k /\ p_now k <= p_now (p_poll po k).1;
  pl_close fd k : p_open (p_close fd k).1 = p_open k ∖ {[fd]} /\ p_now k <= p_now (p_close fd k).1 <= p_now k + p_lag (K := K);
  pl_unregister u fd k k' r : p_unregister = Some u -> u fd k = (k', r) ->
    p_open k' = p_open k /\ p_now k <= p_now k' <= p_now k + p_lag (K := K) /\ forall e, r = Exc e -> os_or_value e = true;
  pl_block_select r w x t k : p_open (p_block_select r w x t k).1 = p_open k
}.

Section proofs.
Context {K : Type} `{!PollNet K} {PL : PollLaws}.
Local Notation lag := (p_lag (K := K)).

(** [m] moves only forward and leaves the open descriptors as they are. *)
Definition steady {A} (m : pio A) : Prop := forall k k' r, m k = Some (k', r) -> p_open k' = p_open k /\ p_now k <= p_now k'.

Lemma steady_sys {A} (m : io K A) : (forall k, p_open (m k).1 = p_open k /\ p_now k <= p_now (m k).1) -> steady (sys m).
Proof. intros H k k' r [= E]. specialize (H k). by rewrite E in H. Qed.

Lemma steady_bind {A B} (m : pio A) (f : A -> pio B) : steady m -> (forall x, steady (f x)) -> steady (pbind m f).
Proof.
  intros Hm Hf k k' r. unfold pbind. destruct (m k) as [[k1 [x|e]]|] eqn:E; [| |done].
  - intros E'. destruct (Hm _ _ _ E), (Hf x _ _ _ E'). split; [congruence|lia].
  - intros [= <- <-]. by apply (Hm _ _ _ E).
Qed.

Lemma steady_ret {A} (x : A) : steady (pret x).
Proof. intros k k' r [= <- _]. split; [done|lia]. Qed.

Lemma steady_park fd ms : steady (park fd ms).
Proof.
  intros k k' r. unfold park. destruct (p_wait fd ms k) as [[k1 [rc|e]]|] eqn:E; [| |done]; apply pl_wait in E as (Ht & Ho & _);
    [destruct (rc =? _)|destruct (is_oserror e)]; intros [= <- _]; (split; [done|lia]).
Qed.

Lemma steady_loop {E} fuel fd (drain : nat -> pio (K := K) (option (list E))) back ms_of t d n :
  (forall n, steady (drain n)) -> steady (select_loop fuel fd drain back ms_of t d n).
Proof.
  intros Hd. revert n. induction fuel as [|fuel IH]; intros n; [done|]. cbn [select_loop]. change (steady (λ k, pbind (drain n) (λ ready,
    match ready with
    | None => pret None
    | Some (e :: l) => pret (Some (back (e :: l)))
    | Some [] => if match t with Some t => t <=? 0 | None => false end then pret (Some ([], [], []))
        else λ k1, let again ms := pbind (park fd ms) (λ r, match r with None => pret None | Some _ => select_loop fuel fd drain back ms_of t d (S n) end) in
             match d with None => again (ms_of None) k1
             | Some d => if d - p_now k1 <=? 0 then Some (k1, Ret (Some ([], [], []))) else again (ms_of (Some (d - p_now k1))) k1 end
    end) k)). apply steady_bind; [apply Hd|]. intros [[|e l]|]; [|apply steady_ret..].
  destruct (match t with Some t => t <=? 0 | None => false end); [apply steady_ret|].
  assert (Hag : forall ms, steady (pbind (park fd ms) (λ r, match r with None => pret None | Some _ => select_loop fuel fd drain back ms_of t d (S n) end))).
  { intros ms. apply steady_bind; [apply steady_park|]. intros [u|]; [apply IH|apply steady_ret]. }
  intros k k' r. destruct d as [d|]; [|apply Hag]. simpl. destruct (d - p_now k <=? 0); [intros [= <- _]; split; [done|lia]|apply Hag].
Qed.

Lemma steady_register ep ms : steady (register_all ep ms).
Proof.
  induction ms as [|[fd m] ms IH]; intros k k' r; simpl; [intros [= <- _]; split; [done|lia]|]. destruct (p_register ep fd m k) as [k1 r1] eqn:E.
  apply pl_register in E as (Ho & Ht & _). destruct r1 as [u|e].
  - intros [? ?]%IH. split; [congruence|lia].
  - destruct (os_or_value e); intros [= <- _]; (split; [done|lia]).
Qed.

Lemma steady_epoll_wait ep n : steady (sys (p_epoll_wait ep n)).
Proof. intros k k' r [= (Ho & Ht & _)%pl_epoll_wait]. split; [done|lia]. Qed.

Lemma steady_kq_drain kq changes n : steady (kq_drain kq changes n).
Proof.
  intros k k' r. unfold kq_drain. set (c := if decide (n = 0%nat) then _ else _). pose proof (pl_control kq c 1000 k) as [Ho Ht].
  destruct (p_control kq c 1000 k) as [k1 [l|e]]; simpl in *; [by intros [= <- _]|]. destruct (os_or_value e); by intros [= <- _].
Qed.

(** Dropping the object always closes it. *)
Lemma drop_object_closes fd k : exists k' r, drop_object fd k = Some (k', r) /\ p_open k' = p_open k ∖ {[fd]} /\ p_now k <= p_now k' <= p_now k + 2 * lag /\
  forall e, r = Exc e -> exists k1 k2, p_close fd k1 = (k2, Exc e).
Proof.
  pose proof pl_lag as Hlag. unfold drop_object. set (un := match p_unregister with Some _ => _ | None => _ end).
  assert (exists k1 r1, un k = (k1, r1) /\ p_open k1 = p_open k /\ p_now k <= p_now k1 <= p_now k + lag /\ forall e, r1 = Exc e -> os_or_value e = true) as (k1 & r1 & -> & Ho & Ht & He).
  { unfold un. destruct p_unregister as [u|] eqn:Eu; [destruct (0 <=? fd)|].
    - destruct (u fd k) as [k1 r1] eqn:E. destruct (pl_unregister u fd k k1 r1 Eu E) as (? & ? & ?). by exists k1, r1.
    - exists k, (Ret tt). split_and!; [done|done|lia|lia|done].
    - exists k, (Ret tt). split_and!; [done|done|lia|lia|done]. }
  pose proof (pl_close fd k1) as [Hc Hn]. destruct (p_close fd k1) as [k2 r2] eqn:Ec. simpl in *. exists k2, r2. rewrite Hc, Ho.
  split_and!; [|done|lia|lia|intros e ->; eauto]. destruct r1 as [u|e]; [done|]. by rewrite (He e eq_refl).
Qed.

(** A transient object never outlives the call. *)
Lemma steady_with {A} (open : io K Z) (m : Z -> pio A) :
  (forall k k' r, open k = (k', r) -> p_now k <= p_now k' /\
    match r with Ret fd => fd ∉ p_open k /\ p_open k' = {[fd]} ∪ p_open k | Exc _ => p_open k' = p_open k end) ->
  (forall fd, steady (m fd)) -> steady (with_object open m).
Proof.
  intros Hopen Hm k k' r. unfold with_object, pbind, sys. destruct (open k) as [k1 [fd|e]] eqn:Eo; apply Hopen in Eo as [Ht Ho].
  - destruct Ho as [Hfd Ho]. destruct (m fd k1) as [[k2 r2]|] eqn:Em; [|done]. apply Hm in Em as [Ho2 Ht2].
    destruct (drop_object_closes fd k2) as (k3 & r3 & -> & Ho3 & Ht3 & _).
    destruct r3; intros [= <- _]; (split; [rewrite Ho3, Ho2, Ho; set_solver|lia]).
  - by intros [= <- _].
Qed.

Lemma steady_epoll fuel r w x t : steady (co_select_via_epoll fuel r w x t).
Proof.
  apply steady_with; [intros k k' res [Ht Ho]%pl_epoll; split; [lia|destruct res; tauto]|]. intros fd. apply steady_bind; [apply steady_register|]. intros []; [|apply steady_ret].
  intros k k' res. apply steady_loop. intros _. apply steady_bind; [apply steady_epoll_wait|intros; apply steady_ret].
Qed.

Lemma steady_kqueue fuel r w x t : steady (co_select_via_kqueue fuel r w x t).
Proof. apply steady_with; [apply pl_kqueue|]. intros fd k k' res. apply steady_loop. intros n. apply steady_kq_drain. Qed.

(** [select] leaks no descriptor: on every way out - ready, timed out, cancelled, an error of any
    call, a fallback from epoll to kqueue to the pool - the transient object is closed. *)
Theorem select_no_leak fib ep kq fuel rlist wlist xlist t k k' r : 
  patched_select fib ep kq fuel rlist wlist xlist t k = Some (k', r) -> p_open k' = p_open k.
Proof.
  unfold patched_select. destruct (negb fib).
  { intros [= E]. pose proof (pl_block_select rlist wlist xlist t k) as H. by rewrite E in H. }
  destruct (match t with Some t => t <? 0 | None => false end); [by intros [= <- _]|]. case_bool_decide.
  { destruct t as [t|]; [intros [= <- _]; destruct (0 <? t); [apply pl_sleep|done]|]. revert k. induction fuel as [|fuel IH]; intros k; [done|]. simpl.
    intros ->%IH. apply pl_sleep. }
  assert (Hep : steady (if ep then co_select_via_epoll fuel rlist wlist xlist t else pret None)) by (destruct ep; [apply steady_epoll|apply steady_ret]).
  assert (Hkq : steady (if kq then co_select_via_kqueue fuel rlist wlist xlist t else pret None)) by (destruct kq; [apply steady_kqueue|apply steady_ret]).
  revert Hep Hkq. generalize (if ep then co_select_via_epoll fuel rlist wlist xlist t else pret None) as m1.
  generalize (if kq then co_select_via_kqueue fuel rlist wlist xlist t else pret None) as m2. intros m2 m1 Hep Hkq.
  unfold pbind. destruct (m1 k) as [[k1 [r1|e]]|] eqn:E1; [| |done]; apply Hep in E1 as [Ho1 _]; [|by intros [= <- _]].
  destruct r1 as [r1|]; [by intros [= <- _]|].
  destruct (m2 k1) as [[k2 [r2|e]]|] eqn:E2; [| |done]; apply Hkq in E2 as [Ho2 _]; [|intros [= <- _]; congruence].
  destruct r2 as [r2|]; [intros [= <- _]; congruence|]. intros [= E]. set (t' := match t with Some _ => _ | None => _ end) in E.
  pose proof (pl_block_select rlist wlist xlist t' k2) as Hb. rewrite E in Hb. simpl in Hb. congruence.
Qed.

(** *** Deadlines *)

(** A timed wait of one round ends in time and is blamed on nothing but [wait_fd]. *)
Lemma park_timed fd ms k : 0 <= ms -> exists k' r, park fd ms k = Some (k', r) /\ p_now k < p_now k' <= p_now k + ms * 1000 + lag /\
  p_interest k' = p_interest k /\
  match r with
  | Ret (Some _) => True
  | Ret None => exists e, p_wait fd ms k = Some (k', Exc e) /\ is_oserror e = true
  | Exc e => p_wait fd ms k = Some (k', Exc e) \/ p_wait fd ms k = Some (k', Ret WAIT_FD_CANCELLED) /\ e = cancelled
  end.
Proof.
  intros Hms. unfold park. destruct (pl_wait_timed fd ms k Hms) as [[k1 [rc|e]] E]; rewrite E; pose proof E as (Ht & _ & Hi & Hu)%pl_wait; specialize (Hu Hms).
  - destruct (Z.eqb_spec rc WAIT_FD_CANCELLED) as [->|]; eexists _, _; (split_and!; [done|lia|lia|done|]); [right; done|done].
  - destruct (is_oserror e) eqn:Ee; eexists _, _; (split_and!; [done|lia|lia|done|]); [by exists e|by left].
Qed.

(** What a failed [select] is blamed on. *)
Definition wait_failed (fd : Z) (res : out (option triple)) : Prop :=
  exists ms k1 k2, match res with
  | Ret (Some _) => False
  | Ret None => exists e, p_wait fd ms k1 = Some (k2, Exc e) /\ is_oserror e = true
  | Exc e => p_wait fd ms k1 = Some (k2, Exc e) \/ p_wait fd ms k1 = Some (k2, Ret WAIT_FD_CANCELLED) /\ e = cancelled
  end.

(** What the loop may return: what its last probe saw, which is nothing only once the time is over;
    or a fallback or an exception that this probe or a wait gave. *)
Definition select_result {E} (I : K -> Prop) (fd : Z) (drain : nat -> pio (K := K) (option (list E))) (back : list E -> triple) (t d : Z) (k k' : K) (res : out (option triple)) : Prop :=
  wait_failed fd res \/ exists n k1 k2 r, I k1 /\ p_now k <= p_now k1 /\ p_now k2 <= p_now k' /\ drain n k1 = Some (k2, r) /\
  match r with
  | Ret (Some []) => res = Ret (Some ([], [], [])) /\ (t <= 0 \/ d <= p_now k2)
  | Ret (Some (e :: l)) => res = Ret (Some (back (e :: l)))
  | Ret None => res = Ret None
  | Exc e => res = Exc e
  end.

(** The loop ends, at most a millisecond and two calls after the deadline; [I] is what the kernel
    keeps. *)
Lemma select_loop_timed {E} (I : K -> Prop) fd (drain : nat -> pio (K := K) (option (list E))) back ms_of t d n k :
  (forall n k, I k -> exists k1 r1, drain n k = Some (k1, r1) /\ I k1 /\ p_now k <= p_now k1 <= p_now k + lag) ->
  (forall k k', p_interest k' = p_interest k -> I k -> I k') ->
  (forall rem, 0 < rem -> 0 <= ms_of (Some rem) /\ ms_of (Some rem) * 1000 <= rem + 1000) -> I k ->
  exists fuel k' res, select_loop fuel fd drain back ms_of (Some t) (Some d) n k = Some (k', res) /\
    p_now k <= p_now k' <= Z.max (p_now k) (d + 1000 + lag) + lag /\ select_result I fd drain back t d k k' res.
Proof.
  intros Hdr HI Hms. pose proof pl_lag as Hlag. remember (Z.to_nat (d - p_now k)) as m eqn:Em. revert n k Em. induction m as [m IH] using lt_wf_ind. intros n k Em Hk.
  destruct (Hdr n k Hk) as (k1 & r1 & E1 & Hk1 & Ht1).
  assert (Hstop : forall res, match r1 with
      | Ret (Some []) => res = Ret (Some ([], [], [])) /\ (t <= 0 \/ d <= p_now k1) | Ret (Some (e :: l)) => res = Ret (Some (back (e :: l)))
      | Ret None => res = Ret None | Exc e => res = Exc e end -> select_result I fd drain back t d k k1 res).
  { intros res Hr. right. exists n, k, k1, r1. split_and!; [done|lia|lia|done|done]. }
  destruct r1 as [[[|e l]|]|e].
  - destruct (Z.leb_spec t 0) as [Hle|Hgt].
    { exists 1%nat, k1, (Ret (Some ([], [], []))). cbn [select_loop]. unfold pbind at 1. rewrite E1. rewrite (proj2 (Z.leb_le t 0)) by lia.
      split_and!; [done|lia|lia|]. apply Hstop. auto. }
    destruct (Z.leb_spec (d - p_now k1) 0) as [Hd|Hd].
    { exists 1%nat, k1, (Ret (Some ([], [], []))). cbn [select_loop]. unfold pbind at 1. rewrite E1, (proj2 (Z.leb_gt t 0)), (proj2 (Z.leb_le _ 0)) by lia.
      split_and!; [done|lia|lia|]. apply Hstop. split; [done|]. right. lia. }
    destruct (Hms (d - p_now k1) Hd) as [Hm1 Hm2]. destruct (park_timed fd (ms_of (Some (d - p_now k1))) k1 Hm1) as (k2 & r2 & Ep & Ht2 & Hi2 & Hr2).
    assert (Hfail : forall f : option unit -> option triple, forall res, match r2 with Ret (Some _) => False | Ret None => res = Ret None | Exc e => res = Exc e end ->
      select_result I fd drain back t d k k2 res).
    { intros _ res Hres. left. exists (ms_of (Some (d - p_now k1))), k1, k2. by destruct r2 as [[u|]|e]; [|subst res..]. }
    destruct r2 as [[u|]|e].
    + destruct (IH (Z.to_nat (d - p_now k2)) ltac:(lia) (S n) k2 eq_refl (HI _ _ Hi2 Hk1)) as (fuel & k' & res & EL & Ht & Hr). exists (S fuel), k', res.
      split_and!; [|lia|lia|].
      * cbn [select_loop]. unfold pbind at 1. rewrite E1, (proj2 (Z.leb_gt t 0)), (proj2 (Z.leb_gt _ 0)) by lia. unfold pbind at 1. by rewrite Ep.
      * destruct Hr as [Hr|(n' & k3 & k4 & r & ? & ? & Hr)]; [by left|]. right. exists n', k3, k4, r. split_and!; [done|lia|apply Hr..].
    + exists 1%nat, k2, (Ret None). cbn [select_loop]. unfold pbind at 1. rewrite E1, (proj2 (Z.leb_gt t 0)), (proj2 (Z.leb_gt _ 0)) by lia.
      unfold pbind at 1. rewrite Ep. split_and!; [done|lia|lia|by apply (Hfail (λ _, None))].
    + exists 1%nat, k2, (Exc e). cbn [select_loop]. unfold pbind at 1. rewrite E1, (proj2 (Z.leb_gt t 0)), (proj2 (Z.leb_gt _ 0)) by lia.
      unfold pbind at 1. rewrite Ep. split_and!; [done|lia|lia|by apply (Hfail (λ _, None))].
  - exists 1%nat, k1, (Ret (Some (back (e :: l)))). cbn [select_loop]. unfold pbind at 1. rewrite E1. split_and!; [done|lia|lia|by apply Hstop].
  - exists 1%nat, k1, (Ret None). cbn [select_loop]. unfold pbind at 1. rewrite E1. split_and!; [done|lia|lia|by apply Hstop].
  - exists 1%nat, k1, (Exc e). cbn [select_loop]. unfold pbind at 1. rewrite E1. split_and!; [done|lia|lia|by apply Hstop].
Qed.

(** Registering takes one call per descriptor, and leaves the object watching the descriptors of
    [ms] in addition; it is given up only because of a call that failed. *)
Lemma register_all_spec ep ms k : NoDup ms.*1 -> exists k' r, register_all ep ms k = Some (k', r) /\
  p_now k <= p_now k' <= p_now k + Z.of_nat (length ms) * lag /\
  match r with
  | Ret true => forall fd, p_interest k' ep !! fd = match (list_to_map ms : gmap Z Z) !! fd with Some m => Some m | None => p_interest k ep !! fd end
  | Ret false => exists fd m k1 e, p_register ep fd m k1 = (k', Exc e) /\ os_or_value e = true
  | Exc e => exists fd m k1, p_register ep fd m k1 = (k', Exc e) /\ os_or_value e = false
  end.
Proof.
  pose proof pl_lag as Hlag. revert k. induction ms as [|[fd m] ms IH]; intros k Hnd.
  { exists k, (Ret true). simpl. split_and!; [done|lia|lia|]. intros fd. by rewrite lookup_empty. }
  apply NoDup_cons in Hnd as [Hn Hnd]. cbn [register_all]. destruct (p_register ep fd m k) as [k1 [u|e]] eqn:E; pose proof E as (Ho & Ht & Hi)%pl_register.
  - destruct (IH k1 Hnd) as (k' & r & Er & Ht' & Hr). exists k', r. simpl length. split_and!; [done|lia|lia|].
    destruct r as [[]|e]; [|done..]. intros f. rewrite Hr, Hi. simpl. destruct (decide (f = fd)) as [->|Hne].
    + by rewrite !lookup_insert_eq, (not_elem_of_list_to_map_1 ms fd).
    + by rewrite !lookup_insert_ne by done.
  - simpl length. destruct (os_or_value e) eqn:Ee; eexists k1, _; (split_and!; [done|lia|nia|]); [by exists fd, m, k, e|by exists fd, m, k].
Qed.

Lemma or_mask_length fd bit m : (length (or_mask fd bit m) <= S (length m))%nat.
Proof. induction m as [|[fd' b] m IH]; simpl; [lia|]. destruct (fd' =? fd); simpl; lia. Qed.

Lemma add_masks_length bit l m : (length (add_masks bit l m) <= length l + length m)%nat.
Proof. unfold add_masks. revert m. induction l as [|o l IH]; intros m; simpl; [lia|]. pose proof (IH (or_mask (o_fd o) bit m)). pose proof (or_mask_length (o_fd o) bit m). lia. Qed.

Lemma masks_length rlist wlist xlist : (length (masks rlist wlist xlist) <= length rlist + length wlist + length xlist)%nat.
Proof.
  unfold masks. generalize (add_masks_length EPOLLIN rlist []). cbn [length]. generalize (add_masks EPOLLIN rlist []). intros m1 H1.
  generalize (add_masks_length EPOLLOUT wlist m1). generalize (add_masks EPOLLOUT wlist m1). intros m2 H2. pose proof (add_masks_length EPOLLPRI xlist m2). lia.
Qed.


Lemma land_nonzero a b : Z.land a b ≠ 0 <-> exists i, 0 <= i /\ Z.testbit a i = true /\ Z.testbit b i = true.
Proof.
  split.
  - intros H. destruct (decide (0 <= Z.land a b)) as [Hp|Hp].
    + exists (Z.log2 (Z.land a b)). split; [apply Z.log2_nonneg|]. apply andb_true_iff. rewrite <- Z.land_spec. apply Z.bit_log2. apply Z.le_neq. by split.
    + assert (Ha : a < 0) by (destruct (Z.ltb_spec a 0); [done|exfalso; apply Hp, Z.land_nonneg; by left]).
      assert (Hb : b < 0) by (destruct (Z.ltb_spec b 0); [done|exfalso; apply Hp, Z.land_nonneg; by right]).
      pose proof (proj1 (Z.bits_iff_neg_ex a) Ha) as [i Hi]. pose proof (proj1 (Z.bits_iff_neg_ex b) Hb) as [j Hj].
      exists (Z.max 0 (Z.max i j) + 1). split; [lia|]. split; [apply Hi; lia|apply Hj; lia].
  - intros (i & Hi & Ha & Hb) E. assert (Z.testbit (Z.land a b) i = true) as Ht by (by rewrite Z.land_spec, Ha, Hb). by rewrite E, Z.bits_0 in Ht.
Qed.

Lemma fds_of_is_Some l fd : fd ∈ o_fd <$> l -> exists o, fds_of l !! fd = Some o.
Proof.
  intros (o & -> & Ho)%list_elem_of_fmap. rewrite fds_of_lookup. destruct (last _) eqn:E; [by eauto|]. apply last_None in E. exfalso.
  assert (o ∈ filter (λ x, o_fd x = o_fd o) l) by (by apply list_elem_of_filter). rewrite E in *. set_solver.
Qed.

(** One report of the object, mapped back: the answer to the lists it watches for. *)
Section report.
Context (rlist wlist xlist : list obj) (I : gmap Z Z) (rdy : Z -> Z) (ready : list (Z * Z)).
Hypothesis HI : asks rlist wlist xlist I.
Hypothesis Hsound : forall fd ev, (fd, ev) ∈ ready -> exists m, I !! fd = Some m /\ ev = Z.land (rdy fd) (watched m) /\ ev ≠ 0.
Hypothesis Hcomplete : Z.of_nat (length ready) < 1023 -> forall fd m, I !! fd = Some m -> Z.land (rdy fd) (watched m) ≠ 0 -> fd ∈ ready.*1.

Lemma list_answers mask l (few : Prop) : (few -> Z.of_nat (length ready) < 1023) ->
  (forall fd, fd ∈ o_fd <$> l -> exists m, I !! fd = Some m /\ forall i, 0 <= i -> Z.testbit mask i = true -> Z.testbit (watched m) i = true) ->
  answers mask rdy few l (picked mask (fds_of l) ready).
Proof.
  intros Hfew Hmask. split.
  - intros o (fd & ev & Hin & Hm & [Ho <-]%fds_of_Some)%picked_elem. split; [done|]. destruct (Hsound _ _ Hin) as (m & _ & -> & _).
    apply land_nonzero in Hm as (i & Hi & Hb & Hc). rewrite Z.land_spec, andb_true_iff in Hb. destruct Hb. apply land_nonzero. eauto.
  - intros Hnd Hf o Ho Hm. apply land_nonzero in Hm as (i & Hi & Hb & Hc).
    destruct (Hmask (o_fd o)) as (m & Em & Hw); [by apply list_elem_of_fmap_2|]. specialize (Hw i Hi Hc).
    assert (o_fd o ∈ ready.*1) as ([fd ev] & Efd & Hin)%list_elem_of_fmap by (apply (Hcomplete (Hfew Hf) _ _ Em), land_nonzero; eauto). simpl in Efd. subst fd.
    apply picked_elem. exists (o_fd o), ev. split_and!; [done| |by apply fds_of_unique]. destruct (Hsound _ _ Hin) as (m' & Em' & -> & _).
    assert (m' = m) as -> by congruence. apply land_nonzero. exists i. rewrite Z.land_spec, Hb, Hw, Hc. done.
Qed.
End report.

(** The masks of the code cover what each list is told of. *)
Lemma asks_masks rlist wlist xlist I : asks rlist wlist xlist I ->
  (forall fd, fd ∈ o_fd <$> rlist -> exists m, I !! fd = Some m /\ forall i, 0 <= i -> Z.testbit rmask i = true -> Z.testbit (watched m) i = true) /\
  (forall fd, fd ∈ o_fd <$> wlist -> exists m, I !! fd = Some m /\ forall i, 0 <= i -> Z.testbit wmask i = true -> Z.testbit (watched m) i = true) /\
  (forall fd, fd ∈ o_fd <$> xlist -> exists m, I !! fd = Some m /\ forall i, 0 <= i -> Z.testbit xmask i = true -> Z.testbit (watched m) i = true).
Proof.
  intros HI. assert (forall fd, fd ∈ (o_fd <$> rlist) ++ (o_fd <$> wlist) ++ (o_fd <$> xlist) -> exists m, I !! fd = Some m /\
    forall i, 0 <= i -> (Z.testbit (watched m) i = true <-> asked rlist wlist xlist fd i \/ i = 3 \/ i = 4)) as Hall.
  { intros fd Hfd. destruct (HI fd) as [H _]. destruct (I !! fd) as [m|]; [|done]. exists m. split; [done|]. intros i Hi. unfold watched.
    change EPOLLERR with (2 ^ 3). change EPOLLHUP with (2 ^ 4). rewrite !Z.lor_spec, !orb_true_iff, !testbit_bit by lia. by rewrite (H i Hi). }
  unfold rmask, wmask, xmask. change EPOLLPRI with (2 ^ 1). change EPOLLOUT with (2 ^ 2). change EPOLLIN with (2 ^ 0). change EPOLLERR with (2 ^ 3). change EPOLLHUP with (2 ^ 4).
  split_and!; intros fd Hfd; (destruct (Hall fd) as (m & Em & H); [rewrite !elem_of_app; tauto|]); exists m; (split; [done|]); intros i Hi;
    rewrite (H i Hi), !Z.lor_spec, !orb_true_iff, !testbit_bit by lia; unfold asked; tauto.
Qed.

(** A report that maps to three empty lists is of a hang-up where only exceptional conditions are
    awaited. *)
Lemma empty_report rlist wlist xlist I rdy fd ev ready m : asks rlist wlist xlist I -> (fd, ev) ∈ ready ->
  I !! fd = Some m -> ev = Z.land (rdy fd) (watched m) -> ev ≠ 0 ->
  select_map_back ready (fds_of rlist) (fds_of wlist) (fds_of xlist) = ([], [], []) -> exists o, o ∈ xlist /\ Z.land (rdy (o_fd o)) EPOLLHUP ≠ 0.
Proof.
  intros HI Hin Em Eev Hev. unfold select_map_back. intros Eb. injection Eb as Er Ew Ex.
  assert (Hno : forall mask l i, picked mask (fds_of l) ready = [] -> 0 <= i -> Z.testbit ev i = true -> Z.testbit mask i = true -> fd ∉ o_fd <$> l).
  { intros mask l i Ep Hi Hb Hm Hl. destruct (fds_of_is_Some l fd Hl) as [o Eo].
    assert (o ∈ picked mask (fds_of l) ready) as Hp by (apply picked_elem; exists fd, ev; split_and!; [done|apply land_nonzero; eauto|done]).
    rewrite Ep in Hp. by apply elem_of_nil in Hp. }
  destruct (HI fd) as [Hm Hdom]. rewrite Em in Hm, Hdom. specialize (Hdom ltac:(eauto)). rewrite !elem_of_app in Hdom.
  rewrite Eev in Hev. apply land_nonzero in Hev as (i & Hi & Hb & Hw).
  assert (Hbit : Z.testbit ev i = true) by (rewrite Eev, Z.land_spec, Hb, Hw; done).
  unfold watched in Hw. rewrite !Z.lor_spec, !orb_true_iff in Hw. change EPOLLERR with (2 ^ 3) in Hw. change EPOLLHUP with (2 ^ 4) in Hw.
  rewrite !testbit_bit, (Hm i Hi) in Hw by lia.
  pose proof (Hno _ _ i Er Hi Hbit) as Hr. pose proof (Hno _ _ i Ew Hi Hbit) as Hw'. pose proof (Hno _ _ i Ex Hi Hbit) as Hx.
  destruct Hw as [[[-> H]|[[-> H]|[-> H]]]|[->| ->]].
  - by destruct (Hr eq_refl).
  - by destruct (Hw' eq_refl).
  - by destruct (Hx eq_refl).
  - destruct Hdom as [H|[H|H]]; [by destruct (Hr eq_refl)|by destruct (Hw' eq_refl)|by destruct (Hx eq_refl)].
  - destruct Hdom as [H|[H|H]]; [by destruct (Hr eq_refl)|by destruct (Hw' eq_refl)|]. apply list_elem_of_fmap in H as (o & -> & Ho).
    exists o. split; [done|]. apply land_nonzero. exists 4. done.
Qed.

(** A call of the kernel that made [select] fall back or raise. *)
Definition call_failed (res : out (option triple)) : Prop :=
  exists ep k1 k2 e,
    (exists fd m, p_register ep fd m k1 = (k2, Exc e)) /\ res = (if os_or_value e then Ret None else Exc e) \/
    (p_epoll k1 = (k2, Exc e) \/ p_epoll_wait ep (-1) k1 = (k2, Exc e) \/ p_close ep k1 = (k2, Exc e)) /\ res = Exc e.

(** The loop over an object that watches for the lists. *)
Lemma select_epoll_loop rlist wlist xlist t ep k :
  let few := Z.of_nat (length rlist + length wlist + length xlist) < 1023 in
  let drain := λ _ : nat, pbind (sys (p_epoll_wait ep (-1))) (λ l, pret (Some l)) in
  let back := λ ready, select_map_back ready (fds_of rlist) (fds_of wlist) (fds_of xlist) in
  p_interest k ep = list_to_map (masks rlist wlist xlist) ->
  exists fuel k' res, select_loop fuel ep drain back epoll_ms (Some t) (Some (p_now k + t)) 0 k = Some (k', res) /\
    p_now k <= p_now k' <= Z.max (p_now k) (p_now k + t + 1000 + lag) + lag /\
    match res with
    | Ret (Some (r, w, x)) => exists k1, p_now k <= p_now k1 <= p_now k' /\
        answers rmask (p_ready k1) few rlist r /\ answers wmask (p_ready k1) few wlist w /\ answers xmask (p_ready k1) few xlist x /\
        ((r, w, x) = ([], [], []) -> t <= 0 \/ p_now k + t <= p_now k' \/ exists o, o ∈ xlist /\ Z.land (p_ready k1 (o_fd o)) EPOLLHUP ≠ 0)
    | _ => wait_failed ep res \/ call_failed res
    end.
Proof.
  intros few drain back Hk. set (M := list_to_map (masks rlist wlist xlist) : gmap Z Z) in *. pose proof pl_lag as Hlag.
  destruct (select_loop_timed (λ k, p_interest k ep = M) ep drain back epoll_ms t (p_now k + t) 0 k) as (fuel & k' & res & E & Ht & Hr); [| | |done|].
  { intros n k1 H1. unfold drain, pbind, sys. destruct (p_epoll_wait ep (-1) k1) as [k2 r] eqn:E. apply pl_epoll_wait in E as (_ & Ht & Hi & _).
    destruct r; eexists _, _; (split_and!; [done|congruence|lia|lia]). }
  { intros k1 k2 -> H. done. }
  { intros rem Hrem. unfold epoll_ms. pose proof (Z.mul_div_le rem 1000 ltac:(lia)). pose proof (Z.div_pos rem 1000). lia. }
  exists fuel, k', res. split_and!; [done|lia|lia|]. destruct Hr as [Hr|(n & k1 & k2 & r & HI & Ht1 & Ht2 & Ed & Hr)].
  { destruct res as [[[[r w] x]|]|e]; [by destruct Hr as (? & ? & ? & [])|by left..]. }
  unfold drain, pbind, sys in Ed. destruct (p_epoll_wait ep (-1) k1) as [k3 [ready|e]] eqn:Ew.
  2: { unfold pret in Ed. injection Ed as <- <-. subst res. right. exists ep, k1, k3, e. auto. }
  unfold pret in Ed. injection Ed as <- <-. apply pl_epoll_wait in Ew as (_ & Ht3 & _ & Hnd & Hs & Hc). rewrite HI in Hs, Hc. change (poll_cap (-1)) with 1023 in Hc.
  assert (HA : asks rlist wlist xlist M) by apply masks_asks.
  assert (Hfew : few -> Z.of_nat (length ready) < 1023).
  { intros Hf. unfold few in Hf. pose proof (masks_length rlist wlist xlist). assert (length ready <= length (masks rlist wlist xlist))%nat; [|lia].
    rewrite <- (length_fmap fst ready), <- (length_fmap fst (masks rlist wlist xlist)). apply submseteq_length, NoDup_submseteq; [done|].
    intros fd ([fd' ev] & -> & Hin)%list_elem_of_fmap. destruct (Hs _ _ Hin) as (m & Em%elem_of_list_to_map_2 & _). apply list_elem_of_fmap. by exists (fd', m). }
  destruct (asks_masks _ _ _ _ HA) as (Hr1 & Hw1 & Hx1).
  assert (Hres : res = Ret (Some (back ready)) /\ (ready = [] -> t <= 0 \/ p_now k + t <= p_now k')).
  { destruct ready as [|p l]; [destruct Hr as [-> Hr]; split; [done|intros _; destruct Hr; [by left|right; lia]]|done]. }
  destruct Hres as [-> Hempty]. unfold back, select_map_back. exists k1. split_and!; [lia|lia|by apply (list_answers M)..|].
  intros Eb. destruct ready as [|[fd ev] l] eqn:El; [destruct (Hempty eq_refl); auto|]. right. right.
  destruct (Hs fd ev ltac:(left)) as (m & Em & Eev & Hev). eapply (empty_report rlist wlist xlist M); [done|left|done..].
Qed.

(** C22. A [select] with a timeout never hangs and tells the truth.  With enough rounds the epoll path
    returns, however often the waits return early and although an untimed [wait_fd] need not return,
    and it returns in time: at most a millisecond late, plus what its own calls to the kernel take.
    The result is the answer of one probe of the kernel's made during the call: every object is one
    the caller passed and its descriptor had an event of its list (readable, writable, exceptional;
    an error counts for each, a hang-up for the first two), and for a list without two objects of one
    descriptor no such object is missing, as long as the call is within the 1023 events of one
    [poll].  Three empty lists mean that the call was a probe, or that the time is over, or that a
    descriptor of [xlist] was hung up.  Any other way out, the fallback to the pool included, is the
    doing of a kernel call that failed or of a cancelled wait. *)
Theorem select_timed rlist wlist xlist t k : 0 <= t ->
  let n := Z.of_nat (length rlist + length wlist + length xlist) in
  exists fuel k' res, co_select_via_epoll fuel rlist wlist xlist (Some t) k = Some (k', res) /\
    p_now k' <= p_now k + t + 1000 + (n + 5) * lag /\
    match res with
    | Ret (Some (r, w, x)) => exists k1, p_now k <= p_now k1 <= p_now k' /\
        answers (1 + 8 + 16) (p_ready k1) (n < 1023) rlist r /\ answers (4 + 8 + 16) (p_ready k1) (n < 1023) wlist w /\
        answers (2 + 8) (p_ready k1) (n < 1023) xlist x /\
        ((r, w, x) = ([], [], []) -> t = 0 \/ p_now k + t <= p_now k' \/ exists o, o ∈ xlist /\ Z.land (p_ready k1 (o_fd o)) 16 ≠ 0)
    | _ => (exists ep, wait_failed ep res) \/ call_failed res
    end.
Proof.
  intros Ht0 n. pose proof pl_lag as Hlag. unfold co_select_via_epoll, with_object, pbind at 1, sys at 1. destruct (p_epoll k) as [k0 r0] eqn:Eo.
  pose proof Eo as [Ht Ho]%pl_epoll. destruct r0 as [ep|e].
  2: { exists 0%nat, k0, (Exc e). split_and!; [done|lia|]. right. exists 0, k, k0, e. auto. }
  destruct Ho as (_ & _ & Hi). destruct (register_all_spec ep (masks rlist wlist xlist) k0 (masks_keys _ _ _)) as (k1 & r1 & Er & Ht1 & Hr1).
  pose proof (masks_length rlist wlist xlist) as Hlen. assert (Hn : Z.of_nat (length (masks rlist wlist xlist)) <= n) by (unfold n; lia).
  assert (Hfin : forall k2, exists k3 r3, drop_object ep k2 = Some (k3, r3) /\ p_now k2 <= p_now k3 <= p_now k2 + 2 * lag /\
    forall e, r3 = Exc e -> call_failed (Exc e)).
  { intros k2. destruct (drop_object_closes ep k2) as (k3 & r3 & E3 & _ & H3 & He). exists k3, r3. split_and!; [done|lia|lia|].
    intros e [k4 [k5 Ec]]%He. exists ep, k4, k5, e. auto. }
  destruct r1 as [[]|e].
  - destruct (select_epoll_loop rlist wlist xlist t ep k1) as (fuel & k2 & res & E & Ht2 & Hr).
    { apply map_eq. intros fd. rewrite Hr1, Hi, lookup_empty. by destruct (list_to_map _ !! fd). }
    destruct (Hfin k2) as (k3 & r3 & E3 & Ht3 & He3). exists fuel, k3, (match r3 with Ret _ => res | Exc e => Exc e end).
    unfold pbind at 1. rewrite Er. simpl set_deadline. rewrite E, E3. split_and!; [by destruct r3|nia|]. destruct r3 as [u|e]; [|right; by apply He3].
    destruct res as [[[[r w] x]|]|e]; [|destruct Hr; [left; by eauto|by right]..].
    destruct Hr as (k4 & Ht4 & Ha & Hb & Hc & Hd). exists k4. split_and!; [lia|lia|done..|]. intros Eq. destruct (Hd Eq) as [?|[?|?]]; [left; lia|right; left; lia|auto].
  - destruct (Hfin k1) as (k3 & r3 & E3 & Ht3 & He3). exists 0%nat, k3, (match r3 with Ret _ => Ret None | Exc e => Exc e end). unfold pbind at 1. rewrite Er. simpl.
    rewrite E3. split_and!; [by destruct r3|nia|]. destruct r3 as [u|e]; [|right; by apply He3]. right. destruct Hr1 as (fd & m & k4 & e & Ee & Eo').
    exists ep, k4, k1, e. left. rewrite Eo'. eauto.
  - destruct (Hfin k1) as (k3 & r3 & E3 & Ht3 & He3). exists 0%nat, k3, (match r3 with Ret _ => Exc e | Exc e => Exc e end). unfold pbind at 1. rewrite Er. simpl.
    rewrite E3. split_and!; [by destruct r3|nia|]. destruct r3 as [u|e']; [|right; by apply He3]. right. destruct Hr1 as (fd & m & k4 & Ee & Eo').
    exists ep, k4, k1, e. left. rewrite Eo'. eauto.
Qed.

Lemma wait_loop_timed {E} (drain : pio (K := K) (list E)) (wait : pio bool) d k :
  steady drain -> (forall k, is_Some (drain k)) ->
  (forall k, exists k' r, wait k = Some (k', r) /\ p_open k' = p_open k /\ p_now k <= p_now k' /\
     match r with Ret true => p_now k < p_now k' /\ p_now k < d | Ret false => d <= p_now k' | Exc _ => True end) ->
  exists fuel k' res, wait_loop fuel drain wait k = Some (k', res) /\ p_open k' = p_open k /\
    match res with Ret [] => d <= p_now k' | Ret ev => exists k1, drain k1 = Some (k', Ret ev) | Exc _ => True end.
Proof.
  intros Hst Htot Hw. remember (Z.to_nat (d - p_now k)) as m eqn:Em. revert k Em. induction m as [m IH] using lt_wf_ind. intros k Em.
  destruct (Htot k) as [[k1 r1] E1]. pose proof (Hst _ _ _ E1) as [Ho1 Ht1]. destruct r1 as [[|e l]|e].
  - destruct (Hw k1) as (k2 & r2 & E2 & Ho2 & Ht2 & H2). destruct r2 as [[]|e].
    + destruct (IH (Z.to_nat (d - p_now k2)) ltac:(lia) k2 eq_refl) as (fuel & k' & res & EL & Ho & Hr). exists (S fuel), k', res.
      cbn [wait_loop]. unfold pbind. rewrite E1, E2. split_and!; [done|congruence|done].
    + exists 1%nat, k2, (Ret []). cbn [wait_loop]. unfold pbind. rewrite E1, E2. split_and!; [done|congruence|done].
    + exists 1%nat, k2, (Exc e). cbn [wait_loop]. unfold pbind. rewrite E1, E2. split_and!; [done|congruence|done].
  - exists 1%nat, k1, (Ret (e :: l)). cbn [wait_loop]. unfold pbind. rewrite E1. split_and!; [done..|]. by exists k.
  - exists 1%nat, k1, (Exc e). cbn [wait_loop]. unfold pbind. rewrite E1. done.
Qed.

Lemma backing_wait_spec fd d k : exists k' r, backing_fd_wait fd (Some d) k = Some (k', r) /\ p_open k' = p_open k /\ p_now k <= p_now k' /\
  match r with Ret true => p_now k < p_now k' /\ p_now k < d | Ret false => d <= p_now k' | Exc _ => True end.
Proof.
  unfold backing_fd_wait. destruct (Z.leb_spec (d - p_now k) 0) as [Hd|Hd]; [exists k, (Ret false); split_and!; [done|done|lia|lia]|].
  set (ms := Z.max 1 _). destruct (pl_wait_timed fd ms k ltac:(lia)) as [[k1 [rc|e]] E]; rewrite E; apply pl_wait in E as (Ht & Ho & _).
  - destruct (rc =? _); eexists _, _; (split_and!; [done|done|lia|]); simpl; first [done|lia].
  - destruct (is_oserror e); eexists _, _; (split_and!; [done|done|lia|]); simpl; first [done|lia].
Qed.

Lemma poll_wait_spec d k : exists k' r, poll_wait (Some d) k = Some (k', r) /\ p_open k' = p_open k /\ p_now k <= p_now k' /\
  match r with Ret true => p_now k < p_now k' /\ p_now k < d | Ret false => d <= p_now k' | Exc _ => True end.
Proof.
  unfold poll_wait. destruct (Z.leb_spec (d - p_now k) 0) as [Hd|Hd]; [exists k, (Ret false); split_and!; [done|done|lia|lia]|].
  destruct (pl_sleep (Z.min REPROBE (d - p_now k)) k) as [Ho Ht]. specialize (Ht ltac:(unfold REPROBE; lia)).
  exists (p_sleep (Z.min REPROBE (d - p_now k)) k), (Ret true). split_and!; [done|done|lia|lia|lia].
Qed.

(** The selector wrappers with a timeout end, hold on to no descriptor, and report an empty list only
    once the time is over; every other result is one report of the kernel object they wrap. *)
Theorem selectors_timed t maxevents changes (max_events : Z) po ep kq k : 0 <= t -> max_events ≠ 0 ->
  (exists fuel k' res, copoll_poll true fuel po (Some t) k = Some (k', res) /\ p_open k' = p_open k /\
     match res with Ret [] => p_now k + t <= p_now k' | Ret ev => exists k1, p_poll po k1 = (k', Ret ev) | Exc _ => True end) /\
  (exists fuel k' res, coepoll_poll true fuel ep (Some t) maxevents k = Some (k', res) /\ p_open k' = p_open k /\
     match res with Ret [] => p_now k + t <= p_now k' | Ret ev => exists k1, p_epoll_wait ep maxevents k1 = (k', Ret ev) | Exc _ => True end) /\
  (exists fuel k' res, cokqueue_control true fuel kq changes max_events (Some t) k = Some (k', res) /\ p_open k' = p_open k /\
     match res with Ret [] => p_now k + t <= p_now k' | Ret ev => exists k1, p_control kq [] max_events k1 = (k', Ret ev) | Exc _ => True end).
Proof.
  intros Ht Hm. split_and!.
  - destruct (wait_loop_timed (sys (p_poll po)) (poll_wait (Some (p_now k + t))) (p_now k + t) k) as (fuel & k' & res & E & Ho & Hr).
    { apply steady_sys, pl_poll. } { intros k1. unfold sys. eauto. } { apply poll_wait_spec. }
    exists fuel, k', res. unfold copoll_poll, opt_deadline. simpl. rewrite (proj2 (Z.ltb_ge t 0)) by lia. split_and!; [done..|].
    destruct res as [[|e l]|e]; [done| |done]. destruct Hr as [k1 [= Hr]]. by exists k1.
  - destruct (wait_loop_timed (sys (p_epoll_wait ep maxevents)) (backing_fd_wait ep (Some (p_now k + t))) (p_now k + t) k) as (fuel & k' & res & E & Ho & Hr).
    { apply steady_epoll_wait. } { intros k1. unfold sys. eauto. } { apply backing_wait_spec. }
    exists fuel, k', res. unfold coepoll_poll, opt_deadline. simpl. rewrite (proj2 (Z.ltb_ge t 0)) by lia. split_and!; [done..|].
    destruct res as [[|e l]|e]; [done| |done]. destruct Hr as [k1 [= Hr]]. by exists k1.
  - unfold cokqueue_control. simpl. rewrite (proj2 (Z.eqb_neq max_events 0)) by done. unfold pbind.
    set (pre := (if bool_decide (changes = []) then pret [] else sys (p_control kq changes 0)) k).
    assert (exists k1 r1, pre = Some (k1, r1) /\ p_open k1 = p_open k /\ p_now k <= p_now k1) as (k1 & r1 & -> & Ho1 & Ht1).
    { unfold pre. case_bool_decide; [exists k, (Ret []); split_and!; [done..|lia]|]. unfold sys. pose proof (pl_control kq changes 0 k) as [? ?].
      destruct (p_control kq changes 0 k) as [k1 r1]. by exists k1, r1. }
    destruct r1 as [l1|e]; [|by exists 0%nat, k1, (Exc e)].
    destruct (wait_loop_timed (sys (p_control kq [] max_events)) (backing_fd_wait kq (Some (p_now k1 + t))) (p_now k1 + t) k1) as (fuel & k' & res & E & Ho & Hr).
    { apply steady_sys. intros. apply pl_control. } { intros k2. unfold sys. eauto. } { apply backing_wait_spec. }
    exists fuel, k', res. simpl. split_and!; [done|congruence|]. destruct res as [[|e l]|e]; [lia| |done]. destruct Hr as [k2 [= Hr]]. by exists k2.
Qed.
End proofs.

(** ** A kernel *)

(** A clock, the open descriptors, what the objects watch, and which events hold at which
    descriptor before each probe, one list per probe.  An untimed wait does not return. *)
Record pdemo := PDemo { pd_now : Z; pd_open : gset Z; pd_watch : gmap Z (gmap Z Z); pd_events : list (list (Z * Z)) }.

Definition pd_tick (n : Z) (k : pdemo) : pdemo := PDemo (pd_now k + n) (pd_open k) (pd_watch k) (pd_events k).
Definition pd_interest (k : pdemo) (ep : Z) : gmap Z Z := default ∅ (pd_watch k !! ep).
Definition pd_ready (k : pdemo) (fd : Z) : Z := default 0 ((list_to_map (default [] (head (pd_events k))) : gmap Z Z) !! fd).
Definition pd_new (k : pdemo) : pdemo * out Z :=
  let fd := fresh_fd (pd_open k) in (PDemo (pd_now k) ({[fd]} ∪ pd_open k) (<[fd := ∅]> (pd_watch k)) (pd_events k), Ret fd).
Definition pd_events_of (k : pdemo) (ep : Z) : list (Z * Z) :=
  omap (λ p, let ev := Z.land (pd_ready k p.1) (watched p.2) in if ev =? 0 then None else Some (p.1, ev)) (map_to_list (pd_interest k ep)).
Definition pd_next (k : pdemo) : pdemo := PDemo (pd_now k) (pd_open k) (pd_watch k) (tail (pd_events k)).
Definition pd_probe (ep maxevents : Z) (k : pdemo) : pdemo * out (list (Z * Z)) :=
  (pd_next k, Ret (take (Z.to_nat (poll_cap maxevents)) (pd_events_of k ep))).

#[export] Instance pdemo_net : PollNet pdemo := {
  p_now := pd_now;
  p_open := pd_open;
  p_interest := pd_interest;
  p_ready := pd_ready;
  p_lag := 10;
  p_wait _ ms k := if 0 <=? ms then Some (pd_tick (ms * 1000 + 1) k, Ret 0) else None;
  p_sleep t k := pd_tick (Z.max 0 t) k;
  p_unregister := None;
  p_epoll := pd_new;
  p_register ep fd m k := (PDemo (pd_now k) (pd_open k) (<[ep := <[fd := m]> (pd_interest k ep)]> (pd_watch k)) (pd_events k), Ret tt);
  p_epoll_wait := pd_probe;
  p_kqueue := pd_new;
  p_control _ _ _ k := (k, Ret []);
  p_close fd k := (PDemo (pd_now k) (pd_open k ∖ {[fd]}) (pd_watch k) (pd_events k), Ret tt);
  p_poll _ k := (pd_next k, Ret (default [] (head (pd_events k))));
  p_block_select _ _ _ _ k := (k, Ret ([], [], []));
  p_block_poll _ _ k := (k, Ret []);
  p_block_epoll _ _ _ k := (k, Ret []);
  p_block_control _ _ _ _ k := (k, Ret [])
}.

Lemma pd_events_elem k ep fd ev : (fd, ev) ∈ pd_events_of k ep <->
  exists m, pd_interest k ep !! fd = Some m /\ ev = Z.land (pd_ready k fd) (watched m) /\ ev ≠ 0.
Proof.
  unfold pd_events_of. rewrite list_elem_of_omap. split.
  - intros ([fd' m] & Hin%elem_of_map_to_list & H). simpl in H. destruct (Z.eqb_spec (Z.land (pd_ready k fd') (watched m)) 0); [done|]. injection H as <- <-. eauto.
  - intros (m & Em & -> & Hne). exists (fd, m). rewrite elem_of_map_to_list. split; [done|]. simpl. by rewrite (proj2 (Z.eqb_neq _ _)).
Qed.

Lemma pd_events_nodup k ep : NoDup (pd_events_of k ep).*1.
Proof.
  unfold pd_events_of. pose proof (NoDup_fst_map_to_list (pd_interest k ep)) as H. induction (map_to_list (pd_interest k ep)) as [|[fd m] l IH]; simpl; [constructor|].
  apply NoDup_cons in H as [Hn H]. destruct (Z.land (pd_ready k fd) (watched m) =? 0); [by apply IH|]. simpl. apply NoDup_cons. split; [|by apply IH].
  intros ([fd' ev] & Efd & ([fd2 m2] & Hin & E)%list_elem_of_omap)%list_elem_of_fmap. apply Hn. simpl in *. case_match; [done|]. injection E as <- <-. subst fd.
  apply list_elem_of_fmap. by exists (fd2, m2).
Qed.

#[export] Instance pdemo_laws : @PollLaws pdemo pdemo_net.
Proof.
  split; simpl; try done.
  - intros fd ms k k' r. destruct (Z.leb_spec 0 ms); [|done]. intros [= <- <-]. simpl. split_and!; [lia|done..|lia].
  - intros fd ms k H. rewrite (proj2 (Z.leb_le 0 ms) H). eauto.
  - intros t k. split; [done|lia].
  - intros k k' r [= <- <-]. simpl. split_and!; [lia|lia|apply fresh_fd_new|done|]. unfold pd_interest. simpl. by rewrite lookup_insert_eq.
  - intros k k' r [= <- <-]. simpl. split_and!; [lia|apply fresh_fd_new|done].
  - intros ep fd m k k' r [= <- <-]. simpl. split_and!; [done|lia|lia|]. unfold pd_interest at 1. simpl. by rewrite lookup_insert_eq.
  - intros ep n k k' r [= <- <-]. simpl. split_and!; [done|lia|lia|done| | |].
    + rewrite fmap_take. eapply sublist_NoDup; [apply (pd_events_nodup k ep)|apply sublist_take].
    + intros fd ev Hin. apply pd_events_elem. by apply subseteq_take in Hin.
    + intros Hlen fd m Em Hne. rewrite length_take in Hlen. rewrite take_ge by lia. apply list_elem_of_fmap. exists (fd, Z.land (pd_ready k fd) (watched m)).
      split; [done|]. apply pd_events_elem. eauto.
  - intros fd k. split; [done|lia].
Qed.

Definition demo_r : obj := Obj 1 7.
Definition demo_dup : obj := Obj 2 7.

(** Two objects of one descriptor in one list, a socket and its number: only the last one is
    reported. *)
Theorem select_drops_duplicate :
  (match co_select_via_epoll 2 [demo_r; demo_dup] [] [] None (PDemo 0 ∅ ∅ [[(7, EPOLLIN)]]) with Some (_, r) => Some r | None => None end) =
  Some (Ret (Some ([demo_dup], [], []))).
Proof. vm_compute. reflexivity. Qed.

(** A hang-up is reported by epoll for every registered descriptor but counts for no [xlist]: an
    untimed [select] for exceptional conditions returns three empty lists. *)
Theorem select_hup_empty :
  (match co_select_via_epoll 2 [] [] [demo_r] None (PDemo 0 ∅ ∅ [[(7, EPOLLHUP)]]) with Some (_, r) => Some r | None => None end) =
  Some (Ret (Some ([], [], []))).
Proof. vm_compute. reflexivity. Qed.

Definition demo_k : pdemo := PDemo 0 ∅ ∅ [[]; [(7, EPOLLIN)]].

Lemma select_no_leak_witness : exists k', patched_select true true false 3 [demo_r] [] [] (Some 5000) demo_k =
  Some (k', Ret ([demo_r], [], [])) /\ p_open k' = p_open demo_k.
Proof.
  assert (Hr : snd <$> patched_select true true false 3 [demo_r] [] [] (Some 5000) demo_k = Some (Ret ([demo_r], [], [])))
    by (vm_compute; reflexivity).
  destruct (patched_select true true false 3 [demo_r] [] [] (Some 5000) demo_k) as [[k' r]|] eqn:E; [|discriminate].
  injection Hr as ->. exists k'. split; [reflexivity|]. exact (select_no_leak _ _ _ _ _ _ _ _ _ _ _ E).
Defined.

(** Nothing is ready at the first probe; the socket is at the second, after a wait. *)
Lemma select_timed_witness : exists fuel k' res, co_select_via_epoll fuel [demo_r] [] [] (Some 5000) demo_k = Some (k', res) /\
  p_now k' <= 5000 + 1000 + 6 * 10 /\
  match res with
  | Ret (Some (r, w, x)) => exists k1, answers (1 + 8 + 16) (p_ready k1) (1 < 1023) [demo_r] r
  | _ => (exists ep, wait_failed ep res) \/ call_failed res
  end.
Proof.
  destruct (select_timed [demo_r] [] [] 5000 demo_k ltac:(lia)) as (fuel & k' & res & E & Ht & Hr). exists fuel, k', res. split; [exact E|]. split; [exact Ht|].
  destruct res as [[[[r w] x]|]|e]; [|exact Hr..]. destruct Hr as (k1 & _ & H & _). exists k1. exact H.
Defined.

Lemma selectors_timed_witness : exists fuel k' res, coepoll_poll true fuel 9 (Some 3000) (-1) (PDemo 0 {[9]} {[9 := {[7 := 1]}]} [[]; [(7, EPOLLIN)]]) = Some (k', res) /\ p_open k' = {[9]}.
Proof.
  destruct (selectors_timed 3000 (-1) [] 1 0 9 9 (PDemo 0 {[9]} {[9 := {[7 := 1]}]} [[]; [(7, EPOLLIN)]]) ltac:(lia) ltac:(discriminate)) as (_ & (fuel & k' & res & E & Ho & _) & _).
  exists fuel, k', res. split; [exact E|exact Ho].
Defined.
