(* ===== verification/AioTask.v ===== *)
(** * Tasks of the asyncio bridge

    Models [class StackweaveTask] of [src/src/stackweave/aio/tasks.py]: the driver of a coroutine, the
    spawn of its fiber, [cancel], [uncancel] and the wake callback, for any number of tasks and
    futures of one loop.  A future is its state and the tasks its callbacks wake; a task is a future
    with a driver.  User code is the parameter [resume]: what a coroutine does when it is sent [None]
    or thrown an exception - the operations it performs and how it suspends or ends.  The fiber's
    pending wakes are counted as in Fibers.v.  The C task's shadow state, names, contexts and the
    debugging dump are not modelled. *)
From S2P Require Import Prelude.

(** How a future ends, and the exceptions thrown into coroutines: [asyncio.CancelledError] with its
    message, [KeyboardInterrupt] or [SystemExit], the driver's own [RuntimeError]s, others. *)
Inductive texc := XCancel (msg : option nat) | XFatal (e : nat) | XExc (e : nat) | XNotFuture | XSelfAwait.
Inductive outcome := ORes (v : nat) | OExc (e : texc) | OCancel (msg : option nat).

#[export] Instance texc_eq_dec : EqDecision texc.
Proof. solve_decision. Defined.
#[export] Instance outcome_eq_dec : EqDecision outcome.
Proof. solve_decision. Defined.

(** What a coroutine is resumed with; what it may do; how a step of it ends: a bare yield, something
    that is no future, a future, a socket wait inside the step, return, raise. *)
Inductive inp := ISend | IThrow (e : texc).
Inductive act := AcSet (f : nat) (o : outcome) | AcRead (f : nat) | AcCancel (id : nat) (msg : option nat) | AcUncancel (id : nat).
Inductive yres := YNone | YOther | YFut (f : nat) | YIo | YRet (v : nat) | YRaise (e : texc).

#[export] Instance inp_eq_dec : EqDecision inp.
Proof. solve_decision. Defined.

Section tasks.
Context {C : Type} (resume : C -> inp -> C * list act * yres).

(** Where a driver is: not spawned; at the top of its loop with [throw_exc]; in a socket wait
    (possibly cancelled); parked on a future; ended. *)
Inductive tpc := PNew | PTop (throw_exc : option texc) | PIo (cancelled : bool) | PPark (f : nat) | PEnd.

(** [_pgcoro], the driver, [_pgmustcancel], [_cancel_requested], [_pgcancelmsg], [_pgnumcancels],
    [_pgfutwaiter], the fiber's pending wakes, [_self_g is not None]. *)
Record task := Task {
  t_coro : C; t_pc : tpc; t_must : bool; t_req : bool; t_msg : option nat; t_num : nat; t_wait : option nat; t_tok : nat; t_g : bool
}.

(** A future or a task: its outcome, [_pg_cancelled_exc] (the message of the [CancelledError] that
    ended its coroutine), the tasks whose [_wake_unpark] is registered. *)
Record fobj := FObj { o_out : option outcome; o_raised : option (option nat); o_cbs : list nat; o_task : option task }.

(** The code does not read the log of resumed coroutines. *)
Record tworld := TWorld { w_objs : gmap nat fobj; w_fatal : option nat; w_log : list (nat * inp) }.

Abbreviation omap_t := (gmap nat fobj).

Definition upd_task (t : nat) (f : task -> task) (m : omap_t) : omap_t := alter (λ o, FObj (o_out o) (o_raised o) (o_cbs o) (f <$> o_task o)) t m.
Definition done (m : omap_t) (id : nat) : bool := match m !! id with Some o => bool_decide (is_Some (o_out o)) | None => false end.

Definition set_pc (p : tpc) (k : task) : task :=
  Task (t_coro k) p (t_must k) (t_req k) (t_msg k) (t_num k) (t_wait k) (t_tok k) (t_g k).
Definition set_must (b : bool) (k : task) : task :=
  Task (t_coro k) (t_pc k) b (t_req k) (t_msg k) (t_num k) (t_wait k) (t_tok k) (t_g k).

(** [_wake_unpark(fut)], [self._self_g.wake()] *)
Definition credit (k : task) : task :=
  Task (t_coro k) (t_pc k) (t_must k) (t_req k) (t_msg k) (t_num k) (t_wait k) (if t_g k then S (t_tok k) else t_tok k) (t_g k).

(** A future gets its outcome: its callbacks run at once. *)
Definition fire (id : nat) (out : outcome) (m : omap_t) : omap_t :=
  match m !! id with
  | Some o => foldl (λ m t, upd_task t credit m) (<[id := FObj (Some out) (o_raised o) [] (o_task o)]> m) (o_cbs o)
  | None => m
  end.

(** [cancel(msg)] of a task or a future; [None] is [RecursionError], when the tasks wait for one
    another in a circle. *)
Definition request (msg : option nat) (k : task) : task :=
  Task (t_coro k) (t_pc k) (t_must k) true msg (S (t_num k)) (t_wait k) (t_tok k) (t_g k).
(** [cancel_wait_fd()] or else [wake()] *)
Definition interrupt (k : task) : task :=
  match t_pc k with PIo _ => if t_g k then set_pc (PIo true) k else k | _ => credit k end.
Fixpoint cancel (fuel : nat) (id : nat) (msg : option nat) (m : omap_t) : omap_t * option bool :=
  match fuel with
  | O => (m, None)
  | S fuel' =>
      match m !! id with
      | None => (m, Some false)
      | Some o =>
          if bool_decide (is_Some (o_out o)) then (m, Some false)
          else
            match o_task o with
            | None => (fire id (OCancel msg) m, Some true)
            | Some k =>
                let m1 := upd_task id (request msg) m in
                match t_wait k with
                | Some f =>
                    match cancel fuel' f msg m1 with
                    | (m2, Some true) => (m2, Some true)
                    | (m2, Some false) => (upd_task id (set_must true) m2, Some true)
                    | (m2, None) => (m2, None)
                    end
                | None => (upd_task id (λ k, interrupt (set_must true k)) m1, Some true)
                end
            end
      end
  end.

(** [uncancel()] *)
Definition uncancel (k : task) : task :=
  let n := pred (t_num k) in
  Task (t_coro k) (t_pc k) (if decide (n = 0) then false else t_must k) (if decide (n = 0) then false else t_req k) (t_msg k) n
    (t_wait k) (t_tok k) (t_g k).

(** What [cancelled()], [exception()] and [_make_cancelled_error()] give the task that awaited [f]: the
    [CancelledError] the coroutine raised is handed out once. *)
Definition throw_of (o : outcome) : option texc :=
  match o with ORes _ => None | OExc e => Some e | OCancel msg => Some (XCancel msg) end.
Definition inp_of (th : option texc) : inp := match th with Some e => IThrow e | None => ISend end.
Definition taken (o : fobj) : option texc :=
  match o_out o, o_raised o with
  | Some (OCancel _), Some msg => Some (XCancel msg)
  | Some out, _ => throw_of out
  | None, _ => None
  end.
Definition set_raised (r : option (option nat)) (f : nat) (m : omap_t) : omap_t := alter (λ o, FObj (o_out o) r (o_cbs o) (o_task o)) f m.
Definition take (f : nat) (m : omap_t) : omap_t := set_raised None f m.

(** An operation of user code: a future that is done refuses to be set. *)
Definition run_act (m : omap_t) (a : act) : omap_t :=
  match a with
  | AcSet f out => if done m f then m else fire f out m
  | AcRead f => if done m f then take f m else m
  | AcCancel id msg => (cancel (S (size m)) id msg m).1
  | AcUncancel id => upd_task id uncancel m
  end.

(** The task ends with [out]: its callbacks fire, [_pg_settle_c] drops the fiber. *)
Definition finish (t : nat) (out : outcome) (raised : option (option nat)) (m : omap_t) : omap_t :=
  let m1 := if done m t then m else fire t out (set_raised raised t m) in
  upd_task t (λ k, Task (t_coro k) PEnd (t_must k) (t_req k) (t_msg k) (t_num k) (t_wait k) (t_tok k) false) m1.

Definition msg_of (m : omap_t) (t : nat) : option nat := match m !! t with Some o => match o_task o with Some k => t_msg k | None => None end | None => None end.

(** The driver from [yielded] on. *)
Definition classify (t : nat) (y : yres) (w : tworld) : tworld :=
  let m := w_objs w in
  match y with
  | YNone => TWorld (upd_task t (set_pc (PTop None)) m) (w_fatal w) (w_log w)
  | YOther => TWorld (upd_task t (set_pc (PTop (Some XNotFuture))) m) (w_fatal w) (w_log w)
  | YIo => TWorld (upd_task t (set_pc (PIo false)) m) (w_fatal w) (w_log w)
  | YFut f =>
      match m !! f with
      | None => TWorld (upd_task t (set_pc (PTop (Some XNotFuture))) m) (w_fatal w) (w_log w)
      | Some o =>
          if decide (f = t) then TWorld (upd_task t (set_pc (PTop (Some XSelfAwait))) m) (w_fatal w) (w_log w)
          else
            match o_out o with
            | Some _ => TWorld (upd_task t (set_pc (PTop (taken o))) (take f m)) (w_fatal w) (w_log w)
            | None =>
                let m1 := <[f := FObj None (o_raised o) (o_cbs o ++ [t]) (o_task o)]> m in
                TWorld (upd_task t (λ k, Task (t_coro k) (PPark f) (t_must k) (t_req k) (t_msg k) (t_num k) (Some f) (t_tok k) (t_g k)) m1)
                  (w_fatal w) (w_log w)
            end
      end
  | YRet v => TWorld (finish t (ORes v) None m) (w_fatal w) (w_log w)
  | YRaise (XCancel x) => TWorld (finish t (OCancel (msg_of m t)) (Some x) m) (w_fatal w) (w_log w)
  | YRaise (XFatal e) => TWorld (finish t (OExc (XFatal e)) None m) (Some (default e (w_fatal w))) (w_log w)
  | YRaise e => TWorld (finish t (OExc e) None m) (w_fatal w) (w_log w)
  end.

(** One [coro.send] or [coro.throw] and what follows, up to the next park or yield. *)
Definition go (t : nat) (k : task) (i : inp) (w : tworld) : tworld :=
  let '(c, acts, y) := resume (t_coro k) i in
  let running k := Task c (PTop None) (t_must k) (t_req k) (t_msg k) (t_num k) (t_wait k) (t_tok k) true in
  classify t y (TWorld (foldl run_act (upd_task t running (w_objs w)) acts) (w_fatal w) (w_log w ++ [(t, i)])).

(** The top of the loop: a pending cancel is delivered once. *)
Definition run_top (t : nat) (k : task) (th : option texc) (w : tworld) : tworld :=
  match t_must k, th with
  | true, None => go t k (IThrow (XCancel (t_msg k))) (TWorld (upd_task t (set_must false) (w_objs w)) (w_fatal w) (w_log w))
  | _, _ => go t k (inp_of th) w
  end.

(** [park_self()] returned: the predicate loop, then the cancel or the future's outcome.
    [remove_done_callback] compares with [is], and [self._wake_unpark] is a new bound method every
    time: it removes nothing. *)
Definition unpark (t f : nat) (k : task) (w : tworld) : tworld :=
  let again k := Task (t_coro k) (t_pc k) (t_must k) (t_req k) (t_msg k) (t_num k) (t_wait k) (pred (t_tok k)) (t_g k) in
  let leave th k := Task (t_coro k) (PTop th) false (t_req k) (t_msg k) (t_num k) None (pred (t_tok k)) (t_g k) in
  let m := w_objs w in
  if t_must k then TWorld (upd_task t (leave (Some (XCancel (t_msg k)))) m) (w_fatal w) (w_log w)
  else
    match m !! f with
    | Some o =>
        if bool_decide (is_Some (o_out o)) then TWorld (upd_task t (leave (taken o)) (take f m)) (w_fatal w) (w_log w)
        else TWorld (upd_task t again m) (w_fatal w) (w_log w)
    | None => TWorld (upd_task t again m) (w_fatal w) (w_log w)
    end.

(** [_pg_spawn_driver()]: a task cancelled before its spawn is settled, and never runs. *)
Definition spawn (t : nat) (k : task) (w : tworld) : tworld :=
  if t_req k then TWorld (finish t (OCancel (t_msg k)) None (w_objs w)) (w_fatal w) (w_log w)
  else TWorld (upd_task t (set_pc (PTop None)) (w_objs w)) (w_fatal w) (w_log w).

(** The spawn of the fiber failed: [asyncio.Future.cancel(self)] settles the C future only. *)
Definition spawn_fail (t : nat) (w : tworld) : tworld := TWorld (upd_task t (set_pc PEnd) (w_objs w)) (w_fatal w) (w_log w).

(** The next step of a task that needs nothing from outside. *)
Definition task_step (t : nat) (w : tworld) : option tworld :=
  match w_objs w !! t with
  | Some (FObj _ _ _ (Some k)) =>
      match t_pc k with
      | PNew => Some (spawn t k w)
      | PTop th => Some (run_top t k th w)
      | PPark f => if decide (0 < t_tok k) then Some (unpark t f k w) else None
      | PIo true => Some (go t k (IThrow (XCancel None)) w)
      | PIo false | PEnd => None
      end
  | _ => None
  end.

(** The descriptor of a socket wait became ready. *)
Definition io_ready (t : nat) (w : tworld) : option tworld :=
  match w_objs w !! t with
  | Some (FObj _ _ _ (Some k)) => match t_pc k with PIo false => Some (go t k ISend w) | _ => None end
  | _ => None
  end.

Definition new_future (w : tworld) : tworld * nat :=
  let id := fresh (dom (w_objs w)) in (TWorld (<[id := FObj None None [] None]> (w_objs w)) (w_fatal w) (w_log w), id).
(** [StackweaveTask(coro, defer_spawn=...)] *)
Definition new_task (c : C) (defer_spawn : bool) (w : tworld) : tworld * nat :=
  let id := fresh (dom (w_objs w)) in
  let k := Task c (if defer_spawn then PNew else PTop None) false false None 0 None 0 false in
  (TWorld (<[id := FObj None None [] (Some k)]> (w_objs w)) (w_fatal w) (w_log w), id).

(** Everything that can happen on the loop's thread; a wake meant for another park may be left over. *)
Inductive tstep : tworld -> tworld -> Prop :=
  | ts_future w : tstep w (new_future w).1
  | ts_task c d w : tstep w (new_task c d w).1
  | ts_act a w : tstep w (TWorld (run_act (w_objs w) a) (w_fatal w) (w_log w))
  | ts_step t w w' : task_step t w = Some w' -> tstep w w'
  | ts_spawn_fail t o k w : w_objs w !! t = Some o -> o_task o = Some k -> t_pc k = PNew -> t_req k = false -> tstep w (spawn_fail t w)
  | ts_io t w w' : io_ready t w = Some w' -> tstep w w'
  | ts_stray t w : tstep w (TWorld (upd_task t credit (w_objs w)) (w_fatal w) (w_log w)).

Definition tworld_init : tworld := TWorld ∅ None [].
Definition treach : tworld -> Prop := rtc tstep tworld_init.

(** ** The invariant *)

Lemma upd_task_lookup t f m x :
  upd_task t f m !! x = (λ o, if decide (x = t) then FObj (o_out o) (o_raised o) (o_cbs o) (f <$> o_task o) else o) <$> (m !! x).
Proof.
  unfold upd_task. destruct (decide (x = t)) as [->|Hne].
  - by rewrite lookup_alter_eq.
  - rewrite lookup_alter_ne by done. by destruct (m !! x).
Qed.

(** A parked task: its [_pgfutwaiter], and nothing lost: while the future is pending the task's wake
    is registered there, and once it is done the wake is there. *)
Definition task_ok (m : omap_t) (t : nat) (k : task) : Prop :=
  match t_pc k with
  | PPark f => t_wait k = Some f /\ t_g k = true /\ f ≠ t /\
      exists o, m !! f = Some o /\ (o_out o = None -> t ∈ o_cbs o) /\ (is_Some (o_out o) -> 0 < t_tok k)
  | PIo _ => t_wait k = None /\ t_g k = true
  | _ => t_wait k = None
  end.

Definition inv (m : omap_t) : Prop := forall t o k, m !! t = Some o -> o_task o = Some k -> task_ok m t k.

(** A change of a task that keeps its place and loses no wake. *)
Definition gentle (k k' : task) : Prop :=
  (t_pc k' = t_pc k \/ exists b b', t_pc k = PIo b /\ t_pc k' = PIo b') /\ t_wait k' = t_wait k /\ (t_g k = true -> t_g k' = true) /\ t_tok k <= t_tok k'.

Lemma gentle_ok m m' t k k' :
  (forall f o, m !! f = Some o -> exists o', m' !! f = Some o' /\ o_out o' = o_out o /\ o_cbs o' = o_cbs o) ->
  gentle k k' -> task_ok m t k -> task_ok m' t k'.
Proof.
  intros Hm (Hpc & Hw & Hg & Ht). unfold task_ok. destruct Hpc as [->|(b & b' & -> & ->)]; [|rewrite Hw; naive_solver].
  destruct (t_pc k) as [| | |f|]; rewrite ?Hw; try done; [naive_solver|]. intros (? & ? & ? & o & Ho & H1 & H2). destruct (Hm f o Ho) as (o' & Ho' & E1 & E2).
  split_and!; [done|auto|done|]. exists o'. rewrite E1, E2. split_and!; [done..|]. intros Hs. specialize (H2 Hs). lia.
Qed.

Lemma inv_upd t f m : inv m -> (forall o k, m !! t = Some o -> o_task o = Some k -> gentle k (f k)) -> inv (upd_task t f m).
Proof.
  intros Hi Hf x o k. rewrite upd_task_lookup. intros (o0 & Ho0 & ->)%fmap_Some Hk.
  assert (Hm : forall f' o, m !! f' = Some o -> exists o', upd_task t f m !! f' = Some o' /\ o_out o' = o_out o /\ o_cbs o' = o_cbs o).
  { intros f' o1 Ho1. rewrite upd_task_lookup, Ho1. simpl. eexists. split; [done|]. by destruct (decide (f' = t)). }
  case_decide as E.
  - subst x. simpl in Hk. apply fmap_Some in Hk as (k0 & Hk0 & ->). eapply gentle_ok; [exact Hm|by eapply Hf|by eapply Hi].
  - eapply gentle_ok; [exact Hm| |by eapply Hi]. split_and!; auto.
Qed.

Lemma gentle_request msg k : gentle k (request msg k).
Proof. split_and!; auto. Qed.
Lemma gentle_must b k : gentle k (set_must b k).
Proof. split_and!; auto. Qed.
Lemma gentle_credit k : gentle k (credit k).
Proof. split_and!; auto. simpl. destruct (t_g k); lia. Qed.
Lemma gentle_uncancel k : gentle k (uncancel k).
Proof. split_and!; auto. Qed.
Lemma gentle_interrupt k : gentle k (interrupt (set_must true k)).
Proof.
  unfold interrupt. simpl. destruct (t_pc k) as [| |b| |] eqn:E.
  3: destruct (t_g k) eqn:Eg; split_and!; simpl; auto; right; by exists b, true.
  all: split_and!; simpl; auto; destruct (t_g k); lia.
Qed.

(** All the callbacks of a future. *)
Definition credits (n : nat) (k : task) : task := Nat.iter n credit k.

Lemma credits_spec n k : t_pc (credits n k) = t_pc k /\ t_wait (credits n k) = t_wait k /\ t_g (credits n k) = t_g k /\
  t_tok (credits n k) = t_tok k + if t_g k then n else 0.
Proof.
  induction n as [|n (E1 & E2 & E3 & E4)]; simpl; [split_and!; auto; destruct (t_g k); lia|]. fold (credits n k).
  rewrite E3, E4. split_and!; auto. destruct (t_g k); lia.
Qed.

Lemma credit_all l m x : foldl (λ m t, upd_task t credit m) m l !! x =
  (λ o, FObj (o_out o) (o_raised o) (o_cbs o) (credits (count_occ Nat.eq_dec l x) <$> o_task o)) <$> (m !! x).
Proof.
  revert m. induction l as [|t l IH]; intros m; simpl.
  - destruct (m !! x) as [[a r b [k|]]|]; done.
  - rewrite IH, upd_task_lookup. destruct (m !! x) as [[a r b k]|]; [|done]. simpl. f_equal. case_decide as E; simpl.
    + subst. destruct (Nat.eq_dec t t) as [_|]; [|done]. f_equal. destruct k as [k|]; [|done]. simpl. f_equal. unfold credits.
      by rewrite <- Nat.iter_succ_r.
    + destruct (Nat.eq_dec t x) as [->|_]; [done|]. done.
Qed.

Lemma fire_lookup id out m o x : m !! id = Some o ->
  fire id out m !! x = (λ o', FObj (if decide (x = id) then Some out else o_out o') (o_raised o') (if decide (x = id) then [] else o_cbs o')
    (credits (count_occ Nat.eq_dec (o_cbs o) x) <$> o_task o')) <$> (m !! x).
Proof.
  intros Ho. unfold fire. rewrite Ho, credit_all. destruct (decide (x = id)) as [->|Hne].
  - by rewrite lookup_insert_eq, Ho.
  - by rewrite lookup_insert_ne.
Qed.

(** No wake is lost when a future is done: every task parked on it has its wake. *)
Lemma inv_fire id out m : inv m -> inv (fire id out m).
Proof.
  intros Hi. destruct (m !! id) as [o|] eqn:Ho; [|unfold fire; by rewrite Ho]. intros x ox k. rewrite (fire_lookup id out m o x Ho).
  intros (o0 & Ho0 & ->)%fmap_Some Hk. simpl in Hk. apply fmap_Some in Hk as (k0 & Hk0 & ->). specialize (Hi x o0 k0 Ho0 Hk0).
  destruct (credits_spec (count_occ Nat.eq_dec (o_cbs o) x) k0) as (E1 & E2 & E3 & E4). unfold task_ok in *. rewrite E1, E2.
  destruct (t_pc k0) as [| | |f|]; try done; [by rewrite E3|]. destruct Hi as (Hw & Hg & Hne & q & Hof & H1 & H2). split_and!; [done|congruence|done|].
  rewrite (fire_lookup id out m o f Ho), Hof. eexists. split; [done|]. simpl. rewrite E4, Hg. case_decide as Ef.
  - subst f. rewrite Ho in Hof. simplify_eq. split; [done|]. intros _. destruct (o_out q) as [x0|] eqn:Eo.
    + specialize (H2 ltac:(eauto)). lia.
    + specialize (H1 eq_refl). apply list_elem_of_In, (count_occ_In Nat.eq_dec) in H1. lia.
  - split; [done|]. intros Hs. specialize (H2 Hs). lia.
Qed.

(** *** What the code of a task does to the other objects *)

(** Outcomes stay, tasks keep their place. *)
Definition fobj_ext (o o' : fobj) : Prop := (is_Some (o_out o) -> o_out o' = o_out o) /\ option_Forall2 gentle (o_task o) (o_task o').
Definition ext (m m' : omap_t) : Prop := forall x, option_Forall2 fobj_ext (m !! x) (m' !! x).

#[local] Instance gentle_preorder : PreOrder gentle.
Proof.
  split; [intros k; split_and!; auto|]. intros k1 k2 k3 (P1 & W1 & G1 & T1) (P2 & W2 & G2 & T2). split_and!; [|congruence|auto|lia].
  destruct P1 as [P1|(b & b' & P1 & P1')], P2 as [P2|(c & c' & P2 & P2')];
    [left; congruence|right; exists c, c'; split; congruence|right; exists b, b'; split; congruence|right; exists b, c'; done].
Qed.
#[local] Instance fobj_ext_preorder : PreOrder fobj_ext.
Proof.
  split; [by intros o; split|]. intros o1 o2 o3 (A1 & A2) (B1 & B2). split; [|by transitivity (o_task o2)]. intros Hs. specialize (A1 Hs).
  rewrite <- A1 in Hs |- *. auto.
Qed.
#[local] Instance ext_preorder : PreOrder ext.
Proof. split; [intros m x; reflexivity|]. intros m1 m2 m3 H12 H23 x. by transitivity (m2 !! x). Qed.

Lemma ext_lookup m m' x o : ext m m' -> m !! x = Some o -> exists o', m' !! x = Some o' /\ fobj_ext o o'.
Proof. intros H Ho. specialize (H x). rewrite Ho in H. inversion H; subst. eauto. Qed.

Lemma ext_map m m' : (forall x, exists g, m' !! x = g <$> m !! x /\ forall o, m !! x = Some o -> fobj_ext o (g o)) -> ext m m'.
Proof. intros H x. destruct (H x) as (g & -> & Hg). destruct (m !! x); simpl; constructor. auto. Qed.

Lemma ext_upd t f m : (forall o k, m !! t = Some o -> o_task o = Some k -> gentle k (f k)) -> ext m (upd_task t f m).
Proof.
  intros Hf. apply ext_map. intros x. eexists. split; [apply upd_task_lookup|]. intros o Ho. simpl. destruct (decide (x = t)) as [->|Hne]; [|done].
  split; [done|]. simpl. destruct (o_task o) as [k|] eqn:Hk; simpl; constructor. by eapply Hf.
Qed.

Lemma gentle_credits n k : gentle k (credits n k).
Proof. destruct (credits_spec n k) as (E1 & E2 & E3 & E4). split_and!; [by left|done|congruence|rewrite E4; lia]. Qed.

Lemma ext_fire id out m : done m id = false -> ext m (fire id out m).
Proof.
  intros Hd. destruct (m !! id) as [q|] eqn:Hq; [|unfold fire; by rewrite Hq]. apply ext_map. intros x.
  eexists. split; [by apply fire_lookup|]. intros o Ho. split; simpl.
  - intros Hs. case_decide; [|done]. subst. unfold done in Hd. rewrite Ho in Hd. by apply bool_decide_eq_false in Hd.
  - destruct (o_task o); simpl; constructor. apply gentle_credits.
Qed.

Lemma set_raised_lookup r f m x :
  set_raised r f m !! x = (λ o, FObj (o_out o) (if decide (x = f) then r else o_raised o) (o_cbs o) (o_task o)) <$> m !! x.
Proof.
  unfold set_raised. destruct (decide (x = f)) as [->|Hne]; [by rewrite lookup_alter_eq|]. rewrite lookup_alter_ne by done.
  by destruct (m !! x) as [[]|].
Qed.
Lemma ext_set_raised r f m : ext m (set_raised r f m).
Proof. apply ext_map. intros x. eexists. split; [apply set_raised_lookup|]. by split. Qed.
Lemma inv_set_raised r f m : inv m -> inv (set_raised r f m).
Proof.
  intros Hi x o k. rewrite set_raised_lookup. intros (o0 & Ho0 & ->)%fmap_Some Hk. eapply (gentle_ok m); [|reflexivity|by eapply Hi].
  intros f' o1 Ho1. rewrite set_raised_lookup, Ho1. eexists. split; [done|]. done.
Qed.

Lemma cancel_ext fuel id msg m : ext m (cancel fuel id msg m).1 /\ (inv m -> inv (cancel fuel id msg m).1).
Proof.
  revert id m. induction fuel as [|fuel IH]; intros id m; simpl; [by split|]. destruct (m !! id) as [o|] eqn:Ho; [|by split].
  case_bool_decide as Hd; [by split|].
  assert (Hnd : done m id = false) by (unfold done; rewrite Ho; by apply bool_decide_eq_false).
  destruct (o_task o) as [k|]; [|split; [by apply ext_fire|by apply inv_fire]].
  assert (E1 : ext m (upd_task id (request msg) m)) by (apply ext_upd; intros; apply gentle_request).
  assert (I1 : inv m -> inv (upd_task id (request msg) m)) by (intros; apply inv_upd; [done|]; intros; apply gentle_request).
  destruct (t_wait k) as [f|]; simpl.
  - destruct (IH f (upd_task id (request msg) m)) as (E2 & I2). destruct (cancel fuel f msg (upd_task id (request msg) m)) as [m2 [[|]|]]; simpl in *.
    1, 3: split; [by etrans|auto].
    split; [|intros; apply inv_upd; [auto|]; intros; apply gentle_must]. etrans; [done|]. etrans; [done|]. apply ext_upd. intros; apply gentle_must.
  - split; [etrans; [done|]; apply ext_upd; intros; apply gentle_interrupt|]. intros. apply inv_upd; [auto|]. intros; apply gentle_interrupt.
Qed.

Lemma run_act_ext m a : ext m (run_act m a) /\ (inv m -> inv (run_act m a)).
Proof.
  destruct a as [f out|f|id msg|id]; simpl.
  - destruct (done m f) eqn:E; [by split|]. split; [by apply ext_fire|by apply inv_fire].
  - destruct (done m f); [|by split]. split; [apply ext_set_raised|apply inv_set_raised].
  - apply (cancel_ext (S (size m))).
  - split; [apply ext_upd|intros; apply inv_upd; [done|]]; intros; apply gentle_uncancel.
Qed.

Lemma run_acts_ext l m : ext m (foldl run_act m l) /\ (inv m -> inv (foldl run_act m l)).
Proof.
  revert m. induction l as [|a l IH]; intros m; simpl; [by split|]. destruct (run_act_ext m a) as (E1 & I1), (IH (run_act m a)) as (E2 & I2).
  split; [by etrans|auto].
Qed.

(** *** Steps *)

(** The task runs: it is at the top of its loop, on its fiber. *)
Definition running (t : nat) (m : omap_t) : Prop := exists o k, m !! t = Some o /\ o_task o = Some k /\ t_pc k = PTop None /\ t_g k = true.

Lemma running_ext t m m' : ext m m' -> running t m -> running t m'.
Proof.
  intros He (o & k & Ho & Hk & Hp & Hg). destruct (ext_lookup _ _ _ _ He Ho) as (o' & Ho' & _ & Ht). rewrite Hk in Ht.
  inversion Ht as [? k' (Hp' & _ & Hg' & _) E1 E2|]; subst. exists o', k'. split_and!; auto. destruct Hp' as [|(b & b' & ? & ?)]; congruence.
Qed.

Lemma task_ok_upd t f m x k : task_ok m x k -> task_ok (upd_task t f m) x k.
Proof.
  apply gentle_ok; [|reflexivity]. intros f' o1 Ho1. rewrite upd_task_lookup, Ho1. eexists. split; [done|]. simpl. by case_decide.
Qed.

Lemma inv_place t f m : inv m -> (forall o k, m !! t = Some o -> o_task o = Some k -> task_ok m t (f k)) -> inv (upd_task t f m).
Proof.
  intros Hi Hf x o k. rewrite upd_task_lookup. intros (o0 & Ho0 & ->)%fmap_Some Hk. apply task_ok_upd. case_decide as E; [|by eapply Hi].
  subst x. simpl in Hk. apply fmap_Some in Hk as (k0 & Hk0 & ->). by eapply Hf.
Qed.

Lemma running_idle t m o k : inv m -> running t m -> m !! t = Some o -> o_task o = Some k -> t_wait k = None /\ t_g k = true.
Proof.
  intros Hi (o' & k' & Ho' & Hk' & Hp & Hg) Ho Hk. simplify_eq. split; [|done]. specialize (Hi t _ _ Ho' Hk'). unfold task_ok in Hi. by rewrite Hp in Hi.
Qed.

Lemma inv_set_top t th m : inv m -> running t m -> inv (upd_task t (set_pc (PTop th)) m).
Proof. intros Hi Hr. apply inv_place; [done|]. intros o k Ho Hk. by destruct (running_idle t m o k Hi Hr Ho Hk). Qed.

(** A done-callback more loses nothing. *)
Lemma inv_register f t q m : inv m -> m !! f = Some q -> o_out q = None ->
  inv (<[f := FObj None (o_raised q) (o_cbs q ++ [t]) (o_task q)]> m).
Proof.
  intros Hi Hq Hn x o k Hx Hk.
  assert (Hok : task_ok m x k).
  { destruct (decide (x = f)) as [->|Hne]; [rewrite lookup_insert_eq in Hx|rewrite lookup_insert_ne in Hx by done]; simplify_eq; by eapply Hi. }
  unfold task_ok in *. destruct (t_pc k) as [| | |f'|]; try done. destruct Hok as (? & ? & ? & q' & Hq' & H1 & H2). split_and!; [done..|].
  destruct (decide (f' = f)) as [->|Hne]; [|rewrite lookup_insert_ne by done; eauto]. rewrite lookup_insert_eq. simplify_eq.
  eexists. split; [done|]. simpl. split; [|by intros [? ?]]. intros _. apply elem_of_app. auto.
Qed.

Lemma inv_finish t out r m : inv m -> (forall o k, m !! t = Some o -> o_task o = Some k -> t_wait k = None) -> inv (finish t out r m).
Proof.
  intros Hi Hw. unfold finish. set (m1 := if done m t then m else fire t out (set_raised r t m)).
  assert (Hi1 : inv m1) by (subst m1; destruct (done m t); [done|]; by apply inv_fire, inv_set_raised).
  apply inv_place; [done|]. intros o k Ho Hk. unfold task_ok. simpl.
  assert (He : ext m m1).
  { subst m1. destruct (done m t) eqn:Ed; [done|]. etrans; [apply (ext_set_raised r t)|]. apply ext_fire. unfold done in *. rewrite set_raised_lookup.
    destruct (m !! t); done. }
  specialize (He t). rewrite Ho in He. inversion He as [o0 ? (_ & Ht) E1 E2|]; subst. rewrite Hk in Ht.
  inversion Ht as [k0 ? (_ & Hw' & _) E3 E4|]; subst. rewrite Hw'. by eapply Hw.
Qed.

Lemma inv_classify t y w : inv (w_objs w) -> running t (w_objs w) -> inv (w_objs (classify t y w)).
Proof.
  intros Hi Hr. pose proof (λ o k, running_idle t _ o k Hi Hr) as Hidle. destruct y as [| |f| |v|e]; simpl.
  - by apply inv_set_top.
  - by apply inv_set_top.
  - destruct (w_objs w !! f) as [q|] eqn:Hq; [|by apply inv_set_top]. case_decide as Hft; [by apply inv_set_top|].
    destruct (o_out q) as [out|] eqn:Hout; simpl.
    { apply inv_set_top; [by apply inv_set_raised|]. eapply running_ext; [apply ext_set_raised|done]. }
    apply inv_place; [by apply inv_register|]. intros o k. rewrite lookup_insert_ne by done. intros Ho Hk.
    destruct (Hidle o k Ho Hk) as (_ & Hg). unfold task_ok. simpl. rewrite lookup_insert_eq. split_and!; [done..|]. eexists. split; [done|].
    simpl. split; [intros _; apply elem_of_app; right; by left|by intros [? ?]].
  - apply inv_place; [done|]. intros o k Ho Hk. destruct (Hidle o k Ho Hk). by split.
  - apply inv_finish; [done|]. intros o k Ho Hk. by destruct (Hidle o k Ho Hk).
  - destruct e; simpl; (apply inv_finish; [done|]; intros o k Ho Hk; by destruct (Hidle o k Ho Hk)).
Qed.

(** A step of task [t]: the other tasks keep their place. *)
Definition ext_but (t : nat) (m m' : omap_t) : Prop := forall x, option_Forall2 (λ o o',
  (is_Some (o_out o) -> o_out o' = o_out o) /\ option_Forall2 (λ k k', x ≠ t -> gentle k k') (o_task o) (o_task o')) (m !! x) (m' !! x).

#[local] Instance ext_but_preorder t : PreOrder (ext_but t).
Proof.
  split.
  - intros m x. destruct (m !! x) as [o|]; constructor. split; [done|]. destruct (o_task o); constructor. done.
  - intros m1 m2 m3 H12 H23 x. specialize (H12 x). specialize (H23 x). destruct H12 as [o1 o2 (A & B)|]; inversion H23 as [? o3 (A' & B') E1 E2|]; subst;
      constructor. split; [intros Hs; specialize (A Hs); rewrite <- A in Hs |- *; auto|].
    destruct B as [k1 k2 B|]; inversion B' as [? k3 G E3 E4|]; subst; constructor. intros Hne. transitivity k2; auto.
Qed.

Lemma ext_ext_but t m m' : ext m m' -> ext_but t m m'.
Proof.
  intros He x. specialize (He x). destruct He as [o o' (A & B)|]; constructor. split; [done|]. destruct B; constructor. done.
Qed.

Lemma ext_but_upd t f m : ext_but t m (upd_task t f m).
Proof.
  intros x. rewrite upd_task_lookup. destruct (m !! x) as [o|]; simpl; constructor. case_decide as E; simpl; (split; [done|]).
  - destruct (o_task o); simpl; constructor. done.
  - destruct (o_task o); simpl; constructor. done.
Qed.

Lemma ext_fire_raised t out r m : done m t = false -> ext m (fire t out (set_raised r t m)).
Proof.
  intros Hd. etrans; [apply (ext_set_raised r t)|]. apply ext_fire. unfold done in *. rewrite set_raised_lookup. by destruct (m !! t).
Qed.

Lemma ext_finish t out r m : ext_but t m (finish t out r m).
Proof.
  unfold finish. etrans; [|apply ext_but_upd]. destruct (done m t) eqn:Ed; [reflexivity|]. by apply ext_ext_but, ext_fire_raised.
Qed.

Lemma ext_register f t q m : m !! f = Some q -> o_out q = None -> ext m (<[f := FObj None (o_raised q) (o_cbs q ++ [t]) (o_task q)]> m).
Proof.
  intros Hq Hn x. destruct (decide (x = f)) as [->|Hne]; [|by rewrite lookup_insert_ne]. rewrite Hq, lookup_insert_eq. constructor.
  split; [rewrite Hn; by intros [? ?]|]. done.
Qed.

Lemma ext_classify t y w : ext_but t (w_objs w) (w_objs (classify t y w)).
Proof.
  destruct y as [| |f| |v|e]; simpl; try apply ext_but_upd; [|apply ext_finish|destruct e; apply ext_finish].
  destruct (w_objs w !! f) as [q|] eqn:Hq; [|apply ext_but_upd]. case_decide as Hft; [apply ext_but_upd|].
  destruct (o_out q) as [out|] eqn:Hout; simpl; (etrans; [|apply ext_but_upd]); apply ext_ext_but; [apply ext_set_raised|by apply ext_register].
Qed.

Lemma ext_go t k i w : ext_but t (w_objs w) (w_objs (go t k i w)).
Proof.
  unfold go. destruct (resume (t_coro k) i) as [[c acts] y]. etrans; [|apply ext_classify]. simpl.
  etrans; [apply ext_but_upd|]. apply ext_ext_but, run_acts_ext.
Qed.

Lemma inv_go t k i w o k0 : inv (w_objs w) -> w_objs w !! t = Some o -> o_task o = Some k0 -> t_wait k0 = None -> inv (w_objs (go t k i w)).
Proof.
  intros Hi Ho Hk Hw. unfold go. destruct (resume (t_coro k) i) as [[c acts] y]. set (m1 := upd_task t _ (w_objs w)).
  assert (Hi1 : inv m1). { apply inv_place; [done|]. intros o' k' Ho' Hk'. simplify_eq. done. }
  assert (Hr1 : running t m1).
  { exists (FObj (o_out o) (o_raised o) (o_cbs o) (Some (Task c (PTop None) (t_must k0) (t_req k0) (t_msg k0) (t_num k0) (t_wait k0) (t_tok k0) true))).
    eexists. subst m1. rewrite upd_task_lookup, Ho. simpl. rewrite decide_True by done. by rewrite Hk. }
  destruct (run_acts_ext acts m1) as (He & Hinv). apply inv_classify; [auto|]. by eapply running_ext.
Qed.

(** A task that was resumed is spawned, and has an outcome when its driver ended. *)
Definition settled (t : nat) (m : omap_t) : Prop :=
  forall o k, m !! t = Some o -> o_task o = Some k -> t_pc k ≠ PNew /\ (t_pc k = PEnd -> is_Some (o_out o)).

Lemma settled_set_pc t p m : p ≠ PNew -> p ≠ PEnd -> settled t (upd_task t (set_pc p) m).
Proof.
  intros H1 H2 o k. rewrite upd_task_lookup. intros (o0 & Ho0 & ->)%fmap_Some. rewrite decide_True by done. simpl. intros (k0 & Hk0 & ->)%fmap_Some. done.
Qed.

Lemma settled_finish t out r m : settled t (finish t out r m).
Proof.
  intros o k. unfold finish. rewrite upd_task_lookup. intros (o0 & Ho0 & ->)%fmap_Some. rewrite decide_True by done. simpl.
  intros (k0 & Hk0 & ->)%fmap_Some. split; [done|]. intros _. destruct (done m t) eqn:Ed.
  - unfold done in Ed. rewrite Ho0 in Ed. by apply bool_decide_eq_true in Ed.
  - destruct (set_raised r t m !! t) as [q|] eqn:Hq; [|unfold fire in Ho0; rewrite Hq in Ho0; congruence].
    rewrite (fire_lookup _ _ _ _ _ Hq), Hq in Ho0. simplify_eq/=. by rewrite decide_True.
Qed.

Lemma settled_classify t y w : settled t (w_objs (classify t y w)).
Proof.
  destruct y as [| |f| |v|e]; simpl; try (apply settled_set_pc; done); [|apply settled_finish|destruct e; apply settled_finish].
  destruct (w_objs w !! f) as [q|]; [|by apply settled_set_pc]. case_decide; [by apply settled_set_pc|].
  destruct (o_out q) as [out|]; simpl; [by apply settled_set_pc|]. intros o k. rewrite upd_task_lookup.
  intros (o0 & Ho0 & ->)%fmap_Some. rewrite decide_True by done. simpl. intros (k0 & Hk0 & ->)%fmap_Some. done.
Qed.

Lemma classify_log t y w : w_log (classify t y w) = w_log w.
Proof. destruct y as [| |f| |v|[]]; simpl; try done. destruct (w_objs w !! f) as [q|]; [|done]. case_decide; [done|]. by destruct (o_out q). Qed.

Lemma go_log t k i w : w_log (go t k i w) = w_log w ++ [(t, i)] /\ settled t (w_objs (go t k i w)).
Proof. unfold go. destruct (resume (t_coro k) i) as [[c acts] y]. rewrite classify_log. split; [done|apply settled_classify]. Qed.

Definition ran (t : nat) (l : list (nat * inp)) : Prop := exists i, (t, i) ∈ l.

Definition winv (w : tworld) : Prop := inv (w_objs w) /\ (forall t, ran t (w_log w) -> is_Some (w_objs w !! t)) /\
  forall t o k, w_objs w !! t = Some o -> o_task o = Some k -> ran t (w_log w) -> t_pc k ≠ PNew /\ (t_pc k = PEnd -> is_Some (o_out o)).

Lemma ran_snoc x t i l : ran x (l ++ [(t, i)]) -> ran x l \/ x = t.
Proof.
  intros (j & [H|H]%elem_of_app); [left; by exists j|]. right. apply list_elem_of_singleton in H. congruence.
Qed.

(** The invariant after a step of [t]. *)
Lemma winv_step t w w' : winv w -> ext_but t (w_objs w) (w_objs w') -> inv (w_objs w') -> is_Some (w_objs w !! t) ->
  (w_log w' = w_log w \/ exists i, w_log w' = w_log w ++ [(t, i)]) -> (ran t (w_log w') -> settled t (w_objs w')) -> winv w'.
Proof.
  intros (_ & Hdom & Hpc) He Hi Ht Hlog Hset.
  assert (Hran : forall x, ran x (w_log w') -> ran x (w_log w) \/ x = t).
  { intros x. destruct Hlog as [->|(i & ->)]; [auto|apply ran_snoc]. }
  split_and!; [done| |].
  - intros x Hx. assert (Hs : is_Some (w_objs w !! x)) by (apply Hran in Hx as [Hx| ->]; auto). specialize (He x).
    destruct He; [eauto|]. by apply is_Some_None in Hs.
  - intros x o k Ho Hk Hr. destruct (decide (x = t)) as [->|Hne]; [by eapply Hset|]. apply Hran in Hr as [Hr|]; [|done].
    specialize (He x). rewrite Ho in He. inversion He as [o0 ? (Hout & Htask) E1 E2|]; subst. rewrite Hk in Htask.
    inversion Htask as [k0 ? G E3 E4|]; subst. destruct (G Hne) as (Gp & _). symmetry in E1, E3. destruct (Hpc x o0 k0 E1 E3 Hr) as (P1 & P2).
    destruct Gp as [->|(b & b' & ? & ->)]; [|done]. split; [done|]. intros Hp. destruct (P2 Hp) as (v & Hv). rewrite Hout; eauto.
Qed.

(** The invariant after something no task did. *)
Lemma winv_ext w w' : winv w -> ext (w_objs w) (w_objs w') -> inv (w_objs w') -> w_log w' = w_log w -> winv w'.
Proof.
  intros (_ & Hdom & Hpc) He Hi Hlog. split_and!; [done| |]; rewrite Hlog.
  - intros t Hr. destruct (Hdom t Hr) as (o & Ho). destruct (ext_lookup _ _ _ _ He Ho) as (o' & ? & _). eauto.
  - intros x o k Ho Hk Hr. specialize (He x). rewrite Ho in He. inversion He as [o0 ? (Hout & Htask) E1 E2|]; subst. rewrite Hk in Htask.
    inversion Htask as [k0 ? (Gp & _) E3 E4|]; subst. symmetry in E1, E3. destruct (Hpc x o0 k0 E1 E3 Hr) as (P1 & P2).
    destruct Gp as [->|(b & b' & ? & ->)]; [|done]. split; [done|]. intros Hp. destruct (P2 Hp) as (v & Hv). rewrite Hout; eauto.
Qed.

Lemma winv_new o w : winv w -> (forall k, o_task o = Some k -> (t_pc k = PNew \/ t_pc k = PTop None) /\ t_wait k = None) ->
  winv (TWorld (<[fresh (dom (w_objs w)) := o]> (w_objs w)) (w_fatal w) (w_log w)).
Proof.
  intros (Hi & Hdom & Hpc) Ho. set (id := fresh (dom (w_objs w))).
  assert (Hid : w_objs w !! id = None) by (apply not_elem_of_dom, is_fresh).
  split_and!; simpl.
  - intros x o' k Hx Hk. destruct (decide (x = id)) as [->|Hne].
    + rewrite lookup_insert_eq in Hx. simplify_eq. destruct (Ho k Hk) as ([E|E] & Hw); unfold task_ok; by rewrite E.
    + rewrite lookup_insert_ne in Hx by done. specialize (Hi x o' k Hx Hk). unfold task_ok in *. destruct (t_pc k) as [| | |f|]; try done.
      destruct Hi as (? & ? & ? & q & Hq & ?). split_and!; [done..|]. exists q. rewrite lookup_insert_ne by congruence. done.
  - intros t Hr. destruct (decide (t = id)) as [->|Hne]; [rewrite lookup_insert_eq; eauto|]. rewrite lookup_insert_ne by done. auto.
  - intros t o' k Hx Hk Hr. destruct (decide (t = id)) as [->|Hne].
    + apply Hdom in Hr as (? & ?). congruence.
    + rewrite lookup_insert_ne in Hx by done. by eapply Hpc.
Qed.

(** Outcomes are final. *)
Definition final (m m' : omap_t) : Prop := forall x o out, m !! x = Some o -> o_out o = Some out -> exists o', m' !! x = Some o' /\ o_out o' = Some out.

Lemma ext_but_final t m m' : ext_but t m m' -> final m m'.
Proof. intros He x o out Ho Hout. specialize (He x). rewrite Ho in He. inversion He as [? o' (A & _) E1 E2|]; subst. exists o'. split; [done|]. rewrite A; eauto. Qed.

Lemma go_winv t k i w o k0 : winv w -> w_objs w !! t = Some o -> o_task o = Some k0 -> t_wait k0 = None ->
  winv (go t k i w) /\ final (w_objs w) (w_objs (go t k i w)).
Proof.
  intros Hw Ho Hk Hn. destruct (go_log t k i w) as (Hl & Hs). split; [|eapply ext_but_final, ext_go].
  eapply (winv_step t w); eauto; [apply ext_go|]. eapply inv_go; eauto. apply Hw.
Qed.

Lemma winv_upd t f w : winv w -> (forall k, gentle k (f k)) -> winv (TWorld (upd_task t f (w_objs w)) (w_fatal w) (w_log w)).
Proof. intros Hw Hf. eapply (winv_ext w); [done|apply ext_upd; auto|apply inv_upd; auto; apply Hw|done]. Qed.

(** A step of [t] that resumes nothing. *)
Lemma winv_quiet t w w' o k0 : winv w -> w_objs w !! t = Some o -> o_task o = Some k0 -> ext_but t (w_objs w) (w_objs w') -> inv (w_objs w') ->
  w_log w' = w_log w -> (ran t (w_log w) -> settled t (w_objs w')) -> winv w' /\ final (w_objs w) (w_objs w').
Proof.
  intros Hw Ho Hk He Hi Hl Hs. split; [|by eapply ext_but_final]. eapply (winv_step t w); eauto. by rewrite Hl.
Qed.

Lemma unpark_winv t f w o k : winv w -> w_objs w !! t = Some o -> o_task o = Some k -> t_pc k = PPark f ->
  winv (unpark t f k w) /\ final (w_objs w) (w_objs (unpark t f k w)).
Proof.
  intros Hw Ho Hk Hp. pose proof (proj1 Hw) as Hi. pose proof (Hi t o k Ho Hk) as Hok. unfold task_ok in Hok. rewrite Hp in Hok.
  destruct Hok as (Hwt & Hg & Hne & q & Hq & H1 & H2). unfold unpark. rewrite Hq.
  assert (Hset : forall g m, (forall k, t_pc (g k) ≠ PNew /\ t_pc (g k) ≠ PEnd) -> settled t (upd_task t g m)).
  { intros g m Hg' o' k'. rewrite upd_task_lookup. intros (o0 & Ho0 & ->)%fmap_Some. rewrite decide_True by done. simpl.
    intros (k0 & Hk0 & ->)%fmap_Some. destruct (Hg' k0). done. }
  destruct (t_must k); [|case_bool_decide as Hd].
  - apply (winv_quiet t w _ o k Hw Ho Hk); simpl; [apply ext_but_upd|by apply inv_place|done|]. intros _. by apply Hset.
  - apply (winv_quiet t w _ o k Hw Ho Hk); simpl; [etrans; [apply ext_ext_but, ext_set_raised|apply ext_but_upd]| |done|intros _; by apply Hset].
    apply inv_place; [by apply inv_set_raised|]. done.
  - apply (winv_quiet t w _ o k Hw Ho Hk); simpl; [apply ext_but_upd|apply inv_place; [done|]|done|].
    + intros o' k' Ho' Hk'. simplify_eq. unfold task_ok. simpl. rewrite Hp. split_and!; [done..|]. exists q. split_and!; auto. done.
    + intros _ o'. intros k'. rewrite upd_task_lookup, Ho. simpl. rewrite decide_True by done. intros [= <-]. simpl. rewrite Hk. intros [= <-].
      simpl. by rewrite Hp.
Qed.

Lemma task_step_winv t w w' : winv w -> task_step t w = Some w' -> winv w' /\ final (w_objs w) (w_objs w').
Proof.
  intros Hw. pose proof (proj1 Hw) as Hi. unfold task_step. destruct (w_objs w !! t) as [[out r cbs [k|]]|] eqn:Ho; try done.
  pose proof (Hi t _ k Ho eq_refl) as Hok. unfold task_ok in Hok. destruct (t_pc k) as [|th|[]|f|] eqn:Hp; try done.
  - intros [= <-]. unfold spawn. destruct (t_req k).
    + apply (winv_quiet t w _ _ k Hw Ho eq_refl); simpl; [apply ext_finish|apply inv_finish; [done|]|done|intros _; apply settled_finish].
      intros o' k' Ho' Hk'. rewrite Ho in Ho'. simplify_eq/=. done.
    + apply (winv_quiet t w _ _ k Hw Ho eq_refl); simpl; [apply ext_but_upd|apply inv_place; [done|]|done|intros _; by apply settled_set_pc].
      intros o' k' Ho' Hk'. rewrite Ho in Ho'. simplify_eq/=. done.
  - intros [= <-]. unfold run_top. destruct (t_must k), th; try (by eapply go_winv; eauto).
    set (w1 := TWorld (upd_task t (set_must false) (w_objs w)) (w_fatal w) (w_log w)).
    assert (Hw1 : winv w1) by (apply winv_upd; [done|]; intros; apply gentle_must).
    assert (Ho1 : w_objs w1 !! t = Some (FObj out r cbs (Some (set_must false k)))).
    { simpl. rewrite upd_task_lookup, Ho. simpl. by rewrite decide_True. }
    destruct (go_winv t k (IThrow (XCancel (t_msg k))) w1 _ _ Hw1 Ho1 eq_refl Hok) as (A & B). split; [done|].
    intros x o v Hx Hv. assert (F : final (w_objs w) (w_objs w1)) by (apply (ext_but_final t), ext_but_upd).
    destruct (F x o v Hx Hv) as (o1 & Hx1 & Hv1). by eapply B.
  - intros [= <-]. destruct Hok. by eapply go_winv.
  - case_decide; [|done]. intros [= <-]. by eapply unpark_winv.
Qed.

Lemma tstep_winv w w' : winv w -> tstep w w' -> winv w' /\ final (w_objs w) (w_objs w').
Proof.
  intros Hw Hs. pose proof (proj1 Hw) as Hi. assert (Hnew : forall o, final (w_objs w) (<[fresh (dom (w_objs w)) := o]> (w_objs w))).
  { intros o x o0 out Hx Hout. exists o0. rewrite lookup_insert_ne; [done|]. intros <-. assert (Hf := is_fresh (dom (w_objs w))).
    apply Hf, elem_of_dom. eauto. }
  destruct Hs as [w|c d w|a w|t w w' Hs|t o k w Ho Hk Hp Hq|t w w' Hs|t w].
  - split; [apply winv_new; [done|]; done|apply Hnew].
  - split; [apply winv_new; [done|]|apply Hnew]. intros k [= <-]. by destruct d; simpl; auto.
  - destruct (run_act_ext (w_objs w) a) as (He & Hinv). split; [eapply winv_ext; eauto|]. by eapply (ext_but_final 0), ext_ext_but.
  - by eapply task_step_winv.
  - apply (winv_quiet t w _ o k Hw Ho Hk); simpl; [apply ext_but_upd|apply inv_place; [done|]|done|].
    + intros o' k' Ho' Hk'. simplify_eq. specialize (Hi t _ _ Ho Hk). unfold task_ok in Hi. rewrite Hp in Hi. done.
    + intros Hr. destruct Hw as (_ & _ & Hpc). destruct (Hpc t o k Ho Hk Hr). done.
  - unfold io_ready in Hs. destruct (w_objs w !! t) as [[out r cbs [k|]]|] eqn:Ho; try done. destruct (t_pc k) as [| |[]| |] eqn:Hp; try done.
    simplify_eq. pose proof (Hi t _ k Ho eq_refl) as Hok. unfold task_ok in Hok. rewrite Hp in Hok. destruct Hok. by eapply go_winv.
  - split; [apply winv_upd; [done|]; intros; apply gentle_credit|]. apply (ext_but_final t), ext_but_upd.
Qed.

Lemma treach_winv w : treach w -> winv w.
Proof.
  intros Hr. unfold treach in Hr. revert w Hr. apply (rtc_ind_r (R := tstep) (λ w, winv w) tworld_init).
  - split_and!; [intros t o k; simpl; by rewrite lookup_empty|intros t (i & Hi); by apply elem_of_nil in Hi|intros t o k; simpl; by rewrite lookup_empty].
  - intros w1 w2 _ Hs Hw. by eapply tstep_winv.
Qed.

(** ** Theorems *)

(** C23. No await is lost, whatever the coroutines do, in whatever order tasks are stepped, cancelled and
    woken, and with stray wakes: when no task can take a step, every task whose driver has not ended
    waits for something that is still to come - a descriptor, or a future that is still pending and
    holds the task's wake - and a driver that has ended left the task an outcome, except where the
    spawn of the fiber failed and the coroutine was never resumed. *)
Theorem no_task_stranded w : treach w -> (forall t, task_step t w = None) ->
  forall t o k, w_objs w !! t = Some o -> o_task o = Some k ->
  match t_pc k with
  | PPark f => exists q, w_objs w !! f = Some q /\ o_out q = None /\ t ∈ o_cbs q /\ t_wait k = Some f
  | PIo cancelled => cancelled = false
  | PEnd => is_Some (o_out o) \/ ~ ran t (w_log w)
  | PNew | PTop _ => False
  end.
Proof.
  intros (Hi & _ & Hpc)%treach_winv Hq t o k Ho Hk. specialize (Hq t). unfold task_step in Hq. rewrite Ho in Hq. destruct o as [out r cbs tk].
  simpl in Hk. subst tk. pose proof (Hi t _ k Ho eq_refl) as Hok. unfold task_ok in Hok. destruct (t_pc k) as [|th|[]|f|] eqn:Hp; try done.
  - destruct Hok as (Hw & Hg & Hne & q & Hf & H1 & H2). destruct (decide (0 < t_tok k)); [done|]. exists q.
    assert (o_out q = None) by (destruct (o_out q); [|done]; exfalso; apply n, H2; eauto). auto.
  - destruct out; [left; eauto|]. right. intros Hr. destruct (Hpc t _ k Ho eq_refl Hr) as (_ & H). apply H in Hp as (? & ?). done.
Qed.

(** What an await delivers: a task parked on a future that is done leaves the await and resumes its
    coroutine in its next two steps, with the cancel when one is due and otherwise with the future's
    exception or [None]. *)
Theorem await_delivers w t o k f q : treach w -> w_objs w !! t = Some o -> o_task o = Some k -> t_pc k = PPark f ->
  w_objs w !! f = Some q -> is_Some (o_out q) ->
  exists w1 w2, task_step t w = Some w1 /\ task_step t w1 = Some w2 /\
    w_log w2 = w_log w ++ [(t, inp_of (if t_must k then Some (XCancel (t_msg k)) else taken q))].
Proof.
  intros (Hi & _ & _)%treach_winv Ho Hk Hp Hf Hd. pose proof (Hi t _ k Ho Hk) as Hok. unfold task_ok in Hok. rewrite Hp in Hok.
  destruct Hok as (Hw & Hg & Hne & q' & Hf' & H1 & H2). simplify_eq. specialize (H2 Hd). destruct o as [out r cbs tk]. simpl in Hk. subst tk.
  exists (unpark t f k w). unfold task_step at 1. rewrite Ho, Hp, decide_True by done.
  assert (Hl : forall m g fa lo th (P : Prop), P -> m !! t = Some (FObj out r cbs (Some k)) -> t_must (g k) = false -> t_pc (g k) = PTop th ->
    exists w2, P /\ task_step t (TWorld (upd_task t g m) fa lo) = Some w2 /\ w_log w2 = lo ++ [(t, inp_of th)]).
  { intros m g fa lo th P HP Hm Hmu Hth. eexists. unfold task_step. simpl. rewrite upd_task_lookup, Hm. simpl. rewrite decide_True by done. simpl.
    rewrite Hth. split_and!; [done..|]. unfold run_top. rewrite Hmu. by rewrite (proj1 (go_log _ _ _ _)). }
  unfold unpark. rewrite Hf. destruct (t_must k); [by apply Hl|]. rewrite bool_decide_eq_true_2 by done. apply Hl; [done| |done|done].
  unfold take. rewrite set_raised_lookup, Ho. simpl. by rewrite decide_False.
Qed.

(** The outcome of a task or a future is final. *)
Theorem outcome_final w w' x o out : treach w -> rtc tstep w w' -> w_objs w !! x = Some o -> o_out o = Some out ->
  exists o', w_objs w' !! x = Some o' /\ o_out o' = Some out.
Proof.
  intros Hw%treach_winv Hr. revert o Hw. induction Hr as [w|w w1 w' Hs _ IH]; intros o Hw Ho Hout; [eauto|].
  destruct (tstep_winv w w1 Hw Hs) as (Hw1 & Hf). destruct (Hf x o out Ho Hout) as (o1 & Ho1 & Hout1). by eapply IH.
Qed.

(** The chain of awaits from [x] ends at [y]. *)
Inductive awaits (m : omap_t) : nat -> nat -> Prop :=
  | aw_here x : awaits m x x
  | aw_next x o k f y : m !! x = Some o -> o_task o = Some k -> t_wait k = Some f -> awaits m f y -> awaits m x y.

(** The cancel has arrived: the future is cancelled; or the task is marked and can take a step. *)
Definition struck (msg : option nat) (m : omap_t) (x : nat) : Prop :=
  exists o, m !! x = Some o /\
  match o_task o with
  | None => o_out o = Some (OCancel msg)
  | Some k => o_out o = None /\ t_must k = true /\ t_msg k = msg /\ is_Some (task_step x (TWorld m None []))
  end.

(** A task without a fiber and without an outcome: its spawn failed. *)
Definition spawn_lost (m : omap_t) (x : nat) : Prop := exists o k, m !! x = Some o /\ o_out o = None /\ o_task o = Some k /\ t_pc k = PEnd.

Lemma struck_task msg m x o k : m !! x = Some o -> o_out o = None -> o_task o = Some k -> t_must k = true -> t_msg k = msg ->
  (forall f, t_pc k = PPark f -> 0 < t_tok k) -> (forall b, t_pc k = PIo b -> b = true) -> struck msg m x \/ spawn_lost m x.
Proof.
  intros Ho Hn Hk Hm Hs Hp Hio.
  assert (Hst : t_pc k = PEnd \/ is_Some (task_step x (TWorld m None []))).
  { unfold task_step. simpl. rewrite Ho. destruct o as [out ra cbs tk]. simpl in Hk. subst tk.
    destruct (t_pc k) as [| |b|f|] eqn:Ep; [right; by eauto|right; by eauto| | |by left]; right.
    - rewrite (Hio b eq_refl). eauto.
    - rewrite decide_True by (by eapply Hp). eauto. }
  destruct Hst as [He|Hst]; [right; by exists o, k|]. left. exists o. by rewrite Hk.
Qed.

Definition says (msg : option nat) (x : nat) (m : omap_t) : Prop := forall o k, m !! x = Some o -> o_task o = Some k -> t_msg k = msg.

Lemma says_upd msg x t f m : says msg x m -> (forall k, t_msg (f k) = t_msg k \/ t_msg (f k) = msg) -> says msg x (upd_task t f m).
Proof.
  intros Hs Hf o k. rewrite upd_task_lookup. intros (o0 & Ho0 & ->)%fmap_Some. case_decide; [|by apply Hs]. simpl.
  intros (k0 & Hk0 & ->)%fmap_Some. destruct (Hf k0) as [->|]; [by eapply Hs|done].
Qed.

Lemma says_fire msg x id out m : says msg x m -> says msg x (fire id out m).
Proof.
  intros Hs. destruct (m !! id) as [q|] eqn:Hq; [|unfold fire; by rewrite Hq]. intros o k. rewrite (fire_lookup id out m q x Hq).
  intros (o0 & Ho0 & ->)%fmap_Some. simpl. intros (k0 & Hk0 & ->)%fmap_Some. rewrite <- (Hs o0 k0 Ho0 Hk0).
  induction (count_occ Nat.eq_dec (o_cbs q) x) as [|n IH]; [done|]. simpl. by fold (credits n k0).
Qed.

Lemma says_cancel fuel id msg x m : says msg x m -> says msg x (cancel fuel id msg m).1.
Proof.
  revert id m. induction fuel as [|fuel IH]; intros id m Hs; simpl; [done|]. destruct (m !! id) as [o|]; [|done].
  case_bool_decide; [done|]. destruct (o_task o) as [k|]; [|by apply says_fire].
  assert (H1 : says msg x (upd_task id (request msg) m)) by (apply says_upd; auto). destruct (t_wait k) as [f|]; simpl.
  - specialize (IH f _ H1). destruct (cancel fuel f msg (upd_task id (request msg) m)) as [m2 [[|]|]]; simpl in *; [done| |done].
    apply says_upd; auto.
  - apply says_upd; [done|]. intros k'. left. unfold interrupt. simpl. destruct (t_pc k'); try done. by destruct (t_g k').
Qed.

Lemma cancel_refused fuel f msg m m2 : cancel fuel f msg m = (m2, Some false) -> m2 = m /\ (m !! f = None \/ done m f = true).
Proof.
  destruct fuel as [|fuel]; simpl; [done|]. destruct (m !! f) as [o|] eqn:Ho; [|intros; simplify_eq; auto]. case_bool_decide as Hd.
  - intros; simplify_eq. split; [done|]. right. unfold done. rewrite Ho. by apply bool_decide_eq_true.
  - destruct (o_task o) as [k|]; [|done]. destruct (t_wait k) as [f'|]; [|done].
    destruct (cancel fuel f' msg (upd_task f (request msg) m)) as [m3 [[|]|]]; done.
Qed.

Definition ranked (rank : nat -> nat) (m : omap_t) : Prop :=
  forall t o k f, m !! t = Some o -> o_task o = Some k -> t_wait k = Some f -> rank f < rank t.

Lemma ranked_request rank id msg m : ranked rank m -> ranked rank (upd_task id (request msg) m).
Proof.
  intros Hr t o k f. rewrite upd_task_lookup. intros (o0 & Ho0 & ->)%fmap_Some. case_decide; [|by eapply Hr]. simpl.
  intros (k0 & Hk0 & ->)%fmap_Some Hw. by apply (Hr t o0 k0).
Qed.

(** A task that awaits a future that is done, after [cancel] marked it. *)
Lemma struck_marked msg m id o k f : inv m -> says msg id m -> m !! id = Some o -> o_out o = None -> o_task o = Some k -> t_wait k = Some f -> done m f = true ->
  let m' := upd_task id (set_must true) m in struck msg m' id \/ spawn_lost m' id.
Proof.
  intros Hi Hsay Ho Hn Hk Hw Hd. pose proof (Hi id o k Ho Hk) as Hok. eapply struck_task.
  - rewrite upd_task_lookup, Ho. simpl. by rewrite decide_True.
  - done.
  - simpl. by rewrite Hk.
  - done.
  - simpl. by eapply Hsay.
  - simpl. intros f' Hp. unfold task_ok in Hok. rewrite Hp in Hok. destruct Hok as (Hw' & _ & _ & q & Hq & _ & H2). simplify_eq.
    unfold done in Hd. rewrite Hq in Hd. apply bool_decide_eq_true in Hd. auto.
  - simpl. intros b Hp. unfold task_ok in Hok. rewrite Hp in Hok. destruct Hok. congruence.
Qed.

Lemma struck_interrupted msg m id o k : inv m -> says msg id m -> m !! id = Some o -> o_out o = None -> o_task o = Some k -> t_wait k = None ->
  let m' := upd_task id (λ k, interrupt (set_must true k)) m in struck msg m' id \/ spawn_lost m' id.
Proof.
  intros Hi Hsay Ho Hn Hk Hw. pose proof (Hi id o k Ho Hk) as Hok. pose proof (Hsay o k Ho Hk) as Hm. unfold task_ok in Hok. eapply struck_task.
  - rewrite upd_task_lookup, Ho. simpl. by rewrite decide_True.
  - done.
  - simpl. by rewrite Hk.
  - unfold interrupt. simpl. destruct (t_pc k); try done. by destruct (t_g k).
  - unfold interrupt. simpl. destruct (t_pc k); try done. by destruct (t_g k).
  - unfold interrupt. simpl. destruct (t_pc k) as [| | |f|] eqn:Hp; try (simpl; intros; congruence);
      [destruct (t_g k); simpl; intros; congruence|]. destruct Hok. congruence.
  - unfold interrupt. simpl. destruct (t_pc k) as [| |b| |] eqn:Hp; simpl; try (intros ?; congruence). destruct Hok as (_ & ->). simpl.
    intros b' ?. congruence.
Qed.

(** C24. [cancel()] reaches what it must reach.  Where the tasks do not wait for one another in a circle, it
    returns, refuses nothing that is pending, and the cancel arrives at the end of the chain of awaits:
    a future is cancelled, or a task that has no outcome yet is marked, with the message of this
    [cancel], and can take its next step.  The exception is a task at the end of the chain whose
    fiber could not be spawned: it has no outcome, can take no step, and stays as it is. *)
Theorem cancel_reaches rank fuel id msg w o : treach w -> ranked rank (w_objs w) -> rank id < fuel ->
  w_objs w !! id = Some o -> o_out o = None ->
  exists m' x, cancel fuel id msg (w_objs w) = (m', Some true) /\ awaits m' id x /\ (struck msg m' x \/ spawn_lost m' x).
Proof.
  intros (Hi & _ & _)%treach_winv. revert Hi. generalize (w_objs w). clear w. intros m Hi. revert m Hi id o. induction fuel as [|fuel IH]; intros m Hi id o Hr Hfu Ho Hn; [lia|].
  simpl. rewrite Ho. rewrite bool_decide_eq_false_2 by (rewrite Hn; by intros [? ?]).
  destruct (o_task o) as [k|] eqn:Hk.
  2: { eexists _, id. split_and!; [done|constructor|]. left. eexists. rewrite (fire_lookup _ _ _ _ _ Ho), Ho. split; [done|]. simpl. rewrite Hk. simpl. by rewrite decide_True. }
  set (m1 := upd_task id (request msg) m). assert (Hi1 : inv m1) by (apply inv_upd; [done|]; intros; apply gentle_request).
  assert (Ho1 : m1 !! id = Some (FObj (o_out o) (o_raised o) (o_cbs o) (Some (request msg k)))).
  { subst m1. rewrite upd_task_lookup, Ho. simpl. rewrite decide_True by done. by rewrite Hk. }
  assert (Hs1 : says msg id m1) by (intros ? ? Hx Hy; rewrite Ho1 in Hx; simplify_eq/=; done).
  destruct (t_wait k) as [f|] eqn:Hw; [|eexists _, id; split_and!; [done|constructor|]; by eapply struck_interrupted].
  assert (Hrf : rank f < fuel) by (specialize (Hr id o k f Ho Hk Hw); lia).
  destruct (done m1 f) eqn:Hd.
  - assert (E : cancel fuel f msg m1 = (m1, Some false)).
    { destruct fuel as [|fuel']; [lia|]. unfold done in Hd. simpl. destruct (m1 !! f) as [q|]; [|done]. by rewrite Hd. }
    rewrite E. eexists _, id. split_and!; [done|constructor|]. by eapply struck_marked.
  - pose proof (Hi1 id _ _ Ho1 eq_refl) as Hok. unfold task_ok in Hok. simpl in Hok. rewrite Hw in Hok.
    destruct (t_pc k) as [| | |f'|]; try done; [by destruct Hok|]. destruct Hok as (Hff & _ & _ & q & Hq & _). injection Hff as <-.
    destruct (IH m1 Hi1 f q) as (m' & y & E & Ha & D); [by apply ranked_request|done|done| |].
    { unfold done in Hd. rewrite Hq in Hd. apply bool_decide_eq_false in Hd. by apply eq_None_not_Some. }
    rewrite E. exists m', y. split_and!; [done| |done]. destruct (cancel_ext fuel f msg m1) as (He & _). rewrite E in He.
    destruct (ext_lookup _ _ _ _ He Ho1) as (o' & Ho' & _ & Ht). simpl in Ht. inversion Ht as [? k' (_ & Hw' & _) E1 E2|]; subst.
    eapply aw_next; [exact Ho'|by symmetry|by rewrite Hw'|done].
Qed.
End tasks.

(** ** Coroutines that follow a script: used in the examples *)

(** A script is what each resumption does; what is thrown is caught, until the script is over. *)
Definition script := list (list act * yres).
Definition script_resume (s : script) (i : inp) : script * list act * yres :=
  match s with
  | (acts, y) :: s' => (s', acts, y)
  | [] => ([], [], match i with ISend => YRet 0 | IThrow e => YRaise e end)
  end.

Definition run_steps (ts : list nat) (w : tworld (C := script)) : tworld :=
  foldl (λ w t, default w (task_step script_resume t w)) w ts.
Definition start (scripts : list (script * bool)) : tworld :=
  foldl (λ w s, (new_task s.1 s.2 w).1) tworld_init scripts.
Definition do_act (a : act) (w : tworld (C := script)) : tworld := TWorld (run_act (w_objs w) a) (w_fatal w) (w_log w).

Lemma run_steps_reach ts w w' : rtc (tstep script_resume) w w' -> rtc (tstep script_resume) w (run_steps ts w').
Proof.
  revert w'. induction ts as [|t ts IH]; intros w' Hr; [done|]. apply (IH (default w' (task_step script_resume t w'))).
  destruct (task_step script_resume t w') eqn:E; [|done]. eapply rtc_r; [done|]. simpl. by eapply ts_step.
Qed.
Lemma start_reach l : treach script_resume (start l).
Proof.
  unfold start, treach. assert (H : forall w, rtc (tstep script_resume) tworld_init w ->
    rtc (tstep script_resume) tworld_init (foldl (λ w s, (new_task s.1 s.2 w).1) w l)); [|apply H, rtc_refl].
  induction l as [|s l IH]; intros w Hw; [done|]. apply IH. eapply rtc_r; [done|]. apply ts_task.
Qed.
Lemma do_act_reach a w w' : rtc (tstep script_resume) w w' -> rtc (tstep script_resume) w (do_act a w').
Proof. intros Hr. eapply rtc_r; [done|]. apply ts_act. Qed.

(** No task can take a step. *)
Definition quiet (w : tworld (C := script)) : bool :=
  forallb (λ p, match task_step script_resume p.1 w with None => true | Some _ => false end) (map_to_list (w_objs w)).

Lemma quiet_spec w : quiet w = true -> forall t, task_step script_resume t w = None.
Proof.
  intros Hq t. unfold quiet in Hq. rewrite forallb_forall in Hq. destruct (w_objs w !! t) as [o|] eqn:Ho; [|unfold task_step; by rewrite Ho].
  apply elem_of_map_to_list, list_elem_of_In, Hq in Ho. simpl in Ho. by destruct (task_step script_resume t w).
Qed.

Definition obj_of (w : tworld (C := script)) (x : nat) : fobj := default (FObj None None [] None) (w_objs w !! x).
Definition task_of (w : tworld (C := script)) (x : nat) : task := default (Task [] PEnd false false None 0 None 0 false) (o_task (obj_of w x)).

(** Task 0 awaits task 1, which waits for its descriptor. *)
Definition pair_world : tworld := run_steps [0; 0; 1; 1] (start [([([], YFut 1)], true); ([([], YIo)], true)]).

Lemma pair_reach : treach script_resume pair_world.
Proof. apply run_steps_reach, start_reach. Qed.

Lemma no_task_stranded_witness : exists q, w_objs pair_world !! 1 = Some q /\ o_out q = None /\ 0 ∈ o_cbs q /\ t_wait (task_of pair_world 0) = Some 1.
Proof.
  exact (no_task_stranded script_resume pair_world pair_reach (quiet_spec pair_world eq_refl) 0 (obj_of pair_world 0) (task_of pair_world 0) eq_refl eq_refl).
Defined.

(** Task 1 ends with an exception: task 0 is thrown it. *)
Definition raise_world : tworld := run_steps [0; 0; 1; 1] (start [([([], YFut 1)], true); ([([], YRaise (XExc 3))], true)]).

Lemma await_delivers_witness : exists w1 w2, task_step script_resume 0 raise_world = Some w1 /\ task_step script_resume 0 w1 = Some w2 /\
  w_log w2 = [(0, ISend); (1, ISend); (0, IThrow (XExc 3))].
Proof.
  exact (await_delivers script_resume raise_world 0 (obj_of raise_world 0) (task_of raise_world 0) 1 (obj_of raise_world 1)
    (ltac:(apply run_steps_reach, start_reach)) eq_refl eq_refl eq_refl eq_refl (mk_is_Some _ _ eq_refl)).
Defined.

Lemma outcome_final_witness : exists o', w_objs (run_steps [0; 0] (do_act (AcCancel 1 None) raise_world)) !! 1 = Some o' /\ o_out o' = Some (OExc (XExc 3)).
Proof.
  exact (outcome_final script_resume raise_world (run_steps [0; 0] (do_act (AcCancel 1 None) raise_world)) 1 (obj_of raise_world 1) (OExc (XExc 3))
    (ltac:(apply run_steps_reach, start_reach)) (ltac:(apply run_steps_reach, do_act_reach, rtc_refl)) eq_refl eq_refl).
Defined.

Lemma cancel_reaches_witness : exists m' x, cancel 3 0 (Some 7) (w_objs pair_world) = (m', Some true) /\ awaits m' 0 x /\
  (struck script_resume (Some 7) m' x \/ spawn_lost m' x).
Proof.
  apply (cancel_reaches script_resume (λ x, 1 - x) 3 0 (Some 7) pair_world (obj_of pair_world 0) pair_reach); [|simpl; lia|reflexivity|reflexivity].
  intros t o k f Ho Hk Hw. apply elem_of_map_to_list, list_elem_of_In in Ho. vm_compute in Ho.
  destruct Ho as [Ho|[Ho|[]]]; injection Ho as <- <-; injection Hk as <-; simpl in Hw; simplify_eq. simpl. lia.
Defined.

(** ** Where the code departs from its comments *)

(** A task cancelled once in a socket wait is thrown [CancelledError] twice: by [_wait_fd], without the
    message, and again by the driver at the next step, because [_pgmustcancel] is still set.  The driver
    means to "deliver the cancel exactly once", so that the awaits of the clean-up are not cancelled. *)
Theorem io_cancel_twice :
  let w := run_steps [0; 0; 0] (do_act (AcCancel 0 (Some 7)) (run_steps [0; 0] (start [([([], YIo); ([], YNone)], true)]))) in
  w_log w = [(0, ISend); (0, IThrow (XCancel None)); (0, IThrow (XCancel (Some 7)))] /\ t_num (task_of w 0) = 1.
Proof. split; vm_compute; reflexivity. Qed.

(** A task whose deferred spawn fails is never done: [asyncio.Future.cancel(self)] settles the C future
    and not the state [done()] reads, and no done-callback fires.  A task that awaits it waits for ever;
    [cancel()] answers [True] and changes nothing, since it is handed on to the task without a fiber. *)
Theorem failed_spawn_stranded :
  let w := run_steps [1; 1] (spawn_fail 0 (start [([], true); ([([], YFut 0)], true)])) in
  let w' := do_act (AcCancel 1 None) w in
  quiet w = true /\ done (w_objs w) 0 = false /\ t_pc (task_of w 1) = PPark 0 /\
  (cancel 3 1 None (w_objs w)).2 = Some true /\ quiet w' = true /\ done (w_objs w') 0 = false /\ done (w_objs w') 1 = false.
Proof. split_and!; vm_compute; reflexivity. Qed.

(** [remove_done_callback] compares callbacks with [is], and a bound method is a new object every time:
    the driver that leaves an await because of a cancel takes back nothing.  A task that cancels itself,
    and then awaits the future again, is registered there twice. *)
Theorem cancelled_await_keeps_wake :
  let w := run_steps [0; 0; 0; 0] (start [([([AcCancel 0 None], YFut 1); ([], YFut 1)], true); ([], true)]) in
  o_cbs (obj_of w 1) = [0; 0] /\ w_log w = [(0, ISend); (0, IThrow (XCancel None))].
Proof. split; vm_compute; reflexivity. Qed.
