(* ===== verification/Condition.v ===== *)
(** * Condition variables

    Models [class CoCondition] of [src/src/stackweave/monkey/events.py] for any number of threads, with a
    plain or a recursive lock.  The lock is its holder and its depth ([Locks.v] verifies the code behind
    it); a thread that waits owns a fresh parker ([Parker.v]) that is queued, then parked.  Whoever holds
    the lock runs alone, so what [wait] does before it releases the lock and after it has it again is one
    step each.  A park may return early at any time. *)
From Stdlib Require Import Sorting.Sorted.
From S2P Require Import Prelude.

(** ** Lists of increasing numbers *)

Lemma sorted_filter (P : nat -> Prop) `{!forall x, Decision (P x)} l : StronglySorted lt l -> StronglySorted lt (filter P l).
Proof.
  induction 1 as [|a l Hs IH Hf]; [constructor|]. rewrite filter_cons. case_decide; [|done]. constructor; [done|].
  rewrite Forall_forall in Hf |- *. intros x [_ Hx]%list_elem_of_filter. auto.
Qed.

Lemma sorted_snoc x l : StronglySorted lt l -> Forall (λ y, y < x) l -> StronglySorted lt (l ++ [x]).
Proof.
  induction 1 as [|a l Hs IH Hf]; simpl; intros Hx; [repeat constructor|]. inversion Hx; subst. constructor; [auto|].
  apply Forall_app. split; [done|]. by constructor.
Qed.

Lemma sorted_disjoint l k x : StronglySorted lt (l ++ k) -> x ∈ l -> x ∉ k.
Proof.
  induction l as [|a l IH]; simpl; intros Hs; [by intros ?%elem_of_nil|]. inversion Hs as [|? ? Hs' Hf]; subst.
  intros [->|Hx]%elem_of_cons; [|auto]. intros Hk. rewrite Forall_forall in Hf. specialize (Hf a). rewrite elem_of_app in Hf. specialize (Hf (or_intror Hk)). lia.
Qed.

Lemma filter_keep (P : nat -> Prop) `{!forall x, Decision (P x)} l : Forall P l -> filter P l = l.
Proof. induction 1; [done|]. rewrite filter_cons, decide_True by done. congruence. Qed.

Section condition.
Context (rec : bool).

(** What a [wait] belongs to: a call of [wait], or of [wait_for] with its end time. *)
Inductive kont := KWait | KFor (endtime : option Z).

(** Where a call is: parked (or about to park) with its parker, deadline and [owned_recursion]; woken,
    before it has the lock again; in [wait_for], about to evaluate the predicate. *)
Inductive cpc :=
  | Parked (p : nat) (deadline : option Z) (saved : nat) (k : kont)
  | Reacq (p : nat) (deadline : option Z) (saved : nat) (k : kont)
  | Pred (endtime : option Z).

(** What calls returned or raised; a [wait] with its last parker and its deadline. *)
Inductive cout := OWait (t : tid) (p : nat) (deadline : option Z) (res : bool) | OFor (t : tid) (endtime : option Z) (res : bool) | OError (t : tid).

(** The clock; the lock; [_waiters]; the next parker; the parkers that were unparked; the calls under way;
    and, which the code does not read, the parkers that [notify] popped and what calls returned. *)
Record cstate := CState {
  c_now : Z; c_holder : option tid; c_count : nat; c_waiters : list nat; c_next : nat; c_woken : gset nat;
  c_pcs : gmap tid cpc; c_popped : list nat; c_log : list cout
}.

Definition c_init : cstate := CState 0 None 0 [] 0 ∅ ∅ [] [].

Definition set_lock (h : option tid) (n : nat) (s : cstate) : cstate :=
  CState (c_now s) h n (c_waiters s) (c_next s) (c_woken s) (c_pcs s) (c_popped s) (c_log s).
Definition set_pcs (m : gmap tid cpc) (s : cstate) : cstate :=
  CState (c_now s) (c_holder s) (c_count s) (c_waiters s) (c_next s) (c_woken s) m (c_popped s) (c_log s).
Definition set_waiters (l : list nat) (s : cstate) : cstate :=
  CState (c_now s) (c_holder s) (c_count s) l (c_next s) (c_woken s) (c_pcs s) (c_popped s) (c_log s).
Definition log_out (o : cout) (s : cstate) : cstate :=
  CState (c_now s) (c_holder s) (c_count s) (c_waiters s) (c_next s) (c_woken s) (c_pcs s) (c_popped s) (c_log s ++ [o]).

(** [self._lock.acquire()]: [None] while it would block. *)
Definition lock_acquire (t : tid) (s : cstate) : option cstate :=
  match c_holder s with
  | None => Some (set_lock (Some t) 1 s)
  | Some h => if rec && bool_decide (h = t) then Some (set_lock (Some t) (S (c_count s)) s) else None
  end.

(** [self._lock.release()]: [None] when it raises [RuntimeError]. *)
Definition lock_release (t : tid) (s : cstate) : option cstate :=
  match c_holder s with
  | None => None
  | Some h =>
      if rec then
        if bool_decide (h = t) then Some (if decide (c_count s = 1) then set_lock None 0 s else set_lock (Some t) (pred (c_count s)) s)
        else None
      else Some (set_lock None 0 s)
  end.

(** A round of [wait]: a fresh parker is queued and the lock released, whatever its depth. *)
Definition wait_round (t : tid) (deadline : option Z) (saved : nat) (k : kont) (s : cstate) : cstate :=
  let p := c_next s in
  let s1 := CState (c_now s) (c_holder s) (if rec then 1 else c_count s) (c_waiters s ++ [p]) (S p) (c_woken s) (c_pcs s) (c_popped s) (c_log s) in
  match lock_release t s1 with
  | Some s2 => set_pcs (<[t := Parked p deadline saved k]> (c_pcs s2)) s2
  | None => set_pcs (delete t (c_pcs s1)) (log_out (OError t) s1)
  end.

(** [wait] returns [res]. *)
Definition wait_return (t : tid) (p : nat) (deadline : option Z) (saved : nat) (k : kont) (res : bool) (s : cstate) : cstate :=
  let s1 := log_out (OWait t p deadline res) (set_lock (c_holder s) (if rec then saved else c_count s) s) in
  set_pcs (match k with KWait => delete t (c_pcs s1) | KFor e => <[t := Pred e]> (c_pcs s1) end) s1.

Definition passed (d : option Z) (now : Z) : bool := match d with Some d => (d <=? now)%Z | None => false end.

(** [wait] with the lock again. *)
Definition wait_check (t : tid) (p : nat) (deadline : option Z) (saved : nat) (k : kont) (s : cstate) : cstate :=
  if bool_decide (p ∈ c_waiters s) then
    let s1 := set_waiters (filter (λ q, q ≠ p) (c_waiters s)) s in
    if passed deadline (c_now s) then wait_return t p deadline saved k false s1 else wait_round t deadline saved k s1
  else wait_return t p deadline saved k true s.

(** [notify] and [notify_all]: the first [n] waiters, woken in one batch. *)
Definition notify (n : nat) (s : cstate) : cstate :=
  let woke := take n (c_waiters s) in
  CState (c_now s) (c_holder s) (c_count s) (drop n (c_waiters s)) (c_next s) (c_woken s ∪ list_to_set woke) (c_pcs s) (c_popped s ++ woke) (c_log s).

(** [wait_for] once the predicate gave [b]. *)
Definition wait_for_next (t : tid) (endtime : option Z) (b : bool) (s : cstate) : cstate :=
  if b then log_out (OFor t endtime true) (set_pcs (delete t (c_pcs s)) s)
  else if passed endtime (c_now s) then log_out (OFor t endtime false) (set_pcs (delete t (c_pcs s)) s)
  else wait_round t endtime (c_count s) (KFor endtime) s.

Inductive cev :=
  | EAcquire (t : tid) | ERelease (t : tid) | EWait (t : tid) (timeout : option Z) | EWaitFor (t : tid) (timeout : option Z)
  | EPred (t : tid) (b : bool) | ENotify (t : tid) (n : Z) | ENotifyAll (t : tid) | EWake (t : tid) | EReacq (t : tid) | ETick (d : Z).

Definition idle (t : tid) (s : cstate) : bool := bool_decide (c_pcs s !! t = None).
Definition when (b : bool) (s : option cstate) : option cstate := if b then s else None.

(** One event; [None] when it cannot happen. *)
Definition cexec (e : cev) (s : cstate) : option cstate :=
  match e with
  | EAcquire t => when (idle t s) (lock_acquire t s)
  | ERelease t => when (idle t s) (Some (match lock_release t s with Some s' => s' | None => log_out (OError t) s end))
  | EWait t timeout => when (idle t s) (Some (wait_round t ((λ d, c_now s + d)%Z <$> timeout) (c_count s) KWait s))
  | EWaitFor t timeout => when (idle t s) (Some (set_pcs (<[t := Pred ((λ d, c_now s + d)%Z <$> timeout)]> (c_pcs s)) s))
  | EPred t b => match c_pcs s !! t with Some (Pred e) => Some (wait_for_next t e b s) | _ => None end
  | ENotify t n => when (idle t s) (Some (notify (Z.to_nat n) s))
  | ENotifyAll t => when (idle t s) (Some (notify (length (c_waiters s)) s))
  | EWake t =>
      match c_pcs s !! t with
      | Some (Parked p d n k) =>
          Some (CState (c_now s) (c_holder s) (c_count s) (c_waiters s) (c_next s) (c_woken s ∖ {[p]}) (<[t := Reacq p d n k]> (c_pcs s)) (c_popped s) (c_log s))
      | _ => None
      end
  | EReacq t =>
      match c_pcs s !! t, c_holder s with
      | Some (Reacq p d n k), None => Some (wait_check t p d n k (set_lock (Some t) 1 s))
      | _, _ => None
      end
  | ETick d => when (0 <=? d)%Z (Some (CState (c_now s + d) (c_holder s) (c_count s) (c_waiters s) (c_next s) (c_woken s) (c_pcs s) (c_popped s) (c_log s)))
  end.

(** The discipline of [threading.Condition]: wait, notify and release with the lock held. *)
Definition polite (e : cev) (s : cstate) : Prop :=
  match e with
  | ERelease t | EWait t _ | EWaitFor t _ | ENotify t _ | ENotifyAll t => c_holder s = Some t
  | _ => True
  end.

Definition cstep (s s' : cstate) : Prop := exists e, polite e s /\ cexec e s = Some s'.
Definition creach : cstate -> Prop := rtc cstep c_init.

(** ** The invariant *)

Definition parker_of (pc : cpc) : option nat := match pc with Parked p _ _ _ | Reacq p _ _ _ => Some p | Pred _ => None end.
Definition saved_of (pc : cpc) : option nat := match pc with Parked _ _ n _ | Reacq _ _ n _ => Some n | Pred _ => None end.

(** A parker is in the hands of a thread that waits. *)
Definition waits_in (m : gmap tid cpc) (p : nat) : Prop := exists t pc, m !! t = Some pc /\ parker_of pc = Some p.
Abbreviation waits s p := (waits_in (c_pcs s) p).

Record cinv (s : cstate) : Prop := {
  ci_sorted : StronglySorted lt (c_popped s ++ c_waiters s);
  ci_bound : forall p, p ∈ c_popped s ++ c_waiters s \/ waits s p \/ (exists t d b, OWait t p d b ∈ c_log s) -> p < c_next s;
  ci_lock : match c_holder s with Some _ => c_count s ≠ 0 | None => c_count s = 0 end /\ (rec = false -> c_count s <= 1);
  ci_own : forall t t' pc pc' p, c_pcs s !! t = Some pc -> c_pcs s !! t' = Some pc' -> parker_of pc = Some p -> parker_of pc' = Some p -> t = t';
  ci_queued : forall p, p ∈ c_waiters s -> waits s p;
  ci_popped : forall p, p ∈ c_popped s -> waits s p \/ exists t d, OWait t p d true ∈ c_log s;
  ci_told : forall t p d b, OWait t p d b ∈ c_log s -> ~ waits s p /\ (b = true <-> p ∈ c_popped s) /\ (b = false -> exists z, d = Some z /\ (z <= c_now s)%Z);
  ci_once : forall i j t t' p d d' b b', c_log s !! i = Some (OWait t p d b) -> c_log s !! j = Some (OWait t' p d' b') -> i = j;
  ci_waiter : forall t pc p, c_pcs s !! t = Some pc -> parker_of pc = Some p -> p ∈ c_waiters s \/ p ∈ c_popped s;
  ci_woken : forall t p d n k, c_pcs s !! t = Some (Parked p d n k) -> p ∈ c_waiters s \/ p ∈ c_woken s;
  ci_pred : forall t e, c_pcs s !! t = Some (Pred e) -> c_holder s = Some t;
  ci_saved : forall t pc n, c_pcs s !! t = Some pc -> saved_of pc = Some n -> n ≠ 0
}.

Definition parkless (m : gmap tid cpc) (t : tid) : Prop := forall pc, m !! t = Some pc -> parker_of pc = None.

Lemma waits_delete m t p : waits_in (delete t m) p <-> exists t' pc, t' ≠ t /\ m !! t' = Some pc /\ parker_of pc = Some p.
Proof. unfold waits_in. setoid_rewrite lookup_delete_Some. naive_solver. Qed.

Lemma waits_insert m t pc p : waits_in (<[t := pc]> m) p <-> parker_of pc = Some p \/ waits_in (delete t m) p.
Proof. rewrite waits_delete. unfold waits_in. setoid_rewrite lookup_insert_Some. naive_solver. Qed.

Lemma waits_parkless m t p : parkless m t -> waits_in m p <-> waits_in (delete t m) p.
Proof.
  intros Hp. rewrite waits_delete. unfold waits_in. split; [|naive_solver]. intros (t' & pc & H1 & H2). exists t', pc. split_and!; [|done..].
  intros ->. specialize (Hp _ H1). congruence.
Qed.

Lemma wait_round_eq t d n k s : c_holder s = Some t -> wait_round t d n k s =
  CState (c_now s) None 0 (c_waiters s ++ [c_next s]) (S (c_next s)) (c_woken s) (<[t := Parked (c_next s) d n k]> (c_pcs s)) (c_popped s) (c_log s).
Proof.
  intros Hh. unfold wait_round, lock_release. simpl. rewrite Hh. destruct rec; [|done]. by rewrite bool_decide_eq_true_2.
Qed.

(** A thread that has the lock and waits for nothing starts a round. *)
Lemma cinv_round t d n k s : cinv s -> c_holder s = Some t -> parkless (c_pcs s) t -> n ≠ 0 -> cinv (wait_round t d n k s).
Proof.
  intros I Hh Hp Hn. rewrite wait_round_eq by done. pose proof (λ p, waits_parkless (c_pcs s) t p Hp) as Hw.
  assert (Hfresh : forall p, waits s p -> p ≠ c_next s) by (intros p Hx ->; pose proof (ci_bound s I (c_next s) ltac:(auto)); lia).
  destruct I; constructor; simpl.
  - rewrite app_assoc. apply sorted_snoc; [done|]. apply Forall_forall. intros x Hx. apply ci_bound0. auto.
  - intros p. rewrite app_assoc, elem_of_app, list_elem_of_singleton, waits_insert, <- Hw. simpl. intros [[Hx| ->]|[[[= ->]|Hx]|Hx]]; try lia;
      (assert (p < c_next s); [apply ci_bound0; auto|lia]).
  - split; [done|lia].
  - intros t1 t2 pc1 pc2 p. rewrite !lookup_insert_Some. intros [[<- <-]|[H1 H1']] [[<- <-]|[H2 H2']]; simpl; intros E1 E2; try done.
    + destruct (Hfresh p); [by exists t2, pc2|congruence].
    + destruct (Hfresh p); [by exists t1, pc1|congruence].
    + by eapply ci_own0.
  - intros p. rewrite elem_of_app, list_elem_of_singleton, waits_insert, <- Hw. simpl. intros [Hx| ->]; [right; auto|auto].
  - intros p Hx. rewrite waits_insert, <- Hw. destruct (ci_popped0 p Hx); auto.
  - intros t' p d' b Hx. destruct (ci_told0 t' p d' b Hx) as (A & B & C). split_and!; [|done..]. rewrite waits_insert, <- Hw. simpl.
    intros [Hq|?]; [|done]. injection Hq as Hq. pose proof (ci_bound0 p ltac:(eauto 10)). lia.
  - done.
  - intros t' pc p. rewrite lookup_insert_Some, elem_of_app, list_elem_of_singleton. intros [[<- <-]|[H1 H1']]; simpl; [intros [= <-]; auto|].
    intros H2. destruct (ci_waiter0 t' pc p H1' H2); auto.
  - intros t' p d' n' k'. rewrite lookup_insert_Some, elem_of_app, list_elem_of_singleton. intros [[<- [= <- <- <- <-]]|[H1 H1']]; [auto|].
    destruct (ci_woken0 t' p d' n' k' H1'); auto.
  - intros t' e. rewrite lookup_insert_Some. intros [[? ?]|[H1 H1']]; [done|]. specialize (ci_pred0 t' e H1'). congruence.
  - intros t' pc n'. rewrite lookup_insert_Some. intros [[<- <-]|[H1 H1']]; simpl; [by intros [= <-]|]. by eapply ci_saved0.
Qed.

Lemma cinv_parkers s t pc p : cinv s -> c_pcs s !! t = Some pc -> parker_of pc = Some p -> ~ waits_in (delete t (c_pcs s)) p.
Proof. intros I H1 H2. rewrite waits_delete. intros (t' & pc' & Hne & H3 & H4). apply Hne. by eapply (ci_own s I). Qed.

Lemma waits_split m t pc p : m !! t = Some pc -> waits_in m p <-> parker_of pc = Some p \/ waits_in (delete t m) p.
Proof.
  intros H. rewrite waits_delete. unfold waits_in. split.
  - intros (t' & pc' & H1 & H2). destruct (decide (t' = t)) as [->|]; [left; congruence|right; eauto].
  - intros [H2|(t' & pc' & _ & H1 & H2)]; eauto.
Qed.

Lemma waits_deleted m t p : waits_in (delete t m) p -> waits_in m p.
Proof. rewrite waits_delete. unfold waits_in. naive_solver. Qed.

(** A thread gives up its place in the queue. *)
Lemma cinv_forget s t pc p : cinv s -> c_pcs s !! t = Some pc -> parker_of pc = Some p -> p ∈ c_waiters s ->
  cinv (set_pcs (delete t (c_pcs s)) (set_waiters (filter (λ q, q ≠ p) (c_waiters s)) s)).
Proof.
  intros I Hpc Hp Hin. pose proof (waits_split (c_pcs s) t pc) as Hw. pose proof (cinv_parkers s t pc p I Hpc Hp) as Hnp.
  assert (Hnpop : p ∉ c_popped s) by (intros Hx; by eapply sorted_disjoint in Hx; [|apply (ci_sorted s I)]).
  destruct I; constructor; simpl; auto.
  - rewrite <- (filter_keep (λ q, q ≠ p) (c_popped s)) by (apply Forall_forall; congruence). rewrite <- filter_app. by apply sorted_filter.
  - intros q Hq. apply ci_bound0. rewrite elem_of_app in *. rewrite list_elem_of_filter in Hq. destruct Hq as [[?|[_ ?]]|[Hq|?]]; auto.
    right. left. by eapply waits_deleted.
  - intros t1 t2 pc1 pc2 q. rewrite !lookup_delete_Some. naive_solver.
  - intros q [Hne Hq]%list_elem_of_filter. destruct (proj1 (Hw q Hpc) (ci_queued0 q Hq)); [congruence|done].
  - intros q Hq. destruct (ci_popped0 q Hq) as [[?|?]%(Hw q Hpc)|?]; [congruence|auto..].
  - intros t' q d b Hq. destruct (ci_told0 t' q d b Hq) as (A & B & C). split_and!; [|done..]. intros Hx. by apply A, (waits_deleted _ t).
  - intros t' pc' q. rewrite lookup_delete_Some, list_elem_of_filter. intros [Hne H1] H2. destruct (ci_waiter0 t' pc' q H1 H2); [|auto].
    left. split; [|done]. intros ->. apply Hne. by eapply ci_own0.
  - intros t' q d n k. rewrite lookup_delete_Some, list_elem_of_filter. intros [Hne H1]. destruct (ci_woken0 t' q d n k H1); [|auto].
    left. split; [|done]. intros ->. apply Hne. by eapply ci_own0.
  - intros t' e. rewrite lookup_delete_Some. naive_solver.
  - intros t' pc' n. rewrite lookup_delete_Some. naive_solver.
Qed.

(** Its wait is over. *)
Lemma cinv_out s t p d b : cinv s -> p < c_next s -> ~ waits s p -> (b = true <-> p ∈ c_popped s) ->
  (b = false -> exists z, d = Some z /\ (z <= c_now s)%Z) -> (forall t' d' b', OWait t' p d' b' ∉ c_log s) -> cinv (log_out (OWait t p d b) s).
Proof.
  intros I Hb Hn Hpop Hd Hl. destruct I; constructor; simpl; auto.
  - intros q [?|[?|(t' & d' & b' & [?|Hx]%elem_of_app)]]; [by apply ci_bound0; auto..|apply ci_bound0; eauto 10|].
    apply list_elem_of_singleton in Hx. by injection Hx as -> -> -> ->.
  - intros q Hq. destruct (ci_popped0 q Hq) as [?|(t' & d' & ?)]; [auto|]. right. exists t', d'. apply elem_of_app. auto.
  - intros t' q d' b' [?|Hx]%elem_of_app; [by eapply ci_told0|]. apply list_elem_of_singleton in Hx. by injection Hx as -> -> -> ->.
  - intros i j t1 t2 q d1 d2 b1 b2. rewrite !lookup_snoc_Some. intros [[_ H1]|[-> H1]] [[_ H2]|[-> H2]]; [by eapply ci_once0| | |done].
    + injection H2 as -> -> -> ->. by apply list_elem_of_lookup_2, Hl in H1.
    + injection H1 as -> -> -> ->. by apply list_elem_of_lookup_2, Hl in H2.
Qed.

Lemma cinv_notified s t pc p d : cinv s -> c_pcs s !! t = Some pc -> parker_of pc = Some p -> p ∈ c_popped s ->
  cinv (set_pcs (delete t (c_pcs s)) (log_out (OWait t p d true) s)).
Proof.
  intros I Hpc Hp Hpop. pose proof (waits_split (c_pcs s) t pc) as Hw. pose proof (cinv_parkers s t pc p I Hpc Hp) as Hnp.
  assert (Hwp : waits s p) by (exists t, pc; auto).
  assert (Hl : forall t' d' b', OWait t' p d' b' ∉ c_log s) by (intros t' d' b' Hx; by apply (ci_told s I) in Hx as (? & _)).
  assert (Hb : p < c_next s) by (apply (ci_bound s I); auto).
  assert (Hnq : p ∉ c_waiters s) by (eapply sorted_disjoint; [apply (ci_sorted s I)|done]).
  destruct I; constructor; simpl; auto.
  - intros q [?|[Hq|(t' & d' & b' & [?|Hx]%elem_of_app)]]; [by apply ci_bound0; auto| |apply ci_bound0; eauto 10|].
    + apply ci_bound0. right. left. by eapply waits_deleted.
    + apply list_elem_of_singleton in Hx. by simplify_eq.
  - intros t1 t2 pc1 pc2 q. rewrite !lookup_delete_Some. naive_solver.
  - intros q Hq. destruct (proj1 (Hw q Hpc) (ci_queued0 q Hq)); [congruence|done].
  - intros q Hq. destruct (ci_popped0 q Hq) as [[?|?]%(Hw q Hpc)|(t' & d' & ?)]; [|auto|].
    + assert (q = p) as -> by congruence. right. exists t, d. apply elem_of_app. right. by left.
    + right. exists t', d'. apply elem_of_app. auto.
  - intros t' q d' b' [Hx|Hx]%elem_of_app.
    + destruct (ci_told0 t' q d' b' Hx) as (A & B). split; [|done]. intros Hy. by apply A, (waits_deleted _ t).
    + apply list_elem_of_singleton in Hx. simplify_eq. split_and!; done.
  - intros i j t1 t2 q d1 d2 b1 b2. rewrite !lookup_snoc_Some. intros [[_ H1]|[-> H1]] [[_ H2]|[-> H2]]; [by eapply ci_once0| | |done].
    + simplify_eq. by apply list_elem_of_lookup_2, Hl in H1.
    + simplify_eq. by apply list_elem_of_lookup_2, Hl in H2.
  - intros t' pc' q. rewrite lookup_delete_Some. naive_solver.
  - intros t' q d' n k. rewrite lookup_delete_Some. naive_solver.
  - intros t' e. rewrite lookup_delete_Some. naive_solver.
  - intros t' pc' n. rewrite lookup_delete_Some. naive_solver.
Qed.

Lemma cinv_set_lock s h n : cinv s -> match h with Some _ => n ≠ 0 | None => n = 0 end -> (rec = false -> n <= 1) ->
  (forall t e, c_pcs s !! t = Some (Pred e) -> h = Some t) -> cinv (set_lock h n s).
Proof. intros I H1 H2 H3. destruct I; constructor; simpl; auto. Qed.

Lemma cinv_pred s t e : cinv s -> c_holder s = Some t -> parkless (c_pcs s) t -> cinv (set_pcs (<[t := Pred e]> (c_pcs s)) s).
Proof.
  intros I Hh Hp. pose proof (λ p, waits_parkless (c_pcs s) t p Hp) as Hw.
  assert (Hi : forall p, waits_in (<[t := Pred e]> (c_pcs s)) p <-> waits s p) by (intros p; rewrite waits_insert, <- Hw; simpl; naive_solver).
  destruct I; constructor; simpl; try done.
  - intros p. rewrite Hi. auto.
  - intros t1 t2 pc1 pc2 p. rewrite !lookup_insert_Some. intros [[<- <-]|[? ?]] [[<- <-]|[? ?]]; simpl; try done. by apply ci_own0.
  - intros p. rewrite Hi. auto.
  - intros p. rewrite Hi. auto.
  - intros t' p d b. rewrite Hi. eauto.
  - intros t' pc p. rewrite lookup_insert_Some. intros [[<- <-]|[? ?]]; [done|]. by eapply ci_waiter0.
  - intros t' p d n k. rewrite lookup_insert_Some. intros [[? ?]|[? ?]]; [done|]. by eapply ci_woken0.
  - intros t' e'. rewrite lookup_insert_Some. intros [[<- ?]|[? ?]]; [done|]. by eapply ci_pred0.
  - intros t' pc n. rewrite lookup_insert_Some. intros [[<- <-]|[? ?]]; [done|]. by eapply ci_saved0.
Qed.

Lemma cinv_log s t e b : cinv s -> cinv (log_out (OFor t e b) s).
Proof.
  intros I. assert (H : forall t' p d b', OWait t' p d b' ∈ c_log s ++ [OFor t e b] <-> OWait t' p d b' ∈ c_log s).
  { intros t' p d b'. rewrite elem_of_app, list_elem_of_singleton. naive_solver. }
  destruct I; constructor; simpl; try done.
  - intros p. setoid_rewrite H. auto.
  - intros p. setoid_rewrite H. auto.
  - intros t' p d b'. rewrite H. eauto.
  - intros i j t1 t2 p d1 d2 b1 b2. rewrite !lookup_snoc_Some. intros [[_ ?]|[_ ?]] [[_ ?]|[_ ?]]; try done. by eapply ci_once0.
Qed.

Lemma cinv_drop s t : cinv s -> parkless (c_pcs s) t -> cinv (set_pcs (delete t (c_pcs s)) s).
Proof.
  intros I Hp. pose proof (λ p, waits_parkless (c_pcs s) t p Hp) as Hw. destruct I; constructor; simpl; try done.
  - intros p. rewrite <- Hw. auto.
  - intros t1 t2 pc1 pc2 p. rewrite !lookup_delete_Some. naive_solver.
  - intros p. rewrite <- Hw. auto.
  - intros p. rewrite <- Hw. auto.
  - intros t' p d b. rewrite <- Hw. eauto.
  - intros t' pc p [_ ?]%lookup_delete_Some. by eapply ci_waiter0.
  - intros t' p d n k [_ ?]%lookup_delete_Some. by eapply ci_woken0.
  - intros t' e [_ ?]%lookup_delete_Some. by eapply ci_pred0.
  - intros t' pc n [_ ?]%lookup_delete_Some. by eapply ci_saved0.
Qed.

Lemma cinv_notify s n : cinv s -> cinv (notify n s).
Proof.
  intros I. assert (Hcat : forall p, p ∈ (c_popped s ++ take n (c_waiters s)) ++ drop n (c_waiters s) <-> p ∈ c_popped s ++ c_waiters s).
  { intros p. by rewrite <- app_assoc, take_drop. }
  assert (Hsplit : forall p, p ∈ c_waiters s -> p ∈ take n (c_waiters s) \/ p ∈ drop n (c_waiters s)).
  { intros p. rewrite <- (take_drop n (c_waiters s)) at 1. apply elem_of_app. }
  assert (Hin : forall p, p ∈ drop n (c_waiters s) -> p ∈ c_waiters s).
  { intros p Hp. rewrite <- (take_drop n (c_waiters s)). apply elem_of_app. auto. }
  assert (Hin' : forall p, p ∈ take n (c_waiters s) -> p ∈ c_waiters s).
  { intros p Hp. rewrite <- (take_drop n (c_waiters s)). apply elem_of_app. auto. }
  destruct I; constructor; simpl; try done.
  - by rewrite <- app_assoc, take_drop.
  - intros p. rewrite Hcat. auto.
  - intros p Hp. auto.
  - intros p [Hp|Hp]%elem_of_app; auto.
  - intros t p d b Hx. destruct (ci_told0 t p d b Hx) as (A & B & C). split_and!; [done| |done]. rewrite B, elem_of_app.
    split; [auto|]. intros [?|Hy]; [done|]. destruct A. auto.
  - intros t pc p H1 H2. rewrite elem_of_app. destruct (ci_waiter0 t pc p H1 H2) as [[?|?]%Hsplit|?]; auto.
  - intros t p d m k H1. destruct (ci_woken0 t p d m k H1) as [[?|?]%Hsplit|?]; [right; set_solver|auto|right; set_solver].
Qed.

Lemma cinv_wake s t p d n k : cinv s -> c_pcs s !! t = Some (Parked p d n k) ->
  cinv (CState (c_now s) (c_holder s) (c_count s) (c_waiters s) (c_next s) (c_woken s ∖ {[p]}) (<[t := Reacq p d n k]> (c_pcs s)) (c_popped s) (c_log s)).
Proof.
  intros I Hpc. pose proof (waits_split (c_pcs s) t (Parked p d n k)) as Hw.
  assert (Hi : forall q, waits_in (<[t := Reacq p d n k]> (c_pcs s)) q <-> waits s q) by (intros q; rewrite waits_insert, Hw by done; done).
  pose proof (ci_own s I) as Hown.
  destruct I; constructor; simpl; try done.
  - intros q. rewrite Hi. auto.
  - intros t1 t2 pc1 pc2 q. rewrite !lookup_insert_Some. intros [[<- <-]|[? ?]] [[<- <-]|[? ?]]; simpl; try done; intros E1 E2.
    + by apply (ci_own0 t t2 (Parked p d n k) pc2 q).
    + by apply (ci_own0 t1 t pc1 (Parked p d n k) q).
    + by eapply ci_own0.
  - intros q. rewrite Hi. auto.
  - intros q. rewrite Hi. auto.
  - intros t' q d' b. rewrite Hi. eauto.
  - intros t' pc q. rewrite lookup_insert_Some. intros [[<- <-]|[? ?]]; simpl; [intros [= <-]; by apply (ci_waiter0 t (Parked p d n k))|by eapply ci_waiter0].
  - intros t' q d' n' k'. rewrite lookup_insert_Some. intros [[? ?]|[Hne H1]]; [done|]. destruct (ci_woken0 t' q d' n' k' H1); [auto|].
    right. apply elem_of_difference. split; [done|]. intros ->%elem_of_singleton. apply Hne. by apply (Hown t t' (Parked p d n k) (Parked p d' n' k') p).
  - intros t' e. rewrite lookup_insert_Some. intros [[? ?]|[? ?]]; [done|]. by eapply ci_pred0.
  - intros t' pc m. rewrite lookup_insert_Some. intros [[<- <-]|[? ?]]; simpl; [intros [= <-]; by apply (ci_saved0 t (Parked p d n k))|by eapply ci_saved0].
Qed.

Lemma idle_parkless t s : idle t s = true -> parkless (c_pcs s) t.
Proof. unfold idle. intros H%bool_decide_eq_true pc Hpc. congruence. Qed.

Lemma lock_release_eq t s : c_holder s = Some t -> exists h n, lock_release t s = Some (set_lock h n s) /\
  (h = None /\ n = 0 \/ rec = true /\ h = Some t /\ c_count s ≠ 1 /\ n = pred (c_count s)).
Proof.
  intros Hh. unfold lock_release. rewrite Hh. destruct rec; [|eauto 10]. rewrite bool_decide_eq_true_2 by done. case_decide; eauto 10.
Qed.

(** [wait] after it has the lock again. *)
Lemma cinv_check s t p d n k : cinv s -> c_pcs s !! t = Some (Reacq p d n k) -> c_holder s = None -> cinv (wait_check t p d n k (set_lock (Some t) 1 s)).
Proof.
  intros I Hpc Hh. assert (Hn : n ≠ 0) by (by eapply (ci_saved s I t)).
  assert (Hnop : forall t' e, c_pcs s !! t' = Some (Pred e) -> Some t = Some t').
  { intros t' e H. apply (ci_pred s I) in H. congruence. }
  assert (I1 : cinv (set_lock (Some t) 1 s)) by (apply cinv_set_lock; [done..|]; done).
  assert (Hend : forall s1, cinv s1 -> c_holder s1 = Some t -> parkless (c_pcs s1) t -> (rec = false -> c_count s1 <= 1) -> c_count s1 = 1 ->
    cinv (set_pcs (match k with KWait => c_pcs s1 | KFor e => <[t := Pred e]> (c_pcs s1) end) (set_lock (Some t) (if rec then n else c_count s1) s1))).
  { intros s1 J1 J2 J3 J4 J5. assert (J : cinv (set_lock (Some t) (if rec then n else c_count s1) s1)).
    { apply cinv_set_lock; [done|destruct rec; lia|destruct rec; intros; [done|lia]|]. intros t' e H. apply (ci_pred s1 J1) in H. congruence. }
    destruct k; [done|]. by apply (cinv_pred (set_lock (Some t) (if rec then n else c_count s1) s1)). }
  unfold wait_check. case_bool_decide as Hin.
  - pose proof (cinv_forget _ t _ p I1 Hpc eq_refl Hin) as I2. set (s2 := set_pcs _ _) in I2.
    assert (Hp2 : parkless (c_pcs s2) t) by (intros pc; subst s2; simpl; by rewrite lookup_delete_eq).
    destruct (passed d _) eqn:Hd; simpl in *.
    + assert (I3 : cinv (log_out (OWait t p d false) s2)).
      { apply cinv_out; [done|..].
        - apply (ci_bound s I). right. left. by exists t, (Reacq p d n k).
        - by eapply (cinv_parkers _ t _ p I1).
        - split; [done|]. intros Hx. by eapply sorted_disjoint in Hx; [|apply (ci_sorted s I)].
        - intros _. unfold passed in Hd. destruct d as [z|]; [|done]. exists z. by apply Z.leb_le in Hd.
        - intros t' d' b' Hx. apply (ci_told s I) in Hx as (Hx & _). apply Hx. by exists t, (Reacq p d n k). }
      specialize (Hend _ I3 eq_refl Hp2 (λ _, Nat.le_refl 1) eq_refl). unfold wait_return. subst s2. simpl in Hend. destruct k; simpl in *; [done|].
      by rewrite insert_delete_eq in Hend.
    + pose proof (cinv_round t d n k s2 I2 eq_refl Hp2 Hn) as I3. rewrite wait_round_eq in I3 by done. rewrite wait_round_eq by done.
      subst s2. simpl in *. by rewrite insert_delete_eq in I3.
  - assert (Hpop : p ∈ c_popped s) by (destruct (ci_waiter s I t _ p Hpc eq_refl); done).
    pose proof (cinv_notified _ t _ p d I1 Hpc eq_refl Hpop) as I2. set (s2 := set_pcs _ _) in I2.
    assert (Hp2 : parkless (c_pcs s2) t) by (intros pc; subst s2; simpl; by rewrite lookup_delete_eq).
    specialize (Hend _ I2 eq_refl Hp2 (λ _, Nat.le_refl 1) eq_refl). unfold wait_return. subst s2. simpl in Hend. destruct k; simpl in *; [done|].
    by rewrite insert_delete_eq in Hend.
Qed.

Lemma cinv_step s e s' : cinv s -> polite e s -> cexec e s = Some s' -> cinv s'.
Proof.
  intros I Hpol. pose proof (ci_lock s I) as Hlock. destruct e as [t|t|t to|t to|t b|t n|t|t|t|d]; cbn [cexec polite] in *; unfold when; intros Hx.
  - destruct (idle t s); [|done]. unfold lock_acquire in Hx. destruct (c_holder s) as [h|] eqn:Hh.
    + destruct (decide (rec && bool_decide (h = t) = true)) as [Hc|Hc]; [|by destruct (rec && bool_decide (h = t))]. rewrite Hc in Hx. simplify_eq.
      apply andb_true_iff in Hc as [Hr Ht%bool_decide_eq_true]. subst. apply cinv_set_lock; [done..|congruence|]. intros t' e H. apply (ci_pred s I) in H. congruence.
    + simplify_eq. apply cinv_set_lock; [done..|lia|]. intros t' e H. apply (ci_pred s I) in H. congruence.
  - destruct (idle t s) eqn:Hidle; [|done]. destruct (lock_release_eq t s Hpol) as (h & n & E & Hc). rewrite E in Hx. simplify_eq.
    assert (Hnop : forall t' e, c_pcs s !! t' ≠ Some (Pred e)).
    { intros t' e H. pose proof H as H'. apply (ci_pred s I) in H'. assert (t' = t) as -> by congruence. apply bool_decide_eq_true in Hidle. congruence. }
    rewrite Hpol in Hlock. destruct Hlock as (Hl1 & Hl2). destruct Hc as [(-> & ->)|(Hr & -> & Hn & ->)]; (apply cinv_set_lock; [done|simpl; lia|intros Er; specialize (Hl2 Er); lia|intros t' e H; by apply Hnop in H]).
  - destruct (idle t s) eqn:Hidle; [|done]. simplify_eq. rewrite Hpol in Hlock. apply cinv_round; [done..|by apply idle_parkless|apply Hlock].
  - destruct (idle t s) eqn:Hidle; [|done]. simplify_eq. apply cinv_pred; [done..|by apply idle_parkless].
  - destruct (c_pcs s !! t) as [[| |e]|] eqn:Hpc; try done. simplify_eq. pose proof (ci_pred s I t e Hpc) as Hh. rewrite Hh in Hlock.
    assert (Hp : parkless (c_pcs s) t) by (intros pc; rewrite Hpc; by intros [= <-]). unfold wait_for_next.
    destruct b; [by apply cinv_log, cinv_drop|]. destruct (passed e (c_now s)); [by apply cinv_log, cinv_drop|]. apply cinv_round; [done..|apply Hlock].
  - destruct (idle t s); [|done]. simplify_eq. by apply cinv_notify.
  - destruct (idle t s); [|done]. simplify_eq. by apply cinv_notify.
  - destruct (c_pcs s !! t) as [[p d n k| |]|] eqn:Hpc; try done. simplify_eq. by apply cinv_wake.
  - destruct (c_pcs s !! t) as [[|p d n k|]|] eqn:Hpc; try done. destruct (c_holder s) eqn:Hh; [done|]. simplify_eq. by apply cinv_check.
  - destruct (Z.leb_spec 0 d); [|done]. simplify_eq. destruct I; constructor; simpl; try done. intros t p z b H1.
    destruct (ci_told0 t p z b H1) as (A & B & C). split_and!; [done..|]. intros Hb. destruct (C Hb) as (z' & ? & ?). exists z'. split; [done|lia].
Qed.

Lemma creach_inv s : creach s -> cinv s.
Proof.
  revert s. apply (rtc_ind_r (R := cstep) cinv c_init).
  - assert (Hn : forall p, ~ waits c_init p) by (intros p (t & pc & Hx & _); simpl in Hx; by rewrite lookup_empty in Hx).
    constructor; simpl; try (intros; by rewrite ?lookup_empty, ?elem_of_nil in * ).
    + constructor.
    + intros p [Hx|[Hx|(t & d & b & Hx)]]; [by apply elem_of_nil in Hx|by apply Hn in Hx|by apply elem_of_nil in Hx].
    + split; [done|lia].
  - intros s1 s2 _ (e & Hp & He) I. by eapply cinv_step.
Qed.

(** Who waits does not have the lock. *)
Definition cfree (s : cstate) : Prop := forall t pc p, c_pcs s !! t = Some pc -> parker_of pc = Some p -> c_holder s ≠ Some t.

Lemma cfree_step s s' : cinv s -> cfree s -> cstep s s' -> cfree s'.
Proof.
  intros I F (e & Hpol & Hx). destruct e as [t|t|t to|t to|t b|t n|t|t|t|d]; cbn [cexec polite] in *; unfold when in Hx.
  - destruct (idle t s) eqn:Hidle; [|done]. apply idle_parkless in Hidle. unfold lock_acquire in Hx.
    assert (Hs : s' = set_lock (Some t) (c_count s') s).
    { destruct (c_holder s); [destruct (rec && _); [|done]|]; by simplify_eq/=. }
    rewrite Hs. intros t' pc p Hpc Hp. simpl. intros [= ->]. apply Hidle in Hpc. congruence.
  - destruct (idle t s); [|done]. destruct (lock_release_eq t s Hpol) as (h & n & E & Hc). rewrite E in Hx. simplify_eq.
    intros t' pc p Hpc Hp. simpl in *. destruct Hc as [(-> & _)|(_ & -> & _)]; [done|]. rewrite <- Hpol. by eapply F.
  - destruct (idle t s); [|done]. simplify_eq. by rewrite wait_round_eq.
  - destruct (idle t s); [|done]. simplify_eq. intros t' pc p. simpl. rewrite lookup_insert_Some. intros [[<- <-]|[? ?]]; [done|by eapply F].
  - destruct (c_pcs s !! t) as [[| |e]|] eqn:Hpc; try done. simplify_eq. pose proof (ci_pred s I t e Hpc) as Hh. unfold wait_for_next.
    assert (Hd : forall o, cfree (log_out o (set_pcs (delete t (c_pcs s)) s))).
    { intros o t' pc p. simpl. rewrite lookup_delete_Some. intros [? ?]. by eapply F. }
    destruct b; [apply Hd|]. destruct (passed e (c_now s)); [apply Hd|]. by rewrite wait_round_eq.
  - destruct (idle t s); [|done]. by simplify_eq.
  - destruct (idle t s); [|done]. by simplify_eq.
  - destruct (c_pcs s !! t) as [[p d n k| |]|] eqn:Hpc; try done. simplify_eq. intros t' pc q. simpl. rewrite lookup_insert_Some.
    intros [[<- <-]|[? ?]]; [intros _; by apply (F t _ p Hpc)|by eapply F].
  - destruct (c_pcs s !! t) as [[|p d n k|]|] eqn:Hpc; try done. destruct (c_holder s) eqn:Hh; [done|]. simplify_eq.
    assert (Hr : forall b s1, c_pcs s1 = c_pcs s -> c_holder s1 = Some t -> cfree (wait_return t p d n k b s1)).
    { intros b s1 E1 E2 t' pc q. unfold wait_return. simpl. rewrite E1, E2. intros H1 H2 [= <-].
      destruct k; [by rewrite lookup_delete_eq in H1|rewrite lookup_insert_eq in H1]. by simplify_eq. }
    unfold wait_check. case_bool_decide; [|by apply Hr]. destruct (passed _ _); [by apply Hr|]. by rewrite wait_round_eq.
  - destruct (0 <=? d)%Z; [|done]. by simplify_eq.
Qed.

Lemma creach_free s : creach s -> cfree s.
Proof.
  intros Hr. cut (cinv s /\ cfree s); [by intros [_ ?]|]. revert s Hr. apply (rtc_ind_r (R := cstep) (λ s, cinv s /\ cfree s) c_init).
  - split; [apply creach_inv, rtc_refl|]. intros t pc p. simpl. by rewrite lookup_empty.
  - intros s1 s2 _ Hs (I & F). split; [|by eapply cfree_step]. destruct Hs as (e & ? & ?). by eapply cinv_step.
Qed.

(** ** Theorems *)

(** C25. Notifications are exact, under any interleaving, early wake-ups and timeouts.  A [wait] returns [True] if
    and only if a [notify] popped its parker; each popped parker belongs to one [wait], which has returned
    [True] or is on its way to; [wait] returns [False] only after its deadline, so never without one; and
    waiters are notified in the order in which their rounds began. *)
Theorem condition_notify_exact s : creach s ->
  (forall t p d b, OWait t p d b ∈ c_log s -> (b = true <-> p ∈ c_popped s) /\ (b = false -> exists z, d = Some z /\ (z <= c_now s)%Z)) /\
  (forall p, p ∈ c_popped s -> waits s p \/ exists t d, OWait t p d true ∈ c_log s) /\
  (forall t p d b, OWait t p d b ∈ c_log s -> ~ waits s p) /\
  (forall i j t t' p d d' b b', c_log s !! i = Some (OWait t p d b) -> c_log s !! j = Some (OWait t' p d' b') -> i = j) /\
  StronglySorted lt (c_popped s ++ c_waiters s).
Proof.
  intros I%creach_inv. split_and!; [|apply I|intros t p d b Hx; by apply (ci_told s I) in Hx as (? & _)|apply I|apply I].
  intros t p d b Hx. by apply (ci_told s I) in Hx as (_ & ? & ?).
Qed.

(** What must happen: a park that was unparked or whose time is over returns; a free lock is taken; a
    predicate gives an answer. *)
Definition sure (s : cstate) (t : tid) : Prop :=
  match c_pcs s !! t with
  | Some (Parked p d _ _) => p ∈ c_woken s \/ passed d (c_now s) = true
  | Some (Reacq _ _ _ _) => c_holder s = None
  | Some (Pred _) => True
  | None => False
  end.

(** No notification is lost: when nothing must happen any more, a call that has not returned waits for a
    [notify] - its parker is queued and its deadline lies ahead - or for the lock, which another thread
    has. *)
Theorem condition_no_stranded s : creach s -> (forall t, ~ sure s t) -> forall t pc, c_pcs s !! t = Some pc ->
  match pc with
  | Parked p d _ _ => p ∈ c_waiters s /\ p ∉ c_popped s /\ passed d (c_now s) = false
  | Reacq _ _ _ _ => exists t', c_holder s = Some t' /\ t' ≠ t
  | Pred _ => False
  end.
Proof.
  intros Hr Hq t pc Hpc. pose proof (creach_inv s Hr) as I. pose proof (creach_free s Hr) as F. specialize (Hq t). unfold sure in Hq. rewrite Hpc in Hq.
  destruct pc as [p d n k|p d n k|e]; [|destruct (c_holder s) as [t'|] eqn:Hh; [|done]; exists t'; split; [done|]; intros ->; by eapply F|done].
  apply Decidable.not_or in Hq as (H1 & H2). destruct (ci_woken s I t p d n k Hpc) as [Hin|]; [|done]. split_and!; [done| |by apply not_true_iff_false].
  intros Hx. by eapply sorted_disjoint in Hx; [|apply (ci_sorted s I)].
Qed.

(** In a call of [wait] that saved the depth [n]. *)
Definition in_wait (t : tid) (n : nat) (s : cstate) : Prop :=
  exists p d, c_pcs s !! t = Some (Parked p d n KWait) \/ c_pcs s !! t = Some (Reacq p d n KWait).

Lemma pcs_others e s s' t pc : cinv s -> polite e s -> cexec e s = Some s' -> c_pcs s !! t = Some pc ->
  c_pcs s' !! t = Some pc \/ e = EPred t true \/ e = EPred t false \/ e = EWake t \/ e = EReacq t.
Proof.
  intros I Hpol Hx Hpc. assert (Hidle : forall t', idle t' s = true -> t ≠ t') by (intros t' H ->; apply bool_decide_eq_true in H; congruence).
  destruct e as [t'|t'|t' to|t' to|t' b|t' n|t'|t'|t'|d]; cbn [cexec polite] in *; unfold when in Hx.
  - left. destruct (idle t' s); [|done]. unfold lock_acquire in Hx. destruct (c_holder s); [destruct (rec && _); [|done]|]; by simplify_eq/=.
  - left. destruct (idle t' s); [|done]. destruct (lock_release_eq t' s Hpol) as (h & n & E & _). rewrite E in Hx. by simplify_eq/=.
  - left. destruct (idle t' s) eqn:Hi; [|done]. simplify_eq. rewrite wait_round_eq by done. simpl. rewrite lookup_insert_ne; [done|]. intros ->. by eapply Hidle.
  - left. destruct (idle t' s) eqn:Hi; [|done]. simplify_eq. simpl. rewrite lookup_insert_ne; [done|]. intros ->. by eapply Hidle.
  - destruct (decide (t' = t)) as [->|Hne]; [destruct b; auto|]. left. destruct (c_pcs s !! t') as [[| |e]|] eqn:Hpc'; try done. simplify_eq.
    pose proof (ci_pred s I t' e Hpc') as Hh. unfold wait_for_next. destruct b; [simpl; by rewrite lookup_delete_ne|].
    destruct (passed e (c_now s)); [simpl; by rewrite lookup_delete_ne|]. rewrite wait_round_eq by done. simpl. by rewrite lookup_insert_ne.
  - left. destruct (idle t' s); [|done]. by simplify_eq.
  - left. destruct (idle t' s); [|done]. by simplify_eq.
  - destruct (decide (t' = t)) as [->|Hne]; [auto|]. left. destruct (c_pcs s !! t') as [[]|]; try done. simplify_eq. simpl. by rewrite lookup_insert_ne.
  - destruct (decide (t' = t)) as [->|Hne]; [auto 10|]. left. destruct (c_pcs s !! t') as [[|p d n k|]|]; try done. destruct (c_holder s); [done|]. simplify_eq.
    unfold wait_check. case_bool_decide; [destruct (passed _ _)|]; [|rewrite wait_round_eq by done|]; destruct k; simpl; by rewrite ?lookup_insert_ne, ?lookup_delete_ne.
  - left. destruct (0 <=? d)%Z; [|done]. by simplify_eq.
Qed.

(** One step of a call of [wait]: it goes on, or returns with the lock as it was. *)
Lemma in_wait_step s s' t n : cinv s -> in_wait t n s -> cstep s s' ->
  in_wait t n s' \/ c_pcs s' !! t = None /\ c_holder s' = Some t /\ c_count s' = (if rec then n else 1) /\ exists p d b, last (c_log s') = Some (OWait t p d b).
Proof.
  intros I (p & d & Hin) (e & Hpol & Hx). assert (Hpc : exists pc, c_pcs s !! t = Some pc /\ (pc = Parked p d n KWait \/ pc = Reacq p d n KWait)) by naive_solver.
  destruct Hpc as (pc & Hpc & Hcase). destruct (pcs_others e s s' t pc I Hpol Hx Hpc) as [Hs|[->|[->|[->| ->]]]]; cbn [cexec] in *.
  - left. exists p, d. destruct Hcase as [-> | ->]; auto.
  - rewrite Hpc in Hx. by destruct Hcase as [-> | ->].
  - rewrite Hpc in Hx. by destruct Hcase as [-> | ->].
  - rewrite Hpc in Hx. destruct Hcase as [-> | ->]; [|done]. simplify_eq. left. exists p, d. right. simpl. by rewrite lookup_insert_eq.
  - rewrite Hpc in Hx. destruct Hcase as [-> | ->]; [done|]. destruct (c_holder s) eqn:Hh; [done|]. simplify_eq. unfold wait_check.
    case_bool_decide; [destruct (passed _ _)|]; [right|left|right].
    + unfold wait_return. simpl. rewrite lookup_delete_eq, last_snoc. eauto 10.
    + rewrite wait_round_eq by done. exists (c_next s), d. left. simpl. by rewrite lookup_insert_eq.
    + unfold wait_return. simpl. rewrite lookup_delete_eq, last_snoc. eauto 10.
Qed.

(** [wait] gives the lock up and back.  It releases the lock whatever its depth, and when it returns, after
    any number of steps of any threads, early wake-ups and rounds, its caller has the lock again at the
    depth it had. *)
Theorem condition_wait_restores_lock s t timeout s1 s2 s3 : creach s -> c_holder s = Some t -> cexec (EWait t timeout) s = Some s1 ->
  rtc (λ a b, cstep a b /\ c_pcs b !! t ≠ None) s1 s2 -> cstep s2 s3 -> c_pcs s3 !! t = None ->
  c_holder s1 = None /\ c_holder s3 = Some t /\ c_count s3 = c_count s /\ exists p d b, last (c_log s3) = Some (OWait t p d b).
Proof.
  intros I%creach_inv Hh Hx Hr Hs Hn. pose proof (cinv_step s (EWait t timeout) s1 I Hh Hx) as I1.
  assert (Hc : (if rec then c_count s else 1) = c_count s).
  { destruct (ci_lock s I) as (Hl & Hl'). rewrite Hh in Hl. destruct rec; [done|]. specialize (Hl' eq_refl). lia. }
  cbn [cexec] in Hx. unfold when in Hx. destruct (idle t s); [|done]. simplify_eq. split; [by rewrite wait_round_eq|].
  assert (H1 : in_wait t (c_count s) (wait_round t ((λ d, c_now s + d)%Z <$> timeout) (c_count s) KWait s)).
  { rewrite wait_round_eq by done. exists (c_next s), ((λ d, c_now s + d)%Z <$> timeout). left. simpl. by rewrite lookup_insert_eq. }
  assert (H2 : cinv s2 /\ in_wait t (c_count s) s2).
  { revert I1 H1. induction Hr as [a|a b c [Hs1 Hs2] _ IH]; intros Ia Wa; [done|]. apply IH; [done|destruct Hs1 as (e & ? & ?); by eapply cinv_step|].
    destruct (in_wait_step a b t _ Ia Wa Hs1) as [?|(? & _)]; [done|congruence]. }
  destruct H2 as (I2 & W2). destruct (in_wait_step s2 s3 t _ I2 W2 Hs) as [(p & d & [?|?])|(_ & E1 & E2 & E3)]; [congruence..|]. by rewrite Hc in E2.
Qed.

(** [wait_for] evaluates its predicate with the lock held, returns [True] when it held and [False] only when
    its time is over, still with the lock; otherwise it waits again. *)
Theorem condition_wait_for_sound s t e b s' : creach s -> c_pcs s !! t = Some (Pred e) -> cexec (EPred t b) s = Some s' ->
  c_holder s = Some t /\
  (c_pcs s' !! t = None /\ c_holder s' = Some t /\ last (c_log s') = Some (OFor t e b) /\ (b = false -> exists z, e = Some z /\ (z <= c_now s)%Z) \/
   b = false /\ passed e (c_now s) = false /\ c_pcs s' !! t = Some (Parked (c_next s) e (c_count s) (KFor e))).
Proof.
  intros I%creach_inv Hpc Hx. pose proof (ci_pred s I t e Hpc) as Hh. split; [done|]. cbn [cexec] in Hx. rewrite Hpc in Hx. simplify_eq. unfold wait_for_next.
  destruct b; [left; simpl; rewrite lookup_delete_eq, last_snoc; done|]. destruct (passed e (c_now s)) eqn:Hd.
  - left. simpl. rewrite lookup_delete_eq, last_snoc. split_and!; [done..|]. intros _. unfold passed in Hd. destruct e as [z|]; [|done].
    exists z. by apply Z.leb_le in Hd.
  - right. rewrite wait_round_eq by done. simpl. by rewrite lookup_insert_eq.
Qed.
End condition.

(** ** Examples *)

Definition crun (rec : bool) (es : list cev) : option cstate := foldl (λ s e, s ≫= cexec rec e) (Some c_init) es.

(** Every event keeps to the discipline. *)
Fixpoint crun_polite (rec : bool) (es : list cev) (s : cstate) : option cstate :=
  match es with
  | [] => Some s
  | e :: es' =>
      let ok := match e with ERelease t | EWait t _ | EWaitFor t _ | ENotify t _ | ENotifyAll t => bool_decide (c_holder s = Some t) | _ => true end in
      if ok then cexec rec e s ≫= crun_polite rec es' else None
  end.

Lemma crun_polite_reach rec es s s' : crun_polite rec es s = Some s' -> rtc (cstep rec) s s'.
Proof.
  revert s. induction es as [|e es IH]; intros s; simpl; [intros [= ->]; apply rtc_refl|].
  destruct (match e with ERelease t | EWait t _ | EWaitFor t _ | ENotify t _ | ENotifyAll t => bool_decide (c_holder s = Some t) | _ => true end) eqn:E; [|done].
  intros (s1 & H1 & H2)%bind_Some. eapply rtc_l; [|by apply IH]. exists e. split; [|done]. destruct e; simpl in *; try done; by apply bool_decide_eq_true in E.
Qed.

(** Threads 1 and 2 wait, with an early wake-up of 1; 3 notifies one of them: it is 2. *)
Definition demo_events : list cev :=
  [EAcquire 1; EWait 1 None; EWake 1; EAcquire 2; EWait 2 (Some 5%Z); EReacq 1; EAcquire 3; ENotify 3 1; ERelease 3].
Definition demo_state : cstate := default c_init (crun_polite false demo_events c_init).

Lemma cond_demo_reach : creach false demo_state.
Proof. apply (crun_polite_reach false demo_events). by vm_compute. Qed.

Lemma condition_notify_exact_witness : c_popped demo_state = [1] /\ StronglySorted lt (c_popped demo_state ++ c_waiters demo_state).
Proof. split; [by vm_compute|]. apply (condition_notify_exact false demo_state cond_demo_reach). Defined.

(** After 2 took its notification, 1 is the one that waits. *)
Definition demo_end : cstate := default c_init (crun_polite false (demo_events ++ [EWake 2; EReacq 2; ERelease 2]) c_init).

Lemma condition_no_stranded_witness : 2 ∈ c_waiters demo_end /\ 2 ∉ c_popped demo_end /\ passed None (c_now demo_end) = false.
Proof.
  apply (condition_no_stranded false demo_end) with (t := 1) (pc := Parked 2 None 1 KWait).
  - apply (crun_polite_reach false (demo_events ++ [EWake 2; EReacq 2; ERelease 2])). by vm_compute.
  - intros t. unfold sure. replace (c_pcs demo_end) with ({[1 := Parked 2 None 1 KWait]} : gmap tid cpc) by (vm_compute; reflexivity).
    destruct (decide (t = 1)) as [->|Hne]; [|rewrite lookup_singleton_ne by congruence; tauto]. rewrite lookup_singleton_eq.
    intros [H|H]; [|done]. apply (bool_decide_eq_true_2 (2 ∈ c_woken demo_end)) in H. by vm_compute in H.
  - by vm_compute.
Defined.

(** Thread 1 holds the recursive lock twice and waits. *)
Definition demo_s0 : cstate := default c_init (crun_polite true [EAcquire 1; EAcquire 1] c_init).
Definition demo_s1 : cstate := default c_init (cexec true (EWait 1 None) demo_s0).
Definition demo_s2 : cstate := default c_init (crun_polite true [EAcquire 2; ENotifyAll 2; ERelease 2; EWake 1] demo_s1).
Definition demo_s3 : cstate := default c_init (cexec true (EReacq 1) demo_s2).

Lemma condition_wait_restores_lock_witness : c_holder demo_s1 = None /\ c_holder demo_s3 = Some 1 /\ c_count demo_s3 = 2 /\
  exists p d b, last (c_log demo_s3) = Some (OWait 1 p d b).
Proof.
  apply (condition_wait_restores_lock true demo_s0 1 None demo_s1 demo_s2 demo_s3); [|by vm_compute|by vm_compute| |exists (EReacq 1); by vm_compute|by vm_compute].
  - apply (crun_polite_reach true [EAcquire 1; EAcquire 1]). by vm_compute.
  - eapply rtc_l; [split; [exists (EAcquire 2); by vm_compute|by vm_compute]|]. eapply rtc_l; [split; [exists (ENotifyAll 2); by vm_compute|by vm_compute]|].
    eapply rtc_l; [split; [exists (ERelease 2); by vm_compute|by vm_compute]|]. eapply rtc_l; [split; [exists (EWake 1); by vm_compute|by vm_compute]|]. apply rtc_refl.
Defined.

Definition demo_pred : cstate := default c_init (crun_polite false [EAcquire 1; EWaitFor 1 (Some 0%Z)] c_init).
Lemma condition_wait_for_sound_witness : c_holder demo_pred = Some 1 /\
  (c_pcs (default c_init (cexec false (EPred 1 false) demo_pred)) !! 1 = None /\ c_holder (default c_init (cexec false (EPred 1 false) demo_pred)) = Some 1 /\
   last (c_log (default c_init (cexec false (EPred 1 false) demo_pred))) = Some (OFor 1 (Some 0%Z) false) /\ (false = false -> exists z, Some 0%Z = Some z /\ (z <= c_now demo_pred)%Z) \/
   false = false /\ passed (Some 0%Z) (c_now demo_pred) = false /\
   c_pcs (default c_init (cexec false (EPred 1 false) demo_pred)) !! 1 = Some (Parked (c_next demo_pred) (Some 0%Z) (c_count demo_pred) (KFor (Some 0%Z)))).
Proof.
  apply (condition_wait_for_sound false demo_pred 1 (Some 0%Z) false); [|by vm_compute|by vm_compute].
  apply (crun_polite_reach false [EAcquire 1; EWaitFor 1 (Some 0%Z)]). by vm_compute.
Defined.

(** ** Calls without the lock *)

(** [wait] does not ask whether its caller has the lock.  A thread that has not gets its [RuntimeError] only
    from [release()], after it has set [_count] of a recursive lock to one: thread 1, which holds the lock
    twice, lets it go with its first [release()], and thread 3 has it together with 1. *)
Theorem condition_unowned_wait_breaks_lock :
  match crun true [EAcquire 1; EAcquire 1; EWait 2 None; ERelease 1; EAcquire 3] with
  | Some s => c_log s = [OError 2] /\ c_holder s = Some 3
  | None => False
  end.
Proof. vm_compute. done. Qed.

(** The parker of the failed call stays in the queue and swallows a notification: thread 1 waits on. *)
Theorem condition_unowned_wait_steals_notify :
  match crun false [EWait 2 None; EAcquire 1; EWait 1 None; EAcquire 3; ENotify 3 1; ERelease 3] with
  | Some s => c_log s = [OError 2] /\ c_popped s = [0] /\ c_waiters s = [1] /\ c_pcs s !! 1 = Some (Parked 1 None 1 KWait)
  | None => False
  end.
Proof. vm_compute. done. Qed.
