(* ===== verification/Executor.v ===== *)
(** * The fiber-backed thread pool executor

    Models [class CoThreadPoolExecutor] of [src/src/stackweave/monkey/executors.py]: [submit], the task
    fibers, the initializer and [shutdown], for any number of callers.  Each step is a section under the
    guard, an operation of the semaphore or of an event ([CoSemaphore.v], [CoEvent.v]), a change of state
    of a [concurrent.futures.Future], or a run of user code.  Without a running scheduler [submit] runs the
    task itself, before it returns: that is one of the interleavings.  What a submitted callable returns or
    raises is the parameter [body], what the initializer does is [init]. *)
From S2P Require Import Prelude.

(** What a future holds: a value, the callable's exception, [BrokenThreadPool]. *)
Inductive fval := VRet (v : nat) | VExc (e : nat) | VBroken.
(** The states of a future; the two cancelled states are one. *)
Inductive fst := FPending | FRunning | FCancelled | FDone (v : fval).

Section executor.
Context (max_workers : nat) (init : option bool) (body : nat -> fval).

(** Where a future is: created by [submit], before its section; refused there; enrolled, before its spawn;
    its spawn failed; the steps of [task()] (waiting for a permit; before it is set running; in
    [_run_initializer], at its section, running the initializer, after it raised, waiting for another's;
    before the callable; after it; after an exception of the initializer; before [sem.release()]; before
    [_task_done]); ended. *)
Inductive xpc :=
  | PGuard | PRefused | PSpawn | PLost | PSem | PNotify | PInit | PInitGuard | PRunInit | PBroken | PWaitInit
  | PBody | PResult | PFail | PRelease | PDone | PEnd.

Record xfut := XFut { f_st : fst; f_pc : xpc }.

(** A call of [shutdown]: the futures still to cancel; waiting for [_idle]; returned, after a wait or not. *)
Inductive hcall := HCancel (l : list nat) (wait : bool) | HWait | HRet (waited : bool).

(** The semaphore's value, [_shutdown], [_broken], [_pending], [_idle], [_init_started], [_init_done], the futures,
    the calls of [shutdown]; and how often the initializer ran and which callables ran. *)
Record xstate := XState {
  x_permits : Z; x_shut : bool; x_broken : bool; x_pending : gset nat; x_idle : bool; x_started : bool; x_ready : bool;
  x_futs : gmap nat xfut; x_calls : gmap nat hcall; x_inits : nat; x_ran : list nat
}.

Definition x_init : xstate := XState (Z.of_nat max_workers) false false ∅ true false false ∅ ∅ 0 [].

Definition set_fut (i : nat) (f : xfut) (s : xstate) : xstate :=
  XState (x_permits s) (x_shut s) (x_broken s) (x_pending s) (x_idle s) (x_started s) (x_ready s) (<[i := f]> (x_futs s)) (x_calls s) (x_inits s) (x_ran s).
Definition set_call (c : nat) (h : hcall) (s : xstate) : xstate :=
  XState (x_permits s) (x_shut s) (x_broken s) (x_pending s) (x_idle s) (x_started s) (x_ready s) (x_futs s) (<[c := h]> (x_calls s)) (x_inits s) (x_ran s).
Definition set_permits (n : Z) (s : xstate) : xstate :=
  XState n (x_shut s) (x_broken s) (x_pending s) (x_idle s) (x_started s) (x_ready s) (x_futs s) (x_calls s) (x_inits s) (x_ran s).
Definition set_flags (broken started ready : bool) (inits : nat) (s : xstate) : xstate :=
  XState (x_permits s) (x_shut s) broken (x_pending s) (x_idle s) started ready (x_futs s) (x_calls s) inits (x_ran s).
Definition set_pending (X : gset nat) (idle : bool) (s : xstate) : xstate :=
  XState (x_permits s) (x_shut s) (x_broken s) X idle (x_started s) (x_ready s) (x_futs s) (x_calls s) (x_inits s) (x_ran s).
Definition set_shut (s : xstate) : xstate :=
  XState (x_permits s) true (x_broken s) (x_pending s) (x_idle s) (x_started s) (x_ready s) (x_futs s) (x_calls s) (x_inits s) (x_ran s).
Definition log_ran (i : nat) (s : xstate) : xstate :=
  XState (x_permits s) (x_shut s) (x_broken s) (x_pending s) (x_idle s) (x_started s) (x_ready s) (x_futs s) (x_calls s) (x_inits s) (x_ran s ++ [i]).

(** [fut.cancel()] *)
Definition fut_cancel (i : nat) (s : xstate) : xstate :=
  match x_futs s !! i with Some (XFut FPending pc) => set_fut i (XFut FCancelled pc) s | _ => s end.

(** [submit] up to its section; [None] for the future when it raises. *)
Definition submit (s : xstate) : xstate * option nat :=
  if x_shut s || x_broken s then (s, None)
  else let i := fresh (dom (x_futs s)) in (set_fut i (XFut FPending PGuard) s, Some i).

(** The section of [submit]. *)
Definition submit_guard (i : nat) (st : fst) (s : xstate) : xstate :=
  if x_shut s || x_broken s then set_fut i (XFut st PRefused) s
  else set_pending ({[i]} ∪ x_pending s) false (set_fut i (XFut st PSpawn) s).

(** [_task_done(fut)] *)
Definition task_done (i : nat) (s : xstate) : xstate :=
  let X := x_pending s ∖ {[i]} in set_pending X (if decide (X = ∅) then true else x_idle s) s.

(** [_run_initializer()], its steps outside the initializer. *)
Definition settled_init (s : xstate) : xpc := if x_broken s then PFail else PBody.
Definition init_guard (i : nat) (st : fst) (s : xstate) : xstate :=
  if x_broken s then set_fut i (XFut st PFail) s
  else if x_ready s then set_fut i (XFut st PBody) s
  else if x_started s then set_fut i (XFut st PWaitInit) s
  else set_fut i (XFut st PRunInit) (set_flags (x_broken s) true (x_ready s) (S (x_inits s)) s).

(** The next step of [task()]; [None] when it waits. *)
Definition task_step (i : nat) (s : xstate) : option xstate :=
  match x_futs s !! i with
  | None => None
  | Some (XFut st pc) =>
      match pc with
      | PSem => if (0 <? x_permits s)%Z then Some (set_fut i (XFut st PNotify) (set_permits (x_permits s - 1) s)) else None
      | PNotify => Some (set_fut i match st with FPending => XFut FRunning PInit | _ => XFut st PRelease end s)
      | PInit =>
          Some (set_fut i (XFut st match init with None => PBody | Some _ => if x_ready s then settled_init s else PInitGuard end) s)
      | PInitGuard => Some (init_guard i st s)
      | PRunInit =>
          Some (match init with
                | Some false => set_fut i (XFut st PBroken) (set_flags true (x_started s) (x_ready s) (x_inits s) s)
                | _ => set_fut i (XFut st PBody) (set_flags (x_broken s) (x_started s) true (x_inits s) s)
                end)
      | PBroken => Some (set_fut i (XFut st PFail) (set_flags (x_broken s) (x_started s) true (x_inits s) s))
      | PWaitInit => if x_ready s then Some (set_fut i (XFut st (settled_init s)) s) else None
      | PBody => Some (set_fut i (XFut st PResult) (log_ran i s))
      | PResult => Some (set_fut i (XFut (FDone (body i)) PRelease) s)
      | PFail => Some (set_fut i (XFut (FDone VBroken) PRelease) s)
      | PRelease => Some (set_fut i (XFut st PDone) (set_permits (x_permits s + 1) s))
      | PDone => Some (task_done i (set_fut i (XFut st PEnd) s))
      | PGuard | PRefused | PSpawn | PLost | PEnd => None
      end
  end.

(** [shutdown(wait, cancel_futures)]: its section, then its next step. *)
Definition shutdown (wait cancel : bool) (s : xstate) : xstate :=
  set_call (fresh (dom (x_calls s))) (HCancel (if cancel then elements (x_pending s) else []) wait) (set_shut s).
Definition call_step (c : nat) (s : xstate) : option xstate :=
  match x_calls s !! c with
  | Some (HCancel (i :: l) w) => Some (set_call c (HCancel l w) (fut_cancel i s))
  | Some (HCancel [] w) => Some (set_call c (if w then HWait else HRet false) s)
  | Some HWait => if x_idle s then Some (set_call c (HRet true) s) else None
  | Some (HRet _) | None => None
  end.

Inductive xev := XSubmit | XGuard (i : nat) | XSpawn (i : nat) (ok : bool) | XRun (i : nat) | XCancel (i : nat) | XShutdown (wait cancel : bool) | XCall (c : nat).

Definition xexec (e : xev) (s : xstate) : option xstate :=
  match e with
  | XSubmit => Some (submit s).1
  | XGuard i => match x_futs s !! i with Some (XFut st PGuard) => Some (submit_guard i st s) | _ => None end
  | XSpawn i ok => match x_futs s !! i with Some (XFut st PSpawn) => Some (set_fut i (XFut st (if ok then PSem else PLost)) s) | _ => None end
  | XRun i => task_step i s
  | XCancel i => Some (fut_cancel i s)
  | XShutdown w c => Some (shutdown w c s)
  | XCall c => call_step c s
  end.

Definition xstep (s s' : xstate) : Prop := exists e, xexec e s = Some s'.
Definition xreach : xstate -> Prop := rtc xstep x_init.

(** ** The invariant *)

(** The task has a permit. *)
Definition holds (f : xfut) : Z :=
  match f_pc f with
  | PNotify | PInit | PInitGuard | PRunInit | PBroken | PWaitInit | PBody | PResult | PFail | PRelease => 1
  | _ => 0
  end.
(** The future is in [_pending]. *)
Definition enrolled (pc : xpc) : bool := match pc with PGuard | PRefused | PEnd => false | _ => true end.
(** The task runs the initializer, or reports that it raised. *)
Definition initing (pc : xpc) : bool := match pc with PRunInit | PBroken => true | _ => false end.

Definition fut_ok (i : nat) (ran broken ready : bool) (f : xfut) : Prop :=
  match f_pc f with
  | PGuard | PRefused | PSpawn | PLost | PSem | PNotify => (f_st f = FPending \/ f_st f = FCancelled) /\ ran = false
  | PInit => f_st f = FRunning /\ ran = false
  | PInitGuard | PRunInit | PWaitInit => f_st f = FRunning /\ ran = false /\ init ≠ None
  | PBroken | PFail => f_st f = FRunning /\ ran = false /\ broken = true
  | PBody => f_st f = FRunning /\ ran = false /\ (init = None \/ init = Some true /\ ready = true)
  | PResult => f_st f = FRunning /\ ran = true
  | PRelease | PDone | PEnd =>
      f_st f = FCancelled /\ ran = false \/ f_st f = FDone (body i) /\ ran = true \/ f_st f = FDone VBroken /\ ran = false /\ broken = true
  end.

Definition in_ran (i : nat) (s : xstate) : bool := bool_decide (i ∈ x_ran s).

Record xinv (s : xstate) : Prop := {
  xi_permits : (0 <= x_permits s)%Z /\ (x_permits s + msum holds (x_futs s) = Z.of_nat max_workers)%Z;
  xi_fut : forall i f, x_futs s !! i = Some f -> fut_ok i (in_ran i s) (x_broken s) (x_ready s) f /\ (i ∈ x_pending s <-> enrolled (f_pc f) = true);
  xi_dom : forall i, i ∈ x_pending s \/ i ∈ x_ran s -> is_Some (x_futs s !! i);
  xi_ran : NoDup (x_ran s) /\ (forall b, x_ran s ≠ [] -> init = Some b -> b = true /\ x_ready s = true);
  xi_idle : x_idle s = true <-> x_pending s = ∅;
  xi_started : x_inits s = (if x_started s then 1 else 0) /\ (init = None -> x_started s = false) /\ (x_ready s || x_broken s = true -> x_started s = true);
  xi_broken : x_broken s = true -> init = Some false;
  xi_ready : x_ready s = true -> init = Some false -> x_broken s = true;
  xi_initing : forall i f, x_futs s !! i = Some f -> initing (f_pc f) = true -> x_started s = true /\ x_ready s = false /\
    (forall j f', x_futs s !! j = Some f' -> initing (f_pc f') = true -> j = i) /\ (f_pc f = PRunInit -> x_broken s = false);
  xi_runner : x_started s = true -> x_ready s = false -> exists i f, x_futs s !! i = Some f /\ initing (f_pc f) = true;
  xi_calls : forall c h, x_calls s !! c = Some h -> x_shut s = true /\ (h = HRet true -> x_pending s = ∅)
}.

Lemma fut_ok_mono i ran b r b' r' f : fut_ok i ran b r f -> (b = true -> b' = true) -> (r = true -> r' = true) -> fut_ok i ran b' r' f.
Proof. unfold fut_ok. destruct (f_pc f); naive_solver. Qed.

Lemma holds_sum i f' m f : m !! i = Some f -> (msum holds (<[i := f']> m) = msum holds m - holds f + holds f')%Z.
Proof. intros Hf. rewrite (msum_insert holds m i f' (XFut FPending PEnd)) by done. by rewrite Hf. Qed.

(** A step that changes one future, and perhaps takes or gives a permit. *)
Lemma xinv_permits s i f f' n : xinv s -> x_futs s !! i = Some f -> fut_ok i (in_ran i s) (x_broken s) (x_ready s) f' ->
  (n + holds f' = x_permits s + holds f)%Z -> (0 <= n)%Z -> enrolled (f_pc f') = enrolled (f_pc f) ->
  initing (f_pc f') = false -> initing (f_pc f) = false -> xinv (set_fut i f' (set_permits n s)).
Proof.
  intros I Hf Hok Hh Hn0 He Hn1 Hn2. pose proof (holds_sum i f' (x_futs s) f Hf) as Hm. pose proof (xi_fut s I i f Hf) as (_ & Hen). destruct I; constructor; simpl; try done.
  - rewrite Hm. lia.
  - intros j g. rewrite lookup_insert_Some. intros [[<- <-]|[? ?]]; [by rewrite He|by apply xi_fut0].
  - intros j Hj. rewrite lookup_insert_is_Some'. auto.
  - intros j g. rewrite lookup_insert_Some. intros [[<- <-]|[Hne Hg]]; [congruence|]. intros Hi. destruct (xi_initing0 j g Hg Hi) as (A & B & D & E).
    split_and!; [done|done| |done]. intros k g'. rewrite lookup_insert_Some. intros [[<- <-]|[? ?]]; [congruence|]. by eapply D.
  - intros A B. destruct (xi_runner0 A B) as (j & g & Hg & Hi). exists j, g. rewrite lookup_insert_ne; [done|]. congruence.
Qed.

Lemma xinv_put s i f f' : xinv s -> x_futs s !! i = Some f -> fut_ok i (in_ran i s) (x_broken s) (x_ready s) f' ->
  holds f' = holds f -> enrolled (f_pc f') = enrolled (f_pc f) -> initing (f_pc f') = false -> initing (f_pc f) = false -> xinv (set_fut i f' s).
Proof.
  intros I Hf Hok Hh He Hn1 Hn2. assert (H : xinv (set_fut i f' (set_permits (x_permits s) s))); [|by destruct s].
  destruct (xi_permits s I). by apply (xinv_permits s i f); [..|rewrite Hh| | | |].
Qed.

(** The same with the initializer's flags; [i] is the task that initializes. *)
Lemma xinv_flags s i f f' broken ready : xinv s -> x_futs s !! i = Some f -> fut_ok i (in_ran i s) broken ready f' ->
  holds f' = holds f -> enrolled (f_pc f') = enrolled (f_pc f) -> initing (f_pc f) = true ->
  (x_broken s = true -> broken = true) -> (broken = true -> init = Some false) ->
  (ready = true -> init = Some false -> broken = true) -> initing (f_pc f') = negb ready -> (f_pc f' ≠ PRunInit) -> init ≠ None ->
  xinv (set_fut i f' (set_flags broken (x_started s) ready (x_inits s) s)).
Proof.
  intros I Hf Hok Hh He Hn Hb Hbi Hr Hii Hpc Hnone. pose proof (holds_sum i f' (x_futs s) f Hf) as Hm. pose proof (xi_fut s I i f Hf) as (_ & Hen).
  destruct (xi_initing s I i f Hf Hn) as (Hst & Hnr & Huniq & _). destruct I; constructor; simpl; try done.
  - rewrite Hm. lia.
  - intros j g. rewrite lookup_insert_Some. intros [[<- <-]|[? Hg]]; [by rewrite He|]. destruct (xi_fut0 j g Hg) as (A & B). split; [|done].
    eapply fut_ok_mono; [exact A|done|congruence].
  - intros j Hj. rewrite lookup_insert_is_Some'. auto.
  - destruct xi_ran0 as (A & B). split; [done|]. intros b H1 H2. destruct (B b H1 H2). congruence.
  - destruct xi_started0 as (A & B & D). split_and!; [done|done|by intros _].
  - intros j g. rewrite lookup_insert_Some. intros [[<- <-]|[Hne Hg]] Hi.
    + split_and!; [done|by destruct ready; simpl in *; congruence| |done]. intros k g'. rewrite lookup_insert_Some. intros [[<- <-]|[? ?]] ?; [done|by eapply Huniq].
    + destruct Hne. symmetry. by eapply Huniq.
  - intros _ ->. simpl in Hii. exists i, f'. by rewrite lookup_insert_eq.
Qed.

Lemma in_ran_snoc j i s : in_ran j (log_ran i s) = in_ran j s || bool_decide (j = i).
Proof. unfold in_ran. simpl. rewrite <- bool_decide_or. apply bool_decide_ext. by rewrite elem_of_app, list_elem_of_singleton. Qed.

(** The callable runs. *)
Lemma xinv_body s i st : xinv s -> x_futs s !! i = Some (XFut st PBody) -> xinv (set_fut i (XFut st PResult) (log_ran i s)).
Proof.
  intros I Hf. pose proof (holds_sum i (XFut st PResult) (x_futs s) _ Hf) as Hm. pose proof (xi_fut s I i _ Hf) as ((H1 & H2 & H3) & Hen).
  assert (Hr : forall j, in_ran j (set_fut i (XFut st PResult) (log_ran i s)) = in_ran j s || bool_decide (j = i)) by (intros j; apply in_ran_snoc).
  apply bool_decide_eq_false in H2.
  destruct I; constructor; simpl in *; try done.
  - rewrite Hm. cbn. lia.
  - intros j g. rewrite lookup_insert_Some. intros [[<- <-]|[Hne Hg]]; rewrite Hr.
    + split; [|done]. split; [done|]. rewrite bool_decide_eq_true_2 by done. by rewrite orb_true_r.
    + rewrite bool_decide_eq_false_2, orb_false_r by congruence. by apply xi_fut0.
  - intros j. rewrite elem_of_app, list_elem_of_singleton, lookup_insert_is_Some'. naive_solver.
  - destruct xi_ran0 as (A & B). split.
    + apply NoDup_app. split_and!; [done| |apply NoDup_singleton]. intros x Hx ->%list_elem_of_singleton. done.
    + intros b _ Hb. destruct H3 as [H3|[H3 H4]]; rewrite H3 in Hb; by simplify_eq.
  - intros j g. rewrite lookup_insert_Some. intros [[<- <-]|[Hne Hg]]; [done|]. intros Hi. destruct (xi_initing0 j g Hg Hi) as (A & B & D & E).
    split_and!; [done|done| |done]. intros k g'. rewrite lookup_insert_Some. intros [[<- <-]|[? ?]]; [done|]. by eapply D.
  - intros A B. destruct (xi_runner0 A B) as (j & g & Hg & Hi). exists j, g. rewrite lookup_insert_ne; [done|]. intros <-. by simplify_eq/=.
Qed.

(** The future leaves or enters [_pending]. *)
Lemma xinv_pending s i st pc pc' X idle : xinv s -> x_futs s !! i = Some (XFut st pc) -> fut_ok i (in_ran i s) (x_broken s) (x_ready s) (XFut st pc') ->
  holds (XFut st pc') = holds (XFut st pc) -> initing pc = false -> initing pc' = false -> (i ∈ X <-> enrolled pc' = true) ->
  (forall j, j ≠ i -> j ∈ X <-> j ∈ x_pending s) -> (idle = true <-> X = ∅) ->
  (x_shut s = true -> forall j, j ∈ X -> j ∈ x_pending s) ->
  xinv (set_pending X idle (set_fut i (XFut st pc') s)).
Proof.
  intros I Hf Hok Hh Hn Hn' Hi HX Hid Hsh. pose proof (holds_sum i (XFut st pc') (x_futs s) _ Hf) as Hm.
  destruct I; constructor; simpl in *; try done.
  - rewrite Hm. lia.
  - intros j g. rewrite lookup_insert_Some. intros [[<- <-]|[Hne Hg]]; [done|]. rewrite HX by done. by apply xi_fut0.
  - intros j. rewrite lookup_insert_is_Some'. destruct (decide (i = j)) as [->|Hne]; [auto|]. rewrite HX by done. auto.
  - intros j g. rewrite lookup_insert_Some. intros [[<- <-]|[Hne Hg]] Hg'; [by simpl in Hg'; congruence|].
    destruct (xi_initing0 j g Hg Hg') as (A & B & D & E). split_and!; [done|done| |done]. intros k g'. rewrite lookup_insert_Some.
    intros [[<- <-]|[? ?]] ?; [by simpl in *; congruence|]. by eapply D.
  - intros A B. destruct (xi_runner0 A B) as (j & g & Hg & Hg'). exists j, g. rewrite lookup_insert_ne; [done|]. intros <-. simplify_eq. simpl in *. congruence.
  - intros c h Hc. destruct (xi_calls0 c h Hc) as (A & B). split; [done|]. intros Hh'. specialize (B Hh'). apply set_eq. intros j.
    split; [|set_solver]. intros Hj. apply (Hsh A) in Hj. by rewrite B in Hj.
Qed.

Lemma xinv_run_init s i st : xinv s -> x_futs s !! i = Some (XFut st PInitGuard) -> init ≠ None -> x_broken s = false -> x_ready s = false -> x_started s = false ->
  xinv (set_fut i (XFut st PRunInit) (set_flags (x_broken s) true (x_ready s) (S (x_inits s)) s)).
Proof.
  intros I Hf Hne Hb Hr Hs. pose proof (holds_sum i (XFut st PRunInit) (x_futs s) _ Hf) as Hm. pose proof (xi_fut s I i _ Hf) as ((H1 & H2 & _) & Hen).
  assert (Hno : forall j g, x_futs s !! j = Some g -> initing (f_pc g) = false).
  { intros j g Hg. destruct (initing (f_pc g)) eqn:E; [|done]. destruct (xi_initing s I j g Hg E) as (? & _). congruence. }
  destruct I; constructor; simpl in *; try done.
  - rewrite Hm. cbn. lia.
  - intros j g. rewrite lookup_insert_Some. intros [[<- <-]|[? Hg]]; [by split|by apply xi_fut0].
  - intros j Hj. rewrite lookup_insert_is_Some'. auto.
  - destruct xi_started0 as (A & B & D). rewrite A, Hs. split_and!; [done|by intros|done].
  - intros j g. rewrite lookup_insert_Some. intros [[<- <-]|[? Hg]] Hi; [|rewrite (Hno j g Hg) in Hi; done].
    split_and!; [done..| |done]. intros k g'. rewrite lookup_insert_Some. intros [[<- _]|[? Hg']] Hi'; [done|]. by rewrite (Hno k g' Hg') in Hi'.
  - intros _ _. exists i, (XFut st PRunInit). by rewrite lookup_insert_eq.
Qed.

Lemma xinv_shut s : xinv s -> xinv (set_shut s).
Proof. intros I. destruct I; constructor; simpl; try done. intros c h Hc. by destruct (xi_calls0 c h Hc). Qed.

Lemma xinv_call s c h : xinv s -> x_shut s = true -> (h = HRet true -> x_pending s = ∅) -> xinv (set_call c h s).
Proof.
  intros I Hs Hp. destruct I; constructor; simpl; try done. intros c' h'. rewrite lookup_insert_Some. intros [[<- <-]|[? ?]]; [done|]. by eapply xi_calls0.
Qed.

Lemma xinv_cancel s i : xinv s -> xinv (fut_cancel i s).
Proof.
  intros I. unfold fut_cancel. destruct (x_futs s !! i) as [[[] pc]|] eqn:Hf; try done. pose proof (xi_fut s I i _ Hf) as (Hok & _).
  assert (Hpc : match pc with PGuard | PRefused | PSpawn | PLost | PSem | PNotify => True | _ => False end).
  { unfold fut_ok in Hok. simpl in Hok. destruct pc; naive_solver. }
  eapply xinv_put; [done|exact Hf|unfold fut_ok in *; simpl in *|done|done|simpl..]; destruct pc; try done; naive_solver.
Qed.

Lemma xinv_submit s : xinv s -> xinv (submit s).1.
Proof.
  intros I. unfold submit. destruct (x_shut s || x_broken s); [done|]. simpl. set (i := fresh (dom (x_futs s))).
  assert (Hi : x_futs s !! i = None) by (apply not_elem_of_dom, is_fresh).
  assert (Hno : i ∉ x_pending s /\ i ∉ x_ran s).
  { split; intros H; destruct (xi_dom s I i ltac:(auto)); congruence. }
  destruct I; constructor; simpl; try done.
  - rewrite msum_insert_None by done. cbn. lia.
  - intros j g. rewrite lookup_insert_Some. intros [[<- <-]|[? ?]]; [|by apply xi_fut0]. split; [|split; [tauto|done]].
    split; [by left|]. apply bool_decide_eq_false_2, Hno.
  - intros j Hj. rewrite lookup_insert_is_Some'. auto.
  - intros j g. rewrite lookup_insert_Some. intros [[<- <-]|[Hne Hg]]; [done|]. intros Hg'. destruct (xi_initing0 j g Hg Hg') as (A & B & D & E).
    split_and!; [done|done| |done]. intros k g'. rewrite lookup_insert_Some. intros [[<- <-]|[? ?]]; [done|]. by eapply D.
  - intros A B. destruct (xi_runner0 A B) as (j & g & Hg & Hg'). exists j, g. rewrite lookup_insert_ne; [done|]. congruence.
Qed.

Lemma settled_ok i s st : xinv s -> st = FRunning -> in_ran i s = false -> init ≠ None -> x_ready s = true ->
  fut_ok i (in_ran i s) (x_broken s) (x_ready s) (XFut st (settled_init s)) /\ holds (XFut st (settled_init s)) = 1%Z /\
  enrolled (settled_init s) = true /\ initing (settled_init s) = false.
Proof.
  intros I Hst Hr Hn Hre. unfold settled_init. destruct (x_broken s) eqn:Hb; [done|]. split_and!; try done. simpl. split_and!; [done..|].
  right. split; [|done]. destruct init as [[]|] eqn:E; [done| |done]. rewrite (xi_ready s I Hre E) in Hb. done.
Qed.

Lemma xinv_task s i s' : xinv s -> task_step i s = Some s' -> xinv s'.
Proof.
  intros I. unfold task_step. destruct (x_futs s !! i) as [[st pc]|] eqn:Hf; [|done]. pose proof (xi_fut s I i _ Hf) as (Hok & Hen).
  unfold fut_ok in Hok. simpl in Hok, Hen. destruct pc; try done.
  - destruct (Z.ltb_spec 0 (x_permits s)); [|done]. intros [= <-]. eapply xinv_permits; [done|exact Hf|done|cbn; lia|lia|done..].
  - intros [= <-]. destruct Hok as ([-> | ->] & Hr).
    + eapply xinv_put; [done|exact Hf|by split|done..].
    + eapply xinv_put; [done|exact Hf|by left|done..].
  - intros [= <-]. destruct Hok as (-> & Hr). destruct init as [b|] eqn:Ei; [|eapply xinv_put; [done|exact Hf|by unfold fut_ok; simpl; auto|done..]].
    destruct (x_ready s) eqn:Hre; [|eapply xinv_put; [done|exact Hf|by unfold fut_ok; simpl; rewrite Ei|done..]].
    destruct (settled_ok i s FRunning I eq_refl Hr ltac:(congruence) Hre) as (A & B & D & E). eapply xinv_put; [done|exact Hf|done..].
  - intros [= <-]. destruct Hok as (-> & Hr & Hn). unfold init_guard. destruct (x_broken s) eqn:Hb; [eapply xinv_put; [done|exact Hf|by rewrite Hb; split_and!|done..]|].
    destruct (x_ready s) eqn:Hre.
    { destruct (settled_ok i s FRunning I eq_refl Hr Hn Hre) as (A & B & D & E). unfold settled_init in *. rewrite Hb in *.
      eapply xinv_put; [done|exact Hf|by rewrite Hb, Hre in *|done..]. }
    destruct (x_started s) eqn:Hs; [by eapply xinv_put; [done|exact Hf|..]|]. pose proof (xinv_run_init s i FRunning I Hf Hn Hb Hre Hs) as H. by rewrite Hb, Hre in H.
  - intros [= <-]. destruct Hok as (-> & Hr & Hn). destruct init as [[]|] eqn:Ei; [| |done].
    + apply (xinv_flags s i _ (XFut FRunning PBody) (x_broken s) true I Hf); try done; [by unfold fut_ok; simpl; auto|apply (xi_broken s I)|congruence|congruence].
    + apply (xinv_flags s i _ (XFut FRunning PBroken) true (x_ready s) I Hf); try done; [|congruence]. simpl.
      by destruct (xi_initing s I i _ Hf eq_refl) as (_ & -> & _).
  - intros [= <-]. destruct Hok as (-> & Hr & Hb). pose proof (xi_broken s I Hb) as Ei.
    apply (xinv_flags s i _ (XFut FRunning PFail) (x_broken s) true I Hf); try done; congruence.
  - destruct (x_ready s) eqn:Hre; [|done]. intros [= <-]. destruct Hok as (-> & Hr & Hn).
    destruct (settled_ok i s FRunning I eq_refl Hr Hn Hre) as (A & B & D & E). eapply xinv_put; [done|exact Hf|done..].
  - intros [= <-]. by apply xinv_body.
  - intros [= <-]. destruct Hok as (-> & Hr). eapply xinv_put; [done|exact Hf|by right; left|done..].
  - intros [= <-]. destruct Hok as (-> & Hr & Hb). eapply xinv_put; [done|exact Hf|by right; right|done..].
  - intros [= <-]. destruct (xi_permits s I). eapply xinv_permits; [done|exact Hf|done|cbn; lia|lia|done..].
  - intros [= <-]. unfold task_done. simpl. eapply (xinv_pending s i st PDone PEnd); try done.
    + set_solver.
    + set_solver.
    + destruct (decide _) as [E|E]; [done|]. split; [|done]. intros Hx. apply (xi_idle s I) in Hx. set_solver.
    + set_solver.
Qed.

Lemma xinv_step s e s' : xinv s -> xexec e s = Some s' -> xinv s'.
Proof.
  intros I. destruct e as [|i|i ok|i|i|w c|c]; simpl.
  - intros [= <-]. by apply xinv_submit.
  - destruct (x_futs s !! i) as [[st []]|] eqn:Hf; try done. intros [= <-]. pose proof (xi_fut s I i _ Hf) as (Hok & Hen). unfold fut_ok in Hok. simpl in *.
    unfold submit_guard. destruct (x_shut s || x_broken s) eqn:E; [by eapply xinv_put; [done|exact Hf|..]|].
    apply orb_false_iff in E as (E1 & E2). apply (xinv_pending s i st PGuard PSpawn); try done; [set_solver|set_solver| |by rewrite E1].
    split; [done|]. intros Hx. assert (i ∈ ({[i]} ∪ x_pending s)) by set_solver. rewrite Hx in H. set_solver.
  - destruct (x_futs s !! i) as [[st []]|] eqn:Hf; try done. intros [= <-]. pose proof (xi_fut s I i _ Hf) as (Hok & _).
    destruct ok; by eapply xinv_put; [done|exact Hf|..].
  - by apply xinv_task.
  - intros [= <-]. by apply xinv_cancel.
  - intros [= <-]. apply xinv_call; [by apply xinv_shut|done|done].
  - unfold call_step. destruct (x_calls s !! c) as [[[|i l] w| |w]|] eqn:Hc; try done; pose proof (xi_calls s I c _ Hc) as (Hs & _).
    + intros [= <-]. apply xinv_call; [done..|]. by destruct w.
    + intros [= <-]. apply xinv_call; [by apply xinv_cancel| |done]. unfold fut_cancel. by destruct (x_futs s !! i) as [[[] ?]|].
    + destruct (x_idle s) eqn:Hi; [|done]. intros [= <-]. apply xinv_call; [done..|]. intros _. by apply (xi_idle s I).
Qed.

Lemma xreach_inv s : xreach s -> xinv s.
Proof.
  revert s. apply (rtc_ind_r (R := xstep) xinv x_init).
  - constructor; simpl; try done; try (intros *; by rewrite lookup_empty).
    + split; [lia|]. rewrite msum_empty. lia.
    + set_solver.
    + split; [constructor|done].
  - intros s1 s2 _ (e & He) I. by eapply xinv_step.
Qed.

(** ** Theorems *)

(** Every future gets the outcome of its own callable, which runs at most once and not after a cancel; or
    [BrokenThreadPool], without running, only when the initializer raised.  The initializer runs at most
    once, and before any callable. *)
Theorem executor_outcome s : xreach s ->
  (forall i f v, x_futs s !! i = Some f -> f_st f = FDone v -> v = body i /\ i ∈ x_ran s \/ v = VBroken /\ i ∉ x_ran s /\ init = Some false) /\
  (forall i f, x_futs s !! i = Some f -> f_st f = FPending \/ f_st f = FCancelled -> i ∉ x_ran s) /\
  NoDup (x_ran s) /\ x_inits s <= 1 /\ (forall b, x_ran s ≠ [] -> init = Some b -> b = true /\ x_inits s = 1).
Proof.
  intros I%xreach_inv. destruct (xi_started s I) as (Hn & _ & Hst). destruct (xi_ran s I) as (Hnd & Hran). split_and!; [| |done|rewrite Hn; destruct (x_started s); lia|].
  - intros i f v Hf Hv. destruct (xi_fut s I i f Hf) as (Hok & _). unfold fut_ok, in_ran in Hok. rewrite Hv in Hok. pose proof (xi_broken s I).
    destruct (f_pc f); repeat (destruct Hok as [Hok|Hok] || destruct Hok as (Hok & ?)); try done; simplify_eq;
      rewrite ?bool_decide_eq_true, ?bool_decide_eq_false in *; naive_solver.
  - intros i f Hf Hst' Hin. destruct (xi_fut s I i f Hf) as (Hok & _). unfold fut_ok in Hok. assert (Hr : in_ran i s = true) by (by apply bool_decide_eq_true).
    rewrite Hr in Hok. destruct Hst' as [E|E]; rewrite E in Hok; destruct (f_pc f); naive_solver.
  - intros b H1 H2. destruct (Hran b H1 H2) as (-> & Hre). rewrite Hn, Hst; [done|]. by rewrite Hre.
Qed.

Lemma holds_range f : (0 <= holds f <= 1)%Z.
Proof. unfold holds. destruct (f_pc f); lia. Qed.

Lemma msum_holders m l : NoDup l -> (forall i, i ∈ l -> exists f, m !! i = Some f /\ holds f = 1%Z) -> (Z.of_nat (length l) <= msum holds m)%Z.
Proof.
  revert m. induction l as [|i l IH]; intros m Hnd Hl; simpl.
  - apply msum_nonneg. intros j x _. apply holds_range.
  - apply NoDup_cons in Hnd as (Hi & Hnd). destruct (Hl i) as (f & Hf & Hh); [by left|]. rewrite (msum_delete holds m i f Hf).
    assert (Z.of_nat (length l) <= msum holds (delete i m))%Z; [|lia]. apply IH; [done|]. intros j Hj. destruct (Hl j) as (g & Hg & ?); [by right|].
    exists g. rewrite lookup_delete_ne; [done|]. congruence.
Qed.

(** The task is in user code: the callable or the initializer. *)
Definition in_user (pc : xpc) : bool := match pc with PBody | PRunInit => true | _ => false end.

(** No more than [max_workers] tasks are past their acquire at a time; in particular no more are in user
    code. *)
Theorem executor_bounded s l : xreach s -> NoDup l -> (forall i, i ∈ l -> exists f, x_futs s !! i = Some f /\ in_user (f_pc f) = true) -> length l <= max_workers.
Proof.
  intros I%xreach_inv Hnd Hl. destruct (xi_permits s I) as (H1 & H2). assert (Z.of_nat (length l) <= msum holds (x_futs s))%Z; [|lia].
  apply msum_holders; [done|]. intros i Hi. destruct (Hl i Hi) as (f & Hf & Hu). exists f. split; [done|]. unfold holds. by destruct (f_pc f).
Qed.

(** *** Shutdown *)

Lemma ret_stays s e s' c : xexec e s = Some s' -> x_calls s !! c = Some (HRet true) -> x_calls s' !! c = Some (HRet true).
Proof.
  intros Hx Hc. assert (Hcan : forall i, x_calls (fut_cancel i s) = x_calls s) by (intros i; unfold fut_cancel; by destruct (x_futs s !! i) as [[[] ?]|]).
  destruct e as [|i|i ok|i|i|w k|k]; simpl in Hx.
  - simplify_eq. unfold submit. by destruct (x_shut s || x_broken s).
  - destruct (x_futs s !! i) as [[st []]|]; try done. simplify_eq. unfold submit_guard. by destruct (x_shut s || x_broken s).
  - destruct (x_futs s !! i) as [[st []]|]; try done. by simplify_eq.
  - unfold task_step in Hx. destruct (x_futs s !! i) as [[st []]|]; try done; repeat case_match; simplify_eq; try done.
    unfold init_guard. by destruct (x_broken s), (x_ready s), (x_started s).
  - simplify_eq. by rewrite Hcan.
  - simplify_eq. simpl. rewrite lookup_insert_ne; [done|]. intros E. assert (Hf := is_fresh (dom (x_calls s))). apply Hf. rewrite E. apply elem_of_dom. eauto.
  - unfold call_step in Hx. destruct (decide (k = c)) as [->|Hne]; [by rewrite Hc in Hx|].
    destruct (x_calls s !! k) as [[[|i l] w| |w]|]; try done; repeat case_match; simplify_eq; simpl; by rewrite lookup_insert_ne, ?Hcan.
Qed.

(** C26. Once [shutdown(wait=True)] has returned nothing is left to run, now or ever: every future that [submit]
    handed out has its outcome or is cancelled, and its task has ended. *)
Theorem executor_shutdown_waits s s' c i f : xreach s -> x_calls s !! c = Some (HRet true) -> rtc xstep s s' -> x_futs s' !! i = Some f ->
  f_pc f = PGuard \/ f_pc f = PRefused \/ f_pc f = PEnd /\ (f_st f = FCancelled \/ exists v, f_st f = FDone v).
Proof.
  intros Hr Hc Hrs Hf. assert (Hc' : x_calls s' !! c = Some (HRet true)).
  { clear Hf Hr. induction Hrs as [|a b d (e & He) _ IH]; [done|]. apply IH. by eapply ret_stays. }
  assert (I : xinv s') by (apply xreach_inv; unfold xreach in *; by etrans). destruct (xi_calls s' I c _ Hc') as (_ & Hp). specialize (Hp eq_refl).
  destruct (xi_fut s' I i f Hf) as (Hok & Hen). rewrite Hp in Hen. unfold fut_ok in Hok. assert (He : enrolled (f_pc f) = false).
  { apply not_true_iff_false. intros E. apply Hen in E. by apply elem_of_empty in E. }
  destruct (f_pc f); try done; auto. right. right. split; [done|]. naive_solver.
Qed.

(** *** Nobody is stranded *)

Definition xwait (s : xstate) : Prop := forall i f, x_futs s !! i = Some f -> f_pc f = PWaitInit -> x_started s = true.

Lemma xwait_set s s' i f : xwait s -> x_futs s' = <[i := f]> (x_futs s) -> (x_started s = true -> x_started s' = true) ->
  (f_pc f = PWaitInit -> x_started s' = true \/ exists f0, x_futs s !! i = Some f0 /\ f_pc f0 = PWaitInit) -> xwait s'.
Proof.
  intros W E Hs Hf j g. rewrite E, lookup_insert_Some. intros [[<- <-]|[? ?]] Hp; [|apply Hs; by eapply W]. destruct (Hf Hp) as [?|(f0 & ? & ?)]; [done|].
  apply Hs. by eapply W.
Qed.

Lemma xwait_step s e s' : xwait s -> xexec e s = Some s' -> xwait s'.
Proof.
  intros W Hx. assert (Hcan : forall i, xwait (fut_cancel i s)).
  { intros i. unfold fut_cancel. destruct (x_futs s !! i) as [[[] pc]|] eqn:E; try done. eapply xwait_set; [exact W|done|done|]. simpl. eauto. }
  destruct e as [|i|i ok|i|i|w k|k]; simpl in Hx.
  - simplify_eq. unfold submit. destruct (x_shut s || x_broken s); [done|]. by eapply xwait_set.
  - destruct (x_futs s !! i) as [[st []]|]; try done. simplify_eq. unfold submit_guard. by destruct (x_shut s || x_broken s); (eapply xwait_set; [exact W|done|done|]).
  - destruct (x_futs s !! i) as [[st []]|]; try done. simplify_eq. by destruct ok; (eapply xwait_set; [exact W|done|done|]).
  - unfold task_step in Hx. destruct (x_futs s !! i) as [[st pc]|] eqn:Hf; try done. unfold init_guard, task_done, settled_init in Hx.
    destruct pc; try done; repeat case_match; simplify_eq; (eapply xwait_set; [exact W|done|done|]); simpl; try done; by left.
  - by simplify_eq.
  - by simplify_eq.
  - unfold call_step in Hx. destruct (x_calls s !! k) as [[[|i l] w| |w]|]; try done; repeat case_match; simplify_eq; try done. apply (Hcan i).
Qed.

Lemma xreach_wait s : xreach s -> xwait s.
Proof.
  revert s. apply (rtc_ind_r (R := xstep) xwait x_init); [intros i f; simpl; by rewrite lookup_empty|]. intros s1 s2 _ (e & He) W. by eapply xwait_step.
Qed.

(** Everything that can happen without user code has happened. *)
Definition settled (s : xstate) : Prop :=
  (forall i f, x_futs s !! i = Some f -> f_pc f ≠ PGuard /\ f_pc f ≠ PSpawn /\ (in_user (f_pc f) = true \/ task_step i s = None)) /\
  (forall c, call_step c s = None).

Lemma stuck_task s i f : xreach s -> settled s -> x_futs s !! i = Some f -> (holds f ≠ 0)%Z -> exists j g, x_futs s !! j = Some g /\ in_user (f_pc g) = true.
Proof.
  intros Hr (Hq & _) Hf Hh. pose proof (xreach_inv s Hr) as I. destruct (Hq i f Hf) as (_ & _ & [Hu|Hs]); [eauto|]. unfold task_step in Hs. rewrite Hf in Hs.
  destruct f as [st pc]. unfold holds in Hh. simpl in Hh. destruct pc; try done. destruct (x_ready s) eqn:Hre; [done|].
  pose proof (xreach_wait s Hr i _ Hf eq_refl) as Hst. destruct (xi_runner s I Hst Hre) as (j & g & Hg & Hi). exists j, g. split; [done|].
  destruct (Hq j g Hg) as (_ & _ & [Hu|Hs']); [done|]. unfold task_step in Hs'. rewrite Hg in Hs'. destruct g as [st' []]; done.
Qed.

(** No task and no [shutdown] is stranded.  When everything that can happen outside user code has happened,
    either some task is in user code, or every task has ended - apart from those whose spawn failed - and,
    if there are none of those, every call of [shutdown] has returned. *)
Theorem executor_no_stranded s : xreach s -> 0 < max_workers -> settled s ->
  (exists i f, x_futs s !! i = Some f /\ in_user (f_pc f) = true) \/
  (forall i f, x_futs s !! i = Some f -> f_pc f = PRefused \/ f_pc f = PEnd \/ f_pc f = PLost) /\
  ((forall i f, x_futs s !! i = Some f -> f_pc f ≠ PLost) -> forall c h, x_calls s !! c = Some h -> exists w, h = HRet w).
Proof.
  intros Hr Hmax Hs. pose proof (xreach_inv s Hr) as I. destruct (decide (msum holds (x_futs s) = 0%Z)) as [Hz|Hnz].
  2: { left. apply msum_exists in Hnz as (i & f & Hf & Hh). by eapply stuck_task. }
  right. destruct (xi_permits s I) as (_ & Hp). destruct Hs as (Hq & Hc).
  assert (Hend : forall i f, x_futs s !! i = Some f -> f_pc f = PRefused \/ f_pc f = PEnd \/ f_pc f = PLost).
  { intros i f Hf. destruct (Hq i f Hf) as (H1 & H2 & H3). assert (Hh : holds f = 0%Z).
    { pose proof (msum_ge holds (x_futs s) i f (λ j g _, proj1 (holds_range g)) Hf). pose proof (holds_range f). lia. }
    unfold task_step in H3. rewrite Hf in H3. destruct f as [st pc]. unfold holds in Hh. simpl in *. destruct pc; auto; try done; destruct H3 as [H3|H3]; try done.
    destruct (Z.ltb_spec 0 (x_permits s)); [done|lia]. }
  split; [done|]. intros Hlost c h Hh. specialize (Hc c). unfold call_step in Hc. rewrite Hh in Hc. destruct h as [[|i l] w| |w]; try done; [|eauto].
  destruct (x_idle s) eqn:Hi; [done|]. exfalso. assert (He : x_pending s = ∅); [|apply (xi_idle s I) in He; congruence].
  apply set_eq. intros i. split; [|set_solver]. intros Hin. destruct (xi_dom s I i (or_introl Hin)) as (f & Hf).
  destruct (xi_fut s I i f Hf) as (_ & Hen). apply Hen in Hin. destruct (Hend i f Hf) as [E|[E|E]]; [by rewrite E in Hin..|]. by apply (Hlost i f Hf) in E.
Qed.
End executor.

(** ** Examples *)

Definition demo_body (i : nat) : fval := VRet (10 + i).
Definition xrun (max_workers : nat) (init : option bool) (es : list xev) : option xstate :=
  foldl (λ s e, s ≫= xexec init demo_body e) (Some (x_init max_workers)) es.

Lemma xrun_reach n init es s : xrun n init es = Some s -> xreach n init demo_body s.
Proof.
  unfold xrun, xreach. assert (H : forall s0 s, foldl (λ s e, s ≫= xexec init demo_body e) s0 es = Some s -> exists s1, s0 = Some s1 /\ rtc (xstep init demo_body) s1 s).
  { induction es as [|e es IH]; intros s0 s1 H; simpl in H; [eauto using rtc_refl|]. apply IH in H as (s2 & H2 & H3). apply bind_Some in H2 as (s3 & -> & He).
    exists s3. split; [done|]. eapply rtc_l; [by exists e|done]. }
  intros Hs. apply H in Hs as (s1 & [= <-] & ?). done.
Qed.

(** Two tasks share one worker; the first initializes the pool. *)
Definition demo_events : list xev :=
  [XSubmit; XGuard 0; XSpawn 0 true; XSubmit; XGuard 1; XSpawn 1 true; XRun 0; XRun 0; XRun 0; XRun 0; XRun 0].
Definition demo_state : xstate := default (x_init 1) (xrun 1 (Some true) demo_events).
(** Both are done, and a [shutdown] that waited. *)
Definition demo_end_events : list xev := demo_events ++ [XShutdown true false; XRun 0; XRun 0; XRun 0; XRun 0;
  XRun 1; XRun 1; XRun 1; XRun 1; XRun 1; XRun 1; XRun 1; XCall 0; XCall 0].
Definition demo_end : xstate := default (x_init 1) (xrun 1 (Some true) demo_end_events).

Lemma exec_demo_reach : xreach 1 (Some true) demo_body demo_state.
Proof. apply (xrun_reach 1 (Some true) demo_events). by vm_compute. Qed.
Lemma demo_end_reach : xreach 1 (Some true) demo_body demo_end.
Proof. apply (xrun_reach 1 (Some true) demo_end_events). by vm_compute. Qed.

Lemma executor_outcome_witness : x_ran demo_end = [0; 1] /\ NoDup (x_ran demo_end) /\ x_inits demo_end <= 1.
Proof. split; [by vm_compute|]. pose proof (executor_outcome 1 (Some true) demo_body demo_end demo_end_reach) as (_ & _ & A & B & _). auto. Defined.

Lemma executor_bounded_witness : length [0] <= 1.
Proof.
  apply (executor_bounded 1 (Some true) demo_body demo_state [0] exec_demo_reach); [apply NoDup_singleton|].
  intros i ->%list_elem_of_singleton. exists (XFut FRunning PBody). split; by vm_compute.
Defined.

Lemma executor_shutdown_waits_witness : PEnd = PGuard \/ PEnd = PRefused \/ PEnd = PEnd /\ (FDone (VRet 11) = FCancelled \/ exists v, FDone (VRet 11) = FDone v).
Proof.
  apply (executor_shutdown_waits 1 (Some true) demo_body demo_end demo_end 0 1 (XFut (FDone (VRet 11)) PEnd) demo_end_reach); [by vm_compute|apply rtc_refl|by vm_compute].
Defined.

Lemma executor_no_stranded_witness :
  (exists i f, x_futs demo_end !! i = Some f /\ in_user (f_pc f) = true) \/
  (forall i f, x_futs demo_end !! i = Some f -> f_pc f = PRefused \/ f_pc f = PEnd \/ f_pc f = PLost) /\
  ((forall i f, x_futs demo_end !! i = Some f -> f_pc f ≠ PLost) -> forall c h, x_calls demo_end !! c = Some h -> exists w, h = HRet w).
Proof.
  apply (executor_no_stranded 1 (Some true) demo_body demo_end demo_end_reach); [lia|]. split.
  - intros i f Hf. apply elem_of_map_to_list, list_elem_of_In in Hf. vm_compute in Hf.
    destruct Hf as [Hf|[Hf|[]]]; injection Hf as <- <-; (split_and!; [done|done|right; by vm_compute]).
  - intros c. unfold call_step. replace (x_calls demo_end) with ({[0 := HRet true]} : gmap nat hcall) by (by vm_compute).
    destruct (decide (c = 0)) as [->|Hne]; [by rewrite lookup_singleton_eq|by rewrite lookup_singleton_ne].
Defined.

(** [submit] enrols the future before it spawns the task.  When the spawn raises, the future stays enrolled
    and pending for ever, and [shutdown(wait=True)] waits for ever, with nothing left that could run. *)
Theorem executor_lost_spawn_hangs :
  match xrun 1 None [XSubmit; XGuard 0; XSpawn 0 false; XShutdown true false; XCall 0] with
  | Some s => x_calls s !! 0 = Some HWait /\ call_step 0 s = None /\ task_step None demo_body 0 s = None /\
      (f_st <$> x_futs s !! 0) = Some FPending /\ x_idle s = false
  | None => False
  end.
Proof. vm_compute. done. Qed.
