(* ===== verification/Group.v ===== *)
(** * Deduplicated calls

    Models [class Group] of [src/src/stackweave/sync.py] (single flight) for any number of keys and callers.
    Each step is a section under the group's mutex, the resolution of the shared future ([Future.v]), a
    waiter's return from it, or a run of the caller's function, whose outcome is part of the event. *)
From S2P Require Import Prelude.

(** What a function does: it returns or it raises. *)
Inductive gout := GVal (v : nat) | GExc (e : nat).

(** Where a call of [do] is: the function runs; before the section that follows it; before the future is
    resolved; waiting for another's future. *)
Inductive gpc := GRun (key fut : nat) | GRes (key fut : nat) (o : gout) | GSettle (key fut : nat) (o : gout) | GWait (key fut : nat).

(** What calls returned or raised: caller, key, future, outcome, and whether it was shared. *)
Record gret := GRet { gr_tid : tid; gr_key : nat; gr_fut : nat; gr_out : gout; gr_shared : bool }.

(** [_calls]; the futures, with their key; the calls under way; and, which the code does not read, what
    calls returned and the futures dropped by [forget]. *)
Record gstate := GState {
  g_calls : gmap nat nat; g_futs : gmap nat (nat * option gout); g_pcs : gmap tid gpc; g_log : list gret; g_forgot : gset nat
}.

Definition g_init : gstate := GState ∅ ∅ ∅ [] ∅.

(** [do(key, fn)] up to [fn]; a foreign thread may not be the first. *)
Definition group_do (t : tid) (key : nat) (fib : bool) (s : gstate) : gstate :=
  match g_calls s !! key with
  | Some f => GState (g_calls s) (g_futs s) (<[t := GWait key f]> (g_pcs s)) (g_log s) (g_forgot s)
  | None =>
      if fib then
        let f := fresh (dom (g_futs s)) in
        GState (<[key := f]> (g_calls s)) (<[f := (key, None)]> (g_futs s)) (<[t := GRun key f]> (g_pcs s)) (g_log s) (g_forgot s)
      else s
  end.

(** The section after [fn]: the entry is dropped if it is still this call's. *)
Definition group_end (t : tid) (key f : nat) (o : gout) (s : gstate) : gstate :=
  let calls := if decide (g_calls s !! key = Some f) then delete key (g_calls s) else g_calls s in
  GState calls (g_futs s) (<[t := GSettle key f o]> (g_pcs s)) (g_log s) (g_forgot s).

(** [fut.set_result(v)] or [fut.set_exception(e)], and the first caller's return. *)
Definition group_settle (t : tid) (key f : nat) (o : gout) (s : gstate) : gstate :=
  GState (g_calls s) (<[f := (key, Some o)]> (g_futs s)) (delete t (g_pcs s)) (g_log s ++ [GRet t key f o false]) (g_forgot s).

(** [fut.result()]; [None] while it waits. *)
Definition group_wait (t : tid) (key f : nat) (s : gstate) : option gstate :=
  match g_futs s !! f with
  | Some (_, Some o) => Some (GState (g_calls s) (g_futs s) (delete t (g_pcs s)) (g_log s ++ [GRet t key f o true]) (g_forgot s))
  | _ => None
  end.

(** [forget(key)] *)
Definition forget (key : nat) (s : gstate) : gstate :=
  GState (delete key (g_calls s)) (g_futs s) (g_pcs s) (g_log s) (match g_calls s !! key with Some f => {[f]} ∪ g_forgot s | None => g_forgot s end).

Inductive gev := EDo (t : tid) (key : nat) (fib : bool) | EFn (t : tid) (o : gout) | EGo (t : tid) | EForget (key : nat).

(** The next step of a call outside its function. *)
Definition group_step (t : tid) (s : gstate) : option gstate :=
  match g_pcs s !! t with
  | Some (GRes key f o) => Some (group_end t key f o s)
  | Some (GSettle key f o) => Some (group_settle t key f o s)
  | Some (GWait key f) => group_wait t key f s
  | Some (GRun _ _) | None => None
  end.

Definition gexec (e : gev) (s : gstate) : option gstate :=
  match e with
  | EDo t key fib => match g_pcs s !! t with None => Some (group_do t key fib s) | Some _ => None end
  | EFn t o =>
      match g_pcs s !! t with
      | Some (GRun key f) => Some (GState (g_calls s) (g_futs s) (<[t := GRes key f o]> (g_pcs s)) (g_log s) (g_forgot s))
      | _ => None
      end
  | EGo t => group_step t s
  | EForget key => Some (forget key s)
  end.

Definition gstep (s s' : gstate) : Prop := exists e, gexec e s = Some s'.
Definition greach : gstate -> Prop := rtc gstep g_init.

(** ** The invariant *)

(** The call that will resolve a future. *)
Definition leads (pc : gpc) (key f : nat) : bool :=
  match pc with GRun k f' | GRes k f' _ | GSettle k f' _ => bool_decide (k = key /\ f' = f) | GWait _ _ => false end.
(** The same before its entry is dropped. *)
Definition enters (pc : gpc) (key f : nat) : bool :=
  match pc with GRun k f' | GRes k f' _ => bool_decide (k = key /\ f' = f) | _ => false end.

Record ginv (s : gstate) : Prop := {
  gi_calls : forall key f, g_calls s !! key = Some f -> exists t pc, g_pcs s !! t = Some pc /\ enters pc key f = true;
  gi_entry : forall t pc key f, g_pcs s !! t = Some pc -> enters pc key f = true -> g_calls s !! key = Some f \/ f ∈ g_forgot s;
  gi_lead : forall t pc key f, g_pcs s !! t = Some pc -> leads pc key f = true -> g_futs s !! f = Some (key, None);
  gi_one : forall t t' pc pc' key key' f, g_pcs s !! t = Some pc -> g_pcs s !! t' = Some pc' -> leads pc key f = true -> leads pc' key' f = true -> t = t';
  gi_open : forall key f, g_futs s !! f = Some (key, None) -> exists t pc, g_pcs s !! t = Some pc /\ leads pc key f = true;
  gi_wait : forall t key f, g_pcs s !! t = Some (GWait key f) -> exists o, g_futs s !! f = Some (key, o);
  gi_log : forall r, r ∈ g_log s -> g_futs s !! gr_fut r = Some (gr_key r, Some (gr_out r));
  gi_first : forall key f o, g_futs s !! f = Some (key, Some o) -> exists t, GRet t key f o false ∈ g_log s;
  gi_once : forall i j r r', g_log s !! i = Some r -> g_log s !! j = Some r' -> gr_fut r = gr_fut r' -> gr_shared r = false -> gr_shared r' = false -> i = j
}.

Lemma enters_leads pc key f : enters pc key f = true -> leads pc key f = true.
Proof. by destruct pc. Qed.

Lemma leads_inv pc key f : leads pc key f = true -> (pc = GRun key f \/ (exists o, pc = GRes key f o) \/ exists o, pc = GSettle key f o).
Proof. destruct pc; simpl; rewrite ?bool_decide_eq_true; naive_solver. Qed.

Lemma leads_settle key f o key' f' : leads (GSettle key f o) key' f' = true <-> key = key' /\ f = f'.
Proof. simpl. by rewrite bool_decide_eq_true. Qed.

(** A call changes its place but not what it leads and enters. *)
Lemma ginv_move s t pc pc' : ginv s -> g_pcs s !! t = Some pc -> (forall k f, leads pc' k f = leads pc k f) -> (forall k f, enters pc' k f = enters pc k f) ->
  (forall k f, pc' ≠ GWait k f) -> ginv (GState (g_calls s) (g_futs s) (<[t := pc']> (g_pcs s)) (g_log s) (g_forgot s)).
Proof.
  intros I Hpc Hl He Hw. destruct I; constructor; simpl; try done.
  - intros key f Hf. destruct (gi_calls0 key f Hf) as (t' & q & Hq & Hen). destruct (decide (t' = t)) as [->|Hne].
    + exists t, pc'. rewrite lookup_insert_eq, He. by simplify_eq.
    + exists t', q. by rewrite lookup_insert_ne.
  - intros t' q key f. rewrite lookup_insert_Some. intros [[<- <-]|[? ?]]; [rewrite He; by eapply gi_entry0|by eapply gi_entry0].
  - intros t' q key f. rewrite lookup_insert_Some. intros [[<- <-]|[? ?]]; [rewrite Hl; by eapply gi_lead0|by eapply gi_lead0].
  - intros t1 t2 q1 q2 k1 k2 f. rewrite !lookup_insert_Some. intros [[<- <-]|[? ?]] [[<- <-]|[? ?]]; rewrite ?Hl; try done; by eapply gi_one0.
  - intros key f Hf. destruct (gi_open0 key f Hf) as (t' & q & Hq & Hen). destruct (decide (t' = t)) as [->|Hne].
    + exists t, pc'. rewrite lookup_insert_eq, Hl. by simplify_eq.
    + exists t', q. by rewrite lookup_insert_ne.
  - intros t' key f. rewrite lookup_insert_Some. intros [[<- E]|[? ?]]; [by apply Hw in E|by eapply gi_wait0].
Qed.

Lemma ginv_do s t key fib : ginv s -> g_pcs s !! t = None -> ginv (group_do t key fib s).
Proof.
  intros I Ht. unfold group_do. destruct (g_calls s !! key) as [f|] eqn:Hc.
  - destruct (gi_calls s I key f Hc) as (tl & pl & Hpl & Hel). pose proof (gi_lead s I tl pl key f Hpl (enters_leads _ _ _ Hel)) as Hf.
    destruct I; constructor; simpl; try done.
    + intros k g Hg. destruct (gi_calls0 k g Hg) as (t' & q & Hq & Hen). exists t', q. rewrite lookup_insert_ne by congruence. done.
    + intros t' q k g. rewrite lookup_insert_Some. intros [[<- <-]|[? ?]]; [done|by eapply gi_entry0].
    + intros t' q k g. rewrite lookup_insert_Some. intros [[<- <-]|[? ?]]; [done|by eapply gi_lead0].
    + intros t1 t2 q1 q2 k1 k2 g. rewrite !lookup_insert_Some. intros [[<- <-]|[? ?]] [[<- <-]|[? ?]]; try done; by eapply gi_one0.
    + intros k g Hg. destruct (gi_open0 k g Hg) as (t' & q & Hq & Hen). exists t', q. rewrite lookup_insert_ne by congruence. done.
    + intros t' k g. rewrite lookup_insert_Some. intros [[<- [= <- <-]]|[? ?]]; [eauto|by eapply gi_wait0].
  - destruct fib; [|done]. set (f := fresh (dom (g_futs s))).
    assert (Hf : g_futs s !! f = None) by (apply not_elem_of_dom, is_fresh).
    assert (Hen : forall k g, leads (GRun key f) k g = true <-> key = k /\ f = g) by (intros; simpl; by rewrite bool_decide_eq_true).
    destruct I; constructor; simpl.
    + intros k g. rewrite lookup_insert_Some. intros [[<- <-]|[? Hg]].
      * exists t, (GRun key f). rewrite lookup_insert_eq. split; [done|]. by apply bool_decide_eq_true.
      * destruct (gi_calls0 k g Hg) as (t' & q & Hq & He). exists t', q. rewrite lookup_insert_ne by congruence. done.
    + intros t' q k g. rewrite !lookup_insert_Some. intros [[<- <-]|[? Hq]].
      * intros (<- & <-)%Hen. auto.
      * intros He. destruct (decide (k = key)) as [->|Hne]; [|destruct (gi_entry0 t' q k g Hq He); auto].
        destruct (gi_entry0 t' q key g Hq He); [congruence|auto].
    + intros t' q k g. rewrite lookup_insert_Some. intros [[<- <-]|[? Hq]]; [intros (<- & <-)%Hen; by rewrite lookup_insert_eq|].
      intros Hl. pose proof (gi_lead0 t' q k g Hq Hl) as Hg. rewrite lookup_insert_ne; [done|congruence].
    + intros t1 t2 q1 q2 k1 k2 g. rewrite !lookup_insert_Some. intros [[<- <-]|[? H1]] [[<- <-]|[? H2]]; [done| | |by eapply gi_one0].
      * intros (_ & <-)%Hen Hl. pose proof (gi_lead0 t2 q2 k2 f H2 Hl). congruence.
      * intros Hl (_ & <-)%Hen. pose proof (gi_lead0 t1 q1 k1 f H1 Hl). congruence.
    + intros k g. rewrite lookup_insert_Some. intros [[<- [= <-]]|[? Hg]].
      * exists t, (GRun key f). rewrite lookup_insert_eq. split; [done|]. by apply Hen.
      * destruct (gi_open0 k g Hg) as (t' & q & Hq & He). exists t', q. rewrite lookup_insert_ne by congruence. done.
    + intros t' k g. rewrite lookup_insert_Some. intros [[_ ?]|[? Hq]]; [done|]. destruct (gi_wait0 t' k g Hq) as (o & Ho). exists o.
      rewrite lookup_insert_ne; [done|congruence].
    + intros r Hr. pose proof (gi_log0 r Hr). rewrite lookup_insert_ne; [done|congruence].
    + intros k g o. rewrite lookup_insert_Some. intros [[_ ?]|[_ Hg]]; [done|by apply gi_first0].
    + done.
Qed.

Lemma ginv_end s t key f o : ginv s -> g_pcs s !! t = Some (GRes key f o) -> ginv (group_end t key f o s).
Proof.
  intros I Ht. assert (Hl : leads (GRes key f o) key f = true) by (by apply bool_decide_eq_true).
  assert (Hother : forall t' q k g, t' ≠ t -> g_pcs s !! t' = Some q -> leads q k g = true -> g ≠ f).
  { intros t' q k g Hne Hq Hlq ->. apply Hne. by eapply (gi_one s I). }
  unfold group_end. destruct I; constructor; simpl; try done.
  - intros k g Hg. assert (Hg' : g_calls s !! k = Some g) by (case_decide; [by apply lookup_delete_Some in Hg as [_ ?]|done]).
    destruct (gi_calls0 k g Hg') as (t' & q & Hq & He). assert (t' ≠ t).
    { intros ->. rewrite Ht in Hq. injection Hq as <-. simpl in He. apply bool_decide_eq_true in He as (<- & <-).
      rewrite decide_True in Hg by done. by rewrite lookup_delete_eq in Hg. }
    exists t', q. by rewrite lookup_insert_ne.
  - intros t' q k g. rewrite lookup_insert_Some. intros [[<- <-]|[Hne Hq]]; [done|]. intros He. destruct (gi_entry0 t' q k g Hq He) as [Hc|?]; [|auto].
    left. case_decide; [|done]. apply lookup_delete_Some. split; [|done]. intros <-.
    apply (Hother t' q key g); [done..|by apply enters_leads|congruence].
  - intros t' q k g. rewrite lookup_insert_Some. intros [[<- <-]|[? ?]]; [rewrite leads_settle; intros (<- & <-); by eapply gi_lead0|by eapply gi_lead0].
  - intros t1 t2 q1 q2 k1 k2 g. rewrite !lookup_insert_Some. intros [[<- <-]|[? ?]] [[<- <-]|[? ?]]; [done| | |by eapply gi_one0].
    + rewrite leads_settle. intros (_ & <-) ?. by apply (gi_one0 t t2 (GRes key f o) q2 key k2 f).
    + rewrite leads_settle. intros ? (_ & <-). by apply (gi_one0 t1 t q1 (GRes key f o) k1 key f).
  - intros k g Hg. destruct (gi_open0 k g Hg) as (t' & q & Hq & He). destruct (decide (t' = t)) as [->|Hne].
    + exists t, (GSettle key f o). rewrite lookup_insert_eq. split; [done|]. rewrite Ht in Hq. by injection Hq as <-.
    + exists t', q. by rewrite lookup_insert_ne.
  - intros t' k g. rewrite lookup_insert_Some. intros [[_ ?]|[? ?]]; [done|by eapply gi_wait0].
Qed.

Lemma gi_snoc s r : (forall r', r' ∈ g_log s -> gr_fut r' = gr_fut r -> gr_shared r' = false -> gr_shared r = false -> False) ->
  ginv s -> forall i j r1 r2, (g_log s ++ [r]) !! i = Some r1 -> (g_log s ++ [r]) !! j = Some r2 -> gr_fut r1 = gr_fut r2 ->
  gr_shared r1 = false -> gr_shared r2 = false -> i = j.
Proof.
  intros Hr I i j r1 r2. rewrite !lookup_snoc_Some. intros [[_ H1]|[-> <-]] [[_ H2]|[-> <-]] E S1 S2; [by eapply (gi_once s I)| | |done].
  - destruct (Hr r1); [by eapply list_elem_of_lookup_2|done..].
  - destruct (Hr r2); [by eapply list_elem_of_lookup_2|congruence|done..].
Qed.

Lemma ginv_settle s t key f o : ginv s -> g_pcs s !! t = Some (GSettle key f o) -> ginv (group_settle t key f o s).
Proof.
  intros I Ht. pose proof (proj2 (leads_settle key f o key f) (conj eq_refl eq_refl)) as Hl. pose proof (gi_lead s I t _ key f Ht Hl) as Hf.
  assert (Hother : forall t' q k g, t' ≠ t -> g_pcs s !! t' = Some q -> leads q k g = true -> g ≠ f).
  { intros t' q k g Hne Hq Hlq ->. apply Hne. by eapply (gi_one s I). }
  pose proof I as I'. destruct I; constructor; simpl; try done.
  - intros k g Hg. destruct (gi_calls0 k g Hg) as (t' & q & Hq & He). exists t', q. rewrite lookup_delete_ne; [done|]. intros <-. by rewrite Ht in Hq; simplify_eq.
  - intros t' q k g. rewrite lookup_delete_Some. intros [? ?]. by eapply gi_entry0.
  - intros t' q k g. rewrite lookup_delete_Some. intros [Hne Hq] Hq'. pose proof (gi_lead0 t' q k g Hq Hq'). rewrite lookup_insert_ne; [done|].
    intros <-. by apply (Hother t' q k f).
  - intros t1 t2 q1 q2 k1 k2 g. rewrite !lookup_delete_Some. intros [_ ?] [_ ?]. by eapply gi_one0.
  - intros k g. rewrite lookup_insert_Some. intros [[_ ?]|[Hne Hg]]; [done|]. destruct (gi_open0 k g Hg) as (t' & q & Hq & He). exists t', q.
    rewrite lookup_delete_ne; [done|]. intros <-. rewrite Ht in Hq. injection Hq as <-. apply leads_settle in He as (_ & ?). done.
  - intros t' k g. rewrite lookup_delete_Some. intros [Hne Hq]. destruct (gi_wait0 t' k g Hq) as (o' & Ho). destruct (decide (g = f)) as [->|Hgf].
    + rewrite lookup_insert_eq. rewrite Hf in Ho. injection Ho as <- <-. eauto.
    + rewrite lookup_insert_ne by done. eauto.
  - intros r [Hr|Hr]%elem_of_app.
    + pose proof (gi_log0 r Hr). rewrite lookup_insert_ne; [done|congruence].
    + apply list_elem_of_singleton in Hr as ->. simpl. by rewrite lookup_insert_eq.
  - intros k g o'. rewrite lookup_insert_Some. intros [[<- [= <- <-]]|[_ Hg]].
    + exists t. apply elem_of_app. right. by left.
    + destruct (gi_first0 k g o' Hg) as (t' & ?). exists t'. apply elem_of_app. auto.
  - eapply gi_snoc; [|done]. simpl. intros r' Hr E _ _. apply gi_log0 in Hr. rewrite E in Hr. congruence.
Qed.

Lemma ginv_wait s t key f s' : ginv s -> g_pcs s !! t = Some (GWait key f) -> group_wait t key f s = Some s' -> ginv s'.
Proof.
  intros I Ht. unfold group_wait. destruct (gi_wait s I t key f Ht) as (o0 & Ho). rewrite Ho. destruct o0 as [o|]; [|done]. intros [= <-].
  pose proof I as I'. destruct I; constructor; simpl; try done.
  - intros k g Hg. destruct (gi_calls0 k g Hg) as (t' & q & Hq & He). exists t', q. rewrite lookup_delete_ne; [done|]. intros <-. by rewrite Ht in Hq; simplify_eq.
  - intros t' q k g. rewrite lookup_delete_Some. intros [? ?]. by eapply gi_entry0.
  - intros t' q k g. rewrite lookup_delete_Some. intros [? ?]. by eapply gi_lead0.
  - intros t1 t2 q1 q2 k1 k2 g. rewrite !lookup_delete_Some. intros [_ ?] [_ ?]. by eapply gi_one0.
  - intros k g Hg. destruct (gi_open0 k g Hg) as (t' & q & Hq & He). exists t', q. rewrite lookup_delete_ne; [done|]. intros <-. by rewrite Ht in Hq; simplify_eq.
  - intros t' k g. rewrite lookup_delete_Some. intros [_ ?]. by eapply gi_wait0.
  - intros r [Hr|Hr]%elem_of_app; [auto|]. by apply list_elem_of_singleton in Hr as ->.
  - intros k g o' Hg. destruct (gi_first0 k g o' Hg) as (t' & ?). exists t'. apply elem_of_app. auto.
  - by eapply gi_snoc.
Qed.

Lemma ginv_forget s key : ginv s -> ginv (forget key s).
Proof.
  intros I. destruct I; constructor; simpl; try done.
  - intros k f [_ Hf]%lookup_delete_Some. auto.
  - intros t q k f Hq He. destruct (gi_entry0 t q k f Hq He) as [Hc|Hc]; [|right; destruct (g_calls s !! key); set_solver].
    destruct (decide (k = key)) as [->|Hne]; [right; rewrite Hc; set_solver|left]. by rewrite lookup_delete_ne.
Qed.

Lemma gstep_inv s1 s2 e : ginv s1 -> gexec e s1 = Some s2 -> ginv s2.
Proof.
  intros I He. destruct e as [t key fib|t o|t|key]; simpl in He.
  - destruct (g_pcs s1 !! t) eqn:Ht; [done|]. simplify_eq. by apply ginv_do.
  - destruct (g_pcs s1 !! t) as [[key f| | |]|] eqn:Ht; try done. simplify_eq. by eapply ginv_move.
  - unfold group_step in He. destruct (g_pcs s1 !! t) as [[| | |]|] eqn:Ht; try done; simplify_eq.
    + by apply ginv_end.
    + by apply ginv_settle.
    + by eapply ginv_wait.
  - simplify_eq. by apply ginv_forget.
Qed.

Lemma greach_inv s : greach s -> ginv s.
Proof.
  revert s. apply (rtc_ind_r (R := gstep) ginv g_init).
  - constructor; simpl; try (intros *; by rewrite ?lookup_empty). intros r Hr. by apply elem_of_nil in Hr.
  - intros s1 s2 _ (e & He) I. by eapply gstep_inv.
Qed.

(** ** Theorems *)

(** A call for [key] is under way with the future [f]: its function runs, or has come back and the
    entry is still to be dropped. *)
Definition in_flight (s : gstate) (key f : nat) : Prop :=
  exists t, g_pcs s !! t = Some (GRun key f) \/ exists o, g_pcs s !! t = Some (GRes key f o).

Lemma in_flight_enters s key f : in_flight s key f <-> exists t pc, g_pcs s !! t = Some pc /\ enters pc key f = true.
Proof.
  split.
  - intros (t & [H|(o & H)]); eexists t, _; (split; [exact H|]); by apply bool_decide_eq_true.
  - intros (t & pc & H & He). exists t. destruct pc; simpl in He; try done; apply bool_decide_eq_true in He as [-> ->]; eauto.
Qed.

(** What a call finds in the table. *)
Lemma calls_in_flight s key f : ginv s -> g_calls s !! key = Some f -> in_flight s key f /\ g_futs s !! f = Some (key, None).
Proof.
  intros I Hc. destruct (gi_calls s I key f Hc) as (t & q & Hq & He). split; [apply in_flight_enters; eauto|].
  by apply (gi_lead s I t q key f Hq), enters_leads.
Qed.

Lemma in_flight_calls s key f : ginv s -> in_flight s key f -> f ∉ g_forgot s -> g_calls s !! key = Some f.
Proof. intros I (t & pc & Ht & He)%in_flight_enters Hf. by destruct (gi_entry s I t pc key f Ht He). Qed.

(** The functions that ran: who ran one, for which key and future, and what it did.  The record is
    kept beside the group, from the events alone. *)
Record frun := FRun { fr_tid : tid; fr_key : nat; fr_fut : nat; fr_out : gout }.

Definition ran_of (e : gev) (s : gstate) : list frun :=
  match e with
  | EFn t o => match g_pcs s !! t with Some (GRun key f) => [FRun t key f o] | _ => [] end
  | _ => []
  end.
Definition fstep (x y : gstate * list frun) : Prop := exists e, gexec e x.1 = Some y.1 /\ y.2 = x.2 ++ ran_of e x.1.
Definition freach : gstate * list frun -> Prop := rtc fstep (g_init, []).

(** A function that ran is about to be reported by its caller, or was. *)
Record finv (s : gstate) (rs : list frun) : Prop := {
  fi_inv : ginv s;
  fi_held : forall t key f o, FRun t key f o ∈ rs ->
    g_pcs s !! t = Some (GRes key f o) \/ g_pcs s !! t = Some (GSettle key f o) \/ GRet t key f o false ∈ g_log s;
  fi_pcs : forall t key f o, g_pcs s !! t = Some (GRes key f o) \/ g_pcs s !! t = Some (GSettle key f o) -> FRun t key f o ∈ rs;
  fi_log : forall t key f o, GRet t key f o false ∈ g_log s -> FRun t key f o ∈ rs;
  fi_once : NoDup (fr_fut <$> rs)
}.

(** Steps at which no function comes back keep the record. *)
Lemma finv_keep s s' rs : finv s rs -> ginv s' ->
  (forall t key f o, g_pcs s !! t = Some (GRes key f o) \/ g_pcs s !! t = Some (GSettle key f o) ->
     g_pcs s' !! t = Some (GRes key f o) \/ g_pcs s' !! t = Some (GSettle key f o) \/ GRet t key f o false ∈ g_log s') ->
  (forall r, r ∈ g_log s -> r ∈ g_log s') ->
  (forall t key f o, g_pcs s' !! t = Some (GRes key f o) \/ g_pcs s' !! t = Some (GSettle key f o) ->
     g_pcs s !! t = Some (GRes key f o) \/ g_pcs s !! t = Some (GSettle key f o)) ->
  (forall t key f o, GRet t key f o false ∈ g_log s' -> GRet t key f o false ∈ g_log s \/ g_pcs s !! t = Some (GSettle key f o)) -> finv s' rs.
Proof.
  intros [I H1 H2 H3 H4] I' Ha Hb Hc Hd. split; [done| | | |done].
  - intros t key f o Hr. destruct (H1 t key f o Hr) as [?|[?|?]]; auto.
  - intros t key f o Hp. by apply H2, Hc.
  - intros t key f o [?|?]%Hd; auto.
Qed.

Lemma finv_fn s rs t key f o : finv s rs -> g_pcs s !! t = Some (GRun key f) ->
  finv (GState (g_calls s) (g_futs s) (<[t := GRes key f o]> (g_pcs s)) (g_log s) (g_forgot s)) (rs ++ [FRun t key f o]).
Proof.
  intros [I H1 H2 H3 H4] Ht. assert (Hl : leads (GRun key f) key f = true) by (by apply bool_decide_eq_true).
  assert (Hnew : forall t' key' o', FRun t' key' f o' ∉ rs).
  { intros t' key' o' Hr. destruct (H1 _ _ _ _ Hr) as [Hp|[Hp|Hlog]].
    - assert (t = t') as <- by (eapply (gi_one s I _ _ _ _ key key' f Ht Hp); [done|by apply bool_decide_eq_true]). congruence.
    - assert (t = t') as <- by (eapply (gi_one s I _ _ _ _ key key' f Ht Hp); [done|by apply bool_decide_eq_true]). congruence.
    - apply (gi_log s I) in Hlog. simpl in Hlog. pose proof (gi_lead s I t _ key f Ht Hl). congruence. }
  split; simpl.
  - by eapply ginv_move.
  - intros t' k g o'. rewrite elem_of_app, list_elem_of_singleton. intros [Hr|[= -> -> -> ->]]; [|left; by rewrite lookup_insert_eq].
    destruct (decide (t' = t)) as [->|Hne]; [|rewrite !lookup_insert_ne by done; by apply H1].
    destruct (H1 _ _ _ _ Hr) as [Hp|[Hp|Hp]]; [congruence..|auto].
  - intros t' k g o'. rewrite elem_of_app, list_elem_of_singleton. destruct (decide (t' = t)) as [->|Hne].
    + rewrite lookup_insert_eq. intros [[= -> -> ->]|[=]]. by right.
    + rewrite !lookup_insert_ne by done. left. by apply H2.
  - intros t' k g o' Hr. apply elem_of_app. left. by apply H3.
  - rewrite fmap_app. simpl. apply NoDup_app. split_and!; [done| |apply NoDup_singleton].
    intros g ([t' k g' o'] & -> & Hr)%list_elem_of_fmap Hg. apply list_elem_of_singleton in Hg. simpl in Hg. subst g'. by apply Hnew in Hr.
Qed.

Lemma finv_go s s' rs t : finv s rs -> ginv s' -> group_step t s = Some s' -> finv s' rs.
Proof.
  intros F I' Hs. pose proof F as [I _ _ _ _]. unfold group_step in Hs. destruct (g_pcs s !! t) as [[key f|key f o|key f o|key f]|] eqn:Ht; try done.
  - injection Hs as <-. apply (finv_keep s _ rs F I'); simpl; [|auto| |auto].
    + intros t' k g o' Hp. destruct (decide (t' = t)) as [->|Hne]; [|rewrite !lookup_insert_ne by done; tauto].
      rewrite lookup_insert_eq. right. left. destruct Hp as [Hp|Hp]; congruence.
    + intros t' k g o'. destruct (decide (t' = t)) as [->|Hne]; [|by rewrite !lookup_insert_ne by done].
      rewrite lookup_insert_eq. intros [[=]|[= -> -> ->]]. by left.
  - injection Hs as <-. apply (finv_keep s _ rs F I'); simpl.
    + intros t' k g o' Hp. destruct (decide (t' = t)) as [->|Hne]; [|rewrite !lookup_delete_ne by done; tauto].
      right. right. destruct Hp as [Hp|Hp]; [congruence|]. apply elem_of_app. right. apply list_elem_of_singleton. congruence.
    + intros r Hr. apply elem_of_app. by left.
    + intros t' k g o'. rewrite !lookup_delete_Some. tauto.
    + intros t' k g o'. rewrite elem_of_app, list_elem_of_singleton. intros [?|[= -> -> -> ->]]; [by left|by right].
  - unfold group_wait in Hs. destruct (g_futs s !! f) as [[k0 [o|]]|]; try done. injection Hs as <-. apply (finv_keep s _ rs F I'); simpl.
    + intros t' k g o' Hp. assert (t' ≠ t) by (intros ->; destruct Hp; congruence). rewrite !lookup_delete_ne by done. tauto.
    + intros r Hr. apply elem_of_app. by left.
    + intros t' k g o'. rewrite !lookup_delete_Some. tauto.
    + intros t' k g o'. rewrite elem_of_app, list_elem_of_singleton. intros [?|[=]]. by left.
Qed.

Lemma freach_inv s rs : freach (s, rs) -> finv s rs.
Proof.
  intros H. change (finv (s, rs).1 (s, rs).2). revert H. generalize (s, rs). apply (rtc_ind_r (R := fstep) (λ x, finv x.1 x.2) (g_init, [])).
  - split; simpl; [apply (greach_inv g_init), rtc_refl|intros ? ? ? ? H; by apply elem_of_nil in H| |intros ? ? ? ? H; by apply elem_of_nil in H|constructor].
    intros t key f o. rewrite lookup_empty. by intros [|].
  - intros [s1 r1] [s2 r2] _ (e & He & Er) F. simpl in *. subst r2. pose proof (gstep_inv s1 s2 e (fi_inv _ _ F) He) as I'.
    destruct e as [t key fib|t o|t|key]; simpl in *.
    + rewrite app_nil_r. destruct (g_pcs s1 !! t) eqn:Ht; [done|]. injection He as <-. unfold group_do in *.
      destruct (g_calls s1 !! key) as [f|]; [|destruct fib; [|done]].
      all: apply (finv_keep s1 _ r1 F I'); simpl; [|auto| |auto]; intros t' k g o';
        (destruct (decide (t' = t)) as [->|Hne]; [rewrite ?lookup_insert_eq, Ht; by intros [|]|rewrite !lookup_insert_ne by done; tauto]).
    + destruct (g_pcs s1 !! t) as [[key f| | |]|] eqn:Ht; try done. injection He as <-. by apply finv_fn.
    + rewrite app_nil_r. by eapply finv_go.
    + rewrite app_nil_r. injection He as <-. apply (finv_keep s1 _ r1 F I'); simpl; tauto.
Qed.

(** C27. Single flight: whatever calls of [do] and [forget] did,
    - a call for a key waits for the call under way for it, unless [forget] dropped that one, and a
      fiber's call runs its function, with a future of its own, when none is under way - so a call that
      comes after a result runs anew; a call that waits does so for a future that is pending;
    - two functions run for one key at the same time only if one of the calls was forgotten;
    - one function runs per future, and every call that returned from the future, for the function's
      key, returned what that function returned or raised; one of them, the caller that ran it, says
      that its result is not shared. *)
Theorem group_shares_one_outcome s rs : freach (s, rs) ->
  (forall t key fib s', gexec (EDo t key fib) s = Some s' ->
     (forall f, in_flight s key f -> f ∉ g_forgot s -> g_pcs s' !! t = Some (GWait key f)) /\
     ((forall f, ~ in_flight s key f) -> fib = true -> exists f, g_pcs s' !! t = Some (GRun key f) /\ g_futs s !! f = None) /\
     (forall f, g_pcs s' !! t = Some (GWait key f) -> g_futs s !! f = Some (key, None))) /\
  (forall t t' key f f', g_pcs s !! t = Some (GRun key f) -> g_pcs s !! t' = Some (GRun key f') -> f ∉ g_forgot s -> f' ∉ g_forgot s -> t = t') /\
  NoDup (fr_fut <$> rs) /\
  (forall r, r ∈ g_log s -> exists t, FRun t (gr_key r) (gr_fut r) (gr_out r) ∈ rs /\ GRet t (gr_key r) (gr_fut r) (gr_out r) false ∈ g_log s) /\
  (forall i j r r', g_log s !! i = Some r -> g_log s !! j = Some r' -> gr_fut r = gr_fut r' -> gr_shared r = false -> gr_shared r' = false -> i = j).
Proof.
  intros F%freach_inv. pose proof (fi_inv _ _ F) as I. split_and!; [| |apply F| |apply I].
  - intros t key fib s' Hx. simpl in Hx. destruct (g_pcs s !! t) eqn:Ht; [done|]. injection Hx as <-. unfold group_do.
    destruct (g_calls s !! key) as [f0|] eqn:Hc.
    + destruct (calls_in_flight s key f0 I Hc) as [Hfl Hpe]. simpl. rewrite lookup_insert_eq. split_and!.
      * intros f Hf Hn. pose proof (in_flight_calls s key f I Hf Hn). by simplify_eq.
      * intros Hno _. by destruct (Hno f0).
      * by intros f [= <-].
    + split_and!.
      * intros f Hf Hn. pose proof (in_flight_calls s key f I Hf Hn). congruence.
      * intros _ ->. simpl. rewrite lookup_insert_eq. eexists. split; [done|]. apply not_elem_of_dom, is_fresh.
      * intros f. destruct fib; simpl; [by rewrite lookup_insert_eq|congruence].
  - intros t t' key f f' H1 H2 N1 N2. assert (E1 : g_calls s !! key = Some f) by (apply in_flight_calls; [done|exists t; auto|done]).
    assert (E2 : g_calls s !! key = Some f') by (apply in_flight_calls; [done|exists t'; auto|done]). rewrite E1 in E2. injection E2 as <-.
    apply (gi_one s I t t' _ _ key key f H1 H2); by apply bool_decide_eq_true.
  - intros r H1%(gi_log s I). destruct (gi_first s I _ _ _ H1) as [t Hr]. exists t. split; [by apply (fi_log _ _ F)|done].
Qed.

(** Nobody is stranded: when no call can take a step outside its function, a call that has not returned is
    running its function, or waits for the future of a call that is. *)
Theorem group_no_stranded s : greach s -> (forall t, group_step t s = None) -> forall t pc, g_pcs s !! t = Some pc ->
  (exists key f, pc = GRun key f) \/ exists key f t', pc = GWait key f /\ g_pcs s !! t' = Some (GRun key f).
Proof.
  intros I%greach_inv Hq t pc Ht. pose proof (Hq t) as Hs. unfold group_step in Hs. rewrite Ht in Hs. destruct pc as [key f|key f o|key f o|key f]; try done; [left; eauto|].
  right. destruct (gi_wait s I t key f Ht) as (o & Ho). unfold group_wait in Hs. rewrite Ho in Hs. destruct o as [o|]; [done|].
  destruct (gi_open s I key f Ho) as (t' & q & Hq' & Hl). exists key, f, t'. split; [done|]. apply leads_inv in Hl as [->|[(o & ->)|(o & ->)]]; [done|..];
    specialize (Hq t'); unfold group_step in Hq; by rewrite Hq' in Hq.
Qed.

(** ** Examples *)

Definition grun (es : list gev) : option gstate := foldl (λ s e, s ≫= gexec e) (Some g_init) es.

Lemma grun_reach es s : grun es = Some s -> greach s.
Proof.
  unfold grun, greach. assert (H : forall s0 s, foldl (λ s e, s ≫= gexec e) s0 es = Some s -> exists s1, s0 = Some s1 /\ rtc gstep s1 s).
  { induction es as [|e es IH]; intros s0 s1 H; simpl in H; [eauto using rtc_refl|]. apply IH in H as (s2 & H2 & H3). apply bind_Some in H2 as (s3 & -> & He).
    exists s3. split; [done|]. eapply rtc_l; [by exists e|done]. }
  intros Hs. apply H in Hs as (s1 & [= <-] & ?). done.
Qed.

(** Threads 1 and 2 call for key 7; 1 runs its function, which raises, and both get the exception. *)
Definition demo_flight : gstate := default g_init (grun [EDo 1 7 true; EDo 2 7 true]).
Definition demo_over : gstate := default g_init (grun [EDo 1 7 true; EDo 2 7 true; EFn 1 (GExc 3); EGo 1; EGo 1; EGo 2]).

Lemma demo_flight_reach : greach demo_flight.
Proof. eapply (grun_reach [EDo 1 7 true; EDo 2 7 true]). by vm_compute. Qed.

Definition frun_all (es : list gev) : option (gstate * list frun) :=
  foldl (λ x e, x ≫= λ x, (λ s', (s', x.2 ++ ran_of e x.1)) <$> gexec e x.1) (Some (g_init, [])) es.

Lemma frun_reach es x : frun_all es = Some x -> freach x.
Proof.
  unfold frun_all, freach. generalize (g_init, @nil frun). induction es as [|e es IH]; intros x0 H; simpl in H; [injection H as <-; apply rtc_refl|].
  destruct (gexec e x0.1) as [s1|] eqn:E; simpl in H.
  - eapply rtc_l; [|by apply IH]. by exists e.
  - exfalso. clear -H. induction es as [|e' es IH]; simpl in H; [done|by apply IH].
Qed.

(** A third call joins while the function runs; both callers return what the function of the first
    raised; a call after that runs anew. *)
Lemma group_shares_one_outcome_witness :
  g_pcs (default g_init (gexec (EDo 3 7 true) demo_flight)) !! 3 = Some (GWait 7 0) /\
  (exists t, FRun t 7 0 (GExc 3) ∈ [FRun 1 7 0 (GExc 3)] /\ GRet t 7 0 (GExc 3) false ∈ g_log demo_over) /\
  exists f, g_pcs (default g_init (gexec (EDo 3 7 true) demo_over)) !! 3 = Some (GRun 7 f) /\ g_futs demo_over !! f = None.
Proof.
  assert (Hfl : freach (demo_flight, [])) by (apply (frun_reach [EDo 1 7 true; EDo 2 7 true]); by vm_compute).
  assert (Hov : freach (demo_over, [FRun 1 7 0 (GExc 3)])) by (apply (frun_reach [EDo 1 7 true; EDo 2 7 true; EFn 1 (GExc 3); EGo 1; EGo 1; EGo 2]); by vm_compute).
  split; [|split].
  - apply (proj1 (proj1 (group_shares_one_outcome demo_flight [] Hfl) 3 7 true (default g_init (gexec (EDo 3 7 true) demo_flight)) ltac:(by vm_compute)) 0).
    + exists 1. left. by vm_compute.
    + by vm_compute.
  - apply (proj1 (proj2 (proj2 (proj2 (group_shares_one_outcome demo_over _ Hov)))) (GRet 2 7 0 (GExc 3) true)).
    replace (g_log demo_over) with [GRet 1 7 0 (GExc 3) false; GRet 2 7 0 (GExc 3) true] by (by vm_compute). right. left.
  - apply (proj1 (proj2 (proj1 (group_shares_one_outcome demo_over _ Hov) 3 7 true (default g_init (gexec (EDo 3 7 true) demo_over)) ltac:(by vm_compute)))); [|done].
    assert (E : g_pcs demo_over = ∅) by (by vm_compute). intros f (t & H). rewrite E, lookup_empty in H. by destruct H as [|(o & H)].
Defined.

Lemma group_no_stranded_witness : (exists key f, GWait 7 0 = GRun key f) \/ exists key f t', GWait 7 0 = GWait key f /\ g_pcs demo_flight !! t' = Some (GRun key f).
Proof.
  apply (group_no_stranded demo_flight demo_flight_reach) with (t := 2); [|by vm_compute]. intros t. unfold group_step.
  destruct (decide (t = 1)) as [->|H1]; [by vm_compute|]. destruct (decide (t = 2)) as [->|H2]; [by vm_compute|].
  replace (g_pcs demo_flight) with (<[1 := GRun 7 0]> {[2 := GWait 7 0]} : gmap tid gpc) by (by vm_compute).
  by rewrite lookup_insert_ne, lookup_singleton_ne.
Defined.
