(* ===== verification/Protocol.v ===== *)
(** * Protocols

    What [asyncio] protocols see of a transport, shared by the transports: the answers of system calls, the
    callbacks, and the contract of their order as an automaton. *)
From S2P Require Import Prelude.

Abbreviation bytes := (list Z).

(** What [send] and [recv] do: take or give bytes, would block, fail; [recv] may also report the end. *)
Inductive sres := SOk (n : nat) | SBlock | SErr (e : nat).
Inductive tread := RData (d : bytes) | REof | RBlock | RErr (e : nat).

(** The protocol's callbacks; [CData] is [data_received], or [buffer_updated] of a [BufferedProtocol]. *)
Inductive pcall := CMade | CGetBuf | CData (d : bytes) | CEof | CPauseW | CResumeW | CLost (exc : option nat).

(** ** The contract *)

(** The protocol's view: whether it was told to pause writing, and whether the connection is lost.  [None]
    when the callbacks break the contract. *)
Definition see (v : option (bool * bool)) (c : pcall) : option (bool * bool) :=
  match v with
  | None => None
  | Some (p, lost) =>
      match c with
      | CMade => v
      | CGetBuf | CData _ | CEof => if lost then None else v
      | CPauseW => if p then None else Some (true, lost)
      | CResumeW => if p then Some (false, lost) else None
      | CLost _ => if lost then None else Some (p, true)
      end
  end.
Definition view (l : list pcall) : option (bool * bool) := foldl see (Some (false, false)) l.

Lemma view_snoc l c : view (l ++ [c]) = see (view l) c.
Proof. unfold view. by rewrite foldl_app. Qed.

Lemma view_split l1 c l2 p lost : view (l1 ++ c :: l2) = Some (p, lost) -> exists p1 lost1, view l1 = Some (p1, lost1) /\ see (Some (p1, lost1)) c ≠ None.
Proof.
  unfold view. rewrite foldl_app. cbn [foldl]. intros H. assert (N : forall l, foldl see None l = None) by (by induction l).
  destruct (foldl see (Some (false, false)) l1) as [[p1 lost1]|]; [|by rewrite N in H]. exists p1, lost1. split; [done|]. intros X. by rewrite X, N in H.
Qed.

(** A view whose connection is lost has seen [connection_lost], and stays so. *)
Lemma view_lost l : forall p lost, view l = Some (p, lost) -> lost = true <-> exists exc, CLost exc ∈ l.
Proof.
  induction l as [|c l IH] using rev_ind; intros p lost H; [unfold view in H; simplify_eq/=; split; [done|intros [? ?]; set_solver]|].
  rewrite view_snoc in H. destruct (view l) as [[p1 lost1]|] eqn:E; [|done]. specialize (IH _ _ eq_refl).
  assert (C : lost = true <-> lost1 = true \/ exists exc, c = CLost exc) by (destruct c, p1, lost1; simplify_eq/=; naive_solver).
  rewrite C, IH. setoid_rewrite elem_of_app. setoid_rewrite list_elem_of_singleton. naive_solver.
Qed.

Definition from_peer (c : pcall) : bool := match c with CGetBuf | CData _ | CEof | CLost _ => true | _ => false end.

Lemma view_after l1 exc l2 v : view (l1 ++ CLost exc :: l2) = Some v -> Forall (λ c, from_peer c = false) l2.
Proof.
  destruct v as [p lost]. intros H. apply Forall_forall. intros c Hc. apply list_elem_of_split in Hc as (l3 & l4 & ->).
  rewrite (app_assoc l1 (_ :: l3) (c :: l4) : l1 ++ CLost exc :: l3 ++ c :: l4 = _) in H. apply view_split in H as (p1 & lost1 & H1 & H2).
  assert (lost1 = true) as -> by (eapply view_lost; [done|]; exists exc; set_solver). by destruct c.
Qed.

