(* ===== verification/Transport.v ===== *)
(** * Stream transports

    Models [class _StreamTransport] ([src/src/stackweave/aio/transport_stream.py] and
    [transport_stream_io.py]) over a plain socket: the write buffer with its watermarks, pausing, closing,
    aborting, half-closing, and the one fiber that reads and drains.  Protocol callbacks run synchronously
    and may call the transport: what remains to be done after a callback is a frame on a stack, and while
    the stack is not empty only operations and the callback's return can happen.  What the socket answers
    is part of the events.  TLS, contexts and a loop that is already closed are not modelled. *)
From S2P Require Import Prelude Protocol.

(** What follows a callback: the constructor after [connection_made]; [write] after [pause_writing];
    [set_write_buffer_limits] after [pause_writing], or after [resume_writing]; [_drain_step] after
    [resume_writing]; the read step after [get_buffer], after [data_received] and after [eof_received];
    [_deliver] after [connection_lost]. *)
Inductive frame := FMade | FPause | FLimits | FDone | FDrain | FBuf | FData | FEof | FLost.

(** The io fiber: none; to run from the top of its loop; parked for reading and writing; woken with what
    is ready; past its write step; in a callback of its read step; gone, with [_io_g] still set. *)
Inductive iopc := IoNone | IoReady | IoParked (r w : bool) | IoServe (r w : bool) | IoRecv (r : bool) | IoBusy | IoDead.

#[export] Instance frame_eq_dec : EqDecision frame.
Proof. solve_decision. Defined.

(** The attributes of the transport; [_io_g]; the deliveries scheduled with [call_soon]; the stack; what the
    kernel took; whether the socket is open; and, which the code does not read, the bytes that [write]
    accepted, whether [abort] dropped some, and the callbacks made. *)
Record transport := Transport {
  tr_closed : bool; tr_stopping : bool; tr_paused : bool; tr_read_eof : bool; tr_eof_written : bool;
  tr_eof_pending : bool; tr_lost_called : bool; tr_prot_paused : bool; tr_buf : bytes; tr_high : Z; tr_low : Z;
  tr_drain : bool; tr_close_exc : option nat; tr_close_cl : bool; tr_io : iopc; tr_soon : list (option nat * bool);
  tr_frames : list frame; tr_wire : bytes; tr_fd_open : bool; tr_accepted : bytes; tr_aborted : bool;
  tr_calls : list pcall
}.

Definition set_closed  (s : transport) : transport :=
  Transport true (tr_stopping s) (tr_paused s) (tr_read_eof s) (tr_eof_written s) (tr_eof_pending s) true (tr_prot_paused s)
    (tr_buf s) (tr_high s) (tr_low s) (tr_drain s) (tr_close_exc s) (tr_close_cl s) (tr_io s) (tr_soon s) (tr_frames s)
    (tr_wire s) (tr_fd_open s) (tr_accepted s) (tr_aborted s) (tr_calls s).
Definition set_stopping  (s : transport) : transport :=
  Transport (tr_closed s) true (tr_paused s) (tr_read_eof s) (tr_eof_written s) (tr_eof_pending s) (tr_lost_called s)
    (tr_prot_paused s) (tr_buf s) (tr_high s) (tr_low s) false (tr_close_exc s) (tr_close_cl s) (tr_io s) (tr_soon s)
    (tr_frames s) (tr_wire s) (tr_fd_open s) (tr_accepted s) (tr_aborted s) (tr_calls s).
Definition set_drain (cl : bool) (s : transport) : transport :=
  Transport (tr_closed s) (tr_stopping s) (tr_paused s) (tr_read_eof s) (tr_eof_written s) (tr_eof_pending s) (tr_lost_called s)
    (tr_prot_paused s) (tr_buf s) (tr_high s) (tr_low s) true None cl (tr_io s) (tr_soon s) (tr_frames s) (tr_wire s)
    (tr_fd_open s) (tr_accepted s) (tr_aborted s) (tr_calls s).
Definition set_paused (b : bool) (s : transport) : transport :=
  Transport (tr_closed s) (tr_stopping s) b (tr_read_eof s) (tr_eof_written s) (tr_eof_pending s) (tr_lost_called s)
    (tr_prot_paused s) (tr_buf s) (tr_high s) (tr_low s) (tr_drain s) (tr_close_exc s) (tr_close_cl s) (tr_io s) (tr_soon s)
    (tr_frames s) (tr_wire s) (tr_fd_open s) (tr_accepted s) (tr_aborted s) (tr_calls s).
Definition set_read_eof  (s : transport) : transport :=
  Transport (tr_closed s) (tr_stopping s) (tr_paused s) true (tr_eof_written s) (tr_eof_pending s) (tr_lost_called s)
    (tr_prot_paused s) (tr_buf s) (tr_high s) (tr_low s) (tr_drain s) (tr_close_exc s) (tr_close_cl s) (tr_io s) (tr_soon s)
    (tr_frames s) (tr_wire s) (tr_fd_open s) (tr_accepted s) (tr_aborted s) (tr_calls s).
Definition set_eof (w p : bool) (s : transport) : transport :=
  Transport (tr_closed s) (tr_stopping s) (tr_paused s) (tr_read_eof s) w p (tr_lost_called s) (tr_prot_paused s) (tr_buf s)
    (tr_high s) (tr_low s) (tr_drain s) (tr_close_exc s) (tr_close_cl s) (tr_io s) (tr_soon s) (tr_frames s) (tr_wire s)
    (tr_fd_open s) (tr_accepted s) (tr_aborted s) (tr_calls s).
Definition set_prot_paused (b : bool) (s : transport) : transport :=
  Transport (tr_closed s) (tr_stopping s) (tr_paused s) (tr_read_eof s) (tr_eof_written s) (tr_eof_pending s) (tr_lost_called s) b
    (tr_buf s) (tr_high s) (tr_low s) (tr_drain s) (tr_close_exc s) (tr_close_cl s) (tr_io s) (tr_soon s) (tr_frames s)
    (tr_wire s) (tr_fd_open s) (tr_accepted s) (tr_aborted s) (tr_calls s).
Definition set_buf (b : bytes) (s : transport) : transport :=
  Transport (tr_closed s) (tr_stopping s) (tr_paused s) (tr_read_eof s) (tr_eof_written s) (tr_eof_pending s) (tr_lost_called s)
    (tr_prot_paused s) b (tr_high s) (tr_low s) (tr_drain s) (tr_close_exc s) (tr_close_cl s) (tr_io s) (tr_soon s) (tr_frames s)
    (tr_wire s) (tr_fd_open s) (tr_accepted s) (tr_aborted s) (tr_calls s).
Definition set_limits (h l : Z) (s : transport) : transport :=
  Transport (tr_closed s) (tr_stopping s) (tr_paused s) (tr_read_eof s) (tr_eof_written s) (tr_eof_pending s) (tr_lost_called s)
    (tr_prot_paused s) (tr_buf s) h l (tr_drain s) (tr_close_exc s) (tr_close_cl s) (tr_io s) (tr_soon s) (tr_frames s)
    (tr_wire s) (tr_fd_open s) (tr_accepted s) (tr_aborted s) (tr_calls s).
Definition set_io (i : iopc) (s : transport) : transport :=
  Transport (tr_closed s) (tr_stopping s) (tr_paused s) (tr_read_eof s) (tr_eof_written s) (tr_eof_pending s) (tr_lost_called s)
    (tr_prot_paused s) (tr_buf s) (tr_high s) (tr_low s) (tr_drain s) (tr_close_exc s) (tr_close_cl s) i (tr_soon s) (tr_frames s)
    (tr_wire s) (tr_fd_open s) (tr_accepted s) (tr_aborted s) (tr_calls s).
Definition set_frames (l : list frame) (s : transport) : transport :=
  Transport (tr_closed s) (tr_stopping s) (tr_paused s) (tr_read_eof s) (tr_eof_written s) (tr_eof_pending s) (tr_lost_called s)
    (tr_prot_paused s) (tr_buf s) (tr_high s) (tr_low s) (tr_drain s) (tr_close_exc s) (tr_close_cl s) (tr_io s) (tr_soon s) l
    (tr_wire s) (tr_fd_open s) (tr_accepted s) (tr_aborted s) (tr_calls s).
Definition call_later (exc : option nat) (cl : bool) (s : transport) : transport :=
  Transport (tr_closed s) (tr_stopping s) (tr_paused s) (tr_read_eof s) (tr_eof_written s) (tr_eof_pending s) (tr_lost_called s)
    (tr_prot_paused s) (tr_buf s) (tr_high s) (tr_low s) (tr_drain s) (tr_close_exc s) (tr_close_cl s) (tr_io s)
    (tr_soon s ++ [(exc, cl)]) (tr_frames s) (tr_wire s) (tr_fd_open s) (tr_accepted s) (tr_aborted s) (tr_calls s).
Definition set_soon (l : list (option nat * bool)) (s : transport) : transport :=
  Transport (tr_closed s) (tr_stopping s) (tr_paused s) (tr_read_eof s) (tr_eof_written s) (tr_eof_pending s) (tr_lost_called s)
    (tr_prot_paused s) (tr_buf s) (tr_high s) (tr_low s) (tr_drain s) (tr_close_exc s) (tr_close_cl s) (tr_io s) l (tr_frames s)
    (tr_wire s) (tr_fd_open s) (tr_accepted s) (tr_aborted s) (tr_calls s).
Definition put_wire (d : bytes) (s : transport) : transport :=
  Transport (tr_closed s) (tr_stopping s) (tr_paused s) (tr_read_eof s) (tr_eof_written s) (tr_eof_pending s) (tr_lost_called s)
    (tr_prot_paused s) (tr_buf s) (tr_high s) (tr_low s) (tr_drain s) (tr_close_exc s) (tr_close_cl s) (tr_io s) (tr_soon s)
    (tr_frames s) (tr_wire s ++ d) (tr_fd_open s) (tr_accepted s) (tr_aborted s) (tr_calls s).
Definition close_fd  (s : transport) : transport :=
  Transport (tr_closed s) (tr_stopping s) (tr_paused s) (tr_read_eof s) (tr_eof_written s) (tr_eof_pending s) (tr_lost_called s)
    (tr_prot_paused s) (tr_buf s) (tr_high s) (tr_low s) (tr_drain s) (tr_close_exc s) (tr_close_cl s) (tr_io s) (tr_soon s)
    (tr_frames s) (tr_wire s) false (tr_accepted s) (tr_aborted s) (tr_calls s).
Definition accept (d : bytes) (s : transport) : transport :=
  Transport (tr_closed s) (tr_stopping s) (tr_paused s) (tr_read_eof s) (tr_eof_written s) (tr_eof_pending s) (tr_lost_called s)
    (tr_prot_paused s) (tr_buf s) (tr_high s) (tr_low s) (tr_drain s) (tr_close_exc s) (tr_close_cl s) (tr_io s) (tr_soon s)
    (tr_frames s) (tr_wire s) (tr_fd_open s) (tr_accepted s ++ d) (tr_aborted s) (tr_calls s).
Definition drop_buf  (s : transport) : transport :=
  Transport (tr_closed s) (tr_stopping s) (tr_paused s) (tr_read_eof s) (tr_eof_written s) (tr_eof_pending s) (tr_lost_called s)
    (tr_prot_paused s) [] (tr_high s) (tr_low s) (tr_drain s) (tr_close_exc s) (tr_close_cl s) (tr_io s) (tr_soon s) (tr_frames s)
    (tr_wire s) (tr_fd_open s) (tr_accepted s) true (tr_calls s).
Definition log_call (c : pcall) (s : transport) : transport :=
  Transport (tr_closed s) (tr_stopping s) (tr_paused s) (tr_read_eof s) (tr_eof_written s) (tr_eof_pending s) (tr_lost_called s)
    (tr_prot_paused s) (tr_buf s) (tr_high s) (tr_low s) (tr_drain s) (tr_close_exc s) (tr_close_cl s) (tr_io s) (tr_soon s)
    (tr_frames s) (tr_wire s) (tr_fd_open s) (tr_accepted s) (tr_aborted s) (tr_calls s ++ [c]).

Definition tr_init : transport :=
  Transport false false false false false false false false [] 65536 16384 false None false IoNone [] [FMade] [] true [] false [CMade].

(** A protocol callback starts. *)
Definition enter (c : pcall) (f : frame) (s : transport) : transport := set_frames (f :: tr_frames s) (log_call c s).

(** [g.cancel_wait_fd()] *)
Definition wake_io (s : transport) : transport := match tr_io s with IoParked _ _ => set_io IoReady s | _ => s end.

(** [_kick_io] *)
Definition kick_io (s : transport) : transport :=
  if tr_stopping s then s else match tr_io s with IoNone => set_io IoReady s | _ => wake_io s end.

(** The teardown: the fiber is told to stop and [connection_lost] is scheduled. *)
Definition teardown (exc : option nat) (cl : bool) (s : transport) : transport := call_later exc cl (wake_io (set_stopping s)).

(** [close(exc)] *)
Definition close (exc : option nat) (s : transport) : transport :=
  if tr_closed s then s
  else
    let cl := negb (tr_lost_called s) in
    let s1 := set_closed s in
    if bool_decide (exc = None /\ tr_buf s ≠ []) then kick_io (set_drain cl s1) else teardown exc cl s1.

(** [abort()] *)
Definition abort (s : transport) : transport :=
  let s1 := drop_buf s in
  if negb (tr_closed s) then close None s1
  else if tr_stopping s then s1
  else teardown (tr_close_exc s) (tr_close_cl s) s1.

(** [write_eof()] *)
Definition write_eof (s : transport) : transport :=
  if tr_closed s || tr_eof_written s || tr_eof_pending s then s
  else if bool_decide (tr_buf s = []) then set_eof true false s else set_eof false true s.

(** [pause_reading()], [resume_reading()] *)
Definition pause_reading (s : transport) : transport := set_paused true s.
Definition resume_reading (s : transport) : transport := if tr_paused s then kick_io (set_paused false s) else s.

(** The end of [_drain_step], once the buffer is empty. *)
Definition drain_rest (s : transport) : transport :=
  if bool_decide (tr_buf s = []) then
    let s1 := if tr_eof_pending s && negb (tr_eof_written s) && negb (tr_closed s) then set_eof true false s else s in
    if tr_drain s1 && negb (tr_stopping s1) then teardown (tr_close_exc s1) (tr_close_cl s1) s1 else s1
  else s.

(** [_maybe_resume_writing], then what follows it. *)
Definition maybe_resume (k : frame) (s : transport) : transport :=
  if tr_prot_paused s && (Z.of_nat (length (tr_buf s)) <=? tr_low s)%Z then enter CResumeW k (set_prot_paused false s)
  else match k with FDrain => drain_rest s | _ => s end.

(** [_maybe_pause_writing], then what follows it. *)
Definition maybe_pause (k : frame) (s : transport) : transport :=
  if negb (tr_prot_paused s) && (tr_high s <? Z.of_nat (length (tr_buf s)))%Z then enter CPauseW k (set_prot_paused true s)
  else match k with FPause => kick_io s | _ => maybe_resume FDone s end.

(** [write(data)], with the answer of the immediate [send] when the buffer is empty. *)
Definition queue (d : bytes) (s : transport) : transport := maybe_pause FPause (set_buf (tr_buf s ++ d) s).
Definition write (d : bytes) (r : sres) (s : transport) : transport :=
  if tr_eof_written s || tr_eof_pending s || tr_closed s || bool_decide (d = []) then s
  else if bool_decide (tr_buf s = []) then
    match r with
    | SOk n => if length d <=? n then put_wire d (accept d s) else queue (drop n d) (put_wire (take n d) (accept d s))
    | SBlock => queue d (accept d s)
    | SErr e => close (Some e) s
    end
  else queue d (accept d s).

(** [set_write_buffer_limits(high, low)]; it raises [ValueError] for limits in the wrong order. *)
Definition set_write_buffer_limits (high low : option Z) (s : transport) : transport :=
  let h := match high, low with Some h, _ => h | None, Some l => (4 * l)%Z | None, None => 65536%Z end in
  let l := match low with Some l => l | None => (h / 4)%Z end in
  if bool_decide (l <= h /\ 0 <= l)%Z then maybe_pause FLimits (set_limits h l s) else s.

(** The interest of the io fiber. *)
Definition wants_read (s : transport) : bool := negb (tr_paused s) && negb (tr_read_eof s) && negb (tr_closed s).
Definition wants_write (s : transport) : bool := bool_decide (tr_buf s ≠ []).

(** The top of [_io_loop]. *)
Definition io_top (s : transport) : transport :=
  if tr_stopping s then set_io IoNone s
  else if wants_read s || wants_write s then set_io (IoParked (wants_read s) (wants_write s)) s else set_io IoNone s.

(** [_drain_step], with the answer of [send]; then the read step. *)
Definition drain_step (rd : bool) (r : sres) (s : transport) : transport :=
  let s1 := set_io (IoRecv rd) s in
  match r with
  | SBlock => s1
  | SErr e => if tr_drain s1 then teardown (Some e) (tr_close_cl s1) s1 else close (Some e) s1
  | SOk n =>
      if bool_decide (n = 0) then drain_rest s1
      else maybe_resume FDrain (set_buf (drop n (tr_buf s1)) (put_wire (take n (tr_buf s1)) s1))
  end.

(** [_recv_step], with the answer of [recv]. *)
Definition recv_step (r : tread) (s : transport) : transport :=
  match r with
  | RBlock => set_io IoReady s
  | RErr e => set_io IoDead (if tr_stopping s then s else close (Some e) s)
  | REof | RData [] => enter CEof FEof (set_io IoBusy s)
  | RData d => enter (CData d) FData (set_io IoBusy s)
  end.

(** What a callback returned: normally, [True], an exception, or a buffer, with the answer of [recv_into]. *)
Inductive ret := ROk | RTrue | RRaise (e : nat) | RFill (r : tread).

(** After a callback. *)
Definition return_to (f : frame) (r : ret) (s : transport) : transport :=
  match f with
  | FMade => match tr_io s with IoNone => set_io IoReady s | _ => s end
  | FPause => kick_io s
  | FLimits => maybe_resume FDone s
  | FDone => s
  | FDrain => drain_rest s
  | FBuf => match r with RFill a => recv_step a s | RRaise e => set_io IoDead (close (Some e) s) | _ => set_io IoDead (close (Some 0) s) end
  | FData => match r with RRaise e => set_io IoDead (close (Some e) s) | _ => set_io IoReady s end
  | FEof =>
      match r with
      | RTrue => set_io IoReady (set_read_eof s)
      | _ => let s1 := close None s in set_io (if tr_drain s1 then IoReady else IoDead) s1
      end
  | FLost => close_fd s
  end.

Inductive top := OpWrite (d : bytes) (r : sres) | OpWriteEof | OpClose | OpAbort | OpPause | OpResume | OpLimits (high low : option Z).

Definition run_top (o : top) (s : transport) : transport :=
  match o with
  | OpWrite d r => write d r s
  | OpWriteEof => write_eof s
  | OpClose => close None s
  | OpAbort => abort s
  | OpPause => pause_reading s
  | OpResume => resume_reading s
  | OpLimits h l => set_write_buffer_limits h l s
  end.

(** An operation, by a callback or by anyone; the return of the callback on top; the io fiber at the top of
    its loop, woken, woken by an error, at its write step, at its read step with
    either kind of protocol; the loop runs a delivery. *)
Inductive tev := TOp (o : top) | TReturn (r : ret) | TTop | TReady (r w : bool) | TFail | TDrain (r : sres) | TRecv (r : tread) | TGetBuf | TDeliver.

Definition free (s : transport) : bool := bool_decide (tr_frames s = []).

Definition texec (e : tev) (s : transport) : option transport :=
  match e with
  | TOp o => Some (run_top o s)
  | TReturn r => match tr_frames s with f :: l => Some (return_to f r (set_frames l s)) | [] => None end
  | TTop => match tr_io s with IoReady => if free s then Some (io_top s) else None | _ => None end
  | TReady r w =>
      match tr_io s with
      | IoParked r' w' =>
          if free s && (r || w) && implb r r' && implb w w' then Some (set_io (if tr_stopping s then IoDead else IoServe r w) s) else None
      | _ => None
      end
  | TFail =>
      match tr_io s with IoParked _ _ => if free s then Some (set_io (if tr_stopping s then IoDead else IoReady) s) else None | _ => None end
  | TDrain r =>
      match tr_io s with
      | IoServe rd w => if free s then Some (if w && wants_write s && negb (tr_stopping s) then drain_step rd r s else set_io (IoRecv rd) s) else None
      | _ => None
      end
  | TRecv r =>
      match tr_io s with
      | IoRecv rd =>
          if free s then
            Some (if rd && negb (tr_paused s) && negb (tr_read_eof s) && negb (tr_stopping s) then recv_step r s else set_io IoReady s)
          else None
      | _ => None
      end
  | TGetBuf =>
      match tr_io s with
      | IoRecv rd =>
          if free s then
            Some (if rd && negb (tr_paused s) && negb (tr_read_eof s) && negb (tr_stopping s) then enter CGetBuf FBuf (set_io IoBusy s) else set_io IoReady s)
          else None
      | _ => None
      end
  | TDeliver =>
      match tr_soon s with
      | (exc, cl) :: l => if free s then Some (if cl then enter (CLost exc) FLost (set_soon l s) else close_fd (set_soon l s)) else None
      | [] => None
      end
  end.

Definition tr_step (s s' : transport) : Prop := exists e, texec e s = Some s'.
Definition tr_reach : transport -> Prop := rtc tr_step tr_init.

(** ** The invariant *)

(** What holds also inside [close]: the closing flags, what the protocol saw, and the one delivery. *)
Record life0 (s : transport) : Prop := {
  li_called : tr_lost_called s = tr_closed s;
  li_stop : tr_stopping s = true -> tr_closed s = true;
  li_drain : tr_drain s = true -> tr_stopping s = false /\ tr_closed s = true /\ tr_close_cl s = true /\ tr_close_exc s = None;
  li_view : exists lost, view (tr_calls s) = Some (tr_prot_paused s, lost) /\
    length (tr_soon s) + Nat.b2n lost = Nat.b2n (tr_stopping s) /\
    (lost = true <-> tr_fd_open s = false \/ FLost ∈ tr_frames s) /\
    (FBuf ∈ tr_frames s -> lost = false) /\
    (forall exc, CLost exc ∈ tr_calls s -> lost = true);
  li_soon : Forall (λ x, x.2 = true) (tr_soon s)
}.
Definition life (s : transport) : Prop := life0 s /\ (tr_closed s = true -> tr_stopping s = false -> tr_drain s = true).

(** Bytes. *)
Record exact (s : transport) : Prop := {
  ex_bytes : tr_aborted s = false -> tr_accepted s = tr_wire s ++ tr_buf s;
  ex_aborted : tr_aborted s = true -> tr_wire s `prefix_of` tr_accepted s /\ tr_buf s = [] /\ tr_closed s = true;
  ex_eof : tr_eof_written s = true -> tr_buf s = [];
  ex_lost : (exists cl, (None, cl) ∈ tr_soon s) \/ CLost None ∈ tr_calls s -> tr_closed s = true /\ tr_buf s = []
}.

(** Watermarks. *)
Definition flow (s : transport) : Prop :=
  (0 <= tr_low s <= tr_high s)%Z /\ (tr_aborted s = false ->
    if tr_prot_paused s then (tr_low s < Z.of_nat (length (tr_buf s)))%Z else (Z.of_nat (length (tr_buf s)) <= tr_high s)%Z).

(** The io fiber is there, or will be kicked, when the transport wants it. *)
Record armed (s : transport) : Prop := {
  ar_none : tr_io s = IoNone -> tr_stopping s = true \/ FMade ∈ tr_frames s \/ (wants_read s = false /\ (wants_write s = true -> FPause ∈ tr_frames s));
  ar_parked r w : tr_io s = IoParked r w -> tr_stopping s = false /\ (wants_read s = true -> r = true) /\ (wants_write s = true -> w = true \/ FPause ∈ tr_frames s);
  ar_dead : tr_io s = IoDead -> tr_stopping s = true;
  ar_busy : tr_io s = IoBusy -> FBuf ∈ tr_frames s \/ FData ∈ tr_frames s \/ FEof ∈ tr_frames s
}.

(** *** Closing and callbacks *)

Lemma wake_io_eq s : exists i, wake_io s = set_io i s.
Proof. destruct s, tr_io0; eexists; reflexivity. Qed.
Lemma kick_io_eq s : exists i, kick_io s = set_io i s.
Proof. unfold kick_io. destruct (tr_stopping s) eqn:E; [exists (tr_io s); by destruct s|]. destruct (wake_io_eq s) as [i Hi]. destruct (tr_io s) eqn:E'; eauto. Qed.

Lemma life_io i s : life s -> life (set_io i s).
Proof. intros [[] ?]. split; [by constructor|done]. Qed.
Lemma life_kick s : life s -> life (kick_io s).
Proof. destruct (kick_io_eq s) as [i ->]. apply life_io. Qed.

Lemma life_enter c f s p : life s -> f ≠ FLost -> (forall exc, c ≠ CLost exc) -> (f = FBuf -> tr_stopping s = false) ->
  (forall lost, view (tr_calls s) = Some (tr_prot_paused s, lost) -> (lost = true -> tr_stopping s = true) -> see (Some (tr_prot_paused s, lost)) c = Some (p, lost)) ->
  life (enter c f (set_prot_paused p s)).
Proof.
  intros [[A B C (lost & V1 & V2 & V3 & V5 & V4) F] D] Hf Hc Hb Hs. split; [|done]. assert (Hl : lost = true -> tr_stopping s = true) by (intros ->; destruct (tr_stopping s); [done|simpl in V2; lia]).
  constructor; simpl; try done. exists lost. rewrite view_snoc, V1, Hs by done.
  split_and!; [done|done|rewrite V3, elem_of_cons; naive_solver| |].
  - intros [<-|?]%elem_of_cons; [|auto]. destruct lost; [|done]. by rewrite Hb in Hl by done; specialize (Hl eq_refl).
  - intros exc [?|Hx%list_elem_of_singleton]%elem_of_app; [eauto|]. by destruct (Hc exc).
Qed.

(** The teardown, of a transport that is closed. *)
Lemma life_teardown exc cl s : life0 s -> tr_stopping s = false -> tr_closed s = true -> cl = true -> life (teardown exc cl s).
Proof.
  intros [A B C (lost & V1 & V2 & V3 & V5 & V4) F] S1 S2 ->. unfold teardown. destruct (wake_io_eq (set_stopping s)) as [i ->].
  rewrite S1 in V2. split; [|done]. constructor; simpl; try done.
  - exists lost. rewrite length_app. simpl in *. split_and!; try done. lia.
  - apply Forall_app. split; [done|]. by constructor.
Qed.

Lemma life_close exc s : life s -> life (close exc s).
Proof.
  intros L. unfold close. destruct (tr_closed s) eqn:E; [done|]. destruct L as [[A B C V F] D]. rewrite A, E. simpl.
  assert (S : tr_stopping s = false) by (destruct (tr_stopping s); [by rewrite B in E|done]).
  assert (H : life0 (set_closed s)) by (constructor; simpl; try done; intros H; destruct (C H) as (?&?&?); congruence).
  case_bool_decide; [|by apply life_teardown]. apply life_kick. destruct H. split; [|done]. by constructor.
Qed.

Lemma life_drain_rest s : life s -> life (drain_rest s).
Proof.
  intros L. unfold drain_rest. case_bool_decide; [|done].
  assert (L' : forall b, life (if b : bool then set_eof true false s else s)) by (intros []; [destruct L as [[] ?]; split; [by constructor|done]|done]).
  specialize (L' (tr_eof_pending s && negb (tr_eof_written s) && negb (tr_closed s))). revert L'.
  generalize (if tr_eof_pending s && negb (tr_eof_written s) && negb (tr_closed s) then set_eof true false s else s). intros s1 L1.
  destruct (tr_drain s1) eqn:E; [|done]. destruct L1 as [L0 D]. destruct (li_drain _ L0 E) as (E1 & E2 & E3 & E4). rewrite E1. by apply life_teardown.
Qed.

Lemma life_resume k s : life s -> k ≠ FLost /\ k ≠ FBuf -> life (maybe_resume k s).
Proof.
  intros L [Hk Hk']. unfold maybe_resume. destruct (tr_prot_paused s) eqn:E; simpl.
  - destruct (_ <=? _)%Z; [|destruct k; by try apply life_drain_rest]. apply life_enter; try done. intros lost _ _. by rewrite E.
  - destruct k; by try apply life_drain_rest.
Qed.

Lemma life_pause k s : life s -> k ≠ FLost /\ k ≠ FBuf -> life (maybe_pause k s).
Proof.
  intros L [Hk Hk']. unfold maybe_pause. destruct (tr_prot_paused s) eqn:E; simpl.
  - destruct k; first [by apply life_kick|by apply life_resume].
  - destruct (_ <? _)%Z; [apply life_enter; try done; intros lost _ _; by rewrite E|]. destruct k; first [by apply life_kick|by apply life_resume].
Qed.

(** Changes of the buffer, of the bytes sent and of the flags of the two directions. *)
Inductive aside (s : transport) : transport -> Prop :=
  | as_refl : aside s s
  | as_buf b s' : aside s s' -> aside s (set_buf b s')
  | as_wire d s' : aside s s' -> aside s (put_wire d s')
  | as_accept d s' : aside s s' -> aside s (accept d s')
  | as_drop s' : aside s s' -> aside s (drop_buf s')
  | as_eof w p s' : aside s s' -> aside s (set_eof w p s')
  | as_paused b s' : aside s s' -> aside s (set_paused b s')
  | as_reof s' : aside s s' -> aside s (set_read_eof s')
  | as_limits h l s' : aside s s' -> aside s (set_limits h l s').
#[local] Hint Constructors aside : sw.

Lemma life_aside s s' : aside s s' -> life s -> life s'.
Proof. induction 1; intros L; try done; destruct (IHaside L) as [[] ?]; (split; [by constructor|done]). Qed.

Lemma life_op o s : life s -> life (run_top o s).
Proof.
  intros L. assert (A : forall s', aside s s' -> life s') by (intros; by eapply life_aside).
  destruct o; simpl.
  - unfold write, queue. destruct (_ || _); [done|]. case_bool_decide; [|by apply life_pause; auto with sw].
    destruct r; [|by apply life_pause; auto with sw|by apply life_close]. destruct (_ <=? _); [by auto with sw|by apply life_pause; auto 6 with sw].
  - unfold write_eof. destruct (_ || _); [done|]. case_bool_decide; auto with sw.
  - by apply life_close.
  - unfold abort. destruct (tr_closed s) eqn:E1; simpl; [|apply life_close; auto with sw].
    destruct (tr_stopping s) eqn:E2; [auto with sw|]. destruct L as [L0 D]. destruct (li_drain _ L0 (D E1 E2)) as (_ & _ & E3 & _).
    apply life_teardown; try done. assert (H : life (drop_buf s)) by (by apply (life_aside s); [auto with sw|split]). apply H.
  - unfold pause_reading. auto with sw.
  - unfold resume_reading. destruct (tr_paused s); [|done]. apply life_kick. auto with sw.
  - unfold set_write_buffer_limits. case_bool_decide; [|done]. apply life_pause; auto with sw.
Qed.

Lemma life_pop f l s : life s -> tr_frames s = f :: l -> f ≠ FLost -> life (set_frames l s).
Proof.
  intros [[A B C (lost & V1 & V2 & V3 & V5 & V4) F] D] E Hf. split; [|done]. constructor; simpl; try done. exists lost. split_and!; try done.
  - rewrite V3, E, elem_of_cons. naive_solver.
  - intros H. apply V5. rewrite E. set_solver.
Qed.

(** The connection is not lost while the transport runs. *)
Lemma life_not_lost s : life s -> tr_stopping s = false -> view (tr_calls s) = Some (tr_prot_paused s, false).
Proof.
  intros [[A B C (lost & V1 & V2 & _) F] D] Hs. rewrite Hs in V2. destruct lost; [simpl in V2; lia|done].
Qed.

Lemma life_peer c f i s : life s -> view (tr_calls s) = Some (tr_prot_paused s, false) -> f ≠ FLost -> (f = FBuf -> tr_stopping s = false) ->
  see (Some (tr_prot_paused s, false)) c = Some (tr_prot_paused s, false) -> (forall exc, c ≠ CLost exc) -> life (enter c f (set_io i s)).
Proof.
  intros L V Hf Hb Hs Hc. apply (life_enter c f (set_io i s) (tr_prot_paused s)); try done; [by apply life_io|]. intros lost V' _.
  change (view (tr_calls s) = Some (tr_prot_paused s, lost)) in V'. rewrite V in V'. by injection V' as <-.
Qed.

Lemma life_recv r s : life s -> view (tr_calls s) = Some (tr_prot_paused s, false) -> life (recv_step r s).
Proof.
  intros L V. unfold recv_step. destruct r as [[|b d]| | |]; try by apply life_io; try by apply life_peer.
  - by apply life_peer.
  - by apply life_peer.
  - by apply life_peer.
  - apply life_io. destruct (tr_stopping s); [done|by apply life_close].
Qed.

Lemma life_return f r l s : life s -> tr_frames s = f :: l -> life (return_to f r (set_frames l s)).
Proof.
  intros L E. destruct (decide (f = FLost)) as [->|Hf].
  - destruct L as [[A B C (lost & V1 & V2 & V3 & V5 & V4) F] D]. split; [|done]. constructor; simpl; try done. exists lost. split_and!; try done.
    + assert (lost = true) by (apply V3; rewrite E; set_solver). naive_solver.
    + intros H. apply V5. rewrite E. set_solver.
  - assert (V : f = FBuf -> view (tr_calls s) = Some (tr_prot_paused s, false)).
    { intros ->. destruct (li_view _ (proj1 L)) as (lost & V1 & V2 & V3 & V5 & V4). rewrite V5 in V1; [done|]. rewrite E. set_solver. }
    change (f = FBuf -> view (tr_calls (set_frames l s)) = Some (tr_prot_paused (set_frames l s), false)) in V.
    apply (life_pop f l) in L; [|done|done]. revert L V. generalize (set_frames l s). intros s1 L V. destruct f; simpl; try done.
    + destruct (tr_io s1); by try apply life_io.
    + by apply life_kick.
    + by apply life_resume.
    + by apply life_drain_rest.
    + destruct r; [by apply life_io, life_close..|]. by apply life_recv, V.
    + destruct r; apply life_io; try done. by apply life_close.
    + destruct r; apply life_io; by try apply life_close; eapply life_aside; [constructor; constructor|].
Qed.

(** The step relation, unfolded. *)
Lemma texec_cases (P : transport -> Prop) s e s' : texec e s = Some s' ->
  (forall o, e = TOp o -> P (run_top o s)) ->
  (forall r f l, e = TReturn r -> tr_frames s = f :: l -> P (return_to f r (set_frames l s))) ->
  (e = TTop -> tr_io s = IoReady -> tr_frames s = [] -> P (io_top s)) ->
  (forall r w r' w', e = TReady r w \/ e = TFail -> tr_io s = IoParked r' w' -> tr_frames s = [] -> tr_stopping s = true -> P (set_io IoDead s)) ->
  (forall r w r' w', e = TReady r w -> tr_io s = IoParked r' w' -> tr_frames s = [] -> tr_stopping s = false -> P (set_io (IoServe r w) s)) ->
  (forall r w, e = TFail -> tr_io s = IoParked r w -> tr_frames s = [] -> tr_stopping s = false -> P (set_io IoReady s)) ->
  (forall r rd w, e = TDrain r -> tr_io s = IoServe rd w -> tr_frames s = [] -> P (set_io (IoRecv rd) s)) ->
  (forall r rd w, e = TDrain r -> tr_io s = IoServe rd w -> tr_frames s = [] -> tr_buf s ≠ [] -> tr_stopping s = false -> P (drain_step rd r s)) ->
  (forall r rd, e = TRecv r \/ e = TGetBuf -> tr_io s = IoRecv rd -> tr_frames s = [] -> P (set_io IoReady s)) ->
  (forall r rd, e = TRecv r -> tr_io s = IoRecv rd -> tr_frames s = [] -> tr_stopping s = false -> P (recv_step r s)) ->
  (forall rd, e = TGetBuf -> tr_io s = IoRecv rd -> tr_frames s = [] -> tr_stopping s = false -> P (enter CGetBuf FBuf (set_io IoBusy s))) ->
  (forall exc cl l, e = TDeliver -> tr_soon s = (exc, cl) :: l -> tr_frames s = [] -> P (if cl then enter (CLost exc) FLost (set_soon l s) else close_fd (set_soon l s))) ->
  P s'.
Proof.
  intros He H1 H2 H3 H4 H5 H6 H7 H8 H9 H10 H12 H11. destruct e as [o|r| |r w| |r|r| |]; simpl in He.
  - simplify_eq. by apply H1.
  - destruct (tr_frames s) eqn:E; simplify_eq. by eapply H2.
  - destruct (tr_io s) eqn:E; try done. unfold free in He. case_bool_decide; simplify_eq. by apply H3.
  - destruct (tr_io s) as [| |r' w'| | | |] eqn:E; try done. unfold free in He. case_bool_decide; simpl in He; [|done].
    destruct ((r || w) && _ && _); simplify_eq. destruct (tr_stopping s) eqn:S; [eapply H4|eapply H5]; eauto.
  - destruct (tr_io s) as [| |r' w'| | | |] eqn:E; try done. unfold free in He. case_bool_decide; simplify_eq.
    destruct (tr_stopping s) eqn:S; [eapply (H4 true true)|eapply H6]; eauto.
  - destruct (tr_io s) as [| | |rd w| | |] eqn:E; try done. unfold free in He. case_bool_decide; simplify_eq.
    unfold wants_write. destruct w; simpl; [|by eapply H7]. case_bool_decide; simpl; [|by eapply H7]. destruct (tr_stopping s) eqn:S; simpl; [by eapply H7|by eapply H8].
  - destruct (tr_io s) as [| | | |rd| |] eqn:E; try done. unfold free in He. case_bool_decide; simplify_eq.
    destruct (rd && _ && _), (tr_stopping s) eqn:S; simpl; first [eapply H9; by eauto|by eapply H10].
  - destruct (tr_io s) as [| | | |rd| |] eqn:E; try done. unfold free in He. case_bool_decide; simplify_eq.
    destruct (rd && _ && _), (tr_stopping s) eqn:S; simpl; first [eapply (H9 RBlock); by eauto|by eapply H12].
  - destruct (tr_soon s) as [|[exc cl] l] eqn:E; [done|]. unfold free in He. case_bool_decide; simplify_eq. by eapply (H11 exc cl l).
Qed.

Lemma life_step s s' : life s -> tr_step s s' -> life s'.
Proof.
  intros L [e He]. apply (texec_cases life s e s' He); clear He; intros; try by apply life_io.
  - by apply life_op.
  - by apply life_return.
  - unfold io_top. repeat case_match; by apply life_io.
  - unfold drain_step. apply (life_io (IoRecv rd)) in L. revert L. generalize (set_io (IoRecv rd) s). intros s1 L. destruct r as [n| |e'].
    + case_bool_decide; [by apply life_drain_rest|]. apply life_resume; [|done]. eapply life_aside; [|exact L]. auto with sw.
    + done.
    + destruct (tr_drain s1) eqn:E2; [|by apply life_close]. destruct L as [L0 D]. destruct (li_drain _ L0 E2) as (?&?&?&?). by apply life_teardown.
  - by apply life_recv, life_not_lost.
  - apply life_peer; try done. by apply life_not_lost.
  - destruct L as [[A B C (lost & V1 & V2 & V3 & V5 & V4) F] D]. rewrite H0 in F, V2. apply Forall_cons in F as [Hc F]. simpl in Hc. rewrite Hc. simpl in V2.
    destruct lost; [destruct (tr_stopping s); simpl in V2; lia|]. split; [|done]. constructor; simpl; try done. exists true. rewrite view_snoc, V1. split_and!; try done.
    + simpl. destruct (tr_stopping s); simpl in *; lia.
    + split; [|done]. intros _. right. set_solver.
    + rewrite H1. set_solver.
Qed.

Lemma life_init : life tr_init.
Proof. split; [|done]. constructor; simpl; try done. exists false. split_and!; try done; [split; [done|]; intros [?|?]; [done|set_solver]|intros exc ?; set_solver]. Qed.

Lemma life_reach s : tr_reach s -> life s.
Proof. revert s. apply (rtc_ind_r (R := tr_step) life tr_init); [apply life_init|]. intros. by eapply life_step. Qed.

(** *** Bytes *)

Lemma exact_io i s : exact s -> exact (set_io i s).
Proof. intros []. by constructor. Qed.
Lemma exact_kick s : exact s -> exact (kick_io s).
Proof. destruct (kick_io_eq s) as [i ->]. apply exact_io. Qed.

Lemma exact_enter c f s p : exact s -> (c = CLost None -> tr_closed s = true /\ tr_buf s = []) -> exact (enter c f (set_prot_paused p s)).
Proof.
  intros [A B C D] Hc. constructor; simpl; try done. intros [H|[H|H%list_elem_of_singleton]%elem_of_app]; auto.
Qed.

Lemma exact_teardown exc cl s : exact s -> (exc = None -> tr_buf s = []) -> tr_closed s = true -> exact (teardown exc cl s).
Proof.
  intros [A B C D] H1 H2. unfold teardown. destruct (wake_io_eq (set_stopping s)) as [i ->]. constructor; simpl; try done.
  intros [[c [H|H%list_elem_of_singleton]%elem_of_app]|H]; simplify_eq; eauto.
Qed.

Lemma exact_close exc s : exact s -> exact (close exc s).
Proof.
  intros E. unfold close. destruct (tr_closed s) eqn:Hc; [done|].
  assert (E1 : exact (set_closed s)) by (destruct E as [A B C D]; constructor; simpl; try done; naive_solver).
  case_bool_decide as H; [|apply exact_teardown; simpl; try done; destruct (decide (tr_buf s = [])); naive_solver].
  apply exact_kick. destruct E1. by constructor.
Qed.

Lemma exact_drain_rest s : exact s -> life s -> exact (drain_rest s).
Proof.
  intros E [L0 D]. unfold drain_rest. case_bool_decide as H; [|done].
  assert (E' : forall b : bool, exact (if b then set_eof true false s else s)) by (intros []; [destruct E; by constructor|done]).
  set (b := tr_eof_pending s && _ && _). specialize (E' b).
  assert (Q : forall P : transport -> bool, (forall w p, P (set_eof w p s) = P s) -> P (if b then set_eof true false s else s) = P s) by (intros P HP; by destruct b).
  destruct (tr_drain (if b then _ else _) && negb _) eqn:F; [|done]. apply andb_prop in F as [F _]. rewrite (Q tr_drain) in F by done.
  destruct (li_drain _ L0 F) as (_ & Hc & _). apply exact_teardown; [done| |rewrite (Q tr_closed); done]. by destruct b.
Qed.

Lemma exact_resume k s : exact s -> life s -> exact (maybe_resume k s).
Proof.
  intros E L. unfold maybe_resume. destruct (_ && _); [by apply exact_enter|]. destruct k; try done. by apply exact_drain_rest.
Qed.
Lemma exact_pause k s : exact s -> life s -> exact (maybe_pause k s).
Proof.
  intros E L. unfold maybe_pause. destruct (_ && _); [by apply exact_enter|]. destruct k; first [by apply exact_kick|by apply exact_resume].
Qed.

(** Bytes that are accepted, from any start of them that the kernel took. *)
Lemma exact_accept d w s : exact s -> tr_closed s = false -> tr_eof_written s = false -> w `prefix_of` d -> (tr_buf s ≠ [] -> w = []) ->
  exact (set_buf (tr_buf s ++ drop (length w) d) (put_wire w (accept d s))).
Proof.
  intros [A B C D] Hc He [k ->] Hw. rewrite drop_app_length. constructor; simpl.
  - intros Ha. rewrite (A Ha). destruct (tr_buf s); [by rewrite !app_nil_r, <-app_assoc|]. rewrite Hw by done. simpl. by rewrite app_nil_r, <-!app_assoc.
  - intros Ha. destruct (B Ha) as (_ & _ & ?). congruence.
  - congruence.
  - intros H. destruct (D H). congruence.
Qed.

Lemma write_queue d w s : exact s -> life s -> tr_closed s = false -> tr_eof_written s = false -> w `prefix_of` d -> (tr_buf s ≠ [] -> w = []) ->
  exact (queue (drop (length w) d) (put_wire w (accept d s))).
Proof.
  intros E L Hc He Hw Hb. unfold queue. apply exact_pause; [exact (exact_accept d w s E Hc He Hw Hb)|]. apply (life_aside s); auto 6 with sw.
Qed.

Lemma exact_op o s : exact s -> life s -> exact (run_top o s).
Proof.
  intros E L. destruct o as [d r| | | | | |h l]; simpl.
  - unfold write. destruct (tr_eof_written s) eqn:He; [done|]. destruct (tr_eof_pending s); [done|]. destruct (tr_closed s) eqn:Hc; [done|]. simpl.
    case_bool_decide; [done|]. assert (Q : exact (queue d (accept d s))).
    { pose proof (write_queue d [] s E L Hc He) as Q. simpl in Q. assert (put_wire [] (accept d s) = accept d s) as Hp by (unfold put_wire; simpl; rewrite app_nil_r; done).
      rewrite Hp in Q. apply Q; [apply prefix_nil|done]. }
    case_bool_decide as Hb; [|done]. destruct r as [n| |e]; [|done|by apply exact_close].
    assert (Hw : take n d `prefix_of` d) by (exists (drop n d); by rewrite take_drop). assert (Hb' : tr_buf s ≠ [] -> take n d = []) by congruence.
    destruct (Nat.leb_spec (length d) n) as [Hn|Hn].
    + pose proof (exact_accept d (take n d) s E Hc He Hw Hb') as X. rewrite take_ge, drop_all, app_nil_r in X by done. destruct X as [X1 X2 X3 X4]. by constructor.
    + pose proof (write_queue d (take n d) s E L Hc He Hw Hb') as X. by rewrite length_take_le in X by lia.
  - unfold write_eof. destruct (_ || _); [done|]. case_bool_decide; [|destruct E; by constructor]. destruct E; by constructor.
  - by apply exact_close.
  - unfold abort. destruct E as [A B C D]. assert (X : tr_closed s = true -> exact (drop_buf s)).
    { intros Hc. constructor; simpl; try done. intros _. split; [|done]. destruct (tr_aborted s) eqn:Ha; [by apply B|]. rewrite A by done. by eexists. }
    destruct (tr_closed s) eqn:Hc; simpl.
    + destruct (tr_stopping s); [auto|]. apply exact_teardown; auto.
    + unfold close. simpl. rewrite Hc.
      assert (Y : exact (set_closed (drop_buf s))); [|by apply exact_teardown].
      constructor; simpl; try done. intros _. split; [|done]. destruct (tr_aborted s) eqn:Ha; [by apply B|]. rewrite A by done. by eexists.
  - destruct E; by constructor.
  - unfold resume_reading. destruct (tr_paused s); [|done]. apply exact_kick. destruct E; by constructor.
  - unfold set_write_buffer_limits. case_bool_decide; [|done]. apply exact_pause; [destruct E; by constructor|]. apply (life_aside s); auto with sw.
Qed.

(** Changes that leave the bytes alone. *)
Lemma exact_frames l s : exact s -> exact (set_frames l s).
Proof. intros []. by constructor. Qed.
Lemma exact_enter_io c f i s : exact s -> (forall exc, c ≠ CLost exc) -> exact (enter c f (set_io i s)).
Proof.
  intros E Hc. apply (exact_enter c f (set_io i s) (tr_prot_paused s)); [by apply exact_io|]. intros ->. by destruct (Hc None).
Qed.

Lemma exact_recv r s : exact s -> exact (recv_step r s).
Proof.
  intros E. unfold recv_step. destruct r as [[|b d]| | |]; try by apply exact_enter_io.
  - by apply exact_io.
  - apply exact_io. destruct (tr_stopping s); [done|by apply exact_close].
Qed.

Lemma exact_return f r s : exact s -> life s \/ f = FLost -> exact (return_to f r s).
Proof.
  intros E [L| ->]; [|destruct E; by constructor]. destruct f; simpl; try done.
  - destruct (tr_io s); by try apply exact_io.
  - by apply exact_kick.
  - by apply exact_resume.
  - by apply exact_drain_rest.
  - destruct r; [by apply exact_io, exact_close..|by apply exact_recv].
  - destruct r; apply exact_io; try done. by apply exact_close.
  - destruct r; apply exact_io; try by apply exact_close. destruct E; by constructor.
  - destruct E; by constructor.
Qed.

Lemma exact_step s s' : exact s -> life s -> tr_step s s' -> exact s'.
Proof.
  intros E L [e He]. apply (texec_cases exact s e s' He); clear He; intros; try by apply exact_io.
  - by apply exact_op.
  - apply exact_return; [by apply exact_frames|]. destruct (decide (f = FLost)); [by right|left]. by eapply life_pop.
  - unfold io_top. repeat case_match; by apply exact_io.
  - unfold drain_step. apply (exact_io (IoRecv rd)) in E. apply (life_io (IoRecv rd)) in L. revert E L. generalize (set_io (IoRecv rd) s). intros s1 E L. destruct r as [n| |e'].
    + case_bool_decide; [by apply exact_drain_rest|]. apply exact_resume; [|apply (life_aside s1); auto with sw].
      destruct E as [A B C D]. constructor; simpl.
      * intros Ha. by rewrite <-app_assoc, take_drop, A.
      * intros Ha. destruct (B Ha) as (? & -> & ?). rewrite take_nil, drop_nil, app_nil_r. done.
      * intros Hw. by rewrite C, drop_nil.
      * intros Hl. destruct (D Hl) as [? ->]. by rewrite drop_nil.
    + done.
    + destruct (tr_drain s1) eqn:Hd; [|by apply exact_close]. destruct (li_drain _ (proj1 L) Hd) as (?&?&?). by apply exact_teardown.
  - by apply exact_recv.
  - by apply exact_enter_io.
  - assert (E1 : exact (set_soon l s)).
    { destruct E as [A B C D]. constructor; simpl; try done. intros H2. apply D. destruct H2 as [[c H2]|H2]; [|by right]. left. exists c. rewrite H0. set_solver. }
    destruct cl; [|destruct E1; by constructor]. apply (exact_enter (CLost exc) FLost (set_soon l s) (tr_prot_paused s)); [done|]. intros [= ->].
    apply (ex_lost _ E). left. exists true. rewrite H0. set_solver.
Qed.

Lemma exact_reach s : tr_reach s -> exact s.
Proof.
  intros R. cut (exact s /\ life s); [by intros []|]. revert s R. apply (rtc_ind_r (R := tr_step) (λ s, exact s /\ life s) tr_init).
  - split; [|apply life_init]. constructor; simpl; try done. intros [[? H]|H]; set_solver.
  - intros s1 s2 _ Hs [E L]. split; [by eapply exact_step|by eapply life_step].
Qed.

(** *** Watermarks *)

(** What [flow] depends on. *)
Definition levels (s : transport) := (tr_low s, tr_high s, tr_aborted s, tr_prot_paused s, tr_buf s).

Lemma flow_levels s s' : levels s' = levels s -> flow s -> flow s'.
Proof. unfold levels. intros [= E1 E2 E3 E4 E5]. unfold flow. by rewrite E1, E2, E3, E4, E5. Qed.

Lemma levels_kick s : levels (kick_io s) = levels s.
Proof. by destruct (kick_io_eq s) as [i ->]. Qed.
Lemma levels_teardown exc cl s : levels (teardown exc cl s) = levels s.
Proof. unfold teardown. by destruct (wake_io_eq (set_stopping s)) as [i ->]. Qed.
Lemma levels_close exc s : levels (close exc s) = levels s.
Proof. unfold close. destruct (tr_closed s); [done|]. case_bool_decide; [by rewrite levels_kick|by rewrite levels_teardown]. Qed.
Lemma levels_drain_rest s : levels (drain_rest s) = levels s.
Proof.
  unfold drain_rest. case_bool_decide; [|done]. destruct (_ && _ && negb (tr_closed s)); simpl; destruct (_ && _); by rewrite ?levels_teardown.
Qed.

Lemma flow_resume k s : (0 <= tr_low s <= tr_high s)%Z -> (tr_aborted s = false -> tr_prot_paused s = false -> (Z.of_nat (length (tr_buf s)) <= tr_high s)%Z) -> flow (maybe_resume k s).
Proof.
  intros Hl Hp. unfold maybe_resume. destruct (tr_prot_paused s) eqn:P; simpl.
  - destruct (Z.leb_spec (Z.of_nat (length (tr_buf s))) (tr_low s)) as [Hle|Hgt].
    + split; [done|]. simpl. intros _. lia.
    + assert (F : flow s) by (split; [done|intros _; rewrite P; lia]). destruct k; try done. eapply flow_levels; [apply levels_drain_rest|done].
  - assert (F : flow s) by (split; [done|intros Ha; rewrite P; auto]). destruct k; try done. eapply flow_levels; [apply levels_drain_rest|done].
Qed.

Lemma flow_pause k s : (0 <= tr_low s <= tr_high s)%Z -> (k = FPause -> tr_aborted s = false -> tr_prot_paused s = true -> (tr_low s < Z.of_nat (length (tr_buf s)))%Z) -> flow (maybe_pause k s).
Proof.
  intros Hl Hp. unfold maybe_pause. destruct (negb (tr_prot_paused s) && _) eqn:Q.
  - apply andb_prop in Q as [_ Q]. apply Z.ltb_lt in Q. split; [done|]. simpl. lia.
  - assert (Hh : tr_prot_paused s = false -> (Z.of_nat (length (tr_buf s)) <= tr_high s)%Z).
    { intros P. rewrite P in Q. simpl in Q. by apply Z.ltb_ge in Q. }
    destruct k; try (apply flow_resume; auto). eapply flow_levels; [apply levels_kick|]. split; [done|]. intros Ha. destruct (tr_prot_paused s) eqn:P; auto.
Qed.

Lemma flow_queue d s : flow s -> flow (queue d s).
Proof.
  intros [Hl F]. unfold queue. apply flow_pause; [done|]. simpl. intros _ Ha Hp. specialize (F Ha). rewrite Hp in F. rewrite length_app. lia.
Qed.

Lemma flow_op o s : flow s -> flow (run_top o s).
Proof.
  intros F. destruct o as [d r| | | | | |h l]; simpl; try done.
  - unfold write. destruct (_ || _); [done|]. assert (Q : flow (queue d (accept d s))) by (by apply flow_queue).
    case_bool_decide; [|done]. destruct r; [|done|eapply flow_levels; [apply levels_close|done]]. destruct (_ <=? _); [done|]. by apply flow_queue.
  - unfold write_eof. destruct (_ || _); [done|]. by case_bool_decide.
  - eapply flow_levels; [apply levels_close|done].
  - unfold abort. assert (X : flow (drop_buf s)) by (destruct F; split; done).
    destruct (tr_closed s); simpl; [destruct (tr_stopping s); [done|]|]; (eapply flow_levels; [first [apply levels_teardown|apply levels_close]|done]).
  - unfold resume_reading. destruct (tr_paused s); [|done]. eapply flow_levels; [apply levels_kick|done].
  - unfold set_write_buffer_limits. case_bool_decide as H; [|done]. apply flow_pause; [simpl; lia|done].
Qed.

Lemma flow_recv r s : flow s -> flow (recv_step r s).
Proof.
  intros F. unfold recv_step. destruct r as [[|b d]| | |e]; try done. destruct (tr_stopping s); [done|].
  eapply (flow_levels (close (Some e) s)); [done|]. eapply flow_levels; [apply levels_close|done].
Qed.

Lemma flow_step s s' : flow s -> tr_step s s' -> flow s'.
Proof.
  intros F [e He]. apply (texec_cases flow s e s' He); clear He; intros; try done.
  - by apply flow_op.
  - assert (F1 : flow (set_frames l s)) by done. revert F1. generalize (set_frames l s). intros s1 F1. destruct f; simpl; try done.
    + by destruct (tr_io s1).
    + eapply flow_levels; [apply levels_kick|done].
    + destruct F1 as [Hl F1]. apply flow_resume; [done|]. intros Ha Hp. specialize (F1 Ha). by rewrite Hp in F1.
    + eapply flow_levels; [apply levels_drain_rest|done].
    + destruct r as [| |e0|]; [..|by apply flow_recv]; (eapply (flow_levels (close (Some _) s1)); [done|]; eapply flow_levels; [apply levels_close|done]).
    + destruct r; try done. eapply (flow_levels (close (Some e0) s1)); [done|]. eapply flow_levels; [apply levels_close|done].
    + destruct r; try done; (eapply (flow_levels (close None s1)); [done|]; eapply flow_levels; [apply levels_close|done]).
  - unfold io_top. by repeat case_match.
  - unfold drain_step. assert (F1 : flow (set_io (IoRecv rd) s)) by done. revert F1. generalize (set_io (IoRecv rd) s). intros s1 F1. destruct r as [n| |e'].
    + case_bool_decide; [eapply flow_levels; [apply levels_drain_rest|done]|]. destruct F1 as [Hl F1]. apply flow_resume; [done|]. simpl. intros Ha Hp. specialize (F1 Ha).
      rewrite Hp in F1. rewrite length_drop. lia.
    + done.
    + destruct (tr_drain s1); (eapply flow_levels; [first [apply levels_teardown|apply levels_close]|done]).
  - by apply flow_recv.
  - by destruct cl.
Qed.

Lemma flow_reach s : tr_reach s -> flow s.
Proof. revert s. apply (rtc_ind_r (R := tr_step) flow tr_init); [split; simpl; lia|]. intros. by eapply flow_step. Qed.

(** *** The io fiber *)

(** The events after which the fiber can be gone before it drained the buffer are left out: [data_received],
    [get_buffer] or [buffer_updated] raises, or [recv] or [recv_into] fails, after a [close] that waits for the
    buffer.  At any other time they are [tame]. *)
Definition tame (e : tev) (s : transport) : Prop :=
  match e with
  | TReturn r =>
      match hd_error (tr_frames s), r with
      | Some FData, RRaise _ | Some FBuf, (ROk | RTrue | RRaise _ | RFill (RErr _)) => tr_drain s = false
      | _, _ => True
      end
  | TRecv (RErr _) => tr_drain s = false
  | _ => True
  end.
Definition tame_step (s s' : transport) : Prop := exists e, tame e s /\ texec e s = Some s'.

(** Less interest, more frames. *)
Lemma armed_less s s' : armed s -> tr_io s' = tr_io s -> tr_stopping s' = tr_stopping s -> (forall f, f ∈ tr_frames s -> f ∈ tr_frames s') ->
  (wants_read s' = true -> wants_read s = true) -> (wants_write s' = true -> wants_write s = true \/ FPause ∈ tr_frames s') -> armed s'.
Proof.
  intros [A B C D] Ei Es Hf Hr Hw. constructor; rewrite ?Ei, ?Es.
  - intros H. destruct (A H) as [?|[?|[H1 H2]]]; [by left|by auto|]. right. right. split.
    + destruct (wants_read s') eqn:E; [|done]. by rewrite Hr in H1.
    + intros W. destruct (Hw W); auto.
  - intros r w H. destruct (B r w H) as (B1 & B2 & B3). split_and!; [done|auto|]. intros W. destruct (Hw W) as [W'|]; [|by right]. destruct (B3 W'); auto.
  - done.
  - intros H. destruct (D H) as [?|[?|?]]; auto.
Qed.

Lemma armed_busy i s : i ≠ IoNone -> (forall r w, i ≠ IoParked r w) -> i ≠ IoDead -> (i = IoBusy -> FBuf ∈ tr_frames s \/ FData ∈ tr_frames s \/ FEof ∈ tr_frames s) -> armed (set_io i s).
Proof. intros H1 H2 H3 H4. constructor; simpl; try done. intros r w H. by destruct (H2 r w). Qed.

(** What every change of the transport but that of the fiber must leave. *)
Definition manned (s : transport) : Prop := (tr_io s = IoDead -> tr_stopping s = true) /\ (tr_io s = IoBusy -> FBuf ∈ tr_frames s \/ FData ∈ tr_frames s \/ FEof ∈ tr_frames s).
Lemma armed_manned s : armed s -> manned s.
Proof. by intros []. Qed.

Lemma armed_kick s : manned s -> (forall r w, tr_io s = IoParked r w -> tr_stopping s = false) -> armed (kick_io s).
Proof.
  intros [C D] B. unfold kick_io, wake_io. destruct (tr_stopping s) eqn:S.
  - constructor; try done; [auto|]. intros r w H. specialize (B r w H). congruence.
  - destruct (tr_io s) eqn:E; try (by apply armed_busy); constructor; rewrite ?E; naive_solver.
Qed.

Lemma armed_teardown exc cl s : manned s -> armed (teardown exc cl s).
Proof.
  intros [C D]. unfold teardown, wake_io. simpl. destruct (tr_io s) eqn:E; constructor; simpl; rewrite ?E; naive_solver.
Qed.

Lemma armed_close exc s : armed s -> armed (close exc s).
Proof.
  intros A. unfold close. destruct (tr_closed s); [done|]. apply armed_manned in A as M. destruct M as [M1 M2].
  case_bool_decide; [apply armed_kick; [done|simpl; intros r w H'; by apply (ar_parked _ A r w)]|by apply armed_teardown].
Qed.

Lemma armed_drain_rest s : armed s -> armed (drain_rest s).
Proof.
  intros A. unfold drain_rest. case_bool_decide; [|done].
  assert (A' : forall b : bool, armed (if b then set_eof true false s else s)) by (intros []; [by apply (armed_less s); auto|done]).
  set (b := tr_eof_pending s && _ && _). specialize (A' b). destruct (_ && negb (tr_stopping _)); [|done]. by apply armed_teardown, armed_manned.
Qed.

Lemma armed_enter c f s p : armed s -> armed (enter c f (set_prot_paused p s)).
Proof. intros A. apply (armed_less s); auto. simpl. intros f' ?. set_solver. Qed.

Lemma armed_resume k s : armed s -> armed (maybe_resume k s).
Proof. intros A. unfold maybe_resume. destruct (_ && _); [by apply armed_enter|]. destruct k; try done. by apply armed_drain_rest. Qed.

Lemma armed_queue d s : armed s -> armed (queue d s).
Proof.
  intros A. unfold queue, maybe_pause. destruct (_ && _).
  - apply (armed_less s); simpl; auto; [intros; set_solver|]. intros _. right. set_solver.
  - apply armed_kick; [by destruct A|]. intros r w H. by apply (ar_parked _ A r w).
Qed.

Lemma armed_op o s : armed s -> armed (run_top o s).
Proof.
  intros A. destruct o as [d r| | | | | |h l]; simpl.
  - unfold write. destruct (_ || _); [done|]. assert (Q : armed (queue d (accept d s))) by (by apply armed_queue, (armed_less s); auto).
    case_bool_decide; [|done]. destruct r; [|done|by apply armed_close]. destruct (_ <=? _); [by apply (armed_less s); auto|]. by apply armed_queue, (armed_less s); auto.
  - unfold write_eof. destruct (_ || _); [done|]. by case_bool_decide; apply (armed_less s); auto.
  - by apply armed_close.
  - unfold abort. assert (X : armed (drop_buf s)) by (by apply (armed_less s); auto; unfold wants_write; simpl; intros).
    destruct (tr_closed s); simpl; [|by apply armed_close]. destruct (tr_stopping s); [done|]. by apply armed_teardown, armed_manned.
  - apply (armed_less s); auto. unfold wants_read. simpl. done.
  - unfold resume_reading. destruct (tr_paused s); [|done]. apply armed_kick; [by destruct A|]. intros r w H. by apply (ar_parked _ A r w).
  - unfold set_write_buffer_limits. case_bool_decide; [|done]. assert (X : forall h l, armed (set_limits h l s)) by (intros; by apply (armed_less s); auto).
    unfold maybe_pause. destruct (_ && _); [by apply armed_enter|]. by apply armed_resume.
Qed.

Lemma close_closed exc s : tr_closed (close exc s) = true.
Proof.
  unfold close. destruct (tr_closed s) eqn:E; [done|]. case_bool_decide.
  - match goal with |- context [kick_io ?x] => by destruct (kick_io_eq x) as [i ->] end.
  - unfold teardown. match goal with |- context [wake_io ?x] => by destruct (wake_io_eq x) as [i ->] end.
Qed.

Lemma close_stops e s : life s -> tr_drain s = false -> tr_stopping (close (Some e) s) = true.
Proof.
  intros [_ D] Hd. unfold close. destruct (tr_closed s) eqn:E.
  - destruct (tr_stopping s) eqn:Hs; [done|]. by rewrite D in Hd.
  - rewrite bool_decide_false by naive_solver. unfold teardown. match goal with |- context [wake_io ?x] => by destruct (wake_io_eq x) as [i ->] end.
Qed.

Lemma armed_recv r s : life s -> (forall e, r = RErr e -> tr_drain s = false) -> armed (recv_step r s).
Proof.
  intros L T. unfold recv_step. destruct r as [[|b d]| | |e']; try by apply armed_busy.
  - constructor; simpl; try done. intros _. right; right. set_solver.
  - constructor; simpl; try done. intros _. right; left. set_solver.
  - constructor; simpl; try done. intros _. right; right. set_solver.
  - constructor; simpl; try done. intros _. destruct (tr_stopping s) eqn:E; [done|]. apply close_stops; eauto.
Qed.

Lemma armed_return f r l s : armed s -> life (set_frames l s) \/ f = FLost -> tr_frames s = f :: l -> tame (TReturn r) s -> armed (return_to f r (set_frames l s)).
Proof.
  intros A L E T.
  assert (K : forall g, g ∈ tr_frames s -> g ≠ f -> g ∈ l) by (intros g; rewrite E; intros [?|?]%elem_of_cons; congruence).
  assert (P : f ≠ FMade -> f ≠ FPause -> f ≠ FBuf -> f ≠ FData -> f ≠ FEof -> armed (set_frames l s)).
  { intros N1 N2 N3 N4 N5. destruct A as [A B C D]. constructor; simpl; try done.
    - intros H. destruct (A H) as [?|[?|[H1 H2]]]; [by left|auto|]. right; right. split; [done|]. intros W. auto.
    - intros r' w H. destruct (B r' w H) as (B1 & B2 & B3). split_and!; try done. intros W. destruct (B3 W); auto.
    - intros H. destruct (D H) as [?|[?|?]]; auto. }
  destruct f; simpl.
  - destruct A as [A B C D]. destruct (tr_io s) eqn:Hi; [by apply armed_busy|..]; (constructor; simpl; rewrite ?Hi; try done).
    + intros r' w' Hp. destruct (B r' w' Hp) as (B1 & B2 & B3). split_and!; try done. intros W. destruct (B3 W); auto.
    + intros H. destruct (D H) as [?|[?|?]]; auto.
  - destruct A as [A B C D]. apply armed_kick; [split; [done|]|]; simpl.
    + intros H. destruct (D H) as [?|[?|?]]; auto.
    + intros r' w H. by apply (B r' w).
  - apply armed_resume. by apply P.
  - by apply P.
  - apply armed_drain_rest. by apply P.
  - destruct L as [L|]; [|done]. simpl in T. rewrite E in T. simpl in T.
    destruct r as [| |e|a]; [by constructor; simpl; try done; intros _; apply close_stops..|]. apply armed_recv; [done|]. by intros e ->.
  - destruct L as [L|]; [|done]. destruct r as [| |e|a]; try by apply armed_busy. simpl in T. rewrite E in T. simpl in T.
    constructor; simpl; try done. intros _. by apply close_stops.
  - destruct L as [L|]; [|done]. apply (life_close None) in L as [L0 D].
    destruct r; try (by apply armed_busy); destruct (tr_drain _) eqn:Hd; try (by apply armed_busy).
    all: constructor; simpl; try done; intros _; destruct (tr_stopping _) eqn:Hs; [done|]; apply D; [apply close_closed|done].
  - assert (A1 : armed (set_frames l s)) by (by apply P). by apply (armed_less (set_frames l s)); auto.
Qed.

Lemma armed_step s s' : armed s -> life s -> tame_step s s' -> armed s'.
Proof.
  intros A L (e & T & He). apply (texec_cases armed s e s' He); clear He; intros; subst; try by apply armed_busy.
  - by apply armed_op.
  - apply armed_return; try done. destruct (decide (f = FLost)); [by right|left]. by eapply life_pop.
  - unfold io_top. destruct (tr_stopping s) eqn:S; [by constructor; simpl; auto|]. destruct (wants_read s || wants_write s) eqn:W.
    + constructor; simpl; try done. intros r w [= <- <-]. split_and!; auto.
    + apply orb_false_elim in W as [W1 W2]. constructor; simpl; try done. intros _. right; right. split; [done|]. unfold wants_write in *. simpl. congruence.
  - by constructor; simpl.
  - unfold drain_step. assert (A1 : armed (set_io (IoRecv rd) s)) by (by apply armed_busy). revert A1. generalize (set_io (IoRecv rd) s). intros s1 A1. destruct r as [n| |e'].
    + case_bool_decide; [by apply armed_drain_rest|]. apply armed_resume, (armed_less s1); auto. unfold wants_write. simpl. intros W. left.
      case_bool_decide as X; [|done]. apply bool_decide_eq_true. intros Y. rewrite Y, drop_nil in X. done.
    + done.
    + destruct (tr_drain s1); [by apply armed_teardown, armed_manned|by apply armed_close].
  - apply armed_recv; [done|]. by intros e' ->.
  - constructor; simpl; try done. intros _. left. set_solver.
  - assert (A1 : armed (set_soon l s)) by (by apply (armed_less s); auto). destruct cl; [|by apply (armed_less (set_soon l s)); auto].
    by apply (armed_enter (CLost exc) FLost (set_soon l s) (tr_prot_paused s)).
Qed.

Lemma tame_reach_step s : rtc tame_step tr_init s -> tr_reach s.
Proof. intros R. apply (rtc_subrel tame_step tr_step); [|done]. intros s1 s2 (e & _ & He). by exists e. Qed.

Lemma armed_reach s : rtc tame_step tr_init s -> armed s.
Proof.
  intros R. cut (armed s /\ life s); [by intros []|]. revert s R. apply (rtc_ind_r (R := tame_step) (λ s, armed s /\ life s) tr_init).
  - split; [|apply life_init]. constructor; simpl; try done. intros _. right; left. set_solver.
  - intros s1 s2 _ Hs [A L]. split; [by eapply armed_step|]. destruct Hs as (e & _ & He). eapply life_step; [done|by exists e].
Qed.

(** A transport that waits for its buffer has one, or is about to look. *)
Definition draining (s : transport) : Prop := tr_drain s = true -> tr_buf s ≠ [] \/ FDrain ∈ tr_frames s.

Lemma draining_less s s' : draining s -> tr_drain s' = tr_drain s -> (tr_buf s ≠ [] -> tr_buf s' ≠ []) -> (FDrain ∈ tr_frames s -> FDrain ∈ tr_frames s') -> draining s'.
Proof. unfold draining. intros D -> Hb Hf H. destruct (D H); auto. Qed.
Lemma draining_kick s : draining s -> draining (kick_io s).
Proof. by destruct (kick_io_eq s) as [i ->]. Qed.
Lemma draining_teardown exc cl s : draining (teardown exc cl s).
Proof. unfold teardown. by destruct (wake_io_eq (set_stopping s)) as [i ->]. Qed.
Lemma draining_close exc s : draining s -> draining (close exc s).
Proof.
  intros D. unfold close. destruct (tr_closed s); [done|]. case_bool_decide as H; [|apply draining_teardown]. apply draining_kick. intros _. left. by destruct H.
Qed.
Lemma draining_rest s : life s -> draining (drain_rest s).
Proof.
  intros L. unfold drain_rest. case_bool_decide as Hb; [|intros _; by left].
  destruct (tr_drain s) eqn:Hd; [|by destruct (_ && negb (tr_closed s)); simpl; rewrite Hd; simpl; intros X; simpl in X; congruence].
  destruct (li_drain _ (proj1 L) Hd) as (Hs & _). destruct (_ && negb (tr_closed s)); simpl; rewrite Hd, Hs; apply draining_teardown.
Qed.
Lemma draining_enter c f s p : draining s \/ f = FDrain -> draining (enter c f (set_prot_paused p s)).
Proof. intros [D| ->]; [apply (draining_less s); auto; simpl; set_solver|]. intros _. right. set_solver. Qed.
Lemma draining_resume k s : life s -> draining s \/ k = FDrain -> draining (maybe_resume k s).
Proof.
  intros L D. unfold maybe_resume. destruct (_ && _); [by apply draining_enter|]. destruct k; destruct D as [D|]; try done; by apply draining_rest.
Qed.
Lemma draining_queue d s : life s -> draining s -> draining (queue d s).
Proof.
  intros L D. unfold queue, maybe_pause.
  assert (D' : draining (set_buf (tr_buf s ++ d) s)) by (apply (draining_less s); auto; simpl; intros H1 [H2 _]%app_eq_nil; done).
  destruct (_ && _); [apply draining_enter; by left|by apply draining_kick].
Qed.
Lemma draining_op o s : life s -> draining s -> draining (run_top o s).
Proof.
  intros L D. destruct o as [d r| | | | | |h l]; simpl; try done.
  - unfold write. destruct (_ || _); [done|]. assert (Q : draining (queue d (accept d s))) by (apply draining_queue; [apply (life_aside s); auto with sw|done]).
    case_bool_decide; [|done]. destruct r; [|done|by apply draining_close]. destruct (_ <=? _); [done|]. apply draining_queue; [apply (life_aside s); auto with sw|done].
  - unfold write_eof. destruct (_ || _); [done|]. by case_bool_decide.
  - by apply draining_close.
  - unfold abort. destruct (tr_closed s) eqn:Hc; simpl; [|apply draining_close].
    + destruct (tr_stopping s) eqn:Hs; [|apply draining_teardown]. intros Hd. simpl in Hd. destruct (li_drain _ (proj1 L) Hd) as (?&_). congruence.
    + intros Hd. simpl in Hd. destruct (li_drain _ (proj1 L) Hd) as (_&?&_). congruence.
  - unfold resume_reading. destruct (tr_paused s); [|done]. by apply draining_kick.
  - unfold set_write_buffer_limits. case_bool_decide; [|done]. unfold maybe_pause. destruct (_ && _); [by apply draining_enter; left|].
    apply draining_resume; [apply (life_aside s); auto with sw|by left].
Qed.

Lemma draining_recv r s : draining s -> draining (recv_step r s).
Proof.
  intros D. unfold recv_step. destruct r as [[|b d]| | |e]; try done; try by apply (draining_enter _ _ (set_io IoBusy s) (tr_prot_paused s)); left.
  destruct (tr_stopping s); [done|]. by apply (draining_close (Some e)) in D.
Qed.

Lemma draining_step s s' : life s -> draining s -> tr_step s s' -> draining s'.
Proof.
  intros L D [e He]. apply (texec_cases draining s e s' He); clear He; intros; try done.
  - by apply draining_op.
  - assert (P : f ≠ FDrain -> draining (set_frames l s)).
    { intros Hf. intros Hd. destruct (D Hd) as [|Hin]; [by left|]. rewrite H0 in Hin. right. simpl. set_solver. }
    assert (L' : f ≠ FLost -> life (set_frames l s)) by (by apply life_pop). revert P L'. generalize (set_frames l s). intros s1 P L'. destruct f; simpl; auto.
    + specialize (P ltac:(done)). by destruct (tr_io s1).
    + by apply draining_kick, P.
    + apply draining_resume; [by apply L'|left; by apply P].
    + by apply draining_rest, L'.
    + specialize (P ltac:(done)). destruct r as [| |e0|]; [by apply (draining_close (Some 0)) in P..|by apply (draining_close (Some e0)) in P|by apply draining_recv].
    + specialize (P ltac:(done)). destruct r; try done. by apply (draining_close (Some e0)) in P.
    + specialize (P ltac:(done)). destruct r; try done; by apply (draining_close None) in P.
  - unfold io_top. by repeat case_match.
  - unfold drain_step. apply (life_io (IoRecv rd)) in L. assert (D1 : draining (set_io (IoRecv rd) s)) by done. revert L D1. generalize (set_io (IoRecv rd) s). intros s1 L D1. destruct r as [n| |e'].
    + case_bool_decide; [by apply draining_rest|]. apply draining_resume; [|by right]. apply (life_aside s1); auto with sw.
    + done.
    + destruct (tr_drain s1); [apply draining_teardown|by apply draining_close].
  - by apply draining_recv.
  - by apply (draining_enter _ _ (set_io IoBusy s) (tr_prot_paused s)); left.
  - destruct cl; [|done]. by apply (draining_enter (CLost exc) FLost (set_soon l s) (tr_prot_paused s)); left.
Qed.

Lemma draining_reach s : tr_reach s -> draining s.
Proof.
  intros R. cut (draining s /\ life s); [by intros []|]. revert s R. apply (rtc_ind_r (R := tr_step) (λ s, draining s /\ life s) tr_init).
  - by split; [|apply life_init].
  - intros s1 s2 _ Hs [D L]. split; [by eapply draining_step|by eapply life_step].
Qed.

(** ** Traces *)

(** The states that a list of events leads to, and whether every event of it is tame. *)
Fixpoint tr_run (l : list tev) (s : transport) : option transport :=
  match l with [] => Some s | e :: l' => match texec e s with Some s' => tr_run l' s' | None => None end end.
Definition tame_b (e : tev) (s : transport) : bool :=
  match e with
  | TReturn r =>
      match hd_error (tr_frames s), r with
      | Some FData, RRaise _ | Some FBuf, (ROk | RTrue | RRaise _ | RFill (RErr _)) => negb (tr_drain s)
      | _, _ => true
      end
  | TRecv (RErr _) => negb (tr_drain s)
  | _ => true
  end.
Fixpoint tame_run (l : list tev) (s : transport) : bool :=
  match l with [] => true | e :: l' => tame_b e s && match texec e s with Some s' => tame_run l' s' | None => false end end.

Lemma tr_run_rtc l s s' : tr_run l s = Some s' -> rtc tr_step s s'.
Proof.
  revert s. induction l as [|e l IH]; simpl; intros s H; [by simplify_eq|]. destruct (texec e s) as [s1|] eqn:E; [|done]. eapply rtc_l; [by exists e|auto].
Qed.
Lemma tame_run_rtc l s s' : tr_run l s = Some s' -> tame_run l s = true -> rtc tame_step s s'.
Proof.
  revert s. induction l as [|e l IH]; simpl; intros s H T; [by simplify_eq|]. destruct (texec e s) as [s1|] eqn:E; [|done]. apply andb_prop in T as [T1 T2].
  eapply rtc_l; [|by apply IH]. exists e. split; [|done]. destruct e as [|r| | | | |[]| |]; try done; simpl in *; [|by destruct (tr_drain s)].
  destruct (tr_frames s) as [|[] ?]; try done; destruct r as [| | |[]]; try done; by destruct (tr_drain s).
Qed.

(** ** What the transport promises *)

(** C29. Nothing is lost, repeated or reordered: until an [abort], what [write] accepted is what the kernel took
    and then the buffer; after it, the kernel took a start of it.  The write side is shut down, and
    [connection_lost(None)] is called, only when the kernel took every byte. *)
Theorem transport_bytes_exact s : tr_reach s ->
  tr_wire s `prefix_of` tr_accepted s /\
  (tr_aborted s = false -> tr_accepted s = tr_wire s ++ tr_buf s /\ (tr_eof_written s = true \/ CLost None ∈ tr_calls s -> tr_wire s = tr_accepted s)).
Proof.
  intros R. destruct (exact_reach s R) as [A B C D]. split.
  - destruct (tr_aborted s) eqn:E; [by apply B|]. rewrite A by done. by eexists.
  - intros Ha. split; [auto|]. rewrite A by done. intros H. assert (tr_buf s = []) as ->; [|by rewrite app_nil_r]. destruct H; [auto|]. apply D. by right.
Qed.

Lemma transport_bytes_exact_witness : exists s, tr_reach s /\ tr_wire s = [1; 2; 3]%Z /\ tr_wire s = tr_accepted s /\ CLost None ∈ tr_calls s.
Proof.
  pose (l := [TOp (OpWrite [1; 2; 3]%Z (SOk 1)); TOp OpClose; TReturn ROk; TTop; TReady false true; TDrain (SOk 2); TDeliver; TReturn ROk]).
  destruct (tr_run l tr_init) as [s|] eqn:E; [|vm_compute in E; discriminate]. exists s. pose proof (tr_run_rtc _ _ _ E) as R.
  vm_compute in E. injection E as <-. assert (L : CLost None ∈ [CMade; CLost None]) by set_solver.
  split_and!; [exact R|reflexivity| |exact L]. destruct (transport_bytes_exact _ R) as [_ H]. apply (proj2 (H eq_refl)). right. exact L.
Defined.

(** C30. The protocol sees what [asyncio] promises: [pause_writing] and [resume_writing] alternate, and
    [connection_lost] is called once at most, with no data, end of file or second call after it.  A transport
    that stopped has called it or will, and the socket is closed after the call, not before. *)
Theorem transport_callbacks s : tr_reach s ->
  exists lost, view (tr_calls s) = Some (tr_prot_paused s, lost) /\
    (lost = true <-> exists exc, CLost exc ∈ tr_calls s) /\
    length (tr_soon s) + Nat.b2n lost = Nat.b2n (tr_stopping s) /\
    (lost = true <-> tr_fd_open s = false \/ FLost ∈ tr_frames s) /\
    (forall l1 exc l2, tr_calls s = l1 ++ CLost exc :: l2 -> Forall (λ c, from_peer c = false) l2).
Proof.
  intros R. destruct (life_reach s R) as [[A B C (lost & V1 & V2 & V3 & V5 & V4) F] D]. exists lost. split_and!; try done.
  - by eapply view_lost.
  - intros l1 exc l2 E. rewrite E in V1. by eapply view_after.
Qed.

Lemma transport_callbacks_witness : exists s, tr_reach s /\ tr_calls s = [CMade; CData [7]%Z; CEof; CLost None] /\ length (tr_soon s) = 0.
Proof.
  pose (l := [TReturn ROk; TTop; TReady true false; TDrain SBlock; TRecv (RData [7]%Z); TReturn ROk; TTop; TReady true false; TDrain SBlock; TRecv REof; TReturn ROk; TDeliver]).
  destruct (tr_run l tr_init) as [s|] eqn:E; [|vm_compute in E; discriminate]. exists s. pose proof (tr_run_rtc _ _ _ E) as R.
  destruct (transport_callbacks s R) as (lost & H1 & H2 & H3 & _). vm_compute in E. injection E as <-.
  split_and!; [exact R|reflexivity|reflexivity].
Defined.

(** Backpressure: until an [abort], the buffer of a protocol that was not told to pause is within the high
    mark, and that of a protocol that was is above the low mark. *)
Theorem transport_watermarks s : tr_reach s -> tr_aborted s = false ->
  (0 <= tr_low s <= tr_high s)%Z /\
  (tr_prot_paused s = false -> Z.of_nat (length (tr_buf s)) <= tr_high s)%Z /\ (tr_prot_paused s = true -> tr_low s < Z.of_nat (length (tr_buf s)))%Z.
Proof.
  intros R Ha. destruct (flow_reach s R) as [H1 H2]. specialize (H2 Ha). split; [done|]. split; intros E; by rewrite E in H2.
Qed.

Lemma transport_watermarks_witness : exists s, tr_reach s /\ tr_buf s = [2; 3]%Z /\ tr_prot_paused s = true /\ (tr_low s < 2)%Z.
Proof.
  pose (l := [TReturn ROk; TOp (OpLimits (Some 1%Z) (Some 0%Z)); TOp (OpWrite [1; 2; 3]%Z (SOk 1))]).
  destruct (tr_run l tr_init) as [s|] eqn:E; [|vm_compute in E; discriminate]. exists s. pose proof (tr_run_rtc _ _ _ E) as R.
  vm_compute in E. injection E as <-. split_and!; [exact R|reflexivity|reflexivity|]. apply (proj2 (proj2 (transport_watermarks _ R eq_refl))). reflexivity.
Defined.

(** Nothing to do before a new operation or an answer of the poller. *)
Definition quiet (s : transport) : Prop :=
  forall e, match e with TReturn _ | TTop | TDrain _ | TRecv _ | TGetBuf | TDeliver => True | _ => False end -> texec e s = None.

Lemma quiet_inv s : quiet s -> tr_frames s = [] /\ tr_soon s = [] /\ (tr_io s = IoNone \/ (exists r w, tr_io s = IoParked r w) \/ tr_io s = IoDead \/ tr_io s = IoBusy).
Proof.
  intros Q. assert (F : tr_frames s = []) by (pose proof (Q (TReturn ROk) I) as X; simpl in X; by destruct (tr_frames s)).
  assert (G : free s = true) by (unfold free; by rewrite F). split; [done|]. split.
  - pose proof (Q TDeliver I) as X. simpl in X. rewrite G in X. by destruct (tr_soon s) as [|[? ?] ?].
  - pose proof (Q TTop I) as X1. pose proof (Q (TDrain SBlock) I) as X2. pose proof (Q (TRecv RBlock) I) as X3. simpl in *. rewrite G in *. destruct (tr_io s); naive_solver.
Qed.

(** C28. No transport is stranded, along the [tame] steps: those on which, while a [close] waits for the buffer
    to drain, no callback of the read path ([data_received], [get_buffer], [buffer_updated]) raises and no
    [recv] fails.  (Elsewhere all of these may raise; [transport_drain_stranded] shows that the condition is
    needed: the read path ends the fiber and its own [close] does nothing on a closed transport.)  Once nothing
    is left to do but to wait for the descriptor, a closed transport has delivered [connection_lost] and closed
    its socket, or still has bytes to send and is parked for that; bytes in the buffer of any other have the
    fiber parked for writing; and a transport that reads has it parked for reading. *)
Theorem transport_no_stranded s : rtc tame_step tr_init s -> quiet s ->
  (tr_closed s = true -> (tr_fd_open s = false /\ exists exc, CLost exc ∈ tr_calls s) \/ (tr_buf s ≠ [] /\ tr_stopping s = false)) /\
  (tr_buf s ≠ [] -> tr_stopping s = false -> exists r, tr_io s = IoParked r true) /\
  (tr_closed s = false -> tr_paused s = false -> tr_read_eof s = false -> exists w, tr_io s = IoParked true w).
Proof.
  intros R Q. apply quiet_inv in Q as (F & S & I). pose proof (armed_reach s R) as [A B C D]. apply tame_reach_step in R as R'.
  pose proof (life_reach s R') as [L0 L1]. pose proof (draining_reach s R') as Dr. rewrite F in *. split_and!.
  - intros Hc. destruct (tr_stopping s) eqn:E.
    + left. destruct (li_view _ L0) as (lost & V1 & V2 & V3 & _). rewrite S, E in V2. assert (lost = true) as -> by (destruct lost; [done|simpl in V2; lia]).
      rewrite F in V3. split; [|by eapply view_lost]. destruct V3 as [V3 _]. destruct (V3 eq_refl); [done|set_solver].
    + right. split; [|done]. destruct (Dr (L1 Hc eq_refl)); [done|]. rewrite F in *. set_solver.
  - intros Hb Hs. assert (W : wants_write s = true) by (by apply bool_decide_eq_true).
    destruct I as [I|[(r & w & I)|[I|I]]].
    + destruct (A I) as [?|[?|[_ ?]]]; [congruence|set_solver|set_solver].
    + destruct (B r w I) as (_ & _ & B'). destruct (B' W) as [->|]; [by exists r|set_solver].
    + rewrite C in Hs; [done|done].
    + destruct (D I); set_solver.
  - intros H1 H2 H3. assert (W : wants_read s = true) by (unfold wants_read; by rewrite H1, H2, H3).
    assert (Hs : tr_stopping s = false) by (destruct (tr_stopping s) eqn:E; [|done]; rewrite (li_stop _ L0) in H1; done).
    destruct I as [I|[(r & w & I)|[I|I]]].
    + destruct (A I) as [?|[?|[? _]]]; [congruence|set_solver|congruence].
    + destruct (B r w I) as (_ & B' & _). rewrite (B' W) in I. by exists w.
    + rewrite C in Hs; [done|done].
    + destruct (D I); set_solver.
Qed.

Lemma transport_no_stranded_witness : exists s, tr_closed s = true /\ tr_buf s = [2; 3]%Z /\ exists r, tr_io s = IoParked r true.
Proof.
  pose (l := [TReturn ROk; TOp (OpWrite [1; 2; 3]%Z (SOk 1)); TOp OpClose; TTop]).
  destruct (tr_run l tr_init) as [s|] eqn:E; [|vm_compute in E; discriminate]. exists s.
  assert (T : tame_run l tr_init = true) by (vm_compute; reflexivity). pose proof (tame_run_rtc _ _ _ E T) as R.
  vm_compute in E. injection E as <-. split_and!; [reflexivity|reflexivity|].
  refine (proj1 (proj2 (transport_no_stranded _ R _)) _ _); [|discriminate|reflexivity]. intros e He. destruct e; try done.
Defined.

(** ** What goes wrong *)

(** The fiber is gone and the buffer of a closed transport is not empty. *)
Record stranded (s : transport) : Prop := {
  st_io : tr_io s = IoDead; st_stop : tr_stopping s = false; st_closed : tr_closed s = true; st_buf : tr_buf s ≠ []; st_soon : tr_soon s = [];
  st_calls : forall exc, CLost exc ∉ tr_calls s; st_frames : forall f, f ∈ tr_frames s -> f = FLimits \/ f = FDone
}.

Lemma stranded_enter c f s p : stranded s -> (forall exc, c ≠ CLost exc) -> f = FLimits \/ f = FDone -> stranded (enter c f (set_prot_paused p s)).
Proof.
  intros [A B C D E F G] Hc Hf. constructor; simpl; try done.
  - intros exc [H|H%list_elem_of_singleton]%elem_of_app; [by apply (F exc)|]. by destruct (Hc exc).
  - intros g [->|?]%elem_of_cons; auto.
Qed.

Lemma stranded_resume s : stranded s -> stranded (maybe_resume FDone s).
Proof. intros St. unfold maybe_resume. destruct (_ && _); [apply stranded_enter; auto|done]. Qed.

Lemma stranded_kick s : stranded s -> kick_io s = s.
Proof. intros [A B]. unfold kick_io, wake_io. by rewrite A, B. Qed.

Lemma stranded_step e s s' : stranded s -> e ≠ TOp OpAbort -> texec e s = Some s' -> stranded s'.
Proof.
  intros St Ne He. pose proof St as [A B C D E F G].
  apply (texec_cases stranded s e s' He); clear He; intros; try congruence.
  - destruct o as [d r| | | | | |h l]; simpl; try done.
    + unfold write. rewrite C, !orb_true_r. done.
    + unfold write_eof. by rewrite C.
    + unfold close. by rewrite C.
    + unfold resume_reading. destruct (tr_paused s); [|done]. assert (X : stranded (set_paused false s)) by (by constructor). by rewrite stranded_kick.
    + unfold set_write_buffer_limits. case_bool_decide; [|done]. unfold maybe_pause. match goal with |- context [set_limits ?h ?l s] => assert (X : stranded (set_limits h l s)) by (by constructor) end.
      destruct (_ && _); [apply stranded_enter; auto|by apply stranded_resume].
  - assert (X : stranded (set_frames l s)) by (constructor; simpl; try done; intros g Hg; apply G; rewrite H0; set_solver).
    destruct (G f) as [-> | ->]; [rewrite H0; set_solver|by apply stranded_resume|done].
Qed.

(** A [data_received] that writes more than the socket takes, closes the transport and raises leaves it with
    bytes that nobody will send: whatever follows short of [abort], [connection_lost] is never called. *)
Theorem transport_drain_stranded : exists s, tr_reach s /\ tr_closed s = true /\ tr_buf s ≠ [] /\
  forall l s', TOp OpAbort ∉ l -> tr_run l s = Some s' -> tr_buf s' ≠ [] /\ forall exc, CLost exc ∉ tr_calls s'.
Proof.
  pose (l := [TReturn ROk; TTop; TReady true false; TDrain SBlock; TRecv (RData [7]%Z); TOp (OpWrite [1; 2]%Z (SOk 1)); TOp OpClose; TReturn (RRaise 3)]).
  destruct (tr_run l tr_init) as [s|] eqn:E; [|vm_compute in E; discriminate]. exists s. pose proof (tr_run_rtc _ _ _ E) as R.
  assert (St : stranded s) by (vm_compute in E; injection E as <-; constructor; try done; simpl; set_solver).
  destruct St as [A B C D]. split_and!; try done. assert (St : stranded s) by (by constructor). clear -St.
  intros l. revert s St. induction l as [|e l IH]; simpl; intros s St s' Ha H; [simplify_eq; by destruct St|].
  destruct (texec e s) as [s1|] eqn:E; [|done]. apply not_elem_of_cons in Ha as [H1 H2]. eapply (IH s1); [|done|done]. eapply stranded_step; [done| |done]. congruence.
Qed.

(** Data can be delivered after [close()]: [resume_writing] closes the transport during the write step, with
    more bytes queued, and the read step that follows does not look at [_closed]. *)
Theorem transport_data_after_close : exists s s' d, tr_reach s /\ tr_closed s = true /\ tr_step s s' /\ tr_calls s' = tr_calls s ++ [CData d].
Proof.
  pose (l := [TReturn ROk; TOp (OpLimits (Some 1%Z) (Some 0%Z)); TOp (OpWrite [1; 2; 3]%Z (SOk 1)); TReturn ROk; TTop; TReady true true; TDrain (SOk 2);
    TOp (OpWrite [4]%Z SBlock); TOp OpClose; TReturn ROk]).
  destruct (tr_run l tr_init) as [s|] eqn:E; [|vm_compute in E; discriminate]. pose proof (tr_run_rtc _ _ _ E) as R.
  destruct (texec (TRecv (RData [7]%Z)) s) as [s'|] eqn:E'; [|vm_compute in E; injection E as <-; vm_compute in E'; discriminate].
  exists s, s', [7]%Z. split_and!; [done| |by eexists|]; vm_compute in E; injection E as <-; [done|]. vm_compute in E'. by injection E' as <-.
Qed.
