(* ===== verification/WritePipe.v ===== *)
(** * Write pipes

    Models [class _WritePipeTransport] ([src/src/stackweave/aio/pipes.py]): the buffer with its watermarks,
    [write_eof], [close] and [abort], and the fiber that drains the buffer and, for a socket, watches for the
    reader's end.  Callbacks run synchronously and may call the transport, as in [Transport.v]; what the pipe
    answers is part of the events. *)
From S2P Require Import Prelude Protocol.

(** What follows a callback: the constructor, [write] after [pause_writing], the drain loop after
    [resume_writing], nothing after [connection_lost]. *)
Inductive wframe := WMade | WPause | WResume | WLost.

(** [_drain_loop]: no fiber; at its inner loop; parked for reading and writing. *)
Inductive dpc := DNone | DRun | DParked (r w : bool).

(** The attributes; the frames; whether the pipe is open; and, which the code does not read, what the pipe
    took, what [write] accepted, and the callbacks. *)
Record wpipe := WPipe {
  wp_watch : bool; wp_closing : bool; wp_eof : bool; wp_lost : bool; wp_buf : bytes; wp_high : Z; wp_low : Z;
  wp_paused : bool; wp_drain : dpc; wp_frames : list wframe; wp_open : bool; wp_wire : bytes; wp_accepted : bytes;
  wp_calls : list pcall
}.

Definition wset_eof (s : wpipe) : wpipe :=
  WPipe (wp_watch s) (wp_closing s) true (wp_lost s) (wp_buf s) (wp_high s) (wp_low s) (wp_paused s) (wp_drain s)
    (wp_frames s) (wp_open s) (wp_wire s) (wp_accepted s) (wp_calls s).
Definition wset_buf (b : bytes) (s : wpipe) : wpipe :=
  WPipe (wp_watch s) (wp_closing s) (wp_eof s) (wp_lost s) b (wp_high s) (wp_low s) (wp_paused s) (wp_drain s) (wp_frames s)
    (wp_open s) (wp_wire s) (wp_accepted s) (wp_calls s).
Definition wset_limits (h l : Z) (s : wpipe) : wpipe :=
  WPipe (wp_watch s) (wp_closing s) (wp_eof s) (wp_lost s) (wp_buf s) h l (wp_paused s) (wp_drain s) (wp_frames s) (wp_open s)
    (wp_wire s) (wp_accepted s) (wp_calls s).
Definition wset_paused (b : bool) (s : wpipe) : wpipe :=
  WPipe (wp_watch s) (wp_closing s) (wp_eof s) (wp_lost s) (wp_buf s) (wp_high s) (wp_low s) b (wp_drain s) (wp_frames s)
    (wp_open s) (wp_wire s) (wp_accepted s) (wp_calls s).
Definition wset_drain (d : dpc) (s : wpipe) : wpipe :=
  WPipe (wp_watch s) (wp_closing s) (wp_eof s) (wp_lost s) (wp_buf s) (wp_high s) (wp_low s) (wp_paused s) d (wp_frames s)
    (wp_open s) (wp_wire s) (wp_accepted s) (wp_calls s).
Definition wset_frames (l : list wframe) (s : wpipe) : wpipe :=
  WPipe (wp_watch s) (wp_closing s) (wp_eof s) (wp_lost s) (wp_buf s) (wp_high s) (wp_low s) (wp_paused s) (wp_drain s) l
    (wp_open s) (wp_wire s) (wp_accepted s) (wp_calls s).
Definition wset_lost (s : wpipe) : wpipe :=
  WPipe (wp_watch s) true (wp_eof s) true (wp_buf s) (wp_high s) (wp_low s) (wp_paused s) (wp_drain s) (wp_frames s)
    (wp_open s) (wp_wire s) (wp_accepted s) (wp_calls s).
Definition pipe_close (s : wpipe) : wpipe :=
  WPipe (wp_watch s) (wp_closing s) (wp_eof s) (wp_lost s) (wp_buf s) (wp_high s) (wp_low s) (wp_paused s) (wp_drain s)
    (wp_frames s) false (wp_wire s) (wp_accepted s) (wp_calls s).
Definition wput (d : bytes) (s : wpipe) : wpipe :=
  WPipe (wp_watch s) (wp_closing s) (wp_eof s) (wp_lost s) (wp_buf s) (wp_high s) (wp_low s) (wp_paused s) (wp_drain s)
    (wp_frames s) (wp_open s) (wp_wire s ++ d) (wp_accepted s) (wp_calls s).
Definition waccept (d : bytes) (s : wpipe) : wpipe :=
  WPipe (wp_watch s) (wp_closing s) (wp_eof s) (wp_lost s) (wp_buf s) (wp_high s) (wp_low s) (wp_paused s) (wp_drain s)
    (wp_frames s) (wp_open s) (wp_wire s) (wp_accepted s ++ d) (wp_calls s).
Definition wlog (c : pcall) (s : wpipe) : wpipe :=
  WPipe (wp_watch s) (wp_closing s) (wp_eof s) (wp_lost s) (wp_buf s) (wp_high s) (wp_low s) (wp_paused s) (wp_drain s)
    (wp_frames s) (wp_open s) (wp_wire s) (wp_accepted s) (wp_calls s ++ [c]).

Definition wp_init (watch : bool) : wpipe := WPipe watch false false false [] 65536 16384 false DNone [WMade] true [] [] [CMade].

Definition wenter (c : pcall) (f : wframe) (s : wpipe) : wpipe := wset_frames (f :: wp_frames s) (wlog c s).

(** [_kick] *)
Definition kick (s : wpipe) : wpipe :=
  match wp_drain s with DNone => if wp_closing s then s else wset_drain DRun s | _ => wset_drain DRun s end.

(** [_finish(exc)] *)
Definition finish_pipe (exc : option nat) (s : wpipe) : wpipe :=
  let s1 := pipe_close s in if wp_lost s1 then s1 else wenter (CLost exc) WLost (wset_lost s1).

(** [write(data)], with the answer of the eager [os.write]; what it does not take is queued. *)
Definition push (d : bytes) (s : wpipe) : wpipe :=
  let s1 := wset_buf (wp_buf s ++ d) s in
  if negb (wp_paused s1) && (wp_high s1 <? Z.of_nat (length (wp_buf s1)))%Z then wenter CPauseW WPause (wset_paused true s1) else kick s1.
Definition wpipe_write (d : bytes) (r : sres) (s : wpipe) : wpipe :=
  if wp_closing s || wp_eof s || bool_decide (d = []) then s
  else if bool_decide (wp_buf s = []) then
    let n := match r with SOk n => n | _ => 0 end in
    if length d <=? n then wput d (waccept d s) else push (drop n d) (wput (take n d) (waccept d s))
  else push d (waccept d s).

(** [write_eof()]; [close()] and [abort()] are the same. *)
Definition pipe_write_eof (s : wpipe) : wpipe :=
  if wp_eof s then s
  else
    let s1 := wset_eof s in
    match wp_drain s1 with DNone => if bool_decide (wp_buf s1 = []) then finish_pipe None s1 else kick s1 | _ => kick s1 end.

(** [set_write_buffer_limits(high, low)] *)
Definition pipe_limits (high low : option Z) (s : wpipe) : wpipe :=
  let h := match high, low with Some h, _ => h | None, None => 65536%Z | None, Some l => (4 * l)%Z end in
  wset_limits h (match low with Some l => l | None => (h / 4)%Z end) s.

(** [_maybe_resume] *)
Definition pipe_resume (s : wpipe) : wpipe :=
  if wp_paused s && (Z.of_nat (length (wp_buf s)) <=? wp_low s)%Z then wenter CResumeW WResume (wset_paused false s) else s.

(** The end of a round of [_drain_loop]: it finishes, exits or parks. *)
Definition settle (s : wpipe) : wpipe :=
  if bool_decide (wp_buf s = []) && wp_eof s then finish_pipe None (wset_drain DNone s)
  else
    let w := bool_decide (wp_buf s ≠ []) in let r := wp_watch s && negb (wp_closing s) in
    if r || w then wset_drain (DParked r w) s else wset_drain DNone s.

(** One pass of the inner loop, with the answer of [os.write]. *)
Definition drain_pass (r : sres) (s : wpipe) : wpipe :=
  if bool_decide (wp_buf s = []) then settle s
  else
    match r with
    | SOk n => if bool_decide (n = 0) then s else pipe_resume (wset_buf (drop n (wp_buf s)) (wput (take n (wp_buf s)) s))
    | SBlock => settle s
    | SErr e => finish_pipe (Some e) (wset_drain DNone s)
    end.

(** [BrokenPipeError] *)
Definition EPIPE : nat := 32.

(** The fiber is woken: by the poller, or by an error. *)
Definition drain_ready (r : bool) (s : wpipe) : wpipe :=
  if r && wp_watch s then finish_pipe (if bool_decide (wp_buf s = []) then None else Some EPIPE) (wset_drain DNone s) else wset_drain DRun s.

Definition after_callback (f : wframe) (s : wpipe) : wpipe :=
  match f with WMade => if wp_watch s && negb (wp_closing s) then kick s else s | WPause => kick s | WResume | WLost => s end.

Inductive wpop := WWrite (d : bytes) (r : sres) | WEof | WClose | WAbort | WLimits (high low : option Z).
Definition wrun (o : wpop) (s : wpipe) : wpipe :=
  match o with WWrite d r => wpipe_write d r s | WEof | WClose | WAbort => pipe_write_eof s | WLimits h l => pipe_limits h l s end.

(** An operation, by a callback or by anyone; a callback returns; the fiber's next pass; the poller; an error. *)
Inductive wev := WOp (o : wpop) | WReturn | WPass (r : sres) | WReady (r w : bool) | WFail (e : nat).

Definition wexec (e : wev) (s : wpipe) : option wpipe :=
  match e with
  | WOp o => Some (wrun o s)
  | WReturn => match wp_frames s with f :: l => Some (after_callback f (wset_frames l s)) | [] => None end
  | WPass r => match wp_drain s, wp_frames s with DRun, [] => Some (drain_pass r s) | _, _ => None end
  | WReady r w =>
      match wp_drain s, wp_frames s with DParked r' w', [] => if (r || w) && implb r r' && implb w w' then Some (drain_ready r s) else None | _, _ => None end
  | WFail e => match wp_drain s, wp_frames s with DParked _ _, [] => Some (finish_pipe (Some e) (wset_drain DNone s)) | _, _ => None end
  end.

Definition wstep (s s' : wpipe) : Prop := exists e, wexec e s = Some s'.
Definition wreach (watch : bool) : wpipe -> Prop := rtc wstep (wp_init watch).

(** ** The invariant *)

(** Bytes and callbacks. *)
Record wsafe (s : wpipe) : Prop := {
  ws_bytes : wp_accepted s = wp_wire s ++ wp_buf s;
  ws_view : view (wp_calls s) = Some (wp_paused s, wp_lost s);
  ws_lost : wp_closing s = wp_lost s;
  ws_open : wp_open s = negb (wp_lost s);
  ws_end : wp_lost s = true -> wp_drain s = DNone /\ exists l exc, wp_calls s = l ++ [CLost exc] /\ (exc = None -> wp_buf s = [])
}.

(** The fiber is there when it is wanted. *)
Record wlive (s : wpipe) : Prop := {
  wl_none : wp_drain s = DNone -> wp_lost s = false ->
    wp_eof s = false /\ (wp_watch s = true -> WMade ∈ wp_frames s) /\ (wp_buf s ≠ [] -> WPause ∈ wp_frames s);
  wl_parked r w : wp_drain s = DParked r w ->
    (wp_eof s = true -> wp_buf s ≠ []) /\ (wp_watch s = true -> r = true) /\ (wp_buf s ≠ [] -> w = true \/ WPause ∈ wp_frames s)
}.
Definition wpinv (s : wpipe) : Prop := wsafe s /\ wlive s.

Lemma wlive_run s : wp_drain s = DRun -> wlive s.
Proof. intros E. constructor; rewrite E; done. Qed.

(** A state whose connection is not lost. *)
Lemma wsafe_run s d : wsafe s -> wp_lost s = false -> wsafe (wset_drain d s).
Proof. intros [A B C D E] Hl. constructor; simpl; try done. congruence. Qed.

Lemma wpinv_kick s : wsafe s -> wpinv (kick s).
Proof.
  intros W. pose proof W as [A B C D E]. unfold kick. destruct (wp_lost s) eqn:Hl.
  - destruct (E eq_refl) as [Hd _]. rewrite Hd, C. split; [done|]. constructor; rewrite Hd; congruence.
  - rewrite C. destruct (wp_drain s) eqn:Hd; (split; [by apply wsafe_run|by apply wlive_run]).
Qed.

Lemma wpinv_finish exc s : wsafe s -> wp_drain s = DNone -> (exc = None -> wp_buf s = []) -> wpinv (finish_pipe exc s).
Proof.
  intros [A B C D E] Hd Hb. unfold finish_pipe. simpl. destruct (wp_lost s) eqn:Hl.
  - split; constructor; simpl; rewrite ?Hl; try done; by rewrite Hd.
  - split; constructor; simpl; rewrite ?Hd; try done; [by rewrite view_snoc, B|]. intros _. split; [done|]. by eexists _, _.
Qed.

Lemma wpinv_enter c f s p : wpinv s -> wp_lost s = false -> see (Some (wp_paused s, false)) c = Some (p, false) -> wpinv (wenter c f (wset_paused p s)).
Proof.
  intros [[A B C D E] [L1 L2]] Hl Hs. rewrite Hl in *. split; constructor; simpl; rewrite ?Hl; try done.
  - by rewrite view_snoc, B.
  - intros Hd _. destruct (L1 Hd eq_refl) as (H1 & H2 & H3). split_and!; [done| |]; intros; apply elem_of_cons; auto.
  - intros r w Hd. destruct (L2 r w Hd) as (H1 & H2 & H3). split_and!; [done|done|]. intros Hb. destruct (H3 Hb); [by left|right]. by apply elem_of_cons; right.
Qed.

Lemma wpinv_settle s : wsafe s -> wp_lost s = false -> wpinv (settle s).
Proof.
  intros W Hl. pose proof W as [A B C D E]. unfold settle. case_bool_decide as Hb; simpl; [destruct (wp_eof s) eqn:He|].
  - apply wpinv_finish; [by apply wsafe_run|done|done].
  - rewrite bool_decide_false by naive_solver. rewrite C, Hl, orb_false_r, andb_true_r. destruct (wp_watch s) eqn:Hw; (split; [by apply wsafe_run|]); constructor; simpl; try done.
    + intros r w [= <- <-]. rewrite He. by split_and!.
    + intros _ _. rewrite Hw. naive_solver.
  - rewrite bool_decide_true by done. rewrite orb_true_r. split; [by apply wsafe_run|]. constructor; simpl; try done. intros r w [= <- <-]. rewrite C, Hl, andb_true_r. auto.
Qed.

Lemma wpinv_resume s : wsafe s -> wp_lost s = false -> wp_drain s = DRun -> wpinv (pipe_resume s).
Proof.
  intros W Hl Hd. assert (V : wpinv s) by (split; [done|by apply wlive_run]). unfold pipe_resume. destruct (wp_paused s) eqn:Hp; simpl; [|done].
  destruct (_ <=? _)%Z; [|done]. apply wpinv_enter; [done|done|]. by rewrite Hp.
Qed.

Lemma wpinv_pass r s : wpinv s -> wp_drain s = DRun -> wpinv (drain_pass r s).
Proof.
  intros [W V] Hd. assert (Hl : wp_lost s = false) by (destruct (wp_lost s) eqn:E; [|done]; destruct (ws_end _ W E); congruence).
  unfold drain_pass. case_bool_decide as Hb; [by apply wpinv_settle|]. destruct r as [n| |e].
  - case_bool_decide; [done|]. apply wpinv_resume; [|done|done]. destruct W as [A B C D E]. constructor; simpl; try done; [|congruence].
    by rewrite A, <-app_assoc, take_drop.
  - by apply wpinv_settle.
  - apply wpinv_finish; [by apply wsafe_run|done|done].
Qed.

Lemma parked_not_lost r w s : wsafe s -> wp_drain s = DParked r w -> wp_lost s = false.
Proof. intros W Hd. destruct (wp_lost s) eqn:E; [|done]. destruct (ws_end _ W E). congruence. Qed.

(** Bytes that are accepted, from any start of them that the pipe took. *)
Lemma wsafe_accept d w s : wsafe s -> wp_lost s = false -> w `prefix_of` d -> (wp_buf s ≠ [] -> w = []) ->
  wsafe (wset_buf (wp_buf s ++ drop (length w) d) (wput w (waccept d s))).
Proof.
  intros [A B C D E] Hl [k ->] Hw. rewrite drop_app_length. constructor; simpl; try done; [|congruence].
  rewrite A. destruct (wp_buf s); [by rewrite !app_nil_r, <-app_assoc|]. rewrite Hw by done. simpl. by rewrite app_nil_r, <-!app_assoc.
Qed.

Lemma wpinv_push d w s : wpinv s -> wp_lost s = false -> wp_eof s = false -> w `prefix_of` d -> (wp_buf s ≠ [] -> w = []) ->
  wpinv (push (drop (length w) d) (wput w (waccept d s))).
Proof.
  intros [W V] Hl He Hw Hb. pose proof (wsafe_accept d w s W Hl Hw Hb) as W1. unfold push. simpl. simpl in W1.
  destruct (wp_paused s) eqn:Hp; simpl; [by apply wpinv_kick|]. destruct (_ <? _)%Z; [|by apply wpinv_kick].
  destruct W1 as [A B C D E], V as [L1 L2]. split; constructor; simpl in *; try done.
  - by rewrite view_snoc, B, Hp, Hl.
  - congruence.
  - intros Hd _. destruct (L1 Hd Hl) as (H1 & H2 & H3). split_and!; [done| |]; set_solver.
  - intros r' w' Hd. destruct (L2 r' w' Hd) as (H1 & H2 & H3). split_and!; [by rewrite He|done|]. intros _. right. set_solver.
Qed.

Lemma wpinv_op o s : wpinv s -> wpinv (wrun o s).
Proof.
  intros V. destruct V as [W L]. pose proof W as [A B C D E]. assert (X : wpinv (pipe_write_eof s)).
  { unfold pipe_write_eof. destruct (wp_eof s) eqn:He; [done|]. assert (W1 : wsafe (wset_eof s)) by (by constructor).
    simpl. destruct (wp_drain s) eqn:Hd; try by apply wpinv_kick. case_bool_decide; [|by apply wpinv_kick]. by apply wpinv_finish. }
  destruct o as [d r| | | |h l]; simpl; try done.
  - unfold wpipe_write. destruct (wp_closing s) eqn:Hc; [done|]. destruct (wp_eof s) eqn:He; [done|]. simpl. case_bool_decide; [done|].
    assert (Q : wpinv (push d (waccept d s))).
    { pose proof (wpinv_push d [] s (conj W L)) as Q. simpl in Q. assert (wput [] (waccept d s) = waccept d s) as Hp by (unfold wput; simpl; by rewrite app_nil_r).
      rewrite Hp in Q. apply Q; [congruence|done|apply prefix_nil|done]. }
    case_bool_decide as Hb; [|done]. set (n := match r with SOk n => n | _ => 0 end).
    assert (Hw : take n d `prefix_of` d) by (exists (drop n d); by rewrite take_drop). assert (Hb' : wp_buf s ≠ [] -> take n d = []) by congruence.
    destruct (Nat.leb_spec (length d) n) as [Hn|Hn].
    + split; [|by destruct L]. pose proof (wsafe_accept d (take n d) s W ltac:(congruence) Hw Hb') as Z. rewrite take_ge, drop_all, app_nil_r in Z by done.
      destruct Z as [Z1 Z2 Z3 Z4 Z5]. by constructor.
    + pose proof (wpinv_push d (take n d) s (conj W L) ltac:(congruence) He Hw Hb') as Z. by rewrite length_take_le in Z by lia.
  - unfold pipe_limits. split; [by constructor|]. by destruct L.
Qed.

Lemma wpinv_step s s' : wpinv s -> wstep s s' -> wpinv s'.
Proof.
  intros [W L] [e He]. pose proof W as [A B C D E]. destruct e as [o| |r|r w|e]; simpl in He.
  - simplify_eq. by apply wpinv_op.
  - destruct (wp_frames s) as [|f l] eqn:Hf; simplify_eq. assert (W1 : wsafe (wset_frames l s)) by (by constructor).
    assert (P : f ≠ WMade -> f ≠ WPause -> wpinv (wset_frames l s)).
    { intros N1 N2. split; [done|]. destruct L as [L1 L2]. constructor; simpl.
      - intros Hd Hl. destruct (L1 Hd Hl) as (H1 & H2 & H3). rewrite Hf in *. set_solver.
      - intros r w Hd. destruct (L2 r w Hd) as (H1 & H2 & H3). rewrite Hf in *. set_solver. }
    destruct f; simpl; try (by apply wpinv_kick); try (by apply P).
    destruct (wp_watch s) eqn:Hw; simpl; [destruct (wp_closing s) eqn:Hc; simpl; [|by apply wpinv_kick]|]; (split; [done|]); destruct L as [L1 L2]; constructor; simpl.
    + congruence.
    + intros r w Hd. rewrite (parked_not_lost r w s) in *; done.
    + intros Hd Hl. destruct (L1 Hd Hl) as (H1 & H2 & H3). rewrite Hf, Hw in *. set_solver.
    + intros r w Hd. destruct (L2 r w Hd) as (H1 & H2 & H3). rewrite Hf in *. set_solver.
  - destruct (wp_drain s) eqn:Hd, (wp_frames s) eqn:Hf; simplify_eq. by apply wpinv_pass.
  - destruct (wp_drain s) as [| |r' w'] eqn:Hd, (wp_frames s) eqn:Hf; try done. destruct (_ && _ && _); simplify_eq. pose proof (parked_not_lost _ _ _ W Hd) as Hl.
    unfold drain_ready. destruct (r && wp_watch s); [|split; [by apply wsafe_run|by apply wlive_run]]. apply wpinv_finish; [by apply wsafe_run|done|].
    by case_bool_decide.
  - destruct (wp_drain s) as [| |r' w'] eqn:Hd, (wp_frames s) eqn:Hf; simplify_eq. pose proof (parked_not_lost _ _ _ W Hd) as Hl.
    apply wpinv_finish; [by apply wsafe_run|done|done].
Qed.

Lemma wpinv_reach b s : wreach b s -> wpinv s.
Proof.
  revert s. apply (rtc_ind_r (R := wstep) wpinv (wp_init b)); [|intros; by eapply wpinv_step].
  split; constructor; simpl; try done. intros _ _. set_solver.
Qed.

(** ** What the transport promises *)

(** The states that a list of events leads to. *)
Fixpoint wrun_all (l : list wev) (s : wpipe) : option wpipe :=
  match l with [] => Some s | e :: l' => match wexec e s with Some s' => wrun_all l' s' | None => None end end.

Lemma wrun_all_rtc l s s' : wrun_all l s = Some s' -> rtc wstep s s'.
Proof.
  revert s. induction l as [|e l IH]; simpl; intros s H; [by simplify_eq|]. destruct (wexec e s) as [s1|] eqn:E; [|done]. eapply rtc_l; [by exists e|auto].
Qed.

(** The pipe gets what [write] accepted, in order, nothing twice and nothing left out; [connection_lost] is the
    last callback, comes once, and with [None] only when the pipe took every byte; the pipe is closed then, and
    not before. *)
Theorem wpipe_exact b s : wreach b s ->
  wp_accepted s = wp_wire s ++ wp_buf s /\ view (wp_calls s) = Some (wp_paused s, negb (wp_open s)) /\
  (forall l1 exc l2, wp_calls s = l1 ++ CLost exc :: l2 -> l2 = [] /\ wp_open s = false /\ (exc = None -> wp_wire s = wp_accepted s)).
Proof.
  intros R. destruct (wpinv_reach b s R) as [[A B C D E] _]. split; [done|]. split; [by rewrite D, negb_involutive|]. intros l1 exc l2 H.
  assert (Hl : wp_lost s = true) by (eapply view_lost; [exact B|]; exists exc; rewrite H; set_solver). destruct (E Hl) as (_ & l & exc' & H1 & H2).
  assert (l2 = []) as ->.
  { destruct l2 as [|c l3 _] using rev_ind; [done|]. exfalso. rewrite H1 in H. change (CLost exc :: l3 ++ [c]) with ((CLost exc :: l3) ++ [c]) in H.
    rewrite app_assoc in H. apply app_inj_tail in H as [-> <-]. rewrite H1 in B. apply view_split in B as (p1 & b1 & B1 & B2).
    assert (b1 = true) as -> by (eapply view_lost; [exact B1|]; exists exc; set_solver). done. }
  rewrite H1 in H. apply app_inj_tail in H as [-> [= ->]]. split_and!; [done|by rewrite D, Hl|]. intros He. rewrite A, (H2 He). by rewrite app_nil_r.
Qed.

Lemma wpipe_exact_witness : exists s, wreach false s /\ wp_wire s = [1; 2; 3]%Z /\ wp_wire s = wp_accepted s /\ wp_open s = false.
Proof.
  pose (l := [WOp (WWrite [1; 2; 3]%Z (SOk 1)); WOp WClose; WReturn; WPass (SOk 1); WPass SBlock; WReady false true; WPass (SOk 1); WPass SBlock]).
  destruct (wrun_all l (wp_init false)) as [s|] eqn:E; [|vm_compute in E; discriminate]. exists s. pose proof (wrun_all_rtc _ _ _ E) as R.
  vm_compute in E. injection E as <-. destruct (proj2 (proj2 (wpipe_exact false _ R)) [CMade] None [] eq_refl) as (_ & H1 & H2).
  split_and!; [exact R|reflexivity|exact (H2 eq_refl)|exact H1].
Defined.

(** Nothing to do before a new operation or the poller. *)
Definition wquiet (s : wpipe) : Prop := wp_frames s = [] /\ wp_drain s ≠ DRun.

(** No pipe is stranded: once nothing is left to do but to wait for the poller, a pipe that was closed has
    called [connection_lost] or has bytes that the reader does not take and is parked for it; so is any pipe
    with bytes; and that of a socket is parked to see the reader go. *)
Theorem wpipe_no_stranded b s : wreach b s -> wquiet s -> wp_lost s = false ->
  (wp_eof s = true -> wp_buf s ≠ []) /\ (wp_buf s ≠ [] -> exists r, wp_drain s = DParked r true) /\ (wp_watch s = true -> exists w, wp_drain s = DParked true w).
Proof.
  intros R [Hf Hd] Hl. destruct (wpinv_reach b s R) as [_ [L1 L2]]. destruct (wp_drain s) as [| |r w] eqn:E; [|done|].
  - destruct (L1 eq_refl Hl) as (H1 & H2 & H3). rewrite Hf in *. split_and!; [congruence|intros H; by apply H3 in H; set_solver|intros H; apply H2 in H; set_solver].
  - destruct (L2 r w eq_refl) as (H1 & H2 & H3). rewrite Hf in *. split_and!; [done| |].
    + intros H. destruct (H3 H) as [->|]; [by exists r|set_solver].
    + intros H. rewrite (H2 H). by exists w.
Qed.

Lemma wpipe_no_stranded_witness : exists s, wreach true s /\ wp_buf s = [2; 3]%Z /\ exists r, wp_drain s = DParked r true.
Proof.
  pose (l := [WReturn; WOp (WWrite [1; 2; 3]%Z (SOk 1)); WPass SBlock]).
  destruct (wrun_all l (wp_init true)) as [s|] eqn:E; [|vm_compute in E; discriminate]. exists s. pose proof (wrun_all_rtc _ _ _ E) as R.
  vm_compute in E. injection E as <-. split_and!; [exact R|reflexivity|].
  apply (proj1 (proj2 (wpipe_no_stranded true _ R ltac:(split; [reflexivity|discriminate]) eq_refl))). discriminate.
Defined.

(** A reader that reads: callbacks return, the poller reports, each [os.write] takes something. *)
Definition drive (k : nat) (s : wpipe) : option wpipe :=
  match wp_frames s, wp_drain s with
  | _ :: _, _ => wexec WReturn s
  | [], DRun => wexec (WPass (SOk (S k))) s
  | [], DParked _ _ => wexec (WReady false true) s
  | [], DNone => None
  end.
Fixpoint pump (ks : list nat) (s : wpipe) : wpipe :=
  match ks with [] => s | k :: ks' => if wp_lost s then s else match drive k s with Some s' => pump ks' s' | None => s end end.

Definition weight (s : wpipe) : nat :=
  3 * length (wp_buf s) + 2 * length (wp_frames s) + match wp_drain s with DParked _ _ => 1 | _ => 0 end.

Lemma kick_weight s : weight (kick s) <= weight s /\ wp_lost (kick s) = wp_lost s /\ wp_eof (kick s) = wp_eof s.
Proof. unfold kick, weight. destruct (wp_drain s) eqn:E; [destruct (wp_closing s)|..]; simpl; rewrite ?E; (split_and!; [lia|done|done]). Qed.

(** A drive ends the connection, or makes the pipe lighter. *)
Lemma drive_lighter k s : wpinv s -> wp_lost s = false -> wp_eof s = true ->
  exists s', drive k s = Some s' /\ ((wp_lost s' = false /\ wp_eof s' = true /\ weight s' < weight s) \/ exists l, wp_calls s' = l ++ [CLost None] /\ wp_lost s' = true).
Proof.
  intros [W [L1 L2]] Hl He. unfold drive. destruct (wp_frames s) as [|f l] eqn:Hf.
  - destruct (wp_drain s) as [| |r w] eqn:Hd; [destruct (L1 eq_refl Hl); congruence| |]; simpl; rewrite Hd, Hf; simpl.
    + unfold drain_pass. case_bool_decide as Hb.
      * eexists. split; [done|]. right. unfold settle. rewrite bool_decide_true, He by done. simpl. unfold finish_pipe. simpl. rewrite Hl. simpl. by eexists.
      * eexists. split; [done|]. left. rewrite bool_decide_false by done. unfold pipe_resume, weight. simpl. rewrite Hd, Hf.
        destruct (wp_buf s) as [|x l]; [done|]. simpl. destruct (_ && _); simpl; rewrite ?Hd, ?Hf, ?length_drop; simpl; (split_and!; [done|done|lia]).
    + destruct (L2 r w eq_refl) as (H1 & _ & H3). assert (w = true) as -> by (destruct (H3 (H1 He)); [done|set_solver]).
      eexists. split; [done|]. left. unfold drain_ready, weight. simpl. rewrite Hd. split_and!; [done|done|lia].
  - simpl. rewrite Hf. eexists. split; [done|]. left. assert (H0 : weight (wset_frames l s) < weight s) by (unfold weight; simpl; rewrite Hf; simpl; lia).
    pose proof (kick_weight (wset_frames l s)) as (K1 & K2 & K3). simpl in K2, K3.
    destruct f; simpl; try (split_and!; [congruence|congruence|lia]). destruct (_ && _); (split_and!; simpl; [congruence|congruence|lia]).
Qed.

(** C31. Closing ends: if the reader reads, a pipe that was asked to close has sent every byte, called
    [connection_lost(None)] and closed within as many steps as its weight and one more, however little each write
    takes and whatever callbacks are under way. *)
Theorem wpipe_close_terminates b s ks : wreach b s -> wp_lost s = false -> wp_eof s = true -> weight s < length ks ->
  let s' := pump ks s in wp_open s' = false /\ wp_wire s' = wp_accepted s' /\ exists l, wp_calls s' = l ++ [CLost None].
Proof.
  intros R Hl He Hw. pose proof (wpinv_reach b s R) as V. clear R. simpl. revert s Hl He Hw V. induction ks as [|k ks IH]; intros s Hl He Hw V; simpl in *; [lia|].
  rewrite Hl. destruct (drive_lighter k s V Hl He) as (s' & Hd & H). rewrite Hd.
  assert (V' : wpinv s').
  { unfold drive in Hd. destruct (wp_frames s); [destruct (wp_drain s); [done|..]|]; (eapply wpinv_step; [exact V|by eexists]). }
  destruct H as [(H1 & H2 & H3)|(l & H1 & H2)]; [apply IH; try done; lia|].
  assert (pump ks s' = s') as -> by (destruct ks; simpl; [done|by rewrite H2]).
  destruct V' as [[A B C D E] _]. split; [by rewrite D, H2|]. split; [|by eexists]. destruct (E H2) as (_ & l' & exc & E1 & E2).
  rewrite H1 in E1. apply app_inj_tail in E1 as [_ [= <-]]. by rewrite A, (E2 eq_refl), app_nil_r.
Qed.

Lemma wpipe_close_terminates_witness : exists s, wp_buf s = [2; 3]%Z /\ wp_wire (pump (replicate 10 0) s) = [1; 2; 3]%Z /\ wp_open (pump (replicate 10 0) s) = false.
Proof.
  pose (l := [WReturn; WOp (WWrite [1; 2; 3]%Z (SOk 1)); WOp WClose; WPass SBlock]).
  destruct (wrun_all l (wp_init true)) as [s|] eqn:E; [|vm_compute in E; discriminate]. exists s. pose proof (wrun_all_rtc _ _ _ E) as R.
  vm_compute in E. injection E as <-. split_and!; [reflexivity|reflexivity|].
  apply (wpipe_close_terminates true _ (replicate 10 0) R); [reflexivity|reflexivity|vm_compute; lia].
Defined.

(** ** What goes wrong *)

(** [abort()] does not tear down: with a reader that does not read, the transport stays open with its bytes. *)
Theorem wpipe_abort_waits : exists s s', wreach false s /\ wexec (WOp WAbort) s = Some s' /\
  exists s'', wrun_all [WPass SBlock] s' = Some s'' /\ wquiet s'' /\ wp_open s'' = true /\ wp_buf s'' ≠ [].
Proof.
  pose (l := [WReturn; WOp (WWrite [1; 2; 3]%Z (SOk 1))]).
  destruct (wrun_all l (wp_init false)) as [s|] eqn:E; [|vm_compute in E; discriminate]. pose proof (wrun_all_rtc _ _ _ E) as R. vm_compute in E. injection E as <-.
  eexists _, _. split; [exact R|]. split; [reflexivity|]. eexists. split; [reflexivity|]. split; [by split|]. done.
Qed.

(** [set_write_buffer_limits] takes any limits: with a negative low mark a protocol that was told to pause is
    never told to resume, although the buffer is empty. *)
Theorem wpipe_limits_unchecked : exists s, wreach false s /\ wquiet s /\ wp_buf s = [] /\ wp_paused s = true /\ wp_open s = true.
Proof.
  pose (l := [WReturn; WOp (WLimits (Some 0%Z) (Some (-1)%Z)); WOp (WWrite [1; 2]%Z SBlock); WReturn; WPass (SOk 2); WPass SBlock]).
  destruct (wrun_all l (wp_init false)) as [s|] eqn:E; [|vm_compute in E; discriminate]. pose proof (wrun_all_rtc _ _ _ E) as R. vm_compute in E. injection E as <-.
  eexists. split; [exact R|]. split; [by split|]. done.
Qed.
