(* ===== verification/ReadPipe.v ===== *)
(** * Read pipes

    Models [class _ReadPipeTransport] ([src/src/stackweave/aio/pipes.py]): the fibers that read, pausing, the
    end of the stream and closing.  The transport remembers one fiber ([_read_g]); the model counts those that
    run, because there can be more.  Callbacks run synchronously and may call the transport; what [os.read]
    answers is part of the events. *)
From S2P Require Import Prelude Protocol.

(** What follows a callback: the constructor, the loop of fiber [i] after [data_received], [_eof], nothing. *)
Inductive rframe := RMade | RDeliver (i : nat) | REnded | RGone.

(** [_read_loop]: at its top, parked, in [data_received]. *)
Inductive rpc := RRun | RParked | RBusy.

(** The attributes, with the fiber [_read_g]; the fibers; the frames; the closes scheduled with [call_soon];
    whether the pipe is open; and, which the code does not read, the bytes read and the callbacks. *)
Record rpipe := RPipe {
  rp_closing : bool; rp_paused : bool; rp_g : option nat; rp_fibs : gmap nat rpc; rp_frames : list rframe;
  rp_soon : nat; rp_open : bool; rp_got : bytes; rp_calls : list pcall
}.

Definition rset_closing (s : rpipe) : rpipe :=
  RPipe true (rp_paused s) (rp_g s) (rp_fibs s) (rp_frames s) (rp_soon s) false (rp_got s) (rp_calls s).
Definition rset_paused (b : bool) (s : rpipe) : rpipe :=
  RPipe (rp_closing s) b (rp_g s) (rp_fibs s) (rp_frames s) (rp_soon s) (rp_open s) (rp_got s) (rp_calls s).
Definition rset_g (o : option nat) (s : rpipe) : rpipe :=
  RPipe (rp_closing s) (rp_paused s) o (rp_fibs s) (rp_frames s) (rp_soon s) (rp_open s) (rp_got s) (rp_calls s).
Definition rset_fibs (m : gmap nat rpc) (s : rpipe) : rpipe :=
  RPipe (rp_closing s) (rp_paused s) (rp_g s) m (rp_frames s) (rp_soon s) (rp_open s) (rp_got s) (rp_calls s).
Definition rset_frames (l : list rframe) (s : rpipe) : rpipe :=
  RPipe (rp_closing s) (rp_paused s) (rp_g s) (rp_fibs s) l (rp_soon s) (rp_open s) (rp_got s) (rp_calls s).
Definition rset_soon (n : nat) (s : rpipe) : rpipe :=
  RPipe (rp_closing s) (rp_paused s) (rp_g s) (rp_fibs s) (rp_frames s) n (rp_open s) (rp_got s) (rp_calls s).
Definition rgot (d : bytes) (s : rpipe) : rpipe :=
  RPipe (rp_closing s) (rp_paused s) (rp_g s) (rp_fibs s) (rp_frames s) (rp_soon s) (rp_open s) (rp_got s ++ d) (rp_calls s).
Definition rlog (c : pcall) (s : rpipe) : rpipe :=
  RPipe (rp_closing s) (rp_paused s) (rp_g s) (rp_fibs s) (rp_frames s) (rp_soon s) (rp_open s) (rp_got s) (rp_calls s ++ [c]).

#[export] Instance rpc_eq_dec : EqDecision rpc.
Proof. solve_decision. Defined.

Definition rp_init : rpipe := RPipe false false None ∅ [RMade] 0 true [] [CMade].

Definition renter (c : pcall) (f : rframe) (s : rpipe) : rpipe := rset_frames (f :: rp_frames s) (rlog c s).

(** [_fiber_io(self._read_loop)] *)
Definition spawn_reader (s : rpipe) : rpipe :=
  let i := fresh (dom (rp_fibs s)) in rset_g (Some i) (rset_fibs (<[i := RRun]> (rp_fibs s)) s).

(** [self._read_g.cancel_wait_fd()] *)
Definition wake_reader (s : rpipe) : rpipe :=
  match rp_g s with
  | Some i => match rp_fibs s !! i with Some RParked => rset_fibs (<[i := RRun]> (rp_fibs s)) s | _ => s end
  | None => s
  end.

(** A fiber ends. *)
Definition reader_exit (i : nat) (s : rpipe) : rpipe := rset_g None (rset_fibs (delete i (rp_fibs s)) s).

(** It ends at the end of the stream; [_eof] follows unless the transport closed. *)
Definition reader_eof (i : nat) (s : rpipe) : rpipe :=
  let s1 := reader_exit i s in if rp_closing s1 then s1 else renter CEof REnded s1.

(** A round of [_read_loop], with the answer of [os.read]. *)
Definition read_round (i : nat) (r : tread) (s : rpipe) : rpipe :=
  if rp_closing s || rp_paused s then reader_exit i s
  else
    match r with
    | RBlock => rset_fibs (<[i := RParked]> (rp_fibs s)) s
    | RErr _ | REof | RData [] => reader_eof i s
    | RData d => renter (CData d) (RDeliver i) (rset_fibs (<[i := RBusy]> (rp_fibs s)) (rgot d s))
    end.

(** [_close(exc)] *)
Definition rp_close (s : rpipe) : rpipe :=
  if rp_closing s then s else renter (CLost None) RGone (wake_reader (rset_closing s)).

Definition rp_pause (s : rpipe) : rpipe := wake_reader (rset_paused true s).
Definition rp_resume (s : rpipe) : rpipe :=
  if rp_paused s then
    let s1 := rset_paused false s in
    match rp_g s1 with None => if rp_closing s1 then s1 else spawn_reader s1 | Some _ => s1 end
  else s.

(** After a callback. *)
Definition reader_return (f : rframe) (s : rpipe) : rpipe :=
  match f with
  | RMade => spawn_reader s
  | RDeliver i => rset_fibs (<[i := RRun]> (rp_fibs s)) s
  | REnded => rset_soon (S (rp_soon s)) s
  | RGone => s
  end.

Inductive rop := RpClose | RpPause | RpResume.
Definition rrun (o : rop) (s : rpipe) : rpipe := match o with RpClose => rp_close s | RpPause => rp_pause s | RpResume => rp_resume s end.

(** An operation, by a callback or by anyone; a callback returns; a fiber's next round; the poller; an error of
    the wait; the loop runs a scheduled close. *)
Inductive rpev := ROp (o : rop) | RReturn | RGo (i : nat) (r : tread) | RReady (i : nat) | RFail (i : nat) | RSoon.

Definition rexec (e : rpev) (s : rpipe) : option rpipe :=
  match e with
  | ROp o => Some (rrun o s)
  | RReturn => match rp_frames s with f :: l => Some (reader_return f (rset_frames l s)) | [] => None end
  | RGo i r => match rp_frames s, rp_fibs s !! i with [], Some RRun => Some (read_round i r s) | _, _ => None end
  | RReady i => match rp_frames s, rp_fibs s !! i with [], Some RParked => Some (rset_fibs (<[i := RRun]> (rp_fibs s)) s) | _, _ => None end
  | RFail i => match rp_frames s, rp_fibs s !! i with [], Some RParked => Some (reader_eof i s) | _, _ => None end
  | RSoon => match rp_frames s, rp_soon s with [], S n => Some (rp_close (rset_soon n s)) | _, _ => None end
  end.

Definition rstep (s s' : rpipe) : Prop := exists e, rexec e s = Some s'.
Definition rreach : rpipe -> Prop := rtc rstep rp_init.

(** ** The invariant *)

(** The bytes delivered. *)
Definition delivered (l : list pcall) : bytes := l ≫= λ c, match c with CData d => d | _ => [] end.

(** A callback other than [connection_lost] is the first on an empty stack. *)
Fixpoint shape (l : list rframe) : bool := match l with [] => true | RGone :: l' => shape l' | _ :: l' => bool_decide (l' = []) end.

(** Bytes and callbacks, however many fibers there are. *)
Record rsafe (s : rpipe) : Prop := {
  rs_view : view (rp_calls s) = Some (false, rp_closing s);
  rs_open : rp_open s = negb (rp_closing s);
  rs_end : rp_closing s = true -> exists l, rp_calls s = l ++ [CLost None];
  rs_bytes : delivered (rp_calls s) = rp_got s;
  rs_eof : CEof ∈ rp_calls s -> rp_closing s = true \/ 0 < rp_soon s \/ REnded ∈ rp_frames s
}.

(** The fiber that reads is [_read_g], and is there when it is wanted. *)
Record ralone (s : rpipe) : Prop := {
  ra_shape : shape (rp_frames s) = true;
  ra_g i : rp_g s = Some i -> exists pc, rp_fibs s = {[i := pc]} /\ (pc = RParked -> rp_paused s = false /\ rp_closing s = false) /\ (pc = RBusy -> RDeliver i ∈ rp_frames s);
  ra_none : rp_g s = None -> rp_fibs s = ∅ /\
    (rp_paused s = false -> rp_closing s = false -> RMade ∈ rp_frames s \/ REnded ∈ rp_frames s \/ 0 < rp_soon s);
  ra_made : RMade ∈ rp_frames s -> rp_g s = None;
  ra_data i : RDeliver i ∈ rp_frames s -> rp_g s = Some i
}.

Lemma delivered_snoc l c : delivered (l ++ [c]) = delivered l ++ match c with CData d => d | _ => [] end.
Proof. unfold delivered. rewrite bind_app. simpl. by rewrite app_nil_r. Qed.

Lemma wake_reader_eq s : exists m, wake_reader s = rset_fibs m s.
Proof. unfold wake_reader. destruct (rp_g s); [|exists (rp_fibs s); by destruct s]. destruct (_ !! _) as [[]|]; eauto; exists (rp_fibs s); by destruct s. Qed.

(** *** Bytes and callbacks *)

Lemma rsafe_fibs m s : rsafe s -> rsafe (rset_fibs m s).
Proof. intros []. by constructor. Qed.
Lemma rsafe_g o s : rsafe s -> rsafe (rset_g o s).
Proof. intros []. by constructor. Qed.
Lemma rsafe_wake s : rsafe s -> rsafe (wake_reader s).
Proof. destruct (wake_reader_eq s) as [m ->]. apply rsafe_fibs. Qed.

Lemma rsafe_close s : rsafe s -> rsafe (rp_close s).
Proof.
  intros S. unfold rp_close. destruct (rp_closing s) eqn:Hc; [done|]. destruct S as [A B C D E]. destruct (wake_reader_eq (rset_closing s)) as [m ->].
  constructor; simpl; try done.
  - by rewrite view_snoc, A, Hc.
  - by eexists.
  - by rewrite delivered_snoc, app_nil_r.
  - by left.
Qed.

Lemma rsafe_eof i s : rsafe s -> rsafe (reader_eof i s).
Proof.
  intros S. unfold reader_eof. assert (S1 : rsafe (reader_exit i s)) by (by apply rsafe_g, rsafe_fibs). revert S1. generalize (reader_exit i s). intros s1 S1.
  destruct (rp_closing s1) eqn:Hc; [done|]. destruct S1 as [A B C D E]. constructor; simpl; try done.
  - by rewrite view_snoc, A, Hc.
  - congruence.
  - by rewrite delivered_snoc, app_nil_r.
  - intros _. right; right. set_solver.
Qed.

Lemma rsafe_round i r s : rsafe s -> rsafe (read_round i r s).
Proof.
  intros S. unfold read_round. destruct (rp_closing s) eqn:Hc; [by apply rsafe_g, rsafe_fibs|]. destruct (rp_paused s); simpl; [by apply rsafe_g, rsafe_fibs|].
  destruct r as [[|b d]| | |e]; [by apply rsafe_eof| |by apply rsafe_eof|by apply rsafe_fibs|by apply rsafe_eof].
  destruct S as [A B C D E]. constructor; simpl; try done.
  - by rewrite view_snoc, A, Hc.
  - congruence.
  - by rewrite delivered_snoc, D.
  - intros [H|H]%elem_of_app; [|set_solver]. destruct (E H) as [?|[?|?]]; [congruence|auto|]. right; right. set_solver.
Qed.

Lemma rsafe_op o s : rsafe s -> rsafe (rrun o s).
Proof.
  intros S. destruct o; simpl; [by apply rsafe_close| |].
  - apply rsafe_wake. destruct S. by constructor.
  - unfold rp_resume. destruct (rp_paused s); [|done]. assert (S1 : rsafe (rset_paused false s)) by (by destruct S; constructor). simpl. destruct (rp_g s); [done|].
    destruct (rp_closing s); [done|]. by apply rsafe_g, rsafe_fibs.
Qed.

Lemma rsafe_step s s' : rsafe s -> rstep s s' -> rsafe s'.
Proof.
  intros S [e He]. destruct e as [o| |i r|i|i|]; simpl in He.
  - simplify_eq. by apply rsafe_op.
  - destruct (rp_frames s) as [|f l] eqn:Hf; simplify_eq. destruct S as [A B C D E]. rewrite Hf in E.
    destruct f; constructor; simpl; try done; intros H; destruct (E H) as [?|[?|?]]; auto; try (right; right; set_solver). right; left. lia.
  - destruct (rp_frames s), (rp_fibs s !! i) as [[]|]; simplify_eq. by apply rsafe_round.
  - destruct (rp_frames s), (rp_fibs s !! i) as [[]|]; simplify_eq. by apply rsafe_fibs.
  - destruct (rp_frames s), (rp_fibs s !! i) as [[]|]; simplify_eq. by apply rsafe_eof.
  - destruct (rp_frames s) eqn:Hf, (rp_soon s) eqn:Hn; simplify_eq. destruct S as [A B C D E]. unfold rp_close. simpl. destruct (rp_closing s) eqn:Hc.
    + constructor; simpl; rewrite ?Hc; try done. by left.
    + destruct (wake_reader_eq (rset_closing (rset_soon n s))) as [m ->]. constructor; simpl; try done.
      * by rewrite view_snoc, A.
      * by eexists.
      * by rewrite delivered_snoc, app_nil_r.
      * by left.
Qed.

Lemma rsafe_reach s : rreach s -> rsafe s.
Proof.
  revert s. apply (rtc_ind_r (R := rstep) rsafe rp_init); [|intros; by eapply rsafe_step]. constructor; simpl; try done. intros H. set_solver.
Qed.

(** *** The fiber *)

(** [resume_reading] is not called in [connection_made] (which spawns a fiber of its own afterwards). *)
Definition rtame (e : rpev) (s : rpipe) : Prop := e = ROp RpResume -> RMade ∉ rp_frames s.
Definition rtame_step (s s' : rpipe) : Prop := exists e, rtame e s /\ rexec e s = Some s'.

(** Frames that are not there, or were there before. *)
Ltac no_frame :=
  intros; repeat match goal with
  | H : _ ∈ [] |- _ => by apply not_elem_of_nil in H
  | H : _ ∈ _ :: _ |- _ => apply elem_of_cons in H as [H|H]; [congruence|]
  end; by auto.

Lemma ralone_close s : ralone s -> ralone (rp_close s).
Proof.
  intros [A B C D E]. unfold rp_close. destruct (rp_closing s) eqn:Hc; [by constructor; rewrite ?Hc|]. unfold wake_reader. simpl.
  destruct (rp_g s) as [i|] eqn:Hg.
  - destruct (B i eq_refl) as (pc & Hf & H1 & H2). rewrite Hf, lookup_singleton_eq. destruct pc; (constructor; simpl; rewrite ?Hg; try done; try solve [no_frame]);
      intros j [= <-]; [exists RRun|exists RRun|exists RBusy]; rewrite ?insert_singleton_eq; (split; [done|]); (split; [done|]); try done; set_solver.
  - destruct (C eq_refl) as [Hf _]. constructor; simpl; rewrite ?Hg; try done. intros i H. apply E. set_solver.
Qed.

Lemma ralone_exit i s : ralone s -> rp_frames s = [] -> rp_fibs s !! i = Some RRun \/ rp_fibs s !! i = Some RParked ->
  rp_fibs (reader_exit i s) = ∅.
Proof.
  intros [A B C D E] Hf Hi. simpl. destruct (rp_g s) as [j|]; [|destruct (C eq_refl) as [-> _]; by rewrite delete_empty].
  destruct (B j eq_refl) as (pc & Hm & _). rewrite Hm in *. destruct (decide (i = j)) as [->|]; [by rewrite delete_singleton_eq|]. rewrite lookup_singleton_ne in Hi by done. naive_solver.
Qed.

Lemma ralone_eof i s : ralone s -> rp_frames s = [] -> rp_fibs s !! i = Some RRun \/ rp_fibs s !! i = Some RParked -> ralone (reader_eof i s).
Proof.
  intros L Hf Hi. pose proof (ralone_exit i s L Hf Hi) as Hm. unfold reader_eof. simpl in *. destruct (rp_closing s) eqn:Hc; constructor; simpl; rewrite ?Hf, ?Hm; try done.
  - intros _. split; [done|]. congruence.
  - set_solver.
  - intros _. split; [done|]. intros _ _. right; left. set_solver.
  - set_solver.
Qed.

Lemma ralone_at i s : ralone s -> rp_frames s = [] -> is_Some (rp_fibs s !! i) -> rp_g s = Some i /\ exists pc, rp_fibs s = {[i := pc]}.
Proof.
  intros [A B C D E] Hf [pc Hi]. destruct (rp_g s) as [j|] eqn:Hg; [|destruct (C eq_refl) as [Hm _]; by rewrite Hm in Hi].
  destruct (B j eq_refl) as (pc' & Hm & _). rewrite Hm in Hi. apply lookup_singleton_Some in Hi as [-> _]. eauto.
Qed.

(** The fiber moves to another place. *)
Lemma ralone_move i pc s : ralone s -> rp_frames s = [] -> is_Some (rp_fibs s !! i) -> pc ≠ RBusy -> (pc = RParked -> rp_paused s = false /\ rp_closing s = false) ->
  ralone (rset_fibs (<[i := pc]> (rp_fibs s)) s).
Proof.
  intros L Hf Hi Hb Hp. destruct (ralone_at i s L Hf Hi) as (Hg & pc' & Hm). rewrite Hm, insert_singleton_eq. destruct L as [A B C D E].
  constructor; simpl; rewrite ?Hf, ?Hg; try done; try solve [no_frame]. intros j [= <-]. by exists pc.
Qed.

Lemma ralone_round i r s : ralone s -> rp_frames s = [] -> rp_fibs s !! i = Some RRun -> ralone (read_round i r s).
Proof.
  intros L Hf Hi. unfold read_round. destruct (rp_closing s) eqn:Hc; [|destruct (rp_paused s) eqn:Hp]; simpl.
  1,2: pose proof (ralone_exit i s L Hf (or_introl Hi)) as Hm; simpl in Hm; constructor; simpl; rewrite ?Hf, ?Hm; try done; try solve [no_frame]; intros _; split; [done|congruence].
  destruct r as [[|b d]| | |e]; [by apply ralone_eof; auto| |by apply ralone_eof; auto|by apply ralone_move; rewrite ?Hi; auto|by apply ralone_eof; auto].
  destruct (ralone_at i s L Hf ltac:(by rewrite Hi)) as (Hg & pc' & Hm). rewrite Hm, insert_singleton_eq. destruct L as [A B C D E].
  constructor; simpl; rewrite ?Hf, ?Hg; try done.
  - intros j [= <-]. exists RBusy. split_and!; try done. intros _. set_solver.
  - set_solver.
  - intros j Hj. apply list_elem_of_singleton in Hj as [= ->]. done.
Qed.

Lemma ralone_op o s : ralone s -> rtame (ROp o) s -> ralone (rrun o s).
Proof.
  intros L T. destruct o; simpl; [by apply ralone_close| |].
  - destruct L as [A B C D E]. unfold rp_pause, wake_reader. simpl. destruct (rp_g s) as [i|] eqn:Hg.
    + destruct (B i eq_refl) as (pc & Hf & H1 & H2). rewrite Hf, lookup_singleton_eq. destruct pc; constructor; simpl; rewrite ?Hg; try done;
        intros j [= <-]; [exists RRun|exists RRun|exists RBusy]; rewrite ?insert_singleton_eq; (split; [done|]); (split; [done|]); try done; auto.
    + destruct (C eq_refl) as [Hf _]. constructor; simpl; rewrite ?Hg; try done.
  - unfold rp_resume. destruct (rp_paused s) eqn:Hp; [|done]. specialize (T eq_refl). destruct L as [A B C D E]. simpl. destruct (rp_g s) as [i|] eqn:Hg.
    + constructor; simpl; rewrite ?Hg; try done. intros j [= <-]. destruct (B i eq_refl) as (pc & Hf & H1 & H2). exists pc. split_and!; try done.
      intros Hpc. destruct (H1 Hpc). congruence.
    + destruct (C eq_refl) as [Hf _]. destruct (rp_closing s) eqn:Hc.
      * constructor; simpl; rewrite ?Hg; try done. intros _. split; [done|congruence].
      * constructor; simpl; try done. intros j [= <-]. exists RRun. rewrite Hf, insert_empty. split_and!; try done. intros i Hi. apply E in Hi. congruence.
Qed.

Lemma ralone_step s s' : ralone s -> rtame_step s s' -> ralone s'.
Proof.
  intros L (e & T & He). destruct e as [o| |i r|i|i|]; simpl in He.
  - simplify_eq. by apply ralone_op.
  - destruct (rp_frames s) as [|f l] eqn:Hf; simplify_eq. pose proof L as [A B C D E]. rewrite Hf in *. simpl in A.
    destruct f as [|i| |]; simpl; [apply bool_decide_eq_true in A as ->..|].
    + destruct (C (D ltac:(set_solver))) as [Hm _]. constructor; simpl; try done; try solve [no_frame]. intros j [= <-]. exists RRun. by rewrite Hm, insert_empty.
    + assert (Hg : rp_g s = Some i) by (apply E; set_solver). destruct (B i Hg) as (pc & Hm & _). constructor; simpl; rewrite ?Hg, ?Hm; try done; try solve [no_frame].
      intros j [= <-]. exists RRun. by rewrite insert_singleton_eq.
    + constructor; simpl; try done; [| |set_solver|set_solver].
      * intros j Hg. destruct (B j Hg) as (pc & Hm & H1 & H2). exists pc. split_and!; try done. intros Hb. apply H2 in Hb. set_solver.
      * intros Hg. destruct (C Hg) as [Hm _]. split; [done|]. intros _ _. right; right. lia.
    + constructor; simpl; try done.
      * intros j Hg. destruct (B j Hg) as (pc & Hm & H1 & H2). exists pc. split_and!; try done. intros Hb. apply H2 in Hb. set_solver.
      * intros Hg. destruct (C Hg) as [Hm H1]. split; [done|]. intros Hp Hc. destruct (H1 Hp Hc) as [?|[?|?]]; set_solver.
      * intros H. apply D. set_solver.
      * intros i H. apply E. set_solver.
  - destruct (rp_frames s) eqn:Hf, (rp_fibs s !! i) as [[]|] eqn:Hi; simplify_eq. by apply ralone_round.
  - destruct (rp_frames s) eqn:Hf, (rp_fibs s !! i) as [[]|] eqn:Hi; simplify_eq. by apply ralone_move; rewrite ?Hi.
  - destruct (rp_frames s) eqn:Hf, (rp_fibs s !! i) as [[]|] eqn:Hi; simplify_eq. by apply ralone_eof; auto.
  - destruct (rp_frames s) eqn:Hf, (rp_soon s) eqn:Hn; simplify_eq. destruct (rp_closing s) eqn:Hc.
    + unfold rp_close. simpl. rewrite Hc. destruct L as [A B C D E]. rewrite Hf in *. constructor; simpl; rewrite ?Hf; try done.
      intros Hg. destruct (C Hg) as [Hm _]. split; [done|congruence].
    + unfold rp_close. simpl. rewrite Hc. unfold wake_reader. simpl. destruct L as [A B C D E]. rewrite Hf in *. destruct (rp_g s) as [i|] eqn:Hg.
      * destruct (B i eq_refl) as (pc & Hm & H1 & H2). rewrite Hm, lookup_singleton_eq. destruct pc; (constructor; simpl; rewrite ?Hf, ?Hg; try done; try solve [no_frame]);
          intros j [= <-]; [exists RRun|exists RRun|exists RBusy]; rewrite ?insert_singleton_eq; (split; [done|]); (split; [done|]); try done; set_solver.
      * destruct (C eq_refl) as [Hm _]. constructor; simpl; rewrite ?Hf, ?Hg; try done; set_solver.
Qed.

Lemma ralone_reach s : rtc rtame_step rp_init s -> ralone s.
Proof.
  revert s. apply (rtc_ind_r (R := rtame_step) ralone rp_init); [|intros; by eapply ralone_step].
  constructor; simpl; try done; try solve [no_frame]. intros _. split; [done|]. intros _ _. left. set_solver.
Qed.

Lemma rtame_reach_step s : rtc rtame_step rp_init s -> rreach s.
Proof. intros R. apply (rtc_subrel rtame_step rstep); [|done]. intros s1 s2 (e & _ & He). by exists e. Qed.

(** ** Traces *)

Fixpoint rrun_all (l : list rpev) (s : rpipe) : option rpipe :=
  match l with [] => Some s | e :: l' => match rexec e s with Some s' => rrun_all l' s' | None => None end end.
Definition rtame_b (e : rpev) (s : rpipe) : bool := match e with ROp RpResume => forallb (λ f, match f with RMade => false | _ => true end) (rp_frames s) | _ => true end.
Fixpoint rtame_run (l : list rpev) (s : rpipe) : bool :=
  match l with [] => true | e :: l' => rtame_b e s && match rexec e s with Some s' => rtame_run l' s' | None => false end end.

Lemma rrun_all_rtc l s s' : rrun_all l s = Some s' -> rtc rstep s s'.
Proof.
  revert s. induction l as [|e l IH]; simpl; intros s H; [by simplify_eq|]. destruct (rexec e s) as [s1|] eqn:E; [|done]. eapply rtc_l; [by exists e|auto].
Qed.
Lemma rtame_run_rtc l s s' : rrun_all l s = Some s' -> rtame_run l s = true -> rtc rtame_step s s'.
Proof.
  revert s. induction l as [|e l IH]; simpl; intros s H T; [by simplify_eq|]. destruct (rexec e s) as [s1|] eqn:E; [|done]. apply andb_prop in T as [T1 T2].
  eapply rtc_l; [|by apply IH]. exists e. split; [|done]. intros ->. simpl in T1. intros Hin. apply list_elem_of_In in Hin. rewrite forallb_forall in T1. by specialize (T1 _ Hin).
Qed.

(** ** What the transport promises *)

(** The protocol gets what was read, in order and whole, and no callback comes after [connection_lost], which
    comes once, when the pipe is closed. *)
Theorem rpipe_exact s : rreach s ->
  delivered (rp_calls s) = rp_got s /\ view (rp_calls s) = Some (false, rp_closing s) /\ rp_open s = negb (rp_closing s) /\
  (rp_closing s = true -> exists l, rp_calls s = l ++ [CLost None]).
Proof. intros R. by destruct (rsafe_reach s R). Qed.

Lemma rpipe_exact_witness : exists s, rreach s /\ rp_got s = [1; 2; 3]%Z /\ delivered (rp_calls s) = [1; 2; 3]%Z /\ rp_closing s = true.
Proof.
  pose (l := [RReturn; RGo 0 (RData [1; 2]%Z); RReturn; RGo 0 RBlock; RReady 0; RGo 0 (RData [3]%Z); RReturn; RGo 0 REof; RReturn; RSoon; RReturn]).
  destruct (rrun_all l rp_init) as [s|] eqn:E; [|vm_compute in E; discriminate]. exists s. pose proof (rrun_all_rtc _ _ _ E) as R.
  assert (G : rp_got s = [1; 2; 3]%Z /\ rp_closing s = true) by (vm_compute in E; injection E as <-; split; reflexivity). destruct G as [G1 G2].
  split_and!; [exact R|exact G1|rewrite <-G1; apply (rpipe_exact s R)|exact G2].
Defined.

(** Nothing to do before a new operation or the poller. *)
Definition rquiet (s : rpipe) : Prop := rp_frames s = [] /\ rp_soon s = 0 /\ forall i, rp_fibs s !! i ≠ Some RRun.

(** No reader is stranded, and none is left behind: once nothing is left to do, a pipe that is neither paused
    nor closed has its one fiber parked; a paused or closed pipe has none; and one whose end was reported is
    closed. *)
Theorem rpipe_no_stranded s : rtc rtame_step rp_init s -> rquiet s ->
  (rp_paused s = false -> rp_closing s = false -> exists i, rp_g s = Some i /\ rp_fibs s = {[i := RParked]}) /\
  (rp_paused s = true \/ rp_closing s = true -> rp_fibs s = ∅) /\ (CEof ∈ rp_calls s -> rp_closing s = true /\ rp_open s = false).
Proof.
  intros R (Hf & Hn & Hq). pose proof (ralone_reach s R) as [A B C D E]. pose proof (rsafe_reach s (rtame_reach_step s R)) as [S1 S2 S3 S4 S5]. rewrite Hf, Hn in *.
  assert (P : forall i pc, rp_fibs s = {[i := pc]} -> (pc = RBusy -> RDeliver i ∈ []) -> pc = RParked).
  { intros i pc Hm Hb. specialize (Hq i). rewrite Hm, lookup_singleton_eq in Hq. destruct pc; [done|done|]. by apply not_elem_of_nil in Hb. }
  split_and!.
  - intros Hp Hc. destruct (rp_g s) as [i|]; [|destruct (C eq_refl) as [_ [?|[?|?]]]; [done..| | |lia]; exfalso; by eapply not_elem_of_nil].
    destruct (B i eq_refl) as (pc & Hm & _ & Hb). exists i. split; [done|]. by rewrite (P i pc Hm Hb) in Hm.
  - intros Hpc. destruct (rp_g s) as [i|]; [|by destruct (C eq_refl)]. destruct (B i eq_refl) as (pc & Hm & Hp & Hb).
    destruct (Hp (P i pc Hm Hb)). destruct Hpc; congruence.
  - intros He. destruct (S5 He) as [Hc|[?|?]]; [|lia|by exfalso; eapply not_elem_of_nil]. by rewrite S2, Hc.
Qed.

Lemma rpipe_no_stranded_witness : exists s, rtc rtame_step rp_init s /\ rp_fibs s = {[0 := RParked]}.
Proof.
  pose (l := [RReturn; ROp RpPause; RGo 0 RBlock; ROp RpResume; RGo 0 (RData [1]%Z); RReturn; RGo 0 RBlock]).
  destruct (rrun_all l rp_init) as [s|] eqn:E; [|vm_compute in E; discriminate]. exists s.
  assert (T : rtame_run l rp_init = true) by (vm_compute; reflexivity). pose proof (rtame_run_rtc _ _ _ E T) as R. split; [exact R|].
  assert (G : rp_frames s = [] /\ rp_soon s = 0 /\ rp_paused s = false /\ rp_closing s = false /\ rp_g s = Some 0 /\ rp_fibs s = {[0 := RParked]})
    by (vm_compute in E; injection E as <-; by vm_compute).
  destruct G as (G1 & G2 & G3 & G4 & G5 & G6).
  assert (Q : rquiet s). { split_and!; [exact G1|exact G2|]. intros i. rewrite G6. intros H. apply lookup_singleton_Some in H as [_ H]. discriminate. }
  destruct (proj1 (rpipe_no_stranded s R Q) G3 G4) as (i & H1 & H2). rewrite G5 in H1. injection H1 as <-. exact H2.
Defined.

(** ** What goes wrong *)

(** [pause_reading] and [resume_reading] in [connection_made] leave two fibers on the pipe, of which the
    transport knows one: after [close()] the other stays parked on the closed pipe. *)
Theorem rpipe_double_spawn : exists s, rreach s /\ rquiet s /\ rp_closing s = true /\ rp_open s = false /\ exists i, rp_fibs s !! i = Some RParked.
Proof.
  pose (l := [ROp RpPause; ROp RpResume; RReturn; RGo 0 RBlock; RGo 1 RBlock; ROp RpClose; RReturn; RGo 1 RBlock]).
  destruct (rrun_all l rp_init) as [s|] eqn:E; [|vm_compute in E; discriminate]. exists s. pose proof (rrun_all_rtc _ _ _ E) as R. split; [exact R|].
  assert (G : rp_frames s = [] /\ rp_soon s = 0 /\ rp_closing s = true /\ rp_open s = false /\ rp_fibs s = {[0 := RParked]}) by (vm_compute in E; injection E as <-; by vm_compute).
  destruct G as (G1 & G2 & G3 & G4 & G5). split_and!; [split_and!; [done|done|]|done|done|].
  - intros i. rewrite G5. intros [_ ?]%lookup_singleton_Some. done.
  - exists 0. by rewrite G5, lookup_singleton_eq.
Qed.

(** The end of the stream is reported twice when the protocol pauses and resumes in [eof_received]. *)
Theorem rpipe_eof_twice : exists s, rtc rtame_step rp_init s /\ rp_calls s = [CMade; CEof; CEof].
Proof.
  pose (l := [RReturn; RGo 0 REof; ROp RpPause; ROp RpResume; RReturn; RGo 0 REof]).
  destruct (rrun_all l rp_init) as [s|] eqn:E; [|vm_compute in E; discriminate]. exists s. split; [|vm_compute in E; by injection E as <-].
  eapply rtame_run_rtc; [exact E|by vm_compute].
Qed.
