(* ===== verification/Datagram.v ===== *)
(** * Datagram transports

    Models [class DatagramTransport] ([src/src/stackweave/aio/transport_datagram.py]): sending at once or
    through the queue, the fiber that flushes the queue, the fiber that receives, closing and aborting.
    Callbacks run synchronously and may call the transport; what the socket answers is part of the events.
    [_closed] and [_stopping] are set together, and are one field here. *)
From S2P Require Import Prelude.

(** A datagram: its bytes and its address. *)
Record dgram := Dgram { dg_data : list Z; dg_addr : option nat }.

(** What [send] or [sendto] does, and what [recvfrom] does. *)
Inductive dsend := DSent | DBlock | DErr (e : nat).
Inductive drecv := DGot (d : dgram) | DEmpty | DRerr (e : nat).

(** The protocol's callbacks; [error_received] is marked by whether it is about sending. *)
Inductive dcall := DcMade | DcData (d : dgram) | DcError (send : bool) (e : nat) | DcLost.

(** What follows a callback: the constructor; the receiving loop after [datagram_received], and after
    [error_received], which ends it; [sendto] after [error_received]; the flush fiber after [error_received];
    nothing after [connection_lost]. *)
Inductive dframe := DfMade | DfData | DfRerr | DfSendto | DfSerr | DfLost.

#[export] Instance dframe_eq_dec : EqDecision dframe.
Proof. solve_decision. Defined.

(** [_recv_loop]: not there; at its top; parked; woken by [close]; in a callback. *)
Inductive rvpc := RvNone | RvRun | RvParked | RvCancel | RvBusy.

(** [_send_loop]: not there; at its top; parked; woken by [close]; in its inner loop; in a callback. *)
Inductive sgpc := SgNone | SgTop | SgParked | SgCancel | SgRun | SgBusy.

(** The attributes, with whether [_recv_g] and [_send_g] are set ([_recv_g] is [None] before the constructor
    assigns it, after [connection_made]); the fibers; the frames; whether the socket is open; and, which the code
    does not read, the datagrams submitted before [close], those that left the queue with whether they were
    sent, whether [abort] dropped some, the callbacks, and whether [close] or [abort] was called while
    [connection_made] ran. *)
Record dgtr := Dgtr {
  dg_closed : bool; dg_buf : list dgram; dg_rg : option bool; dg_recv : rvpc; dg_sg : bool; dg_send : sgpc;
  dg_frames : list dframe; dg_open : bool; dg_sub : list dgram; dg_out : list (dgram * bool); dg_dropped : bool;
  dg_calls : list dcall; dg_early : bool
}.

Definition dset_buf (b : list dgram) (s : dgtr) : dgtr :=
  Dgtr (dg_closed s) b (dg_rg s) (dg_recv s) (dg_sg s) (dg_send s) (dg_frames s) (dg_open s) (dg_sub s) (dg_out s)
    (dg_dropped s) (dg_calls s) (dg_early s).
Definition dset_recv (p : rvpc) (s : dgtr) : dgtr :=
  Dgtr (dg_closed s) (dg_buf s) (dg_rg s) p (dg_sg s) (dg_send s) (dg_frames s) (dg_open s) (dg_sub s) (dg_out s)
    (dg_dropped s) (dg_calls s) (dg_early s).
Definition dset_send (g : bool) (p : sgpc) (s : dgtr) : dgtr :=
  Dgtr (dg_closed s) (dg_buf s) (dg_rg s) (dg_recv s) g p (dg_frames s) (dg_open s) (dg_sub s) (dg_out s) (dg_dropped s)
    (dg_calls s) (dg_early s).
Definition dset_frames (l : list dframe) (s : dgtr) : dgtr :=
  Dgtr (dg_closed s) (dg_buf s) (dg_rg s) (dg_recv s) (dg_sg s) (dg_send s) l (dg_open s) (dg_sub s) (dg_out s) (dg_dropped s)
    (dg_calls s) (dg_early s).
Definition dset_closed (s : dgtr) : dgtr :=
  Dgtr true (dg_buf s) (Some false) (dg_recv s) false (dg_send s) (dg_frames s) false (dg_sub s) (dg_out s) (dg_dropped s) (dg_calls s) (dg_early s).
Definition dsub (d : dgram) (s : dgtr) : dgtr :=
  Dgtr (dg_closed s) (dg_buf s) (dg_rg s) (dg_recv s) (dg_sg s) (dg_send s) (dg_frames s) (dg_open s) (dg_sub s ++ [d])
    (dg_out s) (dg_dropped s) (dg_calls s) (dg_early s).
Definition dout (d : dgram) (b : bool) (s : dgtr) : dgtr :=
  Dgtr (dg_closed s) (dg_buf s) (dg_rg s) (dg_recv s) (dg_sg s) (dg_send s) (dg_frames s) (dg_open s) (dg_sub s)
    (dg_out s ++ [(d, b)]) (dg_dropped s) (dg_calls s) (dg_early s).
Definition dclear (s : dgtr) : dgtr :=
  Dgtr (dg_closed s) [] (dg_rg s) (dg_recv s) (dg_sg s) (dg_send s) (dg_frames s) (dg_open s) (dg_sub s) (dg_out s) true
    (dg_calls s) (dg_early s).
Definition dlog (c : dcall) (s : dgtr) : dgtr :=
  Dgtr (dg_closed s) (dg_buf s) (dg_rg s) (dg_recv s) (dg_sg s) (dg_send s) (dg_frames s) (dg_open s) (dg_sub s) (dg_out s)
    (dg_dropped s) (dg_calls s ++ [c]) (dg_early s).
Definition dspawn_recv (s : dgtr) : dgtr :=
  Dgtr (dg_closed s) (dg_buf s) (Some true) RvRun (dg_sg s) (dg_send s) (dg_frames s) (dg_open s) (dg_sub s) (dg_out s)
    (dg_dropped s) (dg_calls s) (dg_early s).

(** [_closed] and [_stopping] only. *)
Definition dset_stopping (s : dgtr) : dgtr :=
  Dgtr true (dg_buf s) (dg_rg s) (dg_recv s) (dg_sg s) (dg_send s) (dg_frames s) (dg_open s) (dg_sub s) (dg_out s) (dg_dropped s) (dg_calls s)
    (dg_early s).
Definition dset_early (s : dgtr) : dgtr :=
  Dgtr (dg_closed s) (dg_buf s) (dg_rg s) (dg_recv s) (dg_sg s) (dg_send s) (dg_frames s) (dg_open s) (dg_sub s) (dg_out s)
    (dg_dropped s) (dg_calls s) true.

Definition dg_init : dgtr := Dgtr false [] None RvNone false SgNone [DfMade] true [] [] false [DcMade] false.

Definition denter (c : dcall) (f : dframe) (s : dgtr) : dgtr := dset_frames (f :: dg_frames s) (dlog c s).

(** [sendto(data, addr)], with the answer of the socket when nothing is queued. *)
Definition sendto (d : dgram) (r : dsend) (s : dgtr) : dgtr :=
  if dg_closed s then s
  else
    let s1 := dsub d s in
    if bool_decide (dg_buf s ≠ []) then dset_buf (dg_buf s1 ++ [d]) s1
    else
      match r with
      | DSent => dout d true s1
      | DErr e => denter (DcError true e) DfSendto (dout d false s1)
      | DBlock => let s2 := dset_buf [d] s1 in if dg_sg s2 then s2 else dset_send true SgTop s2
      end.

(** [close()], [abort()].  Before the constructor has assigned [_recv_g], reading it raises [AttributeError] at once:
    the flags are set and nothing else happens. *)
Definition dg_close (s : dgtr) : dgtr :=
  if dg_closed s then s
  else
    match dg_rg s with
    | None => dset_stopping s
    | Some g =>
        let rv := if g then match dg_recv s with RvParked => RvCancel | p => p end else dg_recv s in
        let sg := if dg_sg s then match dg_send s with SgParked => SgCancel | p => p end else dg_send s in
        denter DcLost DfLost (dset_send false sg (dset_recv rv (dset_closed s)))
    end.
Definition dg_abort (s : dgtr) : dgtr := dg_close (dclear s).

(** A round of [_recv_loop], with the answer of [recvfrom]. *)
Definition recv_round (r : drecv) (s : dgtr) : dgtr :=
  if dg_closed s then dset_recv RvNone s
  else
    match r with
    | DGot d => denter (DcData d) DfData (dset_recv RvBusy s)
    | DEmpty => dset_recv RvParked s
    | DRerr e => denter (DcError false e) DfRerr (dset_recv RvBusy s)
    end.

(** [_send_loop]: its end ([finally]), its top, a round of its inner loop with the answer of the socket. *)
Definition send_exit (s : dgtr) : dgtr := dset_send false SgNone s.
Definition send_wanted (s : dgtr) : bool := bool_decide (dg_buf s ≠ []) && negb (dg_closed s).
Definition send_top (s : dgtr) : dgtr := if send_wanted s then dset_send (dg_sg s) SgParked s else send_exit s.
Definition send_round (r : dsend) (s : dgtr) : dgtr :=
  if send_wanted s then
    match dg_buf s, r with
    | d :: b, DSent => dout d true (dset_buf b s)
    | d :: b, DErr e => denter (DcError true e) DfSerr (dset_send (dg_sg s) SgBusy (dout d false (dset_buf b s)))
    | _, _ => dset_send (dg_sg s) SgTop s
    end
  else dset_send (dg_sg s) SgTop s.

(** After a callback. *)
Definition dg_return (f : dframe) (s : dgtr) : dgtr :=
  match f with
  | DfMade => dspawn_recv s
  | DfData => dset_recv RvRun s
  | DfRerr => dset_recv RvNone s
  | DfSerr => dset_send (dg_sg s) SgRun s
  | DfSendto | DfLost => s
  end.

Inductive dop := DoSend (d : dgram) (r : dsend) | DoClose | DoAbort.
Definition drun (o : dop) (s : dgtr) : dgtr := match o with DoSend d r => sendto d r s | DoClose => dg_close s | DoAbort => dg_abort s end.

(** The record of a [close] or [abort] during [connection_made]. *)
Definition dmark (o : dop) (s s' : dgtr) : dgtr :=
  match o with DoSend _ _ => s' | DoClose | DoAbort => if bool_decide (DfMade ∈ dg_frames s) then dset_early s' else s' end.

(** An operation, by a callback or by anyone; a callback returns; the receiving fiber: its next round, ready, an
    error or a cancel of its wait; the flush fiber: its top, ready, an error of its wait, its next send. *)
Inductive dev := DOp (o : dop) | DReturn | DRecv (r : drecv) | DRready | DRfail | DTop | DSready | DSfail | DSend (r : dsend).

Definition dexec (e : dev) (s : dgtr) : option dgtr :=
  match e with
  | DOp o => Some (dmark o s (drun o s))
  | DReturn => match dg_frames s with f :: l => Some (dg_return f (dset_frames l s)) | [] => None end
  | DRecv r => match dg_frames s, dg_recv s with [], RvRun => Some (recv_round r s) | _, _ => None end
  | DRready => match dg_frames s, dg_recv s with [], RvParked => Some (dset_recv RvRun s) | _, _ => None end
  | DRfail => match dg_frames s, dg_recv s with [], (RvParked | RvCancel) => Some (dset_recv RvNone s) | _, _ => None end
  | DTop => match dg_frames s, dg_send s with [], SgTop => Some (send_top s) | _, _ => None end
  | DSready => match dg_frames s, dg_send s with [], SgParked => Some (dset_send (dg_sg s) SgRun s) | _, _ => None end
  | DSfail => match dg_frames s, dg_send s with [], (SgParked | SgCancel) => Some (send_exit s) | _, _ => None end
  | DSend r => match dg_frames s, dg_send s with [], SgRun => Some (send_round r s) | _, _ => None end
  end.

Definition dstep (s s' : dgtr) : Prop := exists e, dexec e s = Some s'.
Definition dreach : dgtr -> Prop := rtc dstep dg_init.

(** ** The invariant *)

(** How many datagrams failed, and how many of them were reported. *)
Definition failed (l : list (dgram * bool)) : nat := length (filter (λ p, p.2 = false) l).
Definition send_error (c : dcall) : bool := match c with DcError true _ => true | _ => false end.
Definition reported_errors (l : list dcall) : nat := length (filter (λ c, send_error c = true) l).

(** Datagrams and callbacks. *)
Record dsafe (s : dgtr) : Prop := {
  ds_sub : dg_dropped s = false -> dg_sub s = (dg_out s).*1 ++ dg_buf s;
  ds_drop : dg_dropped s = true -> (dg_out s).*1 `prefix_of` dg_sub s /\ dg_buf s = [] /\ dg_closed s = true;
  ds_failed : failed (dg_out s) = reported_errors (dg_calls s);
  ds_open : dg_closed s = false -> dg_open s = true /\ dg_early s = false;
  ds_shut : dg_closed s = true -> dg_open s = dg_early s;
  ds_lost : if dg_open s then DcLost ∉ dg_calls s else exists l, dg_calls s = l ++ [DcLost] /\ DcLost ∉ l
}.

(** While [connection_made] runs, the attribute is missing, the socket is open and no fiber has run. *)
Record making (s : dgtr) : Prop := {
  mk_rg : dg_rg s = None <-> DfMade ∈ dg_frames s;
  mk_open : dg_rg s = None -> dg_open s = true /\ dg_recv s = RvNone /\ (dg_send s = SgNone \/ dg_send s = SgTop)
}.

Lemma failed_snoc l d b : failed (l ++ [(d, b)]) = failed l + (if b then 0 else 1).
Proof. unfold failed. rewrite filter_app, length_app. destruct b; [by rewrite filter_cons_False|by rewrite filter_cons_True]. Qed.
Lemma reported_snoc l c : reported_errors (l ++ [c]) = reported_errors l + Nat.b2n (send_error c).
Proof. unfold reported_errors. rewrite filter_app, length_app. destruct (send_error c) eqn:E; [by rewrite filter_cons_True|rewrite filter_cons_False; [done|congruence]]. Qed.

(** An open transport has dropped nothing. *)
Lemma open_kept s : dsafe s -> dg_closed s = false -> dg_dropped s = false.
Proof. intros S Hc. destruct (dg_dropped s) eqn:E; [|done]. destruct (ds_drop _ S E) as (_&_&?). congruence. Qed.

(** Callbacks of an open transport about receiving. *)
Lemma dsafe_enter c f s : dsafe s -> dg_closed s = false -> c ≠ DcLost -> send_error c = false -> dsafe (denter c f s).
Proof.
  intros S Hc Hn He. pose proof S as [A B C D F E]. destruct (D Hc) as [Ho Hy]. rewrite Ho in E. constructor; simpl; rewrite ?Hc, ?Ho; try done.
  - intros Hd. by rewrite (open_kept s) in Hd.
  - rewrite reported_snoc, He, C. simpl. lia.
  - intros [?|H%list_elem_of_singleton]%elem_of_app; [done|congruence].
Qed.

(** A datagram leaves: [s0] is the state before, [s] the same with the datagram first in what is left. *)
Lemma dsafe_leave d b s0 s : dsafe s0 -> dg_closed s0 = false -> (dg_closed s, dg_open s, dg_out s, dg_dropped s, dg_calls s, dg_buf s, dg_early s) = (false, dg_open s0, dg_out s0, dg_dropped s0, dg_calls s0, b, dg_early s0) ->
  dg_sub s = (dg_out s0).*1 ++ d :: b -> dsafe (dout d true s) /\ (forall e f p, dsafe (denter (DcError true e) f (dset_send (dg_sg s) p (dout d false s)))) /\ forall e f, dsafe (denter (DcError true e) f (dout d false s)).
Proof.
  intros S Hc [= E1 E2 E3 E4 E5 E6 E7] Hs. pose proof (open_kept s0 S Hc) as Hk. destruct S as [A B C D F E]. destruct (D Hc) as [Ho Hy]. rewrite Ho in E, E2. rewrite Hy in E7.
  assert (Hsub : dg_sub s = (dg_out s ++ [(d, true)]).*1 ++ dg_buf s /\ dg_sub s = (dg_out s ++ [(d, false)]).*1 ++ dg_buf s) by (rewrite Hs, E3, E6, !fmap_app, <-!app_assoc; done).
  destruct Hsub. split_and!.
  - constructor; simpl; rewrite ?E1, ?E2, ?E4, ?E5, ?E7; try done; [congruence|]. rewrite E3, failed_snoc. lia.
  - intros e f p. constructor; simpl; rewrite ?E1, ?E2, ?E4, ?E5, ?E7; try done; [congruence| |intros [?|H1%list_elem_of_singleton]%elem_of_app; [done|congruence]]. rewrite E3, failed_snoc, reported_snoc. simpl. lia.
  - intros e f. constructor; simpl; rewrite ?E1, ?E2, ?E4, ?E5, ?E7; try done; [congruence| |intros [?|H1%list_elem_of_singleton]%elem_of_app; [done|congruence]]. rewrite E3, failed_snoc, reported_snoc. simpl. lia.
Qed.

(** Changes of the fibers and of the stack. *)
Inductive dmoved (s : dgtr) : dgtr -> Prop :=
  | dm_refl : dmoved s s
  | dm_recv p s' : dmoved s s' -> dmoved s (dset_recv p s')
  | dm_send g p s' : dmoved s s' -> dmoved s (dset_send g p s')
  | dm_frames l s' : dmoved s s' -> dmoved s (dset_frames l s')
  | dm_spawn s' : dmoved s s' -> dmoved s (dspawn_recv s').
#[local] Hint Constructors dmoved : sw.

Lemma dsafe_moved s s' : dmoved s s' -> dsafe s -> dsafe s'.
Proof. induction 1; intros S; [done|..]; destruct (IHdmoved S); by constructor. Qed.

Lemma dsafe_queue d s : dsafe s -> dg_closed s = false -> dsafe (dset_buf (dg_buf s ++ [d]) (dsub d s)).
Proof.
  intros S Hc. pose proof (open_kept s S Hc) as Hk. destruct S as [A B C D F E]. constructor; simpl; try done; [|congruence].
  intros _. by rewrite A, <-app_assoc.
Qed.

(** [close()] of a transport whose queue is as it was, or was dropped by [abort()]. *)
Lemma dsafe_close o s0 s : dsafe s0 -> making s0 -> (o = DoClose /\ s = s0 \/ o = DoAbort /\ s = dclear s0) -> dsafe (dmark o s0 (dg_close s)).
Proof.
  intros S [M1 M2] Ho. assert (P : (dg_out s0).*1 `prefix_of` dg_sub s0) by (destruct (dg_dropped s0) eqn:Hd; [by apply (ds_drop _ S)|rewrite (ds_sub _ S) by done; by eexists]).
  destruct S as [A B C D F E].
  assert (X : dg_closed s = dg_closed s0 /\ dg_rg s = dg_rg s0 /\ dg_open s = dg_open s0 /\ dg_calls s = dg_calls s0 /\ dg_out s = dg_out s0 /\ dg_early s = dg_early s0 /\ dg_sub s = dg_sub s0)
    by (destruct Ho as [[_ ->]|[_ ->]]; done). destruct X as (X1 & X2 & X3 & X4 & X5 & X6 & X7).
  assert (Y1 : dg_dropped s = false -> dg_sub s = (dg_out s).*1 ++ dg_buf s) by (destruct Ho as [[_ ->]|[_ ->]]; [done|simpl; done]).
  assert (Y2 : dg_dropped s = true -> (dg_out s).*1 `prefix_of` dg_sub s /\ dg_buf s = []) by (destruct Ho as [[_ ->]|[_ ->]]; [intros H; by destruct (B H) as (?&?&?)|done]).
  assert (Z : dmark o s0 (dg_close s) = if bool_decide (DfMade ∈ dg_frames s0) then dset_early (dg_close s) else dg_close s) by (destruct Ho as [[-> _]|[-> _]]; done).
  rewrite Z. clear Z Ho. rewrite (bool_decide_ext _ _ (iff_sym M1)). unfold dg_close. rewrite X1, X2.
  destruct (dg_closed s0) eqn:Hc, (dg_rg s0) as [g|] eqn:Hg;
    [rewrite bool_decide_false by done|rewrite bool_decide_true by done|rewrite bool_decide_false by done|rewrite bool_decide_true by done].
  - constructor; rewrite ?X1, ?X3, ?X4, ?X5, ?X6, ?X7, ?Hc; try done; [by rewrite <-X7, <-X5|]. intros H. by destruct (Y2 H); rewrite <-X7, <-X5.
  - destruct (M2 eq_refl) as [M _]. constructor; simpl; rewrite ?X1, ?X3, ?X4, ?X5, ?X6, ?X7, ?Hc, ?M; try done; [by rewrite <-X7, <-X5|intros H; by destruct (Y2 H); rewrite <-X7, <-X5|by rewrite M in E].
  - destruct (D eq_refl) as [Do Dy]. rewrite Do in E. constructor; simpl; rewrite ?X4, ?X5, ?X6, ?X7, ?Dy; try done.
    + by rewrite <-X7, <-X5.
    + intros H. by destruct (Y2 H); rewrite <-X7, <-X5.
    + rewrite reported_snoc, C. simpl. lia.
    + by eexists.
  - destruct (D eq_refl) as [Do Dy]. rewrite Do in E. constructor; simpl; rewrite ?X3, ?X4, ?X5, ?X7, ?Do; try done; [by rewrite <-X7, <-X5|intros H; by destruct (Y2 H); rewrite <-X7, <-X5].
Qed.

Lemma dsafe_op o s : dsafe s -> making s -> dsafe (dmark o s (drun o s)).
Proof.
  intros S M. destruct o as [d r| |]; [|by apply dsafe_close; auto|by apply dsafe_close; auto]. simpl.
  unfold sendto. destruct (dg_closed s) eqn:Hc; [done|]. pose proof (open_kept s S Hc) as Hk. pose proof (dsafe_queue d s S Hc) as Q.
  case_bool_decide as Hb; [exact Q|]. assert (Hb' : dg_buf s = []) by (by destruct (dg_buf s); [|destruct Hb]).
  destruct (dsafe_leave d [] s (dsub d s) S Hc) as (L1 & _ & L2).
  { simpl. by rewrite Hc, Hb'. }
  { simpl. by rewrite (ds_sub _ S), Hb', app_nil_r by done. }
  destruct r; [exact L1| |apply L2]. rewrite Hb' in Q. simpl in *. destruct (dg_sg s); [exact Q|]. eapply dsafe_moved; [|exact Q]. auto with sw.
Qed.

Lemma dsafe_step s s' : dsafe s -> making s -> dstep s s' -> dsafe s'.
Proof.
  intros S Mk [e He]. assert (M : forall s', dmoved s s' -> dsafe s') by (intros; by eapply dsafe_moved).
  destruct e as [o| |r| | | | | |r]; simpl in He.
  - simplify_eq. by apply dsafe_op.
  - destruct (dg_frames s) as [|f l]; simplify_eq. destruct f; simpl; auto with sw.
  - destruct (dg_frames s), (dg_recv s); simplify_eq. unfold recv_round. destruct (dg_closed s) eqn:Hc; [auto with sw|].
    destruct r; [|auto with sw|]; apply dsafe_enter; try done; auto with sw.
  - destruct (dg_frames s), (dg_recv s); simplify_eq; auto with sw.
  - destruct (dg_frames s), (dg_recv s); simplify_eq; auto with sw.
  - destruct (dg_frames s), (dg_send s); simplify_eq. unfold send_top, send_exit. destruct (send_wanted s); auto with sw.
  - destruct (dg_frames s), (dg_send s); simplify_eq; auto with sw.
  - destruct (dg_frames s), (dg_send s); simplify_eq; unfold send_exit; auto with sw.
  - destruct (dg_frames s), (dg_send s); simplify_eq. unfold send_round. destruct (send_wanted s) eqn:W; [|auto with sw].
    apply andb_prop in W as [_ Hc]. apply negb_true_iff in Hc. destruct (dg_buf s) as [|d b] eqn:Hb; [auto with sw|].
    destruct (dsafe_leave d b s (dset_buf b s) S Hc) as (L1 & L2 & _).
    { simpl. by rewrite Hc. }
    { simpl. by rewrite (ds_sub _ S), Hb by (by apply open_kept). }
    destruct r; [exact L1|auto with sw|apply L2].
Qed.

(** A callback other than those of [sendto] and [close] is the first on an empty stack. *)
Fixpoint dshape (l : list dframe) : bool :=
  match l with [] => true | (DfSendto | DfLost) :: l' => dshape l' | _ :: l' => bool_decide (l' = []) end.

(** The record changes nothing else. *)
Lemma dmark_frames o s s' : dg_frames s' = dg_frames (dmark o s s').
Proof. destruct o; simpl; [done|..]; by case_bool_decide. Qed.

Lemma dshape_step s s' : dshape (dg_frames s) = true -> dstep s s' -> dshape (dg_frames s') = true.
Proof.
  intros H [e He]. destruct e as [o| |r| | | | | |r]; simpl in He.
  - injection He as <-. destruct o as [d r| |].
    + simpl. unfold sendto. destruct (dg_closed s); [done|]. case_bool_decide; [done|]. destruct r; try done. simpl. by destruct (dg_sg s).
    + rewrite <- (dmark_frames DoClose s). simpl. unfold dg_close. destruct (dg_closed s); [done|]. by destruct (dg_rg s).
    + rewrite <- (dmark_frames DoAbort s). simpl. unfold dg_abort, dg_close. simpl. destruct (dg_closed s); [done|]. by destruct (dg_rg s).
  - destruct (dg_frames s) as [|f l]; simplify_eq. by destruct f; simpl in *; try (apply bool_decide_eq_true in H as ->).
  - destruct (dg_frames s) eqn:Hf, (dg_recv s); simplify_eq. unfold recv_round. destruct (dg_closed s); simpl; [by rewrite Hf|]. destruct r; simpl; by rewrite Hf.
  - destruct (dg_frames s) eqn:Hf, (dg_recv s); simplify_eq; simpl; by rewrite Hf.
  - destruct (dg_frames s) eqn:Hf, (dg_recv s); simplify_eq; simpl; by rewrite Hf.
  - destruct (dg_frames s) eqn:Hf, (dg_send s); simplify_eq. unfold send_top. destruct (send_wanted s); simpl; by rewrite Hf.
  - destruct (dg_frames s) eqn:Hf, (dg_send s); simplify_eq; simpl; by rewrite Hf.
  - destruct (dg_frames s) eqn:Hf, (dg_send s); simplify_eq; simpl; by rewrite Hf.
  - destruct (dg_frames s) eqn:Hf, (dg_send s); simplify_eq. unfold send_round. destruct (send_wanted s); [destruct (dg_buf s), r|]; simpl; by rewrite Hf.
Qed.

Lemma making_step s s' : making s -> dshape (dg_frames s) = true -> dstep s s' -> making s'.
Proof.
  intros M Sh [e He].
  assert (Q : forall s', dg_frames s = [] -> DfMade ∉ dg_frames s' -> dg_rg s' = dg_rg s -> making s').
  { intros s1 Hf Hn Hr. destruct M as [M1 M2]. rewrite Hf in M1. assert (dg_rg s1 ≠ None) by (rewrite Hr, M1; apply not_elem_of_nil). constructor; [|done]. done. }
  assert (K : forall o s1, making s1 -> making (dmark o s s1)) by (intros o s1 [? ?]; destruct o; simpl; [|case_bool_decide..]; by constructor).
  destruct e as [o| |r| | | | | |r]; simpl in He.
  - injection He as <-. destruct M as [M1 M2]. apply K. clear K Q. destruct o as [d r| |]; simpl.
    + unfold sendto. destruct (dg_closed s); [by constructor|]. case_bool_decide; [by constructor|]. destruct r; [by constructor| |constructor; simpl; [rewrite M1; set_solver|done]].
      simpl. destruct (dg_sg s); constructor; simpl; try done. intros Hx. destruct (M2 Hx) as (?&?&?). auto.
    + unfold dg_close. destruct (dg_closed s); [by constructor|]. destruct (dg_rg s) as [g|] eqn:Hg; constructor; simpl; rewrite ?Hg; try done. rewrite elem_of_cons, <-M1. naive_solver.
    + unfold dg_abort, dg_close. simpl. destruct (dg_closed s); [by constructor|]. destruct (dg_rg s) as [g|] eqn:Hg; constructor; simpl; rewrite ?Hg; try done. rewrite elem_of_cons, <-M1. naive_solver.
  - destruct (dg_frames s) as [|f l] eqn:Hf; simplify_eq. destruct M as [M1 M2]. rewrite Hf in M1. destruct f; simpl in *; try (apply bool_decide_eq_true in Sh as ->);
      try (constructor; simpl; [rewrite M1; set_solver|done]); try (constructor; simpl; [rewrite M1; set_solver|]; intros Hx; apply M1 in Hx; set_solver).
    constructor; simpl; [|done]. split; [done|by intros ?%not_elem_of_nil].
  - destruct (dg_frames s) eqn:Hf, (dg_recv s); simplify_eq. apply Q; [done|..]; unfold recv_round; destruct (dg_closed s), r; simpl; rewrite ?Hf; set_solver.
  - destruct (dg_frames s) eqn:Hf, (dg_recv s); simplify_eq. apply Q; simpl; rewrite ?Hf; set_solver.
  - destruct (dg_frames s) eqn:Hf, (dg_recv s); simplify_eq; apply Q; simpl; rewrite ?Hf; set_solver.
  - destruct (dg_frames s) eqn:Hf, (dg_send s); simplify_eq. apply Q; unfold send_top; destruct (send_wanted s); simpl; rewrite ?Hf; set_solver.
  - destruct (dg_frames s) eqn:Hf, (dg_send s); simplify_eq. apply Q; simpl; rewrite ?Hf; set_solver.
  - destruct (dg_frames s) eqn:Hf, (dg_send s); simplify_eq; apply Q; simpl; rewrite ?Hf; set_solver.
  - destruct (dg_frames s) eqn:Hf, (dg_send s); simplify_eq. apply Q; unfold send_round; destruct (send_wanted s), (dg_buf s), r; simpl; rewrite ?Hf; set_solver.
Qed.

Lemma dsafe_reach s : dreach s -> dsafe s /\ making s /\ dshape (dg_frames s) = true.
Proof.
  revert s. apply (rtc_ind_r (R := dstep) (λ s, dsafe s /\ making s /\ dshape (dg_frames s) = true) dg_init).
  - split_and!; [constructor; simpl; try done; set_solver| |done]. constructor; simpl; [set_solver|auto].
  - intros s1 s2 _ Hs (S & M & Sh). split_and!; [by eapply dsafe_step|by eapply making_step|by eapply dshape_step].
Qed.

(** *** The fibers *)

(** The waits of the fibers fail only once [close] cancelled them. *)
Definition dtame (e : dev) (s : dgtr) : Prop := match e with DRfail | DSfail => dg_closed s = true | _ => True end.
Definition dtame_step (s s' : dgtr) : Prop := exists e, dtame e s /\ dexec e s = Some s'.

(** The flush fiber, and the receiving fiber. *)
Record flushing (s : dgtr) : Prop := {
  fl_open : dg_closed s = false -> (dg_sg s = true <-> dg_send s ≠ SgNone) /\ (dg_buf s ≠ [] -> dg_send s ≠ SgNone) /\ dg_send s ≠ SgCancel;
  fl_closed : dg_closed s = true -> dg_send s ≠ SgParked;
  fl_busy : dg_send s = SgBusy <-> DfSerr ∈ dg_frames s
}.
Definition recv_error (c : dcall) : bool := match c with DcError false _ => true | _ => false end.
Record receiving (s : dgtr) : Prop := {
  rc_open : dg_closed s = false -> (dg_recv s ≠ RvNone -> dg_rg s = Some true) /\ dg_recv s ≠ RvCancel /\
    (dg_recv s = RvNone -> DfMade ∈ dg_frames s \/ exists c, c ∈ dg_calls s /\ recv_error c = true);
  rc_closed : dg_closed s = true -> dg_recv s ≠ RvParked;
  rc_busy : dg_recv s = RvBusy <-> DfData ∈ dg_frames s \/ DfRerr ∈ dg_frames s;
  rc_rerr : DfRerr ∈ dg_frames s -> exists c, c ∈ dg_calls s /\ recv_error c = true
}.

Lemma flushing_more s s' : flushing s -> dg_closed s' = dg_closed s -> dg_sg s' = dg_sg s -> dg_send s' = dg_send s -> (dg_buf s' ≠ [] -> dg_buf s ≠ []) ->
  (DfSerr ∈ dg_frames s <-> DfSerr ∈ dg_frames s') -> flushing s'.
Proof.
  intros [A B C] E1 E2 E3 Hb Hf. constructor; rewrite ?E1, ?E2, ?E3; [|done|by rewrite C]. intros H. destruct (A H) as (A1 & A2 & A3). auto.
Qed.
Lemma receiving_more s s' : receiving s -> dg_closed s' = dg_closed s -> dg_rg s' = dg_rg s -> dg_recv s' = dg_recv s ->
  (forall f, f = DfMade \/ f = DfData \/ f = DfRerr -> f ∈ dg_frames s <-> f ∈ dg_frames s') -> (forall c, c ∈ dg_calls s -> c ∈ dg_calls s') -> receiving s'.
Proof.
  intros [A B C D] E1 E2 E3 Hf Hc. assert (P : (exists c, c ∈ dg_calls s /\ recv_error c = true) -> exists c, c ∈ dg_calls s' /\ recv_error c = true) by naive_solver.
  constructor; rewrite ?E1, ?E2, ?E3; [|done| |].
  - intros H. destruct (A H) as (A1 & A2 & A3). split_and!; [done|done|]. intros H'. destruct (A3 H'); [left|right; auto]. by apply Hf; [left|].
  - rewrite C, (Hf DfData), (Hf DfRerr) by auto. done.
  - intros H. apply P, D, Hf; auto.
Qed.

(** Callbacks that leave the receiving fiber alone. *)
Lemma receiving_enter c f s : receiving s -> f = DfSendto \/ f = DfSerr \/ f = DfLost -> receiving (denter c f s).
Proof.
  intros R Hf. apply (receiving_more s); try done; simpl.
  - intros f' Hf'. rewrite elem_of_cons. naive_solver.
  - intros c' ?. apply elem_of_app. by left.
Qed.
Lemma flushing_enter c f s : flushing s -> f ≠ DfSerr -> flushing (denter c f s).
Proof. intros F Hf. apply (flushing_more s); try done. simpl. rewrite elem_of_cons. naive_solver. Qed.

Lemma flushing_mark o s s' : flushing s' -> flushing (dmark o s s').
Proof. intros F. destruct o; simpl; [done|case_bool_decide..]; by try apply (flushing_more s'). Qed.
Lemma receiving_mark o s s' : receiving s' -> receiving (dmark o s s').
Proof. intros F. destruct o; simpl; [done|case_bool_decide..]; by try apply (receiving_more s'). Qed.

Lemma flushing_close s : flushing s -> (dg_rg s = None -> dg_send s ≠ SgParked) -> flushing (dg_close s).
Proof.
  intros F Hm. unfold dg_close. destruct (dg_closed s) eqn:Hc; [done|]. destruct F as [A B C]. destruct (A Hc) as (A1 & A2 & A3).
  destruct (dg_rg s) as [g|]; [|by constructor; simpl; auto]. constructor; simpl; try done.
  - intros _. destruct (dg_sg s); [by destruct (dg_send s)|]. intros H. rewrite H in A1. naive_solver.
  - rewrite elem_of_cons, <-C. destruct (dg_sg s), (dg_send s); naive_solver.
Qed.
Lemma receiving_close s : receiving s -> receiving (dg_close s).
Proof.
  intros R. unfold dg_close. destruct (dg_closed s) eqn:Hc; [done|]. destruct R as [A B C D]. destruct (A Hc) as (A1 & A2 & A3).
  assert (P : (exists c, c ∈ dg_calls s /\ recv_error c = true) -> exists c, c ∈ dg_calls s ++ [DcLost] /\ recv_error c = true).
  { intros (c & H1 & H2). exists c. split; [|done]. apply elem_of_app. by left. }
  destruct (dg_rg s) as [g|]; [|constructor; simpl; try done; intros _ H; rewrite H in A1; by discriminate A1]. constructor; simpl; try done.
  - intros _. destruct g; [by destruct (dg_recv s)|]. intros H. rewrite H in A1. by discriminate A1.
  - rewrite !elem_of_cons. assert (dg_recv s = RvBusy <-> (if g then match dg_recv s with RvParked => RvCancel | p => p end else dg_recv s) = RvBusy) as <- by (destruct g, (dg_recv s); done).
    rewrite C. naive_solver.
  - intros [?|?]%elem_of_cons; [done|auto].
Qed.

Lemma flushing_op o s : flushing s -> making s -> flushing (dmark o s (drun o s)).
Proof.
  intros F M. assert (Hm : dg_rg s = None -> dg_send s ≠ SgParked) by (intros H; destruct (mk_open _ M H) as (_ & _ & [->| ->]); done).
  apply flushing_mark. destruct o as [d r| |]; simpl; [|by apply flushing_close|].
  - unfold sendto. destruct (dg_closed s) eqn:Hc; [done|]. case_bool_decide as Hb.
    + destruct F as [A B C]. constructor; simpl; try done. intros _. destruct (A Hc) as (A1 & A2 & A3). auto.
    + destruct r; [by apply (flushing_more s)| |apply flushing_enter; [by apply (flushing_more s)|done]]. simpl. destruct F as [A B C]. destruct (A Hc) as (A1 & A2 & A3).
      destruct (dg_sg s) eqn:Hg; constructor; simpl; try done; try congruence.
      * intros _. split_and!; try done; [by rewrite Hg|]. intros _. by apply A1.
      * split; [done|]. intros H%C. destruct A1 as [_ A1]. rewrite H in A1. by discriminate A1.
  - apply flushing_close; [by apply (flushing_more s)|done].
Qed.
Lemma receiving_op o s : receiving s -> receiving (dmark o s (drun o s)).
Proof.
  intros R. apply receiving_mark. destruct o as [d r| |]; simpl; [|by apply receiving_close|].
  - unfold sendto. destruct (dg_closed s) eqn:Hc; [done|]. case_bool_decide; [by apply (receiving_more s)|].
    destruct r; [by apply (receiving_more s)| |apply receiving_enter; [by apply (receiving_more s)|by left]]. simpl. destruct (dg_sg s); by apply (receiving_more s).
  - by apply receiving_close, (receiving_more s).
Qed.

(** Changes of the flush fiber. *)
Lemma flushing_send g p s : flushing s -> g = dg_sg s -> dg_send s ≠ SgNone -> dg_send s ≠ SgBusy -> p ≠ SgNone -> p ≠ SgCancel -> p ≠ SgBusy -> (p = SgParked -> dg_closed s = false) -> flushing (dset_send g p s).
Proof.
  intros [A B C] -> H1 H2 H3 H4 H5 H6. constructor; simpl.
  - intros Hc. destruct (A Hc) as (A1 & A2 & A3). split_and!; [|done|done]. by rewrite A1.
  - intros Hc Hp. rewrite H6 in Hc; done.
  - by rewrite <-C.
Qed.
Lemma flushing_exit s : flushing s -> dg_send s ≠ SgBusy -> dg_closed s = true \/ dg_buf s = [] -> flushing (send_exit s).
Proof. intros [A B C] Hn H. constructor; simpl; try done; [|by rewrite <-C]. intros Hc. destruct H; [congruence|]. by split_and!. Qed.

Lemma flushing_step s s' : flushing s -> making s -> dshape (dg_frames s) = true -> dtame_step s s' -> flushing s'.
Proof.
  intros F Mk Sh (e & T & He). destruct e as [o| |r| | | | | |r]; simpl in He.
  - simplify_eq. by apply flushing_op.
  - destruct (dg_frames s) as [|f l] eqn:Hf; simplify_eq.
    assert (P : f ≠ DfSerr -> flushing (dset_frames l s)).
    { intros N. apply (flushing_more s); try done. rewrite Hf, elem_of_cons. naive_solver. }
    destruct f; simpl; try (by apply P); try (by apply (flushing_more (dset_frames l s)); [apply P|..]).
    simpl in Sh. apply bool_decide_eq_true in Sh as ->. destruct F as [A B C]. assert (Hs : dg_send s = SgBusy) by (apply C; rewrite Hf; set_solver).
    constructor; simpl; try done; [|split; [done|by intros ?%not_elem_of_nil]]. intros Hc. destruct (A Hc) as (A1 & A2 & A3). rewrite Hs in *. split_and!; try done. split; [done|]. intros _. by apply A1.
  - destruct (dg_frames s) eqn:Hf, (dg_recv s); simplify_eq. unfold recv_round. destruct (dg_closed s) eqn:Hc; [by apply (flushing_more s)|].
    destruct r; [apply flushing_enter; [by apply (flushing_more s)|done]|by apply (flushing_more s)|apply flushing_enter; [by apply (flushing_more s)|done]].
  - destruct (dg_frames s), (dg_recv s); simplify_eq; by apply (flushing_more s).
  - destruct (dg_frames s), (dg_recv s); simplify_eq; by apply (flushing_more s).
  - destruct (dg_frames s), (dg_send s) eqn:Hs; simplify_eq. unfold send_top. destruct (send_wanted s) eqn:W.
    + apply andb_prop in W as [_ Hc]. apply negb_true_iff in Hc. by apply flushing_send; rewrite ?Hs.
    + apply flushing_exit; [done|by rewrite Hs|]. unfold send_wanted in W. case_bool_decide; [|right; by destruct (dg_buf s)]. left. by destruct (dg_closed s).
  - destruct (dg_frames s), (dg_send s) eqn:Hs; simplify_eq; by apply flushing_send; rewrite ?Hs.
  - destruct (dg_frames s), (dg_send s) eqn:Hs; simplify_eq; apply flushing_exit; rewrite ?Hs; auto.
  - destruct (dg_frames s) eqn:Hf, (dg_send s) eqn:Hs; simplify_eq. assert (X : flushing (dset_send (dg_sg s) SgTop s)) by (by apply flushing_send; rewrite ?Hs).
    unfold send_round. destruct (send_wanted s) eqn:W; [|done]. apply andb_prop in W as [_ Hc]. apply negb_true_iff in Hc. destruct (dg_buf s) as [|d b] eqn:Hb; [done|].
    destruct F as [A B C]. destruct (A Hc) as (A1 & A2 & A3). rewrite Hs, Hf in *. destruct r; [|done|].
    + constructor; simpl; rewrite ?Hs, ?Hf; try done.
    + constructor; simpl; rewrite ?Hf; try done; [|split; [set_solver|done]]. intros _. split_and!; try done. split; [done|]. intros _. by apply A1.
Qed.

(** The receiving fiber moves while no callback is under way. *)
Lemma receiving_recv p s : receiving s -> dg_frames s = [] -> dg_recv s ≠ RvNone -> p ≠ RvBusy -> p ≠ RvCancel -> (p = RvParked -> dg_closed s = false) ->
  (p = RvNone -> dg_closed s = true) -> receiving (dset_recv p s).
Proof.
  intros [A B C D] Hf H0 H1 H2 H3 H4. constructor; simpl; rewrite ?Hf; try done.
  - intros Hc. destruct (A Hc) as (A1 & A2 & A3). split_and!; [auto|done|]. intros Hp. rewrite H4 in Hc; done.
  - intros Hc Hp. rewrite H3 in Hc; done.
  - split; [done|]. by intros [?%not_elem_of_nil|?%not_elem_of_nil].
  - by intros ?%not_elem_of_nil.
Qed.

(** It calls back. *)
Lemma receiving_call c f s : receiving s -> dg_frames s = [] -> dg_recv s = RvRun -> dg_closed s = false -> f = DfData \/ (f = DfRerr /\ recv_error c = true) ->
  receiving (denter c f (dset_recv RvBusy s)).
Proof.
  intros [A B C D] Hf Hr Hc H. destruct (A Hc) as (A1 & A2 & A3). constructor; simpl; rewrite ?Hf, ?Hc; try done.
  - intros _. split_and!; [|done|done]. intros _. apply A1. by rewrite Hr.
  - rewrite !list_elem_of_singleton. naive_solver.
  - intros E%list_elem_of_singleton. exists c. split; [apply elem_of_app; right; by apply list_elem_of_singleton|]. naive_solver.
Qed.

Lemma receiving_return f l s : receiving s -> dshape (dg_frames s) = true -> dg_frames s = f :: l -> receiving (dg_return f (dset_frames l s)).
Proof.
  intros R Sh Hf. rewrite Hf in Sh.
  assert (P : f = DfSendto \/ f = DfSerr \/ f = DfLost -> receiving (dset_frames l s)).
  { intros H. apply (receiving_more s); try done. intros f' Hf'. simpl. rewrite Hf, elem_of_cons. naive_solver. }
  destruct R as [A B C D]. rewrite Hf in *. destruct f; simpl in Sh; try (apply bool_decide_eq_true in Sh as ->); simpl; try (by apply P; auto).
  - constructor; simpl; try done; [|by intros ?%not_elem_of_nil]. split; [done|]. by intros [?%not_elem_of_nil|?%not_elem_of_nil].
  - assert (Hb : dg_recv s = RvBusy) by (apply C; left; by apply list_elem_of_singleton). constructor; simpl; try done.
    + intros Hc. destruct (A Hc) as (A1 & A2 & A3). split_and!; [|done|done]. intros _. apply A1. by rewrite Hb.
    + split; [done|]. by intros [?%not_elem_of_nil|?%not_elem_of_nil].
    + by intros ?%not_elem_of_nil.
  - assert (Hb : dg_recv s = RvBusy) by (apply C; right; by apply list_elem_of_singleton). constructor; simpl; try done.
    + intros Hc. split_and!; [done|done|]. intros _. right. apply D. by apply list_elem_of_singleton.
    + split; [done|]. by intros [?%not_elem_of_nil|?%not_elem_of_nil].
    + by intros ?%not_elem_of_nil.
  - apply (receiving_more (dset_frames [] s)); try done. apply P. auto.
Qed.

Lemma receiving_step s s' : receiving s -> dshape (dg_frames s) = true -> dtame_step s s' -> receiving s'.
Proof.
  intros R Sh (e & T & He). destruct e as [o| |r| | | | | |r]; simpl in He.
  - simplify_eq. by apply receiving_op.
  - destruct (dg_frames s) as [|f l] eqn:Hf; simplify_eq. apply receiving_return; [done|by rewrite Hf|done].
  - destruct (dg_frames s) eqn:Hf, (dg_recv s) eqn:Hr; simplify_eq. unfold recv_round. destruct (dg_closed s) eqn:Hc; [by apply receiving_recv; rewrite ?Hr|].
    destruct r; [apply receiving_call; auto|by apply receiving_recv; rewrite ?Hr|apply receiving_call; auto].
  - destruct (dg_frames s) eqn:Hf, (dg_recv s) eqn:Hr; simplify_eq. by apply receiving_recv; rewrite ?Hr.
  - destruct (dg_frames s) eqn:Hf, (dg_recv s) eqn:Hr; simplify_eq; by apply receiving_recv; rewrite ?Hr.
  - destruct (dg_frames s) eqn:Hf, (dg_send s); simplify_eq. unfold send_top, send_exit. destruct (send_wanted s); by apply (receiving_more s).
  - destruct (dg_frames s) eqn:Hf, (dg_send s); simplify_eq; by apply (receiving_more s).
  - destruct (dg_frames s) eqn:Hf, (dg_send s); simplify_eq; by apply (receiving_more s).
  - destruct (dg_frames s) eqn:Hf, (dg_send s); simplify_eq. unfold send_round. destruct (send_wanted s); [destruct (dg_buf s), r|]; try by apply (receiving_more s).
    apply receiving_enter; [by apply (receiving_more s)|auto].
Qed.

Lemma dreach_tame s : rtc dtame_step dg_init s -> dreach s.
Proof. intros R. apply (rtc_subrel dtame_step dstep); [|done]. intros s1 s2 (e & _ & He). by exists e. Qed.

Lemma dlive_reach s : rtc dtame_step dg_init s -> flushing s /\ receiving s.
Proof.
  intros R. cut (dreach s /\ flushing s /\ receiving s); [by intros [_ ?]|]. revert s R.
  apply (rtc_ind_r (R := dtame_step) (λ s, dreach s /\ flushing s /\ receiving s) dg_init).
  - split_and!; [apply rtc_refl| |]; constructor; simpl; try done.
    + split; [done|]. by intros ?%list_elem_of_singleton.
    + intros _. split_and!; [done|done|]. intros _. left. by apply list_elem_of_singleton.
    + split; [done|]. by intros [?%list_elem_of_singleton|?%list_elem_of_singleton].
    + by intros ?%list_elem_of_singleton.
  - intros s1 s2 _ Hs (Rc & F & R). destruct (dsafe_reach s1 Rc) as (_ & Mk & Sh). assert (dstep s1 s2) by (destruct Hs as (e & _ & He); by exists e).
    split_and!; [by eapply rtc_r|by eapply flushing_step|by eapply receiving_step].
Qed.

(** ** Traces *)

Fixpoint drun_all (l : list dev) (s : dgtr) : option dgtr :=
  match l with [] => Some s | e :: l' => match dexec e s with Some s' => drun_all l' s' | None => None end end.
Definition dtame_b (e : dev) (s : dgtr) : bool := match e with DRfail | DSfail => dg_closed s | _ => true end.
Fixpoint dtame_run (l : list dev) (s : dgtr) : bool :=
  match l with [] => true | e :: l' => dtame_b e s && match dexec e s with Some s' => dtame_run l' s' | None => false end end.

Lemma drun_all_rtc l s s' : drun_all l s = Some s' -> rtc dstep s s'.
Proof.
  revert s. induction l as [|e l IH]; simpl; intros s H; [by simplify_eq|]. destruct (dexec e s) as [s1|] eqn:E; [|done]. eapply rtc_l; [by exists e|auto].
Qed.
Lemma dtame_run_rtc l s s' : drun_all l s = Some s' -> dtame_run l s = true -> rtc dtame_step s s'.
Proof.
  revert s. induction l as [|e l IH]; simpl; intros s H T; [by simplify_eq|]. destruct (dexec e s) as [s1|] eqn:E; [|done]. apply andb_prop in T as [T1 T2].
  eapply rtc_l; [|by apply IH]. exists e. split; [|done]. by destruct e.
Qed.

(** ** What the transport promises *)

(** C32. Datagrams leave whole and in the order of [sendto], each at most once; what did not leave is queued, unless
    [abort] dropped it; every failure is reported by one [error_received]; and when the transport closes the
    socket is closed and [connection_lost] is the last callback and comes once - unless [close] or [abort] was
    first called while [connection_made] still ran: then the transport counts as closed, but the socket is open
    and [connection_lost] has not been called. *)
Theorem dgram_exact s : dreach s ->
  (dg_out s).*1 `prefix_of` dg_sub s /\ (dg_dropped s = false -> dg_sub s = (dg_out s).*1 ++ dg_buf s) /\ failed (dg_out s) = reported_errors (dg_calls s) /\
  (dg_closed s = false -> dg_open s = true /\ DcLost ∉ dg_calls s) /\
  (dg_closed s = true -> dg_early s = false -> dg_open s = false /\ exists l, dg_calls s = l ++ [DcLost] /\ DcLost ∉ l) /\
  (dg_early s = true -> dg_closed s = true /\ dg_open s = true /\ DcLost ∉ dg_calls s).
Proof.
  intros R. destruct (dsafe_reach s R) as ([A B C D F E] & _). split_and!; try done.
  - destruct (dg_dropped s) eqn:Hd; [by apply B|]. rewrite A by done. by eexists.
  - intros Hc. destruct (D Hc) as [Ho _]. by rewrite Ho in *.
  - intros Hc He. specialize (F Hc). rewrite He in F. by rewrite F in *.
  - intros He. destruct (dg_closed s) eqn:Hc; [|destruct (D eq_refl); congruence]. specialize (F eq_refl). rewrite He in F. by rewrite F in *.
Qed.

Lemma dgram_exact_witness : exists s d1 d2 d3, dreach s /\ d1 ≠ d2 /\ d2 ≠ d3 /\ dg_sub s = [d1; d2; d3] /\ dg_buf s = [] /\ (dg_out s).*1 = dg_sub s /\ reported_errors (dg_calls s) = 1.
Proof.
  pose (d1 := Dgram [1]%Z None). pose (d2 := Dgram [2]%Z (Some 7)). pose (d3 := Dgram [3]%Z None).
  pose (l := [DReturn; DOp (DoSend d1 DSent); DOp (DoSend d2 DBlock); DOp (DoSend d3 DSent); DTop; DSready; DSend DBlock; DTop; DSready; DSend (DErr 5); DReturn; DSend DSent]).
  destruct (drun_all l dg_init) as [s|] eqn:E; [|vm_compute in E; discriminate]. exists s, d1, d2, d3. pose proof (drun_all_rtc _ _ _ E) as R.
  destruct (dgram_exact s R) as (_ & H1 & H2 & _). vm_compute in E. injection E as <-.
  split_and!; [exact R|discriminate|discriminate|reflexivity|reflexivity| |rewrite <-H2; reflexivity]. specialize (H1 eq_refl). rewrite app_nil_r in H1. by rewrite H1.
Defined.

(** Nothing to do before a new operation or the poller. *)
Definition dquiet (s : dgtr) : Prop :=
  dg_frames s = [] /\ dg_recv s ≠ RvRun /\ dg_recv s ≠ RvCancel /\ dg_send s ≠ SgTop /\ dg_send s ≠ SgRun /\ dg_send s ≠ SgCancel.

(** Nothing is stranded and nothing left behind: while the transport is open, queued datagrams have the flush
    fiber parked for them, and the receiving fiber is parked unless an error ended it and was reported; once it is
    closed, both fibers have ended. *)
Theorem dgram_no_stranded s : rtc dtame_step dg_init s -> dquiet s ->
  (dg_closed s = false -> (dg_buf s ≠ [] -> dg_send s = SgParked) /\ (dg_recv s = RvParked \/ exists c, c ∈ dg_calls s /\ recv_error c = true)) /\
  (dg_closed s = true -> dg_recv s = RvNone /\ dg_send s = SgNone).
Proof.
  intros R (Hf & Q1 & Q2 & Q3 & Q4 & Q5). destruct (dlive_reach s R) as [[A1 A2 A3] [B1 B2 B3 _]]. rewrite Hf in *.
  assert (N1 : dg_send s ≠ SgBusy) by (rewrite A3; apply not_elem_of_nil). assert (N2 : dg_recv s ≠ RvBusy) by (rewrite B3; by intros [?%not_elem_of_nil|?%not_elem_of_nil]).
  split; intros Hc.
  - split.
    + intros Hb. destruct (A1 Hc) as (_ & H & _). specialize (H Hb). by destruct (dg_send s).
    + destruct (B1 Hc) as (_ & _ & H). destruct (dg_recv s); try done; [|by left]. right. destruct (H eq_refl) as [?%not_elem_of_nil|?]; done.
  - specialize (A2 Hc). specialize (B2 Hc). split; [by destruct (dg_recv s)|by destruct (dg_send s)].
Qed.

Lemma dgram_no_stranded_witness : exists s, rtc dtame_step dg_init s /\ length (dg_buf s) = 2 /\ dg_send s = SgParked.
Proof.
  pose (l := [DReturn; DRecv DEmpty; DOp (DoSend (Dgram [1]%Z None) DBlock); DOp (DoSend (Dgram [2]%Z None) DSent); DTop]).
  destruct (drun_all l dg_init) as [s|] eqn:E; [|vm_compute in E; discriminate]. exists s.
  assert (T : dtame_run l dg_init = true) by (vm_compute; reflexivity). pose proof (dtame_run_rtc _ _ _ E T) as R. vm_compute in E. injection E as <-.
  split_and!; [exact R|reflexivity|]. apply (proj1 (dgram_no_stranded _ R ltac:(split_and!; discriminate || reflexivity))); [reflexivity|discriminate].
Defined.

(** ** What goes wrong *)

(** A failing wait ends the flush fiber with datagrams queued: from then on every [sendto] only queues, and
    nothing is sent any more. *)
Theorem dgram_backlog_stranded : exists s, dreach s /\ dquiet s /\ dg_closed s = false /\ dg_buf s ≠ [] /\
  forall l, let s' := foldl (λ s p, sendto p.1 p.2 s) s l in dg_out s' = dg_out s /\ dg_send s' = SgNone /\ dg_frames s' = [].
Proof.
  pose (l := [DReturn; DRecv DEmpty; DOp (DoSend (Dgram [1]%Z None) DBlock); DTop; DSfail]).
  destruct (drun_all l dg_init) as [s|] eqn:E; [|vm_compute in E; discriminate]. exists s. pose proof (drun_all_rtc _ _ _ E) as R. vm_compute in E. injection E as <-.
  split_and!; [exact R|by split_and!|done|done|]. intros l'. match goal with |- let s' := foldl _ ?s _ in _ => generalize (eq_refl : dg_closed s = false); assert (Hb : dg_buf s ≠ []) by done;
    generalize (eq_refl : dg_send s = SgNone); generalize (eq_refl : dg_frames s = []); revert Hb; generalize s end.
  induction l' as [|[d r] l' IH]; intros s Hb Hf Hs Hc; [done|]. simpl. unfold sendto at 2 4 6. rewrite Hc. rewrite bool_decide_true by done. simpl.
  apply (IH (dset_buf (dg_buf s ++ [d]) (dsub d s))); try done. simpl. intros [_ ?]%app_eq_nil. done.
Qed.

(** [close()] drops the queue: datagrams that [sendto] took are never sent. *)
Theorem dgram_close_drops : exists s, rtc dtame_step dg_init s /\ dquiet s /\ dg_closed s = true /\ dg_dropped s = false /\ dg_buf s ≠ [] /\
  forall s', rtc dstep s s' -> dg_out s' = dg_out s.
Proof.
  pose (l := [DReturn; DRecv DEmpty; DOp (DoSend (Dgram [1]%Z None) DBlock); DTop; DOp DoClose; DReturn; DSfail; DRfail]).
  destruct (drun_all l dg_init) as [s|] eqn:E; [|vm_compute in E; discriminate]. exists s.
  assert (T : dtame_run l dg_init = true) by (vm_compute; reflexivity). pose proof (dtame_run_rtc _ _ _ E T) as R. vm_compute in E. injection E as <-.
  split_and!; [exact R|by split_and!|done|done|done|]. match goal with |- forall s', rtc dstep ?s s' -> _ =>
    intros s' Hr; cut (dg_closed s' = true /\ dg_send s' = SgNone /\ dg_recv s' = RvNone /\ Forall (λ f, f = DfLost) (dg_frames s') /\ dg_out s' = dg_out s); [by intros (_ & _ & _ & _ & ?)|]; revert s' Hr;
    apply (rtc_ind_r (R := dstep) (λ s', dg_closed s' = true /\ dg_send s' = SgNone /\ dg_recv s' = RvNone /\ Forall (λ f, f = DfLost) (dg_frames s') /\ dg_out s' = dg_out s) s) end; [done|].
  intros s1 s2 _ [e He] (H1 & H2 & H3 & H4 & H5). destruct e as [o| |r| | | | | |r]; simpl in He; rewrite ?H2, ?H3 in He; try (by destruct (dg_frames s1)).
  - simplify_eq. destruct o; simpl; unfold sendto, dg_abort, dg_close; simpl; rewrite H1; [done|by case_bool_decide..].
  - destruct (dg_frames s1) as [|f l']; simplify_eq. apply Forall_cons in H4 as [-> H4]. by split_and!.
Qed.

(** An error of [recvfrom], reported to the protocol, ends reception for good, although the transport is open. *)
Theorem dgram_recv_stops : exists s, rtc dtame_step dg_init s /\ dquiet s /\ dg_closed s = false /\ forall s', rtc dstep s s' -> dg_recv s' = RvNone.
Proof.
  pose (l := [DReturn; DRecv (DRerr 111); DReturn]).
  destruct (drun_all l dg_init) as [s|] eqn:E; [|vm_compute in E; discriminate]. exists s.
  assert (T : dtame_run l dg_init = true) by (vm_compute; reflexivity). pose proof (dtame_run_rtc _ _ _ E T) as R. vm_compute in E. injection E as <-.
  split_and!; [exact R|by split_and!|done|]. match goal with |- forall s', rtc dstep ?s s' -> _ =>
    intros s' Hr; cut (dg_recv s' = RvNone /\ Forall (λ f, f = DfLost \/ f = DfSendto \/ f = DfSerr) (dg_frames s')); [by intros [? _]|]; revert s' Hr;
    apply (rtc_ind_r (R := dstep) (λ s', dg_recv s' = RvNone /\ Forall (λ f, f = DfLost \/ f = DfSendto \/ f = DfSerr) (dg_frames s')) s) end; [done|].
  intros s1 s2 _ [e He] (H3 & H4). destruct e as [o| |r| | | | | |r]; simpl in He; rewrite ?H3 in He; try (by destruct (dg_frames s1)).
  - simplify_eq. destruct o as [d r| |]; simpl.
    + unfold sendto. destruct (dg_closed s1); [done|]. case_bool_decide; [done|]. destruct r; try done; simpl; [by destruct (dg_sg s1)|]. split; [done|]. constructor; auto.
    + assert (X : dg_recv (dg_close s1) = RvNone /\ Forall (λ f, f = DfLost \/ f = DfSendto \/ f = DfSerr) (dg_frames (dg_close s1))); [|by case_bool_decide].
      unfold dg_close. destruct (dg_closed s1); [done|]. destruct (dg_rg s1) as [[]|]; simpl; rewrite ?H3; (split; [done|]); [constructor; auto|constructor; auto|done].
    + assert (X : dg_recv (dg_abort s1) = RvNone /\ Forall (λ f, f = DfLost \/ f = DfSendto \/ f = DfSerr) (dg_frames (dg_abort s1))); [|by case_bool_decide].
      unfold dg_abort, dg_close. simpl. destruct (dg_closed s1); [done|]. destruct (dg_rg s1) as [[]|]; simpl; rewrite ?H3; (split; [done|]); [constructor; auto|constructor; auto|done].
  - destruct (dg_frames s1) as [|f l']; simplify_eq. apply Forall_cons in H4 as [Hf H4]. by destruct Hf as [-> | [-> | ->]].
  - destruct (dg_frames s1) eqn:Hf, (dg_send s1); simplify_eq. unfold send_top. destruct (send_wanted s1); simpl; by rewrite Hf.
  - destruct (dg_frames s1) eqn:Hf, (dg_send s1); simplify_eq; simpl; by rewrite Hf.
  - destruct (dg_frames s1) eqn:Hf, (dg_send s1); simplify_eq; simpl; by rewrite Hf.
  - destruct (dg_frames s1) eqn:Hf, (dg_send s1); simplify_eq. unfold send_round. destruct (send_wanted s1); [destruct (dg_buf s1), r|]; simpl; rewrite Hf; try done. split; [done|]. constructor; auto.
Qed.

(** The record of an early [close] stays. *)
Lemma early_step s s' : dg_early s = true -> dstep s s' -> dg_early s' = true.
Proof.
  intros H [e He]. destruct e as [o| |r| | | | | |r]; simpl in He.
  - injection He as <-. assert (X : dg_early (drun o s) = true); [|by destruct o; simpl; [|case_bool_decide..]].
    destruct o as [d r| |]; simpl; unfold sendto, dg_abort, dg_close; simpl; destruct (dg_closed s); try done; [|by destruct (dg_rg s)..].
    case_bool_decide; [done|]. destruct r; simpl; try done. by destruct (dg_sg s).
  - destruct (dg_frames s) as [|f l]; simplify_eq. by destruct f.
  - destruct (dg_frames s), (dg_recv s); simplify_eq. unfold recv_round. destruct (dg_closed s); [done|]. by destruct r.
  - by destruct (dg_frames s), (dg_recv s); simplify_eq.
  - by destruct (dg_frames s), (dg_recv s); simplify_eq.
  - destruct (dg_frames s), (dg_send s); simplify_eq. unfold send_top. by destruct (send_wanted s).
  - by destruct (dg_frames s), (dg_send s); simplify_eq.
  - by destruct (dg_frames s), (dg_send s); simplify_eq.
  - destruct (dg_frames s), (dg_send s); simplify_eq. unfold send_round. by destruct (send_wanted s), (dg_buf s), r.
Qed.

(** [close()] in [connection_made] raises [AttributeError], because the constructor assigns [_recv_g] only afterwards,
    when the flags are set already: whatever follows, the socket stays open and [connection_lost] is never called. *)
Theorem dgram_close_in_made : exists s, rtc dtame_step dg_init s /\ dquiet s /\ dg_closed s = true /\ dg_recv s = RvNone /\
  forall s', rtc dstep s s' -> dg_open s' = true /\ DcLost ∉ dg_calls s'.
Proof.
  pose (l := [DOp DoClose; DReturn; DRecv DEmpty]).
  destruct (drun_all l dg_init) as [s|] eqn:E; [|vm_compute in E; discriminate]. exists s. pose proof (drun_all_rtc _ _ _ E) as R.
  assert (T : dtame_run l dg_init = true) by (vm_compute; reflexivity). pose proof (dtame_run_rtc _ _ _ E T) as R'.
  assert (He : dg_early s = true) by (vm_compute in E; injection E as <-; reflexivity).
  assert (Hq : dquiet s /\ dg_closed s = true /\ dg_recv s = RvNone) by (vm_compute in E; injection E as <-; by split_and!).
  destruct Hq as (Hq1 & Hq2 & Hq3). refine (conj R' (conj Hq1 (conj Hq2 (conj Hq3 _)))). intros s' Hr.
  assert (He' : dg_early s' = true).
  { clear -He Hr. induction Hr as [|s s1 s2 Hs _ IH]; [done|]. by eapply IH, early_step. }
  destruct (dsafe_reach s') as ([A B C D F G] & _); [unfold dreach; by etrans|]. destruct (dg_closed s') eqn:Hc; [|destruct (D eq_refl); congruence].
  specialize (F eq_refl). rewrite He' in F. by rewrite F in *.
Qed.
