(* ===== verification/Server.v ===== *)
(** * Servers

    Models [class _ProtocolServer] ([src/src/stackweave/aio/transport_server.py]): the accept fibers, one per
    listening socket, the fibers that finish TLS handshakes, the set of live connections, [close] and
    [wait_closed].  What [accept], the handshake and the protocol's factory do is part of the events; while the
    factory and [connection_made] run, anything may be called.  A connection leaves the set when its transport
    delivered [connection_lost] ([_detach], called once per transport: [Transport.v]).  The set is a [WeakSet]: a
    transport that nobody refers to any more leaves it when it is collected, without any call. *)
From S2P Require Import Prelude.

(** [_accept_loop]: at its top; parked; woken by [close]; building the transport of a connection. *)
Inductive apc := ARun | AParked | ACancel | ABuild (c : nat).

(** The attributes ([_waiters] is [None] once woken); the accept fibers; the connections in a handshake; the
    futures of [wait_closed] made and resolved; the socket files and the file system's inodes; the listening
    sockets that are open; and, which the code does not read, the connections accepted, dropped and gone, and
    whether the last connection of the closed server was collected. *)
Record server := Server {
  sv_closed : bool; sv_serving : bool; sv_socks : option (list nat); sv_acc : gmap nat apc; sv_conns : gset nat;
  sv_shake : gset nat; sv_waiters : option (list nat); sv_futs : gset nat; sv_done : gset nat;
  sv_paths : list (string * nat); sv_fs : gmap string nat; sv_listen : gset nat; sv_accepted : gset nat;
  sv_dropped : gset nat; sv_gone : gset nat; sv_lost : bool
}.

Definition vset_acc (m : gmap nat apc) (s : server) : server :=
  Server (sv_closed s) (sv_serving s) (sv_socks s) m (sv_conns s) (sv_shake s) (sv_waiters s) (sv_futs s) (sv_done s)
    (sv_paths s) (sv_fs s) (sv_listen s) (sv_accepted s) (sv_dropped s) (sv_gone s) (sv_lost s).
Definition vset_serving (s : server) : server :=
  Server (sv_closed s) true (sv_socks s) (sv_acc s) (sv_conns s) (sv_shake s) (sv_waiters s) (sv_futs s) (sv_done s)
    (sv_paths s) (sv_fs s) (sv_listen s) (sv_accepted s) (sv_dropped s) (sv_gone s) (sv_lost s).
Definition vset_conns (c : gset nat) (s : server) : server :=
  Server (sv_closed s) (sv_serving s) (sv_socks s) (sv_acc s) c (sv_shake s) (sv_waiters s) (sv_futs s) (sv_done s)
    (sv_paths s) (sv_fs s) (sv_listen s) (sv_accepted s) (sv_dropped s) (sv_gone s) (sv_lost s).
Definition vset_shake (h : gset nat) (s : server) : server :=
  Server (sv_closed s) (sv_serving s) (sv_socks s) (sv_acc s) (sv_conns s) h (sv_waiters s) (sv_futs s) (sv_done s)
    (sv_paths s) (sv_fs s) (sv_listen s) (sv_accepted s) (sv_dropped s) (sv_gone s) (sv_lost s).
Definition vset_done (d : gset nat) (s : server) : server :=
  Server (sv_closed s) (sv_serving s) (sv_socks s) (sv_acc s) (sv_conns s) (sv_shake s) None (sv_futs s) (d ∪ sv_done s)
    (sv_paths s) (sv_fs s) (sv_listen s) (sv_accepted s) (sv_dropped s) (sv_gone s) (sv_lost s).
Definition vset_wait (w : list nat) (f : gset nat) (s : server) : server :=
  Server (sv_closed s) (sv_serving s) (sv_socks s) (sv_acc s) (sv_conns s) (sv_shake s) (Some w) f (sv_done s) (sv_paths s)
    (sv_fs s) (sv_listen s) (sv_accepted s) (sv_dropped s) (sv_gone s) (sv_lost s).
Definition vaccept (c : nat) (s : server) : server :=
  Server (sv_closed s) (sv_serving s) (sv_socks s) (sv_acc s) (sv_conns s) (sv_shake s) (sv_waiters s) (sv_futs s) (sv_done s)
    (sv_paths s) (sv_fs s) (sv_listen s) ({[c]} ∪ sv_accepted s) (sv_dropped s) (sv_gone s) (sv_lost s).
Definition vdrop (c : nat) (s : server) : server :=
  Server (sv_closed s) (sv_serving s) (sv_socks s) (sv_acc s) (sv_conns s) (sv_shake s) (sv_waiters s) (sv_futs s) (sv_done s)
    (sv_paths s) (sv_fs s) (sv_listen s) (sv_accepted s) ({[c]} ∪ sv_dropped s) (sv_gone s) (sv_lost s).
Definition vgone (c : nat) (s : server) : server :=
  Server (sv_closed s) (sv_serving s) (sv_socks s) (sv_acc s) (sv_conns s) (sv_shake s) (sv_waiters s) (sv_futs s) (sv_done s)
    (sv_paths s) (sv_fs s) (sv_listen s) (sv_accepted s) (sv_dropped s) ({[c]} ∪ sv_gone s) (sv_lost s).
Definition vset_closed (f : gmap string nat) (s : server) : server :=
  Server true false None (sv_acc s) (sv_conns s) (sv_shake s) (sv_waiters s) (sv_futs s) (sv_done s) [] f ∅ (sv_accepted s)
    (sv_dropped s) (sv_gone s) (sv_lost s).

Definition vset_lost (b : bool) (s : server) : server :=
  Server (sv_closed s) (sv_serving s) (sv_socks s) (sv_acc s) (sv_conns s) (sv_shake s) (sv_waiters s) (sv_futs s) (sv_done s)
    (sv_paths s) (sv_fs s) (sv_listen s) (sv_accepted s) (sv_dropped s) (sv_gone s) b.

(** What a call of user code does: it returns or it raises. *)
Definition vok := bool.

Section server.
(** Whether the server has an SSL context. *)
Variable tls : bool.

(** [__init__] up to the start, with the sockets, and the socket files found. *)
Definition sv_new (socks : list nat) (paths : list (string * nat)) (fs : gmap string nat) : server :=
  Server false false (Some socks) ∅ ∅ ∅ (Some []) ∅ ∅ paths fs (list_to_set socks) ∅ ∅ ∅ false.

(** [_start_accepting], [start_serving] *)
Definition start_accepting (s : server) : server :=
  match sv_socks s with
  | Some l => if sv_serving s || sv_closed s then s else vset_acc (list_to_map ((λ k, (k, ARun)) <$> l)) (vset_serving s)
  | None => s
  end.

(** [_wakeup] *)
Definition wakeup (s : server) : server := match sv_waiters s with None => s | Some w => vset_done (list_to_set w) s end.

(** [_detach(transport)] *)
Definition detach (c : nat) (s : server) : server :=
  let s1 := vgone c (vset_conns (sv_conns s ∖ {[c]}) s) in
  if sv_closed s1 && bool_decide (sv_conns s1 = ∅) then wakeup s1 else s1.

(** A transport of the [WeakSet] is collected. *)
Definition collect (c : nat) (s : server) : server :=
  let s1 := vgone c (vset_conns (sv_conns s ∖ {[c]}) s) in
  vset_lost (sv_lost s || sv_closed s && bool_decide (sv_conns s1 = ∅)) s1.

(** The socket files whose inode is still the one bound. *)
Definition unlink (fs : gmap string nat) (p : string * nat) : gmap string nat :=
  if decide (fs !! p.1 = Some p.2) then delete p.1 fs else fs.

(** [close()] *)
Definition wake_acceptor (p : apc) : apc := match p with AParked => ACancel | _ => p end.
Definition sv_close (s : server) : server :=
  if sv_closed s then s
  else
    let s1 := vset_closed (foldl unlink (sv_fs s) (sv_paths s)) (vset_acc (wake_acceptor <$> sv_acc s) s) in
    if bool_decide (sv_conns s1 = ∅) then wakeup s1 else s1.

(** What [sock.accept()] answers. *)
Inductive aans := AConn (c : nat) | ABlock | AError.

(** A round of [_accept_loop]; building the transport, or dropping the connection. *)
Definition acceptor (k : nat) (p : option apc) (s : server) : server := vset_acc (partial_alter (λ _, p) k (sv_acc s)) s.
Definition accept_round (k : nat) (r : aans) (s : server) : server :=
  if sv_closed s then acceptor k None s
  else
    match r with
    | AConn c => if tls then vset_shake ({[c]} ∪ sv_shake s) (acceptor k (Some ARun) (vaccept c s)) else acceptor k (Some (ABuild c)) (vaccept c s)
    | ABlock => acceptor k (Some AParked) s
    | AError => acceptor k None s
    end.
Definition build_conn (k c : nat) (ok : vok) (s : server) : server :=
  let s1 := acceptor k (Some ARun) s in if ok then vset_conns ({[c]} ∪ sv_conns s1) s1 else vdrop c s1.

(** [_setup_tls_conn]: the handshake, then the factory, whose exception nobody catches. *)
Definition setup_tls (c : nat) (hs ok : vok) (s : server) : server :=
  let s1 := vset_shake (sv_shake s ∖ {[c]}) s in
  if hs then (if ok then vset_conns ({[c]} ∪ sv_conns s1) s1 else s1) else vdrop c s1.

(** [wait_closed()] up to its wait: the future it waits for, [None] when it returns. *)
Definition wait_closed (s : server) : server * option nat :=
  match sv_waiters s with
  | None => (s, None)
  | Some w => let f := fresh (sv_futs s) in (vset_wait (w ++ [f]) ({[f]} ∪ sv_futs s) s, Some f)
  end.

(** A start; a close; an accept fiber's round, ready, and its end when cancelled; the factory; a handshake; a
    connection that is gone; a call of [wait_closed]; a transport that is collected. *)
Inductive vev :=
  | VStart | VClose | VAccept (k : nat) (r : aans) | VReady (k : nat) | VCancelled (k : nat) | VBuild (k : nat) (ok : vok)
  | VShake (c : nat) (hs ok : vok) | VDetach (c : nat) | VWait | VCollect (c : nat).

Definition vexec (e : vev) (s : server) : option server :=
  match e with
  | VStart => Some (start_accepting s)
  | VClose => Some (sv_close s)
  | VAccept k r =>
      match sv_acc s !! k with
      | Some ARun => match r with AConn c => if decide (c ∈ sv_accepted s) then None else Some (accept_round k r s) | _ => Some (accept_round k r s) end
      | _ => None
      end
  | VReady k => match sv_acc s !! k with Some AParked => Some (acceptor k (Some ARun) s) | _ => None end
  | VCancelled k => match sv_acc s !! k with Some ACancel => Some (acceptor k None s) | _ => None end
  | VBuild k ok => match sv_acc s !! k with Some (ABuild c) => Some (build_conn k c ok s) | _ => None end
  | VShake c hs ok => if decide (c ∈ sv_shake s) then Some (setup_tls c hs ok s) else None
  | VDetach c => if decide (c ∈ sv_conns s) then Some (detach c s) else None
  | VWait => Some (wait_closed s).1
  | VCollect c => if decide (c ∈ sv_conns s) then Some (collect c s) else None
  end.

Definition vstep (s s' : server) : Prop := exists e, vexec e s = Some s'.
End server.

Section reach.
Context (tls : bool) (socks : list nat) (paths : list (string * nat)) (fs : gmap string nat).

Definition vreach : server -> Prop := rtc (vstep tls) (sv_new socks paths fs).

(** ** The invariant *)

(** Waiting for the close. *)
Definition futs_ok (s : server) : Prop :=
  match sv_waiters s with Some w => list_to_set w = sv_futs s /\ sv_done s = ∅ | None => sv_done s = sv_futs s end.
Record vwait (s : server) : Prop := {
  vw_closed : sv_closed s = true -> sv_waiters s = None \/ sv_conns s ≠ ∅ \/ sv_lost s = true;
  vw_woken : sv_waiters s = None -> sv_closed s = true;
  vw_futs : futs_ok s
}.

(** The accept fibers, the listening sockets and the socket files. *)
Record vacc (s : server) : Prop := {
  va_parked k : sv_closed s = true -> sv_acc s !! k ≠ Some AParked;
  va_cancel k : sv_closed s = false -> sv_acc s !! k ≠ Some ACancel;
  va_socks : sv_socks s = (if sv_closed s then None else Some socks);
  va_listen : sv_listen s = (if sv_closed s then ∅ else list_to_set socks);
  va_files : if sv_closed s then sv_fs s = foldl unlink fs paths else sv_paths s = paths /\ sv_fs s = fs
}.

Lemma wakeup_wait s : sv_closed s = true -> futs_ok s -> vwait (wakeup s).
Proof.
  unfold wakeup, futs_ok. intros Hc H. destruct (sv_waiters s) as [w|] eqn:E.
  - destruct H as [H1 H2]. constructor; simpl; [by left|done|]. unfold futs_ok. simpl. rewrite H1, H2. set_solver.
  - constructor; [by left|done|]. unfold futs_ok. by rewrite E.
Qed.

(** Changes that neither close nor wake. *)
Lemma vwait_more s s' : vwait s -> sv_closed s' = sv_closed s -> (sv_waiters s', sv_futs s', sv_done s') = (sv_waiters s, sv_futs s, sv_done s) ->
  (sv_lost s = true -> sv_lost s' = true) -> (sv_closed s = true -> sv_conns s ≠ ∅ -> sv_conns s' ≠ ∅ \/ sv_lost s' = true) -> vwait s'.
Proof.
  intros [A B C] Hc [= E1 E2 E3] Hl Hn. constructor; [rewrite Hc, E1; naive_solver|by rewrite Hc, E1|]. unfold futs_ok. by rewrite E1, E2, E3.
Qed.
Lemma vwait_add c s s' : vwait s -> sv_closed s' = sv_closed s -> (sv_waiters s', sv_futs s', sv_done s') = (sv_waiters s, sv_futs s, sv_done s) ->
  sv_lost s' = sv_lost s -> sv_conns s' = {[c]} ∪ sv_conns s -> vwait s'.
Proof. intros V Hc E Hl Hs. apply (vwait_more s); [done..|congruence|]. intros _ _. left. rewrite Hs. set_solver. Qed.

Lemma vwait_same s s' : vwait s -> (sv_closed s', sv_waiters s', sv_futs s', sv_done s', sv_lost s', sv_conns s') = (sv_closed s, sv_waiters s, sv_futs s, sv_done s, sv_lost s, sv_conns s) -> vwait s'.
Proof. intros V [= E1 E2 E3 E4 E5 E6]. apply (vwait_more s); [done|done|congruence|congruence|]. intros _ H. left. congruence. Qed.

Lemma vwait_start s : vwait s -> vwait (start_accepting s).
Proof. intros V. unfold start_accepting. destruct (sv_socks s); [|done]. destruct (_ || _); [done|]. by apply (vwait_same s). Qed.

Lemma vwait_close s : vwait s -> vwait (sv_close s).
Proof.
  intros V. unfold sv_close. destruct (sv_closed s) eqn:Hc; [done|]. case_bool_decide as Hn; [apply wakeup_wait; [done|]; by destruct V|].
  destruct V as [A B C]. constructor; [by auto|done|done].
Qed.

Lemma vwait_detach c s : vwait s -> vwait (detach c s).
Proof.
  intros V. unfold detach. simpl. destruct (sv_closed s) eqn:Hc; simpl.
  - case_bool_decide as Hn; [apply wakeup_wait; [done|]; by destruct V|]. destruct V as [A B C]. constructor; [by auto|done|done].
  - apply (vwait_more s); [done|done|done|done|]. simpl. congruence.
Qed.

Lemma vwait_collect c s : vwait s -> vwait (collect c s).
Proof.
  intros V. apply (vwait_more s); [done|done|done|simpl; by intros ->|]. intros Hc _. simpl. rewrite Hc. simpl. case_bool_decide; [right; apply orb_true_r|by left].
Qed.

Lemma vwait_wait s : vwait s -> vwait (wait_closed s).1.
Proof.
  intros V. unfold wait_closed. destruct (sv_waiters s) as [w|] eqn:E; [|done]. destruct V as [A B C]. unfold futs_ok in C. rewrite E in *. destruct C as [C1 C2]. simpl.
  constructor; simpl; [|done|].
  - intros Hc. destruct (A Hc); [done|by right].
  - unfold futs_ok. simpl. rewrite list_to_set_app_L, C1. simpl. split; [set_solver|done].
Qed.

Lemma vwait_step s s' : vwait s -> vstep tls s s' -> vwait s'.
Proof.
  intros V [e He]. destruct e; simpl in He.
  - simplify_eq. by apply vwait_start.
  - simplify_eq. by apply vwait_close.
  - destruct (sv_acc s !! k) as [[]|]; try done. assert (s' = accept_round tls k r s) as -> by (destruct r; [case_decide|..]; congruence).
    unfold accept_round. destruct (sv_closed s) eqn:Hc; [by apply (vwait_same s)|]. destruct r; [destruct tls|..]; by apply (vwait_same s).
  - destruct (sv_acc s !! k) as [[]|]; simplify_eq. by apply (vwait_same s).
  - destruct (sv_acc s !! k) as [[]|]; simplify_eq. by apply (vwait_same s).
  - destruct (sv_acc s !! k) as [[| | |c]|]; simplify_eq. unfold build_conn. destruct ok; [by apply (vwait_add c s)|by apply (vwait_same s)].
  - case_decide; simplify_eq. unfold setup_tls. destruct hs; [destruct ok|]; [by apply (vwait_add c s)|by apply (vwait_same s)..].
  - case_decide; simplify_eq. by apply vwait_detach.
  - simplify_eq. by apply vwait_wait.
  - case_decide; simplify_eq. by apply vwait_collect.
Qed.

Lemma vwait_reach s : vreach s -> vwait s.
Proof. revert s. apply (rtc_ind_r (R := vstep tls) vwait (sv_new socks paths fs)); [by constructor|]. intros. by eapply vwait_step. Qed.

(** *** The accept fibers *)

(** A fiber moves. *)
Lemma vacc_move k p s s' : vacc s -> sv_acc s' = partial_alter (λ _, p) k (sv_acc s) ->
  (sv_closed s', sv_socks s', sv_listen s', sv_paths s', sv_fs s') = (sv_closed s, sv_socks s, sv_listen s, sv_paths s, sv_fs s) ->
  (p = Some AParked -> sv_closed s = false) -> p ≠ Some ACancel -> vacc s'.
Proof.
  intros [A B C D E] Ha [= E1 E2 E3 E4 E5] Hp Hn. constructor; rewrite ?E1, ?E2, ?E3, ?E4, ?E5, ?Ha; try done.
  - intros j Hc. destruct (decide (j = k)) as [->|]; [rewrite lookup_partial_alter_eq; intros H; rewrite Hp in Hc; done|rewrite lookup_partial_alter_ne by done; auto].
  - intros j Hc. destruct (decide (j = k)) as [->|]; [by rewrite lookup_partial_alter_eq|rewrite lookup_partial_alter_ne by done; auto].
Qed.

(** Changes that leave the fibers alone. *)
Lemma vacc_same s s' : vacc s -> (sv_acc s', sv_closed s', sv_socks s', sv_listen s', sv_paths s', sv_fs s') = (sv_acc s, sv_closed s, sv_socks s, sv_listen s, sv_paths s, sv_fs s) -> vacc s'.
Proof. intros [A B C D E] [= E0 E1 E2 E3 E4 E5]. constructor; rewrite ?E0, ?E1, ?E2, ?E3, ?E4, ?E5; done. Qed.

Lemma wakeup_same s : (sv_acc (wakeup s), sv_closed (wakeup s), sv_socks (wakeup s), sv_listen (wakeup s), sv_paths (wakeup s), sv_fs (wakeup s)) = (sv_acc s, sv_closed s, sv_socks s, sv_listen s, sv_paths s, sv_fs s).
Proof. unfold wakeup. by destruct (sv_waiters s). Qed.

Lemma vacc_start s : vacc s -> vacc (start_accepting s).
Proof.
  intros V. unfold start_accepting. destruct (sv_socks s) as [l|] eqn:Hl; [|done]. destruct (sv_serving s || sv_closed s) eqn:Hs; [done|]. apply orb_false_elim in Hs as [_ Hc].
  destruct V as [A B C D E]. rewrite Hc in *. assert (Hm : forall k p, (list_to_map ((λ k, (k, ARun)) <$> l) : gmap nat apc) !! k = Some p -> p = ARun).
  { intros k p H. apply elem_of_list_to_map_2 in H. apply list_elem_of_fmap in H as (j & [= _ ->] & _). done. }
  constructor; simpl; rewrite ?Hc; try done. intros k _ H. by apply Hm in H.
Qed.

Lemma vacc_close s : vacc s -> vacc (sv_close s).
Proof.
  intros V. unfold sv_close. destruct (sv_closed s) eqn:Hc; [done|]. set (s1 := vset_closed _ _).
  assert (V1 : vacc s1); [|case_bool_decide; [|done]; eapply vacc_same; [exact V1|apply wakeup_same]].
  destruct V as [A B C D E]. rewrite Hc in E. destruct E as [E1 E2]. constructor; simpl; try done.
  - intros k _. rewrite lookup_fmap. by destruct (sv_acc s !! k) as [[]|].
  - by rewrite E1, E2.
Qed.

Lemma vacc_step s s' : vacc s -> vstep tls s s' -> vacc s'.
Proof.
  intros V [e He]. destruct e; simpl in He.
  - simplify_eq. by apply vacc_start.
  - simplify_eq. by apply vacc_close.
  - destruct (sv_acc s !! k) as [[]|]; try done. assert (s' = accept_round tls k r s) as -> by (destruct r; [case_decide|..]; congruence).
    unfold accept_round. destruct (sv_closed s) eqn:Hc; [by eapply vacc_move|]. destruct r; [destruct tls|..]; by eapply vacc_move.
  - destruct (sv_acc s !! k) as [[]|]; simplify_eq. by eapply vacc_move.
  - destruct (sv_acc s !! k) as [[]|]; simplify_eq. by eapply vacc_move.
  - destruct (sv_acc s !! k) as [[| | |c]|]; simplify_eq. unfold build_conn. destruct ok; by eapply vacc_move.
  - case_decide; simplify_eq. unfold setup_tls. destruct hs; [destruct ok|]; by apply (vacc_same s).
  - case_decide; simplify_eq. unfold detach. destruct (_ && _); [|by apply (vacc_same s)]. eapply vacc_same; [|apply wakeup_same]. by apply (vacc_same s).
  - simplify_eq. unfold wait_closed. destruct (sv_waiters s); [by apply (vacc_same s)|done].
  - case_decide; simplify_eq. by apply (vacc_same s).
Qed.

Lemma vacc_reach s : vreach s -> vacc s.
Proof.
  revert s. apply (rtc_ind_r (R := vstep tls) vacc (sv_new socks paths fs)); [|intros; by eapply vacc_step]. by constructor.
Qed.

(** *** Connections *)

(** The factory does not raise after a handshake; [accept] does not fail. *)
Definition vtame (e : vev) : Prop := match e with VShake _ true false | VAccept _ AError => False | _ => True end.
Definition vtame_step (s s' : server) : Prop := exists e, vtame e /\ vexec tls e s = Some s'.

(** Every accepted connection is somewhere, and every listening socket of a serving server has its fiber. *)
Definition place (s : server) (c : nat) : Prop :=
  c ∈ sv_shake s \/ c ∈ sv_conns s \/ c ∈ sv_gone s \/ c ∈ sv_dropped s \/ exists k, sv_acc s !! k = Some (ABuild c).
Record vplaces (s : server) : Prop := {
  vp_place c : c ∈ sv_accepted s -> place s c;
  vp_fiber k : sv_closed s = false -> sv_serving s = true -> k ∈ socks -> is_Some (sv_acc s !! k);
  vp_idle k : sv_closed s = false -> sv_serving s = false -> sv_acc s !! k = None
}.

(** A fiber moves, and connections with it. *)
Lemma vplaces_move k p s s' : vplaces s -> is_Some (sv_acc s !! k) -> sv_acc s' = partial_alter (λ _, p) k (sv_acc s) ->
  (sv_closed s', sv_serving s') = (sv_closed s, sv_serving s) -> (sv_closed s = false -> is_Some p) ->
  (forall c, c ∈ sv_accepted s' -> c ∈ sv_accepted s \/ place s' c) ->
  sv_shake s ⊆ sv_shake s' /\ sv_conns s ⊆ sv_conns s' /\ sv_gone s ⊆ sv_gone s' /\ sv_dropped s ⊆ sv_dropped s' ->
  (forall c, sv_acc s !! k = Some (ABuild c) -> place s' c) -> vplaces s'.
Proof.
  intros [A B C] Hk Ha [= E1 E2] Hp Hacc (I1 & I2 & I3 & I4) Hb. constructor; rewrite ?E1, ?E2, ?Ha.
  - intros c Hc. destruct (Hacc c Hc) as [Hc'|]; [|done]. destruct (A c Hc') as [?|[?|[?|[?|[j Hj]]]]]; [left; auto|right; left; auto|do 2 right; left; auto|do 3 right; left; auto|].
    destruct (decide (j = k)) as [->|]; [by apply Hb|]. do 4 right. exists j. by rewrite Ha, lookup_partial_alter_ne.
  - intros j Hc Hs Hj. destruct (decide (j = k)) as [->|]; [rewrite lookup_partial_alter_eq; auto|rewrite lookup_partial_alter_ne by done; auto].
  - intros j Hc Hs. rewrite C in Hk by done. by destruct Hk.
Qed.

(** The fibers stay, and connections move on. *)
Lemma vplaces_same s s' : vplaces s -> (sv_acc s', sv_closed s', sv_serving s', sv_accepted s') = (sv_acc s, sv_closed s, sv_serving s, sv_accepted s) ->
  (forall c, c ∈ sv_shake s \/ c ∈ sv_conns s \/ c ∈ sv_gone s \/ c ∈ sv_dropped s -> place s' c) -> vplaces s'.
Proof.
  intros [A B C] [= E1 E2 E3 E4] Hp. constructor; rewrite ?E1, ?E2, ?E3, ?E4; try done.
  intros c Hc. destruct (A c Hc) as [?|[?|[?|[?|?]]]]; try (apply Hp; tauto). do 4 right. by rewrite E1.
Qed.

Lemma place_refl s s' : (sv_shake s', sv_conns s', sv_gone s', sv_dropped s') = (sv_shake s, sv_conns s, sv_gone s, sv_dropped s) ->
  forall c, c ∈ sv_shake s \/ c ∈ sv_conns s \/ c ∈ sv_gone s \/ c ∈ sv_dropped s -> place s' c.
Proof. intros [= E1 E2 E3 E4] c H. unfold place. rewrite E1, E2, E3, E4. tauto. Qed.

Lemma vplaces_wakeup s : vplaces s -> vplaces (wakeup s).
Proof. intros V. unfold wakeup. destruct (sv_waiters s); [|done]. apply (vplaces_same s); [done|done|by apply place_refl]. Qed.

Lemma vplaces_start s : vacc s -> vplaces s -> vplaces (start_accepting s).
Proof.
  intros W V. unfold start_accepting. destruct (sv_socks s) as [l|] eqn:Hl; [|done]. destruct (sv_serving s) eqn:Hs; [done|]. destruct (sv_closed s) eqn:Hc; [done|]. simpl.
  pose proof (va_socks _ W) as Hl'. rewrite Hl, Hc in Hl'. injection Hl' as ->. destruct V as [A B C]. constructor; simpl; try done.
  - intros c Hcc. destruct (A c Hcc) as [?|[?|[?|[?|[k Hk]]]]]; unfold place; simpl; try tauto. rewrite C in Hk; done.
  - intros k _ _ Hk. assert (X : (list_to_map ((λ k, (k, ARun)) <$> socks) : gmap nat apc) !! k ≠ None); [|by destruct (_ !! k)].
    intros H. apply not_elem_of_list_to_map in H. apply H. rewrite <-list_fmap_compose. apply list_elem_of_fmap. by exists k.
Qed.

Lemma vplaces_close s : vplaces s -> vplaces (sv_close s).
Proof.
  intros V. unfold sv_close. destruct (sv_closed s) eqn:Hc; [done|]. set (s1 := vset_closed _ _). assert (V1 : vplaces s1); [|case_bool_decide; [by apply vplaces_wakeup|done]].
  destruct V as [A B C]. constructor; simpl; try done. intros c Hcc. destruct (A c Hcc) as [?|[?|[?|[?|[k Hk]]]]]; unfold place; simpl; try tauto.
  do 4 right. exists k. by rewrite lookup_fmap, Hk.
Qed.

(** The side conditions of a move. *)
Ltac moves Hk := simpl; try done; try congruence; try (by rewrite Hk); try (by eexists); try (by auto).

Lemma vplaces_step s s' : vacc s -> vplaces s -> vtame_step s s' -> vplaces s'.
Proof.
  intros W V (e & T & He). destruct e; simpl in He.
  - simplify_eq. by apply vplaces_start.
  - simplify_eq. by apply vplaces_close.
  - destruct (sv_acc s !! k) as [[]|] eqn:Hk; try done. assert (s' = accept_round tls k r s) as -> by (destruct r; [case_decide|..]; congruence).
    unfold accept_round. destruct (sv_closed s) eqn:Hc.
    + eapply (vplaces_move k); moves Hk.
    + destruct r as [c| |]; [|eapply (vplaces_move k); moves Hk|done].
      destruct tls; eapply (vplaces_move k); moves Hk.
      * intros c' [->%elem_of_singleton|?]%elem_of_union; [right|by left]. left. simpl. set_solver.
      * set_solver.
      * intros c' [->%elem_of_singleton|?]%elem_of_union; [right|by left]. do 4 right. exists k. simpl. by rewrite lookup_partial_alter_eq.
  - destruct (sv_acc s !! k) as [[]|] eqn:Hk; simplify_eq. eapply (vplaces_move k); moves Hk.
  - destruct (sv_acc s !! k) as [[]|] eqn:Hk; simplify_eq. eapply (vplaces_move k); moves Hk; intros Hc; by destruct (va_cancel _ W k Hc).
  - destruct (sv_acc s !! k) as [[| | |c]|] eqn:Hk; simplify_eq. unfold build_conn.
    destruct ok; eapply (vplaces_move k); moves Hk; try (by auto); try (split_and!; set_solver); intros c' H; rewrite Hk in H; injection H as ->.
    + right; left. simpl. set_solver.
    + do 3 right; left. simpl. set_solver.
  - case_decide; simplify_eq. unfold setup_tls. destruct hs; [destruct ok|]; [| done |]; apply (vplaces_same s); try done; intros c' H'; unfold place; simpl; destruct (decide (c' = c)) as [->|]; set_solver.
  - case_decide; simplify_eq. unfold detach. assert (V1 : vplaces (vgone c (vset_conns (sv_conns s ∖ {[c]}) s))).
    { apply (vplaces_same s); try done; intros c' H'; unfold place; simpl; destruct (decide (c' = c)) as [->|]; set_solver. }
    destruct (_ && _); [by apply vplaces_wakeup|done].
  - simplify_eq. unfold wait_closed. destruct (sv_waiters s); [|done]. apply (vplaces_same s); [done|done|by apply place_refl].
  - case_decide; simplify_eq. apply (vplaces_same s); try done; intros c' H'; unfold place; simpl; destruct (decide (c' = c)) as [->|]; set_solver.
Qed.

Lemma vtame_vreach s : rtc vtame_step (sv_new socks paths fs) s -> vreach s.
Proof. intros R. apply (rtc_subrel vtame_step (vstep tls)); [|done]. intros s1 s2 (e & _ & He). by exists e. Qed.

Lemma vplaces_reach s : rtc vtame_step (sv_new socks paths fs) s -> vplaces s.
Proof.
  intros R. cut (vacc s /\ vplaces s); [by intros []|]. revert s R. apply (rtc_ind_r (R := vtame_step) (λ s, vacc s /\ vplaces s) (sv_new socks paths fs)).
  - split; [by constructor|]. by constructor.
  - intros s1 s2 _ Hs [W V]. split; [|by eapply vplaces_step]. destruct Hs as (e & _ & He). eapply vacc_step; [done|by exists e].
Qed.
End reach.

(** ** Traces *)

Fixpoint vrun (tls : bool) (l : list vev) (s : server) : option server :=
  match l with [] => Some s | e :: l' => match vexec tls e s with Some s' => vrun tls l' s' | None => None end end.
Definition vtame_b (e : vev) : bool := match e with VShake _ true false | VAccept _ AError => false | _ => true end.

Lemma vrun_rtc tls l s s' : vrun tls l s = Some s' -> rtc (vstep tls) s s'.
Proof.
  revert s. induction l as [|e l IH]; simpl; intros s H; [by simplify_eq|]. destruct (vexec tls e s) as [s1|] eqn:E; [|done]. eapply rtc_l; [by exists e|auto].
Qed.
Lemma vrun_tame tls l s s' : vrun tls l s = Some s' -> forallb vtame_b l = true -> rtc (vtame_step tls) s s'.
Proof.
  revert s. induction l as [|e l IH]; simpl; intros s H T; [by simplify_eq|]. destruct (vexec tls e s) as [s1|] eqn:E; [|done]. apply andb_prop in T as [T1 T2].
  eapply rtc_l; [|by apply IH]. exists e. split; [|done]. by destruct e as [| | | | | | c [] []| | |]; try destruct r.
Qed.

(** ** What the server promises *)

(** C33. [wait_closed] returns in time and not early: the step that wakes the waiters comes when the server is
    closed and no connection is left in the set, wakes every one of them, and happens as soon as that is so: no
    waiter of a closed server without connections is left, except where the last connection of the closed
    server did not finish but was garbage-collected out of the [WeakSet]. *)
Theorem server_wait_closed tls socks paths fs s : vreach tls socks paths fs s ->
  (sv_closed s = true -> sv_conns s = ∅ -> sv_lost s = false -> sv_waiters s = None /\ sv_done s = sv_futs s) /\
  (sv_waiters s = None -> sv_closed s = true) /\ (sv_waiters s ≠ None -> sv_done s = ∅) /\
  (forall s', vstep tls s s' -> sv_waiters s ≠ None -> sv_waiters s' = None -> sv_closed s' = true /\ sv_conns s' = ∅ /\ sv_done s' = sv_futs s') /\
  (forall s', vstep tls s s' -> sv_lost s = false -> sv_lost s' = true -> exists c, sv_closed s = true /\ sv_conns s = {[c]} /\ s' = collect c s).
Proof.
  intros R. destruct (vwait_reach _ _ _ _ _ R) as [A B C]. unfold futs_ok in C. split_and!; [| done | | |].
  - intros Hc Hn Hl. destruct (A Hc) as [Hw|[?|?]]; [|done|congruence]. rewrite Hw in C. done.
  - intros Hw. destruct (sv_waiters s); [by destruct C|done].
  - intros s' Hs Hw Hw'. assert (R' : vreach tls socks paths fs s') by (by eapply rtc_r). destruct (vwait_reach _ _ _ _ _ R') as [A' B' C']. split; [auto|]. unfold futs_ok in C'. rewrite Hw' in C'.
    split; [|done]. destruct Hs as [e He]. clear -He Hw Hw'.
    assert (W : forall x, sv_waiters x = None -> sv_waiters s ≠ None -> sv_waiters x = sv_waiters s -> False) by (intros x H1 H2 H3; congruence).
    assert (D : forall x, sv_conns (wakeup x) = sv_conns x) by (intros x; unfold wakeup; by destruct (sv_waiters x)).
    destruct e; simpl in He.
    + simplify_eq. exfalso. apply (W _ Hw' Hw). unfold start_accepting. destruct (sv_socks s); [|done]. by destruct (_ || _).
    + simplify_eq. revert Hw'. unfold sv_close. destruct (sv_closed s); [done|]. case_bool_decide as Hn; [by rewrite D|done].
    + destruct (sv_acc s !! k) as [[]|]; try done. assert (s' = accept_round tls k r s) as -> by (destruct r; [case_decide|..]; congruence).
      exfalso. apply (W _ Hw' Hw). unfold accept_round. destruct (sv_closed s); [done|]. destruct r; [destruct tls|..]; done.
    + destruct (sv_acc s !! k) as [[]|]; by simplify_eq.
    + destruct (sv_acc s !! k) as [[]|]; by simplify_eq.
    + destruct (sv_acc s !! k) as [[| | |c]|]; simplify_eq. exfalso. apply (W _ Hw' Hw). by destruct ok.
    + case_decide; simplify_eq. exfalso. apply (W _ Hw' Hw). unfold setup_tls. by destruct hs, ok.
    + case_decide; simplify_eq. revert Hw'. unfold detach. destruct (sv_closed _); simpl; [|done]. case_bool_decide as Hn; [by rewrite D|done].
    + simplify_eq. revert Hw'. unfold wait_closed. by destruct (sv_waiters s).
    + case_decide; by simplify_eq.
  - intros s' [e He] Hl Hl'. clear -He Hl Hl'. assert (D : forall x, sv_lost (wakeup x) = sv_lost x) by (intros x; unfold wakeup; by destruct (sv_waiters x)).
    destruct e; simpl in He.
    + simplify_eq. revert Hl'. unfold start_accepting. destruct (sv_socks s); [|congruence]. destruct (_ || _); simpl; congruence.
    + simplify_eq. revert Hl'. unfold sv_close. destruct (sv_closed s); [congruence|]. case_bool_decide; rewrite ?D; simpl; congruence.
    + destruct (sv_acc s !! k) as [[]|]; try done. assert (s' = accept_round tls k r s) as -> by (destruct r; [case_decide|..]; congruence).
      revert Hl'. unfold accept_round. destruct (sv_closed s); [simpl; congruence|]. destruct r; [destruct tls|..]; simpl; congruence.
    + destruct (sv_acc s !! k) as [[]|]; simplify_eq; simpl in Hl'; congruence.
    + destruct (sv_acc s !! k) as [[]|]; simplify_eq; simpl in Hl'; congruence.
    + destruct (sv_acc s !! k) as [[| | |c]|]; simplify_eq. revert Hl'. destruct ok; simpl; congruence.
    + case_decide; simplify_eq. revert Hl'. unfold setup_tls. destruct hs, ok; simpl; congruence.
    + case_decide; simplify_eq. revert Hl'. unfold detach. destruct (_ && _); rewrite ?D; simpl; congruence.
    + simplify_eq. revert Hl'. unfold wait_closed. destruct (sv_waiters s); simpl; congruence.
    + case_decide as Hin; [|done]. injection He as <-. exists c. unfold collect in Hl'. simpl in Hl'. rewrite Hl in Hl'. simpl in Hl'. apply andb_prop in Hl' as [Hc He].
      apply bool_decide_eq_true in He. split_and!; [done| |done]. apply set_eq. intros x. pose proof (proj1 (set_eq _ _) He x) as Hx.
      rewrite elem_of_difference, elem_of_singleton in Hx. rewrite elem_of_singleton. destruct (decide (x = c)) as [->|]; [done|]. split; [|done]. intros Hx'. exfalso. apply (not_elem_of_empty (C := gset nat) x). by apply Hx.
Qed.

Lemma server_wait_closed_witness : exists s s', vreach false [0] [] ∅ s /\ vstep false s s' /\ size (sv_futs s) = 2 /\ sv_done s = ∅ /\ sv_done s' = sv_futs s'.
Proof.
  pose (l := [VStart; VAccept 0 (AConn 5); VBuild 0 true; VWait; VClose; VWait; VAccept 0 ABlock]).
  destruct (vrun false l (sv_new [0] [] ∅)) as [s|] eqn:E; [|vm_compute in E; discriminate]. pose proof (vrun_rtc _ _ _ _ E) as R.
  destruct (vexec false (VDetach 5) s) as [s'|] eqn:E'; [|vm_compute in E; injection E as <-; vm_compute in E'; discriminate].
  assert (Hs : vstep false s s') by (by exists (VDetach 5)). exists s, s'. destruct (server_wait_closed false [0] [] ∅ s R) as (_ & _ & H1 & H2 & _).
  assert (G : sv_waiters s ≠ None /\ sv_waiters s' = None /\ size (sv_futs s) = 2).
  { vm_compute in E. injection E as <-. vm_compute in E'. injection E' as <-. by split_and!. }
  destruct G as (G1 & G2 & G3). destruct (H2 s' Hs G1 G2) as (_ & _ & H3). split_and!; [exact R|exact Hs|exact G3|exact (H1 G1)|exact H3].
Defined.

(** [close()] closes: no listening socket is open any more, no accept fiber stays parked, nothing is
    accepted from then on, and it stays so; and of the socket files it removed just those whose inode was still the
    one bound. *)
Theorem server_close_stops tls socks paths fs s : vreach tls socks paths fs s -> sv_closed s = true ->
  sv_listen s = ∅ /\ (forall k, sv_acc s !! k ≠ Some AParked) /\ (forall s', vstep tls s s' -> sv_closed s' = true /\ sv_accepted s' = sv_accepted s) /\
  (forall p, sv_fs s !! p = match fs !! p with Some i => if bool_decide ((p, i) ∈ paths) then None else Some i | None => None end).
Proof.
  intros R Hc. destruct (vacc_reach _ _ _ _ _ R) as [A B C D E]. rewrite Hc in *. split_and!; [done|auto| |].
  - intros s' [e He]. assert (D' : forall x, sv_closed (wakeup x) = sv_closed x /\ sv_accepted (wakeup x) = sv_accepted x) by (intros x; unfold wakeup; by destruct (sv_waiters x)).
    destruct e; simpl in He; unfold start_accepting, sv_close, accept_round, detach, wait_closed in He; rewrite ?Hc in He.
    + simplify_eq. rewrite orb_true_r. by destruct (sv_socks s).
    + by simplify_eq.
    + destruct (sv_acc s !! k) as [[]|]; try done. destruct r; [case_decide|..]; by simplify_eq.
    + destruct (sv_acc s !! k) as [[]|]; by simplify_eq.
    + destruct (sv_acc s !! k) as [[]|]; by simplify_eq.
    + destruct (sv_acc s !! k) as [[| | |c]|]; simplify_eq. unfold build_conn. by destruct ok.
    + case_decide; simplify_eq. unfold setup_tls. by destruct hs, ok.
    + case_decide; simplify_eq. simpl. rewrite Hc. simpl. case_bool_decide; [|done]. by rewrite !(proj1 (D' _)), !(proj2 (D' _)).
    + simplify_eq. by destruct (sv_waiters s).
    + case_decide; by simplify_eq.
  - intros p. rewrite E. clear. revert fs. induction paths as [|[q j] l IH]; intros fs; cbn [foldl].
    + destruct (fs !! p); [|done]. rewrite bool_decide_false; [done|apply not_elem_of_nil].
    + rewrite IH. unfold unlink. cbn [fst snd]. case_decide as Hq; [destruct (decide (p = q)) as [->|Hpq]|].
      * rewrite lookup_delete_eq, Hq, bool_decide_true; [done|]. apply elem_of_cons. by left.
      * rewrite lookup_delete_ne by done. destruct (fs !! p) as [i|]; [|done]. rewrite (bool_decide_ext ((p, i) ∈ (q, j) :: l) ((p, i) ∈ l)); [done|]. rewrite elem_of_cons. naive_solver.
      * destruct (fs !! p) as [i|] eqn:Hp; [|done]. rewrite (bool_decide_ext ((p, i) ∈ (q, j) :: l) ((p, i) ∈ l)); [done|]. rewrite elem_of_cons. naive_solver.
Qed.

Lemma server_close_stops_witness : exists s, vreach false [0; 1] [("a", 3); ("b", 4)]%string {["a"%string := 3; "b"%string := 9]} s /\ sv_fs s !! "a"%string = None /\ sv_fs s !! "b"%string = Some 9 /\ sv_listen s = ∅.
Proof.
  pose (l := [VStart; VAccept 0 ABlock; VAccept 1 (AConn 5); VClose]).
  destruct (vrun false l (sv_new [0; 1] [("a", 3); ("b", 4)]%string {["a"%string := 3; "b"%string := 9]})) as [s|] eqn:E; [|vm_compute in E; discriminate]. exists s. pose proof (vrun_rtc _ _ _ _ E) as R.
  assert (Hc : sv_closed s = true) by (vm_compute in E; injection E as <-; reflexivity).
  destruct (server_close_stops false _ _ _ s R Hc) as (H1 & _ & _ & H2). split_and!; [exact R|rewrite H2; vm_compute; reflexivity|rewrite H2; vm_compute; reflexivity|exact H1].
Defined.

(** No connection is lost sight of: each one accepted is being set up, live, gone or dropped; and a serving server
    has a fiber for each of its sockets. *)
Theorem server_accounts tls socks paths fs s : rtc (vtame_step tls) (sv_new socks paths fs) s ->
  (forall c, c ∈ sv_accepted s -> place s c) /\ (sv_closed s = false -> sv_serving s = true -> forall k, k ∈ socks -> is_Some (sv_acc s !! k)).
Proof. intros R. destruct (vplaces_reach _ _ _ _ _ R) as [A B C]. auto. Qed.

Lemma server_accounts_witness : exists s, rtc (vtame_step true) (sv_new [0; 1] [] ∅) s /\ 5 ∈ sv_accepted s /\ place s 5 /\ is_Some (sv_acc s !! 1).
Proof.
  pose (l := [VStart; VAccept 0 (AConn 5); VAccept 0 (AConn 6); VShake 5 true true; VShake 6 false true]).
  destruct (vrun true l (sv_new [0; 1] [] ∅)) as [s|] eqn:E; [|vm_compute in E; discriminate]. exists s.
  assert (T : forallb vtame_b l = true) by reflexivity. pose proof (vrun_tame _ _ _ _ E T) as R.
  assert (G : bool_decide (5 ∈ sv_accepted s) = true /\ sv_closed s = false /\ sv_serving s = true) by (vm_compute in E; injection E as <-; by vm_compute).
  destruct G as (G1 & G2 & G3). apply bool_decide_eq_true in G1. destruct (server_accounts true [0; 1] [] ∅ s R) as [H1 H2].
  split_and!; [exact R|exact G1|exact (H1 5 G1)|]. apply (H2 G2 G3). right. left.
Defined.

(** ** What goes wrong *)

(** After a handshake the factory's exception is not caught: the connection stays open and nobody knows it. *)
Theorem server_tls_factory_leak : exists s, vreach true [0] [] ∅ s /\ 5 ∈ sv_accepted s /\ ~ place s 5.
Proof.
  pose (l := [VStart; VAccept 0 (AConn 5); VShake 5 true false]).
  destruct (vrun true l (sv_new [0] [] ∅)) as [s|] eqn:E; [|vm_compute in E; discriminate]. exists s. pose proof (vrun_rtc _ _ _ _ E) as R. split; [exact R|].
  assert (G : bool_decide (5 ∈ sv_accepted s) = true /\ bool_decide (5 ∈ sv_shake s ∪ sv_conns s ∪ sv_gone s ∪ sv_dropped s) = false /\ sv_acc s = {[0 := ARun]}) by (vm_compute in E; injection E as <-; by vm_compute).
  destruct G as (G1 & G2 & G3). apply bool_decide_eq_true in G1. apply bool_decide_eq_false in G2. split; [done|]. intros [?|[?|[?|[?|[k Hk]]]]]; try set_solver.
  rewrite G3 in Hk. by apply lookup_singleton_Some in Hk as [_ ?].
Qed.

(** One error of [accept], even a passing one, ends its fiber: the server says that it serves, its socket is
    open, and nobody accepts. *)
Theorem server_accept_error_stops : exists s, vreach false [0] [] ∅ s /\ sv_serving s = true /\ sv_closed s = false /\ sv_listen s = {[0]} /\
  forall s', rtc (vstep false) s s' -> sv_accepted s' = ∅.
Proof.
  pose (l := [VStart; VAccept 0 AError]).
  destruct (vrun false l (sv_new [0] [] ∅)) as [s|] eqn:E; [|vm_compute in E; discriminate]. exists s. pose proof (vrun_rtc _ _ _ _ E) as R. split; [exact R|].
  assert (G : sv_serving s = true /\ sv_closed s = false /\ sv_listen s = {[0]} /\ sv_acc s = ∅ /\ sv_shake s = ∅ /\ sv_accepted s = ∅) by (vm_compute in E; injection E as <-; by vm_compute).
  destruct G as (G1 & G2 & G3 & G4 & G5 & G6). split_and!; try done. intros s' Hr.
  cut ((sv_serving s' = true \/ sv_closed s' = true) /\ sv_acc s' = ∅ /\ sv_shake s' = ∅ /\ sv_accepted s' = ∅); [by intros (_ & _ & _ & ?)|]. revert s' Hr.
  apply (rtc_ind_r (R := vstep false) (λ s', (sv_serving s' = true \/ sv_closed s' = true) /\ sv_acc s' = ∅ /\ sv_shake s' = ∅ /\ sv_accepted s' = ∅) s); [by split_and!; [left|..]|].
  intros s1 s2 _ [e He] (H1 & H2 & H3 & H4).
  assert (D : forall x, sv_acc (wakeup x) = sv_acc x /\ sv_closed (wakeup x) = sv_closed x /\ sv_serving (wakeup x) = sv_serving x /\ sv_shake (wakeup x) = sv_shake x /\ sv_accepted (wakeup x) = sv_accepted x)
    by (intros x; unfold wakeup; by destruct (sv_waiters x)).
  destruct e; simpl in He; rewrite ?H2, ?lookup_empty in He; try done.
  - simplify_eq. unfold start_accepting. destruct (sv_socks s1); [|done]. destruct (sv_serving s1 || sv_closed s1) eqn:X; [done|]. apply orb_false_elim in X as [X1 X2]. rewrite X1, X2 in H1. by destruct H1.
  - simplify_eq. unfold sv_close. destruct (sv_closed s1) eqn:Hc; [by rewrite Hc|]. case_bool_decide.
    + match goal with |- context [wakeup ?x] => destruct (D x) as (D1 & D2 & D3 & D4 & D5) end. rewrite D1, D2, D4, D5. simpl. rewrite H2, fmap_empty. auto.
    + simpl. rewrite H2, fmap_empty. auto.
  - case_decide; [rewrite H3 in *; set_solver|done].
  - case_decide; simplify_eq. unfold detach. destruct (_ && _); [|done].
    match goal with |- context [wakeup ?x] => destruct (D x) as (D1 & D2 & D3 & D4 & D5) end. rewrite D1, D2, D3, D4, D5. done.
  - simplify_eq. unfold wait_closed. by destruct (sv_waiters s1).
  - case_decide; by simplify_eq.
Qed.

(** A handshake that is under way at [close()] still makes a live connection, after [wait_closed] returned. *)
Theorem server_late_connection : exists s, rtc (vtame_step true) (sv_new [0] [] ∅) s /\ sv_closed s = true /\ sv_waiters s = None /\ sv_conns s = {[5]}.
Proof.
  pose (l := [VStart; VAccept 0 (AConn 5); VClose; VWait; VShake 5 true true]).
  destruct (vrun true l (sv_new [0] [] ∅)) as [s|] eqn:E; [|vm_compute in E; discriminate]. exists s.
  assert (T : forallb vtame_b l = true) by reflexivity. pose proof (vrun_tame _ _ _ _ E T) as R. split; [exact R|]. vm_compute in E. injection E as <-. by vm_compute.
Qed.

(** The last connection of a closed server is garbage-collected, say a transport that paused reading, has nothing
    to send and is referred to by nobody: the set shrinks without [_detach], and [wait_closed] never returns. *)
Theorem server_collected_strands : exists s, vreach false [0] [] ∅ s /\ sv_closed s = true /\ sv_conns s = ∅ /\ sv_futs s ≠ ∅ /\
  forall s', rtc (vstep false) s s' -> sv_done s' = ∅.
Proof.
  pose (l := [VStart; VAccept 0 (AConn 5); VBuild 0 true; VWait; VClose; VAccept 0 ABlock; VCollect 5]).
  destruct (vrun false l (sv_new [0] [] ∅)) as [s|] eqn:E; [|vm_compute in E; discriminate]. exists s. pose proof (vrun_rtc _ _ _ _ E) as R. split; [exact R|].
  assert (G : sv_closed s = true /\ sv_conns s = ∅ /\ bool_decide (sv_futs s = ∅) = false /\ sv_acc s = ∅ /\ sv_shake s = ∅ /\ sv_done s = ∅) by (vm_compute in E; injection E as <-; by vm_compute).
  destruct G as (G1 & G2 & G3 & G4 & G5 & G6). apply bool_decide_eq_false in G3. split_and!; try done. intros s' Hr.
  cut (sv_closed s' = true /\ sv_conns s' = ∅ /\ sv_acc s' = ∅ /\ sv_shake s' = ∅ /\ sv_done s' = ∅); [by intros (_ & _ & _ & _ & ?)|]. revert s' Hr.
  apply (rtc_ind_r (R := vstep false) (λ s', sv_closed s' = true /\ sv_conns s' = ∅ /\ sv_acc s' = ∅ /\ sv_shake s' = ∅ /\ sv_done s' = ∅) s); [done|].
  intros s1 s2 _ [e He] (H1 & H2 & H3 & H4 & H5). destruct e; simpl in He; rewrite ?H2, ?H3, ?H4, ?lookup_empty in He; try done.
  - simplify_eq. unfold start_accepting. rewrite H1, orb_true_r. by destruct (sv_socks s1).
  - simplify_eq. unfold sv_close. by rewrite H1.
  - simplify_eq. unfold wait_closed. by destruct (sv_waiters s1).
Qed.
