(* ===== verification/LoopIO.v ===== *)
(** * Readers and writers

    Models [add_reader], [remove_reader], [add_writer], [remove_writer] and the fiber that serves a descriptor
    ([src/src/stackweave/aio/loop_io.py]: [_pg_set_io], [_pg_clear_io], [_pg_kick_io], [_pg_io_runner]).  A
    registration is an object that the table maps a descriptor to; its fiber keeps it when the table drops it, so
    a descriptor can have fibers of several registrations.  Callbacks may do anything, as may other fibers while one
    is under way.  A closed loop, and the scheduler's stop after [loop.stop()], are not modelled. *)
From S2P Require Import Prelude.

(** A registration: its reader and writer handles, and its fiber. *)
Record iost := IoSt { st_r : option nat; st_w : option nat; st_g : option nat }.

(** [_pg_io_runner]: at its top; parked for reading and writing; woken; in the reader's callback, with the
    writer still to serve or not; before the writer; in the writer's callback. *)
Inductive ipc := ITop | IParked (r w : bool) | IServe (r w : bool) | IReading (w : bool) | IMid (w : bool) | IWriting.
Record ifib := IFib { if_st : nat; if_pc : ipc }.

(** [_io]; the registrations; the handles that are cancelled; a counter for new handles and registrations; the
    fibers; and, which the code does not read, the handles that ran. *)
Record lio := Lio {
  l_io : gmap nat nat; l_sts : gmap nat iost; l_cancelled : gset nat; l_next : nat; l_fibs : gmap nat ifib;
  l_runs : list nat
}.

Definition lset_io (m : gmap nat nat) (s : lio) : lio :=
  Lio m (l_sts s) (l_cancelled s) (l_next s) (l_fibs s) (l_runs s).
Definition lset_sts (m : gmap nat iost) (s : lio) : lio :=
  Lio (l_io s) m (l_cancelled s) (l_next s) (l_fibs s) (l_runs s).
Definition lcancel (h : nat) (s : lio) : lio :=
  Lio (l_io s) (l_sts s) ({[h]} ∪ l_cancelled s) (l_next s) (l_fibs s) (l_runs s).
Definition lset_next (s : lio) : lio :=
  Lio (l_io s) (l_sts s) (l_cancelled s) (S (l_next s)) (l_fibs s) (l_runs s).
Definition lset_fibs (m : gmap nat ifib) (s : lio) : lio :=
  Lio (l_io s) (l_sts s) (l_cancelled s) (l_next s) m (l_runs s).
Definition lrun (h : nat) (s : lio) : lio :=
  Lio (l_io s) (l_sts s) (l_cancelled s) (l_next s) (l_fibs s) (l_runs s ++ [h]).

Definition l_init : lio := Lio ∅ ∅ ∅ 0 ∅ [].

(** [add_reader] for [true], [add_writer] for [false]. *)
Definition slot (rd : bool) (x : iost) : option nat := if rd then st_r x else st_w x.
Definition set_slot (rd : bool) (h : option nat) (x : iost) : iost :=
  if rd then IoSt h (st_w x) (st_g x) else IoSt (st_r x) h (st_g x).
Definition set_g (g : option nat) (x : iost) : iost := IoSt (st_r x) (st_w x) g.

(** A handle that is there and not cancelled. *)
Definition hlive (s : lio) (h : option nat) : bool := match h with Some h => bool_decide (h ∉ l_cancelled s) | None => false end.

Definition pc_to (i : nat) (pc : ipc) (s : lio) : lio :=
  match l_fibs s !! i with Some f => lset_fibs (<[i := IFib (if_st f) pc]> (l_fibs s)) s | None => s end.

(** [_pg_kick_io] *)
Definition pg_kick_io (n : nat) (s : lio) : lio :=
  match l_sts s !! n with
  | None => s
  | Some x =>
      match st_g x with
      | Some i => match l_fibs s !! i with Some (IFib _ (IParked _ _)) => pc_to i ITop s | _ => s end
      | None =>
          if bool_decide (st_r x = None /\ st_w x = None) then s
          else let i := l_next s in lset_next (lset_fibs (<[i := IFib n ITop]> (l_fibs s)) (lset_sts (<[n := set_g (Some i) x]> (l_sts s)) s))
      end
  end.

Definition cancel_opt (h : option nat) (s : lio) : lio := match h with Some h => lcancel h s | None => s end.

(** [_pg_set_io(fd, evt, handle)], with a new handle. *)
Definition new_reg (fd : nat) (s : lio) : lio :=
  match l_io s !! fd with
  | Some _ => s
  | None => let n := l_next s in lset_next (lset_io (<[fd := n]> (l_io s)) (lset_sts (<[n := IoSt None None None]> (l_sts s)) s))
  end.
Definition pg_set_io (fd : nat) (rd : bool) (s : lio) : lio :=
  let s1 := new_reg fd s in
  match l_io s1 !! fd with
  | Some n =>
      match l_sts s1 !! n with
      | Some x =>
          let h := l_next s1 in
          pg_kick_io n (lset_sts (<[n := set_slot rd (Some h) x]> (l_sts s1)) (cancel_opt (slot rd x) (lset_next s1)))
      | None => s1
      end
  | None => s1
  end.

(** [_pg_clear_io(fd, evt)], with its result. *)
Definition pg_clear_io (fd : nat) (rd : bool) (s : lio) : lio * bool :=
  match l_io s !! fd with
  | None => (s, false)
  | Some n =>
      match l_sts s !! n with
      | None => (s, false)
      | Some x =>
          match slot rd x with
          | None => (s, false)
          | Some h =>
              let x' := set_slot rd None x in
              let s1 := lset_sts (<[n := x']> (l_sts s)) (lcancel h s) in
              let s2 := if bool_decide (st_r x' = None /\ st_w x' = None) then lset_io (delete fd (l_io s1)) s1 else s1 in
              (pg_kick_io n s2, true)
          end
      end
  end.

(** [_pg_io_runner]: it ends; its top. *)
Definition runner_exit (i n : nat) (x : iost) (s : lio) : lio := lset_fibs (delete i (l_fibs s)) (lset_sts (<[n := set_g None x]> (l_sts s)) s).
Definition runner_top (i n : nat) (x : iost) (s : lio) : lio :=
  let r := hlive s (st_r x) in let w := hlive s (st_w x) in
  if r || w then pc_to i (IParked r w) s else runner_exit i n x s.

(** It serves the reader, then the writer; each slot is read again. *)
Definition serve (i : nat) (h : option nat) (ready : bool) (pc pc' : ipc) (s : lio) : lio :=
  match h with Some h => if ready && hlive s (Some h) then lrun h (pc_to i pc s) else pc_to i pc' s | None => pc_to i pc' s end.

(** How a callback ends: it returns (its [Exception]s are reported), or [SystemExit] or [KeyboardInterrupt] ends
    the fiber. *)
Inductive iev :=
  | IAdd (fd : nat) (rd : bool) | IRemove (fd : nat) (rd : bool) | ICancel (h : nat)
  | IGo (i : nat) | IReady (i : nat) (r w : bool) | IFail (i : nat) | IReturn (i : nat) (fatal : bool).

(** The next step of a fiber outside a callback and a wait. *)
Definition io_runner (i : nat) (s : lio) : option lio :=
  match l_fibs s !! i with
  | None => None
  | Some (IFib n pc) =>
      match l_sts s !! n with
      | None => None
      | Some x =>
          match pc with
          | ITop => Some (runner_top i n x s)
          | IServe r w => Some (serve i (st_r x) r (IReading w) (IMid w) s)
          | IMid w => Some (serve i (st_w x) w IWriting ITop s)
          | _ => None
          end
      end
  end.

Definition iexec (e : iev) (s : lio) : option lio :=
  match e with
  | IAdd fd rd => Some (pg_set_io fd rd s)
  | IRemove fd rd => Some (pg_clear_io fd rd s).1
  | ICancel h => if decide (h < l_next s) then Some (lcancel h s) else None
  | IGo i => io_runner i s
  | IReady i r w =>
      match l_fibs s !! i with
      | Some (IFib _ (IParked r' w')) => if (r || w) && implb r r' && implb w w' then Some (pc_to i (IServe r w) s) else None
      | _ => None
      end
  | IFail i =>
      match l_fibs s !! i with
      | Some (IFib n (IParked _ _)) => match l_sts s !! n with Some x => Some (runner_exit i n x s) | None => None end
      | _ => None
      end
  | IReturn i fatal =>
      match l_fibs s !! i with
      | Some (IFib _ (IReading w)) => Some (if fatal then lset_fibs (delete i (l_fibs s)) s else pc_to i (IMid w) s)
      | Some (IFib _ IWriting) => Some (if fatal then lset_fibs (delete i (l_fibs s)) s else pc_to i ITop s)
      | _ => None
      end
  end.

Definition istep (s s' : lio) : Prop := exists e, iexec e s = Some s'.
Definition ireach : lio -> Prop := rtc istep l_init.

(** ** The invariant *)

Definition empty_slots (x : iost) : Prop := st_r x = None /\ st_w x = None.

(** Fibers and registrations belong together, whatever ends a fiber. *)
Record iwf (s : lio) : Prop := {
  iw_io fd n : l_io s !! fd = Some n -> is_Some (l_sts s !! n);
  iw_fib i n pc : l_fibs s !! i = Some (IFib n pc) -> exists x, l_sts s !! n = Some x /\ st_g x = Some i;
  iw_next i : l_next s <= i -> l_fibs s !! i = None /\ l_sts s !! i = None /\ i ∉ l_cancelled s;
  iw_table n x : l_sts s !! n = Some x -> ~ empty_slots x -> exists fd, l_io s !! fd = Some n
}.

(** The fiber is there when it is wanted. *)
Record ilive (s : lio) : Prop := {
  il_some n x i : l_sts s !! n = Some x -> st_g x = Some i -> exists pc, l_fibs s !! i = Some (IFib n pc);
  il_none n x : l_sts s !! n = Some x -> st_g x = None -> forall rd, hlive s (slot rd x) = false;
  il_parked n x i r w : l_sts s !! n = Some x -> l_fibs s !! i = Some (IFib n (IParked r w)) ->
    ~ empty_slots x /\ forall rd, hlive s (slot rd x) = true -> (if rd then r else w) = true
}.

(** A registration [n] whose slots changed, before it is kicked: [ilive] but for [n], whose fiber exists. *)
Definition ilive_but (n : nat) (s : lio) : Prop :=
  (forall m x i, l_sts s !! m = Some x -> st_g x = Some i -> exists pc, l_fibs s !! i = Some (IFib m pc)) /\
  (forall m x, m ≠ n -> l_sts s !! m = Some x -> st_g x = None -> forall rd, hlive s (slot rd x) = false) /\
  (forall m x i r w, m ≠ n -> l_sts s !! m = Some x -> l_fibs s !! i = Some (IFib m (IParked r w)) ->
    ~ empty_slots x /\ forall rd, hlive s (slot rd x) = true -> (if rd then r else w) = true).

Lemma live_sub s s' h : l_cancelled s ⊆ l_cancelled s' -> hlive s' h = true -> hlive s h = true.
Proof. unfold hlive. destruct h; [|done]. rewrite !bool_decide_eq_true. set_solver. Qed.

Lemma iwf_pc i pc s : iwf s -> iwf (pc_to i pc s).
Proof.
  intros [A B C D]. unfold pc_to. destruct (l_fibs s !! i) as [[m pc0]|] eqn:Hi; [|done]. constructor; simpl; try done.
  - intros j n pc' Hj. destruct (decide (j = i)) as [->|Hn]; [rewrite lookup_insert_eq in Hj; simplify_eq; eauto|rewrite lookup_insert_ne in Hj by done; eauto].
  - intros j Hj. destruct (C j Hj) as (C1 & C2 & C3). split_and!; try done. rewrite lookup_insert_ne; [done|]. intros ->. congruence.
Qed.

Lemma iwf_kick n s : iwf s -> iwf (pg_kick_io n s).
Proof.
  intros W. unfold pg_kick_io. destruct (l_sts s !! n) as [x|] eqn:Hx; [|done]. destruct (st_g x) as [i|] eqn:Hg.
  - destruct (l_fibs s !! i) as [[? []]|]; try done. by apply iwf_pc.
  - case_bool_decide as He; [done|]. destruct W as [A B C D]. destruct (C (l_next s) ltac:(lia)) as (C1 & C2 & C3). constructor; simpl.
    + intros fd m Hf. destruct (decide (m = n)) as [->|]; [rewrite lookup_insert_eq; by eexists|rewrite lookup_insert_ne by done; eauto].
    + intros j m pc Hj. destruct (decide (j = l_next s)) as [->|Hn].
      * rewrite lookup_insert_eq in Hj. simplify_eq. exists (set_g (Some (l_next s)) x). by rewrite lookup_insert_eq.
      * rewrite lookup_insert_ne in Hj by done. destruct (B j m pc Hj) as (y & H1 & H2). exists y. split; [|done]. rewrite lookup_insert_ne; [done|]. intros ->. congruence.
    + intros j Hj. destruct (C j ltac:(lia)) as (D1 & D2 & D3). split_and!; [|rewrite lookup_insert_ne; [done|congruence]|done]. rewrite lookup_insert_ne by lia. done.
    + intros m y Hm Hy. destruct (decide (m = n)) as [->|]; [|rewrite lookup_insert_ne in Hm by done; eauto]. rewrite lookup_insert_eq in Hm. simplify_eq. by apply (D n x).
Qed.

(** A kick mends its registration. *)
Lemma ilive_kick n s : iwf s -> ilive_but n s -> ilive (pg_kick_io n s).
Proof.
  intros W (A & B & C). unfold pg_kick_io. destruct (l_sts s !! n) as [x|] eqn:Hx; [destruct (st_g x) as [i|] eqn:Hg|].
  - destruct (A n x i Hx Hg) as [pc Hi]. rewrite Hi.
    assert (K : (forall r w, pc ≠ IParked r w) -> ilive s).
    { intros Hpc. constructor; [done| |].
      - intros m y Hm Hy. destruct (decide (m = n)) as [->|]; [congruence|by apply (B m y)].
      - intros m y j r w Hm Hj. destruct (decide (m = n)) as [->|]; [|by apply (C m y j r w)]. exfalso. destruct (iw_fib _ W j n _ Hj) as (z & H1 & H2).
        simplify_eq. by apply (Hpc r w). }
    destruct pc; try (by apply K). clear K. unfold pc_to. rewrite Hi. constructor; simpl.
    + intros m y j Hm Hy. destruct (decide (j = i)) as [->|]; [|rewrite lookup_insert_ne by done; eauto]. rewrite lookup_insert_eq.
      destruct (A m y i Hm Hy) as [pc Hm']. simplify_eq. eauto.
    + intros m y Hm Hy. destruct (decide (m = n)) as [->|]; [congruence|by apply (B m y)].
    + intros m y j r' w' Hm Hj. destruct (decide (j = i)) as [->|]; [by rewrite lookup_insert_eq in Hj|]. rewrite lookup_insert_ne in Hj by done.
      destruct (decide (m = n)) as [->|]; [|by apply (C m y j r' w')]. destruct (iw_fib _ W j n _ Hj) as (z & H1 & H2). congruence.
  - case_bool_decide as He.
    + destruct He as [He1 He2]. constructor; [done| |].
      * intros m y Hm Hy rd. destruct (decide (m = n)) as [->|]; [|by apply (B m y)]. simplify_eq. destruct rd; simpl; by rewrite ?He1, ?He2.
      * intros m y j r w Hm Hj. destruct (decide (m = n)) as [->|]; [|by apply (C m y j r w)]. destruct (iw_fib _ W j n _ Hj) as (z & H1 & H2). congruence.
    + destruct (iw_next _ W (l_next s) ltac:(lia)) as (C1 & C2 & C3). constructor; simpl.
      * intros m y j Hm Hy. destruct (decide (m = n)) as [->|].
        -- rewrite lookup_insert_eq in Hm. simplify_eq/=. rewrite lookup_insert_eq. eauto.
        -- rewrite lookup_insert_ne in Hm by done. destruct (A m y j Hm Hy) as [pc Hj]. exists pc. rewrite lookup_insert_ne; [done|]. intros <-. congruence.
      * intros m y Hm Hy. destruct (decide (m = n)) as [->|]; [rewrite lookup_insert_eq in Hm; simplify_eq/=|rewrite lookup_insert_ne in Hm by done; by apply (B m y)].
      * intros m y j r w Hm Hj. destruct (decide (j = l_next s)) as [->|]; [by rewrite lookup_insert_eq in Hj|]. rewrite lookup_insert_ne in Hj by done.
        destruct (decide (m = n)) as [->|]; [|rewrite lookup_insert_ne in Hm by done; by apply (C m y j r w)]. destruct (iw_fib _ W j n _ Hj) as (z & H1 & H2). congruence.
  - constructor; [done| |].
    + intros m y Hm. apply (B m y); [congruence|done].
    + intros m y j r w Hm. apply (C m y j r w); [congruence|done].
Qed.

(** Changes of the slots of a registration that has a fiber or the table's entry. *)
Lemma iwf_slots n x x' s s' : iwf s -> l_sts s !! n = Some x -> st_g x' = st_g x -> l_sts s' = <[n := x']> (l_sts s) -> l_fibs s' = l_fibs s ->
  l_next s <= l_next s' -> (forall h, h ∈ l_cancelled s' -> h ∈ l_cancelled s \/ h < l_next s') ->
  (forall fd m, l_io s' !! fd = Some m -> l_io s !! fd = Some m) ->
  (forall m y, m ≠ n -> l_sts s !! m = Some y -> ~ empty_slots y -> forall fd, l_io s !! fd = Some m -> l_io s' !! fd = Some m) ->
  (~ empty_slots x' -> exists fd, l_io s' !! fd = Some n) -> iwf s'.
Proof.
  intros [A B C D] Hx Hg Es Ef En Hc Hio Ht Hn. constructor; rewrite ?Es, ?Ef.
  - intros fd m Hf. apply Hio, A in Hf. destruct (decide (m = n)) as [->|]; [rewrite lookup_insert_eq; by eexists|by rewrite lookup_insert_ne].
  - intros i m pc Hi. destruct (B i m pc Hi) as (y & H1 & H2). destruct (decide (m = n)) as [->|]; [|exists y; by rewrite lookup_insert_ne].
    exists x'. rewrite lookup_insert_eq. simplify_eq. split; congruence.
  - intros i Hi. destruct (C i ltac:(lia)) as (C1 & C2 & C3). split_and!; [done| |].
    + rewrite lookup_insert_ne; [done|]. intros ->. congruence.
    + intros H. destruct (Hc i H); [done|lia].
  - intros m y Hm Hy. destruct (decide (m = n)) as [->|]; [rewrite lookup_insert_eq in Hm; simplify_eq; auto|]. rewrite lookup_insert_ne in Hm by done.
    destruct (D m y Hm Hy) as [fd Hf]. exists fd. by eapply Ht.
Qed.

Lemma ilive_slots n x x' s s' : ilive s -> l_sts s !! n = Some x -> st_g x' = st_g x -> l_sts s' = <[n := x']> (l_sts s) -> l_fibs s' = l_fibs s ->
  l_cancelled s ⊆ l_cancelled s' -> ilive_but n s'.
Proof.
  intros [A B C] Hx Hg Es Ef Hc. unfold ilive_but. rewrite Es, Ef. split_and!.
  - intros m y i Hm Hy. destruct (decide (m = n)) as [->|]; [rewrite lookup_insert_eq in Hm; simplify_eq; apply (A n x); congruence|rewrite lookup_insert_ne in Hm by done; eauto].
  - intros m y Hn Hm Hy rd. rewrite lookup_insert_ne in Hm by done. pose proof (B m y Hm Hy rd) as H. destruct (hlive s' (slot rd y)) eqn:E; [|done].
    apply (live_sub s s') in E; [congruence|done].
  - intros m y i r w Hn Hm Hi. rewrite lookup_insert_ne in Hm by done. destruct (C m y i r w Hm Hi) as [C1 C2]. split; [done|]. intros rd Hl. apply C2. by apply (live_sub s s').
Qed.

Lemma new_reg_wf fd s : iwf s -> iwf (new_reg fd s).
Proof.
  intros W. unfold new_reg. destruct (l_io s !! fd) eqn:Hf; [done|]. destruct W as [A B C D]. destruct (C (l_next s) ltac:(lia)) as (C1 & C2 & C3). constructor; simpl.
  - intros f m Hm. destruct (decide (f = fd)) as [->|]; [rewrite lookup_insert_eq in Hm; simplify_eq; rewrite lookup_insert_eq; by eexists|].
    rewrite lookup_insert_ne in Hm by done. apply A in Hm. destruct (decide (m = l_next s)) as [->|]; [rewrite lookup_insert_eq; by eexists|by rewrite lookup_insert_ne].
  - intros i m pc Hi. destruct (B i m pc Hi) as (y & H1 & H2). exists y. split; [|done]. rewrite lookup_insert_ne; [done|]. intros <-. congruence.
  - intros i Hi. destruct (C i ltac:(lia)) as (D1 & D2 & D3). split_and!; [done|by rewrite lookup_insert_ne by lia|done].
  - intros m y Hm Hy. destruct (decide (m = l_next s)) as [->|]; [rewrite lookup_insert_eq in Hm; simplify_eq; by destruct Hy|]. rewrite lookup_insert_ne in Hm by done.
    destruct (D m y Hm Hy) as [f H]. exists f. rewrite lookup_insert_ne; [done|]. intros ->. congruence.
Qed.
Lemma new_reg_live fd s : iwf s -> ilive s -> ilive (new_reg fd s).
Proof.
  intros W L. unfold new_reg. destruct (l_io s !! fd) eqn:Hf; [done|]. destruct (iw_next _ W (l_next s) ltac:(lia)) as (C1 & C2 & C3). destruct L as [A B C]. constructor; simpl.
  - intros m y i Hm Hy. destruct (decide (m = l_next s)) as [->|]; [rewrite lookup_insert_eq in Hm; by simplify_eq|]. rewrite lookup_insert_ne in Hm by done. eauto.
  - intros m y Hm Hy rd. destruct (decide (m = l_next s)) as [->|]; [rewrite lookup_insert_eq in Hm; simplify_eq; by destruct rd|]. rewrite lookup_insert_ne in Hm by done. by apply (B m y).
  - intros m y i r w Hm Hi. destruct (decide (m = l_next s)) as [->|]; [|rewrite lookup_insert_ne in Hm by done; by apply (C m y i r w)].
    exfalso. destruct (iw_fib _ W i _ _ Hi) as (z & H1 & H2). congruence.
Qed.

Lemma cancel_opt_eq h s : l_sts (cancel_opt h s) = l_sts s /\ l_fibs (cancel_opt h s) = l_fibs s /\ l_io (cancel_opt h s) = l_io s /\ l_next (cancel_opt h s) = l_next s /\
  l_runs (cancel_opt h s) = l_runs s /\ l_cancelled s ⊆ l_cancelled (cancel_opt h s).
Proof. destruct h; simpl; split_and!; try done. set_solver. Qed.

(** The handles in the slots are below the counter. *)
Definition handles_below (s : lio) : Prop := forall n x rd h, l_sts s !! n = Some x -> slot rd x = Some h -> h < l_next s.

Lemma set_slot_slot rd rd' h x : slot rd' (set_slot rd h x) = if eqb rd rd' then h else slot rd' x.
Proof. by destruct rd, rd'. Qed.
Lemma set_slot_g rd h x : st_g (set_slot rd h x) = st_g x.
Proof. by destruct rd. Qed.

Lemma below_more s s' : handles_below s -> l_next s <= l_next s' ->
  (forall n x rd h, l_sts s' !! n = Some x -> slot rd x = Some h -> h < l_next s' \/ exists m y rd', l_sts s !! m = Some y /\ slot rd' y = Some h) -> handles_below s'.
Proof. intros H Hn Hs n x rd h H1 H2. destruct (Hs n x rd h H1 H2) as [?|(m & y & rd' & H3 & H4)]; [done|]. specialize (H m y rd' h H3 H4). lia. Qed.

Lemma below_kick n s : handles_below s -> handles_below (pg_kick_io n s).
Proof.
  intros H. unfold pg_kick_io. destruct (l_sts s !! n) as [x|] eqn:Hx; [|done]. destruct (st_g x).
  - destruct (l_fibs s !! _) as [[? []]|]; try done. unfold pc_to. by destruct (l_fibs s !! _).
  - case_bool_decide; [done|]. apply (below_more s); [done|simpl; lia|]. simpl. intros m y rd h Hm Hs. right. destruct (decide (m = n)) as [->|]; [|rewrite lookup_insert_ne in Hm by done; eauto].
    rewrite lookup_insert_eq in Hm. simplify_eq. exists n, x, rd. by destruct rd.
Qed.

(** [add_reader] and [add_writer]. *)
Lemma set_io_inv fd rd s : iwf s -> handles_below s -> iwf (pg_set_io fd rd s) /\ handles_below (pg_set_io fd rd s) /\ (ilive s -> ilive (pg_set_io fd rd s)).
Proof.
  intros W H. unfold pg_set_io. pose proof (new_reg_wf fd s W) as W1.
  assert (H1 : handles_below (new_reg fd s)).
  { unfold new_reg. destruct (l_io s !! fd); [done|]. apply (below_more s); [done|simpl; lia|]. simpl. intros m y rd' h Hm Hs. destruct (decide (m = l_next s)) as [->|]; [|rewrite lookup_insert_ne in Hm by done; eauto 7].
    rewrite lookup_insert_eq in Hm. simplify_eq. by destruct rd'. }
  pose proof (new_reg_live fd s W) as L1. revert W1 H1 L1. generalize (new_reg fd s). intros s1 W1 H1 L1. destruct (l_io s1 !! fd) as [n|] eqn:Hf; [|auto].
  destruct (l_sts s1 !! n) as [x|] eqn:Hx; [|auto]. set (x' := set_slot rd (Some (l_next s1)) x). destruct (cancel_opt_eq (slot rd x) (lset_next s1)) as (E1 & E2 & E3 & E4 & E5 & E6).
  set (s2 := lset_sts (<[n := x']> (l_sts s1)) (cancel_opt (slot rd x) (lset_next s1))).
  assert (W2 : iwf s2).
  { apply (iwf_slots n x x' s1 s2 W1 Hx); unfold s2; simpl; try done.
    - apply set_slot_g.
    - rewrite E4. simpl. lia.
    - intros h Hh. rewrite E4. simpl. destruct (slot rd x) as [h'|] eqn:Hs; simpl in Hh; [|by left]. apply elem_of_union in Hh as [->%elem_of_singleton|?]; [|by left]. right. specialize (H1 n x rd h' Hx Hs). lia.
    - by rewrite E3.
    - rewrite E3. done.
    - intros _. exists fd. by rewrite E3. }
  split_and!; [by apply iwf_kick| |].
  - apply below_kick. apply (below_more s1); [done|unfold s2; simpl; rewrite E4; simpl; lia|]. intros m y rd' h Hm Hs. unfold s2 in Hm. simpl in Hm. destruct (decide (m = n)) as [->|]; [|rewrite lookup_insert_ne in Hm by done; eauto 7].
    rewrite lookup_insert_eq in Hm. simplify_eq. try unfold x' in Hs. rewrite set_slot_slot in Hs. destruct (eqb rd rd'); [|eauto 7]. simplify_eq. left. unfold s2. simpl. rewrite E4. simpl. lia.
  - intros L. apply ilive_kick; [done|]. apply (ilive_slots n x x' s1 s2 (L1 L) Hx); unfold s2; simpl; try done; [apply set_slot_g].
Qed.

(** [remove_reader] and [remove_writer]. *)
Lemma clear_io_inv fd rd s : iwf s -> handles_below s -> iwf (pg_clear_io fd rd s).1 /\ handles_below (pg_clear_io fd rd s).1 /\ (ilive s -> ilive (pg_clear_io fd rd s).1).
Proof.
  intros W H. unfold pg_clear_io. destruct (l_io s !! fd) as [n|] eqn:Hf; [|auto]. destruct (l_sts s !! n) as [x|] eqn:Hx; [|auto]. destruct (slot rd x) as [h|] eqn:Hs; [|auto]. cbn [fst].
  set (x' := set_slot rd None x). set (s1 := lset_sts (<[n := x']> (l_sts s)) (lcancel h s)). set (s2 := if bool_decide (st_r x' = None /\ st_w x' = None) then lset_io (delete fd (l_io s1)) s1 else s1).
  assert (E : l_sts s2 = <[n := x']> (l_sts s) /\ l_fibs s2 = l_fibs s /\ l_next s2 = l_next s /\ l_cancelled s2 = {[h]} ∪ l_cancelled s) by (unfold s2; by case_bool_decide).
  destruct E as (E1 & E2 & E3 & E4). assert (Hh : h < l_next s) by (by eapply H).
  assert (W2 : iwf s2).
  { apply (iwf_slots n x x' s s2 W Hx (set_slot_g _ _ _) E1 E2); [lia| | | |].
    - intros h' Hh'. rewrite E4 in Hh'. apply elem_of_union in Hh' as [->%elem_of_singleton|?]; [right; lia|by left].
    - intros fd' m Hm. unfold s2 in Hm. case_bool_decide; [|done]. simpl in Hm. by apply lookup_delete_Some in Hm as [_ ?].
    - intros m y Hmn Hm _ fd' Hfd. unfold s2. case_bool_decide; [|done]. simpl. rewrite lookup_delete_ne; [done|]. intros <-. congruence.
    - intros He. exists fd. unfold s2. by rewrite bool_decide_false. }
  split_and!; [by apply iwf_kick| |].
  - apply below_kick. apply (below_more s); [done|lia|]. intros m y rd' h' Hm Hs'. rewrite E1 in Hm. right. destruct (decide (m = n)) as [->|]; [|rewrite lookup_insert_ne in Hm by done; eauto 7].
    rewrite lookup_insert_eq in Hm. simplify_eq. try unfold x' in Hs'. rewrite set_slot_slot in Hs'. destruct (eqb rd rd'); [done|]. eauto.
  - intros L. apply ilive_kick; [done|]. apply (ilive_slots n x x' s s2 L Hx (set_slot_g _ _ _) E1 E2). rewrite E4. set_solver.
Qed.

(** *** The fibers *)

Lemma pc_to_eq i pc s n pc0 : l_fibs s !! i = Some (IFib n pc0) -> pc_to i pc s = lset_fibs (<[i := IFib n pc]> (l_fibs s)) s.
Proof. intros H. unfold pc_to. by rewrite H. Qed.

(** A fiber moves, and parks only for what is live. *)
Lemma ilive_pc i n pc pc0 x s : ilive s -> l_fibs s !! i = Some (IFib n pc0) -> l_sts s !! n = Some x ->
  (forall r w, pc = IParked r w -> ~ empty_slots x /\ forall rd, hlive s (slot rd x) = true -> (if rd then r else w) = true) -> ilive (pc_to i pc s).
Proof.
  intros [A B C] Hi Hx Hp. rewrite (pc_to_eq i pc s n pc0 Hi). constructor; simpl; [| exact B |].
  - intros m y j Hm Hg. destruct (A m y j Hm Hg) as [pc' Hj]. destruct (decide (j = i)) as [->|]; [|rewrite lookup_insert_ne by done; eauto]. rewrite lookup_insert_eq. simplify_eq. eauto.
  - intros m y j r w Hm Hj. destruct (decide (j = i)) as [->|]; [|rewrite lookup_insert_ne in Hj by done; by apply (C m y j r w)].
    rewrite lookup_insert_eq in Hj. simplify_eq. by apply Hp.
Qed.

(** A fiber ends at its top. *)
Lemma iwf_exit i n x pc s : iwf s -> l_fibs s !! i = Some (IFib n pc) -> l_sts s !! n = Some x -> iwf (runner_exit i n x s).
Proof.
  intros [A B C D] Hi Hx. destruct (B i n pc Hi) as (x0 & Hx0 & Hg). assert (x0 = x) as -> by congruence. unfold runner_exit. constructor; simpl.
  - intros fd m Hf. apply A in Hf. destruct (decide (m = n)) as [->|]; [rewrite lookup_insert_eq; by eexists|by rewrite lookup_insert_ne].
  - intros j m pc' Hj. apply lookup_delete_Some in Hj as [Hne Hj]. destruct (B j m pc' Hj) as (y & H1 & H2). exists y. split; [|done]. rewrite lookup_insert_ne; [done|]. intros ->. congruence.
  - intros j Hj. destruct (C j Hj) as (C1 & C2 & C3). split_and!; [|rewrite lookup_insert_ne; [done|congruence]|done]. apply lookup_delete_None. by right.
  - intros m y Hm Hy. destruct (decide (m = n)) as [->|]; [rewrite lookup_insert_eq in Hm; simplify_eq; by apply (D n x)|]. rewrite lookup_insert_ne in Hm by done. eauto.
Qed.
Lemma ilive_exit i n x pc s : iwf s -> ilive s -> l_fibs s !! i = Some (IFib n pc) -> l_sts s !! n = Some x -> (forall rd, hlive s (slot rd x) = false) -> ilive (runner_exit i n x s).
Proof.
  intros W [A B C] Hi Hx Hl. destruct (iw_fib _ W i n pc Hi) as (x0 & Hx0 & Hg). assert (x0 = x) as -> by congruence. unfold runner_exit. constructor; simpl.
  - intros m y j Hm Hy. destruct (decide (m = n)) as [->|]; [rewrite lookup_insert_eq in Hm; by simplify_eq|]. rewrite lookup_insert_ne in Hm by done.
    destruct (A m y j Hm Hy) as [pc' Hj]. exists pc'. rewrite lookup_delete_ne; [done|]. intros <-. destruct (iw_fib _ W i m pc' Hj) as (z & Z1 & Z2). congruence.
  - intros m y Hm Hy rd. destruct (decide (m = n)) as [->|]; [rewrite lookup_insert_eq in Hm; simplify_eq; specialize (Hl rd); by destruct rd|]. rewrite lookup_insert_ne in Hm by done. by apply (B m y).
  - intros m y j r w Hm Hj. apply lookup_delete_Some in Hj as [Hne Hj]. destruct (decide (m = n)) as [->|]; [|rewrite lookup_insert_ne in Hm by done; by apply (C m y j r w)].
    destruct (iw_fib _ W j n _ Hj) as (z & Z1 & Z2). congruence.
Qed.
Lemma below_exit i n x s : handles_below s -> l_sts s !! n = Some x -> handles_below (runner_exit i n x s).
Proof.
  intros H Hx. apply (below_more s); [done|simpl; lia|]. simpl. intros m y rd h Hm Hs. right. destruct (decide (m = n)) as [->|]; [|rewrite lookup_insert_ne in Hm by done; eauto].
  rewrite lookup_insert_eq in Hm. simplify_eq. exists n, x, rd. by destruct rd.
Qed.
Lemma below_pc i pc s : handles_below s -> handles_below (pc_to i pc s).
Proof. intros H. unfold pc_to. by destruct (l_fibs s !! i). Qed.

(** A callback runs, or not. *)
Lemma serve_cases i h ready pc pc' s : serve i h ready pc pc' s = pc_to i pc' s \/ exists h', h = Some h' /\ ready = true /\ hlive s h = true /\ serve i h ready pc pc' s = lrun h' (pc_to i pc s).
Proof. unfold serve. destruct h as [h|]; [|by left]. destruct ready; simpl; [|by left]. case_bool_decide as Hl; [right|by left]. by exists h. Qed.

(** Steps in which no wait fails with an [Exception] and no callback ends its fiber with a [SystemExit] or a
    [KeyboardInterrupt]. *)
Definition itame (e : iev) : Prop := match e with IFail _ | IReturn _ true => False | _ => True end.
Definition itame_step (s s' : lio) : Prop := exists e, itame e /\ iexec e s = Some s'.
Definition iinv (s : lio) : Prop := iwf s /\ handles_below s.

Lemma iinv_pc i pc s : iinv s -> iinv (pc_to i pc s).
Proof. intros [W H]. split; [by apply iwf_pc|by apply below_pc]. Qed.
Lemma iinv_run h s : iinv s -> iinv (lrun h s).
Proof. intros [[A B C D] H]. split; [by constructor|done]. Qed.
Lemma iinv_gone i s : iinv s -> iinv (lset_fibs (delete i (l_fibs s)) s).
Proof.
  intros [[A B C D] H]. split; [|done]. constructor; simpl; try done.
  - intros j n pc Hj. apply lookup_delete_Some in Hj as [_ Hj]. eauto.
  - intros j Hj. destruct (C j Hj) as (C1 & C2 & C3). split_and!; try done. apply lookup_delete_None. by right.
Qed.

Lemma iinv_runner i s s' : iinv s -> io_runner i s = Some s' -> iinv s' /\ (ilive s -> ilive s').
Proof.
  intros [W H] He. unfold io_runner in He. destruct (l_fibs s !! i) as [[n pc]|] eqn:Hi; [|done]. destruct (l_sts s !! n) as [x|] eqn:Hx; [|done].
  assert (S : forall h ready p p', (forall r w, p ≠ IParked r w) -> (forall r w, p' ≠ IParked r w) -> s' = serve i h ready p p' s -> iinv s' /\ (ilive s -> ilive s')).
  { intros h ready p p' Hp Hp' ->. assert (P : forall p, (forall r w, p ≠ IParked r w) -> ilive s -> ilive (pc_to i p s)).
    { intros q Hq L. apply (ilive_pc i n q pc x s L Hi Hx). intros r w Hr. by destruct (Hq r w). }
    destruct (serve_cases i h ready p p' s) as [-> | (h' & _ & _ & _ & ->)].
    - split; [by apply iinv_pc|by apply P].
    - split; [by apply iinv_run, iinv_pc|]. intros L. apply (P p Hp) in L. by destruct L; constructor. }
  destruct pc as [|r w|r w|w|w|]; simplify_eq; [|by apply (S (st_r x) r (IReading w) (IMid w))|by apply (S (st_w x) w IWriting ITop)].
  unfold runner_top. destruct (hlive s (st_r x) || hlive s (st_w x)) eqn:E.
  - split; [by apply iinv_pc|]. intros L. apply (ilive_pc i n _ ITop x s L Hi Hx). intros r w [= <- <-]. split.
    + intros [E1 E2]. by rewrite E1, E2 in E.
    + by intros [].
  - split; [split; [by apply (iwf_exit i n x ITop)|by apply below_exit]|]. intros L. apply orb_false_elim in E as [E1 E2]. apply (ilive_exit i n x ITop s W L Hi Hx). by intros [].
Qed.

Lemma iinv_step e s s' : iinv s -> iexec e s = Some s' -> iinv s' /\ (itame e -> ilive s -> ilive s').
Proof.
  intros I He. pose proof I as [W H]. destruct e as [fd rd|fd rd|h|i|i r w|i|i fatal]; simpl in He.
  - simplify_eq. destruct (set_io_inv fd rd s W H) as (H1 & H2 & H3). by split; [split|auto].
  - simplify_eq. destruct (clear_io_inv fd rd s W H) as (H1 & H2 & H3). by split; [split|auto].
  - case_decide as Hh; simplify_eq. split.
    + split; [|done]. destruct W as [A B C D]. constructor; simpl; try done. intros i Hi. destruct (C i Hi) as (C1 & C2 & C3). split_and!; try done. intros [->%elem_of_singleton|?]%elem_of_union; [lia|done].
    + intros _ [A B C]. assert (Q : l_cancelled s ⊆ l_cancelled (lcancel h s)) by (simpl; set_solver). constructor; [done| |].
      * intros m y Hm Hy rd. pose proof (B m y Hm Hy rd) as X. destruct (hlive (lcancel h s) (slot rd y)) eqn:E; [|done]. apply (live_sub s _ _ Q) in E. congruence.
      * intros m y j r w Hm Hj. destruct (C m y j r w Hm Hj) as [C1 C2]. split; [done|]. intros rd Hl. apply C2. by apply (live_sub s _ _ Q).
  - destruct (iinv_runner i s s' I He). auto.
  - destruct (l_fibs s !! i) as [[n [|r' w'| | | |]]|] eqn:Hi; try done. destruct (_ && _ && _); simplify_eq. split; [by apply iinv_pc|]. intros _ L.
    destruct (iw_fib _ W i n _ Hi) as (x & Hx & _). eapply ilive_pc; try done.
  - destruct (l_fibs s !! i) as [[n [|r' w'| | | |]]|] eqn:Hi; try done. destruct (l_sts s !! n) as [x|] eqn:Hx; simplify_eq. split; [|done].
    split; [by eapply iwf_exit|by apply below_exit].
  - destruct (l_fibs s !! i) as [[n [|r' w'| |w| |]]|] eqn:Hi; simplify_eq; destruct (iw_fib _ W i n _ Hi) as (x & Hx & _); destruct fatal; try (by split; [apply iinv_gone|]);
      (split; [by apply iinv_pc|]; intros _ L; by eapply ilive_pc).
Qed.

Lemma iinv_init : iinv l_init.
Proof.
  split; [|intros n x rd h H; simpl in H; by rewrite lookup_empty in H]. by constructor.
Qed.
Lemma iinv_reach s : ireach s -> iinv s.
Proof. revert s. apply (rtc_ind_r (R := istep) iinv l_init); [apply iinv_init|]. intros s1 s2 _ [e He] I. by eapply iinv_step. Qed.
Lemma ilive_reach s : rtc itame_step l_init s -> iinv s /\ ilive s.
Proof.
  revert s. apply (rtc_ind_r (R := itame_step) (λ s, iinv s /\ ilive s) l_init); [split; [apply iinv_init|by constructor]|].
  intros s1 s2 _ (e & T & He) [I L]. destruct (iinv_step e s1 s2 I He) as [I' L']. auto.
Qed.

(** ** Traces *)

Fixpoint irun (l : list iev) (s : lio) : option lio :=
  match l with [] => Some s | e :: l' => match iexec e s with Some s' => irun l' s' | None => None end end.
Definition itame_b (e : iev) : bool := match e with IFail _ | IReturn _ true => false | _ => true end.
Lemma irun_rtc l s s' : irun l s = Some s' -> rtc istep s s'.
Proof. revert s. induction l as [|e l IH]; simpl; intros s H; [by simplify_eq|]. destruct (iexec e s) as [s1|] eqn:E; [|done]. eapply rtc_l; [by exists e|auto]. Qed.
Lemma irun_tame l s s' : irun l s = Some s' -> forallb itame_b l = true -> rtc itame_step s s'.
Proof.
  revert s. induction l as [|e l IH]; simpl; intros s H T; [by simplify_eq|]. destruct (iexec e s) as [s1|] eqn:E; [|done]. apply andb_prop in T as [T1 T2].
  eapply rtc_l; [|by apply IH]. exists e. split; [|done]. by destruct e as [| | | | | |i []].
Qed.

(** ** What the loop promises *)

(** Every fiber waits. *)
Definition iquiet (s : lio) : Prop := forall i f, l_fibs s !! i = Some f -> exists r w, if_pc f = IParked r w.

(** C34. Nobody who registered is forgotten, along the [itame] steps: those on which no wait for a descriptor
    fails other than by the loop's own wake-up, and no callback raises [SystemExit] or [KeyboardInterrupt], which
    ends its fiber (a failed wait ends the fiber too, and [io_fatal_strands] shows that a fatal callback leaves a
    registration unserved).  Once nothing is left to do, the descriptor of a reader (a writer) that was not
    removed or cancelled has a fiber parked to read (write) it; and no fiber is left behind: each one is parked for
    a descriptor of the table that has a handle, and no two for the same one. *)
Theorem io_served s : rtc itame_step l_init s -> iquiet s ->
  (forall fd n x rd, l_io s !! fd = Some n -> l_sts s !! n = Some x -> hlive s (slot rd x) = true ->
     exists i r w, l_fibs s !! i = Some (IFib n (IParked r w)) /\ (if rd then r else w) = true) /\
  (forall i n pc, l_fibs s !! i = Some (IFib n pc) -> exists fd x rd, l_io s !! fd = Some n /\ l_sts s !! n = Some x /\ slot rd x ≠ None) /\
  (forall i j n pc pc', l_fibs s !! i = Some (IFib n pc) -> l_fibs s !! j = Some (IFib n pc') -> i = j).
Proof.
  intros R Q. destruct (ilive_reach s R) as [[W H] [A B C]]. split_and!.
  - intros fd n x rd Hf Hx Hl. destruct (st_g x) as [i|] eqn:Hg; [|by rewrite (B n x Hx Hg rd) in Hl]. destruct (A n x i Hx Hg) as [pc Hi].
    destruct (Q i _ Hi) as (r & w & Hp). simpl in Hp. subst. exists i, r, w. split; [done|]. by apply (C n x i r w Hx Hi).
  - intros i n pc Hi. destruct (iw_fib _ W i n pc Hi) as (x & Hx & _). destruct (Q i _ Hi) as (r & w & Hp). simpl in Hp. subst. destruct (C n x i r w Hx Hi) as [He _].
    destruct (iw_table _ W n x Hx He) as [fd Hf]. exists fd, x. destruct (st_r x) eqn:E1; [exists true; simpl; by rewrite E1|]. exists false. split_and!; try done. simpl. intros E2. by apply He.
  - intros i j n pc pc' Hi Hj. destruct (iw_fib _ W i n pc Hi) as (x & H1 & H2). destruct (iw_fib _ W j n pc' Hj) as (y & H3 & H4). congruence.
Qed.

Lemma io_served_witness : exists s, rtc itame_step l_init s /\ exists n i r w, l_io s !! 7 = Some n /\ l_fibs s !! i = Some (IFib n (IParked r w)) /\ r = true.
Proof.
  pose (l := [IAdd 7 true; IGo 2; IAdd 7 false; IGo 2; IReady 2 true false; IGo 2; IRemove 7 true; IRemove 7 false; IAdd 7 true; IReturn 2 false; IGo 2; IGo 2; IGo 6]).
  destruct (irun l l_init) as [s|] eqn:E; [|vm_compute in E; discriminate]. exists s.
  assert (T : forallb itame_b l = true) by reflexivity. pose proof (irun_tame _ _ _ E T) as R. split; [exact R|].
  assert (G : l_io s !! 7 = Some 4 /\ l_sts s !! 4 = Some (IoSt (Some 5) None (Some 6)) /\ l_fibs s = {[6 := IFib 4 (IParked true false)]} /\ bool_decide (5 ∈ l_cancelled s) = false)
    by (vm_compute in E; injection E as <-; by vm_compute).
  destruct G as (G1 & G2 & G3 & G4). apply bool_decide_eq_false in G4.
  assert (Q : iquiet s) by (intros i f Hi; rewrite G3 in Hi; apply lookup_singleton_Some in Hi as [_ <-]; by eexists _, _).
  destruct (proj1 (io_served s R Q) 7 4 _ true G1 G2) as (i & r & w & H1 & H2); [by apply bool_decide_eq_true|]. exists 4, i, r, w. split_and!; [exact G1|exact H1|exact H2].
Defined.

(** What runs, by a step. *)
Lemma runs_kick n s : l_runs (pg_kick_io n s) = l_runs s /\ l_cancelled (pg_kick_io n s) = l_cancelled s.
Proof.
  unfold pg_kick_io, pc_to. destruct (l_sts s !! n) as [x|]; [|done]. destruct (st_g x); [|by case_bool_decide]. destruct (l_fibs s !! _) as [[? []]|] eqn:E; try done.
Qed.
Lemma runs_pc i pc s : l_runs (pc_to i pc s) = l_runs s /\ l_cancelled (pc_to i pc s) = l_cancelled s.
Proof. unfold pc_to. by destruct (l_fibs s !! i). Qed.

Lemma step_runs e s s' : iexec e s = Some s' -> l_cancelled s ⊆ l_cancelled s' /\
  (l_runs s' = l_runs s \/ exists i n x pc rd h, l_fibs s !! i = Some (IFib n pc) /\ l_sts s !! n = Some x /\ slot rd x = Some h /\ h ∉ l_cancelled s /\ l_runs s' = l_runs s ++ [h] /\
     (exists w, pc = if rd then IServe true w else IMid true)).
Proof.
  intros He. destruct e as [fd rd|fd rd|h|i|i r w|i|i fatal]; simpl in He.
  - simplify_eq. assert (N : l_runs (new_reg fd s) = l_runs s /\ l_cancelled (new_reg fd s) = l_cancelled s) by (unfold new_reg; by destruct (l_io s !! fd)).
    unfold pg_set_io. revert N. generalize (new_reg fd s). intros s1 [N1 N2]. destruct (l_io s1 !! fd) as [n|]; [|rewrite N1, N2; auto]. destruct (l_sts s1 !! n) as [x|]; [|rewrite N1, N2; auto].
    match goal with |- context [pg_kick_io n ?y] => destruct (runs_kick n y) as [K1 K2] end. rewrite K1, K2. destruct (cancel_opt_eq (slot rd x) (lset_next s1)) as (_ & _ & _ & _ & E5 & E6). simpl in *. rewrite E5, <-N1, <-N2. auto.
  - simplify_eq. unfold pg_clear_io. destruct (l_io s !! fd) as [n|]; [|auto]. destruct (l_sts s !! n) as [x|]; [|auto]. destruct (slot rd x) as [h|]; [|auto]. cbn [fst].
    match goal with |- context [pg_kick_io n ?y] => destruct (runs_kick n y) as [K1 K2] end. rewrite K1, K2. case_bool_decide; simpl; (split; [set_solver|by left]).
  - case_decide; simplify_eq. simpl. split; [set_solver|by left].
  - unfold io_runner in He. destruct (l_fibs s !! i) as [[n pc]|] eqn:Hi; [|done]. destruct (l_sts s !! n) as [x|] eqn:Hx; [|done].
    assert (P : forall p, l_cancelled s ⊆ l_cancelled (pc_to i p s) /\ l_runs (pc_to i p s) = l_runs s) by (intros p; destruct (runs_pc i p s) as [-> ->]; done).
    assert (S : forall rd ready p p', s' = serve i (slot rd x) ready p p' s -> (ready = true -> exists w, pc = if rd then IServe true w else IMid true) -> l_cancelled s ⊆ l_cancelled s' /\
      (l_runs s' = l_runs s \/ exists i n x pc rd h, l_fibs s !! i = Some (IFib n pc) /\ l_sts s !! n = Some x /\ slot rd x = Some h /\ h ∉ l_cancelled s /\ l_runs s' = l_runs s ++ [h] /\
        (exists w, pc = if rd then IServe true w else IMid true))).
    { intros rd ready p p' -> Hpc. destruct (serve_cases i (slot rd x) ready p p' s) as [-> | (h & H1 & H2 & H3 & ->)]; [destruct (P p'); auto|]. destruct (P p) as [P1 P2].
      split; [done|]. right. exists i, n, x, pc, rd, h. simpl. rewrite P2. split_and!; try done; [|by apply Hpc]. rewrite H1 in H3. by apply bool_decide_eq_true in H3. }
    destruct pc as [|r w|r w|w|w|]; simplify_eq.
    + unfold runner_top. destruct (_ || _); [destruct (P (IParked (hlive s (st_r x)) (hlive s (st_w x)))); auto|]. simpl. auto.
    + apply (S true r (IReading w) (IMid w)); [done|]. intros ->. by exists w.
    + apply (S false w IWriting ITop); [done|]. intros ->. by exists true.
  - destruct (l_fibs s !! i) as [[n [|r' w'| | | |]]|]; try done. destruct (_ && _ && _); simplify_eq. destruct (runs_pc i (IServe r w) s) as [-> ->]. auto.
  - destruct (l_fibs s !! i) as [[n [|r' w'| | | |]]|]; try done. destruct (l_sts s !! n); simplify_eq. simpl. auto.
  - destruct (l_fibs s !! i) as [[n [|r' w'| |w| |]]|]; simplify_eq; destruct fatal; simpl; auto; match goal with |- context [pc_to i ?p s] => destruct (runs_pc i p s) as [-> ->] end; auto.
Qed.

(** A cancelled handle never runs. *)
Lemma cancelled_silent h s s' : h ∈ l_cancelled s -> rtc istep s s' -> exists l, l_runs s' = l_runs s ++ l /\ h ∉ l.
Proof.
  intros Hc R. cut (h ∈ l_cancelled s' /\ exists l, l_runs s' = l_runs s ++ l /\ h ∉ l); [by intros []|]. revert s' R.
  apply (rtc_ind_r (R := istep) (λ s', h ∈ l_cancelled s' /\ exists l, l_runs s' = l_runs s ++ l /\ h ∉ l) s); [split; [done|]; exists []; rewrite app_nil_r; split; [done|set_solver]|].
  intros s1 s2 _ [e He] [H1 (l & H2 & H3)]. destruct (step_runs e s1 s2 He) as [S1 [S2|(i & n & x & pc & rd & h' & _ & _ & _ & S2 & S3 & _)]]; (split; [by apply S1|]).
  - exists l. by rewrite S2.
  - exists (l ++ [h']). rewrite S3, H2, <-app_assoc. split; [done|]. intros [? | ->%list_elem_of_singleton]%elem_of_app; done.
Qed.

(** Only a registered callback runs, when the poller reported its direction; a replaced one does not run; and
    once [remove_reader] or [remove_writer] returned [True] the callback never runs again. *)
Theorem io_runs_registered s : ireach s ->
  (forall s', istep s s' -> l_runs s' = l_runs s \/ exists fd n x rd h, l_io s !! fd = Some n /\ l_sts s !! n = Some x /\ slot rd x = Some h /\ h ∉ l_cancelled s /\ l_runs s' = l_runs s ++ [h] /\
     exists i w, l_fibs s !! i = Some (IFib n (if rd then IServe true w else IMid true))) /\
  (forall fd rd s1, pg_clear_io fd rd s = (s1, true) -> exists n x h, l_io s !! fd = Some n /\ l_sts s !! n = Some x /\ slot rd x = Some h /\
     forall s2, rtc istep s1 s2 -> exists l, l_runs s2 = l_runs s ++ l /\ h ∉ l).
Proof.
  intros R. destruct (iinv_reach s R) as [W H]. split.
  - intros s' [e He]. destruct (step_runs e s s' He) as [_ [?|(i & n & x & pc & rd & h & H1 & H2 & H3 & H4 & H5 & [w ->])]]; [by left|right].
    assert (Hne : ~ empty_slots x) by (intros [E1 E2]; destruct rd; simpl in H3; congruence). destruct (iw_table _ W n x H2 Hne) as [fd Hf]. exists fd, n, x, rd, h. split_and!; try done. by exists i, w.
  - intros fd rd s1 He. unfold pg_clear_io in He. destruct (l_io s !! fd) as [n|] eqn:Hf; [|done]. destruct (l_sts s !! n) as [x|] eqn:Hx; [|done]. destruct (slot rd x) as [h|] eqn:Hs; [|done].
    injection He as <-. exists n, x, h. split_and!; try done. intros s2 R2.
    match type of R2 with rtc _ (pg_kick_io n ?y) _ => destruct (runs_kick n y) as [K1 K2]; destruct (cancelled_silent h (pg_kick_io n y) s2) as (l & L1 & L2); [|done|] end.
    + rewrite K2. case_bool_decide; simpl; set_solver.
    + exists l. split; [|done]. rewrite L1, K1. by case_bool_decide.
Qed.

Lemma io_runs_registered_witness : exists s s1 s2, ireach s /\ pg_clear_io 7 true s = (s1, true) /\ rtc istep s1 s2 /\ exists h l, l_runs s2 = l_runs s ++ l /\ h ∈ l_runs s /\ h ∉ l.
Proof.
  pose (l := [IAdd 7 true; IAdd 7 false; IGo 2; IReady 2 true true; IGo 2]). pose (l' := [IReturn 2 false; IGo 2; IReturn 2 false; IGo 2]).
  destruct (irun l l_init) as [s|] eqn:E; [|vm_compute in E; discriminate]. pose proof (irun_rtc _ _ _ E) as R.
  destruct (pg_clear_io 7 true s) as [s1 b] eqn:E1. destruct b; [|vm_compute in E; injection E as <-; vm_compute in E1; discriminate].
  destruct (irun l' s1) as [s2|] eqn:E2; [|vm_compute in E; injection E as <-; vm_compute in E1; injection E1 as <-; vm_compute in E2; discriminate].
  pose proof (irun_rtc _ _ _ E2) as R2. destruct (proj2 (io_runs_registered s R) 7 true s1 E1) as (n & x & h & H1 & H2 & H3 & H4). destruct (H4 s2 R2) as (l2 & H5 & H6).
  exists s, s1, s2. split_and!; [exact R|exact E1|exact R2|]. exists h, l2. split_and!; [exact H5| |exact H6].
  vm_compute in E. injection E as <-. vm_compute in H1. injection H1 as <-. vm_compute in H2. injection H2 as <-. vm_compute in H3. injection H3 as <-. vm_compute. left.
Defined.

(** ** What goes wrong *)

(** A callback that raises [SystemExit] ends its fiber but stays registered with it: the descriptor is never
    served again, and registering again does not help. *)
Theorem io_fatal_strands : exists s, ireach s /\ l_fibs s = ∅ /\ exists n x, l_io s !! 7 = Some n /\ l_sts s !! n = Some x /\ hlive s (st_r x) = true /\ st_r x ≠ None.
Proof.
  pose (l := [IAdd 7 true; IGo 2; IReady 2 true false; IGo 2; IReturn 2 true; IAdd 7 true; IAdd 7 false]).
  destruct (irun l l_init) as [s|] eqn:E; [|vm_compute in E; discriminate]. exists s. pose proof (irun_rtc _ _ _ E) as R. split; [exact R|].
  vm_compute in E. injection E as <-. split; [by vm_compute|]. eexists _, _. split; [by vm_compute|]. split; [by vm_compute|]. by vm_compute.
Qed.
