(* ===== verification/Backoff.v ===== *)
(** * Calls that poll with a growing sleep

    Models [_patched_thread_join] ([monkey/events.py]), [_co_semlock_acquire] ([monkey/executors.py]),
    the file locks of [monkey/files.py] and [sigwait], [sigwaitinfo], [sigtimedwait]
    ([monkey/signals.py]).  None of them has a descriptor to park on: they ask without blocking and
    sleep between questions, twice as long each time up to a cap, never past the deadline.  The loop
    they share is [poll].  The operating system is the class [BackoffOs]; times are microseconds. *)
From S2P Require Import Prelude NetSocket.
Local Open Scope Z_scope.

(** What one question of a loop is answered: the result, ask again after a sleep, ask again at once
    ([except InterruptedError: continue]), or an exception that leaves the loop. *)
Inductive ans (A : Type) := Yes (a : A) | Again | Retry | Raise (e : pyexc).
Arguments Yes {A} a.
Arguments Again {A}.
Arguments Retry {A}.
Arguments Raise {A} e.

(** What a non-blocking [flock] or [lockf] says. *)
Inductive lkres := LkGranted | LkIntr | LkBlocked | LkDenied | LkErrno (n : Z).

Class BackoffOs (K : Type) := {
  b_now : K -> Z;
  b_sleep : Z -> K -> K;
  b_initialized : nat -> K -> bool;
  b_started : nat -> K -> bool;
  b_current : K -> nat;
  b_alive : nat -> K -> K * bool;
  b_join : nat -> option Z -> io K unit;
  b_sem_acquire : nat -> bool -> option Z -> io K bool;
  b_flock : Z -> Z -> K -> K * lkres;
  b_flock_wait : Z -> Z -> io K unit;
  b_lockf : Z -> Z -> Z -> Z -> Z -> K -> K * lkres;
  b_lockf_wait : Z -> Z -> Z -> Z -> Z -> io K unit;
  b_sigtimedwait0 : list Z -> K -> K * option (option (Z * Z));
  b_sigwait : list Z -> io K Z;
  b_sigwaitinfo : list Z -> io K (Z * Z);
  b_sigtimedwait : list Z -> option Z -> io K (option (Z * Z))
}.

(** The first sleep, the length at which it stops growing, the longest sleep. *)
Definition STEP0 : Z := 500.
Definition CAP : Z := 20000.

(** [if step < 0.02: step *= 2] *)
Definition bump (cap step : Z) : Z := if step <? cap then 2 * step else step.

(** The loop: [late] is what it returns when the deadline has passed. *)
Section loop.
Context {K A : Type} (now : K -> Z) (co_sleep : Z -> K -> K).
Context (probe : K -> K * ans A) (late : out A) (cap : Z).

Fixpoint poll (fuel : nat) (deadline : option Z) (step : Z) (k : K) : option (K * out A) :=
  match fuel with
  | O => None
  | S fuel' =>
      match probe k with
      | (k1, Yes a) => Some (k1, Ret a)
      | (k1, Raise e) => Some (k1, Exc e)
      | (k1, Retry) => poll fuel' deadline step k1
      | (k1, Again) =>
          match deadline with
          | None => poll fuel' deadline (bump cap step) (co_sleep step k1)
          | Some d =>
              let remaining := d - now k1 in
              if remaining <=? 0 then Some (k1, late)
              else poll fuel' deadline (bump cap step) (co_sleep (Z.min step remaining) k1)
          end
      end
  end.
End loop.

Section backoff.
Context {K : Type} `{!BackoffOs K} (in_fiber : bool).

(** [deadline = None if timeout is None else time.monotonic() + timeout] *)
Definition deadline_of (timeout : option Z) (k : K) : option Z := (λ t, b_now k + t) <$> timeout.

Definition pollb {A} (probe : K -> K * ans A) (late : out A) (fuel : nat) (timeout : option Z) (k : K) : option (K * out A) :=
  poll b_now b_sleep probe late CAP fuel (deadline_of timeout k) STEP0 k.

(** [_patched_thread_join(self, timeout)] *)
Definition join_probe (th : nat) (k : K) : K * ans unit :=
  let '(k1, alive) := b_alive th k in (k1, if alive then Again else Yes tt).
Definition patched_thread_join (fuel : nat) (th : nat) (timeout : option Z) (k : K) : option (K * out unit) :=
  if negb (b_initialized th k) then Some (k, Exc (RuntimeError "Thread.__init__() not called"))
  else if negb in_fiber then Some (b_join th timeout k)
  else if negb (b_started th k) then Some (k, Exc (RuntimeError "cannot join thread before it is started"))
  else if decide (th = b_current k) then Some (k, Exc (RuntimeError "cannot join current thread"))
  else pollb (join_probe th) (Ret tt) fuel timeout k.

(** [_co_semlock_acquire(semlock)]: the [acquire] it returns. *)
Definition sem_probe (sem : nat) (k : K) : K * ans bool :=
  match b_sem_acquire sem false None k with
  | (k1, Ret true) => (k1, Yes true)
  | (k1, Ret false) => (k1, Again)
  | (k1, Exc e) => (k1, Raise e)
  end.
Definition co_semlock_acquire (fuel : nat) (sem : nat) (block : bool) (timeout : option Z) (k : K) : option (K * out bool) :=
  if negb block || negb in_fiber then Some (b_sem_acquire sem block timeout k)
  else pollb (sem_probe sem) (Ret false) fuel timeout k.

(** [_co_lock_acquire(call, op, nb_bit, lock_bits)] *)
Definition EWOULDBLOCK : Z := 11.
Definition EACCES : Z := 13.
Definition LOCK_CONTENDED (n : Z) : bool := (n =? EWOULDBLOCK) || (n =? EACCES).
Definition lock_ans (r : lkres) : ans unit :=
  match r with
  | LkGranted => Yes tt
  | LkIntr => Retry
  | LkBlocked | LkDenied => Again
  | LkErrno n => if LOCK_CONTENDED n then Again else Raise (OSError "fcntl")
  end.
Definition co_lock_acquire (fuel : nat) (call : Z -> K -> K * lkres) (op nb_bit : Z) : K -> option (K * out unit) :=
  pollb (λ k, let '(k1, r) := call (Z.lor op nb_bit) k in (k1, lock_ans r)) (Ret tt) fuel None.

Definition LOCK_SH : Z := 1.
Definition LOCK_EX : Z := 2.
Definition LOCK_NB : Z := 4.
(** The calls that do not wait: off a fiber, [LOCK_NB] asked for, or an unlock. *)
Definition lock_passes (op : Z) : bool :=
  negb in_fiber || negb (Z.land op LOCK_NB =? 0) || (Z.land op (Z.lor LOCK_SH LOCK_EX) =? 0).

(** [_patched_flock(fd, operation)], [_patched_lockf(fd, cmd, length, start, whence)] *)
Definition patched_flock (fuel : nat) (fd operation : Z) (k : K) : option (K * out unit) :=
  if lock_passes operation then Some (b_flock_wait fd operation k)
  else co_lock_acquire fuel (b_flock fd) operation LOCK_NB k.
Definition patched_lockf (fuel : nat) (fd cmd length start whence : Z) (k : K) : option (K * out unit) :=
  if lock_passes cmd then Some (b_lockf_wait fd cmd length start whence k)
  else co_lock_acquire fuel (λ op, b_lockf fd op length start whence) cmd LOCK_NB k.

(** [_orig_sigtimedwait(sigset, 0)]: interrupted, nothing pending, or a [siginfo] (here its
    [si_signo] and the rest). *)
Definition sig_probe {A} (f : Z * Z -> A) (sigset : list Z) (k : K) : K * ans A :=
  match b_sigtimedwait0 sigset k with
  | (k1, None) => (k1, Retry)
  | (k1, Some None) => (k1, Again)
  | (k1, Some (Some info)) => (k1, Yes (f info))
  end.

(** [_patched_sigwait], [_patched_sigwaitinfo], [_patched_sigtimedwait] *)
Definition patched_sigwait (have_sigtimedwait : bool) (fuel : nat) (sigset : list Z) (k : K) : option (K * out Z) :=
  if negb in_fiber || negb have_sigtimedwait then Some (b_sigwait sigset k)
  else pollb (sig_probe fst sigset) (Ret 0) fuel None k.
Definition patched_sigwaitinfo (have_sigtimedwait : bool) (fuel : nat) (sigset : list Z) (k : K) : option (K * out (Z * Z)) :=
  if negb in_fiber || negb have_sigtimedwait then Some (b_sigwaitinfo sigset k)
  else pollb (sig_probe id sigset) (Ret (0, 0)) fuel None k.
Definition patched_sigtimedwait (fuel : nat) (sigset : list Z) (timeout : option Z) (k : K) : option (K * out (option (Z * Z))) :=
  if negb in_fiber then Some (b_sigtimedwait sigset timeout k)
  else pollb (sig_probe Some sigset) (Ret None) fuel (Z.max 0 <$> timeout) k.
End backoff.

(** ** The loop *)

Section poll_facts.
Context {K A : Type} (now : K -> Z) (co_sleep : Z -> K -> K).
Context (probe : K -> K * ans A) (late : out A) (cap : Z).

Local Abbreviation poll := (poll now co_sleep probe late cap).

(** How the loop ends: with the answer of its last question, or late.  [I] is anything that sleeps and
    fruitless questions keep. *)
Lemma poll_last (I : K -> Prop) :
  (forall d k, I k -> I (co_sleep d k)) ->
  (forall k k1 x, I k -> probe k = (k1, x) -> x = Again \/ x = Retry -> I k1) ->
  forall fuel deadline step k k' r, I k -> poll fuel deadline step k = Some (k', r) ->
  exists k1, I k1 /\
    ((exists a, probe k1 = (k', Yes a) /\ r = Ret a) \/
     (exists e, probe k1 = (k', Raise e) /\ r = Exc e) \/
     (probe k1 = (k', Again) /\ r = late /\ exists d, deadline = Some d /\ d <= now k')).
Proof.
  intros Hs Hp fuel deadline. induction fuel as [|fuel IH]; intros step k k' r HI H; [done|]. simpl in H.
  destruct (probe k) as [k1 x] eqn:E. destruct x as [a| | |e].
  - simplify_eq. exists k. eauto 6.
  - assert (HI1 : I k1) by (eapply Hp; [done..|by left]).
    destruct deadline as [d|]; [|eapply IH; [|done]; by apply Hs].
    destruct (d - now k1 <=? 0) eqn:Ed; [|eapply IH; [|done]; by apply Hs].
    simplify_eq. exists k. split; [done|]. right; right. split_and!; [done..|]. exists d. split; [done|lia].
  - eapply IH; [|done]. eapply Hp; [done..|by right].
  - simplify_eq. exists k. eauto 7.
Qed.

(** Sleeps take what they were asked for, and they and the questions at most [lag] more. *)
Context (lag : Z).
Class loop_clock : Prop := {
  lc_lag : 0 <= lag;
  lc_cap : 1 <= cap;
  lc_sleep d k : 0 <= d -> now k + d <= now (co_sleep d k) <= now k + d + lag;
  lc_probe k : now k <= now (probe k).1 <= now k + lag;
  lc_retry k : (probe k).2 ≠ Retry
}.

Lemma bump_bounds step : 1 <= cap -> 1 <= step <= 2 * cap -> 1 <= bump cap step <= 2 * cap.
Proof. unfold bump. destruct (step <? cap) eqn:E; lia. Qed.

(** A loop with a deadline ends soon after it. *)
Lemma poll_timed `{!loop_clock} d B : d + lag <= B ->
  forall fuel step k, now k <= B -> 1 <= step <= 2 * cap -> (Z.to_nat (d - now k) < fuel)%nat ->
  exists k' r, poll fuel (Some d) step k = Some (k', r) /\ now k' <= B + lag.
Proof.
  intros HB fuel. induction fuel as [|fuel IH]; intros step k Hk Hst Hf; [lia|]. simpl.
  pose proof (lc_probe k) as Hp. pose proof (lc_retry k) as Hr. pose proof lc_cap as Hc.
  destruct (probe k) as [k1 x]; simpl in *. destruct x as [a| | |e]; [by eexists _, _; split; [done|lia]| |done|by eexists _, _; split; [done|lia]].
  destruct (d - now k1 <=? 0) eqn:Ed; [by eexists _, _; split; [done|lia]|].
  pose proof (lc_sleep (Z.min step (d - now k1)) k1 ltac:(lia)) as Hs.
  apply IH; [lia|by apply bump_bounds|lia].
Qed.

(** Once the question is answered at every time from [T] on, the loop sees it within the longest sleep. *)
Lemma poll_responsive `{!loop_clock} T B deadline : T + lag + 2 * cap + lag <= B ->
  (forall k, T <= now k -> exists k' a, probe k = (k', Yes a)) -> (forall k e, (probe k).2 ≠ Raise e) ->
  (forall d, deadline = Some d -> T + lag <= d) ->
  forall fuel step k, now k <= B -> 1 <= step <= 2 * cap -> (Z.to_nat (T - now k) < fuel)%nat ->
  exists k' a k1, poll fuel deadline step k = Some (k', Ret a) /\ probe k1 = (k', Yes a) /\ now k' <= B + lag.
Proof.
  intros HB Hyes Hraise Hd fuel. induction fuel as [|fuel IH]; intros step k Hk Hst Hf; [lia|]. simpl.
  pose proof (lc_probe k) as Hp. pose proof (lc_retry k) as Hr. pose proof (Hraise k) as He. pose proof lc_cap as Hc.
  destruct (probe k) as [k1 x] eqn:E; simpl in *. destruct x as [a| | |e]; [by eexists _, _, _; split_and!; [done|exact E|lia]| |done|by destruct (He e)].
  assert (HT : now k < T). { destruct (decide (T <= now k)) as [Ht|]; [|lia]. destruct (Hyes k Ht) as (? & ? & ?). congruence. }
  assert (Hgo : forall s, 1 <= s <= step ->
    exists k' a k2, poll fuel deadline (bump cap step) (co_sleep s k1) = Some (k', Ret a) /\ probe k2 = (k', Yes a) /\ now k' <= B + lag).
  { intros s Hss. pose proof (lc_sleep s k1 ltac:(lia)) as Hsl. apply IH; [lia|by apply bump_bounds|lia]. }
  destruct deadline as [d|]; [|apply Hgo; lia]. specialize (Hd d eq_refl).
  destruct (d - now k1 <=? 0) eqn:Ed; [lia|]. apply Hgo. lia.
Qed.
End poll_facts.

(** ** The calls *)

Section backoff_facts.
Context {K : Type} `{!BackoffOs K} (lag : Z).

(** How long the calls take; [b_mine] counts the permits of a semaphore that this caller took. *)
Class BackoffLaws := {
  bl_lag : 0 <= lag;
  bl_sleep d k : 0 <= d -> b_now k + d <= b_now (b_sleep d k) <= b_now k + d + lag;
  bl_alive th k : b_now k <= b_now (b_alive th k).1 <= b_now k + lag;
  bl_try sem k : b_now k <= b_now (b_sem_acquire sem false None k).1 <= b_now k + lag;
  b_mine : nat -> K -> nat;
  bl_mine_sleep sem d k : b_mine sem (b_sleep d k) = b_mine sem k;
  bl_mine_try sem k k1 r : b_sem_acquire sem false None k = (k1, r) ->
    b_mine sem k1 = (b_mine sem k + if bool_decide (r = Ret true) then 1 else 0)%nat
}.

Lemma join_clock `{!BackoffLaws} th : loop_clock b_now b_sleep (join_probe th) CAP lag.
Proof.
  split; [apply bl_lag|done|apply bl_sleep|..]; intros k; pose proof (bl_alive th k) as Ha; unfold join_probe;
    destruct (b_alive th k) as [k1 []]; simpl in *; done.
Qed.

Lemma sem_clock `{!BackoffLaws} sem : loop_clock b_now b_sleep (sem_probe sem) CAP lag.
Proof.
  split; [apply bl_lag|done|apply bl_sleep|..]; intros k; pose proof (bl_try sem k) as Ha; unfold sem_probe;
    destruct (b_sem_acquire sem false None k) as [k1 [[]|e]]; simpl in *; done.
Qed.

(** A blocking acquire from a fiber takes one permit and returns True, or none and ends otherwise. *)
Lemma semlock_ends `{!BackoffLaws} fuel sem timeout k k' r :
  co_semlock_acquire true fuel sem true timeout k = Some (k', r) ->
  (r = Ret true /\ b_mine sem k' = S (b_mine sem k)) \/
  (r = Ret false /\ b_mine sem k' = b_mine sem k /\ exists t, timeout = Some t /\ b_now k + t <= b_now k') \/
  (exists k1 e, b_sem_acquire sem false None k1 = (k', Exc e) /\ r = Exc e /\ b_mine sem k' = b_mine sem k).
Proof.
  unfold co_semlock_acquire, pollb. simpl. intros Hp.
  apply (poll_last b_now b_sleep (sem_probe sem) (Ret false) CAP (λ x, b_mine sem x = b_mine sem k)) in Hp as (k1 & HI & Hlast); [|intros; by rewrite bl_mine_sleep| |done].
  - revert Hlast. unfold sem_probe. destruct (b_sem_acquire sem false None k1) as [k2 x] eqn:E.
    pose proof (bl_mine_try sem k1 k2 x E) as Hm. rewrite HI in Hm.
    intros [(a & H1 & ->)|[(e & H1 & ->)|(H1 & -> & d & Hd & Hle)]]; destruct x as [[]|e']; simplify_eq; simpl in Hm.
    + left. split; [done|lia].
    + right; right. exists k1, e. split_and!; [done..|lia].
    + right; left. destruct timeout as [t|]; simpl in Hd; simplify_eq. split_and!; [done|lia|]. eexists. split; [done|lia].
  - intros k0 k2 x HI0 H0 Hx. revert H0. unfold sem_probe. destruct (b_sem_acquire sem false None k0) as [k3 y] eqn:E.
    pose proof (bl_mine_try sem k0 k3 y E) as Hm. destruct y as [[]|e]; intros; simplify_eq; [by destruct Hx| |by destruct Hx].
    simpl in Hm. lia.
Qed.

(** C35. A blocking [acquire(timeout=t)] of a multiprocessing semaphore by a fiber returns, by its deadline
    but for the delays of one sleep and one attempt.  It returns True when it took one permit; it
    returns False only after the deadline and then it took none. *)
Theorem semlock_acquire_exact `{!BackoffLaws} fuel sem t k :
  0 <= t -> (forall k e, (b_sem_acquire sem false None k).2 ≠ Exc e) -> (Z.to_nat t < fuel)%nat ->
  exists k' b, co_semlock_acquire true fuel sem true (Some t) k = Some (k', Ret b) /\
    b_now k' <= b_now k + t + 2 * lag /\
    b_mine sem k' = (b_mine sem k + if b then 1 else 0)%nat /\ (b = false -> b_now k + t <= b_now k').
Proof.
  intros Ht Hne Hf. pose proof bl_lag as Hl. pose proof (sem_clock sem) as Hc.
  assert (HB : b_now k + t + lag <= b_now k + t + lag) by lia.
  destruct (poll_timed b_now b_sleep (sem_probe sem) (Ret false) CAP lag _ _ HB fuel STEP0 k)
    as (k' & r & Hr & Hle); [lia|unfold STEP0, CAP; lia|lia|].
  exists k'. pose proof (semlock_ends fuel sem (Some t) k k' r Hr) as [[-> Hm]|[(-> & Hm & t' & [= <-] & Hd)|(k1 & e & H1 & _)]].
  - exists true. split_and!; [done|lia|lia|done].
  - exists false. split_and!; [done|lia|lia|done].
  - destruct (Hne k1 e). by rewrite H1.
Qed.

(** [Thread.join()] from a fiber returns, with the thread dead, within the longest sleep of the
    thread's end (40 ms and the delays); with a timeout that leaves room for it the same holds. *)
Theorem thread_join_prompt `{!BackoffLaws} fuel th T timeout k :
  b_initialized th k = true -> b_started th k = true -> th ≠ b_current k ->
  (forall k, T <= b_now k -> (b_alive th k).2 = false) ->
  (forall t, timeout = Some t -> T + lag <= b_now k + t) -> (Z.to_nat (T - b_now k) < fuel)%nat ->
  exists k', patched_thread_join true fuel th timeout k = Some (k', Ret tt) /\
    (exists k1, b_alive th k1 = (k', false)) /\ b_now k' <= Z.max T (b_now k) + 2 * CAP + 3 * lag.
Proof.
  intros Hi Hs Hne Hdead Ht Hf. pose proof bl_lag as Hl. pose proof (join_clock th) as Hc.
  assert (Hyes : forall k, T <= b_now k -> exists k' a, join_probe th k = (k', Yes a)).
  { intros k0 Hk0. specialize (Hdead k0 Hk0). unfold join_probe. destruct (b_alive th k0) as [k1 []]; simpl in Hdead; [done|eauto]. }
  assert (Hdl : forall d, deadline_of timeout k = Some d -> T + lag <= d).
  { intros d Hd. destruct timeout as [t|]; simpl in Hd; simplify_eq. by apply Ht. }
  assert (HB : T + lag + 2 * CAP + lag <= Z.max T (b_now k) + 2 * CAP + 2 * lag) by lia.
  destruct (poll_responsive b_now b_sleep (join_probe th) (Ret tt) CAP lag T _ (deadline_of timeout k) HB Hyes) with (fuel := fuel) (step := STEP0) (k := k) as (k' & [] & k1 & Hr & H1 & Hle); [|done|unfold CAP; lia|unfold STEP0, CAP; lia|done|].
  { intros k0 e. unfold join_probe. by destruct (b_alive th k0) as [? []]. }
  exists k'. unfold patched_thread_join. rewrite Hi, Hs, (decide_False _ _ Hne). simpl. split_and!; [done| |lia].
  exists k1. revert H1. unfold join_probe. destruct (b_alive th k1) as [? []]; intros; by simplify_eq.
Qed.

(** A blocking file lock taken from a fiber only ever asks without blocking; it returns when it was
    granted, and raises only what is not contention. *)
Theorem flock_outcome fuel fd op k k' r :
  lock_passes true op = false -> patched_flock true fuel fd op k = Some (k', r) ->
  exists k1, (b_flock fd (Z.lor op LOCK_NB) k1 = (k', LkGranted) /\ r = Ret tt) \/
    (exists n, b_flock fd (Z.lor op LOCK_NB) k1 = (k', LkErrno n) /\ LOCK_CONTENDED n = false /\ r = Exc (OSError "fcntl")).
Proof.
  unfold patched_flock, co_lock_acquire, pollb. intros -> H1.
  apply (poll_last _ _ _ _ _ (λ _, True)) in H1 as (k1 & _ & Hlast); [|done..].
  exists k1. revert Hlast. destruct (b_flock fd (Z.lor op LOCK_NB) k1) as [k2 x]. unfold lock_ans.
  intros [(a & H1 & ->)|[(e & H1 & ->)|(_ & _ & d & [=] & _)]].
  - destruct x; simplify_eq/=; [by left|]. by destruct (LOCK_CONTENDED n).
  - destruct x; simplify_eq/=. destruct (LOCK_CONTENDED n) eqn:En; simplify_eq. right. by exists n.
Qed.

(** [sigtimedwait] from a fiber returns a signal that was pending, or None when its timeout is over and
    nothing was pending. *)
Theorem sigtimedwait_outcome fuel sigset timeout k k' r :
  patched_sigtimedwait true fuel sigset timeout k = Some (k', r) ->
  exists k1, (exists info, b_sigtimedwait0 sigset k1 = (k', Some (Some info)) /\ r = Ret (Some info)) \/
    (b_sigtimedwait0 sigset k1 = (k', Some None) /\ r = Ret None /\
     exists t, timeout = Some t /\ b_now k + Z.max 0 t <= b_now k').
Proof.
  unfold patched_sigtimedwait, pollb. simpl. intros H1.
  apply (poll_last _ _ _ _ _ (λ _, True)) in H1 as (k1 & _ & Hlast); [|done..].
  exists k1. revert Hlast. unfold sig_probe. destruct (b_sigtimedwait0 sigset k1) as [k2 x].
  intros [(a & H1 & ->)|[(e & H1 & ->)|(H1 & -> & d & Hd & Hle)]]; destruct x as [[info|]|]; simplify_eq.
  - left. by exists info.
  - right. split_and!; [done..|]. destruct timeout as [t|]; simpl in Hd; simplify_eq. by exists t.
Qed.
End backoff_facts.

(** ** A scripted system

    Thread 1 dies, semaphore 1 becomes free and signal 10 becomes pending at given times; every
    question takes 10 microseconds. *)
Record bsys := BSys { y_now : Z; y_free : Z; y_mine : nat; y_sig : Z }.
Definition y_ask (k : bsys) : bsys := BSys (y_now k + 10) (y_free k) (y_mine k) (y_sig k).

#[export] Instance bsys_os : BackoffOs bsys := {|
  b_now := y_now;
  b_sleep d k := BSys (y_now k + d + 5) (y_free k) (y_mine k) (y_sig k);
  b_initialized _ _ := true;
  b_started _ _ := true;
  b_current _ := 0%nat;
  b_alive _ k := (y_ask k, y_now k <? 500);
  b_join _ _ k := (k, Ret tt);
  b_sem_acquire _ _ _ k :=
    let k1 := y_ask k in
    if y_free k <=? y_now k then (BSys (y_now k1) (y_free k1) (S (y_mine k1)) (y_sig k1), Ret true) else (k1, Ret false);
  b_flock _ _ k := (y_ask k, if y_free k <=? y_now k then LkGranted else LkBlocked);
  b_flock_wait _ _ k := (k, Ret tt);
  b_lockf _ _ _ _ _ k := (y_ask k, LkGranted);
  b_lockf_wait _ _ _ _ _ k := (k, Ret tt);
  b_sigtimedwait0 _ k := (y_ask k, Some (if y_sig k <=? y_now k then Some (10, 0) else None));
  b_sigwait _ k := (k, Ret 10);
  b_sigwaitinfo _ k := (k, Ret (10, 0));
  b_sigtimedwait _ _ k := (k, Ret None)
|}.

#[export] Instance bsys_laws : BackoffLaws (K := bsys) 10.
Proof.
  refine {| b_mine _ := y_mine |}; try done.
  - intros d k Hd. simpl. lia.
  - intros th k. simpl. lia.
  - intros sem k. simpl. destruct (y_free k <=? y_now k); simpl; lia.
  - intros sem k k1 r H1. simpl in H1. destruct (y_free k <=? y_now k); simplify_eq; simpl; lia.
Defined.

Lemma semlock_acquire_exact_witness :
  let k := BSys 0 300 0 0 in
  exists k' b, co_semlock_acquire true 900 1 true (Some 800) k = Some (k', Ret b) /\
    y_now k' <= 0 + 800 + 2 * 10 /\ y_mine k' = (0 + if b then 1 else 0)%nat /\ (b = false -> 0 + 800 <= y_now k').
Proof.
  assert (forall k e, (b_sem_acquire (K := bsys) 1 false None k).2 ≠ Exc e) as Hne.
  { intros k e. simpl. by destruct (y_free k <=? y_now k). }
  exact (semlock_acquire_exact (K := bsys) 10 900 1 800 (BSys 0 300 0 0) ltac:(lia) Hne ltac:(lia)).
Defined.

Lemma thread_join_prompt_witness :
  exists k', patched_thread_join true 600 1 None (BSys 0 0 0 0) = Some (k', Ret tt) /\
    (exists k1, b_alive 1 k1 = (k', false)) /\ y_now k' <= Z.max 500 0 + 2 * CAP + 3 * 10.
Proof.
  assert (forall k, 500 <= b_now (K := bsys) k -> (b_alive 1 k).2 = false) as Hd by (intros k Hk; simpl in *; lia).
  assert (forall t, None = Some t -> 500 + 10 <= b_now (BSys 0 0 0 0) + t) as Ht by done.
  assert (Z.to_nat (500 - b_now (BSys 0 0 0 0)) < 600)%nat as Hf by (simpl; lia).
  assert (1%nat ≠ b_current (BSys 0 0 0 0)) as Hc by done.
  exact (thread_join_prompt (K := bsys) 10 600 1 500 None (BSys 0 0 0 0) eq_refl eq_refl Hc Hd Ht Hf).
Defined.

Lemma flock_outcome_witness :
  exists k r k1, patched_flock true 10 3 2 (BSys 0 1000 0 0) = Some (k, r) /\ b_flock 3 6 k1 = (k, LkGranted) /\ r = Ret tt.
Proof.
  destruct (patched_flock true 10 3 2 (BSys 0 1000 0 0)) as [[k r]|] eqn:E; [|by vm_compute in E].
  destruct (flock_outcome (K := bsys) 10 3 2 (BSys 0 1000 0 0) k r eq_refl E) as (k1 & [[H1 H2]|(n & H1 & _)]).
  - exists k, r, k1. split_and!; [reflexivity|exact H1|exact H2].
  - exfalso. simpl in H1. destruct (y_free k1 <=? y_now k1); discriminate.
Defined.

Lemma sigtimedwait_outcome_witness :
  exists k r, patched_sigtimedwait true 10 [10] (Some 700) (BSys 0 0 0 5000) = Some (k, r) /\
    exists k1, (exists info, b_sigtimedwait0 [10] k1 = (k, Some (Some info)) /\ r = Ret (Some info)) \/
      (b_sigtimedwait0 [10] k1 = (k, Some None) /\ r = Ret None /\ exists t, Some 700 = Some t /\ 0 + Z.max 0 t <= b_now k).
Proof.
  destruct (patched_sigtimedwait true 10 [10] (Some 700) (BSys 0 0 0 5000)) as [[k r]|] eqn:E; [|by vm_compute in E].
  exists k, r. split; [reflexivity|].
  exact (sigtimedwait_outcome (K := bsys) 10 [10] (Some 700) (BSys 0 0 0 5000) k r E).
Defined.
