(* ===== verification/Proc.v ===== *)
(** * Waiting for child processes

    Models [src/src/stackweave/monkey/subproc.py]: the descriptor that becomes readable when a child
    exits (a pidfd, or a copy of a kqueue), [Popen.wait], and the [os.wait] family.  The system calls
    are the class [ProcOs]; times are microseconds.  [Popen.__init__] and [os.system] only offload a
    call to the pool. *)
From S2P Require Import Prelude NetSocket Backoff.
Local Open Scope Z_scope.

Definition WNOHANG : Z := 1.
(** [WUNTRACED | WCONTINUED | WSTOPPED] *)
Definition PIDFD_INCOMPATIBLE : Z := 10.
Definition P_PID : Z := 1.
Definition EXIT_READ : Z := 1.
Definition WAIT_CANCELLED : Z := 1073741824.
Definition wait_cancelled : pyexc := OSError "wait_fd cancelled".

(** The calls.  [q_fds]: the open descriptors.  [q_poll] is [Popen.poll], the reaping calls say [None]
    when no child has changed state. *)
Class ProcOs (K : Type) := {
  q_now : K -> Z;
  q_sleep : Z -> K -> K;
  q_fds : K -> gset Z;
  q_poll : io K (option Z);
  q_popen_wait : option Z -> io K Z;
  q_pidfd : Z -> io K Z;
  q_kqueue : io K Z;
  q_kq_exit : Z -> Z -> io K unit;
  q_kq_dup : Z -> io K Z;
  q_kq_close : Z -> K -> K;
  q_wait : Z -> Z -> Z -> io K Z;
  q_close : Z -> io K unit;
  q_waitpid : Z -> Z -> io K (option (Z * Z));
  q_waitid : Z -> Z -> Z -> io K (option Z);
  q_wait4 : Z -> Z -> io K (option (Z * Z * Z))
}.

(** [except (OSError, ValueError)] *)
Definition os_or_value_error (e : pyexc) : bool := is_oserror e || match e with ValueError _ => true | _ => false end.

Section proc.
Context {K : Type} `{Hos : !ProcOs K}.
(** [_in_fiber()], [_HAVE_PIDFD], [_HAVE_KQ_PROC] *)
Context (in_fiber have_pidfd have_kq : bool).

(** [_pidfd_open(pid)] *)
Definition pidfd_open (pid : Z) : io K (option Z) := λ k,
  if negb have_pidfd || (pid <=? 0) then (k, Ret None)
  else match q_pidfd pid k with
       | (k1, Ret fd) => (k1, Ret (Some fd))
       | (k1, Exc e) => (k1, if os_or_value_error e then Ret None else Exc e)
       end.

(** [_proc_exit_fd(pid)] *)
Definition kq_exit_fd (pid : Z) : io K (option Z) := λ k,
  match q_kqueue k with
  | (k1, Exc e) => (k1, if is_oserror e then Ret None else Exc e)
  | (k1, Ret kq) =>
      let '(k2, r) :=
        match q_kq_exit kq pid k1 with
        | (k2, Ret _) => match q_kq_dup kq k2 with (k3, Ret fd) => (k3, Ret (Some fd)) | (k3, Exc e) => (k3, Exc e) end
        | (k2, Exc e) => (k2, Exc e)
        end in
      (q_kq_close kq k2, match r with Ret x => Ret x | Exc e => if is_oserror e then Ret None else Exc e end)
  end.
Definition proc_exit_fd (pid : option Z) : io K (option Z) := λ k,
  match pid with
  | None => (k, Ret None)
  | Some pid =>
      if pid <=? 0 then (k, Ret None)
      else if have_pidfd then pidfd_open pid k
      else if have_kq then kq_exit_fd pid k
      else (k, Ret None)
  end.

(** [_wait_fd_coop(pfd, READ)] *)
Definition wait_exit (fd : Z) : io K Z := λ k,
  match q_wait fd EXIT_READ (-1) k with
  | (k1, Ret rc) => (k1, if rc =? WAIT_CANCELLED then Exc wait_cancelled else Ret rc)
  | (k1, Exc e) => (k1, Exc e)
  end.

(** ** [Popen.wait] *)

(** The loop over the exit descriptor, inside the [try]. *)
Fixpoint popen_fd_loop (fuel : nat) (pfd : Z) (deadline : option Z) (k : K) : option (K * out Z) :=
  match fuel with
  | O => None
  | S fuel' =>
      match q_poll k with
      | (k1, Exc e) => Some (k1, Exc e)
      | (k1, Ret (Some rc)) => Some (k1, Ret rc)
      | (k1, Ret None) =>
          match deadline with
          | None => match wait_exit pfd k1 with (k2, Exc e) => Some (k2, Exc e) | (k2, Ret _) => popen_fd_loop fuel' pfd deadline k2 end
          | Some d =>
              let remaining := d - q_now k1 in
              if remaining <=? 0 then Some (k1, Exc TimeoutExpired)
              else match q_wait pfd EXIT_READ (remaining / 1000 + 1) k1 with
                   | (k2, Exc e) => Some (k2, Exc e)
                   | (k2, Ret rc) =>
                       if rc =? 0 then
                         match q_poll k2 with
                         | (k3, Exc e) => Some (k3, Exc e)
                         | (k3, Ret (Some rc)) => Some (k3, Ret rc)
                         | (k3, Ret None) => Some (k3, Exc TimeoutExpired)
                         end
                       else popen_fd_loop fuel' pfd deadline k2
                   end
          end
      end
  end.

(** [finally: os.close(pfd)] *)
Definition finally_close {A} (pfd : Z) (x : option (K * out A)) : option (K * out A) :=
  '(k1, r) ← x;
  match q_close pfd k1 with (k2, Ret _) => Some (k2, r) | (k2, Exc e) => Some (k2, Exc e) end.

(** The first and the longest sleep of the fallback. *)
Definition POPEN_STEP : Z := 1000.
Definition POPEN_CAP : Z := 50000.
Definition popen_probe (k : K) : K * ans Z :=
  match q_poll k with (k1, Ret (Some rc)) => (k1, Yes rc) | (k1, Ret None) => (k1, Again) | (k1, Exc e) => (k1, Raise e) end.

(** [_patched_popen_wait(self, timeout)] *)
Definition patched_popen_wait (fuel : nat) (pid returncode timeout : option Z) (k : K) : option (K * out Z) :=
  if negb in_fiber || bool_decide (is_Some returncode) then Some (q_popen_wait timeout k)
  else
    let deadline := (λ t, q_now k + t) <$> timeout in
    match proc_exit_fd pid k with
    | (k1, Exc e) => Some (k1, Exc e)
    | (k1, Ret (Some pfd)) => finally_close pfd (popen_fd_loop fuel pfd deadline k1)
    | (k1, Ret None) => poll q_now q_sleep popen_probe (Exc TimeoutExpired) POPEN_CAP fuel deadline POPEN_STEP k1
    end.

(** ** The [os.wait] family *)

(** The loop of [_patched_os_waitpid], [_patched_os_waitid] and [_patched_os_wait4]: [reap] is the call
    with [WNOHANG].  The descriptor that is still open goes to the [finally]. *)
Fixpoint reap_loop {R} (fuel : nat) (reap : io K (option R)) (pfd : option Z) (step : Z) (k : K) : option (K * out R * option Z) :=
  match fuel with
  | O => None
  | S fuel' =>
      match reap k with
      | (k1, Exc e) => Some (k1, Exc e, pfd)
      | (k1, Ret (Some r)) => Some (k1, Ret r, pfd)
      | (k1, Ret None) =>
          match pfd with
          | Some fd =>
              match wait_exit fd k1 with
              | (k2, Exc e) => Some (k2, Exc e, pfd)
              | (k2, Ret _) => match q_close fd k2 with (k3, Exc e) => Some (k3, Exc e, pfd) | (k3, Ret _) => reap_loop fuel' reap None step k3 end
              end
          | None => reap_loop fuel' reap None (bump CAP step) (q_sleep step k1)
          end
      end
  end.

(** The exit descriptor, the loop and [finally: if pfd is not None: os.close(pfd)]. *)
Definition reap_child {R} (fuel : nat) (reap : io K (option R)) (exit_fd : io K (option Z)) (k : K) : option (K * out R) :=
  match exit_fd k with
  | (k1, Exc e) => Some (k1, Exc e)
  | (k1, Ret pfd) =>
      '(k2, r, rest) ← reap_loop fuel reap pfd STEP0 k1;
      match rest with Some fd => finally_close fd (Some (k2, r)) | None => Some (k2, r) end
  end.

(** A call that is not made cooperative: it must wait in the kernel. *)
Definition passthrough (options : Z) : bool := negb in_fiber || negb (Z.land options WNOHANG =? 0).
Definition exit_fd_for (termination_only : bool) (pid options : Z) : io K (option Z) :=
  if termination_only && (Z.land options PIDFD_INCOMPATIBLE =? 0) then proc_exit_fd (Some pid) else (λ k, (k, Ret None)).

(** [_patched_os_waitpid(pid, options)], [_patched_os_wait4], [_patched_os_waitid]; a result [None] of the
    kernel is [(0, 0)] or None. *)
Definition coop_result {R} (x : option (K * out R)) : option (K * out (option R)) :=
  (λ y, (y.1, match y.2 with Ret r => Ret (Some r) | Exc e => Exc e end)) <$> x.
Definition patched_os_waitpid (fuel : nat) (pid options : Z) (k : K) : option (K * out (option (Z * Z))) :=
  if passthrough options then Some (q_waitpid pid options k)
  else coop_result (reap_child fuel (q_waitpid pid (Z.lor options WNOHANG)) (exit_fd_for true pid options) k).
Definition patched_os_wait4 (fuel : nat) (pid options : Z) (k : K) : option (K * out (option (Z * Z * Z))) :=
  if passthrough options then Some (q_wait4 pid options k)
  else coop_result (reap_child fuel (q_wait4 pid (Z.lor options WNOHANG)) (exit_fd_for true pid options) k).
Definition patched_os_waitid (fuel : nat) (idtype id options : Z) (k : K) : option (K * out (option Z)) :=
  if passthrough options then Some (q_waitid idtype id options k)
  else coop_result (reap_child fuel (q_waitid idtype id (Z.lor options WNOHANG)) (exit_fd_for (idtype =? P_PID) id options) k).

(** [_patched_os_wait()], [_patched_os_wait3(options)] from a fiber. *)
Definition patched_os_wait (fuel : nat) : K -> option (K * out (option (Z * Z))) := patched_os_waitpid fuel (-1) 0.
Definition patched_os_wait3 (fuel : nat) (options : Z) : K -> option (K * out (option (Z * Z * Z))) := patched_os_wait4 fuel (-1) options.
End proc.

(** ** What the calls promise *)

Section proc_facts.
Context {K : Type} `{Hos : !ProcOs K} (lag : Z).

(** A call that opens a descriptor, one that opens none; [took m b]: [m] takes at most [b]. *)
Definition opens (m : io K Z) : Prop := forall k,
  match m k with (k1, Ret fd) => fd ∉ q_fds k /\ q_fds k1 = {[fd]} ∪ q_fds k | (k1, Exc _) => q_fds k1 = q_fds k end.
Definition keeps {A} (m : io K A) : Prop := forall k, q_fds (m k).1 = q_fds k.
Definition took {A} (m : io K A) (b : Z) : Prop := forall k, q_now k <= q_now (m k).1 <= q_now k + b.

Class ProcLaws : Prop := {
  ql_lag : 0 <= lag;
  ql_pidfd pid : opens (q_pidfd pid) /\ took (q_pidfd pid) lag;
  ql_pidfd_exc pid k k1 e : q_pidfd pid k = (k1, Exc e) -> os_or_value_error e = true;
  ql_kqueue : opens q_kqueue /\ took q_kqueue lag;
  ql_kqueue_exc k k1 e : q_kqueue k = (k1, Exc e) -> is_oserror e = true;
  ql_kq_exit kq pid : keeps (q_kq_exit kq pid) /\ took (q_kq_exit kq pid) lag;
  ql_kq_exit_exc kq pid k k1 e : q_kq_exit kq pid k = (k1, Exc e) -> is_oserror e = true;
  ql_kq_dup kq : opens (q_kq_dup kq) /\ took (q_kq_dup kq) lag;
  ql_kq_dup_exc kq k k1 e : q_kq_dup kq k = (k1, Exc e) -> is_oserror e = true;
  ql_kq_close kq k : q_fds (q_kq_close kq k) = q_fds k ∖ {[kq]} /\ q_now k <= q_now (q_kq_close kq k) <= q_now k + lag;
  ql_close fd k : exists k1, q_close fd k = (k1, Ret tt) /\ q_fds k1 = q_fds k ∖ {[fd]} /\ q_now k <= q_now k1 <= q_now k + lag;
  ql_sleep d k : q_fds (q_sleep d k) = q_fds k /\ (0 <= d -> q_now k + d <= q_now (q_sleep d k) <= q_now k + d + lag);
  ql_poll : keeps q_poll /\ took q_poll lag;
  ql_poll_ok k : q_now k < q_now (q_poll k).1 /\ exists x, (q_poll k).2 = Ret x;
  ql_popen_wait to : keeps (q_popen_wait to);
  ql_wait fd ms : keeps (q_wait fd EXIT_READ ms) /\ (0 <= ms -> took (q_wait fd EXIT_READ ms) (ms * 1000 + lag));
  ql_wait_timed fd ms k : 0 <= ms -> exists rc, (q_wait fd EXIT_READ ms k).2 = Ret rc /\ (rc = 0 -> q_now k + ms * 1000 <= q_now (q_wait fd EXIT_READ ms k).1);
  ql_waitpid pid o : keeps (q_waitpid pid o) /\ took (q_waitpid pid (Z.lor o WNOHANG)) lag;
  ql_waitid i id o : keeps (q_waitid i id o);
  ql_wait4 pid o : keeps (q_wait4 pid o)
}.

Section laws.
Context `{HL : !ProcLaws}.
Context (have_pidfd have_kq : bool).

Abbreviation exit_fd := (proc_exit_fd have_pidfd have_kq).

(** The exit descriptor: [None], or a fresh one that is the only descriptor opened. *)
Definition fresh_fd (m : io K (option Z)) : Prop := forall k k1 r, m k = (k1, r) ->
  match r with Ret (Some fd) => fd ∉ q_fds k /\ q_fds k1 = {[fd]} ∪ q_fds k | _ => q_fds k1 = q_fds k end.

Lemma kq_exit_fd_fresh pid : fresh_fd (kq_exit_fd pid).
Proof.
  intros k k1 r. unfold kq_exit_fd. pose proof (proj1 ql_kqueue k) as Hk.
  destruct (q_kqueue k) as [k2 [kq|e]]; [|intros; simplify_eq; by destruct (is_oserror e)].
  destruct Hk as [Hn Hk]. pose proof (proj1 (ql_kq_exit kq pid) k2) as He.
  destruct (q_kq_exit kq pid k2) as [k3 [[]|e]]; simpl in He.
  - pose proof (proj1 (ql_kq_dup kq) k3) as Hd. destruct (q_kq_dup kq k3) as [k4 [fd|e]].
    + destruct Hd as [Hf Hd]. intros; simplify_eq. rewrite (proj1 (ql_kq_close kq k4)), Hd, He, Hk. rewrite He, Hk in Hf. split; set_solver.
    + assert (Hs : q_fds (q_kq_close kq k4) = q_fds k) by (rewrite (proj1 (ql_kq_close kq k4)), Hd, He, Hk; set_solver).
      intros H; simplify_eq. by destruct (is_oserror e).
  - assert (Hs : q_fds (q_kq_close kq k3) = q_fds k) by (rewrite (proj1 (ql_kq_close kq k3)), He, Hk; set_solver).
    intros H; simplify_eq. by destruct (is_oserror e).
Qed.

Lemma proc_exit_fd_fresh pid : fresh_fd (exit_fd pid).
Proof.
  intros k k1 r. unfold proc_exit_fd. destruct pid as [pid|]; [|by intros; simplify_eq].
  destruct (pid <=? 0) eqn:E; [by intros; simplify_eq|]. destruct have_pidfd.
  - unfold pidfd_open. rewrite E. simpl. pose proof (proj1 (ql_pidfd pid) k) as Hp.
    destruct (q_pidfd pid k) as [k2 [fd|e]]; intros; simplify_eq; [done|]. by destruct (os_or_value_error e).
  - destruct have_kq; [|by intros; simplify_eq]. apply kq_exit_fd_fresh.
Qed.

Lemma exit_fd_for_fresh b pid o : fresh_fd (exit_fd_for have_pidfd have_kq b pid o).
Proof. unfold exit_fd_for. destruct (b && _); [apply proc_exit_fd_fresh|by intros k k1 r [= <- <-]]. Qed.

Lemma finally_close_fds {A} fd (x : option (K * out A)) B k' r :
  fd ∉ B -> (forall k1 r1, x = Some (k1, r1) -> q_fds k1 = {[fd]} ∪ B) -> finally_close fd x = Some (k', r) -> q_fds k' = B.
Proof.
  intros Hn Hx. unfold finally_close. destruct x as [[k1 r1]|]; [|done]. simpl. specialize (Hx k1 r1 eq_refl).
  destruct (ql_close fd k1) as (k2 & -> & Hf & _). intros; simplify_eq. rewrite Hf, Hx. set_solver.
Qed.

Lemma wait_exit_fds fd k : q_fds (wait_exit fd k).1 = q_fds k.
Proof.
  unfold wait_exit. pose proof (proj1 (ql_wait fd (-1)) k) as H1.
  destruct (q_wait fd EXIT_READ (-1) k) as [k1 [rc|e]]; simpl in *; [by destruct (rc =? WAIT_CANCELLED)|done].
Qed.

Lemma popen_fd_loop_fds fuel pfd dl k k' r : popen_fd_loop fuel pfd dl k = Some (k', r) -> q_fds k' = q_fds k.
Proof.
  revert k. induction fuel as [|fuel IH]; intros k; simpl; [done|].
  pose proof (proj1 ql_poll k) as Hp. destruct (q_poll k) as [k1 [[rc|]|e]]; simpl in Hp; [by intros; simplify_eq| |by intros; simplify_eq].
  destruct dl as [d|].
  - destruct (d - q_now k1 <=? 0); [by intros; simplify_eq|].
    pose proof (proj1 (ql_wait pfd ((d - q_now k1) / 1000 + 1)) k1) as Hw.
    destruct (q_wait pfd EXIT_READ _ k1) as [k2 [rc|e]]; simpl in Hw; [|intros; simplify_eq; congruence].
    destruct (rc =? 0); [|intros H%IH; congruence].
    pose proof (proj1 ql_poll k2) as Hp2. destruct (q_poll k2) as [k3 [[|]|]]; simpl in Hp2; intros; simplify_eq; congruence.
  - pose proof (wait_exit_fds pfd k1) as Hw. destruct (wait_exit pfd k1) as [k2 [rc|e]]; simpl in Hw; [intros H%IH|intros; simplify_eq]; congruence.
Qed.

Lemma reap_loop_fds {R} (reap : io K (option R)) B fuel pfd step k k' r rest : keeps reap ->
  match pfd with Some fd => fd ∉ B /\ q_fds k = {[fd]} ∪ B | None => q_fds k = B end ->
  reap_loop fuel reap pfd step k = Some (k', r, rest) ->
  match rest with Some fd => fd ∉ B /\ q_fds k' = {[fd]} ∪ B | None => q_fds k' = B end.
Proof.
  intros Hr. revert pfd step k. induction fuel as [|fuel IH]; intros pfd step k Hk; simpl; [done|].
  pose proof (Hr k) as Hk1. destruct (reap k) as [k1 [[x|]|e]]; simpl in Hk1; rewrite <- Hk1 in Hk; [by intros; simplify_eq| |by intros; simplify_eq].
  destruct pfd as [fd|]; [|apply IH; by rewrite (proj1 (ql_sleep step k1))].
  pose proof (wait_exit_fds fd k1) as Hw. destruct (wait_exit fd k1) as [k2 [rc|e]]; simpl in Hw; [|intros; simplify_eq; by rewrite Hw].
  destruct (ql_close fd k2) as (k3 & -> & Hf & _). apply IH. rewrite Hf, Hw, (proj2 Hk). destruct Hk. set_solver.
Qed.

Lemma reap_child_fds {R} (reap : io K (option R)) exit fuel k k' r :
  keeps reap -> fresh_fd exit -> reap_child fuel reap exit k = Some (k', r) -> q_fds k' = q_fds k.
Proof.
  intros Hr He. unfold reap_child. destruct (exit k) as [k1 [pfd|e]] eqn:E; pose proof (He _ _ _ E) as Hf; [|by intros; simplify_eq].
  destruct (reap_loop fuel reap pfd STEP0 k1) as [[[k2 x] rest]|] eqn:El; simpl; [|done].
  apply (reap_loop_fds reap (q_fds k)) in El; [|done|by destruct pfd].
  destruct rest as [fd|]; [|by intros; simplify_eq]. intros H. destruct El as [Hn El].
  refine (finally_close_fds fd (Some (k2, x)) (q_fds k) _ _ Hn _ H). intros k3 r3 [= <- <-]. done.
Qed.

Lemma coop_result_fds {R} (x : option (K * out R)) k k' r :
  (forall k1 r1, x = Some (k1, r1) -> q_fds k1 = q_fds k) -> coop_result x = Some (k', r) -> q_fds k' = q_fds k.
Proof. intros Hx. unfold coop_result. destruct x as [[k1 r1]|]; simpl; [|done]. intros; simplify_eq. by eapply Hx. Qed.

(** C36. Every wait for a child gives back the descriptor it opened, however it ends: with a result, a
    timeout, an exception or a cancellation. *)
Theorem child_waits_leak_nothing in_fiber fuel k k' :
  (forall pid rc timeout r, patched_popen_wait in_fiber have_pidfd have_kq fuel pid rc timeout k = Some (k', r) -> q_fds k' = q_fds k) /\
  (forall pid o r, patched_os_waitpid in_fiber have_pidfd have_kq fuel pid o k = Some (k', r) -> q_fds k' = q_fds k) /\
  (forall pid o r, patched_os_wait4 in_fiber have_pidfd have_kq fuel pid o k = Some (k', r) -> q_fds k' = q_fds k) /\
  (forall i id o r, patched_os_waitid in_fiber have_pidfd have_kq fuel i id o k = Some (k', r) -> q_fds k' = q_fds k).
Proof.
  assert (Hcall : forall A (m : io K A) k2 r, keeps m -> Some (m k) = Some (k2, r) -> q_fds k2 = q_fds k).
  { intros A m k2 r Hm H. pose proof (Hm k) as H1. destruct (m k). by simplify_eq. }
  split_and!.
  - intros pid rc timeout r. unfold patched_popen_wait. destruct (negb in_fiber || _); [by apply Hcall, ql_popen_wait|].
    destruct (exit_fd pid k) as [k1 [[fd|]|e]] eqn:E; apply proc_exit_fd_fresh in E; [| |by intros; simplify_eq].
    + intros H. refine (finally_close_fds fd _ (q_fds k) k' r (proj1 E) _ H).
      intros k2 r2 ->%popen_fd_loop_fds. apply E.
    + intros (k2 & Hk2 & Hl)%(poll_last _ _ _ _ _ (λ x, q_fds x = q_fds k1)); [|intros d k0 <-; apply ql_sleep| |done].
      * pose proof (proj1 ql_poll k2) as Hp. revert Hl. unfold popen_probe.
        destruct (q_poll k2) as [k3 [[]|]]; simpl in Hp; intros [(? & ? & ?)|[(? & ? & ?)|(? & ? & ?)]]; simplify_eq; congruence.
      * intros k0 k2 x <-. unfold popen_probe. pose proof (proj1 ql_poll k0) as Hp. destruct (q_poll k0) as [k3 [[]|]]; simpl in Hp; intros; by simplify_eq.
  - intros pid o r. unfold patched_os_waitpid. destruct (passthrough _ _); [by apply Hcall, ql_waitpid|].
    apply coop_result_fds. intros k1 r1. apply reap_child_fds; [apply ql_waitpid|apply exit_fd_for_fresh].
  - intros pid o r. unfold patched_os_wait4. destruct (passthrough _ _); [by apply Hcall, ql_wait4|].
    apply coop_result_fds. intros k1 r1. apply reap_child_fds; [apply ql_wait4|apply exit_fd_for_fresh].
  - intros i id o r. unfold patched_os_waitid. destruct (passthrough _ _); [by apply Hcall, ql_waitid|].
    apply coop_result_fds. intros k1 r1. apply reap_child_fds; [apply ql_waitid|apply exit_fd_for_fresh].
Qed.

(** ** Times *)

Lemma kq_exit_fd_ok pid k : exists x, (kq_exit_fd pid k).2 = Ret x /\ q_now k <= q_now (kq_exit_fd pid k).1 <= q_now k + 4 * lag.
Proof.
  pose proof ql_lag as Hl. unfold kq_exit_fd. pose proof (proj2 ql_kqueue k) as Hk.
  destruct (q_kqueue k) as [k1 [kq|e]] eqn:E; simpl in Hk; [|rewrite (ql_kqueue_exc _ _ _ E); eexists; split; [done|simpl; lia]].
  pose proof (proj2 (ql_kq_exit kq pid) k1) as He. destruct (q_kq_exit kq pid k1) as [k2 [[]|e]] eqn:E2; simpl in He.
  - pose proof (proj2 (ql_kq_dup kq) k2) as Hd. destruct (q_kq_dup kq k2) as [k3 [fd|e]] eqn:E3; simpl in Hd;
      pose proof (proj2 (ql_kq_close kq k3)); [|rewrite (ql_kq_dup_exc _ _ _ _ E3)]; (eexists; split; [done|simpl; lia]).
  - pose proof (proj2 (ql_kq_close kq k2)). rewrite (ql_kq_exit_exc _ _ _ _ _ E2). eexists; split; [done|simpl; lia].
Qed.

Lemma proc_exit_fd_ok pid k : exists x, (exit_fd pid k).2 = Ret x /\ q_now k <= q_now (exit_fd pid k).1 <= q_now k + 4 * lag.
Proof.
  pose proof ql_lag as Hl. assert (Hnone : exists x : option Z, Ret (V := option Z) None = Ret x /\ q_now k <= q_now k <= q_now k + 4 * lag) by (eexists; split; [done|lia]).
  unfold proc_exit_fd. destruct pid as [pid|]; [|done]. destruct (pid <=? 0) eqn:E; [done|].
  destruct have_pidfd; [|destruct have_kq; [apply kq_exit_fd_ok|done]].
  unfold pidfd_open. rewrite E. simpl. pose proof (proj2 (ql_pidfd pid) k) as Hp.
  destruct (q_pidfd pid k) as [k1 [fd|e]] eqn:Ep; simpl in Hp; [|rewrite (ql_pidfd_exc _ _ _ _ Ep)]; (eexists; split; [done|simpl; lia]).
Qed.

(** What a bounded wait returns: the code of a poll that found the child dead, or the timeout. *)
Definition wait_result (d : Z) (k' : K) (r : out Z) : Prop :=
  (exists rc k1, q_poll k1 = (k', Ret (Some rc)) /\ r = Ret rc) \/ (r = Exc TimeoutExpired /\ d <= q_now k').

Lemma poll_cases k : exists k1 x, q_poll k = (k1, Ret x) /\ q_now k < q_now k1 <= q_now k + lag.
Proof.
  pose proof (proj2 ql_poll k) as Hb. destruct (ql_poll_ok k) as [Hs [x Hx]].
  destruct (q_poll k) as [k1 y]; simpl in *. subst y. exists k1, x. split; [done|lia].
Qed.

Lemma popen_fd_loop_timed pfd d B : d + 1000 + lag <= B -> forall fuel k, q_now k <= B -> (Z.to_nat (d - q_now k) < fuel)%nat ->
  exists k' r, popen_fd_loop fuel pfd (Some d) k = Some (k', r) /\ q_now k <= q_now k' <= B + lag /\ wait_result d k' r.
Proof.
  intros HB fuel. induction fuel as [|fuel IH]; intros k Hk Hf; [lia|]. simpl.
  destruct (poll_cases k) as (k1 & x & Hp & Hn). rewrite Hp.
  destruct x as [rc|]; [eexists _, _; split_and!; [done|lia|lia|left; by exists rc, k]|].
  destruct (d - q_now k1 <=? 0) eqn:Ed; [eexists _, _; split_and!; [done|lia|lia|right; split; [done|lia]]|].
  assert (Hms : 0 <= (d - q_now k1) / 1000 + 1) by (pose proof (Z.div_pos (d - q_now k1) 1000); lia).
  pose proof (Z.div_mod (d - q_now k1) 1000 ltac:(done)) as Hdm. pose proof (Z.mod_pos_bound (d - q_now k1) 1000 ltac:(done)) as Hmb.
  pose proof (proj2 (ql_wait pfd ((d - q_now k1) / 1000 + 1)) Hms k1) as Hw.
  destruct (ql_wait_timed pfd ((d - q_now k1) / 1000 + 1) k1 Hms) as (rc & Hrc & Hz).
  destruct (q_wait pfd EXIT_READ _ k1) as [k2 y]; simpl in *. subst y.
  destruct (rc =? 0) eqn:Erc.
  - destruct (poll_cases k2) as (k3 & x & Hp2 & Hn2). rewrite Hp2. specialize (Hz ltac:(lia)).
    destruct x as [rc2|]; eexists _, _; (split_and!; [done|lia|lia|]); [left; by exists rc2, k2|right; split; [done|lia]].
  - destruct (IH k2) as (k' & r & Hr & Ht & Hres); [lia|lia|]. exists k', r. split_and!; [done|lia|lia|done].
Qed.

Lemma popen_clock : loop_clock q_now q_sleep popen_probe POPEN_CAP lag.
Proof.
  split; [apply ql_lag|done|intros d k Hd; by apply ql_sleep|..]; intros k; destruct (poll_cases k) as (k1 & [rc|] & Hp & Hn);
    unfold popen_probe; rewrite Hp; simpl; (lia || done).
Qed.

(** C37. [Popen.wait(timeout=t)] of a running child from a fiber ends, by its deadline but for one
    millisecond of rounding and the delays of the calls: with the exit code that a poll found, or with
    [TimeoutExpired] and then not before the deadline. *)
Theorem popen_wait_timed fuel pid t k : 0 <= t -> (Z.to_nat t < fuel)%nat ->
  exists k' r, patched_popen_wait true have_pidfd have_kq fuel pid None (Some t) k = Some (k', r) /\
    q_now k' <= q_now k + t + 1000 + 7 * lag /\
    ((exists rc k1 k2, q_poll k1 = (k2, Ret (Some rc)) /\ r = Ret rc) \/ (r = Exc TimeoutExpired /\ q_now k + t <= q_now k')).
Proof.
  intros Ht Hf. pose proof ql_lag as Hl. unfold patched_popen_wait. simpl.
  destruct (proc_exit_fd_ok pid k) as (x & Hx & Hn). destruct (exit_fd pid k) as [k1 y]; simpl in *. subst y.
  destruct x as [fd|].
  - assert (HB : q_now k + t + 1000 + lag <= q_now k + t + 1000 + 5 * lag) by lia.
    destruct (popen_fd_loop_timed fd (q_now k + t) _ HB fuel k1) as (k2 & r & -> & Hn2 & Hres); [lia|lia|].
    simpl. destruct (ql_close fd k2) as (k3 & -> & _ & Hn3). exists k3, r. split_and!; [done|lia|].
    destruct Hres as [(rc & k4 & Hp & ->)|[-> Hd]]; [left; by exists rc, k4, k2|right; split; [done|lia]].
  - assert (HB : q_now k + t + lag <= q_now k + t + 4 * lag + lag) by lia.
    pose proof popen_clock as Hc.
    destruct (poll_timed q_now q_sleep popen_probe (Exc TimeoutExpired) POPEN_CAP lag _ _ HB fuel POPEN_STEP k1) as (k2 & r & Hr & Hn2);
      [lia|unfold POPEN_STEP, POPEN_CAP; lia|lia|].
    exists k2, r. split_and!; [done|lia|].
    apply (poll_last _ _ _ _ _ (λ _, True)) in Hr as (k3 & _ & Hlast); [|done..].
    destruct (poll_cases k3) as (k4 & x & Hp & _). unfold popen_probe in Hlast. rewrite Hp in Hlast.
    destruct Hlast as [(a & Ha & ->)|[(e & Ha & ->)|(Ha & -> & d & [= <-] & Hd)]]; destruct x as [rc|]; simplify_eq; [left; by exists a, k3, k2|right; split; [done|lia]].
Qed.

(** A cancelled wait: without a timeout [Popen.wait] raises, with one it only goes round its loop and
    waits again (lines 149-164). *)
Theorem popen_timed_wait_ignores_cancel fuel pfd d k k1 k2 ms :
  q_poll k = (k1, Ret None) -> q_now k1 < d -> ms = (d - q_now k1) / 1000 + 1 ->
  q_wait pfd EXIT_READ ms k1 = (k2, Ret WAIT_CANCELLED) -> q_wait pfd EXIT_READ (-1) k1 = (k2, Ret WAIT_CANCELLED) ->
  popen_fd_loop (S fuel) pfd None k = Some (k2, Exc wait_cancelled) /\
  popen_fd_loop (S fuel) pfd (Some d) k = popen_fd_loop fuel pfd (Some d) k2.
Proof.
  intros Hp Hd -> Hw Hw'. simpl. unfold wait_exit. rewrite Hp, Hw, Hw'. split; [done|].
  destruct (d - q_now k1 <=? 0) eqn:E; [lia|done].
Qed.

(** Without a descriptor the loop of the family is the loop of [Backoff]. *)
Definition reap_probe {R} (reap : io K (option R)) (k : K) : K * ans R :=
  match reap k with (k1, Ret (Some r)) => (k1, Yes r) | (k1, Ret None) => (k1, Again) | (k1, Exc e) => (k1, Raise e) end.
Lemma reap_loop_poll {R} (reap : io K (option R)) fuel step k :
  reap_loop fuel reap None step k = (λ x, (x, None)) <$> poll q_now q_sleep (reap_probe reap) (Exc TimeoutExpired) CAP fuel None step k.
Proof.
  revert step k. induction fuel as [|fuel IH]; intros step k; simpl; [done|]. unfold reap_probe at 1.
  by destruct (reap k) as [k1 [[r|]|e]]; simpl; rewrite ?IH.
Qed.

(** [os.waitpid(pid, 0)] from a fiber returns the child's status: if the child can be reaped from time
    [T] on, and the exit descriptor, where there is one, reports that within [lag], the call ends
    within the longest sleep of it. *)
Theorem waitpid_prompt fuel pid T k :
  (forall k, T <= q_now k -> exists k' s, q_waitpid pid WNOHANG k = (k', Ret (Some s))) ->
  (forall k, exists x, (q_waitpid pid WNOHANG k).2 = Ret x) ->
  (forall fd k, exists k', q_wait fd EXIT_READ (-1) k = (k', Ret 1) /\ q_now k <= q_now k' <= Z.max T (q_now k) + lag) ->
  (S (Z.to_nat (T - q_now k)) < fuel)%nat ->
  exists k' s k1, patched_os_waitpid true have_pidfd have_kq fuel pid 0 k = Some (k', Ret (Some s)) /\
    (exists k2, q_waitpid pid WNOHANG k2 = (k1, Ret (Some s))) /\ q_now k' <= Z.max T (q_now k) + 2 * CAP + 11 * lag.
Proof.
  intros Hyes Hok Hwt Hf. pose proof ql_lag as Hl. unfold patched_os_waitpid, reap_child.
  change (passthrough true 0) with false. change (exit_fd_for have_pidfd have_kq true pid 0) with (exit_fd (Some pid)).
  change (Z.lor 0 WNOHANG) with WNOHANG. set (reap := q_waitpid pid WNOHANG) in *. cbv iota.
  assert (Hcl : loop_clock q_now q_sleep (reap_probe reap) CAP lag).
  { split; [done|done|intros d k0 Hd; by apply ql_sleep|..]; intros k0; destruct (Hok k0) as [x Hx];
      pose proof (proj2 (ql_waitpid pid 0) k0) as Hb; change (q_waitpid pid (Z.lor 0 WNOHANG)) with reap in Hb;
      unfold reap_probe; destruct (reap k0) as [k1 y]; simpl in *; subst y; destruct x; simpl; (lia || done). }
  assert (Hloop : forall f k0, q_now k0 <= Z.max T (q_now k) + 7 * lag -> (Z.to_nat (T - q_now k0) < f)%nat ->
    exists k' s k2, reap_loop f reap None STEP0 k0 = Some (k', Ret s, None) /\ reap k2 = (k', Ret (Some s)) /\ q_now k' <= Z.max T (q_now k) + 2 * CAP + 9 * lag).
  { intros f k0 Hk0 Hf0. assert (HB : T + lag + 2 * CAP + lag <= Z.max T (q_now k) + 2 * CAP + 8 * lag) by lia.
    destruct (poll_responsive q_now q_sleep (reap_probe reap) (Exc TimeoutExpired) CAP lag T _ None HB) with (fuel := f) (step := STEP0) (k := k0)
      as (k' & s & k2 & Hr & H2 & Hn); [| |done|unfold CAP; lia|unfold STEP0, CAP; lia|done|].
    - intros k2 Hk2. unfold reap_probe. destruct (Hyes k2 Hk2) as (k3 & s & ->). eauto.
    - intros k2 e. unfold reap_probe. destruct (Hok k2) as [x Hx]. destruct (reap k2) as [k3 y]. simpl in Hx. subst y. by destruct x.
    - exists k', s, k2. rewrite reap_loop_poll, Hr. split_and!; [done| |lia].
      revert H2. unfold reap_probe. destruct (reap k2) as [k3 [[r|]|e]]; intros; by simplify_eq. }
  destruct (proc_exit_fd_ok (Some pid) k) as (x & Hx & Hn). destruct (exit_fd (Some pid) k) as [k1 y]; simpl in *. subst y.
  destruct x as [fd|].
  - destruct fuel as [|fuel]; [lia|]. simpl.
    pose proof (proj2 (ql_waitpid pid 0) k1) as Hb. change (q_waitpid pid (Z.lor 0 WNOHANG)) with reap in Hb.
    destruct (Hok k1) as [y Hy]. destruct (reap k1) as [k2 z] eqn:Er; simpl in Hb, Hy. subst z. destruct y as [s|].
    + simpl. destruct (ql_close fd k2) as (k3 & -> & _ & Hn3). exists k3, s, k2. split_and!; [done|by exists k1|unfold CAP; lia].
    + unfold wait_exit. destruct (Hwt fd k2) as (k3 & -> & Hn3). simpl. destruct (ql_close fd k3) as (k4 & -> & _ & Hn4).
      destruct (Hloop fuel k4) as (k' & s & k5 & -> & H5 & Hn5); [lia|lia|]. exists k', s, k'. split_and!; [done|by exists k5|lia].
  - destruct (Hloop fuel k1) as (k' & s & k5 & -> & H5 & Hn5); [lia|lia|]. exists k', s, k'. split_and!; [done|by exists k5|lia].
Qed.
End laws.
End proc_facts.

(** ** A scripted system

    The child dies at time 500; every call takes 10 microseconds.  With [cancel] every wait is
    cancelled at once. *)
Record psys := PSys { s_now : Z; s_fds : gset Z }.
Definition s_spend (d : Z) (k : psys) : psys := PSys (s_now k + d) (s_fds k).
Definition s_open (k : psys) : psys * out Z := (PSys (s_now k + 10) ({[fresh (s_fds k)]} ∪ s_fds k), Ret (fresh (s_fds k))).
Definition s_reap {R} (r : R) (k : psys) : psys * out (option R) := (s_spend 10 k, Ret (if 500 <=? s_now k then Some r else None)).
Definition s_wait (cancel : bool) (fd ev ms : Z) (k : psys) : psys * out Z :=
  if cancel then (k, Ret WAIT_CANCELLED)
  else if (0 <=? ms) && (s_now k + ms * 1000 <? 500) then (s_spend (ms * 1000) k, Ret 0)
  else (PSys (Z.max 500 (s_now k)) (s_fds k), Ret 1).

Definition psys_os (cancel : bool) : ProcOs psys := {|
  q_now := s_now;
  q_sleep d k := s_spend d k;
  q_fds := s_fds;
  q_poll := s_reap 7;
  q_popen_wait _ k := (k, Ret 7);
  q_pidfd _ := s_open;
  q_kqueue := s_open;
  q_kq_exit _ _ k := (k, Ret tt);
  q_kq_dup _ := s_open;
  q_kq_close kq k := PSys (s_now k) (s_fds k ∖ {[kq]});
  q_wait := s_wait cancel;
  q_close fd k := (PSys (s_now k) (s_fds k ∖ {[fd]}), Ret tt);
  q_waitpid pid _ := s_reap (pid, 0);
  q_waitid _ _ _ := s_reap 1;
  q_wait4 pid _ := s_reap (pid, 0, 0)
|}.

Lemma s_wait_spends fd ms k : 0 <= ms -> s_now k <= s_now (s_wait false fd EXIT_READ ms k).1 <= s_now k + (ms * 1000 + 10).
Proof.
  intros Hms. unfold s_wait. destruct ((0 <=? ms) && _) eqn:E; simpl; [lia|].
  apply andb_false_iff in E as [E|E]; lia.
Qed.

Lemma psys_laws : ProcLaws (Hos := psys_os false) 10.
Proof.
  assert (Ho : opens (Hos := psys_os false) s_open /\ took (Hos := psys_os false) s_open 10).
  { split; intros k; simpl; [split; [apply is_fresh|done]|lia]. }
  assert (Hr : forall R (r : R), keeps (Hos := psys_os false) (s_reap r) /\ took (Hos := psys_os false) (s_reap r) 10).
  { intros R r. split; intros k; simpl; [done|lia]. }
  split; simpl; try done; try (intros; by apply Hr).
  - intros kq pid. split; intros k; simpl; [done|lia].
  - intros kq k. split; [done|lia].
  - intros fd k. eexists. split; [done|]. simpl. split; [done|lia].
  - intros d k. split; [done|lia].
  - intros k. split; [lia|by eexists].
  - intros fd ms. split; [intros k; simpl; unfold s_wait; by destruct (_ && _)|]. intros Hms k. by apply s_wait_spends.
  - intros fd ms k Hms. unfold s_wait. destruct ((0 <=? ms) && _) eqn:E; simpl; eexists; (split; [done|]); [lia|done].
Qed.

Lemma child_waits_leak_nothing_witness :
  exists k', patched_os_waitpid (Hos := psys_os false) true true false 10 4 0 (PSys 0 {[0]}) = Some (k', Ret (Some (4, 0))) /\ s_fds k' = {[0]}.
Proof.
  destruct (patched_os_waitpid (Hos := psys_os false) true true false 10 4 0 (PSys 0 {[0]})) as [[k' r]|] eqn:E; [|by vm_compute in E].
  pose proof (child_waits_leak_nothing (Hos := psys_os false) 10 (HL := psys_laws) true false true 10 (PSys 0 {[0]}) k') as (_ & Hw & _).
  specialize (Hw 4 0 r E). exists k'. split; [|exact Hw]. vm_compute in E. congruence.
Defined.

Lemma popen_wait_timed_witness :
  exists k' r, patched_popen_wait (Hos := psys_os false) true false true 400 (Some 4) None (Some 300) (PSys 0 ∅) = Some (k', r) /\
    s_now k' <= 0 + 300 + 1000 + 7 * 10 /\
    ((exists rc k1 k2, s_reap 7 k1 = (k2, Ret (Some rc)) /\ r = Ret rc) \/ (r = Exc TimeoutExpired /\ 0 + 300 <= s_now k')).
Proof.
  exact (popen_wait_timed (Hos := psys_os false) 10 (HL := psys_laws) false true 400 (Some 4) 300 (PSys 0 ∅) ltac:(lia) ltac:(lia)).
Defined.

Lemma popen_timed_wait_ignores_cancel_witness :
  popen_fd_loop (Hos := psys_os true) 5 3 None (PSys 0 ∅) = Some (PSys 10 ∅, Exc wait_cancelled) /\
  popen_fd_loop (Hos := psys_os true) 5 3 (Some 300) (PSys 0 ∅) = popen_fd_loop (Hos := psys_os true) 4 3 (Some 300) (PSys 10 ∅).
Proof.
  exact (popen_timed_wait_ignores_cancel (Hos := psys_os true) 4 3 300 (PSys 0 ∅) (PSys 10 ∅) (PSys 10 ∅) 1 eq_refl eq_refl eq_refl eq_refl eq_refl).
Defined.

Lemma waitpid_prompt_witness :
  exists k' s k1, patched_os_waitpid (Hos := psys_os false) true true false 600 4 0 (PSys 0 ∅) = Some (k', Ret (Some s)) /\
    (exists k2, s_reap (4, 0) k2 = (k1, Ret (Some s))) /\ s_now k' <= Z.max 500 0 + 2 * CAP + 11 * 10.
Proof.
  assert (H1 : forall k, 500 <= s_now k -> exists k' s, s_reap (4, 0) k = (k', Ret (Some s))).
  { intros k Hk. unfold s_reap. destruct (500 <=? s_now k) eqn:E; [eauto|lia]. }
  assert (H2 : forall k, exists x, (s_reap (4, 0) k).2 = Ret x) by (intros k; by eexists).
  assert (H3 : forall fd k, exists k', s_wait false fd EXIT_READ (-1) k = (k', Ret 1) /\ s_now k <= s_now k' <= Z.max 500 (s_now k) + 10).
  { intros fd k. eexists. split; [reflexivity|]. simpl. lia. }
  exact (waitpid_prompt (Hos := psys_os false) 10 (HL := psys_laws) true false 600 4 500 (PSys 0 ∅) H1 H2 H3 ltac:(simpl; lia)).
Defined.
