(* ===== verification/SemLock.v ===== *)
(** * Re-entrant multiprocessing locks between fibers

    Models [_co_recursive_semlock_methods] of [src/src/stackweave/monkey/executors.py]: the [acquire] and
    [release] it gives a [SemLock] of kind [RECURSIVE_MUTEX], under any interleaving of fibers on any
    number of OS threads (hubs), real threads and other processes.  The C object underneath is the
    standard library's: it knows its holder by OS thread ([_is_mine()]) only.

    Two facts about the scheduler are parameters of the runs: whether a fiber can be preempted between
    two bytecodes ([preempt]), and whether suspended fibers move to another hub ([RsMigrate] calls). *)
From S2P Require Import Prelude Fibers Backoff.
Local Open Scope Z_scope.

(** The C [SemLock]: the kernel semaphore is free; [count] and [last_tid]. *)
Record csem := CSem { c_free : bool; c_count : Z; c_tid : option nat }.

(** [ISMINE], [acquire(False)] and [release()] called on OS thread [h]. *)
Definition c_ismine (h : nat) (c : csem) : bool := (0 <? c_count c) && bool_decide (c_tid c = Some h).
Definition c_try (h : nat) (c : csem) : csem * bool :=
  if c_ismine h c then (CSem (c_free c) (c_count c + 1) (c_tid c), true)
  else if c_free c then (CSem false (c_count c + 1) (Some h), true)
  else (c, false).
Definition not_owned : pyexc := AssertionError "attempt to release recursive lock not owned by thread".
Definition c_release (h : nat) (c : csem) : csem * out unit :=
  if negb (c_ismine h c) then (c, Exc not_owned)
  else if 1 <? c_count c then (CSem (c_free c) (c_count c - 1) (c_tid c), Ret tt)
  else (CSem true (c_count c - 1) (c_tid c), Ret tt).

(** The lock of one process.  [rs_owner] and [rs_n] are [state[0]] and [state[1]].  Not read by the code:
    [rs_holder], the thread whose outermost acquire of the C object succeeded and which has not given
    it back; [rs_other]: another process holds the kernel semaphore; [rs_run]: the fiber in the middle
    of a call on each hub; [rs_hub]: where fibers that moved are. *)
Record rsem := RSem {
  rs_c : csem;
  rs_owner : option tid;
  rs_n : Z;
  rs_holder : option tid;
  rs_other : bool;
  rs_run : gmap nat tid;
  rs_hub : gmap tid nat
}.
Definition rset_c c s := RSem c (rs_owner s) (rs_n s) (rs_holder s) (rs_other s) (rs_run s) (rs_hub s).
Definition rset_state o n s := RSem (rs_c s) o n (rs_holder s) (rs_other s) (rs_run s) (rs_hub s).
Definition rset_holder g s := RSem (rs_c s) (rs_owner s) (rs_n s) g (rs_other s) (rs_run s) (rs_hub s).
Definition rset_other b s := RSem (rs_c s) (rs_owner s) (rs_n s) (rs_holder s) b (rs_run s) (rs_hub s).
Definition rset_run m s := RSem (rs_c s) (rs_owner s) (rs_n s) (rs_holder s) (rs_other s) m (rs_hub s).
Definition rset_hub m s := RSem (rs_c s) (rs_owner s) (rs_n s) (rs_holder s) (rs_other s) (rs_run s) m.

Definition rs_new : rsem := RSem (CSem true 0 None) None 0 None false ∅ ∅.

(** The calls; [RsMigrate] is the scheduler moving fiber [f] to hub [h], [RsOther] another process taking
    or posting the kernel semaphore. *)
Inductive rs_op := RsAcquire (block : bool) (timeout : option Z) | RsRelease | RsMigrate (f : tid) (h : nat) | RsOther (post : bool).

Inductive rs_pc :=
  | PEnter                                (** the head of [acquire]: off a fiber, or the owner test *)
  | PBump                                 (** [state[1] += 1] *)
  | PTest (step : Z) (dl : option Z)      (** [state[0] is None] *)
  | PTry (step : Z) (dl : option Z)       (** [semlock.acquire(False)] *)
  | PLate (step : Z) (dl : option Z)      (** the deadline, then the sleep *)
  | POwn                                  (** [state[0] = cur] *)
  | PCount                                (** [state[1] = 1] *)
  | PThread (dl : option Z)               (** a real thread inside the C [acquire] *)
  | PRel                                  (** the head of [release] *)
  | PForeign                              (** not ours: [semlock.release()] *)
  | PDec                                  (** [state[1] -= 1] and the test *)
  | PClear                                (** [state[0] = None] *)
  | PPost                                 (** the final [semlock.release()] *)
  | PEnv.

(** What the calls return; [RsNone d] is None, with the depth that is left (not seen by the code). *)
Inductive rs_val := RsBool (b : bool) | RsNone (d : Z).

Section semlock.
(** The OS thread a thread or a fiber that never moved runs on. *)
Context (hub0 : tid -> nat) (preempt : bool).

Definition hub (s : rsem) (t : tid) : nat := default (hub0 t) (rs_hub s !! t).

Definition rs_deadline (now : Z) (timeout : option Z) : option Z := (λ d, now + d) <$> timeout.

(** [acquire(block, timeout)] *)
Definition rs_acquire (t : tid) (fib : bool) (now : Z) (block : bool) (timeout : option Z) (p : rs_pc) (s : rsem)
  : rsem * action rs_pc rs_val :=
  match p with
  | PEnter =>
      if negb fib then (s, AGoto (PThread (rs_deadline now timeout)))
      else if bool_decide (rs_owner s = Some t) then (s, AGoto PBump)
      else (s, AGoto (PTest STEP0 (rs_deadline now timeout)))
  | PBump => (rset_state (rs_owner s) (rs_n s + 1) s, AReturn (Ret (RsBool true)))
  | PTest step dl =>
      if bool_decide (rs_owner s = None) then (s, AGoto (PTry step dl))
      else if block then (s, AGoto (PLate step dl)) else (s, AReturn (Ret (RsBool false)))
  | PTry step dl =>
      let '(c, ok) := c_try (hub s t) (rs_c s) in
      if ok then (rset_holder (Some t) (rset_c c s), AGoto POwn)
      else if block then (s, AGoto (PLate step dl)) else (s, AReturn (Ret (RsBool false)))
  | PLate step dl =>
      match dl with
      | None => (s, ASleep (now + step) (PTest (bump CAP step) dl))
      | Some d =>
          if d - now <=? 0 then (s, AReturn (Ret (RsBool false)))
          else (s, ASleep (now + Z.min step (d - now)) (PTest (bump CAP step) dl))
      end
  | POwn => (rset_state (Some t) (rs_n s) s, AGoto PCount)
  | PCount => (rset_state (rs_owner s) 1 s, AReturn (Ret (RsBool true)))
  | PThread dl =>
      let '(c, ok) := c_try (hub s t) (rs_c s) in
      if ok then (rset_holder (Some t) (rset_c c s), AReturn (Ret (RsBool true)))
      else if negb block || due dl now then (s, AReturn (Ret (RsBool false)))
      else (s, AGoto (PThread dl))
  | _ => (s, AReturn (Ret (RsBool false)))
  end.

(** [release()] *)
Definition rs_release (t : tid) (p : rs_pc) (s : rsem) : rsem * action rs_pc rs_val :=
  let post :=
    let '(c, r) := c_release (hub s t) (rs_c s) in
    match r with
    | Exc e => (s, AReturn (Exc e))
    | Ret _ =>
        let s1 := rset_c c s in
        (if c_free c then rset_holder None s1 else s1, AReturn (Ret (RsNone (c_count c))))
    end in
  match p with
  | PRel => (s, AGoto (if bool_decide (rs_owner s = Some t) then PDec else PForeign))
  | PForeign => post
  | PDec =>
      let s1 := rset_state (rs_owner s) (rs_n s - 1) s in
      if rs_n s1 =? 0 then (s1, AGoto PClear) else (s1, AReturn (Ret (RsNone (rs_n s1))))
  | PClear => (rset_state None (rs_n s) s, AGoto PPost)
  | PPost => post
  | _ => (s, AReturn (Ret (RsNone 0)))
  end.

(** The scheduler moves a fiber that is not in the middle of a call; another process takes or posts. *)
Definition rs_env (o : rs_op) (s : rsem) : rsem * action rs_pc rs_val :=
  let done := AReturn (Ret (RsNone 0)) in
  match o with
  | RsMigrate f h => (if bool_decide (rs_run s !! hub s f = Some f) then s else rset_hub (<[f := h]> (rs_hub s)) s, done)
  | RsOther false => let c := rs_c s in (if c_free c then rset_other true (rset_c (CSem false (c_count c) (c_tid c)) s) else s, done)
  | RsOther true => let c := rs_c s in (if rs_other s then rset_other false (rset_c (CSem true (c_count c) (c_tid c)) s) else s, done)
  | _ => (s, done)
  end.

Definition rs_entry (o : rs_op) : rs_pc :=
  match o with RsAcquire _ _ => PEnter | RsRelease => PRel | _ => PEnv end.

Definition rs_call (t : tid) (fib : bool) (now : Z) (o : rs_op) (p : rs_pc) (s : rsem) : rsem * action rs_pc rs_val :=
  match o with
  | RsAcquire b to => rs_acquire t fib now b to p s
  | RsRelease => rs_release t p s
  | _ => rs_env o s
  end.

(** Without preemption a hub runs one fiber from its first step to the end of the call or the next
    sleep: another fiber of the hub makes no step in between. *)
Definition busy (t : tid) (s : rsem) : bool :=
  match rs_run s !! hub s t with Some f => negb (bool_decide (f = t)) | None => false end.
Definition mark (h : nat) (t : tid) (a : action rs_pc rs_val) (s : rsem) : rsem :=
  match a with AGoto _ => rset_run (<[h := t]> (rs_run s)) s | _ => rset_run (delete h (rs_run s)) s end.
Definition rs_block (t : tid) (fib : bool) (now : Z) (o : rs_op) (p : rs_pc) (s : rsem) : rsem * action rs_pc rs_val :=
  if fib && negb preempt && busy t s then (s, AGoto p)
  else
    let '(s1, a) := rs_call t fib now o p s in
    (if fib then mark (hub s t) t a s1 else s1, a).

Definition rs_machine : machine rsem rs_op rs_pc rs_val := Machine rs_entry rs_block.

(** ** The discipline of the callers *)

(** The lock was acquired and not given back. *)
Definition rs_holds (c : ctl rs_op rs_pc rs_val) : bool :=
  match c with
  | Fin (RsAcquire _ _) (Ret (RsBool true)) => true
  | Fin RsRelease (Ret (RsNone d)) => 0 <? d
  | _ => false
  end.

(** Only a holder releases; the scheduler and other processes are not callers. *)
Definition rs_env_rest (c : ctl rs_op rs_pc rs_val) : bool :=
  match c with Idle | Fin (RsMigrate _ _) _ | Fin (RsOther _) _ => true | _ => false end.
Definition rs_may (migrates : bool) (isf : tid -> bool) (t : tid) (c : ctl rs_op rs_pc rs_val) (o : rs_op) : bool :=
  match o with
  | RsAcquire _ _ => true
  | RsRelease => rs_holds c
  | RsMigrate f _ => migrates && isf f && negb (isf t) && rs_env_rest c
  | RsOther _ => negb (isf t) && rs_env_rest c
  end.

(** ** Cooperative runs on fixed hubs *)

Section pinned.
Context (isf : tid -> bool).
(** A real thread has an OS thread of its own. *)
Context (own_thread : forall t t', isf t = false -> hub0 t' = hub0 t -> t' = t).

Definition sem_ok (s : rsem) : Prop :=
  rs_hub s = ∅ /\
  match rs_holder s with
  | None => rs_owner s = None /\ c_count (rs_c s) = 0 /\ c_free (rs_c s) = negb (rs_other s)
  | Some f => c_free (rs_c s) = false /\ rs_other s = false /\ c_tid (rs_c s) = Some (hub0 f) /\ 1 <= c_count (rs_c s) /\
      if isf f then c_count (rs_c s) = 1 /\ (rs_owner s = Some f \/ rs_owner s = None /\ rs_run s !! hub0 f = Some f)
      else rs_owner s = None
  end.

(** A holder between two calls; a fiber that holds the lock at [state]; a fiber in the middle of a call. *)
Definition owns (s : rsem) (t : tid) : Prop := rs_owner s = Some t /\ 1 <= rs_n s.
Definition settled (s : rsem) (t : tid) : Prop := rs_holder s = Some t -> isf t = true -> owns s t.
Definition running (s : rsem) (t : tid) : Prop := isf t = true /\ rs_run s !! hub0 t = Some t.

Definition sem_pc (s : rsem) (t : tid) (o : rs_op) (p : rs_pc) : Prop :=
  match o, p with
  | RsAcquire _ _, PEnter => settled s t
  | RsAcquire _ _, PBump => running s t /\ rs_holder s = Some t /\ owns s t
  | RsAcquire _ _, PTest _ _ | RsAcquire _ _, PLate _ _ => isf t = true /\ rs_holder s ≠ Some t
  | RsAcquire _ _, PTry _ _ => running s t /\ rs_holder s ≠ Some t /\ forall f, rs_holder s = Some f -> isf f = true -> hub0 f ≠ hub0 t
  | RsAcquire _ _, POwn => running s t /\ rs_holder s = Some t /\ rs_owner s = None
  | RsAcquire _ _, PCount => running s t /\ rs_holder s = Some t /\ rs_owner s = Some t
  | RsAcquire _ _, PThread _ => isf t = false
  | RsRelease, PRel => rs_holder s = Some t /\ (isf t = true -> owns s t)
  | RsRelease, PForeign => isf t = false /\ rs_holder s = Some t
  | RsRelease, PDec => running s t /\ rs_holder s = Some t /\ owns s t
  | RsRelease, PClear => running s t /\ rs_holder s = Some t /\ rs_owner s = Some t
  | RsRelease, PPost => running s t /\ rs_holder s = Some t /\ rs_owner s = None
  | RsOther _, PEnv => isf t = false /\ rs_holder s ≠ Some t
  | _, _ => False
  end.

Definition sem_local (s : rsem) (t : tid) (c : ctl rs_op rs_pc rs_val) : Prop :=
  match c with
  | Idle => rs_holder s ≠ Some t
  | At o p => sem_pc s t o p
  | Sleeping (RsAcquire b to) _ (PTest step dl) => isf t = true /\ rs_holder s ≠ Some t
  | Fin o (Ret v) => settled s t /\ (rs_holds (Fin o (Ret v)) = true <-> rs_holder s = Some t)
  | _ => False
  end.

(** What a step of [t] may change: its own hub's mark, and the lock if [t] is or becomes its holder. *)
Definition by_thread (t : tid) (s s' : rsem) : Prop := forall t', t' ≠ t ->
  (rs_holder s' = Some t' <-> rs_holder s = Some t') /\
  (rs_holder s = Some t' -> rs_owner s' = rs_owner s /\ rs_n s' = rs_n s) /\
  (running s t' -> running s' t' /\ (isf t = true -> hub0 t' ≠ hub0 t)).

Lemma by_thread_local t s s' t' c : t' ≠ t -> by_thread t s s' -> sem_local s t' c -> sem_local s' t' c.
Proof.
  intros Hne Hb. destruct (Hb t' Hne) as (Hh & Ho & Hr).
  assert (Hown : rs_holder s = Some t' -> owns s t' -> owns s' t').
  { intros H1 [H2 H3]. destruct (Ho H1) as [E1 E2]. split; congruence. }
  assert (Hset : settled s t' -> settled s' t').
  { intros H1 H2 H3. apply Hh in H2. by apply Hown; [|apply H1]. }
  assert (Hn : rs_holder s ≠ Some t' -> rs_holder s' ≠ Some t') by (intros H1 H2; by apply H1, Hh).
  assert (Hto : rs_holder s = Some t' -> rs_holder s' = Some t') by (by intros ?%Hh).
  assert (Ho' : forall x, rs_holder s = Some t' -> rs_owner s = x -> rs_owner s' = x) by (intros x H1 <-; by apply Ho).
  destruct c as [|o p|o dl p|o u p|o l r|o [v|e]]; simpl; [by apply Hn| |done| |done| |done].
  - destruct o as [b to| |f h|b], p; simpl; try done.
    all: try (intros (H1 & H2 & H3); split_and!; [by apply Hr|by apply Hto|by (apply Ho' || apply Hown)]).
    + intros [H1 H2]. by split; [|apply Hn].
    + intros (H1 & H2 & H3). destruct (Hr H1) as [Hr1 Hr2]. split_and!; [done|by apply Hn|]. intros f Hf Hif.
      destruct (decide (f = t)) as [->|Hft]; [by apply not_eq_sym, Hr2|]. apply H3; [by apply (Hb f Hft)|done].
    + intros [H1 H2]. by split; [|apply Hn].
    + intros [H1 H2]. split; [by apply Hto|]. intros Hf. by apply Hown, H2.
    + intros [H1 H2]. by split; [|apply Hto].
    + intros [H1 H2]. by split; [|apply Hn].
  - destruct o as [b to| |f h|b]; try done. destruct p; try done. intros [H1 H2]. by split; [|apply Hn].
  - intros [H1 H2]. split; [by apply Hset|]. by rewrite H2, Hh.
Qed.

(** The mark of a hub on which no other fiber is in the middle of a call. *)
Lemma mark_by h t a s s1 : h = hub0 t -> isf t = true -> busy t s = false -> rs_hub s = ∅ -> rs_run s1 = rs_run s ->
  (forall t', t' ≠ t -> (rs_holder s1 = Some t' <-> rs_holder s = Some t')) ->
  (forall t', t' ≠ t -> rs_holder s = Some t' -> rs_owner s1 = rs_owner s /\ rs_n s1 = rs_n s) ->
  by_thread t s (mark h t a s1).
Proof.
  intros -> Hf Hb Hh Hrun H1 H2 t' Hne.
  assert (Hhub : rs_run s !! hub0 t' = Some t' -> hub0 t' ≠ hub0 t).
  { intros Hr He. unfold busy, hub in Hb. rewrite Hh, lookup_empty in Hb. simpl in Hb. rewrite <- He, Hr in Hb.
    rewrite bool_decide_eq_false_2 in Hb by done. done. }
  split_and!.
  - rewrite <- (H1 t' Hne). by destruct a.
  - intros Hs. destruct (H2 t' Hne Hs). by destruct a.
  - intros [Hf' Hr]. specialize (Hhub Hr). split; [|done]. split; [done|].
    destruct a; simpl; rewrite Hrun; rewrite ?lookup_insert_ne, ?lookup_delete_ne by done; done.
Qed.

(** The lock is in order after a fiber's block. *)
Definition goes (a : action rs_pc rs_val) : Prop := exists p, a = AGoto p.
Lemma mark_ok h t a s s1 : h = hub0 t -> isf t = true -> busy t s = false -> sem_ok s -> rs_run s1 = rs_run s -> rs_hub s1 = rs_hub s ->
  match rs_holder s1 with
  | None => rs_owner s1 = None /\ c_count (rs_c s1) = 0 /\ c_free (rs_c s1) = negb (rs_other s1)
  | Some f =>
      (f ≠ t -> rs_c s1 = rs_c s /\ rs_other s1 = rs_other s /\ rs_owner s1 = rs_owner s /\ rs_holder s = Some f) /\
      (f = t -> c_free (rs_c s1) = false /\ rs_other s1 = false /\ c_tid (rs_c s1) = Some (hub0 t) /\ c_count (rs_c s1) = 1 /\
        (rs_owner s1 = Some t \/ rs_owner s1 = None /\ goes a))
  end -> sem_ok (mark h t a s1).
Proof.
  intros -> Hf Hb [Hh HG] Hrun Hhub. pose proof Hb as Hbusy. unfold busy, hub in Hb. rewrite Hh, lookup_empty in Hb. simpl in Hb.
  assert (Hm : forall f, f ≠ t -> rs_run s !! hub0 f = Some f -> rs_run (mark (hub0 t) t a s1) !! hub0 f = Some f).
  { intros f Hft Hr. assert (Hne : hub0 f ≠ hub0 t). { intros He. rewrite <- He, Hr, bool_decide_eq_false_2 in Hb; done. }
    destruct a; simpl; rewrite Hrun; rewrite ?lookup_insert_ne, ?lookup_delete_ne by done; done. }
  assert (Es : rs_holder (mark (hub0 t) t a s1) = rs_holder s1 /\ rs_owner (mark (hub0 t) t a s1) = rs_owner s1 /\
    rs_c (mark (hub0 t) t a s1) = rs_c s1 /\ rs_other (mark (hub0 t) t a s1) = rs_other s1 /\ rs_hub (mark (hub0 t) t a s1) = ∅) by (rewrite <- Hh, <- Hhub; by destruct a).
  destruct Es as (E1 & E2 & E3 & E4 & E5). intros H1. split; [done|]. rewrite E1, E2, E3, E4.
  destruct (rs_holder s1) as [f|]; [|done]. destruct H1 as [H1 H2]. destruct (decide (f = t)) as [->|Hft].
  - destruct (H2 eq_refl) as (F1 & F2 & F3 & F4 & F5). rewrite Hf. split_and!; [done..|lia|done|].
    destruct F5 as [?|[? [p ->]]]; [by left|right]. split; [done|]. simpl. by rewrite lookup_insert_eq.
  - destruct (H1 Hft) as (F1 & F2 & F3 & F4). rewrite F1, F2, F3. rewrite F4 in HG. destruct HG as (G1 & G2 & G3 & G4 & G5).
    split_and!; [done..|]. destruct (isf f); [|done]. destruct G5 as [? [?|[? ?]]]; (split; [done|]); [by left|right]. split; [done|by apply Hm].
Qed.

(** A block of a fiber that leaves the lock alone. *)
Lemma mark_same h t a s : h = hub0 t -> isf t = true -> busy t s = false -> sem_ok s -> (rs_holder s = Some t -> rs_owner s = Some t) ->
  sem_ok (mark h t a s) /\ by_thread t s (mark h t a s).
Proof.
  intros Hh Hf Hb Hok Ho. split; [|by apply mark_by; try done; apply Hok].
  apply (mark_ok h t a s s); try done. destruct Hok as [_ HG].
  destruct (rs_holder s) as [f|] eqn:E; [|done]. split; [done|]. intros ->. rewrite Hf in HG. specialize (Ho eq_refl).
  destruct HG as (G1 & G2 & G3 & G4 & G5 & G6). split_and!; try done. by left.
Qed.

(** What the C object says to a fiber that does not hold it, with no holder on its hub. *)
Lemma c_try_fiber t s c ok : sem_ok s -> isf t = true -> rs_holder s ≠ Some t ->
  (forall f, rs_holder s = Some f -> isf f = true -> hub0 f ≠ hub0 t) -> c_try (hub0 t) (rs_c s) = (c, ok) ->
  if ok then rs_holder s = None /\ rs_owner s = None /\ rs_other s = false /\ c = CSem false 1 (Some (hub0 t)) else c = rs_c s.
Proof.
  intros [_ HG] Hf Hn Hhub H1. unfold c_try in H1.
  assert (Hmine : c_ismine (hub0 t) (rs_c s) = false).
  { unfold c_ismine. destruct (rs_holder s) as [f|] eqn:Eh; [|destruct HG as (_ & -> & _); done].
    destruct HG as (G1 & G2 & -> & G4 & G5). apply andb_false_iff. right. apply bool_decide_eq_false. intros [= He].
    destruct (isf f) eqn:Ef; [by destruct (Hhub f eq_refl Ef)|].
    assert (t = f) by (apply own_thread; done). congruence. }
  rewrite Hmine in H1. destruct (c_free (rs_c s)) eqn:Efr; simplify_eq; [|done].
  destruct (rs_holder s) as [f|]; [destruct HG; congruence|]. destruct HG as (G1 & -> & G3). split_and!; try done. by destruct (rs_other s).
Qed.

Lemma mark_fields h t a s : rs_holder (mark h t a s) = rs_holder s /\ rs_owner (mark h t a s) = rs_owner s /\
  rs_n (mark h t a s) = rs_n s /\ rs_c (mark h t a s) = rs_c s.
Proof. by destruct a. Qed.

Lemma hub_fixed s t : sem_ok s -> hub s t = hub0 t.
Proof. intros [Hh _]. unfold hub. by rewrite Hh, lookup_empty. Qed.

(** What a thread says of itself needs only the lock and, in the middle of a call, its mark. *)
Lemma mark_goto_pc t o p s : isf t = true ->
  sem_pc (rset_run (<[hub0 t := t]> (rs_run s)) s) t o p -> sem_local (mark (hub0 t) t (AGoto p) s) t (act_ctl o (AGoto p)).
Proof. done. Qed.
Lemma mark_running t p s : isf t = true -> running (mark (hub0 t) t (AGoto p) s) t.
Proof. intros Hf. split; [done|]. simpl. by rewrite lookup_insert_eq. Qed.

Definition good_step (t : tid) (o : rs_op) (s s' : rsem) (a : action rs_pc rs_val) : Prop :=
  sem_ok s' /\ sem_local s' t (act_ctl o a) /\ by_thread t s s'.

(** A block that leaves the lock alone and goes on to, or ends in, a state that fits. *)
Lemma same_good t o a s : isf t = true -> busy t s = false -> sem_ok s -> (rs_holder s = Some t -> rs_owner s = Some t) ->
  sem_local (mark (hub0 t) t a s) t (act_ctl o a) -> good_step t o s (mark (hub0 t) t a s) a.
Proof. intros Hf Hb Hok Ho Hl. destruct (mark_same (hub0 t) t a s eq_refl Hf Hb Hok Ho). by split_and!. Qed.

(** A block of the holder, or of one that becomes it. *)
Lemma own_good t o a s s1 : isf t = true -> busy t s = false -> sem_ok s -> rs_run s1 = rs_run s -> rs_hub s1 = rs_hub s ->
  rs_holder s1 = Some t -> rs_holder s = None \/ rs_holder s = Some t ->
  c_free (rs_c s1) = false -> rs_other s1 = false -> c_tid (rs_c s1) = Some (hub0 t) -> c_count (rs_c s1) = 1 ->
  rs_owner s1 = Some t \/ rs_owner s1 = None /\ goes a ->
  sem_local (mark (hub0 t) t a s1) t (act_ctl o a) -> good_step t o s (mark (hub0 t) t a s1) a.
Proof.
  intros Hf Hb Hok Hr Hh H1 H2 G1 G2 G3 G4 G5 Hl. split_and!; [|done|].
  - apply (mark_ok (hub0 t) t a s s1); try done. rewrite H1. by split.
  - apply mark_by; try done; [apply Hok|..].
    + intros t' Hne. rewrite H1. split; [congruence|]. intros H3. destruct H2; congruence.
    + intros t' Hne H3. destruct H2; congruence.
Qed.

(** The lock as its fiber finds it. *)
Lemma held_by_fiber t s : sem_ok s -> isf t = true -> rs_holder s = Some t ->
  c_free (rs_c s) = false /\ rs_other s = false /\ c_tid (rs_c s) = Some (hub0 t) /\ c_count (rs_c s) = 1.
Proof. intros [_ HG] Hf Hh. rewrite Hh, Hf in HG. by destruct HG as (? & ? & ? & ? & ? & ?). Qed.

(** Put a block's result in its place. *)
Local Ltac got H := cbv iota in H; injection H as <- <-.

Lemma acquire_fiber_ok t now b to p s s1 a :
  isf t = true -> busy t s = false -> sem_ok s -> sem_pc s t (RsAcquire b to) p ->
  rs_acquire t true now b to p s = (s1, a) -> good_step t (RsAcquire b to) s (mark (hub0 t) t a s1) a.
Proof.
  intros Hf Hb Hok Hl H1. pose proof (hub_fixed s t Hok) as Hhub.
  destruct p as [| |step dl|step dl|step dl| | |dl| | | | | |]; simpl in Hl, H1; try done; rewrite ?Hhub in H1.
  - case_bool_decide as Eo; got H1.
    + destruct (decide (rs_holder s = Some t)) as [Eh|Eh].
      * destruct (Hl Eh Hf) as [? ?]. apply same_good; try done. split_and!; [by apply mark_running|done|by split].
      * exfalso. destruct Hok as [_ HG]. destruct (rs_holder s) as [f|]; [|by destruct HG as (? & _); congruence].
        destruct HG as (_ & _ & _ & _ & HG). destruct (isf f); [destruct HG as [_ [?|[? _]]]|]; congruence.
    + assert (Eh : rs_holder s ≠ Some t) by (intros Eh; by destruct (Hl Eh Hf)). by apply same_good.
  - destruct Hl as (_ & Eh & Eo & En). got H1. destruct (held_by_fiber t s Hok Hf Eh) as (? & ? & ? & ?).
    apply own_good; try done; [by right|by left|]. split; [|done]. intros _ _. split; simpl; [done|lia].
  - destruct Hl as [_ Eh]. case_bool_decide as Eo; [|destruct b]; got H1; (apply same_good; [done..|]); [|by split|].
    + split_and!; [by apply mark_running|done|]. intros f Ef Hff He. simpl in Ef. pose proof Hok as [Hh HG]. rewrite Ef, Hff in HG.
      destruct HG as (_ & _ & _ & _ & _ & [?|[_ Hr]]); [congruence|]. rewrite He in Hr. unfold busy in Hb. rewrite Hhub, Hr in Hb.
      rewrite bool_decide_eq_false_2 in Hb; [done|congruence].
    + split; [done|]. split; [intros [=]|intros Hx; by destruct (Eh Hx)].
  - destruct Hl as (Hrun & Eh & Hhubs). destruct (c_try (hub0 t) (rs_c s)) as [c ok] eqn:Et.
    apply c_try_fiber in Et; try done. destruct ok; [|subst c; destruct b]; got H1.
    + destruct Et as (E1 & E2 & E3 & ->). apply own_good; try done; [by left|right; split; [done|by eexists]|].
      split_and!; [by apply mark_running|done|done].
    + by apply same_good.
    + by apply same_good.
  - destruct Hl as [_ Eh]. destruct dl as [d|]; [destruct (d - now <=? 0)|]; got H1; (apply same_good; [done..|]); [|by split|by split].
    split; [done|]. split; [intros [=]|intros Hx; by destruct (Eh Hx)].
  - destruct Hl as (_ & Eh & Eo). got H1. destruct (held_by_fiber t s Hok Hf Eh) as (? & ? & ? & ?).
    apply own_good; try done; [by right|by left|]. split_and!; [by apply mark_running|done|done].
  - destruct Hl as (_ & Eh & Eo). got H1. destruct (held_by_fiber t s Hok Hf Eh) as (? & ? & ? & ?).
    apply own_good; try done; [by right|by left].
  - congruence.
Qed.

(** [semlock.release()] on the OS thread of the holder. *)
Lemma c_release_mine t s : sem_ok s -> rs_holder s = Some t ->
  c_release (hub0 t) (rs_c s) = (CSem (negb (1 <? c_count (rs_c s))) (c_count (rs_c s) - 1) (c_tid (rs_c s)), Ret tt).
Proof.
  intros [_ HG] Eh. rewrite Eh in HG. destruct HG as (G1 & G2 & G3 & G4 & _). unfold c_release, c_ismine.
  rewrite G3, bool_decide_eq_true_2 by done. destruct (0 <? c_count (rs_c s)) eqn:E; [|lia]. simpl. rewrite G1. by destruct (1 <? c_count (rs_c s)).
Qed.

Lemma release_fiber_ok t p s s1 a :
  isf t = true -> busy t s = false -> sem_ok s -> sem_pc s t RsRelease p ->
  rs_release t p s = (s1, a) -> good_step t RsRelease s (mark (hub0 t) t a s1) a.
Proof.
  intros Hf Hb Hok Hl H1. pose proof (hub_fixed s t Hok) as Hhub. unfold rs_release in H1. rewrite Hhub in H1.
  destruct p as [| |step dl|step dl|step dl| | |dl| | | | | |]; simpl in Hl; try done.
  - destruct Hl as [Eh Ho]. destruct (Ho Hf) as [Eo En]. rewrite bool_decide_eq_true_2 in H1 by done. got H1.
    apply same_good; try done. split_and!; [by apply mark_running|done|by split].
  - destruct Hl; congruence.
  - destruct Hl as (_ & Eh & Eo & En). destruct (held_by_fiber t s Hok Hf Eh) as (? & ? & ? & ?).
    destruct (rs_n (rset_state (rs_owner s) (rs_n s - 1) s) =? 0) eqn:E0; simpl in E0; got H1; (apply own_good; [done..|by right|done|done|done|done|by left|]).
    + split_and!; [by apply mark_running|done|done].
    + split; [intros _ _; split; simpl; [done|lia]|]. simpl. split; [done|intros _; lia].
  - destruct Hl as (_ & Eh & Eo). got H1. destruct (held_by_fiber t s Hok Hf Eh) as (? & ? & ? & ?).
    apply own_good; try done; [by right|right; split; [done|by eexists]|]. split_and!; [by apply mark_running|done|done].
  - destruct Hl as (_ & Eh & Eo). destruct (held_by_fiber t s Hok Hf Eh) as (G1 & G2 & G3 & G4).
    rewrite (c_release_mine t s Hok Eh), G4 in H1. simpl in H1. got H1. split_and!.
    + apply (mark_ok (hub0 t) t _ s); try done. simpl. by rewrite G2.
    + simpl. split; [intros [=]|]. by split; intros [=].
    + apply mark_by; try done; try apply Hok; intros t' Hne; simpl; rewrite Eh; (split; congruence) || congruence.
Qed.

(** Real threads: their OS thread is nobody else's. *)
Lemma thread_by t s s' : isf t = false -> rs_run s' = rs_run s ->
  (forall t', t' ≠ t -> (rs_holder s' = Some t' <-> rs_holder s = Some t') /\ (rs_holder s = Some t' -> rs_owner s' = rs_owner s /\ rs_n s' = rs_n s)) ->
  by_thread t s s'.
Proof.
  intros Hf Hr H1 t' Hne. destruct (H1 t' Hne) as [H2 H3]. split_and!; [done|done|]. unfold running. rewrite Hr. intros ?. split; [done|congruence].
Qed.

Lemma thread_good t o a s s1 : isf t = false -> sem_ok s -> rs_run s1 = rs_run s -> rs_hub s1 = rs_hub s -> rs_owner s1 = rs_owner s -> rs_n s1 = rs_n s ->
  rs_holder s = None \/ rs_holder s = Some t ->
  match rs_holder s1 with
  | None => c_count (rs_c s1) = 0 /\ c_free (rs_c s1) = negb (rs_other s1)
  | Some f => f = t /\ c_free (rs_c s1) = false /\ rs_other s1 = false /\ c_tid (rs_c s1) = Some (hub0 t) /\ 1 <= c_count (rs_c s1)
  end -> sem_local s1 t (act_ctl o a) -> good_step t o s s1 a.
Proof.
  intros Hf [Hh HG] Hr Hhub Ho Hn Hs H1 Hl. split_and!; [|done|].
  - split; [congruence|]. rewrite Ho. assert (rs_owner s = None) as ->.
    { destruct Hs as [E|E]; rewrite E in HG; [apply HG|]. rewrite Hf in HG. apply HG. }
    destruct (rs_holder s1) as [f|]; [|done]. destruct H1 as (-> & ? & ? & ? & ?). by rewrite Hf.
  - apply thread_by; try done. intros t' Hne. split; [|done]. destruct (rs_holder s1) as [f|]; [destruct H1 as [-> _]|]; destruct Hs as [-> | ->]; split; congruence.
Qed.

Lemma thread_same t o a s : isf t = false -> sem_ok s -> sem_local s t (act_ctl o a) -> good_step t o s s a.
Proof. intros Hf Hok Hl. split_and!; [done|done|by apply thread_by]. Qed.

(** What the C object says to a real thread. *)
Lemma c_try_thread t s c ok : sem_ok s -> isf t = false -> c_try (hub0 t) (rs_c s) = (c, ok) ->
  if ok then (rs_holder s = None \/ rs_holder s = Some t) /\ rs_other s = false /\ c_free c = false /\ c_tid c = Some (hub0 t) /\ 1 <= c_count c else c = rs_c s /\ rs_holder s ≠ Some t.
Proof.
  intros [_ HG] Hf H1. unfold c_try in H1. destruct (c_ismine (hub0 t) (rs_c s)) eqn:Em.
  - unfold c_ismine in Em. apply andb_true_iff in Em as [E1 E2]. apply bool_decide_eq_true in E2. got H1. simpl.
    destruct (rs_holder s) as [f|]; [|destruct HG as (_ & G & _); lia]. destruct HG as (G1 & G2 & G3 & G4 & _).
    assert (f = t) as -> by (apply own_thread; [done|congruence]). split_and!; [by right|done|done|done|lia].
  - destruct (c_free (rs_c s)) eqn:Ef; got H1; [|split; [done|]; intros Eh; rewrite Eh in HG; destruct HG as (_ & _ & G3 & G4 & _); unfold c_ismine in Em;
      rewrite G3, bool_decide_eq_true_2 in Em by done; apply andb_false_iff in Em as [?|?]; [lia|done]]. destruct (rs_holder s) as [f|]; [destruct HG; congruence|].
    destruct HG as (_ & -> & G). simpl. split_and!; [by left|by destruct (rs_other s)|done..].
Qed.

Lemma acquire_thread_ok t now b to p s s1 a :
  isf t = false -> sem_ok s -> sem_pc s t (RsAcquire b to) p -> rs_acquire t false now b to p s = (s1, a) -> good_step t (RsAcquire b to) s s1 a.
Proof.
  intros Hf Hok Hl H1. pose proof (hub_fixed s t Hok) as Hhub.
  destruct p as [| |step dl|step dl|step dl| | |dl| | | | | |]; simpl in Hl, H1; try done; rewrite ?Hhub in H1;
    try (unfold running in Hl; by (destruct Hl; congruence) || by (destruct Hl as [[] _]; congruence)).
  - got H1. by apply thread_same.
  - destruct (c_try (hub0 t) (rs_c s)) as [c ok] eqn:Et. apply c_try_thread in Et; try done. destruct ok.
    + got H1. destruct Et as (E1 & E2 & E3 & E4 & E5). apply thread_good; try done. split; [|done]. intros _. congruence.
    + destruct (negb b || due dl now); got H1; apply thread_same; try done. split; [intros _; congruence|]. split; [intros [=]|]. by intros Hx; destruct (proj2 Et Hx).
Qed.

Lemma release_thread_ok t p s s1 a :
  isf t = false -> sem_ok s -> sem_pc s t RsRelease p -> rs_release t p s = (s1, a) -> good_step t RsRelease s s1 a.
Proof.
  intros Hf Hok Hl H1. pose proof (hub_fixed s t Hok) as Hhub. unfold rs_release in H1. rewrite Hhub in H1.
  destruct p as [| |step dl|step dl|step dl| | |dl| | | | | |]; simpl in Hl; try done; try (destruct Hl as [[] _]; congruence).
  - destruct Hl as [Eh _]. assert (rs_owner s = None) as Eo by (destruct Hok as [_ HG]; rewrite Eh, Hf in HG; apply HG).
    rewrite Eo in H1. rewrite bool_decide_eq_false_2 in H1 by done. got H1. by apply thread_same.
  - destruct Hl as [_ Eh]. rewrite (c_release_mine t s Hok Eh) in H1. pose proof Hok as [_ HG]. rewrite Eh in HG. destruct HG as (G1 & G2 & G3 & G4 & _).
    destruct (1 <? c_count (rs_c s)) eqn:E1; simpl in H1; got H1; apply thread_good; try done; try by right.
    + simpl. rewrite Eh. split_and!; try done. lia.
    + split; [intros _; congruence|]. simpl. rewrite Eh. split; [done|]. intros _. lia.
    + simpl. split; [lia|by rewrite G2].
    + split; [intros _; congruence|]. simpl. split; [lia|done].
Qed.

Lemma env_ok t b s s1 a : isf t = false -> rs_holder s ≠ Some t -> sem_ok s -> rs_env (RsOther b) s = (s1, a) -> good_step t (RsOther b) s s1 a.
Proof.
  intros Hf Hne Hok H1. pose proof Hok as [Hh HG].
  assert (Hfin : forall x, rs_holder x ≠ Some t -> sem_local x t (Fin (RsOther b) (Ret (RsNone 0)))) by (intros x Hx; split; [intros _; congruence|by split]).
  simpl in H1. destruct b; got H1.
  - destruct (rs_other s) eqn:Eo; [|by apply thread_same]. destruct (rs_holder s) as [f|] eqn:Eh; [destruct HG as (_ & ? & _); congruence|].
    split_and!; [|apply Hfin; simpl; by rewrite Eh|by apply thread_by]. split; [done|]. simpl. rewrite Eh. destruct HG as (? & ? & ?). done.
  - destruct (c_free (rs_c s)) eqn:Ef; [|by apply thread_same]. destruct (rs_holder s) as [f|] eqn:Eh; [destruct HG as (? & _); congruence|].
    split_and!; [|apply Hfin; simpl; by rewrite Eh|by apply thread_by]. split; [done|]. simpl. rewrite Eh. destruct HG as (? & ? & ?). done.
Qed.

Lemma block_good t now o p s s' a : preempt = false -> sem_ok s -> sem_pc s t o p ->
  rs_block t (isf t) now o p s = (s', a) ->
  sem_ok s' /\ sem_local s' t (act_ctl o a) /\ forall t' c, t' ≠ t -> sem_local s t' c -> sem_local s' t' c.
Proof.
  intros Hp Hok Hl H1.
  assert (Hgood : (s' = s /\ a = AGoto p) \/ good_step t o s s' a).
  { unfold rs_block in H1. rewrite Hp in H1. destruct (isf t) eqn:Hf; simpl in H1.
    - destruct (busy t s) eqn:Hb; [left; by injection H1 as <- <-|right].
      destruct (rs_call t true now o p s) as [s1 a1] eqn:Ec. injection H1 as <- <-. rewrite (hub_fixed s t Hok).
      destruct o as [b to| |f h|b]; simpl in Ec; [by eapply acquire_fiber_ok|by eapply release_fiber_ok| |]; destruct p; simpl in Hl; done || (destruct Hl; congruence).
    - right. destruct (rs_call t false now o p s) as [s1 a1] eqn:Ec. injection H1 as <- <-.
      destruct o as [b to| |f h|b]; simpl in Ec; [by eapply acquire_thread_ok|by eapply release_thread_ok|by destruct p|].
      destruct p; try done. destruct Hl. by apply env_ok. }
  destruct Hgood as [[-> ->]|(G1 & G2 & G3)]; [done|]. split_and!; [done|done|]. intros t' c Hne. by apply by_thread_local with t.
Qed.

(** ** What callers get *)

Abbreviation rs_reach := (reach rs_machine isf (rs_may false isf) rs_new).

Lemma rs_quiet : quiet_moves rs_machine (rs_may false isf) sem_ok sem_local (λ _, 0).
Proof.
  split; try done.
  - intros s t c o Hr Hm Hok Hl. split; [|done].
    assert (Hset : settled s t).
    { destruct c as [|? ?|? ? ?|? ? ?|? ? ?|? [v|e]]; simpl in Hr, Hl; try done; apply Hl. }
    destruct o as [b to| |f h|b]; simpl in *; [done| |done|].
    + assert (Hh : rs_holder s = Some t); [|split; [done|by apply Hset]].
      destruct c as [|? ?|? ? ?|? ? ?|? ? ?|o [v|e]]; try done; simpl in Hl. by apply Hl.
    + apply andb_true_iff in Hm as [Hm1%negb_true_iff Hm2]. split; [done|].
      destruct c as [|? ?|? ? ?|? ? ?|? ? ?|o [v|e]]; try done; simpl in Hl. destruct Hl as [_ Hl]. intros Hx%Hl. by destruct o.
  - intros s t o u p Hl. simpl in *. destruct o; try done. by destruct p.
Qed.

Lemma rs_inv w : preempt = false -> rs_reach w -> og_inv sem_ok sem_local (λ _, 0) (λ _, 0) w.
Proof.
  intros Hp. pose proof rs_quiet as Hq. apply (og_reach rs_machine isf (rs_may false isf) sem_ok sem_local (λ _, 0) (λ _, 0)); [by split|by intros t ?|done|].
  intros t now o p s s' a Hok Hl Hb. simpl in Hl.
  destruct (block_good t now o p s s' a Hp Hok Hl Hb) as (? & ? & ?). by split_and!.
Qed.

(** C38. Mutual exclusion.  Without preemption, and with fibers that stay on their hubs, at most one fiber or
    thread of the process holds the lock, and none while another process does; a holder's [release]
    never fails. *)
Theorem recsem_exclusion w : preempt = false -> rs_reach w ->
  (forall t1 t2, rs_holds (ctl_of w t1) = true -> rs_holds (ctl_of w t2) = true -> t1 = t2) /\
  (forall t, rs_holds (ctl_of w t) = true -> rs_other (w_obj w) = false /\ c_free (rs_c (w_obj w)) = false) /\
  (forall t e, ctl_of w t ≠ Fin RsRelease (Exc e)).
Proof.
  intros Hp Hr. destruct (rs_inv w Hp Hr) as (HG & HL & _).
  assert (Hh : forall t, rs_holds (ctl_of w t) = true -> rs_holder (w_obj w) = Some t).
  { intros t H1. pose proof (HL t) as Hl. destruct (ctl_of w t) as [|? ?|? ? ?|? ? ?|? ? ?|o [v|e]]; try done; simpl in Hl. by apply Hl. }
  split_and!.
  - intros t1 t2 H1%Hh H2%Hh. congruence.
  - intros t H1%Hh. destruct HG as [_ HG]. rewrite H1 in HG. by destruct HG as (? & ? & _).
  - intros t e H1. pose proof (HL t) as Hl. by rewrite H1 in Hl.
Qed.

(** The lock is given back: when every thread is between two calls and none holds the lock, its state is
    the initial one, and the kernel semaphore is free unless another process has it. *)
Theorem recsem_released w : preempt = false -> rs_reach w ->
  (forall t, at_rest (ctl_of w t) = true /\ rs_holds (ctl_of w t) = false) ->
  rs_owner (w_obj w) = None /\ c_count (rs_c (w_obj w)) = 0 /\ c_free (rs_c (w_obj w)) = negb (rs_other (w_obj w)).
Proof.
  intros Hp Hr Hrest. destruct (rs_inv w Hp Hr) as ([_ HG] & HL & _).
  destruct (rs_holder (w_obj w)) as [f|] eqn:Eh; [|done]. exfalso. pose proof (HL f) as Hl. destruct (Hrest f) as [H1 H2].
  destruct (ctl_of w f) as [|? ?|? ? ?|? ? ?|? ? ?|o [v|e]]; try done; simpl in Hl. destruct Hl as [_ Hl]. apply Hl in Eh. simpl in H2. congruence.
Qed.
End pinned.
End semlock.

(** ** Concrete runs

    Threads below 10 are fibers on two hubs, the others real threads. *)
Definition ex_fiber (t : tid) : bool := (t <? 10)%nat.
Definition ex_hub (t : tid) : nat := if ex_fiber t then (t mod 2)%nat else t.

Lemma ex_own_thread t t' : ex_fiber t = false -> ex_hub t' = ex_hub t -> t' = t.
Proof.
  unfold ex_hub. intros H1. rewrite H1. destruct (ex_fiber t') eqn:E; [|done]. intros H2.
  unfold ex_fiber in H1. apply Nat.ltb_ge in H1. pose proof (Nat.mod_upper_bound t' 2 ltac:(lia)). lia.
Qed.

(** [n] steps of one thread. *)
Definition steps (t : tid) (n : nat) : list (event rs_op) := replicate n (EStep t).

(** Fiber 1 acquires twice; fiber 3 of its hub and thread 12 fail without blocking, another process fails. *)
Definition ex_contention : list (event rs_op) :=
  [ECall 1%nat (RsAcquire true None)] ++ steps 1 5 ++ [ECall 1%nat (RsAcquire true None)] ++ steps 1 2 ++
  [ECall 3%nat (RsAcquire false None)] ++ steps 3 2 ++ [ECall 12%nat (RsAcquire false None)] ++ steps 12 2 ++
  [ECall 20%nat (RsOther false)] ++ steps 20 1.

Lemma recsem_exclusion_witness :
  let w := after (rs_machine ex_hub false) ex_fiber (rs_may false ex_fiber) rs_new ex_contention in
  rs_holds (ctl_of w 1%nat) = true /\ rs_n (w_obj w) = 2 /\ rs_other (w_obj w) = false /\ rs_holds (ctl_of w 3%nat) = false /\ rs_holds (ctl_of w 12%nat) = false.
Proof.
  intros w. assert (H1 : rs_holds (ctl_of w 1%nat) = true) by (vm_compute; reflexivity).
  pose proof (recsem_exclusion ex_hub false ex_fiber ex_own_thread w eq_refl (after_reach _ _ _ _ _)) as (Hx & Ho & _).
  split; [exact H1|]. split; [vm_compute; reflexivity|]. split; [exact (proj1 (Ho 1%nat H1))|].
  split; apply not_true_is_false; intros H2; discriminate (Hx _ _ H1 H2).
Defined.

Definition ex_handed_back : list (event rs_op) :=
  ex_contention ++ [ECall 1%nat RsRelease] ++ steps 1 2 ++ [ECall 1%nat RsRelease] ++ steps 1 4.

Lemma all_released (w : world rsem rs_op rs_pc rs_val) : map_Forall (λ _ c, at_rest c = true /\ rs_holds c = false) (w_ctl w) ->
  forall t, at_rest (ctl_of w t) = true /\ rs_holds (ctl_of w t) = false.
Proof. intros Hm t. unfold ctl_of. destruct (w_ctl w !! t) as [c|] eqn:E; simpl; [exact (Hm t c E)|done]. Qed.

Lemma recsem_released_witness :
  let w := after (rs_machine ex_hub false) ex_fiber (rs_may false ex_fiber) rs_new ex_handed_back in
  (forall t, at_rest (ctl_of w t) = true /\ rs_holds (ctl_of w t) = false) /\ rs_owner (w_obj w) = None /\ c_free (rs_c (w_obj w)) = negb (rs_other (w_obj w)).
Proof.
  intros w.
  assert (Hc : forall t, at_rest (ctl_of w t) = true /\ rs_holds (ctl_of w t) = false).
  { apply all_released. apply (bool_decide_unpack _). vm_compute. exact I. }
  split; [exact Hc|].
  pose proof (recsem_released ex_hub false ex_fiber ex_own_thread w eq_refl (after_reach _ _ _ _ _) Hc) as (H1 & _ & H2). by split.
Defined.

(** With preemption two fibers of one hub can hold the lock at once: fiber 1 is preempted between the C
    acquire and [state[0] = cur] (lines 350-351), and the C object takes fiber 3 for its holder. *)
Definition ex_preempted : list (event rs_op) :=
  [ECall 1%nat (RsAcquire true None)] ++ steps 1 3 ++ [ECall 3%nat (RsAcquire true None)] ++ steps 3 5 ++ steps 1 2.
Theorem recsem_preempted_double_entry : exists w,
  reach (rs_machine ex_hub true) ex_fiber (rs_may false ex_fiber) rs_new w /\
  rs_holds (ctl_of w 1%nat) = true /\ rs_holds (ctl_of w 3%nat) = true.
Proof.
  exists (after (rs_machine ex_hub true) ex_fiber (rs_may false ex_fiber) rs_new ex_preempted).
  split; [apply after_reach|]. split; vm_compute; reflexivity.
Qed.

(** A holder that was moved to another hub cannot release: the C object raises AssertionError after
    [state[0]] was cleared (lines 375-377).  Nobody holds the lock, and a fiber of the other hub does not
    get it. *)
Definition ex_moved : list (event rs_op) :=
  [ECall 1%nat (RsAcquire true None)] ++ steps 1 5 ++ [ECall 20%nat (RsMigrate 1%nat 0%nat)] ++ steps 20 1 ++
  [ECall 1%nat RsRelease] ++ steps 1 4 ++ [ECall 2%nat (RsAcquire false None)] ++ steps 2 3.
Theorem recsem_moved_holder_stuck : exists w,
  reach (rs_machine ex_hub false) ex_fiber (rs_may true ex_fiber) rs_new w /\
  ctl_of w 1%nat = Fin RsRelease (Exc not_owned) /\ rs_owner (w_obj w) = None /\ rs_other (w_obj w) = false /\
  c_free (rs_c (w_obj w)) = false /\ ctl_of w 2%nat = Fin (RsAcquire false None) (Ret (RsBool false)).
Proof.
  exists (after (rs_machine ex_hub false) ex_fiber (rs_may true ex_fiber) rs_new ex_moved).
  split; [apply after_reach|]. split_and!; vm_compute; reflexivity.
Qed.
