(* ===== verification/Tls.v ===== *)
(** * TLS over memory buffers

    Models [_MemoryBIOTLS] of [src/src/stackweave/aio/tls_bio.py]: an [SSLObject] between two memory
    buffers, and the loops that move ciphertext between the buffers and the raw socket.  The engine
    (OpenSSL) is the class [SslObject], the socket and the poller the class [TlsNet]; times are
    microseconds.  One fiber uses the object, as the transports do.  Loops take fuel; [None] is a loop
    that still runs. *)
From S2P Require Import Prelude Protocol.
Local Open Scope Z_scope.

(** How a call of the [SSLObject] ends. *)
Inductive ssl_out (A : Type) := SslOk (a : A) | SslWantRead | SslWantWrite | SslZeroReturn | SslEof | SslError.
Arguments SslOk {A} a.
Arguments SslWantRead {A}.
Arguments SslWantWrite {A}.
Arguments SslZeroReturn {A}.
Arguments SslEof {A}.
Arguments SslError {A}.

(** A call: the engine and the incoming buffer before; the engine, the incoming buffer after, what was
    added to the outgoing buffer, and the result. *)
Definition ssl_op (E A : Type) : Type := E -> bytes -> E * bytes * bytes * ssl_out A.
Class SslObject (E : Type) := {
  ssl_do_handshake : ssl_op E unit;
  ssl_read : nat -> ssl_op E bytes;
  ssl_write : bytes -> ssl_op E nat;
  ssl_unwrap : ssl_op E unit;
  ssl_pending : E -> nat
}.

(** How [_wait_fd] ends: it returns, it raises [asyncio.CancelledError] (which is not an [Exception]), or
    another exception. *)
Inductive twait := TReady | TCancelled | TFailed.

(** The raw socket; [tn_wire] is what the kernel accepted for sending, and [tn_broken] whether, so far, a
    [send] failed or a wait to send failed or was cancelled.  The code reads neither. *)
Class TlsNet (K : Type) := {
  tn_now : K -> Z;
  tn_recv : nat -> K -> K * tread;
  tn_send : bytes -> K -> K * sres;
  tn_wait : bool -> option Z -> K -> K * twait;
  tn_close : K -> K;
  tn_wire : K -> bytes;
  tn_broken : K -> bool
}.

Definition reset_handshake : pyexc := ConnectionReset "Connection lost during TLS handshake".
Definition reset_send : pyexc := ConnectionReset "Connection lost".
Definition handshake_late : pyexc := ConnectionAborted "SSL handshake is taking longer".
Definition ssl_error : pyexc := OSError "ssl error".
Definition tls_closed : pyexc := OSError "TLS socket closed".
Definition cancelled_error : pyexc := CancelledError None.

Section tls.
Context {E K : Type} `{Hssl : !SslObject E} `{Hnet : !TlsNet K}.

(** [_obj], [_inc], [_out], [_closed], [_peer_close_notify], [_eof_in] and the raw socket. *)
Record tls := Tls { t_eng : E; t_inc : bytes; t_out : bytes; t_closed : bool; t_pcn : bool; t_eof : bool; t_raw : K }.

Definition tset_raw k s := Tls (t_eng s) (t_inc s) (t_out s) (t_closed s) (t_pcn s) (t_eof s) k.
Definition tset_out o s := Tls (t_eng s) (t_inc s) o (t_closed s) (t_pcn s) (t_eof s) (t_raw s).
Definition tset_inc i s := Tls (t_eng s) i (t_out s) (t_closed s) (t_pcn s) (t_eof s) (t_raw s).
Definition tset_pcn s := Tls (t_eng s) (t_inc s) (t_out s) (t_closed s) true (t_eof s) (t_raw s).
Definition tset_eof s := Tls (t_eng s) (t_inc s) (t_out s) (t_closed s) (t_pcn s) true (t_raw s).

(** [__init__]: the peer's bytes that were already read seed the incoming buffer. *)
Definition tls_init (eng : E) (incoming_data : bytes) (raw : K) : tls := Tls eng incoming_data [] false false false raw.

(** A call of the engine, under [_lock]. *)
Definition ssl_call {A} (op : ssl_op E A) (s : tls) : tls * ssl_out A :=
  let '(e, inc, emitted, r) := op (t_eng s) (t_inc s) in
  (Tls e inc (t_out s ++ emitted) (t_closed s) (t_pcn s) (t_eof s) (t_raw s), r).

Definition tio (A : Type) : Type := tls -> option (tls * out A).

(** The loop of [_pump_out]. *)
Fixpoint send_view (fuel : nat) (view : bytes) : tio bool := λ s,
  match view, fuel with
  | [], _ => Some (s, Ret true)
  | _, O => None
  | _, S fuel' =>
      match tn_send view (t_raw s) with
      | (k, SOk n) => send_view fuel' (drop n view) (tset_raw k s)
      | (k, SErr _) => Some (tset_raw k s, Ret false)
      | (k, SBlock) =>
          match tn_wait true None k with
          | (k, TReady) => send_view fuel' view (tset_raw k s)
          | (k, TFailed) => Some (tset_raw k s, Ret false)
          | (k, TCancelled) => Some (tset_raw k s, Exc cancelled_error)
          end
      end
  end.

(** [_pump_out()] *)
Definition pump_out (fuel : nat) : tio bool := λ s, send_view fuel (t_out s) (tset_out [] s).

(** [_feed_in_nb()] *)
Definition feed_in_nb (s : tls) : tls * out bool :=
  if t_eof s then (s, Ret false)
  else
    match tn_recv 65536 (t_raw s) with
    | (k, RBlock) => (tset_raw k s, Exc BlockingIOError)
    | (k, RErr _) | (k, REof) => (tset_eof (tset_raw k s), Ret false)
    | (k, RData d) => (tset_inc (t_inc s ++ d) (tset_raw k s), Ret true)
    end.

(** [pending()] *)
Definition tls_pending (s : tls) : nat := if t_closed s then 0 else ssl_pending (t_eng s) + length (t_inc s).

(** Park for reading; what a failed wait becomes. *)
Definition park_read {A} (ms : option Z) (failed : out A) (again : tio A) : tio A := λ s,
  match tn_wait false ms (t_raw s) with
  | (k, TReady) => again (tset_raw k s)
  | (k, TFailed) => Some (tset_raw k s, failed)
  | (k, TCancelled) => Some (tset_raw k s, Exc cancelled_error)
  end.

(** [do_handshake(timeout)]; [close] drops the engine, and using it afterwards raises. *)
Fixpoint handshake_loop (fuel : nat) (deadline : option Z) : tio unit := λ s,
  match fuel with
  | O => None
  | S fuel' =>
      let '(s1, r) := ssl_call ssl_do_handshake s in
      let flush (k : tio unit) : option (tls * out unit) :=
        match pump_out fuel' s1 with
        | None => None
        | Some (s2, Exc e) => Some (s2, Exc e)
        | Some (s2, Ret false) => Some (s2, Exc reset_handshake)
        | Some (s2, Ret true) => k s2
        end in
      match r with
      | SslEof => Some (s1, Exc reset_handshake)
      | SslZeroReturn | SslError => Some (s1, Exc ssl_error)
      | SslOk _ => flush (λ s2, Some (s2, Ret tt))
      | SslWantWrite => flush (handshake_loop fuel' deadline)
      | SslWantRead =>
          flush (λ s2,
            let pull ms :=
              match feed_in_nb s2 with
              | (s3, Exc _) => park_read ms (Exc reset_handshake) (handshake_loop fuel' deadline) s3
              | (s3, Ret true) => handshake_loop fuel' deadline s3
              | (s3, Ret false) => Some (s3, Exc reset_handshake)
              end in
            match deadline with
            | None => pull None
            | Some d =>
                let remaining := d - tn_now (t_raw s2) in
                if remaining <=? 0 then Some (s2, Exc handshake_late) else pull (Some (Z.max 1 (remaining / 1000)))
            end)
      end
  end.
Definition do_handshake (fuel : nat) (timeout : option Z) : tio unit := λ s,
  if t_closed s then Some (s, Exc AttributeError) else handshake_loop fuel ((λ t, tn_now (t_raw s) + t) <$> timeout) s.

(** [recv_nb(n)] *)
Fixpoint recv_nb_loop (fuel n : nat) : tio bytes := λ s,
  match fuel with
  | O => None
  | S fuel' =>
      let '(s1, r) := ssl_call (ssl_read n) s in
      match r with
      | SslOk d => Some (s1, Ret d)
      | SslZeroReturn => Some (tset_pcn s1, Ret [])
      | SslEof => Some (s1, Ret [])
      | SslError => Some (s1, Exc ssl_error)
      | SslWantRead | SslWantWrite =>
          match pump_out fuel' s1 with
          | None => None
          | Some (s2, Exc e) => Some (s2, Exc e)
          | Some (s2, Ret false) => Some (s2, Ret [])
          | Some (s2, Ret true) =>
              match r with
              | SslWantRead =>
                  match feed_in_nb s2 with
                  | (s3, Exc e) => Some (s3, Exc e)
                  | (s3, Ret true) => recv_nb_loop fuel' n s3
                  | (s3, Ret false) => Some (s3, Ret [])
                  end
              | _ => recv_nb_loop fuel' n s2
              end
          end
      end
  end.
Definition recv_nb (fuel n : nat) : tio bytes := λ s, if t_closed s then Some (s, Ret []) else recv_nb_loop fuel n s.

(** [recv(n)], and what [recv_into] returns. *)
Fixpoint recv_loop (fuel n : nat) : tio bytes := λ s,
  match fuel with
  | O => None
  | S fuel' =>
      match recv_nb fuel' n s with
      | Some (s1, Exc BlockingIOError) => park_read None (Ret []) (recv_loop fuel' n) s1
      | x => x
      end
  end.
Definition tls_recv (fuel n : nat) : tio bytes := λ s, if t_closed s then Some (s, Ret []) else recv_loop fuel n s.
Definition tls_recv_into (fuel buflen nbytes : nat) : tio (nat * bytes) := λ s,
  match tls_recv fuel (if decide (nbytes = 0%nat) then buflen else nbytes) s with
  | None => None
  | Some (s1, Exc e) => Some (s1, Exc e)
  | Some (s1, Ret d) => Some (s1, Ret (length d, d))
  end.

(** [send(data)] *)
Fixpoint send_loop (fuel : nat) (data : bytes) : tio nat := λ s,
  match fuel with
  | O => None
  | S fuel' =>
      let '(s1, r) := ssl_call (ssl_write data) s in
      let flush (k : tio nat) : option (tls * out nat) :=
        match pump_out fuel' s1 with
        | None => None
        | Some (s2, Exc e) => Some (s2, Exc e)
        | Some (s2, Ret false) => Some (s2, Exc reset_send)
        | Some (s2, Ret true) => k s2
        end in
      match r with
      | SslOk n => flush (λ s2, Some (s2, Ret n))
      | SslWantRead | SslWantWrite =>
          flush (λ s2,
            match feed_in_nb s2 with
            | (s3, Exc _) => park_read None (Exc reset_send) (send_loop fuel' data) s3
            | (s3, Ret _) => send_loop fuel' data s3
            end)
      | SslZeroReturn | SslEof | SslError => Some (s1, Exc ssl_error)
      end
  end.
Definition tls_send (fuel : nat) (data : bytes) : tio nat := λ s, if t_closed s then Some (s, Exc tls_closed) else send_loop fuel data s.

(** [sendall(data)] *)
Fixpoint tls_sendall (fuel : nat) (data : bytes) : tio unit := λ s,
  match data, fuel with
  | [], _ => Some (s, Ret tt)
  | _, O => None
  | _, S fuel' =>
      match tls_send fuel' data s with
      | None => None
      | Some (s1, Exc e) => Some (s1, Exc e)
      | Some (s1, Ret n) => tls_sendall fuel' (drop n data) s1
      end
  end.

(** [send_close_notify()] *)
Definition send_close_notify (fuel : nat) : tio unit := λ s,
  if t_eof s && negb (t_pcn s) || t_closed s then Some (s, Ret tt)
  else
    let '(s1, _) := ssl_call ssl_unwrap s in
    match pump_out fuel s1 with
    | None => None
    | Some (s2, Exc e) => Some (s2, Exc e)
    | Some (s2, Ret _) => Some (s2, Ret tt)
    end.

(** [close()] *)
Definition tls_close (s : tls) : tls :=
  if t_closed s then s else Tls (t_eng s) (t_inc s) (t_out s) true (t_pcn s) (t_eof s) (tn_close (t_raw s)).
End tls.
Arguments tls : clear implicits.

(** ** What the engine and the socket promise *)

Section tls_facts.
Context {E K : Type} `{Hssl : !SslObject E} `{Hnet : !TlsNet K}.

(** The engine appends its ciphertext to the outgoing buffer and consumes the incoming one from the
    front; [ssl_emitted] is all it ever produced. *)
Context (ssl_emitted : E -> bytes).
Definition op_ok {A} (op : ssl_op E A) : Prop := forall e inc e' inc' o r, op e inc = (e', inc', o, r) ->
  ssl_emitted e' = ssl_emitted e ++ o /\ exists c, inc = c ++ inc'.
Class SslLaws : Prop := {
  sl_handshake : op_ok ssl_do_handshake;
  sl_read n : op_ok (ssl_read n);
  sl_write d : op_ok (ssl_write d);
  sl_unwrap : op_ok ssl_unwrap
}.
Class TlsNetLaws : Prop := {
  tl_send v k k' r : tn_send v k = (k', r) -> tn_wire k' = tn_wire k ++ match r with SOk n => take n v | _ => [] end;
  tl_recv n k : tn_wire (tn_recv n k).1 = tn_wire k;
  tl_wait w ms k : tn_wire (tn_wait w ms k).1 = tn_wire k;
  tl_close k : tn_wire (tn_close k) = tn_wire k /\ tn_broken (tn_close k) = tn_broken k;
  tl_send_broken v k k' r : tn_send v k = (k', r) -> tn_broken k' = tn_broken k || match r with SErr _ => true | _ => false end;
  tl_recv_broken n k : tn_broken (tn_recv n k).1 = tn_broken k;
  tl_wait_broken w ms k k' r : tn_wait w ms k = (k', r) -> tn_broken k' = tn_broken k || w && match r with TReady => false | _ => true end
}.
Context `{HS : !SslLaws} `{HN : !TlsNetLaws}.

Abbreviation tls := (tls E K).
Definition wire (s : tls) : bytes := tn_wire (t_raw s).
Definition emitted (s : tls) : bytes := ssl_emitted (t_eng s).

(** Nothing was lost: what the engine produced is on the wire, then in the outgoing buffer. *)
Definition accounted (s : tls) : Prop := wire s ++ t_out s = emitted s.
Definition flushed (s : tls) : Prop := wire s = emitted s /\ t_out s = [].

Lemma flushed_accounted s : flushed s -> accounted s.
Proof. intros [H1 H2]. unfold accounted. by rewrite H2, app_nil_r. Qed.
Lemma accounted_prefix s : accounted s -> wire s `prefix_of` emitted s.
Proof. intros H1. by exists (t_out s). Qed.
Lemma flushed_prefix s : flushed s -> wire s `prefix_of` emitted s.
Proof. intros H1. by apply accounted_prefix, flushed_accounted. Qed.

Lemma ssl_call_ok {A} (op : ssl_op E A) s s1 r : op_ok op -> ssl_call op s = (s1, r) -> accounted s -> accounted s1.
Proof.
  intros Hop H1 Hs. unfold ssl_call in H1. destruct (op (t_eng s) (t_inc s)) as [[[e inc] o] r'] eqn:Eo. simplify_eq.
  destruct (Hop _ _ _ _ _ _ Eo) as [He _]. unfold accounted, wire, emitted in *. simpl. by rewrite He, <- Hs, app_assoc.
Qed.

Lemma send_view_wire fuel view s s' r : send_view fuel view s = Some (s', r) ->
  t_eng s' = t_eng s /\ t_out s' = t_out s /\ exists v, wire s' = wire s ++ v /\ v `prefix_of` view /\ (r = Ret true -> v = view).
Proof.
  revert view s. induction fuel as [|fuel IH]; intros [|b view] s; simpl; [| done| |].
  1,2: intros; simplify_eq; split_and!; try done; exists []; by rewrite app_nil_r.
  destruct (tn_send (b :: view) (t_raw s)) as [k x] eqn:Es. pose proof (tl_send _ _ _ _ Es) as Hw.
  destruct x as [n| |e].
  - intros (H1 & H2 & v & H3 & H4 & H5)%IH. split_and!; [done..|]. exists (take n (b :: view) ++ v).
    unfold wire in *. simpl in *. rewrite H3, Hw, app_assoc. split_and!; [done| |].
    + rewrite <- (take_drop n (b :: view)) at 2. by apply prefix_app.
    + intros Hr. rewrite (H5 Hr). by rewrite take_drop.
  - rewrite app_nil_r in Hw. pose proof (tl_wait true None k) as Hk. destruct (tn_wait true None k) as [k1 []]; simpl in Hk.
    + intros (H1 & H2 & v & H3 & H4)%IH. split_and!; [done..|]. exists v. unfold wire in *. simpl in *. by rewrite H3, Hk, Hw.
    + intros; simplify_eq. split_and!; [done..|]. exists []. unfold wire. simpl. rewrite Hk, Hw, app_nil_r. split_and!; [done|apply prefix_nil|done].
    + intros; simplify_eq. split_and!; [done..|]. exists []. unfold wire. simpl. rewrite Hk, Hw, app_nil_r. split_and!; [done|apply prefix_nil|done].
  - intros; simplify_eq. split_and!; [done..|]. exists []. unfold wire. simpl. rewrite Hw, app_nil_r. split_and!; [done|apply prefix_nil|done].
Qed.

(** [_pump_out] that returns True has put everything on the wire; however it ends, the wire has no gap. *)
Lemma pump_out_ok fuel s s' r : accounted s -> pump_out fuel s = Some (s', r) ->
  wire s' `prefix_of` emitted s' /\ (r = Ret true -> flushed s').
Proof.
  intros Hs H1. unfold pump_out in H1. apply send_view_wire in H1 as (H1 & H2 & v & H3 & H4 & H5).
  assert (Hw : wire s' = wire s ++ v) by done. assert (He : emitted s' = wire s ++ t_out s) by (unfold emitted; by rewrite H1). split.
  - rewrite Hw, He. by apply prefix_app.
  - intros Hr. split; [by rewrite Hw, He, (H5 Hr)|by rewrite H2].
Qed.

Lemma feed_ok s s' r : feed_in_nb s = (s', r) -> wire s' = wire s /\ emitted s' = emitted s /\ t_out s' = t_out s.
Proof.
  unfold feed_in_nb. destruct (t_eof s); [by intros; simplify_eq|]. pose proof (tl_recv 65536 (t_raw s)) as Hr.
  destruct (tn_recv 65536 (t_raw s)) as [k []]; simpl in Hr; intros; by simplify_eq.
Qed.
Lemma feed_flushed s s' r : feed_in_nb s = (s', r) -> flushed s -> flushed s'.
Proof. intros (H1 & H2 & H3)%feed_ok [H4 H5]. split; congruence. Qed.

Lemma park_flushed w ms k x s : tn_wait w ms (t_raw s) = (k, x) -> flushed s -> flushed (tset_raw k s).
Proof. intros H1 [H2 H3]. pose proof (tl_wait w ms (t_raw s)) as Hk. rewrite H1 in Hk. split; [|done]. unfold wire, emitted in *. simpl in *. by rewrite Hk. Qed.

(** The shape of the three loops' results. *)
Definition no_gap {A} (full : out A -> Prop) (x : option (tls * out A)) : Prop :=
  forall s' r, x = Some (s', r) -> wire s' `prefix_of` emitted s' /\ (full r -> flushed s').

Lemma no_gap_park {A} ms (failed : out A) again s full : flushed s -> ¬ full failed -> ¬ full (Exc cancelled_error) ->
  (forall s1, flushed s1 -> no_gap full (again s1)) -> no_gap full (park_read ms failed again s).
Proof.
  intros Hf Hn1 Hn2 Ha s' r. unfold park_read. destruct (tn_wait false ms (t_raw s)) as [k []] eqn:Ew; pose proof (park_flushed _ _ _ _ _ Ew Hf) as Hk.
  - by apply Ha.
  - intros; simplify_eq. split; [by apply flushed_prefix|done].
  - intros; simplify_eq. split; [by apply flushed_prefix|done].
Qed.

Lemma pump_exc fuel (s s1 : tls) e : pump_out fuel s = Some (s1, Exc e) -> e = cancelled_error.
Proof.
  unfold pump_out. generalize (tset_out [] s), (t_out s). induction fuel as [|fuel IH]; intros s0 [|b view]; simpl; try done.
  destruct (tn_send (b :: view) (t_raw s0)) as [k []]; [apply IH| |done]. destruct (tn_wait true None k) as [k1 []]; [apply IH| |done].
  intros; by simplify_eq.
Qed.

Lemma no_gap_pump {A} fuel s (full : out A -> Prop) (bad : out A) (k : tls -> option (tls * out A)) :
  accounted s -> ¬ full bad -> ¬ full (Exc cancelled_error) -> (forall s1, flushed s1 -> no_gap full (k s1)) ->
  no_gap full match pump_out fuel s with None => None | Some (s2, Exc e) => Some (s2, Exc e) | Some (s2, Ret false) => Some (s2, bad) | Some (s2, Ret true) => k s2 end.
Proof.
  intros Hs Hb Hc Hk s' r. destruct (pump_out fuel s) as [[s2 [[]|e]]|] eqn:Ep; [| | |done];
    destruct (pump_out_ok fuel s s2 _ Hs Ep) as [Hp Hf].
  - apply Hk. by apply Hf.
  - intros; simplify_eq. by split.
  - intros; simplify_eq. split; [done|]. by rewrite (pump_exc _ _ _ _ Ep).
Qed.

Lemma no_gap_end {A} s r (full : out A -> Prop) : wire s `prefix_of` emitted s -> (full r -> flushed s) -> no_gap full (Some (s, r)).
Proof. intros H1 H2 s' r' H3. by simplify_eq. Qed.

(** Every result but an exception. *)
Definition returned {A} (r : out A) : Prop := match r with Ret _ => True | Exc _ => False end.

Lemma send_loop_ok fuel data s : accounted s -> no_gap returned (send_loop fuel data s).
Proof.
  revert s. induction fuel as [|fuel IH]; intros s Hs; [done|]. simpl.
  destruct (ssl_call (ssl_write data) s) as [s1 r] eqn:Ec. pose proof (ssl_call_ok _ _ _ _ (sl_write data) Ec Hs) as H1.
  assert (Hpull : forall s2, flushed s2 -> no_gap returned
    match feed_in_nb s2 with
    | (s3, Exc _) => park_read None (Exc reset_send) (send_loop fuel data) s3
    | (s3, Ret _) => send_loop fuel data s3
    end).
  { intros s2 H2. destruct (feed_in_nb s2) as [s3 [b|e]] eqn:Ef; pose proof (feed_flushed _ _ _ Ef H2) as H3;
      [by apply IH, flushed_accounted|]. apply no_gap_park; [done|by intros []|by intros []|]. intros s4 H4. by apply IH, flushed_accounted. }
  destruct r; try (by apply no_gap_end; [apply accounted_prefix|]); (apply no_gap_pump; [done|by intros []|by intros []|]); intros s2 H2; [|by apply Hpull..].
  apply no_gap_end; [by apply flushed_prefix|done].
Qed.

Lemma handshake_loop_ok fuel deadline s : accounted s -> no_gap returned (handshake_loop fuel deadline s).
Proof.
  revert s. induction fuel as [|fuel IH]; intros s Hs; [done|]. simpl.
  destruct (ssl_call ssl_do_handshake s) as [s1 r] eqn:Ec. pose proof (ssl_call_ok _ _ _ _ sl_handshake Ec Hs) as H1.
  assert (Hpull : forall s2 ms, flushed s2 -> no_gap returned
    match feed_in_nb s2 with
    | (s3, Exc _) => park_read ms (Exc reset_handshake) (handshake_loop fuel deadline) s3
    | (s3, Ret true) => handshake_loop fuel deadline s3
    | (s3, Ret false) => Some (s3, Exc reset_handshake)
    end).
  { intros s2 ms H2. destruct (feed_in_nb s2) as [s3 [[]|e]] eqn:Ef; pose proof (feed_flushed _ _ _ Ef H2) as H3;
      [by apply IH, flushed_accounted|by apply no_gap_end; [apply flushed_prefix|]|].
    apply no_gap_park; [done|by intros []|by intros []|]. intros s4 H4. by apply IH, flushed_accounted. }
  destruct r; try (by apply no_gap_end; [apply accounted_prefix|]); (apply no_gap_pump; [done|by intros []|by intros []|]); intros s2 H2.
  - apply no_gap_end; [by apply flushed_prefix|done].
  - destruct deadline as [d|]; [|by apply Hpull]. destruct (d - tn_now (t_raw s2) <=? 0); [|by apply Hpull].
    apply no_gap_end; [by apply flushed_prefix|done].
  - by apply IH, flushed_accounted.
Qed.

Lemma recv_nb_loop_ok fuel n s : accounted s -> no_gap (λ r, r = Exc BlockingIOError) (recv_nb_loop fuel n s).
Proof.
  revert s. induction fuel as [|fuel IH]; intros s Hs; [done|]. simpl.
  destruct (ssl_call (ssl_read n) s) as [s1 r] eqn:Ec. pose proof (ssl_call_ok _ _ _ _ (sl_read n) Ec Hs) as H1.
  destruct r; try (by apply no_gap_end; [apply accounted_prefix|]); (apply no_gap_pump; [done..|]); intros s2 H2; [|by apply IH, flushed_accounted].
  destruct (feed_in_nb s2) as [s3 [[]|e]] eqn:Ef; pose proof (feed_flushed _ _ _ Ef H2) as H3;
    [by apply IH, flushed_accounted|by apply no_gap_end; [apply flushed_prefix|]|by apply no_gap_end; [apply flushed_prefix|]].
Qed.

(** *** Sessions *)

(** Sending never failed, nor did a wait to send, nor was one cancelled. *)
Definition sound (s : tls) : Prop := tn_broken (t_raw s) = false.

(** Where a call ends soundly it began soundly, and nothing was lost in it. *)
Definition keeps {A} (s : tls) (x : option (tls * out A)) : Prop :=
  forall s' r, x = Some (s', r) -> sound s' -> sound s /\ (accounted s -> accounted s').

Lemma keeps_end {A} s s1 (r : out A) : tn_broken (t_raw s1) = tn_broken (t_raw s) -> (accounted s -> accounted s1) -> keeps s (Some (s1, r)).
Proof. intros Eb Ha s' r' [= <- <-] Hs. split; [|done]. unfold sound in *. congruence. Qed.

Lemma keeps_weaken {A} s s1 (x : option (tls * out A)) : tn_broken (t_raw s1) = tn_broken (t_raw s) -> (accounted s -> accounted s1) -> keeps s1 x -> keeps s x.
Proof. intros Eb Ha Hk s' r Hx Hs. destruct (Hk s' r Hx Hs) as [H1 H2]. split; [unfold sound in *; congruence|auto]. Qed.

Lemma send_view_sound fuel view s s' r : send_view fuel view s = Some (s', r) -> sound s' -> sound s /\ r = Ret true.
Proof.
  revert view s. induction fuel as [|fuel IH]; intros [|b view] s; simpl; [by intros [= <- <-]|done|by intros [= <- <-]|].
  destruct (tn_send (b :: view) (t_raw s)) as [k x] eqn:Es. apply tl_send_broken in Es. unfold sound. destruct x as [n| |e].
  - intros H1 H2. destruct (IH _ _ H1 H2) as [H3 ->]. unfold sound in H3. simpl in H3. rewrite H3, orb_false_r in Es. done.
  - destruct (tn_wait true None k) as [k1 x] eqn:Ew. apply tl_wait_broken in Ew. rewrite orb_false_r in Es. destruct x.
    + intros H1 H2. destruct (IH _ _ H1 H2) as [H3 ->]. unfold sound in H3. simpl in H3. rewrite H3, orb_false_r in Ew. split; congruence.
    + intros [= <- <-] H2. simpl in H2. rewrite H2, orb_true_r in Ew. done.
    + intros [= <- <-] H2. simpl in H2. rewrite H2, orb_true_r in Ew. done.
  - intros [= <- <-] H2. simpl in H2. rewrite H2, orb_true_r in Es. done.
Qed.

Lemma keeps_pump {A} fuel s (bad : out A) (k : tls -> option (tls * out A)) : (forall s1, keeps s1 (k s1)) ->
  keeps s match pump_out fuel s with None => None | Some (s2, Exc e) => Some (s2, Exc e) | Some (s2, Ret false) => Some (s2, bad) | Some (s2, Ret true) => k s2 end.
Proof.
  intros Hk s' r. destruct (pump_out fuel s) as [[s2 r2]|] eqn:Ep; [|done].
  assert (H2 : sound s2 -> sound s /\ r2 = Ret true) by (intros H; by destruct (send_view_sound _ _ _ _ _ Ep H)). destruct r2 as [[]|e].
  - intros H1 Hs. destruct (Hk s2 s' r H1 Hs) as [H3 H4]. destruct (H2 H3) as [H5 _]. split; [done|]. intros Ha. apply H4.
    destruct (pump_out_ok fuel s s2 _ Ha Ep) as [_ Hf]. by apply flushed_accounted, Hf.
  - intros [= <- <-] Hs. by destruct (H2 Hs).
  - intros [= <- <-] Hs. by destruct (H2 Hs).
Qed.

Lemma feed_keeps s s' r : feed_in_nb s = (s', r) -> tn_broken (t_raw s') = tn_broken (t_raw s) /\ (accounted s -> accounted s').
Proof.
  intros H1. split; [|apply feed_ok in H1 as (E1 & E2 & E3); unfold accounted; by rewrite E1, E2, E3]. revert H1. unfold feed_in_nb.
  destruct (t_eof s); [by intros [= <- <-]|]. pose proof (tl_recv_broken 65536 (t_raw s)) as Hr. destruct (tn_recv 65536 (t_raw s)) as [k []]; simpl in Hr; by intros [= <- <-].
Qed.

Lemma ssl_call_keeps {A} (op : ssl_op E A) s s1 r : op_ok op -> ssl_call op s = (s1, r) -> tn_broken (t_raw s1) = tn_broken (t_raw s) /\ (accounted s -> accounted s1).
Proof.
  intros Hop H1. split; [|by apply (ssl_call_ok op s s1 r)]. unfold ssl_call in H1. destruct (op (t_eng s) (t_inc s)) as [[[e inc] o] r']. by injection H1 as <- _.
Qed.

Lemma keeps_park {A} ms (failed : out A) again s : (forall s1, keeps s1 (again s1)) -> keeps s (park_read ms failed again s).
Proof.
  intros Ha. unfold park_read. destruct (tn_wait false ms (t_raw s)) as [k x] eqn:Ew. pose proof (tl_wait false ms (t_raw s)) as Hw. rewrite Ew in Hw. simpl in Hw.
  apply tl_wait_broken in Ew. rewrite andb_false_l, orb_false_r in Ew. assert (Hk : accounted s -> accounted (tset_raw k s)) by (unfold accounted, wire, emitted; simpl; by rewrite Hw).
  destruct x; [apply (keeps_weaken s (tset_raw k s)); [done|done|apply Ha]|by apply keeps_end..].
Qed.

Lemma send_loop_keeps fuel data s : keeps s (send_loop fuel data s).
Proof.
  revert s. induction fuel as [|fuel IH]; intros s; [done|]. simpl. destruct (ssl_call (ssl_write data) s) as [s1 r] eqn:Ec.
  destruct (ssl_call_keeps _ _ _ _ (sl_write data) Ec) as [B1 A1]. destruct r; try (by apply keeps_end); apply (keeps_weaken s s1); try done; apply keeps_pump; intros s2.
  { by apply keeps_end. }
  all: destruct (feed_in_nb s2) as [s3 [b|e]] eqn:Ef; destruct (feed_keeps _ _ _ Ef) as [B3 A3]; (apply (keeps_weaken s2 s3); [done|done|]); first [apply IH|by apply keeps_park].
Qed.

Lemma handshake_loop_keeps fuel deadline s : keeps s (handshake_loop fuel deadline s).
Proof.
  revert s. induction fuel as [|fuel IH]; intros s; [done|]. simpl. destruct (ssl_call ssl_do_handshake s) as [s1 r] eqn:Ec.
  destruct (ssl_call_keeps _ _ _ _ sl_handshake Ec) as [B1 A1].
  assert (Hpull : forall s2 ms, keeps s2
    match feed_in_nb s2 with
    | (s3, Exc _) => park_read ms (Exc reset_handshake) (handshake_loop fuel deadline) s3
    | (s3, Ret true) => handshake_loop fuel deadline s3
    | (s3, Ret false) => Some (s3, Exc reset_handshake)
    end).
  { intros s2 ms. destruct (feed_in_nb s2) as [s3 [[]|e]] eqn:Ef; destruct (feed_keeps _ _ _ Ef) as [B3 A3]; (apply (keeps_weaken s2 s3); [done|done|]);
      first [apply IH|by apply keeps_park|by apply keeps_end]. }
  destruct r; try (by apply keeps_end); apply (keeps_weaken s s1); try done; apply keeps_pump; intros s2; [by apply keeps_end| |apply IH].
  destruct deadline as [d|]; [|by apply Hpull]. destruct (d - tn_now (t_raw s2) <=? 0); [by apply keeps_end|by apply Hpull].
Qed.

Lemma recv_nb_keeps fuel n s : keeps s (recv_nb fuel n s).
Proof.
  unfold recv_nb. destruct (t_closed s); [by apply keeps_end|]. revert s. induction fuel as [|fuel IH]; intros s; [done|]. simpl.
  destruct (ssl_call (ssl_read n) s) as [s1 r] eqn:Ec. destruct (ssl_call_keeps _ _ _ _ (sl_read n) Ec) as [B1 A1].
  destruct r; try (by apply keeps_end); apply (keeps_weaken s s1); try done; apply keeps_pump; intros s2; [|apply IH].
  destruct (feed_in_nb s2) as [s3 [[]|e]] eqn:Ef; destruct (feed_keeps _ _ _ Ef) as [B3 A3]; (apply (keeps_weaken s2 s3); [done|done|]); first [apply IH|by apply keeps_end].
Qed.

Lemma tls_send_keeps fuel data s : keeps s (tls_send fuel data s).
Proof. unfold tls_send. destruct (t_closed s); [by apply keeps_end|apply send_loop_keeps]. Qed.

Lemma tls_recv_keeps fuel n s : keeps s (tls_recv fuel n s).
Proof.
  unfold tls_recv. destruct (t_closed s); [by apply keeps_end|]. revert s. induction fuel as [|fuel IH]; intros s; [done|]. simpl.
  intros s' r. destruct (recv_nb fuel n s) as [[s1 r1]|] eqn:En; [|done]. pose proof (recv_nb_keeps fuel n s s1 r1 En) as Hk. intros H1 Hs.
  assert (Hgo : keeps s1 (Some (s', r)) -> sound s /\ (accounted s -> accounted s')).
  { intros Hg. destruct (Hg s' r eq_refl Hs) as [H2 H3]. destruct (Hk H2) as [H4 H5]. auto. }
  apply Hgo. destruct r1 as [d|[]]; try (injection H1 as <- <-; by apply keeps_end). rewrite <- H1. by apply keeps_park.
Qed.

Lemma tls_sendall_keeps fuel data s : keeps s (tls_sendall fuel data s).
Proof.
  revert data s. induction fuel as [|fuel IH]; intros [|b data] s; simpl; [by apply keeps_end|done|by apply keeps_end|].
  intros s' r. destruct (tls_send fuel (b :: data) s) as [[s1 r1]|] eqn:En; [|done]. pose proof (tls_send_keeps fuel (b :: data) s s1 r1 En) as Hk. intros H1 Hs.
  assert (Hgo : keeps s1 (Some (s', r)) -> sound s /\ (accounted s -> accounted s')).
  { intros Hg. destruct (Hg s' r eq_refl Hs) as [H2 H3]. destruct (Hk H2) as [H4 H5]. auto. }
  apply Hgo. destruct r1 as [n|e]; [rewrite <- H1; apply IH|injection H1 as <- <-; by apply keeps_end].
Qed.

Lemma close_notify_keeps fuel s : keeps s (send_close_notify fuel s).
Proof.
  unfold send_close_notify. destruct (_ || _); [by apply keeps_end|]. destruct (ssl_call ssl_unwrap s) as [s1 r1] eqn:Ec.
  destruct (ssl_call_keeps _ _ _ _ sl_unwrap Ec) as [B1 A1]. apply (keeps_weaken s s1); [done|done|].
  intros s' r H1. apply (keeps_pump fuel s1 (Ret tt) (λ s2, Some (s2, Ret tt)) (λ s2, keeps_end s2 s2 (Ret tt) eq_refl (λ H, H)) s' r).
  by destruct (pump_out fuel s1) as [[s2 [[]|e]]|].
Qed.

(** The life of an object: made over a socket on which nothing of its engine is missing, then used by any calls
    that end, in any order and however they end. *)
Inductive session : tls -> Prop :=
  | ss_init eng inc k : tn_wire k = ssl_emitted eng -> session (tls_init eng inc k)
  | ss_handshake fuel t s s' r : session s -> do_handshake fuel t s = Some (s', r) -> session s'
  | ss_recv_nb fuel n s s' r : session s -> recv_nb fuel n s = Some (s', r) -> session s'
  | ss_recv fuel n s s' r : session s -> tls_recv fuel n s = Some (s', r) -> session s'
  | ss_recv_into fuel l n s s' r : session s -> tls_recv_into fuel l n s = Some (s', r) -> session s'
  | ss_send fuel d s s' r : session s -> tls_send fuel d s = Some (s', r) -> session s'
  | ss_sendall fuel d s s' r : session s -> tls_sendall fuel d s = Some (s', r) -> session s'
  | ss_notify fuel s s' r : session s -> send_close_notify fuel s = Some (s', r) -> session s'
  | ss_close s : session s -> session (tls_close s).

Lemma session_accounted s : session s -> sound s -> accounted s.
Proof.
  assert (Hk : forall A s (x : option (tls * out A)) s' r, keeps s x -> (sound s -> accounted s) -> x = Some (s', r) -> sound s' -> accounted s')
    by (intros A s0 x s' r Hx Ha H1 Hs; destruct (Hx s' r H1 Hs); auto).
  induction 1 as [eng inc k Hw|fuel t s s' r _ IH H1|fuel n s s' r _ IH H1|fuel n s s' r _ IH H1|fuel l n s s' r _ IH H1|fuel d s s' r _ IH H1|fuel d s s' r _ IH H1|fuel s s' r _ IH H1|s _ IH]; intros Hs.
  - unfold accounted, wire, emitted. simpl. by rewrite app_nil_r.
  - eapply Hk; [|exact IH|exact H1|done]. unfold do_handshake. destruct (t_closed s); [by apply keeps_end|apply handshake_loop_keeps].
  - eapply Hk; [apply recv_nb_keeps|exact IH|exact H1|done].
  - eapply Hk; [apply tls_recv_keeps|exact IH|exact H1|done].
  - unfold tls_recv_into in H1. destruct (tls_recv fuel _ s) as [[s1 r1]|] eqn:Er; [|done].
    assert (s1 = s') as <- by (destruct r1; by injection H1). eapply Hk; [apply tls_recv_keeps|exact IH|exact Er|done].
  - eapply Hk; [apply tls_send_keeps|exact IH|exact H1|done].
  - eapply Hk; [apply tls_sendall_keeps|exact IH|exact H1|done].
  - eapply Hk; [apply close_notify_keeps|exact IH|exact H1|done].
  - unfold tls_close in *. destruct (t_closed s); [auto|]. destruct (tl_close (t_raw s)) as [Hw Hb]. unfold sound in Hs. simpl in Hs. rewrite Hb in Hs.
    specialize (IH Hs). unfold accounted, wire, emitted in *. simpl. by rewrite Hw.
Qed.

(** C39. As long as no [send] of the raw socket failed and no wait to send failed or was cancelled, the wire carries
    what the engine produced, in order and without a gap: after any sequence of calls of the object, however
    they ended, what is on the wire and then in the outgoing buffer is all the engine produced.  And of the next
    call: a handshake or a send that returns has put all of it on the wire, so has a receive that asks to be called
    again when the socket is readable, and however the call ends, be it because sending fails or is cancelled in
    it, the wire is a prefix of what was produced.  (After such a failure the condition is no longer met:
    [tls_cancelled_send_leaves_gap].) *)
Theorem tls_wire_exact s : session s -> tn_broken (t_raw s) = false ->
  wire s ++ t_out s = emitted s /\
  (forall fuel t, no_gap returned (do_handshake fuel t s)) /\ (forall fuel data, no_gap returned (tls_send fuel data s)) /\
  (forall fuel n, no_gap (λ r, r = Exc BlockingIOError) (recv_nb fuel n s)).
Proof.
  intros Hr Hb. pose proof (session_accounted s Hr Hb) as Hs. split_and!; [done|..].
  - intros fuel t. unfold do_handshake. destruct (t_closed s); [by apply no_gap_end; [apply accounted_prefix|]|by apply handshake_loop_ok].
  - intros fuel data. unfold tls_send. destruct (t_closed s); [by apply no_gap_end; [apply accounted_prefix|]|by apply send_loop_ok].
  - intros fuel n. unfold recv_nb. destruct (t_closed s); [by apply no_gap_end; [apply accounted_prefix|]|by apply recv_nb_loop_ok].
Qed.

(** A receive that would block is right to: the engine asked for more input than the incoming buffer
    holds, and the socket had just said that it has none. *)
Definition engine_starved (n : nat) (s' : tls) : Prop :=
  (exists s0 s1 : tls, ssl_call (ssl_read n) s0 = (s1, SslWantRead) /\ t_eng s' = t_eng s1 /\ t_inc s' = t_inc s1) /\
  (exists k0, tn_recv 65536 k0 = (t_raw s', RBlock)) /\ t_eof s' = false.

Lemma pump_keeps fuel (s s' : tls) r : pump_out fuel s = Some (s', r) -> t_eng s' = t_eng s /\ t_inc s' = t_inc s /\ t_eof s' = t_eof s.
Proof.
  unfold pump_out. assert (Hg : forall fl view (s0 : tls), send_view fl view s0 = Some (s', r) -> t_eng s' = t_eng s0 /\ t_inc s' = t_inc s0 /\ t_eof s' = t_eof s0);
    [|by intros H1%Hg].
  induction fl as [|fl IH]; intros [|b view] s0; simpl; try (by intros; simplify_eq).
  destruct (tn_send (b :: view) (t_raw s0)) as [k []]; [by intros H1%IH| |by intros; simplify_eq].
  destruct (tn_wait true None k) as [k1 []]; [by intros H1%IH|by intros; simplify_eq..].
Qed.

(** A receive that raises BlockingIOError leaves nothing behind that parking for the socket would
    strand: the engine wanted more than had arrived, the socket was dry, and the engine's own output is
    on the wire. *)
Theorem recv_nb_blocks_rightly fuel n s s' : accounted s -> recv_nb fuel n s = Some (s', Exc BlockingIOError) ->
  engine_starved n s' /\ flushed s'.
Proof.
  intros Hs H1. split.
  2:{ unfold recv_nb in H1. destruct (t_closed s); [done|]. by apply (recv_nb_loop_ok fuel n s Hs s' _ H1). }
  clear Hs. unfold recv_nb in H1. destruct (t_closed s); [done|]. revert s H1. induction fuel as [|fuel IH]; intros s; [done|]. simpl.
  destruct (ssl_call (ssl_read n) s) as [s1 r] eqn:Ec. destruct r; try done;
    destruct (pump_out fuel s1) as [[s2 [[]|e]]|] eqn:Ep; try done; try (intros; simplify_eq; by apply pump_exc in Ep); [|by apply IH].
  destruct (pump_keeps _ _ _ _ Ep) as (K1 & K2 & K3). destruct (feed_in_nb s2) as [s3 [[]|e]] eqn:Ef; [by apply IH|done|].
  intros; simplify_eq. unfold feed_in_nb in Ef. destruct (t_eof s2) eqn:Ee; [done|].
  destruct (tn_recv 65536 (t_raw s2)) as [k []] eqn:Er; simplify_eq. split_and!; [|by eexists|done].
  exists s, s1. by rewrite <- K1, <- K2.
Qed.

(** ** What the peer can read *)

(** The plaintext the engine accepted from [write]. *)
Context (ssl_accepted : E -> bytes).
Context (write_accepts : forall d e inc e' inc' o r, ssl_write d e inc = (e', inc', o, r) ->
  ssl_accepted e' = ssl_accepted e ++ match r with SslOk n => take n d | _ => [] end).

Lemma send_loop_accepts fuel data s s' r : send_loop fuel data s = Some (s', r) ->
  exists n, ssl_accepted (t_eng s') = ssl_accepted (t_eng s) ++ take n data /\ (forall m, r = Ret m -> m = n).
Proof.
  revert s. induction fuel as [|fuel IH]; intros s; [done|]. simpl. unfold ssl_call.
  destruct (ssl_write data (t_eng s) (t_inc s)) as [[[e inc] o] x] eqn:Ew. pose proof (write_accepts _ _ _ _ _ _ _ Ew) as Ha.
  set (s1 := Tls e inc _ _ _ _ _). assert (He : ssl_accepted (t_eng s1) = ssl_accepted (t_eng s) ++ match x with SslOk n => take n data | _ => [] end) by done.
  assert (Hnone : forall s2 : tls, t_eng s2 = t_eng s1 -> ssl_accepted (t_eng s1) = ssl_accepted (t_eng s) ++ [] ->
    (forall m, r ≠ Ret m) -> exists n, ssl_accepted (t_eng s2) = ssl_accepted (t_eng s) ++ take n data /\ (forall m, r = Ret m -> m = n)).
  { intros s2 E2 E1 Hr. exists 0%nat. rewrite E2, E1, take_0. split; [done|]. intros m Hm. by destruct (Hr m). }
  assert (Hpull : forall s2, t_eng s2 = t_eng s1 -> ssl_accepted (t_eng s1) = ssl_accepted (t_eng s) ++ [] ->
    match feed_in_nb s2 with
    | (s3, Exc _) => park_read None (Exc reset_send) (send_loop fuel data) s3
    | (s3, Ret _) => send_loop fuel data s3
    end = Some (s', r) -> exists n, ssl_accepted (t_eng s') = ssl_accepted (t_eng s) ++ take n data /\ (forall m, r = Ret m -> m = n)).
  { intros s2 E2 E1 H1. assert (E3 : forall s3 y, feed_in_nb s2 = (s3, y) -> t_eng s3 = t_eng s2).
    { intros s3 y. unfold feed_in_nb. destruct (t_eof s2); [by intros; simplify_eq|]. by destruct (tn_recv 65536 (t_raw s2)) as [k []]; intros; simplify_eq. }
    assert (Hgo : forall s4, t_eng s4 = t_eng s2 -> send_loop fuel data s4 = Some (s', r) -> exists n, ssl_accepted (t_eng s') = ssl_accepted (t_eng s) ++ take n data /\ (forall m, r = Ret m -> m = n)).
    { intros s4 E4 H4%IH. destruct H4 as (n & Hn & Hm). exists n. split; [|done]. by rewrite Hn, E4, E2, E1, app_nil_r. }
    destruct (feed_in_nb s2) as [s3 [b|e']] eqn:Ef; specialize (E3 _ _ eq_refl); [by apply (Hgo s3)|].
    unfold park_read in H1. destruct (tn_wait false None (t_raw s3)) as [k []]; [by apply (Hgo (tset_raw k s3))| |];
      simplify_eq; (apply Hnone; [by rewrite <- E2, <- E3|done..]). }
  destruct x as [n| | | | |]; try (intros; simplify_eq; by apply Hnone);
    destruct (pump_out fuel s1) as [[s2 [[]|e']]|] eqn:Ep; try done; destruct (pump_keeps _ _ _ _ Ep) as (K1 & _ & _);
    try (by apply Hpull); intros; simplify_eq.
  all: try (by apply Hnone).
  all: exists n; rewrite K1, He; split; [done|]; intros m Hm; by simplify_eq.
Qed.

(** [sendall] that returns has handed all of its data to the engine, in order and once, and what the
    engine made of it is on the wire. *)
Theorem tls_sendall_exact fuel data s s' : accounted s -> tls_sendall fuel data s = Some (s', Ret tt) ->
  ssl_accepted (t_eng s') = ssl_accepted (t_eng s) ++ data /\ accounted s' /\ (data ≠ [] -> flushed s').
Proof.
  revert data s. induction fuel as [|fuel IH]; intros [|b data] s Hs; simpl; [| done| |];
    [intros; simplify_eq; by rewrite app_nil_r..|].
  destruct (tls_send fuel (b :: data) s) as [[s1 [n|e]]|] eqn:Es; [|done..]. intros H1.
  unfold tls_send in Es. destruct (t_closed s); [done|].
  destruct (send_loop_accepts _ _ _ _ _ Es) as (m & Ha & Hm). specialize (Hm n eq_refl) as <-.
  assert (Hf : flushed s1) by (by apply (send_loop_ok fuel (b :: data) s Hs s1 _ Es)).
  destruct (IH _ _ (flushed_accounted _ Hf) H1) as (H2 & H3 & H4). split_and!; [|done|].
  - by rewrite H2, Ha, <- app_assoc, take_drop.
  - intros _. destruct (drop n (b :: data)) eqn:Ed; [|by apply H4]. destruct fuel; simpl in H1; by simplify_eq.
Qed.
End tls_facts.

(** ** Scripted engine and socket

    The engine copies: it emits 22 and waits for a byte to finish its handshake, then ciphertext is
    plaintext.  The socket follows lists of answers and then takes all, gives nothing and never fails. *)
Record xeng := XEng { x_phase : nat; x_emitted : bytes; x_accepted : bytes }.
Definition x_emit (o : bytes) (e : xeng) : xeng := XEng (x_phase e) (x_emitted e ++ o) (x_accepted e).
Definition x_accept (d : bytes) (e : xeng) : xeng := XEng (x_phase e) (x_emitted e ++ d) (x_accepted e ++ d).
Definition x_to (p : nat) (e : xeng) : xeng := XEng p (x_emitted e) (x_accepted e).

#[export] Instance xeng_ssl : SslObject xeng := {|
  ssl_do_handshake e inc :=
    match x_phase e, inc with
    | O, _ => (x_to 1 (x_emit [22] e), inc, [22], SslWantRead)
    | 1%nat, [] => (e, [], [], SslWantRead)
    | 1%nat, _ :: inc' => (x_to 2 e, inc', [], SslOk tt)
    | _, _ => (e, inc, [], SslOk tt)
    end;
  ssl_read n e inc := match inc with [] => (e, [], [], SslWantRead) | _ => (e, drop n inc, [], SslOk (take n inc)) end;
  ssl_write d e inc := if decide (x_phase e = 2%nat) then (x_accept d e, inc, d, SslOk (length d)) else (e, inc, [], SslWantRead);
  ssl_unwrap e inc := (x_emit [0] e, inc, [0], SslOk tt);
  ssl_pending _ := O
|}.

Record xnet := XNet' { xn_now : Z; xn_wire : bytes; xn_recv : list tread; xn_send : list sres; xn_wait : list twait; xn_broken : bool }.
Definition XNet n w r s t : xnet := XNet' n w r s t false.
#[export] Instance xnet_net : TlsNet xnet := {|
  tn_now := xn_now;
  tn_recv _ k := match xn_recv k with [] => (k, RBlock) | x :: l => (XNet' (xn_now k) (xn_wire k) l (xn_send k) (xn_wait k) (xn_broken k), x) end;
  tn_send v k :=
    match xn_send k with
    | [] => (XNet' (xn_now k) (xn_wire k ++ v) (xn_recv k) [] (xn_wait k) (xn_broken k), SOk (length v))
    | SOk n :: l => (XNet' (xn_now k) (xn_wire k ++ take n v) (xn_recv k) l (xn_wait k) (xn_broken k), SOk n)
    | SBlock :: l => (XNet' (xn_now k) (xn_wire k) (xn_recv k) l (xn_wait k) (xn_broken k), SBlock)
    | SErr e :: l => (XNet' (xn_now k) (xn_wire k) (xn_recv k) l (xn_wait k) true, SErr e)
    end;
  tn_wait w _ k :=
    match xn_wait k with
    | [] => (k, TReady)
    | x :: l => (XNet' (xn_now k) (xn_wire k) (xn_recv k) (xn_send k) l (xn_broken k || w && match x with TReady => false | _ => true end), x)
    end;
  tn_close k := k;
  tn_wire := xn_wire;
  tn_broken := xn_broken
|}.

Lemma xeng_laws : SslLaws x_emitted.
Proof.
  assert (Hkeep : forall (e : xeng) (inc : bytes), x_emitted e = x_emitted e ++ [] /\ exists c, inc = c ++ inc) by (intros e inc; split; [by rewrite app_nil_r|by exists []]).
  split.
  - intros e inc e' inc' o r. simpl. destruct (x_phase e) as [|[|p]]; [| |intros; simplify_eq; apply Hkeep].
    + intros; simplify_eq. split; [done|by exists []].
    + destruct inc as [|b inc]; intros; simplify_eq; [apply Hkeep|]. split; [simpl; by rewrite app_nil_r|by exists [b]].
  - intros n e inc e' inc' o r. simpl. destruct inc as [|b inc]; intros; simplify_eq; [apply Hkeep|].
    split; [by rewrite app_nil_r|]. exists (take n (b :: inc)). by rewrite take_drop.
  - intros d e inc e' inc' o r. simpl. case_decide; intros; simplify_eq; [|apply Hkeep]. split; [done|by exists []].
  - intros e inc e' inc' o r. simpl. intros; simplify_eq. split; [done|by exists []].
Qed.

Lemma xnet_laws : TlsNetLaws (K := xnet).
Proof.
  split.
  - intros v k k' r. simpl. destruct (xn_send k) as [|[n| |e] l]; intros; simplify_eq; simpl; rewrite ?firstn_all, ?app_nil_r; done.
  - intros n k. simpl. by destruct (xn_recv k).
  - intros w ms k. simpl. by destruct (xn_wait k).
  - done.
  - intros v k k' r. simpl. destruct (xn_send k) as [|[n| |e] l]; intros; simplify_eq; simpl; by rewrite ?orb_false_r, ?orb_true_r.
  - intros n k. simpl. by destruct (xn_recv k).
  - intros w ms k k' r. simpl. destruct (xn_wait k) as [|x l]; intros; simplify_eq; simpl; [by rewrite andb_false_r, orb_false_r|done].
Qed.

Definition x_open (k : xnet) : tls xeng xnet := tls_init (XEng 2 [] []) [] k.

(** A send that finds the socket full and waits, and then another one. *)
Definition x_start : tls xeng xnet := x_open (XNet 0 [] [] [SOk 2; SBlock] []).
Definition x_after : tls xeng xnet := match tls_send 10 [1; 2; 3] x_start with Some (s, _) => s | None => x_start end.

Lemma tls_wire_exact_witness : wire x_after = [1; 2; 3] /\
  exists s, tls_send 10 [4] x_after = Some (s, Ret 1%nat) /\ flushed x_emitted s.
Proof.
  assert (Hs : session x_emitted x_after).
  { apply (ss_send x_emitted 10 [1; 2; 3] x_start x_after (Ret 3%nat)); [by apply (ss_init x_emitted (XEng 2 [] []) [] (XNet 0 [] [] [SOk 2; SBlock] []))|vm_compute; reflexivity]. }
  pose proof (tls_wire_exact x_emitted (HS := xeng_laws) (HN := xnet_laws) x_after Hs ltac:(vm_compute; reflexivity)) as (_ & _ & Hsend & _).
  split; [vm_compute; reflexivity|]. destruct (tls_send 10 [4] x_after) as [[s r]|] eqn:Er; [|by vm_compute in Er].
  assert (Hr : r = Ret 1%nat) by (vm_compute in Er; congruence). subst r. exists s. split; [reflexivity|]. exact (proj2 (Hsend 10%nat [4] s (Ret 1%nat) Er) I).
Defined.

Lemma recv_nb_blocks_rightly_witness :
  exists s, recv_nb 10 4 (x_open (XNet 0 [] [] [] [])) = Some (s, Exc BlockingIOError) /\ engine_starved 4 s.
Proof.
  destruct (recv_nb 10 4 (x_open (XNet 0 [] [] [] []))) as [[s r]|] eqn:E; [|by vm_compute in E].
  assert (Hr : r = Exc BlockingIOError) by (vm_compute in E; congruence). subst r.
  assert (Ha : accounted x_emitted (x_open (XNet 0 [] [] [] []))) by reflexivity.
  exists s. split; [reflexivity|]. exact (proj1 (recv_nb_blocks_rightly x_emitted (HS := xeng_laws) (HN := xnet_laws) 10 4 _ s Ha E)).
Defined.

Lemma x_write_accepts d e inc e' inc' o r : ssl_write d e inc = (e', inc', o, r) ->
  x_accepted e' = x_accepted e ++ match r with SslOk n => take n d | _ => [] end.
Proof. simpl. case_decide; intros; simplify_eq; simpl; by rewrite ?firstn_all, ?app_nil_r. Qed.

Lemma tls_sendall_exact_witness :
  exists s, tls_sendall 10 [7; 8] (x_open (XNet 0 [] [] [SOk 1; SBlock] [])) = Some (s, Ret tt) /\ x_accepted (t_eng s) = [] ++ [7; 8].
Proof.
  destruct (tls_sendall 10 [7; 8] (x_open (XNet 0 [] [] [SOk 1; SBlock] []))) as [[s r]|] eqn:E; [|by vm_compute in E].
  assert (Hr : r = Ret tt) by (vm_compute in E; congruence). subst r.
  assert (Ha : accounted x_emitted (x_open (XNet 0 [] [] [SOk 1; SBlock] []))) by reflexivity.
  exists s. split; [reflexivity|].
  exact (proj1 (tls_sendall_exact x_emitted (HS := xeng_laws) (HN := xnet_laws) x_accepted x_write_accepts 10 [7; 8] _ s Ha E)).
Defined.

(** ** Behaviour the code does not intend *)

(** A send that is cancelled while [_pump_out] waits loses the ciphertext it had taken out of the buffer
    (line 51) and not yet sent: [CancelledError] is not an [Exception], so line 62 does not catch it.
    The next send goes on after the gap.  [_kick_io] of a transport cancels the wait of its fiber
    whenever something is written. *)
Theorem tls_cancelled_send_leaves_gap :
  exists s1 s2, tls_send 10 [1; 2; 3; 4] (x_open (XNet 0 [] [] [SOk 2; SBlock] [TCancelled])) = Some (s1, Exc cancelled_error) /\
    tls_send 10 [5; 6] s1 = Some (s2, Ret 2%nat) /\ x_emitted (t_eng s2) = [1; 2; 3; 4; 5; 6] /\ xn_wire (t_raw s2) = [1; 2; 5; 6] /\ t_out s2 = [].
Proof. eexists _, _. split; [vm_compute; reflexivity|]. split; [vm_compute; reflexivity|]. done. Qed.

(** A send whose engine wants to read after the peer closed spins: [_feed_in_nb] answers False at once,
    [send] does not look at the answer (line 237), and nothing in the loop parks. *)
Theorem tls_send_spins_after_eof {E K : Type} `{!SslObject E} `{!TlsNet K} data (s : tls E K) :
  t_closed s = false -> t_eof s = true -> t_out s = [] ->
  ssl_write data (t_eng s) (t_inc s) = (t_eng s, t_inc s, [], SslWantRead) -> forall fuel, tls_send fuel data s = None.
Proof.
  intros Hc He Ho Hw fuel. unfold tls_send. rewrite Hc. induction fuel as [|fuel IH]; [done|]. simpl.
  unfold ssl_call. rewrite Hw, Ho. destruct s as [eng inc o c pcn eof raw]. simpl in *. subst o eof.
  destruct fuel as [|fuel]; [done|]. exact IH.
Qed.

Lemma tls_send_spins_after_eof_witness :
  tls_send 50 [1] (tset_eof (tls_init (XEng 1 [] []) [] (XNet 0 [] [] [] []))) = None.
Proof.
  exact (tls_send_spins_after_eof [1] (tset_eof (tls_init (XEng 1 [] []) [] (XNet 0 [] [] [] []))) eq_refl eq_refl eq_refl eq_refl 50).
Defined.
