(* ===== verification/StackSize.v ===== *)
(** * The learned stack sizes

    Models [_next_pow2] and [grow_down_prepare] of [src/src/stackweave/runtime.py]: every callable carries
    a list [[learned_size, spawns_measured]]; its first spawns run under a wrapper that measures the
    stack they used and raises the learned size.  Spawns and completions of one callable run on any
    number of hubs at once, each access of the list being a step of its own; the list itself is there
    from the start (that the first spawns may race to create it is not modelled). *)
From S2P Require Import Prelude Fibers.
Local Open Scope Z_scope.

Definition GROW_DOWN_SAMPLES : Z := 64.
Definition GROW_DOWN_MARGIN : Z := 4.
Definition GROW_DOWN_MIN : Z := 16384.

(** [while p < n: p <<= 1] *)
Fixpoint double_until (fuel : nat) (n p : Z) : Z :=
  match fuel with
  | O => p
  | S fuel' => if p <? n then double_until fuel' n (Z.shiftl p 1) else p
  end.
(** [_next_pow2(n)]; the loop doubles at most [log2 n] times ([next_pow2_correct]). *)
Definition next_pow2 (n : Z) : Z :=
  if n <=? GROW_DOWN_MIN then GROW_DOWN_MIN else double_until (Z.to_nat (Z.log2_up n)) n GROW_DOWN_MIN.

Lemma double_until_spec fuel n p : 0 < p -> n <= p * 2 ^ Z.of_nat fuel ->
  exists k, 0 <= k /\ double_until fuel n p = p * 2 ^ k /\ n <= double_until fuel n p /\ (double_until fuel n p = p \/ double_until fuel n p < 2 * n).
Proof.
  revert p. induction fuel as [|fuel IH]; intros p Hp Hn; simpl double_until.
  - exists 0. simpl in *. lia.
  - destruct (p <? n) eqn:E; [|exists 0; lia]. rewrite Z.shiftl_mul_pow2 by lia. change (2 ^ 1) with 2.
    destruct (IH (p * 2)) as (k & Hk & H1 & H2 & H3); [lia| |].
    { rewrite Nat2Z.inj_succ, Z.pow_succ_r in Hn by lia. lia. }
    exists (Z.succ k). rewrite Z.pow_succ_r by lia. split_and!; [lia|lia|lia|]. right. destruct H3; lia.
Qed.

(** [_next_pow2(n)] is the least power of two, from 16 KiB up, that is at least [n]. *)
Theorem next_pow2_correct n : exists k, 0 <= k /\ next_pow2 n = GROW_DOWN_MIN * 2 ^ k /\ n <= next_pow2 n /\
  (next_pow2 n = GROW_DOWN_MIN \/ next_pow2 n < 2 * n).
Proof.
  unfold next_pow2. destruct (n <=? GROW_DOWN_MIN) eqn:E; [exists 0; unfold GROW_DOWN_MIN in *; simpl; lia|].
  apply double_until_spec; [done|]. unfold GROW_DOWN_MIN in *. pose proof (Z.log2_up_spec n ltac:(lia)) as [_ Hu].
  rewrite Z2Nat.id by apply Z.log2_up_nonneg. pose proof (Z.pow_pos_nonneg 2 (Z.log2_up n) ltac:(lia) (Z.log2_up_nonneg n)). lia.
Qed.

(** The same in closed form. *)
Definition fit (n : Z) : Z := 16384 * 2 ^ Z.log2_up ((n + 16383) / 16384).

Lemma next_pow2_fit n : next_pow2 n = fit n.
Proof.
  destruct (next_pow2_correct n) as (k & Hk & E & Hle & Hlt). unfold fit. rewrite E. change GROW_DOWN_MIN with 16384 in *. f_equal. f_equal.
  set (m := (n + 16383) / 16384). assert (Hm : 16384 * m <= n + 16383 < 16384 * m + 16384) by (unfold m; pose proof (Z.div_mod (n + 16383) 16384 ltac:(lia)); pose proof (Z.mod_pos_bound (n + 16383) 16384 ltac:(lia)); lia).
  assert (Hp : 0 < 2 ^ k) by (apply Z.pow_pos_nonneg; lia). destruct (decide (k = 0)) as [->|Hk0].
  - change (2 ^ 0) with 1 in *. rewrite Z.log2_up_eqn0 by lia. done.
  - symmetry. apply Z.log2_up_unique; [lia|]. assert (E2 : 2 ^ k = 2 * 2 ^ Z.pred k) by (rewrite <- Z.pow_succ_r by lia; f_equal; lia).
    assert (0 < 2 ^ Z.pred k) by (apply Z.pow_pos_nonneg; lia). destruct Hlt as [Hlt|Hlt]; lia.
Qed.

(** The list of a callable. *)
Record gstore := GStore { gs_size : Z; gs_spawns : Z }.

(** A spawn of the callable whose run will use [hwm] bytes of stack (0: not measured). *)
Inductive gop := GSpawn (hwm : Z).
Inductive gpc :=
  | GHead                       (** [size = store[0]] *)
  | GCheck (size : Z)           (** [store[1] >= GROW_DOWN_SAMPLES] *)
  | GCount (size : Z)           (** [store[1] += 1]: the read *)
  | GCounted (size n : Z)       (** its write *)
  | GRun (size : Z)             (** the target runs, [measured] computes what it wants and compares *)
  | GSet (size want : Z).       (** [store[0] = want] *)
(** The size reserved, and whether the spawn was measured. *)
Record gval := GVal { gv_size : Z; gv_measured : bool }.

Section growdown.
(** [stackweave_c.get_stack_size()] *)
Context (ceiling : Z).

(** What [measured] wants after a run. *)
Definition want_of (hwm : Z) : Z := let want := next_pow2 (hwm * GROW_DOWN_MARGIN) in if ceiling <? want then ceiling else want.

(** [grow_down_prepare(real_fn, target)] and the run of the target it returns; the size reserved is the
    one read at the head. *)
Definition grow_down (o : gop) (p : gpc) (s : gstore) : gstore * action gpc gval :=
  let '(GSpawn hwm) := o in
  match p with
  | GHead => (s, AGoto (GCheck (gs_size s)))
  | GCheck size => if GROW_DOWN_SAMPLES <=? gs_spawns s then (s, AReturn (Ret (GVal size false))) else (s, AGoto (GCount size))
  | GCount size => (s, AGoto (GCounted size (gs_spawns s)))
  | GCounted size n => (GStore (gs_size s) (n + 1), AGoto (GRun size))
  | GRun size =>
      if hwm =? 0 then (s, AReturn (Ret (GVal size true)))
      else
        let want := want_of hwm in
        if gs_size s <? want then (s, AGoto (GSet size want)) else (s, AReturn (Ret (GVal size true)))
  | GSet size want => (GStore want (gs_spawns s), AReturn (Ret (GVal size true)))
  end.

(** Beside the list, a record of the runs under the wrapper, with the stack each one used.  It is written from
    the operation alone. *)
Record gledger := GLedger { gl_store : gstore; gl_runs : list Z }.
Definition ran (o : gop) (p : gpc) (l : list Z) : list Z := match o, p with GSpawn hwm, GRun _ => hwm :: l | _, _ => l end.
Definition gd_step (o : gop) (p : gpc) (s : gledger) : gledger * action gpc gval :=
  let '(s', a) := grow_down o p (gl_store s) in (GLedger s' (ran o p (gl_runs s)), a).

Definition gd_machine : machine gledger gop gpc gval := Machine (λ _, GHead) (λ _ _ _ o p s, gd_step o p s).
Definition gd_new : gledger := GLedger (GStore 0 0) [].

(** ** What is learned *)

(** The sizes that the measured runs call for: four times the stack used, rounded up to 16 KiB times a power of
    two, but no more than the default stack; and the largest of them. *)
Definition wants (runs : list Z) : list Z := (λ h, Z.min ceiling (fit (4 * h))) <$> filter (λ h, h ≠ 0) runs.
Definition max_of (l : list Z) : Z := foldr Z.max 0 l.

Lemma want_of_spec hwm : want_of hwm = Z.min ceiling (fit (4 * hwm)).
Proof. unfold want_of. rewrite next_pow2_fit, Z.mul_comm. change GROW_DOWN_MARGIN with 4. destruct (ceiling <? _) eqn:E; lia. Qed.

Lemma wants_cons hwm l : wants (hwm :: l) = if hwm =? 0 then wants l else want_of hwm :: wants l.
Proof.
  unfold wants. rewrite want_of_spec. destruct (Z.eqb_spec hwm 0) as [->|Hne]; [by rewrite filter_cons_False by (intros H; by apply H)|by rewrite filter_cons_True].
Qed.

Lemma max_of_nonneg l : 0 <= max_of l.
Proof. induction l; simpl; lia. Qed.

Lemma wants_le l x : x ∈ wants l -> x <= ceiling.
Proof. unfold wants. intros (h & -> & _)%list_elem_of_fmap. lia. Qed.

(** ** Every interleaving *)

Definition known (s : gledger) (x : Z) : Prop := x = 0 \/ x ∈ wants (gl_runs s).
Definition gd_ok (s : gledger) : Prop := known s (gs_size (gl_store s)).
Definition gd_local (s : gledger) (t : tid) (c : ctl gop gpc gval) : Prop :=
  match c with
  | At _ (GSet size want) => known s size /\ known s want
  | At _ (GCheck size) | At _ (GCount size) | At _ (GCounted size _) | At _ (GRun size) => known s size
  | Fin _ (Ret v) => known s (gv_size v)
  | Idle | At _ GHead => True
  | _ => False
  end.

Lemma gd_quiet may : quiet_moves gd_machine may gd_ok gd_local (λ _, 0).
Proof. split; try done. Qed.

(** More runs, no less known. *)
Lemma known_mono s s' x : gl_runs s' = gl_runs s \/ (exists h, gl_runs s' = h :: gl_runs s) -> known s x -> known s' x.
Proof.
  intros Hr [->|Hx]; [by left|right]. destruct Hr as [->|[h ->]]; [done|]. rewrite wants_cons. destruct (h =? 0); [done|]. by apply elem_of_cons; right.
Qed.

Lemma gd_local_mono s s' t c : gl_runs s' = gl_runs s \/ (exists h, gl_runs s' = h :: gl_runs s) -> gd_local s t c -> gd_local s' t c.
Proof.
  intros Hr. destruct c as [|o [| | | | |]| | | |o [v|e]]; simpl; try done; try (by apply known_mono). intros [? ?]. split; by eapply known_mono.
Qed.

Lemma gd_inv isf may w : reach gd_machine isf may gd_new w -> og_inv gd_ok gd_local (λ _, 0) (λ _, 0) w.
Proof.
  pose proof (gd_quiet may) as Hq.
  apply (og_reach gd_machine isf may gd_ok gd_local (λ _, 0) (λ _, 0)); [by left|done|done|].
  intros t now [hwm] p s s' a Hs Hl H1. simpl in H1. unfold gd_step in H1.
  assert (Hr : forall st, gl_runs (GLedger st (ran (GSpawn hwm) p (gl_runs s))) = gl_runs s \/ exists h, gl_runs (GLedger st (ran (GSpawn hwm) p (gl_runs s))) = h :: gl_runs s)
    by (intros st; destruct p; simpl; eauto).
  assert (Hwant : hwm ≠ 0 -> forall st, known (GLedger st (hwm :: gl_runs s)) (want_of hwm)).
  { intros Hne st. right. simpl. rewrite wants_cons, (proj2 (Z.eqb_neq hwm 0)) by done. by left. }
  assert (Hoth : forall st t' c, t' ≠ t -> gd_local s t' c -> gd_local (GLedger st (ran (GSpawn hwm) p (gl_runs s))) t' c) by (intros st t' c _; by apply gd_local_mono).
  assert (Hkn : forall st x, known s x -> known (GLedger st (ran (GSpawn hwm) p (gl_runs s))) x) by (intros st x; by apply known_mono).
  destruct p as [|size|size|size n|size|size want]; simpl in H1, Hl, Hoth, Hkn.
  - injection H1 as <- <-. refine (conj _ (conj _ (conj (Hoth _) _))); [by apply Hkn|by apply Hkn|done].
  - destruct (GROW_DOWN_SAMPLES <=? gs_spawns (gl_store s)); injection H1 as <- <-; (refine (conj _ (conj _ (conj (Hoth _) _))); [by apply Hkn|by apply Hkn|done]).
  - injection H1 as <- <-. refine (conj _ (conj _ (conj (Hoth _) _))); [by apply Hkn|by apply Hkn|done].
  - injection H1 as <- <-. refine (conj _ (conj _ (conj (Hoth _) _))); [by apply Hkn|by apply Hkn|done].
  - destruct (Z.eqb_spec hwm 0) as [->|Hne]; [|destruct (gs_size (gl_store s) <? want_of hwm)]; injection H1 as <- <-;
      (refine (conj _ (conj _ (conj (Hoth _) _))); [by apply Hkn| |done]); simpl; [by apply Hkn|split; [by apply Hkn|by apply Hwant]|by apply Hkn].
  - injection H1 as <- <-. destruct Hl as [Hl1 Hl2]. refine (conj _ (conj _ (conj (Hoth _) _))); [by apply Hkn|by apply Hkn|done].
Qed.

(** Under any interleaving a spawn reserves the default size, or a size that a run of the callable calls for,
    and never more than the default stack, on which the callable is known to run. *)
Theorem grow_down_bounded isf w t hwm v : 0 <= ceiling -> reach gd_machine isf any_call gd_new w ->
  ctl_of w t = Fin (GSpawn hwm) (Ret v) -> (gv_size v = 0 \/ gv_size v ∈ wants (gl_runs (w_obj w))) /\ gv_size v <= ceiling.
Proof.
  intros Hc Hr Hw. destruct (gd_inv _ _ _ Hr) as (_ & HL & _). pose proof (HL t) as Hl. rewrite Hw in Hl. simpl in Hl.
  split; [done|]. destruct Hl as [->|Hin]; [done|by eapply wants_le].
Qed.

(** ** Spawns one after the other *)





(** ** Once frozen *)

(** No spawn is being measured. *)
Definition calm (w : world gledger gop gpc gval) : Prop :=
  GROW_DOWN_SAMPLES <= gs_spawns (gl_store (w_obj w)) /\
  forall t, at_rest (ctl_of w t) = true \/ (exists o, ctl_of w t = At o GHead) \/ exists o size, ctl_of w t = At o (GCheck size).

(** When the samples are taken and no measured spawn is left, the learned size is final. *)
Lemma frozen_keeps isf may w es w' : calm w -> run gd_machine isf may w es = Some w' ->
  gs_size (gl_store (w_obj w')) = gs_size (gl_store (w_obj w)) /\ calm w'.
Proof.
  revert w. induction es as [|e es IH]; intros w Hc; simpl; [by intros; simplify_eq|].
  destruct (exec gd_machine isf may w e) as [w1|] eqn:E; simpl; [|done]. intros H1.
  assert (H2 : gs_size (gl_store (w_obj w1)) = gs_size (gl_store (w_obj w)) /\ calm w1).
  { apply exec_step in E. destruct Hc as [Hn Ht].
    assert (Hbad : forall t c, ctl_of w t = c -> at_rest c = true \/ (exists o, c = At o GHead) \/ exists o size, c = At o (GCheck size)) by (intros t c <-; apply Ht).
    assert (Hput : forall w2 t c, gl_store (w_obj w2) = gl_store (w_obj w) -> (forall t', t' ≠ t -> ctl_of w2 t' = ctl_of w t') -> ctl_of w2 t = c ->
      at_rest c = true \/ (exists o, c = At o GHead) \/ (exists o size, c = At o (GCheck size)) -> calm w2).
    { intros w2 t c Es Eo Ec Hcc. split; [by rewrite Es|]. intros t'. destruct (decide (t' = t)) as [->|Hne]; [by rewrite Ec|rewrite Eo by done; apply Ht]. }
    destruct E as [t o Hr Hm|t o p s' a Hcc Hb|t o dl p Hcc Hp|t o dl p Hcc|t o u p Hcc Hu|t o g l r Hcc|t o r Hcc|d Hd].
    - split; [done|]. eapply (Hput _ t); [done|intros t' Hne; by rewrite ctl_put, decide_False|by rewrite ctl_put, decide_True|eauto].
    - destruct (Hbad t _ Hcc) as [H3|[[o' H3]|[o' [size H3]]]]; [done|..]; destruct o as [hwm]; injection H3 as -> ->; simpl in Hb; unfold gd_step in Hb; simpl in Hb.
      + injection Hb as <- <-. split; [done|]. eapply (Hput _ t); [done|intros t' Hne; rewrite ctl_upd, decide_False by done; done|by rewrite ctl_upd, decide_True|]. simpl. eauto.
      + rewrite (proj2 (Z.leb_le _ _) Hn) in Hb. injection Hb as <- <-. split; [done|].
        eapply (Hput _ t); [done|intros t' Hne; rewrite ctl_upd, decide_False by done; done|by rewrite ctl_upd, decide_True|]. by left.
    - destruct (Hbad t _ Hcc) as [H3|[[o' H3]|[o' [size H3]]]]; done.
    - destruct (Hbad t _ Hcc) as [H3|[[o' H3]|[o' [size H3]]]]; done.
    - destruct (Hbad t _ Hcc) as [H3|[[o' H3]|[o' [size H3]]]]; done.
    - destruct (Hbad t _ Hcc) as [H3|[[o' H3]|[o' [size H3]]]]; done.
    - destruct (Hbad t _ Hcc) as [H3|[[o' H3]|[o' [size H3]]]]; done.
    - split; [done|]. by split. }
  destruct H2 as [H2 H3]. rewrite <- H2. by apply IH.
Qed.
End growdown.

(** ** Concrete runs, with the default stack of 512 KiB *)

Definition DEFAULT_STACK : Z := 524288.
(** A spawn by thread [t], up to the write of the learned size, and to its end. *)
Definition spawn_to_set (t : tid) (hwm : Z) : list (event gop) := ECall t (GSpawn hwm) :: replicate 5 (EStep t).
Definition spawn_full (t : tid) (hwm : Z) : list (event gop) := spawn_to_set t hwm ++ [EStep t].
Definition ex_two : list (event gop) := spawn_full 0%nat 20000 ++ spawn_full 0%nat 60000 ++ spawn_to_set 0%nat 1000.

Lemma grow_down_bounded_witness :
  let w := after (gd_machine DEFAULT_STACK) (λ _, true) any_call gd_new ex_two in
  ctl_of w 0%nat = Fin (GSpawn 1000) (Ret (GVal 262144 true)) /\ 262144 ∈ wants DEFAULT_STACK (gl_runs (w_obj w)).
Proof.
  intros w. assert (H1 : ctl_of w 0%nat = Fin (GSpawn 1000) (Ret (GVal 262144 true))) by (vm_compute; reflexivity).
  split; [exact H1|].
  destruct (grow_down_bounded DEFAULT_STACK (λ _, true) w 0%nat 1000 _ ltac:(done) (after_reach _ _ _ _ _) H1) as [[[=]|Hs] _]. exact Hs.
Defined.


(** Sixty-two spawns that measure nothing, then two whose completions overlap: the smaller want is
    written last. *)
Definition ex_lost : list (event gop) :=
  concat (replicate 62 (spawn_to_set 0%nat 0)) ++ spawn_to_set 1%nat 20000 ++ spawn_to_set 2%nat 60000 ++ [EStep 2%nat; EStep 1%nat].

Lemma calm_check w : GROW_DOWN_SAMPLES <= gs_spawns (gl_store (w_obj w)) -> map_Forall (λ _ c, at_rest c = true) (w_ctl w) -> calm w.
Proof.
  intros Hn Hm. split; [done|]. intros t. left. unfold ctl_of. destruct (w_ctl w !! t) as [c|] eqn:E; simpl; [exact (Hm t c E)|done].
Qed.

(** A lost update of the last samples is final: the callable keeps 128 KiB for good although a run of it
    wanted 256 KiB (lines 136-137).  The comment at lines 62-65 says that it delays convergence by one
    spawn. *)
Theorem grow_down_lost_max : exists w,
  reach (gd_machine DEFAULT_STACK) (λ _, true) any_call gd_new w /\ calm w /\
  262144 ∈ wants DEFAULT_STACK (gl_runs (w_obj w)) /\ gs_size (gl_store (w_obj w)) = 131072 /\
  forall es w', run (gd_machine DEFAULT_STACK) (λ _, true) any_call w es = Some w' -> gs_size (gl_store (w_obj w')) = 131072.
Proof.
  set (w := after (gd_machine DEFAULT_STACK) (λ _, true) any_call gd_new ex_lost).
  assert (Hc : calm w).
  { apply calm_check; [by vm_compute|]. apply (bool_decide_unpack _). vm_compute. exact I. }
  assert (H2 : gs_size (gl_store (w_obj w)) = 131072) by (vm_compute; reflexivity).
  exists w. split; [apply after_reach|]. split; [done|]. split; [apply (bool_decide_unpack _); vm_compute; exact I|]. split; [done|].
  assert (Hkeep : forall es w1 w', calm w1 -> run (gd_machine DEFAULT_STACK) (λ _, true) any_call w1 es = Some w' -> gs_size (gl_store (w_obj w')) = gs_size (gl_store (w_obj w1))).
  { intros es w1 w' Hc1 H1. exact (proj1 (frozen_keeps DEFAULT_STACK (λ _, true) any_call w1 es w' Hc1 H1)). }
  intros es w' H1. rewrite <- H2. by apply (Hkeep es).
Qed.
